(* ===== verification/_CoqProject ===== *)
-Q . S2P
Prelude.v
Ranges.v
RangeSets.v
BitField.v
RlePlus.v
Blockstore.v
Amt.v
AmtMap.v
AmtIter.v
AmtSpec.v
Hamt.v
HamtBits.v
HamtMap.v
HamtSpec.v
Address.v
Runtime.v
Types.v
Gas.v
StateTree.v
Interp.v
InterpFacts.v
InterpInv.v
SimpleActors.v
Multisig.v
Paych.v
Smooth.v
Reward.v
Verifreg.v
Power.v
Funds.v
Market.v
MarketDeals.v
Vesting.v
MinerFunds.v
Sectors.v
Expirations.v
Schedule.v
ScheduleOps.v
ScheduleRemove.v
Partition.v
PartitionSpec.v
PartitionOps.v
EarlyTerminations.v
PartitionHistory.v
DeadlineAssign.v
SectorMaps.v
DeadlineState.v
DeadlineParts.v
DeadlineSpec.v
DeadlineOps.v
DeadlineExpiry.v
DeadlineTerminate.v
DeadlineGrowth.v
DeadlineCompact.v
DeadlineHistory.v
MinerState.v
MinerActor.v
MinerHandlers.v
MinerInv.v
MinerSafe.v
Network.v
InterpSpec.v
Vm.v
Sorting.v
Messages.v
Blocks.v
ChainIndex.v
