(* ===== verification/Prelude.v ===== *)
(** * Forest: a verification development (header is completed below) *)

From stdpp Require Export base tactics numbers list option gmap sorting.
From Stdlib Require Export ZArith Lia.

#[global] Open Scope Z_scope.

(** ** Fallible code

    Rust's [Result<A, E>].  The monad instances give the notation
    [x ← m; k] for the [?] operator. *)

Inductive result (E A : Type) : Type :=
| Ok (a : A)
| Err (e : E).
Arguments Ok {E A} a.
Arguments Err {E A} e.

#[global] Instance result_ret {E} : MRet (result E) := λ A a, Ok a.
#[global] Instance result_bind {E} : MBind (result E) := λ A B f m,
  match m with Ok a => f a | Err e => Err e end.
#[global] Instance result_fmap {E} : FMap (result E) := λ A B f m,
  match m with Ok a => Ok (f a) | Err e => Err e end.

(** [Option::ok_or]. *)
Definition ok_or {E A} (o : option A) (e : E) : result E A :=
  match o with Some a => Ok a | None => Err e end.

(** An early [return Err(e)] guarded by a condition. *)
Definition throw_if {E} (c : bool) (e : E) : result E unit :=
  if c then Err e else Ok tt.

Definition is_ok {E A} (r : result E A) : bool :=
  match r with Ok _ => true | Err _ => false end.

(** A fold whose body may fail, a [for] loop with [?] in its body. *)
Fixpoint try_fold {E A B} (f : B → A → result E B) (b : B) (l : list A)
    : result E B :=
  match l with
  | [] => Ok b
  | a :: l => match f b a with Ok b' => try_fold f b' l | Err e => Err e end
  end.

(** ** Machine integers

    A [w]-bit unsigned integer is a [Z] in [[0, 2^w)], a signed one a [Z] in
    [[-2^(w-1), 2^(w-1))]. *)

Definition usize_max : Z := 2 ^ 64 - 1.
Definition i64_max : Z := 2 ^ 63 - 1.
Definition i64_min : Z := - 2 ^ 63.

Definition is_u64 (z : Z) : Prop := 0 ≤ z ≤ usize_max.
Definition is_i64 (z : Z) : Prop := i64_min ≤ z ≤ i64_max.

Definition wrap_u8 (z : Z) : Z := z mod 2 ^ 8.
Definition wrap_u16 (z : Z) : Z := z mod 2 ^ 16.
Definition wrap_u64 (z : Z) : Z := z mod 2 ^ 64.

(** [u64::checked_add]-style addition: [None] on overflow. *)
Definition checked_add_u64 (a b : Z) : option Z :=
  if (a + b <=? usize_max)%Z then Some (a + b) else None.
Definition checked_add_i64 (a b : Z) : option Z :=
  if (a + b <=? i64_max)%Z && (i64_min <=? a + b)%Z then Some (a + b) else None.

(** ** Automation *)

Create HintDb forest.

(** Turn the boolean comparisons of the code into propositions. *)
Ltac reflect_bools :=
  repeat match goal with
  | H : (_ && _)%bool = true |- _ => apply andb_true_iff in H; destruct H
  | H : (_ && _)%bool = false |- _ => apply andb_false_iff in H
  | H : (_ || _)%bool = false |- _ => apply orb_false_iff in H; destruct H
  | H : (_ || _)%bool = true |- _ => apply orb_true_iff in H
  | H : negb _ = true |- _ => apply negb_true_iff in H
  | H : negb _ = false |- _ => apply negb_false_iff in H
  | H : (_ <? _)%Z = true |- _ => apply Z.ltb_lt in H
  | H : (_ <? _)%Z = false |- _ => apply Z.ltb_ge in H
  | H : (_ <=? _)%Z = true |- _ => apply Z.leb_le in H
  | H : (_ <=? _)%Z = false |- _ => apply Z.leb_gt in H
  | H : (_ =? _)%Z = true |- _ => apply Z.eqb_eq in H
  | H : (_ =? _)%Z = false |- _ => apply Z.eqb_neq in H
  | H : bool_decide _ = true |- _ => apply bool_decide_eq_true_1 in H
  | H : bool_decide _ = false |- _ => apply bool_decide_eq_false_1 in H
  end.

(** Split on the comparison an [if] of the goal tests. *)
Ltac case_if :=
  match goal with
  | |- context [if ?b then _ else _] =>
      lazymatch type of b with
      | bool => let E := fresh "E" in destruct b eqn:E; reflect_bools
      | _ => let E := fresh "E" in destruct b as [E|E]
      end
  end.

(** One step of symbolic execution of a successful run: a hypothesis that a
    chain of guards returned [Ok] is opened at its first guard. *)
Ltac inv_ok_step :=
  match goal with
  | H : Ok _ = Ok _ |- _ => injection H as H; try subst
  | H : Ok _ = Err _ |- _ => discriminate H
  | H : Err _ = Ok _ |- _ => discriminate H
  | H : Err _ = Err _ |- _ => injection H as H; try subst
  | H : Some _ = Some _ |- _ => injection H as H; try subst
  | H : None = Some _ |- _ => discriminate H
  | H : Some _ = None |- _ => discriminate H
  | H : mret ?x = @Ok ?E ?A ?y |- _ => change (@Ok E A x = @Ok E A y) in H
  | H : throw_if ?c _ = Ok _ |- _ =>
      let E := fresh "Hguard" in
      unfold throw_if in H; destruct c eqn:E; [discriminate H | clear H]
  | H : ok_or ?o _ = Ok _ |- _ =>
      let E := fresh "Hsome" in
      unfold ok_or in H; destruct o eqn:E; [|discriminate H]
  | H : (?m ≫= _) = Ok _ |- _ =>
      let E := fresh "Hm" in
      destruct m eqn:E; [cbn [mbind result_bind] in H | discriminate H]
  | H : result_bind _ _ _ ?m = Ok _ |- _ =>
      let E := fresh "Hm" in
      destruct m eqn:E; [cbn [mbind result_bind] in H | discriminate H]
  | H : (if ?b then _ else _) = Ok _ |- _ =>
      let E := fresh "Hif" in destruct b eqn:E
  | H : match ?m with Ok _ => _ | Err _ => _ end = Ok _ |- _ =>
      let E := fresh "Hm" in destruct m eqn:E
  | H : match ?m with Some _ => _ | None => _ end = Ok _ |- _ =>
      let E := fresh "Hm" in destruct m eqn:E
  end.
Ltac inv_ok := repeat inv_ok_step.

(** ** Generic lemmas *)

Lemma bool_eq_iff (x y : bool) : (x = true ↔ y = true) → x = y.
Proof. destruct x, y; intuition congruence. Qed.

Lemma option_test_is_Some {A} (o : option A) :
  match o with Some _ => true | None => false end = true ↔ is_Some o.
Proof. destruct o as [a|]; [by split; eauto|]. split; [done|by intros [??]]. Qed.

Section Result.
Context {E : Type}.

Lemma bind_Ok {A B} (f : A → result E B) (m : result E A) (b : B) :
  m ≫= f = Ok b ↔ ∃ a, m = Ok a ∧ f a = Ok b.
Proof. destruct m; cbn; naive_solver. Qed.

Lemma throw_if_Ok (c : bool) (e : E) u : throw_if c e = Ok u ↔ c = false.
Proof. destruct c, u; cbn; naive_solver. Qed.

Lemma try_fold_app {A B} (f : B → A → result E B) b l1 l2 :
  try_fold f b (l1 ++ l2) = (try_fold f b l1 ≫= λ b', try_fold f b' l2).
Proof.
  revert b; induction l1 as [|a l1 IH]; intros b; [done|].
  cbn. destruct (f b a); [apply IH|done].
Qed.

(** An invariant of the loop body is an invariant of the loop. *)
Lemma try_fold_inv {A B} (P : B → Prop) (f : B → A → result E B) l :
  (∀ b a b', a ∈ l → P b → f b a = Ok b' → P b') →
  ∀ b b', P b → try_fold f b l = Ok b' → P b'.
Proof.
  induction l as [|a l IH]; intros Hf b b' Hb; cbn; intros Hr; inv_ok; [done|].
  eapply IH; [|eapply Hf; [|exact Hb|eassumption]|exact Hr]; set_solver.
Qed.
End Result.

(** *** Strictly ascending lists of integers *)

Lemma strict_sorted_ext (l1 l2 : list Z) :
  StronglySorted Z.lt l1 → StronglySorted Z.lt l2 →
  (∀ x, x ∈ l1 ↔ x ∈ l2) → l1 = l2.
Proof.
  intros H1. revert l2. induction H1 as [|x l1 H1 IH Hx]; intros l2 H2 Heq.
  { destruct l2 as [|y l2]; [done|]. specialize (Heq y). set_solver. }
  destruct H2 as [|y l2 H2 Hy]; [specialize (Heq x); set_solver|].
  rewrite Forall_forall in Hx, Hy.
  assert (x = y) as ->.
  { pose proof (proj1 (Heq x)) as Hxin. pose proof (proj2 (Heq y)) as Hyin.
    rewrite !elem_of_cons in Hxin, Hyin.
    destruct Hxin as [|Hxin]; [by left|done|]. destruct Hyin as [|Hyin]; [by left|done|].
    apply Hx in Hyin. apply Hy in Hxin. lia. }
  f_equal. apply IH; [done|]. intros z. specialize (Heq z). rewrite !elem_of_cons in Heq.
  split; intros Hz.
  - destruct (proj1 Heq) as [->|]; [by right| |done]. apply Hx in Hz. lia.
  - destruct (proj2 Heq) as [->|]; [by right| |done]. apply Hy in Hz. lia.
Qed.

Lemma strict_sorted_filter (f : Z → bool) (l : list Z) :
  StronglySorted Z.lt l → StronglySorted Z.lt (List.filter f l).
Proof.
  induction 1 as [|x l Hl IH Hx]; [constructor|]. cbn. case_if; [|done].
  constructor; [done|]. rewrite Forall_forall in Hx |- *. intros y Hy.
  apply Hx. apply list_elem_of_In in Hy. apply List.filter_In in Hy as [Hy _].
  by apply list_elem_of_In.
Qed.

Lemma elem_of_list_filter (f : Z → bool) (l : list Z) x :
  x ∈ List.filter f l ↔ f x = true ∧ x ∈ l.
Proof. rewrite !list_elem_of_In, List.filter_In. tauto. Qed.

(** [find] on an ascending list finds the least element with the property. *)
Lemma find_head_filter (f : Z → bool) (l : list Z) :
  List.find f l = head (List.filter f l).
Proof. induction l as [|x l IH]; [done|]. cbn. by case_if. Qed.

Lemma strict_sorted_head (l : list Z) x :
  StronglySorted Z.lt l → head l = Some x ↔ x ∈ l ∧ ∀ y, y ∈ l → x ≤ y.
Proof.
  intros Hl. destruct Hl as [|a l Hl Ha]; cbn; [set_solver|].
  rewrite Forall_forall in Ha. split.
  - intros [= ->]. split; [by left|]. intros y [->|Hy]%elem_of_cons; [done|].
    apply Ha in Hy. lia.
  - intros [[->|Hx]%elem_of_cons Hmin]; [done|]. apply Ha in Hx.
    specialize (Hmin a ltac:(by left)). lia.
Qed.

Lemma seqZ_sorted m n : StronglySorted Z.lt (seqZ m n).
Proof.
  destruct (decide (0 ≤ n)) as [Hn|]; [|rewrite seqZ_nil by lia; constructor].
  revert m; pattern n; apply natlike_ind; [|clear n Hn|done]; [constructor|].
  intros n Hn IH m. rewrite seqZ_cons by lia. rewrite Z.pred_succ.
  constructor; [apply IH|]. apply Forall_seqZ. lia.
Qed.

Lemma strict_sorted_nodup (l : list Z) : StronglySorted Z.lt l → NoDup l.
Proof.
  induction 1 as [|x l Hl IH Hx]; constructor; [|done].
  intros Hin. rewrite Forall_forall in Hx. apply Hx in Hin. lia.
Qed.

Lemma land_pow2 x (i : Z) : 0 ≤ i → negb (Z.land x (Z.shiftl 1 i) =? 0) = Z.testbit x i.
Proof.
  intros Hi. rewrite Z.shiftl_1_l. apply bool_eq_iff.
  rewrite negb_true_iff, Z.eqb_neq, <-(Z.pow2_bits_true i Hi). split.
  - intros Hne. destruct (Z.testbit x i) eqn:E; [by rewrite Z.pow2_bits_true|]. exfalso. apply Hne.
    apply Z.bits_inj'. intros j Hj. rewrite Z.land_spec, Z.pow2_bits_eqb, Z.bits_0 by done.
    destruct (Z.eqb_spec i j); [subst; by rewrite E|by rewrite andb_false_r].
  - intros Hx Hz. apply (f_equal (λ y, Z.testbit y i)) in Hz.
    rewrite Z.land_spec, Hx, Z.pow2_bits_true, Z.bits_0 in Hz by done. done.
Qed.

Lemma testbit_mod_pow2 z w i :
  0 ≤ w → Z.testbit (z mod 2 ^ w) i = (i <? w) && Z.testbit z i.
Proof.
  intros Hw. destruct (Z.ltb_spec i w) as [Hi|Hi].
  - destruct (decide (0 ≤ i)); [by rewrite Z.mod_pow2_bits_low|].
    rewrite !Z.testbit_neg_r by lia. done.
  - by rewrite Z.mod_pow2_bits_high by lia.
Qed.

Lemma testbit_high z n i : 0 ≤ z < 2 ^ n → n ≤ i → Z.testbit z i = false.
Proof.
  intros Hz Hi. destruct (decide (0 ≤ n)).
  - rewrite <-(Z.mod_small z (2 ^ n)) by done. by apply Z.mod_pow2_bits_high.
  - rewrite Z.pow_neg_r in Hz by lia. lia.
Qed.

(** A number whose bits vanish from [n] on is below [2^n]. *)
Lemma testbit_bound z n :
  0 ≤ n → 0 ≤ z → (∀ i, n ≤ i → Z.testbit z i = false) → z < 2 ^ n.
Proof.
  intros Hn Hz Hi. assert (z = z mod 2 ^ n) as ->.
  - apply Z.bits_inj'. intros i ?. rewrite testbit_mod_pow2 by done.
    destruct (Z.ltb_spec i n); [done|]. by rewrite Hi.
  - apply Z.mod_pos_bound. lia.
Qed.

Lemma lor_shiftl_add a b n :
  0 ≤ n → 0 ≤ a < 2 ^ n → Z.lor a (Z.shiftl b n) = a + 2 ^ n * b.
Proof.
  intros Hn Ha. rewrite <-Z.add_nocarry_lor.
  - rewrite Z.shiftl_mul_pow2 by lia. lia.
  - apply Z.bits_inj'. intros i Hi. rewrite Z.land_spec, Z.testbit_0_l, Z.shiftl_spec by done.
    destruct (decide (i < n)); [by rewrite (Z.testbit_neg_r b), andb_false_r by lia|].
    by rewrite (testbit_high a n) by lia.
Qed.

(** *** Sums of integers over lists and finite maps *)

Definition zsum (l : list Z) : Z := foldr Z.add 0 l.

Lemma zsum_app l1 l2 : zsum (l1 ++ l2) = zsum l1 + zsum l2.
Proof. induction l1 as [|x l1 IH]; cbn; [done|]. unfold zsum in *. lia. Qed.
Lemma zsum_nonneg l : Forall (λ x, 0 ≤ x) l → 0 ≤ zsum l.
Proof. induction 1; cbn; [done|]. unfold zsum in *. lia. Qed.

Section map_sum.
Context {K A : Type} `{Countable K} (f : A → Z).
Implicit Types m : gmap K A.

Definition map_sum m : Z := map_fold (λ _ a acc, f a + acc) 0 m.

Lemma map_sum_empty : map_sum ∅ = 0.
Proof. apply map_fold_empty. Qed.

Lemma map_sum_insert_new m k a : m !! k = None → map_sum (<[k:=a]> m) = f a + map_sum m.
Proof. intros Hk. unfold map_sum. rewrite (map_fold_insert_L (λ _ a acc, f a + acc)); [done|intros; lia|done]. Qed.

Lemma map_sum_delete m k a : m !! k = Some a → map_sum (delete k m) = map_sum m - f a.
Proof.
  intros Hk. rewrite <-(insert_delete_id m k a Hk) at 2.
  rewrite map_sum_insert_new by apply lookup_delete_eq. lia.
Qed.

Lemma map_sum_insert m k a :
  map_sum (<[k:=a]> m) = map_sum m + f a - match m !! k with Some b => f b | None => 0 end.
Proof.
  destruct (m !! k) as [b|] eqn:Hk.
  - rewrite <-insert_delete_eq, map_sum_insert_new by apply lookup_delete_eq.
    rewrite (map_sum_delete _ _ _ Hk). lia.
  - rewrite map_sum_insert_new by done. lia.
Qed.

Lemma map_sum_nonneg m : (∀ k a, m !! k = Some a → 0 ≤ f a) → 0 ≤ map_sum m.
Proof.
  induction m as [|k a m Hk IH] using map_ind; intros Hf; [by rewrite map_sum_empty|].
  rewrite map_sum_insert_new by done.
  assert (0 ≤ f a) by (eapply Hf; apply lookup_insert_eq).
  assert (0 ≤ map_sum m); [|lia]. apply IH. intros k' a' Hk'. apply (Hf k').
  rewrite lookup_insert_ne; [done|]. congruence.
Qed.

Lemma map_sum_lookup_le m k a :
  (∀ k a, m !! k = Some a → 0 ≤ f a) → m !! k = Some a → f a ≤ map_sum m.
Proof.
  intros Hf Hk. pose proof (map_sum_delete _ _ _ Hk).
  assert (0 ≤ map_sum (delete k m)); [|lia]. apply map_sum_nonneg.
  intros k' a' [_ Hk']%lookup_delete_Some. eauto.
Qed.

End map_sum.

(** Sums of terms that also depend on the key. *)
Section map_sumk.
Context {K A : Type} `{Countable K}.
Implicit Types (f g : K → A → Z) (m : gmap K A).

Definition map_sumk f m : Z := map_fold (λ k a acc, f k a + acc) 0 m.

Lemma map_sumk_empty f : map_sumk f ∅ = 0.
Proof. apply map_fold_empty. Qed.

Lemma map_sumk_insert_new f m k a : m !! k = None → map_sumk f (<[k:=a]> m) = f k a + map_sumk f m.
Proof. intros Hk. unfold map_sumk. rewrite (map_fold_insert_L (λ k a acc, f k a + acc)); [done|intros; lia|done]. Qed.

Lemma map_sumk_delete f m k a : m !! k = Some a → map_sumk f (delete k m) = map_sumk f m - f k a.
Proof.
  intros Hk. rewrite <-(insert_delete_id m k a Hk) at 2.
  rewrite map_sumk_insert_new by apply lookup_delete_eq. lia.
Qed.

Lemma map_sumk_ext f g m : (∀ k a, m !! k = Some a → f k a = g k a) → map_sumk f m = map_sumk g m.
Proof.
  induction m as [|k a m Hk IH] using map_ind; intros Hfg; [by rewrite !map_sumk_empty|].
  rewrite !map_sumk_insert_new by done. rewrite (Hfg k a) by apply lookup_insert_eq. f_equal. apply IH.
  intros k' a' Hk'. apply Hfg. rewrite lookup_insert_ne; [done|]. congruence.
Qed.

(** The sums of two maps and functions that agree except at one key. *)
Lemma map_sumk_update f g m k a :
  m !! k = Some a → (∀ k' a', k' ≠ k → f k' a' = g k' a') → map_sumk g m = map_sumk f m + g k a - f k a.
Proof.
  intros Hk Hfg. pose proof (map_sumk_delete f m k a Hk). pose proof (map_sumk_delete g m k a Hk).
  assert (map_sumk f (delete k m) = map_sumk g (delete k m)); [|lia].
  apply map_sumk_ext. intros k' a' [Hne _]%lookup_delete_Some. by apply Hfg.
Qed.

Lemma map_sumk_nonneg f m : (∀ k a, m !! k = Some a → 0 ≤ f k a) → 0 ≤ map_sumk f m.
Proof.
  induction m as [|k a m Hk IH] using map_ind; intros Hf; [by rewrite map_sumk_empty|].
  rewrite map_sumk_insert_new by done. assert (0 ≤ f k a) by (apply Hf, lookup_insert_eq).
  assert (0 ≤ map_sumk f m); [|lia]. apply IH. intros k' a' Hk'. apply Hf. rewrite lookup_insert_ne; [done|]. congruence.
Qed.

Lemma map_sumk_lookup_le f m k a : (∀ k a, m !! k = Some a → 0 ≤ f k a) → m !! k = Some a → f k a ≤ map_sumk f m.
Proof.
  intros Hf Hk. pose proof (map_sumk_delete f m k a Hk).
  assert (0 ≤ map_sumk f (delete k m)); [|lia]. apply map_sumk_nonneg.
  intros k' a' [_ Hk']%lookup_delete_Some. eauto.
Qed.

End map_sumk.

(** ** Bytes *)

(** [BigEndian::write_u64] and [read_u64]; a byte is a [Z] below 256. *)
Definition be_u64 (w : Z) : list Z :=
  (λ i, Z.land (Z.shiftr w (8 * (7 - Z.of_nat i))) 255) <$> seq 0 8.
Definition un_be_u64 (bz : list Z) : Z := foldl (λ acc b, acc * 256 + b) 0 bz.
