(* ===== verification/Ranges.v ===== *)
(** * Range iterators of the bit field crate

    [utils/bitfield/src/iter/mod.rs] and [utils/bitfield/src/iter/combine.rs]:
    iterators over ranges of set bits, the adapters that skip and take bits,
    and [Combine], which merges two range iterators under a combinator (union,
    intersection, difference, symmetric difference, cut).

    The file has two levels.  [Section Adapters] models the code as it is
    written, lazy iterators with a state and a [next] method.  [Section
    Reference] has the list functions these iterators compute, and the
    [collect_*] lemmas say that draining an iterator gives that list.  The
    theorems on sets of bits are then stated on lists. *)

From S2P Require Import Prelude.

(** [Range<usize>]. *)
Record range := Range { start : Z; end_ : Z }.
Add Printing Constructor range.

#[global] Instance range_eq_dec : EqDecision range.
Proof. solve_decision. Defined.

(** [Range::len]: the number of values, [0] for an empty range. *)
Definition range_len (r : range) : Z := Z.max 0 (end_ r - start r).

Definition range_nonempty (r : range) : bool := start r <? end_ r.

(** Is the bit [b] in the range, in one of the ranges? *)
Definition in_range (b : Z) (r : range) : bool := (start r <=? b) && (b <? end_ r).
Definition in_ranges (b : Z) (l : list range) : bool := existsb (in_range b) l.

(** ** Iterators *)

(** Rust's [Iterator] trait: [next] takes the state and returns an item, or
    [None], with the new state.  [remaining] bounds the number of items still
    to come; the loops of the adapters use it as their fuel. *)
Class Iterator (S A : Type) := {
  next : S → option A * S;
  remaining : S → nat
}.

Class IteratorOk (S A : Type) `{!Iterator S A} : Prop := {
  next_remaining (s : S) (a : A) (s' : S) :
    next s = (Some a, s') → (remaining s' < remaining s)%nat;
  next_remaining_le (s : S) (o : option A) (s' : S) :
    next s = (o, s') → (remaining s' ≤ remaining s)%nat
}.

Fixpoint collect_fuel {S A} `{!Iterator S A} (fuel : nat) (s : S) : list A :=
  match fuel with
  | O => []
  | Datatypes.S fuel =>
      match next s with
      | (Some a, s') => a :: collect_fuel fuel s'
      | (None, _) => []
      end
  end.

(** [Iterator::collect] into a [Vec]. *)
Definition collect {S A} `{!Iterator S A} (s : S) : list A :=
  collect_fuel (remaining s) s.

(** [Ranges]: an ordinary iterator, here the remaining items of a [Vec]. *)
#[global] Instance list_iterator {A} : Iterator (list A) A := {
  next l := match l with [] => (None, []) | a :: l => (Some a, l) end;
  remaining l := length l
}.

(** ** Skip and Take *)

Record Skip (I : Type) := MkSkip { skip_iter : I; skip_n : Z }.
Arguments MkSkip {I}. Arguments skip_iter {I}. Arguments skip_n {I}.

Record Take (I : Type) := MkTake { take_iter : I; take_n : Z }.
Arguments MkTake {I}. Arguments take_iter {I}. Arguments take_n {I}.

Section SkipTake.
Context {I : Type} `{!Iterator I range}.

Definition skip_bits (self : I) (n : Z) : Skip I := MkSkip self n.
Definition take_bits (self : I) (n : Z) : Take I := MkTake self n.

Fixpoint skip_next_loop (fuel : nat) (self : Skip I) : option range * Skip I :=
  match fuel with
  | O => (None, self)
  | S fuel =>
      match next (skip_iter self) with
      | (None, it) => (None, MkSkip it (skip_n self))
      | (Some r, it) =>
          if skip_n self <? range_len r
          then (Some (Range (start r + skip_n self) (end_ r)), MkSkip it 0)
          else skip_next_loop fuel (MkSkip it (skip_n self - range_len r))
      end
  end.

Definition skip_next (self : Skip I) : option range * Skip I :=
  skip_next_loop (S (remaining (skip_iter self))) self.

Definition take_next (self : Take I) : option range * Take I :=
  if take_n self =? 0 then (None, self)
  else
    match next (take_iter self) with
    | (None, it) => (None, MkTake it (take_n self))
    | (Some r, it) =>
        let r := if take_n self <? range_len r
                 then Range (start r) (start r + take_n self) else r in
        (Some r, MkTake it (take_n self - range_len r))
    end.

#[global] Instance skip_iterator : Iterator (Skip I) range := {
  next := skip_next; remaining s := remaining (skip_iter s) }.
#[global] Instance take_iterator : Iterator (Take I) range := {
  next := take_next; remaining s := remaining (take_iter s) }.
End SkipTake.

(** ** Lookahead and Merge *)

Record Lookahead (I A : Type) := MkLookahead { la_iter : I; la_next : option A }.
Arguments MkLookahead {I A}. Arguments la_iter {I A}. Arguments la_next {I A}.

Section Lookahead.
Context {I A : Type} `{!Iterator I A}.

Definition lookahead_new (iter : I) : Lookahead I A :=
  let '(n, it) := next iter in MkLookahead it n.

(** [peek] gives mutable access to the stored item: it is read with
    [la_next] and written with [lookahead_put]. *)
Definition lookahead_put (self : Lookahead I A) (a : A) : Lookahead I A :=
  MkLookahead (la_iter self) (Some a).

Definition lookahead_next (self : Lookahead I A) : option A * Lookahead I A :=
  match la_next self with
  | None => (None, self)
  | Some a =>
      let '(n, it) := next (la_iter self) in (Some a, MkLookahead it n)
  end.

#[global] Instance lookahead_iterator : Iterator (Lookahead I A) A := {
  next := lookahead_next;
  remaining s := (match la_next s with Some _ => 1 | None => 0 end
                  + remaining (la_iter s))%nat }.
End Lookahead.

Record Merge (I : Type) := MkMerge { merge_iter : Lookahead I range }.
Arguments MkMerge {I}. Arguments merge_iter {I}.

Section Merge.
Context {I : Type} `{!Iterator I range}.

Definition merge_new (iter : I) : Merge I := MkMerge (lookahead_new iter).

Fixpoint merge_next_loop (fuel : nat) (r : range) (it : Lookahead I range)
    : range * Lookahead I range :=
  match fuel with
  | O => (r, it)
  | S fuel =>
      match la_next it with
      | None => (r, it)
      | Some nx =>
          if end_ r <? start nx then (r, it)
          else merge_next_loop fuel
                 (Range (start r) (Z.max (end_ r) (end_ nx)))
                 (snd (next it))
      end
  end.

Definition merge_next (self : Merge I) : option range * Merge I :=
  match next (merge_iter self) with
  | (None, it) => (None, MkMerge it)
  | (Some r, it) =>
      let '(r', it') := merge_next_loop (S (remaining it)) r it in
      (Some r', MkMerge it')
  end.

#[global] Instance merge_iterator : Iterator (Merge I) range := {
  next := merge_next; remaining s := remaining (merge_iter s) }.
End Merge.

(** ** Combinators *)

(** The [Combinator] trait.  [advance_lhs c lhs rhs] returns the output range
    and the new value of [rhs], which it may mutate; [advance_rhs] the output
    range and the new value of [lhs]. *)
Class Combinator (C : Type) := {
  combinator_default : C;
  advance_lhs : C → range → range → range * range * C;
  advance_rhs : C → range → range → range * range * C;
  advance_lhs_tail : C → range → option range * C;
  advance_rhs_tail : C → range → option range * C
}.

Inductive Union := union_.
Inductive Intersection := intersection_.
Inductive Difference := difference_.
Inductive SymmetricDifference := symmetric_difference_.
Record Cut := MkCut { offset : Z }.

#[global] Instance Union_combinator : Combinator Union := {
  combinator_default := union_;
  advance_lhs c lhs rhs := (Range (Z.min (start lhs) (start rhs)) (end_ lhs), rhs, c);
  advance_rhs c lhs rhs := (Range (Z.min (start lhs) (start rhs)) (end_ rhs), lhs, c);
  advance_lhs_tail c lhs := (Some lhs, c);
  advance_rhs_tail c rhs := (Some rhs, c)
}.

#[global] Instance Intersection_combinator : Combinator Intersection := {
  combinator_default := intersection_;
  advance_lhs c lhs rhs := (Range (Z.max (start lhs) (start rhs)) (end_ lhs), rhs, c);
  advance_rhs c lhs rhs := (Range (Z.max (start lhs) (start rhs)) (end_ rhs), lhs, c);
  advance_lhs_tail c lhs := (None, c);
  advance_rhs_tail c rhs := (None, c)
}.

#[global] Instance Difference_combinator : Combinator Difference := {
  combinator_default := difference_;
  advance_lhs c lhs rhs := (Range (start lhs) (Z.min (end_ lhs) (start rhs)), rhs, c);
  advance_rhs c lhs rhs :=
    (Range (start lhs) (Z.min (end_ lhs) (start rhs)),
     Range (Z.max (start lhs) (end_ rhs)) (end_ lhs), c);
  advance_lhs_tail c lhs := (Some lhs, c);
  advance_rhs_tail c rhs := (None, c)
}.

(** [SymmetricDifference::advance]. *)
Definition symmetric_difference_advance (left right : range) : range * range :=
  if start left <=? start right then
    (Range (start left) (Z.min (end_ left) (start right)),
     Range (Z.max (start right) (end_ left)) (end_ right))
  else
    (Range (start right) (start left), Range (end_ left) (end_ right)).

#[global] Instance SymmetricDifference_combinator : Combinator SymmetricDifference := {
  combinator_default := symmetric_difference_;
  advance_lhs c lhs rhs := (symmetric_difference_advance lhs rhs, c);
  advance_rhs c lhs rhs := (symmetric_difference_advance rhs lhs, c);
  advance_lhs_tail c lhs := (Some lhs, c);
  advance_rhs_tail c rhs := (Some rhs, c)
}.

(** [Cut::offset]. *)
Definition cut_offset (c : Cut) (r : range) : range :=
  Range (start r - offset c) (end_ r - offset c).

#[global] Instance Cut_combinator : Combinator Cut := {
  combinator_default := MkCut 0;
  advance_lhs c lhs rhs :=
    (cut_offset c (Range (start lhs) (Z.min (end_ lhs) (start rhs))), rhs, c);
  advance_rhs c lhs rhs :=
    (cut_offset c (Range (start lhs) (Z.min (end_ lhs) (start rhs))),
     Range (Z.max (start lhs) (end_ rhs)) (end_ lhs),
     MkCut (offset c + range_len rhs));
  advance_lhs_tail c lhs := (Some (cut_offset c lhs), c);
  advance_rhs_tail c rhs := (None, c)
}.

(** ** Combine *)

(** [_Combine], before its outputs are merged. *)
Record Combine_ (A B C : Type) := MkCombine_ {
  lhs : Lookahead A range; rhs : Lookahead B range; combinator : C }.
Arguments MkCombine_ {A B C}. Arguments lhs {A B C}. Arguments rhs {A B C}.
Arguments combinator {A B C}.

Section Combine.
Context {A B C : Type} `{!Iterator A range, !Iterator B range, !Combinator C}.

Definition combine_new_ (l : A) (r : B) : Combine_ A B C :=
  MkCombine_ (lookahead_new l) (lookahead_new r) combinator_default.

Definition next_range (self : Combine_ A B C) : option range * Combine_ A B C :=
  let c := combinator self in
  match la_next (lhs self), la_next (rhs self) with
  | Some l, Some r =>
      if end_ l <=? end_ r then
        let '(o, r', c') := advance_lhs c l r in
        (Some o, MkCombine_ (snd (next (lhs self))) (lookahead_put (rhs self) r') c')
      else
        let '(o, l', c') := advance_rhs c l r in
        (Some o, MkCombine_ (lookahead_put (lhs self) l') (snd (next (rhs self))) c')
  | Some l, None =>
      let '(o, c') := advance_lhs_tail c l in
      (o, MkCombine_ (snd (next (lhs self))) (rhs self) c')
  | None, Some r =>
      let '(o, c') := advance_rhs_tail c r in
      (o, MkCombine_ (lhs self) (snd (next (rhs self))) c')
  | None, None => (None, self)
  end.

(** [iter::from_fn(|| self.next_range()).find(|r| r.start < r.end)]. *)
Fixpoint combine_next_loop (fuel : nat) (self : Combine_ A B C)
    : option range * Combine_ A B C :=
  match fuel with
  | O => (None, self)
  | S fuel =>
      match next_range self with
      | (None, self') => (None, self')
      | (Some r, self') =>
          if range_nonempty r then (Some r, self') else combine_next_loop fuel self'
      end
  end.

Definition combine_next_ (self : Combine_ A B C) : option range * Combine_ A B C :=
  combine_next_loop (S (remaining (lhs self) + remaining (rhs self))) self.

#[global] Instance combine_iterator_ : Iterator (Combine_ A B C) range := {
  next := combine_next_;
  remaining s := (remaining (lhs s) + remaining (rhs s))%nat }.
End Combine.

(** [Combine]: the merged outputs of [_Combine], and the methods of
    [RangeIterator] that build one. *)
Abbreviation Combine A B C := (Merge (Combine_ A B C)).

Section RangeIterator.
Context {A B : Type} `{!Iterator A range, !Iterator B range}.

Definition combine_new (C : Type) `{!Combinator C} (a : A) (b : B) : Combine A B C :=
  merge_new (combine_new_ (C:=C) a b).

Definition union (self : A) (other : B) : Combine A B Union :=
  combine_new Union self other.
Definition intersection (self : A) (other : B) : Combine A B Intersection :=
  combine_new Intersection self other.
Definition difference (self : A) (other : B) : Combine A B Difference :=
  combine_new Difference self other.
Definition symmetric_difference (self : A) (other : B)
    : Combine A B SymmetricDifference :=
  combine_new SymmetricDifference self other.
Definition cut (self : A) (other : B) : Combine A B Cut :=
  combine_new Cut self other.
End RangeIterator.

(** ** Ranges from bits *)

(** The iterator behind [ranges_from_bits] is a peekable iterator over the
    bits that remain. *)
Record FromBits := MkFromBits { bits : list Z }.

(** [while iter.peek() == Some(&end) { end += 1; iter.next(); }] *)
Fixpoint extend_range (e : Z) (l : list Z) : Z * list Z :=
  match l with
  | b :: l' => if b =? e then extend_range (e + 1) l' else (e, l)
  | [] => (e, [])
  end.

Definition from_bits_next (self : FromBits) : option range * FromBits :=
  match bits self with
  | [] => (None, self)
  | s :: l => let '(e, l') := extend_range (s + 1) l in
              (Some (Range s e), MkFromBits l')
  end.

#[global] Instance from_bits_iterator : Iterator FromBits range := {
  next := from_bits_next; remaining s := length (bits s) }.

Definition ranges_from_bits (bs : list Z) : FromBits := MkFromBits bs.

(** ** Reference: the lists these iterators produce *)

Fixpoint skip_list (n : Z) (l : list range) : list range :=
  match l with
  | [] => []
  | r :: l =>
      if n <? range_len r then Range (start r + n) (end_ r) :: skip_list 0 l
      else skip_list (n - range_len r) l
  end.

Fixpoint take_list (n : Z) (l : list range) : list range :=
  if n =? 0 then []
  else
    match l with
    | [] => []
    | r :: l =>
        let r := if n <? range_len r then Range (start r) (start r + n) else r in
        r :: take_list (n - range_len r) l
    end.

(** [merge_from r l]: the ranges of [r :: l] with every range glued to the
    previous one when they touch or overlap. *)
Fixpoint merge_from (r : range) (l : list range) : list range :=
  match l with
  | [] => [r]
  | nx :: l =>
      if end_ r <? start nx then r :: merge_from nx l
      else merge_from (Range (start r) (Z.max (end_ r) (end_ nx))) l
  end.

Definition merge_list (l : list range) : list range :=
  match l with [] => [] | r :: l => merge_from r l end.

Definition cons_nonempty (r : range) (l : list range) : list range :=
  if range_nonempty r then r :: l else l.

Section CombineList.
Context {C : Type} `{!Combinator C}.

Fixpoint combine_fuel (fuel : nat) (c : C) (l1 l2 : list range) : list range :=
  match fuel with
  | O => []
  | S fuel =>
      match l1, l2 with
      | l :: l1', r :: l2' =>
          if end_ l <=? end_ r then
            let '(o, r', c') := advance_lhs c l r in
            cons_nonempty o (combine_fuel fuel c' l1' (r' :: l2'))
          else
            let '(o, l', c') := advance_rhs c l r in
            cons_nonempty o (combine_fuel fuel c' (l' :: l1') l2')
      | l :: l1', [] =>
          let '(o, c') := advance_lhs_tail c l in
          match o with
          | Some o => cons_nonempty o (combine_fuel fuel c' l1' [])
          | None => []
          end
      | [], r :: l2' =>
          let '(o, c') := advance_rhs_tail c r in
          match o with
          | Some o => cons_nonempty o (combine_fuel fuel c' [] l2')
          | None => []
          end
      | [], [] => []
      end
  end.

(** Every step drops one range of one of the two lists. *)
Definition combine_list (c : C) (l1 l2 : list range) : list range :=
  combine_fuel (length l1 + length l2) c l1 l2.
End CombineList.

Fixpoint from_bits_fuel (fuel : nat) (l : list Z) : list range :=
  match fuel with
  | O => []
  | S fuel =>
      match l with
      | [] => []
      | s :: l => let '(e, l') := extend_range (s + 1) l in
                  Range s e :: from_bits_fuel fuel l'
      end
  end.

(** ** Draining an iterator gives the reference list *)

Section Collect.
Context {S A : Type} `{!Iterator S A, !IteratorOk S A}.

Lemma collect_fuel_enough n m (s : S) :
  (remaining s ≤ n)%nat → (remaining s ≤ m)%nat →
  collect_fuel n s = collect_fuel m s.
Proof.
  revert m s; induction n as [|n IH]; intros m s Hn Hm.
  - destruct m as [|m]; [done|]. cbn.
    destruct (next s) as [[a|] s'] eqn:E; [|done].
    apply next_remaining in E; lia.
  - destruct m as [|m]; cbn; destruct (next s) as [[a|] s'] eqn:E; try done.
    + apply next_remaining in E; lia.
    + f_equal. apply next_remaining in E. apply IH; lia.
Qed.

Lemma collect_unfold (s : S) :
  collect s = match next s with (Some a, s') => a :: collect s' | (None, _) => [] end.
Proof.
  unfold collect at 1. rewrite (collect_fuel_enough _ (Datatypes.S (remaining s))) by lia.
  cbn. destruct (next s) as [[a|] s'] eqn:E; [|done].
  f_equal. apply next_remaining in E. apply collect_fuel_enough; lia.
Qed.
End Collect.

#[global] Instance list_iterator_ok {A} : IteratorOk (list A) A.
Proof. split; intros [|? l] **; simplify_eq/=; lia. Qed.

Lemma collect_list {A} (l : list A) : collect l = l.
Proof. induction l as [|a l IH]; [done|]. rewrite collect_unfold. cbn. by f_equal. Qed.

Section SkipTakeOk.
Context {I : Type} `{!Iterator I range, !IteratorOk I range}.

Lemma skip_next_loop_spec fuel (s : Skip I) o s' :
  (remaining (skip_iter s) < fuel)%nat →
  skip_next_loop fuel s = (o, s') →
  match o with
  | None => skip_list (skip_n s) (collect (skip_iter s)) = []
  | Some r => skip_list (skip_n s) (collect (skip_iter s))
              = r :: skip_list (skip_n s') (collect (skip_iter s'))
              ∧ (remaining (skip_iter s') < remaining (skip_iter s))%nat
  end ∧ (remaining (skip_iter s') ≤ remaining (skip_iter s))%nat.
Proof.
  revert s; induction fuel as [|fuel IH]; intros [it n] Hf; [lia|]; cbn.
  rewrite collect_unfold. destruct (next it) as [[r|] it'] eqn:E; cbn.
  - pose proof (next_remaining _ _ _ E). cbn in Hf.
    case_if; intros ?; simplify_eq/=; [split; [split; [done|]|]; lia|].
    destruct (IH (MkSkip it' (n - range_len r))) as [IH1 IH2]; cbn in *;
      [lia|eassumption|].
    destruct o; [destruct IH1; repeat split; try done; lia|]. split; [done|lia].
  - intros ?; simplify_eq/=. split; [done|]. by apply next_remaining_le in E.
Qed.

#[global] Instance skip_iterator_ok : IteratorOk (Skip I) range.
Proof.
  split; intros s o s' H; apply skip_next_loop_spec in H as [H1 H2]; cbn in *;
    (done || lia || tauto).
Qed.

Lemma collect_skip (it : I) n : collect (skip_bits it n) = skip_list n (collect it).
Proof.
  unfold skip_bits. remember (remaining it) as k eqn:Hk.
  revert it n Hk; induction (lt_wf k) as [k _ IH]; intros it n ->.
  rewrite collect_unfold. cbn [next skip_iterator].
  destruct (skip_next _) as [o s'] eqn:E. unfold skip_next in E.
  apply skip_next_loop_spec in E as [E1 E2]; cbn in *; [|lia].
  destruct o as [r|]; [|done]. destruct E1 as [-> E1]. f_equal.
  destruct s' as [it' n']. eapply IH; [|done]. cbn in *. lia.
Qed.

#[global] Instance take_iterator_ok : IteratorOk (Take I) range.
Proof.
  split; intros [it n] o s'; cbn; unfold take_next; cbn; case_if;
    intros; simplify_eq/=; try done;
    destruct (next it) as [[r|] it'] eqn:E'; simplify_eq/=;
    first [eapply next_remaining; eassumption
          |eapply next_remaining_le; eassumption].
Qed.

Lemma collect_take (it : I) n : collect (take_bits it n) = take_list n (collect it).
Proof.
  unfold take_bits. remember (remaining it) as k eqn:Hk.
  revert it n Hk; induction (lt_wf k) as [k _ IH]; intros it n ->.
  rewrite collect_unfold. cbn [next take_iterator]. unfold take_next. cbn.
  rewrite (collect_unfold it). destruct (n =? 0) eqn:En.
  { by destruct (next it) as [[r|] it']; cbn; rewrite En. }
  destruct (next it) as [[r|] it'] eqn:E; cbn; rewrite En; [|done].
  apply next_remaining in E. f_equal. eapply IH; [exact E|done].
Qed.
End SkipTakeOk.

Section LookaheadOk.
Context {I A : Type} `{!Iterator I A, !IteratorOk I A}.

#[global] Instance lookahead_iterator_ok : IteratorOk (Lookahead I A) A.
Proof.
  split; intros [it [x|]] o s'; cbn; intros H; unfold lookahead_next in H; cbn in H;
    simplify_eq/=; try done;
    destruct (next it) as [[y|] it'] eqn:E; simplify_eq/=;
    first [apply next_remaining in E | apply next_remaining_le in E]; lia.
Qed.

Lemma collect_lookahead (la : Lookahead I A) :
  collect la = match la_next la with Some a => a :: collect (la_iter la) | None => [] end.
Proof.
  destruct la as [it o]; cbn [la_next la_iter]. remember (remaining it) as k eqn:Hk.
  revert it o Hk; induction (lt_wf k) as [k _ IH]; intros it o ->.
  rewrite (collect_unfold (MkLookahead it o)).
  change (next (MkLookahead it o)) with (lookahead_next (MkLookahead it o)).
  unfold lookahead_next; cbn [la_next la_iter]. destruct o as [a|]; [|done].
  rewrite (collect_unfold it). destruct (next it) as [n it'] eqn:E. f_equal.
  destruct n as [b|]; [|by rewrite (collect_unfold (MkLookahead it' None))].
  rewrite (IH (remaining it')); [done| |done]. by apply next_remaining in E.
Qed.

Lemma collect_lookahead_new (it : I) : collect (lookahead_new it) = collect it.
Proof.
  unfold lookahead_new. rewrite (collect_unfold it).
  destruct (next it) as [n it'] eqn:E. rewrite collect_lookahead. by destruct n.
Qed.

Lemma collect_lookahead_put (la : Lookahead I A) a :
  is_Some (la_next la) → collect (lookahead_put la a) = a :: tail (collect la).
Proof. intros [b Hb]. rewrite !collect_lookahead, Hb. done. Qed.

Lemma collect_lookahead_tail (la : Lookahead I A) :
  is_Some (la_next la) → collect (snd (next la)) = tail (collect la).
Proof.
  intros [b Hb]. rewrite (collect_unfold la). cbn. unfold lookahead_next.
  rewrite Hb. by destruct (next (la_iter la)).
Qed.

Lemma remaining_lookahead_tail (la : Lookahead I A) :
  is_Some (la_next la) → (remaining (snd (next la)) < remaining la)%nat.
Proof.
  intros [b Hb]. destruct (next la) as [o la'] eqn:E.
  assert (o = Some b) as ->.
  { cbn in E. unfold lookahead_next in E. rewrite Hb in E.
    destruct (next (la_iter la)). by simplify_eq. }
  by apply next_remaining in E.
Qed.

Lemma remaining_lookahead_put (la : Lookahead I A) a :
  is_Some (la_next la) → remaining (lookahead_put la a) = remaining la.
Proof. intros [b Hb]. cbn. by rewrite Hb. Qed.
End LookaheadOk.

Section MergeOk.
Context {I : Type} `{!Iterator I range, !IteratorOk I range}.

Lemma merge_next_loop_spec fuel r (it : Lookahead I range) r' it' :
  (remaining it < fuel)%nat →
  merge_next_loop fuel r it = (r', it') →
  merge_from r (collect it) = r' :: merge_list (collect it')
  ∧ (remaining it' ≤ remaining it)%nat.
Proof.
  revert r it; induction fuel as [|fuel IH]; intros r it Hf; [lia|].
  cbn [merge_next_loop]. rewrite (collect_lookahead it).
  destruct (la_next it) as [nx|] eqn:E; cbn [merge_from].
  - case_if; intros Hr.
    + simplify_eq. by rewrite collect_lookahead, E.
    + assert (is_Some (la_next it)) as Hs by eauto.
      pose proof (remaining_lookahead_tail it Hs) as Hlt.
      apply IH in Hr as [<- Hr]; [|lia]. split; [|lia].
      rewrite (collect_lookahead_tail it Hs), (collect_lookahead it), E. done.
  - intros Hr. simplify_eq. by rewrite collect_lookahead, E.
Qed.

Lemma merge_next_spec (m : Merge I) o m' :
  merge_next m = (o, m') →
  match o with
  | None => merge_list (collect (merge_iter m)) = []
  | Some r => merge_list (collect (merge_iter m))
              = r :: merge_list (collect (merge_iter m'))
              ∧ (remaining (merge_iter m') < remaining (merge_iter m))%nat
  end ∧ (remaining (merge_iter m') ≤ remaining (merge_iter m))%nat.
Proof.
  unfold merge_next. rewrite (collect_unfold (merge_iter m)).
  destruct (next (merge_iter m)) as [[r|] it] eqn:E.
  - destruct (merge_next_loop _ r it) as [r' it'] eqn:El. intros; simplify_eq.
    apply merge_next_loop_spec in El as [El1 El2]; [|lia].
    apply next_remaining in E. cbn [merge_iter merge_list] in *. rewrite El1.
    repeat split; lia.
  - intros; simplify_eq. split; [done|]. by apply next_remaining_le in E.
Qed.

#[global] Instance merge_iterator_ok : IteratorOk (Merge I) range.
Proof.
  split; intros s o s' H; apply merge_next_spec in H; [apply H|];
    destruct o; cbn; tauto.
Qed.

Lemma collect_merge (m : Merge I) : collect m = merge_list (collect (merge_iter m)).
Proof.
  remember (remaining (merge_iter m)) as k eqn:Hk.
  revert m Hk; induction (lt_wf k) as [k _ IH]; intros m ->.
  rewrite (collect_unfold m). cbn [next merge_iterator].
  destruct (merge_next m) as [o m'] eqn:E. apply merge_next_spec in E as [E _].
  destruct o as [r|]; [|done]. destruct E as [-> E]. f_equal. by eapply IH.
Qed.

Lemma collect_merge_new (it : I) : collect (merge_new it) = merge_list (collect it).
Proof. rewrite collect_merge. cbn [merge_new merge_iter]. by rewrite collect_lookahead_new. Qed.
End MergeOk.

Section CombineListFacts.
Context {C : Type} `{!Combinator C}.

Lemma combine_fuel_enough n m (c : C) l1 l2 :
  (length l1 + length l2 ≤ n)%nat → (length l1 + length l2 ≤ m)%nat →
  combine_fuel n c l1 l2 = combine_fuel m c l1 l2.
Proof.
  revert m c l1 l2; induction n as [|n IH]; intros m c l1 l2 Hn Hm.
  { destruct l1, l2; cbn in Hn; try lia. by destruct m. }
  destruct m as [|m]; [destruct l1, l2; cbn in Hm; try lia; done|].
  destruct l1 as [|a l1], l2 as [|b l2]; cbn in Hn, Hm |- *; try done.
  - destruct (advance_rhs_tail c b) as [[o|] c']; [|done].
    by rewrite (IH m) by (cbn; lia).
  - destruct (advance_lhs_tail c a) as [[o|] c']; [|done].
    by rewrite (IH m) by (cbn; lia).
  - case_if.
    + destruct (advance_lhs c a b) as [[o r'] c'].
      by rewrite (IH m) by (cbn; lia).
    + destruct (advance_rhs c a b) as [[o r'] c'].
      by rewrite (IH m) by (cbn; lia).
Qed.

Lemma combine_list_unfold (c : C) l1 l2 :
  combine_list c l1 l2 =
  match l1, l2 with
  | l :: l1', r :: l2' =>
      if end_ l <=? end_ r then
        let '(o, r', c') := advance_lhs c l r in
        cons_nonempty o (combine_list c' l1' (r' :: l2'))
      else
        let '(o, l', c') := advance_rhs c l r in
        cons_nonempty o (combine_list c' (l' :: l1') l2')
  | l :: l1', [] =>
      let '(o, c') := advance_lhs_tail c l in
      match o with Some o => cons_nonempty o (combine_list c' l1' []) | None => [] end
  | [], r :: l2' =>
      let '(o, c') := advance_rhs_tail c r in
      match o with Some o => cons_nonempty o (combine_list c' [] l2') | None => [] end
  | [], [] => []
  end.
Proof.
  unfold combine_list at 1.
  rewrite (combine_fuel_enough _ (S (length l1 + length l2))) by lia.
  destruct l1 as [|a l1], l2 as [|b l2]; cbn [combine_fuel]; try done.
  - destruct (advance_rhs_tail c b) as [[o|] c']; [|done]. unfold combine_list.
    by rewrite (combine_fuel_enough _ (length (@nil range) + length l2))
      by (cbn; lia).
  - destruct (advance_lhs_tail c a) as [[o|] c']; [|done]. unfold combine_list.
    by rewrite (combine_fuel_enough _ (length l1 + length (@nil range)))
      by (cbn; lia).
  - case_if; [destruct (advance_lhs c a b) as [[o r'] c']
             |destruct (advance_rhs c a b) as [[o r'] c']];
      unfold combine_list; f_equal; apply combine_fuel_enough; cbn; lia.
Qed.
End CombineListFacts.

Section CombineOk.
Context {A B C : Type} `{!Iterator A range, !Iterator B range, !Combinator C,
  !IteratorOk A range, !IteratorOk B range}.

Implicit Types s : Combine_ A B C.

(** What is still to come from a [_Combine] state. *)
Definition combine_rest s : list range :=
  combine_list (combinator s) (collect (lhs s)) (collect (rhs s)).

Lemma next_range_spec s o s' :
  next_range s = (o, s') →
  match o with
  | None => combine_rest s = []
  | Some r => combine_rest s = cons_nonempty r (combine_rest s')
              ∧ (remaining s' < remaining s)%nat
  end ∧ (remaining s' ≤ remaining s)%nat.
Proof.
  unfold next_range, combine_rest. rewrite combine_list_unfold.
  rewrite (collect_lookahead (lhs s)), (collect_lookahead (rhs s)).
  destruct (la_next (lhs s)) as [l|] eqn:El, (la_next (rhs s)) as [r|] eqn:Er.
  - assert (is_Some (la_next (lhs s))) as Hl by eauto.
    assert (is_Some (la_next (rhs s))) as Hr by eauto.
    case_if.
    + destruct (advance_lhs _ l r) as [[o' r'] c'] eqn:Ec. intros; simplify_eq.
      cbn [lhs rhs combinator remaining combine_iterator_].
      pose proof (remaining_lookahead_tail _ Hl).
      rewrite (collect_lookahead_tail _ Hl), (collect_lookahead_put _ _ Hr),
        (remaining_lookahead_put _ _ Hr), (collect_lookahead (lhs s)),
        (collect_lookahead (rhs s)), El, Er.
      repeat split; lia.
    + destruct (advance_rhs _ l r) as [[o' l'] c'] eqn:Ec. intros; simplify_eq.
      cbn [lhs rhs combinator remaining combine_iterator_].
      pose proof (remaining_lookahead_tail _ Hr).
      rewrite (collect_lookahead_tail _ Hr), (collect_lookahead_put _ _ Hl),
        (remaining_lookahead_put _ _ Hl), (collect_lookahead (lhs s)),
        (collect_lookahead (rhs s)), El, Er.
      repeat split; lia.
  - assert (is_Some (la_next (lhs s))) as Hl by eauto.
    destruct (advance_lhs_tail _ l) as [o' c'] eqn:Ec. intros; simplify_eq.
    cbn [lhs rhs combinator remaining combine_iterator_].
    pose proof (remaining_lookahead_tail _ Hl).
    rewrite (collect_lookahead_tail _ Hl), (collect_lookahead (lhs s)),
      (collect_lookahead (rhs s)), El, Er.
    destruct o; repeat split; lia.
  - assert (is_Some (la_next (rhs s))) as Hr by eauto.
    destruct (advance_rhs_tail _ r) as [o' c'] eqn:Ec. intros; simplify_eq.
    cbn [lhs rhs combinator remaining combine_iterator_].
    pose proof (remaining_lookahead_tail _ Hr).
    rewrite (collect_lookahead_tail _ Hr), (collect_lookahead (lhs s)),
      (collect_lookahead (rhs s)), El, Er.
    destruct o; repeat split; lia.
  - intros; simplify_eq. done.
Qed.

Lemma combine_next_loop_spec fuel s o s' :
  (remaining s < fuel)%nat →
  combine_next_loop fuel s = (o, s') →
  match o with
  | None => combine_rest s = []
  | Some r => combine_rest s = r :: combine_rest s' ∧ (remaining s' < remaining s)%nat
  end ∧ (remaining s' ≤ remaining s)%nat.
Proof.
  revert s; induction fuel as [|fuel IH]; intros s Hf; [lia|]. cbn [combine_next_loop].
  destruct (next_range s) as [[r|] s1] eqn:E; apply next_range_spec in E as [E1 E2].
  - destruct E1 as [-> E1]. unfold cons_nonempty. case_if.
    + intros; simplify_eq. repeat split; lia.
    + intros Hr. apply IH in Hr as [Hr1 Hr2]; [|lia].
      destruct o; [destruct Hr1|]; repeat split; try done; lia.
  - intros; simplify_eq. by split.
Qed.

#[global] Instance combine_iterator_ok : IteratorOk (Combine_ A B C) range.
Proof.
  split; intros s o s' H; apply combine_next_loop_spec in H as [H1 H2];
    cbn in *; (done || lia || tauto).
Qed.

Lemma collect_combine_ s : collect s = combine_rest s.
Proof.
  remember (remaining s) as k eqn:Hk.
  revert s Hk; induction (lt_wf k) as [k _ IH]; intros s ->.
  rewrite (collect_unfold s). cbn [next combine_iterator_].
  destruct (combine_next_ s) as [o s'] eqn:E. unfold combine_next_ in E.
  apply combine_next_loop_spec in E as [E _]; [|cbn; lia].
  destruct o as [r|]; [|done]. destruct E as [-> E]. f_equal. by eapply IH.
Qed.

(** Draining a [Combine] gives the merged outputs of its combinator. *)
Lemma collect_combine_new (a : A) (b : B) :
  collect (combine_new C a b)
  = merge_list (combine_list combinator_default (collect a) (collect b)).
Proof.
  unfold combine_new. rewrite collect_merge_new, collect_combine_.
  unfold combine_rest, combine_new_. cbn [lhs rhs combinator].
  by rewrite !collect_lookahead_new.
Qed.
End CombineOk.

Lemma extend_range_length e l : (length (snd (extend_range e l)) ≤ length l)%nat.
Proof.
  revert e; induction l as [|b l IH]; intros e; cbn; [done|].
  case_if; cbn; [specialize (IH (e + 1))|]; lia.
Qed.

#[global] Instance from_bits_iterator_ok : IteratorOk FromBits range.
Proof.
  split; intros [[|b l]] o s'; cbn; unfold from_bits_next; cbn; intros; simplify_eq/=;
    try done; pose proof (extend_range_length (b + 1) l) as Hl;
    destruct (extend_range (b + 1) l) as [e l']; simplify_eq/=; lia.
Qed.

Lemma from_bits_fuel_enough n m l :
  (length l ≤ n)%nat → (length l ≤ m)%nat → from_bits_fuel n l = from_bits_fuel m l.
Proof.
  revert m l; induction n as [|n IH]; intros [|m] [|b l] Hn Hm; cbn in *; try lia; try done.
  pose proof (extend_range_length (b + 1) l) as Hl.
  destruct (extend_range (b + 1) l) as [e l']; cbn in Hl. f_equal. apply IH; lia.
Qed.

Lemma collect_from_bits l :
  collect (ranges_from_bits l) = from_bits_fuel (length l) l.
Proof.
  unfold ranges_from_bits. remember (length l) as k eqn:Hk.
  revert l Hk; induction (lt_wf k) as [k _ IH]; intros [|b l] ->; [done|].
  rewrite collect_unfold. cbn [next from_bits_iterator from_bits_next bits length from_bits_fuel].
  pose proof (extend_range_length (b + 1) l) as Hl.
  destruct (extend_range (b + 1) l) as [e l']; cbn [snd length] in *. f_equal.
  rewrite (IH (length l')) by (done || lia). apply from_bits_fuel_enough; lia.
Qed.
