(* ===== verification/RangeSets.v ===== *)
(** * The sets of bits that range iterators denote

    The requirements of the [RangeIterator] trait as an executable predicate
    [ranges_wf] (ranges non-empty, ascending, neither overlapping nor touching),
    and the theorems that every adapter and combinator of [Ranges] keeps them
    and computes the set operation its name promises. *)

From S2P Require Import Prelude Ranges.

(** ** Well-formed range lists *)

(** All ranges are non-empty, the first starts at [lo] or above, and every
    range starts strictly above the end of the one before. *)
Fixpoint wf_from (lo : Z) (l : list range) : bool :=
  match l with
  | [] => true
  | r :: l => (lo <=? start r) && (start r <? end_ r) && wf_from (end_ r + 1) l
  end.

Definition ranges_wf (l : list range) : bool := wf_from 0 l.

(** The number of bits of [l] below [b]. *)
Fixpoint rank (l : list range) (b : Z) : Z :=
  match l with
  | [] => 0
  | r :: l => range_len (Range (start r) (Z.min (end_ r) b)) + rank l b
  end.

(** The number of bits of [l]. *)
Definition count_bits (l : list range) : Z :=
  foldr (λ r n, range_len r + n) 0 l.

(** The bits of a list of ranges in order: [flatten]. *)
Definition flatten (l : list range) : list Z :=
  l ≫= λ r, seqZ (start r) (range_len r).

(** Decide goals on membership: the tests on ranges are arithmetic, the tests
    on the lists behind them are case splits. *)
Ltac bits_lia :=
  unfold in_range in *; cbn [start end_] in *;
  repeat match goal with
  | |- context [in_ranges ?b ?l] => destruct (in_ranges b l)
  | H : context [in_ranges ?b ?l] |- _ => destruct (in_ranges b l)
  end; repeat split; lia.

Lemma in_range_spec b r : in_range b r = true ↔ start r ≤ b < end_ r.
Proof. unfold in_range. lia. Qed.

Lemma in_ranges_cons b r l : in_ranges b (r :: l) = in_range b r || in_ranges b l.
Proof. done. Qed.

Lemma in_ranges_app b l1 l2 : in_ranges b (l1 ++ l2) = in_ranges b l1 || in_ranges b l2.
Proof. unfold in_ranges. apply existsb_app. Qed.

Lemma in_ranges_spec b l :
  in_ranges b l = true ↔ ∃ r, r ∈ l ∧ start r ≤ b < end_ r.
Proof.
  unfold in_ranges. rewrite existsb_exists. setoid_rewrite in_range_spec.
  by setoid_rewrite list_elem_of_In.
Qed.

Lemma wf_from_cons lo r l :
  wf_from lo (r :: l) = true ↔
  lo ≤ start r ∧ start r < end_ r ∧ wf_from (end_ r + 1) l = true.
Proof. cbn. rewrite !andb_true_iff, Z.leb_le, Z.ltb_lt. tauto. Qed.

Lemma wf_from_mono lo lo' l : lo' ≤ lo → wf_from lo l = true → wf_from lo' l = true.
Proof. destruct l as [|r l]; [done|]. rewrite !wf_from_cons. intuition lia. Qed.

Lemma wf_from_lower lo l b : wf_from lo l = true → in_ranges b l = true → lo ≤ b.
Proof.
  revert lo; induction l as [|r l IH]; intros lo; [done|].
  rewrite wf_from_cons, in_ranges_cons. intros (?&?&Hl) Hb.
  apply orb_true_iff in Hb as [Hb|Hb]; [apply in_range_spec in Hb; lia|].
  apply (IH _ Hl) in Hb. lia.
Qed.

(** Two well-formed lists with the same bits are the same list. *)
Lemma wf_from_ext lo1 lo2 l1 l2 :
  wf_from lo1 l1 = true → wf_from lo2 l2 = true →
  (∀ b, in_ranges b l1 = in_ranges b l2) → l1 = l2.
Proof.
  revert lo1 lo2 l2; induction l1 as [|[s1 e1] l1 IH]; intros lo1 lo2 [|[s2 e2] l2] H1 H2 Hb;
    [done| | |].
  - apply wf_from_cons in H2; cbn in H2. specialize (Hb s2). rewrite in_ranges_cons in Hb.
    unfold in_range in Hb; cbn in Hb. lia.
  - apply wf_from_cons in H1; cbn in H1. specialize (Hb s1). rewrite in_ranges_cons in Hb.
    unfold in_range in Hb; cbn in Hb. lia.
  - apply wf_from_cons in H1 as (?&?&H1); apply wf_from_cons in H2 as (?&?&H2); cbn in *.
    assert (∀ b, in_ranges b l1 = true → e1 + 1 ≤ b) as Hl1 by eauto using wf_from_lower.
    assert (∀ b, in_ranges b l2 = true → e2 + 1 ≤ b) as Hl2 by eauto using wf_from_lower.
    assert (Heq : ∀ b, in_range b (Range s1 e1) || in_ranges b l1
                     = in_range b (Range s2 e2) || in_ranges b l2) by exact Hb.
    unfold in_range in Heq; cbn in Heq.
    assert (s1 = s2) as ->.
    { pose proof (Heq s1) as E1. pose proof (Heq s2) as E2.
      pose proof (Hl1 s2). pose proof (Hl2 s1).
      destruct (in_ranges s1 l2), (in_ranges s2 l1); lia. }
    assert (e1 = e2) as ->.
    { pose proof (Heq e1) as E1. pose proof (Heq e2) as E2.
      pose proof (Hl1 e2). pose proof (Hl2 e1). pose proof (Hl1 e1). pose proof (Hl2 e2).
      destruct (in_ranges e1 l2), (in_ranges e2 l1), (in_ranges e1 l1), (in_ranges e2 l2); lia. }
    f_equal. eapply IH; [exact H1|exact H2|]. intros b.
    specialize (Heq b). pose proof (Hl1 b). pose proof (Hl2 b).
    destruct (in_ranges b l1), (in_ranges b l2); lia.
Qed.

(** ** Merge *)

Definition starts_above (m : Z) (l : list range) : Prop :=
  Forall (λ r, m ≤ start r) l.

(** What [Merge] requires of the iterator it wraps. *)
Fixpoint mergeable (l : list range) : Prop :=
  match l with
  | [] => True
  | r :: l => start r < end_ r ∧ starts_above (start r) l ∧ mergeable l
  end.

Lemma merge_from_spec r l :
  mergeable (r :: l) →
  wf_from (start r) (merge_from r l) = true
  ∧ ∀ b, in_ranges b (merge_from r l) = in_ranges b (r :: l).
Proof.
  revert r; induction l as [|nx l IH]; intros r; [cbn; intros; split; [|done]; lia|].
  cbn [mergeable]. intros (Hr & Ha & Hn & Hna & Hl).
  apply Forall_cons in Ha as [Hs Ha]. cbn [merge_from]. case_if.
  - destruct (IH nx) as [IH1 IH2]; [done|]. split.
    + rewrite wf_from_cons. repeat split; [lia|lia|].
      eapply wf_from_mono; [|exact IH1]. lia.
    + intros b. by rewrite in_ranges_cons, IH2.
  - destruct (IH (Range (start r) (Z.max (end_ r) (end_ nx)))) as [IH1 IH2].
    { cbn. repeat split; [lia|done|done]. }
    split; [done|]. intros b. rewrite IH2, !in_ranges_cons.
    unfold in_range; cbn. destruct (in_ranges b l); lia.
Qed.

Lemma merge_list_spec lo l :
  mergeable l → (∀ b, in_ranges b l = true → lo ≤ b) →
  wf_from lo (merge_list l) = true ∧ ∀ b, in_ranges b (merge_list l) = in_ranges b l.
Proof.
  destruct l as [|r l]; [done|]. intros Hm Hlo.
  destruct (merge_from_spec r l Hm) as [H1 H2]. split; [|exact H2].
  eapply wf_from_mono; [|exact H1]. apply Hlo. rewrite in_ranges_cons.
  destruct Hm as [Hr _]. unfold in_range. lia.
Qed.

(** ** The set combinators *)

(** What a combinator has to do with the two head ranges to compute the
    boolean operation [op] bit by bit.  [m1] and [m2] tell whether the bit is
    in the ranges behind the heads. *)
Class SetCombinator (C : Type) `{!Combinator C} (op : bool → bool → bool) : Prop := {
  sc_empty : op false false = false;
  sc_lhs (c : C) l r o r' c' b m1 m2 :
    advance_lhs c l r = (o, r', c') →
    start l ≤ end_ l → start r ≤ end_ r → end_ l ≤ end_ r →
    (m1 = true → end_ l < b) → (m2 = true → end_ r < b) →
    op (in_range b l || m1) (in_range b r || m2)
      = in_range b o || op m1 (in_range b r' || m2)
    ∧ (op m1 (in_range b r' || m2) = true → range_nonempty o = true → start o ≤ b)
    ∧ start r' ≤ end_ r' ∧ end_ r' = end_ r;
  sc_rhs (c : C) l r o l' c' b m1 m2 :
    advance_rhs c l r = (o, l', c') →
    start l ≤ end_ l → start r ≤ end_ r → end_ r < end_ l →
    (m1 = true → end_ l < b) → (m2 = true → end_ r < b) →
    op (in_range b l || m1) (in_range b r || m2)
      = in_range b o || op (in_range b l' || m1) m2
    ∧ (op (in_range b l' || m1) m2 = true → range_nonempty o = true → start o ≤ b)
    ∧ start l' ≤ end_ l' ∧ end_ l' = end_ l;
  sc_lhs_tail (c : C) l o c' b m1 :
    advance_lhs_tail c l = (o, c') → start l ≤ end_ l → (m1 = true → end_ l < b) →
    match o with
    | Some o => op (in_range b l || m1) false = in_range b o || op m1 false
                ∧ (op m1 false = true → start o ≤ b)
    | None => ∀ x, op x false = false
    end;
  sc_rhs_tail (c : C) r o c' b m2 :
    advance_rhs_tail c r = (o, c') → start r ≤ end_ r → (m2 = true → end_ r < b) →
    match o with
    | Some o => op false (in_range b r || m2) = in_range b o || op false m2
                ∧ (op false m2 = true → start o ≤ b)
    | None => ∀ x, op false x = false
    end
}.

Definition op_difference (x y : bool) : bool := x && negb y.

Ltac solve_set_combinator :=
  split; [done|..]; intros; cbn in *; unfold symmetric_difference_advance in *;
  repeat case_match; simplify_eq/=;
  unfold in_range, range_nonempty, op_difference, xorb in *; cbn;
  repeat match goal with m : bool |- _ => destruct m end;
  cbn; try done; repeat split; repeat case_match; lia.

#[global] Instance Union_set : SetCombinator Union orb.
Proof. solve_set_combinator. Qed.

#[global] Instance Intersection_set : SetCombinator Intersection andb.
Proof. solve_set_combinator. Qed.

#[global] Instance Difference_set : SetCombinator Difference op_difference.
Proof. solve_set_combinator. Qed.

#[global] Instance SymmetricDifference_set : SetCombinator SymmetricDifference xorb.
Proof. solve_set_combinator. Qed.

(** A combinator may have shortened the first range down to nothing. *)
Definition wf_head (l : list range) : Prop :=
  match l with
  | [] => True
  | r :: l => start r ≤ end_ r ∧ wf_from (end_ r + 1) l = true
  end.

Lemma wf_from_head lo l : wf_from lo l = true → wf_head l.
Proof. destruct l; [done|]. rewrite wf_from_cons. cbn. intuition lia. Qed.

Lemma in_ranges_behind r l b :
  wf_head (r :: l) → in_ranges b l = true → end_ r < b.
Proof. intros [_ H] Hb. apply (wf_from_lower _ _ _ H) in Hb. lia. Qed.

Lemma starts_above_in_ranges m l :
  mergeable l → (∀ b, in_ranges b l = true → m ≤ b) → starts_above m l.
Proof.
  induction l as [|r l IH]; intros Hm Hb; [constructor|]. destruct Hm as (Hr & Ha & Hm).
  constructor.
  - apply Hb. rewrite in_ranges_cons. unfold in_range. lia.
  - apply IH; [done|]. intros b Hb'. apply Hb. rewrite in_ranges_cons, Hb'. lia.
Qed.

Lemma mergeable_cons_nonempty o l :
  mergeable l → (∀ b, in_ranges b l = true → range_nonempty o = true → start o ≤ b) →
  mergeable (cons_nonempty o l).
Proof.
  intros Hm Ho. unfold cons_nonempty. case_if; [|done].
  split; [unfold range_nonempty in *; lia|].
  split; [|done]. apply starts_above_in_ranges; eauto.
Qed.

Lemma in_ranges_cons_nonempty b o l :
  in_ranges b (cons_nonempty o l) = in_range b o || in_ranges b l.
Proof.
  unfold cons_nonempty, range_nonempty, in_range. case_if; [done|].
  destruct (in_ranges b l); lia.
Qed.

Section SetCombine.
Context {C : Type} `{!Combinator C} {op : bool → bool → bool} `{!SetCombinator C op}.

Lemma combine_fuel_set fuel (c : C) l1 l2 :
  (length l1 + length l2 ≤ fuel)%nat → wf_head l1 → wf_head l2 →
  mergeable (combine_list c l1 l2)
  ∧ ∀ b, in_ranges b (combine_list c l1 l2) = op (in_ranges b l1) (in_ranges b l2).
Proof.
  revert c l1 l2; induction fuel as [|fuel IH]; intros c l1 l2 Hf H1 H2.
  { destruct l1, l2; cbn in Hf; try lia. rewrite combine_list_unfold.
    split; [done|]. intros; cbn. by rewrite sc_empty. }
  rewrite combine_list_unfold. destruct l1 as [|l l1], l2 as [|r l2]; cbn in Hf.
  - split; [done|]. intros; cbn. by rewrite sc_empty.
  - destruct (advance_rhs_tail c r) as [o c'] eqn:Ea. destruct H2 as [Hr H2].
    assert (Hlaw := λ b, sc_rhs_tail _ _ _ _ b (in_ranges b l2) Ea Hr
      (in_ranges_behind r l2 b (conj Hr H2))).
    destruct o as [o|]; [|split; [done|]; intros b; cbn; by rewrite (Hlaw b)].
    destruct (IH c' [] l2) as [IH1 IH2];
      [cbn; lia|done|by eapply wf_from_head|]. split.
    + apply mergeable_cons_nonempty; [done|]. intros b. rewrite IH2.
      intros Hb _. by apply (Hlaw b).
    + intros b. rewrite in_ranges_cons_nonempty, IH2, in_ranges_cons.
      symmetry. apply (Hlaw b).
  - destruct (advance_lhs_tail c l) as [o c'] eqn:Ea. destruct H1 as [Hl H1].
    assert (Hlaw := λ b, sc_lhs_tail _ _ _ _ b (in_ranges b l1) Ea Hl
      (in_ranges_behind l l1 b (conj Hl H1))).
    destruct o as [o|]; [|split; [done|]; intros b; cbn; by rewrite (Hlaw b)].
    destruct (IH c' l1 []) as [IH1 IH2];
      [cbn; lia|by eapply wf_from_head|done|]. split.
    + apply mergeable_cons_nonempty; [done|]. intros b. rewrite IH2.
      intros Hb _. by apply (Hlaw b).
    + intros b. rewrite in_ranges_cons_nonempty, IH2, in_ranges_cons.
      symmetry. apply (Hlaw b).
  - pose proof (proj1 H1) as Hl. pose proof (proj1 H2) as Hr. case_if.
    + destruct (advance_lhs c l r) as [[o r'] c'] eqn:Ea.
      assert (Hlaw := λ b, sc_lhs _ _ _ _ _ _ b (in_ranges b l1) (in_ranges b l2) Ea
        Hl Hr E (in_ranges_behind l l1 b H1) (in_ranges_behind r l2 b H2)).
      destruct (Hlaw 0) as (_ & _ & Hr' & He).
      destruct (IH c' l1 (r' :: l2)) as [IH1 IH2]; [cbn; lia| |split; [done|]|].
      { eapply wf_from_head, H1. } { rewrite He. apply H2. }
      split.
      * apply mergeable_cons_nonempty; [done|]. intros b.
        rewrite IH2, in_ranges_cons. apply (Hlaw b).
      * intros b. rewrite in_ranges_cons_nonempty, IH2, !in_ranges_cons.
        symmetry. apply (Hlaw b).
    + destruct (advance_rhs c l r) as [[o l'] c'] eqn:Ea.
      assert (Hlaw := λ b, sc_rhs _ _ _ _ _ _ b (in_ranges b l1) (in_ranges b l2) Ea
        Hl Hr E (in_ranges_behind l l1 b H1) (in_ranges_behind r l2 b H2)).
      destruct (Hlaw 0) as (_ & _ & Hl' & He).
      destruct (IH c' (l' :: l1) l2) as [IH1 IH2]; [cbn; lia|split; [done|]| |].
      { rewrite He. apply H1. } { eapply wf_from_head, H2. }
      split.
      * apply mergeable_cons_nonempty; [done|]. intros b.
        rewrite IH2, in_ranges_cons. apply (Hlaw b).
      * intros b. rewrite in_ranges_cons_nonempty, IH2, !in_ranges_cons.
        symmetry. apply (Hlaw b).
Qed.

(** A combinator keeps range lists well formed and computes [op]. *)
Lemma combine_set {A B} `{!Iterator A range, !IteratorOk A range,
    !Iterator B range, !IteratorOk B range} (a : A) (b : B) :
  ranges_wf (collect a) = true → ranges_wf (collect b) = true →
  ranges_wf (collect (combine_new C a b)) = true
  ∧ ∀ i, in_ranges i (collect (combine_new C a b))
         = op (in_ranges i (collect a)) (in_ranges i (collect b)).
Proof.
  intros Ha Hb. rewrite collect_combine_new.
  destruct (combine_fuel_set _ combinator_default (collect a) (collect b) (le_n _))
    as [Hm Hop]; [by apply (wf_from_head 0)..|].
  setoid_rewrite <-Hop. apply merge_list_spec; [done|].
  intros i. rewrite Hop. intros Hi.
  destruct (in_ranges i (collect a)) eqn:Ea; [by apply (wf_from_lower 0 _ i) in Ea|].
  destruct (in_ranges i (collect b)) eqn:Eb; [by apply (wf_from_lower 0 _ i) in Eb|].
  by rewrite sc_empty in Hi.
Qed.
End SetCombine.

(** C31.  For any two range iterators that satisfy the requirements of the
    [RangeIterator] trait, [union], [intersection], [difference] and
    [symmetric_difference] satisfy them too (non-empty ranges in ascending
    order, neither overlapping nor touching) and contain exactly the bits of
    the set operation they are named after. *)
Theorem set_combinators_correct {A B} `{!Iterator A range, !IteratorOk A range,
    !Iterator B range, !IteratorOk B range} (a : A) (b : B) :
  ranges_wf (collect a) = true → ranges_wf (collect b) = true →
  (ranges_wf (collect (union a b)) = true ∧
   ranges_wf (collect (intersection a b)) = true ∧
   ranges_wf (collect (difference a b)) = true ∧
   ranges_wf (collect (symmetric_difference a b)) = true) ∧
  ∀ i, let x := in_ranges i (collect a) in let y := in_ranges i (collect b) in
    in_ranges i (collect (union a b)) = x || y ∧
    in_ranges i (collect (intersection a b)) = x && y ∧
    in_ranges i (collect (difference a b)) = x && negb y ∧
    in_ranges i (collect (symmetric_difference a b)) = xorb x y.
Proof.
  intros Ha Hb. unfold union, intersection, difference, symmetric_difference.
  destruct (combine_set (C:=Union) a b Ha Hb) as [? HC1].
  destruct (combine_set (C:=Intersection) a b Ha Hb) as [? HC2].
  destruct (combine_set (C:=Difference) a b Ha Hb) as [? HC3].
  destruct (combine_set (C:=SymmetricDifference) a b Ha Hb) as [? HC4].
  split; [done|]. intros i. cbn zeta. by rewrite HC1, HC2, HC3, HC4.
Qed.

Lemma set_combinators_correct_witness :
  let a := [Range 0 3; Range 4 7; Range 8 11] in
  let b := [Range 2 5; Range 6 9; Range 10 13] in
  ranges_wf (collect (symmetric_difference a b)) = true
  ∧ collect (union a b) = [Range 0 13].
Proof.
  intros a b. split; [|reflexivity].
  apply (set_combinators_correct a b); reflexivity.
Defined.

(** [union] asks less of its arguments: the lower bounds have to be in order,
    but ranges may overlap. *)
Lemma combine_fuel_union fuel c l1 l2 :
  (length l1 + length l2 ≤ fuel)%nat → mergeable l1 → mergeable l2 →
  mergeable (combine_list (C:=Union) c l1 l2)
  ∧ ∀ b, in_ranges b (combine_list c l1 l2) = in_ranges b l1 || in_ranges b l2.
Proof.
  assert (Hin : ∀ m l b, starts_above m l → in_ranges b l = true → m ≤ b).
  { intros m l b Hl (r & Hr & ?)%in_ranges_spec.
    eapply Forall_forall in Hl; [|exact Hr]. cbn in Hl. lia. }
  revert c l1 l2; induction fuel as [|fuel IH]; intros c l1 l2 Hf H1 H2.
  { destruct l1, l2; cbn in Hf; try lia. by rewrite combine_list_unfold. }
  rewrite combine_list_unfold. destruct l1 as [|l l1], l2 as [|r l2]; cbn in Hf.
  - done.
  - destruct H2 as (Hr & Ha & H2). cbn [advance_rhs_tail Union_combinator].
    destruct (IH c [] l2) as [IH1 IH2]; [cbn; lia|done|done|]. split.
    + apply mergeable_cons_nonempty; [done|]. intros b. rewrite IH2. eauto.
    + intros b. by rewrite in_ranges_cons_nonempty, IH2.
  - destruct H1 as (Hl & Ha & H1). cbn [advance_lhs_tail Union_combinator].
    destruct (IH c l1 []) as [IH1 IH2]; [cbn; lia|done|done|]. split.
    + apply mergeable_cons_nonempty; [done|]. intros b. rewrite IH2, orb_false_r. eauto.
    + intros b. rewrite in_ranges_cons_nonempty, IH2. cbn. by rewrite !orb_false_r.
  - pose proof H1 as (Hl & Hal & H1'). pose proof H2 as (Hr & Har & H2').
    cbn [advance_lhs advance_rhs Union_combinator]. case_if.
    + destruct (IH c l1 (r :: l2)) as [IH1 IH2]; [cbn; lia|done|done|]. split.
      * apply mergeable_cons_nonempty; [done|]. intros b. rewrite IH2, in_ranges_cons.
        cbn. intros Hb _. pose proof (Hin _ _ b Hal). pose proof (Hin _ _ b Har).
        unfold in_range in Hb. destruct (in_ranges b l1), (in_ranges b l2); lia.
      * intros b. rewrite in_ranges_cons_nonempty, IH2, !in_ranges_cons.
        unfold in_range; cbn. destruct (in_ranges b l1), (in_ranges b l2); lia.
    + destruct (IH c (l :: l1) l2) as [IH1 IH2]; [cbn; lia|done|done|]. split.
      * apply mergeable_cons_nonempty; [done|]. intros b. rewrite IH2, in_ranges_cons.
        cbn. intros Hb _. pose proof (Hin _ _ b Hal). pose proof (Hin _ _ b Har).
        unfold in_range in Hb. destruct (in_ranges b l1), (in_ranges b l2); lia.
      * intros b. rewrite in_ranges_cons_nonempty, IH2, !in_ranges_cons.
        unfold in_range; cbn. destruct (in_ranges b l1), (in_ranges b l2); lia.
Qed.

Lemma union_weak {A B} `{!Iterator A range, !IteratorOk A range,
    !Iterator B range, !IteratorOk B range} (a : A) (b : B) lo :
  mergeable (collect a) → mergeable (collect b) →
  starts_above lo (collect a) → starts_above lo (collect b) →
  wf_from lo (collect (union a b)) = true
  ∧ ∀ i, in_ranges i (collect (union a b))
         = in_ranges i (collect a) || in_ranges i (collect b).
Proof.
  intros Ha Hb La Lb. unfold union. rewrite collect_combine_new.
  destruct (combine_fuel_union _ combinator_default (collect a) (collect b) (le_n _) Ha Hb)
    as [Hm Hop].
  setoid_rewrite <-Hop. apply merge_list_spec; [done|]. intros i. rewrite Hop.
  rewrite orb_true_iff, !in_ranges_spec. unfold starts_above in *.
  rewrite Forall_forall in La, Lb.
  intros [(r & Hr & ?)|(r & Hr & ?)]; [apply La in Hr|apply Lb in Hr]; lia.
Qed.

Lemma wf_from_mergeable lo l :
  wf_from lo l = true → mergeable l ∧ starts_above lo l.
Proof.
  revert lo; induction l as [|r l IH]; intros lo; [by repeat constructor|].
  rewrite wf_from_cons. intros (?&?&Hl). apply IH in Hl as [IH1 IH2].
  split; [split; [done|]; split; [|done]|constructor; [done|]];
    (eapply Forall_impl; [exact IH2|]; cbn; lia).
Qed.

(** ** Cut *)

Lemma rank_below lo l b : wf_from lo l = true → b ≤ lo → rank l b = 0.
Proof.
  revert lo; induction l as [|r l IH]; intros lo; [done|].
  rewrite wf_from_cons. intros (?&?&Hl) Hb. cbn. rewrite (IH _ Hl) by lia.
  unfold range_len; cbn. lia.
Qed.

Lemma rank_nonneg l b : 0 ≤ rank l b.
Proof. induction l as [|r l IH]; cbn; unfold range_len in *; lia. Qed.

Lemma rank_bound lo l b : wf_from lo l = true → lo ≤ b → rank l b ≤ b - lo.
Proof.
  revert lo; induction l as [|r l IH]; intros lo; [cbn; lia|].
  rewrite wf_from_cons. intros (?&?&Hl) Hb. cbn. unfold range_len; cbn.
  destruct (decide (end_ r + 1 ≤ b)).
  - specialize (IH _ Hl). lia.
  - rewrite (rank_below _ _ _ Hl) by lia. lia.
Qed.

Lemma combine_fuel_cut fuel off l1 l2 :
  (length l1 + length l2 ≤ fuel)%nat → wf_head l1 → wf_head l2 →
  mergeable (combine_list (MkCut off) l1 l2)
  ∧ ∀ i, in_ranges i (combine_list (MkCut off) l1 l2) = true ↔
         ∃ b, in_ranges b l1 = true ∧ in_ranges b l2 = false ∧ i = b - off - rank l2 b.
Proof.
  revert off l1 l2; induction fuel as [|fuel IH]; intros off l1 l2 Hf H1 H2.
  { destruct l1, l2; cbn in Hf; try lia. rewrite combine_list_unfold.
    split; [done|]. cbn. firstorder congruence. }
  rewrite combine_list_unfold. destruct l1 as [|l l1], l2 as [|r l2]; cbn in Hf.
  - split; [done|]. cbn. firstorder congruence.
  - cbn. split; [done|]. firstorder congruence.
  - cbn [advance_lhs_tail Cut_combinator].
    pose proof (λ b, in_ranges_behind l l1 b H1) as Hbl. destruct H1 as [Hl H1].
    destruct (IH off l1 []) as [IH1 IH2];
      [cbn; lia|by eapply wf_from_head|done|]. split.
    + apply mergeable_cons_nonempty; [done|]. intros i.
      rewrite IH2. intros (b & Hb & _ & ->) _. apply Hbl in Hb. cbn. lia.
    + intros i. rewrite in_ranges_cons_nonempty, orb_true_iff, IH2, in_range_spec.
      setoid_rewrite in_ranges_cons. cbn. split.
      * intros [?|(b & Hb & _ & ->)]; [exists (i + off)|exists b];
          bits_lia.
      * intros (b & Hb & _ & ->). apply orb_true_iff in Hb as [Hb|Hb]; [|by eauto].
        apply in_range_spec in Hb. left. lia.
  - pose proof (λ b, in_ranges_behind l l1 b H1) as Hbl.
    pose proof (λ b, in_ranges_behind r l2 b H2) as Hbr.
    pose proof H1 as [Hl H1']. pose proof H2 as [Hr H2'].
    assert (Hrk : ∀ b, b ≤ start r → rank (r :: l2) b = 0).
    { intros b Hb. cbn. rewrite (rank_below _ _ _ H2') by lia.
      unfold range_len; cbn. lia. }
    assert (Hrk2 : ∀ b, end_ r ≤ b → rank (r :: l2) b = end_ r - start r + rank l2 b).
    { intros b Hb. cbn [rank]. unfold range_len; cbn. lia. }
    assert (Hrk3 : ∀ b, end_ r ≤ b → rank l2 b ≤ b - end_ r).
    { intros b Hb. destruct (decide (b = end_ r)) as [->|].
      - rewrite (rank_below _ _ _ H2') by lia. lia.
      - pose proof (rank_bound _ _ b H2'). lia. }
    cbn [advance_lhs advance_rhs Cut_combinator]. case_if.
    + destruct (IH off l1 (r :: l2)) as [IH1 IH2]; [cbn; lia|by eapply wf_from_head|done|].
      split.
      * apply mergeable_cons_nonempty; [done|]. intros i. rewrite IH2.
        intros (b & Hb & Hnb & ->). apply Hbl in Hb. rewrite in_ranges_cons in Hnb.
        unfold range_nonempty; cbn [start end_ cut_offset offset]. intros Hne.
        destruct (decide (b ≤ start r)); [rewrite Hrk by lia; lia|].
        rewrite Hrk2 by bits_lia. specialize (Hrk3 b). bits_lia.
      * intros i. rewrite in_ranges_cons_nonempty, orb_true_iff, IH2, in_range_spec.
        setoid_rewrite (in_ranges_cons _ l). cbn [start end_ cut_offset offset]. split.
        -- intros [?|(b & Hb & Hnb & ->)].
           ++ exists (i + off). rewrite Hrk by lia. rewrite in_ranges_cons.
              pose proof (Hbr (i + off)). bits_lia.
           ++ exists b. rewrite Hb. rewrite orb_true_r. done.
        -- intros (b & Hb & Hnb & ->). apply orb_true_iff in Hb as [Hb|Hb]; [|by eauto].
           apply in_range_spec in Hb. rewrite in_ranges_cons in Hnb.
           assert (b < start r) by bits_lia.
           left. rewrite Hrk by lia. lia.
    + destruct (IH (off + range_len r) (Range (Z.max (start l) (end_ r)) (end_ l) :: l1) l2)
        as [IH1 IH2];
        [cbn; lia|split; [cbn; lia|done]|by eapply wf_from_head|].
      cbn [offset] in *. assert (range_len r = end_ r - start r) as Hlen
        by (unfold range_len; lia). rewrite Hlen in *.
      split.
      * apply mergeable_cons_nonempty; [done|]. intros i. rewrite IH2.
        intros (b & Hb & Hnb & ->). rewrite in_ranges_cons in Hb.
        assert (end_ r ≤ b) as Hrb.
        { apply orb_true_iff in Hb as [Hb|Hb]; [apply in_range_spec in Hb; cbn in Hb; lia|].
          apply Hbl in Hb. lia. }
        unfold range_nonempty; cbn [start end_ cut_offset offset]. intros Hne.
        specialize (Hrk3 b Hrb). lia.
      * intros i. rewrite in_ranges_cons_nonempty, orb_true_iff, IH2, in_range_spec.
        cbn [start end_ cut_offset offset]. split.
        -- intros [?|(b & Hb & Hnb & ->)].
           ++ exists (i + off). rewrite Hrk by lia. rewrite !in_ranges_cons.
              pose proof (Hbr (i + off)). bits_lia.
           ++ exists b. rewrite in_ranges_cons in Hb |- *. rewrite in_ranges_cons, Hnb.
              assert (end_ r ≤ b) as Hrb.
              { apply orb_true_iff in Hb as [Hb|Hb];
                  [apply in_range_spec in Hb; cbn in Hb; lia|]. apply Hbl in Hb. lia. }
              rewrite Hrk2 by lia. bits_lia.
        -- intros (b & Hb & Hnb & ->). rewrite in_ranges_cons in Hb, Hnb.
           destruct (decide (b < start r)).
           ++ left. rewrite Hrk by lia. specialize (Hbl b). bits_lia.
           ++ right. exists b. rewrite in_ranges_cons.
              specialize (Hbl b). specialize (Hbr b). rewrite Hrk2 by bits_lia. bits_lia.
Qed.

(** C32.  [cut] keeps the requirements of [RangeIterator] and produces the bits
    [x] of the first iterator that are not in the second, each moved to the
    left by the number of bits of the second below it. *)
Theorem cut_correct {A B} `{!Iterator A range, !IteratorOk A range,
    !Iterator B range, !IteratorOk B range} (a : A) (b : B) :
  ranges_wf (collect a) = true → ranges_wf (collect b) = true →
  ranges_wf (collect (cut a b)) = true ∧
  ∀ i, in_ranges i (collect (cut a b)) = true ↔
    ∃ x, in_ranges x (collect a) = true ∧ in_ranges x (collect b) = false
         ∧ i = x - rank (collect b) x.
Proof.
  intros Ha Hb. unfold cut. rewrite collect_combine_new.
  destruct (combine_fuel_cut _ 0 (collect a) (collect b) (le_n _)) as [Hm Hop];
    [by apply (wf_from_head 0)..|].
  assert (Hop' : ∀ i, in_ranges i (combine_list (MkCut 0) (collect a) (collect b)) = true ↔
    ∃ x, in_ranges x (collect a) = true ∧ in_ranges x (collect b) = false
         ∧ i = x - rank (collect b) x).
  { intros i. rewrite Hop. setoid_rewrite Z.sub_0_r. done. }
  clear Hop. destruct (merge_list_spec 0 _ Hm) as [H1' H2'].
  - intros i. rewrite Hop'. intros (x & Hx & _ & ->).
    apply (wf_from_lower 0) in Hx; [|done]. pose proof (rank_bound 0 _ x Hb Hx). lia.
  - split; [exact H1'|]. intros i. cbn [combinator_default Cut_combinator].
    by rewrite H2', Hop'.
Qed.

Lemma cut_correct_witness :
  ranges_wf (collect (cut [Range 0 2; Range 3 6; Range 8 9] [Range 1 3; Range 4 5])) = true
  ∧ collect (cut [Range 0 2; Range 3 6; Range 8 9] [Range 1 3; Range 4 5])
    = [Range 0 3; Range 5 6].
Proof. split; [|reflexivity]. apply cut_correct; reflexivity. Defined.

(** ** Bits of a range list in order *)

Lemma flatten_cons r l : flatten (r :: l) = seqZ (start r) (range_len r) ++ flatten l.
Proof. done. Qed.

Lemma elem_of_flatten b l : b ∈ flatten l ↔ in_ranges b l = true.
Proof.
  unfold flatten. rewrite list_elem_of_bind, in_ranges_spec.
  setoid_rewrite elem_of_seqZ. unfold range_len. split.
  - intros (r & ? & Hr). exists r. split; [done|]. lia.
  - intros (r & Hr & ?). exists r. split; [|done]. lia.
Qed.

Lemma count_bits_cons r l : count_bits (r :: l) = range_len r + count_bits l.
Proof. done. Qed.

Lemma count_bits_nonneg l : 0 ≤ count_bits l.
Proof.
  induction l as [|r l IH]; [done|]. rewrite count_bits_cons. unfold range_len. lia.
Qed.

Lemma length_flatten l : Z.of_nat (length (flatten l)) = count_bits l.
Proof.
  induction l as [|r l IH]; [done|]. rewrite flatten_cons, length_app, length_seqZ.
  rewrite count_bits_cons. unfold range_len. lia.
Qed.

(** The bits of a well-formed list come out in strictly ascending order. *)
Lemma flatten_sorted lo l : wf_from lo l = true → StronglySorted Z.lt (flatten l).
Proof.
  revert lo; induction l as [|r l IH]; intros lo; [constructor|].
  rewrite wf_from_cons, flatten_cons. intros (?&?&Hl).
  apply StronglySorted_app. split; [|split; [apply seqZ_sorted|by eapply IH]].
  intros x y Hx%elem_of_seqZ Hy%elem_of_flatten.
  apply (wf_from_lower _ _ _ Hl) in Hy. unfold range_len in Hx. lia.
Qed.

Lemma flatten_skip_list n l :
  0 ≤ n → flatten (skip_list n l) = drop (Z.to_nat n) (flatten l).
Proof.
  revert n; induction l as [|r l IH]; intros n Hn; cbn [skip_list].
  { by destruct (Z.to_nat n). }
  rewrite flatten_cons. case_if.
  - rewrite flatten_cons, IH, drop_app_le by (rewrite ?length_seqZ; lia). rewrite drop_0.
    f_equal. replace (range_len r) with (n + (range_len r - n)) by lia.
    rewrite seqZ_app by lia. rewrite drop_app_length' by (rewrite length_seqZ; lia).
    f_equal. unfold range_len in *; cbn. lia.
  - rewrite IH by lia.
    rewrite drop_app_ge by (rewrite length_seqZ; lia).
    f_equal. rewrite length_seqZ. unfold range_len in *. lia.
Qed.

Lemma take_seqZ s (n k : Z) : 0 ≤ n ≤ k → take (Z.to_nat n) (seqZ s k) = seqZ s n.
Proof.
  intros. replace k with (n + (k - n)) by lia. rewrite seqZ_app by lia.
  by rewrite take_app_length' by (rewrite length_seqZ; lia).
Qed.

Lemma flatten_take_list n l :
  0 ≤ n → flatten (take_list n l) = take (Z.to_nat n) (flatten l).
Proof.
  revert n; induction l as [|r l IH]; intros n Hn; cbn [take_list].
  { case_if; by destruct (Z.to_nat n). }
  case_if; [subst; done|]. rewrite flatten_cons. case_if.
  - rewrite flatten_cons. cbn [start].
    assert (range_len (Range (start r) (start r + n)) = n) as ->
      by (unfold range_len; cbn; lia).
    rewrite Z.sub_diag. rewrite take_app_le by (rewrite length_seqZ; lia).
    rewrite take_seqZ by lia. destruct l; cbn; apply app_nil_r.
  - rewrite flatten_cons, IH, take_app_ge
      by (rewrite ?length_seqZ; unfold range_len in *; lia).
    f_equal. f_equal. rewrite length_seqZ. unfold range_len in *. lia.
Qed.

Lemma skip_list_wf lo n l :
  0 ≤ n → wf_from lo l = true → wf_from lo (skip_list n l) = true.
Proof.
  revert lo n; induction l as [|r l IH]; intros lo n Hn; [done|].
  rewrite wf_from_cons. intros (?&?&Hl). cbn [skip_list]. unfold range_len in *. case_if.
  - rewrite wf_from_cons; cbn. split; [lia|]. split; [lia|]. by apply IH.
  - apply IH; [lia|]. eapply wf_from_mono; [|exact Hl]. lia.
Qed.

Lemma take_list_wf lo n l :
  0 ≤ n → wf_from lo l = true → wf_from lo (take_list n l) = true.
Proof.
  revert lo n; induction l as [|r l IH]; intros lo n Hn; cbn [take_list]; [by case_if|].
  rewrite wf_from_cons. intros (?&?&Hl). case_if; [done|]. unfold range_len in *. case_if.
  - rewrite wf_from_cons; cbn. split; [lia|]. split; [lia|].
    apply IH; [lia|]. eapply wf_from_mono; [|exact Hl]. lia.
  - rewrite wf_from_cons. split; [lia|]. split; [lia|]. apply IH; [lia|done].
Qed.

(** On a range iterator that satisfies the trait's requirements,
    [skip_bits n] drops exactly the [n] lowest bits and [take_bits n] keeps
    exactly the [n] lowest ones, in order, and both results satisfy the
    requirements again. *)
Theorem skip_take_correct {A} `{!Iterator A range, !IteratorOk A range} (a : A) (n : Z) :
  0 ≤ n → ranges_wf (collect a) = true →
  ranges_wf (collect (skip_bits a n)) = true ∧
  ranges_wf (collect (take_bits a n)) = true ∧
  flatten (collect (skip_bits a n)) = drop (Z.to_nat n) (flatten (collect a)) ∧
  flatten (collect (take_bits a n)) = take (Z.to_nat n) (flatten (collect a)).
Proof.
  intros Hn Ha. rewrite collect_skip, collect_take.
  unfold ranges_wf in *.
  auto using skip_list_wf, take_list_wf, flatten_skip_list, flatten_take_list.
Qed.

Lemma skip_take_correct_witness :
  flatten (collect (skip_bits [Range 1 3; Range 4 6] 3)) = [5]
  ∧ ranges_wf (collect (take_bits [Range 1 3; Range 4 6] 3)) = true.
Proof. split; [reflexivity|]. apply (skip_take_correct _ 3); [lia|reflexivity]. Defined.

(** ** Ranges from bits *)

Lemma extend_range_spec e l :
  StronglySorted Z.le (e - 1 :: l) →
  let '(e', l') := extend_range e l in
  e ≤ e' ∧ StronglySorted Z.le l' ∧ Forall (λ b, e' - 1 ≤ b) l'
  ∧ ∀ b, (e ≤ b < e' ∨ b ∈ l') ↔ b ∈ l.
Proof.
  revert e; induction l as [|x l IH]; intros e Hs; cbn.
  { repeat split; [lia|constructor|constructor| |set_solver]. intros [?|Hb]; [lia|done]. }
  inversion_clear Hs as [|?? Hs1 Hs2]. inversion_clear Hs1 as [|?? Hs3 Hs4].
  case_if; subst.
  - specialize (IH (e + 1)). replace (e + 1 - 1) with e in IH by lia.
    destruct (extend_range (e + 1) l) as [e' l'].
    destruct IH as (?&?&Hl'&IH); [by constructor|]. repeat split; [lia|done|done| |].
    + rewrite elem_of_cons. intros [?|?]; [|right; apply IH; auto].
      destruct (decide (b = e)); [by left|]. right. apply IH. left. lia.
    + rewrite elem_of_cons. intros [->|Hb]; [left; lia|].
      apply IH in Hb as [?|?]; [left; lia|by right].
  - repeat split; [lia|by constructor|exact Hs2| |by right].
    intros [?|?]; [lia|done].
Qed.

(** On sorted bits, duplicates allowed, the ranges have lower bounds in order
    and contain exactly the given bits. *)
Lemma from_bits_spec l lo :
  StronglySorted Z.le l → Forall (λ b, lo ≤ b) l →
  let rs := collect (ranges_from_bits l) in
  mergeable rs ∧ starts_above lo rs ∧ ∀ b, in_ranges b rs = true ↔ b ∈ l.
Proof.
  rewrite collect_from_bits. cbn zeta.
  assert (Hn : (length l ≤ length l)%nat) by lia. revert Hn.
  generalize (length l) at 2 3 4 5 as n. intros n. revert l lo.
  induction n as [|n IH]; intros [|x l] lo Hn Hs Hlo; cbn in Hn; try lia;
    [cbn; repeat split; try constructor; (done || set_solver)..|].
  cbn [from_bits_fuel].
  pose proof (extend_range_length (x + 1) l) as Hlen.
  pose proof (extend_range_spec (x + 1) l) as He.
  replace (x + 1 - 1) with x in He by lia. specialize (He Hs).
  destruct (extend_range (x + 1) l) as [e l']. destruct He as (?&Hs'&Hl'&Hb).
  cbn in Hlen. destruct (IH l' x) as (IH1&IH2&IH3);
    [lia|done|eapply Forall_impl; [exact Hl'|]; cbn; lia|].
  apply Forall_cons in Hlo as [Hx Hlo]. repeat split.
  - cbn. lia.
  - exact IH2.
  - done.
  - constructor; [done|]. eapply Forall_impl; [exact IH2|]. cbn; lia.
  - rewrite in_ranges_cons, orb_true_iff, IH3, in_range_spec, elem_of_cons. cbn.
    rewrite <-Hb. intros [?|?]; [|auto]. destruct (decide (b = x)); [auto|]. right; left; lia.
  - rewrite in_ranges_cons, orb_true_iff, IH3, in_range_spec, elem_of_cons. cbn.
    rewrite <-Hb. intros [->|[?|?]]; [left|left|right]; auto; lia.
Qed.

Lemma from_bits_strict l lo :
  StronglySorted Z.lt l → Forall (λ b, lo ≤ b) l →
  wf_from lo (collect (ranges_from_bits l)) = true.
Proof.
  rewrite collect_from_bits.
  assert (Hn : (length l ≤ length l)%nat) by lia. revert Hn.
  generalize (length l) at 2 3 as n. intros n. revert l lo.
  induction n as [|n IH]; intros [|x l] lo Hn Hs Hlo; cbn in Hn; try lia; try done.
  cbn [from_bits_fuel]. pose proof (extend_range_length (x + 1) l) as Hlen.
  assert (He : let '(e, l') := extend_range (x + 1) l in
    x < e ∧ StronglySorted Z.lt l' ∧ Forall (λ b, e + 1 ≤ b) l').
  { assert (Hx : Forall (λ b, x + 1 ≤ b) l) by
      (inversion_clear Hs as [|?? ? Hf]; eapply Forall_impl; [exact Hf|]; cbn; lia).
    inversion_clear Hs as [|?? Hs' _]. clear Hn Hlo IH Hlen.
    assert (Hxe : x < x + 1) by lia. revert Hx Hxe. generalize (x + 1) as e.
    induction l as [|y l IHl]; intros e Hx Hxe; cbn; [done|].
    inversion_clear Hs' as [|?? Hs2 Hf]. apply Forall_cons in Hx as [Hy Hx].
    case_if; subst.
    - apply IHl; [done| |lia]. eapply Forall_impl; [exact Hf|]. cbn; lia.
    - split; [lia|]. split; [by constructor|]. constructor; [lia|].
      eapply Forall_impl; [exact Hf|]. cbn; lia. }
  destruct (extend_range (x + 1) l) as [e l']. destruct He as (?&Hs'&Hl').
  apply Forall_cons in Hlo as [Hx _]. rewrite wf_from_cons. cbn in *.
  split; [lia|]. split; [lia|]. apply IH; [lia|done|done].
Qed.
