(* ===== verification/BitField.v ===== *)
(** * Bit fields

    [utils/bitfield/src/lib.rs]: [BitField], a set of [usize] stored as ranges
    of ones with buffered insertions ([set]) and removals ([unset]), and the
    operations on it.  The abstract view of a bit field is the predicate
    [bf_mem]: the theorems say that each operation implements the operation on
    sets of indices it stands for, and keeps the representation invariant
    [bf_wf]. *)

From S2P Require Import Prelude Ranges RangeSets.

Record BitField := MkBitField {
  bf_ranges : list range;
  bf_set : gset Z;
  bf_unset : gset Z
}.

Definition bf_default : BitField := MkBitField [] ∅ ∅.

(** [BitField::new]. *)
Definition bf_new : BitField := bf_default.

(** The errors of the crate are string constants. *)
Inductive bf_error :=
| NotEnoughBits | NoLastBitSet | BitsExceedMax
| NotMinimallyEncoded | IncorrectVersion | RleOverflow | InvalidVarint | TooLarge.

#[global] Instance bf_error_eq_dec : EqDecision bf_error.
Proof. solve_decision. Defined.

(** [sort_unstable] on a vector of bits; bits that compare equal are equal. *)
Definition sort_bits (l : list Z) : list Z := merge_sort Z.le l.

Definition sorted_bits (s : gset Z) : list Z := sort_bits (elements s).

(** [slice::binary_search_by] of the standard library, whether it finds an
    element.  The loop halves [right - left]; the length of the slice bounds
    the number of its rounds. *)
Fixpoint binary_search_loop (fuel : nat) (f : range → comparison) (l : list range)
    (size left right : nat) : option nat :=
  match fuel with
  | O => None
  | S fuel =>
      if (left <? right)%nat then
        let mid := (left + size / 2)%nat in
        match f <$> l !! mid with
        | Some Lt => binary_search_loop fuel f l (right - (mid + 1)) (mid + 1) right
        | Some Gt => binary_search_loop fuel f l (mid - left) left mid
        | Some Eq => Some mid
        | None => None
        end
      else None
  end.

Definition binary_search_by (l : list range) (f : range → comparison) : option nat :=
  binary_search_loop (S (length l)) f l (length l) 0 (length l).

(** Where a range lies relative to the index: the closure of [BitField::get]. *)
Definition range_cmp (index : Z) (r : range) : comparison :=
  if index <? start r then Gt else if end_ r <=? index then Lt else Eq.

Section Operations.
Implicit Types self other : BitField.

Definition from_ranges (l : list range) : BitField := MkBitField l ∅ ∅.

(** [FromIterator<usize>]. *)
Definition bf_from_iter (l : list Z) : BitField :=
  from_ranges (collect (ranges_from_bits (sort_bits l))).

(** [FromIterator<bool>]: the indices of the [true] items. *)
Definition bf_from_bools (l : list bool) : BitField :=
  let bits := (λ p : nat * bool, Z.of_nat p.1)
                <$> filter (λ p : nat * bool, p.2 = true) (imap pair l) in
  from_ranges (collect (ranges_from_bits bits)).

Definition set self (bit : Z) : BitField :=
  MkBitField (bf_ranges self) ({[bit]} ∪ bf_set self) (bf_unset self ∖ {[bit]}).

Definition unset self (bit : Z) : BitField :=
  MkBitField (bf_ranges self) (bf_set self ∖ {[bit]}) ({[bit]} ∪ bf_unset self).

Definition get self (index : Z) : bool :=
  if bool_decide (index ∈ bf_set self) then true
  else if bool_decide (index ∈ bf_unset self) then false
  else match binary_search_by (bf_ranges self) (range_cmp index) with
       | Some _ => true
       | None => false
       end.

(** [self.ranges()]: the stored ranges with the buffered bits applied. *)
Definition ranges_iter self
    : Combine (Combine (list range) FromBits Union) FromBits Difference :=
  difference (union (bf_ranges self) (ranges_from_bits (sorted_bits (bf_set self))))
             (ranges_from_bits (sorted_bits (bf_unset self))).

Definition ranges self : list range := collect (ranges_iter self).

(** [self.set.iter().min()] as a range iterator of at most one range. *)
Definition min_range self : list range :=
  match head (sorted_bits (bf_set self)) with
  | Some bit => [Range bit (bit + 1)]
  | None => []
  end.

Definition first self : option Z :=
  List.find (λ i, negb (bool_decide (i ∈ bf_unset self)))
    (flatten (collect (union (bf_ranges self) (min_range self)))).

Definition last self : result bf_error Z :=
  ok_or ((λ r, end_ r - 1) <$> list.last (ranges self)) NoLastBitSet.

Definition iter self : list Z :=
  List.filter (λ i, negb (bool_decide (i ∈ bf_unset self)))
    (flatten (collect (union (bf_ranges self)
                             (ranges_from_bits (sorted_bits (bf_set self)))))).

Definition len self : Z := foldr Z.add 0 (range_len <$> ranges self).

Definition bounded_iter self (max : Z) : result bf_error (list Z) :=
  if len self <=? max then Ok (iter self) else Err BitsExceedMax.

Definition is_empty self : bool :=
  bool_decide (bf_set self = ∅)
  && forallb (λ bit, bool_decide (bit ∈ bf_unset self)) (flatten (bf_ranges self)).

Definition slice self (start_ len_ : Z) : result bf_error BitField :=
  let sl := from_ranges
              (collect (take_bits (skip_bits (ranges_iter self) start_) len_)) in
  if len sl =? len_ then Ok sl else Err NotEnoughBits.

Definition bf_cut self other : BitField :=
  from_ranges (collect (cut (ranges_iter self) (ranges_iter other))).

Definition bitor self rhs : BitField :=
  from_ranges (collect (union (ranges_iter self) (ranges_iter rhs))).
Definition bitand self rhs : BitField :=
  from_ranges (collect (intersection (ranges_iter self) (ranges_iter rhs))).
Definition sub self rhs : BitField :=
  from_ranges (collect (difference (ranges_iter self) (ranges_iter rhs))).
Definition bitxor self rhs : BitField :=
  from_ranges (collect (symmetric_difference (ranges_iter self) (ranges_iter rhs))).

(** [BitField::union] of a list of bit fields. *)
Definition bf_union (l : list BitField) : BitField := foldl bitor bf_new l.

Definition contains_any self other : bool :=
  match fst (next (intersection (ranges_iter self) (ranges_iter other))) with
  | Some _ => true
  | None => false
  end.

Definition contains_all self other : bool :=
  match fst (next (difference (ranges_iter other) (ranges_iter self))) with
  | Some _ => false
  | None => true
  end.

(** [PartialEq]: the two range iterators yield the same ranges. *)
Definition bf_eq self other : bool := bool_decide (ranges self = ranges other).

(** One round of the loops of [json::serialize] and [json::deserialize]. *)
Definition json_ser_step (acc : Z * list Z) (r : range) : Z * list Z :=
  let '(last_index, out) := acc in
  (end_ r, out ++ [wrap_u8 (start r - last_index); wrap_u8 (end_ r - start r)]).

Definition json_de_step (acc : bool * Z * list range) (index : Z)
    : bool * Z * list range :=
  let '(should_set, last_index, rs) := acc in
  let ending_index := index + last_index in
  (negb should_set, ending_index,
   if should_set then rs ++ [Range last_index ending_index] else rs).

(** [json::serialize]: the sequence of run lengths, each cast to [u8]. *)
Definition json_serialize self : list Z :=
  if is_empty self then [0]
  else snd (foldl json_ser_step (0, []) (ranges self)).

(** [json::deserialize]. *)
Definition json_deserialize (l : list Z) : BitField :=
  from_ranges (snd (foldl json_de_step (false, 0, []) l)).
End Operations.

(** ** Representation invariant and abstract view *)

(** Stored ranges: non-empty, with lower and upper bounds in order. Ranges
    built from bits with duplicates may overlap. *)
Fixpoint inner_wf (lo hi : Z) (l : list range) : Prop :=
  match l with
  | [] => True
  | r :: l => lo ≤ start r ∧ start r < end_ r ∧ hi ≤ end_ r ≤ usize_max
              ∧ inner_wf (start r) (end_ r) l
  end.

Definition bits_bounded (s : gset Z) : Prop := ∀ b, b ∈ s → 0 ≤ b < usize_max.

Record bf_wf (bf : BitField) : Prop := {
  bf_wf_ranges : inner_wf 0 0 (bf_ranges bf);
  bf_wf_disjoint : bf_set bf ## bf_unset bf;
  bf_wf_set : bits_bounded (bf_set bf);
  bf_wf_unset : bits_bounded (bf_unset bf)
}.

(** The set of indices a bit field stands for. *)
Definition bf_mem (b : Z) (bf : BitField) : bool :=
  (in_ranges b (bf_ranges bf) || bool_decide (b ∈ bf_set bf))
  && negb (bool_decide (b ∈ bf_unset bf)).

(** ** Lemmas *)

Lemma sort_bits_sorted l : StronglySorted Z.le (sort_bits l).
Proof. apply StronglySorted_merge_sort; apply _. Qed.

Lemma elem_of_sort_bits l b : b ∈ sort_bits l ↔ b ∈ l.
Proof. unfold sort_bits. by rewrite merge_sort_Permutation. Qed.

Lemma elem_of_sorted_bits s b : b ∈ sorted_bits s ↔ b ∈ s.
Proof. unfold sorted_bits. by rewrite elem_of_sort_bits, elem_of_elements. Qed.

Lemma sorted_bits_strict s : StronglySorted Z.lt (sorted_bits s).
Proof.
  assert (Hs := sort_bits_sorted (elements s)).
  assert (Hn : NoDup (sort_bits (elements s))).
  { unfold sort_bits. rewrite merge_sort_Permutation. apply NoDup_elements. }
  unfold sorted_bits. induction Hs as [|x l Hs IH Hx]; [constructor|].
  apply NoDup_cons in Hn as [Hxl Hn]. constructor; [by apply IH|].
  apply Forall_forall. intros y Hy. eapply Forall_forall in Hx; [|exact Hy].
  assert (x ≠ y) by (intros ->; done). lia.
Qed.

Lemma inner_wf_mergeable lo hi l : inner_wf lo hi l → mergeable l ∧ starts_above lo l.
Proof.
  revert lo hi; induction l as [|r l IH]; intros lo hi; [by repeat constructor|].
  cbn. intros (?&?&?&Hl). apply IH in Hl as [IH1 IH2]. split; [done|].
  constructor; [done|]. eapply Forall_impl; [exact IH2|]. cbn; lia.
Qed.

Lemma inner_wf_upper lo hi l b : inner_wf lo hi l → in_ranges b l = true → b < usize_max.
Proof.
  revert lo hi; induction l as [|r l IH]; intros lo hi; [done|].
  cbn [inner_wf]. rewrite in_ranges_cons. intros (?&?&?&Hl) Hb.
  apply orb_true_iff in Hb as [Hb|Hb]; [apply in_range_spec in Hb; lia|by eapply IH].
Qed.

Lemma bf_mem_bounds b bf : bf_wf bf → bf_mem b bf = true → 0 ≤ b < usize_max.
Proof.
  intros [Hr _ Hs _]. unfold bf_mem. rewrite andb_true_iff, orb_true_iff. intros [[Hb|Hb] _].
  - split; [|by eapply inner_wf_upper].
    apply inner_wf_mergeable in Hr as [_ Hr]. apply in_ranges_spec in Hb as (r & Hin & ?).
    eapply Forall_forall in Hr; [|exact Hin]. cbn in Hr. lia.
  - apply Hs. by eapply bool_decide_eq_true_1.
Qed.

(** The buffered removals as ranges. *)
Lemma sorted_bits_ranges s :
  bits_bounded s →
  let rs := collect (ranges_from_bits (sorted_bits s)) in
  ranges_wf rs = true ∧ ∀ b, in_ranges b rs = bool_decide (b ∈ s).
Proof.
  intros Hs. assert (Hlo : Forall (λ b, 0 ≤ b) (sorted_bits s)).
  { apply Forall_forall. intros b Hb%elem_of_sorted_bits. by apply Hs. }
  split; [by apply from_bits_strict; [apply sorted_bits_strict|]|]. intros b.
  destruct (from_bits_spec (sorted_bits s) 0) as (_&_&H); [apply sort_bits_sorted|done|].
  apply bool_eq_iff. rewrite H, elem_of_sorted_bits. symmetry. apply bool_decide_eq_true.
Qed.

Lemma ranges_union_spec bf :
  bf_wf bf →
  let rs := collect (union (bf_ranges bf) (ranges_from_bits (sorted_bits (bf_set bf)))) in
  ranges_wf rs = true
  ∧ ∀ b, in_ranges b rs = in_ranges b (bf_ranges bf) || bool_decide (b ∈ bf_set bf).
Proof.
  intros [Hr _ Hs _]. cbn zeta. destruct (sorted_bits_ranges _ Hs) as [Hw Hb].
  apply inner_wf_mergeable in Hr as [Hr1 Hr2].
  apply (wf_from_mergeable 0) in Hw as [Hw1 Hw2].
  destruct (union_weak (bf_ranges bf) (ranges_from_bits (sorted_bits (bf_set bf))) 0)
    as [H1 H2]; rewrite ?collect_list; try done.
  split; [done|]. intros b. by rewrite H2, collect_list, Hb.
Qed.

(** The ranges a bit field iterates over are well formed and contain its bits. *)
Lemma ranges_spec bf :
  bf_wf bf →
  ranges_wf (ranges bf) = true ∧ ∀ b, in_ranges b (ranges bf) = bf_mem b bf.
Proof.
  intros Hwf. destruct (ranges_union_spec bf Hwf) as [Hu1 Hu2].
  destruct (sorted_bits_ranges (bf_unset bf)) as [Hw Hb]; [apply Hwf|].
  destruct (combine_set (C:=Difference) _ _ Hu1 Hw) as [H1 H2].
  split; [exact H1|]. intros b. unfold ranges, ranges_iter, difference.
  rewrite H2, Hu2, Hb. done.
Qed.

(** A bit field built from well-formed ranges. *)
Lemma inner_wf_of_wf lo hi l :
  wf_from lo l = true → hi ≤ lo → (∀ b, in_ranges b l = true → b < usize_max) →
  inner_wf lo hi l.
Proof.
  revert lo hi; induction l as [|r l IH]; intros lo hi; [done|].
  rewrite wf_from_cons. intros (?&?&Hl) Hhi Hb. cbn.
  assert (end_ r - 1 < usize_max).
  { apply Hb. rewrite in_ranges_cons. unfold in_range. lia. }
  repeat split; try lia.
  assert (inner_wf (end_ r + 1) (end_ r) l) as H'.
  { apply IH; [done|lia|]. intros b Hb'. apply Hb. rewrite in_ranges_cons, Hb'. apply orb_true_r. }
  destruct l as [|r' l]; [done|]. cbn in H' |- *. intuition lia.
Qed.

Lemma from_ranges_wf l :
  ranges_wf l = true → (∀ b, in_ranges b l = true → b < usize_max) → bf_wf (from_ranges l).
Proof.
  intros Hl Hb. split; cbn; [by apply inner_wf_of_wf|set_solver|done|done].
Qed.

Lemma from_ranges_mem b l : bf_mem b (from_ranges l) = in_ranges b l.
Proof. unfold bf_mem. cbn. by rewrite orb_false_r, andb_true_r. Qed.

Lemma bf_new_wf : bf_wf bf_new.
Proof. by apply (from_ranges_wf []). Qed.

Lemma set_wf bf b : bf_wf bf → 0 ≤ b < usize_max → bf_wf (set bf b).
Proof.
  intros [Hr Hd Hs Hu] Hb. split; cbn; [done|set_solver| |]; intros x Hx.
  - apply elem_of_union in Hx as [->%elem_of_singleton|Hx]; [done|by apply Hs].
  - apply Hu. set_solver.
Qed.

Lemma unset_wf bf b : bf_wf bf → 0 ≤ b < usize_max → bf_wf (unset bf b).
Proof.
  intros [Hr Hd Hs Hu] Hb. split; cbn; [done|set_solver| |]; intros x Hx.
  - apply Hs. set_solver.
  - apply elem_of_union in Hx as [->%elem_of_singleton|Hx]; [done|by apply Hu].
Qed.

Lemma set_mem bf b x : bf_mem x (set bf b) = bool_decide (x = b) || bf_mem x bf.
Proof.
  unfold bf_mem; cbn. destruct (decide (x = b)) as [->|Hne].
  - rewrite !(bool_decide_eq_true_2 (b ∈ _)), (bool_decide_eq_false_2 (b ∈ _ ∖ _)),
      (bool_decide_eq_true_2 (b = b)) by set_solver. by rewrite orb_true_r.
  - rewrite (bool_decide_eq_false_2 (x = b)) by done.
    rewrite (bool_decide_ext (x ∈ {[b]} ∪ bf_set bf) (x ∈ bf_set bf)) by set_solver.
    by rewrite (bool_decide_ext (x ∈ bf_unset bf ∖ {[b]}) (x ∈ bf_unset bf)) by set_solver.
Qed.

Lemma unset_mem bf b x : bf_mem x (unset bf b) = bf_mem x bf && negb (bool_decide (x = b)).
Proof.
  unfold bf_mem; cbn. destruct (decide (x = b)) as [->|Hne].
  - rewrite (bool_decide_eq_true_2 (b ∈ {[b]} ∪ _)), (bool_decide_eq_true_2 (b = b))
      by set_solver. by rewrite !andb_false_r.
  - rewrite (bool_decide_eq_false_2 (x = b)) by done. rewrite andb_true_r.
    rewrite (bool_decide_ext (x ∈ {[b]} ∪ bf_unset bf) (x ∈ bf_unset bf)) by set_solver.
    by rewrite (bool_decide_ext (x ∈ bf_set bf ∖ {[b]}) (x ∈ bf_set bf)) by set_solver.
Qed.

(** Ranges built from sorted bits, duplicates allowed. *)
Lemma from_bits_inner_wf n l lo hi :
  (length l ≤ n)%nat → StronglySorted Z.le l →
  Forall (λ b, lo ≤ b ∧ hi ≤ b + 1 ∧ b < usize_max) l → inner_wf lo hi (from_bits_fuel n l).
Proof.
  revert l lo hi; induction n as [|n IH]; intros [|x l] lo hi Hn Hs Hl; cbn in Hn;
    try lia; try done.
  cbn [from_bits_fuel]. pose proof (extend_range_length (x + 1) l) as Hlen.
  pose proof (extend_range_spec (x + 1) l) as He.
  replace (x + 1 - 1) with x in He by lia. specialize (He Hs).
  destruct (extend_range (x + 1) l) as [e l']. destruct He as (?&Hs'&Hl'&Hb).
  cbn in Hlen. apply Forall_cons in Hl as [Hx Hl]. rewrite Forall_forall in Hl, Hl'.
  assert (e ≤ usize_max).
  { destruct (decide (e = x + 1)) as [->|]; [lia|].
    assert (e - 1 ∈ l) as He by (apply Hb; left; lia). apply Hl in He. lia. }
  cbn. repeat split; try lia. apply IH; [lia|done|].
  apply Forall_forall. intros b Hb'. pose proof (Hl' _ Hb').
  assert (b ∈ l) as Hbl by (apply Hb; by right). apply Hl in Hbl. lia.
Qed.

Lemma from_iter_spec l :
  Forall (λ b, 0 ≤ b < usize_max) l →
  bf_wf (bf_from_iter l) ∧ ∀ b, bf_mem b (bf_from_iter l) = bool_decide (b ∈ l).
Proof.
  intros Hl. assert (Hl' : Forall (λ b, 0 ≤ b < usize_max) (sort_bits l)).
  { rewrite Forall_forall in Hl |- *. intros b. rewrite elem_of_sort_bits. apply Hl. }
  split.
  - split; cbn [bf_from_iter from_ranges bf_ranges bf_set bf_unset];
      [|set_solver|done|done]. rewrite collect_from_bits.
    apply from_bits_inner_wf; [done|apply sort_bits_sorted|].
    eapply Forall_impl; [exact Hl'|]. cbn; lia.
  - intros b. unfold bf_from_iter. rewrite from_ranges_mem.
    destruct (from_bits_spec (sort_bits l) 0) as (_&_&H);
      [apply sort_bits_sorted|eapply Forall_impl; [exact Hl'|]; cbn; lia|].
    apply bool_eq_iff. by rewrite H, elem_of_sort_bits, bool_decide_eq_true.
Qed.

(** *** Binary search *)

Lemma inner_wf_lookup lo hi l i j r r' :
  inner_wf lo hi l → (i ≤ j)%nat → l !! i = Some r → l !! j = Some r' →
  start r ≤ start r' ∧ end_ r ≤ end_ r' ∧ lo ≤ start r ∧ hi ≤ end_ r.
Proof.
  revert lo hi i j r; induction l as [|x l IH]; intros lo hi i j r; [done|].
  cbn [inner_wf]. intros (?&?&?&Hl) Hij Hi Hj. destruct i as [|i].
  - cbn in Hi; simplify_eq. destruct j as [|j]; cbn in Hj; [simplify_eq; lia|].
    destruct (IH _ _ j j r' Hl) as (?&?&?&?); try done; lia.
  - destruct j as [|j]; [lia|]. cbn in Hi, Hj.
    destruct (IH _ _ i j r Hl) as (?&?&?&?); try done; lia.
Qed.

Lemma binary_search_loop_spec fuel index l lo hi size left right :
  inner_wf lo hi l → size = (right - left)%nat → (right - left < fuel)%nat →
  (left ≤ right ≤ length l)%nat →
  (∀ j r, (j < left)%nat → l !! j = Some r → end_ r ≤ index) →
  (∀ j r, (right ≤ j)%nat → l !! j = Some r → index < start r) →
  is_Some (binary_search_loop fuel (range_cmp index) l size left right)
  ↔ in_ranges index l = true.
Proof.
  intros Hl. revert size left right.
  induction fuel as [|fuel IH]; intros size left right Hsz Hf Hlr HL HR; [lia|].
  cbn [binary_search_loop]. destruct (Nat.ltb_spec left right) as [Hlt|Hge].
  - assert (left + size / 2 < right)%nat as Hmid.
    { subst size. pose proof (Nat.div_lt (right - left) 2). lia. }
    destruct (lookup_lt_is_Some_2 l (left + size / 2)) as [r Hr]; [lia|].
    rewrite Hr. cbn [fmap option_fmap option_map]. unfold range_cmp at 1.
    case_if; [|case_if].
    + apply IH; [lia..|done|]. intros j r' Hj Hr'.
      destruct (inner_wf_lookup _ _ _ _ _ _ _ Hl Hj Hr Hr'). lia.
    + apply IH; [lia..| |done]. intros j r' Hj Hr'.
      assert (j ≤ left + size / 2)%nat as Hj' by lia.
      destruct (inner_wf_lookup _ _ _ _ _ _ _ Hl Hj' Hr' Hr) as (?&?&?&?). lia.
    + split; [|by eauto]. intros _. apply in_ranges_spec. exists r.
      split; [by eapply list_elem_of_lookup_2|lia].
  - split; [by intros [??]|]. intros (r & Hr & ?)%in_ranges_spec.
    apply list_elem_of_lookup in Hr as [j Hj].
    destruct (decide (j < left)%nat) as [Hjl|];
      [specialize (HL _ _ Hjl Hj)|specialize (HR j r ltac:(lia) Hj)]; lia.
Qed.

Lemma get_mem bf index : bf_wf bf → get bf index = bf_mem index bf.
Proof.
  intros Hwf. unfold get, bf_mem.
  assert (Hbs : match binary_search_by (bf_ranges bf) (range_cmp index) with
    Some _ => true | None => false end = in_ranges index (bf_ranges bf)).
  { apply bool_eq_iff. rewrite <-(binary_search_loop_spec (S (length (bf_ranges bf))) index _ 0 0
      (length (bf_ranges bf)) 0 (length (bf_ranges bf))); try lia.
    - apply option_test_is_Some.
    - apply Hwf.
    - intros j r Hj Hr. apply lookup_lt_Some in Hr. lia. }
  rewrite Hbs. destruct (decide (index ∈ bf_set bf)) as [Hs|Hs].
  - rewrite (bool_decide_eq_true_2 (index ∈ bf_set bf)) by done.
    rewrite (bool_decide_eq_false_2 (index ∈ bf_unset bf)).
    + by rewrite orb_true_r.
    + intros Hu. by apply (bf_wf_disjoint _ Hwf index).
  - rewrite (bool_decide_eq_false_2 (index ∈ bf_set bf)) by done.
    rewrite orb_false_r. by case_bool_decide; destruct (in_ranges _ _).
Qed.

(** *** Observers *)

Lemma iter_spec bf :
  bf_wf bf → StronglySorted Z.lt (iter bf) ∧ ∀ b, b ∈ iter bf ↔ bf_mem b bf = true.
Proof.
  intros Hwf. destruct (ranges_union_spec bf Hwf) as [H1 H2]. unfold iter. split.
  - by apply strict_sorted_filter, (flatten_sorted 0).
  - intros b. rewrite elem_of_list_filter, elem_of_flatten, H2.
    unfold bf_mem. rewrite andb_true_iff. tauto.
Qed.

Lemma iter_flatten bf : bf_wf bf → iter bf = flatten (ranges bf).
Proof.
  intros Hwf. destruct (ranges_spec bf Hwf) as [H1 H2]. destruct (iter_spec bf Hwf) as [H3 H4].
  apply strict_sorted_ext; [done|by apply (flatten_sorted 0)|].
  intros b. by rewrite H4, elem_of_flatten, H2.
Qed.

Lemma len_count bf : len bf = count_bits (ranges bf).
Proof. unfold len, count_bits. by induction (ranges bf) as [|r l IH]; cbn; [|rewrite IH]. Qed.

Lemma len_iter bf : bf_wf bf → len bf = Z.of_nat (length (iter bf)).
Proof. intros Hwf. by rewrite len_count, iter_flatten, length_flatten. Qed.

Lemma first_iter bf : bf_wf bf → first bf = head (iter bf).
Proof.
  intros Hwf. destruct (iter_spec bf Hwf) as [Hi1 Hi2].
  destruct (ranges_union_spec bf Hwf) as [_ Hu].
  pose proof Hwf as [Hr Hd Hs _]. apply inner_wf_mergeable in Hr as [Hr1 Hr2].
  unfold first. rewrite find_head_filter.
  set (L := List.filter _ _).
  assert (HL : StronglySorted Z.lt L ∧ ∀ b, b ∈ L ↔
    (in_ranges b (bf_ranges bf) = true ∨ head (sorted_bits (bf_set bf)) = Some b)
    ∧ b ∉ bf_unset bf).
  { assert (Hmin : mergeable (min_range bf) ∧ starts_above 0 (min_range bf)
      ∧ ∀ b, in_ranges b (min_range bf) = true ↔ head (sorted_bits (bf_set bf)) = Some b).
    { unfold min_range. destruct (head (sorted_bits (bf_set bf))) as [m|] eqn:Em; [|by repeat split; try constructor].
      assert (0 ≤ m).
      { apply Hs. apply elem_of_sorted_bits.
        by apply (strict_sorted_head _ m (sorted_bits_strict _)). }
      split; [cbn; repeat split; [lia|constructor]|]. split; [by repeat constructor|].
      intros b. cbn. unfold in_range; cbn. rewrite orb_false_r. split; [|intros [= ->]; lia].
      intros. f_equal. lia. }
    destruct Hmin as (Hm1 & Hm2 & Hm3).
    destruct (union_weak (bf_ranges bf) (min_range bf) 0) as [Hw Hb];
      rewrite ?collect_list; try done.
    split; [by apply strict_sorted_filter, (flatten_sorted 0)|].
    intros b. unfold L. rewrite elem_of_list_filter, elem_of_flatten, Hb, !collect_list.
    rewrite orb_true_iff, Hm3, negb_true_iff, bool_decide_eq_false. tauto. }
  destruct HL as [HL1 HL2]. apply option_eq. intros x.
  rewrite !strict_sorted_head by done. setoid_rewrite HL2. setoid_rewrite Hi2.
  assert (Hmem : ∀ b, bf_mem b bf = true ↔
    (in_ranges b (bf_ranges bf) = true ∨ b ∈ bf_set bf) ∧ b ∉ bf_unset bf).
  { intros b. unfold bf_mem.
    by rewrite andb_true_iff, orb_true_iff, negb_true_iff, bool_decide_eq_false,
      bool_decide_eq_true. }
  setoid_rewrite Hmem.
  assert (Hhd : ∀ b, head (sorted_bits (bf_set bf)) = Some b ↔
    b ∈ bf_set bf ∧ ∀ y, y ∈ bf_set bf → b ≤ y).
  { intros b. rewrite (strict_sorted_head _ b (sorted_bits_strict _)).
    by setoid_rewrite elem_of_sorted_bits. }
  setoid_rewrite Hhd. split; intros [[Hx Hxu] Hmn]; (split; [split; [|done]|]).
  - tauto.
  - intros y [[Hy|Hy] Hyu]; [apply Hmn; tauto|].
    destruct (head (sorted_bits (bf_set bf))) as [m|] eqn:Em.
    + destruct (proj1 (Hhd m) eq_refl) as [Hm1 Hm2]. pose proof (Hm2 _ Hy).
      enough (x ≤ m) by lia. apply Hmn. split; [by right|]. exact (Hd m Hm1).
    + destruct (sorted_bits (bf_set bf)) eqn:E; [|done].
      apply elem_of_sorted_bits in Hy. rewrite E in Hy. set_solver.
  - destruct Hx as [Hx|Hx]; [by left|]. right. split; [done|].
    intros y Hy. apply Hmn. split; [by right|]. exact (Hd y Hy).
  - intros y [[Hy|[Hy _]] Hyu]; apply Hmn; tauto.
Qed.

Lemma last_iter bf :
  bf_wf bf → last bf = ok_or (list.last (iter bf)) NoLastBitSet.
Proof.
  intros Hwf. destruct (ranges_spec bf Hwf) as [H1 _]. rewrite iter_flatten by done.
  unfold last. f_equal. unfold ranges_wf in H1. revert H1. generalize 0 as lo.
  induction (ranges bf) as [|r l IH]; intros lo; [done|]. rewrite wf_from_cons.
  intros (?&?&Hl). rewrite flatten_cons. destruct l as [|r' l].
  - cbn. rewrite app_nil_r. replace (range_len r) with (range_len r - 1 + 1)
      by lia. unfold range_len. rewrite seqZ_app by lia. rewrite last_app. cbn.
    f_equal. lia.
  - rewrite last_app. specialize (IH _ Hl). cbn [list.last fmap option_fmap option_map] in *.
    rewrite IH. destruct (list.last (flatten (r' :: l))) eqn:E; [done|].
    apply last_None in E. apply wf_from_cons in Hl as (_&?&_).
    rewrite flatten_cons, seqZ_cons in E by (unfold range_len; lia). done.
Qed.

Lemma is_empty_spec bf : bf_wf bf → is_empty bf = true ↔ ∀ b, bf_mem b bf = false.
Proof.
  intros Hwf. unfold is_empty. rewrite andb_true_iff, bool_decide_eq_true, forallb_forall.
  setoid_rewrite <-list_elem_of_In. setoid_rewrite elem_of_flatten.
  setoid_rewrite bool_decide_eq_true. unfold bf_mem. split.
  - intros [Hs Hr] b. rewrite Hs. destruct (in_ranges b (bf_ranges bf)) eqn:E; cbn.
    + rewrite (bool_decide_eq_true_2 (b ∈ bf_unset bf)) by auto. done.
    + by rewrite bool_decide_eq_false_2 by set_solver.
  - intros Hb. split.
    + apply set_eq. intros b. split; [|set_solver]. intros Hin. specialize (Hb b).
      rewrite (bool_decide_eq_true_2 (b ∈ bf_set bf)), orb_true_r in Hb by done.
      rewrite bool_decide_eq_false_2 in Hb; [done|]. exact (bf_wf_disjoint _ Hwf b Hin).
    + intros b Hr. specialize (Hb b). rewrite Hr in Hb. cbn in Hb.
      by apply negb_false_iff, bool_decide_eq_true_1 in Hb.
Qed.

Lemma next_head {S A} `{!Iterator S A, !IteratorOk S A} (s : S) :
  fst (next s) = head (collect s).
Proof. rewrite collect_unfold. by destruct (next s) as [[a|] s']. Qed.

Lemma wf_nonempty l :
  ranges_wf l = true → is_Some (head l) ↔ ∃ b, in_ranges b l = true.
Proof.
  unfold ranges_wf. destruct l as [|r l]; cbn [head].
  - intros _. split; [by intros [??]|by intros [b ?]].
  - rewrite wf_from_cons. intros (?&?&_). split; [|by eauto]. intros _.
    exists (start r). rewrite in_ranges_cons. unfold in_range. lia.
Qed.

Lemma contains_any_spec a b :
  bf_wf a → bf_wf b →
  contains_any a b = true ↔ ∃ x, bf_mem x a = true ∧ bf_mem x b = true.
Proof.
  intros Ha Hb. destruct (ranges_spec a Ha) as [Ha1 Ha2], (ranges_spec b Hb) as [Hb1 Hb2].
  destruct (combine_set (C:=Intersection) _ _ Ha1 Hb1) as [H1 H2].
  unfold contains_any, intersection. rewrite next_head.
  pose proof (wf_nonempty _ H1) as Hne.
  setoid_rewrite <-Ha2. setoid_rewrite <-Hb2. setoid_rewrite <-andb_true_iff.
  setoid_rewrite <-H2. rewrite <-Hne. apply option_test_is_Some.
Qed.

Lemma contains_all_spec a b :
  bf_wf a → bf_wf b →
  contains_all a b = true ↔ ∀ x, bf_mem x b = true → bf_mem x a = true.
Proof.
  intros Ha Hb. destruct (ranges_spec a Ha) as [Ha1 Ha2], (ranges_spec b Hb) as [Hb1 Hb2].
  destruct (combine_set (C:=Difference) _ _ Hb1 Ha1) as [H1 H2].
  unfold contains_all, difference at 1. rewrite next_head.
  pose proof (wf_nonempty _ H1) as Hne.
  setoid_rewrite H2 in Hne. unfold op_difference in Hne.
  setoid_rewrite <-Ha2. setoid_rewrite <-Hb2. unfold ranges in *.
  destruct (head _) as [r|].
  - split; [done|]. intros Hall. destruct (proj1 Hne) as [x Hx]; [by eauto|].
    apply andb_true_iff in Hx as [Hx1 Hx2]. apply Hall in Hx1. by rewrite Hx1 in Hx2.
  - split; [|done]. intros _ x Hx. destruct (in_ranges x _) eqn:E at 1; [done|].
    destruct (proj2 Hne) as [? ?]; [|done]. exists x. by rewrite Hx, E.
Qed.

Lemma bf_eq_spec a b :
  bf_wf a → bf_wf b → bf_eq a b = true ↔ ∀ x, bf_mem x a = bf_mem x b.
Proof.
  intros Ha Hb. destruct (ranges_spec a Ha) as [Ha1 Ha2], (ranges_spec b Hb) as [Hb1 Hb2].
  unfold bf_eq. rewrite bool_decide_eq_true. setoid_rewrite <-Ha2. setoid_rewrite <-Hb2.
  split; [by intros ->|]. by apply (wf_from_ext 0 0).
Qed.

(** Ranges from a well-formed list come back unchanged. *)
Lemma ranges_from_ranges l :
  ranges_wf l = true → (∀ b, in_ranges b l = true → b < usize_max) →
  ranges (from_ranges l) = l.
Proof.
  intros Hl Hb. destruct (ranges_spec (from_ranges l)) as [H1 H2]; [by apply from_ranges_wf|].
  apply (wf_from_ext 0 0); [done..|]. intros b. by rewrite H2, from_ranges_mem.
Qed.

(** *** Binary operations *)

Section BinaryOps.
Context (a b : BitField) (Ha : bf_wf a) (Hb : bf_wf b).

Lemma combine_bf (C : Type) `{!Combinator C} op `{!SetCombinator C op} :
  let c := from_ranges (collect (combine_new C (ranges_iter a) (ranges_iter b))) in
  bf_wf c ∧ ∀ x, bf_mem x c = op (bf_mem x a) (bf_mem x b).
Proof.
  destruct (ranges_spec a Ha) as [Ha1 Ha2], (ranges_spec b Hb) as [Hb1 Hb2].
  destruct (combine_set (C:=C) _ _ Ha1 Hb1) as [H1 H2].
  assert (Hop : ∀ x, in_ranges x (collect (combine_new C (ranges_iter a) (ranges_iter b)))
                     = op (bf_mem x a) (bf_mem x b)).
  { intros x. rewrite H2. by rewrite <-Ha2, <-Hb2. }
  split; [apply from_ranges_wf; [done|]|intros x; by rewrite from_ranges_mem].
  intros x. rewrite Hop. intros Hx.
  destruct (bf_mem x a) eqn:Ea; [by apply (bf_mem_bounds x a)|].
  destruct (bf_mem x b) eqn:Eb; [by apply (bf_mem_bounds x b)|].
  by rewrite sc_empty in Hx.
Qed.

Lemma bf_cut_spec :
  bf_wf (bf_cut a b) ∧
  ∀ i, bf_mem i (bf_cut a b) = true ↔
    ∃ x, bf_mem x a = true ∧ bf_mem x b = false ∧ i = x - rank (ranges b) x.
Proof.
  destruct (ranges_spec a Ha) as [Ha1 Ha2], (ranges_spec b Hb) as [Hb1 Hb2].
  destruct (combine_fuel_cut _ 0 (ranges a) (ranges b) (le_n _)) as [Hm Hop];
    [by apply (wf_from_head 0)..|].
  assert (Hlow : ∀ x, bf_mem x a = true → 0 ≤ rank (ranges b) x ≤ x).
  { intros x Hx. apply bf_mem_bounds in Hx; [|done].
    pose proof (rank_bound 0 _ x Hb1). pose proof (rank_nonneg (ranges b) x). lia. }
  setoid_rewrite Ha2 in Hop. setoid_rewrite Hb2 in Hop. setoid_rewrite Z.sub_0_r in Hop.
  destruct (merge_list_spec 0 _ Hm) as [H1 H2].
  { intros i. rewrite Hop. intros (x & Hx & _ & ->). apply Hlow in Hx. lia. }
  assert (Hcut : collect (cut (ranges_iter a) (ranges_iter b))
                 = merge_list (combine_list (MkCut 0) (ranges a) (ranges b))).
  { unfold cut. by rewrite collect_combine_new. }
  unfold bf_cut. rewrite Hcut. split.
  - apply from_ranges_wf; [done|]. intros i. rewrite H2, Hop. intros (x & Hx & _ & ->).
    pose proof (Hlow _ Hx). apply bf_mem_bounds in Hx; [|done]. lia.
  - intros i. by rewrite from_ranges_mem, H2, Hop.
Qed.
End BinaryOps.

Lemma slice_spec bf s n :
  bf_wf bf → 0 ≤ s → 0 ≤ n →
  let l := take (Z.to_nat n) (drop (Z.to_nat s) (iter bf)) in
  match slice bf s n with
  | Ok sl => Z.of_nat (length l) = n ∧ bf_wf sl ∧ iter sl = l
  | Err e => Z.of_nat (length l) < n ∧ e = NotEnoughBits
  end.
Proof.
  intros Hwf Hs Hn. cbn zeta. destruct (ranges_spec bf Hwf) as [H1 H2].
  unfold slice. set (rs := collect _).
  assert (Hrs : rs = take_list n (skip_list s (ranges bf))).
  { unfold rs. by rewrite collect_take, collect_skip. }
  assert (Hfl : flatten rs = take (Z.to_nat n) (drop (Z.to_nat s) (iter bf))).
  { by rewrite Hrs, flatten_take_list, flatten_skip_list, iter_flatten by done. }
  assert (Hok : ranges_wf rs = true).
  { rewrite Hrs. apply take_list_wf, skip_list_wf; done. }
  assert (Hb : ∀ b, in_ranges b rs = true → b < usize_max).
  { intros b. rewrite <-elem_of_flatten, Hfl. intros Hin.
    apply (bf_mem_bounds b bf Hwf). apply iter_spec; [done|].
    apply elem_of_take in Hin as (i & Hin & _). rewrite lookup_drop in Hin.
    by eapply list_elem_of_lookup_2. }
  assert (Hwf' : bf_wf (from_ranges rs)) by by apply from_ranges_wf.
  assert (Hit : iter (from_ranges rs) = flatten rs).
  { rewrite iter_flatten by done. by rewrite ranges_from_ranges. }
  rewrite <-Hfl, <-Hit, len_iter by done. case_if; [done|].
  split; [|done]. rewrite Hit, Hfl, length_take in *. lia.
Qed.

(** *** JSON *)

(** Run lengths of zeros and ones, starting with zeros. *)
Fixpoint runs (last_index : Z) (l : list range) : list Z :=
  match l with
  | [] => []
  | r :: l => start r - last_index :: end_ r - start r :: runs (end_ r) l
  end.

Lemma json_serialize_runs bf :
  json_serialize bf = if is_empty bf then [0] else wrap_u8 <$> runs 0 (ranges bf).
Proof.
  unfold json_serialize. destruct (is_empty bf); [done|].
  assert (∀ l i out, snd (foldl json_ser_step (i, out) l)
                     = out ++ (wrap_u8 <$> runs i l)) as ->; [|done].
  induction l as [|r l IH]; intros i out; cbn; [by rewrite app_nil_r|].
  rewrite IH, <-app_assoc. done.
Qed.

Lemma json_deserialize_runs l : json_deserialize (runs 0 l) = from_ranges l.
Proof.
  unfold json_deserialize. f_equal.
  assert (∀ i rs, snd (foldl json_de_step (false, i, rs) (runs i l)) = rs ++ l) as H;
    [|apply H].
  induction l as [|[s e] l IH]; intros i rs; cbn; [by rewrite app_nil_r|].
  replace (s - i + i) with s by lia. replace (e - s + s) with e by lia.
  by rewrite IH, <-app_assoc.
Qed.

(** ** Theorems *)

(** C13.  [BitField] implements a set of indices.  For well-formed bit fields,
    [get] tests membership; [set] and [unset] add and remove an index; [|],
    [&], [-] and [^] are union, intersection, difference and symmetric
    difference; [cut] removes the indices of the second argument and closes
    the gaps.  Every result satisfies the representation invariant, so all
    indices stay below [usize::MAX]. *)
Theorem bitfield_refines_set (a b : BitField) :
  bf_wf a → bf_wf b →
  (∀ x, get a x = bf_mem x a) ∧
  (∀ i, 0 ≤ i < usize_max →
    bf_wf (set a i) ∧ bf_wf (unset a i) ∧
    ∀ x, bf_mem x (set a i) = bool_decide (x = i) || bf_mem x a
       ∧ bf_mem x (unset a i) = bf_mem x a && negb (bool_decide (x = i))) ∧
  (bf_wf (bitor a b) ∧ bf_wf (bitand a b) ∧ bf_wf (sub a b) ∧ bf_wf (bitxor a b)
   ∧ bf_wf (bf_cut a b)) ∧
  (∀ x, bf_mem x (bitor a b) = bf_mem x a || bf_mem x b
      ∧ bf_mem x (bitand a b) = bf_mem x a && bf_mem x b
      ∧ bf_mem x (sub a b) = bf_mem x a && negb (bf_mem x b)
      ∧ bf_mem x (bitxor a b) = xorb (bf_mem x a) (bf_mem x b)) ∧
  (∀ i, bf_mem i (bf_cut a b) = true ↔
     ∃ x, bf_mem x a = true ∧ bf_mem x b = false ∧ i = x - rank (ranges b) x).
Proof.
  intros Ha Hb.
  destruct (combine_bf a b Ha Hb Union orb) as [? Hor].
  destruct (combine_bf a b Ha Hb Intersection andb) as [? Hand].
  destruct (combine_bf a b Ha Hb Difference op_difference) as [? Hsub].
  destruct (combine_bf a b Ha Hb SymmetricDifference xorb) as [? Hxor].
  destruct (bf_cut_spec a b Ha Hb) as [? Hcut].
  split; [by intros; apply get_mem|].
  split; [intros i Hi; auto using set_wf, unset_wf, set_mem, unset_mem|].
  split; [done|]. split; [|done]. intros x. split; [|split; [|split]];
    [apply Hor|apply Hand|apply Hsub|apply Hxor].
Qed.

Lemma bitfield_refines_set_witness :
  let a := set (from_ranges [Range 1 4; Range 7 9]) 12 in
  let b := from_ranges [Range 3 8] in
  bf_wf a ∧ bf_wf (bitxor a b) ∧ ranges (bitxor a b) = [Range 1 3; Range 4 7; Range 8 9; Range 12 13].
Proof.
  intros a b.
  assert (Ha : bf_wf a).
  { apply set_wf; [apply from_ranges_wf; [reflexivity|]|unfold usize_max; lia].
    intros x. cbn. unfold in_range, usize_max; cbn. lia. }
  assert (Hb : bf_wf b).
  { apply from_ranges_wf; [reflexivity|]. intros x. cbn. unfold in_range, usize_max; cbn. lia. }
  split; [exact Ha|]. split; [|vm_compute; reflexivity].
  destruct (bitfield_refines_set a b Ha Hb) as (_ & _ & (_ & _ & _ & H & _) & _).
  exact H.
Defined.

(** The observers of a well-formed bit field agree with its set of
    indices: [iter] lists exactly the indices in strictly ascending order,
    [ranges] are well formed and cover them, [len] counts them, [first] and
    [last] are the extreme ones (the error when there is none), [bounded_iter]
    lists them unless there are more than the bound, and [is_empty],
    [contains_any], [contains_all] and [==] decide emptiness, overlap,
    inclusion and equality. *)
Theorem bitfield_observers (a b : BitField) :
  bf_wf a → bf_wf b →
  (StronglySorted Z.lt (iter a) ∧ ∀ x, x ∈ iter a ↔ bf_mem x a = true) ∧
  (ranges_wf (ranges a) = true ∧ ∀ x, in_ranges x (ranges a) = bf_mem x a) ∧
  len a = Z.of_nat (length (iter a)) ∧
  first a = head (iter a) ∧
  last a = ok_or (list.last (iter a)) NoLastBitSet ∧
  (∀ max, bounded_iter a max =
     if Z.of_nat (length (iter a)) <=? max then Ok (iter a) else Err BitsExceedMax) ∧
  (is_empty a = true ↔ ∀ x, bf_mem x a = false) ∧
  (contains_any a b = true ↔ ∃ x, bf_mem x a = true ∧ bf_mem x b = true) ∧
  (contains_all a b = true ↔ ∀ x, bf_mem x b = true → bf_mem x a = true) ∧
  (bf_eq a b = true ↔ ∀ x, bf_mem x a = bf_mem x b).
Proof.
  intros Ha Hb. repeat apply conj; try by apply iter_spec.
  1-2: by apply ranges_spec.
  - by apply len_iter.
  - by apply first_iter.
  - by apply last_iter.
  - intros max. unfold bounded_iter. by rewrite len_iter.
  - by apply is_empty_spec.
  - by apply is_empty_spec.
  - by apply contains_any_spec.
  - by apply contains_any_spec.
  - by apply contains_all_spec.
  - by apply contains_all_spec.
  - by apply bf_eq_spec.
  - by apply bf_eq_spec.
Qed.

Lemma bitfield_observers_witness :
  let a := from_ranges [Range 1 4; Range 7 9] in
  bf_wf a ∧ first a = head (iter a) ∧ iter a = [1; 2; 3; 7; 8].
Proof.
  intros a.
  assert (Ha : bf_wf a).
  { apply from_ranges_wf; [reflexivity|]. intros x. cbn. unfold in_range, usize_max; cbn. lia. }
  split; [exact Ha|]. split; [|vm_compute; reflexivity].
  apply (bitfield_observers a a Ha Ha).
Defined.

(** [slice start len] returns the [len] indices that follow the [start]
    lowest ones, or [NotEnoughBits] exactly when there are fewer than that. *)
Theorem bitfield_slice (bf : BitField) (s n : Z) :
  bf_wf bf → 0 ≤ s → 0 ≤ n →
  let l := take (Z.to_nat n) (drop (Z.to_nat s) (iter bf)) in
  match slice bf s n with
  | Ok sl => Z.of_nat (length l) = n ∧ bf_wf sl ∧ iter sl = l
  | Err e => Z.of_nat (length l) < n ∧ e = NotEnoughBits
  end.
Proof. apply slice_spec. Qed.

Lemma bitfield_slice_witness :
  let bf := from_ranges [Range 1 4; Range 7 9] in
  (is_ok (slice bf 2 2), is_ok (slice bf 2 4)) = (true, false) ∧
  match slice bf 2 2 with Ok sl => bf_wf sl | Err _ => False end.
Proof.
  intros bf. split; [vm_compute; reflexivity|].
  assert (Hbf : bf_wf bf).
  { apply from_ranges_wf; [reflexivity|]. intros x. cbn. unfold in_range, usize_max; cbn. lia. }
  pose proof (bitfield_slice bf 2 2 Hbf ltac:(lia) ltac:(lia)) as H.
  destruct (slice bf 2 2) eqn:E; [apply H|vm_compute in E; discriminate].
Defined.

(** The JSON form of a bit field decodes to an equal bit field, provided
    no run of zeros or ones is longer than 255. *)
Theorem bitfield_json_roundtrip (bf : BitField) :
  bf_wf bf → Forall (λ n, n < 256) (runs 0 (ranges bf)) →
  ranges (json_deserialize (json_serialize bf)) = ranges bf.
Proof.
  intros Hwf Hruns. destruct (ranges_spec bf Hwf) as [H1 H2].
  rewrite json_serialize_runs. destruct (is_empty bf) eqn:E.
  - assert (ranges bf = []) as ->; [|by vm_compute].
    apply (wf_from_ext 0 0); [done..|]. intros b. rewrite H2.
    rewrite is_empty_spec in E by done. apply E.
  - assert (Hw : ∀ l lo, wf_from lo l = true →
      Forall (λ n, n < 256) (runs lo l) → wrap_u8 <$> runs lo l = runs lo l).
    { induction l as [|r l IH]; intros lo; [done|]. rewrite wf_from_cons. cbn.
      intros (?&?&Hl) (?&Hf)%Forall_cons. apply Forall_cons in Hf as [? Hf].
      unfold wrap_u8 at 1 2. rewrite !Z.mod_small by lia.
      rewrite IH; [done| |done]. eapply wf_from_mono; [|exact Hl]. lia. }
    rewrite Hw by done.
    rewrite json_deserialize_runs. apply ranges_from_ranges; [done|]. intros b. rewrite H2.
    intros Hb. by apply (bf_mem_bounds b bf).
Qed.

Lemma bitfield_json_roundtrip_witness :
  let bf := from_ranges [Range 2 6; Range 9 11] in
  json_serialize bf = [2; 4; 3; 2] ∧
  ranges (json_deserialize (json_serialize bf)) = ranges bf.
Proof.
  intros bf. split; [vm_compute; reflexivity|]. apply bitfield_json_roundtrip.
  - apply from_ranges_wf; [reflexivity|]. intros x. cbn. unfold in_range, usize_max; cbn. lia.
  - assert (runs 0 (ranges bf) = [2; 4; 3; 2]) as -> by (vm_compute; reflexivity).
    repeat constructor; lia.
Defined.

(** The cast of run lengths to [u8] loses the upper bits: 300 ones come back
    as 44. *)
Lemma json_truncates_long_runs :
  let bf := from_ranges [Range 0 300] in
  json_serialize bf = [0; 44] ∧
  ranges (json_deserialize (json_serialize bf)) = [Range 0 44].
Proof. split; vm_compute; reflexivity. Qed.
