(* ===== verification/RlePlus.v ===== *)
(** * RLE+ encoding of bit fields

    [utils/bitfield/src/rleplus/]: [BitWriter] and [BitReader], which write and
    read groups of up to eight bits across byte boundaries, the encoding of run
    lengths, and [BitField::to_bytes] and [BitField::from_bytes]; with
    [UnvalidatedBitField] of [utils/bitfield/src/unvalidated.rs].

    The encoder of unsigned varints is a crate of its own
    ([unsigned_varint::encode::usize]): it is the parameter [varint_encode],
    and [VarintEncoder] states what its documentation promises. *)

From S2P Require Import Prelude Ranges RangeSets BitField.

(** ** Bits *)

(** The [n] low bits of [z], least significant first. *)
Definition bits_of (z n : Z) : list bool := Z.testbit z <$> seqZ 0 n.

Definition is_byte (b : Z) : Prop := 0 ≤ b < 256.

Definition bytes_bits (bs : list Z) : list bool := bs ≫= λ b, bits_of b 8.

(** ** BitWriter *)

Record BitWriter := MkBitWriter { w_bytes : list Z; w_bits : Z; w_num_bits : Z }.

Definition writer_new : BitWriter := MkBitWriter [] 0 0.

Definition write (self : BitWriter) (byte num_bits : Z) : BitWriter :=
  let bits := Z.lor (w_bits self) (wrap_u16 (Z.shiftl byte (w_num_bits self))) in
  let num := w_num_bits self + num_bits in
  if 8 <=? num then
    MkBitWriter (w_bytes self ++ [wrap_u8 bits]) (Z.shiftr bits 8) (num - 8)
  else MkBitWriter (w_bytes self) bits num.

Section Varint.
Context (varint_encode : Z → list Z).

Definition write_len (self : BitWriter) (len_ : Z) : BitWriter :=
  if len_ =? 1 then write self 1 1
  else if len_ <? 16 then write (write self 2 2) (wrap_u8 len_) 4
  else foldl (λ w byte, write w byte 8) (write self 0 2) (varint_encode len_).
End Varint.

(** [while let Some(0) = bytes.last() { bytes.pop(); }], on the bytes in
    reverse order. *)
Fixpoint pop_zeros (rev_bytes : list Z) : list Z :=
  match rev_bytes with
  | b :: l => if b =? 0 then pop_zeros l else b :: l
  | [] => []
  end.

Definition finish (self : BitWriter) : list Z :=
  let bytes := if 0 <? w_bits self then w_bytes self ++ [wrap_u8 (w_bits self)]
               else w_bytes self in
  reverse (pop_zeros (reverse bytes)).

(** ** BitReader *)

Record BitReader := MkBitReader {
  r_bytes : list Z; next_byte : Z; r_bits : Z; r_num_bits : Z }.

Definition reader_new (bytes : list Z) : BitReader :=
  MkBitReader (drop 2 bytes) (default 0 (bytes !! 1%nat)) (default 0 (bytes !! 0%nat)) 8.

Definition read (self : BitReader) (num_bits : Z) : Z * BitReader :=
  let mask := Z.shiftl 1 num_bits - 1 in
  let res := wrap_u8 (Z.land (r_bits self) mask) in
  let bits := Z.shiftr (r_bits self) num_bits in
  let num := r_num_bits self - num_bits in
  let bits := Z.lor bits (wrap_u16 (Z.shiftl (next_byte self) num)) in
  if num <? 8 then
    (res, MkBitReader (tail (r_bytes self)) (default 0 (head (r_bytes self))) bits (num + 8))
  else (res, MkBitReader (r_bytes self) (next_byte self) bits num).

Definition VARINT_MAX_BYTES : nat := 9.

(** The loop of [read_varint], [k] rounds before the bound, round [i]. *)
Fixpoint read_varint_loop (k : nat) (i : Z) (len_ : Z) (self : BitReader)
    : result bf_error (Z * BitReader) :=
  match k with
  | O => Err InvalidVarint
  | S k =>
      let '(byte, self) := read self 8 in
      let len_ := Z.lor len_ (Z.shiftl (Z.land byte 127) (i * 7)) in
      if Z.land byte 128 =? 0 then
        if (i =? 0) || negb (byte =? 0) then Ok (len_, self) else Err InvalidVarint
      else read_varint_loop k (i + 1) len_ self
  end.

Definition read_varint (self : BitReader) : result bf_error (Z * BitReader) :=
  read_varint_loop VARINT_MAX_BYTES 0 0 self.

Definition read_len (self : BitReader) : result bf_error (option Z * BitReader) :=
  let '(prefix_0, self) := read self 1 in
  let lr :=
    if prefix_0 =? 1 then Ok (1, self)
    else
      let '(prefix_1, self) := read self 1 in
      if prefix_1 =? 1 then Ok (read self 4) else read_varint self in
  '(len_, self) ← lr;
  Ok (if 0 <? len_ then Some len_ else None, self).

#[global] Arguments read : simpl never.
#[global] Arguments read_varint : simpl never.
#[global] Arguments read_len : simpl never.

(** ** Encoding and decoding bit fields *)

Definition VERSION : Z := 0.
Definition MAX_ENCODED_SIZE : Z := Z.shiftl 32 10.

(** The [while let] loop of [from_bytes]; [None] when the fuel runs out. *)
Fixpoint decode_loop (fuel : nat) (reader : BitReader) (next_value : bool)
    (index total_len : Z) (rs : list range) : option (result bf_error (list range)) :=
  match fuel with
  | O => None
  | S fuel =>
      match read_len reader with
      | Err e => Some (Err e)
      | Ok (None, _) => Some (Ok rs)
      | Ok (Some len_, reader) =>
          if usize_max <? total_len + len_ then Some (Err RleOverflow)
          else
            let index' := index + len_ in
            decode_loop fuel reader (negb next_value) index' (total_len + len_)
              (if next_value then rs ++ [Range index index'] else rs)
      end
  end.

(** Every round of the loop that does not leave it consumes a bit. *)
Definition decode_fuel (bytes : list Z) : nat := S (8 * length bytes).

Definition from_bytes_fuel (fuel : nat) (bytes : list Z)
    : option (result bf_error BitField) :=
  if bool_decide (list.last bytes = Some 0) then Some (Err NotMinimallyEncoded)
  else
    let '(version, reader) := read (reader_new bytes) 2 in
    if negb (version =? VERSION) then Some (Err IncorrectVersion)
    else
      let '(first_bit, reader) := read reader 1 in
      (λ r : result bf_error (list range), from_ranges <$> r)
        <$> decode_loop fuel reader (first_bit =? 1) 0 0 [].

(** The fuel never runs out (theorem [rle_decode_valid]), so the error of the
    last line is never returned. *)
Definition from_bytes (bytes : list Z) : result bf_error BitField :=
  default (Err InvalidVarint) (from_bytes_fuel (decode_fuel bytes) bytes).

Section Encode.
Context (varint_encode : Z → list Z).

Definition write_runs (w : BitWriter) (index : Z) (rs : list range) : BitWriter :=
  fst (foldl (λ acc r, let '(w, index) := acc in
         (write_len varint_encode
            (write_len varint_encode w (start r - index)) (range_len r), end_ r))
       (w, index) rs).

Definition to_bytes (self : BitField) : list Z :=
  match ranges self with
  | [] => []
  | first_range :: rest =>
      let w := write writer_new 0 2 in
      let w := if start first_range =? 0 then write w 1 1
               else write_len varint_encode (write w 0 1) (start first_range) in
      let w := write_len varint_encode w (range_len first_range) in
      finish (write_runs w (end_ first_range) rest)
  end.

(** [impl Serialize for BitField], up to the bytes handed to the serializer. *)
Definition serialize (self : BitField) : result bf_error (list Z) :=
  let bytes := to_bytes self in
  if MAX_ENCODED_SIZE <? Z.of_nat (length bytes) then Err TooLarge else Ok bytes.
End Encode.

(** [impl Deserialize for BitField], from the bytes of the deserializer. *)
Definition deserialize (bytes : list Z) : result bf_error BitField :=
  if MAX_ENCODED_SIZE <? Z.of_nat (length bytes) then Err TooLarge else from_bytes bytes.

(** ** UnvalidatedBitField *)

Inductive UnvalidatedBitField :=
| Validated (bf : BitField)
| Unvalidated (bytes : list Z).

(** [validate_mut]: the decoded bit field and the new value of [self]. *)
Definition validate_mut (self : UnvalidatedBitField)
    : result bf_error (BitField * UnvalidatedBitField) :=
  match self with
  | Validated bf => Ok (bf, self)
  | Unvalidated bytes => bf ← from_bytes bytes; Ok (bf, Validated bf)
  end.

Definition unvalidated_deserialize (bytes : list Z) : result bf_error UnvalidatedBitField :=
  if MAX_ENCODED_SIZE <? Z.of_nat (length bytes) then Err TooLarge
  else match bytes with
       | b :: _ => if negb (Z.land b 3 =? VERSION) then Err IncorrectVersion
                   else Ok (Unvalidated bytes)
       | [] => Ok (Unvalidated bytes)
       end.

(** ** Unsigned varints *)

Fixpoint uvarint_value (bs : list Z) : Z :=
  match bs with [] => 0 | b :: bs => b mod 128 + 128 * uvarint_value bs end.

(** Groups of seven bits, least significant first; the top bit of a byte says
    that another one follows; the last byte is not zero, unless it is the
    only one. *)
Fixpoint uvarint_shape (is_first : bool) (bs : list Z) : Prop :=
  match bs with
  | [] => False
  | [b] => 0 ≤ b < 128 ∧ (is_first = false → b ≠ 0)
  | b :: bs => 128 ≤ b < 256 ∧ uvarint_shape false bs
  end.

Definition is_uvarint (n : Z) (bs : list Z) : Prop :=
  uvarint_shape true bs ∧ uvarint_value bs = n.

(** The documented behaviour of [unsigned_varint::encode::usize]. *)
Class VarintEncoder (varint_encode : Z → list Z) : Prop := {
  varint_encode_ok n : is_u64 n → is_uvarint n (varint_encode n)
}.

(** An encoder to run the examples with. *)
Fixpoint leb128_fuel (fuel : nat) (n : Z) : list Z :=
  match fuel with
  | O => []
  | S fuel => if n <? 128 then [n] else (n mod 128 + 128) :: leb128_fuel fuel (n / 128)
  end.
Definition leb128 (n : Z) : list Z := leb128_fuel 10 n.

(** ** Lemmas on bits *)

Lemma length_bits_of z n : length (bits_of z n) = Z.to_nat n.
Proof. unfold bits_of. by rewrite length_fmap, length_seqZ. Qed.

Lemma lookup_bits_of z n (i : nat) :
  Z.of_nat i < n → bits_of z n !! i = Some (Z.testbit z (Z.of_nat i)).
Proof. intros. unfold bits_of. by rewrite list_lookup_fmap, lookup_seqZ_lt. Qed.

Lemma bits_of_ext z z' n :
  (∀ i, 0 ≤ i < n → Z.testbit z i = Z.testbit z' i) → bits_of z n = bits_of z' n.
Proof.
  intros H. unfold bits_of. apply list_fmap_ext. intros i x Hx.
  apply lookup_seqZ in Hx as [-> ?]. apply H. lia.
Qed.

Lemma bits_of_app z n m :
  0 ≤ n → 0 ≤ m → bits_of z (n + m) = bits_of z n ++ bits_of (Z.shiftr z n) m.
Proof.
  intros Hn Hm. unfold bits_of. rewrite seqZ_app, fmap_app by done. f_equal.
  apply list_eq. intros i. rewrite !list_lookup_fmap.
  destruct (decide (Z.of_nat i < m)).
  - rewrite !lookup_seqZ_lt by done. cbn. rewrite Z.shiftr_spec by lia. do 2 f_equal. lia.
  - by rewrite !lookup_seqZ_ge by lia.
Qed.

(** ** The writer *)

Record writer_ok (w : BitWriter) : Prop := {
  writer_ok_num : 0 ≤ w_num_bits w < 8;
  writer_ok_bits : 0 ≤ w_bits w < 2 ^ w_num_bits w;
  writer_ok_bytes : Forall is_byte (w_bytes w)
}.

(** The bits written so far. *)
Definition written (w : BitWriter) : list bool :=
  bytes_bits (w_bytes w) ++ bits_of (w_bits w) (w_num_bits w).

Lemma bytes_bits_app l1 l2 : bytes_bits (l1 ++ l2) = bytes_bits l1 ++ bytes_bits l2.
Proof. unfold bytes_bits. apply bind_app. Qed.

Lemma writer_new_ok : writer_ok writer_new.
Proof. split; cbn; [lia|lia|constructor]. Qed.

Lemma write_spec w byte n :
  writer_ok w → 0 ≤ n ≤ 8 → 0 ≤ byte < 2 ^ n →
  writer_ok (write w byte n) ∧ written (write w byte n) = written w ++ bits_of byte n.
Proof.
  intros [Hnum Hbits Hbytes] Hn Hbyte. unfold write.
  set (k := w_num_bits w) in *. set (V := Z.lor _ _).
  assert (Hsh : wrap_u16 (Z.shiftl byte k) = Z.shiftl byte k).
  { unfold wrap_u16. apply Z.mod_small. rewrite Z.shiftl_mul_pow2 by lia.
    assert (2 ^ n ≤ 2 ^ 8) by (apply Z.pow_le_mono_r; lia).
    assert (2 ^ k ≤ 2 ^ 7) by (apply Z.pow_le_mono_r; lia).
    assert (0 < 2 ^ k) by lia. nia. }
  assert (HV : ∀ i, 0 ≤ i → Z.testbit V i =
    if i <? k then Z.testbit (w_bits w) i else Z.testbit byte (i - k)).
  { intros i Hi. unfold V. rewrite Hsh, Z.lor_spec, Z.shiftl_spec by done.
    destruct (Z.ltb_spec i k).
    - rewrite (Z.testbit_neg_r byte) by lia. apply orb_false_r.
    - by rewrite (testbit_high (w_bits w) k). }
  assert (HV0 : 0 ≤ V).
  { unfold V. rewrite Hsh. apply Z.lor_nonneg. split; [lia|]. apply Z.shiftl_nonneg. lia. }
  assert (Hall : bits_of V (k + n) = bits_of (w_bits w) k ++ bits_of byte n).
  { rewrite bits_of_app by lia. f_equal; apply bits_of_ext; intros i Hi.
    - rewrite HV by lia. by destruct (Z.ltb_spec i k); [|lia].
    - rewrite Z.shiftr_spec, HV by lia. destruct (Z.ltb_spec (i + k) k); [lia|].
      f_equal. lia. }
  assert (HVlt : V < 2 ^ (k + n)).
  { apply testbit_bound; [lia|done|]. intros i Hi. rewrite HV by lia.
    destruct (Z.ltb_spec i k); [lia|]. apply (testbit_high _ n); lia. }
  unfold written. fold k. cbn zeta. case_if.
  - split; [split|].
    + cbn. lia.
    + cbn. split; [by apply Z.shiftr_nonneg|]. rewrite Z.shiftr_div_pow2 by lia.
      apply Z.div_lt_upper_bound; [lia|]. rewrite <-Z.pow_add_r by lia.
      by replace (8 + (k + n - 8)) with (k + n) by lia.
    + cbn. apply Forall_app. split; [done|]. constructor; [|constructor].
      unfold is_byte, wrap_u8. apply Z.mod_pos_bound. lia.
    + cbn. rewrite bytes_bits_app, <-!app_assoc. f_equal. rewrite <-Hall.
      replace (k + n) with (8 + (k + n - 8)) at 2 by lia. rewrite bits_of_app by lia.
      f_equal. cbn. rewrite app_nil_r. apply bits_of_ext. intros i Hi.
      unfold wrap_u8. rewrite testbit_mod_pow2 by lia. by destruct (Z.ltb_spec i 8); [|lia].
  - split; [split; cbn; [lia|lia|done]|]. cbn. by rewrite <-app_assoc, Hall.
Qed.

(** ** The reader *)

(** Bit [i] of a byte string, [false] past its end. *)
Fixpoint bytes_bit (bs : list Z) (i : Z) : bool :=
  match bs with
  | [] => false
  | b :: bs => if i <? 8 then Z.testbit b i else bytes_bit bs (i - 8)
  end.

(** Bit [i] of what is left to read. *)
Definition reader_bit (r : BitReader) (i : Z) : bool :=
  if i <? r_num_bits r then Z.testbit (r_bits r) i
  else if i <? r_num_bits r + 8 then Z.testbit (next_byte r) (i - r_num_bits r)
  else bytes_bit (r_bytes r) (i - r_num_bits r - 8).

Record reader_ok (r : BitReader) : Prop := {
  reader_ok_num : 8 ≤ r_num_bits r ≤ 15;
  reader_ok_next : is_byte (next_byte r);
  reader_ok_bits : 0 ≤ r_bits r;
  reader_ok_bytes : Forall is_byte (r_bytes r);
  reader_ok_high i : r_num_bits r ≤ i → Z.testbit (r_bits r) i = true →
    Z.testbit (next_byte r) (i - r_num_bits r) = true
}.

Lemma read_spec r n :
  reader_ok r → 0 ≤ n ≤ 8 →
  let '(v, r') := read r n in
  reader_ok r' ∧ 0 ≤ v < 2 ^ n
  ∧ (∀ i, 0 ≤ i < n → Z.testbit v i = reader_bit r i)
  ∧ (∀ i, 0 ≤ i → reader_bit r' i = reader_bit r (i + n)).
Proof.
  intros [Hnum Hnext Hbits Hbytes Hhigh] Hn. unfold read.
  set (k := r_num_bits r) in *. set (v := wrap_u8 _). set (B := Z.lor _ _).
  assert (Hv : ∀ i, 0 ≤ i → Z.testbit v i = (i <? n) && Z.testbit (r_bits r) i).
  { intros i Hi. unfold v, wrap_u8. rewrite testbit_mod_pow2, Z.land_spec by lia.
    replace (Z.shiftl 1 n - 1) with (Z.ones n)
      by (rewrite Z.ones_equiv, Z.shiftl_1_l; lia).
    rewrite Z.testbit_ones_nonneg by lia. destruct (Z.ltb_spec i n), (Z.ltb_spec i 8);
      rewrite ?andb_true_r, ?andb_false_r; cbn; (done || lia). }
  assert (HB : ∀ i, 0 ≤ i → Z.testbit B i = Z.testbit (r_bits r) (i + n)
      || ((i <? 16) && Z.testbit (next_byte r) (i - (k - n)))).
  { intros i Hi. unfold B, wrap_u16. rewrite Z.lor_spec, Z.shiftr_spec by done.
    by rewrite testbit_mod_pow2, Z.shiftl_spec by lia. }
  assert (HB0 : 0 ≤ B).
  { unfold B. apply Z.lor_nonneg. split; [by apply Z.shiftr_nonneg|].
    unfold wrap_u16. apply Z.mod_pos_bound. lia. }
  assert (Hnb : ∀ j, 8 ≤ j → Z.testbit (next_byte r) j = false)
    by (intros; by apply (testbit_high _ 8)).
  assert (Hv1 : 0 ≤ v < 2 ^ n).
  { assert (0 ≤ v) by (unfold v, wrap_u8; apply Z.mod_pos_bound; lia).
    split; [done|]. apply testbit_bound; [lia|done|]. intros i Hi. rewrite Hv by lia.
    by destruct (Z.ltb_spec i n); [lia|]. }
  assert (Hv2 : ∀ i, 0 ≤ i < n → Z.testbit v i = reader_bit r i).
  { intros i Hi. rewrite Hv by lia. unfold reader_bit. fold k.
    destruct (Z.ltb_spec i n), (Z.ltb_spec i k); (done || lia). }
  cbn zeta. case_if.
  - split; [split; cbn; try lia|split; [done|split; [done|]]].
    + unfold is_byte. destruct (r_bytes r) as [|b bs]; cbn; [lia|].
      by apply Forall_cons in Hbytes as [??].
    + by destruct Hbytes.
    + intros i Hi. rewrite HB by lia. intros Ht. exfalso.
      apply orb_true_iff in Ht as [Ht|Ht].
      * apply Hhigh in Ht; [|lia]. rewrite Hnb in Ht by lia. done.
      * rewrite Hnb, andb_false_r in Ht by lia. done.
    + intros i Hi. unfold reader_bit; cbn. fold k.
      destruct (Z.ltb_spec i (k - n + 8)).
      * rewrite HB by lia. destruct (Z.ltb_spec i 16); [|lia]. cbn.
        destruct (Z.ltb_spec (i + n) k).
        -- rewrite (Z.testbit_neg_r (next_byte r)) by lia. apply orb_false_r.
        -- destruct (Z.ltb_spec (i + n) (k + 8)); [|lia].
           replace (i - (k - n)) with (i + n - k) by lia.
           specialize (Hhigh (i + n)). destruct (Z.testbit (r_bits r) (i + n)); [|done].
           by rewrite Hhigh.
      * destruct (Z.ltb_spec (i + n) k); [lia|]. destruct (Z.ltb_spec (i + n) (k + 8)); [lia|].
        replace (i - (k - n + 8)) with (i + n - k - 8) by lia.
        destruct (r_bytes r) as [|b bs]; cbn.
        -- by rewrite Z.testbit_0_l; case_if.
        -- destruct (Z.ltb_spec i (k - n + 8 + 8)), (Z.ltb_spec (i + n - k - 8) 8);
             (done || lia).
  - split; [split; cbn; try done; try lia|split; [done|split; [done|]]].
    + intros i Hi. rewrite HB by lia. intros Ht.
      replace (i - (k - n)) with (i + n - k) in * by lia.
      apply orb_true_iff in Ht as [Ht|Ht]; [by apply Hhigh; [lia|]|].
      by apply andb_true_iff in Ht as [_ ?].
    + intros i Hi. unfold reader_bit; cbn. fold k.
      replace (i - (k - n)) with (i + n - k) by lia.
      destruct (Z.ltb_spec i (k - n)), (Z.ltb_spec (i + n) k); try lia.
      * rewrite HB by lia. rewrite (Z.testbit_neg_r (next_byte r)) by lia.
        by rewrite andb_false_r, orb_false_r.
      * by destruct (Z.ltb_spec i (k - n + 8)), (Z.ltb_spec (i + n) (k + 8)); try lia.
Qed.

(** The reader is about to read the bits [l], then zeros for ever. *)
Definition reader_at (r : BitReader) (l : list bool) : Prop :=
  reader_ok r ∧ ∀ i : nat, reader_bit r (Z.of_nat i) = default false (l !! i).

Lemma read_at r l n :
  reader_at r l → 0 ≤ n ≤ 8 →
  let '(v, r') := read r n in
  reader_at r' (drop (Z.to_nat n) l) ∧ 0 ≤ v < 2 ^ n
  ∧ ∀ i : nat, Z.of_nat i < n → Z.testbit v (Z.of_nat i) = default false (l !! i).
Proof.
  intros [Hok Hs] Hn. pose proof (read_spec r n Hok Hn) as H.
  destruct (read r n) as [v r']. destruct H as (Hok' & Hv & H1 & H2).
  split; [split; [done|]|split; [done|]].
  - intros i. rewrite H2 by lia. rewrite lookup_drop, <-Hs. f_equal. lia.
  - intros i Hi. rewrite H1 by lia. apply Hs.
Qed.

Lemma read_bits_of r v n l :
  reader_at r (bits_of v n ++ l) → 0 ≤ n ≤ 8 → 0 ≤ v < 2 ^ n →
  ∃ r', read r n = (v, r') ∧ reader_at r' l.
Proof.
  intros Hr Hn Hv. pose proof (read_at r _ n Hr Hn) as H.
  destruct (read r n) as [v' r']. destruct H as (Hr' & Hv' & Hb).
  rewrite drop_app_length' in Hr' by (by rewrite length_bits_of).
  exists r'. split; [|done]. f_equal. apply Z.bits_inj'. intros i Hi.
  destruct (decide (i < n)).
  - specialize (Hb (Z.to_nat i) ltac:(lia)).
    rewrite lookup_app_l in Hb by (rewrite length_bits_of; lia).
    rewrite lookup_bits_of in Hb by lia. by rewrite Z2Nat.id in Hb by lia.
  - by rewrite !(testbit_high _ n) by lia.
Qed.

(** Past the last bit, zeros are read. *)
Lemma read_nil r n : reader_at r [] → 0 ≤ n ≤ 8 →
  ∃ r', read r n = (0, r') ∧ reader_at r' [].
Proof.
  intros Hr Hn. pose proof (read_at r _ n Hr Hn) as H.
  destruct (read r n) as [v r']. destruct H as (Hr' & Hv & Hb).
  exists r'. rewrite drop_nil in Hr'. split; [|done]. f_equal.
  apply Z.bits_inj'. intros i Hi. rewrite Z.testbit_0_l. destruct (decide (i < n)).
  - specialize (Hb (Z.to_nat i) ltac:(lia)). by rewrite Z2Nat.id in Hb by lia.
  - by rewrite (testbit_high _ n) by lia.
Qed.

Lemma bytes_bits_lookup bs (i : nat) :
  default false (bytes_bits bs !! i) = bytes_bit bs (Z.of_nat i).
Proof.
  revert i; induction bs as [|b bs IH]; intros i; [done|].
  change (bytes_bits (b :: bs)) with (bits_of b 8 ++ bytes_bits bs). cbn [bytes_bit].
  destruct (Z.ltb_spec (Z.of_nat i) 8).
  - rewrite lookup_app_l by (rewrite length_bits_of; lia). by rewrite lookup_bits_of.
  - rewrite lookup_app_r by (rewrite length_bits_of; lia). rewrite IH, length_bits_of.
    f_equal. lia.
Qed.

Lemma reader_new_at bytes :
  Forall is_byte bytes → reader_at (reader_new bytes) (bytes_bits bytes).
Proof.
  intros Hb. split.
  - split; cbn; try lia.
    + destruct bytes as [|b1 [|b2 bs]]; cbn; unfold is_byte; try lia.
      by apply Forall_cons in Hb as [_ [? _]%Forall_cons].
    + destruct bytes as [|b1 bs]; cbn; [lia|]. apply Forall_cons in Hb as [Hb _].
      unfold is_byte in Hb. lia.
    + by apply Forall_drop.
    + intros i Hi. destruct bytes as [|b1 bs]; cbn; [by rewrite Z.testbit_0_l|].
      apply Forall_cons in Hb as [Hb _]. by rewrite (testbit_high _ 8).
  - intros i. rewrite bytes_bits_lookup. unfold reader_bit, reader_new; cbn.
    destruct bytes as [|b1 [|b2 bs]]; cbn; rewrite ?Z.testbit_0_l.
    + by repeat case_if.
    + by case_if; [|case_if].
    + replace (Z.of_nat i - 8 - 8) with (Z.of_nat i - 16) by lia.
      destruct (Z.ltb_spec (Z.of_nat i) 8); [done|].
      destruct (Z.ltb_spec (Z.of_nat i) (8 + 8)), (Z.ltb_spec (Z.of_nat i - 8) 8);
        try lia; by rewrite ?drop_0.
Qed.

(** ** Varints *)

Lemma land_128 b : is_byte b → (Z.land b 128 =? 0) = (b <? 128).
Proof.
  intros Hb. apply bool_eq_iff. rewrite Z.eqb_eq, Z.ltb_lt. split.
  - intros H0. apply (testbit_bound b 7); [lia|unfold is_byte in Hb; lia|]. intros i Hi.
    destruct (decide (i = 7)) as [->|]; [|apply (testbit_high _ 8); [done|lia]].
    assert (Z.testbit (Z.land b 128) 7 = false) as Ht by by rewrite H0.
    rewrite Z.land_spec in Ht. by rewrite andb_true_r in Ht.
  - intros Hlt. apply Z.bits_inj'. intros i Hi. rewrite Z.land_spec, Z.testbit_0_l.
    destruct (decide (i < 7)).
    + change 128 with (2 ^ 7). rewrite (Z.pow2_bits_false 7) by lia. apply andb_false_r.
    + unfold is_byte in Hb. by rewrite (testbit_high b 7) by lia.
Qed.

Lemma read_varint_loop_spec bs k i len_ r l :
  uvarint_shape (i =? 0) bs → (length bs ≤ k)%nat → 0 ≤ i → 0 ≤ len_ < 2 ^ (i * 7) →
  reader_at r (bytes_bits bs ++ l) →
  ∃ r', read_varint_loop k i len_ r = Ok (len_ + 2 ^ (i * 7) * uvarint_value bs, r')
        ∧ reader_at r' l.
Proof.
  revert k i len_ r; induction bs as [|b bs IH]; intros k i len_ r Hsh Hk Hi Hlen Hr; [done|].
  destruct k as [|k]; cbn in Hk; [lia|]. cbn [read_varint_loop].
  assert (Hb : is_byte b) by (unfold is_byte; destruct bs; cbn in Hsh; lia).
  change (bytes_bits (b :: bs)) with (bits_of b 8 ++ bytes_bits bs) in Hr.
  rewrite <-app_assoc in Hr.
  destruct (read_bits_of r b 8 _ Hr) as (r1 & -> & Hr1); [lia|done|].
  rewrite land_128 by done. change 127 with (Z.ones 7). rewrite Z.land_ones by lia.
  change (2 ^ 7) with 128. rewrite lor_shiftl_add by lia.
  destruct bs as [|b' bs].
  - cbn in Hsh. destruct Hsh as [Hb1 Hb2]. destruct (Z.ltb_spec b 128); [|lia].
    assert ((i =? 0) || negb (b =? 0) = true) as ->.
    { destruct (i =? 0); [done|]. cbn. specialize (Hb2 eq_refl). lia. }
    exists r1. split; [|done]. cbn. do 2 f_equal. lia.
  - destruct Hsh as [Hb1 Hsh]. destruct (Z.ltb_spec b 128); [lia|].
    assert (Hpow : 2 ^ ((i + 1) * 7) = 2 ^ (i * 7) * 128).
    { replace ((i + 1) * 7) with (i * 7 + 7) by lia. by rewrite Z.pow_add_r by lia. }
    destruct (IH k (i + 1) (len_ + 2 ^ (i * 7) * (b mod 128)) r1) as (r' & -> & Hr').
    + by destruct (Z.eqb_spec (i + 1) 0); [lia|].
    + cbn in Hk |- *. lia.
    + lia.
    + rewrite Hpow. pose proof (Z.mod_pos_bound b 128). nia.
    + done.
    + exists r'. split; [|done]. do 2 f_equal. cbn [uvarint_value]. rewrite Hpow. lia.
Qed.

(** All bytes but the last have the continuation bit: with more than nine of
    them the reader gives up. *)
Lemma read_varint_loop_long bs k i len_ r l first :
  uvarint_shape first bs → (k < length bs)%nat →
  reader_at r (bytes_bits bs ++ l) →
  read_varint_loop k i len_ r = Err InvalidVarint.
Proof.
  revert k i len_ r first; induction bs as [|b bs IH]; intros k i len_ r first Hsh Hk Hr; [done|].
  destruct k as [|k]; [done|]. cbn in Hk. destruct bs as [|b' bs]; [cbn in Hk; lia|].
  destruct Hsh as [Hb Hsh]. cbn [read_varint_loop].
  change (bytes_bits (b :: b' :: bs)) with (bits_of b 8 ++ bytes_bits (b' :: bs)) in Hr.
  rewrite <-app_assoc in Hr.
  destruct (read_bits_of r b 8 _ Hr) as (r1 & -> & Hr1); [lia|lia|].
  rewrite land_128 by (unfold is_byte; lia). destruct (Z.ltb_spec b 128); [lia|].
  eapply IH; [exact Hsh|cbn in *; lia|done].
Qed.

Lemma uvarint_value_bounds first bs :
  uvarint_shape first bs →
  0 ≤ uvarint_value bs < 2 ^ (7 * Z.of_nat (length bs))
  ∧ ((first = false ∨ (1 < length bs)%nat) → 2 ^ (7 * Z.of_nat (length bs) - 7) ≤ uvarint_value bs).
Proof.
  revert first; induction bs as [|b bs IH]; intros first Hsh; [done|].
  destruct bs as [|b' bs].
  - cbn in Hsh. destruct Hsh as [Hb Hnz]. cbn. rewrite Z.mod_small by lia.
    split; [lia|]. intros [->|]; [specialize (Hnz eq_refl)|]; lia.
  - destruct Hsh as [Hb Hsh]. destruct (IH _ Hsh) as [IH1 IH2]. specialize (IH2 (or_introl eq_refl)).
    set (bs' := b' :: bs) in *.
    change (uvarint_value (b :: bs')) with (b mod 128 + 128 * uvarint_value bs').
    cbn [length]. set (m := Z.of_nat (length bs')) in *.
    assert (1 ≤ m) by (unfold m, bs'; cbn; lia).
    replace (7 * Z.of_nat (S (length bs'))) with (7 * m + 7) by (unfold m; lia).
    rewrite Z.pow_add_r by lia. replace (7 * m + 7 - 7) with (7 * m - 7 + 7) by lia.
    rewrite (Z.pow_add_r 2 (7 * m - 7) 7) by lia. pose proof (Z.mod_pos_bound b 128).
    split; [lia|]. intros _. lia.
Qed.

Lemma uvarint_short n bs :
  is_uvarint n bs → n < 2 ^ 63 ↔ (length bs ≤ 9)%nat.
Proof.
  intros [Hsh <-]. destruct (uvarint_value_bounds _ _ Hsh) as [H1 H2]. split; intros H.
  - destruct (decide (length bs ≤ 9)%nat) as [|Hn]; [done|]. exfalso.
    specialize (H2 ltac:(right; lia)).
    assert (2 ^ 63 ≤ 2 ^ (7 * Z.of_nat (length bs) - 7)) by (apply Z.pow_le_mono_r; lia). lia.
  - assert (2 ^ (7 * Z.of_nat (length bs)) ≤ 2 ^ 63) by (apply Z.pow_le_mono_r; lia). lia.
Qed.

(** ** Run lengths *)

Section Codec.
Context (varint_encode : Z → list Z) `{!VarintEncoder varint_encode}.

(** The bits of an encoded run length: block single, short or long. *)
Definition len_bits (n : Z) : list bool :=
  if n =? 1 then [true]
  else if n <? 16 then [false; true] ++ bits_of n 4
  else [false; false] ++ bytes_bits (varint_encode n).

Definition lens_bits (ns : list Z) : list bool := ns ≫= len_bits.

Lemma uvarint_shape_bytes first bs : uvarint_shape first bs → Forall is_byte bs.
Proof.
  revert first; induction bs as [|b bs IH]; intros first Hsh; [done|].
  destruct bs as [|b' bs].
  - constructor; [|done]. unfold is_byte. cbn in Hsh. lia.
  - destruct Hsh as [? Hsh]. constructor; [unfold is_byte; lia|by eapply IH].
Qed.

Lemma write_bytes_spec w bs :
  writer_ok w → Forall is_byte bs →
  let w' := foldl (λ w byte, write w byte 8) w bs in
  writer_ok w' ∧ written w' = written w ++ bytes_bits bs.
Proof.
  intros Hw Hbs. revert w Hw.
  induction Hbs as [|b bs Hb Hbs IH]; intros w Hw; cbn; [by rewrite app_nil_r|].
  destruct (write_spec w b 8 Hw) as [Hw' Heq]; [lia|done|].
  destruct (IH _ Hw') as [H1 H2]. split; [done|].
  by rewrite H2, Heq, <-app_assoc.
Qed.

Lemma write_len_spec w n :
  writer_ok w → 0 < n ≤ usize_max →
  writer_ok (write_len varint_encode w n)
  ∧ written (write_len varint_encode w n) = written w ++ len_bits n.
Proof.
  intros Hw Hn. unfold write_len, len_bits. case_if; [|case_if].
  - destruct (write_spec w 1 1 Hw) as [? Heq]; [lia|lia|]. split; [done|]. by rewrite Heq.
  - destruct (write_spec w 2 2 Hw) as [Hw1 Heq1]; [lia|lia|].
    assert (wrap_u8 n = n) as -> by (unfold wrap_u8; apply Z.mod_small; lia).
    destruct (write_spec _ n 4 Hw1) as [Hw2 Heq2]; [lia|lia|].
    split; [done|]. rewrite Heq2, Heq1, <-app_assoc. done.
  - destruct (write_spec w 0 2 Hw) as [Hw1 Heq1]; [lia|lia|].
    destruct (varint_encode_ok n) as [Hsh _]; [unfold is_u64; lia|].
    destruct (write_bytes_spec _ _ Hw1 (uvarint_shape_bytes _ _ Hsh)) as [Hw2 Heq2].
    split; [done|]. rewrite Heq2, Heq1, <-app_assoc. done.
Qed.

Lemma read_bit r (b : bool) l :
  reader_at r (b :: l) → ∃ r', read r 1 = (Z.b2z b, r') ∧ reader_at r' l.
Proof.
  intros Hr. apply (read_bits_of r (Z.b2z b) 1 l); [|lia|destruct b; cbn; lia].
  by destruct b.
Qed.

Lemma read_len_spec r n l :
  reader_at r (len_bits n ++ l) → 0 < n < 2 ^ 63 →
  ∃ r', read_len r = Ok (Some n, r') ∧ reader_at r' l.
Proof.
  intros Hr Hn. unfold read_len, len_bits in *.
  destruct (Z.eqb_spec n 1) as [->|]; [|destruct (Z.ltb_spec n 16)]; cbn [app] in Hr.
  - apply read_bit in Hr as (r1 & -> & Hr1). exists r1. done.
  - apply read_bit in Hr as (r1 & -> & Hr1). apply read_bit in Hr1 as (r2 & Hr1 & Hr2).
    cbn. rewrite Hr1. cbn. apply read_bits_of in Hr2 as (r3 & -> & Hr3); [|lia|lia].
    exists r3. cbn. destruct (Z.ltb_spec 0 n); [done|lia].
  - apply read_bit in Hr as (r1 & -> & Hr1). apply read_bit in Hr1 as (r2 & Hr1 & Hr2).
    cbn. rewrite Hr1. cbn. destruct (varint_encode_ok n) as [Hsh Hval];
      [unfold is_u64, usize_max; lia|].
    assert (Hle : (length (varint_encode n) ≤ 9)%nat) by (apply (uvarint_short n); [done|lia]).
    destruct (read_varint_loop_spec _ VARINT_MAX_BYTES 0 0 r2 l Hsh Hle) as (r3 & Hr3 & Hat);
      [lia|cbn; lia|done|].
    unfold read_varint. rewrite Hr3. exists r3. cbn -[Z.mul]. rewrite Hval, Z.mul_1_l, Z.add_0_l.
    destruct (Z.ltb_spec 0 n); [done|lia].
Qed.

(** A run of [2^63] or more takes ten varint bytes, which the reader refuses. *)
Lemma read_len_long r n l :
  reader_at r (len_bits n ++ l) → 2 ^ 63 ≤ n ≤ usize_max → read_len r = Err InvalidVarint.
Proof.
  intros Hr Hn. unfold read_len, len_bits in *.
  destruct (Z.eqb_spec n 1) as [->|]; [lia|]. destruct (Z.ltb_spec n 16); [lia|].
  cbn [app] in Hr.
  apply read_bit in Hr as (r1 & -> & Hr1). apply read_bit in Hr1 as (r2 & Hr1 & Hr2).
  cbn. rewrite Hr1. cbn. destruct (varint_encode_ok n) as [Hsh Hval]; [unfold is_u64; lia|].
  assert (Hlt : (9 < length (varint_encode n))%nat).
  { apply not_ge. intros Hle. apply (uvarint_short n) in Hle; [lia|done]. }
  unfold read_varint. by rewrite (read_varint_loop_long _ VARINT_MAX_BYTES 0 0 _ _ _ Hsh Hlt Hr2).
Qed.

Lemma read_len_nil r : reader_at r [] → ∃ r', read_len r = Ok (None, r').
Proof.
  intros Hr. unfold read_len.
  destruct (read_nil r 1 Hr) as (r1 & -> & Hr1); [lia|]. cbn.
  destruct (read_nil r1 1 Hr1) as (r2 & -> & Hr2); [lia|]. cbn.
  destruct (read_nil r2 8 Hr2) as (r3 & Hr3 & _); [lia|].
  unfold read_varint; cbn. rewrite Hr3. cbn. by eauto.
Qed.
End Codec.

(** ** Termination of the decoder *)

Lemma read_varint_loop_drop k i len_ r l v r' :
  reader_at r l → read_varint_loop k i len_ r = Ok (v, r') → ∃ m, reader_at r' (drop m l).
Proof.
  revert i len_ r l; induction k as [|k IH]; intros i len_ r l Hr; [done|].
  cbn [read_varint_loop]. pose proof (read_at r l 8 Hr ltac:(lia)) as H.
  destruct (read r 8) as [b r1]. destruct H as (Hr1 & _ & _). case_if; [case_if|].
  - intros; simplify_eq. eauto.
  - done.
  - intros Hl. destruct (IH _ _ _ _ Hr1 Hl) as [m Hm]. rewrite drop_drop in Hm. eauto.
Qed.

Lemma read_len_progress r l n r' :
  reader_at r l → read_len r = Ok (Some n, r') →
  0 < n ∧ ∃ l', reader_at r' l' ∧ (length l' < length l)%nat.
Proof.
  intros Hr Hl. destruct l as [|b l].
  { destruct (read_len_nil r Hr) as [? E]. by rewrite E in Hl. }
  unfold read_len in Hl. apply read_bit in Hr as (r1 & Hr1 & Hat). rewrite Hr1 in Hl.
  assert (Hshort : ∀ m, (length (drop m l) < length (b :: l))%nat)
    by (intros m; rewrite length_drop; cbn; lia).
  destruct b; cbn in Hl; simplify_eq/=.
  - split; [lia|]. exists l. cbn. split; [done|lia].
  - pose proof (read_at r1 l 1 Hat ltac:(lia)) as H.
    destruct (read r1 1) as [c r2]. destruct H as (Hat2 & _ & _).
    destruct (c =? 1).
    + pose proof (read_at r2 _ 4 Hat2 ltac:(lia)) as H.
      destruct (read r2 4) as [v r3]. destruct H as (Hat3 & _ & _). cbn in Hl.
      destruct (Z.ltb_spec 0 v); simplify_eq. split; [done|].
      rewrite drop_drop in Hat3. eauto.
    + destruct (read_varint r2) as [[v r3]|] eqn:Ev; cbn in Hl; [|done].
      destruct (Z.ltb_spec 0 v); simplify_eq. split; [done|].
      destruct (read_varint_loop_drop _ _ _ _ _ _ _ Hat2 Ev) as [m Hm].
      rewrite drop_drop in Hm. eauto.
Qed.

Lemma decode_loop_terminates fuel r l nv index total rs :
  reader_at r l → (length l < fuel)%nat → is_Some (decode_loop fuel r nv index total rs).
Proof.
  revert r l nv index total rs; induction fuel as [|fuel IH];
    intros r l nv index total rs Hr Hf; [lia|].
  cbn [decode_loop]. destruct (read_len r) as [[[n|] r']|e] eqn:E; [|by eauto|by eauto].
  case_if; [by eauto|].
  destruct (read_len_progress _ _ _ _ Hr E) as (_ & l' & Hr' & Hlt). eapply IH; [done|lia].
Qed.

Lemma decode_loop_mono f f' r nv index total rs x :
  decode_loop f r nv index total rs = Some x → (f ≤ f')%nat →
  decode_loop f' r nv index total rs = Some x.
Proof.
  revert f' r nv index total rs; induction f as [|f IH];
    intros [|f'] r nv index total rs H Hf; [done|done|lia|].
  cbn [decode_loop] in *. destruct (read_len r) as [[[n|] r']|e]; [|done|done].
  destruct (usize_max <? total + n); [done|]. apply IH; [done|lia].
Qed.

Lemma decode_loop_det f f' r nv index total rs x y :
  decode_loop f r nv index total rs = Some x →
  decode_loop f' r nv index total rs = Some y → x = y.
Proof.
  intros Hx Hy. apply (decode_loop_mono _ (max f f')) in Hx; [|lia].
  apply (decode_loop_mono _ (max f f')) in Hy; [|lia]. congruence.
Qed.

(** ** What the decoder builds *)

(** The ranges of ones that alternating runs describe. *)
Fixpoint alt_ranges (nv : bool) (index : Z) (ns : list Z) : list range :=
  match ns with
  | [] => []
  | n :: ns => (if nv then [Range index (index + n)] else [])
               ++ alt_ranges (negb nv) (index + n) ns
  end.

Definition sum_list (ns : list Z) : Z := foldr Z.add 0 ns.

Lemma decode_loop_alt fuel r l nv index rs rs' :
  reader_at r l → index ≤ usize_max →
  decode_loop fuel r nv index index rs = Some (Ok rs') →
  ∃ ns, Forall (λ n, 0 < n) ns ∧ index + sum_list ns ≤ usize_max
        ∧ rs' = rs ++ alt_ranges nv index ns.
Proof.
  revert r l nv index rs; induction fuel as [|fuel IH];
    intros r l nv index rs Hr Hi; [done|].
  cbn [decode_loop]. destruct (read_len r) as [[[n|] r']|e] eqn:E; [|intros; simplify_eq|done].
  - case_if; [done|]. destruct (read_len_progress _ _ _ _ Hr E) as (Hn & l' & Hr' & _).
    intros Hd. eapply IH in Hd as (ns & Hns & Hsum & ->); [|done|lia].
    exists (n :: ns). split; [by constructor|]. split; [cbn; unfold sum_list in *; lia|].
    destruct nv; cbn; [by rewrite <-app_assoc|done].
  - exists []. split; [constructor|]. split; [cbn; lia|]. by rewrite app_nil_r.
Qed.

Lemma alt_ranges_wf (nv : bool) index ns :
  Forall (λ n, 0 < n) ns →
  wf_from (if nv then index else index + 1) (alt_ranges nv index ns) = true
  ∧ ∀ b, in_ranges b (alt_ranges nv index ns) = true → b < index + sum_list ns.
Proof.
  intros Hns. revert nv index.
  induction Hns as [|n ns Hn Hns IH]; intros nv index; [by destruct nv|].
  cbn [alt_ranges]. destruct (IH (negb nv) (index + n)) as [IH1 IH2].
  destruct nv; cbn [negb app] in *.
  - split.
    + rewrite wf_from_cons; cbn. split; [lia|]. split; [lia|]. done.
    + intros b. rewrite in_ranges_cons, orb_true_iff, in_range_spec. cbn.
      intros [?|Hb]; [|apply IH2 in Hb; unfold sum_list in *; lia].
      enough (0 ≤ foldr Z.add 0 ns) by lia. clear -Hns. induction Hns; cbn; lia.
  - split.
    + eapply wf_from_mono; [|exact IH1]. lia.
    + intros b Hb. apply IH2 in Hb. cbn. unfold sum_list in *. lia.
Qed.

(** ** Finishing a byte string *)

Lemma default_app_false (l : list bool) k (i : nat) :
  default false ((l ++ replicate k false) !! i) = default false (l !! i).
Proof.
  destruct (decide (i < length l)%nat).
  - by rewrite lookup_app_l.
  - rewrite lookup_app_r, (lookup_ge_None_2 l) by lia.
    destruct (replicate k false !! (i - length l)%nat) eqn:E; [|done].
    by apply lookup_replicate in E as [-> _].
Qed.

Lemma bits_of_0 n : bits_of 0 n = replicate (Z.to_nat n) false.
Proof.
  unfold bits_of. apply list_eq. intros i. rewrite list_lookup_fmap.
  destruct (decide (Z.of_nat i < n)).
  - rewrite lookup_seqZ_lt by done. cbn. rewrite Z.testbit_0_l.
    by rewrite lookup_replicate_2 by lia.
  - rewrite lookup_seqZ_ge by lia. symmetry. apply lookup_ge_None_2.
    rewrite length_replicate. lia.
Qed.

Lemma pop_zeros_spec l : ∃ k, l = replicate k 0 ++ pop_zeros l.
Proof.
  induction l as [|b l [k IH]]; [by exists O|]. cbn. case_if.
  - subst. exists (S k). cbn. by f_equal.
  - by exists O.
Qed.

Lemma bytes_bits_zeros k : bytes_bits (replicate k 0) = replicate (8 * k) false.
Proof.
  induction k as [|k IH]; [done|]. rewrite Nat.mul_succ_r, Nat.add_comm.
  change (bytes_bits (replicate (S k) 0)) with (bits_of 0 8 ++ bytes_bits (replicate k 0)).
  by rewrite IH, bits_of_0, replicate_add.
Qed.

Lemma finish_spec w :
  writer_ok w →
  Forall is_byte (finish w) ∧ list.last (finish w) ≠ Some 0
  ∧ reader_at (reader_new (finish w)) (written w).
Proof.
  intros [Hnum Hbits Hbytes]. unfold finish.
  set (bs := if 0 <? w_bits w then _ else _).
  assert (Hbs : Forall is_byte bs
    ∧ ∃ k, bytes_bits bs ++ replicate k false = written w
           ∨ bytes_bits bs = written w ++ replicate k false).
  { unfold bs, written. case_if.
    - assert (Hlt : w_bits w < 256).
      { assert (2 ^ w_num_bits w ≤ 2 ^ 8) by (apply Z.pow_le_mono_r; lia). lia. }
      assert (wrap_u8 (w_bits w) = w_bits w) as -> by (apply Z.mod_small; lia).
      split; [apply Forall_app; split; [done|]; repeat constructor; unfold is_byte; lia|].
      exists (Z.to_nat (8 - w_num_bits w)). right.
      rewrite bytes_bits_app. cbn. rewrite app_nil_r, <-app_assoc. f_equal.
      replace 8 with (w_num_bits w + (8 - w_num_bits w)) at 1 by lia.
      rewrite bits_of_app by lia. f_equal. rewrite Z.shiftr_div_pow2 by lia.
      rewrite Z.div_small by lia. apply bits_of_0.
    - split; [done|]. exists (Z.to_nat (w_num_bits w)). left. f_equal.
      replace (w_bits w) with 0 by lia. by rewrite bits_of_0. }
  destruct Hbs as [Hby (k & Hk)].
  destruct (pop_zeros_spec (reverse bs)) as [m Hm].
  set (out := reverse (pop_zeros (reverse bs))).
  assert (Hout : bs = out ++ replicate m 0).
  { unfold out. rewrite <-(reverse_involutive bs), Hm at 1.
    rewrite reverse_app, reverse_replicate. done. }
  assert (Hbyo : Forall is_byte out) by (rewrite Hout in Hby; by apply Forall_app in Hby as [??]).
  split; [done|]. split.
  - unfold out. clear. rewrite last_reverse.
    induction (reverse bs) as [|b l IH]; cbn; [done|]. case_if; [done|]. cbn. congruence.
  - destruct (reader_new_at out Hbyo) as [Hok Hst]. split; [done|]. intros i. rewrite Hst.
    rewrite <-(default_app_false (bytes_bits out) (8 * m)), <-bytes_bits_zeros, <-bytes_bits_app,
      <-Hout.
    destruct Hk as [<-| ->]; by rewrite default_app_false.
Qed.

(** ** Encoding a bit field, then decoding it *)

Section Roundtrip.
Context (varint_encode : Z → list Z) `{!VarintEncoder varint_encode}.

Definition run_ok (n : Z) : Prop := 0 < n ≤ usize_max.

Lemma write_runs_spec w index rs :
  writer_ok w → Forall run_ok (runs index rs) → wf_from index rs = true →
  let w' := write_runs varint_encode w index rs in
  writer_ok w' ∧ written w' = written w ++ lens_bits varint_encode (runs index rs).
Proof.
  unfold write_runs. cbn zeta. revert w index.
  induction rs as [|r rs IH]; intros w index Hw Hruns Hwf; cbn; [by rewrite app_nil_r|].
  apply wf_from_cons in Hwf as (?&?&Hwf). cbn in Hruns.
  apply Forall_cons in Hruns as [Hr1 Hruns]. apply Forall_cons in Hruns as [Hr2 Hruns].
  assert (range_len r = end_ r - start r) as -> by (unfold range_len; lia).
  destruct (write_len_spec varint_encode w _ Hw Hr1) as [Hw1 E1].
  destruct (write_len_spec varint_encode _ _ Hw1 Hr2) as [Hw2 E2].
  destruct (IH _ (end_ r) Hw2 Hruns) as [Hw3 E3]; [eapply wf_from_mono; [|exact Hwf]; lia|].
  split; [done|]. rewrite E3, E2, E1. unfold lens_bits. cbn. by rewrite <-!app_assoc.
Qed.

(** The lengths [to_bytes] writes: a leading run of zeros only if there is one. *)
Definition header_runs (rs : list range) : bool * list Z :=
  match runs 0 rs with
  | n :: ns => if n =? 0 then (true, ns) else (false, n :: ns)
  | [] => (false, [])
  end.

Lemma to_bytes_spec bf r rest :
  ranges bf = r :: rest → ranges_wf (ranges bf) = true →
  Forall (λ n, n ≤ usize_max) (runs 0 (ranges bf)) →
  let '(nv, ns) := header_runs (ranges bf) in
  let bytes := to_bytes varint_encode bf in
  Forall is_byte bytes ∧ list.last bytes ≠ Some 0
  ∧ reader_at (reader_new bytes)
      ([false; false] ++ [nv] ++ lens_bits varint_encode ns)
  ∧ Forall run_ok ns.
Proof.
  intros Hr Hwf Hmax. unfold header_runs, to_bytes. rewrite Hr in *. cbn [runs] in *.
  unfold ranges_wf in Hwf. apply wf_from_cons in Hwf as (?&?&Hwf).
  assert (Hpos : Forall run_ok (runs (end_ r) rest)).
  { apply Forall_cons in Hmax as [_ Hmax]. apply Forall_cons in Hmax as [_ Hmax].
    revert Hwf Hmax. clear. generalize (end_ r) as i. induction rest as [|r' rest IH];
      intros i Hwf Hmax; [constructor|]. cbn in Hmax |- *.
    apply wf_from_cons in Hwf as (?&?&Hwf). apply Forall_cons in Hmax as [? Hmax].
    apply Forall_cons in Hmax as [? Hmax].
    constructor; [unfold run_ok; lia|]. constructor; [unfold run_ok; lia|]. by apply IH. }
  apply Forall_cons in Hmax as [Hm1 Hmax]. apply Forall_cons in Hmax as [Hm2 _].
  rewrite Z.sub_0_r in *.
  destruct (write_spec writer_new 0 2 writer_new_ok) as [Hw0 E0]; [lia|lia|].
  assert (range_len r = end_ r - start r) as -> by (unfold range_len; lia).
  assert (Hone : run_ok (end_ r - start r)) by (unfold run_ok; lia).
  assert (Hwf' : wf_from (end_ r) rest = true) by (eapply wf_from_mono; [|exact Hwf]; lia).
  destruct (Z.eqb_spec (start r) 0) as [Hs|Hs].
  - destruct (write_spec _ 1 1 Hw0) as [Hw1 E1]; [lia|lia|].
    destruct (write_len_spec varint_encode _ _ Hw1 Hone) as [Hw2 E2].
    destruct (write_runs_spec _ _ _ Hw2 Hpos Hwf') as [Hw3 E3].
    destruct (finish_spec _ Hw3) as (F1 & F2 & F3).
    split; [done|]. split; [done|]. split; [split; [apply F3|]|].
    + intros i. rewrite (proj2 F3), E3, E2, E1, E0, <-!app_assoc. done.
    + by constructor.
  - destruct (write_spec _ 0 1 Hw0) as [Hw1 E1]; [lia|lia|].
    assert (Hz : run_ok (start r)) by (unfold run_ok; lia).
    destruct (write_len_spec varint_encode _ _ Hw1 Hz) as [Hw2 E2].
    destruct (write_len_spec varint_encode _ _ Hw2 Hone) as [Hw3 E3].
    destruct (write_runs_spec _ _ _ Hw3 Hpos Hwf') as [Hw4 E4].
    destruct (finish_spec _ Hw4) as (F1 & F2 & F3).
    split; [done|]. split; [done|]. split; [split; [apply F3|]|].
    + intros i. rewrite (proj2 F3), E4, E3, E2, E1, E0, <-!app_assoc. done.
    + constructor; [done|]. by constructor.
Qed.

Lemma decode_loop_runs fuel r nv index ns rs :
  reader_at r (lens_bits varint_encode ns) → Forall run_ok ns → 0 ≤ index →
  index + sum_list ns ≤ usize_max → (length ns < fuel)%nat →
  Forall (λ n, n < 2 ^ 63) ns →
  decode_loop fuel r nv index index rs = Some (Ok (rs ++ alt_ranges nv index ns)).
Proof.
  revert r nv index rs fuel; induction ns as [|n ns IH];
    intros r nv index rs fuel Hr Hok Hi Hsum Hf Hsmall;
    (destruct fuel as [|fuel]; [cbn in Hf; lia|]); cbn [decode_loop].
  - destruct (read_len_nil r Hr) as [r' ->]. by rewrite app_nil_r.
  - apply Forall_cons in Hok as [Hn Hok]. apply Forall_cons in Hsmall as [Hn' Hsmall].
    unfold run_ok in Hn.
    assert (0 ≤ sum_list ns).
    { clear -Hok. induction Hok as [|? ? H _ IH]; cbn; [lia|].
      unfold run_ok, sum_list in *. lia. }
    cbn [sum_list foldr] in Hsum. fold (sum_list ns) in Hsum.
    destruct (read_len_spec varint_encode r n _ Hr) as (r' & -> & Hr'); [lia|].
    destruct (Z.ltb_spec usize_max (index + n)); [lia|].
    rewrite IH; try done; [|lia|lia|cbn in Hf; lia].
    do 2 f_equal. destruct nv; cbn; [by rewrite <-app_assoc|done].
Qed.

Lemma decode_loop_long fuel r nv index ns rs :
  reader_at r (lens_bits varint_encode ns) → Forall run_ok ns → 0 ≤ index →
  index + sum_list ns ≤ usize_max → (length ns < fuel)%nat →
  Exists (λ n, 2 ^ 63 ≤ n) ns →
  decode_loop fuel r nv index index rs = Some (Err InvalidVarint).
Proof.
  revert r nv index rs fuel; induction ns as [|n ns IH];
    intros r nv index rs fuel Hr Hok Hi Hsum Hf Hlong;
    (destruct fuel as [|fuel]; [cbn in Hf; lia|]); cbn [decode_loop].
  - by apply Exists_nil in Hlong.
  - apply Forall_cons in Hok as [Hn Hok]. unfold run_ok in Hn.
    assert (0 ≤ sum_list ns).
    { clear -Hok. induction Hok as [|? ? H _ IH]; cbn; [lia|].
      unfold run_ok, sum_list in *. lia. }
    cbn [sum_list foldr] in Hsum. fold (sum_list ns) in Hsum.
    destruct (decide (2 ^ 63 ≤ n)).
    { by rewrite (read_len_long varint_encode r n _ Hr) by lia. }
    apply Exists_cons in Hlong as [|Hlong]; [done|].
    destruct (read_len_spec varint_encode r n _ Hr) as (r' & -> & Hr'); [lia|].
    destruct (Z.ltb_spec usize_max (index + n)); [lia|].
    apply IH; try done; [lia|lia|cbn in Hf; lia].
Qed.

Lemma alt_ranges_runs rs index : alt_ranges false index (runs index rs) = rs.
Proof.
  revert index; induction rs as [|[s e] rs IH]; intros index; [done|]. cbn.
  replace (index + (s - index)) with s by lia. replace (s + (e - s)) with e by lia.
  by rewrite IH.
Qed.

Lemma header_runs_alt rs :
  let '(nv, ns) := header_runs rs in
  alt_ranges nv 0 ns = rs ∧ sum_list ns = sum_list (runs 0 rs)
  ∧ (∀ P, ¬ P 0 → Exists P (runs 0 rs) → Exists P ns)
  ∧ (∀ P, Forall P (runs 0 rs) → Forall P ns).
Proof.
  unfold header_runs. pose proof (alt_ranges_runs rs 0) as H.
  destruct (runs 0 rs) as [|n ns]; [done|]. destruct (Z.eqb_spec n 0) as [->|]; [|done].
  cbn in H. split; [done|]. split; [done|]. split.
  - intros P HP HE. by apply Exists_cons in HE as [|].
  - intros P HF. by apply Forall_cons in HF as [_ ?].
Qed.

Lemma runs_sum index rs :
  sum_list (runs index rs) = default index (end_ <$> list.last rs) - index.
Proof.
  revert index; induction rs as [|r rs IH]; intros index; [cbn; lia|].
  cbn [runs sum_list foldr]. fold (sum_list (runs (end_ r) rs)). rewrite IH.
  rewrite last_cons. destruct (list.last rs); cbn; lia.
Qed.

Lemma bf_runs_bounds bf :
  bf_wf bf → sum_list (runs 0 (ranges bf)) ≤ usize_max
  ∧ Forall (λ n, n ≤ usize_max) (runs 0 (ranges bf)).
Proof.
  intros Hwf. destruct (ranges_spec bf Hwf) as [H1 H2].
  assert (Hend : Forall (λ r, start r < end_ r ≤ usize_max) (ranges bf)).
  { assert (Hb : ∀ b, in_ranges b (ranges bf) = true → b < usize_max).
    { intros b. rewrite H2. intros Hb. by apply (bf_mem_bounds b bf). }
    apply Forall_forall. intros r Hr.
    assert (start r < end_ r) as Hne.
    { destruct (wf_from_mergeable 0 _ H1) as [Hm _]. revert Hm Hr. clear.
      induction (ranges bf) as [|x l IH]; [set_solver|]. cbn.
      intros (?&?&?) [->|?]%elem_of_cons; [done|by apply IH]. }
    split; [done|]. enough (end_ r - 1 < usize_max) by lia. apply Hb, in_ranges_spec.
    exists r. split; [done|lia]. }
  split.
  - rewrite runs_sum. destruct (list.last (ranges bf)) as [r|] eqn:E; cbn; [|done].
    apply last_Some_elem_of in E. rewrite Forall_forall in Hend. apply Hend in E. lia.
  - assert (Hgen : ∀ l i, 0 ≤ i → wf_from i l = true →
      Forall (λ r, start r < end_ r ≤ usize_max) l →
      Forall (λ n, n ≤ usize_max) (runs i l)); [|by apply Hgen].
    induction l as [|r l IH]; intros i Hi Hwf' Hl; [constructor|].
    apply wf_from_cons in Hwf' as (?&?&Hwf'). apply Forall_cons in Hl as [? Hl]. cbn.
    constructor; [lia|]. constructor; [lia|]. apply IH; [lia| |done].
    eapply wf_from_mono; [|exact Hwf']. lia.
Qed.
End Roundtrip.

(** The two low bits of the first byte are the version. *)
Lemma from_bytes_version b bs :
  is_ok (from_bytes (b :: bs)) = true → Z.land b 3 = 0.
Proof.
  unfold from_bytes, from_bytes_fuel. case_if; [done|].
  assert (Hv : fst (read (reader_new (b :: bs)) 2) = Z.land b 3).
  { assert (fst (read (reader_new (b :: bs)) 2) = wrap_u8 (Z.land b 3)) as ->.
    { unfold read. by case_if. }
    unfold wrap_u8. apply Z.mod_small. change 3 with (Z.ones 2). rewrite Z.land_ones by lia.
    pose proof (Z.mod_pos_bound b (2 ^ 2)). lia. }
  destruct (read (reader_new (b :: bs)) 2) as [v r]. cbn in Hv. subst v.
  unfold VERSION. by destruct (Z.eqb_spec (Z.land b 3) 0).
Qed.

Lemma length_bytes_bits bytes : length (bytes_bits bytes) = (8 * length bytes)%nat.
Proof.
  induction bytes as [|b bs IH]; [done|].
  change (bytes_bits (b :: bs)) with (bits_of b 8 ++ bytes_bits bs).
  rewrite length_app, IH, length_bits_of. cbn. lia.
Qed.

(** Reading the header of an encoding. *)
Lemma from_bytes_header bytes nv l :
  Forall is_byte bytes → list.last bytes ≠ Some 0 →
  reader_at (reader_new bytes) ([false; false] ++ [nv] ++ l) →
  ∃ r, reader_at r l
    ∧ is_Some (decode_loop (decode_fuel bytes) r nv 0 0 [])
    ∧ from_bytes bytes = match decode_loop (decode_fuel bytes) r nv 0 0 [] with
        Some x => from_ranges <$> x | None => Err InvalidVarint end.
Proof.
  intros Hb Hlast Hr. unfold from_bytes, from_bytes_fuel.
  rewrite bool_decide_eq_false_2 by done.
  pose proof (reader_new_at bytes Hb) as Hr0.
  pose proof (read_at _ _ 2 Hr0 ltac:(lia)) as H2.
  destruct (read_bits_of (reader_new bytes) 0 2 ([nv] ++ l)) as (r1 & E1 & Hr1);
    [done|lia|lia|].
  rewrite E1 in H2 |- *. cbn [negb Z.eqb VERSION]. destruct H2 as (Hr1' & _ & _).
  pose proof (read_at _ _ 1 Hr1' ltac:(lia)) as H3.
  apply read_bit in Hr1 as (r2 & E2 & Hr2). rewrite E2 in H3 |- *.
  destruct H3 as (Hr2' & _ & _). exists r2. split; [done|]. split.
  - eapply decode_loop_terminates; [exact Hr2'|]. rewrite !length_drop.
    rewrite length_bytes_bits. unfold decode_fuel; lia.
  - cbn [Z.eqb]. destruct nv; by destruct (decode_loop _ _ _ _ _ _).
Qed.

Lemma to_bytes_from_bytes (varint_encode : Z → list Z) `{!VarintEncoder varint_encode}
    (bf : BitField) :
  bf_wf bf →
  list.last (to_bytes varint_encode bf) ≠ Some 0 ∧
  from_bytes (to_bytes varint_encode bf) =
    if bool_decide (Forall (λ n, n < 2 ^ 63) (runs 0 (ranges bf)))
    then Ok (from_ranges (ranges bf)) else Err InvalidVarint.
Proof.
  intros Hwf. destruct (ranges_spec bf Hwf) as [H1 _].
  destruct (bf_runs_bounds bf Hwf) as [Hsum Hmax].
  destruct (ranges bf) as [|r rest] eqn:Hr; [unfold to_bytes; rewrite Hr; by vm_compute|].
  rewrite <-Hr in *. pose proof (to_bytes_spec varint_encode bf r rest Hr H1 Hmax) as H.
  pose proof (header_runs_alt (ranges bf)) as Hh.
  destruct (header_runs (ranges bf)) as [nv ns].
  destruct H as (Hb & Hlast & Hat & Hok). destruct Hh as (Halt & Hs & HE & HF).
  split; [done|].
  destruct (from_bytes_header _ _ _ Hb Hlast Hat) as (r' & Hr' & [x Hx] & ->).
  rewrite Hx. case_bool_decide as Hsmall.
  - pose proof (decode_loop_runs varint_encode (S (length ns)) r' nv 0 ns [] Hr' Hok
      ltac:(lia) ltac:(lia) ltac:(lia) (HF _ Hsmall)) as Hd.
    rewrite (decode_loop_det _ _ _ _ _ _ _ _ _ Hx Hd). cbn. by rewrite Halt.
  - assert (Hlong : Exists (λ n, 2 ^ 63 ≤ n) (runs 0 (ranges bf))).
    { apply not_Forall_Exists in Hsmall; [|intros n; apply Z_lt_dec].
      eapply Exists_impl; [exact Hsmall|]. intros n Hn. unfold compose in Hn. lia. }
    pose proof (decode_loop_long varint_encode (S (length ns)) r' nv 0 ns [] Hr' Hok
      ltac:(lia) ltac:(lia) ltac:(lia) (HE (λ n, 2 ^ 63 ≤ n) ltac:(cbn beta; lia) Hlong)) as Hd.
    by rewrite (decode_loop_det _ _ _ _ _ _ _ _ _ Hx Hd).
Qed.

(** ** Theorems *)

(** C10.  Decoding the RLE+ encoding of a well-formed bit field gives back its
    ranges exactly when the bit field has no run of [2^63] or more equal bits,
    whatever unsigned varint encoder is used; with such a run the decoder
    refuses what the encoder wrote.  An encoding never ends in a zero byte,
    which is the minimality the decoder asks for first. *)
Theorem rle_roundtrip (varint_encode : Z → list Z) `{!VarintEncoder varint_encode}
    (bf : BitField) :
  bf_wf bf →
  list.last (to_bytes varint_encode bf) ≠ Some 0 ∧
  from_bytes (to_bytes varint_encode bf) =
    if bool_decide (Forall (λ n, n < 2 ^ 63) (runs 0 (ranges bf)))
    then Ok (from_ranges (ranges bf)) else Err InvalidVarint.
Proof. by apply to_bytes_from_bytes. Qed.

#[global] Instance leb128_encoder : VarintEncoder leb128.
Proof.
  split. intros n Hn. unfold is_u64, usize_max in Hn. unfold is_uvarint, leb128.
  assert (Hgen : ∀ k first n, 0 ≤ n < 2 ^ (7 * Z.of_nat k) → (0 < k)%nat →
    (first = false → n ≠ 0) →
    uvarint_shape first (leb128_fuel k n) ∧ uvarint_value (leb128_fuel k n) = n).
  { clear. induction k as [|k IH]; intros first n Hn Hk Hf; [lia|]. cbn [leb128_fuel].
    destruct (Z.ltb_spec n 128).
    - cbn. rewrite Z.mod_small by lia. split; [split; [lia|done]|lia].
    - assert (Hpow : 2 ^ (7 * Z.of_nat (S k)) = 2 ^ (7 * Z.of_nat k) * 128).
      { replace (7 * Z.of_nat (S k)) with (7 * Z.of_nat k + 7) by lia.
        by rewrite Z.pow_add_r by lia. }
      destruct k as [|k]; [cbn in Hn; lia|].
      pose proof (Z.mod_pos_bound n 128). pose proof (Z.div_mod n 128).
      destruct (IH false (n / 128)) as [IH1 IH2]; [|lia|intros _; lia|].
      { split; [apply Z.div_pos; lia|]. apply Z.div_lt_upper_bound; lia. }
      cbn [uvarint_value]. rewrite IH2.
      replace ((n mod 128 + 128) mod 128) with (n mod 128).
      2: { rewrite <-Zplus_mod_idemp_r. rewrite Z.mod_same, Z.add_0_r by lia.
           by rewrite Z.mod_mod by lia. }
      split; [|lia]. destruct (leb128_fuel (S k) (n / 128)) eqn:E; [done|].
      cbn [uvarint_shape]. split; [lia|done]. }
  apply Hgen; [cbn; lia|lia|done].
Qed.

Lemma rle_roundtrip_witness :
  (let bf := from_ranges [Range 3 4; Range 6 16; Range 100 400] in
   to_bytes leb128 bf = [112; 42; 42; 84; 176; 10]
   ∧ from_bytes (to_bytes leb128 bf) = Ok (from_ranges (ranges bf)))
  ∧ (let bf := from_ranges [Range 0 (2 ^ 63)] in
     bf_wf bf ∧ from_bytes (to_bytes leb128 bf) = Err InvalidVarint).
Proof.
  split.
  - intros bf. split; [vm_compute; reflexivity|].
    destruct (rle_roundtrip leb128 bf) as [_ ->].
    + apply from_ranges_wf; [reflexivity|]. intros x. cbn. unfold in_range, usize_max; cbn. lia.
    + assert (runs 0 (ranges bf) = [3; 1; 2; 10; 84; 300]) as -> by (vm_compute; reflexivity).
      rewrite bool_decide_eq_true_2; [done|]. repeat constructor; lia.
  - intros bf. assert (Hwf : bf_wf bf).
    { apply from_ranges_wf; [reflexivity|]. intros x. cbn. unfold in_range, usize_max; cbn. lia. }
    split; [exact Hwf|]. destruct (rle_roundtrip leb128 bf Hwf) as [_ ->].
    assert (runs 0 (ranges bf) = [0; 2 ^ 63]) as -> by (vm_compute; reflexivity).
    rewrite bool_decide_eq_false_2; [done|]. intros (_ & (H & _)%Forall_cons)%Forall_cons. lia.
Defined.

(** C27.  Whatever bytes it is given, the decoding loop terminates: with
    [decode_fuel] rounds or more the result is the same.  What the decoder
    accepts is a valid bit field: its ranges are non-empty, in ascending order,
    neither overlap nor touch, and end at or below [usize::MAX]. *)
Theorem rle_decode_valid (bytes : list Z) :
  Forall is_byte bytes →
  (∀ fuel, (decode_fuel bytes ≤ fuel)%nat →
     from_bytes_fuel fuel bytes = Some (from_bytes bytes)) ∧
  ∀ bf, from_bytes bytes = Ok bf →
    bf_wf bf ∧ ranges_wf (bf_ranges bf) = true ∧ ranges bf = bf_ranges bf.
Proof.
  intros Hb. unfold from_bytes, from_bytes_fuel. case_if; [done|].
  pose proof (read_at _ _ 2 (reader_new_at bytes Hb) ltac:(lia)) as H2.
  destruct (read (reader_new bytes) 2) as [v r1]. destruct H2 as (Hr1 & _ & _).
  case_if; [done|].
  pose proof (read_at _ _ 1 Hr1 ltac:(lia)) as H3.
  destruct (read r1 1) as [fb r2]. destruct H3 as (Hr2 & _ & _).
  destruct (decode_loop_terminates (decode_fuel bytes) _ _ (fb =? 1) 0 0 [] Hr2) as [d Ed].
  { rewrite !length_drop, length_bytes_bits. unfold decode_fuel. lia. }
  split.
  { intros fuel Hf. by rewrite (decode_loop_mono _ fuel _ _ _ _ _ _ Ed Hf), Ed. }
  rewrite Ed. cbn [fmap option_fmap option_map default from_option id].
  intros bf. destruct d as [rs|e]; [|done].
  cbn [fmap result_fmap]. intros; simplify_eq.
  destruct (decode_loop_alt _ _ _ _ 0 _ _ Hr2 ltac:(unfold usize_max; lia) Ed)
    as (ns & Hns & Hsum & ->). cbn [app].
  destruct (alt_ranges_wf (fb =? 1) 0 ns Hns) as [Hwf Hlt].
  assert (Hwf' : ranges_wf (alt_ranges (fb =? 1) 0 ns) = true).
  { eapply wf_from_mono; [|exact Hwf]. case_if; lia. }
  assert (Hlt' : ∀ b, in_ranges b (alt_ranges (fb =? 1) 0 ns) = true → b < usize_max).
  { intros b Hbb. apply Hlt in Hbb. lia. }
  split; [by apply from_ranges_wf|]. split; [done|]. by apply ranges_from_ranges.
Qed.

Lemma rle_decode_valid_witness :
  ∃ bf, from_bytes [112; 42; 42; 84; 176; 10] = Ok bf ∧ bf_wf bf.
Proof.
  eexists. split; [vm_compute; reflexivity|].
  eapply (rle_decode_valid [112; 42; 42; 84; 176; 10]).
  - repeat constructor; unfold is_byte; lia.
  - vm_compute. reflexivity.
Defined.

(** A bit field that passes the size check of [serialize] is accepted by
    [deserialize], and the deferred path through [UnvalidatedBitField] decodes
    the same bytes to the same bit field. *)
Theorem serialize_roundtrip (varint_encode : Z → list Z)
    `{!VarintEncoder varint_encode} (bf : BitField) (bytes : list Z) :
  bf_wf bf → Forall (λ n, n < 2 ^ 63) (runs 0 (ranges bf)) →
  serialize varint_encode bf = Ok bytes →
  deserialize bytes = Ok (from_ranges (ranges bf)) ∧
  (unvalidated_deserialize bytes ≫= validate_mut)
    = Ok (from_ranges (ranges bf), Validated (from_ranges (ranges bf))).
Proof.
  intros Hwf Hsmall. unfold serialize.
  destruct (Z.ltb_spec MAX_ENCODED_SIZE (Z.of_nat (length (to_bytes varint_encode bf)))) as [|Hle];
    [done|]. intros [= <-].
  destruct (to_bytes_from_bytes varint_encode bf Hwf) as [_ Hrt].
  rewrite bool_decide_eq_true_2 in Hrt by done.
  unfold deserialize, unvalidated_deserialize.
  destruct (Z.ltb_spec MAX_ENCODED_SIZE (Z.of_nat (length (to_bytes varint_encode bf))));
    [lia|]. split; [done|].
  destruct (to_bytes varint_encode bf) as [|b bs] eqn:Eb; [cbn; by rewrite Hrt|].
  assert (Z.land b 3 = 0) as ->; [|cbn [VERSION Z.eqb negb]; cbn; by rewrite Hrt].
  apply (from_bytes_version b bs). by rewrite Hrt.
Qed.

Lemma serialize_roundtrip_witness :
  let bf := from_ranges [Range 0 20] in
  ∃ bytes, serialize leb128 bf = Ok bytes
  ∧ deserialize bytes = Ok (from_ranges (ranges bf)).
Proof.
  intros bf. eexists. split; [vm_compute; reflexivity|].
  eapply (serialize_roundtrip leb128 bf).
  - apply from_ranges_wf; [reflexivity|]. intros x. cbn. unfold in_range, usize_max; cbn. lia.
  - assert (runs 0 (ranges bf) = [0; 20]) as -> by (vm_compute; reflexivity).
    repeat constructor; lia.
  - vm_compute. reflexivity.
Defined.
