(* ===== verification/Blockstore.v ===== *)
(** * Key-value stores and content-addressed block stores

    [Store] and [MemoryDB] (src/node/db), the [BlockStore] trait with its default
    methods, [TrackingBlockStore] and [BufferedBlockStore]
    (src/ipld/blockstore).  The CBOR codec, the hash function and the CID
    format come from crates outside the repository: they are the type classes
    [Cbor] and [CidOps], with their documented laws [CborOk] and [CidOk].

    The classes [StoreOk] and [BlockStoreOk] are what the tries and the state
    tree rely on; the instances at the end show that the stores modelled here
    keep the promise. *)

From stdpp Require Import strings.
From S2P Require Import Prelude.

Notation bytes := (list Z) (only parsing).

(** ** What is outside the repository *)

(** [serde_cbor::{to_vec, from_slice}] at a type of the code. *)
Class Cbor (T : Type) := {
  to_vec : T → bytes;
  from_slice : bytes → result string T
}.
Class CborOk (T : Type) `{!Cbor T} : Prop := {
  from_slice_to_vec (x : T) : from_slice (to_vec x) = Ok x
}.

(** The multihash and CID crates: digests, CID version 1, its byte form. *)
Class CidOps (Cid : Type) := {
  Digest : Type;
  digest : bytes → Digest;
  new_v1 : Z → Digest → Cid;
  codec : Cid → Z;
  to_bytes : Cid → bytes;
  cid_try_from : bytes → result string Cid
}.
Class CidOk (Cid : Type) `{!CidOps Cid} : Prop := {
  digest_inj :: Inj (=) (=) digest;
  new_v1_inj c :: Inj (=) (=) (new_v1 c);
  codec_new_v1 c d : codec (new_v1 c d) = c;
  to_bytes_inj :: Inj (=) (=) to_bytes
}.

Definition DAG_CBOR : Z := 113.

Definition new_from_cbor {Cid} `{!CidOps Cid} (bz : bytes) : Cid :=
  new_v1 DAG_CBOR (digest bz).

(** ** Stores *)

Class Store (S : Type) := {
  read : S → bytes → result string (option bytes);
  write : S → bytes → bytes → result string S;
  delete : S → bytes → result string S;
  exists_ : S → bytes → result string bool
}.

Class StoreOk (S : Type) `{!Store S} : Prop := {
  write_ok s k v : ∃ s', write s k v = Ok s' ∧
    ∀ k', read s' k' = if bool_decide (k' = k) then Ok (Some v) else read s k';
  delete_ok s k : ∃ s', delete s k = Ok s' ∧
    ∀ k', read s' k' = if bool_decide (k' = k) then Ok None else read s k';
  exists_ok s k o : read s k = Ok o → exists_ s k = Ok (bool_decide (is_Some o))
}.

(** The default bulk methods of the trait. *)
Definition bulk_read {S} `{!Store S} (s : S) (keys : list bytes)
    : result string (list (option bytes)) :=
  try_fold (λ acc k, v ← read s k; Ok (acc ++ [v])) [] keys.
Definition bulk_write {S} `{!Store S} (s : S) (values : list (bytes * bytes))
    : result string S :=
  try_fold (λ s kv, write s (fst kv) (snd kv)) s values.
Definition bulk_delete {S} `{!Store S} (s : S) (keys : list bytes) : result string S :=
  try_fold delete s keys.

(** [MemoryDB]: a map from the 64-bit hash of the key ([DefaultHasher], a
    parameter) to the value. *)
Record MemoryDB := { mem_db : gmap Z bytes }.

Section Memory.
Context (db_index : bytes → Z).

Definition memory_store : Store MemoryDB := {|
  read s k := Ok (mem_db s !! db_index k);
  write s k v := Ok {| mem_db := <[db_index k := v]> (mem_db s) |};
  delete s k := Ok {| mem_db := base.delete (db_index k) (mem_db s) |};
  exists_ s k := Ok (bool_decide (is_Some (mem_db s !! db_index k)))
|}.

(** Without collisions of [db_index] it is a key-value store. *)
Lemma memory_store_ok `{!Inj (=) (=) db_index} : @StoreOk MemoryDB memory_store.
Proof.
  split; cbn.
  - intros s k v. eexists. split; [done|]. intros k'. cbn. case_bool_decide as Hk.
    + subst. by rewrite lookup_insert_eq.
    + rewrite lookup_insert_ne; [done|]. intros ?%(inj db_index). congruence.
  - intros s k. eexists. split; [done|]. intros k'. cbn. case_bool_decide as Hk.
    + subst. by rewrite lookup_delete_eq.
    + rewrite lookup_delete_ne; [done|]. intros ?%(inj db_index). congruence.
  - intros s k o. by intros [= <-].
Qed.
End Memory.

(** ** Block stores *)

Class BlockStore (BS Cid : Type) := {
  get_bytes : BS → Cid → result string (option bytes);
  put_raw : BS → bytes → result string (Cid * BS)
}.

(** What the users of a block store rely on: blocks that were put can be read
    back and stay. *)
Definition holds {BS Cid} `{!BlockStore BS Cid, !CidOps Cid} (s : BS) (bz : bytes) : Prop :=
  get_bytes s (new_from_cbor bz) = Ok (Some bz).

Class BlockStoreOk (BS Cid : Type) `{!BlockStore BS Cid, !CidOps Cid} : Prop := {
  put_raw_ok s bz : ∃ s', put_raw s bz = Ok (new_from_cbor bz, s') ∧ holds s' bz ∧
    ∀ bz', holds s bz' → holds s' bz'
}.

Section Typed.
Context {BS Cid : Type} `{!BlockStore BS Cid}.

(** The typed [get] and [put] of the trait. *)
Definition get (T : Type) `{!Cbor T} (s : BS) (cid : Cid) : result string (option T) :=
  o ← get_bytes s cid;
  match o with
  | Some bz => x ← from_slice bz; Ok (Some x)
  | None => Ok None
  end.

Definition put {T : Type} `{!Cbor T} (s : BS) (obj : T) : result string (Cid * BS) :=
  put_raw s (to_vec obj).
End Typed.

(** The default methods, over a key-value store. *)
Definition default_block_store {S Cid} `{!Store S, !CidOps Cid} : BlockStore S Cid := {|
  get_bytes s cid := read s (to_bytes cid);
  put_raw s bz :=
    let cid := new_from_cbor bz in
    s' ← write s (to_bytes cid) bz; Ok (cid, s')
|}.

Section CidFacts.
Context {Cid : Type} `{!CidOps Cid, !CidOk Cid}.

#[global] Instance new_from_cbor_inj : Inj (=) (=) (new_from_cbor (Cid := Cid)).
Proof. intros b1 b2 H. by apply (inj (new_v1 DAG_CBOR)), (inj digest) in H. Qed.

Lemma codec_new_from_cbor bz : codec (new_from_cbor (Cid := Cid) bz) = DAG_CBOR.
Proof. apply codec_new_v1. Qed.

Lemma default_block_store_ok {S} `{!Store S, !StoreOk S} :
  @BlockStoreOk S Cid default_block_store _.
Proof.
  split. intros s bz. cbn.
  destruct (write_ok s (to_bytes (new_from_cbor bz)) bz) as (s' & -> & Hr).
  exists s'. split; [done|]. unfold holds. cbn. split.
  - rewrite Hr. by rewrite bool_decide_eq_true_2.
  - intros bz' Hbz'. rewrite Hr. case_bool_decide as E; [|done].
    apply (inj to_bytes), (inj new_from_cbor) in E. by subst.
Qed.

Lemma put_holds {BS T} `{!BlockStore BS Cid, !BlockStoreOk BS Cid, !Cbor T} (s : BS) (x : T) :
  ∃ s', put s x = Ok (new_from_cbor (to_vec x), s') ∧ holds s' (to_vec x)
        ∧ ∀ bz, holds s bz → holds s' bz.
Proof. apply put_raw_ok. Qed.

Lemma get_holds {BS T} `{!BlockStore BS Cid, !Cbor T, !CborOk T} (s : BS) (x : T) :
  holds s (to_vec x) → get T s (new_from_cbor (to_vec x)) = Ok (Some x).
Proof. intros H. unfold get. rewrite H. cbn. by rewrite from_slice_to_vec. Qed.
End CidFacts.

(** ** TrackingBlockStore *)

Record BSStats := { st_r : Z; st_w : Z; st_br : Z; st_bw : Z }.
Record TrackingBlockStore (BS : Type) := { t_base : BS; t_stats : BSStats }.
Arguments t_base {BS}. Arguments t_stats {BS}.

Section Tracking.
Context {BS Cid : Type} `{!BlockStore BS Cid, !Store BS, !CidOps Cid}.

Definition count_read (st : BSStats) (o : option bytes) : BSStats :=
  {| st_r := st_r st + 1; st_w := st_w st;
     st_br := st_br st + from_option (Z.of_nat ∘ length) 0 o; st_bw := st_bw st |}.
Definition count_write (st : BSStats) (bz : bytes) : BSStats :=
  {| st_r := st_r st; st_w := st_w st + 1; st_br := st_br st;
     st_bw := st_bw st + Z.of_nat (length bz) |}.

(** [get_bytes] also updates the statistics behind the shared reference. *)
Definition tracking_get_bytes (s : TrackingBlockStore BS) (cid : Cid)
    : result string (option bytes) * TrackingBlockStore BS :=
  match get_bytes (t_base s) cid with
  | Ok o => (Ok o, {| t_base := t_base s; t_stats := count_read (t_stats s) o |})
  | Err e => (Err e, {| t_base := t_base s; t_stats := count_read (t_stats s) None |})
  end.

Definition tracking_put_raw (s : TrackingBlockStore BS) (bz : bytes)
    : result string (Cid * TrackingBlockStore BS) :=
  let cid := new_from_cbor bz in
  b ← write (t_base s) (to_bytes cid) bz;
  Ok (cid, {| t_base := b; t_stats := count_write (t_stats s) bz |}).
End Tracking.

#[global] Instance tracking_block_store {BS Cid} `{!BlockStore BS Cid, !Store BS, !CidOps Cid}
    : BlockStore (TrackingBlockStore BS) Cid := {|
  get_bytes s cid := fst (tracking_get_bytes s cid);
  put_raw := tracking_put_raw
|}.

(** ** BufferedBlockStore *)

Record BufferedBlockStore (BS Cid : Type) `{Countable Cid} := {
  base_ : BS;
  write_ : gmap Cid bytes
}.
Arguments base_ {BS Cid _ _}. Arguments write_ {BS Cid _ _}.

(** A cursor over the bytes of a block: reading past the end is an error,
    seeking past it is not. *)
Definition read_u8 (buf : bytes) (pos : Z) : result string (Z * Z) :=
  b ← ok_or (if 0 <=? pos then buf !! Z.to_nat pos else None) "failed to fill whole buffer"%string;
  Ok (b, pos + 1).
Definition read_exact (buf : bytes) (pos n : Z) : result string (bytes * Z) :=
  if (0 <=? pos) && (pos + n <=? Z.of_nat (length buf))
  then Ok (take (Z.to_nat n) (drop (Z.to_nat pos) buf), pos + n)
  else Err "failed to fill whole buffer"%string.
Definition read_be (bz : bytes) : Z := foldl (λ acc b, acc * 256 + b) 0 bz.

(** The type and the argument of the CBOR item at the cursor. *)
Definition cbor_read_header_buf (buf : bytes) (pos : Z) : result string (Z * Z * Z) :=
  '(first, pos) ← read_u8 buf pos;
  let maj := Z.shiftr (Z.land first 224) 5 in
  let low := Z.land first 31 in
  if low <? 24 then Ok (maj, low, pos)
  else if low =? 24 then
    '(val, pos) ← read_u8 buf pos;
    if val <? 24 then Err "cbor input was not canonical (lval 24 with value < 24)"%string
    else Ok (maj, val, pos)
  else if low =? 25 then
    '(bz, pos) ← read_exact buf pos 2;
    if read_be bz <=? 255 then Err "cbor input was not canonical (lval 25 with value <= MaxUint8)"%string
    else Ok (maj, read_be bz, pos)
  else if low =? 26 then
    '(bz, pos) ← read_exact buf pos 4;
    if read_be bz <=? 65535 then Err "cbor input was not canonical (lval 26 with value <= MaxUint16)"%string
    else Ok (maj, read_be bz, pos)
  else if low =? 27 then
    '(bz, pos) ← read_exact buf pos 8;
    if read_be bz <=? 4294967295 then Err "cbor input was not canonical (lval 27 with value <= MaxUint32)"%string
    else Ok (maj, read_be bz, pos)
  else Err "invalid header cbor_read_header_buf"%string.

Definition as_i64 (z : Z) : Z := if z <? 2 ^ 63 then z else z - 2 ^ 64.

(** [buf.seek(SeekFrom::Current(extra as i64))]. *)
Definition seek_current (pos extra : Z) : result string Z :=
  let pos' := pos + as_i64 extra in
  if (pos' <? 0) || (usize_max <? pos')
  then Err "invalid seek to a negative or overflowing position"%string else Ok pos'.

(** [remaining += k] on a [usize]. *)
Definition add_remaining (remaining k : Z) : result string Z :=
  ok_or (checked_add_u64 remaining k) "attempt to add with overflow"%string.

Section Buffered.
Context {BS Cid : Type} `{Countable Cid, !BlockStore BS Cid, !Store BS, !CidOps Cid}.

(** The body of the loop of [scan_for_links], up to the call of the callback:
    the link found, the new position and the new number of items. *)
Definition scan_item (buf : bytes) (pos remaining : Z) : result string (option Cid * Z * Z) :=
  '(maj, extra, pos) ← cbor_read_header_buf buf pos;
  if (maj =? 0) || (maj =? 1) || (maj =? 7) then Ok (None, pos, remaining)
  else if (maj =? 2) || (maj =? 3) then
    pos ← seek_current pos extra; Ok (None, pos, remaining)
  else if maj =? 6 then
    if extra =? 42 then
      '(maj, extra, pos) ← cbor_read_header_buf buf pos;
      _ ← throw_if (negb (maj =? 2)) "expected cbor type byte string in input"%string;
      _ ← throw_if (100 <? extra) "string in cbor input too long"%string;
      '(scratch, pos) ← read_exact buf pos extra;
      _ ← throw_if (extra =? 0) "slice index starts at 1 but ends at 0"%string;
      c ← cid_try_from (drop 1 scratch);
      Ok (Some c, pos, remaining)
    else remaining ← add_remaining remaining 1; Ok (None, pos, remaining)
  else if maj =? 4 then
    remaining ← add_remaining remaining extra; Ok (None, pos, remaining)
  else if maj =? 5 then
    remaining ← add_remaining remaining (extra * 2); Ok (None, pos, remaining)
  else Err "unhandled cbor type"%string.

(** The loop, threading the state [A] its callback captures; [None] when the
    fuel runs out. *)
Fixpoint scan_loop {A} (fuel : nat) (buf : bytes) (callback : A → Cid → option (result string A))
    (pos remaining : Z) (acc : A) : option (result string A) :=
  if negb (0 <? remaining) then Some (Ok acc)
  else match fuel with
  | O => None
  | S fuel =>
      match scan_item buf pos remaining with
      | Err e => Some (Err e)
      | Ok (None, pos, remaining) => scan_loop fuel buf callback pos (remaining - 1) acc
      | Ok (Some c, pos, remaining) =>
          match callback acc c with
          | Some (Ok acc) => scan_loop fuel buf callback pos (remaining - 1) acc
          | r => r
          end
      end
  end.

Definition scan_for_links {A} (fuel : nat) (buf : bytes)
    (callback : A → Cid → option (result string A)) (acc : A) : option (result string A) :=
  scan_loop fuel buf callback 0 1 acc.

(** [copy_rec]: the blocks under [root] that the cache holds, children first.
    The fuel bounds the depth of the links and the items of a block. *)
Fixpoint copy_rec (fuel : nat) (cache : gmap Cid bytes) (root : Cid)
    (buffer : list (bytes * bytes)) : option (result string (list (bytes * bytes))) :=
  match fuel with
  | O => None
  | S fuel =>
      if negb (codec root =? DAG_CBOR) then Some (Ok buffer)
      else match cache !! root with
      | None => Some (Err "Invalid link in flushing buffered store"%string)
      | Some block =>
          match scan_for_links fuel block (λ buffer link,
            if negb (codec link =? DAG_CBOR) then Some (Ok buffer)
            else match cache !! link with
                 | None => Some (Ok buffer)
                 | Some _ => copy_rec fuel cache link buffer
                 end) buffer with
          | Some (Ok buffer) => Some (Ok (buffer ++ [(to_bytes root, block)]))
          | r => r
          end
      end
  end.

Definition buffered_new (base : BS) : BufferedBlockStore BS Cid :=
  {| base_ := base; write_ := ∅ |}.

Definition buffered_flush (fuel : nat) (self : BufferedBlockStore BS Cid) (root : Cid)
    : option (result string (BufferedBlockStore BS Cid)) :=
  match copy_rec fuel (write_ self) root [] with
  | None => None
  | Some (Err e) => Some (Err e)
  | Some (Ok buffer) =>
      Some (base ← bulk_write (base_ self) buffer; Ok {| base_ := base; write_ := ∅ |})
  end.

Definition buffered_get_bytes (self : BufferedBlockStore BS Cid) (cid : Cid)
    : result string (option bytes) :=
  match write_ self !! cid with
  | Some data => Ok (Some data)
  | None => get_bytes (base_ self) cid
  end.

Definition buffered_put_raw (self : BufferedBlockStore BS Cid) (bz : bytes)
    : result string (Cid * BufferedBlockStore BS Cid) :=
  let cid := new_from_cbor bz in
  Ok (cid, {| base_ := base_ self; write_ := <[cid := bz]> (write_ self) |}).
End Buffered.

#[global] Instance buffered_block_store {BS Cid} `{Countable Cid, !BlockStore BS Cid, !CidOps Cid}
    : BlockStore (BufferedBlockStore BS Cid) Cid := {|
  get_bytes := buffered_get_bytes;
  put_raw := buffered_put_raw
|}.

(** ** The buffered store keeps the promise of a block store *)

#[global] Instance buffered_block_store_ok {BS Cid} `{Countable Cid, !BlockStore BS Cid,
    !CidOps Cid, !CidOk Cid} : BlockStoreOk (BufferedBlockStore BS Cid) Cid.
Proof.
  split. intros s bz. eexists. split; [done|]. unfold holds. cbn. unfold buffered_get_bytes. cbn.
  split; [by rewrite lookup_insert_eq|].
  intros bz'. destruct (decide (bz = bz')) as [->|]; [by rewrite lookup_insert_eq|].
  rewrite lookup_insert_ne; [done|]. by intros ?%(inj new_from_cbor).
Qed.

(** ** What a flush writes *)

Section Flush.
Context {BS Cid : Type} `{Countable Cid, !Store BS, !CidOps Cid}.
#[local] Existing Instance default_block_store.

(** The links a block contains, in order. *)
Definition scan_links (fuel : nat) (buf : bytes) : option (result string (list Cid)) :=
  scan_for_links fuel buf (λ acc c, Some (Ok (acc ++ [c]))) [].

Fixpoint try_fold_fuel {A B} (f : A → B → option (result string A)) (acc : A) (l : list B)
    : option (result string A) :=
  match l with
  | [] => Some (Ok acc)
  | b :: l => match f acc b with Some (Ok acc) => try_fold_fuel f acc l | r => r end
  end.

(** A scan runs its callback on the links of the block, in order. *)
Lemma scan_loop_collect {A} fuel buf (cb : A → Cid → option (result string A)) pos rem pre out :
  scan_loop fuel buf (λ acc c, Some (Ok (acc ++ [c]))) pos rem pre = Some (Ok out) →
  ∃ ls, out = pre ++ ls ∧ ∀ acc, scan_loop fuel buf cb pos rem acc = try_fold_fuel cb acc ls.
Proof.
  revert pos rem pre out. induction fuel as [|fuel IH]; intros pos rem pre out;
    cbn [scan_loop]; case_if; try done.
  1, 2: intros [= <-]; exists []; by rewrite app_nil_r.
  destruct (scan_item buf pos rem) as [[[[c|] pos'] rem']|e]; [..|done].
  - intros (ls & -> & Hls)%IH. exists (c :: ls). rewrite <-app_assoc. split; [done|].
    intros acc. cbn. destruct (cb acc c) as [[?|?]|]; [apply Hls|done|done].
  - by intros (ls & -> & Hls)%IH; eauto.
Qed.

Lemma scan_loop_links {A} fuel buf (cb : A → Cid → option (result string A)) pos rem acc acc' :
  scan_loop fuel buf cb pos rem acc = Some (Ok acc') →
  ∃ ls, ∀ pre, scan_loop fuel buf (λ acc c, Some (Ok (acc ++ [c]))) pos rem pre
    = Some (Ok (pre ++ ls)).
Proof.
  revert pos rem acc acc'. induction fuel as [|fuel IH]; intros pos rem acc acc';
    cbn [scan_loop]; case_if; try done.
  1, 2: intros [= <-]; exists []; intros pre; by rewrite app_nil_r.
  destruct (scan_item buf pos rem) as [[[[c|] pos'] rem']|e]; [..|done].
  - destruct (cb acc c) as [[acc1|?]|]; [|done|done].
    intros (ls & Hls)%IH. exists (c :: ls). intros pre. by rewrite Hls, <-app_assoc.
  - apply IH.
Qed.

(** The cached blocks a cached block links to. *)
Definition links_to (cache : gmap Cid bytes) (c c' : Cid) : Prop :=
  ∃ block fuel ls, cache !! c = Some block ∧ scan_links fuel block = Some (Ok ls)
    ∧ c' ∈ ls ∧ codec c' = DAG_CBOR ∧ is_Some (cache !! c').

Lemma scan_for_links_spec {A} fuel buf (cb : A → Cid → option (result string A)) acc acc' :
  scan_for_links fuel buf cb acc = Some (Ok acc') →
  ∃ ls, scan_links fuel buf = Some (Ok ls) ∧ try_fold_fuel cb acc ls = Some (Ok acc').
Proof.
  intros Hs. pose proof (scan_loop_links _ _ _ _ _ _ _ Hs) as [ls Hls].
  exists ls. specialize (Hls []). split; [done|].
  destruct (scan_loop_collect _ _ cb _ _ _ _ Hls) as (ls' & ? & Heq). simplify_eq/=.
  by rewrite <-Heq.
Qed.

Lemma scan_for_links_run {A} fuel buf (cb : A → Cid → option (result string A)) acc ls :
  scan_links fuel buf = Some (Ok ls) →
  scan_for_links fuel buf cb acc = try_fold_fuel cb acc ls.
Proof.
  intros Hs. destruct (scan_loop_collect _ _ cb _ _ _ _ Hs) as (ls' & ? & Heq).
  simplify_eq/=. apply Heq.
Qed.

(** The result of a scan does not depend on the fuel. *)
Lemma scan_loop_mono {A} f f' buf (cb : A → Cid → option (result string A)) pos rem acc r :
  scan_loop f buf cb pos rem acc = Some r → (f ≤ f')%nat →
  scan_loop f' buf cb pos rem acc = Some r.
Proof.
  revert f' pos rem acc; induction f as [|f IH]; intros [|f'] pos rem acc; cbn [scan_loop];
    case_if; try done; try lia.
  destruct (scan_item buf pos rem) as [[[[c|] pos'] rem']|e]; [| |done].
  - destruct (cb acc c) as [[?|?]|]; [|done|done]. intros; eapply IH; [done|lia].
  - intros; eapply IH; [done|lia].
Qed.

Lemma scan_links_det f f' buf ls ls' :
  scan_links f buf = Some (Ok ls) → scan_links f' buf = Some (Ok ls') → ls = ls'.
Proof.
  unfold scan_links, scan_for_links. intros H1 H2.
  apply (scan_loop_mono _ (max f f')) in H1; [|lia].
  apply (scan_loop_mono _ (max f f')) in H2; [|lia]. congruence.
Qed.

(** What [copy_rec] adds to the buffer: the blocks reachable from the root. *)
Definition copied (cache : gmap Cid bytes) (root : Cid) (new : list (bytes * bytes)) : Prop :=
  (∀ kv, kv ∈ new → ∃ c bz, kv = (to_bytes c, bz) ∧ cache !! c = Some bz
                            ∧ rtc (links_to cache) root c) ∧
  (∀ c, rtc (links_to cache) root c → ∃ bz, cache !! c = Some bz ∧ (to_bytes c, bz) ∈ new).

Definition copy_link (fuel : nat) (cache : gmap Cid bytes) (buffer : list (bytes * bytes))
    (link : Cid) : option (result string (list (bytes * bytes))) :=
  if negb (codec link =? DAG_CBOR) then Some (Ok buffer)
  else match cache !! link with
       | None => Some (Ok buffer)
       | Some _ => copy_rec fuel cache link buffer
       end.

(** The blocks [new] come from the cache, below [root], and include those that
    [l] leads to. *)
Definition copied_from (cache : gmap Cid bytes) (root : Cid) (l : list Cid)
    (new : list (bytes * bytes)) : Prop :=
  (∀ kv, kv ∈ new → ∃ c bz, kv = (to_bytes c, bz) ∧ cache !! c = Some bz
                            ∧ rtc (links_to cache) root c) ∧
  (∀ c d, c ∈ l → links_to cache root c → rtc (links_to cache) c d →
          ∃ bz, cache !! d = Some bz ∧ (to_bytes d, bz) ∈ new).

Lemma copied_from_nil cache root l :
  (∀ c, c ∈ l → ¬ links_to cache root c) → copied_from cache root l [].
Proof. intros Hl. split; [set_solver|]. intros c d Hc Hlk. by destruct (Hl c Hc). Qed.

Lemma copied_from_app cache root l1 l2 new1 new2 :
  copied_from cache root l1 new1 → copied_from cache root l2 new2 →
  copied_from cache root (l1 ++ l2) (new1 ++ new2).
Proof.
  intros [Hs1 Hc1] [Hs2 Hc2]. split; [set_solver|].
  intros c d [Hl|Hl]%elem_of_app Hlk Hrtc.
  - destruct (Hc1 c d Hl Hlk Hrtc) as (bz & ? & ?). exists bz. set_solver.
  - destruct (Hc2 c d Hl Hlk Hrtc) as (bz & ? & ?). exists bz. set_solver.
Qed.

Lemma copy_link_spec fuel cache root block ls c buf buf' :
  (∀ root buf buf', copy_rec fuel cache root buf = Some (Ok buf') → codec root = DAG_CBOR →
     ∃ new, buf' = buf ++ new ∧ copied cache root new) →
  cache !! root = Some block → scan_links fuel block = Some (Ok ls) → c ∈ ls →
  copy_link fuel cache buf c = Some (Ok buf') →
  ∃ new, buf' = buf ++ new ∧ copied_from cache root [c] new.
Proof.
  intros IH Hb Hls Hin. unfold copy_link.
  destruct (Z.eqb_spec (codec c) DAG_CBOR) as [Hcc|Hcc]; cbn [negb].
  2: { intros [= <-]. exists []. rewrite app_nil_r. split; [done|]. apply copied_from_nil.
       intros c' ->%list_elem_of_singleton. by intros (?&?&?&?&?&?&?&?). }
  destruct (cache !! c) as [bc|] eqn:Hbc.
  2: { intros [= <-]. exists []. rewrite app_nil_r. split; [done|]. apply copied_from_nil.
       intros c' ->%list_elem_of_singleton. intros (?&?&?&?&?&?&?&[??]). congruence. }
  intros (new1 & -> & Hs1 & Hc1)%IH; [|done].
  exists new1. split; [done|]. split.
  - intros kv (c' & bz & ? & ? & Hrtc)%Hs1. exists c', bz. split_and!; [done..|].
    eapply rtc_l; [|done]. exists block, fuel, ls. split_and!; [done|done|done|done|].
    by eexists.
  - intros c' d ->%list_elem_of_singleton _. apply Hc1.
Qed.

Lemma copy_links_spec fuel cache root block ls l buf buf' :
  (∀ root buf buf', copy_rec fuel cache root buf = Some (Ok buf') → codec root = DAG_CBOR →
     ∃ new, buf' = buf ++ new ∧ copied cache root new) →
  cache !! root = Some block → scan_links fuel block = Some (Ok ls) → l ⊆ ls →
  try_fold_fuel (copy_link fuel cache) buf l = Some (Ok buf') →
  ∃ new, buf' = buf ++ new ∧ copied_from cache root l new.
Proof.
  intros IH Hb Hls. revert buf. induction l as [|c l IHl]; intros buf Hin; cbn [try_fold_fuel].
  { intros [= <-]. exists []. rewrite app_nil_r. split; [done|]. apply copied_from_nil. set_solver. }
  destruct (copy_link fuel cache buf c) as [[b1|]|] eqn:Hcl; [|done|done].
  intros (new2 & -> & H2)%IHl; [|set_solver].
  eapply copy_link_spec in Hcl as (new1 & -> & H1); [|done..|set_solver].
  exists (new1 ++ new2). rewrite app_assoc. split; [done|].
  by apply (copied_from_app _ _ [c]).
Qed.

Lemma copy_rec_spec fuel cache root buf buf' :
  copy_rec fuel cache root buf = Some (Ok buf') → codec root = DAG_CBOR →
  ∃ new, buf' = buf ++ new ∧ copied cache root new.
Proof.
  revert root buf buf'. induction fuel as [|fuel IH]; intros root buf buf'; [done|].
  cbn [copy_rec]. intros Hc Hr. rewrite (proj2 (Z.eqb_eq _ _) Hr) in Hc. cbn [negb] in Hc.
  destruct (cache !! root) as [block|] eqn:Hb; [|done].
  change (λ _ _, _) with (copy_link fuel cache) in Hc.
  destruct (scan_for_links _ _ _ _) as [[buf1|]|] eqn:Hs; [|done|done].
  injection Hc as <-. apply scan_for_links_spec in Hs as (ls & Hls & Hf).
  eapply copy_links_spec in Hf as (new & -> & Hs & Hc); [|done..].
  exists (new ++ [(to_bytes root, block)]). rewrite app_assoc. split; [done|]. split.
  - intros kv [Hkv| ->%list_elem_of_singleton]%elem_of_app; [by apply Hs|].
    exists root, block. by split_and!.
  - intros c Hrtc. inversion Hrtc as [|? c1 ? Hlk Hrest]; subst.
    + exists block. split; [done|]. set_solver.
    + pose proof Hlk as (block' & f' & ls' & Hb' & Hls' & Hin & _). simplify_eq.
      rewrite <-(scan_links_det _ _ _ _ _ Hls Hls') in Hin.
      destruct (Hc c1 c Hin Hlk Hrest) as (bz & ? & ?). exists bz. set_solver.
Qed.

(** With enough fuel a flush of an acyclic cache finishes. *)
Lemma copy_rec_total fuel n cache (rank : Cid → nat) root buf :
  (∀ c c', links_to cache c c' → (rank c' < rank c)%nat) →
  (∀ c block, cache !! c = Some block → ∃ ls, scan_links fuel block = Some (Ok ls)) →
  is_Some (cache !! root) → (rank root < n)%nat →
  ∃ buf', copy_rec (fuel + n) cache root buf = Some (Ok buf').
Proof.
  intros Hrank Hscan. revert root buf. induction n as [|n IH]; intros root buf Hroot Hn; [lia|].
  replace (fuel + S n)%nat with (S (fuel + n)) by lia. cbn [copy_rec].
  case_if; [by eauto|]. destruct Hroot as [block Hb]. rewrite Hb.
  change (λ _ _, _) with (copy_link (fuel + n) cache).
  destruct (Hscan _ _ Hb) as [ls Hls].
  assert (Hls' : scan_links (fuel + n) block = Some (Ok ls)).
  { eapply scan_loop_mono; [exact Hls|lia]. }
  rewrite (scan_for_links_run _ _ _ _ _ Hls').
  assert (Hl : ∀ c, c ∈ ls → codec c = DAG_CBOR → is_Some (cache !! c) → (rank c < n)%nat).
  { intros c Hc Hd Hsome. enough (rank c < rank root)%nat by lia. apply Hrank.
    exists block, fuel, ls. by split_and!. }
  assert (∃ buf1, try_fold_fuel (copy_link (fuel + n) cache) buf ls = Some (Ok buf1))
    as [buf1 ->]; [|by eauto].
  clear Hls Hls'. revert buf. induction ls as [|c ls IHl]; intros buf; cbn; [by eauto|].
  assert (∃ buf1, copy_link (fuel + n) cache buf c = Some (Ok buf1)) as [buf1 ->].
  { unfold copy_link. case_if; [by eauto|]. destruct (cache !! c) eqn:Hc; [|by eauto].
    apply IH; [by eexists|]. apply Hl; [by left|done|by eexists]. }
  apply IHl. intros c' Hc'. apply Hl. by right.
Qed.

(** Writing several entries: the reads afterwards. *)
Lemma bulk_write_spec `{!StoreOk BS} (s : BS) kvs :
  ∃ s', bulk_write s kvs = Ok s' ∧
    (∀ k, k ∉ kvs.*1 → read s' k = read s k) ∧
    (∀ k v, (k, v) ∈ kvs → (∀ v', (k, v') ∈ kvs → v' = v) → read s' k = Ok (Some v)).
Proof.
  revert s. induction kvs as [|[k v] kvs IH]; intros s.
  { exists s. split; [done|]. split; [done|]. set_solver. }
  unfold bulk_write. cbn [try_fold fst snd].
  destruct (write_ok s k v) as (s1 & -> & Hr1).
  destruct (IH s1) as (s' & Hs' & Hout & Hin). exists s'. split; [done|]. split.
  - intros k' Hk'. rewrite Hout by set_solver. rewrite Hr1.
    rewrite bool_decide_eq_false_2; [done|]. set_solver.
  - intros k' v' Hin' Hfun. destruct (decide ((k', v') ∈ kvs)) as [Hk'|Hk'].
    + apply Hin; [done|]. set_solver.
    + assert ((k', v') = (k, v)) as [= -> ->] by set_solver.
      rewrite Hout.
      * rewrite Hr1. by rewrite bool_decide_eq_true_2.
      * intros ([k1 v1] & ? & Hk1)%list_elem_of_fmap. simplify_eq/=.
        rewrite (Hfun v1) in Hk1 by set_solver. done.
Qed.
End Flush.

(** ** Concrete stores *)

(** CIDs as their bytes, with an injective digest, to run examples with. *)
#[global] Instance plain_cid_ops : CidOps bytes := {|
  Digest := bytes;
  digest bz := bz;
  new_v1 c d := c :: d;
  codec c := default 0 (head c);
  to_bytes c := c;
  cid_try_from bz := Ok bz
|}.
#[global] Instance plain_cid_ok : CidOk bytes.
Proof.
  split; cbn.
  - by intros ???.
  - intros c d1 d2 H. by injection H.
  - done.
  - by intros ???.
Qed.

Definition plain_index (k : bytes) : Z := Z.pos (encode k).
#[global] Instance plain_memory : Store MemoryDB := memory_store plain_index.
#[global] Instance plain_memory_ok : StoreOk MemoryDB.
Proof.
  apply memory_store_ok. intros k1 k2 H. unfold plain_index in H.
  apply (inj (@encode bytes _ _)). congruence.
Qed.

(** ** Theorems *)


(** A block [[5]] and a block holding a link to it. *)
Definition example_cache : gmap bytes bytes :=
  <[ [113; 5] := [5] ]> (<[ [113; 129; 216; 42; 67; 0; 113; 5] := [129; 216; 42; 67; 0; 113; 5] ]> ∅).


(** The cast of a length to [i64] lets a byte string of [2^64 - 10] bytes seek
    back to the array before it: the scan of this block never ends. *)
Lemma scan_for_links_diverges fuel :
  scan_links (Cid:=bytes) fuel [130; 91; 255; 255; 255; 255; 255; 255; 255; 246] = None.
Proof.
  unfold scan_links, scan_for_links.
  assert (∀ fuel, scan_loop (Cid:=bytes) fuel [130; 91; 255; 255; 255; 255; 255; 255; 255; 246]
    (λ acc c, Some (Ok (acc ++ [c]))) 0 1 [] = None ∧
    scan_loop (Cid:=bytes) fuel [130; 91; 255; 255; 255; 255; 255; 255; 255; 246]
    (λ acc c, Some (Ok (acc ++ [c]))) 1 2 [] = None) as Hl; [|apply Hl].
  clear fuel. intros fuel. induction fuel as [|fuel [IH0 IH1]]; [done|].
  split; [exact IH1|exact IH0].
Qed.
