(* ===== verification/Amt.v ===== *)
(** * The array mapped trie (src/ipld/amt)

    [Node], [Root] and [Amt] with their caches of loaded and of modified
    nodes, over any block store.  Every operation that changes a node returns
    the node it leaves behind also when it fails.  A panic of the code is the
    error [Panic]; heights are natural numbers, and [height - 1] at height 0
    is a panic. *)

From stdpp Require Import strings.
From S2P Require Import Prelude Blockstore.

Inductive Error (Cid : Type) :=
| OutOfRange (i : Z)
| MaxHeight (height max : Z)
| CidNotFound (cid : Cid)
| LinksAndValues
| Cached
| Other (msg : string)
| Dynamic (e : string)
| Panic.
Arguments OutOfRange {Cid}. Arguments MaxHeight {Cid}. Arguments CidNotFound {Cid}.
Arguments LinksAndValues {Cid}. Arguments Cached {Cid}. Arguments Other {Cid}.
Arguments Dynamic {Cid}. Arguments Panic {Cid}.

Definition DEFAULT_BIT_WIDTH : Z := 3.
Definition MAX_HEIGHT : Z := 64.
Definition MAX_INDEX : Z := usize_max - 1.

Definition nodes_for_height (bit_width : Z) (height : nat) : Z :=
  let height_log_two := bit_width * Z.of_nat height in
  if 64 <=? height_log_two then usize_max else Z.shiftl 1 height_log_two.

Definition init_sized_vec {A} (bit_width : Z) : list (option A) :=
  replicate (Z.to_nat (Z.shiftl 1 bit_width)) None.

Definition bmap_bytes (bit_width : Z) : Z :=
  if bit_width <=? 3 then 1 else Z.shiftl 1 (bit_width - 3).

(** ** Nodes *)

Inductive Link (V Cid : Type) :=
| LinkCid (cid : Cid) (cache : option (Node V Cid))
| Dirty (n : Node V Cid)
with Node (V Cid : Type) :=
| NodeLink (links : list (option (Link V Cid)))
| NodeLeaf (vals : list (option V)).
Arguments LinkCid {V Cid}. Arguments Dirty {V Cid}.
Arguments NodeLink {V Cid}. Arguments NodeLeaf {V Cid}.

Record CollapsedNode (V Cid : Type) := {
  cn_bmap : bytes;
  cn_links : list Cid;
  cn_values : list V
}.
Arguments Build_CollapsedNode {V Cid}.
Arguments cn_bmap {V Cid}. Arguments cn_links {V Cid}. Arguments cn_values {V Cid}.

(** [bmap[i / 8] |= 1 << (i % 8)] *)
Definition bmap_set (i : nat) (bmap : bytes) : bytes :=
  alter (λ b, Z.lor b (Z.shiftl 1 (Z.of_nat (i mod 8)))) (i / 8)%nat bmap.
(** [bmap[i / 8] & (1 << (i % 8)) != 0] *)
Definition bmap_test (i : nat) (bmap : bytes) : bool :=
  negb (Z.land (default 0 (bmap !! (i / 8)%nat)) (Z.shiftl 1 (Z.of_nat (i mod 8))) =? 0).

Section Codec.
Context {V Cid : Type}.

(** The loops of [Serialize for Node]: the bitmap and the present entries. *)
Fixpoint serialize_loop {A B} (item : A → result (Error Cid) B) (i : nat) (vs : list (option A))
    (bmap : bytes) (values : list B) : result (Error Cid) (bytes * list B) :=
  match vs with
  | [] => Ok (bmap, values)
  | None :: vs => serialize_loop item (S i) vs bmap values
  | Some v :: vs =>
      b ← item v;
      serialize_loop item (S i) vs (bmap_set i bmap) (values ++ [b])
  end.

Definition bmap_new (n : nat) : bytes := replicate ((n - 1) / 8 + 1)%nat 0.

Definition link_cid (l : Link V Cid) : result (Error Cid) Cid :=
  match l with LinkCid cid _ => Ok cid | Dirty _ => Err Cached end.

(** [Serialize for Node], up to the tuple handed to the CBOR serializer. *)
Definition serialize_node (n : Node V Cid) : result (Error Cid) (CollapsedNode V Cid) :=
  match n with
  | NodeLeaf vals =>
      '(bmap, values) ← serialize_loop Ok 0 vals (bmap_new (length vals)) [];
      Ok (Build_CollapsedNode bmap [] values)
  | NodeLink links =>
      '(bmap, collapsed) ← serialize_loop link_cid 0 links (bmap_new (length links)) [];
      Ok (Build_CollapsedNode bmap collapsed [])
  end.

(** The loops of [expand]. *)
Fixpoint expand_loop {A B} (mk : A → B) (bmap : bytes) (n i : nat) (items : list A)
    : result (Error Cid) (list (option B) * list A) :=
  match n with
  | O => Ok ([], items)
  | S n =>
      if bmap_test i bmap then
        match items with
        | [] => Err (Other "Bitmap contained more set bits than items provided")
        | a :: items =>
            '(vs, rest) ← expand_loop mk bmap n (S i) items; Ok (Some (mk a) :: vs, rest)
        end
      else '(vs, rest) ← expand_loop mk bmap n (S i) items; Ok (None :: vs, rest)
  end.

Definition expand_items {A B} (mk : A → B) (bmap : bytes) (bit_width : Z) (items : list A)
    : result (Error Cid) (list (option B)) :=
  '(vs, rest) ← expand_loop mk bmap (Z.to_nat (Z.shiftl 1 bit_width)) 0 items;
  match rest with
  | [] => Ok vs
  | _ => Err (Other "Bitmap contained less set bits than items provided")
  end.

Definition expand (self : CollapsedNode V Cid) (bit_width : Z) : result (Error Cid) (Node V Cid) :=
  let '(Build_CollapsedNode bmap links values) := self in
  match links, values with
  | _ :: _, _ :: _ => Err LinksAndValues
  | _, _ =>
      if negb (bmap_bytes bit_width =? Z.of_nat (length bmap))
      then Err (Other "bitfield of unexpected length")
      else match links with
      | _ :: _ => NodeLink <$> expand_items (λ cid, LinkCid cid None) bmap bit_width links
      | [] => NodeLeaf <$> expand_items id bmap bit_width values
      end
  end.

Definition node_empty : Node V Cid := NodeLeaf [].

Definition all_none {A} (l : list (option A)) : bool :=
  forallb (λ o, match o with None => true | Some _ => false end) l.

Definition can_collapse (n : Node V Cid) : bool :=
  match n with
  | NodeLink links =>
      match links with
      | Some _ :: rest => all_none rest
      | _ => false
      end
  | NodeLeaf _ => false
  end.

Definition is_empty (n : Node V Cid) : bool :=
  match n with NodeLink links => all_none links | NodeLeaf vals => all_none vals end.

Definition set_leaf (n : Node V Cid) (i : Z) (val : V) : Node V Cid * result (Error Cid) (option V) :=
  match n with
  | NodeLeaf vals =>
      match vals !! Z.to_nat i with
      | Some prev => (NodeLeaf (<[Z.to_nat i := Some val]> vals), Ok prev)
      | None => (n, Err Panic)
      end
  | NodeLink _ => (n, Err Panic)
  end.
End Codec.

Section Operations.
Context {V Cid BS : Type} `{!BlockStore BS Cid, !Cbor (CollapsedNode V Cid)}.
Implicit Types (n : Node V Cid) (bs : BS).

Definition store_result {A} (r : result string A) : result (Error Cid) A :=
  match r with Ok a => Ok a | Err e => Err (Dynamic e) end.

(** Reading a node from the store and expanding it. *)
Definition load_node (bs : BS) (bit_width : Z) (cid : Cid) : result (Error Cid) (Node V Cid) :=
  o ← store_result (get (CollapsedNode V Cid) bs cid);
  c ← ok_or o (CidNotFound cid);
  expand c bit_width.

(** [cache.get_or_try_init(...)] *)
Definition cached_node (bs : BS) (bit_width : Z) (cid : Cid) (cache : option (Node V Cid))
    : result (Error Cid) (Node V Cid) :=
  match cache with Some n => Ok n | None => load_node bs bit_width cid end.

Definition set_link (links : list (option (Link V Cid))) (i : Z) (l : option (Link V Cid)) : Node V Cid :=
  NodeLink (<[Z.to_nat i := l]> links).

(** [Node::get]; the node changes because it caches the sub nodes it loads. *)
Fixpoint node_get (bs : BS) (height : nat) (bit_width : Z) n (i : Z)
    : Node V Cid * result (Error Cid) (option V) :=
  let sub_i := i / nodes_for_height bit_width height in
  let sub_get n := match height with
    | O => (n, Err Panic)
    | S h => node_get bs h bit_width n (i mod nodes_for_height bit_width height)
    end in
  match n with
  | NodeLeaf vals => (n, Ok (mjoin (vals !! Z.to_nat i)))
  | NodeLink links =>
      match mjoin (links !! Z.to_nat sub_i) with
      | Some (LinkCid cid cache) =>
          match cached_node bs bit_width cid cache with
          | Err e => (n, Err e)
          | Ok sub => let '(sub, r) := sub_get sub in (set_link links sub_i (Some (LinkCid cid (Some sub))), r)
          end
      | Some (Dirty sub) => let '(sub, r) := sub_get sub in (set_link links sub_i (Some (Dirty sub)), r)
      | None => (n, Ok None)
      end
  end.

Definition new_node (bit_width : Z) (height : nat) : Node V Cid :=
  match height with
  | 1%nat => NodeLeaf (init_sized_vec bit_width)
  | _ => NodeLink (init_sized_vec bit_width)
  end.

(** [Node::set] *)
Fixpoint node_set (bs : BS) (height : nat) (bit_width : Z) n (i : Z) (val : V)
    : Node V Cid * result (Error Cid) (option V) :=
  match height with
  | O => set_leaf n i val
  | S h =>
      let nfh := nodes_for_height bit_width height in
      let idx := i / nfh in
      match n with
      | NodeLink links =>
          let set_sub sub :=
            let '(sub, r) := node_set bs h bit_width sub (i mod nfh) val in
            (set_link links idx (Some (Dirty sub)), r) in
          match links !! Z.to_nat idx with
          | None => (n, Err Panic)
          | Some (Some (LinkCid cid cache)) =>
              match cached_node bs bit_width cid cache with
              | Err e => (n, Err e)
              | Ok sub => set_sub sub
              end
          | Some None => set_sub (new_node bit_width height)
          | Some (Some (Dirty sub)) => set_sub sub
          end
      | NodeLeaf _ => (n, Err Panic)
      end
  end.

(** [Node::delete] *)
Fixpoint node_delete (bs : BS) (height : nat) (bit_width : Z) n (i : Z)
    : Node V Cid * result (Error Cid) (option V) :=
  let sub_i := i / nodes_for_height bit_width height in
  let sub_delete n := match height with
    | O => (n, Err Panic)
    | S h => node_delete bs h bit_width n (i mod nodes_for_height bit_width height)
    end in
  match n with
  | NodeLeaf vals => (NodeLeaf (<[Z.to_nat i := None]> vals), Ok (mjoin (vals !! Z.to_nat i)))
  | NodeLink links =>
      let deleted_sub (unchanged : Node V Cid → Link V Cid) sub :=
        match sub_delete sub with
        | (sub, Err e) => (set_link links sub_i (Some (unchanged sub)), Err e)
        | (sub, Ok None) => (set_link links sub_i (Some (unchanged sub)), Ok None)
        | (sub, Ok (Some v)) =>
            (set_link links sub_i (if is_empty sub then None else Some (Dirty sub)), Ok (Some v))
        end in
      match links !! Z.to_nat sub_i with
      | None => (n, Err Panic)
      | Some (Some (Dirty sub)) => deleted_sub Dirty sub
      | Some (Some (LinkCid cid cache)) =>
          match cached_node bs bit_width cid cache with
          | Err e => (n, Err e)
          | Ok sub => deleted_sub (λ sub, LinkCid cid (Some sub)) sub
          end
      | Some None => (n, Ok None)
      end
  end.

(** The loop of [Node::flush] over the links, given the flush of a sub node:
    the store, the links and the outcome. *)
Definition flush_links (flush : BS → Node V Cid → BS * Node V Cid * result (Error Cid) unit) :=
  fix flush_links (bs : BS) (links : list (option (Link V Cid)))
      : BS * list (option (Link V Cid)) * result (Error Cid) unit :=
  match links with
  | [] => (bs, [], Ok tt)
  | Some (Dirty sub) :: links =>
      match flush bs sub with
      | (bs, sub, Err e) => (bs, Some (Dirty sub) :: links, Err e)
      | (bs, sub, Ok _) =>
          match c ← serialize_node sub; store_result (put bs c) with
          | Err e => (bs, Some (Dirty sub) :: links, Err e)
          | Ok (cid, bs) =>
              let '(bs, links, r) := flush_links bs links in
              (bs, Some (LinkCid cid (Some sub)) :: links, r)
          end
      end
  | l :: links => let '(bs, links, r) := flush_links bs links in (bs, l :: links, r)
  end.

(** [Node::flush] *)
Fixpoint node_flush (bs : BS) n {struct n} : BS * Node V Cid * result (Error Cid) unit :=
  match n with
  | NodeLeaf _ => (bs, n, Ok tt)
  | NodeLink links =>
      let '(bs, links, r) := flush_links node_flush bs links in (bs, NodeLink links, r)
  end.

(** The loop over a leaf of [for_each_while_mut]: the closure gets the state it
    captures, the index and the value, and returns its state, the [ValueMut] (the
    value and whether it is marked as changed), and whether to go on. *)
Fixpoint leaf_loop_mut {A} (f : A → Z → V → A * (V * bool) * result (Error Cid) bool)
    (offset i : Z) (vals : list (option V)) (acc : A) (did_mutate : bool)
    : list (option V) * A * result (Error Cid) (bool * bool) :=
  match vals with
  | [] => ([], acc, Ok (true, did_mutate))
  | None :: vals =>
      let '(vals, acc, r) := leaf_loop_mut f offset (i + 1) vals acc did_mutate in
      (None :: vals, acc, r)
  | Some v :: vals =>
      let '(acc, (v, value_changed), r) := f acc (offset + i) v in
      let did_mutate := did_mutate || value_changed in
      match r with
      | Err e => (Some v :: vals, acc, Err e)
      | Ok false => (Some v :: vals, acc, Ok (false, did_mutate))
      | Ok true =>
          let '(vals, acc, r) := leaf_loop_mut f offset (i + 1) vals acc did_mutate in
          (Some v :: vals, acc, r)
      end
  end.

(** The body of the loop over the links, given the visit of a sub node: a link
    by CID becomes dirty when the visit changed a value. *)
Definition visit_link_mut {A} (bs : BS) (bit_width : Z)
    (visit : Z → Node V Cid → A → Node V Cid * A * result (Error Cid) (bool * bool))
    (offs : Z) (link : Link V Cid) (acc : A)
    : Link V Cid * A * result (Error Cid) (bool * bool) :=
  match link with
  | Dirty sub => let '(sub, acc, r) := visit offs sub acc in (Dirty sub, acc, r)
  | LinkCid cid cache =>
      match cached_node bs bit_width cid cache with
      | Err e => (link, acc, Err e)
      | Ok sub =>
          match visit offs sub acc with
          | (sub, acc, Err e) => (LinkCid cid (Some sub), acc, Err e)
          | (sub, acc, Ok (keep_going, did_mutate_node)) =>
              (if (did_mutate_node : bool) then Dirty sub else LinkCid cid (Some sub), acc,
               Ok (keep_going, did_mutate_node))
          end
      end
  end.

Fixpoint links_loop_mut {A} (bs : BS) (bit_width : Z) (height : nat)
    (visit : Z → Node V Cid → A → Node V Cid * A * result (Error Cid) (bool * bool))
    (offset i : Z) (links : list (option (Link V Cid))) (acc : A) (did_mutate : bool)
    : list (option (Link V Cid)) * A * result (Error Cid) (bool * bool) :=
  match links with
  | [] => ([], acc, Ok (true, did_mutate))
  | None :: links =>
      let '(links, acc, r) := links_loop_mut bs bit_width height visit offset (i + 1) links acc did_mutate in
      (None :: links, acc, r)
  | Some link :: links =>
      let offs := offset + i * nodes_for_height bit_width height in
      let '(link, acc, r) := visit_link_mut bs bit_width visit offs link acc in
      match r with
      | Err e => (Some link :: links, acc, Err e)
      | Ok (false, dm) => (Some link :: links, acc, Ok (false, did_mutate || dm))
      | Ok (true, dm) =>
          let '(links, acc, r) :=
            links_loop_mut bs bit_width height visit offset (i + 1) links acc (did_mutate || dm) in
          (Some link :: links, acc, r)
      end
  end.

(** [Node::for_each_while_mut] *)
Fixpoint node_for_each_while_mut {A} (bs : BS) (height : nat) (bit_width : Z)
    (f : A → Z → V → A * (V * bool) * result (Error Cid) bool) (offset : Z) n (acc : A)
    : Node V Cid * A * result (Error Cid) (bool * bool) :=
  match n with
  | NodeLeaf vals =>
      let '(vals, acc, r) := leaf_loop_mut f offset 0 vals acc false in (NodeLeaf vals, acc, r)
  | NodeLink links =>
      let visit := match height with
        | O => λ _ n acc, (n, acc, Err Panic)
        | S h => λ offs n acc, node_for_each_while_mut bs h bit_width f offs n acc
        end in
      let '(links, acc, r) := links_loop_mut bs bit_width height visit offset 0 links acc false in
      (NodeLink links, acc, r)
  end.

(** The same loops for [for_each_while], which only reads the values but
    caches the sub nodes it loads. *)
Fixpoint leaf_loop {A} (f : A → Z → V → A * result (Error Cid) bool)
    (offset i : Z) (vals : list (option V)) (acc : A) : A * result (Error Cid) bool :=
  match vals with
  | [] => (acc, Ok true)
  | None :: vals => leaf_loop f offset (i + 1) vals acc
  | Some v :: vals =>
      match f acc (offset + i) v with
      | (acc, Err e) => (acc, Err e)
      | (acc, Ok false) => (acc, Ok false)
      | (acc, Ok true) => leaf_loop f offset (i + 1) vals acc
      end
  end.

Definition visit_link {A} (bs : BS) (bit_width : Z)
    (visit : Z → Node V Cid → A → Node V Cid * A * result (Error Cid) bool)
    (offs : Z) (link : Link V Cid) (acc : A) : Link V Cid * A * result (Error Cid) bool :=
  match link with
  | Dirty sub => let '(sub, acc, r) := visit offs sub acc in (Dirty sub, acc, r)
  | LinkCid cid cache =>
      match cached_node bs bit_width cid cache with
      | Err e => (link, acc, Err e)
      | Ok sub => let '(sub, acc, r) := visit offs sub acc in (LinkCid cid (Some sub), acc, r)
      end
  end.

Fixpoint links_loop {A} (bs : BS) (bit_width : Z) (height : nat)
    (visit : Z → Node V Cid → A → Node V Cid * A * result (Error Cid) bool)
    (offset i : Z) (links : list (option (Link V Cid))) (acc : A)
    : list (option (Link V Cid)) * A * result (Error Cid) bool :=
  match links with
  | [] => ([], acc, Ok true)
  | None :: links =>
      let '(links, acc, r) := links_loop bs bit_width height visit offset (i + 1) links acc in
      (None :: links, acc, r)
  | Some link :: links =>
      let offs := offset + i * nodes_for_height bit_width height in
      let '(link, acc, r) := visit_link bs bit_width visit offs link acc in
      match r with
      | Err e => (Some link :: links, acc, Err e)
      | Ok false => (Some link :: links, acc, Ok false)
      | Ok true =>
          let '(links, acc, r) := links_loop bs bit_width height visit offset (i + 1) links acc in
          (Some link :: links, acc, r)
      end
  end.

(** [Node::for_each_while] *)
Fixpoint node_for_each_while {A} (bs : BS) (height : nat) (bit_width : Z)
    (f : A → Z → V → A * result (Error Cid) bool) (offset : Z) n (acc : A)
    : Node V Cid * A * result (Error Cid) bool :=
  match n with
  | NodeLeaf vals => let '(acc, r) := leaf_loop f offset 0 vals acc in (n, acc, r)
  | NodeLink links =>
      let visit := match height with
        | O => λ _ n acc, (n, acc, Err Panic)
        | S h => λ offs n acc, node_for_each_while bs h bit_width f offs n acc
        end in
      let '(links, acc, r) := links_loop bs bit_width height visit offset 0 links acc in
      (NodeLink links, acc, r)
  end.
End Operations.

(** ** The root and the trie *)

Record Root (V Cid : Type) := {
  bit_width : Z;
  height : nat;
  count : Z;
  node : Node V Cid
}.
Arguments Build_Root {V Cid}. Arguments bit_width {V Cid}. Arguments height {V Cid}.
Arguments count {V Cid}. Arguments node {V Cid}.

(** The tuple [Root] is serialized as. *)
Record CollapsedRoot (V Cid : Type) := {
  cr_bit_width : Z;
  cr_height : nat;
  cr_count : Z;
  cr_node : CollapsedNode V Cid
}.
Arguments Build_CollapsedRoot {V Cid}. Arguments cr_bit_width {V Cid}. Arguments cr_height {V Cid}.
Arguments cr_count {V Cid}. Arguments cr_node {V Cid}.

Section Amt.
Context {V Cid BS : Type} `{!BlockStore BS Cid, !Cbor (CollapsedNode V Cid),
  !Cbor (CollapsedRoot V Cid)}.
Implicit Types (self : Root V Cid) (bs : BS).

Definition root_new (bit_width : Z) : Root V Cid :=
  Build_Root bit_width 0 0 (NodeLeaf (init_sized_vec bit_width)).

Definition serialize_root self : result (Error Cid) (CollapsedRoot V Cid) :=
  c ← serialize_node (node self);
  Ok (Build_CollapsedRoot (bit_width self) (height self) (count self) c).

Definition deserialize_root (c : CollapsedRoot V Cid) : result (Error Cid) (Root V Cid) :=
  n ← expand (cr_node c) (cr_bit_width c);
  Ok (Build_Root (cr_bit_width c) (cr_height c) (cr_count c) n).

(** An [Amt] is a root and a reference to a block store: the operations take
    the store as an argument and [flush] returns it. *)
Definition new_with_bit_width (bit_width : Z) : Root V Cid := root_new bit_width.
Definition new : Root V Cid := new_with_bit_width DEFAULT_BIT_WIDTH.

Definition load (cid : Cid) bs : result (Error Cid) (Root V Cid) :=
  o ← store_result (get (CollapsedRoot V Cid) bs cid);
  c ← ok_or o (CidNotFound cid);
  root ← deserialize_root c;
  _ ← throw_if (MAX_HEIGHT <? Z.of_nat (height root)) (MaxHeight (Z.of_nat (height root)) MAX_HEIGHT);
  Ok root.

Definition set_node self (n : Node V Cid) : Root V Cid :=
  Build_Root (bit_width self) (height self) (count self) n.

Definition amt_get bs self (i : Z) : Root V Cid * result (Error Cid) (option V) :=
  if MAX_INDEX <? i then (self, Err (OutOfRange i))
  else if nodes_for_height (bit_width self) (height self + 1) <=? i then (self, Ok None)
  else
    let '(n, r) := node_get bs (height self) (bit_width self) (node self) i in
    (set_node self n, r).

(** The [while] loop of [set]; 64 rounds reach the greatest index. *)
Fixpoint grow_loop (fuel : nat) self (i : Z) : Root V Cid :=
  match fuel with
  | O => self
  | S fuel =>
      if nodes_for_height (bit_width self) (height self + 1) <=? i then
        let n := if negb (is_empty (node self))
          then NodeLink (<[0%nat := Some (Dirty (node self))]> (init_sized_vec (bit_width self)))
          else NodeLink (init_sized_vec (bit_width self)) in
        grow_loop fuel (Build_Root (bit_width self) (height self + 1) (count self) n) i
      else self
  end.

Definition amt_set bs self (i : Z) (val : V) : Root V Cid * result (Error Cid) unit :=
  if MAX_INDEX <? i then (self, Err (OutOfRange i))
  else
    let self := grow_loop 64 self i in
    let '(n, r) := node_set bs (height self) (bit_width self) (node self) i val in
    let self := set_node self n in
    match r with
    | Err e => (self, Err e)
    | Ok None => (Build_Root (bit_width self) (height self) (count self + 1) (node self), Ok tt)
    | Ok (Some _) => (self, Ok tt)
    end.

Fixpoint batch_set_loop bs self (i : Z) (vals : list V) : Root V Cid * result (Error Cid) unit :=
  match vals with
  | [] => (self, Ok tt)
  | val :: vals =>
      match amt_set bs self i val with
      | (self, Ok _) => batch_set_loop bs self (i + 1) vals
      | (self, Err e) => (self, Err e)
      end
  end.
Definition batch_set bs self (vals : list V) : Root V Cid * result (Error Cid) unit :=
  batch_set_loop bs self 0 vals.

(** The [while] loop of [delete]: a root whose only link is its first one is
    replaced by the sub node. *)
Fixpoint collapse_loop bs (bit_width : Z) (height : nat) (n : Node V Cid)
    : nat * Node V Cid * result (Error Cid) unit :=
  match height with
  | O => (height, n, Ok tt)
  | S h =>
      if can_collapse n then
        match n with
        | NodeLink (Some (Dirty sub) :: _) => collapse_loop bs bit_width h sub
        | NodeLink (Some (LinkCid cid cache) :: _) =>
            match cached_node bs bit_width cid cache with
            | Err e => (height, n, Err e)
            | Ok sub => collapse_loop bs bit_width h sub
            end
        | _ => (height, n, Err Panic)
        end
      else (height, n, Ok tt)
  end.

Definition amt_delete bs self (i : Z) : Root V Cid * result (Error Cid) (option V) :=
  if MAX_INDEX <? i then (self, Err (OutOfRange i))
  else if nodes_for_height (bit_width self) (height self + 1) <=? i then (self, Ok None)
  else
    match node_delete bs (height self) (bit_width self) (node self) i with
    | (n, Err e) => (set_node self n, Err e)
    | (n, Ok None) => (set_node self n, Ok None)
    | (n, Ok (Some v)) =>
        let count := count self - 1 in
        if is_empty n then
          (Build_Root (bit_width self) 0 count (NodeLeaf (init_sized_vec (bit_width self))), Ok (Some v))
        else
          let '(height, n, r) := collapse_loop bs (bit_width self) (height self) n in
          (Build_Root (bit_width self) height count n, _ ← r; Ok (Some v))
    end.

Fixpoint batch_delete_loop bs self (iter : list Z) (strict modified : bool)
    : Root V Cid * result (Error Cid) bool :=
  match iter with
  | [] => (self, Ok modified)
  | i :: iter =>
      match amt_delete bs self i with
      | (self, Err e) => (self, Err e)
      | (self, Ok o) =>
          let found := match o with None => true | Some _ => false end in
          if strict && found then (self, Err (Other "no such index in Amt for batch delete"))
          else batch_delete_loop bs self iter strict (modified || found)
      end
  end.

(** [itertools::sorted] *)
Definition sorted (l : list Z) : list Z := merge_sort Z.le l.

Definition batch_delete bs self (iter : list Z) (strict : bool)
    : Root V Cid * result (Error Cid) bool :=
  batch_delete_loop bs self (sorted iter) strict false.

Definition amt_flush bs self : BS * Root V Cid * result (Error Cid) Cid :=
  match node_flush bs (node self) with
  | (bs, n, Err e) => (bs, set_node self n, Err e)
  | (bs, n, Ok _) =>
      let self := set_node self n in
      match c ← serialize_root self; store_result (put bs c) with
      | Ok (cid, bs) => (bs, self, Ok cid)
      | Err e => (bs, self, Err e)
      end
  end.

Definition new_from_iter bs (vals : list V) : BS * result (Error Cid) Cid :=
  match batch_set bs new vals with
  | (_, Err e) => (bs, Err e)
  | (t, Ok _) => let '(bs, _, r) := amt_flush bs t in (bs, r)
  end.

Definition for_each_while {A} bs self (f : A → Z → V → A * result (Error Cid) bool) (acc : A)
    : Root V Cid * A * result (Error Cid) unit :=
  let '(n, acc, r) := node_for_each_while bs (height self) (bit_width self) f 0 (node self) acc in
  (set_node self n, acc, _ ← r; Ok tt).

Definition for_each {A} bs self (f : A → Z → V → A * result (Error Cid) unit) (acc : A)
    : Root V Cid * A * result (Error Cid) unit :=
  for_each_while bs self (λ acc i x, let '(acc, r) := f acc i x in (acc, _ ← r; Ok true)) acc.

(** [for_each_while_mut] without the feature [go-interop]. *)
Definition for_each_while_mut {A} bs self
    (f : A → Z → V → A * (V * bool) * result (Error Cid) bool) (acc : A)
    : Root V Cid * A * result (Error Cid) unit :=
  let '(n, acc, r) := node_for_each_while_mut bs (height self) (bit_width self) f 0 (node self) acc in
  (set_node self n, acc, _ ← r; Ok tt).

Fixpoint set_all bs self (kvs : list (Z * V)) : Root V Cid * result (Error Cid) unit :=
  match kvs with
  | [] => (self, Ok tt)
  | (i, v) :: kvs =>
      match amt_set bs self i v with
      | (self, Ok _) => set_all bs self kvs
      | (self, Err e) => (self, Err e)
      end
  end.

(** [for_each_while_mut] with the feature [go-interop], which the actors use:
    the changed values are marked unchanged and set after the iteration. *)
Definition go_closure {A} (f : A → Z → V → A * (V * bool) * result (Error Cid) bool)
    (acc : A * list (Z * V)) (idx : Z) (v : V)
    : (A * list (Z * V)) * (V * bool) * result (Error Cid) bool :=
  let '(acc, mutated) := acc in
  match f acc idx v with
  | (acc, (v, changed), Err e) => ((acc, mutated), (v, changed), Err e)
  | (acc, (v, changed), Ok keep_going) =>
      if (changed : bool) then ((acc, mutated ++ [(idx, v)]), (v, false), Ok keep_going)
      else ((acc, mutated), (v, changed), Ok keep_going)
  end.

Definition for_each_while_mut_go {A} bs self
    (f : A → Z → V → A * (V * bool) * result (Error Cid) bool) (acc : A)
    : Root V Cid * A * result (Error Cid) unit :=
  match node_for_each_while_mut bs (height self) (bit_width self) (go_closure f) 0 (node self) (acc, []) with
  | (n, (acc, _), Err e) => (set_node self n, acc, Err e)
  | (n, (acc, mutated), Ok _) =>
      let '(self, r) := set_all bs (set_node self n) mutated in (self, acc, r)
  end.

Definition for_each_mut {A} bs self
    (f : A → Z → V → A * (V * bool) * result (Error Cid) unit) (acc : A)
    : Root V Cid * A * result (Error Cid) unit :=
  for_each_while_mut_go bs self
    (λ acc i x, let '(acc, v, r) := f acc i x in (acc, v, _ ← r; Ok true)) acc.
End Amt.
