(* ===== verification/AmtMap.v ===== *)
(** * The array mapped trie implements a map

    A trie represents a finite map from indices to values: its leaves hold the
    entries, a missing link stands for a range of absent ones, and a link by
    CID for a sub node that the store holds under that CID.  Lookup, insertion
    and deletion are those of the map, caches included; the serialized form is
    a function of the map. *)

From stdpp Require Import strings.
From S2P Require Import Prelude Blockstore Amt.

(** Contents of a node: a partial function on indices. *)
Definition upd {V} (f : Z → option V) (i : Z) (x : option V) : Z → option V :=
  λ j, if bool_decide (j = i) then x else f j.

Section Width.
Context (bw : Z) (Hbw : 1 ≤ bw).

(** The number of indices below a node of height [h - 1]. *)
Definition span (h : nat) : Z := 2 ^ (bw * Z.of_nat h).
Definition width : nat := Z.to_nat (2 ^ bw).

(** The contents below the [k]-th link of a node of height [h]. *)
Definition sub {V} (f : Z → option V) (h k : nat) : Z → option V :=
  λ j, if bool_decide (0 ≤ j < span h) then f (Z.of_nat k * span h + j) else None.

Definition subP (D : Z → Prop) (h k : nat) : Z → Prop :=
  λ j, 0 ≤ j < span h ∧ D (Z.of_nat k * span h + j).

Lemma span_0 : span 0 = 1.
Proof. unfold span. by rewrite Z.mul_0_r. Qed.

Lemma span_pos h : 0 < span h.
Proof. unfold span. apply Z.pow_pos_nonneg; nia. Qed.

Lemma width_span : Z.of_nat width = 2 ^ bw.
Proof. unfold width. rewrite Z2Nat.id; [done|]. apply Z.pow_nonneg. lia. Qed.

Lemma span_S h : span (S h) = Z.of_nat width * span h.
Proof.
  rewrite width_span. unfold span. rewrite <-Z.pow_add_r by nia. f_equal. lia.
Qed.

Lemma span_ge (h : nat) : Z.of_nat h ≤ span h.
Proof.
  assert (H2 : 2 ^ 1 ≤ 2 ^ bw) by (apply Z.pow_le_mono_r; lia). rewrite <-width_span in H2.
  induction h as [|h IH]; [pose proof (span_pos 0); lia|].
  rewrite span_S. pose proof (span_pos h). nia.
Qed.

Lemma span_mono h h' : (h ≤ h')%nat → span h ≤ span h'.
Proof. intros. unfold span. apply Z.pow_le_mono_r; nia. Qed.

(** [nodes_for_height] saturates at [usize::MAX], which no index reaches. *)
Lemma nfh_cases h :
  (nodes_for_height bw h = span h ∧ span h < 2 ^ 64) ∨
  (nodes_for_height bw h = usize_max ∧ 2 ^ 64 ≤ span h).
Proof.
  unfold nodes_for_height, span. case_if.
  - right. split; [done|]. apply Z.pow_le_mono_r; lia.
  - left. rewrite Z.shiftl_mul_pow2, Z.mul_1_l by nia. split; [done|].
    apply Z.pow_lt_mono_r; nia.
Qed.

Lemma nfh_div h i : 0 ≤ i ≤ MAX_INDEX → i / nodes_for_height bw h = i / span h.
Proof.
  intros Hi. destruct (nfh_cases h) as [[-> _]|[-> Hs]]; [done|].
  unfold MAX_INDEX, usize_max in *. rewrite !Z.div_small; lia.
Qed.

Lemma nfh_mod h i : 0 ≤ i ≤ MAX_INDEX → i mod nodes_for_height bw h = i mod span h.
Proof.
  intros Hi. destruct (nfh_cases h) as [[-> _]|[-> Hs]]; [done|].
  unfold MAX_INDEX, usize_max in *. rewrite !Z.mod_small; lia.
Qed.

Lemma nfh_le h i : 0 ≤ i ≤ MAX_INDEX → (nodes_for_height bw h <=? i) = (span h <=? i).
Proof.
  intros Hi. destruct (nfh_cases h) as [[-> _]|[-> Hs]]; [done|].
  unfold MAX_INDEX, usize_max in *. apply bool_eq_iff. rewrite !Z.leb_le. lia.
Qed.

(** An index below a node of height [h], as the link and the index below it. *)
Lemma split_index h i :
  0 ≤ i < span (S h) →
  let k := Z.to_nat (i / span h) in
  (k < width)%nat ∧ 0 ≤ i mod span h < span h ∧ i = Z.of_nat k * span h + i mod span h
  ∧ i mod span h ≤ i.
Proof.
  intros Hi. pose proof (span_pos h) as Hp. rewrite span_S in Hi. cbn zeta.
  pose proof (Z.div_pos i (span h)). pose proof (Z.mod_pos_bound i (span h) Hp).
  pose proof (Z.div_mod i (span h)).
  assert (i / span h < Z.of_nat width) by (apply Z.div_lt_upper_bound; lia).
  pose proof (Z.mod_le i (span h)).
  rewrite Z2Nat.id by lia. split_and!; nia.
Qed.

Lemma index_inj h (k k' : nat) j j' :
  0 ≤ j < span h → 0 ≤ j' < span h →
  Z.of_nat k * span h + j = Z.of_nat k' * span h + j' → k = k' ∧ j = j'.
Proof. intros. assert (Z.of_nat k = Z.of_nat k') by nia. split; nia. Qed.

Section Contents.
Context {V : Type}.
Implicit Types (f g : Z → option V).

Lemma sub_ext f g h k : (∀ i, f i = g i) → ∀ j, sub f h k j = sub g h k j.
Proof. intros Hfg j. unfold sub. by case_bool_decide. Qed.

Lemma sub_bounds f h k j : is_Some (sub f h k j) → 0 ≤ j < span h.
Proof. unfold sub. case_bool_decide; [done|by intros []]. Qed.

Lemma sub_upd_eq f h k j x :
  0 ≤ j < span h →
  ∀ j', sub (upd f (Z.of_nat k * span h + j) x) h k j' = upd (sub f h k) j x j'.
Proof.
  intros Hj j'. unfold sub, upd. repeat case_bool_decide; try done; try lia.
Qed.

Lemma sub_upd_ne f h (k k' : nat) j x :
  0 ≤ j < span h → k ≠ k' →
  ∀ j', sub (upd f (Z.of_nat k * span h + j) x) h k' j' = sub f h k' j'.
Proof.
  intros Hj Hk j'. unfold sub, upd. repeat case_bool_decide; try done.
  destruct (index_inj h k' k j' j); [done..|congruence].
Qed.

Lemma sub_lookup f h i :
  0 ≤ i < span (S h) → sub f h (Z.to_nat (i / span h)) (i mod span h) = f i.
Proof.
  intros Hi. destruct (split_index h i Hi) as (_ & Hj & Heq & _). unfold sub.
  rewrite bool_decide_eq_true_2 by done. by rewrite <-Heq.
Qed.
End Contents.

(** ** Serialization of the entries of a node *)

Section CodecFacts.
Context {Cid : Type}.

Definition present {A} (o : option (option A)) : bool :=
  match o with Some (Some _) => true | _ => false end.

Lemma bmap_test_new n i : bmap_test i (bmap_new n) = false.
Proof.
  unfold bmap_test.
  assert (default 0 (bmap_new n !! (i / 8)%nat) = 0) as ->.
  { destruct (bmap_new n !! (i / 8)%nat) eqn:E; [|done].
    unfold bmap_new in E. by apply lookup_replicate in E as [-> _]. }
  by rewrite Z.land_0_l.
Qed.

Lemma bmap_test_set i j b :
  (i / 8 < length b)%nat →
  bmap_test j (bmap_set i b) = bool_decide (i = j) || bmap_test j b.
Proof.
  intros Hi. unfold bmap_test, bmap_set. rewrite !land_pow2 by lia.
  destruct (decide (i / 8 = j / 8)%nat) as [E|E].
  - rewrite E, list_lookup_alter_eq. rewrite E in Hi.
    destruct (lookup_lt_is_Some_2 _ _ Hi) as [x ->]. cbn [fmap option_fmap option_map default from_option id].
    rewrite Z.lor_spec, Z.shiftl_1_l, Z.pow2_bits_eqb by lia.
    pose proof (Nat.div_mod i 8 ltac:(lia)). pose proof (Nat.div_mod j 8 ltac:(lia)).
    destruct (Z.eqb_spec (Z.of_nat (i mod 8)) (Z.of_nat (j mod 8))) as [Em|Em].
    + rewrite bool_decide_eq_true_2 by lia. by rewrite orb_true_r.
    + rewrite bool_decide_eq_false_2 by (intros ->; lia). by rewrite orb_false_r.
  - rewrite list_lookup_alter_ne by done. rewrite bool_decide_eq_false_2; [done|]. by intros ->.
Qed.

Lemma bmap_set_length i b : length (bmap_set i b) = length b.
Proof. apply length_alter. Qed.

(** The entries of a node and what they are serialized as. *)
Definition packs {A B} (item : A → result (Error Cid) B) (vs : list (option A)) (os : list (option B)) : Prop :=
  Forall2 (λ v o, match v with None => o = None | Some a => ∃ b, item a = Ok b ∧ o = Some b end) vs os.

Lemma serialize_loop_packs {A B} (item : A → result (Error Cid) B) i vs bmap values r :
  serialize_loop item i vs bmap values = Ok r → ∃ os, packs item vs os.
Proof.
  revert i bmap values. induction vs as [|[a|] vs IH]; intros i bmap values; cbn.
  - intros _. exists []. constructor.
  - destruct (item a) as [b|] eqn:Ea; [|done]. intros (os & Hos)%IH.
    exists (Some b :: os). constructor; eauto.
  - intros (os & Hos)%IH. exists (None :: os). by constructor.
Qed.

Lemma serialize_loop_spec {A B} (item : A → result (Error Cid) B) i vs os bmap values :
  packs item vs os → ((i + length vs - 1) / 8 < length bmap)%nat →
  ∃ bmap', serialize_loop item i vs bmap values = Ok (bmap', values ++ omap id os)
    ∧ serialize_loop item i vs bmap values = serialize_loop Ok i os bmap values
    ∧ length bmap' = length bmap
    ∧ ∀ j, bmap_test j bmap' = bmap_test j bmap || (bool_decide (i ≤ j)%nat && present (os !! (j - i)%nat)).
Proof.
  intros Hp. revert i bmap values. induction Hp as [|v o vs os Hvo Hp IH]; intros i bmap values Hlen.
  - exists bmap. cbn. rewrite app_nil_r. split_and!; [done..|]. intros j. by rewrite andb_false_r, orb_false_r.
  - assert (Hi8 : (i / 8 < length bmap)%nat).
    { eapply Nat.le_lt_trans; [|exact Hlen]. apply Nat.Div0.div_le_mono. cbn [length]. lia. }
    assert (Hrest : ∀ b j, bool_decide (S i ≤ j)%nat && present (os !! (j - S i)%nat)
      || bool_decide (i = j) && present (Some b)
      = bool_decide (i ≤ j)%nat && present ((b :: os) !! (j - i)%nat)).
    { intros b j. destruct (decide (i = j)) as [->|Hij].
      - rewrite Nat.sub_diag, (bool_decide_eq_false_2 (S j ≤ j)%nat) by lia.
        by rewrite !bool_decide_eq_true_2 by lia.
      - rewrite (bool_decide_eq_false_2 (i = j)) by done. rewrite orb_false_r.
        destruct (decide (i ≤ j)%nat).
        + rewrite !bool_decide_eq_true_2 by lia. replace (j - i)%nat with (S (j - S i)) by lia. done.
        + rewrite !bool_decide_eq_false_2 by lia. done. }
    destruct v as [a|].
    + destruct Hvo as (b & Hab & ->). cbn [serialize_loop]. rewrite Hab. cbn [mbind result_bind].
      destruct (IH (S i) (bmap_set i bmap) (values ++ [b])) as (bmap' & H1 & H2 & H3 & H4).
      { rewrite bmap_set_length. cbn [length] in Hlen.
        by replace (S i + length vs - 1)%nat with (i + S (length vs) - 1)%nat by lia. }
      exists bmap'. split; [|split; [|split]].
      * rewrite H1. cbn. by rewrite <-app_assoc.
      * rewrite H2. done.
      * by rewrite H3, bmap_set_length.
      * intros j. rewrite H4, bmap_test_set by done. rewrite <-Hrest. cbn [present].
        rewrite andb_true_r. by destruct (bool_decide (i = j)), (bmap_test j bmap), (bool_decide (S i ≤ j)%nat && _).
    + subst o. cbn [serialize_loop].
      destruct (IH (S i) bmap values) as (bmap' & H1 & H2 & H3 & H4).
      { cbn [length] in Hlen. by replace (S i + length vs - 1)%nat with (i + S (length vs) - 1)%nat by lia. }
      exists bmap'. split_and!; [done|done|done|]. intros j. rewrite H4, <-Hrest. cbn [present].
      by rewrite andb_false_r, orb_false_r.
Qed.

Lemma expand_loop_spec {A B} (mk : A → B) bmap (os : list (option A)) i rest :
  (∀ j, (j < length os)%nat → bmap_test (i + j) bmap = present (os !! j)) →
  expand_loop (Cid:=Cid) mk bmap (length os) i (omap id os ++ rest) = Ok (option_map mk <$> os, rest).
Proof.
  revert i. induction os as [|o os IH]; intros i Hb; [done|]. cbn [expand_loop length].
  assert (Hi : bmap_test i bmap = present (Some o)).
  { rewrite <-(Nat.add_0_r i). apply (Hb 0%nat). cbn. lia. }
  assert (Hrest : ∀ j, (j < length os)%nat → bmap_test (S i + j) bmap = present (os !! j)).
  { intros j Hj. replace (S i + j)%nat with (i + S j)%nat by lia. apply (Hb (S j)). cbn. lia. }
  rewrite Hi. destruct o as [a|]; cbn; by rewrite IH.
Qed.

Lemma bmap_new_length : Z.of_nat (length (bmap_new width)) = bmap_bytes bw.
Proof.
  unfold bmap_new, bmap_bytes. rewrite length_replicate, Nat2Z.inj_add, Nat2Z.inj_div.
  pose proof width_span as Hw. assert (1 ≤ 2 ^ bw) by (apply (Z.pow_le_mono_r 2 0); lia).
  rewrite Nat2Z.inj_sub, Hw by lia. case_if.
  - assert (2 ^ bw ≤ 2 ^ 3) by (apply Z.pow_le_mono_r; lia).
    rewrite Z.div_small; cbn in *; lia.
  - rewrite Z.shiftl_1_l. replace bw with (bw - 3 + 3) at 1 by lia.
    rewrite Z.pow_add_r by lia. change (2 ^ 3) with 8.
    assert (1 ≤ 2 ^ (bw - 3)) by (apply (Z.pow_le_mono_r 2 0); lia).
    replace (2 ^ (bw - 3) * 8 - Z.of_nat 1) with (7 + (2 ^ (bw - 3) - 1) * 8) by lia.
    change (Z.of_nat 8) with 8. rewrite Z.div_add, Z.div_small by lia. lia.
Qed.

(** Serializing entries and expanding them. *)
Lemma expand_packs {A B A'} (item : A → result (Error Cid) B) (mk : B → A') vs os r :
  packs item vs os → length vs = width →
  serialize_loop item 0 vs (bmap_new (length vs)) [] = Ok r →
  r.2 = omap id os ∧ Z.of_nat (length r.1) = bmap_bytes bw ∧
  expand_items (Cid:=Cid) mk r.1 bw r.2 = Ok (option_map mk <$> os).
Proof.
  intros Hp Hw Hr. assert (Hlen : ((0 + length vs - 1) / 8 < length (bmap_new (length vs)))%nat).
  { unfold bmap_new. rewrite length_replicate. cbn [Nat.add]. lia. }
  destruct (serialize_loop_spec item 0 vs os _ [] Hp Hlen) as (bmap & H1 & _ & H3 & H4).
  rewrite H1 in Hr. injection Hr as <-. cbn [fst snd app]. split; [done|].
  split; [by rewrite H3, Hw, bmap_new_length|]. unfold expand_items.
  pose proof (Forall2_length _ _ _ Hp) as Hos.
  assert (Z.to_nat (Z.shiftl 1 bw) = length os) as ->.
  { rewrite <-Hos, Hw. unfold width. by rewrite Z.shiftl_1_l. }
  rewrite <-(app_nil_r (omap id os)), expand_loop_spec; [done|].
  intros j Hj. rewrite Nat.add_0_l, H4, bmap_test_new.
  by rewrite bool_decide_eq_true_2, Nat.sub_0_r by lia.
Qed.

(** What is serialized is determined by the packed entries. *)
Lemma serialize_loop_det {A B} (item : A → result (Error Cid) B) vs os :
  packs item vs os →
  serialize_loop item 0 vs (bmap_new (length vs)) [] = serialize_loop Ok 0 os (bmap_new (length os)) [].
Proof.
  intros Hp. pose proof (Forall2_length _ _ _ Hp) as Hos.
  assert (Hlen : ((0 + length vs - 1) / 8 < length (bmap_new (length vs)))%nat).
  { unfold bmap_new. rewrite length_replicate. cbn [Nat.add]. lia. }
  destruct (serialize_loop_spec item 0 vs os _ [] Hp Hlen) as (bmap & _ & H2 & _).
  by rewrite H2, Hos.
Qed.

Lemma packs_Ok {A} (vs : list (option A)) : packs Ok vs vs.
Proof. induction vs as [|[a|] vs IH]; constructor; eauto. Qed.
End CodecFacts.

(** ** Nodes and their contents *)

Section Rep.
Context {V Cid BS : Type} `{!BlockStore BS Cid, !CidOps Cid, !CidOk Cid, !BlockStoreOk BS Cid,
  !Cbor (CollapsedNode V Cid), !CborOk (CollapsedNode V Cid)}.
Implicit Types (n : Node V Cid) (f g : Z → option V) (s : BS).
Implicit Types (P : Node V Cid → (Z → option V) → Prop).

(** The store holds, under the CID, a node with the contents. *)
Definition stored s P (cid : Cid) g : Prop :=
  ∃ n c, P n g ∧ serialize_node n = Ok c ∧ expand c bw = Ok n ∧
    cid = new_from_cbor (to_vec c) ∧ holds s (to_vec c).

(** A link to the contents [g].  [P] relates nodes of the store to contents,
    [W] nodes in memory; the cache of a link may differ from the node stored
    under the CID at the indices [D]. *)
Definition link_rep s P (W : Node V Cid → (Z → option V) → Prop) (D : Z → Prop)
    (l : Link V Cid) g : Prop :=
  match l with
  | Dirty n => W n g
  | LinkCid cid None => stored s P cid g
  | LinkCid cid (Some n) => W n g ∧ ∃ g0, stored s P cid g0 ∧ ∀ j, ¬ D j → g0 j = g j
  end.

(** Links lead to entries. *)
Definition slot_rep s P W D (o : option (Link V Cid)) g : Prop :=
  match o with
  | None => ∀ j, g j = None
  | Some l => link_rep s P W D l g ∧ ∃ j, is_Some (g j)
  end.

Definition nowhere : Z → Prop := λ _, False.

(** The node, of height [h], has the contents [f], and caches that are up to
    date except at [D]. *)
Fixpoint node_rep s (h : nat) n f (D : Z → Prop) {struct h} : Prop :=
  match h, n with
  | O, NodeLeaf vals =>
      length vals = width ∧
      ∀ i, f i = if bool_decide (0 ≤ i) then mjoin (vals !! Z.to_nat i) else None
  | S h', NodeLink links =>
      length links = width ∧ (∀ i, is_Some (f i) → 0 ≤ i < span (S h)) ∧
      ∀ k, (k < width)%nat →
        slot_rep s (λ n g, node_rep s h' n g nowhere) (λ n g, node_rep s h' n g (subP D h k))
          (subP D h k) (mjoin (links !! k)) (sub f h k)
  | _, _ => False
  end.

Lemma stored_impl s s' P P' cid g g' :
  (∀ bz, holds s bz → holds s' bz) → (∀ n, P n g → P' n g') →
  stored s P cid g → stored s' P' cid g'.
Proof. intros Hs HP (n & c & ? & ? & ? & ? & ?). exists n, c. split_and!; eauto. Qed.

Lemma slot_impl s s' P P' W W' (D D' : Z → Prop) o g g' :
  (∀ bz, holds s bz → holds s' bz) → (∀ j, D j → D' j) → (∀ j, g j = g' j) →
  (∀ n g g', (∀ j, g j = g' j) → P n g → P' n g') → (∀ n, W n g → W' n g') →
  slot_rep s P W D o g → slot_rep s' P' W' D' o g'.
Proof.
  intros Hs HD Hg HP HW. destruct o as [l|]; cbn.
  - intros [Hl [j Hj]]. split; [|exists j; by rewrite <-Hg].
    destruct l as [cid [n|]|n]; cbn in *.
    + destruct Hl as [Hn (g0 & Hst & Hg0)]. split; [by apply HW|]. exists g0. split.
      * eapply stored_impl; [exact Hs| |exact Hst]. intros n'. by apply HP.
      * intros j' Hj'. rewrite <-Hg. apply Hg0. auto.
    + eapply stored_impl; [exact Hs| |exact Hl]. intros n. by apply HP.
    + by apply HW.
  - intros Hn j. by rewrite <-Hg.
Qed.

(** Changing the store, the contents up to extensionality, and the indices
    where caches may differ. *)
Lemma node_rep_impl s s' h n f g (D D' : Z → Prop) :
  (∀ bz, holds s bz → holds s' bz) → (∀ i, 0 ≤ i < span (S h) → D i → D' i) → (∀ i, f i = g i) →
  node_rep s h n f D → node_rep s' h n g D'.
Proof.
  intros Hs. revert n f g D D'.
  induction h as [|h IH]; intros [links|vals] f g D D' HD Hfg; cbn [node_rep]; try done.
  - intros [Hl Hv]. split; [done|]. intros i. by rewrite <-Hfg.
  - intros (Hl & Hb & Hk). split; [done|]. split; [intros i; rewrite <-Hfg; apply Hb|].
    intros k Hkw.
    assert (HDk : ∀ j, subP D (S h) k j → subP D' (S h) k j).
    { intros j [Hj HDj]. split; [done|]. apply HD; [|done]. rewrite (span_S (S h)). nia. }
    eapply slot_impl; [exact Hs|exact HDk|by apply sub_ext| | |by apply Hk].
    + intros n g1 g2 Hg. by apply IH.
    + intros n. apply IH; [|by apply sub_ext]. intros j _. apply HDk.
Qed.

Lemma node_rep_mono s s' h n f D :
  (∀ bz, holds s bz → holds s' bz) → node_rep s h n f D → node_rep s' h n f D.
Proof. intros Hs. by apply node_rep_impl. Qed.

Lemma node_rep_ext s h n f g D : (∀ i, f i = g i) → node_rep s h n f D → node_rep s h n g D.
Proof. intros Hs. by apply node_rep_impl. Qed.

Lemma node_rep_weaken s h n f (D D' : Z → Prop) :
  (∀ i, 0 ≤ i < span (S h) → D i → D' i) → node_rep s h n f D → node_rep s h n f D'.
Proof. intros Hs. by apply node_rep_impl. Qed.

Lemma node_rep_bounds s h n f D i : node_rep s h n f D → is_Some (f i) → 0 ≤ i < span (S h).
Proof.
  destruct h as [|h], n as [links|vals]; cbn; try done; [|naive_solver].
  intros [Hl Hv]. rewrite Hv. case_bool_decide; [|by intros []].
  intros [v Hi]. rewrite span_S, span_0, <-Hl. split; [done|].
  destruct (vals !! Z.to_nat i) as [o|] eqn:E; [|done].
  apply lookup_lt_Some in E. lia.
Qed.

Lemma stored_load s P cid g :
  stored s P cid g → ∃ n, load_node s bw cid = Ok n ∧ P n g.
Proof.
  intros (n & c & Hn & _ & He & -> & Hh). exists n. split; [|done].
  unfold load_node. rewrite get_holds by done. done.
Qed.

(** The node a link by CID leads to. *)
Lemma cached_node_load s h D cid cache g :
  link_rep s (λ n g, node_rep s h n g nowhere) (λ n g, node_rep s h n g D) D (LinkCid cid cache) g →
  ∃ n, cached_node s bw cid cache = Ok n ∧ node_rep s h n g D ∧
    ∃ g0, stored s (λ n g, node_rep s h n g nowhere) cid g0 ∧ ∀ j, ¬ D j → g0 j = g j.
Proof.
  destruct cache as [n|]; cbn.
  - intros [Hn Hst]. exists n. auto.
  - intros Hst. destruct (stored_load _ _ _ _ Hst) as (n & Hload & Hn). exists n.
    split; [done|]. split; [by eapply node_rep_weaken; [|exact Hn]|]. eauto.
Qed.

(** The link keeps a node with the same contents as its cache. *)
Lemma cached_node_ok s h D cid cache g :
  link_rep s (λ n g, node_rep s h n g nowhere) (λ n g, node_rep s h n g D) D (LinkCid cid cache) g →
  ∃ n, cached_node s bw cid cache = Ok n ∧ node_rep s h n g D ∧
    ∀ n', node_rep s h n' g D →
      link_rep s (λ n g, node_rep s h n g nowhere) (λ n g, node_rep s h n g D) D
        (LinkCid cid (Some n')) g.
Proof. intros (n & ? & ? & ?)%cached_node_load. exists n. cbn. eauto. Qed.

(** Replacing one link of a node. *)
Lemma set_slot s h links f f' (D D' : Z → Prop) (k : nat) o :
  node_rep s (S h) (NodeLink links) f D → (k < width)%nat →
  (∀ i, is_Some (f' i) → 0 ≤ i < span (S (S h))) →
  slot_rep s (λ n g, node_rep s h n g nowhere) (λ n g, node_rep s h n g (subP D' (S h) k))
    (subP D' (S h) k) o (sub f' (S h) k) →
  (∀ k' j, k' ≠ k → sub f' (S h) k' j = sub f (S h) k' j) →
  (∀ k' j, k' ≠ k → subP D (S h) k' j → subP D' (S h) k' j) →
  node_rep s (S h) (NodeLink (<[k := o]> links)) f' D'.
Proof.
  intros (Hl & Hb & Hk) Hkw Hb' Ho Hne HneD. cbn [node_rep].
  split; [by rewrite length_insert|]. split; [done|].
  intros k' Hkw'. destruct (decide (k' = k)) as [->|Hkk].
  - by rewrite list_lookup_insert_eq by lia.
  - rewrite list_lookup_insert_ne by done.
    eapply slot_impl; [done|by intros j; apply HneD|intros j; symmetry; by apply Hne| | |by apply Hk].
    + intros n g g' Hg. by apply node_rep_ext.
    + intros n. apply node_rep_impl; [done|intros j _; by apply HneD|].
      intros j. symmetry. by apply Hne.
Qed.

Lemma mjoin_lookup {A} (l : list (option A)) i x :
  mjoin (l !! i) = Some x ↔ l !! i = Some (Some x).
Proof. destruct (l !! i) as [[y|]|]; cbn; naive_solver. Qed.

(** *** Lookup *)

Lemma node_get_spec s h n f D i :
  node_rep s h n f D → 0 ≤ i < span (S h) → i ≤ MAX_INDEX →
  ∃ n', node_get s h bw n i = (n', Ok (f i)) ∧ node_rep s h n' f D.
Proof.
  revert n f D i. induction h as [|h IH]; intros [links|vals] f D i; try by cbn.
  { cbn [node_rep]. intros [Hl Hv] Hi _. exists (NodeLeaf vals). cbn. split; [|done].
    rewrite Hv, bool_decide_eq_true_2 by lia. done. }
  intros Hrep Hi Hmax. pose proof Hrep as (Hl & Hb & Hk).
  destruct (split_index (S h) i Hi) as (Hkw & Hj & Heq & Hle).
  pose proof (sub_lookup f (S h) i Hi) as Hsub.
  cbn [node_get]. rewrite nfh_div, nfh_mod by lia.
  set (k := Z.to_nat (i / span (S h))) in *. set (j := i mod span (S h)) in *.
  pose proof (Hk k Hkw) as Hslot.
  destruct (mjoin (links !! k)) as [[cid cache|n]|] eqn:Ek; cbn [slot_rep] in Hslot.
  - destruct Hslot as [Hlink Hne]. apply cached_node_ok in Hlink as (n & -> & Hn & Hlink).
    destruct (IH n _ _ j Hn Hj ltac:(lia)) as (n' & -> & Hn'). rewrite Hsub.
    eexists. split; [done|]. apply (set_slot s h links f f D D k); [done|done|done| |done|done].
    split; [|done]. by apply Hlink.
  - destruct Hslot as [Hn Hne]. destruct (IH n _ _ j Hn Hj ltac:(lia)) as (n' & -> & Hn').
    rewrite Hsub. eexists. split; [done|]. by apply (set_slot s h links f f D D k).
  - eexists. split; [|done]. by rewrite <-Hsub, Hslot.
Qed.

(** *** Insertion *)

Lemma init_sized_vec_lookup {A} (i : nat) : mjoin (@init_sized_vec A bw !! i) = None.
Proof.
  unfold init_sized_vec. destruct (replicate _ _ !! i) as [o|] eqn:E; [|done].
  apply lookup_replicate in E as [-> _]. done.
Qed.

Lemma init_sized_vec_length {A} : length (@init_sized_vec A bw) = width.
Proof.
  unfold init_sized_vec, width. rewrite length_replicate, Z.shiftl_mul_pow2 by lia.
  by rewrite Z.mul_1_l.
Qed.

Lemma empty_leaf_rep s D : node_rep s 0 (NodeLeaf (init_sized_vec bw)) (λ _, None) D.
Proof.
  cbn. split; [apply init_sized_vec_length|]. intros i. case_bool_decide; [|done].
  by rewrite init_sized_vec_lookup.
Qed.

Lemma empty_link_rep s h D : node_rep s (S h) (NodeLink (init_sized_vec bw)) (λ _, None) D.
Proof.
  cbn [node_rep]. split; [apply init_sized_vec_length|]. split; [by intros ? []|].
  intros k _. rewrite init_sized_vec_lookup. intros j. unfold sub. by case_bool_decide.
Qed.

Lemma new_node_rep s h D : node_rep s h (new_node bw (S h)) (λ _, None) D.
Proof. destruct h; [apply empty_leaf_rep|apply empty_link_rep]. Qed.

Lemma leaf_update s vals f D D' i x :
  node_rep s 0 (NodeLeaf vals) f D → 0 ≤ i < span 1 →
  node_rep s 0 (NodeLeaf (<[Z.to_nat i := x]> vals)) (upd f i x) D'
  ∧ vals !! Z.to_nat i = Some (f i).
Proof.
  cbn. intros [Hl Hv] Hi. rewrite span_S, span_0, <-Hl in Hi.
  assert (Hlt : (Z.to_nat i < length vals)%nat) by lia. split; [split|].
  - by rewrite length_insert.
  - intros j. unfold upd. case_bool_decide as E.
    + subst. rewrite bool_decide_eq_true_2 by lia. by rewrite list_lookup_insert_eq.
    + rewrite Hv. case_bool_decide; [|done]. rewrite list_lookup_insert_ne by lia. done.
  - rewrite Hv, bool_decide_eq_true_2 by lia.
    destruct (lookup_lt_is_Some_2 vals _ Hlt) as [o ->]. by destruct o.
Qed.

Lemma sub_None h k j : sub (λ _, @None V) h k j = None.
Proof. unfold sub. by case_bool_decide. Qed.

Lemma upd_bounds f i x h :
  (∀ j, is_Some (f j) → 0 ≤ j < span h) → 0 ≤ i < span h →
  ∀ j, is_Some (upd f i x j) → 0 ≤ j < span h.
Proof. intros Hf Hi j. unfold upd. case_bool_decide; [by subst|apply Hf]. Qed.

(** Updating the contents below one link. *)
Lemma update_slot s h links f (D D' : Z → Prop) i x o :
  let k := Z.to_nat (i / span (S h)) in
  node_rep s (S h) (NodeLink links) f D → 0 ≤ i < span (S (S h)) →
  (∀ j, D j → j ≠ i → D' j) →
  slot_rep s (λ n g, node_rep s h n g nowhere) (λ n g, node_rep s h n g (subP D' (S h) k))
    (subP D' (S h) k) o (upd (sub f (S h) k) (i mod span (S h)) x) →
  node_rep s (S h) (set_link links (i / span (S h)) o) (upd f i x) D'.
Proof.
  intros k Hrep Hi HD Ho. pose proof Hrep as (_ & Hb & _).
  destruct (split_index (S h) i Hi) as (Hkw & Hj & Heq & Hle). fold k in Hkw, Heq.
  assert (Hupd : ∀ j, upd f (Z.of_nat k * span (S h) + i mod span (S h)) x j = upd f i x j)
    by (intros j; by rewrite <-Heq).
  assert (Hsub : ∀ j, upd (sub f (S h) k) (i mod span (S h)) x j = sub (upd f i x) (S h) k j).
  { intros j. rewrite <-(sub_upd_eq f (S h) k _ x Hj j). by apply sub_ext. }
  unfold set_link. fold k. eapply (set_slot s h links f _ D); [exact Hrep|exact Hkw| | | |].
  - by apply upd_bounds.
  - eapply slot_impl; [done|done|exact Hsub| | |exact Ho].
    + intros n g g' Hg. by apply node_rep_ext.
    + intros n. by apply node_rep_ext.
  - intros k' j Hk'. rewrite <-(sub_upd_ne f (S h) k k' _ x Hj ltac:(congruence) j).
    by apply sub_ext.
  - intros k' j Hk' [Hj1 Hj2]. split; [done|]. apply HD; [done|]. intros Hji.
    destruct (index_inj (S h) k' k j (i mod span (S h))); [done|done|lia|done].
Qed.

Lemma node_set_spec s h n f D i v :
  node_rep s h n f D → 0 ≤ i < span (S h) → i ≤ MAX_INDEX →
  ∃ n', node_set s h bw n i v = (n', Ok (f i))
        ∧ node_rep s h n' (upd f i (Some v)) (λ j, D j ∧ j ≠ i).
Proof.
  revert n f D i. induction h as [|h IH]; intros [links|vals] f D i; try by cbn.
  { intros Hrep Hi _. destruct (leaf_update s vals f D (λ j, D j ∧ j ≠ i) i (Some v) Hrep Hi) as [Hrep' Hlk].
    cbn [node_set]. unfold set_leaf. rewrite Hlk. eauto. }
  intros Hrep Hi Hmax. pose proof Hrep as (Hl & Hb & Hk).
  destruct (split_index (S h) i Hi) as (Hkw & Hj & Heq & Hle).
  pose proof (sub_lookup f (S h) i Hi) as Hsub.
  cbn [node_set]. rewrite nfh_div, nfh_mod by lia.
  set (k := Z.to_nat (i / span (S h))) in *. set (j := i mod span (S h)) in *.
  assert (Hset : ∀ n, node_rep s h n (sub f (S h) k) (subP D (S h) k) →
    ∃ n', (let '(sub, r) := node_set s h bw n j v in (set_link links (i / span (S h)) (Some (Dirty sub)), r))
          = (n', Ok (f i)) ∧ node_rep s (S h) n' (upd f i (Some v)) (λ j, D j ∧ j ≠ i)).
  { intros n Hn. destruct (IH n _ _ j Hn Hj ltac:(lia)) as (n' & -> & Hn'). rewrite Hsub.
    eexists. split; [done|]. apply (update_slot s h links f D); [done..|]. fold k j. split.
    - eapply node_rep_weaken; [|exact Hn']. intros j' _ [[H1 H2] H3]. split; [done|]. split; [done|].
      intros H4. destruct (index_inj (S h) k k j' j); [done|done|lia|done].
    - exists j. unfold upd. by rewrite bool_decide_eq_true_2. }
  pose proof (Hk k Hkw) as Hslot. destruct (lookup_lt_is_Some_2 links k ltac:(lia)) as [o Ho].
  rewrite Ho in *. destruct o as [[cid cache|n]|]; cbn [mjoin option_join slot_rep] in Hslot.
  - destruct Hslot as [Hlink _]. apply cached_node_ok in Hlink as (n & -> & Hn & _).
    by apply Hset.
  - apply Hset, Hslot.
  - apply Hset. eapply node_rep_ext; [|apply new_node_rep]. by intros j'.
Qed.

(** *** Deletion *)

Lemma all_none_spec {A} (l : list (option A)) :
  all_none l = true ↔ ∀ i, mjoin (l !! i) = None.
Proof.
  unfold all_none. rewrite forallb_forall. split.
  - intros Hl i. destruct (l !! i) as [o|] eqn:E; [|done].
    apply list_elem_of_lookup_2, list_elem_of_In, Hl in E. by destruct o.
  - intros Hl o Ho. apply list_elem_of_In, list_elem_of_lookup_1 in Ho as [i Hi].
    specialize (Hl i). rewrite Hi in Hl. by destruct o.
Qed.

Lemma all_none_false {A} (l : list (option A)) :
  all_none l = false → ∃ i x, l !! i = Some (Some x).
Proof.
  induction l as [|[x|] l IH]; cbn; [done|by exists 0%nat, x|].
  intros (i & x & Hi)%IH. by exists (S i), x.
Qed.

Lemma node_is_empty_spec s h n f D : node_rep s h n f D → is_empty n = true ↔ ∀ i, f i = None.
Proof.
  destruct h as [|h], n as [links|vals]; try by cbn.
  - intros [Hl Hv]. cbn [is_empty]. rewrite all_none_spec. split.
    + intros Hn i. rewrite Hv. by case_bool_decide.
    + intros Hn i. specialize (Hv (Z.of_nat i)). rewrite Hn, bool_decide_eq_true_2 in Hv by lia.
      by rewrite Nat2Z.id in Hv.
  - intros (Hl & Hb & Hk). cbn [is_empty]. rewrite all_none_spec. split.
    + intros Hn i. apply eq_None_not_Some. intros Hi. pose proof (Hb i Hi) as Hi'.
      destruct (split_index (S h) i Hi') as (Hkw & _).
      specialize (Hk _ Hkw). rewrite Hn in Hk. cbn in Hk.
      rewrite <-(sub_lookup f (S h) i Hi'), Hk in Hi. by destruct Hi.
    + intros Hn i. destruct (decide (i < width)%nat) as [Hi|Hi].
      * specialize (Hk i Hi). destruct (mjoin (links !! i)) as [l|]; [|done].
        destruct Hk as [_ [j Hj]]. rewrite (sub_ext f (λ _, None)) in Hj by done.
        rewrite sub_None in Hj. by destruct Hj.
      * by rewrite lookup_ge_None_2 by lia.
Qed.

Lemma is_empty_false s h n f D : node_rep s h n f D → is_empty n = false → ∃ i, is_Some (f i).
Proof.
  destruct h as [|h], n as [links|vals]; try by cbn.
  - intros [Hl Hv] (i & x & Hi)%all_none_false. exists (Z.of_nat i).
    rewrite Hv, bool_decide_eq_true_2, Nat2Z.id, Hi by lia. by eexists.
  - intros (Hl & Hb & Hk) (i & x & Hi)%all_none_false.
    specialize (Hk i). rewrite Hi in Hk.
    destruct Hk as [_ [j Hj]]; [rewrite <-Hl; by eapply lookup_lt_Some|].
    unfold sub in Hj. case_bool_decide; [by eexists|by destruct Hj].
Qed.

Lemma upd_None f i : f i = None → ∀ j, f j = upd f i None j.
Proof. intros Hi j. unfold upd. case_bool_decide; [by subst|done]. Qed.

(** What [delete] does with the link, given the deletion in the sub node. *)
Lemma delete_slot s h links f D i (unchanged : Node V Cid → Link V Cid) n' :
  let k := Z.to_nat (i / span (S h)) in
  node_rep s (S h) (NodeLink links) f D → 0 ≤ i < span (S (S h)) →
  (∃ j, is_Some (sub f (S h) k j)) →
  node_rep s h n' (upd (sub f (S h) k) (i mod span (S h)) None) (subP D (S h) k) →
  (∀ n', node_rep s h n' (sub f (S h) k) (subP D (S h) k) →
    link_rep s (λ n g, node_rep s h n g nowhere) (λ n g, node_rep s h n g (subP D (S h) k))
      (subP D (S h) k) (unchanged n') (sub f (S h) k)) →
  node_rep s (S h)
    (set_link links (i / span (S h))
       (match f i with
        | Some _ => if is_empty n' then None else Some (Dirty n')
        | None => Some (unchanged n')
        end)) (upd f i None) D.
Proof.
  intros k Hrep Hi Hsome Hn' Hun. pose proof (sub_lookup f (S h) i Hi) as Hsub.
  fold k in Hsub. apply (update_slot s h links f D); [done..|]. fold k.
  destruct (f i) as [v|] eqn:Ei.
  - destruct (is_empty n') eqn:Ee.
    + exact (proj1 (node_is_empty_spec _ _ _ _ _ Hn') Ee).
    + split; [done|]. by apply (is_empty_false _ _ _ _ _ Hn').
  - pose proof (upd_None _ _ Hsub) as Heq.
    assert (Hn : node_rep s h n' (sub f (S h) k) (subP D (S h) k)).
    { eapply node_rep_ext; [|exact Hn']. intros j. symmetry. apply Heq. }
    eapply slot_impl; [done|done|exact Heq| | |exact (conj (Hun _ Hn) Hsome)].
    + intros n g g' Hg. by apply node_rep_ext.
    + intros n. by apply node_rep_ext.
Qed.

Lemma node_delete_spec s h n f D i :
  node_rep s h n f D → 0 ≤ i < span (S h) → i ≤ MAX_INDEX →
  ∃ n', node_delete s h bw n i = (n', Ok (f i)) ∧ node_rep s h n' (upd f i None) D.
Proof.
  revert n f D i. induction h as [|h IH]; intros [links|vals] f D i; try by cbn.
  { intros Hrep Hi _. destruct (leaf_update s vals f D D i None Hrep Hi) as [Hrep' Hlk].
    cbn [node_delete]. rewrite Hlk. eauto. }
  intros Hrep Hi Hmax. pose proof Hrep as (Hl & Hb & Hk).
  destruct (split_index (S h) i Hi) as (Hkw & Hj & Heq & Hle).
  pose proof (sub_lookup f (S h) i Hi) as Hsub.
  cbn [node_delete]. rewrite nfh_div, nfh_mod by lia.
  pose proof (Hk _ Hkw) as Hslot.
  destruct (lookup_lt_is_Some_2 links (Z.to_nat (i / span (S h))) ltac:(lia)) as [o Ho].
  rewrite Ho in *. destruct o as [[cid cache|n]|]; cbn [mjoin option_join slot_rep] in Hslot.
  - destruct Hslot as [Hlink Hsome]. apply cached_node_ok in Hlink as (n & -> & Hn & Hlink).
    destruct (IH n _ _ _ Hn Hj ltac:(lia)) as (n' & -> & Hn'). rewrite Hsub.
    pose proof (delete_slot s h links f D i (λ sub, LinkCid cid (Some sub)) n' Hrep Hi Hsome Hn' Hlink).
    destruct (f i); eauto.
  - destruct Hslot as [Hn Hsome]. destruct (IH n _ _ _ Hn Hj ltac:(lia)) as (n' & -> & Hn').
    rewrite Hsub.
    pose proof (delete_slot s h links f D i Dirty n' Hrep Hi Hsome Hn' ltac:(done)).
    destruct (f i); eauto.
  - exists (NodeLink links). rewrite <-Hsub, Hslot. split; [done|].
    eapply node_rep_ext; [|exact Hrep]. apply upd_None. by rewrite <-Hsub.
Qed.

(** *** Serialized nodes *)

(** Nodes whose caches are up to date everywhere. *)
Definition clean s h n f : Prop := node_rep s h n f nowhere.

Lemma clean_link s h links f :
  clean s (S h) (NodeLink links) f ↔
  length links = width ∧ (∀ i, is_Some (f i) → 0 ≤ i < span (S (S h))) ∧
  ∀ k, (k < width)%nat →
    slot_rep s (clean s h) (clean s h) nowhere (mjoin (links !! k)) (sub f (S h) k).
Proof.
  unfold clean at 1. cbn [node_rep]. repeat apply and_iff_compat_l. apply forall_proper. intros k.
  assert (HD : ∀ j, subP nowhere (S h) k j → nowhere j) by (by intros j [_ []]).
  split; intros Hk Hkw.
  - eapply slot_impl; [done|exact HD|done| | |by apply Hk].
    + intros n g g' Hg. by apply node_rep_ext.
    + intros n. apply node_rep_weaken. intros j _. apply HD.
  - assert (HD' : ∀ j, nowhere j → subP nowhere (S h) k j) by (intros j Hj; destruct Hj).
    eapply slot_impl; [done|exact HD'|done| | |by apply Hk].
    + intros n g g' Hg. by apply node_rep_ext.
    + intros n. by apply node_rep_weaken.
Qed.

(** A link by CID of a clean node leads to the contents in the store. *)
Lemma clean_stored s h cid cache g :
  link_rep s (clean s h) (clean s h) nowhere (LinkCid cid cache) g → stored s (clean s h) cid g.
Proof.
  destruct cache as [n|]; cbn; [|done]. intros [_ (g0 & Hst & Hg)].
  eapply stored_impl; [done| |exact Hst]. intros n'. apply node_rep_ext. intros j. apply Hg; by intros [].
Qed.

Lemma clean_slot_mono s s' h o g :
  (∀ bz, holds s bz → holds s' bz) →
  slot_rep s (clean s h) (clean s h) nowhere o g →
  slot_rep s' (clean s' h) (clean s' h) nowhere o g.
Proof.
  intros Hs. apply slot_impl; [done..| |].
  - intros n g1 g2 Hg. by apply node_rep_impl.
  - intros n. by apply node_rep_mono.
Qed.

Lemma packs_cids links os :
  packs (link_cid (V:=V) (Cid:=Cid)) links os →
  ∀ k, match os !! k with
       | Some (Some cid) => ∃ cache, links !! k = Some (Some (LinkCid cid cache))
       | Some None => links !! k = Some None
       | None => links !! k = None
       end.
Proof.
  intros Hp k.
  destruct (os !! k) as [o|] eqn:Eo.
  - destruct (Forall2_lookup_r _ _ _ _ _ Hp Eo) as (v & Hv & Hvo).
    destruct v as [[cid cache|n]|]; cbn in Hvo.
    + destruct Hvo as (b & [= <-] & ->). eauto.
    + by destruct Hvo as (b & ? & _).
    + by subst.
  - apply lookup_ge_None in Eo. apply lookup_ge_None_2.
    by rewrite (Forall2_length _ _ _ Hp).
Qed.

(** Expanding a serialized node: the same contents, the same serialization. *)
Lemma expand_serialized s h n f c :
  clean s h n f → serialize_node n = Ok c → (h = 0%nat ∨ ∃ i, is_Some (f i)) →
  ∃ n0, expand c bw = Ok n0 ∧ clean s h n0 f ∧ serialize_node n0 = Ok c.
Proof.
  destruct h as [|h], n as [links|vals]; try by cbn.
  - intros Hrep Hser _. pose proof Hrep as [Hl _]. exists (NodeLeaf vals).
    split; [|done]. unfold serialize_node in Hser.
    destruct (serialize_loop Ok 0 vals _ []) as [r|] eqn:Er; [|done]. cbn in Hser.
    destruct (expand_packs Ok id _ _ _ (packs_Ok vals) Hl Er) as (H1 & H2 & H3).
    destruct r as [bmap ys]. injection Hser as <-. cbn in *.
    rewrite H2, Z.eqb_refl. cbn. rewrite H3. cbn. f_equal. f_equal.
    clear. induction vals as [|[v|] vals IH]; cbn; by rewrite ?IH.
  - intros Hrep Hser [?|[i Hi]]; [done|]. pose proof (proj1 (clean_link _ _ _ _) Hrep) as (Hl & Hb & Hk).
    unfold serialize_node in Hser.
    destruct (serialize_loop link_cid 0 links _ []) as [r|] eqn:Er; [|done]. cbn in Hser.
    destruct (serialize_loop_packs _ _ _ _ _ _ Er) as [os Hos].
    destruct (expand_packs link_cid (λ cid, LinkCid (V:=V) cid None) _ _ _ Hos Hl Er) as (H1 & H2 & H3).
    pose proof (packs_cids _ _ Hos) as Hcids.
    destruct r as [bmap ys]. injection Hser as <-. cbn [fst snd] in *.
    exists (NodeLink (option_map (λ cid, LinkCid cid None) <$> os)).
    assert (Hne : ys ≠ []).
    { pose proof (Hb i Hi) as Hi'. destruct (split_index (S h) i Hi') as (Hkw & _).
      pose proof (Hk _ Hkw) as Hslot. specialize (Hcids (Z.to_nat (i / span (S h)))).
      destruct (os !! _) as [[cid|]|] eqn:Eos.
      { assert (cid ∈ omap id os) as Hin; [|rewrite <-H1 in Hin; intros ->; by apply not_elem_of_nil in Hin].
        apply list_elem_of_omap. exists (Some cid). split; [|done]. by eapply list_elem_of_lookup_2. }
      all: rewrite Hcids in Hslot; cbn [mjoin option_join slot_rep] in Hslot;
        rewrite <-(sub_lookup f (S h) i Hi'), Hslot in Hi; by destruct Hi. }
    destruct ys as [|y ys]; [done|]. split.
    { unfold expand. rewrite H2, Z.eqb_refl. cbn [negb]. by rewrite H3. }
    assert (Hos' : packs link_cid (option_map (λ cid, LinkCid (V:=V) cid None) <$> os) os).
    { clear. induction os as [|[cid|] os IH]; [by constructor| |]; (constructor; [by cbn; eauto|exact IH]). }
    split.
    + pose proof (Forall2_length _ _ _ Hos) as Hlo.
      apply clean_link. split; [rewrite length_fmap; congruence|]. split; [done|].
      intros k Hkw. specialize (Hk k Hkw). specialize (Hcids k). rewrite list_lookup_fmap.
      destruct (os !! k) as [[cid|]|]; cbn.
      * destruct Hcids as [cache Hc]. rewrite Hc in Hk. destruct Hk as [Hst Hsome].
        split; [|done]. by eapply clean_stored.
      * by rewrite Hcids in Hk.
      * by rewrite Hcids in Hk.
    + unfold serialize_node. rewrite (serialize_loop_det _ _ _ Hos'), <-(serialize_loop_det _ _ _ Hos).
      by rewrite Er.
Qed.

(** *** The serialization is a function of the contents *)

Lemma serialize_canonical s s' h n n' f c c' :
  clean s h n f → clean s' h n' f →
  serialize_node n = Ok c → serialize_node n' = Ok c' → c = c'.
Proof.
  revert n n' f c c'. induction h as [|h IH]; intros n n' f c c' Hn Hn' Hc Hc'.
  - destruct n as [|vals], n' as [|vals']; try by (cbn in Hn; destruct Hn); try by (cbn in Hn'; destruct Hn').
    destruct Hn as [Hl Hv], Hn' as [Hl' Hv']. assert (vals = vals') as ->; [|congruence].
    apply list_eq. intros i. specialize (Hv (Z.of_nat i)). specialize (Hv' (Z.of_nat i)).
    rewrite bool_decide_eq_true_2, Nat2Z.id in Hv, Hv' by lia.
    destruct (decide (i < width)%nat) as [Hi|Hi]; [|by rewrite !lookup_ge_None_2 by lia].
    destruct (lookup_lt_is_Some_2 vals i ltac:(lia)) as [x Hx].
    destruct (lookup_lt_is_Some_2 vals' i ltac:(lia)) as [x' Hx'].
    rewrite Hx in Hv |- *. rewrite Hx' in Hv' |- *. cbn in *. congruence.
  - destruct n as [links|], n' as [links'|]; try by (cbn in Hn; destruct Hn); try by (cbn in Hn'; destruct Hn').
    apply clean_link in Hn as (Hl & _ & Hk). apply clean_link in Hn' as (Hl' & _ & Hk').
    unfold serialize_node in Hc, Hc'.
    destruct (serialize_loop link_cid 0 links _ []) as [r|] eqn:Er; [|done].
    destruct (serialize_loop link_cid 0 links' _ []) as [r'|] eqn:Er'; [|done].
    destruct (serialize_loop_packs _ _ _ _ _ _ Er) as [os Hos].
    destruct (serialize_loop_packs _ _ _ _ _ _ Er') as [os' Hos'].
    rewrite (serialize_loop_det _ _ _ Hos) in Er. rewrite (serialize_loop_det _ _ _ Hos') in Er'.
    assert (os = os') as ->; [|congruence]. apply list_eq. intros k.
    pose proof (packs_cids _ _ Hos k) as Hck. pose proof (packs_cids _ _ Hos' k) as Hck'.
    pose proof (Forall2_length _ _ _ Hos). pose proof (Forall2_length _ _ _ Hos').
    destruct (decide (k < width)%nat) as [Hi|Hi]; [|by rewrite !lookup_ge_None_2 by lia].
    specialize (Hk k Hi). specialize (Hk' k Hi).
    destruct (lookup_lt_is_Some_2 os k ltac:(lia)) as [o Ho].
    destruct (lookup_lt_is_Some_2 os' k ltac:(lia)) as [o' Ho'].
    rewrite Ho in Hck |- *. rewrite Ho' in Hck' |- *. f_equal.
    destruct o as [cid|], o' as [cid'|]; [| | |done].
    + destruct Hck as [ca Hck], Hck' as [ca' Hck']. rewrite Hck in Hk. rewrite Hck' in Hk'.
      destruct Hk as [(n0 & c0 & Hn0 & Hs0 & _ & -> & _)%clean_stored _].
      destruct Hk' as [(n1 & c1 & Hn1 & Hs1 & _ & -> & _)%clean_stored _].
      by rewrite (IH _ _ _ _ _ Hn0 Hn1 Hs0 Hs1).
    + destruct Hck as [ca Hck]. rewrite Hck in Hk. rewrite Hck' in Hk'. cbn in Hk'.
      destruct Hk as [_ [j Hj]]. rewrite Hk' in Hj. by destruct Hj.
    + destruct Hck' as [ca' Hck']. rewrite Hck in Hk. rewrite Hck' in Hk'. cbn in Hk.
      destruct Hk' as [_ [j Hj]]. rewrite Hk in Hj. by destruct Hj.
Qed.

(** *** Flushing *)

Lemma flush_links_spec h :
  (∀ s n f, clean s h n f →
    ∃ s' n' c, node_flush s n = (s', n', Ok tt) ∧ (∀ bz, holds s bz → holds s' bz)
      ∧ clean s' h n' f ∧ serialize_node n' = Ok c) →
  ∀ links s (gs : nat → Z → option V),
  (∀ k, (k < length links)%nat → slot_rep s (clean s h) (clean s h) nowhere (mjoin (links !! k)) (gs k)) →
  ∃ s' links', flush_links node_flush s links = (s', links', Ok tt)
    ∧ (∀ bz, holds s bz → holds s' bz) ∧ length links' = length links
    ∧ (∀ k, (k < length links)%nat → slot_rep s' (clean s' h) (clean s' h) nowhere (mjoin (links' !! k)) (gs k))
    ∧ ∃ os, packs link_cid links' os.
Proof.
  intros IHn links. induction links as [|o links IH]; intros s gs Hk.
  { exists s, []. cbn. split_and!; [done|done|done|intros; lia|]. exists []. constructor. }
  assert (Hrest : ∀ s1, (∀ bz, holds s bz → holds s1 bz) →
    ∀ k, (k < length links)%nat → slot_rep s1 (clean s1 h) (clean s1 h) nowhere (mjoin (links !! k)) (gs (S k))).
  { intros s1 Hs1 k Hlt. specialize (Hk (S k) ltac:(cbn; lia)). cbn in Hk.
    by eapply clean_slot_mono. }
  pose proof (Hk 0%nat ltac:(cbn; lia)) as H0. cbn in H0.
  (* the links after the first one, from a store that extends [s] *)
  assert (Htail : ∀ s1 o', (∀ bz, holds s bz → holds s1 bz) →
    slot_rep s1 (clean s1 h) (clean s1 h) nowhere o' (gs 0%nat) →
    (o' = None ∨ ∃ cid cache, o' = Some (LinkCid cid cache)) →
    ∃ s' links', flush_links node_flush s1 links = (s', links', Ok tt)
      ∧ (∀ bz, holds s bz → holds s' bz) ∧ length (o' :: links') = S (length links)
      ∧ (∀ k, (k < S (length links))%nat → slot_rep s' (clean s' h) (clean s' h) nowhere (mjoin ((o' :: links') !! k)) (gs k))
      ∧ ∃ os, packs link_cid (o' :: links') os).
  { intros s1 o' Hs1 Ho' Hcid.
    destruct (IH s1 (gs ∘ S) (Hrest s1 Hs1)) as (s' & links' & H1 & H2 & H3 & H4 & os & H5).
    exists s', links'. split; [done|]. split; [auto|]. split; [cbn; congruence|]. split.
    - intros [|k] Hlt; [|apply H4; lia]. by eapply clean_slot_mono.
    - destruct Hcid as [->|(cid & cache & ->)]; [exists (None :: os)|exists (Some cid :: os)];
        constructor; eauto. }
  destruct o as [[cid cache|n]|]; cbn in H0 |- *.
  - destruct (Htail s (Some (LinkCid cid cache))) as (s' & links' & H1 & ?); [done|done|eauto|].
    rewrite H1. eauto.
  - destruct H0 as [Hn Hne]. destruct (IHn s n _ Hn) as (s1 & n1 & c & Hf & Hs1 & Hn1 & Hc).
    rewrite Hf, Hc. cbn. destruct (put_holds s1 c) as (s2 & Hput & Hh & Hs2). rewrite Hput. cbn.
    destruct (expand_serialized s1 h n1 _ c Hn1 Hc (or_intror Hne)) as (n0 & He & Hn0 & Hc0).
    destruct (Htail s2 (Some (LinkCid (new_from_cbor (to_vec c)) (Some n1)))) as (s' & links' & H1 & ?).
    + auto.
    + split; [|done]. split; [by eapply node_rep_mono|].
      eexists. split; [|done]. exists n0, c. split_and!; [by eapply node_rep_mono|done..].
    + eauto.
    + rewrite H1. eauto.
  - destruct (Htail s None) as (s' & links' & H1 & ?); [done|done|by left|].
    rewrite H1. eauto.
Qed.

Lemma node_flush_spec s h n f :
  clean s h n f →
  ∃ s' n' c, node_flush s n = (s', n', Ok tt) ∧ (∀ bz, holds s bz → holds s' bz)
    ∧ clean s' h n' f ∧ serialize_node n' = Ok c.
Proof.
  revert s n f. induction h as [|h IH]; intros s [links|vals] f Hrep; try by cbn in Hrep.
  - destruct Hrep as [Hl Hv].
    destruct (serialize_loop_spec (Cid:=Cid) Ok 0 vals vals (bmap_new (length vals)) [] (packs_Ok vals))
      as (bmap & H1 & _).
    { unfold bmap_new. rewrite length_replicate. cbn [Nat.add]. lia. }
    exists s, (NodeLeaf vals). eexists. split_and!; [done|done|done|]. unfold serialize_node. by rewrite H1.
  - apply clean_link in Hrep as (Hl & Hb & Hk).
    destruct (flush_links_spec h IH links s (λ k, sub f (S h) k)) as (s' & links' & H1 & H2 & H3 & H4 & os & H5).
    { intros k Hlt. apply Hk. by rewrite <-Hl. }
    destruct (serialize_loop_spec link_cid 0 links' os (bmap_new (length links')) [] H5)
      as (bmap & Hs & _).
    { unfold bmap_new. rewrite length_replicate. cbn [Nat.add]. lia. }
    exists s', (NodeLink links'). eexists. cbn [node_flush]. rewrite H1. split; [done|].
    split; [done|]. split; [apply clean_link; split; [congruence|]; split; [done|]|].
    + intros k Hlt. apply H4. by rewrite Hl.
    + unfold serialize_node. by rewrite Hs.
Qed.
End Rep.
End Width.
