(* ===== verification/AmtIter.v ===== *)
(** * Iteration over the array mapped trie

    [for_each_while] and [for_each_while_mut] visit the entries in ascending
    order of their indices: they are equal to loops over the list of entries.
    What the mutable iteration leaves behind is a trie whose caches may be
    ahead of the store at the indices where a value was changed but not marked
    as changed; [set] makes up for that, which is how the variant for the
    actors works. *)

From stdpp Require Import strings.
From S2P Require Import Prelude Blockstore Amt AmtMap.

(** ** The list of entries *)

Section Entries.
Context {V Cid BS : Type} `{!BlockStore BS Cid, !Cbor (CollapsedNode V Cid)}.
Implicit Types (n : Node V Cid) (s : BS).

Fixpoint leaf_entries (off i : Z) (vals : list (option V)) : list (Z * V) :=
  match vals with
  | [] => []
  | None :: vals => leaf_entries off (i + 1) vals
  | Some v :: vals => (off + i, v) :: leaf_entries off (i + 1) vals
  end.

Definition link_node s (bw : Z) (l : Link V Cid) : result (Error Cid) (Node V Cid) :=
  match l with Dirty n => Ok n | LinkCid cid cache => cached_node s bw cid cache end.

Definition link_entries (entries : Z → Node V Cid → list (Z * V)) s (bw off : Z)
    (l : Link V Cid) : list (Z * V) :=
  match link_node s bw l with Ok n => entries off n | Err _ => [] end.

Fixpoint links_entries (entries : Z → Node V Cid → list (Z * V)) s (bw : Z) (h : nat)
    (off i : Z) (links : list (option (Link V Cid))) : list (Z * V) :=
  match links with
  | [] => []
  | None :: links => links_entries entries s bw h off (i + 1) links
  | Some l :: links =>
      link_entries entries s bw (off + i * nodes_for_height bw h) l
      ++ links_entries entries s bw h off (i + 1) links
  end.

Fixpoint node_entries s (bw : Z) (h : nat) (off : Z) n : list (Z * V) :=
  match n with
  | NodeLeaf vals => leaf_entries off 0 vals
  | NodeLink links =>
      links_entries (match h with O => λ _ _, [] | S h' => node_entries s bw h' end) s bw h off 0 links
  end.

(** A list of entries is that of the contents [f], moved by [off]. *)
Definition listing (off : Z) (f : Z → option V) (l : list (Z * V)) : Prop :=
  StronglySorted Z.lt l.*1 ∧ ∀ i v, (i, v) ∈ l ↔ f (i - off) = Some v.

(** The loop over a list of entries that the iterations amount to. *)
Fixpoint visit_mut {A} (F : A → Z → V → A * (V * bool) * result (Error Cid) bool)
    (l : list (Z * V)) (acc : A) (dm : bool)
    : list (Z * V) * A * result (Error Cid) (bool * bool) :=
  match l with
  | [] => ([], acc, Ok (true, dm))
  | (i, v) :: l =>
      let '(acc, (v', ch), r) := F acc i v in
      match r with
      | Err e => ((i, v') :: l, acc, Err e)
      | Ok false => ((i, v') :: l, acc, Ok (false, dm || ch))
      | Ok true =>
          let '(l, acc, r) := visit_mut F l acc (dm || ch) in ((i, v') :: l, acc, r)
      end
  end.

Fixpoint visit {A} (F : A → Z → V → A * result (Error Cid) bool) (l : list (Z * V)) (acc : A)
    : A * result (Error Cid) bool :=
  match l with
  | [] => (acc, Ok true)
  | (i, v) :: l =>
      match F acc i v with
      | (acc, Ok true) => visit F l acc
      | r => r
      end
  end.

Lemma visit_mut_app {A} (F : A → Z → V → A * (V * bool) * result (Error Cid) bool) l1 l2 acc dm :
  visit_mut F (l1 ++ l2) acc dm =
    match visit_mut F l1 acc dm with
    | (l1', acc', Ok (true, dm')) =>
        let '(l2', acc'', r) := visit_mut F l2 acc' dm' in (l1' ++ l2', acc'', r)
    | (l1', acc', r) => (l1' ++ l2, acc', r)
    end.
Proof.
  revert acc dm. induction l1 as [|[i v] l1 IH]; intros acc dm; cbn.
  - by destruct (visit_mut F l2 acc dm) as [[??]?].
  - destruct (F acc i v) as [[acc1 [v' ch]] [[|]|]]; cbn; [|done|done]. rewrite IH.
    destruct (visit_mut F l1 acc1 (dm || ch)) as [[l1' acc'] [[[|] dm']|]]; cbn; [|done|done].
    by destruct (visit_mut F l2 acc' dm') as [[??]?].
Qed.

Lemma visit_mut_flag {A} (F : A → Z → V → A * (V * bool) * result (Error Cid) bool) l acc dm :
  visit_mut F l acc dm =
    let '(l', acc', r) := visit_mut F l acc false in
    (l', acc', '(kg, d) ← r; Ok (kg, dm || d)).
Proof.
  revert acc dm. induction l as [|[i v] l IH]; intros acc dm; cbn.
  - by rewrite orb_false_r.
  - destruct (F acc i v) as [[acc1 [v' ch]] [[|]|]]; cbn; [|done|done].
    rewrite IH, (IH acc1 ch).
    destruct (visit_mut F l acc1 false) as [[l' acc'] [[kg d]|]]; cbn; by rewrite ?orb_assoc.
Qed.

Lemma visit_mut_keys {A} (F : A → Z → V → A * (V * bool) * result (Error Cid) bool) l acc dm :
  (visit_mut F l acc dm).1.1.*1 = l.*1.
Proof.
  revert acc dm. induction l as [|[i v] l IH]; intros acc dm; cbn; [done|].
  destruct (F acc i v) as [[acc1 [v' ch]] [[|]|]]; cbn; [|done|done].
  specialize (IH acc1 (dm || ch)). destruct (visit_mut F l acc1 (dm || ch)) as [[l' acc'] r].
  cbn in *. by rewrite IH.
Qed.
End Entries.

(** ** The mutable iteration *)

Section Visit.
Context (bw : Z) (Hbw : 1 ≤ bw).
Context {V Cid BS A : Type} `{!BlockStore BS Cid, !CidOps Cid, !CidOk Cid, !BlockStoreOk BS Cid,
  !Cbor (CollapsedNode V Cid), !CborOk (CollapsedNode V Cid)}.
Implicit Types (n : Node V Cid) (f g : Z → option V) (s : BS) (D : Z → Prop).

(** The closure, the indices it has changed without saying so, and whether it
    marks values as changed. *)
Context (F : A → Z → V → A * (V * bool) * result (Error Cid) bool) (C : A → Z → Prop) (E : Prop).
Hypothesis HC : ∀ acc i v acc' v' ch r, F acc i v = (acc', (v', ch), r) →
  (∀ j, C acc j → C acc' j) ∧ ((ch = true ∧ E) ∨ v' = v ∨ C acc' i).

Notation rep s h D := (λ n g, node_rep bw s h n g D).
Notation link_ok s h D := (link_rep bw s (rep s h nowhere) (rep s h D) D).
Notation slot_ok s h D := (slot_rep bw s (rep s h nowhere) (rep s h D) D).

Lemma visit_mut_C l acc dm l' acc' r j :
  visit_mut F l acc dm = (l', acc', r) → C acc j → C acc' j.
Proof.
  revert acc dm l'. induction l as [|[i v] l IH]; intros acc dm l'; cbn; [naive_solver|].
  destruct (F acc i v) as [[acc1 [v' ch]] [[|]|]] eqn:EF; cbn;
    apply HC in EF as [HF _]; [|naive_solver..].
  destruct (visit_mut F l acc1 (dm || ch)) as [[l1 acc2] r1] eqn:Ev. intros [= <- <- <-] Hj.
  eauto.
Qed.

(** A visit after which marked changes are possible. *)
Definition noisy (r : result (Error Cid) (bool * bool)) : Prop :=
  E ∧ match r with Ok (_, d) => d = true | Err _ => True end.

(** How the values [o] and [o'] of an index before and after a visit with the
    outcome [r] relate. *)
Definition changed (r : result (Error Cid) (bool * bool)) (pending : Prop) (o o' : option V) : Prop :=
  (is_Some o' ↔ is_Some o) ∧ (noisy r ∨ pending ∨ o' = o).

(** Where the caches may be ahead of the store after a visit. *)
Definition after D (r : result (Error Cid) (bool * bool)) (acc : A) (off j : Z) : Prop :=
  D j ∨ C acc (off + j) ∨ (E ∧ is_ok r = false).

Lemma changed_refl r P o : changed r P o o.
Proof. split; [done|]. by right; right. Qed.

Lemma visit_mut_noisy l acc dm l' acc' r :
  visit_mut F l acc dm = (l', acc', r) → dm = true ∧ E → noisy r.
Proof.
  rewrite visit_mut_flag. destruct (visit_mut F l acc false) as [[l1 acc1] [[kg d]|e]];
    intros [= _ _ <-] [-> HE]; by split.
Qed.

Lemma leaf_loop_mut_spec off i vals acc dm :
  let '(l', acc', r) := visit_mut F (leaf_entries off i vals) acc dm in
  ∃ vals', leaf_loop_mut F off i vals acc dm = (vals', acc', r)
    ∧ leaf_entries off i vals' = l' ∧ length vals' = length vals
    ∧ ∀ k, changed r (C acc' (off + i + Z.of_nat k)) (mjoin (vals !! k)) (mjoin (vals' !! k)).
Proof.
  revert i acc dm. induction vals as [|[v|] vals IH]; intros i acc dm; cbn.
  - exists []. split_and!; [done..|]. intros k. apply changed_refl.
  - destruct (F acc (off + i) v) as [[acc1 [v' ch]] [[|]|]] eqn:EF; cbn;
      pose proof (HC _ _ _ _ _ _ _ EF) as [HF1 HF2].
    + specialize (IH (i + 1) acc1 (dm || ch)).
      destruct (visit_mut F (leaf_entries off (i + 1) vals) acc1 (dm || ch)) as [[l' acc'] r] eqn:Ev.
      destruct IH as (vals' & -> & H2 & H3 & H4). exists (Some v' :: vals'). cbn.
      split; [done|]. split; [by rewrite H2|]. split; [by rewrite H3|].
      intros [|k].
      * cbn. rewrite Z.add_0_r. split; [split; intros; by eexists|].
        destruct HF2 as [[-> HE]|[->|HF2]]; [left|by right; right|right; left].
        -- eapply visit_mut_noisy; [exact Ev|]. by rewrite orb_true_r.
        -- by eapply visit_mut_C.
      * replace (off + i + Z.of_nat (S k)) with (off + (i + 1) + Z.of_nat k) by lia. apply H4.
    + exists (Some v' :: vals). cbn. split_and!; [done..|]. intros [|k]; [|apply changed_refl].
      cbn. rewrite Z.add_0_r. split; [split; intros; by eexists|].
      destruct HF2 as [[-> HE]|[->|HF2]]; [left|by right; right|by right; left].
      by rewrite orb_true_r.
    + exists (Some v' :: vals). cbn. split_and!; [done..|]. intros [|k]; [|apply changed_refl].
      cbn. rewrite Z.add_0_r. split; [split; intros; by eexists|].
      destruct HF2 as [[_ HE]|[->|HF2]]; [by left|by right; right|by right; left].
  - specialize (IH (i + 1) acc dm).
    destruct (visit_mut F (leaf_entries off (i + 1) vals) acc dm) as [[l' acc'] r].
    destruct IH as (vals' & -> & H2 & H3 & H4). exists (None :: vals'). cbn.
    split_and!; [done|done|by rewrite H3|]. intros [|k]; [apply changed_refl|].
    replace (off + i + Z.of_nat (S k)) with (off + (i + 1) + Z.of_nat k) by lia. apply H4.
Qed.

Definition in_bounds (off : Z) f : Prop := ∀ j, is_Some (f j) → off + j ≤ MAX_INDEX.

(** The visit of a node is the loop over its entries, and leaves a node with
    the new values. *)
Definition visit_ok s h off n f D acc : Prop :=
  let '(l', acc', r) := visit_mut F (node_entries s bw h off n) acc false in
  ∃ n' f', node_for_each_while_mut s h bw F off n acc = (n', acc', r)
    ∧ node_entries s bw h off n' = l' ∧ node_rep bw s h n' f' (after D r acc' off)
    ∧ ∀ j, changed r (C acc' (off + j)) (f j) (f' j).

Lemma visit_link_mut_spec s h D g l off acc :
  (∀ n f D off acc, node_rep bw s h n f D → 0 ≤ off → in_bounds off f → visit_ok s h off n f D acc) →
  link_ok s h D l g → 0 ≤ off → in_bounds off g →
  let '(l', acc', r) := visit_mut F (link_entries (node_entries s bw h) s bw off l) acc false in
  ∃ link' g',
    visit_link_mut s bw (λ offs n acc, node_for_each_while_mut s h bw F offs n acc) off l acc
      = (link', acc', r)
    ∧ link_entries (node_entries s bw h) s bw off link' = l' ∧ link_ok s h (after D r acc' off) link' g'
    ∧ ∀ j, changed r (C acc' (off + j)) (g j) (g' j).
Proof.
  intros IH Hl Hoff Hb. unfold link_entries. destruct l as [cid cache|n].
  - destruct (cached_node_load bw Hbw s h D cid cache g Hl) as (n & Hload & Hn & g0 & Hst & Hg0).
    cbn [link_node].
    rewrite Hload. specialize (IH n g D off acc Hn Hoff Hb). unfold visit_ok in IH.
    destruct (visit_mut F _ acc false) as [[l' acc'] r].
    destruct IH as (n' & g' & Hrun & Hent & Hn' & Hch). cbn [visit_link_mut]. rewrite Hload, Hrun.
    destruct r as [[kg [|]]|e].
    + exists (Dirty n'), g'. split_and!; [done|done|exact Hn'|exact Hch].
    + exists (LinkCid cid (Some n')), g'. split; [done|]. split; [done|]. split; [|exact Hch].
      split; [exact Hn'|]. exists g0. split; [done|]. intros j Hj. unfold after in Hj.
      rewrite Hg0 by tauto. destruct (Hch j) as [_ [[_ ?]|[?|?]]]; [done|tauto|done].
    + exists (LinkCid cid (Some n')), g'. split; [done|]. split; [done|]. split; [|exact Hch].
      split; [exact Hn'|]. exists g0. split; [done|]. intros j Hj. unfold after in Hj.
      rewrite Hg0 by tauto. destruct (Hch j) as [_ [[? _]|[?|?]]]; [cbn in Hj; tauto|tauto|done].
  - cbn [link_node visit_link_mut]. specialize (IH n g D off acc Hl Hoff Hb). unfold visit_ok in IH.
    destruct (visit_mut F _ acc false) as [[l' acc'] r].
    destruct IH as (n' & g' & Hrun & Hent & Hn' & Hch). rewrite Hrun.
    exists (Dirty n'), g'. by split_and!.
Qed.

Lemma slot_ok_weaken s h D D' o g :
  (∀ j, 0 ≤ j < span bw (S h) → D j → D' j) → slot_ok s h D o g → slot_ok s h D' o g.
Proof.
  intros HD. destruct o as [l|]; [|done]. intros [Hl Hne]. split; [|done].
  destruct l as [cid [n|]|n]; cbn in *.
  - destruct Hl as [Hn (g0 & Hst & Hg0)]. split; [by eapply node_rep_weaken|].
    exists g0. split; [done|]. intros j Hj.
    destruct (decide (0 ≤ j < span bw (S h))) as [Hr|Hr]; [apply Hg0; auto|].
    destruct Hst as (n0 & c & Hn0 & _).
    assert (Hnone : ∀ n' g' D', node_rep bw s h n' g' D' → g' j = None).
    { intros n' g' D2 Hn'. apply eq_None_not_Some. intros Hs.
      by apply (node_rep_bounds bw Hbw _ _ _ _ _ _ Hn') in Hs. }
    by rewrite (Hnone _ _ _ Hn0), (Hnone _ _ _ Hn).
  - done.
  - by eapply node_rep_weaken.
Qed.

(** The offset of a link, where its contents are in bounds. *)
Lemma link_offset f h off (k : nat) j :
  0 ≤ off → in_bounds off f → is_Some (sub bw f h k j) →
  off + Z.of_nat k * nodes_for_height bw h = off + Z.of_nat k * span bw h.
Proof.
  intros Hoff Hb Hj. pose proof (sub_bounds bw f h k j Hj) as Hj'.
  unfold sub in Hj. rewrite bool_decide_eq_true_2 in Hj by done. apply Hb in Hj.
  destruct (nfh_cases bw Hbw h) as [[-> _]|[_ Hs]]; [done|].
  unfold MAX_INDEX, usize_max in Hj. assert (k = 0%nat) as -> by nia. lia.
Qed.

(** The slots from the [k0]-th one on after a visit, with contents [gs']. *)
Definition slots_after s h f D off r acc' k0 (ls' : list (option (Link V Cid)))
    (gs' : nat → Z → option V) : Prop :=
  ∀ k, (k < length ls')%nat →
    let off' := off + Z.of_nat (k0 + k) * span bw (S h) in
    slot_ok s h (after (subP bw D (S h) (k0 + k)) r acc' off') (mjoin (ls' !! k)) (gs' k)
    ∧ ∀ j, changed r (C acc' (off' + j)) (sub bw f (S h) (k0 + k) j) (gs' k j).

Lemma slots_after_cons s h f D off r acc' k0 o ls g gs :
  let off' := off + Z.of_nat k0 * span bw (S h) in
  slot_ok s h (after (subP bw D (S h) k0) r acc' off') o g →
  (∀ j, changed r (C acc' (off' + j)) (sub bw f (S h) k0 j) (g j)) →
  slots_after s h f D off r acc' (S k0) ls gs →
  slots_after s h f D off r acc' k0 (o :: ls) (λ k, match k with O => g | S k => gs k end).
Proof.
  intros off' H0 Hch Hrest [|k] Hlt; cbn zeta.
  - by rewrite Nat.add_0_r.
  - rewrite <-Nat.add_succ_comm. apply Hrest. cbn in Hlt. lia.
Qed.

(** Slots that are not visited. *)
Lemma slots_after_same s h f D off r acc' k0 ls :
  (∀ k, (k < length ls)%nat →
     slot_ok s h (subP bw D (S h) (k0 + k)) (mjoin (ls !! k)) (sub bw f (S h) (k0 + k))) →
  slots_after s h f D off r acc' k0 ls (λ k, sub bw f (S h) (k0 + k)).
Proof.
  intros Hk k Hlt. split; [|intros j; apply changed_refl].
  eapply slot_ok_weaken; [|by apply Hk]. intros j _ Hj. by left.
Qed.

(** The outcome [r] of a loop that had the outcome [r1] at one link. *)
Definition extends (r1 r : result (Error Cid) (bool * bool)) : Prop :=
  (noisy r1 → noisy r) ∧ (is_ok r1 = false → is_ok r = false).

Lemma slot_extends s h D off r1 acc1 r acc' link' g g1 :
  extends r1 r → (∀ j, C acc1 j → C acc' j) → (∃ j, is_Some (g j)) →
  link_ok s h (after D r1 acc1 off) link' g1 →
  (∀ j, changed r1 (C acc1 (off + j)) (g j) (g1 j)) →
  slot_ok s h (after D r acc' off) (Some link') g1 ∧
  ∀ j, changed r (C acc' (off + j)) (g j) (g1 j).
Proof.
  intros [He1 He2] HCm [j0 Hj0] Hl Hch. split.
  - assert (Hsome : ∃ j, is_Some (g1 j)) by (exists j0; by apply Hch).
    eapply slot_ok_weaken; [|exact (conj Hl Hsome)].
    intros j _. unfold after. intuition.
  - intros j. destruct (Hch j) as [Hs Hc]. split; [done|]. intuition.
Qed.

Lemma links_loop_mut_spec s h f D off :
  (∀ n f D off acc, node_rep bw s h n f D → 0 ≤ off → in_bounds off f → visit_ok s h off n f D acc) →
  0 ≤ off → in_bounds off f →
  ∀ ls k0 acc dm,
  (∀ k, (k < length ls)%nat →
     slot_ok s h (subP bw D (S h) (k0 + k)) (mjoin (ls !! k)) (sub bw f (S h) (k0 + k))) →
  let '(l', acc', r) :=
    visit_mut F (links_entries (node_entries s bw h) s bw (S h) off (Z.of_nat k0) ls) acc dm in
  ∃ ls' gs',
    links_loop_mut s bw (S h) (λ offs n acc, node_for_each_while_mut s h bw F offs n acc)
      off (Z.of_nat k0) ls acc dm = (ls', acc', r)
    ∧ links_entries (node_entries s bw h) s bw (S h) off (Z.of_nat k0) ls' = l'
    ∧ length ls' = length ls ∧ slots_after s h f D off r acc' k0 ls' gs'.
Proof.
  intros IHn Hoff Hb ls. induction ls as [|o ls IH]; intros k0 acc dm Hk.
  { cbn. exists [], (λ _ _, None). split_and!; [done..|]. intros k Hlt. cbn in Hlt. lia. }
  assert (Hrest : ∀ k, (k < length ls)%nat →
     slot_ok s h (subP bw D (S h) (S k0 + k)) (mjoin (ls !! k)) (sub bw f (S h) (S k0 + k))).
  { intros k Hlt. rewrite Nat.add_succ_comm. apply (Hk (S k)). cbn. lia. }
  pose proof (Hk 0%nat ltac:(cbn; lia)) as H0. rewrite Nat.add_0_r in H0. cbn in H0.
  specialize (IH (S k0)). rewrite Nat2Z.inj_succ, <-Z.add_1_r in IH.
  destruct o as [l|]; cbn [links_entries links_loop_mut].
  - destruct H0 as [Hl Hne]. pose proof Hne as [j0 Hj0].
    pose proof (link_offset f (S h) off k0 j0 Hoff Hb Hj0) as Hoff'.
    rewrite Hoff'. set (off' := off + Z.of_nat k0 * span bw (S h)) in *.
    assert (Hb' : in_bounds off' (sub bw f (S h) k0)).
    { intros j Hj. pose proof (sub_bounds bw f (S h) k0 j Hj).
      unfold sub in Hj. rewrite bool_decide_eq_true_2 in Hj by done. apply Hb in Hj. lia. }
    assert (Hoff0 : 0 ≤ off') by (pose proof (span_pos bw Hbw (S h)); nia).
    pose proof (visit_link_mut_spec s h _ _ l off' acc IHn Hl Hoff0 Hb') as Hlink.
    rewrite visit_mut_app, (visit_mut_flag _ _ acc dm).
    destruct (visit_mut F (link_entries _ s bw off' l) acc false) as [[l1 acc1] r1].
    destruct Hlink as (link' & g1 & -> & Hent & Hlink' & Hch).
    destruct r1 as [[[|] d]|e]; cbn [mbind result_bind].
    + specialize (IH acc1 (dm || d) Hrest).
      destruct (visit_mut F _ acc1 (dm || d)) as [[l' acc'] r] eqn:Ev.
      destruct IH as (ls' & gs' & -> & H2 & H3 & H4).
      destruct (slot_extends s h (subP bw D (S h) k0) off' (Ok (true, d)) acc1 r acc' link' (sub bw f (S h) k0) g1)
        as [Hs1 Hs2]; [|intros j; by eapply visit_mut_C|done..|].
      { split; [|done]. intros [HE ->]. eapply visit_mut_noisy; [exact Ev|].
        by rewrite orb_true_r. }
      exists (Some link' :: ls'). eexists. split; [done|].
      split; [cbn [links_entries]; by rewrite Hoff', Hent, H2|].
      split; [cbn; by rewrite H3|]. by apply slots_after_cons.
    + destruct (slot_extends s h (subP bw D (S h) k0) off' (Ok (false, d)) acc1 (Ok (false, dm || d))
        acc1 link' (sub bw f (S h) k0) g1) as [Hs1 Hs2]; [|done..|].
      { split; [|done]. intros [HE ->]. split; [done|]. apply orb_true_r. }
      exists (Some link' :: ls). eexists. split; [done|].
      split; [cbn [links_entries]; by rewrite Hoff', Hent|]. split; [done|].
      apply slots_after_cons; [done..|]. by apply slots_after_same.
    + destruct (slot_extends s h (subP bw D (S h) k0) off' (Err e) acc1 (Err e)
        acc1 link' (sub bw f (S h) k0) g1) as [Hs1 Hs2]; [by split|done..|].
      exists (Some link' :: ls). eexists. split; [done|].
      split; [cbn [links_entries]; by rewrite Hoff', Hent|]. split; [done|].
      apply slots_after_cons; [done..|]. by apply slots_after_same.
  - specialize (IH acc dm Hrest). destruct (visit_mut F _ acc dm) as [[l' acc'] r].
    destruct IH as (ls' & gs' & -> & H2 & H3 & H4). exists (None :: ls'). eexists.
    split; [done|]. split; [done|]. split; [cbn; by rewrite H3|].
    apply (slots_after_cons _ _ _ _ _ _ _ _ None _ (sub bw f (S h) k0)); [done| |done].
    intros j. apply changed_refl.
Qed.

(** The contents of a node from those below its links. *)
Definition join_subs (h : nat) (gs : nat → Z → option V) : Z → option V :=
  λ i, if bool_decide (0 ≤ i < span bw (S (S h)))
       then gs (Z.to_nat (i / span bw (S h))) (i mod span bw (S h)) else None.

Lemma sub_join_subs h gs (k : nat) j :
  (k < width bw)%nat → (∀ j, is_Some (gs k j) → 0 ≤ j < span bw (S h)) →
  sub bw (join_subs h gs) (S h) k j = gs k j.
Proof.
  intros Hk Hb. unfold sub, join_subs. pose proof (span_pos bw Hbw (S h)) as Hp.
  case_bool_decide as Hj.
  - rewrite bool_decide_eq_true_2 by (rewrite (span_S bw Hbw (S h)); nia).
    rewrite Z.add_comm, Z.div_add, Z.div_small, Z.add_0_l, Nat2Z.id by lia.
    by rewrite Z.mod_add, Z.mod_small by lia.
  - symmetry. apply eq_None_not_Some. intros Hs. by apply Hb in Hs.
Qed.

(** The whole visit. *)
Lemma node_visit_ok s h off n f D acc :
  node_rep bw s h n f D → 0 ≤ off → in_bounds off f → visit_ok s h off n f D acc.
Proof.
  revert off n f D acc. induction h as [|h IH]; intros off [links|vals] f D acc Hrep Hoff Hb;
    try by destruct Hrep.
  - destruct Hrep as [Hl Hv]. unfold visit_ok. cbn [node_entries node_for_each_while_mut].
    pose proof (leaf_loop_mut_spec off 0 vals acc false) as Hloop.
    destruct (visit_mut F _ acc false) as [[l' acc'] r].
    destruct Hloop as (vals' & -> & H2 & H3 & H4). eexists (NodeLeaf vals').
    exists (λ i, if bool_decide (0 ≤ i) then mjoin (vals' !! Z.to_nat i) else None).
    split; [done|]. split; [done|]. split; [split; [congruence|done]|].
    intros j. rewrite Hv. case_bool_decide; [|apply changed_refl].
    specialize (H4 (Z.to_nat j)). by rewrite Z2Nat.id, Z.add_0_r in H4 by done.
  - destruct Hrep as (Hl & Hbd & Hk). unfold visit_ok. cbn [node_entries node_for_each_while_mut].
    pose proof (links_loop_mut_spec s h f D off (λ n f D off acc, IH off n f D acc) Hoff Hb links 0 acc false) as Hloop.
    rewrite Hl in Hloop. specialize (Hloop Hk).
    change (Z.of_nat 0) with 0 in Hloop.
    destruct (visit_mut F _ acc false) as [[l' acc'] r].
    destruct Hloop as (ls' & gs' & -> & H2 & H3 & H4).
    eexists (NodeLink ls'), (join_subs h gs'). split; [done|]. split; [done|].
    assert (Hsub : ∀ k j, (k < width bw)%nat → gs' k j = sub bw (join_subs h gs') (S h) k j).
    { intros k j Hkw. symmetry. apply sub_join_subs; [done|]. intros j'.
      destruct (H4 k ltac:(lia)) as [_ Hch]. rewrite (proj1 (Hch j')). apply sub_bounds. }
    split; [split; [done|]; split|].
    + intros i. unfold join_subs. case_bool_decide; [done|by intros []].
    + intros k Hkw. destruct (H4 k ltac:(lia)) as [Hs _].
      apply (slot_ok_weaken _ _ _ (subP bw (after D r acc' off) (S h) k)) in Hs.
      * eapply slot_impl; [done|done|by intros j; apply Hsub| | |exact Hs].
        -- intros n g g'. by apply node_rep_ext.
        -- intros n. apply node_rep_ext; [done|]. by intros j; apply Hsub.
      * intros j Hj [[_ ?]|[?|?]]; (split; [done|]); [by left| |by right; right].
        right; left. by rewrite Z.add_assoc.
    + intros j. destruct (decide (0 ≤ j < span bw (S (S h)))) as [Hj|Hj].
      * destruct (split_index bw Hbw (S h) j Hj) as (Hkw & _ & Heq & _).
        destruct (H4 _ ltac:(by rewrite H3)) as [_ Hch]. specialize (Hch (j mod span bw (S h))).
        rewrite Nat.add_0_l, (sub_lookup bw Hbw f (S h) j Hj), <-Z.add_assoc, <-Heq in Hch.
        unfold join_subs. by rewrite bool_decide_eq_true_2.
      * unfold join_subs. rewrite bool_decide_eq_false_2 by done.
        assert (f j = None) as ->; [|apply changed_refl].
        apply eq_None_not_Some. intros Hs. by apply Hbd in Hs.
Qed.
End Visit.

(** ** The entries are the contents *)

Section Listing.
Context (bw : Z) (Hbw : 1 ≤ bw).
Context {V Cid BS : Type} `{!BlockStore BS Cid, !CidOps Cid, !CidOk Cid, !BlockStoreOk BS Cid,
  !Cbor (CollapsedNode V Cid), !CborOk (CollapsedNode V Cid)}.
Implicit Types (n : Node V Cid) (f g : Z → option V) (s : BS) (D : Z → Prop).

Lemma leaf_entries_spec off i (vals : list (option V)) :
  StronglySorted Z.lt (leaf_entries off i vals).*1 ∧
  ∀ x v, (x, v) ∈ leaf_entries off i vals ↔
         ∃ k, x = off + i + Z.of_nat k ∧ mjoin (vals !! k) = Some v.
Proof.
  revert i. induction vals as [|o vals IH]; intros i.
  { split; [constructor|]. intros x v. cbn. split; [set_solver|]. by intros (k & _ & ?). }
  destruct (IH (i + 1)) as [Hs Hin].
  assert (Hshift : ∀ x v, (x, v) ∈ leaf_entries off (i + 1) vals ↔
    ∃ k, x = off + i + Z.of_nat (S k) ∧ mjoin (vals !! k) = Some v).
  { intros x v. rewrite Hin. split; intros (k & -> & ?); exists k; (split; [lia|done]). }
  destruct o as [w|]; cbn.
  - split.
    + constructor; [done|]. apply Forall_forall. intros x ([x' v] & -> & Hx)%list_elem_of_fmap.
      apply Hin in Hx as (k & -> & _). cbn. lia.
    + intros x v. rewrite elem_of_cons, Hshift. split.
      * intros [[= -> ->]|(k & ? & ?)]; [exists 0%nat; split; [lia|done]|by exists (S k)].
      * intros ([|k] & -> & Hk); [left; cbn in Hk; f_equal; [lia|congruence]|right; by exists k].
  - split; [done|]. intros x v. rewrite Hshift. split.
    + intros (k & ? & ?). by exists (S k).
    + intros ([|k] & ? & Hk); [done|by exists k].
Qed.

Lemma link_node_ok s h D l g :
  link_rep bw s (λ n g, node_rep bw s h n g nowhere) (λ n g, node_rep bw s h n g D) D l g →
  ∃ n, link_node s bw l = Ok n ∧ node_rep bw s h n g D.
Proof.
  destruct l as [cid cache|n]; [|by exists n]. intros Hl.
  destruct (cached_node_load bw Hbw s h D cid cache g Hl) as (n & ? & ? & _). by exists n.
Qed.

Lemma links_entries_spec s h f D off :
  (∀ n f D off, node_rep bw s h n f D → 0 ≤ off → in_bounds off f →
     listing off f (node_entries s bw h off n)) →
  0 ≤ off → in_bounds off f →
  ∀ ls k0,
  (∀ k, (k < length ls)%nat →
     slot_rep bw s (λ n g, node_rep bw s h n g nowhere)
       (λ n g, node_rep bw s h n g (subP bw D (S h) (k0 + k))) (subP bw D (S h) (k0 + k))
       (mjoin (ls !! k)) (sub bw f (S h) (k0 + k))) →
  let l := links_entries (node_entries s bw h) s bw (S h) off (Z.of_nat k0) ls in
  StronglySorted Z.lt l.*1 ∧
  ∀ x v, (x, v) ∈ l ↔ ∃ k, (k < length ls)%nat
    ∧ sub bw f (S h) (k0 + k) (x - off - Z.of_nat (k0 + k) * span bw (S h)) = Some v.
Proof.
  intros IHn Hoff Hb ls. induction ls as [|o ls IH]; intros k0 Hk; cbn zeta.
  { split; [constructor|]. intros x v. cbn. split; [set_solver|]. intros (k & ? & _). lia. }
  destruct (IH (S k0)) as [Hs Hin].
  { intros k Hlt. rewrite Nat.add_succ_comm. apply (Hk (S k)). cbn. lia. }
  rewrite Nat2Z.inj_succ, <-Z.add_1_r in Hs, Hin.
  pose proof (Hk 0%nat ltac:(cbn; lia)) as H0. rewrite Nat.add_0_r in H0.
  (* the first link contributes its entries, the others come after *)
  assert (Hcons : ∀ l0, StronglySorted Z.lt l0.*1 →
    (∀ x v, (x, v) ∈ l0 ↔ sub bw f (S h) k0 (x - off - Z.of_nat k0 * span bw (S h)) = Some v) →
    let l := l0 ++ links_entries (node_entries s bw h) s bw (S h) off (Z.of_nat k0 + 1) ls in
    StronglySorted Z.lt l.*1 ∧
    ∀ x v, (x, v) ∈ l ↔ ∃ k, (k < S (length ls))%nat
      ∧ sub bw f (S h) (k0 + k) (x - off - Z.of_nat (k0 + k) * span bw (S h)) = Some v).
  { intros l0 Hs0 Hin0. cbn zeta. split.
    - rewrite fmap_app. apply StronglySorted_app. split; [|by split].
      intros x1 x2 ([y1 v1] & -> & H1)%list_elem_of_fmap ([y2 v2] & -> & H2)%list_elem_of_fmap.
      cbn [fst]. apply Hin0, mk_is_Some, sub_bounds in H1.
      apply Hin in H2 as (k & _ & H2). apply mk_is_Some, sub_bounds in H2.
      pose proof (span_pos bw Hbw (S h)). nia.
    - intros x v. rewrite elem_of_app, Hin0, Hin. split.
      + intros [H1|(k & ? & H2)].
        * exists 0%nat. rewrite Nat.add_0_r. split; [lia|done].
        * exists (S k). rewrite <-Nat.add_succ_comm. split; [lia|done].
      + intros ([|k] & ? & H2); [left; by rewrite Nat.add_0_r in H2|].
        right. exists k. rewrite Nat.add_succ_comm. split; [lia|done]. }
  destruct o as [l|]; cbn [links_entries length].
  - destruct H0 as [Hl [j0 Hj0]]. rewrite (link_offset bw Hbw f (S h) off k0 j0 Hoff Hb Hj0).
    unfold link_entries. destruct (link_node_ok _ _ _ _ _ Hl) as (n & -> & Hn).
    pose proof (span_pos bw Hbw (S h)).
    destruct (IHn n _ _ (off + Z.of_nat k0 * span bw (S h)) Hn) as [Hs0 Hin0].
    + nia.
    + intros j Hj. pose proof (sub_bounds bw f (S h) k0 j Hj).
      unfold sub in Hj. rewrite bool_decide_eq_true_2 in Hj by done. apply Hb in Hj. lia.
    + apply Hcons; [done|]. intros x v. rewrite Hin0. by rewrite Z.sub_add_distr.
  - apply (Hcons []); [constructor|]. intros x v. cbn in H0. rewrite H0. set_solver.
Qed.

Lemma node_entries_spec s h n f D off :
  node_rep bw s h n f D → 0 ≤ off → in_bounds off f → listing off f (node_entries s bw h off n).
Proof.
  revert n f D off. induction h as [|h IH]; intros [links|vals] f D off Hrep Hoff Hb;
    try by destruct Hrep.
  - destruct Hrep as [Hl Hv]. destruct (leaf_entries_spec off 0 vals) as [Hs Hin].
    split; [done|]. intros x v. cbn [node_entries]. rewrite Hin, Hv. split.
    + intros (k & -> & Hk). replace (off + 0 + Z.of_nat k - off) with (Z.of_nat k) by lia.
      by rewrite bool_decide_eq_true_2, Nat2Z.id by lia.
    + case_bool_decide; [|done]. intros Hk. exists (Z.to_nat (x - off)). split; [lia|done].
  - destruct Hrep as (Hl & Hbd & Hk).
    destruct (links_entries_spec s h f D off IH Hoff Hb links 0) as [Hs Hin].
    { rewrite Hl. exact Hk. }
    split; [done|]. intros x v. cbn [node_entries]. rewrite Hin. split.
    + intros (k & Hlt & Hx). unfold sub in Hx. case_bool_decide; [|done].
      rewrite <-Hx. f_equal. cbn. lia.
    + intros Hx. pose proof (Hbd _ (mk_is_Some _ _ Hx)) as Hr.
      destruct (split_index bw Hbw (S h) _ Hr) as (Hkw & Hj & Heq & _).
      exists (Z.to_nat ((x - off) / span bw (S h))). split; [lia|].
      rewrite Nat.add_0_l. rewrite <-(sub_lookup bw Hbw f (S h) _ Hr) in Hx. rewrite <-Hx.
      f_equal. lia.
Qed.

(** *** The iteration that only reads is the one that changes nothing *)

Definition read_only {A} (F : A → Z → V → A * result (Error Cid) bool)
    (acc : A) (i : Z) (v : V) : A * (V * bool) * result (Error Cid) bool :=
  let '(acc, r) := F acc i v in (acc, (v, false), r).

Lemma visit_read_only {A} (F : A → Z → V → A * result (Error Cid) bool) l acc :
  visit_mut (read_only F) l acc false =
    let '(acc', r) := visit F l acc in (l, acc', kg ← r; Ok (kg, false)).
Proof.
  revert acc. induction l as [|[i v] l IH]; intros acc; cbn; [done|]. unfold read_only at 1.
  destruct (F acc i v) as [acc1 [[|]|]]; cbn; [|done|done]. rewrite IH.
  by destruct (visit F l acc1) as [acc2 r].
Qed.

Lemma leaf_loop_read_only {A} (F : A → Z → V → A * result (Error Cid) bool) off i vals acc :
  leaf_loop_mut (read_only F) off i vals acc false =
    let '(acc', r) := leaf_loop F off i vals acc in (vals, acc', kg ← r; Ok (kg, false)).
Proof.
  revert i acc. induction vals as [|[v|] vals IH]; intros i acc; cbn; [done| |].
  - unfold read_only at 1. destruct (F acc (off + i) v) as [acc1 [[|]|]]; cbn; [|done|done].
    rewrite IH. by destruct (leaf_loop F off (i + 1) vals acc1).
  - rewrite IH. by destruct (leaf_loop F off (i + 1) vals acc).
Qed.

Lemma links_loop_read_only {A} s h visit visit_m off (links : list (option (Link V Cid))) i (acc : A) :
  (∀ offs n acc, visit_m offs n acc =
    let '(n', acc', r) := visit offs n acc in (n', acc', kg ← r; Ok (kg, false))) →
  links_loop_mut s bw h visit_m off i links acc false =
    let '(links', acc', r) := links_loop s bw h visit off i links acc in
    (links', acc', kg ← r; Ok (kg, false)).
Proof.
  intros Hv. revert i acc. induction links as [|[l|] links IH]; intros i acc; cbn; [done| |].
  - assert (Hl : ∀ offs, visit_link_mut s bw visit_m offs l acc =
      let '(l', acc', r) := visit_link s bw visit offs l acc in (l', acc', kg ← r; Ok (kg, false))).
    { intros offs. destruct l as [cid cache|n]; cbn.
      - destruct (cached_node s bw cid cache); [|done]. rewrite Hv.
        by destruct (visit offs _ acc) as [[??] [?|?]].
      - rewrite Hv. by destruct (visit offs n acc) as [[??]?]. }
    rewrite Hl. destruct (visit_link s bw visit _ l acc) as [[l' acc1] [[|]|]]; cbn; [|done|done].
    rewrite IH. by destruct (links_loop s bw h visit off (i + 1) links acc1) as [[??]?].
  - rewrite IH. by destruct (links_loop s bw h visit off (i + 1) links acc) as [[??]?].
Qed.

Lemma node_for_each_read_only {A} s h (F : A → Z → V → A * result (Error Cid) bool) off n acc :
  node_for_each_while_mut s h bw (read_only F) off n acc =
    let '(n', acc', r) := node_for_each_while s h bw F off n acc in
    (n', acc', kg ← r; Ok (kg, false)).
Proof.
  revert off n acc. induction h as [|h IH]; intros off [links|vals] acc; cbn.
  - rewrite (links_loop_read_only s 0 (λ _ n acc, (n, acc, Err Panic))); [|done].
    by destruct (links_loop s bw 0 _ off 0 links acc) as [[??]?].
  - rewrite leaf_loop_read_only. by destruct (leaf_loop F off 0 vals acc).
  - rewrite (links_loop_read_only s (S h) (λ offs n acc, node_for_each_while s h bw F offs n acc)).
    + by destruct (links_loop s bw (S h) _ off 0 links acc) as [[??]?].
    + intros offs n acc'. apply IH.
  - rewrite leaf_loop_read_only. by destruct (leaf_loop F off 0 vals acc).
Qed.
End Listing.
