(* ===== verification/AmtSpec.v ===== *)
(** * The array mapped trie: its contract

    A root represents a [gmap] from indices to values.  The theorems state what
    the operations of [Amt] promise to their clients. *)

From stdpp Require Import strings.
From S2P Require Import Prelude Blockstore Amt AmtMap AmtIter.

Section Spec.
Context {V Cid BS : Type} `{!BlockStore BS Cid, !CidOps Cid, !CidOk Cid, !BlockStoreOk BS Cid,
  !Cbor (CollapsedNode V Cid), !CborOk (CollapsedNode V Cid),
  !Cbor (CollapsedRoot V Cid), !CborOk (CollapsedRoot V Cid)}.
Implicit Types (a : Root V Cid) (m : gmap Z V) (s : BS) (D : Z → Prop).

Definition contents m : Z → option V := λ i, m !! i.

Definition valid_index (i : Z) : Prop := 0 ≤ i ≤ MAX_INDEX.

(** The root represents the map; its height is the least possible one; its
    caches are up to date except at [D]. *)
Record amt_rep_at s a m D : Prop := {
  rep_width : 1 ≤ bit_width a;
  rep_node : node_rep (bit_width a) s (height a) (node a) (contents m) D;
  rep_count : count a = Z.of_nat (size m);
  rep_valid i : is_Some (m !! i) → valid_index i;
  rep_height : height a = 0%nat ∨ ∃ i, is_Some (m !! i) ∧ span (bit_width a) (height a) ≤ i
}.
Definition amt_rep s a m : Prop := amt_rep_at s a m nowhere.

Lemma contents_insert m i v j : upd (contents m) i (Some v) j = contents (<[i := v]> m) j.
Proof.
  unfold upd, contents. case_bool_decide; [subst; by rewrite lookup_insert_eq|].
  by rewrite lookup_insert_ne.
Qed.

Lemma contents_delete m i j : upd (contents m) i None j = contents (base.delete i m) j.
Proof.
  unfold upd, contents. case_bool_decide; [subst; by rewrite lookup_delete_eq|].
  by rewrite lookup_delete_ne.
Qed.

Lemma new_rep s (bw : Z) : 1 ≤ bw → amt_rep s (new_with_bit_width bw) ∅.
Proof.
  intros Hbw. split; unfold new_with_bit_width, root_new; cbn [bit_width height count node].
  - done.
  - eapply node_rep_ext; [done| |by apply empty_leaf_rep]. intros i. by rewrite <-(lookup_empty (M:=gmap Z) i).
  - by rewrite map_size_empty.
  - intros i [? Hi]. by rewrite lookup_empty in Hi.
  - by left.
Qed.

(** *** Lookup *)

Lemma above_span s a m D i :
  amt_rep_at s a m D → span (bit_width a) (S (height a)) ≤ i → m !! i = None.
Proof.
  intros Ha Hi. apply eq_None_not_Some. intros Hs.
  apply (node_rep_bounds _ (rep_width _ _ _ _ Ha) _ _ _ _ _ _ (rep_node _ _ _ _ Ha)) in Hs. lia.
Qed.

Lemma set_node_rep s a m D n :
  amt_rep_at s a m D → node_rep (bit_width a) s (height a) n (contents m) D →
  amt_rep_at s (set_node a n) m D.
Proof. intros [? ? ? ? ?] Hn. by split. Qed.

Lemma amt_get_spec s a m D i :
  amt_rep_at s a m D → valid_index i →
  ∃ a', amt_get s a i = (a', Ok (m !! i)) ∧ amt_rep_at s a' m D.
Proof.
  intros Ha Hi. unfold amt_get, valid_index in *. pose proof (rep_width _ _ _ _ Ha) as Hbw.
  destruct (Z.ltb_spec MAX_INDEX i); [lia|]. rewrite Nat.add_1_r, nfh_le by lia.
  destruct (Z.leb_spec (span (bit_width a) (S (height a))) i).
  - exists a. by rewrite (above_span s a m D).
  - destruct (node_get_spec (bit_width a) Hbw s (height a) (node a) (contents m) D i) as (n & -> & Hn);
      [apply Ha|lia|lia|]. eexists. split; [done|]. by apply set_node_rep.
Qed.

(** *** Insertion *)

Lemma map_lookup_init {A : Type} (bw : Z) (i : nat) (x : option A) :
  1 ≤ bw → mjoin (<[0%nat := x]> (init_sized_vec bw) !! i) = if bool_decide (i = 0%nat) then x else None.
Proof.
  intros Hbw. assert (Hpos : (0 < length (@init_sized_vec A bw))%nat).
  { rewrite init_sized_vec_length by done. pose proof (width_span bw).
    assert (0 < 2 ^ bw) by (apply Z.pow_pos_nonneg; lia). lia. }
  case_bool_decide; [subst; by rewrite list_lookup_insert_eq|].
  rewrite list_lookup_insert_ne by done. by apply init_sized_vec_lookup.
Qed.

(** One round of the loop of [set]: the root becomes the first link. *)
Lemma grow_rep (bw : Z) s h n f D :
  1 ≤ bw → node_rep bw s h n f D →
  node_rep bw s (S h)
    (if negb (is_empty n) then NodeLink (<[0%nat := Some (Dirty n)]> (init_sized_vec bw))
     else NodeLink (init_sized_vec bw)) f D.
Proof.
  intros Hbw Hn. pose proof (node_is_empty_spec bw Hbw s h n f D Hn) as Hempty.
  destruct (is_empty n) eqn:Ee; cbn [negb].
  - eapply node_rep_ext; [done| |by apply empty_link_rep]. intros i. symmetry. by apply Hempty.
  - cbn [node_rep]. split; [by rewrite length_insert, init_sized_vec_length|].
    assert (Hb : ∀ i, is_Some (f i) → 0 ≤ i < span bw (S h)).
    { intros i. by apply (node_rep_bounds bw Hbw _ _ _ _ _ _ Hn). }
    split; [intros i Hi%Hb; pose proof (span_mono bw Hbw (S h) (S (S h))); lia|].
    intros k Hk. rewrite map_lookup_init by done. case_bool_decide as Hk0.
    + subst k. assert (Hsub : ∀ j, f j = sub bw f (S h) 0 j).
      { intros j. unfold sub. case_bool_decide; [done|]. apply eq_None_not_Some. by intros ?%Hb. }
      split.
      * eapply node_rep_impl; [done|done| |exact Hsub|exact Hn]. intros j Hj HD. by split.
      * destruct (is_empty_false bw s h n f D Hn Ee) as [i Hi]. exists i. by rewrite <-Hsub.
    + intros j. unfold sub. case_bool_decide; [|done]. apply eq_None_not_Some. intros Hi%Hb.
      assert (1 ≤ Z.of_nat k) by lia. nia.
Qed.

(** Which root the loop ends with: one that has room for the index. *)
Lemma grow_loop_spec fuel s a f D i :
  1 ≤ bit_width a → valid_index i → (64 ≤ fuel + height a)%nat →
  node_rep (bit_width a) s (height a) (node a) f D →
  ∃ a', grow_loop fuel a i = a' ∧
  bit_width a' = bit_width a ∧ count a' = count a ∧
  node_rep (bit_width a) s (height a') (node a') f D ∧ i < span (bit_width a) (S (height a')) ∧
  (a' = a ∨ span (bit_width a) (height a') ≤ i).
Proof.
  intros Hbw Hi. revert a Hbw. induction fuel as [|fuel IH]; intros a Hbw Hf Hn; cbn [grow_loop].
  - exists a. split_and!; [done|done|done|done| |by left].
    destruct (nfh_cases (bit_width a) Hbw (S (height a))) as [[Heq Hlt]|[_ Hs]].
    + unfold nodes_for_height in Heq.
      destruct (Z.leb_spec 64 (bit_width a * Z.of_nat (S (height a)))); [|nia].
      rewrite <-Heq. unfold valid_index, MAX_INDEX in Hi. lia.
    + unfold valid_index, MAX_INDEX, usize_max in Hi. lia.
  - rewrite Nat.add_1_r, nfh_le by done.
    destruct (Z.leb_spec (span (bit_width a) (S (height a))) i) as [Hle|Hgt].
    + destruct (IH (Build_Root (bit_width a) (S (height a)) (count a)
        (if negb (is_empty (node a))
         then NodeLink (<[0%nat := Some (Dirty (node a))]> (init_sized_vec (bit_width a)))
         else NodeLink (init_sized_vec (bit_width a))))) as (a' & H0 & H1 & H2 & H3 & H4 & H5).
      * done.
      * cbn. lia.
      * cbn [bit_width height node]. by apply grow_rep.
      * exists a'. split_and!; [done|done|done|done|done|]. right. destruct H5 as [->|]; [|done]. done.
    + exists a. split_and!; [done|done|done|done|done|by left].
Qed.

Lemma amt_set_spec s a m D i v :
  amt_rep_at s a m D → valid_index i →
  ∃ a', amt_set s a i v = (a', Ok tt) ∧ amt_rep_at s a' (<[i := v]> m) (λ j, D j ∧ j ≠ i)
        ∧ bit_width a' = bit_width a.
Proof.
  intros Ha Hi. unfold amt_set. destruct (Z.ltb_spec MAX_INDEX i); [unfold valid_index in Hi; lia|].
  pose proof Ha as [Hbw Hn Hc Hv Hh].
  destruct (grow_loop_spec 64 s a (contents m) D i Hbw Hi ltac:(lia) Hn)
    as (b & -> & H1 & H2 & H3 & H4 & H5). rewrite H1.
  destruct (node_set_spec (bit_width a) Hbw s (height b) (node b) (contents m) D i v H3)
    as (n & -> & Hn'); [unfold valid_index in Hi; lia|apply Hi|].
  assert (Hrep : node_rep (bit_width a) s (height b) n (contents (<[i := v]> m)) (λ j, D j ∧ j ≠ i)).
  { eapply node_rep_ext; [done|apply contents_insert|exact Hn']. }
  assert (Hv' : ∀ j, is_Some (<[i := v]> m !! j) → valid_index j).
  { intros j. destruct (decide (i = j)) as [->|]; [done|]. rewrite lookup_insert_ne by done. apply Hv. }
  assert (Hh' : height b = 0%nat ∨ ∃ j, is_Some (<[i := v]> m !! j) ∧ span (bit_width a) (height b) ≤ j).
  { destruct H5 as [Hb|Hle].
    - rewrite Hb. destruct Hh as [|(j & Hj & ?)]; [by left|right]. exists j. split; [|done].
      destruct (decide (i = j)) as [->|]; [by rewrite lookup_insert_eq|by rewrite lookup_insert_ne].
    - right. exists i. by rewrite lookup_insert_eq. }
  assert (Hsize : Z.of_nat (size (<[i := v]> m)) = count a + if m !! i then 0 else 1).
  { rewrite map_size_insert, Hc. destruct (m !! i); unfold id; lia. }
  assert (Hok : ∀ c, c = Z.of_nat (size (<[i := v]> m)) →
    amt_rep_at s (Build_Root (bit_width b) (height b) c n) (<[i := v]> m) (λ j, D j ∧ j ≠ i)).
  { intros c Hcc. split; cbn [bit_width height count node]; rewrite ?H1; assumption. }
  unfold contents at 1. unfold set_node. cbn [bit_width height count node].
  destruct (m !! i) as [w|]; eexists; (split; [reflexivity|]); (split; [|exact H1]);
    apply Hok; rewrite Hsize, H2; [by rewrite Z.add_0_r|done].
Qed.

(** *** Deletion *)

(** A node that cannot collapse has entries beyond its first link. *)
Lemma no_collapse_height (bw : Z) s h links f D :
  1 ≤ bw → node_rep bw s (S h) (NodeLink links) f D → (∃ i, is_Some (f i)) →
  can_collapse (NodeLink links) = false → ∃ i, is_Some (f i) ∧ span bw (S h) ≤ i.
Proof.
  intros Hbw Hrep [i Hi] Hc. pose proof Hrep as (Hl & Hb & Hk).
  pose proof (span_pos bw Hbw (S h)) as Hp.
  assert (Hlink : ∀ k l, (1 ≤ k)%nat → links !! k = Some (Some l) → ∃ i, is_Some (f i) ∧ span bw (S h) ≤ i).
  { intros k l Hk1 Hl'. specialize (Hk k). rewrite Hl' in Hk.
    destruct Hk as [_ [j Hj]]; [rewrite <-Hl; by eapply lookup_lt_Some|].
    pose proof (sub_bounds bw f (S h) k j Hj) as Hj'. unfold sub in Hj.
    rewrite bool_decide_eq_true_2 in Hj by done. eexists. split; [exact Hj|]. nia. }
  destruct links as [|[l|] rest]; cbn in Hc.
  - destruct (split_index bw Hbw (S h) i (Hb i Hi)) as (Hkw & _). cbn in Hl. lia.
  - apply all_none_false in Hc as (k & l' & Hk'). by apply (Hlink (S k) l'); [lia|].
  - exists i. split; [done|]. destruct (Z.le_gt_cases (span bw (S h)) i) as [|Hlt]; [done|].
    specialize (Hk 0%nat ltac:(rewrite <-Hl; cbn; lia) i). pose proof (Hb i Hi).
    unfold sub in Hk. rewrite bool_decide_eq_true_2 in Hk by lia.
    change (f i = None) in Hk. rewrite Hk in Hi. by destruct Hi.
Qed.

(** The contents of a node that can collapse are below its first link. *)
Lemma collapse_contents (bw : Z) s h l rest f D :
  1 ≤ bw → node_rep bw s (S h) (NodeLink (Some l :: rest)) f D → all_none rest = true →
  ∀ j, f j = sub bw f (S h) 0 j.
Proof.
  intros Hbw (Hl & Hb & Hk) Hr j. rewrite all_none_spec in Hr. unfold sub.
  case_bool_decide as Hj; [done|]. apply eq_None_not_Some. intros Hs. pose proof (Hb j Hs) as Hj'.
  destruct (split_index bw Hbw (S h) j Hj') as (Hkw & Hm & Heq & _). specialize (Hk _ Hkw).
  pose proof (sub_lookup bw Hbw f (S h) j Hj') as Hsub.
  destruct (Z.to_nat (j / span bw (S h))) as [|k]; [lia|].
  cbn in Hk. rewrite Hr in Hk. rewrite <-Hsub, Hk in Hs. by destruct Hs.
Qed.

Lemma collapse_loop_spec (bw : Z) s h n f D :
  1 ≤ bw → node_rep bw s h n f D → (∃ i, is_Some (f i)) →
  ∃ h' n', collapse_loop s bw h n = (h', n', Ok tt) ∧ node_rep bw s h' n' f D ∧
    (h' = 0%nat ∨ ∃ i, is_Some (f i) ∧ span bw h' ≤ i).
Proof.
  intros Hbw. revert n. induction h as [|h IH]; intros n Hn Hne.
  { exists 0%nat, n. split; [done|]. split; [done|by left]. }
  destruct n as [links|vals]; [|done]. cbn [collapse_loop].
  destruct (can_collapse (NodeLink links)) eqn:Ec.
  2: { exists (S h), (NodeLink links). split; [done|]. split; [done|right].
       by eapply no_collapse_height. }
  destruct links as [|[l|] rest]; cbn in Ec; [done| |done].
  pose proof (collapse_contents bw s h l rest f D Hbw Hn Ec) as Hsub.
  assert (Hlink : ∃ n', link_node s bw l = Ok n' ∧ node_rep bw s h n' f D).
  { destruct Hn as (Hl & _ & Hk). destruct (Hk 0%nat) as [Hlink _]; [rewrite <-Hl; cbn; lia|].
    apply link_node_ok in Hlink as (n' & Hln & Hn'); [|done|done]. exists n'. split; [done|].
    apply (node_rep_impl bw Hbw s s h n' (sub bw f (S h) 0) f (subP bw D (S h) 0) D);
      [done|by intros j _ [_ ?]|by intros j; rewrite Hsub|exact Hn']. }
  destruct Hlink as (n' & Hln & Hn'). destruct l as [cid cache|n0]; cbn in Hln; rewrite ?Hln.
  - by apply IH.
  - injection Hln as <-. by apply IH.
Qed.

Lemma amt_delete_spec s a m D i :
  amt_rep_at s a m D → valid_index i →
  ∃ a', amt_delete s a i = (a', Ok (m !! i)) ∧ amt_rep_at s a' (base.delete i m) D
        ∧ bit_width a' = bit_width a.
Proof.
  intros Ha Hi. unfold amt_delete, valid_index in *. pose proof Ha as [Hbw Hn Hc Hv Hh].
  destruct (Z.ltb_spec MAX_INDEX i); [lia|]. rewrite Nat.add_1_r, nfh_le by lia.
  destruct (Z.leb_spec (span (bit_width a) (S (height a))) i) as [Hle|Hgt].
  { pose proof (above_span s a m D i Ha Hle) as Hnone. exists a. rewrite Hnone.
    by rewrite delete_id. }
  destruct (node_delete_spec (bit_width a) Hbw s (height a) (node a) (contents m) D i Hn)
    as (n & -> & Hn'); [lia|lia|].
  assert (Hrep : node_rep (bit_width a) s (height a) n (contents (base.delete i m)) D).
  { eapply node_rep_ext; [done|apply contents_delete|exact Hn']. }
  unfold contents at 1. destruct (m !! i) as [v|] eqn:Ei.
  2: { eexists. split; [done|]. rewrite delete_id in * by done. split; [|done]. by apply set_node_rep. }
  assert (Hv' : ∀ j, is_Some (base.delete i m !! j) → 0 ≤ j ≤ MAX_INDEX).
  { intros j [x Hx]. apply lookup_delete_Some in Hx as [_ Hx]. apply Hv. by eexists. }
  assert (Hsize : count a - 1 = Z.of_nat (size (base.delete i m))).
  { rewrite map_size_delete, Hc, Ei. assert (size m ≠ 0%nat); [|lia].
    rewrite map_size_non_empty_iff. intros ->. by rewrite lookup_empty in Ei. }
  pose proof (node_is_empty_spec _ Hbw _ _ _ _ _ Hrep) as He.
  destruct (is_empty n) eqn:Ee.
  - eexists. split; [done|]. split; [|done]. split; cbn [bit_width height count node]; try done.
    + eapply node_rep_ext; [done| |by apply empty_leaf_rep]. intros j. symmetry. by apply He.
    + by left.
  - destruct (collapse_loop_spec (bit_width a) s (height a) n _ D Hbw Hrep) as (h' & n' & -> & Hr' & Hh').
    { by eapply is_empty_false. }
    eexists. split; [done|]. split; [|done]. by split; cbn [bit_width height count node].
Qed.

(** *** Flushing and loading *)

Lemma amt_flush_spec s a m :
  amt_rep s a m →
  ∃ s' n' c, let a' := set_node a n' in
    let c' := Build_CollapsedRoot (bit_width a) (height a) (count a) c in
    amt_flush s a = (s', a', Ok (new_from_cbor (to_vec c')))
    ∧ amt_rep s' a' m ∧ (∀ bz, holds s bz → holds s' bz)
    ∧ serialize_node n' = Ok c ∧ holds s' (to_vec c').
Proof.
  intros Ha. pose proof Ha as [Hbw Hn Hc Hv Hh].
  destruct (node_flush_spec (bit_width a) Hbw s (height a) (node a) (contents m) Hn)
    as (s1 & n' & c & Hf & Hs1 & Hn' & Hser).
  destruct (put_holds s1 (Build_CollapsedRoot (bit_width a) (height a) (count a) c))
    as (s2 & Hput & Hh2 & Hs2).
  exists s2, n', c. cbn zeta. unfold amt_flush. rewrite Hf. unfold serialize_root.
  cbn [node set_node bit_width height count]. rewrite Hser. cbn [mbind result_bind].
  rewrite Hput. cbn [store_result]. split; [done|]. split; [|split; [auto|by split]].
  split; cbn [node set_node bit_width height count]; try done. eapply node_rep_mono; [done|exact Hs2|exact Hn'].
Qed.

Lemma amt_load_spec s a m c :
  amt_rep s a m → serialize_node (node a) = Ok c →
  let c' := Build_CollapsedRoot (bit_width a) (height a) (count a) c in
  holds s (to_vec c') → ∃ b, load (new_from_cbor (to_vec c')) s = Ok b ∧ amt_rep s b m.
Proof.
  intros [Hbw Hn Hc Hv Hh] Hser c' Hc'. unfold load. rewrite get_holds by done.
  cbn [store_result ok_or mbind result_bind]. unfold deserialize_root. cbn [cr_node cr_bit_width c'].
  destruct (expand_serialized (bit_width a) Hbw s (height a) (node a) (contents m) c Hn Hser)
    as (n0 & -> & Hn0 & _).
  { destruct Hh as [|(i & Hi & _)]; [by left|right]. by exists i. }
  cbn [mbind result_bind height cr_height c'].
  assert (Z.of_nat (height a) ≤ MAX_HEIGHT).
  { destruct Hh as [->|(i & Hi & Hle)]; [done|]. apply Hv in Hi. unfold valid_index in Hi.
    destruct (Z.le_gt_cases (Z.of_nat (height a)) MAX_HEIGHT) as [|Hgt]; [done|]. exfalso.
    assert (2 ^ 64 ≤ span (bit_width a) (height a)).
    { unfold span. apply Z.pow_le_mono_r; [lia|]. unfold MAX_HEIGHT in Hgt. nia. }
    unfold MAX_INDEX, usize_max in Hi. lia. }
  destruct (Z.ltb_spec MAX_HEIGHT (Z.of_nat (height a))); [lia|]. eexists. split; [done|].
  by split; cbn [node bit_width height count cr_count cr_height c'].
Qed.

(** *** The height and the serialization depend on the map only *)

Lemma height_unique s1 s2 a1 a2 m :
  amt_rep s1 a1 m → amt_rep s2 a2 m → bit_width a1 = bit_width a2 → height a1 = height a2.
Proof.
  assert (Hlt : ∀ s1 s2 a1 a2, amt_rep s1 a1 m → amt_rep s2 a2 m → bit_width a1 = bit_width a2 →
    ¬ (height a1 < height a2)%nat).
  { clear. intros s1 s2 a1 a2 [Hbw Hn _ _ _] [_ _ _ _ Hh] Heq Hlt.
    destruct Hh as [|(i & Hi & Hle)]; [lia|].
    apply (node_rep_bounds _ Hbw _ _ _ _ _ _ Hn) in Hi.
    pose proof (span_mono (bit_width a1) Hbw (S (height a1)) (height a2) Hlt). rewrite <-Heq in Hle. lia. }
  intros H1 H2 Heq. pose proof (Hlt _ _ _ _ H1 H2 Heq). pose proof (Hlt _ _ _ _ H2 H1 (eq_sym Heq)). lia.
Qed.

(** *** Iteration *)

Lemma listing_map (l : list (Z * V)) f : listing 0 f l → ∀ i, contents (list_to_map l) i = f i.
Proof.
  intros [Hs Hin] i. unfold contents.
  assert (Hnd : NoDup l.*1) by (by apply strict_sorted_nodup).
  destruct (f i) as [v|] eqn:Ei.
  - apply elem_of_list_to_map; [done|]. apply Hin. by rewrite Z.sub_0_r.
  - apply not_elem_of_list_to_map. intros ([i' v] & -> & Hi)%list_elem_of_fmap. apply Hin in Hi.
    cbn [fst] in Ei. rewrite Z.sub_0_r in Hi. congruence.
Qed.

Lemma rep_bounds s a m D : amt_rep_at s a m D → in_bounds 0 (contents m).
Proof. intros Ha j Hj. apply (rep_valid _ _ _ _ Ha) in Hj. unfold valid_index in Hj. lia. Qed.

Definition entries s a : list (Z * V) := node_entries s (bit_width a) (height a) 0 (node a).

Lemma entries_listing s a m D : amt_rep_at s a m D → listing 0 (contents m) (entries s a).
Proof.
  intros Ha. apply (node_entries_spec (bit_width a) (rep_width _ _ _ _ Ha) s (height a) (node a)
    (contents m) D 0); [apply Ha|lia|by eapply rep_bounds].
Qed.

Lemma listing_length (l : list (Z * V)) m : listing 0 (contents m) l → length l = size m.
Proof.
  intros Hl. pose proof (listing_map l _ Hl) as Heq. destruct Hl as [Hs _].
  assert (m = list_to_map l) as -> by (apply map_eq; intros i; symmetry; apply Heq).
  symmetry. apply map_size_list_to_map. by apply strict_sorted_nodup.
Qed.

(** The visit with a closure, at the root. *)
Lemma root_visit {A} (F : A → Z → V → A * (V * bool) * result (Error Cid) bool)
    (C : A → Z → Prop) (E : Prop) s a m acc :
  (∀ acc i v acc' v' ch r, F acc i v = (acc', (v', ch), r) →
     (∀ j, C acc j → C acc' j) ∧ ((ch = true ∧ E) ∨ v' = v ∨ C acc' i)) →
  amt_rep s a m →
  let '(l', acc', r) := visit_mut F (entries s a) acc false in
  ∃ n', node_for_each_while_mut s (height a) (bit_width a) F 0 (node a) acc = (n', acc', r)
    ∧ amt_rep_at s (set_node a n') (list_to_map l')
        (λ j, C acc' j ∨ (E ∧ is_ok r = false)).
Proof.
  intros HC Ha. pose proof Ha as [Hbw Hn Hc Hv Hh].
  pose proof (node_visit_ok (bit_width a) Hbw F C E HC s (height a) 0 (node a) (contents m) nowhere acc Hn
    ltac:(lia) (rep_bounds _ _ _ _ Ha)) as Hvis. unfold visit_ok in Hvis.
  fold (entries s a) in Hvis. destruct (visit_mut F (entries s a) acc false) as [[l' acc'] r] eqn:Ev.
  destruct Hvis as (n' & f' & Hrun & Hent & Hn' & Hch). exists n'. split; [exact Hrun|].
  assert (Hl' : listing 0 f' l').
  { rewrite <-Hent. eapply (node_entries_spec (bit_width a) Hbw); [exact Hn'|lia|].
    intros j Hj. apply Hch in Hj. by apply (rep_bounds _ _ _ _ Ha). }
  pose proof (listing_map _ _ Hl') as Hmap.
  assert (Hsome : ∀ j, is_Some ((list_to_map l' : gmap Z V) !! j) ↔ is_Some (m !! j)).
  { intros j. change (list_to_map l' !! j) with (contents (list_to_map l') j). rewrite Hmap. apply Hch. }
  split; cbn [bit_width height count node set_node].
  - done.
  - eapply node_rep_impl; [done|done| |by intros j; symmetry; apply Hmap|exact Hn'].
    intros j _ [[]|?]. done.
  - rewrite Hc, <-(listing_length _ _ (entries_listing _ _ _ _ Ha)).
    rewrite map_size_list_to_map.
    + f_equal. rewrite <-(length_fmap fst (entries s a)), <-(length_fmap fst l').
      pose proof (visit_mut_keys F (entries s a) acc false) as Hk. rewrite Ev in Hk. cbn in Hk. by rewrite Hk.
    + destruct Hl' as [Hs _]. by apply strict_sorted_nodup.
  - intros i Hi. apply Hv. by apply Hsome.
  - destruct Hh as [|(i & Hi & ?)]; [by left|right]. exists i. split; [by apply Hsome|done].
Qed.

(** Setting the entries that are pending makes the caches clean. *)
Lemma set_all_spec s a m kvs :
  amt_rep_at s a m (λ j, j ∈ kvs.*1) → (∀ i v, (i, v) ∈ kvs → m !! i = Some v) →
  ∃ a', set_all s a kvs = (a', Ok tt) ∧ amt_rep s a' m.
Proof.
  revert a. induction kvs as [|[i v] kvs IH]; intros a Ha Hkv; cbn [set_all].
  { exists a. split; [done|]. destruct Ha as [Hbw Hn Hc Hv Hh]. split; try done.
    eapply node_rep_weaken; [done| |exact Hn]. cbn. set_solver. }
  pose proof (Hkv i v ltac:(by left)) as Hi.
  destruct (amt_set_spec s a m _ i v Ha) as (a1 & -> & Ha1 & _).
  { eapply rep_valid; [exact Ha|]. by eexists. }
  rewrite insert_id in Ha1 by done. apply IH; [|intros; apply Hkv; by right].
  destruct Ha1 as [Hbw Hn Hc Hv Hh]. split; try done.
  eapply node_rep_weaken; [done| |exact Hn]. cbn. intros j _ [[->|?]%elem_of_cons ?]; done.
Qed.

(** What the closure of the [go-interop] variant records. *)
Lemma visit_go {A} (F : A → Z → V → A * (V * bool) * result (Error Cid) bool) l acc mu :
  let '(l', acc', r) := visit_mut F l acc false in
  ∃ mu', visit_mut (go_closure F) l (acc, mu) false
    = (l', (acc', mu ++ mu'), '(kg, _) ← r; Ok (kg, false)) ∧ ∀ p, p ∈ mu' → p ∈ l'.
Proof.
  revert acc mu. induction l as [|[i v] l IH]; intros acc mu; cbn.
  { exists []. rewrite app_nil_r. split; [done|set_solver]. }
  destruct (F acc i v) as [[acc1 [v' ch]] r1] eqn:EF. cbn.
  destruct r1 as [[|]|e]; cbn.
  - rewrite visit_mut_flag. specialize (IH acc1).
    destruct (visit_mut F l acc1 false) as [[l' acc'] r] eqn:Ev. destruct ch; cbn.
    + destruct (IH (mu ++ [(i, v')])) as (mu' & -> & Hmu). exists ((i, v') :: mu'). cbn.
      rewrite <-app_assoc. split; [destruct r as [[??]|]; done|set_solver].
    + destruct (IH mu) as (mu' & -> & Hmu). exists mu'. split; [destruct r as [[??]|]; done|set_solver].
  - destruct ch; cbn.
    + exists [(i, v')]. split; [done|set_solver].
    + exists []. rewrite app_nil_r. split; [done|set_solver].
  - destruct ch; cbn; exists []; rewrite app_nil_r; (split; [done|set_solver]).
Qed.

(** A closure that keeps to the rules of [ValueMut]: a value that is not marked
    as changed is the old one. *)
Definition honest {A} (F : A → Z → V → A * (V * bool) * result (Error Cid) bool) : Prop :=
  ∀ acc i v acc' v' r, F acc i v = (acc', (v', false), r) → v' = v.

(** *** Deleting many *)

Fixpoint absent (l : list Z) m : bool :=
  match l with
  | [] => false
  | i :: l => match m !! i with Some _ => false | None => true end || absent l (base.delete i m)
  end.

Lemma absent_spec l m : absent l m = false ↔ NoDup l ∧ ∀ i, i ∈ l → is_Some (m !! i).
Proof.
  revert m. induction l as [|i l IH]; intros m; cbn.
  { split; [|done]. intros _. split; [constructor|set_solver]. }
  rewrite orb_false_iff, IH, NoDup_cons. split.
  - intros [Hi [Hnd Hl]].
    assert (Hne : ∀ j, j ∈ l → j ≠ i ∧ is_Some (m !! j)).
    { intros j [x Hx]%Hl. apply lookup_delete_Some in Hx as [? ?]. split; [congruence|by eexists]. }
    split; [split; [|done]|]; [by intros []%Hne|].
    intros j [->|Hj]%elem_of_cons; [by destruct (m !! i)|]. by apply Hne.
  - intros [[Hni Hnd] Hl]. split; [|split; [done|]].
    + destruct (Hl i ltac:(by left)) as [x ->]. done.
    + intros j Hj. destruct (Hl j ltac:(by right)) as [x Hx]. exists x.
      rewrite lookup_delete_ne; [done|]. by intros ->.
Qed.

Lemma batch_delete_loop_spec s a m l (strict modified : bool) :
  amt_rep s a m → (∀ i, i ∈ l → valid_index i) →
  (strict = false ∨ absent l m = false) →
  ∃ a' m', batch_delete_loop s a l strict modified = (a', Ok (modified || absent l m))
    ∧ amt_rep s a' m' ∧ ∀ j, m' !! j = if bool_decide (j ∈ l) then None else m !! j.
Proof.
  revert a m modified. induction l as [|i l IH]; intros a m modified Ha Hl Hst; cbn.
  { exists a, m. rewrite orb_false_r. split; [done|]. split; [done|]. intros j. by case_bool_decide; [set_solver|]. }
  destruct (amt_delete_spec s a m nowhere i Ha) as (a1 & -> & Ha1 & _); [apply Hl; by left|].
  set (found := match m !! i with Some _ => false | None => true end).
  assert (strict && found = false) as Hsf.
  { destruct Hst as [->|Hst]; [done|]. cbn in Hst. fold found in Hst.
    apply orb_false_iff in Hst as [-> _]. by destruct strict. }
  rewrite Hsf.
  destruct (IH a1 (base.delete i m) (modified || found) Ha1) as (a' & m' & -> & Ha' & Hm').
  { intros j Hj. apply Hl. by right. }
  { destruct Hst as [|Hst]; [by left|right]. cbn in Hst. by apply orb_false_iff in Hst as [_ ?]. }
  exists a', m'. rewrite orb_assoc. split; [done|]. split; [done|]. intros j. rewrite Hm'.
  destruct (decide (i = j)) as [->|Hne].
  - rewrite lookup_delete_eq, (bool_decide_eq_true_2 (j ∈ j :: l)) by (by left).
    by case_bool_decide.
  - rewrite lookup_delete_ne by done.
    assert (bool_decide (j ∈ i :: l) = bool_decide (j ∈ l)) as -> by (apply bool_decide_ext; set_solver).
    done.
Qed.

Lemma batch_delete_loop_strict s a m l modified :
  amt_rep s a m → (∀ i, i ∈ l → valid_index i) → absent l m = true →
  ∃ a' e, batch_delete_loop s a l true modified = (a', Err e).
Proof.
  revert a m modified. induction l as [|i l IH]; intros a m modified Ha Hl Hab; cbn in *; [done|].
  destruct (amt_delete_spec s a m nowhere i Ha) as (a1 & -> & Ha1 & _); [apply Hl; by left|].
  destruct (m !! i); [|by eauto]. cbn in *. apply IH with (m := base.delete i m); [done| |done].
  intros j Hj. apply Hl. by right.
Qed.
End Spec.

(** ** A codec to run examples with *)

#[global] Instance plain_node_cbor : Cbor (CollapsedNode Z (list Z)) := {|
  to_vec c := [Z.pos (encode (cn_bmap c, cn_links c, cn_values c))];
  from_slice bz :=
    match bz with
    | [Z.pos p] =>
        match decode p with
        | Some (bmap, links, values) => Ok (Build_CollapsedNode bmap links values)
        | None => Err "bad node"%string
        end
    | _ => Err "bad node"%string
    end
|}.
#[global] Instance plain_node_cbor_ok : CborOk (CollapsedNode Z (list Z)).
Proof. split. intros [bmap links values]. cbn. by rewrite decode_encode. Qed.

#[global] Instance plain_root_cbor : Cbor (CollapsedRoot Z (list Z)) := {|
  to_vec r := [Z.pos (encode (cr_bit_width r, cr_height r, cr_count r,
    (cn_bmap (cr_node r), cn_links (cr_node r), cn_values (cr_node r))))];
  from_slice bz :=
    match bz with
    | [Z.pos p] =>
        match decode p with
        | Some (bw, h, n, (bmap, links, values)) =>
            Ok (Build_CollapsedRoot bw h n (Build_CollapsedNode bmap links values))
        | None => Err "bad root"%string
        end
    | _ => Err "bad root"%string
    end
|}.
#[global] Instance plain_root_cbor_ok : CborOk (CollapsedRoot Z (list Z)).
Proof. split. intros [bw h n [bmap links values]]. cbn. by rewrite decode_encode. Qed.

#[global] Existing Instance default_block_store.
#[global] Existing Instance default_block_store_ok.

Definition example_store : MemoryDB := {| mem_db := ∅ |}.

(** A trie of bit width 3 with entries at 3 and 100. *)
Lemma example_amt :
  ∃ a, amt_rep example_store a (<[100 := 8]> (<[3 := 7]> ∅)) ∧ bit_width a = 3.
Proof.
  pose proof (new_rep (V:=Z) (Cid:=list Z) example_store 3 ltac:(lia)) as H0.
  destruct (amt_set_spec example_store _ _ _ 3 7 H0) as (a1 & _ & H1 & W1);
    [unfold valid_index, MAX_INDEX, usize_max; lia|].
  destruct (amt_set_spec example_store _ _ _ 100 8 H1) as (a2 & _ & H2 & W2);
    [unfold valid_index, MAX_INDEX, usize_max; lia|].
  exists a2. cbn in W1. split; [|congruence]. destruct H2 as [Hbw Hn Hc Hv Hh]. split; try done.
  eapply node_rep_weaken; [done| |exact Hn]. by intros j _ [[[] _] _].
Defined.

(** ** Theorems *)

Section Theorems.
Context {V Cid BS : Type} `{!BlockStore BS Cid, !CidOps Cid, !CidOk Cid, !BlockStoreOk BS Cid,
  !Cbor (CollapsedNode V Cid), !CborOk (CollapsedNode V Cid),
  !Cbor (CollapsedRoot V Cid), !CborOk (CollapsedRoot V Cid)}.

(** C9.  The array mapped trie implements a map from indices to values: [get],
    [set] and [delete] return what the map holds at the index and leave a trie
    for the unchanged, extended or reduced map, whatever part of it is cached,
    modified in memory or only in the store, and for every bit width; [count]
    is the size of the map; indices above [MAX_INDEX] are refused. *)
Theorem amt_refines_map (s : BS) (a : Root V Cid) (m : gmap Z V) (i : Z) (v : V) :
  amt_rep s a m → 0 ≤ i →
  count a = Z.of_nat (size m) ∧
  if bool_decide (i ≤ MAX_INDEX) then
    (∃ a', amt_get s a i = (a', Ok (m !! i)) ∧ amt_rep s a' m) ∧
    (∃ a', amt_set s a i v = (a', Ok tt) ∧ amt_rep s a' (<[i := v]> m)) ∧
    (∃ a', amt_delete s a i = (a', Ok (m !! i)) ∧ amt_rep s a' (base.delete i m))
  else
    amt_get s a i = (a, Err (OutOfRange i)) ∧ amt_set s a i v = (a, Err (OutOfRange i)) ∧
    amt_delete s a i = (a, Err (OutOfRange i)).
Proof.
  intros Ha Hi. split; [apply Ha|]. case_bool_decide as Hmax.
  - assert (Hv : valid_index i) by (split; lia). split; [by apply amt_get_spec|]. split.
    + destruct (amt_set_spec s a m nowhere i v Ha Hv) as (a' & H1 & [? Hn ? ? ?] & _).
      exists a'. split; [done|]. split; try done.
      eapply node_rep_weaken; [done| |exact Hn]. by intros j _ [[] _].
    + destruct (amt_delete_spec s a m nowhere i Ha Hv) as (a' & H1 & H2 & _). by exists a'.
  - unfold amt_get, amt_set, amt_delete. destruct (Z.ltb_spec MAX_INDEX i); [done|lia].
Qed.

(** C24.  Flushing writes a trie that loads back from its CID to the same map,
    and it does not depend on how the trie was built: two tries of the same
    bit width for the same map, in whatever stores, flush to the same CID. *)
Theorem amt_flush_canonical (s1 s2 : BS) (a1 a2 : Root V Cid) (m : gmap Z V) :
  amt_rep s1 a1 m → amt_rep s2 a2 m → bit_width a1 = bit_width a2 →
  ∃ s1' s2' a1' a2' b1 cid,
    amt_flush s1 a1 = (s1', a1', Ok cid) ∧ amt_flush s2 a2 = (s2', a2', Ok cid) ∧
    amt_rep s1' a1' m ∧ load cid s1' = Ok b1 ∧ amt_rep s1' b1 m.
Proof.
  intros H1 H2 Hbw. pose proof (height_unique _ _ _ _ _ H1 H2 Hbw) as Hh.
  destruct (amt_flush_spec s1 a1 m H1) as (s1' & n1 & c1 & F1 & R1 & _ & S1 & P1).
  destruct (amt_flush_spec s2 a2 m H2) as (s2' & n2 & c2 & F2 & R2 & _ & S2 & _).
  assert (c1 = c2) as <-.
  { pose proof (rep_node _ _ _ _ R1) as N1. pose proof (rep_node _ _ _ _ R2) as N2.
    cbn [set_node node bit_width height] in N1, N2. rewrite <-Hbw, <-Hh in N2.
    exact (serialize_canonical (bit_width a1) (rep_width _ _ _ _ H1) _ _ _ _ _ _ _ _ N1 N2 S1 S2). }
  destruct (amt_load_spec s1' _ m c1 R1 S1 P1) as (b1 & L1 & B1).
  assert (count a1 = count a2) as Hc by (rewrite (rep_count _ _ _ _ H1), (rep_count _ _ _ _ H2); done).
  eexists s1', s2', _, _, b1, _. rewrite F2, <-Hbw, <-Hh, <-Hc. by split_and!.
Qed.

(** [for_each_while] calls its closure on the entries of the map in
    ascending order of their indices, until it returns [false] or fails, and
    leaves the map as it is. *)
Theorem amt_for_each_ascending (s : BS) (a : Root V Cid) (m : gmap Z V) :
  amt_rep s a m →
  ∃ l, StronglySorted Z.lt l.*1 ∧ (∀ i v, (i, v) ∈ l ↔ m !! i = Some v) ∧
    ∀ A (F : A → Z → V → A * result (Error Cid) bool) (acc : A),
      let '(acc', r) := visit F l acc in
      ∃ a', for_each_while s a F acc = (a', acc', _ ← r; Ok tt) ∧ amt_rep s a' m.
Proof.
  intros Ha. pose proof (entries_listing s a m nowhere Ha) as Hl. exists (entries s a).
  pose proof Hl as [Hs Hin]. split; [done|]. split.
  { intros i v. rewrite Hin, Z.sub_0_r. done. }
  intros A F acc. pose proof (root_visit (read_only F) (λ _ _, False) False s a m acc) as Hv.
  rewrite visit_read_only in Hv. destruct (visit F (entries s a) acc) as [acc' r].
  destruct Hv as (n' & Hrun & Hrep); [|done|].
  { intros acc0 i v acc1 v' ch r0. unfold read_only. destruct (F acc0 i v). intros [= <- <- <- <-]. auto. }
  unfold for_each_while. rewrite node_for_each_read_only in Hrun by apply Ha.
  destruct (node_for_each_while s (height a) (bit_width a) F 0 (node a) acc) as [[n1 acc1] r1].
  injection Hrun as -> -> Hr. exists (set_node a n').
  assert (r1 = r) as -> by (destruct r1, r; cbn in Hr; congruence). split; [done|].
  assert (Hm : list_to_map (entries s a) = m) by (apply map_eq; by apply listing_map).
  rewrite Hm in Hrep. destruct Hrep as [? Hn ? ? ?]. split; try done.
  eapply node_rep_weaken; [done| |exact Hn]. by intros j _ [[]|[[] _]].
Qed.

(** [for_each_while_mut], with and without the feature [go-interop] the
    actors use: the entries are visited in ascending order, and when no call of
    the closure fails the trie holds the values the closure left, and would be
    flushed as such.  The closure is one that borrows a value mutably when it
    changes it. *)
Theorem amt_for_each_mut (s : BS) (a : Root V Cid) (m : gmap Z V) {A : Type}
    (F : A → Z → V → A * (V * bool) * result (Error Cid) bool) (acc : A) :
  amt_rep s a m → honest F →
  ∃ l, StronglySorted Z.lt l.*1 ∧ (∀ i v, (i, v) ∈ l ↔ m !! i = Some v) ∧
    let '(l', acc', r) := visit_mut F l acc false in
    l'.*1 = l.*1 ∧
    ∃ a1 a2, for_each_while_mut s a F acc = (a1, acc', _ ← r; Ok tt) ∧
      for_each_while_mut_go s a F acc = (a2, acc', _ ← r; Ok tt) ∧
      (is_ok r = true → amt_rep s a1 (list_to_map l') ∧ amt_rep s a2 (list_to_map l')).
Proof.
  intros Ha HF. pose proof (entries_listing s a m nowhere Ha) as Hl. exists (entries s a).
  pose proof Hl as [Hs Hin]. split; [done|]. split; [intros i v; by rewrite Hin, Z.sub_0_r|].
  pose proof (root_visit F (λ _ _, False) True s a m acc) as Hv.
  pose proof (root_visit (go_closure F) (λ '(_, mu) j, j ∈ mu.*1) True s a m (acc, [])) as Hg.
  pose proof (visit_go F (entries s a) acc []) as Hgo.
  pose proof (visit_mut_keys F (entries s a) acc false) as Hkeys.
  destruct (visit_mut F (entries s a) acc false) as [[l' acc'] r]. split; [done|].
  destruct Hgo as (mu & Hgo & Hmu). change ([] ++ mu) with mu in Hgo. rewrite Hgo in Hg.
  destruct Hv as (n1 & Hrun1 & Hrep1); [|done|].
  { intros acc0 i v acc1 v' [|] r0 EF; [auto|]. apply HF in EF. auto. }
  destruct Hg as (n2 & Hrun2 & Hrep2); [|done|].
  { intros [acc0 mu0] i v [acc1 mu1] v' ch r0. unfold go_closure.
    destruct (F acc0 i v) as [[acc2 [v2 ch2]] [kg|e]] eqn:EF.
    - destruct ch2; intros [= <- <- <- <- <-]; (split; [set_solver|]); [|right; left; by eapply HF].
      right; right. rewrite fmap_app. set_solver.
    - intros [= <- <- <- <- <-]. split; [done|]. destruct ch2; [auto|]. apply HF in EF. auto. }
  unfold for_each_while_mut, for_each_while_mut_go. rewrite Hrun1, Hrun2.
  destruct r as [[kg d]|e]; cbn [mbind result_bind].
  - destruct (set_all_spec s (set_node a n2) (list_to_map l') mu) as (a2 & -> & Ha2).
    + destruct Hrep2 as [? Hn ? ? ?]. split; try done.
      eapply node_rep_weaken; [done| |exact Hn]. by intros j _ [?|[_ ?]].
    + intros i v Hiv%Hmu. apply elem_of_list_to_map; [|done].
      cbn in Hkeys. rewrite Hkeys. by apply strict_sorted_nodup.
    + eexists _, a2. split; [done|]. split; [done|]. intros _. split; [|done].
      destruct Hrep1 as [? Hn ? ? ?]. split; try done.
      eapply node_rep_weaken; [done| |exact Hn]. by intros j _ [[]|[_ ?]].
  - by eexists _, _.
Qed.

(** [batch_delete] deletes all the given indices when each of them is
    present and listed once; with [strict] it fails otherwise.  Its result is
    [true] exactly when some index was absent or listed twice, so a call that
    deletes every index returns [false]. *)
Theorem amt_batch_delete (s : BS) (a : Root V Cid) (m : gmap Z V) (l : list Z) (strict : bool) :
  amt_rep s a m → (∀ i, i ∈ l → 0 ≤ i ≤ MAX_INDEX) →
  let all_present := NoDup l ∧ ∀ i, i ∈ l → is_Some (m !! i) in
  (all_present ∨ strict = false →
    ∃ a' m' modified, batch_delete s a l strict = (a', Ok modified) ∧ amt_rep s a' m' ∧
      (∀ j, m' !! j = if bool_decide (j ∈ l) then None else m !! j) ∧
      (modified = false ↔ all_present)) ∧
  (¬ all_present → strict = true → ∃ a' e, batch_delete s a l strict = (a', Err e)).
Proof.
  intros Ha Hl all_present.
  assert (Hp : sorted l ≡ₚ l) by (apply merge_sort_Permutation).
  assert (Hl' : ∀ i, i ∈ sorted l → valid_index i) by (intros i; rewrite Hp; apply Hl).
  assert (Hab : absent (sorted l) m = false ↔ all_present).
  { rewrite absent_spec, Hp. unfold all_present. apply and_iff_compat_l.
    apply forall_proper. intros i. by rewrite Hp. }
  split.
  - intros Hcase.
    destruct (batch_delete_loop_spec s a m (sorted l) strict false Ha Hl') as (a' & m' & Hb & Ha' & Hm').
    { rewrite Hab. tauto. }
    exists a', m', (absent (sorted l) m). split; [exact Hb|]. split; [done|]. split; [|done].
    intros j. rewrite Hm'. by rewrite (bool_decide_ext _ _ (elem_of_Permutation_proper _ _ _ Hp)).
  - intros Hno ->. apply (batch_delete_loop_strict s a m); [done|done|].
    destruct (absent (sorted l) m); [done|]. tauto.
Qed.
End Theorems.

(** *** Witnesses *)

Lemma amt_refines_map_witness :
  ∃ (a : Root Z (list Z)) a',
    amt_get example_store a 100 = (a', Ok (Some 8)) ∧ count a = 2.
Proof.
  destruct example_amt as (a & Ha & _).
  destruct (amt_refines_map example_store a _ 100 0 Ha ltac:(lia)) as (Hc & Hops).
  rewrite bool_decide_eq_true_2 in Hops by (unfold MAX_INDEX, usize_max; lia).
  destruct Hops as ((a' & Hg & _) & _). exists a, a'. split; [exact Hg|]. rewrite Hc. reflexivity.
Defined.

Lemma amt_flush_canonical_witness :
  ∃ (a : Root Z (list Z)) s' a' b cid,
    amt_flush example_store a = (s', a', Ok cid) ∧ load cid s' = Ok b.
Proof.
  destruct example_amt as (a & Ha & _).
  destruct (amt_flush_canonical example_store example_store a a _ Ha Ha eq_refl)
    as (s1' & s2' & a1' & a2' & b1 & cid & F1 & _ & _ & L1 & _).
  by exists a, s1', a1', b1, cid.
Defined.

(** The closure of the example collects the indices. *)
Lemma amt_for_each_ascending_witness :
  ∃ (a a' : Root Z (list Z)),
    for_each_while example_store a (λ acc i _, (acc ++ [i], Ok true)) [] = (a', [3; 100], Ok tt).
Proof.
  destruct example_amt as (a & Ha & _).
  destruct (amt_for_each_ascending example_store a _ Ha) as (l & Hs & Hin & Hrun).
  assert (l.*1 = [3; 100]) as Hl.
  { apply strict_sorted_ext; [done|repeat constructor|]. intros x. split.
    - intros ([i v] & -> & Hi%Hin)%list_elem_of_fmap. cbn.
      apply lookup_insert_Some in Hi as [[<- _]|[_ Hi]]; [set_solver|].
      apply lookup_insert_Some in Hi as [[<- _]|[_ Hi]]; [set_solver|done].
    - intros Hx. apply list_elem_of_fmap.
      assert (x = 3 ∨ x = 100) as [->| ->] by set_solver; [exists (3, 7)|exists (100, 8)];
        (split; [done|]); apply Hin; reflexivity. }
  specialize (Hrun _ (λ acc i _, (acc ++ [i], Ok true)) []).
  assert (∀ acc, visit (Cid:=list Z) (λ acc i _, (acc ++ [i], Ok true)) l acc = (acc ++ l.*1, Ok true)) as Hv.
  { clear. induction l as [|[i v] l IH]; intros acc; cbn; [by rewrite app_nil_r|].
    by rewrite IH, <-app_assoc. }
  rewrite Hv, Hl in Hrun. destruct Hrun as (a' & Hrun & _). by exists a, a'.
Defined.

(** A closure that doubles every value. *)
Definition double_closure (acc : unit) (_ v : Z) : unit * (Z * bool) * result (Error (list Z)) bool :=
  (acc, (2 * v, true), Ok true).

Lemma amt_for_each_mut_witness :
  ∃ (a a1 a2 : Root Z (list Z)),
    for_each_while_mut example_store a double_closure tt = (a1, tt, Ok tt) ∧
    for_each_while_mut_go example_store a double_closure tt = (a2, tt, Ok tt).
Proof.
  destruct example_amt as (a & Ha & _).
  destruct (amt_for_each_mut example_store a _ double_closure tt Ha) as (l & _ & _ & Hrun).
  { intros acc i v acc' v' r. unfold double_closure. congruence. }
  assert (Hok : ∀ dm, ∃ l' d, visit_mut double_closure l tt dm = (l', tt, Ok (true, d))).
  { clear. induction l as [|[i v] l IH]; intros dm; cbn; [by eauto|].
    destruct (IH (dm || true)) as (l' & d & ->). eauto. }
  destruct (Hok false) as (l' & d & Hv). rewrite Hv in Hrun.
  destruct Hrun as (_ & a1 & a2 & H1 & H2 & _). by exists a, a1, a2.
Defined.

Lemma amt_batch_delete_witness :
  ∃ (a a' : Root Z (list Z)), batch_delete example_store a [100; 3] true = (a', Ok false).
Proof.
  destruct example_amt as (a & Ha & _).
  destruct (amt_batch_delete example_store a _ [100; 3] true Ha) as [Hyes _].
  { intros i Hi. unfold MAX_INDEX, usize_max. assert (i = 100 ∨ i = 3) by set_solver. lia. }
  assert (Hall : NoDup [100; 3] ∧ ∀ i, i ∈ [100; 3] → is_Some ((<[100:=8]> (<[3:=7]> (∅ : gmap Z Z))) !! i)).
  { split; [repeat constructor; set_solver|]. intros i Hi.
    assert (i = 100 ∨ i = 3) as [->| ->] by set_solver; by eexists. }
  destruct Hyes as (a' & m' & modified & Hb & _ & _ & Hm); [by left|].
  exists a, a'. by rewrite (proj2 Hm Hall) in Hb.
Defined.

(** *** A failing closure *)

(** Zeroes the first value it sees and then fails. *)
Definition failing_closure (acc : bool) (_ v : Z) : bool * (Z * bool) * result (Error (list Z)) bool :=
  if acc then (acc, (v, false), Err (Other "stop")) else (true, (0, true), Ok true).

(** A closure that changes a value and then fails leaves a link by CID whose
    cache is ahead of the store: the trie reads the new value, but flushes and
    loads back to the old one. *)
Lemma for_each_mut_error_diverges :
  let a := fst (amt_set example_store (fst (amt_set example_store (new_with_bit_width 1) 0 7)) 1 8) in
  let a := fst (amt_set example_store a 2 9) in
  let '(s, a, _) := amt_flush example_store a in
  let '(a, _, r) := for_each_while_mut s a failing_closure false in
  is_ok r = false ∧ snd (amt_get s a 0) = Ok (Some 0) ∧
  let '(s, a, r) := amt_flush s a in
  match cid ← r; load cid s with
  | Ok b => snd (amt_get s b 0) = Ok (Some 7)
  | Err _ => False
  end.
Proof. vm_compute. repeat split. Qed.
