(* ===== verification/Hamt.v ===== *)
(** * The hash array mapped trie (src/ipld/hamt)

    Bits of hashed keys, the 256-bit field of a node, pointers, nodes and the
    [Hamt] itself, over any block store.  The hash function and the order of
    keys are parameters.  As in the array mapped trie, operations return the
    node they leave behind also when they fail, and a panic is the error
    [Panic]. *)

From stdpp Require Import strings.
From S2P Require Import Prelude Blockstore.

Inductive HamtError (Cid : Type) :=
| MaxDepth
| InvalidHashBitLen
| ZeroPointers
| HCidNotFound (cid : Cid)
| HDynamic (e : string)
| HPanic.
Arguments MaxDepth {Cid}. Arguments InvalidHashBitLen {Cid}. Arguments ZeroPointers {Cid}.
Arguments HCidNotFound {Cid}. Arguments HDynamic {Cid}. Arguments HPanic {Cid}.

Definition MAX_ARRAY_WIDTH : nat := 3.
Definition DEFAULT_BIT_WIDTH : Z := 8.

(** ** Hash bits *)

Definition mkmask (n : Z) : Z := Z.shiftl 1 n - 1.

(** [!x] on a [u32]. *)
Definition not_u32 (x : Z) : Z := 2 ^ 32 - 1 - x.

(** [HashBits::next_bits] from the position [consumed]; it calls itself at most
    once, at the next byte. *)
Fixpoint next_bits (fuel : nat) (b : bytes) (consumed i : Z) : Z * Z :=
  let curbi := consumed / 8 in
  let leftb := 8 - consumed mod 8 in
  let curb := default 0 (b !! Z.to_nat curbi) in
  if i =? leftb then (Z.land (mkmask i) curb, consumed + i)
  else if i <? leftb then
    let a := Z.land curb (mkmask leftb) in
    let b := Z.land a (not_u32 (mkmask (leftb - i))) in
    (Z.shiftr b (leftb - i), consumed + i)
  else match fuel with
  | O => (0, consumed)
  | S fuel =>
      let out := Z.shiftl (Z.land (mkmask leftb) curb) (i - leftb) in
      let '(rest, consumed) := next_bits fuel b (consumed + leftb) (i - leftb) in
      (out + rest, consumed)
  end.

Definition next {Cid} (b : bytes) (consumed i : Z) : result (HamtError Cid) (Z * Z) :=
  if 8 <? i then Err InvalidHashBitLen
  else if Z.of_nat (length b) * 8 <? consumed + i then Err MaxDepth
  else Ok (next_bits 1 b consumed i).

(** ** The bit field of a node *)

Record Bitfield := { word0 : Z; word1 : Z; word2 : Z; word3 : Z }.

Definition word (b : Bitfield) (ai : Z) : Z :=
  if ai =? 0 then word0 b else if ai =? 1 then word1 b
  else if ai =? 2 then word2 b else word3 b.
Definition set_word (b : Bitfield) (ai w : Z) : Bitfield :=
  if ai =? 0 then {| word0 := w; word1 := word1 b; word2 := word2 b; word3 := word3 b |}
  else if ai =? 1 then {| word0 := word0 b; word1 := w; word2 := word2 b; word3 := word3 b |}
  else if ai =? 2 then {| word0 := word0 b; word1 := word1 b; word2 := w; word3 := word3 b |}
  else {| word0 := word0 b; word1 := word1 b; word2 := word2 b; word3 := w |}.

Definition clear_bit (b : Bitfield) (idx : Z) : Bitfield :=
  let ai := idx / 64 in
  let bi := idx mod 64 in
  set_word b ai (Z.land (word b ai) (usize_max - Z.shiftl 1 bi)).

Definition test_bit (b : Bitfield) (idx : Z) : bool :=
  let ai := idx / 64 in
  let bi := idx mod 64 in
  negb (Z.land (word b ai) (Z.shiftl 1 bi) =? 0).

Definition set_bit (b : Bitfield) (idx : Z) : Bitfield :=
  let ai := idx / 64 in
  let bi := idx mod 64 in
  set_word b ai (Z.lor (word b ai) (Z.shiftl 1 bi)).

(** [u64::count_ones] *)
Definition count_ones_u64 (w : Z) : nat :=
  length (List.filter (λ i, Z.testbit w (Z.of_nat i)) (seq 0 64)).

Definition count_ones (b : Bitfield) : nat :=
  count_ones_u64 (word0 b) + count_ones_u64 (word1 b)
  + count_ones_u64 (word2 b) + count_ones_u64 (word3 b).

Definition bf_and (a b : Bitfield) : Bitfield :=
  {| word0 := Z.land (word0 a) (word0 b); word1 := Z.land (word1 a) (word1 b);
     word2 := Z.land (word2 a) (word2 b); word3 := Z.land (word3 a) (word3 b) |}.

Definition bf_zero : Bitfield := {| word0 := 0; word1 := 0; word2 := 0; word3 := 0 |}.

(** [(v as u128 | ((1u128 << (1 + bit)) - 1)) as u64] *)
Definition set_bits_leq_word (v bit : Z) : Z :=
  wrap_u64 (Z.lor v (Z.shiftl 1 (1 + bit) - 1)).

Definition set_bits_leq (b : Bitfield) (bit : Z) : Bitfield :=
  if bit <? 64 then
    {| word0 := set_bits_leq_word (word0 b) bit; word1 := word1 b; word2 := word2 b; word3 := word3 b |}
  else if bit <? 128 then
    {| word0 := usize_max; word1 := set_bits_leq_word (word1 b) (bit - 64);
       word2 := word2 b; word3 := word3 b |}
  else if bit <? 192 then
    {| word0 := usize_max; word1 := usize_max;
       word2 := set_bits_leq_word (word2 b) (bit - 128); word3 := word3 b |}
  else
    {| word0 := usize_max; word1 := usize_max; word2 := usize_max;
       word3 := set_bits_leq_word (word3 b) (bit - 192) |}.

Definition set_bits_le (b : Bitfield) (bit : Z) : Bitfield :=
  if bit =? 0 then b else set_bits_leq b (bit - 1).

Fixpoint strip_zeros (bz : bytes) : bytes :=
  match bz with
  | b :: bz' => if negb (b =? 0) then bz else strip_zeros bz'
  | [] => []
  end.

Definition bitfield_serialize (b : Bitfield) : bytes :=
  strip_zeros (be_u64 (word3 b) ++ be_u64 (word2 b) ++ be_u64 (word1 b) ++ be_u64 (word0 b)).

(** [arr[(32 - len)..]] panics for more than 32 bytes. *)
Definition bitfield_deserialize {Cid} (bz : bytes) : result (HamtError Cid) Bitfield :=
  if (32 <? length bz)%nat then Err HPanic
  else
    let arr := replicate (32 - length bz) 0 ++ bz in
    Ok {| word3 := un_be_u64 (take 8 arr); word2 := un_be_u64 (take 8 (drop 8 arr));
          word1 := un_be_u64 (take 8 (drop 16 arr)); word0 := un_be_u64 (drop 24 arr) |}.

(** ** Nodes and pointers *)

Inductive Pointer (K V Cid : Type) :=
| Values (kvs : list (K * V))
| PLink (cid : Cid) (cache : option (HNode K V Cid))
| PDirty (n : HNode K V Cid)
with HNode (K V Cid : Type) :=
| MkHNode (bitfield : Bitfield) (pointers : list (Pointer K V Cid)).
Arguments Values {K V Cid}. Arguments PLink {K V Cid}. Arguments PDirty {K V Cid}.
Arguments MkHNode {K V Cid}.

(** [PointerSer]: what a pointer is serialized as. *)
Inductive PointerSer (K V Cid : Type) :=
| SerVals (kvs : list (K * V))
| SerLink (cid : Cid).
Arguments SerVals {K V Cid}. Arguments SerLink {K V Cid}.

(** The tuple a node is serialized as. *)
Record SerNode (K V Cid : Type) := { ser_bitfield : bytes; ser_pointers : list (PointerSer K V Cid) }.
Arguments Build_SerNode {K V Cid}. Arguments ser_bitfield {K V Cid}. Arguments ser_pointers {K V Cid}.

Section Operations.
Context {K V Cid BS : Type} `{!EqDecision K, !EqDecision V, !BlockStore BS Cid, !Cbor (SerNode K V Cid)}.
(** [H::hash] and [PartialOrd for K]. *)
Context (hash : K → bytes) (key_ltb : K → K → bool).
Implicit Types (n : HNode K V Cid) (p : Pointer K V Cid) (bs : BS).
Implicit Types (kvs : list (K * V)).

Definition bitfield n : Bitfield := match n with MkHNode b _ => b end.
Definition pointers n : list (Pointer K V Cid) := match n with MkHNode _ ps => ps end.

Definition node_default : HNode K V Cid := MkHNode bf_zero [].

Definition pointer_default : Pointer K V Cid := Values [].
Definition from_key_value (key : K) (value : V) : Pointer K V Cid := Values [(key, value)].

(** [TryFrom<&Pointer> for PointerSer] *)
Definition pointer_ser p : result string (PointerSer K V Cid) :=
  match p with
  | Values vals => Ok (SerVals vals)
  | PLink cid _ => Ok (SerLink cid)
  | PDirty _ => Err "Cannot serialize cached values"%string
  end.

(** [From<PointerDe> for Pointer] *)
Definition pointer_de (ps : PointerSer K V Cid) : Pointer K V Cid :=
  match ps with
  | SerVals vals => Values vals
  | SerLink cid => PLink cid None
  end.

Fixpoint pointers_ser (ps : list (Pointer K V Cid)) : result string (list (PointerSer K V Cid)) :=
  match ps with
  | [] => Ok []
  | p :: ps => q ← pointer_ser p; qs ← pointers_ser ps; Ok (q :: qs)
  end.

(** [Serialize for Node] and [Deserialize for Node], up to the tuple. *)
Definition node_ser n : result string (SerNode K V Cid) :=
  ps ← pointers_ser (pointers n);
  Ok {| ser_bitfield := bitfield_serialize (bitfield n); ser_pointers := ps |}.

Definition node_de (c : SerNode K V Cid) : result (HamtError Cid) (HNode K V Cid) :=
  b ← bitfield_deserialize (ser_bitfield c);
  Ok (MkHNode b (pointer_de <$> ser_pointers c)).

Definition dynamic {A} (r : result string A) : result (HamtError Cid) A :=
  match r with Ok a => Ok a | Err e => Err (HDynamic e) end.

(** [store.get(cid)?.ok_or_else(|| Error::CidNotFound(..))] *)
Definition load_hnode bs (cid : Cid) : result (HamtError Cid) (HNode K V Cid) :=
  o ← dynamic (get (SerNode K V Cid) bs cid);
  c ← ok_or o (HCidNotFound cid);
  node_de c.

(** [store.put(node, Blake2b256)] *)
Definition put_hnode bs n : result (HamtError Cid) (Cid * BS) :=
  dynamic (c ← node_ser n; put bs c).

Definition cached_hnode bs (cid : Cid) (cache : option (HNode K V Cid))
    : result (HamtError Cid) (HNode K V Cid) :=
  match cache with Some n => Ok n | None => load_hnode bs cid end.

(** [index_for_bit_pos] *)
Definition index_for_bit_pos n (bp : Z) : nat :=
  count_ones (bf_and (set_bits_le bf_zero bp) (bitfield n)).

Definition set_child n (i : nat) p : HNode K V Cid := MkHNode (bitfield n) (<[i := p]> (pointers n)).

(** [Vec::insert] and [Vec::remove] within bounds. *)
Definition vec_insert {A} (i : nat) (a : A) (l : list A) : list A := take i l ++ a :: drop i l.

Definition insert_child n (idx : Z) (key : K) (value : V) : HNode K V Cid :=
  let i := index_for_bit_pos n idx in
  MkHNode (set_bit (bitfield n) idx) (vec_insert i (from_key_value key value) (pointers n)).

Definition rm_child n (i : nat) (idx : Z) : HNode K V Cid :=
  MkHNode (clear_bit (bitfield n) idx) (base.delete i (pointers n)).

(** [Iterator::position] *)
Fixpoint position {A} (f : A → bool) (l : list A) : option nat :=
  match l with
  | [] => None
  | a :: l => if f a then Some O else S <$> position f l
  end.

(** [sort_unstable_by] with the comparison of keys, as an insertion sort. *)
Definition insert_in_order (kv : K * V) kvs : list (K * V) :=
  vec_insert (default (length kvs) (position (λ c, key_ltb kv.1 c.1) kvs)) kv kvs.
Definition sort_by_key kvs : list (K * V) := foldr insert_in_order [] kvs.

(** The loop of [clean] that counts the values of the children, unless one of
    them is a node. *)
Fixpoint children_len (ps : list (Pointer K V Cid)) : option nat :=
  match ps with
  | [] => Some O
  | Values vals :: ps => Nat.add (length vals) <$> children_len ps
  | _ :: _ => None
  end.

Definition values_of p : list (K * V) := match p with Values kvs => kvs | _ => [] end.

(** [Pointer::clean] *)
Definition clean p : Pointer K V Cid * result (HamtError Cid) unit :=
  match p with
  | PDirty n =>
      match pointers n with
      | [] => (p, Err ZeroPointers)
      | [Values vals] => (Values vals, Ok tt)
      | [_] => (p, Ok tt)
      | ps =>
          if (length ps <=? MAX_ARRAY_WIDTH)%nat then
            match children_len ps with
            | None => (p, Ok tt)
            | Some len =>
                if (MAX_ARRAY_WIDTH <? len)%nat then (p, Ok tt)
                else (Values (sort_by_key (ps ≫= values_of)), Ok tt)
            end
          else (p, Ok tt)
      end
  | _ => (p, Err HPanic)
  end.

(** [Node::get_value]; [fuel] bounds the depth, which the hash bounds too. *)
Fixpoint get_value (fuel : nat) bs (bit_width : Z) n (hashed_key : bytes) (consumed : Z) (key : K)
    : HNode K V Cid * result (HamtError Cid) (option (K * V)) :=
  match fuel with
  | O => (n, Err MaxDepth)
  | S fuel =>
      match next hashed_key consumed bit_width with
      | Err e => (n, Err e)
      | Ok (idx, consumed) =>
          if negb (test_bit (bitfield n) idx) then (n, Ok None)
          else
            let cindex := index_for_bit_pos n idx in
            match pointers n !! cindex with
            | None => (n, Err HPanic)
            | Some (PLink cid cache) =>
                match cached_hnode bs cid cache with
                | Err e => (n, Err e)
                | Ok sub =>
                    let '(sub, r) := get_value fuel bs bit_width sub hashed_key consumed key in
                    (set_child n cindex (PLink cid (Some sub)), r)
                end
            | Some (PDirty sub) =>
                let '(sub, r) := get_value fuel bs bit_width sub hashed_key consumed key in
                (set_child n cindex (PDirty sub), r)
            | Some (Values vals) => (n, Ok (List.find (λ kv, bool_decide (key = kv.1)) vals))
            end
      end
  end.

(** The loop of [modify_value] that inserts the values of a full pointer into
    the new sub node. *)
Fixpoint reinsert (modify : HNode K V Cid → K → V → HNode K V Cid * result (HamtError Cid) (option V * bool))
    (sub : HNode K V Cid) kvs : HNode K V Cid * result (HamtError Cid) unit :=
  match kvs with
  | [] => (sub, Ok tt)
  | (k, v) :: kvs =>
      match modify sub k v with
      | (sub, Err e) => (sub, Err e)
      | (sub, Ok _) => reinsert modify sub kvs
      end
  end.

(** [Node::modify_value] *)
Fixpoint modify_value (fuel : nat) bs (bit_width : Z) n (hashed_key : bytes) (consumed : Z)
    (key : K) (value : V) (overwrite : bool)
    : HNode K V Cid * result (HamtError Cid) (option V * bool) :=
  match fuel with
  | O => (n, Err MaxDepth)
  | S fuel =>
      match next hashed_key consumed bit_width with
      | Err e => (n, Err e)
      | Ok (idx, consumed) =>
          if negb (test_bit (bitfield n) idx) then (insert_child n idx key value, Ok (None, true))
          else
            let cindex := index_for_bit_pos n idx in
            match pointers n !! cindex with
            | None => (n, Err HPanic)
            | Some (PLink cid cache) =>
                match cached_hnode bs cid cache with
                | Err e => (n, Err e)
                | Ok sub =>
                    match modify_value fuel bs bit_width sub hashed_key consumed key value overwrite with
                    | (sub, Err e) => (set_child n cindex (PLink cid (Some sub)), Err e)
                    | (sub, Ok (old, modified)) =>
                        (set_child n cindex (if modified then PDirty sub else PLink cid (Some sub)),
                         Ok (old, modified))
                    end
                end
            | Some (PDirty sub) =>
                let '(sub, r) := modify_value fuel bs bit_width sub hashed_key consumed key value overwrite in
                (set_child n cindex (PDirty sub), r)
            | Some (Values vals) =>
                match position (λ kv, bool_decide (kv.1 = key)) vals with
                | Some i =>
                    if overwrite then
                      match vals !! i with
                      | None => (n, Err HPanic)
                      | Some (k, old) =>
                          (set_child n cindex (Values (<[i := (k, value)]> vals)),
                           Ok (Some old, bool_decide (old ≠ value)))
                      end
                    else (n, Ok (None, false))
                | None =>
                    if (MAX_ARRAY_WIDTH <=? length vals)%nat then
                      match modify_value fuel bs bit_width node_default hashed_key consumed key value overwrite with
                      | (_, Err e) => (n, Err e)
                      | (sub, Ok modified) =>
                          match reinsert (λ sub k v,
                            modify_value fuel bs bit_width sub (hash k) consumed k v overwrite) sub vals with
                          | (_, Err e) => (set_child n cindex pointer_default, Err e)
                          | (sub, Ok _) => (set_child n cindex (PDirty sub), Ok modified)
                          end
                      end
                    else
                      let idx := default (length vals) (position (λ c, key_ltb key c.1) vals) in
                      (set_child n cindex (Values (vec_insert idx (key, value) vals)), Ok (None, true))
                end
            end
      end
  end.

(** [Node::rm_value] *)
Fixpoint rm_value (fuel : nat) bs (bit_width : Z) n (hashed_key : bytes) (consumed : Z) (key : K)
    : HNode K V Cid * result (HamtError Cid) (option (K * V)) :=
  match fuel with
  | O => (n, Err MaxDepth)
  | S fuel =>
      match next hashed_key consumed bit_width with
      | Err e => (n, Err e)
      | Ok (idx, consumed) =>
          if negb (test_bit (bitfield n) idx) then (n, Ok None)
          else
            let cindex := index_for_bit_pos n idx in
            let cleaned p deleted :=
              match clean p with
              | (p, Err e) => (set_child n cindex p, Err e)
              | (p, Ok _) => (set_child n cindex p, Ok deleted)
              end in
            match pointers n !! cindex with
            | None => (n, Err HPanic)
            | Some (PLink cid cache) =>
                match cached_hnode bs cid cache with
                | Err e => (n, Err e)
                | Ok sub =>
                    match rm_value fuel bs bit_width sub hashed_key consumed key with
                    | (sub, Err e) => (set_child n cindex (PLink cid (Some sub)), Err e)
                    | (sub, Ok deleted) =>
                        cleaned (match deleted with
                                 | Some _ => PDirty sub
                                 | None => PLink cid (Some sub)
                                 end) deleted
                    end
                end
            | Some (PDirty sub) =>
                match rm_value fuel bs bit_width sub hashed_key consumed key with
                | (sub, Err e) => (set_child n cindex (PDirty sub), Err e)
                | (sub, Ok deleted) => cleaned (PDirty sub) deleted
                end
            | Some (Values vals) =>
                match position (λ kv, bool_decide (kv.1 = key)) vals with
                | None => (n, Ok None)
                | Some i =>
                    if (length vals =? 1)%nat then (rm_child n cindex idx, Ok (head vals))
                    else (set_child n cindex (Values (base.delete i vals)), Ok (vals !! i))
                end
            end
      end
  end.

(** The loop of [Node::flush], given the flush of a sub node. *)
Definition flush_pointers (flush : BS → HNode K V Cid → BS * HNode K V Cid * result (HamtError Cid) unit) :=
  fix flush_pointers bs (ps : list (Pointer K V Cid))
      : BS * list (Pointer K V Cid) * result (HamtError Cid) unit :=
  match ps with
  | [] => (bs, [], Ok tt)
  | PDirty sub :: ps =>
      match flush bs sub with
      | (bs, sub, Err e) => (bs, PDirty sub :: ps, Err e)
      | (bs, sub, Ok _) =>
          match put_hnode bs sub with
          | Err e => (bs, PDirty sub :: ps, Err e)
          | Ok (cid, bs) =>
              let '(bs, ps, r) := flush_pointers bs ps in (bs, PLink cid (Some sub) :: ps, r)
          end
      end
  | p :: ps => let '(bs, ps, r) := flush_pointers bs ps in (bs, p :: ps, r)
  end.

(** [Node::flush] *)
Fixpoint hnode_flush bs n {struct n} : BS * HNode K V Cid * result (HamtError Cid) unit :=
  match n with
  | MkHNode b ps => let '(bs, ps, r) := flush_pointers hnode_flush bs ps in (bs, MkHNode b ps, r)
  end.

(** The closure given to [for_each], on the state it captures. *)
Fixpoint values_loop {A} (f : A → K → V → A * result (HamtError Cid) unit) kvs (acc : A)
    : A * result (HamtError Cid) unit :=
  match kvs with
  | [] => (acc, Ok tt)
  | (k, v) :: kvs =>
      match f acc k v with
      | (acc, Err e) => (acc, Err e)
      | (acc, Ok _) => values_loop f kvs acc
      end
  end.

(** The loop of [Node::for_each] over the pointers, given the visit of a sub
    node. *)
Fixpoint pointers_loop {A} bs (f : A → K → V → A * result (HamtError Cid) unit)
    (visit : HNode K V Cid → A → HNode K V Cid * A * result (HamtError Cid) unit)
    (ps : list (Pointer K V Cid)) (acc : A)
    : list (Pointer K V Cid) * A * result (HamtError Cid) unit :=
  match ps with
  | [] => ([], acc, Ok tt)
  | p :: ps =>
      let '(p, acc, r) :=
        match p with
        | PLink cid cache =>
            match cached_hnode bs cid cache with
            | Err e => (p, acc, Err e)
            | Ok sub => let '(sub, acc, r) := visit sub acc in (PLink cid (Some sub), acc, r)
            end
        | PDirty sub => let '(sub, acc, r) := visit sub acc in (PDirty sub, acc, r)
        | Values kvs => let '(acc, r) := values_loop f kvs acc in (p, acc, r)
        end in
      match r with
      | Err e => (p :: ps, acc, Err e)
      | Ok _ => let '(ps, acc, r) := pointers_loop bs f visit ps acc in (p :: ps, acc, r)
      end
  end.

(** [Node::for_each], to a depth of at most [fuel] nodes: below that it is the
    overflow of the stack. *)
Fixpoint hnode_for_each {A} (fuel : nat) bs (f : A → K → V → A * result (HamtError Cid) unit)
    n (acc : A) : HNode K V Cid * A * result (HamtError Cid) unit :=
  match fuel with
  | O => (n, acc, Err HPanic)
  | S fuel =>
      let '(ps, acc, r) := pointers_loop bs f (hnode_for_each fuel bs f) (pointers n) acc in
      (MkHNode (bitfield n) ps, acc, r)
  end.

(** ** The map *)

Record Hamt := { h_root : HNode K V Cid; h_store : BS; h_bit_width : Z }.

(** More levels than a hash of 32 bytes has. *)
Definition max_levels : nat := 257.

Definition new_with_bit_width bs (bit_width : Z) : Hamt :=
  {| h_root := node_default; h_store := bs; h_bit_width := bit_width |}.
Definition hamt_new bs : Hamt := new_with_bit_width bs DEFAULT_BIT_WIDTH.

Definition load_with_bit_width (cid : Cid) bs (bit_width : Z) : result (HamtError Cid) Hamt :=
  root ← load_hnode bs cid;
  Ok {| h_root := root; h_store := bs; h_bit_width := bit_width |}.
Definition hamt_load (cid : Cid) bs : result (HamtError Cid) Hamt :=
  load_with_bit_width cid bs DEFAULT_BIT_WIDTH.

Definition with_root (h : Hamt) n : Hamt :=
  {| h_root := n; h_store := h_store h; h_bit_width := h_bit_width h |}.

Definition set_root (h : Hamt) (cid : Cid) : result (HamtError Cid) Hamt :=
  root ← load_hnode (h_store h) cid; Ok (with_root h root).

(** [Node::set] *)
Definition hnode_set n (key : K) (value : V) bs (bit_width : Z) (overwrite : bool)
    : HNode K V Cid * result (HamtError Cid) (option V * bool) :=
  modify_value max_levels bs bit_width n (hash key) 0 key value overwrite.

(** [Node::search] and [Node::get] *)
Definition hnode_get n (k : K) bs (bit_width : Z) : HNode K V Cid * result (HamtError Cid) (option V) :=
  let '(n, r) := get_value max_levels bs bit_width n (hash k) 0 k in
  (n, option_map snd <$> r).

(** [Node::remove_entry] *)
Definition remove_entry n (k : K) bs (bit_width : Z)
    : HNode K V Cid * result (HamtError Cid) (option (K * V)) :=
  rm_value max_levels bs bit_width n (hash k) 0 k.

Definition hamt_set (h : Hamt) (key : K) (value : V) : Hamt * result (HamtError Cid) (option V) :=
  let '(n, r) := hnode_set (h_root h) key value (h_store h) (h_bit_width h) true in
  (with_root h n, fst <$> r).

Definition set_if_absent (h : Hamt) (key : K) (value : V) : Hamt * result (HamtError Cid) bool :=
  let '(n, r) := hnode_set (h_root h) key value (h_store h) (h_bit_width h) false in
  (with_root h n, snd <$> r).

Definition hamt_get (h : Hamt) (k : K) : Hamt * result (HamtError Cid) (option V) :=
  let '(n, r) := hnode_get (h_root h) k (h_store h) (h_bit_width h) in
  (with_root h n, r).

Definition contains_key (h : Hamt) (k : K) : Hamt * result (HamtError Cid) bool :=
  let '(n, r) := hnode_get (h_root h) k (h_store h) (h_bit_width h) in
  (with_root h n, (λ o, bool_decide (is_Some o)) <$> r).

Definition hamt_delete (h : Hamt) (k : K) : Hamt * result (HamtError Cid) (option (K * V)) :=
  let '(n, r) := remove_entry (h_root h) k (h_store h) (h_bit_width h) in
  (with_root h n, r).

Definition hamt_flush (h : Hamt) : Hamt * result (HamtError Cid) Cid :=
  let '(bs, n, r) := hnode_flush (h_store h) (h_root h) in
  let h := {| h_root := n; h_store := bs; h_bit_width := h_bit_width h |} in
  match r with
  | Err e => (h, Err e)
  | Ok _ =>
      match put_hnode bs n with
      | Err e => (h, Err e)
      | Ok (cid, bs) => ({| h_root := n; h_store := bs; h_bit_width := h_bit_width h |}, Ok cid)
      end
  end.

Definition hamt_is_empty (h : Hamt) : bool :=
  match pointers (h_root h) with [] => true | _ => false end.

Definition hamt_for_each {A} (h : Hamt) (f : A → K → V → A * result (HamtError Cid) unit) (acc : A)
    : Hamt * A * result (HamtError Cid) unit :=
  let '(n, acc, r) := hnode_for_each max_levels (h_store h) f (h_root h) acc in
  (with_root h n, acc, r).
End Operations.
