(* ===== verification/HamtBits.v ===== *)
(** * Bits of the hash array mapped trie

    [HashBits::next] hands out the bits of a hash in order, most significant
    first, and the field of a node counts and locates the pointers that are
    present. *)

From S2P Require Import Prelude Blockstore Hamt.

(** ** Hash bits *)

Definition hash_bit (b : bytes) (i : Z) : bool :=
  Z.testbit (default 0 (b !! Z.to_nat (i / 8))) (7 - i mod 8).

(** The integer with the bits [c], ..., [c + i - 1] of the hash. *)
Definition hash_window (b : bytes) (c i v : Z) : Prop :=
  0 ≤ v < 2 ^ i ∧ ∀ m, 0 ≤ m < i → Z.testbit v m = hash_bit b (c + (i - 1 - m)).

Lemma testbit_mkmask n m : 0 ≤ n → 0 ≤ m → Z.testbit (mkmask n) m = (m <? n).
Proof.
  intros. unfold mkmask. rewrite Z.shiftl_1_l. replace (2 ^ n - 1) with (Z.ones n) by (rewrite Z.ones_equiv; lia).
  destruct (Z.ltb_spec m n); [by apply Z.ones_spec_low|by apply Z.ones_spec_high].
Qed.

Lemma testbit_not_u32_mkmask n m : 0 ≤ n ≤ 8 → 0 ≤ m < 32 → Z.testbit (not_u32 (mkmask n)) m = negb (m <? n).
Proof.
  intros Hn Hm. rewrite <-testbit_mkmask by lia. unfold not_u32.
  replace (2 ^ 32 - 1 - mkmask n) with (Z.ldiff (Z.ones 32) (mkmask n)).
  - rewrite Z.ldiff_spec, Z.ones_spec_low by lia. done.
  - rewrite Z.ones_equiv. symmetry. change (Z.pred (2 ^ 32)) with (2 ^ 32 - 1). apply Z.sub_nocarry_ldiff.
    apply Z.bits_inj'. intros i Hi. rewrite Z.ldiff_spec, Z.bits_0, testbit_mkmask by lia.
    destruct (Z.ltb_spec i n); [|done]. change (2 ^ 32 - 1) with (Z.ones 32). rewrite Z.ones_spec_low by lia. done.
Qed.

(** A number below [2^i] is given by its bits. *)
Lemma window_intro b c i v :
  0 ≤ i → 0 ≤ v → (∀ m, 0 ≤ m → Z.testbit v m = (m <? i) && hash_bit b (c + (i - 1 - m))) →
  hash_window b c i v.
Proof.
  intros Hi Hv Hb. split.
  - split; [done|]. apply testbit_bound; [done..|]. intros m Hm. rewrite Hb by lia.
    by rewrite (proj2 (Z.ltb_ge m i)).
  - intros m Hm. rewrite Hb by lia. by rewrite (proj2 (Z.ltb_lt m i)) by lia.
Qed.

Lemma hash_bit_in_byte b c m :
  0 ≤ c → 0 ≤ m < 8 - c mod 8 →
  hash_bit b (c + (8 - c mod 8 - 1 - m)) = Z.testbit (default 0 (b !! Z.to_nat (c / 8))) m.
Proof.
  intros Hc Hm. unfold hash_bit. pose proof (Z.div_mod c 8 ltac:(lia)). pose proof (Z.mod_pos_bound c 8 ltac:(lia)).
  replace (c + (8 - c mod 8 - 1 - m)) with (7 - m + c / 8 * 8) by lia.
  rewrite Z.div_add, Z.mod_add by lia. rewrite (Z.div_small (7 - m)), (Z.mod_small (7 - m)) by lia.
  f_equal. lia.
Qed.

Lemma land_mask_bits b c :
  0 ≤ c →
  let curb := default 0 (b !! Z.to_nat (c / 8)) in
  ∀ m, 0 ≤ m → Z.testbit (Z.land (mkmask (8 - c mod 8)) curb) m
    = (m <? 8 - c mod 8) && hash_bit b (c + (8 - c mod 8 - 1 - m)).
Proof.
  intros Hc curb m Hm. pose proof (Z.mod_pos_bound c 8 ltac:(lia)).
  rewrite Z.land_spec, testbit_mkmask by lia.
  destruct (Z.ltb_spec m (8 - c mod 8)); [|done]. cbn [andb]. by rewrite hash_bit_in_byte.
Qed.

Lemma land_mkmask_nonneg n x : 0 ≤ n → 0 ≤ Z.land (mkmask n) x.
Proof.
  intros. apply Z.land_nonneg. left. unfold mkmask. rewrite Z.shiftl_1_l.
  pose proof (Z.pow_pos_nonneg 2 n). lia.
Qed.

(** Within a byte. *)
Lemma next_bits_byte fuel b c i :
  0 ≤ c → 0 ≤ i ≤ 8 - c mod 8 →
  ∃ v, next_bits fuel b c i = (v, c + i) ∧ hash_window b c i v.
Proof.
  intros Hc Hi. pose proof (Z.mod_pos_bound c 8 ltac:(lia)).
  assert (Heq : next_bits fuel b c i = next_bits 0 b c i).
  { destruct fuel; [done|]. cbn [next_bits]. repeat case_if; done || lia. }
  rewrite Heq. cbn [next_bits]. case_if; [|case_if; [|lia]].
  - subst i. eexists. split; [done|]. apply window_intro; [lia|apply land_mkmask_nonneg; lia|].
    by apply land_mask_bits.
  - eexists. split; [done|]. apply window_intro; [lia| |].
    + apply Z.shiftr_nonneg. apply Z.land_nonneg. left. rewrite Z.land_comm. apply land_mkmask_nonneg. lia.
    + intros m Hm. rewrite Z.shiftr_spec, !Z.land_spec by lia. rewrite testbit_mkmask by lia.
      destruct (Z.ltb_spec m i).
      * rewrite (proj2 (Z.ltb_lt _ _)) by lia. rewrite testbit_not_u32_mkmask by lia.
        rewrite (proj2 (Z.ltb_ge _ _)) by lia. cbn [negb andb]. rewrite !andb_true_r.
        rewrite <-hash_bit_in_byte by lia. f_equal. lia.
      * rewrite (proj2 (Z.ltb_ge _ _)) by lia. by rewrite andb_false_r.
Qed.

Lemma next_bits_window b c i :
  0 ≤ c → 1 ≤ i ≤ 8 →
  ∃ v, next_bits 1 b c i = (v, c + i) ∧ hash_window b c i v.
Proof.
  intros Hc Hi. pose proof (Z.mod_pos_bound c 8 ltac:(lia)) as Hr.
  destruct (decide (i ≤ 8 - c mod 8)); [apply next_bits_byte; lia|].
  pose proof (land_mask_bits b c Hc) as Hlm. cbn zeta in Hlm. set (left := 8 - c mod 8) in *.
  assert (Hmod : (c + left) mod 8 = 0).
  { unfold left. replace (c + (8 - c mod 8)) with (c - c mod 8 + 1 * 8) by lia.
    rewrite Z.mod_add by lia. rewrite Zminus_mod_idemp_r. by rewrite Z.sub_diag. }
  destruct (next_bits_byte 0 b (c + left) (i - left)) as (v & Hv & [Hvb Hvt]); [lia..|].
  cbn [next_bits]. fold left. rewrite (proj2 (Z.eqb_neq _ _)), (proj2 (Z.ltb_ge _ _)) by lia.
  assert (Hv' : next_bits 0 b (c + left) (i - left) = (v, c + left + (i - left))) by done.
  cbn [next_bits] in Hv'. rewrite Hv'. clear Hv'. eexists. split; [f_equal; lia|].
  rewrite Z.add_comm, Z.shiftl_mul_pow2, Z.mul_comm, <-lor_shiftl_add by lia.
  apply window_intro; [lia| |].
  - apply Z.lor_nonneg. split; [lia|]. apply Z.shiftl_nonneg, land_mkmask_nonneg. lia.
  - intros m Hm. rewrite Z.lor_spec, Z.shiftl_spec by lia. destruct (decide (m < i - left)).
    + rewrite Hvt, (Z.testbit_neg_r _ (m - _)), orb_false_r by lia.
      rewrite (proj2 (Z.ltb_lt _ _)) by lia. cbn [andb]. f_equal. lia.
    + rewrite (testbit_high v (i - left)) by lia. cbn [orb]. rewrite Hlm by lia.
      destruct (Z.ltb_spec m i).
      * rewrite (proj2 (Z.ltb_lt _ _)) by lia. cbn [andb]. f_equal. lia.
      * by rewrite (proj2 (Z.ltb_ge _ _)) by lia.
Qed.

(** [next] never reads beyond the hash. *)
Lemma next_spec {Cid} b c i :
  0 ≤ c → 1 ≤ i ≤ 8 →
  if decide (c + i ≤ 8 * Z.of_nat (length b))
  then ∃ v, next (Cid:=Cid) b c i = Ok (v, c + i) ∧ hash_window b c i v
  else next (Cid:=Cid) b c i = Err MaxDepth.
Proof.
  intros Hc Hi. unfold next. rewrite (proj2 (Z.ltb_ge _ _)) by lia. case_decide.
  - rewrite (proj2 (Z.ltb_ge _ _)) by lia.
    destruct (next_bits_window b c i) as (v & -> & Hv); [done..|]. eauto.
  - by rewrite (proj2 (Z.ltb_lt _ _)) by lia.
Qed.

(** ** The bit field *)

Definition hbf_wf (b : Bitfield) : Prop := ∀ ai, 0 ≤ ai < 4 → 0 ≤ word b ai < 2 ^ 64.

Definition set_bits (b : Bitfield) : list nat :=
  List.filter (λ i, test_bit b (Z.of_nat i)) (seq 0 256).

Lemma test_bit_word b j : test_bit b j = Z.testbit (word b (j / 64)) (j mod 64).
Proof. unfold test_bit. apply land_pow2. apply Z.mod_pos_bound. lia. Qed.

Lemma word_set_word b ai w aj :
  0 ≤ ai < 4 → 0 ≤ aj < 4 → word (set_word b ai w) aj = if ai =? aj then w else word b aj.
Proof.
  intros Hi Hj. unfold set_word, word.
  assert (ai = 0 ∨ ai = 1 ∨ ai = 2 ∨ ai = 3) as [->|[->|[->| ->]]] by lia;
  assert (aj = 0 ∨ aj = 1 ∨ aj = 2 ∨ aj = 3) as [->|[->|[->| ->]]] by lia; done.
Qed.

Lemma word_index j : 0 ≤ j < 256 → 0 ≤ j / 64 < 4 ∧ 0 ≤ j mod 64 < 64 ∧ j = 64 * (j / 64) + j mod 64.
Proof.
  intros Hj. pose proof (Z.div_mod j 64 ltac:(lia)). pose proof (Z.mod_pos_bound j 64 ltac:(lia)).
  pose proof (Z.div_pos j 64). assert (j / 64 < 4) by (apply Z.div_lt_upper_bound; lia). lia.
Qed.

(** Changing one word by changing one bit of it. *)
Lemma test_bit_set_word b i j w x :
  0 ≤ i < 256 → 0 ≤ j < 256 →
  (∀ m, 0 ≤ m < 64 → Z.testbit w m = if i mod 64 =? m then x else Z.testbit (word b (i / 64)) m) →
  test_bit (set_word b (i / 64) w) j = if i =? j then x else test_bit b j.
Proof.
  intros Hi Hj Hw. rewrite !test_bit_word. pose proof (word_index i Hi). pose proof (word_index j Hj).
  rewrite word_set_word by lia. destruct (Z.eqb_spec (i / 64) (j / 64)) as [E|E].
  - rewrite Hw by lia. rewrite E. destruct (Z.eqb_spec (i mod 64) (j mod 64)), (Z.eqb_spec i j); done || lia.
  - destruct (Z.eqb_spec i j); [congruence|done].
Qed.

Lemma test_bit_set_bit b i j :
  0 ≤ i < 256 → 0 ≤ j < 256 → test_bit (set_bit b i) j = if i =? j then true else test_bit b j.
Proof.
  intros Hi Hj. apply test_bit_set_word; [done..|]. intros m Hm. pose proof (word_index i Hi).
  rewrite Z.lor_spec, Z.shiftl_1_l, Z.pow2_bits_eqb by lia.
  destruct (Z.eqb_spec (i mod 64) m); [by rewrite orb_true_r|by rewrite orb_false_r].
Qed.

Lemma testbit_all_but i m :
  0 ≤ i < 64 → 0 ≤ m → Z.testbit (usize_max - Z.shiftl 1 i) m = (m <? 64) && negb (i =? m).
Proof.
  intros Hi Hm. rewrite Z.shiftl_1_l. change usize_max with (Z.ones 64).
  rewrite Z.sub_nocarry_ldiff.
  - rewrite Z.ldiff_spec, Z.pow2_bits_eqb by lia.
    destruct (Z.ltb_spec m 64); [by rewrite Z.ones_spec_low by lia|by rewrite Z.ones_spec_high by lia].
  - apply Z.bits_inj'. intros k Hk. rewrite Z.ldiff_spec, Z.bits_0, Z.pow2_bits_eqb by lia.
    destruct (Z.eqb_spec i k) as [->|]; [|done]. by rewrite Z.ones_spec_low by lia.
Qed.

Lemma test_bit_clear_bit b i j :
  0 ≤ i < 256 → 0 ≤ j < 256 → test_bit (clear_bit b i) j = if i =? j then false else test_bit b j.
Proof.
  intros Hi Hj. apply test_bit_set_word; [done..|]. intros m Hm. pose proof (word_index i Hi).
  rewrite Z.land_spec, testbit_all_but, (proj2 (Z.ltb_lt m 64)) by lia.
  destruct (Z.eqb_spec (i mod 64) m); [by rewrite andb_false_r|by rewrite andb_true_r].
Qed.

Lemma bf_wf_set_word b ai w : 0 ≤ ai < 4 → hbf_wf b → 0 ≤ w < 2 ^ 64 → hbf_wf (set_word b ai w).
Proof. intros Hi Hb Hw aj Hj. rewrite word_set_word by done. case_if; [done|by apply Hb]. Qed.

Lemma set_bit_wf b i : 0 ≤ i < 256 → hbf_wf b → hbf_wf (set_bit b i).
Proof.
  intros Hi Hb. pose proof (word_index i Hi) as (Hd & Hm & _).
  apply bf_wf_set_word; [done..|]. pose proof (Hb _ Hd) as Hw.
  assert (Hp : 0 < 2 ^ (i mod 64)) by (apply Z.pow_pos_nonneg; lia).
  split; [apply Z.lor_nonneg; rewrite Z.shiftl_1_l; lia|].
  apply testbit_bound; [lia|apply Z.lor_nonneg; rewrite Z.shiftl_1_l; lia|]. intros k Hk.
  rewrite Z.lor_spec, (testbit_high _ 64), Z.shiftl_1_l, Z.pow2_bits_eqb by lia.
  by rewrite (proj2 (Z.eqb_neq _ _)) by lia.
Qed.

Lemma clear_bit_wf b i : 0 ≤ i < 256 → hbf_wf b → hbf_wf (clear_bit b i).
Proof.
  intros Hi Hb. pose proof (word_index i Hi) as (Hd & Hm & _).
  apply bf_wf_set_word; [done..|]. pose proof (Hb _ Hd) as Hw.
  assert (0 ≤ Z.land (word b (i / 64)) (usize_max - Z.shiftl 1 (i mod 64))) by (apply Z.land_nonneg; lia).
  split; [done|]. apply testbit_bound; [lia|done|]. intros k Hk.
  by rewrite Z.land_spec, (testbit_high _ 64) by lia.
Qed.

Lemma zero_wf : hbf_wf bf_zero.
Proof. intros ai Hi. unfold word, bf_zero. repeat case_if; done. Qed.

Lemma test_bit_zero j : test_bit bf_zero j = false.
Proof. rewrite test_bit_word. unfold word, bf_zero. repeat case_if; apply Z.testbit_0_l. Qed.

Lemma set_bits_zero : set_bits bf_zero = [].
Proof. reflexivity. Qed.

(** [set_bits_le] sets the bits below its argument. *)
Lemma testbit_leq_word v bit m :
  0 ≤ bit → 0 ≤ m < 64 → Z.testbit (set_bits_leq_word v bit) m = (m <=? bit) || Z.testbit v m.
Proof.
  intros Hb Hm. unfold set_bits_leq_word, wrap_u64. rewrite testbit_mod_pow2, Z.lor_spec by lia.
  change (Z.shiftl 1 (1 + bit) - 1) with (mkmask (1 + bit)). rewrite testbit_mkmask by lia.
  rewrite (proj2 (Z.ltb_lt m 64)) by lia. cbn [andb]. rewrite orb_comm. f_equal.
  apply bool_eq_iff. rewrite Z.ltb_lt, Z.leb_le. lia.
Qed.

Lemma testbit_usize_max m : 0 ≤ m < 64 → Z.testbit usize_max m = true.
Proof. intros. change usize_max with (Z.ones 64). by apply Z.ones_spec_low. Qed.

Lemma test_bit_set_bits_le bp j :
  0 ≤ bp ≤ 256 → 0 ≤ j < 256 → test_bit (set_bits_le bf_zero bp) j = (j <? bp).
Proof.
  intros Hb Hj. unfold set_bits_le. case_if; [subst; rewrite test_bit_zero; by rewrite (proj2 (Z.ltb_ge _ _)) by lia|].
  rewrite test_bit_word. pose proof (word_index j Hj) as (Hd & Hm & Hq).
  assert (j / 64 = 0 ∨ j / 64 = 1 ∨ j / 64 = 2 ∨ j / 64 = 3) as Ew by lia.
  unfold set_bits_leq. apply bool_eq_iff. rewrite Z.ltb_lt.
  destruct Ew as [Ew|[Ew|[Ew|Ew]]]; rewrite Ew in *; repeat case_if; cbn -[Z.testbit usize_max set_bits_leq_word];
    rewrite ?testbit_leq_word, ?testbit_usize_max, ?Z.testbit_0_l, ?orb_false_r, ?Z.leb_le by lia; 
    (split; [try done; lia|try done; lia]).
Qed.

Lemma test_bit_and a b j : test_bit (bf_and a b) j = test_bit a j && test_bit b j.
Proof. rewrite !test_bit_word, <-Z.land_spec. unfold word, bf_and. by repeat case_if. Qed.

(** Counting the bits. *)
Lemma filter_seq_shift (f : nat → bool) s n :
  length (List.filter f (seq s n)) = length (List.filter (λ i, f (s + i)%nat) (seq 0 n)).
Proof.
  rewrite <-(Nat.add_0_r s) at 1. rewrite <-fmap_add_seq. rewrite List.filter_map_swap, length_fmap. done.
Qed.

Lemma filter_seq_ext (f g : nat → bool) s n :
  (∀ i, (s ≤ i < s + n)%nat → f i = g i) → List.filter f (seq s n) = List.filter g (seq s n).
Proof.
  revert s. induction n as [|n IH]; intros s Hfg; [done|]. cbn [seq List.filter].
  rewrite Hfg by lia. rewrite (IH (S s)); [done|]. intros. apply Hfg. lia.
Qed.

Lemma count_word b ai :
  0 ≤ ai < 4 →
  length (List.filter (λ i, test_bit b (Z.of_nat i)) (seq (Z.to_nat (64 * ai)) 64)) = count_ones_u64 (word b ai).
Proof.
  intros Hi. rewrite filter_seq_shift. unfold count_ones_u64. f_equal. apply filter_seq_ext.
  intros i Hlt. rewrite test_bit_word, Nat2Z.inj_add, Z2Nat.id by lia.
  replace (64 * ai + Z.of_nat i) with (Z.of_nat i + ai * 64) by lia.
  rewrite Z.div_add, Z.mod_add, Z.div_small, Z.mod_small by lia. done.
Qed.

Lemma count_ones_set_bits b : count_ones b = length (set_bits b).
Proof.
  unfold set_bits. change 256%nat with (64 + (64 + (64 + 64)))%nat.
  rewrite !seq_app, !List.filter_app, !length_app.
  pose proof (count_word b 0 ltac:(lia)) as H0. pose proof (count_word b 1 ltac:(lia)) as H1.
  pose proof (count_word b 2 ltac:(lia)) as H2. pose proof (count_word b 3 ltac:(lia)) as H3.
  unfold count_ones. cbn [Z.mul Z.to_nat Pos.mul Pos.to_nat] in *.
  change (0 + 64)%nat with (Z.to_nat (64 * 1)). change (Z.to_nat (64 * 1) + 64)%nat with (Z.to_nat (64 * 2)).
  change (Z.to_nat (64 * 2) + 64)%nat with (Z.to_nat (64 * 3)).
  rewrite H1, H2, H3. change (seq 0 64) with (seq (Z.to_nat (64 * 0)) 64). rewrite H0.
  change (word0 b) with (word b 0). change (word1 b) with (word b 1). change (word2 b) with (word b 2).
  change (word3 b) with (word b 3). lia.
Qed.

(** The position of a bit among the bits that are set. *)
Definition bit_rank (b : Bitfield) (j : nat) : nat :=
  length (List.filter (λ i, test_bit b (Z.of_nat i)) (seq 0 j)).

Lemma set_bits_split b j :
  (j < 256)%nat →
  ∃ after, set_bits b = List.filter (λ i, test_bit b (Z.of_nat i)) (seq 0 j)
      ++ (if test_bit b (Z.of_nat j) then [j] else []) ++ after
    ∧ ∀ b', (∀ i, (i < 256)%nat → i ≠ j → test_bit b' (Z.of_nat i) = test_bit b (Z.of_nat i)) →
      set_bits b' = List.filter (λ i, test_bit b (Z.of_nat i)) (seq 0 j)
      ++ (if test_bit b' (Z.of_nat j) then [j] else []) ++ after.
Proof.
  intros Hj. exists (List.filter (λ i, test_bit b (Z.of_nat i)) (seq (S j) (255 - j))).
  assert (Hs : ∀ b', set_bits b' = List.filter (λ i, test_bit b' (Z.of_nat i)) (seq 0 j)
      ++ (if test_bit b' (Z.of_nat j) then [j] else [])
      ++ List.filter (λ i, test_bit b' (Z.of_nat i)) (seq (S j) (255 - j))).
  { intros b'. unfold set_bits. replace 256%nat with (j + S (255 - j))%nat by lia.
    rewrite seq_app, List.filter_app. f_equal. cbn [seq List.filter Nat.add]. by destruct (test_bit _ _). }
  split; [apply Hs|]. intros b' Hb'. rewrite Hs.
  rewrite (filter_seq_ext _ (λ i, test_bit b (Z.of_nat i)) 0) by (intros; apply Hb'; lia).
  by rewrite (filter_seq_ext _ (λ i, test_bit b (Z.of_nat i)) (S j)) by (intros; apply Hb'; lia).
Qed.

Lemma set_bits_lookup b j :
  (j < 256)%nat → test_bit b (Z.of_nat j) = true → set_bits b !! bit_rank b j = Some j.
Proof.
  intros Hj Hb. destruct (set_bits_split b j Hj) as (after & -> & _). rewrite Hb.
  rewrite lookup_app_r by done. unfold bit_rank. by rewrite Nat.sub_diag.
Qed.

Lemma set_bits_set b j :
  (j < 256)%nat → test_bit b (Z.of_nat j) = false →
  set_bits (set_bit b (Z.of_nat j)) = vec_insert (bit_rank b j) j (set_bits b).
Proof.
  intros Hj Hb. destruct (set_bits_split b j Hj) as (after & -> & Hset). rewrite Hb.
  rewrite Hset; [|intros; rewrite test_bit_set_bit by lia; by rewrite (proj2 (Z.eqb_neq _ _)) by lia].
  rewrite test_bit_set_bit, Z.eqb_refl by lia. unfold vec_insert, bit_rank.
  by rewrite take_app_length, drop_app_length.
Qed.

Lemma set_bits_clear b j :
  (j < 256)%nat → test_bit b (Z.of_nat j) = true →
  set_bits (clear_bit b (Z.of_nat j)) = base.delete (bit_rank b j) (set_bits b).
Proof.
  intros Hj Hb. destruct (set_bits_split b j Hj) as (after & -> & Hset). rewrite Hb.
  rewrite Hset; [|intros; rewrite test_bit_clear_bit by lia; by rewrite (proj2 (Z.eqb_neq _ _)) by lia].
  rewrite test_bit_clear_bit, Z.eqb_refl by lia. unfold bit_rank. cbn [app].
  by rewrite delete_middle.
Qed.

Lemma elem_of_set_bits b j : j ∈ set_bits b ↔ (j < 256)%nat ∧ test_bit b (Z.of_nat j) = true.
Proof. unfold set_bits. rewrite list_elem_of_In, List.filter_In, in_seq. intuition lia. Qed.

Lemma set_bits_nodup b : NoDup (set_bits b).
Proof. unfold set_bits. apply NoDup_ListNoDup, List.NoDup_filter, NoDup_ListNoDup, NoDup_seq. Qed.

Lemma length_set_bits_le b j :
  0 ≤ j ≤ 256 →
  count_ones (bf_and (set_bits_le bf_zero j) b) = bit_rank b (Z.to_nat j).
Proof.
  intros Hj. rewrite count_ones_set_bits. unfold set_bits, bit_rank.
  replace 256%nat with (Z.to_nat j + (256 - Z.to_nat j))%nat by lia.
  rewrite seq_app, List.filter_app, length_app.
  rewrite (filter_seq_ext _ (λ i, test_bit b (Z.of_nat i)) 0).
  - rewrite (filter_seq_ext _ (λ i, false) (0 + _)).
    + rewrite List.filter_false. by rewrite Nat.add_0_r.
    + intros i Hi. rewrite test_bit_and, test_bit_set_bits_le by lia. by rewrite (proj2 (Z.ltb_ge _ _)) by lia.
  - intros i Hi. rewrite test_bit_and, test_bit_set_bits_le by lia. by rewrite (proj2 (Z.ltb_lt _ _)) by lia.
Qed.

Lemma index_for_bit_pos_rank {K V Cid} (n : HNode K V Cid) j :
  0 ≤ j ≤ 256 → index_for_bit_pos n j = bit_rank (bitfield n) (Z.to_nat j).
Proof. apply length_set_bits_le. Qed.

(** The assertion of [index_for_bit_pos]. *)
Lemma mask_count j : 0 ≤ j ≤ 256 → Z.of_nat (count_ones (set_bits_le bf_zero j)) = j.
Proof.
  intros Hj. rewrite count_ones_set_bits. unfold set_bits.
  replace 256%nat with (Z.to_nat j + (256 - Z.to_nat j))%nat by lia.
  rewrite seq_app, List.filter_app, length_app.
  rewrite (filter_seq_ext _ (λ i, true) 0), (filter_seq_ext _ (λ i, false) (0 + _)).
  - rewrite List.filter_false, List.filter_true, length_seq, Nat.add_0_r. lia.
  - intros i Hi. rewrite test_bit_set_bits_le by lia. by rewrite (proj2 (Z.ltb_ge _ _)) by lia.
  - intros i Hi. rewrite test_bit_set_bits_le by lia. by rewrite (proj2 (Z.ltb_lt _ _)) by lia.
Qed.

(** A field is given by its bits. *)
Lemma bitfield_ext b b' :
  hbf_wf b → hbf_wf b' → (∀ j, (j < 256)%nat → test_bit b (Z.of_nat j) = test_bit b' (Z.of_nat j)) → b = b'.
Proof.
  intros Hb Hb' Hj.
  assert (Hw : ∀ ai, 0 ≤ ai < 4 → word b ai = word b' ai).
  { intros ai Hai. apply Z.bits_inj'. intros m Hm. destruct (decide (m < 64)).
    - specialize (Hj (Z.to_nat (ai * 64 + m)) ltac:(lia)). rewrite !test_bit_word, Z2Nat.id in Hj by lia.
      rewrite Z.add_comm, Z.div_add, Z.mod_add, Z.div_small, Z.mod_small in Hj by lia. done.
    - by rewrite !(testbit_high _ 64) by (try lia; by (apply Hb || apply Hb')). }
  pose proof (Hw 0 ltac:(lia)). pose proof (Hw 1 ltac:(lia)). pose proof (Hw 2 ltac:(lia)). pose proof (Hw 3 ltac:(lia)).
  destruct b, b'. cbn in *. congruence.
Qed.

(** ** The serialized bit field *)

Lemma be_u64_roundtrip w : 0 ≤ w < 2 ^ 64 → un_be_u64 (be_u64 w) = w.
Proof.
  intros Hw. unfold un_be_u64, be_u64. cbn [seq fmap list_fmap foldl].
  assert (Hb : ∀ k, Z.land (Z.shiftr w (8 * (7 - Z.of_nat k))) 255 = (w / 2 ^ (8 * (7 - Z.of_nat k))) mod 256
    ∨ (7 < k)%nat).
  { intros k. destruct (decide (7 < k)%nat); [by right|left].
    rewrite Z.shiftr_div_pow2 by lia. change 255 with (Z.ones 8). by rewrite Z.land_ones by lia. }
  pose proof (Hb 0%nat) as H0. pose proof (Hb 1%nat) as H1. pose proof (Hb 2%nat) as H2. pose proof (Hb 3%nat) as H3.
  pose proof (Hb 4%nat) as H4. pose proof (Hb 5%nat) as H5. pose proof (Hb 6%nat) as H6. pose proof (Hb 7%nat) as H7.
  clear Hb. destruct H0 as [->|], H1 as [->|], H2 as [->|], H3 as [->|], H4 as [->|], H5 as [->|], H6 as [->|], H7 as [->|];
    try lia.
  change (2 ^ (8 * (7 - Z.of_nat 0))) with (256 * 256 * 256 * 256 * 256 * 256 * 256).
  change (2 ^ (8 * (7 - Z.of_nat 1))) with (256 * 256 * 256 * 256 * 256 * 256).
  change (2 ^ (8 * (7 - Z.of_nat 2))) with (256 * 256 * 256 * 256 * 256).
  change (2 ^ (8 * (7 - Z.of_nat 3))) with (256 * 256 * 256 * 256).
  change (2 ^ (8 * (7 - Z.of_nat 4))) with (256 * 256 * 256).
  change (2 ^ (8 * (7 - Z.of_nat 5))) with (256 * 256).
  change (2 ^ (8 * (7 - Z.of_nat 6))) with (256).
  change (2 ^ (8 * (7 - Z.of_nat 7))) with (1).
  change (2 ^ 64) with (256 * 256 * 256 * 256 * 256 * 256 * 256 * 256) in Hw.
  rewrite <-!Z.div_div, Z.div_1_r by lia.
  assert (Hd : ∀ x, x = 256 * (x / 256) + x mod 256) by (intros; apply Z.div_mod; lia).
  set (w1 := w / 256). set (w2 := w1 / 256). set (w3 := w2 / 256). set (w4 := w3 / 256).
  set (w5 := w4 / 256). set (w6 := w5 / 256). set (w7 := w6 / 256).
  pose proof (Hd w). pose proof (Hd w1). pose proof (Hd w2). pose proof (Hd w3). pose proof (Hd w4).
  pose proof (Hd w5). pose proof (Hd w6).
  assert (w7 mod 256 = w7); [|lia]. apply Z.mod_small. split.
  - repeat (apply Z.div_pos; [|lia]). lia.
  - unfold w7, w6, w5, w4, w3, w2, w1. repeat (apply Z.div_lt_upper_bound; [lia|]). lia.
Qed.

Lemma length_be_u64 w : length (be_u64 w) = 8%nat.
Proof. done. Qed.

Lemma strip_zeros_replicate bz : ∃ k, bz = replicate k 0 ++ strip_zeros bz.
Proof.
  induction bz as [|b bz [k IH]]; cbn [strip_zeros]; [by exists O|]. destruct (Z.eqb_spec b 0) as [->|].
  - exists (S k). cbn. by rewrite <-IH.
  - by exists O.
Qed.

Lemma strip_zeros_pad bz n : length bz = n → replicate (n - length (strip_zeros bz)) 0 ++ strip_zeros bz = bz.
Proof.
  intros <-. destruct (strip_zeros_replicate bz) as [k Hk].
  assert (length bz = k + length (strip_zeros bz))%nat by (rewrite Hk at 1; by rewrite length_app, length_replicate).
  replace (length bz - length (strip_zeros bz))%nat with k by lia. done.
Qed.

Lemma split_words (l1 l2 l3 l4 : bytes) :
  length l1 = 8%nat → length l2 = 8%nat → length l3 = 8%nat →
  let l := l1 ++ l2 ++ l3 ++ l4 in
  take 8 l = l1 ∧ take 8 (drop 8 l) = l2 ∧ take 8 (drop 16 l) = l3 ∧ drop 24 l = l4.
Proof.
  intros H1 H2 H3 l. unfold l. split_and!.
  - by apply take_app_length'.
  - rewrite drop_app_length' by done. by apply take_app_length'.
  - rewrite (app_assoc l1), drop_app_length' by (rewrite length_app; lia). by apply take_app_length'.
  - rewrite (app_assoc l2), (app_assoc l1). apply drop_app_length'. rewrite !length_app. lia.
Qed.

Lemma bitfield_roundtrip {Cid} b : hbf_wf b → bitfield_deserialize (Cid:=Cid) (bitfield_serialize b) = Ok b.
Proof.
  intros Hb. unfold bitfield_deserialize, bitfield_serialize.
  set (all := be_u64 (word3 b) ++ be_u64 (word2 b) ++ be_u64 (word1 b) ++ be_u64 (word0 b)).
  assert (Hall : length all = 32%nat) by done. pose proof (strip_zeros_pad all 32 Hall) as Hpad.
  assert (Hle : (length (strip_zeros all) ≤ 32)%nat).
  { destruct (strip_zeros_replicate all) as [k Hk]. apply (f_equal length) in Hk. rewrite length_app in Hk. lia. }
  rewrite (proj2 (Nat.ltb_ge _ _)) by done. rewrite Hpad. unfold all.
  destruct (split_words (be_u64 (word3 b)) (be_u64 (word2 b)) (be_u64 (word1 b)) (be_u64 (word0 b))) as (-> & -> & -> & ->);
    [done..|].
  pose proof (Hb 0 ltac:(lia)). pose proof (Hb 1 ltac:(lia)). pose proof (Hb 2 ltac:(lia)). pose proof (Hb 3 ltac:(lia)).
  cbn [word Z.eqb Pos.eqb] in *. rewrite !be_u64_roundtrip by done. destruct b. cbn in *. done.
Qed.
