(* ===== verification/HamtMap.v ===== *)
(** * The hash array mapped trie implements a map

    A node at depth [d] represents a finite map whose keys are told apart by
    the indices their hashes have at [d] and below.  A pointer holds up to
    three entries in order, or leads to a node with more than three: the shape
    of the trie is a function of the map.  Lookup, insertion and deletion are
    those of the map, and so is the order of iteration. *)

From stdpp Require Import strings sorting.
From S2P Require Import Prelude Blockstore Hamt HamtBits.

Lemma bind_perm_ext {A B} (f g : A → list B) l : (∀ a, f a ≡ₚ g a) → l ≫= f ≡ₚ l ≫= g.
Proof. intros Hfg. induction l as [|a l IH]; [done|]. rewrite !bind_cons. by rewrite Hfg, IH. Qed.

Section Keys.
Context {K : Type} `{Countable K} (bw : Z) (hash : K → bytes) (key_ltb : K → K → bool).

(** The number of levels of indices a hash has. *)
Definition levels : nat := Z.to_nat (256 / bw).

(** The index of a key at depth [d]. *)
Definition slot_of (k : K) (d : nat) : nat :=
  Z.to_nat (fst (next_bits 1 (hash k) (Z.of_nat d * bw) bw)).

(** What the trie relies on: hashes of 32 bytes, a total order of keys, and
    that no four keys have hashes with the same indices at all levels. *)
Class HamtKeys : Prop := {
  bit_width_ok : 1 ≤ bw ≤ 8;
  hash_length k : length (hash k) = 32%nat;
  key_lt_irrefl k : key_ltb k k = false;
  key_lt_trans k1 k2 k3 : key_ltb k1 k2 = true → key_ltb k2 k3 = true → key_ltb k1 k3 = true;
  key_lt_total k1 k2 : k1 ≠ k2 → key_ltb k1 k2 = true ∨ key_ltb k2 k1 = true;
  few_collisions ks : NoDup ks →
    (∀ k k', k ∈ ks → k' ∈ ks → ∀ d, (d < levels)%nat → slot_of k d = slot_of k' d) →
    (length ks ≤ MAX_ARRAY_WIDTH)%nat
}.

Context `{!HamtKeys}.

Lemma levels_le : (levels ≤ 256)%nat ∧ (1 ≤ levels)%nat.
Proof.
  pose proof bit_width_ok. unfold levels.
  assert (256 / bw ≤ 256 / 1) by (apply Z.div_le_compat_l; lia). rewrite Z.div_1_r in *.
  assert (256 / 8 ≤ 256 / bw) as H8 by (apply Z.div_le_compat_l; lia). change (256 / 8) with 32 in H8. lia.
Qed.

Lemma slot_window k d :
  (d < levels)%nat →
  next_bits 1 (hash k) (Z.of_nat d * bw) bw = (Z.of_nat (slot_of k d), Z.of_nat (S d) * bw)
  ∧ (slot_of k d < 256)%nat.
Proof.
  intros Hd. pose proof bit_width_ok. unfold slot_of.
  destruct (next_bits_window (hash k) (Z.of_nat d * bw) bw) as (v & -> & [Hv _]); [lia|done|]. cbn [fst].
  assert (2 ^ bw ≤ 2 ^ 8) by (apply Z.pow_le_mono_r; lia). change (2 ^ 8) with 256 in *.
  rewrite Z2Nat.id by lia. split; [f_equal; lia|lia].
Qed.

Lemma next_slot {Cid} k d :
  (d < levels)%nat →
  next (Cid:=Cid) (hash k) (Z.of_nat d * bw) bw = Ok (Z.of_nat (slot_of k d), Z.of_nat (S d) * bw).
Proof.
  intros Hd. pose proof bit_width_ok. unfold next. rewrite hash_length, (proj2 (Z.ltb_ge 8 bw)) by lia.
  assert (Z.of_nat (S d) * bw ≤ 256).
  { unfold levels in Hd. pose proof (Z.mul_div_le 256 bw). nia. }
  rewrite (proj2 (Z.ltb_ge _ _)) by lia. by rewrite (proj1 (slot_window k d Hd)).
Qed.

Lemma slot_bound k d : (d < levels)%nat → (slot_of k d < 256)%nat.
Proof. intros. by apply slot_window. Qed.

(** ** Sorted entries *)

Section Sorted.
Context {V : Type}.
Implicit Types (kvs : list (K * V)).

Definition key_lt (k1 k2 : K) : Prop := key_ltb k1 k2 = true.
Definition sorted_keys kvs : Prop := StronglySorted key_lt kvs.*1.

Lemma sorted_keys_nodup kvs : sorted_keys kvs → NoDup kvs.*1.
Proof.
  unfold sorted_keys. induction 1 as [|k ks Hs IH Hk]; constructor; [|done].
  intros Hin. rewrite Forall_forall in Hk. apply Hk in Hin. unfold key_lt in Hin.
  by rewrite key_lt_irrefl in Hin.
Qed.

Lemma sorted_keys_perm kvs kvs' : sorted_keys kvs → sorted_keys kvs' → kvs ≡ₚ kvs' → kvs = kvs'.
Proof.
  unfold sorted_keys. revert kvs'. induction kvs as [|[k v] kvs IH]; intros kvs' Hs Hs' Hp.
  - symmetry in Hp. by apply Permutation_nil_r in Hp.
  - destruct kvs' as [|[k' v'] kvs']; [by apply Permutation_nil_r in Hp|].
    cbn in Hs, Hs'. apply StronglySorted_inv in Hs as [Hs Hk], Hs' as [Hs' Hk'].
    rewrite Forall_forall in Hk, Hk'. assert ((k, v) = (k', v')) as [= <- <-].
    { assert (H1 : (k, v) ∈ (k', v') :: kvs') by (rewrite <-Hp; left).
      assert (H2 : (k', v') ∈ (k, v) :: kvs) by (rewrite Hp; left).
      apply elem_of_cons in H1 as [H1|H1], H2 as [H2|H2]; [done..|congruence|].
      apply (list_elem_of_fmap_2 fst), Hk' in H1. apply (list_elem_of_fmap_2 fst), Hk in H2.
      unfold key_lt in *. cbn in *. pose proof (key_lt_trans _ _ _ H1 H2) as Hc. by rewrite key_lt_irrefl in Hc. }
    f_equal. apply IH; [done..|]. by apply Permutation_cons_inv in Hp.
Qed.

Lemma insert_in_order_cons k v k' v' kvs :
  insert_in_order key_ltb (k, v) ((k', v') :: kvs)
  = if key_ltb k k' then (k, v) :: (k', v') :: kvs
    else (k', v') :: insert_in_order key_ltb (k, v) kvs.
Proof.
  unfold insert_in_order, vec_insert. cbn [position fst length]. destruct (key_ltb k k'); [done|].
  by destruct (position _ kvs).
Qed.

Lemma insert_in_order_perm kv kvs : insert_in_order key_ltb kv kvs ≡ₚ kv :: kvs.
Proof.
  destruct kv as [k v]. induction kvs as [|[k' v'] kvs IH]; [done|].
  rewrite insert_in_order_cons. destruct (key_ltb k k'); [done|]. rewrite IH. apply Permutation_swap.
Qed.

Lemma insert_in_order_sorted k v kvs :
  sorted_keys kvs → k ∉ kvs.*1 → sorted_keys (insert_in_order key_ltb (k, v) kvs).
Proof.
  unfold sorted_keys. induction kvs as [|[k' v'] kvs IH]; [repeat constructor|].
  cbn [fmap list_fmap fst]. intros Hs Hk. pose proof Hs as [Hs' Hk']%StronglySorted_inv.
  rewrite insert_in_order_cons. destruct (key_ltb k k') eqn:E; cbn [fmap list_fmap fst].
  - constructor; [done|]. constructor; [done|]. eapply Forall_impl; [exact Hk'|]. intros k''. by apply key_lt_trans.
  - constructor; [apply IH; [done|set_solver]|]. rewrite insert_in_order_perm. constructor; [|done].
    cbn. destruct (key_lt_total k k') as [?|?]; [set_solver|congruence|done].
Qed.

Lemma sort_by_key_perm kvs : sort_by_key key_ltb kvs ≡ₚ kvs.
Proof.
  induction kvs as [|kv kvs IH]; [done|]. cbn [sort_by_key foldr].
  rewrite insert_in_order_perm. by constructor.
Qed.

Lemma sort_by_key_sorted kvs : NoDup kvs.*1 → sorted_keys (sort_by_key key_ltb kvs).
Proof.
  induction kvs as [|[k v] kvs IH]; [constructor|]. intros [Hk Hnd]%NoDup_cons.
  apply insert_in_order_sorted; [by apply IH|]. fold (sort_by_key key_ltb kvs). by rewrite sort_by_key_perm.
Qed.

(** Entry [i] of a list with distinct keys. *)
Lemma list_to_map_middle (l1 l2 : list (K * V)) k v :
  NoDup (l1 ++ (k, v) :: l2).*1 →
  list_to_map (l1 ++ (k, v) :: l2) = (<[k := v]> (list_to_map (l1 ++ l2)) : gmap K V)
  ∧ (list_to_map (l1 ++ l2) : gmap K V) !! k = None.
Proof.
  intros Hnd. assert (Hp : l1 ++ (k, v) :: l2 ≡ₚ (k, v) :: l1 ++ l2) by (symmetry; apply Permutation_middle).
  split.
  - by rewrite (list_to_map_proper _ _ Hnd Hp).
  - apply not_elem_of_list_to_map. rewrite Hp in Hnd. cbn in Hnd. by apply NoDup_cons in Hnd as [? _].
Qed.

Lemma position_key k kvs i :
  position (λ kv, bool_decide (kv.1 = k)) kvs = Some i →
  ∃ v, kvs = take i kvs ++ (k, v) :: drop (S i) kvs ∧ kvs !! i = Some (k, v).
Proof.
  revert i. induction kvs as [|[k' v'] kvs IH]; intros i; [done|]. cbn [position fst].
  case_bool_decide; [intros [= <-]; subst; by exists v'|].
  destruct (position _ kvs) as [i'|] eqn:E; [|done]. intros [= <-].
  destruct (IH i' eq_refl) as (v & Hv & Hl). exists v. cbn. split; [by f_equal|done].
Qed.

Lemma position_none k kvs : position (λ kv, bool_decide (kv.1 = k)) kvs = None ↔ k ∉ kvs.*1.
Proof.
  induction kvs as [|[k' v'] kvs IH]; cbn; [set_solver|]. case_bool_decide; [set_solver|].
  destruct (position _ kvs); cbn; [|set_solver]. split; [done|]. intros. exfalso. set_solver.
Qed.

Lemma find_key k kvs :
  NoDup kvs.*1 →
  List.find (λ kv, bool_decide (k = kv.1)) kvs = (λ v, (k, v)) <$> (list_to_map kvs : gmap K V) !! k.
Proof.
  induction kvs as [|[k' v'] kvs IH]; [done|]. intros [Hk Hnd]%NoDup_cons. cbn.
  case_bool_decide as E.
  - subst. by rewrite lookup_insert_eq.
  - rewrite lookup_insert_ne by done. by apply IH.
Qed.
End Sorted.

(** ** Nodes and their contents *)

Section Rep.
Context {V Cid BS : Type} `{!EqDecision V, !BlockStore BS Cid, !CidOps Cid, !CidOk Cid, !BlockStoreOk BS Cid,
  !Cbor (SerNode K V Cid), !CborOk (SerNode K V Cid)}.
Implicit Types (n : HNode K V Cid) (p : Pointer K V Cid) (m g : gmap K V) (s : BS).
Implicit Types (P : HNode K V Cid → gmap K V → Prop).

(** The entries whose keys have the index [j] at depth [d]. *)
Definition sub (d j : nat) m : gmap K V := filter (λ kv, slot_of kv.1 d = j) m.

(** The store holds, under the CID, a node that represents the map. *)
Definition stored s P (cid : Cid) m : Prop :=
  ∃ n c, P n m ∧ node_ser n = Ok c ∧ node_de c = Ok n ∧
    cid = new_from_cbor (to_vec c) ∧ holds s (to_vec c).

Definition ptr_rep s P p m : Prop :=
  match p with
  | Values kvs => kvs ≠ [] ∧ (length kvs ≤ MAX_ARRAY_WIDTH)%nat ∧ sorted_keys kvs ∧ list_to_map kvs = m
  | PDirty n => (MAX_ARRAY_WIDTH < size m)%nat ∧ P n m
  | PLink cid cache => (MAX_ARRAY_WIDTH < size m)%nat ∧ stored s P cid m ∧
      match cache with None => True | Some n => P n m end
  end.

(** The node, with [lv] levels left, represents the map. *)
Fixpoint node_rep s (lv : nat) n m : Prop :=
  match lv with
  | O => False
  | S lv' =>
      hbf_wf (bitfield n) ∧
      Forall2 (λ j p, ptr_rep s (node_rep s lv') p (sub (levels - lv) j m)) (set_bits (bitfield n)) (pointers n) ∧
      ∀ k, is_Some (m !! k) → test_bit (bitfield n) (Z.of_nat (slot_of k (levels - lv))) = true
  end.

Lemma slot_map_lookup d m k : sub d (slot_of k d) m !! k = m !! k.
Proof. unfold sub. destruct (m !! k) eqn:E; [by apply map_lookup_filter_Some|]. apply map_lookup_filter_None. by left. Qed.

Lemma slot_map_lookup_Some d j m k v : sub d j m !! k = Some v ↔ m !! k = Some v ∧ slot_of k d = j.
Proof. apply map_lookup_filter_Some. Qed.

Lemma sub_insert d m k v : sub d (slot_of k d) (<[k := v]> m) = <[k := v]> (sub d (slot_of k d) m).
Proof. unfold sub. by rewrite map_filter_insert_True. Qed.

Lemma sub_insert_ne d j m k v : j ≠ slot_of k d → sub d j (<[k := v]> m) = sub d j m.
Proof.
  intros Hj. apply map_eq. intros k'. apply option_eq. intros v'. rewrite !slot_map_lookup_Some.
  destruct (decide (k' = k)) as [->|]; [naive_solver|]. by rewrite lookup_insert_ne.
Qed.

Lemma sub_delete d m k j : sub d j (base.delete k m) = base.delete k (sub d j m).
Proof. unfold sub. by rewrite map_filter_delete. Qed.

Lemma sub_delete_ne d j m k : j ≠ slot_of k d → sub d j (base.delete k m) = sub d j m.
Proof.
  intros Hj. rewrite sub_delete. apply delete_id. destruct (sub d j m !! k) eqn:E; [|done].
  apply slot_map_lookup_Some in E as [_ ?]. congruence.
Qed.

Lemma sub_size d j m : (size (sub d j m) ≤ size m)%nat.
Proof. rewrite <-!size_dom. apply subseteq_size, subseteq_dom, map_filter_subseteq. Qed.

(** The entries of a map, grouped by index. *)
Lemma map_to_list_subs d m (js : list nat) :
  NoDup js → (∀ k, is_Some (m !! k) → slot_of k d ∈ js) →
  map_to_list m ≡ₚ js ≫= λ j, map_to_list (sub d j m).
Proof.
  intros Hnd Hall. apply NoDup_Permutation.
  - apply NoDup_map_to_list.
  - apply NoDup_bind; [| |done].
    + intros j1 j2 [k v] _ _. rewrite !elem_of_map_to_list, !slot_map_lookup_Some. naive_solver.
    + intros j _. apply NoDup_map_to_list.
  - intros [k v]. rewrite elem_of_map_to_list, list_elem_of_bind. split.
    + intros Hk. exists (slot_of k d). rewrite elem_of_map_to_list, slot_map_lookup. split; [done|]. apply Hall. eauto.
    + intros (j & Hj & _). by apply elem_of_map_to_list, slot_map_lookup_Some in Hj as [? _].
Qed.

Lemma ptr_impl s s' P P' p m :
  (∀ bz, holds s bz → holds s' bz) → (∀ n, P n m → P' n m) → ptr_rep s P p m → ptr_rep s' P' p m.
Proof.
  intros Hs HP. destruct p as [kvs|cid cache|n]; cbn; [done| |naive_solver].
  intros (Hm & (n & c & ? & ? & ? & ? & ?) & Hc). split; [done|]. split; [exists n, c; split_and!; auto|].
  destruct cache; auto.
Qed.

Lemma hnode_rep_mono s s' lv n m :
  (∀ bz, holds s bz → holds s' bz) → node_rep s lv n m → node_rep s' lv n m.
Proof.
  intros Hs. revert n m. induction lv as [|lv IH]; intros n m; [done|]. cbn [node_rep].
  intros (Hw & Hp & Hk). split; [done|]. split; [|done]. eapply Forall2_impl; [exact Hp|].
  intros j p. apply ptr_impl; [done|]. intros n'. apply IH.
Qed.

Lemma ptr_nonempty s P p m : ptr_rep s P p m → (1 ≤ size m)%nat.
Proof.
  destruct p as [kvs|cid cache|n]; cbn; [|unfold MAX_ARRAY_WIDTH; lia..].
  intros (Hne & _ & _ & <-). destruct kvs as [|[k v] kvs]; [done|]. cbn.
  apply Nat.neq_0_lt_0. intros E. apply map_size_empty_inv in E. by apply insert_non_empty in E.
Qed.

(** The pointer that a key leads to. *)
Lemma node_slot s lv n m k :
  node_rep s (S lv) n m → (S lv ≤ levels)%nat →
  let d := (levels - S lv)%nat in let j := slot_of k d in
  if test_bit (bitfield n) (Z.of_nat j)
  then ∃ p, pointers n !! bit_rank (bitfield n) j = Some p ∧ ptr_rep s (node_rep s lv) p (sub d j m)
  else m !! k = None ∧ sub d j m = ∅.
Proof.
  intros (Hw & Hp & Hk) Hlv d j. destruct (test_bit _ _) eqn:E.
  - pose proof (slot_bound k d ltac:(lia)) as Hj.
    pose proof (set_bits_lookup _ _ Hj E) as Hl. destruct (Forall2_lookup_l _ _ _ _ _ Hp Hl) as (p & ? & ?). eauto.
  - assert (Hnone : ∀ k', slot_of k' d = j → m !! k' = None).
    { intros k' Hk'. apply eq_None_not_Some. intros Hs%Hk. fold d in Hs. rewrite Hk' in Hs. congruence. }
    split; [by apply Hnone|]. apply map_eq. intros k'. rewrite lookup_empty.
    apply eq_None_not_Some. intros [v (Hv & Hs)%slot_map_lookup_Some]. rewrite Hnone in Hv; done.
Qed.

(** *** Replacing, adding and removing a pointer *)

Lemma set_child_rep s lv n m m' k p :
  node_rep s (S lv) n m → (S lv ≤ levels)%nat →
  let d := (levels - S lv)%nat in let j := slot_of k d in
  test_bit (bitfield n) (Z.of_nat j) = true →
  ptr_rep s (node_rep s lv) p (sub d j m') →
  (∀ j', j' ≠ j → sub d j' m' = sub d j' m) →
  node_rep s (S lv) (set_child n (bit_rank (bitfield n) j) p) m'.
Proof.
  intros (Hw & Hp & Hk) Hlv d j Hj Hptr Hne. cbn [node_rep set_child bitfield pointers]. fold d in Hp, Hk |- *.
  assert (Hb : (j < 256)%nat) by (apply slot_bound; lia). pose proof (set_bits_lookup _ _ Hb Hj) as Hl.
  split; [done|]. split.
  - apply Forall2_same_length_lookup_2; [by rewrite length_insert; eapply Forall2_length|].
    intros i j' p' Hi Hp'. destruct (decide (i = bit_rank (bitfield n) j)) as [->|Hi'].
    + rewrite Hl in Hi. injection Hi as <-. apply list_lookup_insert_Some in Hp' as [(_ & -> & _)|[? _]]; done.
    + rewrite list_lookup_insert_ne in Hp' by done. rewrite Hne; [exact (Forall2_lookup_lr _ _ _ _ _ _ Hp Hi Hp')|].
      intros ->. apply Hi'. eapply NoDup_lookup; [apply set_bits_nodup|exact Hi|exact Hl].
  - intros k' [v Hv]. destruct (decide (slot_of k' d = j)) as [->|Hjj]; [done|]. apply Hk.
    assert (Hs : sub d (slot_of k' d) m' !! k' = Some v) by (by rewrite slot_map_lookup).
    rewrite Hne in Hs by done. rewrite slot_map_lookup in Hs. eauto.
Qed.

Lemma Forall2_vec_insert {A B} (R : A → B → Prop) i a b l1 l2 :
  R a b → Forall2 R l1 l2 → Forall2 R (vec_insert i a l1) (vec_insert i b l2).
Proof. intros Ha Hl. apply Forall2_app; [by apply Forall2_take|]. constructor; [done|by apply Forall2_drop]. Qed.

Lemma Forall2_impl_in {A B} (R R' : A → B → Prop) l1 l2 :
  Forall2 R l1 l2 → (∀ a b, a ∈ l1 → R a b → R' a b) → Forall2 R' l1 l2.
Proof.
  intros Hf Hi. induction Hf as [|a b l1 l2 Ha Hf IH]; constructor; [apply Hi; [left|done]|].
  apply IH. intros a' b' Ha'. apply Hi. by right.
Qed.

Lemma insert_child_rep s lv n m k v :
  node_rep s (S lv) n m → (S lv ≤ levels)%nat →
  let d := (levels - S lv)%nat in
  test_bit (bitfield n) (Z.of_nat (slot_of k d)) = false →
  node_rep s (S lv) (insert_child n (Z.of_nat (slot_of k d)) k v) (<[k := v]> m).
Proof.
  intros Hrep Hlv d Hj. pose proof (node_slot s lv n m k Hrep Hlv) as Hslot. cbn zeta in Hslot. fold d in Hslot.
  rewrite Hj in Hslot. destruct Hslot as [Hnone Hempty]. destruct Hrep as (Hw & Hp & Hk). fold d in Hp, Hk.
  pose proof (slot_bound k d ltac:(lia)) as Hb.
  unfold insert_child. rewrite index_for_bit_pos_rank, Nat2Z.id by lia. cbn [node_rep bitfield pointers]. fold d.
  split; [apply set_bit_wf; [lia|done]|]. split.
  - rewrite set_bits_set by done. apply Forall2_vec_insert.
    + cbn. rewrite sub_insert, Hempty. split; [done|]. split; [unfold MAX_ARRAY_WIDTH; lia|].
      split; [repeat constructor|done].
    + eapply Forall2_impl_in; [exact Hp|]. intros j' p' [_ Hj']%elem_of_set_bits. rewrite sub_insert_ne; [done|].
      intros ->. congruence.
  - intros k' Hk'. pose proof (slot_bound k' d ltac:(lia)). rewrite test_bit_set_bit by lia.
    case_if; [done|]. apply Hk. rewrite lookup_insert_ne in Hk'; [done|]. by intros ->.
Qed.

Lemma rm_child_rep s lv n m k :
  node_rep s (S lv) n m → (S lv ≤ levels)%nat →
  let d := (levels - S lv)%nat in let j := slot_of k d in
  test_bit (bitfield n) (Z.of_nat j) = true → base.delete k (sub d j m) = ∅ →
  node_rep s (S lv) (rm_child n (bit_rank (bitfield n) j) (Z.of_nat j)) (base.delete k m).
Proof.
  intros (Hw & Hp & Hk) Hlv d j Hj Hempty. fold d in Hp, Hk.
  assert (Hb : (j < 256)%nat) by (apply slot_bound; lia).
  cbn [node_rep bitfield pointers rm_child]. fold d. split; [apply clear_bit_wf; [lia|done]|]. split.
  - rewrite set_bits_clear by done. eapply Forall2_impl_in; [by apply Forall2_delete|].
    intros j' p' Hj'. rewrite <-set_bits_clear in Hj' by done. apply elem_of_set_bits in Hj' as [Hlt Hj'].
    rewrite sub_delete_ne; [done|]. intros ->. rewrite test_bit_clear_bit, Z.eqb_refl in Hj' by lia. done.
  - intros k' [v Hk']. pose proof (slot_bound k' d ltac:(lia)). rewrite test_bit_clear_bit by lia. case_if.
    + exfalso. assert (Hjj : slot_of k' d = j) by lia. rewrite <-sub_delete in Hempty.
      assert (Hs : sub d j (base.delete k m) !! k' = Some v) by (rewrite <-Hjj, slot_map_lookup; done).
      by rewrite Hempty in Hs.
    + apply Hk. apply lookup_delete_Some in Hk' as [_ ?]. eauto.
Qed.

(** *** Links *)

Lemma hstored_load s P cid m : stored s P cid m → ∃ n, load_hnode s cid = Ok n ∧ P n m.
Proof.
  intros (n & c & Hn & _ & He & -> & Hh). exists n. split; [|done].
  unfold load_hnode. rewrite get_holds by done. done.
Qed.

Lemma cached_hnode_ok s P cid cache m :
  ptr_rep s P (PLink cid cache) m →
  ∃ n, cached_hnode s cid cache = Ok n ∧ P n m ∧ ∀ n', P n' m → ptr_rep s P (PLink cid (Some n')) m.
Proof.
  intros (Hm & Hst & Hc). destruct cache as [n|]; cbn.
  - exists n. auto.
  - destruct (hstored_load _ _ _ _ Hst) as (n & ? & ?). exists n. auto.
Qed.

(** *** Lookup *)

Lemma get_value_spec s lv fuel n m k :
  node_rep s lv n m → (lv ≤ levels)%nat → (lv ≤ fuel)%nat →
  ∃ n', get_value fuel s bw n (hash k) (Z.of_nat (levels - lv) * bw) k
          = (n', Ok ((λ v, (k, v)) <$> m !! k))
    ∧ node_rep s lv n' m.
Proof.
  revert fuel n m. induction lv as [|lv IH]; intros fuel n m Hrep Hlv Hf; [done|].
  destruct fuel as [|fuel]; [lia|]. cbn [get_value]. rewrite next_slot by lia.
  replace (S (levels - S lv)) with (levels - lv)%nat by lia.
  pose proof (node_slot s lv n m k Hrep Hlv) as Hslot. cbn zeta in Hslot.
  pose proof (slot_bound k (levels - S lv) ltac:(lia)) as Hb.
  set (d := (levels - S lv)%nat) in *. set (j := slot_of k d) in *.
  destruct (test_bit (bitfield n) (Z.of_nat j)) eqn:Ej; cbn [negb].
  - rewrite index_for_bit_pos_rank, Nat2Z.id by lia. destruct Hslot as (p & -> & Hp).
    assert (Hk : sub d j m !! k = m !! k) by apply slot_map_lookup.
    destruct p as [kvs|cid cache|sub_n].
    + exists n. split; [|done]. destruct Hp as (_ & _ & Hs & Hm).
      rewrite find_key by (by apply sorted_keys_nodup). by rewrite Hm, Hk.
    + apply cached_hnode_ok in Hp as (sub_n & -> & Hn & Hp).
      destruct (IH fuel sub_n _ Hn ltac:(lia) ltac:(lia)) as (n' & -> & Hn'). rewrite Hk.
      eexists. split; [done|]. apply set_child_rep with m; auto.
    + destruct Hp as [Hm Hn]. destruct (IH fuel sub_n _ Hn ltac:(lia) ltac:(lia)) as (n' & -> & Hn'). rewrite Hk.
      eexists. split; [done|]. by apply set_child_rep with m.
  - exists n. destruct Hslot as [-> _]. done.
Qed.

(** *** Entries of a pointer *)

Lemma values_lookup s P kvs g k : ptr_rep s P (Values kvs) g → position (λ kv, bool_decide (kv.1 = k)) kvs = None → g !! k = None.
Proof. intros (_ & _ & _ & <-) Hk%position_none. by apply not_elem_of_list_to_map. Qed.

Lemma values_at s P kvs g k i :
  ptr_rep s P (Values kvs) g → position (λ kv, bool_decide (kv.1 = k)) kvs = Some i →
  ∃ old, kvs !! i = Some (k, old) ∧ g !! k = Some old
    ∧ kvs = take i kvs ++ (k, old) :: drop (S i) kvs ∧ (i < length kvs)%nat
    ∧ g = <[k := old]> (list_to_map (take i kvs ++ drop (S i) kvs))
    ∧ (list_to_map (take i kvs ++ drop (S i) kvs) : gmap K V) !! k = None.
Proof.
  intros (_ & _ & Hs & <-) Hi. destruct (position_key _ _ _ Hi) as (old & Hsplit & Hl). exists old.
  apply sorted_keys_nodup in Hs. rewrite Hsplit in Hs. destruct (list_to_map_middle _ _ _ _ Hs) as [Hm Hnone].
  rewrite <-Hsplit in Hm. split_and!; [done| |done|by eapply lookup_lt_Some|done|done].
  rewrite Hm. by rewrite lookup_insert_eq.
Qed.

Lemma values_update s P kvs g k v i :
  ptr_rep s P (Values kvs) g → position (λ kv, bool_decide (kv.1 = k)) kvs = Some i →
  ∃ old, kvs !! i = Some (k, old) ∧ g !! k = Some old
    ∧ ptr_rep s P (Values (<[i := (k, v)]> kvs)) (<[k := v]> g).
Proof.
  intros Hp Hi. destruct (values_at _ _ _ _ _ _ Hp Hi) as (old & Hl & Hg & Hsplit & Hlt & Hm & Hnone).
  destruct Hp as (Hne & Hlen & Hs & _). exists old. split; [done|]. split; [done|].
  assert (Hkeys : (<[i := (k, v)]> kvs).*1 = kvs.*1).
  { rewrite list_fmap_insert. apply list_insert_id. by rewrite list_lookup_fmap, Hl. }
  cbn. rewrite length_insert. split; [intros E; apply (f_equal length) in E; rewrite length_insert in E; by destruct kvs|].
  split; [done|]. split; [unfold sorted_keys; by rewrite Hkeys|].
  assert (Hins : <[i := (k, v)]> kvs = take i kvs ++ (k, v) :: drop (S i) kvs) by (by rewrite insert_take_drop).
  apply sorted_keys_nodup in Hs. rewrite <-Hkeys, Hins in Hs.
  destruct (list_to_map_middle _ _ _ _ Hs) as [Hm' _].
  rewrite Hins, Hm', Hm. by rewrite insert_insert_eq.
Qed.

Lemma values_insert s P kvs g k v :
  ptr_rep s P (Values kvs) g → position (λ kv, bool_decide (kv.1 = k)) kvs = None →
  (length kvs < MAX_ARRAY_WIDTH)%nat →
  ptr_rep s P (Values (insert_in_order key_ltb (k, v) kvs)) (<[k := v]> g).
Proof.
  intros (Hne & _ & Hs & <-) Hk%position_none Hlen.
  pose proof (insert_in_order_perm (k, v) kvs) as Hperm.
  pose proof (insert_in_order_sorted k v kvs Hs Hk) as Hs'. cbn. split_and!; [|by rewrite Hperm| done|].
  - intros E. rewrite E in Hperm. by apply Permutation_nil_cons in Hperm.
  - apply sorted_keys_nodup in Hs'. by rewrite (list_to_map_proper _ _ Hs' Hperm).
Qed.

Lemma sorted_keys_delete (kvs : list (K * V)) i : sorted_keys kvs → sorted_keys (base.delete i kvs).
Proof.
  unfold sorted_keys. revert i. induction kvs as [|[k v] kvs IH]; intros i Hs; [done|].
  cbn in Hs. apply StronglySorted_inv in Hs as [Hs Hk]. destruct i as [|i]; [done|]. cbn.
  constructor; [by apply IH|].
  rewrite Forall_forall in Hk |- *. intros x (kv & -> & Hin)%list_elem_of_fmap. apply Hk.
  apply list_elem_of_fmap_2.
  eapply elem_of_submseteq; [exact Hin|]. apply sublist_submseteq, sublist_delete.
Qed.

Lemma values_delete s P kvs g k i :
  ptr_rep s P (Values kvs) g → position (λ kv, bool_decide (kv.1 = k)) kvs = Some i →
  ∃ old, kvs !! i = Some (k, old) ∧ g !! k = Some old ∧
    if (length kvs =? 1)%nat then head kvs = Some (k, old) ∧ base.delete k g = ∅
    else ptr_rep s P (Values (base.delete i kvs)) (base.delete k g).
Proof.
  intros Hp Hi. destruct (values_at _ _ _ _ _ _ Hp Hi) as (old & Hl & Hg & Hsplit & Hlt & Hm & Hnone).
  destruct Hp as (Hne & Hlen & Hs & Hkvs). exists old. split; [done|]. split; [done|].
  assert (Hdel : base.delete k g = list_to_map (base.delete i kvs)).
  { rewrite Hm, delete_insert_id by done. by rewrite delete_take_drop. }
  destruct (Nat.eqb_spec (length kvs) 1) as [E|E].
  - destruct kvs as [|kv [|kv' kvs]]; [done| |done]. destruct i; [|cbn in Hlt; lia]. cbn in Hl. by injection Hl as ->.
  - pose proof (length_delete kvs i ltac:(eauto)). cbn. split_and!; [|lia|by apply sorted_keys_delete|done].
    intros Ed. rewrite Ed in *. cbn in *. lia.
Qed.

(** *** Insertion *)

(** The keys of the map have the same indices above depth [d]. *)
Definition same_prefix (d : nat) m : Prop :=
  ∀ k k', is_Some (m !! k) → is_Some (m !! k') → ∀ d', (d' < d)%nat → slot_of k d' = slot_of k' d'.

Lemma same_prefix_sub d j m : same_prefix d m → same_prefix (S d) (sub d j m).
Proof.
  intros Hm k k' [v Hk] [v' Hk'] d' Hd. apply slot_map_lookup_Some in Hk as [Hk Hj], Hk' as [Hk' Hj'].
  destruct (decide (d' = d)) as [->|]; [congruence|]. apply Hm; eauto. lia.
Qed.

Lemma same_prefix_mono d m m' : (∀ k, is_Some (m !! k) → is_Some (m' !! k)) → same_prefix d m' → same_prefix d m.
Proof. intros Hsub Hm k k' Hk Hk'. apply Hm; auto. Qed.

Lemma same_prefix_size m : same_prefix levels m → (size m ≤ MAX_ARRAY_WIDTH)%nat.
Proof.
  intros Hm. rewrite <-length_map_to_list, <-(length_fmap fst). apply few_collisions.
  - apply NoDup_fst_map_to_list.
  - assert (Hk : ∀ k, k ∈ (map_to_list m).*1 → is_Some (m !! k)).
    { intros k ((k' & v) & -> & Hin)%list_elem_of_fmap. apply elem_of_map_to_list in Hin. eauto. }
    intros k k' Hk1 Hk2 d Hd. by apply Hm; auto.
Qed.

(** The map after [modify_value], and whether it counts as modified. *)
Definition modified_map m (k : K) (v : V) (overwrite : bool) : gmap K V :=
  match m !! k with
  | Some _ => if overwrite then <[k := v]> m else m
  | None => <[k := v]> m
  end.
Definition did_modify m (k : K) (v : V) (overwrite : bool) : bool :=
  match m !! k with
  | Some old => overwrite && bool_decide (old ≠ v)
  | None => true
  end.

Lemma modified_map_sub d m k v ow :
  modified_map (sub d (slot_of k d) m) k v ow = sub d (slot_of k d) (modified_map m k v ow).
Proof. unfold modified_map. rewrite slot_map_lookup. destruct (m !! k), ow; by rewrite ?sub_insert. Qed.

Lemma modified_map_sub_ne d j m k v ow : j ≠ slot_of k d → sub d j (modified_map m k v ow) = sub d j m.
Proof. intros Hj. unfold modified_map. destruct (m !! k), ow; by rewrite ?sub_insert_ne. Qed.

Lemma not_modified m k v ow : did_modify m k v ow = false → modified_map m k v ow = m.
Proof.
  unfold did_modify, modified_map. destruct (m !! k) as [old|] eqn:E; [|done].
  destruct ow; [|done]. cbn. intros Hb%bool_decide_eq_false_1. apply dec_stable in Hb. subst. by apply insert_id.
Qed.

Lemma modified_size m k v ow : (size m ≤ size (modified_map m k v ow))%nat.
Proof.
  unfold modified_map. destruct (m !! k) eqn:E, ow; try done.
  - by rewrite map_size_insert_Some.
  - rewrite map_size_insert_None by done. lia.
  - rewrite map_size_insert_None by done. lia.
Qed.

Lemma default_rep s lv : (1 ≤ lv)%nat → node_rep s lv node_default ∅.
Proof.
  destruct lv as [|lv]; [lia|]. intros _. split; [apply zero_wf|]. split; [constructor|].
  intros k. rewrite lookup_empty. by intros [].
Qed.

(** What an insertion at a node with [lv] levels left does. *)
Definition modifies s lv (modify : HNode K V Cid → K → V → HNode K V Cid * result (HamtError Cid) (option V * bool)) (ow : bool) : Prop :=
  ∀ n m k v, node_rep s lv n m → same_prefix (levels - lv) (<[k := v]> m) →
  ∃ n', modify n k v = (n', Ok (if ow then m !! k else None, did_modify m k v ow))
    ∧ node_rep s lv n' (modified_map m k v ow).

Lemma reinsert_spec s lv modify ow :
  modifies s lv modify ow →
  ∀ kvs n m, node_rep s lv n m → NoDup kvs.*1 → (∀ k, k ∈ kvs.*1 → m !! k = None) →
  same_prefix (levels - lv) (list_to_map kvs ∪ m) →
  ∃ n', reinsert modify n kvs = (n', Ok tt) ∧ node_rep s lv n' (list_to_map kvs ∪ m).
Proof.
  intros IH kvs. induction kvs as [|[k v] kvs IHk]; intros n m Hn Hnd Hnone Hpre.
  - exists n. cbn. by rewrite (left_id_L ∅ (∪)).
  - cbn in Hnd. apply NoDup_cons in Hnd as [Hk Hnd]. assert (Hmk : m !! k = None) by (apply Hnone; left).
    assert (Hk' : (list_to_map kvs : gmap K V) !! k = None) by (by apply not_elem_of_list_to_map).
    assert (Heq : list_to_map ((k, v) :: kvs) ∪ m = list_to_map kvs ∪ <[k := v]> m).
    { cbn. rewrite <-insert_union_l. by rewrite insert_union_r. }
    rewrite Heq in Hpre |- *.
    destruct (IH n m k v Hn) as (n1 & H1 & Hn1).
    { eapply same_prefix_mono; [|exact Hpre]. intros k' Hs. apply lookup_union_is_Some. by right. }
    cbn [reinsert]. rewrite H1. unfold modified_map in Hn1. rewrite Hmk in Hn1.
    apply IHk; [done..| |done]. intros k' Hin. rewrite lookup_insert_ne by (intros ->; done). apply Hnone. by right.
Qed.

(** A full pointer becomes a node. *)
Lemma split_spec s lv modify ow kvs g k v :
  modifies s lv modify ow → (lv ≤ levels)%nat →
  ptr_rep s (node_rep s lv) (Values kvs) g → g !! k = None → (MAX_ARRAY_WIDTH ≤ length kvs)%nat →
  same_prefix (levels - lv) (<[k := v]> g) →
  ∃ n1 n2, modify node_default k v = (n1, Ok (None, true)) ∧ reinsert modify n1 kvs = (n2, Ok tt)
    ∧ ptr_rep s (node_rep s lv) (PDirty n2) (<[k := v]> g).
Proof.
  intros IH Hlv (Hne & Hlen & Hs & Hg) Hnone Hfull Hpre. apply sorted_keys_nodup in Hs as Hnd.
  assert (Hsize : (MAX_ARRAY_WIDTH < size (<[k := v]> g))%nat).
  { rewrite map_size_insert_None by done. rewrite <-Hg, <-length_map_to_list, map_to_list_to_map by done. lia. }
  assert (Hlv1 : (1 ≤ lv)%nat).
  { destruct lv; [|lia]. rewrite Nat.sub_0_r in Hpre. apply same_prefix_size in Hpre. lia. }
  destruct (IH node_default ∅ k v) as (n1 & H1 & Hn1).
  { by apply default_rep. }
  { eapply same_prefix_mono; [|exact Hpre]. intros k'. rewrite insert_empty.
    intros [v' Hv']. apply lookup_singleton_Some in Hv' as [<- _]. by rewrite lookup_insert_eq. }
  rewrite lookup_empty in H1. unfold did_modify in H1. rewrite lookup_empty in H1.
  unfold modified_map in Hn1. rewrite lookup_empty, insert_empty in Hn1.
  assert (Heq : list_to_map kvs ∪ {[k := v]} = <[k := v]> g).
  { rewrite Hg. rewrite <-insert_empty, <-insert_union_r by done. by rewrite (right_id_L ∅ (∪)). }
  destruct (reinsert_spec s lv modify ow IH kvs n1 {[k := v]} Hn1 Hnd) as (n2 & H2 & Hn2).
  { intros k' Hk'. apply lookup_singleton_ne. intros ->.
    rewrite <-Hg in Hnone. by apply not_elem_of_list_to_map in Hnone. }
  { by rewrite Heq. }
  exists n1, n2. split; [by destruct ow|]. split; [done|]. cbn. rewrite <-Heq at 2. done.
Qed.

Lemma modify_values_spec s lv fuel kvs n m k v ow :
  modifies s lv (λ n k v, modify_value hash key_ltb fuel s bw n (hash k) (Z.of_nat (levels - lv) * bw) k v ow) ow →
  node_rep s (S lv) n m → (S lv ≤ levels)%nat →
  let d := (levels - S lv)%nat in let j := slot_of k d in
  same_prefix d (<[k := v]> m) →
  test_bit (bitfield n) (Z.of_nat j) = true →
  pointers n !! bit_rank (bitfield n) j = Some (Values kvs) →
  ptr_rep s (node_rep s lv) (Values kvs) (sub d j m) →
  ∃ n', modify_value hash key_ltb (S fuel) s bw n (hash k) (Z.of_nat d * bw) k v ow
        = (n', Ok (if ow then m !! k else None, did_modify m k v ow))
    ∧ node_rep s (S lv) n' (modified_map m k v ow).
Proof.
  intros IH Hrep Hlv d j Hpre Hj Hp Hptr. assert (Hd : (d < levels)%nat) by lia.
  cbn [modify_value]. rewrite next_slot by done. fold j. rewrite Hj. cbn [negb].
  pose proof (slot_bound k d Hd) as Hb. rewrite index_for_bit_pos_rank, Nat2Z.id by lia. rewrite Hp.
  assert (Hk : sub d j m !! k = m !! k) by apply slot_map_lookup.
  assert (Hset : ∀ p, ptr_rep s (node_rep s lv) p (sub d j (modified_map m k v ow)) →
    node_rep s (S lv) (set_child n (bit_rank (bitfield n) j) p) (modified_map m k v ow)).
  { intros p Hp'. apply set_child_rep with m; [done..|]. intros j'. apply modified_map_sub_ne. }
  assert (Hms : sub d j (modified_map m k v ow) = modified_map (sub d j m) k v ow) by (symmetry; apply modified_map_sub).
  rewrite Hms in Hset. unfold did_modify, modified_map in *. rewrite Hk in Hset.
  destruct (position _ kvs) as [i|] eqn:Ei.
  - destruct (values_update _ _ _ _ _ v _ Hptr Ei) as (old & Hl & Hold & Hup). rewrite Hk in Hold.
    rewrite Hold in *. destruct ow; [|by exists n]. rewrite Hl. eexists. split; [done|]. by apply Hset.
  - pose proof (values_lookup _ _ _ _ _ Hptr Ei) as Hnone. rewrite Hk in Hnone. rewrite Hnone in *.
    destruct (Nat.leb_spec MAX_ARRAY_WIDTH (length kvs)).
    + replace (S d) with (levels - lv)%nat by lia.
      destruct (split_spec s lv _ ow kvs (sub d j m) k v IH) as (n1 & n2 & Hs1 & Hs2 & Hs3); [lia|done|done|done| |].
      { replace (levels - lv)%nat with (S d) by lia. unfold j. rewrite <-sub_insert. by apply same_prefix_sub. }
      rewrite Hs1, Hs2. eexists. split; [by destruct ow|]. by apply Hset.
    + eexists. split; [by destruct ow|]. apply Hset.
      by apply (values_insert s (node_rep s lv) kvs (sub d j m) k v).
Qed.

Lemma modify_value_spec s lv fuel ow :
  (lv ≤ levels)%nat → (lv ≤ fuel)%nat →
  modifies s lv (λ n k v, modify_value hash key_ltb fuel s bw n (hash k) (Z.of_nat (levels - lv) * bw) k v ow) ow.
Proof.
  revert fuel. induction lv as [|lv IHlv]; intros fuel Hlv Hf n m k v Hrep Hpre; [done|].
  destruct fuel as [|fuel]; [lia|]. specialize (IHlv fuel ltac:(lia) ltac:(lia)).
  pose proof (node_slot s lv n m k Hrep Hlv) as Hslot. cbn zeta in Hslot.
  pose proof (slot_bound k (levels - S lv) ltac:(lia)) as Hb.
  destruct (test_bit (bitfield n) (Z.of_nat (slot_of k (levels - S lv)))) eqn:Ej.
  - destruct Hslot as (p & Hp & Hptr).
    destruct p as [kvs|cid cache|sub_n]; [by eapply modify_values_spec| |].
    all: cbn [modify_value]; rewrite next_slot by lia; rewrite Ej; cbn [negb];
      rewrite index_for_bit_pos_rank, Nat2Z.id, Hp by lia;
      replace (S (levels - S lv)) with (levels - lv)%nat by lia.
    all: set (d := (levels - S lv)%nat) in *; set (j := slot_of k d) in *.
    all: assert (Hsize : (MAX_ARRAY_WIDTH < size (sub d j (modified_map m k v ow)))%nat) by
      (pose proof (modified_size (sub d j m) k v ow) as Hms; unfold j in Hms; rewrite modified_map_sub in Hms;
       fold j in Hms; destruct Hptr as [? _]; lia).
    all: assert (Hsub : same_prefix (levels - lv) (<[k := v]> (sub d j m))) by
      (replace (levels - lv)%nat with (S d) by lia; unfold j; rewrite <-sub_insert; by apply same_prefix_sub).
    all: assert (Hdid : did_modify (sub d j m) k v ow = did_modify m k v ow) by
      (unfold did_modify, j; by rewrite slot_map_lookup).
    + destruct (cached_hnode_ok _ _ _ _ _ Hptr) as (sub_n & -> & Hn & Hlink).
      destruct (IHlv sub_n _ k v Hn Hsub) as (n' & -> & Hn').
      assert (sub d j m !! k = m !! k) as -> by apply slot_map_lookup. rewrite Hdid.
      unfold j in Hn'. rewrite modified_map_sub in Hn'. fold j in Hn'.
      eexists. split; [done|]. apply set_child_rep with m; [done..| |intros j'; apply modified_map_sub_ne].
      fold d. fold j. destruct (did_modify m k v ow) eqn:Ed; [by split|].
      apply not_modified in Ed. rewrite Ed in Hn' |- *. by apply Hlink.
    + destruct Hptr as [Hm Hn]. destruct (IHlv sub_n _ k v Hn Hsub) as (n' & -> & Hn').
      assert (sub d j m !! k = m !! k) as -> by apply slot_map_lookup. rewrite Hdid.
      unfold j in Hn'. rewrite modified_map_sub in Hn'. fold j in Hn'.
      eexists. split; [done|]. by apply set_child_rep with m; [done..|split|intros j'; apply modified_map_sub_ne].
  - destruct Hslot as [Hnone _]. cbn [modify_value]. rewrite next_slot by lia. rewrite Ej. cbn [negb].
    unfold did_modify, modified_map. rewrite Hnone. eexists. split; [by destruct ow|]. by apply insert_child_rep.
Qed.

(** *** Deletion *)

Lemma values_entries s P kvs g : ptr_rep s P (Values kvs) g → kvs ≡ₚ map_to_list g.
Proof. intros (_ & _ & Hs%sorted_keys_nodup & <-). by rewrite map_to_list_to_map. Qed.

Lemma pointers_entries s P d g js ps :
  Forall2 (λ j p, ptr_rep s P p (sub d j g)) js ps →
  (length ps ≤ length (js ≫= λ j, map_to_list (sub d j g)))%nat ∧
  match children_len ps with
  | Some len => ps ≫= values_of ≡ₚ js ≫= (λ j, map_to_list (sub d j g)) ∧ len = length (ps ≫= values_of)
  | None => (MAX_ARRAY_WIDTH < length (js ≫= λ j, map_to_list (sub d j g)))%nat
  end.
Proof.
  induction 1 as [|j p js ps Hp Hps [IH1 IH2]]; [done|]. rewrite bind_cons, length_app, length_map_to_list.
  pose proof (ptr_nonempty _ _ _ _ Hp). split; [cbn; lia|].
  destruct p as [kvs|cid cache|n]; cbn [children_len]; [|destruct Hp as [? _]; lia..].
  apply values_entries in Hp. destruct (children_len ps) as [len|]; cbn; [|lia].
  destruct IH2 as [IH2 ->]. rewrite length_app. by rewrite Hp, IH2.
Qed.

Lemma collapse_rep s P kvs g :
  kvs ≡ₚ map_to_list g → (1 ≤ size g ≤ MAX_ARRAY_WIDTH)%nat → ptr_rep s P (Values (sort_by_key key_ltb kvs)) g.
Proof.
  intros Hv Hsize. pose proof (transitivity (sort_by_key_perm kvs) Hv) as Hsort.
  assert (Hnd : NoDup kvs.*1) by (rewrite Hv; apply NoDup_fst_map_to_list).
  pose proof (sort_by_key_sorted _ Hnd) as Hs.
  assert (Hlen : length (sort_by_key key_ltb kvs) = size g) by (by rewrite Hsort, length_map_to_list).
  split; [intros E; rewrite E in Hlen; cbn in Hlen; lia|]. split; [lia|]. split; [done|].
  apply sorted_keys_nodup in Hs. rewrite (list_to_map_proper _ _ Hs Hsort). apply list_to_map_to_list.
Qed.

Lemma clean_spec s lv n g :
  node_rep s lv n g → (lv ≤ levels)%nat → (1 ≤ size g)%nat →
  ∃ p, clean key_ltb (PDirty n) = (p, Ok tt) ∧ ptr_rep s (node_rep s lv) p g.
Proof.
  destruct lv as [|lv]; [done|]. intros Hrep Hlv Hsize. pose proof Hrep as (Hw & Hp & Hk).
  set (d := (levels - S lv)%nat) in *. pose proof (pointers_entries _ _ _ _ _ _ Hp) as [Hle Hval].
  assert (Hall : ∀ k, is_Some (g !! k) → slot_of k d ∈ set_bits (bitfield n)).
  { intros k Hs. apply elem_of_set_bits. split; [apply slot_bound; lia|by apply Hk]. }
  pose proof (map_to_list_subs d g _ (set_bits_nodup (bitfield n)) Hall) as Hperm.
  rewrite <-Hperm, length_map_to_list in Hle.
  assert (Hdirty : (MAX_ARRAY_WIDTH < size g)%nat → ptr_rep s (node_rep s (S lv)) (PDirty n) g) by done.
  assert (Hmany : children_len (pointers n) = None → (MAX_ARRAY_WIDTH < size g)%nat).
  { intros E. rewrite E, <-Hperm, length_map_to_list in Hval. done. }
  assert (Hfew : ∀ len, children_len (pointers n) = Some len →
    pointers n ≫= values_of ≡ₚ map_to_list g ∧ len = size g).
  { intros len E. rewrite E in Hval. destruct Hval as [Hval ->]. by rewrite Hval, <-Hperm, length_map_to_list. }
  clear Hval. unfold clean. destruct (pointers n) as [|p1 ps] eqn:Eps.
  { destruct (Hfew O eq_refl) as [_ ?]. lia. }
  destruct ps as [|p2 ps].
  { destruct p1 as [kvs|cid cache|n1]; [|eexists; split; [done|]; by auto..].
    exists (Values kvs). split; [done|]. apply Forall2_cons_inv_r in Hp as (j & js & Hp & Hnil & Ej).
    apply Forall2_nil_inv_r in Hnil as ->.
    assert (sub d j g = g) as Heq; [|by rewrite Heq in Hp].
    apply map_filter_id. intros k v Hv. cbn. specialize (Hall k (mk_is_Some _ _ Hv)). rewrite Ej in Hall.
    by apply list_elem_of_singleton in Hall. }
  set (ps' := p1 :: p2 :: ps) in *.
  assert (Hcases : ∃ p, (if (length ps' <=? MAX_ARRAY_WIDTH)%nat then
      match children_len ps' with
      | Some len => if (MAX_ARRAY_WIDTH <? len)%nat then (PDirty n, Ok tt)
                    else (Values (sort_by_key key_ltb (ps' ≫= values_of)), Ok tt)
      | None => (PDirty n, Ok tt)
      end else (PDirty n, Ok tt)) = (p, @Ok (HamtError Cid) unit tt) ∧ ptr_rep s (node_rep s (S lv)) p g).
  { destruct (Nat.leb_spec (length ps') MAX_ARRAY_WIDTH); [|eexists; split; [done|]; apply Hdirty; lia].
    destruct (children_len ps') as [len|]; [|eexists; split; [done|]; by auto].
    destruct (Hfew len eq_refl) as [Hv ->]. destruct (Nat.ltb_spec MAX_ARRAY_WIDTH (size g)).
    { eexists; split; [done|]; by auto. }
    eexists; split; [done|]. by apply collapse_rep; [|lia]. }
  by destruct p1.
Qed.

(** Whether the path of a key goes through a link by CID. *)
Fixpoint meets_link (lv : nat) n (k : K) : bool :=
  match lv with
  | O => false
  | S lv' =>
      let j := slot_of k (levels - lv) in
      test_bit (bitfield n) (Z.of_nat j) &&
      match pointers n !! bit_rank (bitfield n) j with
      | Some (PLink _ _) => true
      | Some (PDirty sub_n) => meets_link lv' sub_n k
      | _ => false
      end
  end.

(** The outcome of [rm_value]. *)
Definition removal s lv n m k (r : HNode K V Cid * result (HamtError Cid) (option (K * V))) : Prop :=
  match m !! k with
  | Some v => ∃ n', r = (n', Ok (Some (k, v))) ∧ node_rep s lv n' (base.delete k m)
  | None => ∃ n', r = (n', if meets_link lv n k then Err HPanic else Ok None) ∧ node_rep s lv n' m
  end.

Lemma rm_values_spec s lv fuel kvs n m k :
  node_rep s (S lv) n m → (S lv ≤ levels)%nat →
  let d := (levels - S lv)%nat in let j := slot_of k d in
  test_bit (bitfield n) (Z.of_nat j) = true →
  pointers n !! bit_rank (bitfield n) j = Some (Values kvs) →
  ptr_rep s (node_rep s lv) (Values kvs) (sub d j m) →
  removal s (S lv) n m k (rm_value key_ltb (S fuel) s bw n (hash k) (Z.of_nat d * bw) k).
Proof.
  intros Hrep Hlv d j Hj Hp Hptr. unfold removal. assert (Hd : (d < levels)%nat) by lia.
  cbn [rm_value meets_link]. fold d. fold j. rewrite next_slot by done. fold j. rewrite Hj, Hp. cbn [negb andb].
  pose proof (slot_bound k d Hd) as Hb. rewrite index_for_bit_pos_rank, Nat2Z.id, Hp by lia.
  assert (Hk : sub d j m !! k = m !! k) by apply slot_map_lookup.
  destruct (position _ kvs) as [i|] eqn:Ei.
  - destruct (values_delete _ _ _ _ _ _ Hptr Ei) as (old & Hl & Hold & Hdel). rewrite Hk in Hold. rewrite Hold.
    destruct (length kvs =? 1)%nat.
    + destruct Hdel as [-> Hempty]. eexists. split; [done|]. by apply rm_child_rep.
    + rewrite Hl. eexists. split; [done|]. apply set_child_rep with m; [done..| |].
      * fold d. fold j. by rewrite sub_delete.
      * intros j'. apply sub_delete_ne.
  - pose proof (values_lookup _ _ _ _ _ Hptr Ei) as Hnone. rewrite Hk in Hnone. rewrite Hnone. by exists n.
Qed.

Lemma rm_value_spec s lv fuel n m k :
  node_rep s lv n m → (lv ≤ levels)%nat → (lv ≤ fuel)%nat →
  removal s lv n m k (rm_value key_ltb fuel s bw n (hash k) (Z.of_nat (levels - lv) * bw) k).
Proof.
  revert fuel n m. induction lv as [|lv IH]; intros fuel n m Hrep Hlv Hf; [done|].
  destruct fuel as [|fuel]; [lia|]. pose proof (node_slot s lv n m k Hrep Hlv) as Hslot. cbn zeta in Hslot.
  pose proof (slot_bound k (levels - S lv) ltac:(lia)) as Hb.
  destruct (test_bit (bitfield n) (Z.of_nat (slot_of k (levels - S lv)))) eqn:Ej.
  2:{ destruct Hslot as [Hnone _]. unfold removal. rewrite Hnone. cbn [rm_value meets_link].
      rewrite next_slot by lia. rewrite Ej. by exists n. }
  destruct Hslot as (p & Hp & Hptr).
  destruct p as [kvs|cid cache|sub_n]; [by eapply rm_values_spec| |].
  all: unfold removal; cbn [rm_value meets_link]; rewrite next_slot by lia; rewrite Ej, Hp; cbn [negb andb];
    rewrite index_for_bit_pos_rank, Nat2Z.id, Hp by lia; replace (S (levels - S lv)) with (levels - lv)%nat by lia.
  all: set (d := (levels - S lv)%nat) in *; set (j := slot_of k d) in *.
  all: assert (Hk : sub d j m !! k = m !! k) by apply slot_map_lookup.
  all: assert (Hsize : ∀ v, m !! k = Some v → (1 ≤ size (base.delete k (sub d j m)))%nat) by
    (intros v Hv; rewrite map_size_delete_Some by (rewrite Hk; eauto); destruct Hptr as [Hm _];
     unfold MAX_ARRAY_WIDTH in Hm; lia).
  all: assert (Hset : ∀ p, ptr_rep s (node_rep s lv) p (base.delete k (sub d j m)) →
      node_rep s (S lv) (set_child n (bit_rank (bitfield n) j) p) (base.delete k m)) by
    (intros p' Hp'; apply set_child_rep with m; [done..|by rewrite sub_delete|intros j'; apply sub_delete_ne]).
  - destruct (cached_hnode_ok _ _ _ _ _ Hptr) as (sub_n & -> & Hn & Hlink).
    specialize (IH fuel sub_n _ Hn ltac:(lia) ltac:(lia)). unfold removal in IH. rewrite Hk in IH.
    destruct (m !! k) as [v|] eqn:Emk.
    + destruct IH as (n' & -> & Hn').
      destruct (clean_spec s lv n' _ Hn' ltac:(lia) (Hsize v eq_refl)) as (p & -> & Hp'). eauto.
    + destruct IH as (n' & -> & Hn'). exists (set_child n (bit_rank (bitfield n) j) (PLink cid (Some n'))).
      split; [by destruct (meets_link lv sub_n k)|]. apply set_child_rep with m; auto.
  - destruct Hptr as [Hm Hn].
    specialize (IH fuel sub_n _ Hn ltac:(lia) ltac:(lia)). unfold removal in IH. rewrite Hk in IH.
    destruct (m !! k) as [v|] eqn:Emk.
    + destruct IH as (n' & -> & Hn').
      destruct (clean_spec s lv n' _ Hn' ltac:(lia) (Hsize v eq_refl)) as (p & -> & Hp'). eauto.
    + destruct IH as (n' & -> & Hn'). destruct (meets_link lv sub_n k).
      * eexists. split; [done|]. by apply set_child_rep with m.
      * destruct (clean_spec s lv n' _ Hn' ltac:(lia)) as (p & -> & Hp'); [unfold MAX_ARRAY_WIDTH in Hm; lia|].
        eexists. split; [done|]. by apply set_child_rep with m.
Qed.

(** *** Serialization *)

Lemma pointers_ser_Forall2 ps qs :
  pointers_ser ps = Ok qs ↔ Forall2 (λ p q, pointer_ser (K:=K) (V:=V) (Cid:=Cid) p = Ok q) ps qs.
Proof.
  split.
  - revert qs. induction ps as [|p ps IH]; intros qs; cbn; [intros [= <-]; constructor|].
    destruct (pointer_ser p) as [q|] eqn:Eq; [|done]. destruct (pointers_ser ps) as [qs'|]; [|done].
    intros [= <-]. constructor; auto.
  - induction 1 as [|p q ps qs Hq Hqs IH]; cbn; [done|]. by rewrite Hq, IH.
Qed.

Lemma node_ser_inv n c :
  node_ser n = Ok c → ser_bitfield c = bitfield_serialize (bitfield n)
    ∧ Forall2 (λ p q, pointer_ser p = Ok q) (pointers n) (ser_pointers c).
Proof.
  unfold node_ser. destruct (pointers_ser (pointers n)) as [qs|] eqn:E; [|done]. intros [= <-]. cbn.
  split; [done|]. by apply pointers_ser_Forall2.
Qed.

(** Reading back a serialized node: the same map, the same serialization. *)
Lemma node_de_ser s lv n m c :
  node_rep s lv n m → node_ser n = Ok c →
  ∃ n0, node_de c = Ok n0 ∧ node_rep s lv n0 m ∧ node_ser n0 = Ok c.
Proof.
  destruct lv as [|lv]; [done|]. intros (Hw & Hp & Hk) Hc. pose proof (node_ser_inv _ _ Hc) as [Hbf Hq].
  exists (MkHNode (bitfield n) (pointer_de <$> ser_pointers c)). split; [|split; [split; [done|split; [|done]]|]].
  - unfold node_de. by rewrite Hbf, bitfield_roundtrip.
  - cbn [bitfield pointers]. revert Hp. generalize (set_bits (bitfield n)). clear -Hq.
    induction Hq as [|p q ps qs Hpq Hq IH]; intros js Hp.
    + apply Forall2_nil_inv_r in Hp as ->. constructor.
    + apply Forall2_cons_inv_r in Hp as (j & js' & Hj & Hjs & ->). constructor; [|by apply IH].
      destruct p; cbn in Hpq; simplify_eq; cbn in *; [done|naive_solver].
  - unfold node_ser. cbn [bitfield pointers].
    assert (Hqs : pointers_ser (pointer_de <$> ser_pointers c) = Ok (ser_pointers c)).
    { apply pointers_ser_Forall2. generalize (ser_pointers c). intros qs. induction qs as [|[] qs IH]; by constructor. }
    rewrite Hqs. cbn [mbind result_bind]. rewrite <-Hbf. by destruct c.
Qed.

(** *** The serialization is a function of the map *)

Lemma values_small s P kvs g : ptr_rep s P (Values kvs) g → (size g ≤ MAX_ARRAY_WIDTH)%nat.
Proof. intros Hp. pose proof (values_entries _ _ _ _ Hp) as Hv. apply Permutation_length in Hv. rewrite length_map_to_list in Hv. destruct Hp as (_ & ? & _). lia. Qed.

Lemma bitfield_included s s' lv n n' m j :
  node_rep s (S lv) n m → node_rep s' (S lv) n' m →
  j ∈ set_bits (bitfield n) → j ∈ set_bits (bitfield n').
Proof.
  intros (_ & Hp & _) (_ & _ & Hk') Hj. pose proof (proj1 (elem_of_set_bits _ _) Hj) as [Hlt _].
  apply list_elem_of_lookup in Hj as [i Hi]. destruct (Forall2_lookup_l _ _ _ _ _ Hp Hi) as (p & _ & Hptr).
  apply ptr_nonempty in Hptr. destruct (map_choose (sub (levels - S lv) j m)) as (k & v & Hk).
  { intros E. rewrite E, map_size_empty in Hptr. lia. }
  apply slot_map_lookup_Some in Hk as [Hk <-]. apply elem_of_set_bits. split; [done|]. apply Hk'. eauto.
Qed.

Lemma bitfield_unique s s' lv n n' m :
  node_rep s (S lv) n m → node_rep s' (S lv) n' m → bitfield n = bitfield n'.
Proof.
  intros Hn Hn'. apply bitfield_ext; [apply Hn|apply Hn'|]. intros j Hj. apply bool_eq_iff.
  assert (Hel : ∀ b, test_bit b (Z.of_nat j) = true ↔ j ∈ set_bits b) by (intros; rewrite elem_of_set_bits; naive_solver).
  rewrite !Hel. split; [by eapply bitfield_included|by eapply bitfield_included].
Qed.

Lemma hser_canonical s s' lv n n' m c c' :
  node_rep s lv n m → node_rep s' lv n' m → node_ser n = Ok c → node_ser n' = Ok c' → c = c'.
Proof.
  revert n n' m c c'. induction lv as [|lv IH]; intros n n' m c c' Hn Hn' Hc Hc'; [done|].
  pose proof (bitfield_unique _ _ _ _ _ _ Hn Hn') as Hb.
  apply node_ser_inv in Hc as [Hbf Hq], Hc' as [Hbf' Hq']. rewrite <-Hb, <-Hbf in Hbf'.
  assert (ser_pointers c = ser_pointers c') as Hps; [|clear -Hbf' Hps; destruct c, c'; cbn in *; congruence]. clear Hbf Hbf'.
  destruct Hn as (_ & Hp & _), Hn' as (_ & Hp' & _). rewrite <-Hb in Hp'. clear Hb.
  revert Hp Hp' Hq Hq'. generalize (set_bits (bitfield n)) (pointers n) (pointers n') (ser_pointers c) (ser_pointers c').
  intros js ps ps' qs qs' Hp. revert ps' qs qs'.
  induction Hp as [|j p js ps Hptr Hp IHp]; intros ps' qs qs' Hp' Hq Hq'.
  - apply Forall2_nil_inv_l in Hp' as ->. apply Forall2_nil_inv_l in Hq as ->, Hq' as ->. done.
  - apply Forall2_cons_inv_l in Hp' as (p' & ps'' & Hptr' & Hp' & ->).
    apply Forall2_cons_inv_l in Hq as (q & qs0 & Hpq & Hq & ->).
    apply Forall2_cons_inv_l in Hq' as (q' & qs0' & Hpq' & Hq' & ->). f_equal; [|by eapply IHp]. clear IHp Hp Hp' Hq Hq'.
    destruct p as [kvs|cid cache|], p' as [kvs'|cid' cache'|]; try done; injection Hpq as <-; injection Hpq' as <-.
    + f_equal. pose proof (values_entries _ _ _ _ Hptr). pose proof (values_entries _ _ _ _ Hptr') as Hv'.
      apply sorted_keys_perm; [by destruct Hptr as (_ & _ & ? & _)|by destruct Hptr' as (_ & _ & ? & _)|]. by rewrite Hv'.
    + apply values_small in Hptr. destruct Hptr' as [? _]. lia.
    + apply values_small in Hptr'. destruct Hptr as [? _]. lia.
    + destruct Hptr as (_ & (n0 & c0 & Hn0 & Hs0 & _ & -> & _) & _).
      destruct Hptr' as (_ & (n1 & c1 & Hn1 & Hs1 & _ & -> & _) & _).
      by rewrite (IH _ _ _ _ _ Hn0 Hn1 Hs0 Hs1).
Qed.

(** *** Flushing *)

Definition no_dirty (ps : list (Pointer K V Cid)) : Prop := ∃ qs, pointers_ser ps = Ok qs.

(** What flushing a sub node with [lv] levels left does. *)
Definition flushes lv (flush : BS → HNode K V Cid → BS * HNode K V Cid * result (HamtError Cid) unit) : Prop :=
  ∀ s n m, node_rep s lv n m →
  ∃ s' n', flush s n = (s', n', Ok tt) ∧ (∀ bz, holds s bz → holds s' bz) ∧ node_rep s' lv n' m
    ∧ bitfield n' = bitfield n ∧ no_dirty (pointers n').

Lemma put_hnode_spec s lv n m :
  node_rep s lv n m → no_dirty (pointers n) →
  ∃ c s', node_ser n = Ok c ∧ put_hnode s n = Ok (new_from_cbor (to_vec c), s')
    ∧ (∀ bz, holds s bz → holds s' bz) ∧ stored s' (node_rep s' lv) (new_from_cbor (to_vec c)) m.
Proof.
  intros Hn [qs Hqs]. assert (∃ c, node_ser n = Ok c) as [c Hc] by (unfold node_ser; rewrite Hqs; by eexists).
  exists c. unfold put_hnode. rewrite Hc. cbn [mbind result_bind].
  destruct (put_holds s c) as (s' & -> & Hh & Hs'). exists s'. split_and!; [done..|].
  destruct (node_de_ser _ _ _ _ _ Hn Hc) as (n0 & Hde & Hn0 & Hc0).
  exists n0, c. split_and!; [by eapply hnode_rep_mono|done..].
Qed.

Lemma no_dirty_cons p q ps : pointer_ser p = Ok q → no_dirty ps → no_dirty (p :: ps).
Proof. intros Hp [qs Hqs]. exists (q :: qs). cbn. by rewrite Hp, Hqs. Qed.

Lemma flush_pointers_spec lv flush (gs : nat → gmap K V) :
  flushes lv flush →
  ∀ js ps s, Forall2 (λ j p, ptr_rep s (node_rep s lv) p (gs j)) js ps →
  ∃ s' ps', flush_pointers flush s ps = (s', ps', Ok tt) ∧ (∀ bz, holds s bz → holds s' bz)
    ∧ Forall2 (λ j p, ptr_rep s' (node_rep s' lv) p (gs j)) js ps' ∧ no_dirty ps'.
Proof.
  intros Hfl js ps. revert js. induction ps as [|p ps IH]; intros js s Hps.
  { exists s, []. apply Forall2_nil_inv_r in Hps as ->. split_and!; [done|done|constructor|by exists []]. }
  apply Forall2_cons_inv_r in Hps as (j & js' & Hp & Hps & ->).
  assert (Hmono : ∀ s s' p g, (∀ bz, holds s bz → holds s' bz) →
    ptr_rep s (node_rep s lv) p g → ptr_rep s' (node_rep s' lv) p g).
  { intros s0 s1 p0 g Hs. apply ptr_impl; [done|]. intros n. by apply hnode_rep_mono. }
  (* the pointers after the first one, from a store that extends [s] *)
  assert (Htail : ∀ s1 p' q, (∀ bz, holds s bz → holds s1 bz) → ptr_rep s1 (node_rep s1 lv) p' (gs j) →
    pointer_ser p' = Ok q →
    ∃ s' ps', flush_pointers flush s1 ps = (s', ps', Ok tt) ∧ (∀ bz, holds s bz → holds s' bz)
      ∧ Forall2 (λ j p, ptr_rep s' (node_rep s' lv) p (gs j)) (j :: js') (p' :: ps') ∧ no_dirty (p' :: ps')).
  { intros s1 p' q Hs1 Hp' Hq. destruct (IH js' s1) as (s' & ps' & Hf & Hs' & Hps' & Hd).
    { eapply Forall2_impl; [exact Hps|]. intros j' p0. by apply Hmono. }
    exists s', ps'. split_and!; [done|auto| |by eapply no_dirty_cons]. constructor; [by eapply Hmono|done]. }
  destruct p as [kvs|cid cache|n]; cbn [flush_pointers].
  - destruct (Htail s (Values kvs) (SerVals kvs)) as (s' & ps' & -> & ?); [done..|]. eauto.
  - destruct (Htail s (PLink cid cache) (SerLink cid)) as (s' & ps' & -> & ?); [done..|]. eauto.
  - destruct Hp as [Hm Hn]. destruct (Hfl s n _ Hn) as (s1 & n1 & -> & Hs1 & Hn1 & _ & Hd).
    destruct (put_hnode_spec s1 lv n1 _ Hn1 Hd) as (c & s2 & _ & -> & Hs2 & Hst).
    destruct (Htail s2 (PLink (new_from_cbor (to_vec c)) (Some n1)) (SerLink (new_from_cbor (to_vec c)))) as (s' & ps' & -> & ?); [auto| |done|eauto].
    split; [done|]. split; [done|]. by eapply hnode_rep_mono.
Qed.

Lemma hnode_flush_spec lv : flushes lv hnode_flush.
Proof.
  induction lv as [|lv IH]; intros s [b ps] m; [done|]. intros (Hw & Hp & Hk). cbn [bitfield pointers] in *.
  destruct (flush_pointers_spec lv hnode_flush (λ j, sub (levels - S lv) j m) IH _ _ _ Hp)
    as (s' & ps' & Hf & Hs & Hps & Hd).
  exists s', (MkHNode b ps'). cbn [hnode_flush]. rewrite Hf. split; [done|]. split; [done|]. split; [by split|]. done.
Qed.

(** *** Iteration *)

(** The entries of a map in the order of their indices, then of their keys. *)
Fixpoint trie_order (lv : nat) m : list (K * V) :=
  match lv with
  | O => []
  | S lv' =>
      seq 0 256 ≫= λ j,
        let g := sub (levels - lv) j m in
        if (size g <=? MAX_ARRAY_WIDTH)%nat then sort_by_key key_ltb (map_to_list g) else trie_order lv' g
  end.

Lemma values_loop_app {A} (f : A → K → V → A * result (HamtError Cid) unit) l1 l2 acc :
  values_loop f (l1 ++ l2) acc
  = match values_loop f l1 acc with
    | (acc, Err e) => (acc, Err e)
    | (acc, Ok _) => values_loop f l2 acc
    end.
Proof.
  revert acc. induction l1 as [|[k v] l1 IH]; intros acc; [done|]. cbn.
  destruct (f acc k v) as [acc' [[]|e]]; [apply IH|done].
Qed.

Lemma values_order s P kvs g : ptr_rep s P (Values kvs) g → sort_by_key key_ltb (map_to_list g) = kvs.
Proof.
  intros Hp. pose proof (values_entries _ _ _ _ Hp) as Hv. destruct Hp as (_ & _ & Hs & _).
  apply sorted_keys_perm; [apply sort_by_key_sorted, NoDup_fst_map_to_list|done|].
  by rewrite sort_by_key_perm, Hv.
Qed.

(** The slots without a pointer hold nothing. *)
Lemma trie_order_set_bits s lv n m :
  node_rep s (S lv) n m → (S lv ≤ levels)%nat →
  trie_order (S lv) m = set_bits (bitfield n) ≫= λ j,
    let g := sub (levels - S lv) j m in
    if (size g <=? MAX_ARRAY_WIDTH)%nat then sort_by_key key_ltb (map_to_list g) else trie_order lv g.
Proof.
  intros (Hw & Hp & Hk) Hlv. cbn [trie_order]. unfold set_bits.
  generalize (seq 0 256). intros l. induction l as [|j l IH]; [done|]. cbn [List.filter]. rewrite !bind_cons, IH.
  destruct (test_bit (bitfield n) (Z.of_nat j)) eqn:Ej; [done|].
  assert (sub (levels - S lv) j m = ∅) as ->; [|done]. apply map_eq. intros k. rewrite lookup_empty.
  apply eq_None_not_Some. intros [v (Hv & <-)%slot_map_lookup_Some]. by rewrite Hk in Ej by eauto.
Qed.

(** Visiting a sub node is visiting its entries in order. *)
Definition visits {A} s lv (f : A → K → V → A * result (HamtError Cid) unit)
    (visit : HNode K V Cid → A → HNode K V Cid * A * result (HamtError Cid) unit) : Prop :=
  ∀ n m acc, node_rep s lv n m →
  ∃ n', visit n acc = (n', (values_loop f (trie_order lv m) acc).1, (values_loop f (trie_order lv m) acc).2)
    ∧ node_rep s lv n' m.

Definition pointer_order lv g : list (K * V) :=
  if (size g <=? MAX_ARRAY_WIDTH)%nat then sort_by_key key_ltb (map_to_list g) else trie_order lv g.

Lemma large_order lv g : (MAX_ARRAY_WIDTH < size g)%nat → pointer_order lv g = trie_order lv g.
Proof. intros. unfold pointer_order. by rewrite (proj2 (Nat.leb_gt _ _)). Qed.

Lemma pointers_loop_spec {A} s lv (f : A → K → V → A * result (HamtError Cid) unit) visit (gs : nat → gmap K V) :
  visits s lv f visit →
  ∀ js ps acc, Forall2 (λ j p, ptr_rep s (node_rep s lv) p (gs j)) js ps →
  let r := values_loop f (js ≫= λ j, pointer_order lv (gs j)) acc in
  ∃ ps', pointers_loop s f visit ps acc = (ps', r.1, r.2)
    ∧ Forall2 (λ j p, ptr_rep s (node_rep s lv) p (gs j)) js ps'.
Proof.
  intros Hv js ps acc Hps. revert acc. induction Hps as [|j p js ps Hp Hps IH]; intros acc; [by exists []|].
  cbn zeta. rewrite bind_cons, values_loop_app. cbn [pointers_loop].
  (* the first pointer *)
  assert (∃ p', (match p with
        | Values kvs => let '(acc, r) := values_loop f kvs acc in (p, acc, r)
        | PLink cid cache => match cached_hnode s cid cache with
            | Ok sub => let '(sub, acc, r) := visit sub acc in (PLink cid (Some sub), acc, r)
            | Err e => (p, acc, Err e)
            end
        | PDirty sub => let '(sub, acc, r) := visit sub acc in (PDirty sub, acc, r)
        end) = (p', (values_loop f (pointer_order lv (gs j)) acc).1, (values_loop f (pointer_order lv (gs j)) acc).2)
      ∧ ptr_rep s (node_rep s lv) p' (gs j)) as (p' & -> & Hp').
  { destruct p as [kvs|cid cache|n].
    - exists (Values kvs). split; [|done]. unfold pointer_order. pose proof (values_small _ _ _ _ Hp) as Hsm.
      rewrite (proj2 (Nat.leb_le _ _) Hsm), (values_order _ _ _ _ Hp). by destruct (values_loop f kvs acc).
    - pose proof Hp as [Hm _]. destruct (cached_hnode_ok _ _ _ _ _ Hp) as (n & -> & Hn & Hlink).
      destruct (Hv n _ acc Hn) as (n' & -> & Hn'). rewrite large_order by done. eauto.
    - destruct Hp as [Hm Hn]. destruct (Hv n _ acc Hn) as (n' & -> & Hn'). rewrite large_order by done.
      eexists. split; [done|]. by split. }
  destruct (values_loop f (pointer_order lv (gs j)) acc) as [acc1 [[]|e]]; cbn [fst snd].
  - destruct (IH acc1) as (ps' & -> & Hps'). exists (p' :: ps'). split; [done|by constructor].
  - exists (p' :: ps). split; [done|by constructor].
Qed.

Lemma hnode_for_each_spec {A} s lv fuel (f : A → K → V → A * result (HamtError Cid) unit) :
  (lv ≤ levels)%nat → (lv ≤ fuel)%nat → visits s lv f (hnode_for_each fuel s f).
Proof.
  revert fuel. induction lv as [|lv IH]; intros fuel Hlv Hf n m acc Hrep; [done|].
  destruct fuel as [|fuel]; [lia|]. cbn [hnode_for_each]. rewrite (trie_order_set_bits s lv n m Hrep Hlv).
  destruct Hrep as (Hw & Hp & Hk).
  destruct (pointers_loop_spec s lv f _ (λ j, sub (levels - S lv) j m) (IH fuel ltac:(lia) ltac:(lia)) _ _ acc Hp)
    as (ps' & -> & Hps'). eexists. split; [done|]. split; [done|]. by split.
Qed.

(** The order lists every entry once. *)
Lemma trie_order_perm lv m :
  (lv ≤ levels)%nat → same_prefix (levels - lv) m → (MAX_ARRAY_WIDTH < size m ∨ 1 ≤ lv)%nat → trie_order lv m ≡ₚ map_to_list m.
Proof.
  revert m. induction lv as [|lv IH]; intros m Hlv Hpre Hm.
  - rewrite Nat.sub_0_r in Hpre. apply same_prefix_size in Hpre. lia.
  - cbn [trie_order]. set (d := (levels - S lv)%nat).
    rewrite (map_to_list_subs d m (seq 0 256)).
    + apply bind_perm_ext. intros j. cbn zeta. destruct (Nat.leb_spec (size (sub d j m)) MAX_ARRAY_WIDTH).
      * apply sort_by_key_perm.
      * apply IH; [lia| |by left]. replace (levels - lv)%nat with (S d) by lia. by apply same_prefix_sub.
    + apply NoDup_seq.
    + intros k _. apply elem_of_seq. pose proof (slot_bound k d ltac:(lia)). lia.
Qed.
End Rep.
End Keys.
