(* ===== verification/HamtSpec.v ===== *)
(** * Correctness of the hash array mapped trie

    The operations of [Hamt] are those of a finite map, its CID and the order
    of its iteration are functions of the map.  Deletion of an absent key is
    the exception: below a link by CID it panics. *)

From stdpp Require Import strings sorting.
From S2P Require Import Prelude Blockstore Hamt HamtBits HamtMap.

Section Spec.
Context {K V Cid BS : Type} `{Countable K} (bw : Z) (hash : K → bytes) (key_ltb : K → K → bool).
Context `{!HamtKeys bw hash key_ltb}.
Context `{!EqDecision V, !BlockStore BS Cid, !CidOps Cid, !CidOk Cid, !BlockStoreOk BS Cid,
  !Cbor (SerNode K V Cid), !CborOk (SerNode K V Cid)}.
Notation Hamt := (@Hamt K V Cid BS).
Implicit Types (h : Hamt) (m : gmap K V) (s : BS).

Definition hamt_rep h m : Prop :=
  h_bit_width h = bw ∧ node_rep bw hash key_ltb (h_store h) (levels bw) (h_root h) m.

(** The depth bound of the model is never reached. *)
Lemma fuel_enough : (levels bw ≤ max_levels)%nat.
Proof. pose proof (levels_le bw hash key_ltb). unfold max_levels. lia. Qed.

Lemma depth_0 : Z.of_nat (levels bw - levels bw) * bw = 0.
Proof. by rewrite Nat.sub_diag. Qed.

Lemma prefix_0 m : same_prefix bw hash (levels bw - levels bw) m.
Proof. rewrite Nat.sub_diag. intros k k' _ _ d Hd. lia. Qed.

Lemma new_hamt_rep s : hamt_rep (new_with_bit_width s bw) ∅.
Proof. split; [done|]. apply default_rep. by apply (levels_le bw hash key_ltb). Qed.

Lemma hamt_get_spec h m k :
  hamt_rep h m →
  ∃ n, hnode_get hash (h_root h) k (h_store h) (h_bit_width h) = (n, Ok (m !! k)) ∧ hamt_rep (with_root h n) m.
Proof.
  intros [Hb Hn]. unfold hnode_get. rewrite Hb.
  destruct (get_value_spec bw hash key_ltb _ _ max_levels _ _ k Hn ltac:(done) fuel_enough) as (n & Hget & Hn').
  rewrite depth_0 in Hget. rewrite Hget. exists n. split; [|by split]. by destruct (m !! k).
Qed.

Lemma hnode_set_spec h m k v ow :
  hamt_rep h m →
  ∃ n, hnode_set hash key_ltb (h_root h) k v (h_store h) (h_bit_width h) ow
       = (n, Ok (if ow then m !! k else None, did_modify m k v ow))
    ∧ hamt_rep (with_root h n) (modified_map m k v ow).
Proof.
  intros [Hb Hn]. unfold hnode_set. rewrite Hb.
  destruct (modify_value_spec bw hash key_ltb (h_store h) _ max_levels ow ltac:(done) fuel_enough
    _ m k v Hn (prefix_0 _)) as (n & Hset & Hn'). cbn beta in Hset.
  rewrite depth_0 in Hset. rewrite Hset. exists n. split; [done|by split].
Qed.

Lemma remove_entry_spec h m k :
  hamt_rep h m →
  match m !! k with
  | Some v => ∃ n, remove_entry hash key_ltb (h_root h) k (h_store h) (h_bit_width h) = (n, Ok (Some (k, v)))
      ∧ hamt_rep (with_root h n) (base.delete k m)
  | None => ∃ n, remove_entry hash key_ltb (h_root h) k (h_store h) (h_bit_width h)
        = (n, if meets_link bw hash (levels bw) (h_root h) k then Err HPanic else Ok None)
      ∧ hamt_rep (with_root h n) m
  end.
Proof.
  intros [Hb Hn]. unfold remove_entry. rewrite Hb.
  pose proof (rm_value_spec bw hash key_ltb _ _ max_levels _ _ k Hn ltac:(done) fuel_enough) as Hrm.
  unfold removal in Hrm. rewrite depth_0 in Hrm.
  destruct (m !! k); destruct Hrm as (n & Hrm & Hn'); exists n; (split; [exact Hrm|by split]).
Qed.

Lemma hamt_flush_spec h m :
  hamt_rep h m →
  ∃ h' c, hamt_flush h = (h', Ok (new_from_cbor (to_vec c))) ∧ hamt_rep h' m
    ∧ (∀ bz, holds (h_store h) bz → holds (h_store h') bz)
    ∧ node_ser (h_root h') = Ok c ∧ no_dirty (pointers (h_root h'))
    ∧ stored (h_store h') (node_rep bw hash key_ltb (h_store h') (levels bw)) (new_from_cbor (to_vec c)) m.
Proof.
  intros [Hb Hn]. unfold hamt_flush.
  destruct (hnode_flush_spec bw hash key_ltb (levels bw) _ _ _ Hn) as (s1 & n1 & -> & Hs1 & Hn1 & _ & Hd).
  destruct (put_hnode_spec bw hash key_ltb _ _ _ _ Hn1 Hd) as (c & s2 & Hc & -> & Hs2 & Hst).
  eexists. exists c. split; [done|]. cbn. split_and!; [|auto|done|done|done].
  split; [done|]. cbn. by eapply hnode_rep_mono.
Qed.

Lemma hamt_load_spec s cid m :
  stored s (node_rep bw hash key_ltb s (levels bw)) cid m →
  ∃ h, load_with_bit_width cid s bw = Ok h ∧ hamt_rep h m ∧ h_store h = s.
Proof.
  intros (n & Hl & Hn)%hstored_load. unfold load_with_bit_width. rewrite Hl. eexists. by split_and!.
Qed.

(** The pointer of a flushed root that a key leads to. *)
Lemma flushed_meets_link h m k :
  hamt_rep h m → no_dirty (pointers (h_root h)) →
  meets_link bw hash (levels bw) (h_root h) k
  = (MAX_ARRAY_WIDTH <? size (sub bw hash 0 (slot_of bw hash k 0) m))%nat.
Proof.
  intros [Hb Hn] [qs Hd]. pose proof (levels_le bw hash key_ltb) as [_ Hl].
  destruct (levels bw) as [|lv] eqn:El; [lia|].
  pose proof (node_slot bw hash key_ltb _ lv _ _ k Hn ltac:(lia)) as Hslot. cbn zeta in Hslot.
  cbn [meets_link]. rewrite El, Nat.sub_diag in Hslot |- *.
  destruct (test_bit _ _) eqn:Et; cbn [andb].
  - destruct Hslot as (p & Hp & Hptr). rewrite Hp. destruct p as [kvs|cid cache|n].
    + symmetry. apply Nat.ltb_ge. by apply (values_small bw hash key_ltb) in Hptr.
    + destruct Hptr as [Hs _]. symmetry. by apply Nat.ltb_lt.
    + exfalso. apply (pointers_ser_Forall2 (K:=K)) in Hd. by destruct (Forall2_lookup_l _ _ _ _ _ Hd Hp) as (q & _ & Hq).
  - destruct Hslot as [_ ->]. done.
Qed.
Lemma hamt_is_empty_spec h m : hamt_rep h m → hamt_is_empty h = bool_decide (m = ∅).
Proof.
  intros [_ Hroot]. unfold hamt_is_empty. pose proof (levels_le bw hash key_ltb) as [_ Hl].
  destruct (levels bw) as [|lv] eqn:El; [lia|]. destruct Hroot as (_ & Hp & Hk).
  destruct (pointers (h_root h)) as [|p ps].
  - apply Forall2_nil_inv_r in Hp. rewrite bool_decide_eq_true_2; [done|]. apply map_empty. intros k'.
    apply eq_None_not_Some. intros Hs. pose proof (Hk _ Hs) as Ht.
    assert (Hlt : (slot_of bw hash k' (levels bw - S lv) < 256)%nat) by (apply (slot_bound bw hash key_ltb); lia).
    pose proof (proj2 (elem_of_set_bits _ _) (conj Hlt Ht)) as Hin. rewrite Hp in Hin. by apply not_elem_of_nil in Hin.
  - apply Forall2_cons_inv_r in Hp as (j & js & Hptr & _). apply (ptr_nonempty key_ltb) in Hptr.
    rewrite bool_decide_eq_false_2; [done|]. intros ->. unfold sub in Hptr.
    rewrite map_filter_empty, map_size_empty in Hptr. lia.
Qed.
End Spec.

(** ** A key type and a codec to run examples with *)

(** Eight keys whose hashes agree in their first byte. *)
Notation ExKey := (bool * bool * bool)%type (only parsing).
Definition ex_code (k : ExKey) : Z :=
  let '(a, b, c) := k in 4 * Z.b2z a + 2 * Z.b2z b + Z.b2z c.
Definition ex_hash (k : ExKey) : bytes := 0 :: ex_code k :: replicate 30 0.
Definition ex_ltb (k1 k2 : ExKey) : bool := ex_code k1 <? ex_code k2.

#[global] Instance ex_code_inj : Inj (=) (=) ex_code.
Proof. intros [[[] []] []] [[[] []] []]; by vm_compute. Qed.

Lemma ex_slot k : slot_of 8 ex_hash k 1 = Z.to_nat (ex_code k).
Proof. destruct k as [[[] []] []]; by vm_compute. Qed.

#[global] Instance ex_keys : HamtKeys 8 ex_hash ex_ltb.
Proof.
  split; unfold ex_ltb.
  - lia.
  - done.
  - intros k. apply Z.ltb_irrefl.
  - intros k1 k2 k3. rewrite !Z.ltb_lt. lia.
  - intros k1 k2 Hne. rewrite !Z.ltb_lt. destruct (Z.lt_total (ex_code k1) (ex_code k2)) as [?|[?%(inj _)|?]]; auto. done.
  - intros ks Hnd Hks. destruct ks as [|k1 [|k2 ks]]; [cbn; unfold MAX_ARRAY_WIDTH; lia..|]. exfalso.
    apply NoDup_cons in Hnd as [Hk1 _]. apply Hk1. specialize (Hks k1 k2 ltac:(set_solver) ltac:(set_solver) 1%nat).
    rewrite !ex_slot in Hks. assert (ex_code k1 = ex_code k2) as ->%(inj _); [|set_solver].
    assert (0 ≤ ex_code k1 ∧ 0 ≤ ex_code k2) by (destruct k1 as [[[] []] []], k2 as [[[] []] []]; by vm_compute).
    assert (1 < levels 8)%nat by (vm_compute; lia). lia.
Qed.

Definition ser_tuple (p : PointerSer ExKey Z (list Z)) : list (ExKey * Z) + list Z :=
  match p with SerVals kvs => inl kvs | SerLink cid => inr cid end.
Definition unser_tuple (x : list (ExKey * Z) + list Z) : PointerSer ExKey Z (list Z) :=
  match x with inl kvs => SerVals kvs | inr cid => SerLink cid end.

#[global] Instance ex_node_cbor : Cbor (SerNode ExKey Z (list Z)) := {|
  to_vec c := [Z.pos (encode (ser_bitfield c, ser_tuple <$> ser_pointers c))];
  from_slice bz :=
    match bz with
    | [Z.pos p] =>
        match decode p with
        | Some (b, ps) => Ok (Build_SerNode b (unser_tuple <$> ps))
        | None => Err "bad node"%string
        end
    | _ => Err "bad node"%string
    end
|}.
#[global] Instance ex_node_cbor_ok : CborOk (SerNode ExKey Z (list Z)).
Proof.
  split. intros [b ps]. cbn. rewrite decode_encode. do 2 f_equal. rewrite <-list_fmap_compose.
  induction ps as [|[kvs|cid] ps IH]; cbn; by rewrite ?IH.
Qed.

#[local] Existing Instance default_block_store.
#[local] Existing Instance default_block_store_ok.

Definition ex_store : MemoryDB := {| mem_db := ∅ |}.

(** The first [n] keys with values. *)
Definition ex_all : list ExKey :=
  [(false, false, false); (false, false, true); (false, true, false); (false, true, true);
   (true, false, false); (true, false, true); (true, true, false); (true, true, true)].
Definition ex_map (n : nat) : gmap ExKey Z := list_to_map ((λ k, (k, ex_code k)) <$> take n ex_all).
Definition ex_hamt (n : nat) : @Hamt ExKey Z (list Z) MemoryDB :=
  foldr (λ k h, fst (hamt_set ex_hash ex_ltb h k (ex_code k))) (new_with_bit_width ex_store 8) (take n ex_all).

Lemma ex_hamt_rep n : hamt_rep 8 ex_hash ex_ltb (ex_hamt n) (ex_map n).
Proof.
  unfold ex_hamt, ex_map. generalize (take n ex_all). intros ks.
  induction ks as [|k ks IH]; [apply (new_hamt_rep 8 ex_hash ex_ltb)|]. cbn [foldr fmap list_fmap list_to_map].
  revert IH. generalize (foldr (λ k h, fst (hamt_set ex_hash ex_ltb h k (ex_code k))) (new_with_bit_width ex_store 8) ks).
  intros h IH. destruct (hnode_set_spec 8 ex_hash ex_ltb _ _ k (ex_code k) true IH) as (n' & Hset & Hn').
  unfold hamt_set. rewrite Hset. cbn [fst]. unfold modified_map in Hn'. by destruct (list_to_map _ !! k).
Qed.

(** ** Theorems *)

Section Theorems.
Context {K V Cid BS : Type} `{Countable K} (bw : Z) (hash : K → bytes) (key_ltb : K → K → bool).
Context `{!HamtKeys bw hash key_ltb}.
Context `{!EqDecision V, !BlockStore BS Cid, !CidOps Cid, !CidOk Cid, !BlockStoreOk BS Cid,
  !Cbor (SerNode K V Cid), !CborOk (SerNode K V Cid)}.
Notation Hamt := (@Hamt K V Cid BS).
Implicit Types (h : Hamt) (m : gmap K V) (s : BS).

(** C8.  [Hamt] refines a finite map: the operations return what they do on
    the map and leave a trie that represents the resulting map, through links,
    caches, splits of full pointers and collapses of small nodes.  The one
    exception is [delete] of an absent key, which panics when the path of the
    key goes through a link by CID, and returns [None] otherwise. *)
Theorem hamt_refines_map h m k v :
  hamt_rep bw hash key_ltb h m →
  (∀ s, hamt_rep bw hash key_ltb (new_with_bit_width s bw) (∅ : gmap K V)) ∧
  (∃ h', hamt_get hash h k = (h', Ok (m !! k)) ∧ hamt_rep bw hash key_ltb h' m) ∧
  (∃ h', contains_key hash h k = (h', Ok (bool_decide (is_Some (m !! k)))) ∧ hamt_rep bw hash key_ltb h' m) ∧
  (∃ h', hamt_set hash key_ltb h k v = (h', Ok (m !! k)) ∧ hamt_rep bw hash key_ltb h' (<[k := v]> m)) ∧
  (∃ h', set_if_absent hash key_ltb h k v = (h', Ok (bool_decide (m !! k = None))) ∧
     hamt_rep bw hash key_ltb h' (if decide (m !! k = None) then <[k := v]> m else m)) ∧
  match m !! k with
  | Some v => ∃ h', hamt_delete hash key_ltb h k = (h', Ok (Some (k, v)))
      ∧ hamt_rep bw hash key_ltb h' (base.delete k m)
  | None => ∃ h', hamt_delete hash key_ltb h k
        = (h', if meets_link bw hash (levels bw) (h_root h) k then Err HPanic else Ok None)
      ∧ hamt_rep bw hash key_ltb h' m
  end ∧
  hamt_is_empty h = bool_decide (m = ∅).
Proof.
  intros Hrep. split; [intros s; by apply (new_hamt_rep bw hash key_ltb)|].
  destruct (hamt_get_spec bw hash key_ltb h m k Hrep) as (n & Hget & Hn).
  split; [|split]; [unfold hamt_get|unfold contains_key|]; [rewrite Hget; eauto..|].
  destruct (hnode_set_spec bw hash key_ltb h m k v true Hrep) as (n1 & Hset & Hn1).
  destruct (hnode_set_spec bw hash key_ltb h m k v false Hrep) as (n2 & Hsia & Hn2).
  split; [|split; [|split]].
  - unfold hamt_set. rewrite Hset. eexists. split; [done|]. unfold modified_map in Hn1. by destruct (m !! k).
  - unfold set_if_absent. rewrite Hsia. eexists. unfold did_modify, modified_map in *. cbn.
    destruct (m !! k); cbn; done.
  - pose proof (remove_entry_spec bw hash key_ltb h m k Hrep) as Hrm. unfold hamt_delete.
    destruct (m !! k); destruct Hrm as (n3 & -> & Hn3); eauto.
  - by apply (hamt_is_empty_spec bw hash key_ltb).
Qed.

(** C23.  [Hamt::flush] stores the trie: loading the CID gives the same map
    back, and tries that represent the same map, however they were built and
    in whatever stores, get the same CID. *)
Theorem hamt_flush_canonical h1 h2 m :
  hamt_rep bw hash key_ltb h1 m → hamt_rep bw hash key_ltb h2 m →
  ∃ h1' h2' cid, hamt_flush h1 = (h1', Ok cid) ∧ hamt_flush h2 = (h2', Ok cid) ∧
    hamt_rep bw hash key_ltb h1' m ∧
    ∃ h, load_with_bit_width cid (h_store h1') bw = Ok h ∧ hamt_rep bw hash key_ltb h m.
Proof.
  intros H1 H2. destruct (hamt_flush_spec bw hash key_ltb h1 m H1) as (h1' & c1 & Hf1 & Hr1 & _ & Hc1 & _ & Hst1).
  destruct (hamt_flush_spec bw hash key_ltb h2 m H2) as (h2' & c2 & Hf2 & Hr2 & _ & Hc2 & _ & _).
  assert (c1 = c2) as <- by (eapply (hser_canonical bw hash key_ltb); [apply Hr1|apply Hr2|done..]).
  exists h1', h2', (new_from_cbor (to_vec c1)). split_and!; [done..|].
  destruct (hamt_load_spec bw hash key_ltb _ _ _ Hst1) as (h & Hload & Hrep & _). eauto.
Qed.

(** C34.  [Hamt::for_each] calls the closure on every entry once, in the order
    of the hash bits and, within a pointer, of the keys; the order is a
    function of the map.  It stops at the first error of the closure, which
    it returns, and never fails by itself. *)
Theorem hamt_for_each_ordered h m :
  hamt_rep bw hash key_ltb h m →
  let l := trie_order bw hash key_ltb (levels bw) m in
  l ≡ₚ map_to_list m ∧
  ∀ (A : Type) (f : A → K → V → A * result (HamtError Cid) unit) (acc : A),
  ∃ h', hamt_for_each h f acc = (h', (values_loop f l acc).1, (values_loop f l acc).2)
    ∧ hamt_rep bw hash key_ltb h' m.
Proof.
  intros [Hb Hn] l. pose proof (levels_le bw hash key_ltb) as [_ Hl]. split.
  - apply (trie_order_perm bw hash key_ltb); [done|apply prefix_0|by right].
  - intros A f acc. unfold hamt_for_each.
    destruct (hnode_for_each_spec bw hash key_ltb (h_store h) (levels bw) max_levels f ltac:(done)
      (fuel_enough bw hash key_ltb) _ m acc Hn) as (n & -> & Hn'). eexists. split; [done|by split].
Qed.

(** C35.  After [flush], [delete] of an absent key panics exactly when more
    than three keys of the map have the key's first index. *)
Theorem hamt_delete_absent_panics h h' m k cid :
  hamt_rep bw hash key_ltb h m → hamt_flush h = (h', Ok cid) → m !! k = None →
  snd (hamt_delete hash key_ltb h' k)
  = if (MAX_ARRAY_WIDTH <? size (sub bw hash 0 (slot_of bw hash k 0) m))%nat then Err HPanic else Ok None.
Proof.
  intros Hrep Hf Hk. destruct (hamt_flush_spec bw hash key_ltb h m Hrep) as (h1 & c & Hf1 & Hr1 & _ & _ & Hd & _).
  rewrite Hf1 in Hf. injection Hf as <- <-.
  rewrite <-(flushed_meets_link bw hash key_ltb _ _ k Hr1 Hd).
  pose proof (remove_entry_spec bw hash key_ltb h1 m k Hr1) as Hrm. rewrite Hk in Hrm.
  destruct Hrm as (n & Hrm & _). unfold hamt_delete. by rewrite Hrm.
Qed.
End Theorems.

Lemma hamt_refines_map_witness :
  ∃ h', hamt_set ex_hash ex_ltb (ex_hamt 5) (true, true, true) 9 = (h', Ok None) ∧
    hamt_rep 8 ex_hash ex_ltb h' (<[(true, true, true) := 9]> (ex_map 5)).
Proof.
  destruct (hamt_refines_map 8 ex_hash ex_ltb (ex_hamt 5) (ex_map 5) (true, true, true) 9 (ex_hamt_rep 5))
    as (_ & _ & _ & Hset & _). exact Hset.
Defined.

Lemma hamt_flush_canonical_witness :
  ∃ h1 h2 cid, hamt_flush (ex_hamt 5) = (h1, Ok cid) ∧
    hamt_flush (fst (hamt_delete ex_hash ex_ltb (ex_hamt 6) (true, false, true))) = (h2, Ok cid).
Proof.
  assert (H2 : hamt_rep 8 ex_hash ex_ltb (fst (hamt_delete ex_hash ex_ltb (ex_hamt 6) (true, false, true))) (ex_map 5)).
  { pose proof (remove_entry_spec 8 ex_hash ex_ltb (ex_hamt 6) (ex_map 6) (true, false, true) (ex_hamt_rep 6)) as Hrm.
    assert (E : ex_map 6 !! (true, false, true) = Some 5) by (by vm_compute). rewrite E in Hrm.
    destruct Hrm as (n & Hrm & Hn). unfold hamt_delete. rewrite Hrm.
    assert (ex_map 5 = base.delete (true, false, true) (ex_map 6)) as -> by (by vm_compute). exact Hn. }
  destruct (hamt_flush_canonical 8 ex_hash ex_ltb (ex_hamt 5) _ (ex_map 5) (ex_hamt_rep 5) H2)
    as (h1 & h2 & cid & Hf1 & Hf2 & _). eauto.
Defined.

Lemma hamt_for_each_ordered_witness :
  ∃ h', hamt_for_each (ex_hamt 5) (λ acc k v, (acc ++ [v], Ok tt)) [] = (h', [0; 1; 2; 3; 4], Ok tt).
Proof.
  destruct (hamt_for_each_ordered 8 ex_hash ex_ltb (ex_hamt 5) (ex_map 5) (ex_hamt_rep 5)) as [_ Hrun].
  destruct (Hrun (list Z) (λ acc k v, (acc ++ [v], Ok tt)) []) as (h' & Hrun' & _). exists h'. rewrite Hrun'.
  by vm_compute.
Defined.

Lemma hamt_delete_absent_panics_witness :
  ∃ h' cid, hamt_flush (ex_hamt 5) = (h', Ok cid) ∧
    snd (hamt_delete ex_hash ex_ltb h' (true, true, true)) = Err HPanic.
Proof.
  destruct (hamt_flush_spec 8 ex_hash ex_ltb (ex_hamt 5) (ex_map 5) (ex_hamt_rep 5)) as (h' & c & Hf & _).
  exists h', (new_from_cbor (to_vec c)). split; [done|].
  rewrite (hamt_delete_absent_panics 8 ex_hash ex_ltb (ex_hamt 5) h' (ex_map 5) (true, true, true) _ (ex_hamt_rep 5) Hf);
    by vm_compute.
Defined.
