(* ===== verification/Address.v ===== *)
(** * Addresses (src/vm/address)

    Addresses of the four protocols, their byte form and their string form.
    The LEB128, base32 and BLAKE2b libraries are parameters. *)

From stdpp Require Import strings.
From S2P Require Import Prelude.

Notation bytes := (list Z) (only parsing).

Definition PAYLOAD_HASH_LEN : nat := 20.
Definition SECP_PUB_LEN : nat := 65.
Definition BLS_PUB_LEN : nat := 48.
Definition CHECKSUM_HASH_LEN : nat := 4.
Definition MAX_ADDRESS_LEN : nat := 84 + 2.

Inductive Network := Mainnet | Testnet.
Inductive Protocol := ProtocolID | ProtocolSecp256k1 | ProtocolActor | ProtocolBLS.

Inductive Payload :=
| ID (i : Z)
| Secp256k1 (arr : bytes)
| Actor (arr : bytes)
| BLS (arr : bytes).

Record Address := { network : Network; payload : Payload }.

#[global] Instance network_eq_dec : EqDecision Network.
Proof. solve_decision. Defined.
#[global] Instance protocol_eq_dec : EqDecision Protocol.
Proof. solve_decision. Defined.
#[global] Instance payload_eq_dec : EqDecision Payload.
Proof. solve_decision. Defined.
#[global] Instance address_eq_dec : EqDecision Address.
Proof. solve_decision. Defined.

(** Addresses as keys of maps. *)
Definition address_tuple (a : Address) : bool * (Z + bytes + (bytes + bytes)) :=
  (bool_decide (network a = Mainnet),
   match payload a with
   | ID i => inl (inl i) | Secp256k1 b => inl (inr b) | Actor b => inr (inl b) | BLS b => inr (inr b)
   end).
Definition tuple_address (t : bool * (Z + bytes + (bytes + bytes))) : Address :=
  {| network := if t.1 then Mainnet else Testnet;
     payload := match t.2 with
                | inl (inl i) => ID i | inl (inr b) => Secp256k1 b | inr (inl b) => Actor b | inr (inr b) => BLS b
                end |}.
#[global] Instance address_countable : Countable Address.
Proof. apply (inj_countable' address_tuple tuple_address). intros [[] []]; done. Defined.

Inductive AddressError :=
| UnknownNetwork | UnknownProtocol | InvalidPayload | InvalidLength
| InvalidPayloadLength (len : nat) | InvalidBLSLength (len : nat) | InvalidSECPLength (len : nat)
| InvalidChecksum | Base32Decoding | NonIDAddress | InvalidAddressIDPayload (bz : bytes)
| AddressPanic.

Definition from_byte (b : Z) : option Protocol :=
  if b =? 0 then Some ProtocolID else if b =? 1 then Some ProtocolSecp256k1
  else if b =? 2 then Some ProtocolActor else if b =? 3 then Some ProtocolBLS else None.
Definition protocol_byte (p : Protocol) : Z :=
  match p with ProtocolID => 0 | ProtocolSecp256k1 => 1 | ProtocolActor => 2 | ProtocolBLS => 3 end.

(** [From<Payload> for Protocol] *)
Definition payload_protocol (pl : Payload) : Protocol :=
  match pl with
  | ID _ => ProtocolID | Secp256k1 _ => ProtocolSecp256k1 | Actor _ => ProtocolActor | BLS _ => ProtocolBLS
  end.
Definition protocol (a : Address) : Protocol := payload_protocol (payload a).

(** Strings are their bytes. *)
Definition MAINNET_PREFIX : bytes := [102].
Definition TESTNET_PREFIX : bytes := [116].
Definition to_prefix (n : Network) : bytes :=
  match n with Mainnet => MAINNET_PREFIX | Testnet => TESTNET_PREFIX end.

(** [Display for u64] and [u64::from_str]: an optional sign, then digits. *)
Fixpoint show_digits (fuel : nat) (n : Z) (acc : bytes) : bytes :=
  match fuel with
  | O => acc
  | S fuel => if n <? 10 then (48 + n) :: acc else show_digits fuel (n / 10) ((48 + n mod 10) :: acc)
  end.
Definition show_u64 (n : Z) : bytes := show_digits 20 n [].

Fixpoint parse_digits (s : bytes) (acc : Z) : option Z :=
  match s with
  | [] => Some acc
  | c :: s =>
      if (48 <=? c) && (c <=? 57) then
        let acc := acc * 10 + (c - 48) in
        if acc <=? usize_max then parse_digits s acc else None
      else None
  end.
Definition parse_u64 (s : bytes) : option Z :=
  match s with
  | [] => None
  | c :: s' => if (c =? 43) then match s' with [] => None | _ => parse_digits s' 0 end else parse_digits s 0
  end.

(** The libraries: LEB128, base32 with the alphabet of addresses, and
    [blake2b_variable] at a length. *)
Class AddressLibs := {
  leb_write : Z → bytes;
  leb_read : bytes → option Z;
  base32_encode : bytes → bytes;
  base32_decode : bytes → option bytes;
  blake2b_variable : bytes → nat → bytes
}.
Class AddressLibsOk `{!AddressLibs} : Prop := {
  leb_read_write n : 0 ≤ n ≤ usize_max → leb_read (leb_write n) = Some n;
  leb_read_u64 bz n : leb_read bz = Some n → 0 ≤ n ≤ usize_max;
  leb_write_nonempty n : leb_write n ≠ [];
  base32_decode_encode bz : base32_decode (base32_encode bz) = Some bz;
  base32_length bz : (length bz ≤ length (base32_encode bz) ≤ (8 * length bz + 4) / 5)%nat;
  blake2b_length bz n : length (blake2b_variable bz n) = n
}.

Section Ops.
Context `{!AddressLibs}.
(** [NETWORK_DEFAULT] *)
Context (default_network : Network).

Definition to_leb_bytes (id : Z) : result AddressError bytes := Ok (leb_write id).
Definition from_leb_bytes (bz : bytes) : result AddressError Z :=
  id ← ok_or (leb_read bz) InvalidPayload;
  bz' ← to_leb_bytes id;
  if bool_decide (bz' = bz) then Ok id else Err (InvalidAddressIDPayload bz).

Definition to_raw_bytes (pl : Payload) : bytes :=
  match pl with ID i => leb_write i | Secp256k1 arr | Actor arr | BLS arr => arr end.
Definition payload_to_bytes (pl : Payload) : bytes :=
  protocol_byte (payload_protocol pl) :: to_raw_bytes pl.

(** [Payload::new] *)
Definition payload_new (p : Protocol) (pl : bytes) : result AddressError Payload :=
  match p with
  | ProtocolID => id ← from_leb_bytes pl; Ok (ID id)
  | ProtocolSecp256k1 =>
      if (length pl =? PAYLOAD_HASH_LEN)%nat then Ok (Secp256k1 pl) else Err (InvalidPayloadLength (length pl))
  | ProtocolActor =>
      if (length pl =? PAYLOAD_HASH_LEN)%nat then Ok (Actor pl) else Err (InvalidPayloadLength (length pl))
  | ProtocolBLS => if (length pl =? BLS_PUB_LEN)%nat then Ok (BLS pl) else Err (InvalidBLSLength (length pl))
  end.

Definition address_new (n : Network) (p : Protocol) (bz : bytes) : result AddressError Address :=
  pl ← payload_new p bz; Ok {| network := n; payload := pl |}.

Definition from_bytes (bz : bytes) : result AddressError Address :=
  match bz with
  | b :: (_ :: _) as rest =>
      p ← ok_or (from_byte b) UnknownProtocol;
      address_new default_network p rest
  | _ => Err InvalidLength
  end.
Definition to_bytes (a : Address) : bytes := payload_to_bytes (payload a).

Definition new_id (id : Z) : Address := {| network := default_network; payload := ID id |}.

(** [address_hash] *)
Definition address_hash (ingest : bytes) : bytes := blake2b_variable ingest PAYLOAD_HASH_LEN.

Definition new_secp256k1 (pubkey : bytes) : result AddressError Address :=
  if negb (length pubkey =? 65)%nat then Err (InvalidSECPLength (length pubkey))
  else Ok {| network := default_network; payload := Secp256k1 (address_hash pubkey) |}.
Definition new_actor (data : bytes) : Address :=
  {| network := default_network; payload := Actor (address_hash data) |}.
Definition new_bls (pubkey : bytes) : result AddressError Address :=
  if negb (length pubkey =? BLS_PUB_LEN)%nat then Err (InvalidBLSLength (length pubkey))
  else Ok {| network := default_network; payload := BLS pubkey |}.

Definition is_bls_zero_address (a : Address) : bool :=
  match payload a with BLS pk => bool_decide (pk = replicate BLS_PUB_LEN 0) | _ => false end.
Definition payload_bytes (a : Address) : bytes := to_raw_bytes (payload a).
Definition set_network (a : Address) (n : Network) : Address := {| network := n; payload := payload a |}.
Definition address_id (a : Address) : result AddressError Z :=
  match payload a with ID id => Ok id | _ => Err NonIDAddress end.

Definition checksum (ingest : bytes) : bytes := blake2b_variable ingest CHECKSUM_HASH_LEN.
Definition validate_checksum (ingest expect : bytes) : bool := bool_decide (checksum ingest = expect).

(** [encode]: the string form; [expect] on the payload of an ID address. *)
Definition encode (a : Address) : result AddressError bytes :=
  match protocol a with
  | ProtocolID =>
      match from_leb_bytes (payload_bytes a) with
      | Ok id => Ok (to_prefix (network a) ++ show_u64 (protocol_byte (protocol a)) ++ show_u64 id)
      | Err _ => Err AddressPanic
      end
  | _ =>
      let ingest := to_bytes a in
      let bz := payload_bytes a ++ checksum ingest in
      Ok (to_prefix (network a) ++ show_u64 (protocol_byte (protocol a)) ++ base32_encode bz)
  end.

(** [FromStr for Address]; taking the checksum off fewer than four bytes
    panics. *)
Definition from_str (addr : bytes) : result AddressError Address :=
  _ ← throw_if ((MAX_ADDRESS_LEN <? length addr)%nat || (length addr <? 3)%nat) InvalidLength;
  net ← match take 1 addr with
        | [c] => if c =? 116 then Ok Testnet else if c =? 102 then Ok Mainnet else Err UnknownNetwork
        | _ => Err UnknownNetwork
        end;
  p ← match take 1 (drop 1 addr) with
      | [c] => ok_or (from_byte (c - 48)) UnknownProtocol
      | _ => Err UnknownProtocol
      end;
  let raw := drop 2 addr in
  match p with
  | ProtocolID =>
      _ ← throw_if (20 <? length raw)%nat InvalidLength;
      id ← ok_or (parse_u64 raw) InvalidPayload;
      Ok {| network := net; payload := ID id |}
  | _ =>
      pl ← ok_or (base32_decode raw) Base32Decoding;
      _ ← throw_if (length pl <? CHECKSUM_HASH_LEN)%nat AddressPanic;
      let cksm := drop (length pl - CHECKSUM_HASH_LEN) pl in
      let pl := take (length pl - CHECKSUM_HASH_LEN) pl in
      _ ← throw_if (bool_decide (p = ProtocolSecp256k1 ∨ p = ProtocolActor) && negb (length pl =? PAYLOAD_HASH_LEN)%nat)
            InvalidPayload;
      _ ← throw_if (bool_decide (p = ProtocolBLS) && negb (length pl =? BLS_PUB_LEN)%nat) InvalidPayload;
      _ ← throw_if (negb (validate_checksum (protocol_byte p :: pl) cksm)) InvalidChecksum;
      address_new net p pl
  end.
End Ops.

(** ** Facts *)

(** Addresses as the code builds them. *)
Definition addr_wf (a : Address) : Prop :=
  match payload a with
  | ID i => 0 ≤ i ≤ usize_max
  | Secp256k1 arr | Actor arr => length arr = PAYLOAD_HASH_LEN
  | BLS arr => length arr = BLS_PUB_LEN
  end.

Lemma show_digits_acc fuel n acc : show_digits fuel n acc = show_digits fuel n [] ++ acc.
Proof.
  revert n acc. induction fuel as [|fuel IH]; intros n acc; [done|]. cbn. case_if; [done|].
  rewrite IH, (IH _ [_]), <-app_assoc. done.
Qed.

Lemma parse_digits_app s1 s2 acc :
  parse_digits (s1 ++ s2) acc = parse_digits s1 acc ≫= parse_digits s2.
Proof.
  revert acc. induction s1 as [|c s1 IH]; intros acc; [done|]. cbn.
  case_if; [|done]. case_if; [apply IH|done].
Qed.

Lemma parse_show_digits fuel n :
  0 ≤ n ≤ usize_max → n < 10 ^ Z.of_nat fuel →
  parse_digits (show_digits fuel n []) 0 = Some n
  ∧ (length (show_digits fuel n []) ≤ fuel)%nat
  ∧ ((0 < fuel)%nat → ∃ c s, show_digits fuel n [] = c :: s ∧ 48 ≤ c ≤ 57).
Proof.
  revert n. induction fuel as [|fuel IH]; intros n Hn Hlt; [cbn in *; assert (n = 0) as -> by lia; split_and!; [done|lia|lia]|].
  cbn [show_digits]. case_if.
  - split_and!; [|cbn; lia|intros _; do 2 eexists; split; [done|lia]]. cbn [parse_digits].
    rewrite (proj2 (Z.leb_le 48 _)), (proj2 (Z.leb_le _ 57)) by lia. cbn [andb].
    rewrite (proj2 (Z.leb_le _ usize_max)) by lia. f_equal. lia.
  - rewrite show_digits_acc. pose proof (Z.mod_pos_bound n 10 ltac:(lia)). pose proof (Z.div_mod n 10 ltac:(lia)).
    rewrite Nat2Z.inj_succ, Z.pow_succ_r in Hlt by lia.
    assert (n / 10 < 10 ^ Z.of_nat fuel) by (apply Z.div_lt_upper_bound; lia).
    destruct (IH (n / 10)) as (Hp & Hl & Hc); [lia|done|].
    split_and!.
    + rewrite parse_digits_app, Hp. cbn [mbind option_bind parse_digits].
      rewrite (proj2 (Z.leb_le 48 _)), (proj2 (Z.leb_le _ 57)) by lia. cbn [andb].
      rewrite (proj2 (Z.leb_le _ usize_max)) by lia. f_equal. lia.
    + rewrite length_app. cbn. lia.
    + intros _. destruct fuel as [|fuel]; [cbn in *; lia|]. destruct Hc as (c & s & -> & ?); [lia|]. cbn. eauto.
Qed.

Lemma parse_show_u64 n :
  0 ≤ n ≤ usize_max → parse_u64 (show_u64 n) = Some n ∧ (1 ≤ length (show_u64 n) ≤ 20)%nat.
Proof.
  intros Hn. unfold show_u64. destruct (parse_show_digits 20 n Hn) as (Hp & Hl & Hc).
  { unfold usize_max in Hn. change (10 ^ Z.of_nat 20) with 100000000000000000000. lia. }
  destruct Hc as (c & s & Hs & Hc); [lia|]. rewrite Hs in *. unfold parse_u64.
  rewrite (proj2 (Z.eqb_neq c 43)) by lia. cbn in Hl |- *. split; [done|lia].
Qed.

Lemma from_byte_protocol p : from_byte (protocol_byte p) = Some p.
Proof. by destruct p. Qed.

Lemma from_byte_Some b p : from_byte b = Some p → b = protocol_byte p.
Proof. unfold from_byte. repeat case_if; intros [= <-]; cbn; lia. Qed.

Lemma parse_digits_range s acc n : 0 ≤ acc ≤ usize_max → parse_digits s acc = Some n → 0 ≤ n ≤ usize_max.
Proof.
  revert acc. induction s as [|c s IH]; intros acc Hacc; cbn; [by intros [= <-]|].
  case_if; [|done]. case_if; [|done]. apply IH. lia.
Qed.

Lemma parse_u64_range s n : parse_u64 s = Some n → 0 ≤ n ≤ usize_max.
Proof.
  assert (0 ≤ 0 ≤ usize_max) by (unfold usize_max; lia).
  destruct s as [|c s]; cbn [parse_u64]; [done|]. case_if; [destruct s; [done|]|]; by apply parse_digits_range.
Qed.

Section Facts.
Context `{!AddressLibs, !AddressLibsOk} (default_network : Network).

Lemma from_leb_write i : 0 ≤ i ≤ usize_max → from_leb_bytes (leb_write i) = Ok i.
Proof.
  intros Hi. unfold from_leb_bytes, to_leb_bytes. rewrite leb_read_write by done. cbn.
  by rewrite bool_decide_eq_true_2.
Qed.

Lemma from_leb_Ok bz i : from_leb_bytes bz = Ok i → 0 ≤ i ≤ usize_max ∧ leb_write i = bz.
Proof.
  unfold from_leb_bytes, to_leb_bytes. destruct (leb_read bz) as [n|] eqn:En; [|done]. cbn.
  case_bool_decide; [|done]. intros [= <-]. split; [by eapply leb_read_u64|done].
Qed.

(** The payload of a protocol is given by its bytes. *)
Lemma payload_new_Ok n p bz a :
  address_new n p bz = Ok a ↔ addr_wf a ∧ network a = n ∧ protocol a = p ∧ to_raw_bytes (payload a) = bz.
Proof.
  unfold address_new, addr_wf, protocol. split.
  - destruct p; cbn [payload_new].
    + destruct (from_leb_bytes bz) as [i|] eqn:Ei; [|done]. intros [= <-]. apply from_leb_Ok in Ei as [? ?]. done.
    + destruct (Nat.eqb_spec (length bz) PAYLOAD_HASH_LEN); [|done]. by intros [= <-].
    + destruct (Nat.eqb_spec (length bz) PAYLOAD_HASH_LEN); [|done]. by intros [= <-].
    + destruct (Nat.eqb_spec (length bz) BLS_PUB_LEN); [|done]. by intros [= <-].
  - destruct a as [n' pl]. cbn. intros (Hwf & -> & <- & <-). destruct pl; cbn in *; [by rewrite from_leb_write|..];
      by rewrite Hwf.
Qed.

Lemma raw_bytes_length a : addr_wf a → (1 ≤ length (to_raw_bytes (payload a)))%nat.
Proof.
  unfold addr_wf. destruct (payload a); cbn; [|intros ->; cbv; lia..].
  intros _. pose proof (leb_write_nonempty i). destruct (leb_write i); [done|]. cbn. lia.
Qed.
(** The string of an address: its prefix and the rest. *)
Lemma from_str_prefix n p raw :
  raw ≠ [] → (length raw ≤ 84)%nat →
  from_str (to_prefix n ++ show_u64 (protocol_byte p) ++ raw)
  = match p with
    | ProtocolID =>
        _ ← throw_if (20 <? length raw)%nat InvalidLength;
        id ← ok_or (parse_u64 raw) InvalidPayload;
        Ok {| network := n; payload := ID id |}
    | _ =>
        pl ← ok_or (base32_decode raw) Base32Decoding;
        _ ← throw_if (length pl <? CHECKSUM_HASH_LEN)%nat AddressPanic;
        let cksm := drop (length pl - CHECKSUM_HASH_LEN) pl in
        let pl := take (length pl - CHECKSUM_HASH_LEN) pl in
        _ ← throw_if (bool_decide (p = ProtocolSecp256k1 ∨ p = ProtocolActor) && negb (length pl =? PAYLOAD_HASH_LEN)%nat)
              InvalidPayload;
        _ ← throw_if (bool_decide (p = ProtocolBLS) && negb (length pl =? BLS_PUB_LEN)%nat) InvalidPayload;
        _ ← throw_if (negb (validate_checksum (protocol_byte p :: pl) cksm)) InvalidChecksum;
        address_new n p pl
    end.
Proof.
  intros Hne Hlen. assert (1 ≤ length raw)%nat by (destruct raw; [done|cbn; lia]).
  assert (show_u64 (protocol_byte p) = [48 + protocol_byte p]) as -> by (by destruct p).
  assert (Hl : length (to_prefix n ++ [48 + protocol_byte p] ++ raw) = (2 + length raw)%nat) by (by destruct n).
  unfold from_str. rewrite Hl. unfold MAX_ADDRESS_LEN.
  rewrite (proj2 (Nat.ltb_ge (84 + 2) _)), (proj2 (Nat.ltb_ge _ 3)) by lia. clear.
  by destruct n, p.
Qed.

Lemma encode_from_str a : addr_wf a → ∃ s, encode a = Ok s ∧ from_str s = Ok a.
Proof.
  intros Hwf. destruct (protocol a) eqn:Ep.
  { destruct a as [n [i| | |]]; try done. cbn in Hwf. unfold encode. cbn [protocol payload payload_protocol network].
    unfold payload_bytes. cbn [payload to_raw_bytes]. rewrite from_leb_write by done. eexists. split; [done|].
    destruct (parse_show_u64 i Hwf) as [Hp Hl].
    rewrite (from_str_prefix n ProtocolID) by (try (intros E; rewrite E in Hl; cbn in Hl); lia).
    rewrite (proj2 (Nat.ltb_ge _ _)), Hp by lia. done. }
  all: unfold encode; rewrite Ep; eexists; (split; [done|]).
  all: assert (Hraw : (length (payload_bytes a) = if decide (protocol a = ProtocolBLS) then BLS_PUB_LEN else PAYLOAD_HASH_LEN)) by
    (unfold payload_bytes, protocol in *; unfold addr_wf in Hwf; destruct (payload a); try done; cbn in *; by rewrite Hwf).
  all: rewrite Ep in Hraw; case_decide; try done; cbn in Hraw; unfold checksum.
  all: match goal with |- context [base32_encode ?x] => pose proof (base32_length x) as [Hlo Hhi]; set (bz := x) in * end.
  all: assert (Hbz : length bz = (length (payload_bytes a) + 4)%nat) by
    (unfold bz; rewrite length_app, blake2b_length; done).
  all: unfold BLS_PUB_LEN, PAYLOAD_HASH_LEN in Hraw.
  all: assert (length (base32_encode bz) ≤ 84)%nat by
    (etrans; [exact Hhi|]; rewrite Hbz, Hraw; vm_compute; lia).
  all: rewrite from_str_prefix by (try (intros E; rewrite E in Hlo; cbn in Hlo); lia).
  all: rewrite base32_decode_encode; cbn [ok_or mbind result_bind throw_if].
  all: unfold CHECKSUM_HASH_LEN in *; rewrite (proj2 (Nat.ltb_ge _ _)) by lia; cbn [throw_if mbind result_bind].
  all: replace (length bz - 4)%nat with (length (payload_bytes a)) by lia; unfold bz.
  all: rewrite take_app_length, drop_app_length; unfold PAYLOAD_HASH_LEN, BLS_PUB_LEN; rewrite Hraw.
  all: unfold validate_checksum, checksum; rewrite bool_decide_eq_true_2
    by (unfold to_bytes, payload_to_bytes; unfold protocol in Ep; by rewrite Ep).
  all: cbn [negb andb Nat.eqb]; repeat case_bool_decide; cbn [andb throw_if mbind result_bind].
  all: try (exfalso; naive_solver congruence); apply payload_new_Ok; split_and!; done.
Qed.

Lemma from_str_wf s a : from_str s = Ok a → addr_wf a.
Proof.
  unfold from_str. intros Hs. inv_ok. destruct a2.
  1:{ inv_ok. simplify_eq. unfold addr_wf. cbn. by eapply parse_u64_range. }
  all: inv_ok; by match goal with H : address_new _ _ _ = Ok _ |- _ => apply payload_new_Ok in H as [? _] end.
Qed.

Lemma from_str_panics s :
  from_str s = Err AddressPanic ↔
  ∃ n p raw pl, s = to_prefix n ++ [48 + protocol_byte p] ++ raw ∧ p ≠ ProtocolID ∧
    raw ≠ [] ∧ (length s ≤ MAX_ADDRESS_LEN)%nat ∧
    base32_decode raw = Some pl ∧ (length pl < CHECKSUM_HASH_LEN)%nat.
Proof.
  assert (Hshow : ∀ p, show_u64 (protocol_byte p) = [48 + protocol_byte p]) by (by intros []).
  split.
  - intros Hs. assert (Hlen : (3 ≤ length s ≤ MAX_ADDRESS_LEN)%nat).
    { unfold from_str in Hs. destruct (Nat.ltb_spec MAX_ADDRESS_LEN (length s)), (Nat.ltb_spec (length s) 3); [done..|lia]. }
    destruct s as [|c1 [|c2 raw]]; [cbn in Hlen; lia..|].
    assert (∃ n, [c1] = to_prefix n) as [n Hn].
    { unfold from_str in Hs. destruct (_ || _); [done|]. cbn in Hs. destruct (Z.eqb_spec c1 116) as [->|]; [by exists Testnet|].
      destruct (Z.eqb_spec c1 102) as [->|]; [by exists Mainnet|done]. }
    assert (∃ p, c2 = 48 + protocol_byte p) as [p ->].
    { unfold from_str in Hs. destruct (_ || _); [done|]. cbn in Hs.
      destruct n; injection Hn as ->; cbn in Hs;
      (destruct (from_byte (c2 - 48)) as [p|] eqn:Ep; [|done]); exists p; apply from_byte_Some in Ep; lia. }
    change (c1 :: ?x :: raw) with ([c1] ++ [x] ++ raw) in *. rewrite Hn in Hs, Hlen |- *.
    rewrite <-Hshow, from_str_prefix in Hs by (destruct raw, n; cbn in *; unfold MAX_ADDRESS_LEN in *; done || lia).
    assert (Hp : p ≠ ProtocolID).
    { intros ->. destruct (20 <? length raw)%nat; [done|]. cbn in Hs. by destruct (parse_u64 raw). }
    destruct (base32_decode raw) as [pl|] eqn:Ed; [|by destruct p].
    exists n, p, raw, pl. split_and!; [done|done|by intros ->; destruct n; cbn in Hlen; lia|lia|done|].
    destruct (Nat.ltb_spec (length pl) CHECKSUM_HASH_LEN) as [|E]; [done|]. exfalso.
    assert (Hnp : address_new n p (take (length pl - CHECKSUM_HASH_LEN) pl) ≠ Err AddressPanic).
    { unfold address_new, payload_new. destruct p; [done| | |]; by case_match. }
    apply Nat.ltb_ge in E. destruct p; [done|..]; cbn [ok_or mbind result_bind] in Hs; rewrite E in Hs;
      cbn [throw_if mbind result_bind] in Hs;
      repeat (match type of Hs with context [throw_if ?b _] =>
        destruct b; cbn [throw_if mbind result_bind] in Hs; [done|] end); done.
  - intros (n & p & raw & pl & -> & Hp & Hne & Hlen & Hd & Hpl). rewrite <-Hshow, from_str_prefix; [|done|].
    + rewrite Hd. cbn [ok_or mbind result_bind]. by rewrite (proj2 (Nat.ltb_lt _ _) Hpl); destruct p.
    + destruct n; cbn in Hlen; unfold MAX_ADDRESS_LEN in Hlen; lia.
Qed.
End Facts.

(** ** Libraries to run examples with *)

#[global] Instance plain_address_libs : AddressLibs := {|
  leb_write n := [n];
  leb_read bz := match bz with [n] => if (0 <=? n) && (n <=? usize_max) then Some n else None | _ => None end;
  base32_encode bz := bz;
  base32_decode bz := Some bz;
  blake2b_variable _ n := replicate n 0
|}.
#[global] Instance plain_address_libs_ok : AddressLibsOk.
Proof.
  split; cbn -[Nat.div Nat.mul].
  - intros n Hn. rewrite (proj2 (Z.leb_le 0 n)), (proj2 (Z.leb_le n _)) by lia. done.
  - intros [|b [|? ?]] n; [done| |done]. case_if; [|done]. intros [= <-]. lia.
  - done.
  - done.
  - intros bz. split; [done|]. apply Nat.div_le_lower_bound; lia.
  - intros. apply length_replicate.
Qed.

(** ** Theorems *)



(** C36.  The string form: every well-formed address has one, which parses back
    to the address, and what parses is well formed.  Parsing panics exactly on
    the strings whose base32 part decodes to fewer bytes than a checksum. *)
Theorem address_string_roundtrip `{!AddressLibs, !AddressLibsOk} :
  (∀ a, addr_wf a → ∃ s, encode a = Ok s ∧ from_str s = Ok a) ∧
  (∀ s a, from_str s = Ok a → addr_wf a) ∧
  (∀ s, from_str s = Err AddressPanic ↔
    ∃ n p raw pl, s = to_prefix n ++ [48 + protocol_byte p] ++ raw ∧ p ≠ ProtocolID ∧
      raw ≠ [] ∧ (length s ≤ MAX_ADDRESS_LEN)%nat ∧
      base32_decode raw = Some pl ∧ (length pl < CHECKSUM_HASH_LEN)%nat).
Proof.
  split; [apply encode_from_str|]. split; [apply from_str_wf|]. apply from_str_panics.
Qed.

Lemma address_string_roundtrip_witness :
  from_str [102; 48; 49; 55; 50; 57] = Ok (new_id Mainnet 1729) ∧
  from_str [102; 49; 97; 97] = Err AddressPanic.
Proof.
  destruct address_string_roundtrip as (Henc & _ & Hpanic). split.
  - destruct (Henc (new_id Mainnet 1729)) as (s & Hs & Hp); [cbv; split; discriminate|].
    vm_compute in Hs. injection Hs as <-. exact Hp.
  - apply Hpanic. exists Mainnet, ProtocolSecp256k1, [97; 97], [97; 97]. split_and!; try done; cbv; lia.
Defined.
