(* ===== verification/Runtime.v ===== *)
(** * The actor runtime: errors, actor records and actor code

    [src/vm/src] (exit codes, actor errors, actor records), the code CIDs and
    singleton addresses of [src/vm/actor], and the [Runtime] interface of
    [src/vm/runtime].  The body of an actor method is a value of [Prog]: a tree
    of the runtime calls it makes, each followed by what the method does with
    the answer.  [Interp] runs such a tree as [DefaultRuntime] does; [wp] is the
    logic in which the actors' invariants are proved, sound for every
    interleaving of calls the interpreter can produce. *)

From S2P Require Import Prelude Address.

(** ** [exit_code.rs] and [error.rs] *)

Inductive ExitCode :=
| EOk | SysErrSenderInvalid | SysErrSenderStateInvalid | SysErrInvalidMethod
| SysErrActorPanic | SysErrInvalidReceiver | SysErrInsufficientFunds | SysErrOutOfGas
| SysErrForbidden | SysErrIllegalActor | SysErrIllegalArgument
| SysErrReserved2 | SysErrReserved3 | SysErrReserved4 | SysErrReserved5 | SysErrReserved6
| ErrIllegalArgument | ErrNotFound | ErrForbidden | ErrInsufficientFunds
| ErrIllegalState | ErrSerialization | ErrTooManyProveCommits | ErrPlaceholder.

#[global] Instance exit_code_eq_dec : EqDecision ExitCode.
Proof. solve_decision. Defined.

Definition exit_code_num (c : ExitCode) : Z :=
  match c with
  | EOk => 0 | SysErrSenderInvalid => 1 | SysErrSenderStateInvalid => 2
  | SysErrInvalidMethod => 3 | SysErrActorPanic => 4 | SysErrInvalidReceiver => 5
  | SysErrInsufficientFunds => 6 | SysErrOutOfGas => 7 | SysErrForbidden => 8
  | SysErrIllegalActor => 9 | SysErrIllegalArgument => 10 | SysErrReserved2 => 11
  | SysErrReserved3 => 12 | SysErrReserved4 => 13 | SysErrReserved5 => 14
  | SysErrReserved6 => 15 | ErrIllegalArgument => 16 | ErrNotFound => 17
  | ErrForbidden => 18 | ErrInsufficientFunds => 19 | ErrIllegalState => 20
  | ErrSerialization => 21 | ErrTooManyProveCommits => 32 | ErrPlaceholder => 1000
  end.

Definition is_success (c : ExitCode) : bool := bool_decide (c = EOk).

(** The messages of errors are for debugging only and left out. *)
Record ActorError := { fatal : bool; exit_code : ExitCode; recovered : bool }.

Definition actor_error (c : ExitCode) : ActorError :=
  {| fatal := false; exit_code := c; recovered := false |}.
Definition new_fatal : ActorError :=
  {| fatal := true; exit_code := ErrPlaceholder; recovered := false |}.
Definition new_recovered (c : ExitCode) : ActorError :=
  {| fatal := false; exit_code := c; recovered := true |}.
Definition error_is_ok (e : ActorError) : bool := bool_decide (exit_code e = EOk).

(** ** Code CIDs and singleton addresses of the actors *)

Inductive Code :=
| SYSTEM_ACTOR_CODE_ID | INIT_ACTOR_CODE_ID | CRON_ACTOR_CODE_ID | ACCOUNT_ACTOR_CODE_ID
| POWER_ACTOR_CODE_ID | MINER_ACTOR_CODE_ID | MARKET_ACTOR_CODE_ID | PAYCH_ACTOR_CODE_ID
| MULTISIG_ACTOR_CODE_ID | REWARD_ACTOR_CODE_ID | VERIFREG_ACTOR_CODE_ID
| OTHER_CODE_ID (cid : bytes).

#[global] Instance code_eq_dec : EqDecision Code.
Proof. solve_decision. Defined.

Definition is_builtin_actor (c : Code) : bool :=
  match c with OTHER_CODE_ID _ => false | _ => true end.
Definition is_singleton_actor (c : Code) : bool :=
  match c with
  | SYSTEM_ACTOR_CODE_ID | INIT_ACTOR_CODE_ID | REWARD_ACTOR_CODE_ID | CRON_ACTOR_CODE_ID
  | POWER_ACTOR_CODE_ID | MARKET_ACTOR_CODE_ID | VERIFREG_ACTOR_CODE_ID => true
  | _ => false
  end.
Definition is_account_actor (c : Code) : bool := bool_decide (c = ACCOUNT_ACTOR_CODE_ID).
Definition CALLER_TYPES_SIGNABLE : list Code := [ACCOUNT_ACTOR_CODE_ID; MULTISIG_ACTOR_CODE_ID].
Definition is_principal (c : Code) : bool := existsb (λ c', bool_decide (c' = c)) CALLER_TYPES_SIGNABLE.

(** [new_id] on the network of the node. *)
Notation id_addr i := (new_id Mainnet i).
Definition SYSTEM_ACTOR_ADDR : Address := id_addr 0.
Definition INIT_ACTOR_ADDR : Address := id_addr 1.
Definition REWARD_ACTOR_ADDR : Address := id_addr 2.
Definition CRON_ACTOR_ADDR : Address := id_addr 3.
Definition STORAGE_POWER_ACTOR_ADDR : Address := id_addr 4.
Definition STORAGE_MARKET_ACTOR_ADDR : Address := id_addr 5.
Definition VERIFIED_REGISTRY_ACTOR_ADDR : Address := id_addr 6.
Definition BURNT_FUNDS_ACTOR_ADDR : Address := id_addr 99.
Definition FIRST_NON_SINGLETON_ADDR : Z := 100.

(** ** [network.rs] *)
Definition EPOCH_DURATION_SECONDS : Z := 30.
Definition SECONDS_IN_HOUR : Z := 3600.
Definition SECONDS_IN_DAY : Z := 86400.
Definition SECONDS_IN_YEAR : Z := 31556925.
Definition EPOCHS_IN_HOUR : Z := SECONDS_IN_HOUR / EPOCH_DURATION_SECONDS.
Definition EPOCHS_IN_DAY : Z := SECONDS_IN_DAY / EPOCH_DURATION_SECONDS.
Definition EPOCHS_IN_YEAR : Z := SECONDS_IN_YEAR / EPOCH_DURATION_SECONDS.
Definition SECTOR_QUALITY_PRECISION : Z := 20.
Definition QUALITY_BASE_MULTIPLIER : Z := 10.
Definition DEAL_WEIGHT_MULTIPLIER : Z := 10.
Definition VERIFIED_DEAL_WEIGHT_MULTIPLIER : Z := 100.
Definition EXPECTED_LEADERS_PER_EPOCH : Z := 5.

Definition METHOD_SEND : Z := 0.
Definition METHOD_CONSTRUCTOR : Z := 1.

(** ** [actor_state.rs]

    [U] is the type of the state objects of all actors.  An actor record holds
    the CID of its state object; CIDs of flushed objects are functions of the
    object and back ([amt_flush_canonical], [hamt_flush_canonical]), and the
    record holds the object itself here. *)

Record ActorState {U : Type} := {
  code : Code; state : U; sequence : Z; balance : Z }.
Arguments ActorState U : clear implicits.

Section actor_state.
Context {U : Type}.
Implicit Types a : ActorState U.

Definition deduct_funds a (amt : Z) : option (ActorState U) :=
  if balance a <? amt then None
  else Some {| code := code a; state := state a; sequence := sequence a; balance := balance a - amt |}.
Definition deposit_funds a (amt : Z) : ActorState U :=
  {| code := code a; state := state a; sequence := sequence a; balance := balance a + amt |}.
Definition set_state a (u : U) : ActorState U :=
  {| code := code a; state := u; sequence := sequence a; balance := balance a |}.
Definition incr_sequence a : ActorState U :=
  {| code := code a; state := state a; sequence := sequence a + 1; balance := balance a |}.

End actor_state.

(** The states of one kind of actor among all state objects: encoding, and
    decoding, which fails on objects of another shape. *)
Class StateIn (S U : Type) := {
  state_enc : S → U;
  state_dec : U → option S;
  state_dec_enc s : state_dec (state_enc s) = Some s }.

(** An invariant of all state objects that for the states of one kind of actor
    is [inv]: what the other actors of the network are told about this one. *)
Class InvIn {S U : Type} `{!StateIn S U} (inv : S → Prop) (I : U → Prop) : Prop :=
  inv_iff (u : U) (s : S) : state_dec u = Some s → I u ↔ inv s.

Section inv_in.
Context {S U : Type} `{!StateIn S U} {inv : S → Prop} {I : U → Prop} `{!InvIn inv I}.

Lemma inv_enc (s : S) : inv s → I (state_enc s).
Proof. intros Hs. by apply (inv_iff _ s (state_dec_enc s)). Qed.
Lemma inv_dec (u : U) (s : S) : I u → state_dec u = Some s → inv s.
Proof. intros Hu Hs. by apply (inv_iff u s Hs). Qed.

End inv_in.

#[global] Instance inv_in_states {S U : Type} `{!StateIn S U} (inv : S → Prop) :
  InvIn inv (λ u : U, ∀ s, state_dec u = Some s → inv s).
Proof. intros u s Hs. split; [auto|]. intros ? s'. congruence. Qed.

(** ** Actor code *)

(** What the runtime tells a method about the message ([MessageInfo]) and the chain. *)
Record Ctx := { caller : Address; receiver : Address; value_received : Z; curr_epoch : Z; base_fee : Z }.

(** Pure system calls.  The answer is [None] when the call returns an error. *)
Inductive SysQuery :=
| VerifySignature (sig : bytes) (signer : Address) (plaintext : bytes)
| HashBlake2b (data : bytes)
| RandomnessTickets (tag epoch : Z) (entropy : bytes)
| RandomnessBeacon (tag epoch : Z) (entropy : bytes)
| ComputeUnsealedSectorCid (proof : Z) (pieces : bytes)
| VerifySeal (info : bytes)
| BatchVerifySeals (vis : bytes)
| VerifyPost (info : bytes)
| VerifyAggregateSeals (info : bytes)
| VerifyConsensusFault (h1 h2 extra : bytes).

(** The body of a method.  An error of a runtime call ends the method, as the
    [?] after the call does; the result of [send] is a value the method may
    inspect. *)
Inductive Prog (U A : Type) : Type :=
| Ret (r : result ActorError A)
| CallerAny (k : Prog U A)
| CallerIs (addrs : list Address) (k : Prog U A)
| CallerType (types : list Code) (k : Prog U A)
| Balance (k : Z → Prog U A)
| Resolve (a : Address) (k : option Address → Prog U A)
| CodeOf (a : Address) (k : option Code → Prog U A)
| Create (u : U) (k : Prog U A)
| ReadState (k : U → Prog U A)
| Begin (k : U → Prog U A)
| Commit (u : U) (k : Prog U A)
| Send (to : Address) (method : Z) (params : bytes) (value : Z) (k : result ActorError bytes → Prog U A)
| NewActorAddress (k : Address → Prog U A)
| CreateActor (c : Code) (a : Address) (k : Prog U A)
| DeleteActor (beneficiary : Address) (k : Prog U A)
| CircSupply (k : Z → Prog U A)
| ChargeGas (compute : Z) (k : Prog U A)
| Syscall (q : SysQuery) (k : option bytes → Prog U A).
Arguments Ret {U A} r.
Arguments CallerAny {U A} k.
Arguments CallerIs {U A} addrs k.
Arguments CallerType {U A} types k.
Arguments Balance {U A} k.
Arguments Resolve {U A} a k.
Arguments CodeOf {U A} a k.
Arguments Create {U A} u k.
Arguments ReadState {U A} k.
Arguments Begin {U A} k.
Arguments Commit {U A} u k.
Arguments Send {U A} to method params value k.
Arguments NewActorAddress {U A} k.
Arguments CreateActor {U A} c a k.
Arguments DeleteActor {U A} beneficiary k.
Arguments CircSupply {U A} k.
Arguments ChargeGas {U A} compute k.
Arguments Syscall {U A} q k.

Section prog.
Context {U : Type}.

Fixpoint prog_bind {A B} (f : A → Prog U B) (p : Prog U A) : Prog U B :=
  match p with
  | Ret (Ok a) => f a
  | Ret (Err e) => Ret (Err e)
  | CallerAny k => CallerAny (prog_bind f k)
  | CallerIs l k => CallerIs l (prog_bind f k)
  | CallerType l k => CallerType l (prog_bind f k)
  | Balance k => Balance (λ b, prog_bind f (k b))
  | Resolve a k => Resolve a (λ o, prog_bind f (k o))
  | CodeOf a k => CodeOf a (λ o, prog_bind f (k o))
  | Create u k => Create u (prog_bind f k)
  | ReadState k => ReadState (λ u, prog_bind f (k u))
  | Begin k => Begin (λ u, prog_bind f (k u))
  | Commit u k => Commit u (prog_bind f k)
  | Send to m ps v k => Send to m ps v (λ r, prog_bind f (k r))
  | NewActorAddress k => NewActorAddress (λ a, prog_bind f (k a))
  | CreateActor c a k => CreateActor c a (prog_bind f k)
  | DeleteActor b k => DeleteActor b (prog_bind f k)
  | CircSupply k => CircSupply (λ z, prog_bind f (k z))
  | ChargeGas g k => ChargeGas g (prog_bind f k)
  | Syscall q k => Syscall q (λ o, prog_bind f (k o))
  end.

#[global] Instance prog_ret_inst : MRet (Prog U) := λ A a, Ret (Ok a).
#[global] Instance prog_bind_inst : MBind (Prog U) := λ A B f p, prog_bind f p.

End prog.

Section calls.
Context {U : Type}.

Definition abort {A} (c : ExitCode) : Prog U A := Ret (Err (actor_error c)).
Definition of_result {A} (r : result ActorError A) : Prog U A := Ret r.
(** A pure part of a method, whose error is an exit code. *)
Definition of_code {A} (r : result ExitCode A) : Prog U A :=
  match r with Ok a => mret a | Err c => abort c end.
(** [if cond { return Err(actor_error!(code)) }]. *)
Definition abort_if (cond : bool) (c : ExitCode) : Prog U unit :=
  if cond then abort c else mret tt.
Definition unwrap_or_abort {A} (o : option A) (c : ExitCode) : Prog U A :=
  match o with Some a => mret a | None => abort c end.

Definition validate_immediate_caller_accept_any : Prog U unit := CallerAny (mret tt).
Definition validate_immediate_caller_is (addrs : list Address) : Prog U unit := CallerIs addrs (mret tt).
Definition validate_immediate_caller_type (types : list Code) : Prog U unit := CallerType types (mret tt).
Definition current_balance : Prog U Z := Balance mret.
Definition resolve_address (a : Address) : Prog U (option Address) := Resolve a mret.
Definition get_actor_code_cid (a : Address) : Prog U (option Code) := CodeOf a mret.
Definition send (to : Address) (method : Z) (params : bytes) (value : Z) : Prog U (result ActorError bytes) :=
  Send to method params value mret.
(** [rt.send(..)?] *)
Definition send_ (to : Address) (method : Z) (params : bytes) (value : Z) : Prog U bytes :=
  r ← send to method params value; of_result r.
Definition new_actor_address : Prog U Address := NewActorAddress mret.
Definition create_actor (c : Code) (a : Address) : Prog U unit := CreateActor c a (mret tt).
Definition delete_actor (beneficiary : Address) : Prog U unit := DeleteActor beneficiary (mret tt).
Definition total_fil_circ_supply : Prog U Z := CircSupply mret.
Definition charge_gas (compute : Z) : Prog U unit := ChargeGas compute (mret tt).
Definition syscall (q : SysQuery) : Prog U (option bytes) := Syscall q mret.

(** [rt.deserialize_params(..)?], from network version 7 on. *)
Definition deserialize_params {P} (dec : bytes → option P) (params : bytes) : Prog U P :=
  unwrap_or_abort (dec params) ErrSerialization.

Context {S : Type} `{!StateIn S U}.

Definition create (s : S) : Prog U unit := Create (state_enc s) (mret tt).
(** [rt.state()?]; decoding fails with [ErrSerialization] on an object of
    another shape. *)
Definition get_state : Prog U S :=
  ReadState (λ u, unwrap_or_abort (state_dec u) ErrSerialization).
(** [rt.transaction(|st, rt| ..)?]: the closure works on a copy of the state,
    which is committed if it returns [Ok]. *)
Definition transaction {R} (f : S → Prog U (S * R)) : Prog U R :=
  Begin (λ u, s ← unwrap_or_abort (state_dec u) ErrSerialization;
              '(s', r) ← f s;
              Commit (state_enc s') (mret r)).

End calls.

#[global] Arguments transaction : simpl never.
#[global] Arguments get_state : simpl never.
#[global] Arguments send_ : simpl never.

(** [resolve_to_id_addr]: a zero-value send creates the account if needed. *)
Definition resolve_to_id_addr {U} (a : Address) (default_code : ExitCode) : Prog U Address :=
  o ← resolve_address a;
  match o with
  | Some id => mret id
  | None =>
      _ ← send_ a METHOD_SEND [] 0;
      o ← resolve_address a;
      unwrap_or_abort o default_code
  end.

(** [delete] of a HAMT.  Deleting an absent key returns [None] or panics
    ([hamt_delete_absent_panics]); which of the two depends on the shape of the
    tree, and is the parameter [absent_ok]. *)
Definition map_delete {U K V : Type} `{Countable K} (absent_ok : gmap K V → K → bool) (m : gmap K V) (k : K)
    : Prog U (option V * gmap K V) :=
  match m !! k with
  | Some v => mret (Some v, delete k m)
  | None => if absent_ok m k then mret (None, m) else abort SysErrActorPanic
  end.

(** ** Reasoning about actor code

    [wp G I rt p u b Q]: run from a state object [u] and a balance [b], the
    method [p] only writes states that satisfy [I], only makes sends that
    satisfy [G] in the state and balance of that moment, and ends, if without
    an error, as [Q] says.  A send lets other actors run, this one included
    (and creating or deleting an actor may concern this one):
    afterwards the state is any state that satisfies [I] and the balance any
    non-negative amount. *)

Definition Message : Type := Address * Z * bytes * Z.

Section wp.
Context {U : Type} (G : U → Z → Message → Prop) (I : U → Prop) (rt : Ctx).

Definition is_id (a : Address) : Prop := protocol a = ProtocolID.

Fixpoint wp {A} (p : Prog U A) (u : U) (b : Z) (Q : A → U → Z → Prop) : Prop :=
  match p with
  | Ret (Ok a) => Q a u b
  | Ret (Err _) => True
  | CallerAny k => wp k u b Q
  | CallerIs l k => caller rt ∈ l → wp k u b Q
  | CallerType _ k => wp k u b Q
  | Balance k => wp (k b) u b Q
  | Resolve _ k => ∀ o, (∀ a, o = Some a → is_id a) → wp (k o) u b Q
  | CodeOf _ k => ∀ o, wp (k o) u b Q
  | Create u' k => I u' ∧ wp k u' b Q
  | ReadState k => wp (k u) u b Q
  | Begin k => wp (k u) u b Q
  | Commit u' k => I u' ∧ wp k u' b Q
  | Send to m ps v k => G u b (to, m, ps, v) ∧ ∀ r u' b', I u' → 0 ≤ b' → wp (k r) u' b' Q
  | NewActorAddress k => ∀ a, wp (k a) u b Q
  | CreateActor _ _ k => ∀ u' b', I u' → 0 ≤ b' → wp k u' b' Q
  | DeleteActor _ k => ∀ u' b', I u' → 0 ≤ b' → wp k u' b' Q
  | CircSupply k => ∀ z, wp (k z) u b Q
  | ChargeGas _ k => wp k u b Q
  | Syscall _ k => ∀ o, wp (k o) u b Q
  end.

Ltac prog_induction p :=
  induction p as [[?|?]|? IH|? ? IH|? ? IH|? IH|? ? IH|? ? IH|? ? IH|? IH|? IH|? ? IH
                 |? ? ? ? ? IH|? IH|? ? ? IH|? ? IH|? IH|? ? IH|? ? IH].

Lemma wp_mono {A} (p : Prog U A) (u : U) (b : Z) (Q Q' : A → U → Z → Prop) :
  (∀ a u' b', Q a u' b' → Q' a u' b') → wp p u b Q → wp p u b Q'.
Proof.
  intros HQ. revert u b.
  prog_induction p; intros u' b' H; cbn in *; destruct_and?; eauto 8.
Qed.

Lemma wp_bind {A B} (f : A → Prog U B) (p : Prog U A) (u : U) (b : Z) (Q : B → U → Z → Prop) :
  wp p u b (λ a u' b', wp (f a) u' b' Q) → wp (p ≫= f) u b Q.
Proof.
  unfold mbind, prog_bind_inst. revert u b.
  prog_induction p; intros u' b' H; cbn in *; destruct_and?; eauto 8.
Qed.

(** The rules of the derived calls. *)
Lemma wp_abort_if (c : bool) (e : ExitCode) (u : U) (b : Z) (Q : unit → U → Z → Prop) :
  (c = false → Q tt u b) → wp (abort_if c e) u b Q.
Proof. destruct c; cbn; auto. Qed.

Lemma wp_unwrap {A} (o : option A) (e : ExitCode) (u : U) (b : Z) (Q : A → U → Z → Prop) :
  (∀ a, o = Some a → Q a u b) → wp (unwrap_or_abort o e) u b Q.
Proof. destruct o; cbn; auto. Qed.

Lemma wp_of_result {A} (r : result ActorError A) (u : U) (b : Z) (Q : A → U → Z → Prop) :
  (∀ a, r = Ok a → Q a u b) → wp (of_result r) u b Q.
Proof. destruct r; cbn; auto. Qed.

Lemma wp_of_code {A} (r : result ExitCode A) (u : U) (b : Z) (Q : A → U → Z → Prop) :
  (∀ a, r = Ok a → Q a u b) → wp (of_code r) u b Q.
Proof. destruct r; cbn; auto. Qed.

Lemma wp_send_ (to : Address) (m : Z) (ps : bytes) (v : Z) (u : U) (b : Z) (Q : bytes → U → Z → Prop) :
  G u b (to, m, ps, v) → (∀ r u' b', I u' → 0 ≤ b' → Q r u' b') → wp (send_ to m ps v) u b Q.
Proof. unfold send_. intros HG HQ. apply wp_bind. split; [done|]. intros [r|e] u' b' ??; cbn; auto. Qed.

Lemma wp_current_balance (u : U) (b : Z) (Q : Z → U → Z → Prop) : Q b u b → wp current_balance u b Q.
Proof. done. Qed.
Lemma wp_send (to : Address) (m : Z) (ps : bytes) (v : Z) (u : U) (b : Z) (Q : result ActorError bytes → U → Z → Prop) :
  G u b (to, m, ps, v) → (∀ r u' b', I u' → 0 ≤ b' → Q r u' b') → wp (send to m ps v) u b Q.
Proof. done. Qed.
Lemma wp_syscall (q : SysQuery) (u : U) (b : Z) (Q : option bytes → U → Z → Prop) :
  (∀ o, Q o u b) → wp (syscall q) u b Q.
Proof. done. Qed.
Lemma wp_code (a : Address) (u : U) (b : Z) (Q : option Code → U → Z → Prop) :
  (∀ o, Q o u b) → wp (get_actor_code_cid a) u b Q.
Proof. done. Qed.
Lemma wp_resolve (a : Address) (u : U) (b : Z) (Q : option Address → U → Z → Prop) :
  (∀ o, (∀ id, o = Some id → is_id id) → Q o u b) → wp (resolve_address a) u b Q.
Proof. done. Qed.
Lemma wp_caller_type (l : list Code) (u : U) (b : Z) (Q : unit → U → Z → Prop) :
  Q tt u b → wp (validate_immediate_caller_type l) u b Q.
Proof. done. Qed.
Lemma wp_caller_any (u : U) (b : Z) (Q : unit → U → Z → Prop) :
  Q tt u b → wp validate_immediate_caller_accept_any u b Q.
Proof. done. Qed.
Lemma wp_caller_is (l : list Address) (u : U) (b : Z) (Q : unit → U → Z → Prop) :
  (caller rt ∈ l → Q tt u b) → wp (validate_immediate_caller_is l) u b Q.
Proof. done. Qed.
Lemma wp_charge_gas (g : Z) (u : U) (b : Z) (Q : unit → U → Z → Prop) :
  Q tt u b → wp (charge_gas g) u b Q.
Proof. done. Qed.
Lemma wp_circ_supply (u : U) (b : Z) (Q : Z → U → Z → Prop) :
  (∀ z, Q z u b) → wp total_fil_circ_supply u b Q.
Proof. done. Qed.
Lemma wp_new_actor_address (u : U) (b : Z) (Q : Address → U → Z → Prop) :
  (∀ a, Q a u b) → wp new_actor_address u b Q.
Proof. done. Qed.
Lemma wp_create_actor (c : Code) (a : Address) (u : U) (b : Z) (Q : unit → U → Z → Prop) :
  (∀ u' b', I u' → 0 ≤ b' → Q tt u' b') → wp (create_actor c a) u b Q.
Proof. done. Qed.
Lemma wp_delete_actor (a : Address) (u : U) (b : Z) (Q : unit → U → Z → Prop) :
  (∀ u' b', I u' → 0 ≤ b' → Q tt u' b') → wp (delete_actor a) u b Q.
Proof. done. Qed.

Context {S : Type} `{!StateIn S U}.

Lemma wp_create (s : S) (u : U) (b : Z) (Q : unit → U → Z → Prop) :
  I (state_enc s) → Q tt (state_enc s) b → wp (create s) u b Q.
Proof. done. Qed.

Lemma wp_transaction {R} (f : S → Prog U (S * R)) (u : U) (b : Z) (Q : R → U → Z → Prop) :
  (∀ s, state_dec u = Some s →
    wp (f s) u b (λ '(s', r) _ b', I (state_enc s') ∧ Q r (state_enc s') b')) →
  wp (transaction f) u b Q.
Proof.
  intros H. unfold transaction. change (wp _ u b Q) with
    (wp (s ← unwrap_or_abort (state_dec u) ErrSerialization; '(s', r) ← f s; Commit (state_enc s') (mret r)) u b Q).
  apply wp_bind, wp_unwrap. intros s Hs. apply wp_bind.
  eapply wp_mono; [|by apply H]. intros [s' r] ? ?. done.
Qed.

Lemma wp_get_state (u : U) (b : Z) (Q : S → U → Z → Prop) :
  (∀ s, state_dec u = Some s → Q s u b) → wp get_state u b Q.
Proof. intros H. by apply wp_unwrap. Qed.

(** Resolving to an ID address may send the account a message without value
    or method. *)
Lemma wp_resolve_to_id_addr (a : Address) (e : ExitCode) (u : U) (b : Z) (Q : Address → U → Z → Prop) :
  G u b (a, METHOD_SEND, [], 0) → I u → 0 ≤ b →
  (∀ id u' b', is_id id → I u' → 0 ≤ b' → Q id u' b') →
  wp (resolve_to_id_addr a e) u b Q.
Proof.
  intros HG HI Hb HQ. unfold resolve_to_id_addr. apply wp_bind. cbn. intros [id|] Hid; cbn.
  - apply HQ; auto.
  - apply wp_bind, wp_send_; [done|]. intros r u' b' ? ? o Ho.
    apply wp_unwrap. intros id ->. apply HQ; auto.
Qed.

Lemma wp_map_delete {K V : Type} `{Countable K} (absent_ok : gmap K V → K → bool) (m : gmap K V) (k : K)
    (u : U) (b : Z) (Q : option V * gmap K V → U → Z → Prop) :
  Q (m !! k, delete k m) u b → wp (map_delete absent_ok m k) u b Q.
Proof.
  unfold map_delete. destruct (m !! k) eqn:E; [done|]. rewrite delete_id by done. by destruct (absent_ok m k).
Qed.

End wp.

(** One step through a method: a bind, a guard, a call. *)
Ltac wp_step :=
  lazymatch goal with
  | |- wp _ _ _ (_ ≫= _) _ _ _ => apply wp_bind
  | |- wp _ _ _ (abort_if _ _) _ _ _ => apply wp_abort_if; intros ?; reflect_bools
  | |- wp _ _ _ (unwrap_or_abort _ _) _ _ _ => apply wp_unwrap; intros ? ?
  | |- wp _ _ _ (of_result _) _ _ _ => apply wp_of_result; intros ? ?
  | |- wp _ _ _ (of_code _) _ _ _ => apply wp_of_code; intros ? ?
  | |- wp _ _ _ (deserialize_params _ _) _ _ _ => apply wp_unwrap; intros ? ?
  | |- wp _ _ _ (transaction _) _ _ _ => apply wp_transaction; intros ? ?
  | |- wp _ _ _ get_state _ _ _ => apply wp_get_state; intros ? ?
  | |- wp _ _ _ (validate_immediate_caller_is _) _ _ _ => apply wp_caller_is; intros ?
  | |- wp _ _ _ (validate_immediate_caller_type _) _ _ _ => apply wp_caller_type
  | |- wp _ _ _ validate_immediate_caller_accept_any _ _ _ => apply wp_caller_any
  | |- wp _ _ _ current_balance _ _ _ => apply wp_current_balance
  | |- wp _ _ _ (send _ _ _ _) _ _ _ => apply wp_send; [|intros ? ? ? ? ?]
  | |- wp _ _ _ (send_ _ _ _ _) _ _ _ => apply wp_send_; [|intros ? ? ? ? ?]
  | |- wp _ _ _ (syscall _) _ _ _ => apply wp_syscall; intros ?
  | |- wp _ _ _ (get_actor_code_cid _) _ _ _ => apply wp_code; intros ?
  | |- wp _ _ _ (resolve_address _) _ _ _ => apply wp_resolve; intros ? ?
  | |- wp _ _ _ (charge_gas _) _ _ _ => apply wp_charge_gas
  | |- wp _ _ _ total_fil_circ_supply _ _ _ => apply wp_circ_supply; intros ?
  | |- wp _ _ _ new_actor_address _ _ _ => apply wp_new_actor_address; intros ?
  | |- wp _ _ _ (create_actor _ _) _ _ _ => apply wp_create_actor; intros ? ? ? ?
  | |- wp _ _ _ (delete_actor _) _ _ _ => apply wp_delete_actor; intros ? ? ? ?
  | |- wp _ _ _ (create _) _ _ _ => apply wp_create
  | |- wp _ _ _ (map_delete _ _ _) _ _ _ => apply wp_map_delete
  | |- wp _ _ _ (abort _) _ _ _ => exact Logic.I
  | |- wp _ _ _ (mret _) _ _ _ => cbn [wp mret prog_ret_inst]
  | |- wp _ _ _ (if ?b then _ else _) _ _ _ => let E := fresh "E" in destruct b eqn:E; reflect_bools
  | |- wp _ _ _ (match ?o with _ => _ end) _ _ _ => let E := fresh "E" in destruct o eqn:E
  end.

(** CBOR of the parameter and return types, which serde derives.  Decoding
    fails on bytes of another shape. *)
Class Dec (P : Type) := dec : bytes → option P.
Class Enc (P : Type) := enc : P → bytes.

(** Method dispatch: [FromPrimitive::from_u64(method)] with its [None] arm. *)
Definition invalid_method {U} : Prog U bytes := abort SysErrInvalidMethod.
(** Decode the parameters, run the method, return nothing. *)
Definition call_unit {U P} `{!Dec P} (params : bytes) (m : P → Prog U unit) : Prog U bytes :=
  p ← deserialize_params dec params; _ ← m p; mret [].
(** Decode the parameters, run the method, encode its result. *)
Definition call_ret {U P R} `{!Dec P, !Enc R} (params : bytes) (m : P → Prog U R) : Prog U bytes :=
  p ← deserialize_params dec params; r ← m p; mret (enc r).

Section dispatch.
Context {U : Type} (G : U → Z → Message → Prop) (I : U → Prop) (rt : Ctx).
Notation post := (λ _ _ _, True).

Lemma call_unit_wp {P} `{!Dec P} (params : bytes) (m : P → Prog U unit) (u : U) (b : Z) :
  (∀ p, dec params = Some p → wp G I rt (m p) u b post) → wp G I rt (call_unit params m) u b post.
Proof. intros Hm. unfold call_unit. do 3 wp_step. eapply wp_mono; [|by apply Hm]. done. Qed.
Lemma call_ret_wp {P R} `{!Dec P, !Enc R} (params : bytes) (m : P → Prog U R) (u : U) (b : Z) :
  (∀ p, dec params = Some p → wp G I rt (m p) u b post) → wp G I rt (call_ret params m) u b post.
Proof. intros Hm. unfold call_ret. do 3 wp_step. eapply wp_mono; [|by apply Hm]. done. Qed.

(** Weaker demands on the sends. *)
Lemma wp_weaken {A} (G' : U → Z → Message → Prop) (p : Prog U A) (u : U) (b : Z) Q :
  (∀ u b m, G u b m → G' u b m) → wp G I rt p u b Q → wp G' I rt p u b Q.
Proof.
  intros HG. revert u b.
  induction p as [[?|?]|? IH|? ? IH|? ? IH|? IH|? ? IH|? ? IH|? ? IH|? IH|? IH|? ? IH
                 |? ? ? ? ? IH|? IH|? ? ? IH|? ? IH|? IH|? ? IH|? ? IH]; intros u' b' H; cbn in *; destruct_and?; eauto 8.
Qed.

End dispatch.
