(* ===== verification/Types.v ===== *)
(** * Types shared by the actors: sectors, proofs, pieces, deadlines

    [src/types/src]: sector sizes and registered proofs, padded and unpadded
    piece sizes, quantisation of epochs, proving deadlines; and the padding of
    pieces in [src/vm/runtime/src/lib.rs]. *)

From S2P Require Import Prelude.

(** ** [sector/mod.rs], [sector/registered_proof.rs] *)

Definition MAX_SECTOR_NUMBER : Z := i64_max.

Inductive SectorSize := S2KiB | S8MiB | S512MiB | S32GiB | S64GiB.
Definition sector_size_bytes (s : SectorSize) : Z :=
  match s with
  | S2KiB => Z.shiftl 2 10 | S8MiB => Z.shiftl 8 20 | S512MiB => Z.shiftl 512 20
  | S32GiB => Z.shiftl 32 30 | S64GiB => 2 * Z.shiftl 32 30
  end.

Inductive RegisteredSealProof :=
| StackedDRG2KiBV1 | StackedDRG512MiBV1 | StackedDRG8MiBV1 | StackedDRG32GiBV1 | StackedDRG64GiBV1
| StackedDRG2KiBV1P1 | StackedDRG512MiBV1P1 | StackedDRG8MiBV1P1 | StackedDRG32GiBV1P1
| StackedDRG64GiBV1P1 | InvalidSeal (i : Z).

Inductive RegisteredPoStProof :=
| StackedDRGWinning2KiBV1 | StackedDRGWinning8MiBV1 | StackedDRGWinning512MiBV1
| StackedDRGWinning32GiBV1 | StackedDRGWinning64GiBV1
| StackedDRGWindow2KiBV1 | StackedDRGWindow8MiBV1 | StackedDRGWindow512MiBV1
| StackedDRGWindow32GiBV1 | StackedDRGWindow64GiBV1 | InvalidPoSt (i : Z).

Inductive RegisteredAggregateProof := SnarkPackV1 | InvalidAggregate (i : Z).

#[global] Instance sector_size_eq_dec : EqDecision SectorSize.
Proof. solve_decision. Defined.
#[global] Instance seal_proof_eq_dec : EqDecision RegisteredSealProof.
Proof. solve_decision. Defined.
#[global] Instance post_proof_eq_dec : EqDecision RegisteredPoStProof.
Proof. solve_decision. Defined.

(** A proof of spacetime with its type ([types/src/sector/post.rs]). *)
Record PoStProof := { post_proof : RegisteredPoStProof; proof_bytes : list Z }.
#[global] Instance post_proof_data_eq_dec : EqDecision PoStProof.
Proof. solve_decision. Defined.

(** [Err(unsupported proof type)]. *)
Inductive TypesError := UnsupportedProof (i : Z) | MinimumPieceSize | PieceSizeNotPower.

Definition from_sector_size (size : SectorSize) (network_version : Z) : RegisteredSealProof :=
  if network_version <? 7 then
    match size with
    | S2KiB => StackedDRG2KiBV1 | S8MiB => StackedDRG8MiBV1 | S512MiB => StackedDRG512MiBV1
    | S32GiB => StackedDRG32GiBV1 | S64GiB => StackedDRG64GiBV1
    end
  else
    match size with
    | S2KiB => StackedDRG2KiBV1P1 | S8MiB => StackedDRG8MiBV1P1 | S512MiB => StackedDRG512MiBV1P1
    | S32GiB => StackedDRG32GiBV1P1 | S64GiB => StackedDRG64GiBV1P1
    end.

Definition update_to_v1 (p : RegisteredSealProof) : RegisteredSealProof :=
  match p with
  | StackedDRG2KiBV1 => StackedDRG2KiBV1P1 | StackedDRG512MiBV1 => StackedDRG512MiBV1P1
  | StackedDRG8MiBV1 => StackedDRG8MiBV1P1 | StackedDRG32GiBV1 => StackedDRG32GiBV1P1
  | StackedDRG64GiBV1 => StackedDRG64GiBV1P1 | _ => p
  end.

Definition seal_proof_size (p : RegisteredSealProof) : result TypesError Z :=
  match p with
  | StackedDRG2KiBV1 | StackedDRG512MiBV1 | StackedDRG8MiBV1
  | StackedDRG2KiBV1P1 | StackedDRG512MiBV1P1 | StackedDRG8MiBV1P1 => Ok 192
  | StackedDRG32GiBV1 | StackedDRG64GiBV1 | StackedDRG32GiBV1P1 | StackedDRG64GiBV1P1 => Ok 1920
  | InvalidSeal i => Err (UnsupportedProof i)
  end.

Definition post_sector_size (p : RegisteredPoStProof) : result TypesError SectorSize :=
  match p with
  | StackedDRGWindow2KiBV1 | StackedDRGWinning2KiBV1 => Ok S2KiB
  | StackedDRGWindow8MiBV1 | StackedDRGWinning8MiBV1 => Ok S8MiB
  | StackedDRGWindow512MiBV1 | StackedDRGWinning512MiBV1 => Ok S512MiB
  | StackedDRGWindow32GiBV1 | StackedDRGWinning32GiBV1 => Ok S32GiB
  | StackedDRGWindow64GiBV1 | StackedDRGWinning64GiBV1 => Ok S64GiB
  | InvalidPoSt i => Err (UnsupportedProof i)
  end.

Definition registered_seal_proof (p : RegisteredPoStProof) : result TypesError RegisteredSealProof :=
  match p with
  | StackedDRGWindow64GiBV1 | StackedDRGWinning64GiBV1 => Ok StackedDRG64GiBV1
  | StackedDRGWindow32GiBV1 | StackedDRGWinning32GiBV1 => Ok StackedDRG32GiBV1
  | StackedDRGWindow2KiBV1 | StackedDRGWinning2KiBV1 => Ok StackedDRG2KiBV1
  | StackedDRGWindow8MiBV1 | StackedDRGWinning8MiBV1 => Ok StackedDRG8MiBV1
  | StackedDRGWindow512MiBV1 | StackedDRGWinning512MiBV1 => Ok StackedDRG512MiBV1
  | InvalidPoSt i => Err (UnsupportedProof i)
  end.

Definition post_window_partitions_sector (p : RegisteredPoStProof) : result TypesError Z :=
  match p with
  | StackedDRGWinning64GiBV1 | StackedDRGWindow64GiBV1 => Ok 2300
  | StackedDRGWinning32GiBV1 | StackedDRGWindow32GiBV1 => Ok 2349
  | StackedDRGWinning2KiBV1 | StackedDRGWindow2KiBV1
  | StackedDRGWinning8MiBV1 | StackedDRGWindow8MiBV1
  | StackedDRGWinning512MiBV1 | StackedDRGWindow512MiBV1 => Ok 2
  | InvalidPoSt i => Err (UnsupportedProof i)
  end.

Definition seal_sector_size (p : RegisteredSealProof) : result TypesError SectorSize :=
  match p with
  | StackedDRG2KiBV1 | StackedDRG2KiBV1P1 => Ok S2KiB
  | StackedDRG8MiBV1 | StackedDRG8MiBV1P1 => Ok S8MiB
  | StackedDRG512MiBV1 | StackedDRG512MiBV1P1 => Ok S512MiB
  | StackedDRG32GiBV1 | StackedDRG32GiBV1P1 => Ok S32GiB
  | StackedDRG64GiBV1 | StackedDRG64GiBV1P1 => Ok S64GiB
  | InvalidSeal i => Err (UnsupportedProof i)
  end.

Definition seal_window_partitions_sector (p : RegisteredSealProof) : result TypesError Z :=
  match p with
  | StackedDRG64GiBV1 | StackedDRG64GiBV1P1 => Ok 2300
  | StackedDRG32GiBV1 | StackedDRG32GiBV1P1 => Ok 2349
  | StackedDRG2KiBV1 | StackedDRG2KiBV1P1 | StackedDRG8MiBV1 | StackedDRG8MiBV1P1
  | StackedDRG512MiBV1 | StackedDRG512MiBV1P1 => Ok 2
  | InvalidSeal i => Err (UnsupportedProof i)
  end.

Definition registered_winning_post_proof (p : RegisteredSealProof) : result TypesError RegisteredPoStProof :=
  match p with
  | StackedDRG64GiBV1 | StackedDRG64GiBV1P1 => Ok StackedDRGWinning64GiBV1
  | StackedDRG32GiBV1 | StackedDRG32GiBV1P1 => Ok StackedDRGWinning32GiBV1
  | StackedDRG2KiBV1 | StackedDRG2KiBV1P1 => Ok StackedDRGWinning2KiBV1
  | StackedDRG8MiBV1 | StackedDRG8MiBV1P1 => Ok StackedDRGWinning8MiBV1
  | StackedDRG512MiBV1 | StackedDRG512MiBV1P1 => Ok StackedDRGWinning512MiBV1
  | InvalidSeal i => Err (UnsupportedProof i)
  end.

Definition registered_window_post_proof (p : RegisteredSealProof) : result TypesError RegisteredPoStProof :=
  match p with
  | StackedDRG64GiBV1 | StackedDRG64GiBV1P1 => Ok StackedDRGWindow64GiBV1
  | StackedDRG32GiBV1 | StackedDRG32GiBV1P1 => Ok StackedDRGWindow32GiBV1
  | StackedDRG2KiBV1 | StackedDRG2KiBV1P1 => Ok StackedDRGWindow2KiBV1
  | StackedDRG8MiBV1 | StackedDRG8MiBV1P1 => Ok StackedDRGWindow8MiBV1
  | StackedDRG512MiBV1 | StackedDRG512MiBV1P1 => Ok StackedDRGWindow512MiBV1
  | InvalidSeal i => Err (UnsupportedProof i)
  end.

(** The conversions to and from [i64]. *)
Definition post_from_i64 (v : Z) : RegisteredPoStProof :=
  match v with
  | 0 => StackedDRGWinning2KiBV1 | 1 => StackedDRGWinning8MiBV1 | 2 => StackedDRGWinning512MiBV1
  | 3 => StackedDRGWinning32GiBV1 | 4 => StackedDRGWinning64GiBV1
  | 5 => StackedDRGWindow2KiBV1 | 6 => StackedDRGWindow8MiBV1 | 7 => StackedDRGWindow512MiBV1
  | 8 => StackedDRGWindow32GiBV1 | 9 => StackedDRGWindow64GiBV1
  | other => InvalidPoSt other
  end.
Definition post_to_i64 (p : RegisteredPoStProof) : Z :=
  match p with
  | StackedDRGWinning2KiBV1 => 0 | StackedDRGWinning8MiBV1 => 1 | StackedDRGWinning512MiBV1 => 2
  | StackedDRGWinning32GiBV1 => 3 | StackedDRGWinning64GiBV1 => 4
  | StackedDRGWindow2KiBV1 => 5 | StackedDRGWindow8MiBV1 => 6 | StackedDRGWindow512MiBV1 => 7
  | StackedDRGWindow32GiBV1 => 8 | StackedDRGWindow64GiBV1 => 9
  | InvalidPoSt other => other
  end.
Definition seal_from_i64 (v : Z) : RegisteredSealProof :=
  match v with
  | 0 => StackedDRG2KiBV1 | 1 => StackedDRG8MiBV1 | 2 => StackedDRG512MiBV1
  | 3 => StackedDRG32GiBV1 | 4 => StackedDRG64GiBV1
  | 5 => StackedDRG2KiBV1P1 | 6 => StackedDRG8MiBV1P1 | 7 => StackedDRG512MiBV1P1
  | 8 => StackedDRG32GiBV1P1 | 9 => StackedDRG64GiBV1P1
  | other => InvalidSeal other
  end.
Definition seal_to_i64 (p : RegisteredSealProof) : Z :=
  match p with
  | StackedDRG2KiBV1 => 0 | StackedDRG8MiBV1 => 1 | StackedDRG512MiBV1 => 2
  | StackedDRG32GiBV1 => 3 | StackedDRG64GiBV1 => 4
  | StackedDRG2KiBV1P1 => 5 | StackedDRG8MiBV1P1 => 6 | StackedDRG512MiBV1P1 => 7
  | StackedDRG32GiBV1P1 => 8 | StackedDRG64GiBV1P1 => 9
  | InvalidSeal other => other
  end.
Definition aggregate_from_i64 (v : Z) : RegisteredAggregateProof :=
  match v with 0 => SnarkPackV1 | other => InvalidAggregate other end.
Definition aggregate_to_i64 (p : RegisteredAggregateProof) : Z :=
  match p with SnarkPackV1 => 0 | InvalidAggregate other => other end.

(** ** [piece/mod.rs] *)

(** [u64::trailing_zeros] and [u64::count_ones]. *)
Fixpoint trailing_zeros_pos (p : positive) : Z :=
  match p with xO p => 1 + trailing_zeros_pos p | _ => 0 end.
Definition trailing_zeros (z : Z) : Z :=
  match z with Zpos p => trailing_zeros_pos p | _ => 64 end.
Fixpoint count_ones_pos (p : positive) : nat :=
  match p with xO p => count_ones_pos p | xI p => S (count_ones_pos p) | xH => 1%nat end.
Definition count_ones (z : Z) : nat :=
  match z with Zpos p => count_ones_pos p | _ => 0%nat end.

Definition padded (unpadded : Z) : Z := unpadded + unpadded / 127.
Definition unpadded_validate (size : Z) : result TypesError unit :=
  if size <? 127 then Err MinimumPieceSize
  else if negb (Z.shiftr size (trailing_zeros size) =? 127) then Err PieceSizeNotPower
  else Ok tt.
Definition unpadded (padded : Z) : Z := padded - padded / 128.
Definition padded_validate (size : Z) : result TypesError unit :=
  if size <? 128 then Err MinimumPieceSize
  else if negb (count_ones size =? 1)%nat then Err PieceSizeNotPower
  else Ok tt.

(** ** [deadlines/quantize.rs]: [%] and [/] on [i64] truncate *)

Record QuantSpec := { q_unit : Z; q_offset : Z }.
Definition NO_QUANTIZATION : QuantSpec := {| q_unit := 1; q_offset := 0 |}.

Definition quantize_up (q : QuantSpec) (epoch : Z) : Z :=
  let offset := Z.rem (q_offset q) (q_unit q) in
  let remainder := Z.rem (epoch - offset) (q_unit q) in
  let quotient := Z.quot (epoch - offset) (q_unit q) in
  if (remainder =? 0) || (epoch - offset <? 0) then q_unit q * quotient + offset
  else q_unit q * (quotient + 1) + offset.

Definition quantize_down (q : QuantSpec) (epoch : Z) : Z :=
  let next := quantize_up q epoch in
  if epoch =? next then next else next - q_unit q.

(** ** [deadlines/mod.rs] *)

Record DeadlineInfo := {
  d_current_epoch : Z; d_period_start : Z; d_index : Z; d_open : Z; d_close : Z;
  d_challenge : Z; d_fault_cutoff : Z;
  w_post_period_deadlines : Z; w_post_proving_period : Z; w_post_challenge_window : Z;
  w_post_challenge_lookback : Z; fault_declaration_cutoff : Z }.

Definition deadline_info_new (period_start deadline_idx current_epoch deadlines proving_period
    challenge_window challenge_lookback cutoff : Z) : DeadlineInfo :=
  if deadline_idx <? deadlines then
    let deadline_open := period_start + deadline_idx * challenge_window in
    {| d_current_epoch := current_epoch; d_period_start := period_start; d_index := deadline_idx;
       d_open := deadline_open; d_close := deadline_open + challenge_window;
       d_challenge := deadline_open - challenge_lookback; d_fault_cutoff := deadline_open - cutoff;
       w_post_period_deadlines := deadlines; w_post_proving_period := proving_period;
       w_post_challenge_window := challenge_window; w_post_challenge_lookback := challenge_lookback;
       fault_declaration_cutoff := cutoff |}
  else
    let after_last_deadline := period_start + proving_period in
    {| d_current_epoch := current_epoch; d_period_start := period_start; d_index := deadline_idx;
       d_open := after_last_deadline; d_close := after_last_deadline;
       d_challenge := after_last_deadline; d_fault_cutoff := 0;
       w_post_period_deadlines := deadlines; w_post_proving_period := proving_period;
       w_post_challenge_window := challenge_window; w_post_challenge_lookback := challenge_lookback;
       fault_declaration_cutoff := cutoff |}.

Definition next_period_start (d : DeadlineInfo) : Z := d_period_start d + w_post_proving_period d.
Definition period_started (d : DeadlineInfo) : bool := d_period_start d <=? d_current_epoch d.
Definition period_elapsed (d : DeadlineInfo) : bool := next_period_start d <=? d_current_epoch d.
Definition period_end (d : DeadlineInfo) : Z := d_period_start d + w_post_proving_period d - 1.
Definition is_open (d : DeadlineInfo) : bool :=
  (d_open d <=? d_current_epoch d) && (d_current_epoch d <? d_close d).
Definition has_elapsed (d : DeadlineInfo) : bool := d_close d <=? d_current_epoch d.
Definition deadline_last (d : DeadlineInfo) : Z := d_close d - 1.
Definition next_open (d : DeadlineInfo) : Z := d_close d.
Definition fault_cutoff_passed (d : DeadlineInfo) : bool := d_fault_cutoff d <=? d_current_epoch d.
Definition deadline_quant_spec (d : DeadlineInfo) : QuantSpec :=
  {| q_unit := w_post_proving_period d; q_offset := deadline_last d |}.

(** The instance of the same deadline one proving period later. *)
Definition next_instance (d : DeadlineInfo) : DeadlineInfo :=
  deadline_info_new (next_period_start d) (d_index d) (d_current_epoch d)
    (w_post_period_deadlines d) (w_post_proving_period d) (w_post_challenge_window d)
    (w_post_challenge_lookback d) (fault_declaration_cutoff d).

(** [successors(..).find(..)]: [None] when the fuel is too small. *)
Fixpoint find_not_elapsed (fuel : nat) (d : DeadlineInfo) : option DeadlineInfo :=
  match fuel with
  | O => None
  | S fuel => if negb (has_elapsed d) then Some d else find_not_elapsed fuel (next_instance d)
  end.
(** One step for the deadline itself and one for every epoch that passed since it closed. *)
Definition next_not_elapsed (d : DeadlineInfo) : option DeadlineInfo :=
  find_not_elapsed (S (S (Z.to_nat (d_current_epoch d - d_close d)))) d.

(** ** Padding of pieces ([get_required_padding], [compute_unsealed_sector_cid]) *)

Fixpoint pad_loop (n : nat) (to_fill sum : Z) : list Z * Z :=
  match n with
  | O => ([], sum)
  | S n =>
      let p_size := Z.shiftl 1 (trailing_zeros to_fill) in
      let '(rest, sum') := pad_loop n (Z.lxor to_fill p_size) (sum + p_size) in
      (p_size :: rest, sum')
  end.

Definition get_required_padding (old_length new_piece_length : Z) : list Z * Z :=
  let to_fill := wrap_u64 (0 - old_length) mod new_piece_length in
  pad_loop (count_ones to_fill) to_fill 0.

(** The sizes handed to the proofs library: zero pieces and the pieces of the
    deal, in order.  [inl] is a zero piece, [inr] one of the arguments. *)
Fixpoint pad_pieces (pieces : list Z) (sum : Z) : list (Z + Z) * Z :=
  match pieces with
  | [] => ([], sum)
  | p :: pieces =>
      let ps := fst (get_required_padding sum p) in
      let sum := sum + zsum ps in
      let '(rest, total) := pad_pieces pieces (sum + p) in
      (map inl ps ++ inr p :: rest, total)
  end.

Definition unsealed_sector_pieces (sector_size : Z) (pieces : list Z) : list (Z + Z) :=
  match pieces with
  | [] => [inl sector_size]
  | _ =>
      let '(all, sum) := pad_pieces pieces 0 in
      all ++ map inl (fst (get_required_padding sum sector_size))
  end.

(** ** Lemmas *)

Lemma trailing_zeros_pos_nonneg p : 0 ≤ trailing_zeros_pos p.
Proof. induction p; cbn; lia. Qed.

Lemma count_ones_double z : 0 ≤ z → count_ones (2 * z) = count_ones z.
Proof. by destruct z. Qed.

(** Clearing the lowest bit of a positive number by exclusive or subtracts it
    and leaves one bit less. *)
Lemma clear_lowest p :
  let low := Z.shiftl 1 (trailing_zeros_pos p) in
  Z.lxor (Zpos p) low = Zpos p - low ∧ 0 ≤ Zpos p - low ∧ (low | Zpos p) ∧
  count_ones_pos p = S (count_ones (Zpos p - low)).
Proof.
  induction p as [p _|p IH|]; cbn [trailing_zeros_pos count_ones_pos].
  - rewrite Z.shiftl_0_r. split; [done|]. split; [lia|].
    split; [apply Z.divide_1_l|]. replace (Zpos p~1 - 1) with (2 * Zpos p) by lia.
    by rewrite count_ones_double.
  - destruct IH as (Hx & Hle & Hd & Hc). pose proof (trailing_zeros_pos_nonneg p).
    replace (Z.shiftl 1 (1 + trailing_zeros_pos p)) with (2 * Z.shiftl 1 (trailing_zeros_pos p))
      by (rewrite !Z.shiftl_1_l, Z.pow_add_r by lia; lia).
    set (low := Z.shiftl 1 (trailing_zeros_pos p)) in *.
    replace (Zpos p~0) with (2 * Zpos p) by lia.
    replace (2 * Zpos p - 2 * low) with (2 * (Zpos p - low)) by lia.
    rewrite count_ones_double by done. split_and!; [|lia|by apply Z.mul_divide_mono_l|done].
    rewrite (Z.mul_comm 2 (Zpos p)), (Z.mul_comm 2 low).
    change 2 with (2 ^ 1) at 1 2. rewrite <-!Z.shiftl_mul_pow2, <-Z.shiftl_lxor, Hx by lia.
    rewrite Z.shiftl_mul_pow2 by lia. lia.
  - split_and!; [done|by vm_compute|apply Z.divide_refl|done].
Qed.

(** A layout of consecutive pieces in which each starts at a multiple of its size. *)
Fixpoint aligned (off : Z) (l : list Z) : Prop :=
  match l with [] => True | p :: l => (p | off) ∧ aligned (off + p) l end.

Lemma aligned_app off l1 l2 : aligned off (l1 ++ l2) ↔ aligned off l1 ∧ aligned (off + zsum l1) l2.
Proof.
  revert off; induction l1 as [|p l1 IH]; intros off; cbn; [rewrite Z.add_0_r; tauto|].
  rewrite IH. unfold zsum. rewrite Z.add_assoc. tauto.
Qed.

Definition is_pow2 (z : Z) : Prop := ∃ k, 0 ≤ k < 64 ∧ z = 2 ^ k.

Lemma pow2_divide a b : 0 ≤ a ≤ b → (2 ^ a | 2 ^ b).
Proof. intros [??]. exists (2 ^ (b - a)). rewrite <-Z.pow_add_r by lia. f_equal. lia. Qed.

Lemma pad_loop_sum n t s ps s' : pad_loop n t s = (ps, s') → s' = s + zsum ps.
Proof.
  revert t s ps s'; induction n as [|n IH]; intros t s ps s'; cbn; [intros [= <- <-]; cbn; lia|].
  destruct (pad_loop n _ _) as [rest sum'] eqn:E. intros [= <- <-]. apply IH in E. cbn. fold (zsum rest). lia.
Qed.

Lemma pad_loop_spec n t s off k :
  count_ones t = n → 0 ≤ t < 2 ^ k → 0 ≤ k < 64 → (2 ^ k | off + t) →
  zsum (fst (pad_loop n t s)) = t ∧ aligned off (fst (pad_loop n t s)) ∧
  Forall is_pow2 (fst (pad_loop n t s)).
Proof.
  revert t s off. induction n as [|n IH]; intros t s off Hn Ht Hk Hd; cbn.
  - destruct t as [|p|p]; [done| |lia]. cbn in Hn. by destruct (clear_lowest p) as (_ & _ & _ & ?); congruence.
  - destruct t as [|p|p]; [done| |lia]. cbn in Hn. destruct (clear_lowest p) as (Hx & Hle & Hlow & Hc).
    cbn [trailing_zeros]. rewrite Hx. set (low := Z.shiftl 1 (trailing_zeros_pos p)) in *.
    pose proof (trailing_zeros_pos_nonneg p) as Htz.
    assert (Hlow2 : low = 2 ^ trailing_zeros_pos p) by (unfold low; apply Z.shiftl_1_l).
    assert (trailing_zeros_pos p < k).
    { apply (Z.pow_lt_mono_r_iff 2); lia. }
    destruct (IH (Zpos p - low) (s + low) (off + low)) as (Hs & Ha & Hp).
    { congruence. } { lia. } { done. } { by replace (off + low + (Zpos p - low)) with (off + Zpos p) by lia. }
    destruct (pad_loop n _ _) as [rest sum'] eqn:E. cbn in *. split_and!; [lia| |done|].
    + apply (Z.divide_add_cancel_r _ (Zpos p)); [done|]. rewrite Z.add_comm.
      eapply Z.divide_trans; [|exact Hd]. rewrite Hlow2. apply pow2_divide. lia.
    + constructor; [|done]. exists (trailing_zeros_pos p). split; [lia|done].
Qed.

Lemma required_padding_spec off p :
  0 ≤ off < 2 ^ 64 → is_pow2 p →
  let pads := fst (get_required_padding off p) in
  (p | off + zsum pads) ∧ 0 ≤ zsum pads < p ∧ aligned off pads ∧ Forall is_pow2 pads.
Proof.
  intros Hoff (k & Hk & ->). unfold get_required_padding. set (t := wrap_u64 (0 - off) mod 2 ^ k).
  assert (Ht : 0 ≤ t < 2 ^ k) by (apply Z.mod_pos_bound; lia).
  assert (Hd : (2 ^ k | off + t)).
  { assert (Ht' : t = (- off) mod 2 ^ k).
    { unfold t, wrap_u64. rewrite <-Znumtheory.Zmod_div_mod; [done|lia|lia|]. apply pow2_divide; lia. }
    apply Z.mod_divide; [lia|]. rewrite Ht', Z.add_mod_idemp_r by lia. by rewrite Z.add_opp_diag_r. }
  destruct (pad_loop_spec (count_ones t) t 0 off k) as (Hs & Ha & Hp); try done.
  cbn zeta. rewrite Hs. done.
Qed.

Definition piece_size (p : Z + Z) : Z := match p with inl z | inr z => z end.

Lemma map_size_inl ps : map piece_size (map inl ps) = ps.
Proof. induction ps as [|p ps IH]; cbn; congruence. Qed.

Lemma omap_inl (ps : list Z) : omap (λ p : Z + Z, match p with inr z => Some z | inl _ => None end) (map inl ps) = [].
Proof. by induction ps. Qed.

Lemma pad_pieces_spec pieces off all total :
  0 ≤ off → Forall is_pow2 pieces → off + 2 * zsum pieces < 2 ^ 64 →
  pad_pieces pieces off = (all, total) →
  total = off + zsum (map piece_size all) ∧ off + zsum pieces ≤ total ≤ off + 2 * zsum pieces ∧
  aligned off (map piece_size all) ∧
  omap (λ p, match p with inr z => Some z | inl _ => None end) all = pieces.
Proof.
  revert off all total. induction pieces as [|p pieces IH]; intros off all total Hoff Hp Hlt; cbn.
  { intros [= <- <-]. cbn. by rewrite !Z.add_0_r. }
  inversion Hp as [|? ? Hp1 Hp2]; subst. cbn in Hlt. fold (zsum pieces) in *.
  destruct (pad_pieces pieces _) as [rest total'] eqn:E. intros [= <- <-].
  assert (Hpos : 0 < p) by (destruct Hp1 as (k & ? & ->); lia).
  assert (Hps : 0 ≤ zsum pieces).
  { clear -Hp2. induction pieces as [|x l IH]; [done|]. inversion Hp2 as [|? ? (k & ? & ->) Hl]; subst. specialize (IH Hl). cbn. fold (zsum l). lia. }
  destruct (required_padding_spec off p) as (Hd & Hb & Ha & _); [lia|done|].
  set (pads := fst (get_required_padding off p)) in *.
  apply IH in E as (Htot & Hle & Hal & Hom); [|lia|done|lia].
  rewrite map_app, map_size_inl, omap_app, omap_inl, zsum_app, aligned_app. cbn. fold (zsum pieces).
  rewrite Hom. fold (zsum (map piece_size rest)). split_and!; try done; lia.
Qed.

Lemma quantize_up_spec q e :
  0 < q_unit q → let r := quantize_up q e in
  (q_unit q | r - q_offset q) ∧ e ≤ r < e + q_unit q.
Proof.
  intros Hu. unfold quantize_up. set (n := q_unit q) in *. set (o := Z.rem (q_offset q) n).
  assert (Ho : (n | o - q_offset q)).
  { exists (- Z.quot (q_offset q) n). pose proof (Z.quot_rem' (q_offset q) n). unfold o. lia. }
  pose proof (Z.quot_rem' (e - o) n) as He.
  set (m := Z.quot (e - o) n) in *. set (r := Z.rem (e - o) n) in *.
  assert (Hr : e - o < 0 → - n < r ≤ 0) by (intros; unfold r; destruct (Z.rem_bound_pos_neg (e - o) n); lia).
  assert (Hr' : 0 ≤ e - o → 0 ≤ r < n) by (intros; apply Z.rem_bound_pos; lia).
  destruct Ho as [j Hj]. case_if; reflect_bools; cbn zeta.
  - split; [exists (m + j); lia|]. destruct (decide (e - o < 0)); destruct E; reflect_bools; lia.
  - split; [exists (m + 1 + j); lia|]. lia.
Qed.

(** Each later instance of a deadline closes one proving period after the one before. *)
Definition deadline_wf (d : DeadlineInfo) : Prop :=
  0 < w_post_proving_period d ∧
  d = deadline_info_new (d_period_start d) (d_index d) (d_current_epoch d)
        (w_post_period_deadlines d) (w_post_proving_period d) (w_post_challenge_window d)
        (w_post_challenge_lookback d) (fault_declaration_cutoff d).

Definition deadline_params (d : DeadlineInfo) : Z * Z * Z * Z * Z * Z * Z :=
  (d_index d, d_current_epoch d, w_post_period_deadlines d, w_post_proving_period d,
   w_post_challenge_window d, w_post_challenge_lookback d, fault_declaration_cutoff d).

Lemma next_instance_spec d :
  deadline_wf d →
  deadline_wf (next_instance d) ∧ deadline_params (next_instance d) = deadline_params d ∧
  d_close (next_instance d) = d_close d + w_post_proving_period d ∧
  d_period_start (next_instance d) = d_period_start d + w_post_proving_period d.
Proof.
  intros [Hp Hd]. unfold next_instance, deadline_wf.
  assert (Hc : d_close d = if d_index d <? w_post_period_deadlines d
     then d_period_start d + d_index d * w_post_challenge_window d + w_post_challenge_window d
     else d_period_start d + w_post_proving_period d).
  { rewrite Hd at 1. unfold deadline_info_new. by case_if. }
  rewrite Hc. unfold deadline_info_new, next_period_start. case_if; cbn.
  all: rewrite ?(proj2 (Z.ltb_lt _ _) E), ?(proj2 (Z.ltb_ge _ _) E); split_and!; try done; lia.
Qed.

Lemma find_not_elapsed_spec fuel d :
  deadline_wf d → d_current_epoch d - d_close d < Z.of_nat fuel - 1 → (1 ≤ fuel)%nat →
  ∃ d' n, find_not_elapsed fuel d = Some d' ∧ 0 ≤ n ∧
    deadline_params d' = deadline_params d ∧ deadline_wf d' ∧ has_elapsed d' = false ∧
    d_close d' = d_close d + n * w_post_proving_period d ∧
    d_period_start d' = d_period_start d + n * w_post_proving_period d ∧
    (n = 0 ∨ d_close d' - w_post_proving_period d ≤ d_current_epoch d).
Proof.
  revert d. induction fuel as [|fuel IH]; intros d Hwf Hf H1; [lia|]. cbn.
  destruct (has_elapsed d) eqn:He; cbn.
  - destruct (next_instance_spec d Hwf) as (Hwf' & Hpar & Hclose & Hstart).
    assert (Hcur : d_current_epoch (next_instance d) = d_current_epoch d) by (unfold deadline_params in Hpar; congruence).
    assert (Hper : w_post_proving_period (next_instance d) = w_post_proving_period d) by (unfold deadline_params in Hpar; congruence).
    unfold has_elapsed in He. reflect_bools. destruct Hwf as [Hpos _].
    destruct (IH (next_instance d) Hwf') as (d' & n & Hfd & Hn & Hp' & Hw' & He' & Hc' & Hs' & Hlast); [lia|lia|].
    exists d', (n + 1). rewrite Hper, Hcur in *. split_and!; try done; try lia.
    congruence.
  - exists d, 0. split_and!; try done; try lia.
Qed.

(** ** Theorems *)

(** Quantisation: [quantize_up] is the least epoch at or after the given
    one, and [quantize_down] the greatest at or before it, that is congruent to
    the offset modulo the unit, for offsets and epochs of either sign. *)
Theorem quantize_correct (q : QuantSpec) (epoch : Z) :
  0 < q_unit q →
  (∀ x, quantize_up q epoch = x ↔ (q_unit q | x - q_offset q) ∧ epoch ≤ x < epoch + q_unit q) ∧
  (∀ x, quantize_down q epoch = x ↔ (q_unit q | x - q_offset q) ∧ epoch - q_unit q < x ≤ epoch).
Proof.
  intros Hu. destruct (quantize_up_spec q epoch Hu) as [[i Hi] Hr].
  assert (Huniq : ∀ a x y, (q_unit q | x - q_offset q) → (q_unit q | y - q_offset q) →
    a ≤ x < a + q_unit q → a ≤ y < a + q_unit q → x = y).
  { intros a x y [j Hj] [k Hk] ??. assert (j = k) as -> by nia. lia. }
  split; intros x.
  - split; [intros <-; split; [by exists i|done]|].
    intros [Hd Hx]. eapply Huniq; [by exists i|done..].
  - assert (Hdown : (q_unit q | quantize_down q epoch - q_offset q) ∧
      epoch - q_unit q < quantize_down q epoch ≤ epoch).
    { unfold quantize_down. case_if; [split; [by exists i|lia]|]. split; [exists (i - 1); lia|lia]. }
    split; [by intros <-|]. intros [Hd Hx]. destruct Hdown as [Hd' Hx'].
    apply (Huniq (epoch - q_unit q + 1)); [done..|lia|lia].
Qed.

Lemma quantize_correct_witness :
  quantize_up {| q_unit := 2880; q_offset := -59 |} (-3000) = -2939 ∧
  quantize_down {| q_unit := 2880; q_offset := -59 |} (-3000) = -5819.
Proof.
  destruct (quantize_correct {| q_unit := 2880; q_offset := -59 |} (-3000)) as [Hu Hd]; [done|].
  split; [apply Hu|apply Hd]; cbn; (split; [|lia]).
  - by exists (-1).
  - by exists (-2).
Defined.

(** [next_not_elapsed] always finds an instance, whatever the epoch: the
    first instance of the same deadline, at a whole number of proving periods
    after the given one, that has not closed. *)
Theorem next_not_elapsed_terminates (d : DeadlineInfo) :
  deadline_wf d →
  ∃ d' n, next_not_elapsed d = Some d' ∧ 0 ≤ n ∧ has_elapsed d' = false ∧
    deadline_wf d' ∧ deadline_params d' = deadline_params d ∧
    d_period_start d' = d_period_start d + n * w_post_proving_period d ∧
    d_close d' = d_close d + n * w_post_proving_period d ∧
    (has_elapsed d = false → d' = d) ∧
    (has_elapsed d = true → d_close d' - w_post_proving_period d ≤ d_current_epoch d).
Proof.
  intros Hwf. unfold next_not_elapsed.
  destruct (find_not_elapsed_spec (S (S (Z.to_nat (d_current_epoch d - d_close d)))) d)
    as (d' & n & Hf & Hn & Hp & Hw & He & Hc & Hs & Hlast); [done|lia|lia|].
  exists d', n. split_and!; try done.
  - intros Hel. cbn in Hf. rewrite Hel in Hf. cbn in Hf. congruence.
  - intros Hel. destruct Hlast as [->|]; [|done]. unfold has_elapsed in *. reflect_bools.
    assert (d_current_epoch d' = d_current_epoch d) by (unfold deadline_params in Hp; congruence). lia.
Qed.

Definition ex_deadline : DeadlineInfo := deadline_info_new 100 3 9000 48 2880 60 20 70.

Lemma next_not_elapsed_terminates_witness :
  ∃ d', next_not_elapsed ex_deadline = Some d' ∧ d_close d' = 11860 ∧ has_elapsed d' = false.
Proof.
  destruct (next_not_elapsed_terminates ex_deadline) as (d' & n & Hd & Hn & He & _ & _ & _ & Hc & _ & Hl).
  - split; [done|reflexivity].
  - exists d'. split_and!; [done| |done]. vm_compute in Hd. injection Hd as <-. reflexivity.
Defined.

(** C29.  The layout of a sector: the pieces handed to the proofs library
    contain the given pieces in order, fill whole sectors, and each piece, zero
    padding included, starts at a multiple of its own size. *)
Theorem unsealed_sector_layout (sector_size : Z) (pieces : list Z) :
  is_pow2 sector_size → Forall is_pow2 pieces → 2 * zsum pieces < 2 ^ 64 →
  let all := unsealed_sector_pieces sector_size pieces in
  aligned 0 (map piece_size all) ∧
  omap (λ p, match p with inr z => Some z | inl _ => None end) all = pieces ∧
  (sector_size | zsum (map piece_size all)) ∧
  zsum (map piece_size all) < 2 * zsum pieces + 2 * sector_size.
Proof.
  intros Hss Hp Hlt. unfold unsealed_sector_pieces.
  assert (0 < sector_size) by (destruct Hss as (k & ? & ->); lia).
  destruct pieces as [|p pieces].
  { cbn. split_and!; try done; [apply Z.divide_0_r|rewrite Z.add_0_r; apply Z.divide_refl|lia]. }
  destruct (pad_pieces (p :: pieces) 0) as [all sum] eqn:E.
  apply pad_pieces_spec in E as (Hsum & Hle & Ha & Hom); [|lia|done|lia].
  destruct (required_padding_spec sum sector_size) as (Hd & Hb & Hal & _); [|done|].
  { assert (0 ≤ zsum (p :: pieces)); [|lia].
    clear -Hp. induction Hp as [|x l (k & ? & ->) _ IH]; cbn; [done|]. fold (zsum l). lia. }
  cbn zeta. rewrite map_app, map_size_inl, omap_app, omap_inl, app_nil_r, zsum_app, aligned_app, Hom.
  rewrite Z.add_0_l in Hsum. rewrite <-Hsum, Z.add_0_l. split_and!; try done. lia.
Qed.

Lemma unsealed_sector_layout_witness :
  map piece_size (unsealed_sector_pieces 2048 [128; 512]) = [128; 128; 256; 512; 1024] ∧
  (2048 | zsum (map piece_size (unsealed_sector_pieces 2048 [128; 512]))).
Proof.
  split; [vm_compute; reflexivity|]. apply (unsealed_sector_layout 2048 [128; 512]); [by exists 11| |done].
  repeat constructor; [by exists 7|by exists 9].
Defined.
