(* ===== verification/Gas.v ===== *)
(** * Gas: charges, prices, and who pays for them

    [src/vm/interpreter/src/gas_tracker] and the gas accounting of
    [src/vm/interpreter/src/vm.rs]. *)

From S2P Require Import Prelude Runtime Types.

(** ** [gas_charge.rs], [gas_tracker/mod.rs] *)

Record GasCharge := { compute_gas : Z; storage_gas : Z }.
Definition gas_charge_new (compute storage : Z) : GasCharge :=
  {| compute_gas := compute; storage_gas := storage |}.
Definition charge_total (c : GasCharge) : Z := compute_gas c + storage_gas c.

Record GasTracker := { gas_available : Z; gas_used : Z }.

(** Out of gas uses up all of it. *)
Definition tracker_charge_gas (t : GasTracker) (charge : GasCharge) : GasTracker * result ActorError unit :=
  let to_use := charge_total charge in
  if gas_available t - to_use <? gas_used t then
    ({| gas_available := gas_available t; gas_used := gas_available t |}, Err (actor_error SysErrOutOfGas))
  else ({| gas_available := gas_available t; gas_used := gas_used t + to_use |}, Ok tt).

(** ** [price_list.rs] *)

Record ScalingCost := { sc_flat : Z; sc_scale : Z }.
Record Step := { st_start : Z; st_cost : Z }.

(** [StepCost::lookup]: the loop counts the steps that start at or before [x]. *)
Fixpoint steps_before (steps : list Step) (x : Z) : nat :=
  match steps with
  | [] => 0
  | s :: steps => if x <? st_start s then 0 else S (steps_before steps x)
  end.
Definition step_lookup (steps : list Step) (x : Z) : Z :=
  match steps_before steps x with
  | O => 0
  | S i => match steps !! i with Some s => st_cost s | None => 0 end
  end.

Record PriceList := {
  storage_gas_multiplier : Z;
  on_chain_message_compute_base : Z; on_chain_message_storage_base : Z;
  on_chain_message_storage_per_byte : Z; on_chain_return_value_per_byte : Z;
  send_base : Z; send_transfer_funds : Z; send_transfer_only_premium : Z; send_invoke_method : Z;
  ipld_get_base : Z; ipld_put_base : Z; ipld_put_per_byte : Z;
  create_actor_compute : Z; create_actor_storage : Z; price_delete_actor : Z;
  bls_sig_cost : Z; secp256k1_sig_cost : Z; hashing_base : Z;
  compute_unsealed_sector_cid_base : Z; verify_seal_base : Z;
  verify_aggregate_seal_per : list (RegisteredSealProof * Z);
  verify_aggregate_seal_steps : list (RegisteredSealProof * list Step);
  verify_post_lookup : list (RegisteredPoStProof * ScalingCost);
  verify_post_discount : bool; verify_consensus_fault : Z }.

Definition aggregate_seal_per : list (RegisteredSealProof * Z) :=
  [(StackedDRG32GiBV1P1, 449900); (StackedDRG64GiBV1P1, 359272)].
Definition aggregate_seal_steps : list (RegisteredSealProof * list Step) :=
  [(StackedDRG32GiBV1P1,
    [{| st_start := 4; st_cost := 103994170 |}; {| st_start := 7; st_cost := 112356810 |};
     {| st_start := 13; st_cost := 122912610 |}; {| st_start := 26; st_cost := 137559930 |};
     {| st_start := 52; st_cost := 162039100 |}; {| st_start := 103; st_cost := 210960780 |};
     {| st_start := 205; st_cost := 318351180 |}; {| st_start := 410; st_cost := 528274980 |}]);
   (StackedDRG64GiBV1P1,
    [{| st_start := 4; st_cost := 102581240 |}; {| st_start := 7; st_cost := 110803030 |};
     {| st_start := 13; st_cost := 120803700 |}; {| st_start := 26; st_cost := 134642130 |};
     {| st_start := 52; st_cost := 157357890 |}; {| st_start := 103; st_cost := 203017690 |};
     {| st_start := 205; st_cost := 304253590 |}; {| st_start := 410; st_cost := 509880640 |}])].

Definition BASE_PRICES : PriceList := {|
  storage_gas_multiplier := 1000;
  on_chain_message_compute_base := 38863; on_chain_message_storage_base := 36;
  on_chain_message_storage_per_byte := 1; on_chain_return_value_per_byte := 1;
  send_base := 29233; send_transfer_funds := 27500; send_transfer_only_premium := 159672;
  send_invoke_method := -5377;
  ipld_get_base := 75242; ipld_put_base := 84070; ipld_put_per_byte := 1;
  create_actor_compute := 1108454; create_actor_storage := 36 + 40; price_delete_actor := - (36 + 40);
  bls_sig_cost := 16598605; secp256k1_sig_cost := 1637292; hashing_base := 31355;
  compute_unsealed_sector_cid_base := 98647; verify_seal_base := 2000;
  verify_aggregate_seal_per := aggregate_seal_per;
  verify_aggregate_seal_steps := aggregate_seal_steps;
  verify_post_lookup :=
    [(StackedDRGWindow512MiBV1, {| sc_flat := 123861062; sc_scale := 9226981 |});
     (StackedDRGWindow32GiBV1, {| sc_flat := 748593537; sc_scale := 85639 |});
     (StackedDRGWindow64GiBV1, {| sc_flat := 748593537; sc_scale := 85639 |})];
  verify_post_discount := true; verify_consensus_fault := 495422 |}.

Definition CALICO_PRICES : PriceList := {|
  storage_gas_multiplier := 1300;
  on_chain_message_compute_base := 38863; on_chain_message_storage_base := 36;
  on_chain_message_storage_per_byte := 1; on_chain_return_value_per_byte := 1;
  send_base := 29233; send_transfer_funds := 27500; send_transfer_only_premium := 159672;
  send_invoke_method := -5377;
  ipld_get_base := 114617; ipld_put_base := 353640; ipld_put_per_byte := 1;
  create_actor_compute := 1108454; create_actor_storage := 36 + 40; price_delete_actor := - (36 + 40);
  bls_sig_cost := 16598605; secp256k1_sig_cost := 1637292; hashing_base := 31355;
  compute_unsealed_sector_cid_base := 98647; verify_seal_base := 2000;
  verify_aggregate_seal_per := aggregate_seal_per;
  verify_aggregate_seal_steps := aggregate_seal_steps;
  verify_post_lookup :=
    [(StackedDRGWindow512MiBV1, {| sc_flat := 117680921; sc_scale := 43780 |});
     (StackedDRGWindow32GiBV1, {| sc_flat := 117680921; sc_scale := 43780 |});
     (StackedDRGWindow64GiBV1, {| sc_flat := 117680921; sc_scale := 43780 |})];
  verify_post_discount := false; verify_consensus_fault := 495422 |}.

Definition UPGRADE_CALICO_HEIGHT : Z := 265200.
Definition price_list_by_epoch (epoch : Z) : PriceList :=
  if epoch <? UPGRADE_CALICO_HEIGHT then BASE_PRICES else CALICO_PRICES.

Section prices.
Context (pl : PriceList).

Definition on_chain_message (msg_size : Z) : GasCharge :=
  gas_charge_new (on_chain_message_compute_base pl)
    ((on_chain_message_storage_base pl + on_chain_message_storage_per_byte pl * msg_size)
      * storage_gas_multiplier pl).
Definition on_chain_return_value (data_size : Z) : GasCharge :=
  gas_charge_new 0 (data_size * on_chain_return_value_per_byte pl * storage_gas_multiplier pl).
Definition on_method_invocation (value method_num : Z) : GasCharge :=
  let ret := send_base pl in
  let ret := if negb (value =? 0) then
    let ret := ret + send_transfer_funds pl in
    if method_num =? METHOD_SEND then ret + send_transfer_only_premium pl else ret
    else ret in
  let ret := if negb (method_num =? METHOD_SEND) then ret + send_invoke_method pl else ret in
  gas_charge_new ret 0.
Definition on_ipld_get : GasCharge := gas_charge_new (ipld_get_base pl) 0.
Definition on_ipld_put (data_size : Z) : GasCharge :=
  gas_charge_new (ipld_put_base pl) (data_size * ipld_put_per_byte pl * storage_gas_multiplier pl).
Definition on_create_actor : GasCharge :=
  gas_charge_new (create_actor_compute pl) (create_actor_storage pl * storage_gas_multiplier pl).
Definition on_delete_actor : GasCharge :=
  gas_charge_new 0 (price_delete_actor pl * storage_gas_multiplier pl).
(** [true] for a BLS signature. *)
Definition on_verify_signature (bls : bool) : GasCharge :=
  gas_charge_new (if bls then bls_sig_cost pl else secp256k1_sig_cost pl) 0.
Definition on_hashing : GasCharge := gas_charge_new (hashing_base pl) 0.
Definition on_compute_unsealed_sector_cid : GasCharge :=
  gas_charge_new (compute_unsealed_sector_cid_base pl) 0.
Definition on_verify_seal : GasCharge := gas_charge_new (verify_seal_base pl) 0.

(** [AHashMap::get]; the tables have at most one entry per proof. *)
Definition assoc {K V} `{EqDecision K} (l : list (K * V)) (k : K) : option V :=
  snd <$> List.find (λ kv, bool_decide (kv.1 = k)) l.
(** [get(..).unwrap_or_else(|| get(default).expect(..))] *)
Definition assoc_or {K V} `{EqDecision K} (l : list (K * V)) (k dflt : K) : option V :=
  match assoc l k with Some v => Some v | None => assoc l dflt end.

(** [None] is the [expect] of an entry that the tables lack. *)
Definition on_verify_aggregate_seals (seal_proof : RegisteredSealProof) (num : Z) : option GasCharge :=
  per_proof ← assoc_or (verify_aggregate_seal_per pl) seal_proof StackedDRG32GiBV1P1;
  step ← assoc_or (verify_aggregate_seal_steps pl) seal_proof StackedDRG32GiBV1P1;
  Some (gas_charge_new (per_proof * num + step_lookup step num) 0).
Definition on_verify_post (proofs : list RegisteredPoStProof) (challenged_sectors : Z) : option GasCharge :=
  let p_proof := default StackedDRGWindow512MiBV1 (head proofs) in
  cost ← assoc_or (verify_post_lookup pl) p_proof StackedDRGWindow512MiBV1;
  let gas_used := sc_flat cost + challenged_sectors * sc_scale cost in
  Some (gas_charge_new (if verify_post_discount pl then Z.quot gas_used 2 else gas_used) 0).
Definition on_verify_consensus_fault : GasCharge := gas_charge_new (verify_consensus_fault pl) 0.

End prices.

(** ** [vm.rs]: what the sender, the miner and the burnt-funds actor get *)

Definition GAS_OVERUSE_NUM : Z := 11.
Definition GAS_OVERUSE_DENOM : Z := 10.

Record GasOutputs := {
  base_fee_burn : Z; over_estimation_burn : Z; miner_penalty : Z; miner_tip : Z; refund : Z;
  gas_refund : Z; gas_burned : Z }.

(** [None] is the [unwrap] of a burn that does not fit an [i64]. *)
Definition compute_gas_overestimation_burn (gas_used gas_limit : Z) : option (Z * Z) :=
  if gas_used =? 0 then Some (0, gas_limit)
  else
    let over := gas_limit - Z.quot (GAS_OVERUSE_NUM * gas_used) GAS_OVERUSE_DENOM in
    if over <? 0 then Some (gas_limit - gas_used, 0)
    else
      let over := if gas_used <? over then gas_used else over in
      let gas_to_burn := Z.quot ((gas_limit - gas_used) * over) gas_used in
      if (i64_min <=? gas_to_burn) && (gas_to_burn <=? i64_max)
      then Some (gas_limit - gas_used - gas_to_burn, gas_to_burn)
      else None.

Definition compute_gas_outputs (gas_used gas_limit base_fee fee_cap gas_premium : Z)
    (charge_network_fee : bool) : option GasOutputs :=
  let base_fee_to_pay := if fee_cap <? base_fee then fee_cap else base_fee in
  let penalty := if fee_cap <? base_fee then (base_fee - fee_cap) * gas_used else 0 in
  let burn := if charge_network_fee then base_fee_to_pay * gas_used else 0 in
  let tip := if fee_cap <? base_fee_to_pay + gas_premium then fee_cap - base_fee_to_pay else gas_premium in
  let tip := tip * gas_limit in
  '(out_gas_refund, out_gas_burned) ← compute_gas_overestimation_burn gas_used gas_limit;
  let over_burn := if negb (out_gas_burned =? 0) then base_fee_to_pay * out_gas_burned else 0 in
  let penalty := if negb (out_gas_burned =? 0)
    then penalty + (base_fee - base_fee_to_pay) * out_gas_burned else penalty in
  let required_funds := fee_cap * gas_limit in
  Some {| base_fee_burn := burn; over_estimation_burn := over_burn; miner_penalty := penalty;
          miner_tip := tip; refund := required_funds - burn - tip - over_burn;
          gas_refund := out_gas_refund; gas_burned := out_gas_burned |}.

(** ** Lemmas *)

Lemma tracker_charge_available t c : gas_available (fst (tracker_charge_gas t c)) = gas_available t.
Proof. unfold tracker_charge_gas. by case_if. Qed.

Lemma tracker_charge_ok t c :
  gas_used t ≤ gas_available t → gas_used (fst (tracker_charge_gas t c)) ≤ gas_available t.
Proof. unfold tracker_charge_gas. case_if; cbn; lia. Qed.

Lemma overestimation_burn_spec used limit :
  0 ≤ used ≤ limit → limit ≤ i64_max / GAS_OVERUSE_NUM →
  ∃ r b, compute_gas_overestimation_burn used limit = Some (r, b) ∧
    0 ≤ r ∧ 0 ≤ b ∧ used + r + b = limit ∧
    (10 * limit ≤ 11 * used → b = 0) ∧ (21 * used ≤ 10 * limit → r = 0).
Proof.
  intros Hu Hl. unfold compute_gas_overestimation_burn, GAS_OVERUSE_NUM, GAS_OVERUSE_DENOM in *.
  assert (Hi : i64_max / 11 = 838488366986797800) by done. rewrite Hi in Hl.
  case_if; [exists 0, limit; split_and!; try done; lia|].
  rewrite Z.quot_div_nonneg by lia.
  assert (Hd : 11 * used = 10 * (11 * used / 10) + (11 * used) mod 10) by (apply Z.div_mod; lia).
  pose proof (Z.mod_pos_bound (11 * used) 10 ltac:(lia)) as Hm.
  set (q := 11 * used / 10) in *. case_if.
  { exists (limit - used), 0. split_and!; try done; lia. }
  set (over := if used <? limit - q then used else limit - q).
  assert (Ho : 0 ≤ over ≤ used) by (unfold over; case_if; lia).
  rewrite Z.quot_div_nonneg by nia. set (b := (limit - used) * over / used).
  assert (Hb : 0 ≤ b ≤ limit - used).
  { split; [apply Z.div_pos; nia|]. apply Z.div_le_upper_bound; nia. }
  assert (Hc : (i64_min <=? b) && (b <=? i64_max) = true).
  { apply andb_true_iff. rewrite !Z.leb_le. unfold i64_min, i64_max in *. lia. }
  rewrite Hc. exists (limit - used - b), b. split_and!; try done; try lia.
  - intros Hlt. unfold b, over. case_if; [exfalso; lia|]. replace (limit - q) with 0 by lia.
    by rewrite Z.mul_0_r, Z.div_0_l by lia.
  - intros Hlt. assert (over = used) as Hou.
    { unfold over. case_if; [done|]. lia. }
    unfold b. rewrite Hou, Z.div_mul by lia. lia.
Qed.

(** ** Theorems *)


