(* ===== verification/StateTree.v ===== *)
(** * The state tree and its snapshots

    [src/vm/state_tree/src/lib.rs], with the init actor's state
    ([src/vm/actor/src/builtin/init/state.rs]) that resolves addresses.

    The HAMT of actors is the finite map it implements ([hamt_refines_map]); its
    keys are the bytes of ID addresses, which determine the address
    ([address_bytes_roundtrip]).  On top of it lies a stack of layers that cache
    reads and collect writes; [layers] lists the newest first. *)

From S2P Require Import Prelude Address Runtime.

(** ** [init/state.rs] *)

Record InitState := { address_map : gmap Address Z; next_id : Z; network_name : bytes }.

Definition init_state_new (name : bytes) : InitState :=
  {| address_map := ∅; next_id := FIRST_NON_SINGLETON_ADDR; network_name := name |}.

Definition map_address_to_new_id (s : InitState) (addr : Address) : InitState * Address :=
  ({| address_map := <[addr := next_id s]> (address_map s); next_id := next_id s + 1;
      network_name := network_name s |}, id_addr (next_id s)).

Definition init_resolve_address (s : InitState) (addr : Address) : option Address :=
  if decide (protocol addr = ProtocolID) then Some addr
  else (λ i, id_addr i) <$> address_map s !! addr.

(** ** Snapshot layers *)

Record StateSnapLayer {U : Type} := {
  actors : gmap Address (option (ActorState U));
  resolve_cache : gmap Address Address }.
Arguments StateSnapLayer U : clear implicits.

Record StateTree {U : Type} := {
  hamt : gmap Address (ActorState U);
  layers : list (StateSnapLayer U) }.
Arguments StateTree U : clear implicits.

(** The [Box<dyn Error>] strings of the module. *)
Inductive TreeError :=
| NoSnapshotLayer | InitNotResolved | InitStateDecode | ResolutionFailed
| ActorDoesNotExist | MutateFailed | SnapshotsOnStack | HamtDeletePanic.

(** Operations on the tree: they return the new tree and a result. *)
Definition TM (U A : Type) : Type := StateTree U → StateTree U * result TreeError A.
#[global] Instance tm_ret {U} : MRet (TM U) := λ A a t, (t, Ok a).
#[global] Instance tm_bind {U} : MBind (TM U) := λ A B f m t,
  match m t with
  | (t', Ok a) => f a t'
  | (t', Err e) => (t', Err e)
  end.

Section state_tree.
Context {U : Type} `{!StateIn InitState U}.
Implicit Types (t : StateTree U) (a : Address) (ls : list (StateSnapLayer U)).

Definition empty_layer : StateSnapLayer U := {| actors := ∅; resolve_cache := ∅ |}.

Definition tree_err {A} (e : TreeError) : TM U A := λ t, (t, Err e).
Definition with_layers t ls : StateTree U := {| hamt := hamt t; layers := ls |}.

Definition snaps_add_layer ls : list (StateSnapLayer U) := empty_layer :: ls.
Definition snaps_drop_layer ls : result TreeError (list (StateSnapLayer U)) :=
  match ls with [] => Err NoSnapshotLayer | _ :: ls => Ok ls end.
(** [extend] overwrites the entries of the older layer; with fewer than two
    layers the index [len() - 2] underflows. *)
Definition snaps_merge_last_layer ls : result TreeError (list (StateSnapLayer U)) :=
  match ls with
  | l :: l' :: ls =>
      Ok ({| actors := actors l ∪ actors l'; resolve_cache := resolve_cache l ∪ resolve_cache l' |} :: ls)
  | _ => Err NoSnapshotLayer
  end.
Fixpoint snaps_resolve_address ls a : option Address :=
  match ls with
  | [] => None
  | l :: ls => match resolve_cache l !! a with Some r => Some r | None => snaps_resolve_address ls a end
  end.
Definition snaps_cache_resolve_address ls a (r : Address) : result TreeError (list (StateSnapLayer U)) :=
  match ls with
  | [] => Err NoSnapshotLayer
  | l :: ls => Ok ({| actors := actors l; resolve_cache := <[a := r]> (resolve_cache l) |} :: ls)
  end.
(** The newest layer that mentions the address decides, with the state or with
    [None] for a deleted actor. *)
Fixpoint snaps_get_actor ls a : option (ActorState U) :=
  match ls with
  | [] => None
  | l :: ls => match actors l !! a with Some o => o | None => snaps_get_actor ls a end
  end.
Definition snaps_insert ls a (o : option (ActorState U)) : result TreeError (list (StateSnapLayer U)) :=
  match ls with
  | [] => Err NoSnapshotLayer
  | l :: ls => Ok ({| actors := <[a := o]> (actors l); resolve_cache := resolve_cache l |} :: ls)
  end.
Definition snaps_set_actor ls a (s : ActorState U) : result TreeError (list (StateSnapLayer U)) :=
  snaps_insert ls a (Some s).
Definition snaps_delete_actor ls a : result TreeError (list (StateSnapLayer U)) :=
  snaps_insert ls a None.

Definition on_snaps (f : list (StateSnapLayer U) → result TreeError (list (StateSnapLayer U))) : TM U unit :=
  λ t, match f (layers t) with Ok ls => (with_layers t ls, Ok tt) | Err e => (t, Err e) end.

(** ** [StateTree] *)

Definition tree_new : StateTree U := {| hamt := ∅; layers := [empty_layer] |}.
Definition tree_new_from_root (root : gmap Address (ActorState U)) : StateTree U :=
  {| hamt := root; layers := [empty_layer] |}.

(** [get_actor] once the address is resolved: cache, then HAMT, whose answer is
    cached. *)
Definition get_actor_id a : TM U (option (ActorState U)) := λ t,
  match snaps_get_actor (layers t) a with
  | Some s => (t, Ok (Some s))
  | None =>
      match hamt t !! a with
      | Some s => ((_ ← on_snaps (λ ls, snaps_set_actor ls a s); mret (Some s)) : TM U _) t
      | None => (t, Ok None)
      end
  end.

Definition lookup_id a : TM U (option Address) := λ t,
  if decide (protocol a = ProtocolID) then (t, Ok (Some a))
  else
    match snaps_resolve_address (layers t) a with
    | Some r => (t, Ok (Some r))
    | None =>
        (init_act ← get_actor_id INIT_ACTOR_ADDR;
         match init_act with
         | None => tree_err InitNotResolved
         | Some act =>
             match state_dec (state act) with
             | None => tree_err InitStateDecode
             | Some st =>
                 match init_resolve_address st a with
                 | None => mret None
                 | Some r => _ ← on_snaps (λ ls, snaps_cache_resolve_address ls a r); mret (Some r)
                 end
             end
         end) t
    end.

Definition tree_get_actor a : TM U (option (ActorState U)) :=
  id ← lookup_id a;
  match id with None => mret None | Some id => get_actor_id id end.

Definition tree_set_actor a (s : ActorState U) : TM U unit :=
  id ← lookup_id a;
  match id with
  | None => tree_err ResolutionFailed
  | Some id => on_snaps (λ ls, snaps_set_actor ls id s)
  end.

Definition tree_delete_actor a : TM U unit :=
  id ← lookup_id a;
  match id with
  | None => tree_err ResolutionFailed
  | Some id => on_snaps (λ ls, snaps_delete_actor ls id)
  end.

(** The closure may fail, before anything is written. *)
Definition mutate_actor a (mutate : ActorState U → option (ActorState U)) : TM U unit :=
  act ← tree_get_actor a;
  match act with
  | None => tree_err ActorDoesNotExist
  | Some act =>
      match mutate act with
      | None => tree_err MutateFailed
      | Some act => tree_set_actor a act
      end
  end.

Definition register_new_address a : TM U Address :=
  act ← tree_get_actor INIT_ACTOR_ADDR;
  match act with
  | None => tree_err InitNotResolved
  | Some act =>
      match state_dec (state act) with
      | None => tree_err InitStateDecode
      | Some ias =>
          let '(ias, new_addr) := map_address_to_new_id ias a in
          _ ← tree_set_actor INIT_ACTOR_ADDR (set_state act (state_enc ias));
          mret new_addr
      end
  end.

Definition snapshot : TM U unit := on_snaps (λ ls, Ok (snaps_add_layer ls)).
Definition clear_snapshot : TM U unit := on_snaps snaps_merge_last_layer.
Definition revert_to_snapshot : TM U unit :=
  on_snaps (λ ls, ls ← snaps_drop_layer ls; Ok (snaps_add_layer ls)).

(** [flush] writes the entries of the one remaining layer to the HAMT.
    [absent_delete_ok] says whether deleting a key the HAMT lacks returns; see
    [hamt_delete_absent_panics] for when it does not. *)
Definition flush_entry (absent_delete_ok : gmap Address (ActorState U) → Address → bool)
    (h : gmap Address (ActorState U)) (e : Address * option (ActorState U))
    : result TreeError (gmap Address (ActorState U)) :=
  match e with
  | (a, Some s) => Ok (<[a := s]> h)
  | (a, None) =>
      match h !! a with
      | Some _ => Ok (delete a h)
      | None => if absent_delete_ok h a then Ok h else Err HamtDeletePanic
      end
  end.
Definition tree_flush (absent_delete_ok : gmap Address (ActorState U) → Address → bool) : TM U unit := λ t,
  match layers t with
  | [l] =>
      match try_fold (flush_entry absent_delete_ok) (hamt t) (map_to_list (actors l)) with
      | Ok h => ({| hamt := h; layers := layers t |}, Ok tt)
      | Err e => (t, Err e)
      end
  | _ => (t, Err SnapshotsOnStack)
  end.

(** ** What the tree means *)

(** The actors as seen through a stack of layers. *)
Definition overlay (l : StateSnapLayer U) (m : gmap Address (ActorState U)) : gmap Address (ActorState U) :=
  merge (λ o s, match o with Some o => o | None => s end) (actors l) m.
#[global] Arguments overlay : simpl never.
Fixpoint view_of (h : gmap Address (ActorState U)) ls : gmap Address (ActorState U) :=
  match ls with [] => h | l :: ls => overlay l (view_of h ls) end.
Definition view t : gmap Address (ActorState U) := view_of (hamt t) (layers t).

(** The view of every snapshot, newest first. *)
Fixpoint stack_of (h : gmap Address (ActorState U)) ls : list (gmap Address (ActorState U)) :=
  match ls with [] => [] | l :: ls' => view_of h ls :: stack_of h ls' end.
Definition stack t : list (gmap Address (ActorState U)) := stack_of (hamt t) (layers t).

(** Deleted according to the newest layer that mentions the address. *)
Fixpoint marked_deleted ls a : Prop :=
  match ls with
  | [] => False
  | l :: ls => match actors l !! a with Some o => o = None | None => marked_deleted ls a end
  end.

(** What [get_actor] answers for an ID address. *)
Definition cur t a : option (ActorState U) :=
  match snaps_get_actor (layers t) a with Some s => Some s | None => hamt t !! a end.

(** ** Lemmas *)

Lemma overlay_lookup l m a :
  overlay l m !! a = match actors l !! a with Some o => o | None => m !! a end.
Proof. unfold overlay. rewrite lookup_merge. by destruct (actors l !! a), (m !! a). Qed.

Lemma marked_dec ls a : marked_deleted ls a ∨ ¬ marked_deleted ls a.
Proof.
  induction ls as [|l ls IH]; cbn; [right; tauto|]. destruct (actors l !! a) as [[s|]|]; [right; discriminate|by left|done].
Qed.

Lemma view_unmarked h ls a : ¬ marked_deleted ls a →
  view_of h ls !! a = match snaps_get_actor ls a with Some s => Some s | None => h !! a end.
Proof.
  induction ls as [|l ls IH]; cbn; [done|]. rewrite overlay_lookup.
  destruct (actors l !! a) as [[s|]|]; [done|naive_solver|done].
Qed.

Lemma cur_view t a : ¬ marked_deleted (layers t) a → cur t a = view t !! a.
Proof. intros Hm. unfold cur, view. by rewrite view_unmarked. Qed.

Lemma marked_view h ls a : marked_deleted ls a → view_of h ls !! a = None ∧ snaps_get_actor ls a = None.
Proof.
  induction ls as [|l ls IH]; cbn; [done|]. rewrite overlay_lookup.
  destruct (actors l !! a) as [[s|]|]; [done|done|done].
Qed.

(** Writing one entry of the newest layer. *)
Definition ins (l : StateSnapLayer U) a (o : option (ActorState U)) : StateSnapLayer U :=
  {| actors := <[a := o]> (actors l); resolve_cache := resolve_cache l |}.

Lemma overlay_ins l m a o : overlay (ins l a o) m = partial_alter (λ _, o) a (overlay l m).
Proof.
  apply map_eq. intros b. rewrite overlay_lookup. cbn. destruct (decide (a = b)) as [->|].
  - by rewrite lookup_insert_eq, lookup_partial_alter_eq.
  - rewrite lookup_insert_ne, lookup_partial_alter_ne, overlay_lookup by done. done.
Qed.

Lemma overlay_union l l' m :
  overlay {| actors := actors l ∪ actors l'; resolve_cache := resolve_cache l ∪ resolve_cache l' |} m
  = overlay l (overlay l' m).
Proof.
  apply map_eq. intros b. rewrite !overlay_lookup. cbn. rewrite lookup_union.
  by destruct (actors l !! b), (actors l' !! b).
Qed.

Lemma overlay_empty m : overlay empty_layer m = m.
Proof. apply map_eq. intros b. rewrite overlay_lookup. cbn. by rewrite lookup_empty. Qed.

Lemma get_actor_id_run t a l ls : layers t = l :: ls →
  get_actor_id a t =
    (match snaps_get_actor (layers t) a, hamt t !! a with
     | None, Some s => with_layers t (ins l a (Some s) :: ls)
     | _, _ => t
     end, Ok (cur t a)).
Proof.
  intros Hl. unfold get_actor_id, cur. destruct (snaps_get_actor (layers t) a) as [s|] eqn:Es; [done|].
  destruct (hamt t !! a) as [s|]; [|done]. unfold mbind, tm_bind, on_snaps, snaps_set_actor, snaps_insert.
  by rewrite Hl.
Qed.

(** [t'] differs from [t] only by cached reads. *)
Definition read_ext t t' : Prop :=
  hamt t' = hamt t ∧ ∃ l l' ls, layers t = l :: ls ∧ layers t' = l' :: ls ∧
    (∀ a, actors l' !! a = actors l !! a ∨
      ∃ s, actors l' !! a = Some (Some s) ∧ snaps_get_actor (layers t) a = None ∧ hamt t !! a = Some s) ∧
    (∀ a r, snaps_resolve_address (layers t) a = Some r → snaps_resolve_address (layers t') a = Some r) ∧
    (∀ a r, resolve_cache l' !! a = Some r → resolve_cache l !! a = Some r ∨ is_id r).

Lemma read_ext_refl t : layers t ≠ [] → read_ext t t.
Proof.
  intros Hl. split; [done|]. destruct (layers t) as [|l ls] eqn:E; [done|]. exists l, l, ls.
  split_and!; auto.
Qed.

Lemma read_ext_cur t t' a : read_ext t t' → cur t' a = cur t a.
Proof.
  intros (Hh & l & l' & ls & Hl & Hl' & Ha & _). unfold cur. rewrite Hh, Hl'. rewrite Hl in *. cbn in *.
  destruct (Ha a) as [->|(s & -> & Hn & ->)]; [done|].
  by destruct (actors l !! a) as [[x|]|]; rewrite ?Hn; simplify_eq.
Qed.

Lemma read_ext_trans t1 t2 t3 : read_ext t1 t2 → read_ext t2 t3 → read_ext t1 t3.
Proof.
  intros (Hh & l1 & l2 & ls & Hl1 & Hl2 & Ha & Hr & Hc) (Hh' & l2' & l3 & ls' & Hl2' & Hl3 & Ha' & Hr' & Hc').
  rewrite Hl2 in Hl2'. injection Hl2' as <- <-. split; [congruence|].
  exists l1, l3, ls. split_and!; try done; [|eauto|intros a r Hin; destruct (Hc' a r Hin); eauto]. intros a.
  destruct (Ha' a) as [->|(s & H3 & Hn & Hs)]; [apply Ha|].
  destruct (Ha a) as [E|(s' & E & Hn' & Hs')].
  - right. exists s. split_and!; [done| |congruence]. rewrite Hl1. rewrite Hl2 in Hn. cbn in *. by rewrite <-E.
  - rewrite Hl2 in Hn. cbn in Hn. rewrite E in Hn. done.
Qed.

Lemma get_actor_id_spec t a : layers t ≠ [] →
  ∃ t', get_actor_id a t = (t', Ok (cur t a)) ∧ read_ext t t' ∧
    ∀ b, snaps_resolve_address (layers t') b = snaps_resolve_address (layers t) b.
Proof.
  intros Hne. destruct (layers t) as [|l ls] eqn:Hl; [done|]. rewrite (get_actor_id_run _ _ _ _ Hl).
  eexists; split; [reflexivity|].
  destruct (snaps_get_actor (layers t) a) as [s|] eqn:Es; [split; [apply read_ext_refl; congruence|by rewrite Hl]|].
  destruct (hamt t !! a) as [s|] eqn:Eh; [|split; [apply read_ext_refl; congruence|by rewrite Hl]].
  split; [|done]. split; [done|]. exists l, (ins l a (Some s)), ls. split_and!; try done; [|by rewrite Hl|cbn; auto].
  intros b. cbn. destruct (decide (a = b)) as [->|].
  - right. exists s. rewrite lookup_insert_eq. done.
  - left. by rewrite lookup_insert_ne.
Qed.

(** The address is resolved without consulting the init actor. *)
Definition resolves t a (id : Address) : Prop :=
  (protocol a = ProtocolID ∧ id = a) ∨
  (protocol a ≠ ProtocolID ∧ snaps_resolve_address (layers t) a = Some id).

Lemma resolves_lookup t a id : resolves t a id → lookup_id a t = (t, Ok (Some id)).
Proof.
  unfold lookup_id. intros [[Hp ->]|[Hp Hr]].
  - by rewrite decide_True.
  - by rewrite decide_False, Hr.
Qed.

Lemma read_ext_resolves t t' a id : read_ext t t' → resolves t a id → resolves t' a id.
Proof. intros (_ & ? & ? & ? & _ & _ & _ & Hr & _) [?|[? ?]]; [by left|right; auto]. Qed.

Lemma read_ext_layers t t' : read_ext t t' → layers t ≠ [] ∧ layers t' ≠ [].
Proof. intros (_ & ? & ? & ? & -> & -> & _). done. Qed.

Lemma lookup_id_spec t a : layers t ≠ [] →
  ∃ t' r, lookup_id a t = (t', r) ∧ read_ext t t' ∧
    (∀ id, r = Ok (Some id) → resolves t' a id) ∧ (∀ e, r = Err e → e ≠ NoSnapshotLayer).
Proof.
  intros Hne. unfold lookup_id. destruct (decide (protocol a = ProtocolID)) as [Hp|Hp].
  { exists t, (Ok (Some a)). split_and!; try done; [by apply read_ext_refl|]. intros id [= <-]. by left. }
  destruct (snaps_resolve_address (layers t) a) as [r|] eqn:Er.
  { exists t, (Ok (Some r)). split_and!; try done; [by apply read_ext_refl|]. intros id [= <-]. by right. }
  destruct (get_actor_id_spec t INIT_ACTOR_ADDR Hne) as (t1 & Hg & Hx & Hsame). unfold mbind, tm_bind.
  rewrite Hg. destruct (cur t INIT_ACTOR_ADDR) as [act|]; [|by eexists _, _; split_and!; [reflexivity| |done|naive_solver]].
  destruct (state_dec (state act)) as [st|]; [|by eexists _, _; split_and!; [reflexivity| |done|naive_solver]].
  destruct (init_resolve_address st a) as [r|] eqn:Ei; [|by eexists _, _; split_and!; [reflexivity| |naive_solver|naive_solver]].
  destruct (read_ext_layers _ _ Hx) as [_ Hne1]. destruct (layers t1) as [|l ls] eqn:Hl; [done|].
  unfold on_snaps. rewrite Hl. cbn [snaps_cache_resolve_address].
  eexists _, _. split_and!; [reflexivity| |intros id [= <-]; right; split; [done|cbn; by rewrite lookup_insert_eq]|done].
  eapply read_ext_trans; [exact Hx|]. split; [done|]. eexists l, _, ls.
  split_and!; [done|reflexivity|by left| |].
  2:{ cbn. intros b r' [[_ <-]|[_ ?]]%lookup_insert_Some; [|by left]. right. unfold init_resolve_address in Ei.
      rewrite decide_False in Ei by done. by apply fmap_Some in Ei as (i & _ & ->). }
  intros b r' Hb. rewrite Hl in Hb. cbn in *. destruct (decide (a = b)) as [->|].
  - specialize (Hsame b). cbn in Hsame. congruence.
  - by rewrite lookup_insert_ne.
Qed.

(** An address that does not resolve is not found either. *)
Lemma lookup_none_get t a t' :
  layers t ≠ [] → lookup_id a t = (t', Ok None) → ∃ t'', tree_get_actor a t' = (t'', Ok None).
Proof.
  intros Hne. unfold lookup_id. destruct (decide (protocol a = ProtocolID)) as [|Hp]; [done|].
  destruct (snaps_resolve_address (layers t) a) eqn:Er; [done|]. unfold mbind at 1, tm_bind.
  destruct (get_actor_id_spec t INIT_ACTOR_ADDR Hne) as (t1 & -> & Hx & Hsame).
  destruct (cur t INIT_ACTOR_ADDR) as [act|] eqn:Ec; [|done].
  destruct (state_dec (state act)) as [st|] eqn:Es; [|done].
  destruct (init_resolve_address st a) as [r|] eqn:Ei.
  { unfold mbind, tm_bind. by destruct (on_snaps _ t1) as [? [?|?]]. }
  intros [= <-]. destruct (get_actor_id_spec t1 INIT_ACTOR_ADDR) as (t2 & Hg & _); [by eapply read_ext_layers|].
  exists t2. unfold tree_get_actor, lookup_id, mbind, tm_bind.
  rewrite decide_False, Hsame, Er, Hg by done. by rewrite (read_ext_cur _ _ _ Hx), Ec, Es, Ei.
Qed.

(** Cached resolutions are ID addresses. *)
Definition cache_ids t : Prop :=
  ∀ l, l ∈ layers t → ∀ a r, resolve_cache l !! a = Some r → is_id r.

Lemma resolves_is_id t a id : cache_ids t → resolves t a id → is_id id.
Proof.
  intros Hc [[? ->]|[_ Hr]]; [done|]. unfold cache_ids in Hc. induction (layers t) as [|l ls IH]; cbn in Hr; [done|].
  destruct (resolve_cache l !! a) as [r|] eqn:E.
  - injection Hr as ->. eapply (Hc l); [by left|exact E].
  - apply IH; [|done]. intros l' Hl'. apply Hc. by right.
Qed.

Lemma read_ext_cache_ids t t' : read_ext t t' → cache_ids t → cache_ids t'.
Proof.
  intros (_ & l & l' & ls & Hl & Hl' & _ & _ & Hc) Hi. unfold cache_ids in *. rewrite Hl'. rewrite Hl in Hi.
  intros x [->|Hx]%elem_of_cons a r Hr; [|by eapply Hi; [right|]].
  destruct (Hc a r Hr); [eapply Hi; [by left|done]|done].
Qed.

Lemma resolves_id t a id : is_id a → resolves t a id → id = a.
Proof. intros Ha [[_ ->]|[Hn _]]; done. Qed.

Lemma tree_get_actor_id a t : is_id a → tree_get_actor a t = get_actor_id a t.
Proof.
  intros Ha. unfold tree_get_actor, mbind, tm_bind.
  rewrite (resolves_lookup t a a) by (by left). done.
Qed.

(** Writing through an address that is already resolved. *)
Lemma tree_set_actor_run t a id s l ls :
  layers t = l :: ls → resolves t a id →
  tree_set_actor a s t = (with_layers t (ins l id (Some s) :: ls), Ok tt).
Proof.
  intros Hl Hr. unfold tree_set_actor, mbind, tm_bind. rewrite (resolves_lookup _ _ _ Hr).
  unfold on_snaps, snaps_set_actor, snaps_insert. by rewrite Hl.
Qed.

Lemma stack_cons t l ls : layers t = l :: ls → stack t = view t :: stack_of (hamt t) ls.
Proof. unfold stack, view. by intros ->. Qed.

(** Caching a read of an actor that is not marked as deleted changes no view. *)
Lemma get_actor_id_stack t a l ls :
  layers t = l :: ls → ¬ marked_deleted (layers t) a →
  ∃ t', get_actor_id a t = (t', Ok (view t !! a)) ∧ stack t' = stack t ∧ hamt t' = hamt t.
Proof.
  intros Hl Hm. rewrite (get_actor_id_run _ _ _ _ Hl), (cur_view _ _ Hm). eexists; split; [reflexivity|].
  destruct (snaps_get_actor (layers t) a) as [s|] eqn:Es; [done|].
  destruct (hamt t !! a) as [s|] eqn:Eh; [|done]. split; [|done].
  unfold stack, with_layers. cbn [layers hamt]. rewrite Hl. cbn. f_equal. rewrite overlay_ins.
  apply (view_unmarked (hamt t)) in Hm. rewrite Es, Eh in Hm. rewrite Hl in Hm. cbn in Hm.
  apply map_eq. intros b. destruct (decide (a = b)) as [->|].
  - by rewrite lookup_partial_alter_eq.
  - by rewrite lookup_partial_alter_ne.
Qed.

(** The order in which [flush] visits the entries does not matter. *)
Lemma flush_entries ok h l :
  NoDup l.*1 → (∀ a, (a, None) ∈ l → is_Some (h !! a) ∨ ∀ h', ok h' a = true) →
  ∃ h', try_fold (flush_entry ok) h l = Ok h' ∧
    (∀ a o, (a, o) ∈ l → h' !! a = o) ∧ (∀ a, a ∉ l.*1 → h' !! a = h !! a).
Proof.
  revert h. induction l as [|[a o] l IH]; intros h Hnd Hok; cbn.
  { exists h. split_and!; try done. set_solver. }
  inversion Hnd as [|? ? Hnin Hnd']; subst.
  assert (Hstep : ∃ h1, flush_entry ok h (a, o) = Ok h1 ∧ h1 !! a = o ∧ ∀ b, b ≠ a → h1 !! b = h !! b).
  { destruct o as [s|]; cbn.
    - eexists; split_and!; [done|apply lookup_insert_eq|intros; by apply lookup_insert_ne].
    - destruct (h !! a) as [s|] eqn:E.
      + eexists; split_and!; [done|apply lookup_delete_eq|intros; by apply lookup_delete_ne].
      + destruct (Hok a) as [[? ?]|Hk]; [by left|congruence|]. rewrite Hk. by exists h. }
  destruct Hstep as (h1 & Hs & Ha & Hb). unfold flush_entry in Hs. rewrite Hs.
  destruct (IH h1) as (h' & Hf & Hin & Hout); [done| |].
  { intros b Hbl. rewrite Hb; [apply Hok; by right|]. intros ->. apply Hnin, list_elem_of_fmap. by exists (a, None). }
  exists h'. split_and!; [done| |].
  - intros b ob [[= -> ->]|Hbl]%elem_of_cons; [|eauto]. by rewrite Hout.
  - intros b Hbn. cbn in Hbn. rewrite not_elem_of_cons in Hbn. destruct Hbn. by rewrite Hout, Hb.
Qed.

Lemma tree_flush_spec ok t l :
  layers t = [l] →
  (∀ a, actors l !! a = Some None → is_Some (hamt t !! a) ∨ ∀ h, ok h a = true) →
  ∃ t', tree_flush ok t = (t', Ok tt) ∧ hamt t' = view t ∧ layers t' = layers t.
Proof.
  intros Hl Hok. unfold tree_flush, view. rewrite Hl. cbn.
  destruct (flush_entries ok (hamt t) (map_to_list (actors l))) as (h & Hf & Hin & Hout).
  - apply NoDup_fst_map_to_list.
  - intros a. rewrite elem_of_map_to_list. apply Hok.
  - rewrite Hf. eexists; split_and!; [done| |done]. cbn. apply map_eq. intros a. rewrite overlay_lookup.
    destruct (actors l !! a) as [o|] eqn:E.
    + apply Hin. by rewrite elem_of_map_to_list.
    + apply Hout. intros ([b o] & -> & Hb)%list_elem_of_fmap. apply elem_of_map_to_list in Hb. cbn in E. congruence.
Qed.

End state_tree.

(** ** Theorems *)

(** C14.  The state tree implements a stack of maps from ID addresses to actors,
    one per snapshot: reads see the newest map and change nothing, writes and
    deletions change the newest map only, [snapshot] duplicates it,
    [clear_snapshot] drops the one below it, [revert_to_snapshot] replaces it by
    the one below, and [flush] stores it.  Reads of an actor whose deletion is
    still cached are excepted. *)
Theorem state_tree_refines_stack {U} `{!StateIn InitState U} (t : StateTree U) (l : StateSnapLayer U) (ls : list (StateSnapLayer U)) :
  layers t = l :: ls →
  (∀ a, is_id a → ¬ marked_deleted (layers t) a →
    ∃ t', tree_get_actor a t = (t', Ok (view t !! a)) ∧ stack t' = stack t ∧ hamt t' = hamt t) ∧
  (∀ a s, is_id a → ∃ t', tree_set_actor a s t = (t', Ok tt) ∧
    stack t' = <[a := s]> (view t) :: tail (stack t) ∧ hamt t' = hamt t) ∧
  (∀ a, is_id a → ∃ t', tree_delete_actor a t = (t', Ok tt) ∧
    stack t' = delete a (view t) :: tail (stack t) ∧ hamt t' = hamt t) ∧
  (∃ t', snapshot t = (t', Ok tt) ∧ stack t' = view t :: stack t ∧ hamt t' = hamt t) ∧
  (ls ≠ [] → ∃ t', clear_snapshot t = (t', Ok tt) ∧
    stack t' = view t :: tail (tail (stack t)) ∧ hamt t' = hamt t) ∧
  (∃ t', revert_to_snapshot t = (t', Ok tt) ∧
    stack t' = default (hamt t) (head (tail (stack t))) :: tail (stack t) ∧ hamt t' = hamt t) ∧
  (∀ ok, ls = [] → (∀ a, actors l !! a = Some None → is_Some (hamt t !! a) ∨ ∀ h, ok h a = true) →
    ∃ t', tree_flush ok t = (t', Ok tt) ∧ hamt t' = view t ∧ layers t' = layers t).
Proof.
  intros Hl. rewrite (stack_cons _ _ _ Hl). split_and!.
  - intros a Ha Hm. rewrite tree_get_actor_id, <-(stack_cons _ _ _ Hl) by done. by eapply get_actor_id_stack.
  - intros a s Ha. erewrite tree_set_actor_run; [|done|by left].
    eexists; split_and!; [done| |done]. cbn. f_equal. unfold view. rewrite Hl. cbn. apply overlay_ins.
  - intros a Ha. unfold tree_delete_actor, mbind, tm_bind. rewrite (resolves_lookup t a a) by (by left).
    unfold on_snaps, snaps_delete_actor, snaps_insert. rewrite Hl.
    eexists; split_and!; [done| |done]. cbn. f_equal. unfold view. rewrite Hl. cbn. apply (overlay_ins l _ a None).
  - eexists; split_and!; [done| |done]. cbn. rewrite overlay_empty. unfold view, stack. by rewrite Hl.
  - intros Hne. destruct ls as [|l' ls]; [done|]. unfold clear_snapshot, on_snaps. rewrite Hl.
    eexists; split_and!; [done| |done]. cbn. rewrite overlay_union. unfold view. by rewrite Hl.
  - unfold revert_to_snapshot, on_snaps. rewrite Hl. eexists; split_and!; [done| |done]. cbn.
    rewrite overlay_empty. by destruct ls.
  - intros ok -> Hok. by apply (tree_flush_spec ok t l).
Qed.

#[global] Instance option_init_state : StateIn InitState (option InitState) := {|
  state_enc := Some; state_dec := id; state_dec_enc s := eq_refl |}.

Definition ex_actor (b : Z) : ActorState (option InitState) :=
  {| code := ACCOUNT_ACTOR_CODE_ID; state := None; sequence := 0; balance := b |}.
Definition ex_tree : StateTree (option InitState) :=
  tree_new_from_root {[ id_addr 100 := ex_actor 7 ]}.

Lemma state_tree_refines_stack_witness :
  ∃ t', tree_get_actor (id_addr 100) ex_tree = (t', Ok (Some (ex_actor 7))) ∧ stack t' = stack ex_tree.
Proof.
  destruct (state_tree_refines_stack ex_tree empty_layer []) as (Hget & _); [reflexivity|].
  destruct (Hget (id_addr 100)) as (t' & Ht & Hs & _); [reflexivity|vm_compute; tauto|].
  exists t'. split; [|exact Hs]. rewrite Ht.
  assert (view ex_tree !! id_addr 100 = Some (ex_actor 7)) as -> by (vm_compute; reflexivity). reflexivity.
Defined.

(** A deleted actor comes back when it is read: [StateSnapshots::get_actor]
    answers [None] for "deleted" as it does for "not cached", so
    [StateTree::get_actor] falls through to the HAMT, returns the record the
    actor had when the tree was loaded, with its balance of then, and caches
    it, which undoes the deletion. *)
Theorem deleted_actor_comes_back {U} `{!StateIn InitState U} (t : StateTree U) (a : Address) (s : ActorState U) :
  layers t ≠ [] → is_id a → hamt t !! a = Some s →
  ∃ t1 t2, tree_delete_actor a t = (t1, Ok tt) ∧ view t1 = delete a (view t) ∧
    tree_get_actor a t1 = (t2, Ok (Some s)) ∧ view t2 = <[a := s]> (view t).
Proof.
  intros Hne Ha Hs. destruct (layers t) as [|l ls] eqn:Hl; [done|].
  unfold tree_delete_actor, mbind, tm_bind. rewrite (resolves_lookup t a a) by (by left).
  unfold on_snaps, snaps_delete_actor, snaps_insert. rewrite Hl. eexists _, _. split; [reflexivity|]. split.
  { unfold view. rewrite Hl. cbn. apply (overlay_ins l _ a None). }
  rewrite tree_get_actor_id by done. erewrite get_actor_id_run by reflexivity.
  cbn [layers with_layers snaps_get_actor actors hamt ins]. rewrite lookup_insert_eq, Hs. unfold cur.
  cbn [layers with_layers snaps_get_actor actors hamt ins]. rewrite lookup_insert_eq. split; [by rewrite Hs|].
  unfold view, with_layers. cbn. rewrite Hl. cbn. apply map_eq. intros b. rewrite overlay_lookup. cbn.
  destruct (decide (a = b)) as [->|]; [by rewrite !lookup_insert_eq|].
  rewrite !lookup_insert_ne, overlay_lookup by done. done.
Qed.

Lemma deleted_actor_comes_back_witness :
  ∃ t1 t2, tree_delete_actor (id_addr 100) ex_tree = (t1, Ok tt) ∧ view t1 = ∅ ∧
    tree_get_actor (id_addr 100) t1 = (t2, Ok (Some (ex_actor 7))).
Proof.
  destruct (deleted_actor_comes_back ex_tree (id_addr 100) (ex_actor 7)) as (t1 & t2 & Hd & Hv & Hg & _);
    [done|done|reflexivity|].
  exists t1, t2. split; [exact Hd|]. split; [|exact Hg]. rewrite Hv. vm_compute. reflexivity.
Defined.
