(* ===== verification/Interp.v ===== *)
(** * The interpreter: running actor code against the state tree

    [DefaultRuntime] of [src/vm/interpreter/src/default_runtime.rs] at network
    version 14: message sends with their snapshots, value transfers, implicit
    account creation, and every call of the [Runtime] interface.

    A send recurses into the code of the receiver.  The source bounds the call
    depth by [MAX_CALL_DEPTH] and fails beyond it; [execute_send] recurses on
    the depth that is left, so that its fuel is the source's own bound. *)

From S2P Require Import Prelude Address Runtime Gas StateTree.

Definition MAX_CALL_DEPTH : nat := 4096.

Record AccountState := { account_address : Address }.

(** State tree and gas tracker, which all frames share. *)
Record World {U : Type} := { tree : StateTree U; gas : GasTracker }.
Arguments World U : clear implicits.

Definition IM (U A : Type) : Type := World U → World U * result ActorError A.
#[global] Instance im_ret {U} : MRet (IM U) := λ A a w, (w, Ok a).
#[global] Instance im_bind {U} : MBind (IM U) := λ A B f m w,
  match m w with
  | (w', Ok a) => f a w'
  | (w', Err e) => (w', Err e)
  end.

(** The runtime of one call: the message, the origin of the call chain, and the
    fields that the call itself changes. *)
Record Frame := {
  ctx : Ctx; origin : Address; origin_nonce : Z;
  num_actors_created : Z; caller_validated : bool; allow_internal : bool }.

Record Msg := { m_from : Address; m_to : Address; m_method : Z; m_value : Z; m_params : bytes }.

(** What the interpreter takes from outside: the code of the actors, the size
    of state objects, the gas their nested blocks cost in a transaction, the
    answers of system calls and of the circulating supply calculator, CBOR of
    an address, and the key hashed into the address of a new actor. *)
Class Machine (U : Type) := {
  invoke_code : Code → Z → bytes → option (Ctx → Prog U bytes);
  empty_arr : U;
  state_size : U → Z;
  nested_gas : U → U → Z;
  sys_answer : SysQuery → StateTree U → option bytes;
  sys_gas : SysQuery → GasCharge;
  get_supply : StateTree U → option Z;
  addr_cbor : Address → bytes;
  new_actor_key : Address → Z → Z → Address;
  prices : PriceList }.

Section interp.
Context {U : Type} `{!EqDecision U, !StateIn InitState U, !StateIn AccountState U, !Machine U}.

Definition throw {A} (e : ActorError) : IM U A := λ w, (w, Err e).
Definition err {A} (c : ExitCode) : IM U A := throw (actor_error c).
Definition unwrap {A} (o : option A) (e : ActorError) : IM U A :=
  match o with Some a => mret a | None => throw e end.

(** [downcast_fatal] and [downcast_default] of an error of the state tree. *)
Definition downcast (e : TreeError) (dflt : ActorError) : ActorError :=
  match e with InitStateDecode => actor_error ErrSerialization | _ => dflt end.
Definition on_tree {A} (m : TM U A) (dflt : ActorError) : IM U A := λ w,
  match m (tree w) with
  | (t, Ok a) => ({| tree := t; gas := gas w |}, Ok a)
  | (t, Err e) => ({| tree := t; gas := gas w |}, Err (downcast e dflt))
  end.
Definition charge (c : GasCharge) : IM U unit := λ w,
  let '(g, r) := tracker_charge_gas (gas w) c in ({| tree := tree w; gas := g |}, r).

Definition get_tree : IM U (StateTree U) := λ w, (w, Ok (tree w)).
(** The result of a call as a value. *)
Definition attempt {A} (m : IM U A) : IM U (result ActorError A) := λ w,
  let '(w, r) := m w in (w, Ok r).

Definition get_balance (a : Address) : IM U Z :=
  act ← on_tree (tree_get_actor a) new_fatal;
  mret (match act with Some act => balance act | None => 0 end).

Definition state_commit (to_addr : Address) (old_h new_h : U) : IM U unit :=
  act ← on_tree (tree_get_actor to_addr) new_fatal;
  act ← unwrap act new_fatal;
  if decide (state act = old_h) then on_tree (tree_set_actor to_addr (set_state act new_h)) new_fatal
  else throw new_fatal.

(** Key address of an account actor. *)
Definition resolve_to_key_addr (a : Address) : IM U Address :=
  if decide (protocol a = ProtocolBLS ∨ protocol a = ProtocolSecp256k1) then mret a
  else
    act ← on_tree (tree_get_actor a) new_fatal;
    act ← unwrap act new_fatal;
    st ← unwrap (state_dec (state act)) (actor_error ErrSerialization);
    mret (account_address st).

Definition transfer (from to : Address) (value : Z) : IM U unit :=
  if decide (from = to) then mret tt
  else
    from_id ← on_tree (lookup_id from) new_fatal;
    from_id ← unwrap from_id new_fatal;
    to_id ← on_tree (lookup_id to) new_fatal;
    to_id ← unwrap to_id new_fatal;
    if decide (from_id = to_id) then mret tt
    else if value <? 0 then err SysErrForbidden
    else
      f ← on_tree (tree_get_actor from_id) new_fatal;
      f ← unwrap f new_fatal;
      t ← on_tree (tree_get_actor to_id) new_fatal;
      t ← unwrap t new_fatal;
      f ← unwrap (deduct_funds f value) (actor_error SysErrInsufficientFunds);
      _ ← on_tree (tree_set_actor from f) new_fatal;
      on_tree (tree_set_actor to (deposit_funds t value)) new_fatal.

Definition new_account_actor : ActorState U :=
  {| code := ACCOUNT_ACTOR_CODE_ID; state := empty_arr; sequence := 0; balance := 0 |}.
Definition make_actor (a : Address) : IM U (ActorState U) :=
  match protocol a with
  | ProtocolBLS | ProtocolSecp256k1 => mret new_account_actor
  | ProtocolID | ProtocolActor => err SysErrInvalidReceiver
  end.

(** Snapshot, send, and on an error revert to the snapshot. *)
Definition with_snapshot (send : IM U bytes) : IM U bytes := λ w,
  match on_tree snapshot new_fatal w with
  | (w, Err e) => (w, Err e)
  | (w, Ok _) =>
      let '(w, send_res) := send w in
      let '(w, ret) :=
        match send_res with
        | Ok r => (w, Ok r)
        | Err e =>
            match on_tree revert_to_snapshot new_fatal w with
            | (w, Ok _) => (w, Err e)
            | (w, Err _) => (w, Err new_fatal)
            end
        end in
      match on_tree clear_snapshot new_fatal w with
      | (w, Ok _) => (w, ret)
      | (w, Err e) => (w, Err e)
      end
  end.

Definition validate_once (f : Frame) : IM U Frame :=
  if caller_validated f then err SysErrIllegalActor
  else mret {| ctx := ctx f; origin := origin f; origin_nonce := origin_nonce f;
               num_actors_created := num_actors_created f; caller_validated := true;
               allow_internal := allow_internal f |}.
Definition set_allow (f : Frame) (b : bool) : Frame :=
  {| ctx := ctx f; origin := origin f; origin_nonce := origin_nonce f;
     num_actors_created := num_actors_created f; caller_validated := caller_validated f;
     allow_internal := b |}.
Definition incr_created (f : Frame) : Frame :=
  {| ctx := ctx f; origin := origin f; origin_nonce := origin_nonce f;
     num_actors_created := num_actors_created f + 1; caller_validated := caller_validated f;
     allow_internal := allow_internal f |}.

Definition get_actor_code (a : Address) : IM U (option Code) :=
  act ← on_tree (tree_get_actor a) new_fatal; mret (code <$> act).

(** [Runtime::create_actor]; an error of [get_actor] counts as absent. *)
Definition rt_create_actor (c : Code) (a : Address) : IM U unit :=
  if negb (is_builtin_actor c) then err SysErrIllegalArgument
  else if is_singleton_actor c then err SysErrIllegalArgument
  else λ w,
    let '(t, r) := tree_get_actor a (tree w) in
    let w := {| tree := t; gas := gas w |} in
    match r with
    | Ok (Some _) => (w, Err (actor_error SysErrIllegalArgument))
    | _ =>
        (_ ← charge (on_create_actor prices);
         on_tree (tree_set_actor a
           {| code := c; state := empty_arr; sequence := 0; balance := 0 |}) new_fatal) w
    end.

(** [Runtime::delete_actor]. *)
Definition rt_delete_actor (self beneficiary : Address) : IM U unit :=
  _ ← charge (on_delete_actor prices);
  act ← on_tree (tree_get_actor self) new_fatal;
  act ← unwrap act (actor_error SysErrIllegalActor);
  _ ← (if negb (balance act =? 0) then
         b ← on_tree (lookup_id beneficiary) new_fatal;
         b ← unwrap b (actor_error SysErrIllegalArgument);
         if decide (b = self) then err SysErrIllegalArgument
         else transfer self beneficiary (balance act)
       else mret tt);
  on_tree (tree_delete_actor self) new_fatal.

(** One method body.  [snd] is [internal_send] from the receiver; [base] is the
    state object that the open transaction started from. *)
Fixpoint run {A} (snd : Frame → Msg → IM U bytes) (p : Prog U A) (f : Frame) (base : option U)
    : IM U (A * Frame) :=
  match p with
  | Ret (Ok a) => mret (a, f)
  | Ret (Err e) => throw e
  | CallerAny k => f ← validate_once f; run snd k f base
  | CallerIs addrs k =>
      f ← validate_once f;
      if bool_decide (caller (ctx f) ∈ addrs) then run snd k f base else err ErrForbidden
  | CallerType types k =>
      f ← validate_once f;
      c ← get_actor_code (caller (ctx f));
      c ← unwrap c new_fatal;
      if bool_decide (c ∈ types) then run snd k f base else err SysErrForbidden
  | Balance k => b ← get_balance (receiver (ctx f)); run snd (k b) f base
  | Resolve a k => o ← on_tree (lookup_id a) new_fatal; run snd (k o) f base
  | CodeOf a k => o ← get_actor_code a; run snd (k o) f base
  | Create u k =>
      _ ← charge (on_ipld_put prices (state_size u));
      _ ← state_commit (receiver (ctx f)) empty_arr u;
      run snd k f base
  | ReadState k =>
      act ← on_tree (tree_get_actor (receiver (ctx f))) (actor_error SysErrIllegalArgument);
      act ← unwrap act (actor_error SysErrIllegalArgument);
      _ ← charge (on_ipld_get prices);
      run snd (k (state act)) f base
  | Begin k =>
      act ← on_tree (tree_get_actor (receiver (ctx f))) (actor_error SysErrIllegalActor);
      act ← unwrap act (actor_error SysErrIllegalActor);
      _ ← charge (on_ipld_get prices);
      run snd (k (state act)) (set_allow f false) (Some (state act))
  | Commit u k =>
      old ← unwrap base new_fatal;
      _ ← charge (gas_charge_new (nested_gas old u) 0);
      _ ← charge (on_ipld_put prices (state_size u));
      _ ← state_commit (receiver (ctx f)) old u;
      run snd k (set_allow f true) None
  | Send to method params value k =>
      if negb (allow_internal f) then run snd (k (Err (new_recovered SysErrIllegalActor))) f base
      else
        r ← attempt (snd f {| m_from := receiver (ctx f); m_to := to; m_method := method;
                                m_value := value; m_params := params |});
        run snd (k r) f base
  | NewActorAddress k =>
      oa ← resolve_to_key_addr (origin f);
      run snd (k (new_actor_key oa (origin_nonce f) (num_actors_created f))) (incr_created f) base
  | CreateActor c a k => _ ← rt_create_actor c a; run snd k f base
  | DeleteActor beneficiary k => _ ← rt_delete_actor (receiver (ctx f)) beneficiary; run snd k f base
  | CircSupply k =>
      t ← get_tree;
      z ← unwrap (get_supply t) (actor_error ErrIllegalState);
      run snd (k z) f base
  | ChargeGas compute k => _ ← charge (gas_charge_new compute 0); run snd k f base
  | Syscall q k =>
      _ ← charge (sys_gas q);
      t ← get_tree;
      run snd (k (sys_answer q t)) f base
  end.

(** [invoke]. *)
Definition invoke (snd : Frame → Msg → IM U bytes) (c : Code) (method : Z) (params : bytes) (f : Frame) : IM U bytes :=
  match invoke_code c method params with
  | None => err SysErrIllegalActor
  | Some p =>
      '(ret, f) ← run snd (p (ctx f)) f None;
      if caller_validated f then mret ret else err SysErrIllegalActor
  end.

(** Creates an account actor for a BLS or SECP256K1 address and runs its
    constructor. *)
Definition try_create_account_actor (snd : Frame → Msg → IM U bytes) (f : Frame) (a : Address)
    : IM U (ActorState U * Address) :=
  _ ← charge (on_create_actor prices);
  if is_bls_zero_address a then err ErrIllegalArgument
  else
    addr_id ← on_tree (register_new_address a) new_fatal;
    act ← make_actor a;
    _ ← on_tree (tree_set_actor addr_id act) new_fatal;
    _ ← snd f {| m_from := SYSTEM_ACTOR_ADDR; m_to := addr_id; m_method := METHOD_CONSTRUCTOR;
                 m_value := 0; m_params := addr_cbor a |};
    act ← on_tree (tree_get_actor addr_id) new_fatal;
    act ← unwrap act new_fatal;
    mret (act, addr_id).

Definition child_frame (f : Frame) (caller receiver : Address) (value : Z) : Frame :=
  {| ctx := {| caller := caller; receiver := receiver; value_received := value;
               curr_epoch := curr_epoch (ctx f); base_fee := base_fee (ctx f) |};
     origin := origin f; origin_nonce := origin_nonce f;
     num_actors_created := num_actors_created f; caller_validated := false;
     allow_internal := allow_internal f |}.
Definition set_receiver (f : Frame) (r : Address) : Frame :=
  {| ctx := {| caller := caller (ctx f); receiver := r; value_received := value_received (ctx f);
               curr_epoch := curr_epoch (ctx f); base_fee := base_fee (ctx f) |};
     origin := origin f; origin_nonce := origin_nonce f;
     num_actors_created := num_actors_created f; caller_validated := caller_validated f;
     allow_internal := allow_internal f |}.

(** [execute_send] called on the runtime [pf], with [fuel] levels of calls left. *)
Fixpoint execute_send (fuel : nat) (pf : Frame) (msg : Msg) (gas_cost : option GasCharge) : IM U bytes :=
  match fuel with
  | O => throw (new_recovered SysErrForbidden)
  | S fuel =>
      let snd f m := with_snapshot (execute_send fuel f m None) in
      caller ← on_tree (lookup_id (m_from msg)) new_fatal;
      caller ← unwrap caller (actor_error SysErrInvalidReceiver);
      receiver ← on_tree (lookup_id (m_to msg)) new_fatal;
      let f := child_frame pf caller (default (m_to msg) receiver) (m_value msg) in
      _ ← match gas_cost with Some c => charge c | None => mret tt end;
      maybe_to_actor ← on_tree (tree_get_actor (m_to msg)) new_fatal;
      '(to_actor, f) ← match maybe_to_actor with
        | Some act => mret (act, f)
        | None =>
            '(act, id) ← try_create_account_actor snd f (m_to msg);
            mret (act, set_receiver f id)
        end;
      _ ← charge (on_method_invocation prices (m_value msg) (m_method msg));
      _ ← (if negb (m_value msg =? 0) then transfer (m_from msg) (m_to msg) (m_value msg) else mret tt);
      if negb (m_method msg =? METHOD_SEND) then
        _ ← charge (gas_charge_new 0 0);
        invoke snd (code to_actor) (m_method msg) (m_params msg) f
      else mret []
  end.

(** [internal_send] with [fuel] levels left. *)
Definition internal_send (fuel : nat) (f : Frame) (m : Msg) : IM U bytes :=
  with_snapshot (execute_send fuel f m None).

End interp.
