(* ===== verification/InterpFacts.v ===== *)
(** * What every execution preserves

    The control structure of the interpreter once and for all: a reflexive and
    transitive relation on worlds that the primitive steps respect is respected
    by every execution ([run_preserves], [execute_send_preserves]).  Instances:
    the layers below the newest snapshot are never touched, so a failed send
    leaves the tree as it was; gas never exceeds its limit; the total of all
    balances never grows. *)

From S2P Require Import Prelude Address Runtime Gas StateTree Interp.

Section preserve.
Context {U : Type} `{!EqDecision U, !StateIn InitState U, !StateIn AccountState U, !Machine U}.
Context (R : World U → World U → Prop).

Definition pr {A} (m : IM U A) : Prop := ∀ w, R w (m w).1.

(** The program never deletes its actor. *)
Fixpoint no_delete {A} (p : Prog U A) : Prop :=
  match p with
  | Ret _ => True
  | CallerAny k | CallerIs _ k | CallerType _ k | Create _ k | Commit _ k
  | CreateActor _ _ k | ChargeGas _ k => no_delete k
  | Balance k => ∀ z, no_delete (k z)
  | CircSupply k => ∀ z, no_delete (k z)
  | Resolve _ k => ∀ o, no_delete (k o)
  | CodeOf _ k => ∀ o, no_delete (k o)
  | Syscall _ k => ∀ o, no_delete (k o)
  | ReadState k | Begin k => ∀ u, no_delete (k u)
  | Send _ _ _ _ k => ∀ r, no_delete (k r)
  | NewActorAddress k => ∀ a, no_delete (k a)
  | DeleteActor _ _ => False
  end.

(** What the primitive steps have to satisfy.  [deletes] tells whether actors
    may be deleted. *)
Class Preserved (deletes : Prop) : Prop := {
  pres_refl w : R w w;
  pres_trans w1 w2 w3 : R w1 w2 → R w2 w3 → R w1 w3;
  pres_charge c : pr (charge c);
  pres_get a e : pr (on_tree (tree_get_actor a) e);
  pres_get_raw a w : R w {| tree := (tree_get_actor a (tree w)).1; gas := gas w |};
  pres_lookup a e : pr (on_tree (lookup_id a) e);
  pres_commit a u u' : pr (state_commit a u u');
  pres_transfer a b v : pr (transfer a b v);
  pres_register a e : pr (on_tree (register_new_address a) e);
  pres_new_actor a c e :
    pr (on_tree (tree_set_actor a {| code := c; state := empty_arr; sequence := 0; balance := 0 |}) e);
  pres_delete a b : deletes → pr (rt_delete_actor a b);
  pres_snapshot m : pr m → pr (with_snapshot m) }.

Context {deletes : Prop} `{!Preserved deletes}.

Lemma pr_ret {A} (a : A) : pr (mret a).
Proof. intros w. apply pres_refl. Qed.
Lemma pr_throw {A} e : pr (throw (A:=A) e).
Proof. intros w. apply pres_refl. Qed.
Lemma pr_unwrap {A} (o : option A) e : pr (unwrap o e).
Proof. destruct o; [apply pr_ret|apply pr_throw]. Qed.
Lemma pr_get_tree : pr get_tree.
Proof. intros w. apply pres_refl. Qed.
Lemma pr_bind {A B} (m : IM U A) (k : A → IM U B) : pr m → (∀ a, pr (k a)) → pr (m ≫= k).
Proof.
  intros Hm Hk w. unfold mbind, im_bind. specialize (Hm w). destruct (m w) as [w' [a|e]]; [|done].
  eapply pres_trans; [exact Hm|apply Hk].
Qed.
Lemma pr_bind_ret {A B} (a : A) (k : A → IM U B) : pr (k a) → pr (mret a ≫= k).
Proof. done. Qed.
Lemma pr_bind_throw {A B} e (k : A → IM U B) : pr (throw e ≫= k).
Proof. intros w. apply pres_refl. Qed.
Lemma pr_attempt {A} (m : IM U A) : pr m → pr (attempt m).
Proof. intros Hm w. unfold attempt. specialize (Hm w). by destruct (m w). Qed.

#[local] Hint Resolve pr_ret pr_throw pr_unwrap pr_get_tree pr_attempt pres_charge pres_get pres_lookup
  pres_commit pres_transfer pres_register pres_new_actor pres_snapshot : core.

Ltac pr_step :=
  match goal with
  | |- pr (_ ≫= _) => apply pr_bind; [|intros ?; cbv beta]
  | |- pr (if ?b then _ else _) => destruct b
  | |- pr (match ?b with _ => _ end) => destruct b
  | |- _ => solve [eauto]
  end.

Lemma pr_validate f : pr (validate_once f).
Proof. unfold validate_once. repeat pr_step. Qed.
Lemma pr_get_balance a : pr (get_balance a).
Proof. unfold get_balance. repeat pr_step. Qed.
Lemma pr_get_code a : pr (get_actor_code a).
Proof. unfold get_actor_code. repeat pr_step. Qed.
Lemma pr_key a : pr (resolve_to_key_addr a).
Proof. unfold resolve_to_key_addr. repeat pr_step. Qed.
Lemma pr_make_actor a : pr (make_actor a).
Proof. unfold make_actor. repeat pr_step. Qed.
Lemma pr_create_actor c a : pr (rt_create_actor c a).
Proof.
  unfold rt_create_actor. repeat (case_if; [apply pr_throw|]). intros w.
  pose proof (pres_get_raw a w) as Hg. destruct (tree_get_actor a (tree w)) as [t r]. cbn in Hg.
  assert (Hset : pr (charge (on_create_actor prices) ≫= λ _ : unit, on_tree (tree_set_actor a
    {| code := c; state := empty_arr; sequence := 0; balance := 0 |}) new_fatal)) by repeat pr_step.
  destruct r as [[s|]|e]; [done|eapply pres_trans; [exact Hg|apply Hset]..].
Qed.

#[local] Hint Resolve pr_validate pr_get_balance pr_get_code pr_key pr_make_actor pr_create_actor : core.

Lemma run_preserves {A} (snd : Frame → Msg → IM U bytes) (p : Prog U A) :
  (∀ f m, pr (snd f m)) → deletes ∨ no_delete p → ∀ f base, pr (run snd p f base).
Proof.
  intros Hsnd Hdel. assert (Hd : ∀ a b, deletes → pr (rt_delete_actor a b)) by apply pres_delete.
  induction p as [[?|?]|? IH|? ? IH|? ? IH|? IH|? ? IH|? ? IH|? ? IH|? IH|? IH|? ? IH
                 |? ? ? ? ? IH|? IH|? ? ? IH|? ? IH|? IH|? ? IH|? ? IH]; intros f base; cbn [run];
    cbn [no_delete] in Hdel; repeat pr_step; try (apply IH; tauto); try (apply IH; naive_solver).
  all: try (destruct Hdel; [|done]; by auto).
Qed.

Context (Hcode : deletes ∨ ∀ c method params p rt, invoke_code c method params = Some p → no_delete (p rt)).

Lemma invoke_preserves snd c method params f : (∀ f m, pr (snd f m)) → pr (invoke snd c method params f).
Proof.
  intros Hsnd. unfold invoke. destruct (invoke_code c method params) as [p|] eqn:E; [|apply pr_throw].
  apply pr_bind; [|intros [ret f']; repeat pr_step].
  apply run_preserves; [done|]. destruct Hcode; [by left|right; eauto].
Qed.

Lemma try_create_preserves snd f a : (∀ f m, pr (snd f m)) → pr (try_create_account_actor snd f a).
Proof.
  intros Hsnd. unfold try_create_account_actor, make_actor.
  apply pr_bind; [eauto|intros _; cbv beta]. destruct (is_bls_zero_address a); [apply pr_throw|]. apply pr_bind; [eauto|intros id].
  destruct (protocol a); try apply pr_bind_throw;
    (apply pr_bind_ret; apply pr_bind; [apply pres_new_actor|]; intros ?; repeat pr_step).
Qed.

Lemma execute_send_preserves fuel f msg gas_cost : pr (execute_send fuel f msg gas_cost).
Proof.
  revert f msg gas_cost. induction fuel as [|fuel IH]; intros f msg gas_cost; cbn [execute_send]; [apply pr_throw|].
  assert (Hsnd : ∀ f m, pr (with_snapshot (execute_send fuel f m None))) by eauto.
  repeat first [pr_step | apply try_create_preserves; exact Hsnd | apply invoke_preserves; exact Hsnd].
Qed.

Lemma internal_send_preserves fuel f m : pr (internal_send fuel f m).
Proof. apply pres_snapshot, execute_send_preserves. Qed.

End preserve.

(** ** Only the newest layer changes, and gas stays within its limit *)

Section frame.
Context {U : Type} `{!EqDecision U, !StateIn InitState U, !StateIn AccountState U, !Machine U}.
Implicit Types t : StateTree U.

Definition fr t t' : Prop :=
  ∀ l ls, layers t = l :: ls → hamt t' = hamt t ∧ ∃ l', layers t' = l' :: ls.

Lemma fr_refl t : fr t t.
Proof. intros l ls ->. eauto. Qed.
Lemma fr_trans t1 t2 t3 : fr t1 t2 → fr t2 t3 → fr t1 t3.
Proof.
  intros H1 H2 l ls Hl. destruct (H1 _ _ Hl) as [Hh (l' & Hl')]. destruct (H2 _ _ Hl') as [Hh' ?].
  split; [congruence|done].
Qed.
Lemma read_ext_fr t t' : read_ext t t' → fr t t'.
Proof. intros (Hh & l & l' & ls & Hl & Hl' & _) ? ? ?. split; [done|]. exists l'. congruence. Qed.

Lemma fr_intro t t' : (layers t ≠ [] → fr t t') → fr t t'.
Proof. intros H l ls Hl. apply (H ltac:(congruence) l ls Hl). Qed.

Definition tpr {A} (m : TM U A) : Prop := ∀ t, fr t (m t).1.

Lemma tpr_bind {A B} (m : TM U A) (k : A → TM U B) : tpr m → (∀ a, tpr (k a)) → tpr (m ≫= k).
Proof.
  intros Hm Hk t. unfold mbind, tm_bind. specialize (Hm t). destruct (m t) as [t' [a|e]]; [|done].
  eapply fr_trans; [exact Hm|apply Hk].
Qed.
Lemma tpr_ret {A} (a : A) : tpr (mret a).
Proof. intros t. apply fr_refl. Qed.
Lemma tpr_err {A} e : tpr (tree_err (A:=A) e).
Proof. intros t. apply fr_refl. Qed.
Lemma tpr_lookup a : tpr (lookup_id a).
Proof.
  intros t. apply fr_intro. intros Hne. destruct (lookup_id_spec t a Hne) as (t' & r & -> & Hx & _).
  by apply read_ext_fr.
Qed.
Lemma tpr_get_id a : tpr (get_actor_id a).
Proof.
  intros t. apply fr_intro. intros Hne. destruct (get_actor_id_spec t a Hne) as (t' & -> & Hx & _).
  by apply read_ext_fr.
Qed.
Lemma tpr_insert a o : tpr (on_snaps (λ ls, snaps_insert ls a o)).
Proof. intros t l ls Hl. unfold on_snaps. rewrite Hl. cbn. eauto. Qed.
Lemma tpr_get a : tpr (tree_get_actor a).
Proof. apply tpr_bind; [apply tpr_lookup|]. intros [id|]; [apply tpr_get_id|apply tpr_ret]. Qed.
Lemma tpr_set a s : tpr (tree_set_actor a s).
Proof. apply tpr_bind; [apply tpr_lookup|]. intros [id|]; [apply tpr_insert|apply tpr_err]. Qed.
Lemma tpr_delete a : tpr (tree_delete_actor a).
Proof. apply tpr_bind; [apply tpr_lookup|]. intros [id|]; [apply tpr_insert|apply tpr_err]. Qed.
Lemma tpr_register a : tpr (register_new_address a).
Proof.
  apply tpr_bind; [apply tpr_get|]. intros [act|]; [|apply tpr_err].
  destruct (state_dec (state act)) as [ias|]; [|apply tpr_err]. cbn.
  apply tpr_bind; [apply tpr_set|intros; apply tpr_ret].
Qed.

(** Frame and gas, for worlds. *)
Definition frame_rel (w w' : World U) : Prop :=
  fr (tree w) (tree w') ∧ gas_available (gas w') = gas_available (gas w) ∧
  (gas_used (gas w) ≤ gas_available (gas w) → gas_used (gas w') ≤ gas_available (gas w)).

Lemma frame_refl w : frame_rel w w.
Proof. split_and!; [apply fr_refl|done|done]. Qed.
Lemma frame_trans w1 w2 w3 : frame_rel w1 w2 → frame_rel w2 w3 → frame_rel w1 w3.
Proof.
  intros (? & Ha & Hu) (? & Ha' & Hu'). split_and!; [by eapply fr_trans|congruence|].
  intros Hle. rewrite <-Ha. apply Hu'. rewrite Ha. auto.
Qed.

Lemma frame_on_tree {A} (m : TM U A) e : tpr m → pr frame_rel (on_tree m e).
Proof.
  intros Hm w. unfold on_tree. specialize (Hm (tree w)). by destruct (m (tree w)) as [t [a|e']].
Qed.
Lemma frame_charge c : pr frame_rel (charge c).
Proof.
  intros w. unfold charge. pose proof (tracker_charge_available (gas w) c).
  pose proof (tracker_charge_ok (gas w) c). destruct (tracker_charge_gas (gas w) c) as [g r].
  cbn in *. split_and!; [apply fr_refl|done|done].
Qed.
Lemma frame_bind {A B} (m : IM U A) (k : A → IM U B) :
  pr frame_rel m → (∀ a, pr frame_rel (k a)) → pr frame_rel (m ≫= k).
Proof.
  intros Hm Hk w. unfold mbind, im_bind. specialize (Hm w). destruct (m w) as [w' [a|e]]; [|done].
  eapply frame_trans; [exact Hm|apply Hk].
Qed.
Lemma frame_ret {A} (a : A) : pr frame_rel (mret a).
Proof. intros w. apply frame_refl. Qed.
Lemma frame_throw {A} e : pr frame_rel (throw (A:=A) e).
Proof. intros w. apply frame_refl. Qed.
Lemma frame_err {A} c : pr frame_rel (err (A:=A) c).
Proof. apply frame_throw. Qed.
Lemma frame_unwrap {A} (o : option A) e : pr frame_rel (unwrap o e).
Proof. destruct o; [apply frame_ret|apply frame_throw]. Qed.

(** What a send between a snapshot and its end does to the layers. *)
Lemma with_snapshot_spec (m : IM U bytes) w l ls :
  pr frame_rel m → layers (tree w) = l :: ls →
  let w1 := (on_tree snapshot new_fatal w).1 in
  layers (tree w1) = empty_layer :: l :: ls ∧ hamt (tree w1) = hamt (tree w) ∧
  ∃ w2 r, m w1 = (w2, r) ∧ frame_rel w1 w2 ∧
    ∃ l0 w', layers (tree w2) = l0 :: l :: ls ∧
      with_snapshot m w = (w', r) ∧ gas w' = gas w2 ∧ hamt (tree w') = hamt (tree w) ∧
      layers (tree w') = match r with
        | Ok _ => {| actors := actors l0 ∪ actors l; resolve_cache := resolve_cache l0 ∪ resolve_cache l |} :: ls
        | Err _ => l :: ls
        end.
Proof.
  intros Hm Hl w1.
  assert (H1 : layers (tree w1) = empty_layer :: l :: ls ∧ hamt (tree w1) = hamt (tree w)).
  { unfold w1, on_tree, snapshot, on_snaps. cbn. by rewrite Hl. }
  destruct H1 as [Hl1 Hh1]. split_and!; [done|done|].
  pose proof (Hm w1) as Hfr. destruct (m w1) as [w2 r] eqn:Em. exists w2, r. split; [done|]. split; [done|].
  destruct Hfr as (Hfr & _). destruct (Hfr _ _ Hl1) as (Hh2 & l0 & Hl2). cbn in Hh2, Hl2. exists l0.
  unfold with_snapshot. replace (on_tree snapshot new_fatal w) with (w1, Ok (E:=ActorError) tt) by done.
  rewrite Em. destruct r as [ret|e].
  - unfold on_tree at 1, clear_snapshot, on_snaps. rewrite Hl2. cbn.
    eexists; split_and!; [done|reflexivity|done|cbn; congruence|done].
  - unfold on_tree at 1, revert_to_snapshot, on_snaps. rewrite Hl2. cbn.
    eexists; split_and!; [done|reflexivity|done|cbn; congruence|]. cbn. f_equal.
    destruct l. by rewrite !(left_id_L ∅ (∪)).
Qed.

Lemma with_snapshot_gas (m : IM U bytes) w :
  gas (with_snapshot m w).1 = gas (m (on_tree snapshot new_fatal w).1).1.
Proof.
  unfold with_snapshot, on_tree, snapshot, on_snaps. cbn.
  destruct (m _) as [w2 [r|e]]; cbn.
  - destruct (clear_snapshot (tree w2)) as [t [?|?]]; done.
  - destruct (revert_to_snapshot (tree w2)) as [t [?|?]]; cbn; destruct (clear_snapshot t) as [t' [?|?]]; done.
Qed.

Lemma frame_snapshot m : pr frame_rel m → pr frame_rel (with_snapshot m).
Proof.
  intros Hm w. split.
  - intros l ls Hl. destruct (with_snapshot_spec m w l ls Hm Hl)
      as (_ & _ & w2 & r & _ & _ & l0 & w' & _ & -> & _ & Hh & Hl'). cbn. split; [done|]. rewrite Hl'. destruct r; eauto.
  - rewrite with_snapshot_gas. destruct (Hm (on_tree snapshot new_fatal w).1) as (_ & H). exact H.
Qed.

#[local] Hint Resolve frame_ret frame_throw frame_err frame_unwrap frame_charge frame_on_tree
  tpr_lookup tpr_get tpr_set tpr_delete tpr_register : core.
Ltac frame_step :=
  match goal with
  | |- pr frame_rel (_ ≫= _) => apply frame_bind; [|intros ?; cbv beta]
  | |- pr frame_rel (if ?b then _ else _) => destruct b
  | |- _ => solve [eauto]
  end.

Lemma frame_commit a u u' : pr frame_rel (state_commit a u u').
Proof. unfold state_commit. repeat frame_step. Qed.
Lemma frame_transfer a b v : pr frame_rel (transfer a b v).
Proof. unfold transfer. repeat frame_step. Qed.

#[local] Hint Resolve frame_commit frame_transfer : core.

#[export] Instance frame_preserved : Preserved frame_rel True.
Proof.
  split; try (intros; solve [eauto | apply frame_refl | by eapply frame_trans]).
  - intros a w. split_and!; [apply tpr_get|done|done].
  - intros a b _. unfold rt_delete_actor. repeat frame_step.
  - apply frame_snapshot.
Qed.

End frame.

(** ** Records of the tree *)

Section records.
Context {U : Type} `{!StateIn InitState U}.
Implicit Types (t : StateTree U) (P : ActorState U → Prop).

(** Every record in the HAMT and in the layers satisfies [P]. *)
Definition tree_all P t : Prop :=
  (∀ a s, hamt t !! a = Some s → P s) ∧
  ∀ l, l ∈ layers t → ∀ a s, actors l !! a = Some (Some s) → P s.
(** No deletion is pending. *)
Definition no_marks t : Prop := ∀ l, l ∈ layers t → ∀ a, actors l !! a ≠ Some None.

Lemma no_marks_unmarked t a : no_marks t → ¬ marked_deleted (layers t) a.
Proof.
  unfold no_marks. induction (layers t) as [|l ls IH]; cbn; [tauto|]. intros H.
  destruct (actors l !! a) as [o|] eqn:E; [|apply IH; set_solver]. intros ->.
  apply (H l) in E; [done|by left].
Qed.

Lemma no_marks_cur t a : no_marks t → cur t a = view t !! a.
Proof. intros. by apply cur_view, no_marks_unmarked. Qed.

Lemma tree_all_get P ls a s :
  (∀ l, l ∈ ls → ∀ a s, actors l !! a = Some (Some s) → P s) → snaps_get_actor ls a = Some s → P s.
Proof.
  induction ls as [|l ls IH]; cbn; [done|]. intros H. destruct (actors l !! a) as [o|] eqn:E.
  - intros ->. eapply (H l); [by left|exact E].
  - apply IH. set_solver.
Qed.

Lemma tree_all_cur P t a s : tree_all P t → cur t a = Some s → P s.
Proof.
  intros [Hh Hl]. unfold cur. destruct (snaps_get_actor (layers t) a) eqn:E.
  - intros [= <-]. by eapply tree_all_get.
  - apply Hh.
Qed.

Lemma read_ext_all P t t' : read_ext t t' → tree_all P t → tree_all P t'.
Proof.
  intros (Hh & l & l' & ls & Hl & Hl' & Ha & _) [HP HL]. split; [by rewrite Hh|].
  rewrite Hl'. rewrite Hl in HL. intros x [->|Hx]%elem_of_cons a s; [|apply HL; by right].
  destruct (Ha a) as [->|(s' & -> & _ & Hs)]; [apply HL; by left|]. intros [= ->]. eauto.
Qed.

Lemma read_ext_marks t t' : read_ext t t' → no_marks t → no_marks t'.
Proof.
  intros (Hh & l & l' & ls & Hl & Hl' & Ha & _) Hn x. rewrite Hl'. unfold no_marks in Hn. rewrite Hl in Hn.
  intros [->|Hx]%elem_of_cons a; [|apply Hn; by right].
  destruct (Ha a) as [->|(s' & -> & _)]; [apply Hn; by left|done].
Qed.

Lemma read_ext_view t t' : read_ext t t' → no_marks t → view t' = view t.
Proof.
  intros Hx Hn. pose proof (read_ext_marks _ _ Hx Hn). apply map_eq. intros a.
  by rewrite <-!no_marks_cur, (read_ext_cur _ _ _ Hx).
Qed.

Lemma ins_all P t l ls a s :
  layers t = l :: ls → P s → tree_all P t → tree_all P (with_layers t (ins l a (Some s) :: ls)).
Proof.
  intros Hl Hs [Hh HL]. split; [done|]. cbn. rewrite Hl in HL.
  intros x [->|Hx]%elem_of_cons b s'; [|apply HL; by right]. cbn.
  destruct (decide (a = b)) as [->|].
  - rewrite lookup_insert_eq. congruence.
  - rewrite lookup_insert_ne by done. apply HL. by left.
Qed.

Lemma ins_marks t l ls a s :
  layers t = l :: ls → no_marks t → no_marks (with_layers t (ins l a (Some s) :: ls)).
Proof.
  intros Hl Hn. unfold no_marks in *. cbn. rewrite Hl in Hn.
  intros x [->|Hx]%elem_of_cons b; [|apply Hn; by right]. cbn.
  destruct (decide (a = b)) as [->|]; [by rewrite lookup_insert_eq|].
  rewrite lookup_insert_ne by done. apply Hn. by left.
Qed.

Lemma ins_cache_ids t l ls a o :
  layers t = l :: ls → cache_ids t → cache_ids (with_layers t (ins l a o :: ls)).
Proof.
  intros Hl Hc. unfold cache_ids in *. rewrite Hl in Hc. cbn.
  intros x [->|Hx]%elem_of_cons b r; [apply (Hc l); by left|apply Hc; by right].
Qed.

Lemma ins_view t l ls a s :
  layers t = l :: ls → view (with_layers t (ins l a (Some s) :: ls)) = <[a := s]> (view t).
Proof. intros Hl. unfold view. cbn. rewrite overlay_ins, Hl. done. Qed.

Lemma tree_get_spec t a : layers t ≠ [] →
  ∃ t' r, tree_get_actor a t = (t', r) ∧ read_ext t t' ∧
    ∀ s, r = Ok (Some s) → ∃ id, resolves t' a id ∧ cur t' id = Some s.
Proof.
  intros Hne. unfold tree_get_actor, mbind, tm_bind.
  destruct (lookup_id_spec t a Hne) as (t1 & r & -> & Hx & Hr & _).
  destruct r as [[id|]|e]; [|by exists t1; eexists|by exists t1; eexists].
  destruct (get_actor_id_spec t1 id) as (t2 & -> & Hx2 & _); [by eapply read_ext_layers|].
  exists t2; eexists; split_and!; [done|by eapply read_ext_trans|]. intros s [= Hs]. exists id.
  split; [eapply read_ext_resolves; eauto|]. by rewrite (read_ext_cur _ _ _ Hx2).
Qed.

(** Merging or dropping the newest layer. *)
Lemma merge_all P t t' l0 l ls :
  layers t = l0 :: l :: ls → hamt t' = hamt t →
  layers t' = {| actors := actors l0 ∪ actors l; resolve_cache := resolve_cache l0 ∪ resolve_cache l |} :: ls →
  tree_all P t → tree_all P t'.
Proof.
  intros Hl Hh Hl' [HP HL]. split; [by rewrite Hh|]. rewrite Hl'. rewrite Hl in HL.
  intros x [->|Hx]%elem_of_cons a s; [|apply HL; set_solver]. cbn.
  intros [?|[_ ?]]%lookup_union_Some_raw; eapply HL; try done; set_solver.
Qed.
Lemma merge_marks t t' l0 l ls :
  layers t = l0 :: l :: ls →
  layers t' = {| actors := actors l0 ∪ actors l; resolve_cache := resolve_cache l0 ∪ resolve_cache l |} :: ls →
  no_marks t → no_marks t'.
Proof.
  intros Hl Hl' Hn x. unfold no_marks in Hn. rewrite Hl'. rewrite Hl in Hn.
  intros [->|Hx]%elem_of_cons a; [|apply Hn; set_solver]. cbn.
  intros [?|[_ ?]]%lookup_union_Some_raw; eapply Hn; try done; set_solver.
Qed.

End records.

(** ** The total of all balances *)

Section supply.
Context {U : Type} `{!EqDecision U, !StateIn InitState U, !StateIn AccountState U, !Machine U}.
Implicit Types (t : StateTree U) (w : World U).

Definition supply t : Z := map_sum balance (view t).
Definition supply_inv t : Prop :=
  layers t ≠ [] ∧ no_marks t ∧ cache_ids t ∧ tree_all (λ s, 0 ≤ balance s) t.

Definition supply_rel w w' : Prop :=
  frame_rel w w' ∧
  (supply_inv (tree w) → supply_inv (tree w') ∧ supply (tree w') ≤ supply (tree w)).

Lemma supply_refl w : supply_rel w w.
Proof. split; [apply frame_refl|done]. Qed.
Lemma supply_trans w1 w2 w3 : supply_rel w1 w2 → supply_rel w2 w3 → supply_rel w1 w3.
Proof.
  intros [F1 H1] [F2 H2]. split; [by eapply frame_trans|]. intros Hi.
  destruct (H1 Hi) as [Hi2 Hle]. destruct (H2 Hi2). split; [done|lia].
Qed.

Lemma read_ext_supply t t' : read_ext t t' → supply_inv t → supply_inv t' ∧ supply t' = supply t.
Proof.
  intros Hx (Hne & Hn & Hc & Ha). unfold supply. rewrite (read_ext_view _ _ Hx Hn). split; [|done].
  split_and!; [by eapply read_ext_layers|by eapply read_ext_marks|by eapply read_ext_cache_ids|by eapply read_ext_all].
Qed.

(** Writing a record through a resolved address. *)
Lemma set_supply t a id s :
  supply_inv t → resolves t a id → 0 ≤ balance s →
  ∃ t', tree_set_actor a s t = (t', Ok tt) ∧ supply_inv t' ∧ view t' = <[id := s]> (view t) ∧
    ∀ b, resolves t b = resolves t' b.
Proof.
  intros (Hne & Hn & Hc & Ha) Hr Hs. destruct (layers t) as [|l ls] eqn:Hl; [done|].
  rewrite (tree_set_actor_run _ _ _ _ _ _ Hl Hr). eexists; split; [reflexivity|]. split_and!.
  - split_and!; [done|by apply ins_marks|by apply ins_cache_ids|by apply ins_all].
  - by apply ins_view.
  - intros b. unfold resolves. by rewrite Hl.
Qed.

Lemma on_tree_eq {A} (m : TM U A) e w t r :
  m (tree w) = (t, r) →
  on_tree m e w = ({| tree := t; gas := gas w |},
    match r with Ok a => Ok a | Err x => Err (downcast x e) end).
Proof. unfold on_tree. intros ->. by destruct r. Qed.
Lemma im_bind_eq {A B} (m : IM U A) (k : A → IM U B) w :
  (m ≫= k) w = match m w with (w', Ok a) => k a w' | (w', Err e) => (w', Err e) end.
Proof. done. Qed.

Ltac im_simpl :=
  repeat first [rewrite im_bind_eq | progress cbn [unwrap mret im_ret throw err fst snd tree gas]].

Definition psup {A} (m : IM U A) : Prop := pr supply_rel m.

(** Steps that keep the frame only need to be checked on trees that satisfy
    the invariant. *)
Lemma psup_intro {A} (m : IM U A) :
  pr frame_rel m →
  (∀ w, supply_inv (tree w) → supply_inv (tree (m w).1) ∧ supply (tree (m w).1) ≤ supply (tree w)) →
  psup m.
Proof. intros Hf Hm w. split; [apply Hf|apply Hm]. Qed.

Lemma psup_read {A} (m : TM U A) e :
  (∀ t, layers t ≠ [] → read_ext t (m t).1) → tpr m → psup (on_tree m e).
Proof.
  intros Hr Ht. apply psup_intro; [by apply frame_on_tree|]. intros w Hi. pose proof (Hr (tree w) (proj1 Hi)) as Hx.
  unfold on_tree. destruct (m (tree w)) as [t' [a|e']]; cbn in *.
  all: destruct (read_ext_supply _ _ Hx Hi) as [Hi' Hle]; split; [done|lia].
Qed.

Lemma psup_lookup a e : psup (on_tree (lookup_id a) e).
Proof.
  apply psup_read; [|apply tpr_lookup]. intros t Hne. by destruct (lookup_id_spec t a Hne) as (t' & r & -> & Hx & _).
Qed.
Lemma psup_get a e : psup (on_tree (tree_get_actor a) e).
Proof.
  apply psup_read; [|apply tpr_get]. intros t Hne. by destruct (tree_get_spec t a Hne) as (t' & r & -> & Hx & _).
Qed.

(** Replacing the record of an actor by one with the same balance. *)
Lemma set_same_supply t a id s s' :
  supply_inv t → resolves t a id → cur t id = Some s → balance s' = balance s →
  ∃ t', tree_set_actor a s' t = (t', Ok tt) ∧ supply_inv t' ∧ supply t' = supply t.
Proof.
  intros Hi Hr Hc Hb. destruct (set_supply t a id s') as (t' & -> & Hi' & Hv & _); [done|done| |].
  { rewrite Hb. destruct Hi as (_ & _ & _ & Ha). by apply (tree_all_cur (λ s, 0 ≤ balance s) t id). }
  exists t'. split_and!; try done. unfold supply. rewrite Hv, map_sum_insert.
  destruct Hi as (_ & Hn & _). rewrite no_marks_cur in Hc by done. rewrite Hc. lia.
Qed.

Lemma psup_commit a u u' : psup (state_commit a u u').
Proof.
  apply psup_intro; [apply frame_commit|]. intros w Hi.
  destruct (tree_get_spec (tree w) a (proj1 Hi)) as (t1 & r & Hg & Hx & Hr).
  unfold state_commit. rewrite im_bind_eq, (on_tree_eq _ _ _ _ _ Hg).
  destruct (read_ext_supply _ _ Hx Hi) as [Hi1 Hs1]. destruct r as [[s|]|e]; im_simpl; [|split; [done|lia]..].
  destruct (Hr s) as (id & Hres & Hc); [done|]. case_decide; im_simpl; [|split; [done|lia]].
  destruct (set_same_supply t1 a id s (set_state s u')) as (t2 & Hset & Hi2 & Hs2); try done.
  erewrite on_tree_eq by exact Hset. cbn. split; [done|lia].
Qed.

Lemma psup_register a e : psup (on_tree (register_new_address a) e).
Proof.
  apply psup_intro; [apply frame_on_tree, tpr_register|]. intros w Hi.
  unfold on_tree, register_new_address, mbind, tm_bind.
  destruct (tree_get_spec (tree w) INIT_ACTOR_ADDR (proj1 Hi)) as (t1 & r & -> & Hx & Hr).
  destruct (read_ext_supply _ _ Hx Hi) as [Hi1 Hs1]. destruct r as [[s|]|e']; cbn; [|split; [done|lia]..].
  destruct (Hr s) as (id & Hres & Hc); [done|]. destruct (state_dec (state s)) as [ias|]; cbn; [|split; [done|lia]].
  destruct (set_same_supply t1 INIT_ACTOR_ADDR id s (set_state s (state_enc (map_address_to_new_id ias a).1)))
    as (t2 & Hset & Hi2 & Hs2); try done.
  cbn in Hset. rewrite Hset. cbn. split; [done|lia].
Qed.

Lemma psup_new_actor a c e :
  psup (on_tree (tree_set_actor a {| code := c; state := empty_arr; sequence := 0; balance := 0 |}) e).
Proof.
  apply psup_intro; [apply frame_on_tree, tpr_set|]. intros w Hi. set (s := Build_ActorState _ _ _ _ _).
  unfold on_tree. destruct (lookup_id_spec (tree w) a (proj1 Hi)) as (t1 & r & Hl & Hx & Hr & _).
  destruct (read_ext_supply _ _ Hx Hi) as [Hi1 Hs1].
  unfold tree_set_actor, mbind, tm_bind. rewrite Hl. destruct r as [[id|]|e']; cbn; [|split; [done|lia]..].
  destruct (set_supply t1 a id s) as (t2 & Hset & Hi2 & Hv & _); [done|auto|done|].
  unfold tree_set_actor, mbind, tm_bind in Hset. rewrite (resolves_lookup t1 a id) in Hset by auto.
  rewrite Hset. cbn. split; [done|]. rewrite <-Hs1. unfold supply. rewrite Hv, map_sum_insert. cbn.
  destruct (view t1 !! id) as [old|] eqn:E; [|lia]. destruct Hi1 as (_ & Hn1 & _ & Ha1).
  assert (0 ≤ balance old); [|lia].
  apply (tree_all_cur (λ s, 0 ≤ balance s) t1 id); [done|]. by rewrite no_marks_cur.
Qed.

(** Moving [v] from one record to another. *)
Lemma move_supply t from to from_id to_id f f' g v :
  supply_inv t → resolves t from from_id → resolves t to to_id → from_id ≠ to_id → 0 ≤ v →
  cur t from_id = Some f → cur t to_id = Some g → deduct_funds f v = Some f' →
  ∃ t1 t2, tree_set_actor from f' t = (t1, Ok tt) ∧ tree_set_actor to (deposit_funds g v) t1 = (t2, Ok tt) ∧
    supply_inv t2 ∧ supply t2 = supply t ∧
    view t2 = <[to_id := deposit_funds g v]> (<[from_id := f']> (view t)).
Proof.
  intros Hi Hrf Hrt Hne Hv Hf Hg Hd. unfold deduct_funds in Hd.
  destruct (Z.ltb_spec (balance f) v); [done|]. injection Hd as <-.
  set (f' := Build_ActorState _ _ _ _ _).
  assert (Hg0 : 0 ≤ balance g) by (apply (tree_all_cur (λ s, 0 ≤ balance s) t to_id); [apply Hi|done]).
  destruct (set_supply t from from_id f') as (t1 & Ht1 & Hi1 & Hv1 & Hres); [done|done|cbn; lia|].
  destruct (set_supply t1 to to_id (deposit_funds g v)) as (t2 & Ht2 & Hi2 & Hv2 & _); [done| |cbn; lia|].
  { rewrite <-Hres. done. }
  exists t1, t2. split_and!; try done; [|congruence]. unfold supply. rewrite Hv2, Hv1, !map_sum_insert.
  destruct Hi as (_ & Hn & _). rewrite no_marks_cur in Hf, Hg by done.
  rewrite lookup_insert_ne, Hf, Hg by done. cbn. lia.
Qed.

Lemma read_supply t t' t0 :
  read_ext t t' → supply_inv t ∧ supply t = supply t0 → supply_inv t' ∧ supply t' = supply t0.
Proof. intros Hx [Hi Hs]. destruct (read_ext_supply _ _ Hx Hi). split; [done|congruence]. Qed.

Lemma supply_eq_le t t0 : supply_inv t ∧ supply t = supply t0 → supply_inv t ∧ supply t ≤ supply t0.
Proof. intros [? ->]. done. Qed.

Lemma psup_transfer from to v : psup (transfer from to v).
Proof.
  apply psup_intro; [apply frame_transfer|]. intros w Hi. apply supply_eq_le. unfold transfer.
  case_decide; [done|].
  destruct (lookup_id_spec (tree w) from (proj1 Hi)) as (t1 & r1 & Hl1 & Hx1 & Hr1 & _).
  pose proof (read_supply _ _ (tree w) Hx1 (conj Hi eq_refl)) as Hs1.
  rewrite im_bind_eq, (on_tree_eq _ _ _ _ _ Hl1). destruct r1 as [[fid|]|]; im_simpl; [|done..].
  destruct (lookup_id_spec t1 to (proj1 (proj1 Hs1))) as (t2 & r2 & Hl2 & Hx2 & Hr2 & _).
  pose proof (read_supply _ _ _ Hx2 Hs1) as Hs2.
  erewrite on_tree_eq by exact Hl2. destruct r2 as [[tid|]|]; im_simpl; [|done..].
  case_decide; [done|]. destruct (Z.ltb_spec v 0); [done|]. im_simpl.
  destruct (tree_get_spec t2 fid (proj1 (proj1 Hs2))) as (t3 & r3 & Hl3 & Hx3 & Hr3).
  pose proof (read_supply _ _ _ Hx3 Hs2) as Hs3.
  erewrite on_tree_eq by exact Hl3. destruct r3 as [[f|]|]; im_simpl; [|done..].
  destruct (tree_get_spec t3 tid (proj1 (proj1 Hs3))) as (t4 & r4 & Hl4 & Hx4 & Hr4).
  pose proof (read_supply _ _ _ Hx4 Hs3) as Hs4.
  erewrite on_tree_eq by exact Hl4. destruct r4 as [[g|]|]; im_simpl; [|done..].
  destruct (deduct_funds f v) as [f'|] eqn:Hd; im_simpl; [|done].
  assert (Hc : cache_ids t2) by apply Hs2.
  assert (Hf : resolves t2 from fid) by (eapply read_ext_resolves; [exact Hx2|auto]).
  assert (Hg : resolves t2 to tid) by auto.
  destruct (Hr3 f) as (fid' & Hf' & Hcf); [done|]. destruct (Hr4 g) as (tid' & Hg' & Hcg); [done|].
  apply resolves_id in Hf'; [|by eapply resolves_is_id]. apply resolves_id in Hg'; [|by eapply resolves_is_id].
  subst fid' tid'. destruct (move_supply t4 from to fid tid f f' g v) as (t5 & t6 & Hs5 & Hs6 & Hi6 & Hsup & _);
    try done; [apply Hs4| | |by rewrite (read_ext_cur _ _ _ Hx4)|].
  - by eapply read_ext_resolves; [exact Hx4|eapply read_ext_resolves].
  - by eapply read_ext_resolves; [exact Hx4|eapply read_ext_resolves].
  - erewrite on_tree_eq by exact Hs5. erewrite on_tree_eq by exact Hs6. im_simpl.
    split; [done|]. rewrite Hsup. apply Hs4.
Qed.

(** A send inside its snapshot. *)
Lemma psup_snapshot m : psup m → psup (with_snapshot m).
Proof.
  intros Hm. assert (Hfr : pr frame_rel m) by (intros w; apply Hm).
  apply psup_intro; [by apply frame_snapshot|]. intros w Hi.
  destruct (layers (tree w)) as [|l ls] eqn:Hl; [by destruct Hi|].
  destruct (with_snapshot_spec m w l ls Hfr Hl) as (Hl1 & Hh1 & w2 & r & Em & _ & l0 & w' & Hl2 & -> & _ & Hh' & Hl').
  set (w1 := (on_tree snapshot new_fatal w).1) in *. clearbody w1. cbn [fst].
  destruct Hi as (_ & Hn & Hc & Ha).
  assert (Hi1 : supply_inv (tree w1)).
  { split_and!; [congruence|..].
    - unfold no_marks in *. rewrite Hl1. rewrite Hl in Hn.
      intros x [->|Hx]%elem_of_cons a; [cbn; by rewrite lookup_empty|by apply Hn].
    - unfold cache_ids in *. rewrite Hl1. rewrite Hl in Hc.
      intros x [->|Hx]%elem_of_cons a r'; [cbn; by rewrite lookup_empty|by apply Hc].
    - destruct Ha as [Hh Hls]. split; [by rewrite Hh1|]. rewrite Hl1. rewrite Hl in Hls.
      intros x [->|Hx]%elem_of_cons a s; [cbn; by rewrite lookup_empty|by apply Hls]. }
  assert (Hs1 : supply (tree w1) = supply (tree w)).
  { unfold supply, view. rewrite Hl1, Hh1, Hl. cbn. by rewrite overlay_empty. }
  destruct (Hm w1) as [Hf2 H2]. rewrite Em in Hf2, H2. cbn in Hf2, H2. destruct (H2 Hi1) as [(_ & Hn2 & Hc2 & Ha2) Hle].
  destruct Hf2 as (Hf2 & _). destruct (Hf2 _ _ Hl1) as [Hh2 _].
  destruct r as [ret|e].
  - split.
    + split_and!; [congruence|by eapply merge_marks| |eapply merge_all; [exact Hl2|congruence|exact Hl'|done]].
      unfold cache_ids in *. rewrite Hl'. rewrite Hl2 in Hc2.
      intros x [->|Hx]%elem_of_cons a r'; [|apply Hc2; set_solver]. cbn.
      intros [?|[_ ?]]%lookup_union_Some_raw; eapply Hc2; try done; set_solver.
    + rewrite <-Hs1. etrans; [|exact Hle]. unfold supply, view. rewrite Hl', Hh', Hl2, Hh2, Hh1. cbn.
      by rewrite overlay_union.
  - assert (tree w' = tree w) as ->; [|split; [split_and!; done || congruence|done]].
    destruct (tree w), (tree w'); cbn in *; congruence.
Qed.

#[export] Instance supply_preserved : Preserved supply_rel False.
Proof.
  split; try (intros; solve [apply supply_refl | by eapply supply_trans | done]).
  - intros c w. split; [apply frame_charge|]. intros Hi. unfold charge. by destruct (tracker_charge_gas (gas w) c).
  - apply psup_get.
  - intros a w. destruct (psup_get a new_fatal w) as [Hf Hs]. unfold on_tree in *.
    destruct (tree_get_actor a (tree w)) as [t [r|e]]; done.
  - apply psup_lookup.
  - apply psup_commit.
  - apply psup_transfer.
  - apply psup_register.
  - apply psup_new_actor.
  - apply psup_snapshot.
Qed.

End supply.
