(* ===== verification/InterpInv.v ===== *)
(** * Invariants of actor states hold throughout every execution

    The link between the logic of actor code ([Runtime.wp]) and the
    interpreter: if every method, run from any state that satisfies [I], only
    writes states that satisfy [I], then [I] holds of every state object in the
    tree after any send, however deep the calls nest, whichever of them fail,
    and even when an actor is called back while it waits for its own send. *)

From S2P Require Import Prelude Address Runtime Gas StateTree Interp InterpFacts.

Section invariant.
Context {U : Type} `{!EqDecision U, !StateIn InitState U, !StateIn AccountState U, !Machine U}.
Context (I : U → Prop).
Implicit Types (t : StateTree U) (w : World U).

Definition rec_ok (s : ActorState U) : Prop := I (state s) ∧ 0 ≤ balance s.
Definition ainv w : Prop :=
  layers (tree w) ≠ [] ∧ cache_ids (tree w) ∧ tree_all rec_ok (tree w).

(** [m] run in [w] keeps the invariant, also when it fails, and if it returns
    then as [Q] says. *)
Definition ht {A} w (m : IM U A) (Q : A → World U → Prop) : Prop :=
  match m w with (w', Ok a) => ainv w' ∧ Q a w' | (w', Err _) => ainv w' end.

Definition same_cur w w' : Prop := ∀ a, cur (tree w') a = cur (tree w) a.

Lemma ht_mono {A} w (m : IM U A) (Q Q' : A → World U → Prop) :
  (∀ a w', ainv w' → Q a w' → Q' a w') → ht w m Q → ht w m Q'.
Proof. unfold ht. destruct (m w) as [w' [a|e]]; naive_solver. Qed.
Lemma ht_bind {A B} w (m : IM U A) (k : A → IM U B) Q :
  ht w m (λ a w', ht w' (k a) Q) → ht w (m ≫= k) Q.
Proof. unfold ht. rewrite im_bind_eq. destruct (m w) as [w' [a|e]]; naive_solver. Qed.
Lemma ht_ret {A} w (a : A) (Q : A → World U → Prop) : ainv w → Q a w → ht w (mret a) Q.
Proof. done. Qed.
Lemma ht_throw {A} w e (Q : A → World U → Prop) : ainv w → ht w (throw e) Q.
Proof. done. Qed.
Lemma ht_unwrap {A} w (o : option A) e (Q : A → World U → Prop) :
  ainv w → (∀ a, o = Some a → Q a w) → ht w (unwrap o e) Q.
Proof. destruct o; [|done]. intros ? HQ. split; [done|by apply HQ]. Qed.

Lemma ainv_tree w w' : tree w' = tree w → ainv w → ainv w'.
Proof. unfold ainv. by intros ->. Qed.

Lemma ht_charge w c (Q : unit → World U → Prop) :
  ainv w → (∀ w', ainv w' → tree w' = tree w → Q tt w') → ht w (charge c) Q.
Proof.
  intros Hi HQ. unfold ht, charge. destruct (tracker_charge_gas (gas w) c) as [g [[]|e]].
  - split; [by eapply ainv_tree|]. by apply HQ; [eapply ainv_tree|].
  - by eapply ainv_tree.
Qed.

Lemma read_ext_ainv w t' : read_ext (tree w) t' → ainv w → ainv {| tree := t'; gas := gas w |}.
Proof.
  intros Hx (Hne & Hc & Ha). split_and!; [by eapply read_ext_layers|by eapply read_ext_cache_ids|by eapply read_ext_all].
Qed.

Lemma ht_lookup w a e (Q : option Address → World U → Prop) :
  ainv w →
  (∀ o w', ainv w' → same_cur w w' → (∀ id, o = Some id → is_id id ∧ resolves (tree w') a id) →
    (o = None → ∃ t, tree_get_actor a (tree w') = (t, Ok None)) → Q o w') →
  ht w (on_tree (lookup_id a) e) Q.
Proof.
  intros Hi HQ. destruct (lookup_id_spec (tree w) a (proj1 Hi)) as (t' & r & Hl & Hx & Hr & _).
  pose proof (read_ext_ainv _ _ Hx Hi) as Hi'.
  unfold ht. rewrite (on_tree_eq _ _ _ _ _ Hl). destruct r as [o|e']; [|done]. split; [done|].
  apply HQ; [done| | |intros ->; cbn; eapply lookup_none_get; [apply Hi|exact Hl]].
  - intros x. by apply read_ext_cur.
  - intros id ->. split; [eapply resolves_is_id; [apply Hi'|by apply Hr]|by apply Hr].
Qed.

Lemma ht_get w a e (Q : option (ActorState U) → World U → Prop) :
  ainv w →
  (∀ o w', ainv w' → same_cur w w' → (is_id a → o = cur (tree w) a) →
    (∀ s, o = Some s → rec_ok s ∧ ∃ id, is_id id ∧ resolves (tree w') a id ∧ cur (tree w) id = Some s) → Q o w') →
  ht w (on_tree (tree_get_actor a) e) Q.
Proof.
  intros Hi HQ. destruct (tree_get_spec (tree w) a (proj1 Hi)) as (t' & r & Hl & Hx & Hr).
  pose proof (read_ext_ainv _ _ Hx Hi) as Hi'.
  unfold ht. rewrite (on_tree_eq _ _ _ _ _ Hl). destruct r as [o|e']; [|done]. split; [done|]. apply HQ; [done| | |].
  - intros x. by apply read_ext_cur.
  - intros Ha. rewrite (tree_get_actor_id a) in Hl by done.
    destruct (get_actor_id_spec (tree w) a (proj1 Hi)) as (? & Hg & _). congruence.
  - intros s ->. destruct (Hr s) as (id & Hres & Hcur); [done|]. split.
    + eapply tree_all_cur; [apply Hi'|done].
    + exists id. split_and!; [by eapply resolves_is_id; [apply Hi'|]|done|]. by rewrite <-(read_ext_cur _ _ _ Hx).
Qed.

(** Writing a record. *)
Lemma ht_set w a id s e (Q : unit → World U → Prop) :
  ainv w → resolves (tree w) a id → rec_ok s →
  (∀ w', ainv w' → cur (tree w') id = Some s → (∀ x, x ≠ id → cur (tree w') x = cur (tree w) x) →
    (∀ b i, resolves (tree w) b i → resolves (tree w') b i) → Q tt w') →
  ht w (on_tree (tree_set_actor a s) e) Q.
Proof.
  intros Hi Hr Hs HQ. destruct (layers (tree w)) as [|l ls] eqn:Hl; [by destruct Hi|].
  unfold ht. rewrite (on_tree_eq _ _ _ _ _ (tree_set_actor_run _ _ _ _ _ _ Hl Hr)).
  assert (Hi' : ainv {| tree := with_layers (tree w) (ins l id (Some s) :: ls); gas := gas w |}).
  { destruct Hi as (_ & Hc & Ha). split_and!; [done|by apply ins_cache_ids|by apply ins_all]. }
  split; [done|]. apply HQ; [done| | |].
  - unfold cur. cbn. by rewrite lookup_insert_eq.
  - intros x Hx. unfold cur. cbn. rewrite lookup_insert_ne by done. by rewrite Hl.
  - intros b i. unfold resolves. cbn. by rewrite Hl.
Qed.

Lemma ht_commit w a old u (Q : unit → World U → Prop) :
  ainv w → is_id a → I u →
  (∀ w' s, ainv w' → cur (tree w) a = Some s → cur (tree w') a = Some (set_state s u) → Q tt w') →
  ht w (state_commit a old u) Q.
Proof.
  intros Hi Ha Hu HQ. unfold state_commit. apply ht_bind, ht_get; [done|]. intros o w1 Hi1 Hs1 Ho Hok.
  apply ht_bind, ht_unwrap; [done|]. intros s ->. destruct (Hok s) as ([_ Hb] & _); [done|].
  case_decide; [|done]. eapply ht_set; [done|by left|split; [done|exact Hb]|].
  intros w2 Hi2 Hc2 _ _. eapply HQ; [done|by rewrite <-Ho|done].
Qed.

Definition keeps {A} (m : IM U A) : Prop := ∀ w, ainv w → ht w m (λ _ _, True).

Lemma ht_keeps {A} w (m : IM U A) (Q : A → World U → Prop) :
  keeps m → ainv w → (∀ a w', ainv w' → Q a w') → ht w m Q.
Proof. intros Hm Hi HQ. eapply ht_mono; [|by apply Hm]. auto. Qed.

Lemma keeps_set a s e : rec_ok s → keeps (on_tree (tree_set_actor a s) e).
Proof.
  intros Hs w Hi. destruct (lookup_id_spec (tree w) a (proj1 Hi)) as (t1 & r & Hl & Hx & Hr & _).
  pose proof (read_ext_ainv _ _ Hx Hi) as Hi'. destruct r as [[id|]|e'].
  - assert (Hset : tree_set_actor a s (tree w) = tree_set_actor a s t1).
    { unfold tree_set_actor, mbind, tm_bind. rewrite Hl, (resolves_lookup t1 a id) by auto. done. }
    pose proof (ht_set {| tree := t1; gas := gas w |} a id s e (λ _ _, True) Hi') as Hht.
    unfold ht, on_tree in *. rewrite Hset. apply Hht; auto.
  - unfold ht, on_tree, tree_set_actor, mbind, tm_bind. by rewrite Hl.
  - unfold ht, on_tree, tree_set_actor, mbind, tm_bind. by rewrite Hl.
Qed.

Lemma keeps_transfer from to v : keeps (transfer from to v).
Proof.
  intros w Hi. unfold transfer. case_decide as Hft; [done|].
  apply ht_bind, ht_lookup; [done|]. intros o1 w1 Hi1 _ _ _. apply ht_bind, ht_unwrap; [done|]. intros fid _.
  apply ht_bind, ht_lookup; [done|]. intros o2 w2 Hi2 _ _ _. apply ht_bind, ht_unwrap; [done|]. intros tid _.
  case_decide as Hid; [done|]. destruct (Z.ltb_spec v 0) as [|Hv]; [done|].
  apply ht_bind, ht_get; [done|]. intros o3 w3 Hi3 _ _ Hf. apply ht_bind, ht_unwrap; [done|]. intros f ->.
  apply ht_bind, ht_get; [done|]. intros o4 w4 Hi4 _ _ Hg. apply ht_bind, ht_unwrap; [done|]. intros g ->.
  destruct (Hf f) as [[HIf Hbf] _]; [done|]. destruct (Hg g) as [[HIg Hbg] _]; [done|].
  apply ht_bind, ht_unwrap; [done|]. intros f' Hd.
  apply ht_bind, ht_keeps; [|done|].
  - apply keeps_set. unfold deduct_funds in Hd. destruct (Z.ltb_spec (balance f) v); [done|].
    injection Hd as <-. split; [done|cbn; lia].
  - intros _ w5 Hi5. apply keeps_set; [|done]. split; [done|cbn; lia].
Qed.

Lemma keeps_delete self b : keeps (rt_delete_actor self b).
Proof.
  intros w Hi. unfold rt_delete_actor. apply ht_bind, ht_charge; [done|]. intros w1 Hi1 _.
  apply ht_bind, ht_get; [done|]. intros o2 w2 Hi2 _ _ _. apply ht_bind, ht_unwrap; [done|]. intros act _.
  apply ht_bind, ht_keeps; [|done|].
  { intros w3 Hi3. destruct (negb (balance act =? 0)); [|done].
    apply ht_bind, ht_lookup; [done|]. intros o4 w4 Hi4 _ _ _. apply ht_bind, ht_unwrap; [done|]. intros id _.
    case_decide; [done|]. by apply keeps_transfer. }
  intros _ w3 Hi3. destruct (lookup_id_spec (tree w3) self (proj1 Hi3)) as (t4 & r & Hl & Hx & _).
  pose proof (read_ext_ainv _ _ Hx Hi3) as Hi4.
  unfold ht, on_tree, tree_delete_actor, mbind, tm_bind. rewrite Hl. destruct r as [[id|]|e]; [|done..].
  destruct Hi4 as (Hne & Hc & [Hh Ha]). unfold on_snaps, snaps_delete_actor, snaps_insert.
  destruct (layers t4) as [|l ls] eqn:Hl4; [done|]. split; [|done]. split_and!; [done|by apply (ins_cache_ids t4 l)|].
  split; [done|]. cbn in *. rewrite Hl4 in Ha. intros x [->|Hx']%elem_of_cons a s; [|apply Ha; by right]. cbn.
  intros [[_ ?]|[_ ?]]%lookup_insert_Some; [done|]. eapply Ha; [by left|done].
Qed.

Context (Hempty : I empty_arr).
Context (Hinit : ∀ u s a, I u → state_dec u = Some s → I (state_enc (map_address_to_new_id s a).1)).

Lemma new_rec_ok c : rec_ok {| code := c; state := empty_arr; sequence := 0; balance := 0 |}.
Proof. split; [exact Hempty|cbn; lia]. Qed.

Lemma keeps_create c a : keeps (rt_create_actor c a).
Proof.
  intros w Hi. unfold rt_create_actor. destruct (is_builtin_actor c); [|done].
  destruct (is_singleton_actor c); [done|]. cbn [negb].
  destruct (tree_get_spec (tree w) a (proj1 Hi)) as (t1 & r & Hl & Hx & _).
  pose proof (read_ext_ainv _ _ Hx Hi) as Hi1.
  assert (Hset : ht {| tree := t1; gas := gas w |} (charge (on_create_actor prices) ≫= λ _ : unit,
    on_tree (tree_set_actor a {| code := c; state := empty_arr; sequence := 0; balance := 0 |}) new_fatal) (λ _ _, True)).
  { apply ht_bind, ht_charge; [done|]. intros w2 Hi2 _. by apply keeps_set; [apply new_rec_ok|]. }
  unfold ht. rewrite Hl. by destruct r as [[s|]|e].
Qed.

Lemma ht_register w a e (Q : Address → World U → Prop) :
  ainv w → (∀ id w', ainv w' → is_id id → Q id w') → ht w (on_tree (register_new_address a) e) Q.
Proof.
  intros Hi HQ. destruct (tree_get_spec (tree w) INIT_ACTOR_ADDR (proj1 Hi)) as (t1 & r & Hl & Hx & Hr).
  pose proof (read_ext_ainv _ _ Hx Hi) as Hi1.
  unfold ht, on_tree, register_new_address, mbind, tm_bind. rewrite Hl. destruct r as [[act|]|e']; [|done..].
  destruct (Hr act) as (id & Hres & Hc); [done|].
  destruct (tree_all_cur _ _ _ _ (proj2 (proj2 Hi1)) Hc) as [HI Hb].
  destruct (state_dec (state act)) as [ias|] eqn:Es; [|done]. cbn.
  pose proof (keeps_set INIT_ACTOR_ADDR (set_state act (state_enc (map_address_to_new_id ias a).1)) e) as Hk.
  specialize (Hk ltac:(split; [by eapply Hinit|done]) {| tree := t1; gas := gas w |} Hi1).
  unfold ht, on_tree in Hk. cbn in Hk. destruct (tree_set_actor _ _ t1) as [t2 [x|x]]; [|done].
  destruct Hk as [Hi2 _]. split; [done|]. by apply HQ.
Qed.

Lemma keeps_snapshot m : pr frame_rel m → keeps m → keeps (with_snapshot m).
Proof.
  intros Hf Hm w Hi. destruct (layers (tree w)) as [|l ls] eqn:Hl; [by destruct Hi|].
  destruct (with_snapshot_spec m w l ls Hf Hl) as (Hl1 & Hh1 & w2 & r & Em & Hf2 & l0 & w' & Hl2 & Heq & _ & Hh' & Hl').
  set (w1 := (on_tree snapshot new_fatal w).1) in *. clearbody w1. destruct Hi as (Hne & Hc & [Hh Ha]).
  assert (Hi1 : ainv w1).
  { split_and!; [congruence| |split].
    - unfold cache_ids in *. rewrite Hl1. rewrite Hl in Hc.
      intros x [->|Hx]%elem_of_cons a r'; [cbn; by rewrite lookup_empty|by apply Hc].
    - by rewrite Hh1.
    - rewrite Hl1. rewrite Hl in Ha. intros x [->|Hx]%elem_of_cons a s; [cbn; by rewrite lookup_empty|by apply Ha]. }
  pose proof (Hm w1 Hi1) as Hht. unfold ht in *. rewrite Em in Hht. rewrite Heq.
  destruct Hf2 as (Hf2 & _). destruct (Hf2 _ _ Hl1) as [Hh2 _]. destruct r as [ret|e].
  - destruct Hht as [(_ & Hc2 & Ha2) _]. split; [|done].
    split_and!; [congruence| |eapply merge_all; [exact Hl2|congruence|exact Hl'|done]].
    unfold cache_ids in *. rewrite Hl'. rewrite Hl2 in Hc2.
    intros x [->|Hx]%elem_of_cons a r'; [|apply Hc2; set_solver]. cbn.
    intros [?|[_ ?]]%lookup_union_Some_raw; eapply Hc2; try done; set_solver.
  - apply (ainv_tree w); [|done]. destruct (tree w), (tree w'); cbn in *; congruence.
Qed.

(** The state object and balance of the running actor. *)
Definition tracked w a u b : Prop :=
  match cur (tree w) a with Some s => state s = u ∧ balance s = b | None => b = 0 end.

Lemma tracked_same w w' a u b : same_cur w w' → tracked w a u b → tracked w' a u b.
Proof. unfold tracked. intros Hs. by rewrite Hs. Qed.
Lemma tracked_tree w w' a u b : tree w' = tree w → tracked w a u b → tracked w' a u b.
Proof. unfold tracked. by intros ->. Qed.

Lemma tracked_pick w a : ainv w → ∃ u b, tracked w a u b ∧ I u ∧ 0 ≤ b.
Proof.
  intros (_ & _ & Ha). unfold tracked. destruct (cur (tree w) a) as [s|] eqn:E.
  - destruct (tree_all_cur _ _ _ _ Ha E). by exists (state s), (balance s).
  - exists empty_arr, 0. split_and!; [done|exact Hempty|lia].
Qed.

Lemma ht_validate w f (Q : Frame → World U → Prop) :
  ainv w → (∀ f', ctx f' = ctx f → Q f' w) → ht w (validate_once f) Q.
Proof. intros Hi HQ. unfold validate_once. case_if; [done|]. split; [done|by apply HQ]. Qed.

Lemma ht_code w a (Q : option Code → World U → Prop) :
  ainv w → (∀ o w', ainv w' → same_cur w w' → Q o w') → ht w (get_actor_code a) Q.
Proof. intros Hi HQ. apply ht_bind, ht_get; [done|]. intros o w' Hi' Hs _ _. split; auto. Qed.

Section run.
Context (snd : Frame → Msg → IM U bytes) (Hsnd : ∀ f m w, ainv w → ainv (snd f m w).1).

Lemma run_keeps {A} (Gc : U → Z → Message → Prop) (p : Prog U A) :
  ∀ f base w u b Q, ainv w → is_id (receiver (ctx f)) → tracked w (receiver (ctx f)) u b → I u → 0 ≤ b →
    wp Gc I (ctx f) p u b Q → ht w (run snd p f base) (λ _ _, True).
Proof.
  induction p as [[?|?]|? IH|? ? IH|? ? IH|? IH|? ? IH|? ? IH|? ? IH|? IH|? IH|? ? IH
                 |? ? ? ? ? IH|? IH|? ? ? IH|? ? IH|? IH|? ? IH|? ? IH];
    intros f base w u0 b0 Q Hi Hid Ht Hu Hb Hwp; cbn [run]; cbn [wp] in Hwp.
  - done.
  - done.
  - apply ht_bind, ht_validate; [done|]. intros f' Hf. rewrite <-Hf in *. by eapply IH.
  - apply ht_bind, ht_validate; [done|]. intros f' Hf. rewrite <-Hf in *. case_bool_decide; [|done].
    eapply IH; eauto.
  - apply ht_bind, ht_validate; [done|]. intros f' Hf. rewrite <-Hf in *.
    apply ht_bind, ht_code; [done|]. intros o w' Hi' Hs. apply ht_bind, ht_unwrap; [done|]. intros c _.
    case_bool_decide; [|done]. eapply IH; eauto using tracked_same.
  - unfold get_balance. apply ht_bind, ht_bind, ht_get; [done|]. intros o w' Hi' Hs Ho _. split; [done|].
    rewrite Ho by done. pose proof Ht as Ht'. unfold tracked in Ht'.
    replace (match cur (tree w) (receiver (ctx f)) with Some act => balance act | None => 0 end) with b0
      by (destruct (cur (tree w) (receiver (ctx f))); [by destruct Ht'|done]).
    eapply IH; eauto using tracked_same.
  - apply ht_bind, ht_lookup; [done|]. intros o w' Hi' Hs Ho _.
    eapply IH; eauto using tracked_same. apply Hwp. intros id ->. by destruct (Ho id).
  - apply ht_bind, ht_code; [done|]. intros o w' Hi' Hs. eapply IH; eauto using tracked_same.
  - apply ht_bind, ht_charge; [done|]. intros w1 Hi1 Hw1. destruct Hwp as [HI Hwp].
    apply ht_bind, ht_commit; [done|done|done|]. intros w2 s Hi2 Hc1 Hc2.
    eapply IH; eauto. unfold tracked in *. rewrite Hw1 in Hc1. rewrite Hc1 in Ht. rewrite Hc2. cbn. by destruct Ht.
  - apply ht_bind, ht_get; [done|]. intros o w1 Hi1 Hs Ho _. apply ht_bind, ht_unwrap; [done|]. intros s ->.
    apply ht_bind, ht_charge; [done|]. intros w2 Hi2 Hw2.
    assert (state s = u0) as -> by (unfold tracked in Ht; rewrite <-Ho in Ht by done; by destruct Ht).
    eapply IH; eauto using tracked_same, tracked_tree.
  - apply ht_bind, ht_get; [done|]. intros o w1 Hi1 Hs Ho _. apply ht_bind, ht_unwrap; [done|]. intros s ->.
    apply ht_bind, ht_charge; [done|]. intros w2 Hi2 Hw2.
    assert (state s = u0) as -> by (unfold tracked in Ht; rewrite <-Ho in Ht by done; by destruct Ht).
    eapply IH; eauto using tracked_same, tracked_tree.
  - apply ht_bind, ht_unwrap; [done|]. intros old _. destruct Hwp as [HI Hwp].
    apply ht_bind, ht_charge; [done|]. intros w1 Hi1 Hw1. apply ht_bind, ht_charge; [done|]. intros w2 Hi2 Hw2.
    apply ht_bind, ht_commit; [done|done|done|]. intros w3 s Hi3 Hc2 Hc3.
    eapply IH; eauto. unfold tracked in *. rewrite Hw2, Hw1 in Hc2. rewrite Hc2 in Ht. cbn. rewrite Hc3. cbn. by destruct Ht.
  - destruct Hwp as [_ Hwp]. case_if; [eapply IH; eauto|]. set (mm := Build_Msg _ _ _ _ _).
    apply ht_bind. unfold ht at 1, attempt. pose proof (Hsnd f mm w Hi) as Hi'.
    destruct (snd f mm w) as [w' r]. split; [done|].
    destruct (tracked_pick w' (receiver (ctx f)) Hi') as (u' & b' & Ht' & Hu' & Hb'). eapply IH; eauto.
  - unfold resolve_to_key_addr. apply ht_bind. case_decide; [split; [done|]; eapply IH; eauto|].
    apply ht_bind, ht_get; [done|]. intros o w' Hi' Hs _ _. apply ht_bind, ht_unwrap; [done|]. intros act _.
    apply ht_bind, ht_unwrap; [done|]. intros st _. split; [done|]. eapply IH; eauto using tracked_same.
  - apply ht_bind, ht_keeps; [apply keeps_create|done|]. intros _ w' Hi'.
    destruct (tracked_pick w' (receiver (ctx f)) Hi') as (u' & b' & Ht' & Hu' & Hb'). eapply IH; eauto.
  - apply ht_bind, ht_keeps; [apply keeps_delete|done|]. intros _ w' Hi'.
    destruct (tracked_pick w' (receiver (ctx f)) Hi') as (u' & b' & Ht' & Hu' & Hb'). eapply IH; eauto.
  - apply ht_bind. split; [done|]. apply ht_bind, ht_unwrap; [done|]. intros z _. eapply IH; eauto.
  - apply ht_bind, ht_charge; [done|]. intros w1 Hi1 Hw1. eapply IH; eauto using tracked_tree.
  - apply ht_bind, ht_charge; [done|]. intros w1 Hi1 Hw1. apply ht_bind. split; [done|].
    eapply IH; eauto using tracked_tree.
Qed.

End run.

Context (Hcode : ∀ c method params p, invoke_code c method params = Some p →
  ∀ rt u b, I u → 0 ≤ b → wp (λ _ _ _, True) I rt (p rt) u b (λ _ _ _, True)).

Lemma invoke_keeps snd c method params f w :
  (∀ f m w, ainv w → ainv (snd f m w).1) → ainv w → is_id (receiver (ctx f)) →
  ht w (invoke snd c method params f) (λ _ _, True).
Proof.
  intros Hsnd Hi Hid. unfold invoke. destruct (invoke_code c method params) as [p|] eqn:Hp; [|done].
  destruct (tracked_pick w (receiver (ctx f)) Hi) as (u & b & Ht & Hu & Hb).
  apply ht_bind. eapply ht_mono; [|eapply run_keeps; [exact Hsnd|done|done|exact Ht|done|done|by eapply Hcode]].
  intros [ret f'] w' Hi' _. by case_if.
Qed.

Lemma try_create_keeps snd f a w (Q : ActorState U * Address → World U → Prop) :
  (∀ f m w, ainv w → ainv (snd f m w).1) → ainv w →
  (∀ act id w', ainv w' → is_id id → Q (act, id) w') → ht w (try_create_account_actor snd f a) Q.
Proof.
  intros Hsnd Hi HQ. unfold try_create_account_actor. apply ht_bind, ht_charge; [done|]. intros w1 Hi1 _.
  case_if; [done|]. apply ht_bind, ht_register; [done|]. intros id w2 Hi2 Hid.
  apply ht_bind. assert (Hm : ht w2 (make_actor a) (λ act _, rec_ok act)).
  { unfold make_actor. destruct (protocol a); try done; (split; [done|apply new_rec_ok]). }
  eapply ht_mono; [|exact Hm]. intros act0 w3 Hi3 Hok.
  apply ht_bind, ht_keeps; [by apply keeps_set|done|]. intros _ w4 Hi4. apply ht_bind. unfold ht at 1.
  set (mm := Build_Msg _ _ _ _ _). pose proof (Hsnd f mm w4 Hi4) as Hi5.
  destruct (snd f mm w4) as [w5 [ret|e]]; [|done]. split; [done|].
  apply ht_bind, ht_get; [done|]. intros o w6 Hi6 _ _ _. apply ht_bind, ht_unwrap; [done|]. intros act _.
  split; [done|by apply HQ].
Qed.

Lemma execute_send_keeps fuel f msg gas_cost : keeps (execute_send fuel f msg gas_cost).
Proof.
  revert f msg gas_cost. induction fuel as [|fuel IH]; intros pf msg gas_cost w Hi; cbn [execute_send]; [done|].
  assert (Hsnd : ∀ f m w, ainv w → ainv (with_snapshot (execute_send fuel f m None) w).1).
  { intros f m w' Hi'. assert (Hfr : pr frame_rel (execute_send fuel f m None)).
    { eapply (execute_send_preserves frame_rel); by left. }
    pose proof (keeps_snapshot _ Hfr (IH f m None) w' Hi') as Hk. unfold ht in Hk.
    destruct (with_snapshot _ w') as [w2 [r|e]]; [by destruct Hk|done]. }
  apply ht_bind, ht_lookup; [done|]. intros oc w1 Hi1 _ _ _. apply ht_bind, ht_unwrap; [done|]. intros clr _.
  apply ht_bind, ht_lookup; [done|]. intros orc w2 Hi2 _ Hrc Hnone.
  apply ht_bind. eapply ht_mono.
  2:{ instantiate (1 := λ _ w', tree w' = tree w2). destruct gas_cost as [g|]; [by apply ht_charge|done]. }
  intros [] w3 Hi3 Hw3; cbn beta in Hw3. apply ht_bind.
  eapply (ht_mono _ _ (λ oact w', is_Some oact → is_id (default (m_to msg) orc))).
  2:{ destruct orc as [rid|]; [apply ht_get; [done|]; intros; by apply Hrc|].
      destruct (Hnone eq_refl) as (t & Hg). rewrite <-Hw3 in Hg. unfold ht. rewrite (on_tree_eq _ _ _ _ _ Hg).
      destruct (tree_get_spec (tree w3) (m_to msg) (proj1 Hi3)) as (t' & r & Hg' & Hx & _).
      rewrite Hg in Hg'. injection Hg' as <- <-. split; [by apply read_ext_ainv|]. by intros [? ?]. }
  intros oact w4 Hi4 Hact.
  apply ht_bind. eapply (ht_mono _ _ (λ af _, is_id (receiver (ctx af.2)))).
  { intros [act f] w5 Hi5 Hid. apply ht_bind, ht_charge; [done|]. intros w6 Hi6 _. apply ht_bind.
    eapply ht_mono; [|instantiate (1 := λ _ _, True); case_if; [by apply keeps_transfer|done]].
    intros _ w7 Hi7 _. case_if; [|done]. apply ht_bind, ht_charge; [done|]. intros w8 Hi8 _. by apply invoke_keeps. }
  destruct oact as [act|].
  - split; [done|]. cbn. by apply Hact.
  - apply ht_bind, try_create_keeps; [done|done|]. intros act id w5 Hi5 Hid. by split.
Qed.

End invariant.
