(* ===== verification/SimpleActors.v ===== *)
(** * System, init, cron and account actors

    [src/vm/actor/src/builtin/{system,init,cron,account}]. *)

From S2P Require Import Prelude Address Runtime StateTree Interp.

Section actors.
Context {U : Type} (empty_arr : U).

(** ** System: its state is the empty array *)

Definition system_constructor : Prog U unit :=
  _ ← validate_immediate_caller_is [SYSTEM_ACTOR_ADDR];
  Create empty_arr (mret tt).

Definition system_invoke_method (method : Z) (params : bytes) (rt : Ctx) : Prog U bytes :=
  if method =? METHOD_CONSTRUCTOR then _ ← system_constructor; mret [] else invalid_method.

(** ** Account *)

Section account.
Context `{!StateIn AccountState U, !Dec Address, !Enc Address}.

Definition account_constructor (address : Address) : Prog U unit :=
  _ ← validate_immediate_caller_is [SYSTEM_ACTOR_ADDR];
  match protocol address with
  | ProtocolSecp256k1 | ProtocolBLS => create {| account_address := address |}
  | _ => abort ErrIllegalArgument
  end.

Definition pubkey_address : Prog U Address :=
  _ ← validate_immediate_caller_accept_any;
  st ← get_state;
  mret (account_address st).

Definition account_invoke_method (method : Z) (params : bytes) (rt : Ctx) : Prog U bytes :=
  if method =? METHOD_CONSTRUCTOR then call_unit params account_constructor
  else if method =? 2 then r ← pubkey_address; mret (enc r)
  else invalid_method.

End account.

(** ** Init *)

Record InitConstructorParams := { icp_network_name : bytes }.
Record ExecParams := { code_cid : Code; constructor_params : bytes }.
Record ExecReturn := { id_address : Address; robust_address : Address }.

Definition can_exec (caller exec : Code) : bool :=
  (bool_decide (exec = MINER_ACTOR_CODE_ID) && bool_decide (caller = POWER_ACTOR_CODE_ID))
  || bool_decide (exec = MULTISIG_ACTOR_CODE_ID) || bool_decide (exec = PAYCH_ACTOR_CODE_ID).

Section init.
Context `{!StateIn InitState U, !Dec InitConstructorParams, !Dec ExecParams, !Enc ExecReturn}.

Definition init_constructor (params : InitConstructorParams) : Prog U unit :=
  _ ← validate_immediate_caller_is [SYSTEM_ACTOR_ADDR];
  create (init_state_new (icp_network_name params)).

Definition exec (rt : Ctx) (params : ExecParams) : Prog U ExecReturn :=
  _ ← validate_immediate_caller_accept_any;
  caller_code ← get_actor_code_cid (caller rt);
  caller_code ← unwrap_or_abort caller_code ErrIllegalState;
  _ ← abort_if (negb (can_exec caller_code (code_cid params))) ErrForbidden;
  robust ← new_actor_address;
  id ← transaction (λ s : InitState, mret (map_address_to_new_id s robust));
  _ ← create_actor (code_cid params) id;
  _ ← send_ id METHOD_CONSTRUCTOR (constructor_params params) (value_received rt);
  mret {| id_address := id; robust_address := robust |}.

Definition init_invoke_method (method : Z) (params : bytes) (rt : Ctx) : Prog U bytes :=
  if method =? METHOD_CONSTRUCTOR then call_unit params init_constructor
  else if method =? 2 then call_ret params (exec rt)
  else invalid_method.

End init.

(** ** Cron *)

Record CronEntry := { entry_receiver : Address; entry_method : Z }.
Record CronState := { entries : list CronEntry }.
Record CronConstructorParams := { ccp_entries : list CronEntry }.

Section cron.
Context `{!StateIn CronState U, !Dec CronConstructorParams}.

Definition cron_constructor (params : CronConstructorParams) : Prog U unit :=
  _ ← validate_immediate_caller_is [SYSTEM_ACTOR_ADDR];
  create {| entries := ccp_entries params |}.

(** Errors of the entries are logged and ignored. *)
Fixpoint send_entries (es : list CronEntry) : Prog U unit :=
  match es with
  | [] => mret tt
  | e :: es => _ ← send (entry_receiver e) (entry_method e) [] 0; send_entries es
  end.

Definition epoch_tick : Prog U unit :=
  _ ← validate_immediate_caller_is [SYSTEM_ACTOR_ADDR];
  st ← get_state;
  send_entries (entries st).

Definition cron_invoke_method (method : Z) (params : bytes) (rt : Ctx) : Prog U bytes :=
  if method =? METHOD_CONSTRUCTOR then call_unit params cron_constructor
  else if method =? 2 then _ ← epoch_tick; mret []
  else invalid_method.

End cron.
End actors.
