(* ===== verification/Multisig.v ===== *)
(** * The multisig actor

    [src/vm/actor/src/builtin/multisig/{mod,state,types}.rs].  [Propose] and
    [Approve] execute the transaction once enough signers have approved it,
    and the transaction may call anything, the multisig itself included.  The
    HAMT of pending transactions is the finite map it implements. *)

From S2P Require Import Prelude Address Runtime.

Definition SIGNERS_MAX : Z := 256.

Record Transaction := {
  t_to : Address; t_value : Z; t_method : Z; t_params : bytes; approved : list Address }.

Record MultisigState := {
  signers : list Address; num_approvals_threshold : Z; next_tx_id : Z;
  initial_balance : Z; start_epoch : Z; unlock_duration : Z;
  pending_txs : gmap Z Transaction }.

Record MsConstructorParams := {
  mcp_signers : list Address; mcp_threshold : Z; mcp_unlock_duration : Z; mcp_start_epoch : Z }.
Record ProposeParams := { pp_to : Address; pp_value : Z; pp_method : Z; pp_params : bytes }.
Record ProposeReturn := { pr_txn_id : Z; pr_applied : bool; pr_code : ExitCode; pr_ret : bytes }.
Record TxnIDParams := { tp_id : Z; tp_proposal_hash : bytes }.
Record ApproveReturn := { ar_applied : bool; ar_code : ExitCode; ar_ret : bytes }.
Record AddSignerParams := { as_signer : Address; as_increase : bool }.
Record RemoveSignerParams := { rs_signer : Address; rs_decrease : bool }.
Record SwapSignerParams := { ss_from : Address; ss_to : Address }.
Record ChangeThresholdParams := { ct_new_threshold : Z }.
Record LockBalanceParams := { lb_start_epoch : Z; lb_unlock_duration : Z; lb_amount : Z }.
Record ProposalHashData := {
  ph_requester : option Address; ph_to : Address; ph_value : Z; ph_method : Z; ph_params : bytes }.

(** ** [state.rs] *)

Definition is_signer (s : MultisigState) (a : Address) : bool := bool_decide (a ∈ signers s).

Definition set_locked (s : MultisigState) (start duration amount : Z) : MultisigState :=
  {| signers := signers s; num_approvals_threshold := num_approvals_threshold s;
     next_tx_id := next_tx_id s; initial_balance := amount; start_epoch := start;
     unlock_duration := duration; pending_txs := pending_txs s |}.

(** [Integer::div_ceil]. *)
Definition div_ceil (a b : Z) : Z := - ((- a) / b).

Definition amount_locked (s : MultisigState) (elapsed_epoch : Z) : Z :=
  if unlock_duration s <=? elapsed_epoch then 0
  else if elapsed_epoch <=? 0 then initial_balance s
  else
    let remaining_lock_duration := unlock_duration s - elapsed_epoch in
    div_ceil (initial_balance s * remaining_lock_duration) (unlock_duration s).

Definition with_pending (s : MultisigState) (m : gmap Z Transaction) : MultisigState :=
  {| signers := signers s; num_approvals_threshold := num_approvals_threshold s;
     next_tx_id := next_tx_id s; initial_balance := initial_balance s; start_epoch := start_epoch s;
     unlock_duration := unlock_duration s; pending_txs := m |}.
Definition with_signers (s : MultisigState) (l : list Address) (threshold : Z) : MultisigState :=
  {| signers := l; num_approvals_threshold := threshold;
     next_tx_id := next_tx_id s; initial_balance := initial_balance s; start_epoch := start_epoch s;
     unlock_duration := unlock_duration s; pending_txs := pending_txs s |}.
Definition with_approved (t : Transaction) (l : list Address) : Transaction :=
  {| t_to := t_to t; t_value := t_value t; t_method := t_method t; t_params := t_params t; approved := l |}.

(** [Vec::retain(|s| s != addr)]. *)
Definition retain (a : Address) (l : list Address) : list Address :=
  List.filter (λ x, negb (bool_decide (x = a))) l.

(** Each pending transaction is visited once; the order does not matter. *)
Definition purge_txn (a : Address) (t : Transaction) : option Transaction :=
  if bool_decide (a ∈ approved t) then
    let l := retain a (approved t) in
    match l with [] => None | _ => Some (with_approved t l) end
  else Some t.
Definition purge_approvals (s : MultisigState) (a : Address) : MultisigState :=
  with_pending s (omap (purge_txn a) (pending_txs s)).

Inductive MultisigError := SpendNegative | BalanceTooLow | AmountLocked.

Definition check_available (s : MultisigState) (balance amount_to_spend curr_epoch : Z)
    : result MultisigError unit :=
  if amount_to_spend <? 0 then Err SpendNegative
  else if balance <? amount_to_spend then Err BalanceTooLow
  else if amount_to_spend =? 0 then Ok tt
  else
    let remaining_balance := balance - amount_to_spend in
    if remaining_balance <? amount_locked s (curr_epoch - start_epoch s) then Err AmountLocked
    else Ok tt.

(** ** [mod.rs] *)

Section multisig.
Context {U : Type} `{!StateIn MultisigState U, !Enc ProposalHashData}.
(** Whether deleting an absent key from the HAMT of pending transactions
    returns ([hamt_delete_absent_panics]); a panic is [SysErrActorPanic]. *)
Context (absent_delete_ok : gmap Z Transaction → Z → bool).
Context (rt : Ctx).

Fixpoint resolve_signers (l resolved : list Address) : Prog U (list Address) :=
  match l with
  | [] => mret resolved
  | signer :: l =>
      id ← resolve_to_id_addr signer ErrIllegalState;
      _ ← abort_if (bool_decide (id ∈ resolved)) ErrIllegalArgument;
      resolve_signers l (resolved ++ [id])
  end.

Definition ms_constructor (params : MsConstructorParams) : Prog U unit :=
  _ ← validate_immediate_caller_is [INIT_ACTOR_ADDR];
  let n := Z.of_nat (length (mcp_signers params)) in
  _ ← abort_if (bool_decide (mcp_signers params = [])) ErrIllegalArgument;
  _ ← abort_if (SIGNERS_MAX <? n) ErrIllegalArgument;
  resolved ← resolve_signers (mcp_signers params) [];
  _ ← abort_if (n <? mcp_threshold params) ErrIllegalArgument;
  _ ← abort_if (mcp_threshold params <? 1) ErrIllegalArgument;
  _ ← abort_if (mcp_unlock_duration params <? 0) ErrIllegalArgument;
  let st := {| signers := resolved; num_approvals_threshold := mcp_threshold params; next_tx_id := 0;
               initial_balance := 0; start_epoch := 0; unlock_duration := 0; pending_txs := ∅ |} in
  let st := if negb (mcp_unlock_duration params =? 0)
            then set_locked st (mcp_start_epoch params) (mcp_unlock_duration params) (value_received rt)
            else st in
  create st.

Definition compute_proposal_hash (txn : Transaction) : Prog U bytes :=
  h ← syscall (HashBlake2b (enc {| ph_requester := head (approved txn); ph_to := t_to txn;
         ph_value := t_value txn; ph_method := t_method txn; ph_params := t_params txn |}));
  unwrap_or_abort h ErrIllegalState.

Definition get_transaction (ptx : gmap Z Transaction) (txn_id : Z) (proposal_hash : bytes) : Prog U Transaction :=
  txn ← unwrap_or_abort (ptx !! txn_id) ErrNotFound;
  match proposal_hash with
  | [] => mret txn
  | _ =>
      calculated_hash ← compute_proposal_hash txn;
      _ ← abort_if (negb (bool_decide (proposal_hash = calculated_hash))) ErrIllegalArgument;
      mret txn
  end.

Definition delete_pending (s : MultisigState) (id : Z) : Prog U MultisigState :=
  match pending_txs s !! id with
  | Some _ => mret (with_pending s (delete id (pending_txs s)))
  | None => if absent_delete_ok (pending_txs s) id then mret s else abort SysErrActorPanic
  end.

(** The transaction is deleted only after the send returned. *)
Definition execute_transaction_if_approved (st : MultisigState) (txn_id : Z) (txn : Transaction)
    : Prog U (bool * bytes * ExitCode) :=
  if num_approvals_threshold st <=? Z.of_nat (length (approved txn)) then
    balance ← current_balance;
    _ ← abort_if (negb (is_ok (check_available st balance (t_value txn) (curr_epoch rt)))) ErrInsufficientFunds;
    res ← send (t_to txn) (t_method txn) (t_params txn) (t_value txn);
    '(out, code) ← match res with
      | Ok ser => mret (ser, EOk)
      | Err e => if recovered e then of_result (Err e) else mret ([], exit_code e)
      end;
    _ ← transaction (λ s : MultisigState, s ← delete_pending s txn_id; mret (s, tt));
    mret (true, out, code)
  else mret (false, [], EOk).

Definition approve_transaction (tx_id : Z) (txn : Transaction) : Prog U (bool * bytes * ExitCode) :=
  _ ← abort_if (bool_decide (caller rt ∈ approved txn)) ErrForbidden;
  let txn := with_approved txn (approved txn ++ [caller rt]) in
  st ← transaction (λ s : MultisigState,
    let s := with_pending s (<[tx_id := txn]> (pending_txs s)) in mret (s, s));
  execute_transaction_if_approved st tx_id txn.

Definition propose (params : ProposeParams) : Prog U ProposeReturn :=
  _ ← validate_immediate_caller_type CALLER_TYPES_SIGNABLE;
  _ ← abort_if (pp_value params <? 0) ErrIllegalArgument;
  '(txn_id, txn) ← transaction (λ st : MultisigState,
    _ ← abort_if (negb (is_signer st (caller rt))) ErrForbidden;
    let t_id := next_tx_id st in
    let txn := {| t_to := pp_to params; t_value := pp_value params; t_method := pp_method params;
                  t_params := pp_params params; approved := [] |} in
    let st := {| signers := signers st; num_approvals_threshold := num_approvals_threshold st;
                 next_tx_id := t_id + 1; initial_balance := initial_balance st;
                 start_epoch := start_epoch st; unlock_duration := unlock_duration st;
                 pending_txs := <[t_id := txn]> (pending_txs st) |} in
    mret (st, (t_id, txn)));
  '(applied, ret, code) ← approve_transaction txn_id txn;
  mret {| pr_txn_id := txn_id; pr_applied := applied; pr_code := code; pr_ret := ret |}.

Definition approve (params : TxnIDParams) : Prog U ApproveReturn :=
  _ ← validate_immediate_caller_type CALLER_TYPES_SIGNABLE;
  '(st, txn) ← transaction (λ st : MultisigState,
    _ ← abort_if (negb (is_signer st (caller rt))) ErrForbidden;
    txn ← get_transaction (pending_txs st) (tp_id params) (tp_proposal_hash params);
    mret (st, (st, txn)));
  '(applied, ret, code) ← execute_transaction_if_approved st (tp_id params) txn;
  if negb applied then
    '(applied, ret, code) ← approve_transaction (tp_id params) txn;
    mret {| ar_applied := applied; ar_code := code; ar_ret := ret |}
  else mret {| ar_applied := applied; ar_code := code; ar_ret := ret |}.

Definition cancel (params : TxnIDParams) : Prog U unit :=
  _ ← validate_immediate_caller_type CALLER_TYPES_SIGNABLE;
  transaction (λ st : MultisigState,
    _ ← abort_if (negb (is_signer st (caller rt))) ErrForbidden;
    let tx := pending_txs st !! tp_id params in
    st' ← delete_pending st (tp_id params);
    tx ← unwrap_or_abort tx ErrNotFound;
    _ ← abort_if (negb (bool_decide (head (approved tx) = Some (caller rt)))) ErrForbidden;
    calculated_hash ← compute_proposal_hash tx;
    _ ← abort_if (negb (bool_decide (tp_proposal_hash params = [])) &&
                  negb (bool_decide (tp_proposal_hash params = calculated_hash))) ErrIllegalState;
    mret (st', tt)).

Definition add_signer (params : AddSignerParams) : Prog U unit :=
  _ ← validate_immediate_caller_is [receiver rt];
  new_signer ← resolve_to_id_addr (as_signer params) ErrIllegalState;
  transaction (λ st : MultisigState,
    _ ← abort_if (SIGNERS_MAX <=? Z.of_nat (length (signers st))) ErrForbidden;
    _ ← abort_if (is_signer st new_signer) ErrForbidden;
    mret (with_signers st (signers st ++ [new_signer])
      (if as_increase params then num_approvals_threshold st + 1 else num_approvals_threshold st), tt)).

Definition remove_signer (params : RemoveSignerParams) : Prog U unit :=
  _ ← validate_immediate_caller_is [receiver rt];
  old_signer ← resolve_to_id_addr (rs_signer params) ErrIllegalState;
  transaction (λ st : MultisigState,
    let n := Z.of_nat (length (signers st)) in
    _ ← abort_if (negb (is_signer st old_signer)) ErrForbidden;
    _ ← abort_if (n =? 1) ErrForbidden;
    _ ← abort_if (negb (rs_decrease params) && (n - 1 <? num_approvals_threshold st)) ErrIllegalArgument;
    _ ← abort_if (rs_decrease params && (num_approvals_threshold st <? 2)) ErrIllegalArgument;
    let threshold := if rs_decrease params then num_approvals_threshold st - 1 else num_approvals_threshold st in
    let st := purge_approvals st old_signer in
    mret (with_signers st (retain old_signer (signers st)) threshold, tt)).

Definition swap_signer (params : SwapSignerParams) : Prog U unit :=
  _ ← validate_immediate_caller_is [receiver rt];
  from ← resolve_to_id_addr (ss_from params) ErrIllegalState;
  to ← resolve_to_id_addr (ss_to params) ErrIllegalState;
  transaction (λ st : MultisigState,
    _ ← abort_if (negb (is_signer st from)) ErrForbidden;
    _ ← abort_if (is_signer st to) ErrIllegalArgument;
    let st := with_signers st (retain from (signers st) ++ [to]) (num_approvals_threshold st) in
    mret (purge_approvals st from, tt)).

Definition change_num_approvals_threshold (params : ChangeThresholdParams) : Prog U unit :=
  _ ← validate_immediate_caller_is [receiver rt];
  transaction (λ st : MultisigState,
    _ ← abort_if ((ct_new_threshold params =? 0) ||
                  (Z.of_nat (length (signers st)) <? ct_new_threshold params)) ErrIllegalArgument;
    mret (with_signers st (signers st) (ct_new_threshold params), tt)).

Definition lock_balance (params : LockBalanceParams) : Prog U unit :=
  _ ← validate_immediate_caller_is [receiver rt];
  _ ← abort_if (lb_unlock_duration params <=? 0) ErrIllegalArgument;
  _ ← abort_if (lb_amount params <? 0) ErrIllegalArgument;
  transaction (λ st : MultisigState,
    _ ← abort_if (negb (unlock_duration st =? 0)) ErrForbidden;
    mret (set_locked st (lb_start_epoch params) (lb_unlock_duration params) (lb_amount params), tt)).

Context `{!Dec MsConstructorParams, !Dec ProposeParams, !Enc ProposeReturn, !Dec TxnIDParams,
  !Enc ApproveReturn, !Dec AddSignerParams, !Dec RemoveSignerParams, !Dec SwapSignerParams,
  !Dec ChangeThresholdParams, !Dec LockBalanceParams}.

Definition multisig_invoke_method (method : Z) (params : bytes) : Prog U bytes :=
  match method with
  | 1 => call_unit params ms_constructor
  | 2 => call_ret params propose
  | 3 => call_ret params approve
  | 4 => call_unit params cancel
  | 5 => call_unit params add_signer
  | 6 => call_unit params remove_signer
  | 7 => call_unit params swap_signer
  | 8 => call_unit params change_num_approvals_threshold
  | 9 => call_unit params lock_balance
  | _ => invalid_method
  end.

End multisig.

(** ** The invariant *)

Definition txn_ok (s : MultisigState) (id : Z) (t : Transaction) : Prop :=
  NoDup (approved t) ∧ approved t ⊆ signers s ∧ 0 ≤ t_value t ∧ id < next_tx_id s.

Definition ms_inv (s : MultisigState) : Prop :=
  NoDup (signers s) ∧ Forall is_id (signers s) ∧
  1 ≤ num_approvals_threshold s ≤ Z.of_nat (length (signers s)) ∧
  Z.of_nat (length (signers s)) ≤ SIGNERS_MAX ∧
  map_Forall (txn_ok s) (pending_txs s).

(** What a multisig sends: a transaction approved by enough of its signers that
    leaves the locked amount untouched, or the empty message that creates an
    account. *)
Definition ms_send_ok {U} `{!StateIn MultisigState U} (epoch : Z) (u : U) (b : Z) (m : Message) : Prop :=
  let '(to, method, params, value) := m in
  (method = METHOD_SEND ∧ params = [] ∧ value = 0) ∨
  ∃ s id txn, state_dec u = Some s ∧ pending_txs s !! id = Some txn ∧
    to = t_to txn ∧ method = t_method txn ∧ params = t_params txn ∧ value = t_value txn ∧
    num_approvals_threshold s ≤ Z.of_nat (length (approved txn)) ∧
    NoDup (approved txn) ∧ approved txn ⊆ signers s ∧
    0 ≤ value ≤ b ∧ (value = 0 ∨ amount_locked s (epoch - start_epoch s) ≤ b - value).

Lemma retain_in a x l : x ∈ retain a l ↔ x ∈ l ∧ x ≠ a.
Proof.
  unfold retain. rewrite list_elem_of_In, List.filter_In, <-list_elem_of_In, negb_true_iff, bool_decide_eq_false. done.
Qed.
Lemma retain_nodup a l : NoDup l → NoDup (retain a l).
Proof.
  induction 1 as [|x l Hx Hl IH]; cbn; [constructor|]. case_if; [|done]. constructor; [|done]. by intros [? _]%(retain_in a x l).
Qed.
Lemma retain_absent a l : a ∉ l → retain a l = l.
Proof.
  induction l as [|x l IH]; intros Ha; cbn; [done|]. rewrite not_elem_of_cons in Ha. destruct Ha.
  rewrite bool_decide_eq_false_2 by done. cbn. f_equal. by apply IH.
Qed.
Lemma retain_length a l : NoDup l → a ∈ l → S (length (retain a l)) = length l.
Proof.
  induction 1 as [|x l Hx Hl IH]; intros Ha; [set_solver|]. cbn. apply elem_of_cons in Ha as [<-|Ha].
  - rewrite bool_decide_eq_true_2 by done. cbn. fold (retain a l). by rewrite retain_absent.
  - rewrite bool_decide_eq_false_2 by set_solver. cbn. fold (retain a l). by rewrite IH.
Qed.

(** Removing the approvals of an address from all pending transactions. *)
Lemma purge_ok s a : ms_inv s →
  map_Forall (λ id t, txn_ok s id t ∧ a ∉ approved t) (pending_txs (purge_approvals s a)).
Proof.
  intros (_ & _ & _ & _ & Hp) id t Ht. cbn in Ht. rewrite lookup_omap in Ht.
  apply bind_Some in Ht as (t0 & Ht0 & Hpt). destruct (Hp _ _ Ht0) as (Hnd & Hsub & Hv & Hid).
  unfold purge_txn in Hpt. case_bool_decide; [|naive_solver].
  destruct (retain a (approved t0)) as [|x l] eqn:E; [done|]. injection Hpt as <-. rewrite <-E.
  split_and!; [split_and!; cbn; [by apply retain_nodup| |done|done]|].
  - intros y. rewrite retain_in. intros [? _]. by apply Hsub.
  - cbn. rewrite retain_in. by intros [_ ?].
Qed.

Section proofs.
Context {U : Type} `{!StateIn MultisigState U, !Enc ProposalHashData}.
Context (absent_delete_ok : gmap Z Transaction → Z → bool) (rt : Ctx).
Context (I : U → Prop) `{!InvIn ms_inv I}.
Implicit Types (s : MultisigState) (u : U) (b : Z).

Notation mswp := (wp (ms_send_ok (curr_epoch rt)) I rt).

Lemma ms_inv_pending s m : ms_inv s → map_Forall (txn_ok s) m → ms_inv (with_pending s m).
Proof. intros (H1 & H2 & H3 & H4 & _) Hm. exact (conj H1 (conj H2 (conj H3 (conj H4 Hm)))). Qed.

Lemma delete_pending_wp s id u b (Q : MultisigState → U → Z → Prop) :
  ms_inv s → (∀ s', ms_inv s' → Q s' u b) → mswp (delete_pending absent_delete_ok s id) u b Q.
Proof.
  intros Hs HQ. unfold delete_pending. destruct (pending_txs s !! id).
  - apply HQ, ms_inv_pending; [done|]. apply map_Forall_delete, Hs.
  - case_if; [by apply HQ|done].
Qed.

Lemma check_available_ok s b v epoch :
  is_ok (check_available s b v epoch) = true →
  0 ≤ v ≤ b ∧ (v = 0 ∨ amount_locked s (epoch - start_epoch s) ≤ b - v).
Proof.
  unfold check_available. repeat case_if; cbn; try done; intros _; [lia|]. split; [lia|]. right. lia.
Qed.

(** The state read before the send is the current state of the actor. *)
Lemma execute_wp s id txn u b (Q : bool * bytes * ExitCode → U → Z → Prop) :
  state_dec u = Some s → ms_inv s → pending_txs s !! id = Some txn → 0 ≤ b →
  (∀ r u' b', I u' → 0 ≤ b' → (r.1.1 = false → u' = u ∧ b' = b) → Q r u' b') →
  mswp (execute_transaction_if_approved absent_delete_ok rt s id txn) u b Q.
Proof.
  intros Hu Hs Htxn Hb HQ. unfold execute_transaction_if_approved.
  assert (Hiu : I u) by by apply (inv_iff u s Hu).
  wp_step; [|by apply HQ]. wp_step. wp_step. wp_step. wp_step. apply check_available_ok in H as [Hv Hlock].
  destruct Hs as (Hnd & Hids & Hth & Hmax & Hp). destruct (Hp _ _ Htxn) as (Hnd' & Hsub & _ & _).
  wp_step. apply wp_send; [right; exists s, id, txn; split_and!; try done; lia|].
  intros r u' b' Hu' Hb'. apply wp_bind.
  assert (Hcont : ∀ x : bytes * ExitCode, mswp (let '(out, code) := x in
    _ ← transaction (λ s : MultisigState, s ← delete_pending absent_delete_ok s id; mret (s, tt));
    mret (true, out, code)) u' b' Q).
  { intros [out code]. wp_step. wp_step. wp_step. apply delete_pending_wp; [by eapply inv_dec|].
    intros s' Hs'. cbn. split; [by apply inv_enc|]. apply HQ; [by apply inv_enc|done|done]. }
  destruct r as [ser|e]; [exact (Hcont (ser, EOk))|]. wp_step; [done|exact (Hcont ([], exit_code e))].
Qed.

Lemma approve_transaction_wp s id txn u b (Q : bool * bytes * ExitCode → U → Z → Prop) :
  state_dec u = Some s → ms_inv s → txn_ok s id txn → caller rt ∈ signers s → 0 ≤ b →
  (∀ r u' b', I u' → 0 ≤ b' → Q r u' b') →
  mswp (approve_transaction absent_delete_ok rt id txn) u b Q.
Proof.
  intros Hu Hs (Hnd & Hsub & Hv & Hid) Hc Hb HQ. unfold approve_transaction. wp_step. wp_step.
  set (txn' := with_approved txn (approved txn ++ [caller rt])).
  assert (Hok : txn_ok s id txn').
  { split_and!; [|set_solver|done|done]. apply NoDup_app. split_and!; [done|set_solver|apply NoDup_singleton]. }
  set (s' := with_pending s (<[id := txn']> (pending_txs s))).
  assert (Hs' : ms_inv s') by (apply ms_inv_pending; [done|]; apply map_Forall_insert_2; [done|apply Hs]).
  wp_step. wp_step. assert (s0 = s) as -> by congruence. cbn. split; [by apply inv_enc|].
  apply (execute_wp s'); [apply state_dec_enc|done|apply lookup_insert_eq|done|]. intros r u' b' ? ? _. by apply HQ.
Qed.

Notation post := (λ _ _ _, True).

Lemma empty_send_ok a u b : ms_send_ok (curr_epoch rt) u b (a, METHOD_SEND, [], 0).
Proof. by left. Qed.

Lemma resolve_wp a u b (Q : Address → U → Z → Prop) :
  I u → 0 ≤ b → (∀ id u' b', is_id id → I u' → 0 ≤ b' → Q id u' b') →
  mswp (resolve_to_id_addr a ErrIllegalState) u b Q.
Proof. intros. apply wp_resolve_to_id_addr; auto using empty_send_ok. Qed.

Lemma resolve_signers_wp l acc u b (Q : list Address → U → Z → Prop) :
  I u → 0 ≤ b → NoDup acc → Forall is_id acc →
  (∀ r u' b', I u' → 0 ≤ b' → NoDup r → Forall is_id r → length r = (length acc + length l)%nat → Q r u' b') →
  mswp (resolve_signers l acc) u b Q.
Proof.
  revert acc u b. induction l as [|a l IH]; intros acc u b Hu Hb Hnd Hid HQ; cbn [resolve_signers].
  { apply HQ; try done; cbn; lia. }
  wp_step. apply resolve_wp; [done|done|]. intros id u' b' Hi Hu' Hb'. wp_step. wp_step.
  apply IH; try done.
  - apply NoDup_app. split_and!; [done|set_solver|apply NoDup_singleton].
  - apply Forall_app. by split; [|constructor].
  - intros r u2 b2 ? ? ? ? Hlen. apply HQ; try done. rewrite Hlen, length_app. cbn. lia.
Qed.

Lemma ms_constructor_wp p u b : I u → 0 ≤ b → mswp (ms_constructor rt p) u b post.
Proof.
  intros Hu Hb. unfold ms_constructor. do 6 wp_step.
  wp_step. apply resolve_signers_wp; [done|done|constructor|constructor|].
  intros r u' b' Hu' Hb' Hnd Hid Hlen. do 6 wp_step. apply wp_create; [|done]. apply inv_enc. cbn in Hlen.
  assert (Hinv : ms_inv {| signers := r; num_approvals_threshold := mcp_threshold p; next_tx_id := 0;
    initial_balance := 0; start_epoch := 0; unlock_duration := 0; pending_txs := ∅ |}).
  { split_and!; cbn; [done|done|lia|lia|lia|apply map_Forall_empty]. }
  case_if; [exact Hinv|done].
Qed.

Lemma is_signer_in s a : is_signer s a = true → a ∈ signers s.
Proof. unfold is_signer. by intros ?%bool_decide_eq_true_1. Qed.
Lemma is_signer_out s a : is_signer s a = false → a ∉ signers s.
Proof. unfold is_signer. by intros ?%bool_decide_eq_false_1. Qed.

Lemma compute_proposal_hash_wp txn u b (Q : bytes → U → Z → Prop) :
  (∀ h, Q h u b) → mswp (compute_proposal_hash txn) u b Q.
Proof. intros HQ. unfold compute_proposal_hash. do 3 wp_step. apply HQ. Qed.

Lemma get_transaction_wp ptx id hash u b (Q : Transaction → U → Z → Prop) :
  (∀ txn, ptx !! id = Some txn → Q txn u b) → mswp (get_transaction ptx id hash) u b Q.
Proof.
  intros HQ. unfold get_transaction. do 2 wp_step. destruct hash as [|x h]; [by apply HQ|].
  wp_step. apply compute_proposal_hash_wp. intros h'. do 2 wp_step. by apply HQ.
Qed.

Lemma propose_wp p u b : I u → 0 ≤ b → mswp (propose absent_delete_ok rt p) u b post.
Proof.
  intros Hu Hb. unfold propose. do 8 wp_step. apply is_signer_in in H1.
  set (txn := Build_Transaction _ _ _ _ _). set (s' := Build_MultisigState _ _ _ _ _ _ _).
  destruct (inv_dec _ s Hu) as (Hnd & Hids & Hth & Hmax & Hp); [done|].
  assert (Hok : txn_ok s' (next_tx_id s) txn).
  { split_and!; cbn; [constructor|set_solver|done|lia]. }
  assert (Hs' : ms_inv s').
  { split_and!; cbn; try done; try lia. apply map_Forall_insert_2; [done|]. eapply map_Forall_impl; [exact Hp|].
    intros id t (? & ? & ? & ?). split_and!; try done. cbn. lia. }
  split; [by apply inv_enc|]. wp_step. apply (approve_transaction_wp s'); try done; [apply state_dec_enc|].
  intros [[applied ret] code] u' b' _ _. done.
Qed.

Lemma approve_wp p u b : I u → 0 ≤ b → mswp (approve absent_delete_ok rt p) u b post.
Proof.
  intros Hu Hb. unfold approve. do 6 wp_step. apply is_signer_in in H0. wp_step. apply get_transaction_wp.
  intros txn Htxn. pose proof (inv_dec _ s Hu H) as Hs. split; [by apply inv_enc|].
  pose proof (state_dec_enc s) as Hdec. pose proof Hs as (_ & _ & _ & _ & Hp).
  wp_step. apply (execute_wp s); try done. intros [[applied ret] code] u' b' Hu' Hb' Hsame. cbn in Hsame.
  destruct applied; [done|]. destruct (Hsame eq_refl) as [-> ->]. cbn [negb].
  wp_step. apply (approve_transaction_wp s); try done; [by eapply Hp|]. intros [[applied' ret'] code'] u2 b2 _ _. done.
Qed.

Lemma cancel_wp p u b : I u → 0 ≤ b → mswp (cancel absent_delete_ok rt p) u b post.
Proof.
  intros Hu Hb. unfold cancel. do 5 wp_step. wp_step. apply delete_pending_wp; [by eapply inv_dec|]. intros s' Hs'.
  do 4 wp_step. wp_step. apply compute_proposal_hash_wp. intros h. do 2 wp_step. split; [by apply inv_enc|done].
Qed.

Lemma add_signer_wp p u b : I u → 0 ≤ b → mswp (add_signer rt p) u b post.
Proof.
  intros Hu Hb. unfold add_signer. do 3 wp_step. apply resolve_wp; [done|done|]. intros id u' b' Hid Hu' Hb'.
  do 5 wp_step. split; [|done]. apply inv_enc. destruct (inv_dec _ s Hu') as (Hnd & Hids & Hth & Hmax & Hp); [done|].
  apply is_signer_out in H2. unfold ms_inv. cbn. rewrite length_app. cbn. split_and!.
  - apply NoDup_app. split_and!; [done|set_solver|apply NoDup_singleton].
  - apply Forall_app. by split; [|constructor].
  - case_if; lia.
  - case_if; lia.
  - lia.
  - eapply map_Forall_impl; [exact Hp|]. intros i t (? & ? & ? & ?). split_and!; try done. cbn. set_solver.
Qed.

Lemma remove_signer_wp p u b : I u → 0 ≤ b → mswp (remove_signer rt p) u b post.
Proof.
  intros Hu Hb. unfold remove_signer. do 3 wp_step. apply resolve_wp; [done|done|]. intros id u' b' Hid Hu' Hb'.
  do 9 wp_step. split; [|done]. apply inv_enc. pose proof (inv_dec _ s Hu' ltac:(done)) as Hs.
  pose proof (purge_ok s id Hs) as Hpurge. destruct Hs as (Hnd & Hids & Hth & Hmax & Hp).
  apply is_signer_in in H1. pose proof (retain_length _ _ Hnd H1) as Hlen.
  unfold ms_inv. change (signers (purge_approvals s id)) with (signers s) in *. cbn -[retain purge_approvals]. split_and!.
  - by apply retain_nodup.
  - rewrite Forall_forall in *. intros x [Hx _]%retain_in. auto.
  - destruct (rs_decrease p); cbn in *; reflect_bools; lia.
  - destruct (rs_decrease p); cbn -[retain] in *; reflect_bools; lia.
  - lia.
  - eapply map_Forall_impl; [exact Hpurge|]. intros i t ((? & Hsub & ? & ?) & Hout). split_and!; try done.
    cbn -[retain]. intros x Hx. apply retain_in. split; [by apply Hsub|]. by intros ->.
Qed.

Lemma swap_signer_wp p u b : I u → 0 ≤ b → mswp (swap_signer rt p) u b post.
Proof.
  intros Hu Hb. unfold swap_signer. do 3 wp_step. apply resolve_wp; [done|done|]. intros from u1 b1 Hfrom Hu1 Hb1.
  wp_step. apply resolve_wp; [done|done|]. intros to u2 b2 Hto Hu2 Hb2.
  do 5 wp_step. split; [|done]. apply inv_enc. pose proof (inv_dec _ s Hu2 ltac:(done)) as Hs.
  pose proof (purge_ok s from Hs) as Hpurge. destruct Hs as (Hnd & Hids & Hth & Hmax & Hp).
  apply is_signer_in in H1. apply is_signer_out in H2. pose proof (retain_length _ _ Hnd H1) as Hlen.
  unfold ms_inv. cbn -[retain purge_txn]. rewrite length_app. cbn -[retain purge_txn]. split_and!; try lia.
  - apply NoDup_app. split_and!; [by apply retain_nodup|intros x [Hx _]%retain_in; set_solver|apply NoDup_singleton].
  - apply Forall_app. split; [|by constructor]. rewrite Forall_forall in *. intros x [Hx _]%retain_in. auto.
  - eapply map_Forall_impl; [exact Hpurge|]. intros i t ((? & Hsub & ? & ?) & Hout). split_and!; try done.
    cbn -[retain]. intros x Hx. apply elem_of_app. left. apply retain_in. split; [by apply Hsub|]. by intros ->.
Qed.

Lemma change_threshold_wp p u b :
  0 ≤ ct_new_threshold p → I u → 0 ≤ b → mswp (change_num_approvals_threshold rt p) u b post.
Proof.
  intros Hp Hu Hb. unfold change_num_approvals_threshold. do 5 wp_step. split; [|done]. apply inv_enc.
  destruct (inv_dec _ s Hu) as (Hnd & Hids & Hth & Hmax & Hpd); [done|]. unfold ms_inv. cbn. split_and!; try done; lia.
Qed.

Lemma lock_balance_wp p u b : I u → 0 ≤ b → mswp (lock_balance rt p) u b post.
Proof.
  intros Hu Hb. unfold lock_balance. do 9 wp_step. split; [|done]. apply inv_enc.
  by destruct (inv_dec _ s Hu) as (Hnd & Hids & Hth & Hmax & Hpd).
Qed.

Context `{!Dec MsConstructorParams, !Dec ProposeParams, !Enc ProposeReturn, !Dec TxnIDParams,
  !Enc ApproveReturn, !Dec AddSignerParams, !Dec RemoveSignerParams, !Dec SwapSignerParams,
  !Dec ChangeThresholdParams, !Dec LockBalanceParams}.

(** A [usize] does not decode from a negative number. *)
Lemma multisig_wp (Husize : ∀ x (p : ChangeThresholdParams), dec x = Some p → 0 ≤ ct_new_threshold p)
    method params u b :
  I u → 0 ≤ b → mswp (multisig_invoke_method absent_delete_ok rt method params) u b post.
Proof.
  intros Hu Hb. unfold multisig_invoke_method.
  repeat case_match; try exact Logic.I;
    first [apply call_unit_wp|apply call_ret_wp]; intros ps Hps;
    eauto using ms_constructor_wp, propose_wp, approve_wp, cancel_wp, add_signer_wp, remove_signer_wp,
      swap_signer_wp, change_threshold_wp, lock_balance_wp.
Qed.

End proofs.

(** ** Vesting *)

Lemma div_ceil_mono (a a' d : Z) : 0 < d → a ≤ a' → div_ceil a d ≤ div_ceil a' d.
Proof. intros Hd Ha. unfold div_ceil. pose proof (Z.div_le_mono (- a') (- a) d). lia. Qed.
Lemma div_ceil_mult (a d : Z) : 0 < d → div_ceil (a * d) d = a.
Proof. intros Hd. unfold div_ceil. rewrite <-Z.mul_opp_l, Z.div_mul by lia. lia. Qed.

(** ** Theorems *)

(** The locked amount of a multisig vests linearly: it is the whole amount
    until the start epoch, nothing from the end of the unlock period on, never
    more than the initial balance, never less than the exact linear amount, less
    than one unit above it, and it never grows as epochs pass. *)
Theorem amount_locked_vests (s : MultisigState) (e e' : Z) :
  0 ≤ initial_balance s → 0 ≤ unlock_duration s → e ≤ e' →
  0 ≤ amount_locked s e' ≤ amount_locked s e ∧ amount_locked s e ≤ initial_balance s ∧
  (e ≤ 0 → e < unlock_duration s → amount_locked s e = initial_balance s) ∧
  (unlock_duration s ≤ e → amount_locked s e = 0) ∧
  (0 ≤ e < unlock_duration s →
    let exact := initial_balance s * (unlock_duration s - e) in
    exact ≤ unlock_duration s * amount_locked s e < exact + unlock_duration s).
Proof.
  intros Hb Hd He. set (d := unlock_duration s) in *. set (b := initial_balance s) in *.
  assert (Hv : ∀ x, 0 ≤ x < d → amount_locked s x = div_ceil (b * (d - x)) d).
  { intros x Hx. unfold amount_locked. fold d b. rewrite (proj2 (Z.leb_gt _ _)) by lia.
    destruct (Z.leb_spec x 0); [|done]. replace x with 0 by lia. by rewrite Z.sub_0_r, div_ceil_mult by lia. }
  assert (H0 : ∀ x, d ≤ x → amount_locked s x = 0).
  { intros x Hx. unfold amount_locked. fold d. by rewrite (proj2 (Z.leb_le _ _)). }
  assert (H1 : ∀ x, x ≤ 0 → x < d → amount_locked s x = b).
  { intros x Hx Hx'. unfold amount_locked. fold d b. by rewrite (proj2 (Z.leb_gt _ _)), (proj2 (Z.leb_le _ _)) by lia. }
  assert (Hr : ∀ x, 0 ≤ amount_locked s x ≤ b).
  { intros x. destruct (decide (d ≤ x)); [rewrite H0; lia|]. destruct (decide (x ≤ 0)); [rewrite H1; lia|].
    rewrite Hv by lia. split; [change 0 with (div_ceil 0 d); apply div_ceil_mono; nia|].
    rewrite <-(div_ceil_mult b d) at 2 by lia. apply div_ceil_mono; nia. }
  split_and!; [apply Hr| |apply Hr|auto|auto|].
  - destruct (decide (d ≤ e')); [rewrite (H0 e') by done; apply Hr|].
    destruct (decide (e ≤ 0)); [rewrite (H1 e) by lia; apply Hr|]. rewrite !Hv by lia. apply div_ceil_mono; nia.
  - intros Hx. cbn. rewrite Hv by done. unfold div_ceil.
    pose proof (Z.div_mod (- (b * (d - e))) d). pose proof (Z.mod_pos_bound (- (b * (d - e))) d). nia.
Qed.

Definition ex_ms (pending : gmap Z Transaction) : MultisigState :=
  {| signers := [id_addr 100; id_addr 101]; num_approvals_threshold := 2; next_tx_id := 1;
     initial_balance := 1000; start_epoch := 0; unlock_duration := 300; pending_txs := pending |}.

Lemma amount_locked_vests_witness :
  amount_locked (ex_ms ∅) 100 = 667 ∧ amount_locked (ex_ms ∅) 101 ≤ amount_locked (ex_ms ∅) 100.
Proof. split; [reflexivity|]. apply (amount_locked_vests (ex_ms ∅) 100 101); cbn; lia. Defined.

(** C15.  Every method of the multisig actor, called by anyone with any
    parameters, only writes states with distinct resolved signers (at most
    [SIGNERS_MAX]), a threshold between one and their number, and pending
    transactions whose approvals are distinct current signers; and every
    message it sends, but for the empty ones that create accounts, is a pending
    transaction approved by at least the threshold of distinct signers, whose
    value the balance covers without touching what is still locked.  This holds
    even when the sent messages call the multisig again. *)
Theorem multisig_safe {U} `{!StateIn MultisigState U, !Enc ProposalHashData}
    `{!Dec MsConstructorParams, !Dec ProposeParams, !Enc ProposeReturn, !Dec TxnIDParams,
      !Enc ApproveReturn, !Dec AddSignerParams, !Dec RemoveSignerParams, !Dec SwapSignerParams,
      !Dec ChangeThresholdParams, !Dec LockBalanceParams}
    (absent_delete_ok : gmap Z Transaction → Z → bool) (rt : Ctx) (method : Z) (params : bytes) (u : U) (b : Z)
    (Husize : ∀ x (p : ChangeThresholdParams), dec x = Some p → 0 ≤ ct_new_threshold p) :
  (∀ s, state_dec u = Some s → ms_inv s) → 0 ≤ b →
  wp (ms_send_ok (curr_epoch rt)) (λ u', ∀ s, state_dec u' = Some s → ms_inv s) rt
    (multisig_invoke_method absent_delete_ok rt method params) u b (λ _ _ _, True).
Proof. intros Hu Hb. apply multisig_wp; [apply inv_in_states|done..]. Qed.

(** A toy encoding of the parameters: a transaction id, or a threshold. *)
Definition ex_txn_id : Dec TxnIDParams := λ x, match x with i :: h => Some {| tp_id := i; tp_proposal_hash := h |} | _ => None end.
Definition ex_threshold : Dec ChangeThresholdParams := λ x,
  match x with [n] => if n <? 0 then None else Some {| ct_new_threshold := n |} | _ => None end.
Lemma ex_threshold_usize (x : bytes) (p : ChangeThresholdParams) :
  ex_threshold x = Some p → 0 ≤ ct_new_threshold p.
Proof. destruct x as [|n [|]]; cbn; try done. destruct (Z.ltb_spec n 0); [done|]. by intros [= <-]. Qed.
Definition ex_none {P} : Dec P := λ _, None.
Definition ex_enc {P} : Enc P := λ _, [].
#[local] Instance ex_ms_in : StateIn MultisigState (option MultisigState) :=
  {| state_enc := Some; state_dec := id; state_dec_enc := λ s, eq_refl |}.

Definition ex_txn : Transaction :=
  {| t_to := id_addr 200; t_value := 5; t_method := 0; t_params := []; approved := [id_addr 100] |}.
Definition ex_rt : Ctx :=
  {| caller := id_addr 101; receiver := id_addr 150; value_received := 0; curr_epoch := 250; base_fee := 100 |}.

Lemma ex_ms_ok : ms_inv (ex_ms {[0 := ex_txn]}).
Proof.
  split_and!; cbn; try lia; [by apply (bool_decide_unpack _)|by repeat (apply Forall_cons_2; [done|])|done|].
  apply map_Forall_singleton. split_and!; cbn; try lia; [by apply (bool_decide_unpack _)|set_solver].
Qed.

Lemma multisig_safe_witness :
  wp (ms_send_ok 250) (λ u', ∀ s, state_dec u' = Some s → ms_inv s) ex_rt
    (@multisig_invoke_method (option MultisigState) ex_ms_in ex_enc (λ _ _, false) ex_rt
       ex_none ex_none ex_enc ex_txn_id ex_enc ex_none ex_none ex_none ex_threshold ex_none 3 [0])
    (Some (ex_ms {[0 := ex_txn]})) 400 (λ _ _ _, True).
Proof.
  apply (@multisig_safe (option MultisigState) ex_ms_in ex_enc ex_none ex_none ex_enc ex_txn_id ex_enc
    ex_none ex_none ex_none ex_threshold ex_none (λ _ _, false) ex_rt 3 [0]).
  - exact ex_threshold_usize.
  - cbn. intros s [= <-]. apply ex_ms_ok.
  - lia.
Defined.
