(* ===== verification/Paych.v ===== *)
(** * The payment channel actor

    [src/vm/actor/src/builtin/paych/{mod,state,types}.rs].  The AMT of lane
    states is the finite map it implements. *)

From S2P Require Import Prelude Address Runtime.

Definition MAX_LANE : Z := 2 ^ 63 - 1.
Definition SETTLE_DELAY : Z := EPOCHS_IN_HOUR * 12.
Definition MAX_SECRET_SIZE : Z := 256.

Record LaneState := { redeemed : Z; lane_nonce : Z }.
Definition lane_default : LaneState := {| redeemed := 0; lane_nonce := 0 |}.
Record Merge := { merge_lane : Z; merge_nonce : Z }.

Record PaychState := {
  pc_from : Address; pc_to : Address; to_send : Z; settling_at : Z; min_settle_height : Z;
  lane_states : gmap Z LaneState }.
Definition paych_new (from to : Address) : PaychState :=
  {| pc_from := from; pc_to := to; to_send := 0; settling_at := 0; min_settle_height := 0;
     lane_states := ∅ |}.

Record PcConstructorParams := { pcp_from : Address; pcp_to : Address }.
Record ModVerifyParams := { mv_actor : Address; mv_method : Z; mv_data : bytes }.
Record SignedVoucher := {
  channel_addr : Address; time_lock_min : Z; time_lock_max : Z; secret_pre_image : bytes;
  extra : option ModVerifyParams; sv_lane : Z; sv_nonce : Z; sv_amount : Z;
  sv_min_settle_height : Z; merges : list Merge; signature : option bytes }.
Record UpdateChannelStateParams := { sv : SignedVoucher; secret : bytes }.

(** The voucher without its signature, whose CBOR is signed. *)
Definition unsigned (v : SignedVoucher) : SignedVoucher :=
  {| channel_addr := channel_addr v; time_lock_min := time_lock_min v; time_lock_max := time_lock_max v;
     secret_pre_image := secret_pre_image v; extra := extra v; sv_lane := sv_lane v; sv_nonce := sv_nonce v;
     sv_amount := sv_amount v; sv_min_settle_height := sv_min_settle_height v; merges := merges v;
     signature := None |}.

Definition find_lane (ls : gmap Z LaneState) (id : Z) : result ExitCode (option LaneState) :=
  if MAX_LANE <? id then Err ErrIllegalArgument else Ok (ls !! id).

(** The loop over the merged lanes: the lanes with their new nonces, and the
    sum of what they have redeemed. *)
Fixpoint merge_lanes (lane : Z) (l : list Merge) (ls : gmap Z LaneState) (from_others : Z)
    : result ExitCode (gmap Z LaneState * Z) :=
  match l with
  | [] => Ok (ls, from_others)
  | m :: l =>
      _ ← throw_if (merge_lane m =? lane) ErrIllegalArgument;
      o ← find_lane ls (merge_lane m);
      other ← ok_or o ErrIllegalArgument;
      _ ← throw_if (merge_nonce m <=? lane_nonce other) ErrIllegalArgument;
      merge_lanes lane l (<[merge_lane m := {| redeemed := redeemed other; lane_nonce := merge_nonce m |}]> ls)
        (from_others + redeemed other)
  end.

Section paych.
Context {U : Type} `{!StateIn PaychState U, !Enc SignedVoucher, !Enc bytes}.
Context (rt : Ctx).

Definition resolve_account (raw : Address) : Prog U Address :=
  resolved ← resolve_to_id_addr raw ErrIllegalState;
  code_cid ← get_actor_code_cid resolved;
  code_cid ← unwrap_or_abort code_cid ErrIllegalArgument;
  _ ← abort_if (negb (bool_decide (code_cid = ACCOUNT_ACTOR_CODE_ID))) ErrForbidden;
  mret resolved.

Definition pc_constructor (params : PcConstructorParams) : Prog U unit :=
  _ ← validate_immediate_caller_type [INIT_ACTOR_CODE_ID];
  to ← resolve_account (pcp_to params);
  from ← resolve_account (pcp_from params);
  create (paych_new from to).

(** The closure of the transaction that redeems a voucher. *)
Definition redeem (v : SignedVoucher) (st : PaychState) : Prog U (PaychState * unit) :=
  o ← of_code (find_lane (lane_states st) (sv_lane v));
  lane ← match o with
    | Some lane => _ ← abort_if (sv_nonce v <=? lane_nonce lane) ErrIllegalArgument; mret lane
    | None => mret lane_default
    end;
  '(ls, redeemed_from_others) ← of_code (merge_lanes (sv_lane v) (merges v) (lane_states st) 0);
  let balance_delta := sv_amount v - (redeemed_from_others + redeemed lane) in
  let lane := {| redeemed := sv_amount v; lane_nonce := sv_nonce v |} in
  let new_send_balance := balance_delta + to_send st in
  _ ← abort_if (new_send_balance <? 0) ErrIllegalArgument;
  balance ← current_balance;
  _ ← abort_if (balance <? new_send_balance) ErrIllegalArgument;
  let h := sv_min_settle_height v in
  let later := negb (h =? 0) in
  mret ({| pc_from := pc_from st; pc_to := pc_to st; to_send := new_send_balance;
           settling_at := if later && negb (settling_at st =? 0) && (settling_at st <? h)
                          then h else settling_at st;
           min_settle_height := if later && (min_settle_height st <? h) then h else min_settle_height st;
           lane_states := <[sv_lane v := lane]> ls |}, tt).

Definition update_channel_state (params : UpdateChannelStateParams) : Prog U unit :=
  st ← get_state;
  _ ← validate_immediate_caller_is [pc_from st; pc_to st];
  let signer := if bool_decide (caller rt = pc_from st) then pc_to st else pc_from st in
  let v := sv params in
  sig ← unwrap_or_abort (signature v) ErrIllegalArgument;
  _ ← abort_if (negb (settling_at st =? 0) && (settling_at st <=? curr_epoch rt)) ErrTooManyProveCommits;
  _ ← abort_if (MAX_SECRET_SIZE <? Z.of_nat (length (secret params))) ErrIllegalArgument;
  ok ← syscall (VerifySignature sig signer (enc (unsigned v)));
  _ ← unwrap_or_abort ok ErrIllegalArgument;
  svpch_id_addr ← resolve_address (channel_addr v);
  svpch_id_addr ← unwrap_or_abort svpch_id_addr ErrIllegalArgument;
  _ ← abort_if (negb (bool_decide (receiver rt = svpch_id_addr))) ErrIllegalArgument;
  _ ← abort_if (curr_epoch rt <? time_lock_min v) ErrIllegalArgument;
  _ ← abort_if (negb (time_lock_max v =? 0) && (time_lock_max v <? curr_epoch rt)) ErrIllegalArgument;
  _ ← abort_if (sv_amount v <? 0) ErrIllegalArgument;
  _ ← match secret_pre_image v with
    | [] => mret tt
    | h =>
        hashed_secret ← syscall (HashBlake2b (secret params));
        hashed_secret ← of_result (ok_or hashed_secret new_fatal);
        abort_if (negb (bool_decide (hashed_secret = h))) ErrIllegalArgument
    end;
  _ ← match extra v with
    | Some e => _ ← send_ (mv_actor e) (mv_method e) (enc (mv_data e)) 0; mret tt
    | None => mret tt
    end;
  transaction (redeem v).

Definition settle : Prog U unit :=
  transaction (λ st : PaychState,
    _ ← validate_immediate_caller_is [pc_from st; pc_to st];
    _ ← abort_if (negb (settling_at st =? 0)) ErrIllegalState;
    let at_ := curr_epoch rt + SETTLE_DELAY in
    mret ({| pc_from := pc_from st; pc_to := pc_to st; to_send := to_send st;
             settling_at := if at_ <? min_settle_height st then min_settle_height st else at_;
             min_settle_height := min_settle_height st; lane_states := lane_states st |}, tt)).

Definition collect : Prog U unit :=
  st ← get_state;
  _ ← validate_immediate_caller_is [pc_from st; pc_to st];
  _ ← abort_if ((settling_at st =? 0) || (curr_epoch rt <? settling_at st)) ErrForbidden;
  _ ← send_ (pc_to st) METHOD_SEND [] (to_send st);
  delete_actor (pc_from st).

Context `{!Dec PcConstructorParams, !Dec UpdateChannelStateParams}.

Definition paych_invoke_method (method : Z) (params : bytes) : Prog U bytes :=
  match method with
  | 1 => call_unit params pc_constructor
  | 2 => call_unit params update_channel_state
  | 3 => _ ← settle; mret []
  | 4 => _ ← collect; mret []
  | _ => invalid_method
  end.

End paych.

(** ** Redeeming vouchers *)

Definition redeemed_in (ls : gmap Z LaneState) (id : Z) : Z :=
  match ls !! id with Some x => redeemed x | None => 0 end.
Definition merged_total (ls : gmap Z LaneState) (l : list Merge) : Z :=
  zsum (map (λ m, redeemed_in ls (merge_lane m)) l).

(** The lanes kept what they redeemed, and no nonce went down. *)
Definition lanes_le (ls ls' : gmap Z LaneState) : Prop :=
  ∀ id, match ls !! id, ls' !! id with
        | Some x, Some x' => redeemed x' = redeemed x ∧ lane_nonce x ≤ lane_nonce x'
        | None, None => True
        | _, _ => False
        end.

Lemma lanes_le_refl ls : lanes_le ls ls.
Proof. intros id. destruct (ls !! id); [split; [done|lia]|done]. Qed.
Lemma lanes_le_trans ls1 ls2 ls3 : lanes_le ls1 ls2 → lanes_le ls2 ls3 → lanes_le ls1 ls3.
Proof.
  intros H1 H2 id. specialize (H1 id). specialize (H2 id).
  destruct (ls1 !! id), (ls2 !! id), (ls3 !! id); try done. destruct H1, H2. split; [congruence|lia].
Qed.
Lemma lanes_le_redeemed ls ls' id : lanes_le ls ls' → redeemed_in ls' id = redeemed_in ls id.
Proof. intros H. specialize (H id). unfold redeemed_in. destruct (ls !! id), (ls' !! id); try done. apply H. Qed.
Lemma lanes_le_insert ls id x n :
  ls !! id = Some x → lane_nonce x < n → lanes_le ls (<[id := {| redeemed := redeemed x; lane_nonce := n |}]> ls).
Proof.
  intros Hx Hn i. destruct (decide (i = id)) as [->|].
  - rewrite Hx, lookup_insert_eq. split; [done|cbn; lia].
  - rewrite lookup_insert_ne by done. apply lanes_le_refl.
Qed.

Lemma merge_lanes_spec lane l ls acc ls' total :
  merge_lanes lane l ls acc = Ok (ls', total) →
  lanes_le ls ls' ∧ ls' !! lane = ls !! lane ∧ total = acc + merged_total ls l ∧
  Forall (λ m, merge_lane m ≠ lane ∧ merge_lane m ≤ MAX_LANE ∧
    ∃ x x', ls !! merge_lane m = Some x ∧ ls' !! merge_lane m = Some x' ∧
      lane_nonce x < merge_nonce m ≤ lane_nonce x') l.
Proof.
  revert ls acc. induction l as [|m l IH]; intros ls acc; cbn.
  { intros [= <- <-]. split_and!; [apply lanes_le_refl|done|unfold merged_total; cbn; lia|constructor]. }
  intros H. unfold find_lane in H. inv_ok. reflect_bools.
  destruct (IH _ _ H) as (Hle & Hlane & -> & Hall). clear IH H.
  pose proof (lanes_le_insert ls _ a1 (merge_nonce m) Hm Hguard0) as Hle1.
  set (ls1 := <[merge_lane m := _]> ls) in *.
  assert (Hm1 : ls1 !! merge_lane m = Some {| redeemed := redeemed a1; lane_nonce := merge_nonce m |})
    by apply lookup_insert_eq.
  split_and!.
  - by eapply lanes_le_trans.
  - rewrite Hlane. unfold ls1. by rewrite lookup_insert_ne.
  - unfold merged_total, zsum. cbn. unfold redeemed_in at 2. rewrite Hm.
    rewrite (map_ext (λ m, redeemed_in ls1 (merge_lane m)) (λ m, redeemed_in ls (merge_lane m)));
      [lia|]. intros m'. by apply lanes_le_redeemed.
  - constructor.
    + split_and!; [done|done|]. pose proof (Hle (merge_lane m)) as Hx. rewrite Hm1 in Hx.
      destruct (ls' !! merge_lane m) as [x'|]; [|done]. exists a1, x'. cbn in Hx. split_and!; try done. lia.
    + eapply Forall_impl; [exact Hall|]. intros m' (Hne & Hmax & x & x' & Hx & Hx' & Hn). split_and!; [done|done|].
      pose proof (Hle1 (merge_lane m')) as Hy. rewrite Hx in Hy.
      destruct (ls !! merge_lane m') as [y|]; [|done]. exists y, x'. destruct Hy. split_and!; try done; lia.
Qed.

(** What redeeming a voucher does. *)
Definition voucher_effect (v : SignedVoucher) (b : Z) (st st' : PaychState) : Prop :=
  pc_from st' = pc_from st ∧ pc_to st' = pc_to st ∧
  to_send st' = to_send st + sv_amount v - redeemed_in (lane_states st) (sv_lane v)
                - merged_total (lane_states st) (merges v) ∧
  0 ≤ to_send st' ≤ b ∧
  (∀ x, lane_states st !! sv_lane v = Some x → lane_nonce x < sv_nonce v) ∧
  (∀ m, m ∈ merges v → ∃ x x', lane_states st !! merge_lane m = Some x ∧
    lane_states st' !! merge_lane m = Some x' ∧ lane_nonce x < merge_nonce m ≤ lane_nonce x') ∧
  lane_states st' !! sv_lane v = Some {| redeemed := sv_amount v; lane_nonce := sv_nonce v |} ∧
  lanes_le (delete (sv_lane v) (lane_states st)) (delete (sv_lane v) (lane_states st')) ∧
  settling_at st ≤ settling_at st' ∧ min_settle_height st ≤ min_settle_height st' ∧
  (sv_min_settle_height v ≠ 0 → sv_min_settle_height v ≤ min_settle_height st') ∧
  (settling_at st' = 0 ↔ settling_at st = 0) ∧
  (settling_at st ≠ 0 → min_settle_height st ≤ settling_at st → min_settle_height st' ≤ settling_at st').

Section proofs.
Context {U : Type} `{!StateIn PaychState U, !Enc SignedVoucher, !Enc bytes}.
Context (G : U → Z → Message → Prop) (I : U → Prop) (rt : Ctx).
Implicit Types (st : PaychState) (u : U) (b : Z).

Lemma redeem_wp v st u b (Q : PaychState * unit → U → Z → Prop) :
  (∀ st', voucher_effect v b st st' → Q (st', tt) u b) → wp G I rt (redeem v st) u b Q.
Proof.
  intros HQ. unfold redeem. wp_step. apply wp_of_code. intros o Ho. unfold find_lane in Ho. inv_ok.
  wp_step.
  set (K := λ lane : LaneState, _).
  assert (HK : ∀ lane, redeemed lane = redeemed_in (lane_states st) (sv_lane v) →
    (∀ x, lane_states st !! sv_lane v = Some x → lane_nonce x < sv_nonce v) → K lane u b).
  { intros lane Hr Hn. unfold K. wp_step. apply wp_of_code. intros [ls total] Hm.
    apply merge_lanes_spec in Hm as (Hle & Hlane & -> & Hall). do 7 wp_step. apply HQ.
    rewrite Hr in *. set (h := sv_min_settle_height v). rewrite Forall_forall in Hall.
    split_and!; cbn; try done; try lia.
    - intros m Hin. destruct (Hall m Hin) as (Hne & _ & x & x' & ? & ? & ?). exists x, x'.
      by rewrite lookup_insert_ne by done.
    - apply lookup_insert_eq.
    - rewrite delete_insert_eq. intros id. specialize (Hle id).
      destruct (decide (id = sv_lane v)) as [->|]; [by rewrite !lookup_delete_eq|].
      by rewrite !lookup_delete_ne.
    - repeat case_if; lia.
    - repeat case_if; lia.
    - fold h. intros Hh. repeat case_if; try lia.
    - repeat case_if; lia.
    - repeat case_if; lia. }
  destruct (lane_states st !! sv_lane v) as [lane|] eqn:E.
  - do 2 wp_step. apply HK; [unfold redeemed_in; by rewrite E|]. by intros x [= <-].
  - apply HK; [unfold redeemed_in; by rewrite E|done].
Qed.

(** Once a lane has reached a nonce, no voucher with that nonce or a lower one
    is redeemed on it. *)
Lemma redeem_stale_wp v st x u b (Q : PaychState * unit → U → Z → Prop) :
  lane_states st !! sv_lane v = Some x → sv_nonce v ≤ lane_nonce x → wp G I rt (redeem v st) u b Q.
Proof.
  intros Hx Hn. apply redeem_wp. intros st' (_ & _ & _ & _ & Hlt & _). specialize (Hlt x Hx). lia.
Qed.

End proofs.

(** ** The invariant *)

Definition paych_inv (st : PaychState) : Prop :=
  is_id (pc_from st) ∧ is_id (pc_to st) ∧ 0 ≤ to_send st ∧ 0 ≤ min_settle_height st ∧
  (settling_at st ≠ 0 → min_settle_height st ≤ settling_at st) ∧
  map_Forall (λ _ x, 0 ≤ redeemed x) (lane_states st).

(** What a channel sends: nothing but messages without value, and what was
    redeemed, to the recipient, once the channel has settled. *)
Definition pc_send_ok {U} `{!StateIn PaychState U} (epoch : Z) (u : U) (b : Z) (m : Message) : Prop :=
  let '(to, method, params, value) := m in
  value = 0 ∨
  ∃ st, state_dec u = Some st ∧ to = pc_to st ∧ method = METHOD_SEND ∧ params = [] ∧ value = to_send st ∧
    settling_at st ≠ 0 ∧ settling_at st ≤ epoch.

Lemma voucher_effect_inv v b st st' :
  0 ≤ sv_amount v → voucher_effect v b st st' → paych_inv st → paych_inv st'.
Proof.
  intros Hv (Hf & Ht & _ & Hs & _ & _ & Hl & Hle & _ & Hmin & _ & Hz & Hset) (Hf' & Ht' & _ & Hmin' & Hset' & Hr).
  split_and!; [congruence|congruence|lia|lia|naive_solver|].
  intros id x' Hx'. destruct (decide (id = sv_lane v)) as [->|Hne]; [rewrite Hl in Hx'; injection Hx' as <-; done|].
  specialize (Hle id). rewrite !lookup_delete_ne, Hx' in Hle by done.
  destruct (lane_states st !! id) as [x|] eqn:E; [|done]. destruct Hle as [-> _]. by eapply Hr.
Qed.

Section safety.
Context {U : Type} `{!StateIn PaychState U, !Enc SignedVoucher, !Enc bytes}.
Context (rt : Ctx) (I : U → Prop) `{!InvIn paych_inv I}.
Implicit Types (st : PaychState) (u : U) (b : Z).

Notation pcwp := (wp (pc_send_ok (curr_epoch rt)) I rt).
Notation post := (λ _ _ _, True).

Lemma resolve_account_wp a u b (Q : Address → U → Z → Prop) :
  I u → 0 ≤ b → (∀ id u' b', is_id id → I u' → 0 ≤ b' → Q id u' b') →
  pcwp (resolve_account a) u b Q.
Proof.
  intros Hu Hb HQ. unfold resolve_account. wp_step. apply wp_resolve_to_id_addr; [by left|done|done|].
  intros id u' b' ? ? ?. do 6 wp_step. by apply HQ.
Qed.

Lemma pc_constructor_wp p u b : I u → 0 ≤ b → pcwp (pc_constructor p) u b post.
Proof.
  intros Hu Hb. unfold pc_constructor. do 3 wp_step. apply resolve_account_wp; [done|done|]. intros to u1 b1 ? ? ?.
  wp_step. apply resolve_account_wp; [done|done|]. intros from u2 b2 ? ? ?.
  wp_step; [|done]. apply inv_enc. by split_and!.
Qed.

Lemma update_wp p u b : I u → 0 ≤ b → pcwp (update_channel_state rt p) u b post.
Proof.
  intros Hu Hb. unfold update_channel_state. do 27 wp_step.
  assert (Hred : ∀ u' b', I u' → 0 ≤ b' → pcwp (transaction (redeem (sv p))) u' b' post).
  { intros u' b' Hu' Hb'. wp_step. apply redeem_wp. intros st' He. split; [|done].
    apply inv_enc. eapply voucher_effect_inv; [done|done|by eapply inv_dec]. }
  set (K := λ (_ : unit) u' b', _). assert (HK : K tt u b).
  { unfold K. wp_step. destruct (extra (sv p)) as [e|]; [|by apply Hred].
    do 2 wp_step; [by left|]. by apply Hred. }
  destruct (secret_pre_image (sv p)) as [|z l]; [done|]. by do 5 wp_step.
Qed.

Lemma settle_wp u b : I u → 0 ≤ b → pcwp (settle rt) u b post.
Proof.
  intros Hu Hb. unfold settle. do 5 wp_step. split; [|done]. apply inv_enc.
  destruct (inv_dec _ s Hu) as (? & ? & ? & ? & ? & ?); [done|]. split_and!; cbn; try done. case_if; lia.
Qed.

Lemma collect_wp u b : I u → 0 ≤ b → pcwp (collect rt) u b post.
Proof.
  intros Hu Hb. unfold collect. do 8 wp_step; [|by wp_step].
  right. exists s. reflect_bools. split_and!; try done.
Qed.

Context `{!Dec PcConstructorParams, !Dec UpdateChannelStateParams}.

Lemma paych_wp method params u b :
  I u → 0 ≤ b → pcwp (paych_invoke_method rt method params) u b post.
Proof.
  intros Hu Hb. unfold paych_invoke_method. repeat case_match; try exact Logic.I.
  all: try (apply call_unit_wp; intros ps Hps; eauto using pc_constructor_wp, update_wp).
  all: wp_step; eapply wp_mono; [|by eauto using settle_wp, collect_wp]; done.
Qed.

End safety.

(** ** Theorems *)

(** C12.  Redeeming a voucher: if it goes through, the amount owed to the
    recipient grows by the amount of the voucher less what its lane and the
    merged lanes had already redeemed, and stays within the balance of the
    channel; the nonce of the voucher was above that of its lane, which takes it
    over; the nonces of merged lanes go up to at least the merge nonces, no other
    lane changes what it redeemed and no nonce goes down; settling is never
    brought forward.  Afterwards no voucher of the lane with the same or a lower
    nonce goes through. *)
Theorem voucher_redeemed_once {U} `{!StateIn PaychState U}
    (G : U → Z → Message → Prop) (I : U → Prop) (rt : Ctx) (v : SignedVoucher) (st : PaychState) (u : U) (b : Z) :
  wp G I rt (redeem v st) u b (λ '(st', _) u' b',
    u' = u ∧ b' = b ∧ voucher_effect v b st st' ∧
    ∀ v' rt' u'' b'', sv_lane v' = sv_lane v → sv_nonce v' ≤ sv_nonce v →
      wp G I rt' (redeem v' st') u'' b'' (λ _ _ _, False)).
Proof.
  apply redeem_wp. intros st' He. split_and!; [done|done|done|]. intros v' rt' u'' b'' Hl Hn.
  destruct He as (_ & _ & _ & _ & _ & _ & Hx & _). eapply redeem_stale_wp; [by rewrite Hl|done].
Qed.


(** A channel that has settled, with 30 owed to actor 101. *)
Definition ex_channel : PaychState :=
  {| pc_from := id_addr 100; pc_to := id_addr 101; to_send := 30; settling_at := 200; min_settle_height := 0;
     lane_states := {[0 := {| redeemed := 30; lane_nonce := 1 |}]} |}.
#[local] Instance ex_pc_in : StateIn PaychState (option PaychState) :=
  {| state_enc := Some; state_dec := id; state_dec_enc := λ s, eq_refl |}.
Definition ex_pc_rt : Ctx :=
  {| caller := id_addr 100; receiver := id_addr 160; value_received := 0; curr_epoch := 250; base_fee := 100 |}.

Lemma ex_channel_ok : paych_inv ex_channel.
Proof. split_and!; cbn; try done; try lia. by apply map_Forall_singleton. Qed.

