(* ===== verification/Smooth.v ===== *)
(** * Fixed-point arithmetic: polynomials, logarithm, exponential, smoothing

    [src/vm/actor/src/util/{math,smooth}] and [builtin/reward/expneg.rs].
    Numbers are big integers in Q.128 format; shifts and [div_floor] round
    down. *)

From S2P Require Import Prelude.

Definition PRECISION : Z := 128.
Definition shl (x : Z) : Z := Z.shiftl x PRECISION.
Definition shr (x : Z) : Z := Z.shiftr x PRECISION.

Definition poly_val (poly : list Z) (x : Z) : Z :=
  fold_left (λ res coeff, shr (res * x) + coeff) poly 0.

(** ** The smoothing filter *)

Record FilterEstimate := { position : Z; velocity : Z }.
Definition filter_new (position velocity : Z) : FilterEstimate :=
  {| position := shl position; velocity := shl velocity |}.
Definition estimate (f : FilterEstimate) : Z := shr (position f).
Definition extrapolate (f : FilterEstimate) (delta : Z) : Z :=
  velocity f * shl delta + shl (position f).

Definition DEFAULT_ALPHA : Z := 314760000000000000000000000000000000.
Definition DEFAULT_BETA : Z := 96640100000000000000000000000000.

(** Division by a zero [epoch_delta] panics in the source; [Z.div] gives zero. *)
Definition next_estimate (alpha beta : Z) (prev_est : FilterEstimate) (obs epoch_delta : Z) : FilterEstimate :=
  let delta_t := shl epoch_delta in
  let delta_x := shr (delta_t * velocity prev_est) in
  let pos := delta_x + position prev_est in
  let residual := shl obs - pos in
  let revision_x := shr (alpha * residual) in
  let revision_v := residual * beta / delta_t in
  {| position := pos + revision_x; velocity := revision_v + velocity prev_est |}.

(** ** Logarithm *)

Definition LN_NUM : list Z :=
  [261417938209272870992496419296200268025; 7266615505142943436908456158054846846897;
   32458783941900493142649393804518050491988; 17078670566130897220338060387082146864806;
   -35150353308172866634071793531642638290419; -20351202052858059355702509232125230498980;
   -1563932590352680681114104005183375350999].
Definition LN_DENOM : list Z :=
  [49928077726659937662124949977867279384; 2508163877009111928787629628566491583994;
   21757751789594546643737445330202599887121; 53400635271583923415775576342898617051826;
   41248834748603606604000911015235164348839; 9015227820322455780436733526367238305537;
   340282366920938463463374607431768211456].
Definition LN_2 : Z := 235865763225513294137944142764154484399.
Definition EPSILON : Z := 302231454903657293676544.

Definition ln_between_one_and_two (x : Z) : Z := shl (poly_val LN_NUM x) / poly_val LN_DENOM x.

(** [BigInt::bits] of the magnitude. *)
Definition get_bit_len (z : Z) : Z := if z =? 0 then 0 else Z.log2 (Z.abs z) + 1.
Definition ln (z : Z) : Z :=
  let k := get_bit_len z - 1 - PRECISION in
  let x := if 0 <? k then Z.shiftr z k else Z.shiftl z (Z.abs k) in
  k * LN_2 + ln_between_one_and_two x.

Definition extrapolated_cum_sum_of_ratio (delta relative_start : Z) (est_num est_denom : FilterEstimate) : Z :=
  let delta_t := shl delta in
  let t0 := shl relative_start in
  let pos_1 := position est_num in
  let pos_2 := position est_denom in
  let velo_1 := velocity est_num in
  let velo_2 := velocity est_denom in
  let squared_velo_2 := shr (velo_2 * velo_2) in
  if EPSILON <? squared_velo_2 then
    let x2a := shr (velo_2 * t0) + pos_2 in
    let x2b := shr (velo_2 * delta_t) + x2a in
    let x2a := ln x2a in
    let x2b := ln x2b in
    let m1 := shr ((x2b - x2a) * pos_1 * velo_2) in
    let m2_l := (x2a - x2b) * pos_2 in
    let m2_r := velo_2 * delta_t in
    let m2 := shr ((m2_l + m2_r) * velo_1) in
    (m2 + m1) / squared_velo_2
  else
    let half_delta := Z.shiftr delta_t 1 in
    let x1m := velo_1 * (t0 + half_delta) in
    let x1m := shr x1m + pos_1 in
    x1m * delta_t / pos_2.

(** ** Exponential *)

Definition EXP_NUM_COEF : list Z :=
  [-648770010757830093818553637600; 67469480939593786226847644286976;
   -3197587544499098424029388939001856; 89244641121992890118377641805348864;
   -1579656163641440567800982336819953664; 17685496037279256458459817590917169152;
   -115682590513835356866803355398940131328; 340282366920938463463374607431768211456].
Definition EXP_DENO_COEF : list Z :=
  [1225524182432722209606361; 114095592300906098243859450; 5665570424063336070530214243;
   194450132448609991765137938448; 5068267641632683791026134915072; 104716890604972796896895427629056;
   1748338658439454459487681798864896; 23704654329841312470660182937960448;
   259380097567996910282699886670381056; 2250336698853390384720606936038375424;
   14978272436876548034486263159246028800; 72144088983913131323343765784380833792;
   224599776407103106596571252037123047424; 340282366920938463463374607431768211456].

(** [e^-x]. *)
Definition expneg (x : Z) : Z := shl (poly_val EXP_NUM_COEF x) / poly_val EXP_DENO_COEF x.

(** ** Lemmas *)

Lemma shr_div x : shr x = x / 2 ^ 128.
Proof. apply Z.shiftr_div_pow2. done. Qed.
Lemma shl_mul x : shl x = x * 2 ^ 128.
Proof. apply Z.shiftl_mul_pow2. done. Qed.
Lemma shr_shl x : shr (shl x) = x.
Proof. rewrite shr_div, shl_mul. by apply Z.div_mul. Qed.

(** The test of [next_estimate] in [alpha_beta_filter.rs]. *)
Example next_estimate_test :
  next_estimate DEFAULT_ALPHA DEFAULT_BETA
    {| position := 12340768897043811082913117521041414330876498465539749838848;
       velocity := -37396269384748225153347462373739139597454335279104 |} 36266252337034982540 3
  = {| position := 12340768782449774548722755900999027209659079673176744001536;
       velocity := -37396515542149801792802995707072472930787668612438 |}.
Proof. vm_compute. reflexivity. Qed.
