(* ===== verification/Reward.v ===== *)
(** * The reward actor

    [src/vm/actor/src/builtin/reward/{mod,state,logic,types}.rs]: the reward of
    an epoch from simple and baseline minting, and the block rewards. *)

From S2P Require Import Prelude Address Runtime Smooth.

(** ** [logic.rs] *)

Definition FILECOIN_PRECISION : Z := 1000000000000000000.
Definition BASELINE_EXPONENT : Z := 340282591298641078465964189926313473653.
Definition BASELINE_INITIAL_VALUE : Z := 2888888880000000000.
Definition INIT_BASELINE_POWER : Z :=
  shr (Z.quot (Z.shiftl BASELINE_INITIAL_VALUE (2 * PRECISION)) BASELINE_EXPONENT).
Definition SIMPLE_TOTAL : Z := 330000000 * FILECOIN_PRECISION.
Definition BASELINE_TOTAL : Z := 770000000 * FILECOIN_PRECISION.
Definition EXP_LAM_SUB_ONE : Z := 37396273494747879394193016954629.
Definition LAMBDA : Z := 37396271439864487274534522888786.

Definition baseline_power_from_prev (prev_power : Z) : Z := shr (prev_power * BASELINE_EXPONENT).

Definition compute_r_theta (effective_network_time baseline_power_at_time cumsum_realized cumsum_baseline : Z) : Z :=
  if negb (effective_network_time =? 0) then
    let reward_theta := shl effective_network_time in
    let diff := shl (cumsum_baseline - cumsum_realized) / baseline_power_at_time in
    reward_theta - diff
  else 0.

Definition compute_baseline_supply (theta baseline_total : Z) : Z :=
  let theta_lam := shr (theta * LAMBDA) in
  let etl := expneg theta_lam in
  let one_sub := shl 1 - etl in
  one_sub * baseline_total.

Definition compute_reward (epoch prev_theta curr_theta simple_total baseline_total : Z) : Z :=
  let simple_reward := simple_total * EXP_LAM_SUB_ONE in
  let epoch_lam := LAMBDA * epoch in
  let simple_reward := shr (simple_reward * expneg epoch_lam) in
  let baseline_reward :=
    compute_baseline_supply curr_theta baseline_total - compute_baseline_supply prev_theta baseline_total in
  shr (simple_reward + baseline_reward).

(** ** [state.rs] *)

Definition EPOCH_UNDEFINED : Z := -1.
Definition INITIAL_REWARD_POSITION_ESTIMATE : Z := 36266260308195979333.
Definition INITIAL_REWARD_VELOCITY_ESTIMATE : Z := -109897758509.

Record RewardState := {
  cumsum_baseline : Z; cumsum_realized : Z; effective_network_time : Z; effective_baseline_power : Z;
  this_epoch_reward : Z; this_epoch_reward_smoothed : FilterEstimate; this_epoch_baseline_power : Z;
  rw_epoch : Z; total_storage_power_reward : Z; simple_total : Z; baseline_total : Z }.

(** The loop that moves effective network time on, with [fuel] iterations left. *)
Fixpoint advance (fuel : nat) (realized baseline time power : Z) : option (Z * Z * Z) :=
  if realized <=? baseline then Some (baseline, time, power)
  else
    match fuel with
    | O => None
    | S fuel =>
        let power := baseline_power_from_prev power in
        advance fuel realized (baseline + power) (time + 1) power
    end.

(** Each iteration adds at least one to the baseline sum ([advance_ends]). *)
Definition update_to_next_epoch (s : RewardState) (curr_realized_power : Z) : option RewardState :=
  let epoch := rw_epoch s + 1 in
  let this_epoch_baseline_power := baseline_power_from_prev (this_epoch_baseline_power s) in
  let capped_realized_power := Z.min this_epoch_baseline_power curr_realized_power in
  let realized := cumsum_realized s + capped_realized_power in
  '(baseline, time, power) ← advance (Z.to_nat (realized - cumsum_baseline s)) realized (cumsum_baseline s)
      (effective_network_time s) (effective_baseline_power s);
  Some {| cumsum_baseline := baseline; cumsum_realized := realized; effective_network_time := time;
          effective_baseline_power := power; this_epoch_reward := this_epoch_reward s;
          this_epoch_reward_smoothed := this_epoch_reward_smoothed s;
          this_epoch_baseline_power := this_epoch_baseline_power; rw_epoch := epoch;
          total_storage_power_reward := total_storage_power_reward s;
          simple_total := simple_total s; baseline_total := baseline_total s |}.

Definition set_rewards (s : RewardState) (reward : Z) (smoothed : FilterEstimate) (total : Z) : RewardState :=
  {| cumsum_baseline := cumsum_baseline s; cumsum_realized := cumsum_realized s;
     effective_network_time := effective_network_time s; effective_baseline_power := effective_baseline_power s;
     this_epoch_reward := reward; this_epoch_reward_smoothed := smoothed;
     this_epoch_baseline_power := this_epoch_baseline_power s; rw_epoch := rw_epoch s;
     total_storage_power_reward := total; simple_total := simple_total s; baseline_total := baseline_total s |}.

Definition r_theta (s : RewardState) : Z :=
  compute_r_theta (effective_network_time s) (effective_baseline_power s) (cumsum_realized s) (cumsum_baseline s).

Definition update_to_next_epoch_with_reward (s : RewardState) (curr_realized_power : Z) : option RewardState :=
  let prev_reward_theta := r_theta s in
  s ← update_to_next_epoch s curr_realized_power;
  let curr_reward_theta := r_theta s in
  Some (set_rewards s
    (compute_reward (rw_epoch s) prev_reward_theta curr_reward_theta (simple_total s) (baseline_total s))
    (this_epoch_reward_smoothed s) (total_storage_power_reward s)).

Definition update_smoothed_estimates (s : RewardState) (delta : Z) : RewardState :=
  set_rewards s (this_epoch_reward s)
    (next_estimate DEFAULT_ALPHA DEFAULT_BETA (this_epoch_reward_smoothed s) (this_epoch_reward s) delta)
    (total_storage_power_reward s).

Definition reward_state_new (curr_realized_power : Z) : option RewardState :=
  update_to_next_epoch_with_reward
    {| cumsum_baseline := 0; cumsum_realized := 0; effective_network_time := 0;
       effective_baseline_power := BASELINE_INITIAL_VALUE; this_epoch_reward := 0;
       this_epoch_reward_smoothed :=
         filter_new INITIAL_REWARD_POSITION_ESTIMATE INITIAL_REWARD_VELOCITY_ESTIMATE;
       this_epoch_baseline_power := INIT_BASELINE_POWER; rw_epoch := EPOCH_UNDEFINED;
       total_storage_power_reward := 0; simple_total := SIMPLE_TOTAL; baseline_total := BASELINE_TOTAL |}
    curr_realized_power.

(** The loop over null rounds: one update per epoch up to the current one. *)
Fixpoint catch_up (n : nat) (s : RewardState) (curr_realized_power : Z) : option RewardState :=
  match n with
  | O => Some s
  | S n => s ← update_to_next_epoch s curr_realized_power; catch_up n s curr_realized_power
  end.

(** ** [mod.rs] *)

Definition PENALTY_MULTIPLIER : Z := 3.
Definition APPLY_REWARDS : Z := 14.

Record AwardBlockRewardParams := { aw_miner : Address; aw_penalty : Z; aw_gas_reward : Z; aw_win_count : Z }.
Record ApplyRewardParams := { ar_reward : Z; ar_penalty : Z }.
Record ThisEpochRewardReturn := { er_smoothed : FilterEstimate; er_baseline_power : Z }.

Section reward.
Context {U : Type} `{!StateIn RewardState U, !Enc ApplyRewardParams, !Enc ThisEpochRewardReturn}.
Context (rt : Ctx).

(** A loop of the source that would not end is the [None] of the model;
    [reward_keeps] shows that it does not occur. *)
Definition reward_constructor (curr_realized_power : option Z) : Prog U unit :=
  _ ← validate_immediate_caller_is [SYSTEM_ACTOR_ADDR];
  match curr_realized_power with
  | Some power => st ← unwrap_or_abort (reward_state_new power) SysErrActorPanic; create st
  | None => abort ErrIllegalArgument
  end.

Definition award_block_reward (params : AwardBlockRewardParams) : Prog U unit :=
  _ ← validate_immediate_caller_is [SYSTEM_ACTOR_ADDR];
  prior_balance ← current_balance;
  _ ← abort_if (aw_penalty params <? 0) ErrIllegalArgument;
  _ ← abort_if (aw_gas_reward params <? 0) ErrIllegalArgument;
  _ ← abort_if (prior_balance <? aw_gas_reward params) ErrIllegalState;
  _ ← abort_if (aw_win_count params <=? 0) ErrIllegalArgument;
  miner_addr ← resolve_address (aw_miner params);
  miner_addr ← unwrap_or_abort miner_addr ErrNotFound;
  let penalty := aw_penalty params * PENALTY_MULTIPLIER in
  total_reward ← transaction (λ st : RewardState,
    let block_reward := this_epoch_reward st * aw_win_count params / EXPECTED_LEADERS_PER_EPOCH in
    let total_reward := aw_gas_reward params + block_reward in
    curr_balance ← current_balance;
    '(total_reward, block_reward) ←
      (if curr_balance <? total_reward then
         let block_reward := curr_balance - aw_gas_reward params in
         _ ← abort_if (block_reward <? 0) ErrIllegalState;
         mret (curr_balance, block_reward)
       else mret (total_reward, block_reward));
    mret (set_rewards st (this_epoch_reward st) (this_epoch_reward_smoothed st)
            (total_storage_power_reward st + block_reward), total_reward));
  _ ← abort_if (prior_balance <? total_reward) ErrIllegalState;
  res ← send miner_addr APPLY_REWARDS (enc {| ar_reward := total_reward; ar_penalty := penalty |}) total_reward;
  match res with
  | Ok _ => mret tt
  | Err _ => _ ← send BURNT_FUNDS_ACTOR_ADDR METHOD_SEND [] total_reward; mret tt
  end.

Definition this_epoch_reward_method : Prog U ThisEpochRewardReturn :=
  _ ← validate_immediate_caller_accept_any;
  st ← get_state;
  mret {| er_smoothed := this_epoch_reward_smoothed st; er_baseline_power := this_epoch_baseline_power st |}.

Definition update_network_kpi (curr_realized_power : option Z) : Prog U unit :=
  _ ← validate_immediate_caller_is [STORAGE_POWER_ACTOR_ADDR];
  power ← unwrap_or_abort curr_realized_power ErrIllegalArgument;
  transaction (λ st : RewardState,
    let prev := rw_epoch st in
    st ← unwrap_or_abort (catch_up (Z.to_nat (curr_epoch rt - rw_epoch st)) st power) SysErrActorPanic;
    st ← unwrap_or_abort (update_to_next_epoch_with_reward st power) SysErrActorPanic;
    mret (update_smoothed_estimates st (rw_epoch st - prev), tt)).

Context `{!Dec (option Z), !Dec AwardBlockRewardParams}.

Definition reward_invoke_method (method : Z) (params : bytes) : Prog U bytes :=
  match method with
  | 1 => call_unit params reward_constructor
  | 2 => call_unit params award_block_reward
  | 3 => r ← this_epoch_reward_method; mret (enc r)
  | 4 => call_unit params update_network_kpi
  | _ => invalid_method
  end.

End reward.

(** ** Effective network time *)

Lemma baseline_grows p : 0 ≤ p → p ≤ baseline_power_from_prev p.
Proof.
  intros Hp. unfold baseline_power_from_prev. rewrite shr_div. apply Z.div_le_lower_bound; [done|].
  assert (2 ^ 128 ≤ BASELINE_EXPONENT) by (vm_compute; discriminate). nia.
Qed.

Lemma advance_ends fuel realized baseline time power :
  1 ≤ power → realized - baseline ≤ Z.of_nat fuel →
  ∃ baseline' time' power', advance fuel realized baseline time power = Some (baseline', time', power') ∧
    realized ≤ baseline' ∧ power ≤ power' ∧
    ((realized ≤ baseline ∧ baseline' = baseline ∧ time' = time ∧ power' = power) ∨
     (baseline' - power' < realized ∧ time < time')).
Proof.
  revert baseline time power. induction fuel as [|fuel IH]; intros baseline time power Hp Hf; cbn [advance].
  { rewrite (proj2 (Z.leb_le _ _)) by lia. exists baseline, time, power. split_and!; try done; lia. }
  destruct (Z.leb_spec realized baseline).
  { exists baseline, time, power. split_and!; try done; lia. }
  pose proof (baseline_grows power ltac:(lia)) as Hg. set (p := baseline_power_from_prev power) in *.
  destruct (IH (baseline + p) (time + 1) p) as (b' & t' & p' & -> & Hr & Hp' & Hcase); [lia|lia|].
  exists b', t', p'. split_and!; [done|done|lia|]. right. lia.
Qed.

(** The target sum is never behind, and the power at effective network time is
    positive. *)
Definition reward_inv (s : RewardState) : Prop :=
  1 ≤ effective_baseline_power s ∧ cumsum_realized s ≤ cumsum_baseline s ∧ 0 ≤ effective_network_time s ∧
  0 ≤ this_epoch_baseline_power s.
(** The target is less than one epoch ahead. *)
Definition time_exact (s : RewardState) : Prop :=
  cumsum_baseline s - effective_baseline_power s < cumsum_realized s ∨ effective_network_time s = 0.

Lemma next_epoch_spec s power :
  reward_inv s →
  ∃ s', update_to_next_epoch s power = Some s' ∧ reward_inv s' ∧ rw_epoch s' = rw_epoch s + 1 ∧
    this_epoch_reward_smoothed s' = this_epoch_reward_smoothed s ∧
    total_storage_power_reward s' = total_storage_power_reward s ∧
    cumsum_realized s' = cumsum_realized s + Z.min (this_epoch_baseline_power s') power ∧
    ((cumsum_baseline s' = cumsum_baseline s ∧ effective_network_time s' = effective_network_time s ∧
      effective_baseline_power s' = effective_baseline_power s) ∨
     (cumsum_baseline s' - effective_baseline_power s' < cumsum_realized s' ∧
      effective_network_time s < effective_network_time s')).
Proof.
  intros (Hp & Hr & Ht & Hb). unfold update_to_next_epoch.
  pose proof (baseline_grows _ Hb) as Hg. set (tb := baseline_power_from_prev (this_epoch_baseline_power s)) in *.
  set (realized := cumsum_realized s + Z.min tb power).
  destruct (advance_ends (Z.to_nat (realized - cumsum_baseline s)) realized (cumsum_baseline s)
    (effective_network_time s) (effective_baseline_power s)) as (b' & t' & p' & -> & Hr' & Hp' & Hcase); [done|lia|].
  cbn. eexists; split; [reflexivity|]. cbn. split_and!; try done; try lia.
  - split_and!; cbn; lia.
Qed.

Lemma r_theta_range s :
  reward_inv s → time_exact s → effective_network_time s ≠ 0 →
  shl (effective_network_time s - 1) < r_theta s ≤ shl (effective_network_time s).
Proof.
  intros (Hp & Hr & Ht & Hb) [Hx|Hx] Hne; [|done]. unfold r_theta, compute_r_theta. rewrite !shl_mul.
  rewrite (proj2 (Z.eqb_neq _ _) Hne). cbn [negb]. set (P := 2 ^ 128).
  assert (0 < P) by done. set (d := cumsum_baseline s - cumsum_realized s) in *.
  assert (0 ≤ d * P / effective_baseline_power s < P).
  { split; [apply Z.div_pos; nia|]. apply Z.div_lt_upper_bound; nia. }
  nia.
Qed.

Lemma r_theta_mono s s' :
  reward_inv s → reward_inv s' → time_exact s → time_exact s' →
  (cumsum_realized s ≤ cumsum_realized s' ∧ cumsum_baseline s' = cumsum_baseline s ∧
   effective_network_time s' = effective_network_time s ∧ effective_baseline_power s' = effective_baseline_power s) ∨
  effective_network_time s < effective_network_time s' →
  r_theta s ≤ r_theta s'.
Proof.
  intros Hi Hi' Hx Hx' [(Hr & Hb & Ht & Hp)|Hlt].
  - unfold r_theta, compute_r_theta. rewrite Ht, Hb, Hp. case_if; [|lia]. rewrite !shl_mul.
    apply Z.sub_le_mono_l. apply Z.div_le_mono; [destruct Hi; lia|].
    apply Z.mul_le_mono_nonneg_r; [done|lia].
  - destruct Hi as (Hp & Hr & Ht & Hb) eqn:?. destruct (decide (effective_network_time s = 0)) as [E|E].
    + unfold r_theta at 1, compute_r_theta. rewrite E. cbn. pose proof (r_theta_range s' Hi' Hx' ltac:(lia)) as Hr'.
      rewrite !shl_mul in Hr'. assert (0 < 2 ^ 128) by done. nia.
    + pose proof (r_theta_range s ltac:(done) Hx E). pose proof (r_theta_range s' Hi' Hx' ltac:(lia)) as Hr'.
      rewrite !shl_mul in *. assert (0 < 2 ^ 128) by done. nia.
Qed.

Lemma set_rewards_inv s r f t : reward_inv s → reward_inv (set_rewards s r f t).
Proof. done. Qed.

Lemma with_reward_spec s power :
  reward_inv s → ∃ s', update_to_next_epoch_with_reward s power = Some s' ∧ reward_inv s' ∧ rw_epoch s' = rw_epoch s + 1.
Proof.
  intros Hi. unfold update_to_next_epoch_with_reward.
  destruct (next_epoch_spec s power Hi) as (s' & -> & Hi' & He & _). cbn. eexists; split; [reflexivity|done].
Qed.

Lemma catch_up_spec n s power :
  reward_inv s → ∃ s', catch_up n s power = Some s' ∧ reward_inv s' ∧ rw_epoch s' = rw_epoch s + Z.of_nat n.
Proof.
  revert s. induction n as [|n IH]; intros s Hi; cbn [catch_up]; [exists s; split_and!; [done|done|lia]|].
  destruct (next_epoch_spec s power Hi) as (s1 & -> & Hi1 & He & _). cbn.
  destruct (IH s1 Hi1) as (s' & -> & Hi' & He'). exists s'. split_and!; [done|done|lia].
Qed.

Lemma reward_new_spec power : ∃ s, reward_state_new power = Some s ∧ reward_inv s.
Proof.
  unfold reward_state_new. set (s0 := Build_RewardState _ _ _ _ _ _ _ _ _ _ _).
  destruct (with_reward_spec s0 power) as (s & -> & Hi & _); [|by exists s].
  split_and!; cbn; try lia; vm_compute; discriminate.
Qed.

(** ** Invariant and sends of the actor *)

(** Rewards go to the miner, within the balance, or to the burnt funds actor. *)
Definition reward_send_ok {U} (u : U) (b : Z) (m : Message) : Prop :=
  let '(to, method, params, value) := m in
  (is_id to ∧ method = APPLY_REWARDS ∧ value ≤ b) ∨ (to = BURNT_FUNDS_ACTOR_ADDR ∧ method = METHOD_SEND ∧ params = []).

Section safety.
Context {U : Type} `{!StateIn RewardState U, !Enc ApplyRewardParams, !Enc ThisEpochRewardReturn}.
Context (rt : Ctx) (I : U → Prop) `{!InvIn reward_inv I}.
Notation rwp := (wp reward_send_ok I rt).
Notation post := (λ _ _ _, True).

Lemma reward_constructor_wp p u b : rwp (reward_constructor p) u b post.
Proof.
  unfold reward_constructor. do 2 wp_step. destruct p as [power|]; [|done].
  destruct (reward_new_spec power) as (s & -> & Hs). do 3 wp_step; [|done]. simplify_eq. by apply inv_enc.
Qed.

Lemma award_wp p u b : I u → 0 ≤ b → rwp (award_block_reward p) u b post.
Proof.
  intros Hu Hb. unfold award_block_reward. do 20 wp_step.
  assert (Hcont : ∀ total block, I (state_enc (set_rewards s (this_epoch_reward s) (this_epoch_reward_smoothed s)
      (total_storage_power_reward s + block))) ∧
    rwp (_ ← abort_if (b <? total) ErrIllegalState;
         res ← send a APPLY_REWARDS (enc {| ar_reward := total; ar_penalty := aw_penalty p * PENALTY_MULTIPLIER |}) total;
         match res with
         | Ok _ => mret tt
         | Err _ => _ ← send BURNT_FUNDS_ACTOR_ADDR METHOD_SEND [] total; mret tt
         end) (state_enc (set_rewards s (this_epoch_reward s) (this_epoch_reward_smoothed s)
           (total_storage_power_reward s + block))) b post).
  { intros total block. split; [apply inv_enc, set_rewards_inv; by eapply inv_dec|].
    do 4 wp_step; [left; split_and!; [by apply H4|done|done]|]. wp_step; [done|]. do 2 wp_step; [by right|done]. }
  wp_step. wp_step; [do 2 wp_step|]; apply Hcont.
Qed.

Lemma kpi_wp p u b : I u → rwp (update_network_kpi rt p) u b post.
Proof.
  intros Hu. unfold update_network_kpi. do 6 wp_step. assert (Hs : reward_inv s) by by eapply inv_dec.
  destruct (catch_up_spec (Z.to_nat (curr_epoch rt - rw_epoch s)) s a Hs) as (s1 & -> & Hi1 & _).
  destruct (with_reward_spec s1 a Hi1) as (s2 & Hs2 & Hi2 & _).
  do 4 wp_step. simplify_eq. split; [|done]. by apply inv_enc.
Qed.

Context `{!Dec (option Z), !Dec AwardBlockRewardParams}.

Lemma reward_wp method params u b : I u → 0 ≤ b → rwp (reward_invoke_method rt method params) u b post.
Proof.
  intros Hu Hb. unfold reward_invoke_method. repeat case_match; try exact Logic.I.
  all: try (apply call_unit_wp; intros ps Hps; eauto using reward_constructor_wp, award_wp, kpi_wp).
  unfold this_epoch_reward_method. by do 6 wp_step.
Qed.

End safety.

(** ** Theorems *)

(** C28.  Effective network time: the loops that move it on always end, also
    over null rounds, and leave the target sum at or above the realised one.
    With non-negative power the target stays less than one epoch ahead, the
    interpolated time lies within the last epoch of effective time, and it never
    goes back. *)
Theorem network_time_advances (s : RewardState) (power : Z) :
  reward_inv s →
  ∃ s', update_to_next_epoch s power = Some s' ∧ reward_inv s' ∧ rw_epoch s' = rw_epoch s + 1 ∧
    effective_network_time s ≤ effective_network_time s' ∧
    (0 ≤ power → time_exact s →
      time_exact s' ∧ r_theta s ≤ r_theta s' ∧
      (effective_network_time s' ≠ 0 →
        shl (effective_network_time s' - 1) < r_theta s' ≤ shl (effective_network_time s'))).
Proof.
  intros Hi. destruct (next_epoch_spec s power Hi) as (s' & Hs & Hi' & He & _ & _ & Hr & Hcase).
  exists s'. split_and!; [done|done|done|destruct Hcase as [(_ & -> & _)|[_ ?]]; lia|].
  intros Hp Hx. assert (Hmin : 0 ≤ Z.min (this_epoch_baseline_power s') power) by (destruct Hi' as (_ & _ & _ & ?); lia).
  assert (Hx' : time_exact s').
  { unfold time_exact in *. destruct Hcase as [(-> & -> & ->)|[? ?]]; [|by left]. destruct Hx; [left; lia|by right]. }
  split_and!; [done| |by apply r_theta_range].
  apply r_theta_mono; try done. destruct Hcase as [(-> & -> & ->)|[? ?]]; [left; split_and!; try done; lia|by right].
Qed.

Lemma network_time_advances_witness :
  ∃ s s', reward_state_new 5000000000000000000 = Some s ∧ update_to_next_epoch s 5000000000000000000 = Some s' ∧
    effective_network_time s ≤ effective_network_time s'.
Proof.
  destruct (reward_new_spec 5000000000000000000) as (s & Hs & Hi).
  destruct (network_time_advances s 5000000000000000000 Hi) as (s' & Hs' & _ & _ & Hle & _).
  exists s, s'. exact (conj Hs (conj Hs' Hle)).
Defined.
