(* ===== verification/Verifreg.v ===== *)
(** * The verified registry actor

    [src/vm/actor/src/builtin/verifreg/{mod,state,types}.rs].  The HAMTs of
    verifiers and verified clients are the finite maps they implement. *)

From S2P Require Import Prelude Address Runtime.

Definition MINIMUM_VERIFIED_DEAL_SIZE : Z := 1048576.

Record VerifregState := {
  root_key : Address; verifiers : gmap Address Z; verified_clients : gmap Address Z }.
Definition verifreg_new (root_key : Address) : VerifregState :=
  {| root_key := root_key; verifiers := ∅; verified_clients := ∅ |}.

Record VerifierParams := { vp_address : Address; vp_allowance : Z }.
Record BytesParams := { bp_address : Address; bp_deal_size : Z }.

Definition with_verifiers (s : VerifregState) (m : gmap Address Z) : VerifregState :=
  {| root_key := root_key s; verifiers := m; verified_clients := verified_clients s |}.
Definition with_clients (s : VerifregState) (m : gmap Address Z) : VerifregState :=
  {| root_key := root_key s; verifiers := verifiers s; verified_clients := m |}.

Section verifreg.
Context {U : Type} `{!StateIn VerifregState U}.
Context (absent_ok : gmap Address Z → Address → bool) (rt : Ctx).

Definition verifreg_constructor (root_key : Address) : Prog U unit :=
  _ ← validate_immediate_caller_is [SYSTEM_ACTOR_ADDR];
  id_addr ← resolve_address root_key;
  id_addr ← unwrap_or_abort id_addr ErrIllegalArgument;
  create (verifreg_new id_addr).

Definition add_verifier (params : VerifierParams) : Prog U unit :=
  _ ← abort_if (vp_allowance params <? MINIMUM_VERIFIED_DEAL_SIZE) ErrIllegalArgument;
  verifier ← resolve_to_id_addr (vp_address params) ErrIllegalState;
  st ← get_state;
  _ ← validate_immediate_caller_is [root_key st];
  _ ← abort_if (bool_decide (verifier = root_key st)) ErrIllegalArgument;
  transaction (λ st : VerifregState,
    _ ← abort_if (bool_decide (is_Some (verified_clients st !! verifier))) ErrIllegalArgument;
    mret (with_verifiers st (<[verifier := vp_allowance params]> (verifiers st)), tt)).

Definition remove_verifier (verifier_addr : Address) : Prog U unit :=
  verifier ← resolve_to_id_addr verifier_addr ErrIllegalState;
  state ← get_state;
  _ ← validate_immediate_caller_is [root_key state];
  transaction (λ st : VerifregState,
    '(old, vs) ← map_delete absent_ok (verifiers st) verifier;
    _ ← unwrap_or_abort old ErrIllegalArgument;
    mret (with_verifiers st vs, tt)).

Definition add_verified_client (params : VerifierParams) : Prog U unit :=
  _ ← validate_immediate_caller_accept_any;
  _ ← abort_if (vp_allowance params <? MINIMUM_VERIFIED_DEAL_SIZE) ErrIllegalArgument;
  client ← resolve_to_id_addr (vp_address params) ErrIllegalState;
  st ← get_state;
  _ ← abort_if (bool_decide (client = root_key st)) ErrIllegalArgument;
  transaction (λ st : VerifregState,
    verifier_cap ← unwrap_or_abort (verifiers st !! caller rt) ErrNotFound;
    _ ← abort_if (bool_decide (is_Some (verifiers st !! client))) ErrIllegalArgument;
    _ ← abort_if (verifier_cap <? vp_allowance params) ErrIllegalArgument;
    let new_verifier_cap := verifier_cap - vp_allowance params in
    let client_cap := match verified_clients st !! client with
      | Some client_cap => client_cap + vp_allowance params
      | None => vp_allowance params
      end in
    mret ({| root_key := root_key st; verifiers := <[caller rt := new_verifier_cap]> (verifiers st);
             verified_clients := <[client := client_cap]> (verified_clients st) |}, tt)).

Definition use_bytes (params : BytesParams) : Prog U unit :=
  _ ← validate_immediate_caller_is [STORAGE_MARKET_ACTOR_ADDR];
  client ← resolve_to_id_addr (bp_address params) ErrIllegalState;
  _ ← abort_if (bp_deal_size params <? MINIMUM_VERIFIED_DEAL_SIZE) ErrIllegalArgument;
  transaction (λ st : VerifregState,
    vc_cap ← unwrap_or_abort (verified_clients st !! client) ErrNotFound;
    _ ← abort_if (vc_cap <? 0) ErrIllegalState;
    _ ← abort_if (vc_cap <? bp_deal_size params) ErrIllegalArgument;
    let new_vc_cap := vc_cap - bp_deal_size params in
    if new_vc_cap <? MINIMUM_VERIFIED_DEAL_SIZE then
      '(old, vcs) ← map_delete absent_ok (verified_clients st) client;
      _ ← unwrap_or_abort old ErrIllegalState;
      mret (with_clients st vcs, tt)
    else mret (with_clients st (<[client := new_vc_cap]> (verified_clients st)), tt)).

Definition restore_bytes (params : BytesParams) : Prog U unit :=
  _ ← validate_immediate_caller_is [STORAGE_MARKET_ACTOR_ADDR];
  _ ← abort_if (bp_deal_size params <? MINIMUM_VERIFIED_DEAL_SIZE) ErrIllegalArgument;
  client ← resolve_to_id_addr (bp_address params) ErrIllegalState;
  st ← get_state;
  _ ← abort_if (bool_decide (client = root_key st)) ErrIllegalArgument;
  transaction (λ st : VerifregState,
    _ ← abort_if (bool_decide (is_Some (verifiers st !! client))) ErrIllegalArgument;
    let vc_cap := default 0 (verified_clients st !! client) in
    let new_vc_cap := vc_cap + bp_deal_size params in
    mret (with_clients st (<[client := new_vc_cap]> (verified_clients st)), tt)).

Context `{!Dec Address, !Dec VerifierParams, !Dec BytesParams}.

Definition verifreg_invoke_method (method : Z) (params : bytes) : Prog U bytes :=
  match method with
  | 1 => call_unit params verifreg_constructor
  | 2 => call_unit params add_verifier
  | 3 => call_unit params remove_verifier
  | 4 => call_unit params add_verified_client
  | 5 => call_unit params use_bytes
  | 6 => call_unit params restore_bytes
  | _ => invalid_method
  end.

End verifreg.

(** ** The invariant *)

(** Nobody is both a verifier and a client, the root key is neither, allowances
    are not negative and clients have at least the minimal one. *)
Definition verifreg_inv (s : VerifregState) : Prop :=
  is_id (root_key s) ∧ verifiers s ##ₘ verified_clients s ∧
  verifiers s !! root_key s = None ∧ verified_clients s !! root_key s = None ∧
  map_Forall (λ _ c, 0 ≤ c) (verifiers s) ∧
  map_Forall (λ _ c, MINIMUM_VERIFIED_DEAL_SIZE ≤ c) (verified_clients s).

Section safety.
Context {U : Type} `{!StateIn VerifregState U}.
Context (absent_ok : gmap Address Z → Address → bool) (rt : Ctx) (I : U → Prop) `{!InvIn verifreg_inv I}.
(** The registry sends only the empty message that creates an account. *)
Definition empty_send {V} (u : V) (b : Z) (m : Message) : Prop :=
  let '(_, method, params, value) := m in method = METHOD_SEND ∧ params = [] ∧ value = 0.
Notation vwp := (wp empty_send I rt).
Notation post := (λ _ _ _, True).

Lemma vr_resolve_wp a u b (Q : Address → U → Z → Prop) :
  I u → 0 ≤ b → (∀ id u' b', is_id id → I u' → 0 ≤ b' → Q id u' b') →
  vwp (resolve_to_id_addr a ErrIllegalState) u b Q.
Proof. intros. apply wp_resolve_to_id_addr; auto. by split_and!. Qed.

Lemma verifreg_constructor_wp a u b : vwp (verifreg_constructor a) u b post.
Proof.
  unfold verifreg_constructor. do 7 wp_step; [|done]. apply inv_enc. split_and!; cbn; try done; auto.
Qed.

Lemma add_verifier_wp p u b : I u → 0 ≤ b → vwp (add_verifier p) u b post.
Proof.
  intros Hu Hb. unfold add_verifier. do 3 wp_step. apply vr_resolve_wp; [done..|]. intros id u' b' Hid Hu' Hb'.
  do 9 wp_step. split; [|done]. apply inv_enc.
  destruct (inv_dec _ s0 Hu') as (? & Hd & ? & ? & ? & ?); [done|]. simplify_eq. split_and!; cbn; try done.
  - apply map_disjoint_insert_l_2; [|done]. by apply eq_None_not_Some.
  - by rewrite lookup_insert_ne.
  - apply map_Forall_insert_2; [|done]. unfold MINIMUM_VERIFIED_DEAL_SIZE in *. lia.
Qed.

Lemma remove_verifier_wp a u b : I u → 0 ≤ b → vwp (remove_verifier absent_ok a) u b post.
Proof.
  intros Hu Hb. unfold remove_verifier. wp_step. apply vr_resolve_wp; [done..|]. intros id u' b' Hid Hu' Hb'.
  do 9 wp_step. split; [|done]. apply inv_enc.
  destruct (inv_dec _ s0 Hu') as (? & Hd & ? & ? & ? & ?); [done|]. simplify_eq. split_and!; cbn; try done.
  - by apply map_disjoint_delete_l.
  - by rewrite lookup_delete_None; right.
  - by apply map_Forall_delete.
Qed.

Lemma add_verified_client_wp p u b : I u → 0 ≤ b → vwp (add_verified_client rt p) u b post.
Proof.
  intros Hu Hb. unfold add_verified_client. do 5 wp_step. apply vr_resolve_wp; [done..|]. intros id u' b' Hid Hu' Hb'.
  do 11 wp_step. split; [|done]. apply inv_enc.
  destruct (inv_dec _ s0 Hu') as (? & Hd & Hrv & ? & ? & Hc); [done|]. simplify_eq.
  assert (Hne : caller rt ≠ id) by (intros <-; eauto).
  split_and!; cbn; try done.
  - apply map_disjoint_insert_r_2; [rewrite lookup_insert_ne by done; by apply eq_None_not_Some|].
    apply map_disjoint_insert_l_2; [|done]. by eapply map_disjoint_Some_l.
  - rewrite lookup_insert_ne; [done|]. congruence.
  - by rewrite lookup_insert_ne.
  - apply map_Forall_insert_2; [lia|done].
  - apply map_Forall_insert_2; [|done]. destruct (verified_clients s !! id) eqn:E; [|done].
    apply Hc in E. unfold MINIMUM_VERIFIED_DEAL_SIZE in *. lia.
Qed.

Lemma use_bytes_wp p u b : I u → 0 ≤ b → vwp (use_bytes absent_ok p) u b post.
Proof.
  intros Hu Hb. unfold use_bytes. do 3 wp_step. apply vr_resolve_wp; [done..|]. intros id u' b' Hid Hu' Hb'.
  do 9 wp_step. destruct (inv_dec _ s Hu') as (? & Hd & ? & ? & ? & ?); [done|]. wp_step.
  - do 4 wp_step. split; [|done]. apply inv_enc. split_and!; cbn; try done.
    + by apply map_disjoint_delete_r.
    + by rewrite lookup_delete_None; right.
    + by apply map_Forall_delete.
  - wp_step. split; [|done]. apply inv_enc. split_and!; cbn; try done.
    + apply map_disjoint_insert_r_2; [|done]. by eapply map_disjoint_Some_r.
    + rewrite lookup_insert_ne; [done|]. congruence.
    + by apply map_Forall_insert_2.
Qed.

Lemma restore_bytes_wp p u b : I u → 0 ≤ b → vwp (restore_bytes p) u b post.
Proof.
  intros Hu Hb. unfold restore_bytes. do 5 wp_step. apply vr_resolve_wp; [done..|]. intros id u' b' Hid Hu' Hb'.
  do 7 wp_step. split; [|done]. apply inv_enc.
  destruct (inv_dec _ s0 Hu') as (? & Hd & ? & ? & ? & Hc); [done|]. simplify_eq. split_and!; cbn; try done.
  - apply map_disjoint_insert_r_2; [|done]. by apply eq_None_not_Some.
  - by rewrite lookup_insert_ne.
  - apply map_Forall_insert_2; [|done]. destruct (verified_clients s !! id) eqn:E; cbn.
    + apply Hc in E. unfold MINIMUM_VERIFIED_DEAL_SIZE in *. lia.
    + lia.
Qed.

Context `{!Dec Address, !Dec VerifierParams, !Dec BytesParams}.

Lemma verifreg_wp method params u b :
  I u → 0 ≤ b → vwp (verifreg_invoke_method absent_ok rt method params) u b post.
Proof.
  intros Hu Hb. unfold verifreg_invoke_method. repeat case_match; try exact Logic.I.
  all: apply call_unit_wp; intros ps Hps; lazymatch goal with
    | |- wp _ _ _ (verifreg_constructor _) _ _ _ => apply verifreg_constructor_wp
    | |- wp _ _ _ (add_verifier _) _ _ _ => by apply add_verifier_wp
    | |- wp _ _ _ (remove_verifier _ _) _ _ _ => by apply remove_verifier_wp
    | |- wp _ _ _ (add_verified_client _ _) _ _ _ => by apply add_verified_client_wp
    | |- wp _ _ _ (use_bytes _ _) _ _ _ => by apply use_bytes_wp
    | |- wp _ _ _ (restore_bytes _) _ _ _ => by apply restore_bytes_wp
    end.
Qed.

End safety.
