(* ===== verification/Power.v ===== *)
(** * The storage power actor

    [src/vm/actor/src/builtin/power/{mod,state,policy,types}.rs] and
    [builtin/sector.rs]: the claimed power of the miners with its totals, the
    cron event queue, the batch of proofs to verify, and the end of an epoch.
    The HAMTs and multimaps of the state are the finite maps they implement
    ([Hamt], [Amt]); the CIDs of the source are their contents. *)

From S2P Require Import Prelude Address Runtime Types Smooth Reward SimpleActors.

(** ** [sector.rs], [policy.rs] and [types.rs] *)

(** On the main network. *)
Definition consensus_miner_min_power (p : RegisteredPoStProof) : result ExitCode Z :=
  match p with
  | InvalidPoSt _ => Err ErrIllegalState
  | _ => Ok (Z.shiftl 10 40)
  end.

Definition CONSENSUS_MINER_MIN_MINERS : Z := 4.
Definition MAX_MINER_PROVE_COMMITS_PER_EPOCH : Z := 200.
Definition GAS_ON_SUBMIT_VERIFY_SEAL : Z := 34721049.

Record CreateMinerParams := {
  cm_owner : Address; cm_worker : Address; cm_window_post_proof_type : RegisteredPoStProof; cm_peer : bytes;
  cm_multiaddrs : list bytes }.
Record CreateMinerReturn := { cm_id_address : Address; cm_robust_address : Address }.
Record UpdateClaimedPowerParams := { raw_byte_delta : Z; quality_adjusted_delta : Z }.
Record EnrollCronEventParams := { event_epoch : Z; ee_payload : bytes }.
Record CurrentTotalPowerReturn := {
  tp_raw_byte_power : Z; tp_quality_adj_power : Z; tp_pledge_collateral : Z;
  tp_quality_adj_power_smoothed : FilterEstimate }.

(** Parameters of the miner actor's methods. *)
Record MinerConstructorParams := {
  mc_owner : Address; mc_worker : Address; mc_control_addresses : list Address;
  mc_window_post_proof_type : RegisteredPoStProof; mc_peer_id : bytes; mc_multi_addresses : list bytes }.
Record ConfirmSectorProofsParams := {
  cs_sectors : list Z; cs_reward_smoothed : FilterEstimate; cs_reward_baseline_power : Z;
  cs_quality_adj_power_smoothed : FilterEstimate }.
Record DeferredCronEventParams := {
  dc_event_payload : bytes; dc_reward_smoothed : FilterEstimate; dc_quality_adj_power_smoothed : FilterEstimate }.
Definition ON_DEFERRED_CRON_EVENT : Z := 12.
Definition CONFIRM_SECTOR_PROOFS_VALID : Z := 17.

(** Information to verify a seal ([types/src/sector/seal.rs]). *)
Record SectorID := { si_miner : Z; si_number : Z }.
Record SealVerifyInfo := {
  registered_proof : RegisteredSealProof; sector_id : SectorID; svi_deal_ids : list Z;
  svi_randomness : bytes; interactive_randomness : bytes; svi_proof : bytes;
  sealed_cid : bytes; unsealed_cid : bytes }.

(** ** [state.rs] *)

Definition INITIAL_QA_POWER_ESTIMATE_POSITION : Z := 750000 * Z.shiftl 1 30.
Definition INITIAL_QA_POWER_ESTIMATE_VELOCITY : Z := 3840 * Z.shiftl 1 30.

Record Claim := {
  window_post_proof_type : RegisteredPoStProof; raw_byte_power : Z; quality_adj_power : Z }.
Record CronEvent := { ev_miner_addr : Address; callback_payload : bytes }.

Record PowerState := {
  total_raw_byte_power : Z; total_bytes_committed : Z;
  total_quality_adj_power : Z; total_qa_bytes_committed : Z; total_pledge_collateral : Z;
  this_epoch_raw_byte_power : Z; this_epoch_quality_adj_power : Z; this_epoch_pledge_collateral : Z;
  this_epoch_qa_power_smoothed : FilterEstimate;
  miner_count : Z; miner_above_min_power_count : Z;
  cron_event_queue : gmap Z (list CronEvent); first_cron_epoch : Z;
  claims : gmap Address Claim;
  proof_validation_batch : option (gmap Address (list SealVerifyInfo)) }.

Definition power_state_new : PowerState :=
  {| total_raw_byte_power := 0; total_bytes_committed := 0; total_quality_adj_power := 0;
     total_qa_bytes_committed := 0; total_pledge_collateral := 0; this_epoch_raw_byte_power := 0;
     this_epoch_quality_adj_power := 0; this_epoch_pledge_collateral := 0;
     this_epoch_qa_power_smoothed :=
       {| position := INITIAL_QA_POWER_ESTIMATE_POSITION; velocity := INITIAL_QA_POWER_ESTIMATE_VELOCITY |};
     miner_count := 0; miner_above_min_power_count := 0; cron_event_queue := ∅; first_cron_epoch := 0;
     claims := ∅; proof_validation_batch := None |}.

(** Assignments to the totals, to the queues, to the claims and to what is
    frozen at the end of an epoch. *)
Definition set_totals (s : PowerState) (raw bytes qa qa_bytes above : Z) : PowerState :=
  {| total_raw_byte_power := raw; total_bytes_committed := bytes; total_quality_adj_power := qa;
     total_qa_bytes_committed := qa_bytes; total_pledge_collateral := total_pledge_collateral s;
     this_epoch_raw_byte_power := this_epoch_raw_byte_power s;
     this_epoch_quality_adj_power := this_epoch_quality_adj_power s;
     this_epoch_pledge_collateral := this_epoch_pledge_collateral s;
     this_epoch_qa_power_smoothed := this_epoch_qa_power_smoothed s;
     miner_count := miner_count s; miner_above_min_power_count := above;
     cron_event_queue := cron_event_queue s; first_cron_epoch := first_cron_epoch s;
     claims := claims s; proof_validation_batch := proof_validation_batch s |}.
Definition set_queues (s : PowerState) (queue : gmap Z (list CronEvent)) (first : Z)
    (batch : option (gmap Address (list SealVerifyInfo))) : PowerState :=
  {| total_raw_byte_power := total_raw_byte_power s; total_bytes_committed := total_bytes_committed s;
     total_quality_adj_power := total_quality_adj_power s; total_qa_bytes_committed := total_qa_bytes_committed s;
     total_pledge_collateral := total_pledge_collateral s;
     this_epoch_raw_byte_power := this_epoch_raw_byte_power s;
     this_epoch_quality_adj_power := this_epoch_quality_adj_power s;
     this_epoch_pledge_collateral := this_epoch_pledge_collateral s;
     this_epoch_qa_power_smoothed := this_epoch_qa_power_smoothed s;
     miner_count := miner_count s; miner_above_min_power_count := miner_above_min_power_count s;
     cron_event_queue := queue; first_cron_epoch := first; claims := claims s; proof_validation_batch := batch |}.
Definition set_claims (s : PowerState) (cs : gmap Address Claim) (count : Z) (pledge : Z) : PowerState :=
  {| total_raw_byte_power := total_raw_byte_power s; total_bytes_committed := total_bytes_committed s;
     total_quality_adj_power := total_quality_adj_power s; total_qa_bytes_committed := total_qa_bytes_committed s;
     total_pledge_collateral := pledge;
     this_epoch_raw_byte_power := this_epoch_raw_byte_power s;
     this_epoch_quality_adj_power := this_epoch_quality_adj_power s;
     this_epoch_pledge_collateral := this_epoch_pledge_collateral s;
     this_epoch_qa_power_smoothed := this_epoch_qa_power_smoothed s;
     miner_count := count; miner_above_min_power_count := miner_above_min_power_count s;
     cron_event_queue := cron_event_queue s; first_cron_epoch := first_cron_epoch s;
     claims := cs; proof_validation_batch := proof_validation_batch s |}.
Definition set_epoch (s : PowerState) (raw qa pledge : Z) (smoothed : FilterEstimate) : PowerState :=
  {| total_raw_byte_power := total_raw_byte_power s; total_bytes_committed := total_bytes_committed s;
     total_quality_adj_power := total_quality_adj_power s; total_qa_bytes_committed := total_qa_bytes_committed s;
     total_pledge_collateral := total_pledge_collateral s;
     this_epoch_raw_byte_power := raw; this_epoch_quality_adj_power := qa;
     this_epoch_pledge_collateral := pledge; this_epoch_qa_power_smoothed := smoothed;
     miner_count := miner_count s; miner_above_min_power_count := miner_above_min_power_count s;
     cron_event_queue := cron_event_queue s; first_cron_epoch := first_cron_epoch s;
     claims := claims s; proof_validation_batch := proof_validation_batch s |}.

Definition miner_nominal_power_meets_consensus_minimum (s : PowerState) (miner : Address) : result ExitCode bool :=
  claim ← ok_or (claims s !! miner) ErrIllegalState;
  miner_min_power ← consensus_miner_min_power (window_post_proof_type claim);
  mret (if miner_min_power <=? raw_byte_power claim then true
        else if CONSENSUS_MINER_MIN_MINERS <=? miner_above_min_power_count s then false
        else 0 <? raw_byte_power claim).

Definition set_claim (cs : gmap Address Claim) (a : Address) (claim : Claim) : result ExitCode (gmap Address Claim) :=
  _ ← throw_if (raw_byte_power claim <? 0) ErrIllegalState;
  _ ← throw_if (quality_adj_power claim <? 0) ErrIllegalState;
  mret (<[a := claim]> cs).

(** The totals are updated in place before the checks, so that a caller that
    goes on after an error keeps the changed totals. *)
Definition add_to_claim (s : PowerState) (cs : gmap Address Claim) (miner : Address) (power qa_power : Z)
    : PowerState * result ExitCode (gmap Address Claim) :=
  match cs !! miner with
  | None => (s, Err ErrNotFound)
  | Some old_claim =>
      let qa_bytes := total_qa_bytes_committed s + qa_power in
      let bytes := total_bytes_committed s + power in
      let new_claim := {| window_post_proof_type := window_post_proof_type old_claim;
                          raw_byte_power := raw_byte_power old_claim + power;
                          quality_adj_power := quality_adj_power old_claim + qa_power |} in
      let '(raw, qa, above) := (total_raw_byte_power s, total_quality_adj_power s, miner_above_min_power_count s) in
      match consensus_miner_min_power (window_post_proof_type old_claim) with
      | Err e => (set_totals s raw bytes qa qa_bytes above, Err e)
      | Ok min_power =>
          let prev_below := raw_byte_power old_claim <? min_power in
          let still_below := raw_byte_power new_claim <? min_power in
          let '(raw, qa, above) :=
            if prev_below && negb still_below then
              (raw + raw_byte_power new_claim, qa + quality_adj_power new_claim, above + 1)
            else if negb prev_below && still_below then
              (raw - raw_byte_power old_claim, qa - quality_adj_power old_claim, above - 1)
            else if negb prev_below && negb still_below then (raw + power, qa + qa_power, above)
            else (raw, qa, above) in
          let r :=
            _ ← throw_if (raw_byte_power new_claim <? 0) ErrIllegalState;
            _ ← throw_if (quality_adj_power new_claim <? 0) ErrIllegalState;
            _ ← throw_if (above <? 0) ErrIllegalState;
            set_claim cs miner new_claim in
          (set_totals s raw bytes qa qa_bytes above, r)
      end
  end.

Definition append_cron_event (s : PowerState) (epoch : Z) (event : CronEvent) : PowerState :=
  let first := if epoch <? first_cron_epoch s then epoch else first_cron_epoch s in
  set_queues s (<[epoch := default [] (cron_event_queue s !! epoch) ++ [event]]> (cron_event_queue s)) first
    (proof_validation_batch s).

Definition current_total_power (s : PowerState) : Z * Z :=
  if miner_above_min_power_count s <? CONSENSUS_MINER_MIN_MINERS then
    (total_bytes_committed s, total_qa_bytes_committed s)
  else (total_raw_byte_power s, total_quality_adj_power s).

Definition update_smoothed_estimate (s : PowerState) (delta : Z) : PowerState :=
  set_epoch s (this_epoch_raw_byte_power s) (this_epoch_quality_adj_power s) (this_epoch_pledge_collateral s)
    (next_estimate DEFAULT_ALPHA DEFAULT_BETA (this_epoch_qa_power_smoothed s) (this_epoch_quality_adj_power s) delta).

Definition update_stats_for_new_miner (s : PowerState) (p : RegisteredPoStProof) : result ExitCode PowerState :=
  min_power ← consensus_miner_min_power p;
  mret (if negb (0 <? min_power) then
          set_totals s (total_raw_byte_power s) (total_bytes_committed s) (total_quality_adj_power s)
            (total_qa_bytes_committed s) (miner_above_min_power_count s + 1)
        else s).

Definition validate_miner_has_claim (s : PowerState) (miner_addr : Address) : result ExitCode unit :=
  throw_if (negb (bool_decide (is_Some (claims s !! miner_addr)))) ErrForbidden.

Definition delete_claim (s : PowerState) (cs : gmap Address Claim) (miner : Address)
    : PowerState * result ExitCode (gmap Address Claim) :=
  match cs !! miner with
  | None => (s, Ok cs)
  | Some claim =>
      let '(s, r) := add_to_claim s cs miner (- raw_byte_power claim) (- quality_adj_power claim) in
      (s, cs ← r;
          _ ← ok_or (cs !! miner) ErrIllegalState;
          mret (delete miner cs))
  end.

(** ** [mod.rs]: what the methods do to the state *)

Definition create_claim (s : PowerState) (id_address : Address) (p : RegisteredPoStProof) : result ExitCode PowerState :=
  cs ← set_claim (claims s) id_address {| window_post_proof_type := p; raw_byte_power := 0; quality_adj_power := 0 |};
  s ← update_stats_for_new_miner (set_claims s (claims s) (miner_count s + 1) (total_pledge_collateral s)) p;
  mret (set_claims s cs (miner_count s) (total_pledge_collateral s)).

Definition claim_power (s : PowerState) (miner : Address) (raw qa : Z) : result ExitCode PowerState :=
  let '(s, r) := add_to_claim s (claims s) miner raw qa in
  cs ← r;
  mret (set_claims s cs (miner_count s) (total_pledge_collateral s)).

Definition change_pledge (s : PowerState) (miner : Address) (pledge_delta : Z) : result ExitCode PowerState :=
  _ ← validate_miner_has_claim s miner;
  let pledge := total_pledge_collateral s + pledge_delta in
  _ ← throw_if (pledge <? 0) ErrIllegalState;
  mret (set_claims s (claims s) (miner_count s) pledge).

Definition add_to_batch (s : PowerState) (miner : Address) (info : SealVerifyInfo) : result ExitCode PowerState :=
  _ ← validate_miner_has_claim s miner;
  let mmap := default ∅ (proof_validation_batch s) in
  _ ← throw_if (match mmap !! miner with
                | Some arr => MAX_MINER_PROVE_COMMITS_PER_EPOCH <=? Z.of_nat (length arr)
                | None => false
                end) ErrTooManyProveCommits;
  mret (set_queues s (cron_event_queue s) (first_cron_epoch s)
          (Some (<[miner := default [] (mmap !! miner) ++ [info]]> mmap))).

(** One epoch of the loop over the queue: its events go to the list, those of
    unknown miners are dropped, and the key is removed. *)
Definition take_epoch (cs : gmap Address Claim) (acc : gmap Z (list CronEvent) * list CronEvent) (epoch : Z)
    : gmap Z (list CronEvent) * list CronEvent :=
  let '(events, cron_events) := acc in
  match default [] (events !! epoch) with
  | [] => (events, cron_events)
  | evs => (delete epoch events,
            cron_events ++ List.filter (λ ev, bool_decide (is_Some (cs !! ev_miner_addr ev))) evs)
  end.
Definition take_cron_events (s : PowerState) (rt_epoch : Z) : PowerState * list CronEvent :=
  let '(events, cron_events) :=
    fold_left (take_epoch (claims s)) (seqZ (first_cron_epoch s) (rt_epoch + 1 - first_cron_epoch s))
      (cron_event_queue s, []) in
  (set_queues s events (rt_epoch + 1) (proof_validation_batch s), cron_events).

(** The loop over the miners whose callback failed. *)
Fixpoint delete_failed (s : PowerState) (cs : gmap Address Claim) (failed_miner_crons : list Address)
    : PowerState * gmap Address Claim :=
  match failed_miner_crons with
  | [] => (s, cs)
  | miner_addr :: l =>
      match delete_claim s cs miner_addr with
      | (s, Err _) => delete_failed s cs l
      | (s, Ok cs) =>
          delete_failed (set_claims s (claims s) (miner_count s - 1) (total_pledge_collateral s)) cs l
      end
  end.
Definition drop_failed (s : PowerState) (failed_miner_crons : list Address) : PowerState :=
  let '(s, cs) := delete_failed s (claims s) failed_miner_crons in
  set_claims s cs (miner_count s) (total_pledge_collateral s).

Definition end_epoch (s : PowerState) : PowerState :=
  let '(raw_byte_power, qa_power) := current_total_power s in
  update_smoothed_estimate
    (set_epoch s raw_byte_power qa_power (total_pledge_collateral s) (this_epoch_qa_power_smoothed s)) 1.

(** The sectors whose proofs are valid, without duplicates; [None] is the panic
    on an answer that is longer than the question. *)
Fixpoint successful_sectors (verifs : list SealVerifyInfo) (vres : list bool) (successful : list Z) : option (list Z) :=
  match vres with
  | [] => Some successful
  | r :: vres =>
      match verifs with
      | [] => if r then None else successful_sectors [] vres successful
      | v :: verifs =>
          let snum := si_number (sector_id v) in
          successful_sectors verifs vres
            (if r && negb (bool_decide (snum ∈ successful)) then successful ++ [snum] else successful)
      end
  end.

(** The batch in the order in which the HAMT is iterated, a parameter here
    ([hamt_for_each_ordered]), without unknown miners; the queue is wiped. *)
Definition take_batch (order : gmap Address (list SealVerifyInfo) → list (Address * list SealVerifyInfo))
    (s : PowerState) : PowerState * list (Address * list SealVerifyInfo) :=
  match proof_validation_batch s with
  | None => (s, [])
  | Some mmap =>
      (set_queues s (cron_event_queue s) (first_cron_epoch s) None,
       List.filter (λ e, bool_decide (is_Some (claims s !! e.1))) (order mmap))
  end.

(** ** [mod.rs]: the methods *)

Section power.
Context {U : Type} `{!StateIn PowerState U}.
Context `{!Enc MinerConstructorParams, !Enc ExecParams, !Dec ExecReturn, !Dec ThisEpochRewardReturn}.
Context `{!Enc ConfirmSectorProofsParams, !Enc DeferredCronEventParams, !Enc Z}.
Context `{!Enc (list (Address * list SealVerifyInfo)), !Dec (list (Address * list bool))}.
Context (order : gmap Address (list SealVerifyInfo) → list (Address * list SealVerifyInfo)) (rt : Ctx).

Definition power_constructor : Prog U unit :=
  _ ← validate_immediate_caller_is [SYSTEM_ACTOR_ADDR];
  create power_state_new.

Definition create_miner (params : CreateMinerParams) : Prog U CreateMinerReturn :=
  _ ← validate_immediate_caller_type CALLER_TYPES_SIGNABLE;
  let constructor_params := enc {|
    mc_owner := cm_owner params; mc_worker := cm_worker params;
    mc_window_post_proof_type := cm_window_post_proof_type params; mc_peer_id := cm_peer params;
    mc_multi_addresses := cm_multiaddrs params; mc_control_addresses := [] |} in
  r ← send_ INIT_ACTOR_ADDR 2
        (enc {| code_cid := MINER_ACTOR_CODE_ID; constructor_params := constructor_params |}) (value_received rt);
  ret ← unwrap_or_abort (dec r) ErrSerialization;
  _ ← transaction (λ st : PowerState,
    st ← of_code (create_claim st (id_address ret) (cm_window_post_proof_type params));
    mret (st, tt));
  mret {| cm_id_address := id_address ret; cm_robust_address := robust_address ret |}.

Definition update_claimed_power (params : UpdateClaimedPowerParams) : Prog U unit :=
  _ ← validate_immediate_caller_type [MINER_ACTOR_CODE_ID];
  transaction (λ st : PowerState,
    st ← of_code (claim_power st (caller rt) (raw_byte_delta params) (quality_adjusted_delta params));
    mret (st, tt)).

Definition enroll_cron_event (params : EnrollCronEventParams) : Prog U unit :=
  _ ← validate_immediate_caller_type [MINER_ACTOR_CODE_ID];
  let miner_event := {| ev_miner_addr := caller rt; callback_payload := ee_payload params |} in
  _ ← abort_if (event_epoch params <? 0) ErrIllegalArgument;
  transaction (λ st : PowerState, mret (append_cron_event st (event_epoch params) miner_event, tt)).

Definition update_pledge_total (pledge_delta : Z) : Prog U unit :=
  _ ← validate_immediate_caller_type [MINER_ACTOR_CODE_ID];
  transaction (λ st : PowerState, st ← of_code (change_pledge st (caller rt) pledge_delta); mret (st, tt)).

Definition submit_porep_for_bulk_verify (seal_info : SealVerifyInfo) : Prog U unit :=
  _ ← validate_immediate_caller_type [MINER_ACTOR_CODE_ID];
  transaction (λ st : PowerState,
    st ← of_code (add_to_batch st (caller rt) seal_info);
    _ ← charge_gas GAS_ON_SUBMIT_VERIFY_SEAL;
    mret (st, tt)).

Definition current_total_power_method : Prog U CurrentTotalPowerReturn :=
  _ ← validate_immediate_caller_accept_any;
  st ← get_state;
  mret {| tp_raw_byte_power := this_epoch_raw_byte_power st; tp_quality_adj_power := this_epoch_quality_adj_power st;
          tp_pledge_collateral := this_epoch_pledge_collateral st;
          tp_quality_adj_power_smoothed := this_epoch_qa_power_smoothed st |}.

(** The confirmations to the miners; their results are ignored.  A missing
    answer ends the loop. *)
Fixpoint confirm_all (res : list (Address * list bool)) (rewret : ThisEpochRewardReturn) (smoothed : FilterEstimate)
    (verifies : list (Address * list SealVerifyInfo)) : Prog U unit :=
  match verifies with
  | [] => mret tt
  | (m, verifs) :: l =>
      match (list_to_map res : gmap Address (list bool)) !! m with
      | None => mret tt
      | Some vres =>
          successful ← unwrap_or_abort (successful_sectors verifs vres []) SysErrActorPanic;
          _ ← (match successful with
               | [] => mret (Ok [])
               | _ => send m CONFIRM_SECTOR_PROOFS_VALID
                        (enc {| cs_sectors := successful; cs_reward_smoothed := er_smoothed rewret;
                                cs_reward_baseline_power := er_baseline_power rewret;
                                cs_quality_adj_power_smoothed := smoothed |}) 0
               end);
          confirm_all res rewret smoothed l
      end
  end.

(** The errors of this function are logged and dropped by its caller.  The
    errors of the transaction itself (out of gas, a missing block) end the
    method here. *)
Definition process_batch_proof_verifies (rewret : ThisEpochRewardReturn) : Prog U unit :=
  '(smoothed, verifies) ← transaction (λ st : PowerState,
    let '(st', verifies) := take_batch order st in
    mret (st', (this_epoch_qa_power_smoothed st, verifies)));
  res ← syscall (BatchVerifySeals (enc verifies));
  match res ≫= dec with
  | None => mret tt
  | Some res => confirm_all res rewret smoothed verifies
  end.

(** The callbacks; the miners whose callback fails. *)
Fixpoint run_callbacks (rewret : ThisEpochRewardReturn) (smoothed : FilterEstimate) (cron_events : list CronEvent)
    (failed : list Address) : Prog U (list Address) :=
  match cron_events with
  | [] => mret failed
  | event :: l =>
      res ← send (ev_miner_addr event) ON_DEFERRED_CRON_EVENT
        (enc {| dc_event_payload := callback_payload event; dc_reward_smoothed := er_smoothed rewret;
                dc_quality_adj_power_smoothed := smoothed |}) 0;
      run_callbacks rewret smoothed l
        (match res with Ok _ => failed | Err _ => failed ++ [ev_miner_addr event] end)
  end.

Definition process_deferred_cron_events (rewret : ThisEpochRewardReturn) : Prog U unit :=
  st ← get_state;
  cron_events ← transaction (λ st : PowerState, mret (take_cron_events st (curr_epoch rt)));
  failed_miner_crons ← run_callbacks rewret (this_epoch_qa_power_smoothed st) cron_events [];
  match failed_miner_crons with
  | [] => mret tt
  | _ => transaction (λ st : PowerState, mret (drop_failed st failed_miner_crons, tt))
  end.

Definition on_epoch_tick_end : Prog U unit :=
  _ ← validate_immediate_caller_is [CRON_ACTOR_ADDR];
  r ← send_ REWARD_ACTOR_ADDR 3 [] 0;
  rewret ← unwrap_or_abort (dec r) ErrSerialization;
  _ ← process_batch_proof_verifies rewret;
  _ ← process_deferred_cron_events rewret;
  this_epoch_raw_byte_power ← transaction (λ st : PowerState,
    let st := end_epoch st in mret (st, this_epoch_raw_byte_power st));
  _ ← send_ REWARD_ACTOR_ADDR 4 (enc this_epoch_raw_byte_power) 0;
  mret tt.

Context `{!Dec CreateMinerParams, !Enc CreateMinerReturn, !Dec UpdateClaimedPowerParams, !Dec EnrollCronEventParams}.
Context `{!Dec Z, !Dec SealVerifyInfo, !Enc CurrentTotalPowerReturn}.

Definition power_invoke_method (method : Z) (params : bytes) : Prog U bytes :=
  match method with
  | 1 => _ ← power_constructor; mret []
  | 2 => call_ret params create_miner
  | 3 => call_unit params update_claimed_power
  | 4 => call_unit params enroll_cron_event
  | 5 => _ ← on_epoch_tick_end; mret []
  | 6 => call_unit params update_pledge_total
  | 8 => call_unit params submit_porep_for_bulk_verify
  | 9 => r ← current_total_power_method; mret (enc r)
  | _ => invalid_method
  end.

End power.

(** ** The totals *)

Definition MIN_POWER : Z := Z.shiftl 10 40.
Definition eligible (c : Claim) : bool := MIN_POWER <=? raw_byte_power c.
Definition claim_ok (c : Claim) : Prop :=
  0 ≤ raw_byte_power c ∧ 0 ≤ quality_adj_power c ∧ consensus_miner_min_power (window_post_proof_type c) = Ok MIN_POWER.

(** The totals of [s] are those of the claims [cs]: all committed power, the
    power of the miners above the minimum, and their number. *)
Definition totals_of (s : PowerState) (cs : gmap Address Claim) : Prop :=
  total_bytes_committed s = map_sum raw_byte_power cs ∧
  total_qa_bytes_committed s = map_sum quality_adj_power cs ∧
  total_raw_byte_power s = map_sum (λ c, if eligible c then raw_byte_power c else 0) cs ∧
  total_quality_adj_power s = map_sum (λ c, if eligible c then quality_adj_power c else 0) cs ∧
  miner_above_min_power_count s = map_sum (λ c, if eligible c then 1 else 0) cs ∧
  map_Forall (λ _, claim_ok) cs.

Lemma min_power_ok p m : consensus_miner_min_power p = Ok m → m = MIN_POWER.
Proof. destruct p; cbn; intros H; by simplify_eq. Qed.

Lemma above_nonneg (cs : gmap Address Claim) : 0 ≤ map_sum (λ c, if eligible c then 1 else 0) cs.
Proof. apply map_sum_nonneg. intros k c _. by destruct (eligible c). Qed.

(** What adding to a claim does, if it succeeds. *)
Lemma add_to_claim_totals s cs miner p q s' cs' :
  add_to_claim s cs miner p q = (s', Ok cs') → totals_of s cs →
  totals_of s' cs' ∧
  ∃ c c', cs !! miner = Some c ∧ cs' = <[miner := c']> cs ∧
    raw_byte_power c' = raw_byte_power c + p ∧ quality_adj_power c' = quality_adj_power c + q.
Proof.
  intros Ha (Hb & Hqb & Hr & Hq & Hn & Hok). unfold add_to_claim in Ha.
  destruct (cs !! miner) as [c|] eqn:Hc; [|done].
  destruct (Hok _ _ Hc) as (Hc1 & Hc2 & Hmin). cbv beta iota zeta in Ha.
  rewrite Hmin in Ha. set (c' := Build_Claim _ _ _) in Ha.
  match type of Ha with match ?x with _ => _ end = _ => destruct x as [[raw qa] above] eqn:Ex end.
  injection Ha as Hs' Hr'. unfold set_claim in Hr'. inv_ok. reflect_bools.
  try subst s'.
  split; [|exists c, c'; by split_and!].
  unfold totals_of, eligible. cbn [total_bytes_committed total_qa_bytes_committed total_raw_byte_power
    total_quality_adj_power miner_above_min_power_count set_totals].
  rewrite !map_sum_insert, !Hc, Hb, Hqb. cbn [raw_byte_power quality_adj_power c'].
  rewrite Hr, Hq, Hn in Ex. unfold eligible in Ex. cbn [raw_byte_power quality_adj_power c'] in Ex.
  split_and!; try lia.
  1-3: destruct (Z.ltb_spec (raw_byte_power c) MIN_POWER), (Z.ltb_spec (raw_byte_power c + p) MIN_POWER);
    cbn in Ex; injection Ex as <- <- <-;
    destruct (Z.leb_spec MIN_POWER (raw_byte_power c)), (Z.leb_spec MIN_POWER (raw_byte_power c + p)); lia.
  apply map_Forall_insert_2; [|done]. by split_and!.
Qed.

Lemma add_to_claim_frame s cs miner p q : ∃ raw bytes qa qa_bytes above,
  (add_to_claim s cs miner p q).1 = set_totals s raw bytes qa qa_bytes above.
Proof.
  unfold add_to_claim. destruct (cs !! miner) as [c|].
  - destruct (consensus_miner_min_power _) as [m|e]; [|by do 5 eexists].
    match goal with |- context [match ?x with pair _ _ => _ end] => destruct x as [[raw qa] above] end.
    by do 5 eexists.
  - exists (total_raw_byte_power s), (total_bytes_committed s), (total_quality_adj_power s),
      (total_qa_bytes_committed s), (miner_above_min_power_count s). by destruct s.
Qed.

(** Adding succeeds unless the claim would become negative. *)
Lemma add_to_claim_ok s cs miner c p q :
  totals_of s cs → cs !! miner = Some c → 0 ≤ raw_byte_power c + p → 0 ≤ quality_adj_power c + q →
  ∃ s' cs', add_to_claim s cs miner p q = (s', Ok cs').
Proof.
  intros (Hb & Hqb & Hr & Hq & Hn & Hok) Hc Hp Hq'. unfold add_to_claim. rewrite Hc.
  destruct (Hok _ _ Hc) as (Hc1 & Hc2 & Hmin). cbv beta iota zeta. rewrite Hmin.
  match goal with |- context [match ?x with pair _ _ => _ end] => destruct x as [[raw qa] above] eqn:Ex end.
  assert (Ha : 0 ≤ above).
  { pose proof (above_nonneg cs) as Hnn. rewrite Hn in Ex.
    destruct (Z.ltb_spec (raw_byte_power c) MIN_POWER), (Z.ltb_spec (raw_byte_power c + p) MIN_POWER);
      cbn in Ex; rewrite ?(proj2 (Z.ltb_lt _ _)), ?(proj2 (Z.ltb_ge _ _)) in Ex by done; cbn in Ex;
      injection Ex as _ _ <-; try lia.
    pose proof (map_sum_lookup_le (λ c, if eligible c then 1 else 0) cs miner c) as Hle. cbn in Hle.
    unfold eligible in Hle at 2. rewrite (proj2 (Z.leb_le _ _)) in Hle by done.
    assert (1 ≤ map_sum (λ c, if eligible c then 1 else 0) cs); [|lia].
    apply Hle; [|done]. intros k a _. by destruct (eligible a). }
  eexists _, _. f_equal. unfold set_claim, throw_if. cbn [raw_byte_power quality_adj_power].
  by rewrite !(proj2 (Z.ltb_ge _ _)) by done.
Qed.

Lemma delete_claim_totals s cs miner :
  totals_of s cs →
  ∃ s', delete_claim s cs miner = (s', Ok (delete miner cs)) ∧ totals_of s' (delete miner cs) ∧
    ∃ raw bytes qa qa_bytes above, s' = set_totals s raw bytes qa qa_bytes above.
Proof.
  intros Ht. unfold delete_claim. destruct (cs !! miner) as [c|] eqn:Hc.
  2:{ exists s. rewrite delete_id by done. split_and!; [done|done|].
      exists (total_raw_byte_power s), (total_bytes_committed s), (total_quality_adj_power s),
        (total_qa_bytes_committed s), (miner_above_min_power_count s). by destruct s. }
  destruct (add_to_claim_ok s cs miner c (- raw_byte_power c) (- quality_adj_power c)) as (s' & cs' & Ha);
    [done|done|lia|lia|].
  pose proof (add_to_claim_frame s cs miner (- raw_byte_power c) (- quality_adj_power c)) as Hf.
  rewrite Ha in Hf |- *. exists s'.
  destruct (add_to_claim_totals _ _ _ _ _ _ _ Ha Ht) as ((Hb & Hqb & Hr & Hq & Hn & Hok) & c0 & c' & Hc0 & Hcs & Hrp & Hqp).
  rewrite Hc in Hc0. injection Hc0 as <-.
  assert (Hz : raw_byte_power c' = 0 ∧ quality_adj_power c' = 0) by lia. destruct Hz as [Hz1 Hz2].
  assert (He : eligible c' = false) by (unfold eligible; rewrite Hz1; done).
  assert (Hl : cs' !! miner = Some c') by (by rewrite Hcs, lookup_insert_eq).
  assert (Hd : delete miner cs' = delete miner cs) by (by rewrite Hcs, delete_insert_eq).
  split_and!; [|rewrite <-Hd; split_and!|exact Hf].
  - cbn. by rewrite Hl, Hd.
  - rewrite (map_sum_delete _ _ _ _ Hl). lia.
  - rewrite (map_sum_delete _ _ _ _ Hl). lia.
  - rewrite (map_sum_delete _ _ _ _ Hl), He. lia.
  - rewrite (map_sum_delete _ _ _ _ Hl), He. lia.
  - rewrite (map_sum_delete _ _ _ _ Hl), He. lia.
  - by apply map_Forall_delete.
Qed.

Lemma delete_failed_totals l s cs :
  totals_of s cs →
  ∃ s' cs', delete_failed s cs l = (s', cs') ∧ totals_of s' cs' ∧
    miner_count s' = miner_count s - Z.of_nat (length l) ∧
    Z.of_nat (size cs) - Z.of_nat (length l) ≤ Z.of_nat (size cs') ∧
    (NoDup l → Forall (λ a, is_Some (cs !! a)) l → Z.of_nat (size cs') = Z.of_nat (size cs) - Z.of_nat (length l)) ∧
    total_pledge_collateral s' = total_pledge_collateral s ∧ cron_event_queue s' = cron_event_queue s ∧
    first_cron_epoch s' = first_cron_epoch s ∧ proof_validation_batch s' = proof_validation_batch s.
Proof.
  revert s cs. induction l as [|a l IH]; intros s cs Ht; cbn [delete_failed].
  { exists s, cs. split_and!; try done; cbn; lia. }
  destruct (delete_claim_totals s cs a Ht) as (s1 & -> & Ht1 & raw & bytes & qa & qab & ab & ->).
  destruct (IH (set_claims (set_totals s raw bytes qa qab ab) (claims s) (miner_count s - 1) (total_pledge_collateral s))
    (delete a cs) Ht1) as (s' & cs' & Heq & Ht' & Hmc & Hsz & Hnd & Hp & Hce & Hf & Hpb).
  exists s', cs'. cbn in *. rewrite Heq. split_and!; try done; try lia.
  - rewrite map_size_delete in Hsz. destruct (cs !! a); cbn in *; lia.
  - intros [Ha Hl]%NoDup_cons Hall. inversion Hall as [|? ? Hsa Hall']; subst.
    rewrite Hnd; [|done|]; [|rewrite Forall_forall in *; intros b Hb; rewrite lookup_delete_ne; [auto|congruence]].
    pose proof (map_size_ne_0_lookup_2 cs a Hsa). rewrite map_size_delete. destruct Hsa as [? ->]. cbn. lia.
Qed.

(** ** The cron queue *)

Definition known_events (cs : gmap Address Claim) (evs : list CronEvent) : list CronEvent :=
  List.filter (λ ev, bool_decide (is_Some (cs !! ev_miner_addr ev))) evs.

Lemma take_epochs_spec cs l q acc :
  NoDup l → map_Forall (λ _ evs, evs ≠ []) q →
  ∃ q', fold_left (take_epoch cs) l (q, acc) =
      (q', acc ++ concat (map (λ e, known_events cs (default [] (q !! e))) l)) ∧
    ∀ e, q' !! e = if bool_decide (e ∈ l) then None else q !! e.
Proof.
  revert q acc. induction l as [|e l IH]; intros q acc Hnd Hne; cbn [fold_left].
  { exists q. rewrite app_nil_r. split; [done|]. intros e. by rewrite bool_decide_false by set_solver. }
  apply NoDup_cons in Hnd as [He Hnd]. unfold take_epoch at 2. destruct (q !! e) as [evs|] eqn:Eq; cbn [default].
  - assert (evs ≠ []) as Hevs by by eapply Hne.
    destruct (IH (delete e q) (acc ++ known_events cs evs) Hnd) as (q' & Hq' & Hl); [by apply map_Forall_delete|].
    exists q'. split.
    + unfold id at 1. destruct evs as [|ev evs]; [done|]. fold (known_events cs (ev :: evs)). rewrite Hq'.
      f_equal. cbn [map concat]. rewrite Eq, <-app_assoc. do 3 f_equal. apply map_ext_in. intros e' He'%list_elem_of_In.
      rewrite lookup_delete_ne by congruence. done.
    + intros e'. rewrite Hl. destruct (decide (e' = e)) as [->|Hee].
      * rewrite (bool_decide_true (e ∈ e :: l)) by set_solver. case_bool_decide; [done|apply lookup_delete_eq].
      * rewrite lookup_delete_ne by done. by rewrite (bool_decide_ext (e' ∈ e :: l) (e' ∈ l)) by set_solver.
  - destruct (IH q acc Hnd Hne) as (q' & Hq' & Hl). exists q'. cbn. split.
    + rewrite Hq', Eq. done.
    + intros e'. rewrite Hl. destruct (decide (e' = e)) as [->|Hee].
      * rewrite (bool_decide_true (e ∈ e :: l)) by set_solver. by rewrite bool_decide_false.
      * by rewrite (bool_decide_ext (e' ∈ e :: l) (e' ∈ l)) by set_solver.
Qed.

(** Epochs that are due, from the first that may have events. *)
Definition due_epochs (s : PowerState) (rt_epoch : Z) : list Z :=
  seqZ (first_cron_epoch s) (rt_epoch + 1 - first_cron_epoch s).

Lemma take_cron_events_spec s rt_epoch :
  map_Forall (λ _ evs, evs ≠ []) (cron_event_queue s) →
  ∃ q, take_cron_events s rt_epoch =
      (set_queues s q (rt_epoch + 1) (proof_validation_batch s),
       concat (map (λ e, known_events (claims s) (default [] (cron_event_queue s !! e))) (due_epochs s rt_epoch))) ∧
    ∀ e, q !! e = if bool_decide (first_cron_epoch s ≤ e ≤ rt_epoch) then None else cron_event_queue s !! e.
Proof.
  intros Hne. unfold take_cron_events.
  destruct (take_epochs_spec (claims s) (due_epochs s rt_epoch) (cron_event_queue s) []) as (q & Hq & Hl);
    [apply NoDup_seqZ|done|].
  exists q. unfold due_epochs in *. rewrite Hq. split; [done|]. intros e. rewrite Hl.
  erewrite bool_decide_ext; [reflexivity|]. rewrite elem_of_seqZ. lia.
Qed.

(** ** The invariant *)

Definition queue_ok (first : Z) (q : gmap Z (list CronEvent)) : Prop :=
  map_Forall (λ e evs, first ≤ e ∧ evs ≠ []) q.
Definition batch_ok (batch : option (gmap Address (list SealVerifyInfo))) : Prop :=
  match batch with
  | None => True
  | Some m => map_Forall (λ _ l, Z.of_nat (length l) ≤ MAX_MINER_PROVE_COMMITS_PER_EPOCH) m
  end.
(** Claims are not negative and of known proof types, no event lies before the
    first epoch that cron looks at, no miner has more than its share of proofs. *)
Definition power_inv (s : PowerState) : Prop :=
  map_Forall (λ _, claim_ok) (claims s) ∧ 0 ≤ total_pledge_collateral s ∧
  queue_ok (first_cron_epoch s) (cron_event_queue s) ∧ batch_ok (proof_validation_batch s).

Lemma queue_ok_nonempty first q : queue_ok first q → map_Forall (λ _ evs, evs ≠ []) q.
Proof. intros Hq. eapply map_Forall_impl; [exact Hq|]. by intros e evs [_ ?]. Qed.

Lemma power_new_inv : power_inv power_state_new.
Proof. split_and!; cbn; try done; apply map_Forall_empty. Qed.

Lemma add_to_claim_claims s cs miner p q s' cs' :
  map_Forall (λ _, claim_ok) cs → add_to_claim s cs miner p q = (s', Ok cs') → map_Forall (λ _, claim_ok) cs'.
Proof.
  intros Hok Ha. unfold add_to_claim in Ha. destruct (cs !! miner) as [c|] eqn:Hc; [|done].
  destruct (Hok _ _ Hc) as (Hc1 & Hc2 & Hmin). cbv beta iota zeta in Ha. rewrite Hmin in Ha.
  match type of Ha with match ?x with _ => _ end = _ => destruct x as [[raw qa] above] eqn:Ex end.
  injection Ha as _ Hr. unfold set_claim in Hr. inv_ok. reflect_bools.
  apply map_Forall_insert_2; [|done]. by split_and!.
Qed.

Lemma create_claim_spec s id p s' :
  create_claim s id p = Ok s' →
  s' = set_claims s (<[id := {| window_post_proof_type := p; raw_byte_power := 0; quality_adj_power := 0 |}]> (claims s))
         (miner_count s + 1) (total_pledge_collateral s) ∧ consensus_miner_min_power p = Ok MIN_POWER.
Proof.
  unfold create_claim, update_stats_for_new_miner. intros H. inv_ok. unfold set_claim in *. inv_ok.
  match goal with Hp : consensus_miner_min_power p = Ok _ |- _ => pose proof (min_power_ok _ _ Hp) as -> end.
  split; [by destruct s|done].
Qed.

Lemma create_claim_inv s id p s' : power_inv s → create_claim s id p = Ok s' → power_inv s'.
Proof.
  intros (Hc & Hp & Hq & Hb) [-> Hmin]%create_claim_spec. split_and!; cbn; try done.
  apply map_Forall_insert_2; [|done]. by split_and!.
Qed.

Lemma claim_power_inv s miner raw qa s' : power_inv s → claim_power s miner raw qa = Ok s' → power_inv s'.
Proof.
  intros (Hc & Hp & Hq & Hb) H. unfold claim_power in H.
  destruct (add_to_claim_frame s (claims s) miner raw qa) as (? & ? & ? & ? & ? & Hf).
  destruct (add_to_claim s (claims s) miner raw qa) as [s1 r] eqn:Ha. cbn in Hf. subst s1. inv_ok.
  split_and!; cbn; try done. by eapply add_to_claim_claims.
Qed.

Lemma change_pledge_inv s miner d s' : power_inv s → change_pledge s miner d = Ok s' → power_inv s'.
Proof. intros (Hc & Hp & Hq & Hb) H. unfold change_pledge in H. inv_ok. reflect_bools. by split_and!. Qed.

Lemma append_cron_event_inv s epoch ev : power_inv s → power_inv (append_cron_event s epoch ev).
Proof.
  intros (Hc & Hp & Hq & Hb). split_and!; cbn; try done.
  apply map_Forall_insert_2.
  - split; [case_if; reflect_bools; lia|]. by destruct (default [] _).
  - eapply map_Forall_impl; [exact Hq|]. intros e evs [He ?]. split; [|done]. case_if; reflect_bools; lia.
Qed.

Lemma add_to_batch_inv s miner info s' : power_inv s → add_to_batch s miner info = Ok s' → power_inv s'.
Proof.
  intros (Hc & Hp & Hq & Hb) H. unfold add_to_batch in H. inv_ok. split_and!; cbn; try done.
  assert (Hall : map_Forall (λ _ l, Z.of_nat (length l) ≤ MAX_MINER_PROVE_COMMITS_PER_EPOCH)
    (default ∅ (proof_validation_batch s))).
  { destruct (proof_validation_batch s); [done|apply map_Forall_empty]. }
  apply map_Forall_insert_2; [|done]. rewrite length_app.
  destruct (default ∅ (proof_validation_batch s) !! miner) as [arr|]; cbn; [|done]. reflect_bools. lia.
Qed.

Lemma take_batch_inv order s : power_inv s → power_inv (take_batch order s).1.
Proof. intros (Hc & Hp & Hq & Hb). unfold take_batch. destruct (proof_validation_batch s) eqn:E; split_and!; cbn; try done. by rewrite E. Qed.

Lemma take_cron_events_inv s rt_epoch : power_inv s → power_inv (take_cron_events s rt_epoch).1.
Proof.
  intros (Hc & Hp & Hq & Hb).
  destruct (take_cron_events_spec s rt_epoch (queue_ok_nonempty _ _ Hq)) as (q & -> & Hl).
  split_and!; cbn; try done. intros e evs He. rewrite Hl in He. case_bool_decide; [done|].
  apply Hq in He. split; [lia|by destruct He].
Qed.

Lemma delete_failed_claims l s cs :
  map_Forall (λ _, claim_ok) cs →
  map_Forall (λ _, claim_ok) (delete_failed s cs l).2 ∧
  total_pledge_collateral (delete_failed s cs l).1 = total_pledge_collateral s ∧
  cron_event_queue (delete_failed s cs l).1 = cron_event_queue s ∧
  first_cron_epoch (delete_failed s cs l).1 = first_cron_epoch s ∧
  proof_validation_batch (delete_failed s cs l).1 = proof_validation_batch s.
Proof.
  revert s cs. induction l as [|a l IH]; intros s cs Hok; cbn [delete_failed]; [done|].
  unfold delete_claim. destruct (cs !! a) as [c|]; [|exact (IH (set_claims s _ _ _) _ Hok)].
  destruct (add_to_claim_frame s cs a (- raw_byte_power c) (- quality_adj_power c)) as (? & ? & ? & ? & ? & Hf).
  destruct (add_to_claim s cs a _ _) as [s1 r] eqn:Ha. cbn in Hf. subst s1.
  destruct r as [cs1|e]; cbn; [|exact (IH (set_totals s _ _ _ _ _) _ Hok)]. destruct (cs1 !! a) as [c1|]; cbn; [|exact (IH (set_totals s _ _ _ _ _) _ Hok)].
  refine (IH (set_claims (set_totals s _ _ _ _ _) _ _ _) _ _). apply map_Forall_delete. by eapply add_to_claim_claims.
Qed.

Lemma drop_failed_inv s l : power_inv s → power_inv (drop_failed s l).
Proof.
  intros (Hc & Hp & Hq & Hb). unfold drop_failed.
  destruct (delete_failed_claims l s (claims s) Hc) as (Hc' & Hp' & Hq' & Hf' & Hb').
  destruct (delete_failed s (claims s) l) as [s' cs']. cbn in *. unfold power_inv, queue_ok. cbn.
  rewrite Hp', Hq', Hf', Hb'. by split_and!.
Qed.

Lemma end_epoch_inv s : power_inv s → power_inv (end_epoch s).
Proof. intros H. unfold end_epoch. by destruct (current_total_power s). Qed.

Create HintDb power.
#[export] Hint Resolve create_claim_inv claim_power_inv change_pledge_inv append_cron_event_inv add_to_batch_inv
  take_batch_inv take_cron_events_inv drop_failed_inv end_epoch_inv power_new_inv : power.

(** ** The actor keeps its invariant *)

(** The actor sends value only to the init actor, when a miner is created. *)
Definition power_send_ok (rt : Ctx) {U} (u : U) (b : Z) (m : Message) : Prop :=
  let '(to, _, _, value) := m in value = 0 ∨ (to = INIT_ACTOR_ADDR ∧ value = value_received rt).

Section safety.
Context {U : Type} `{!StateIn PowerState U}.
Context `{!Enc MinerConstructorParams, !Enc ExecParams, !Dec ExecReturn, !Dec ThisEpochRewardReturn}.
Context `{!Enc ConfirmSectorProofsParams, !Enc DeferredCronEventParams, !Enc Z}.
Context `{!Enc (list (Address * list SealVerifyInfo)), !Dec (list (Address * list bool))}.
Context (order : gmap Address (list SealVerifyInfo) → list (Address * list SealVerifyInfo)) (rt : Ctx).
Context (I : U → Prop) `{!InvIn power_inv I}.
Notation pwp := (wp (power_send_ok rt) I rt).
Notation post := (λ _ _ _, True).

Lemma confirm_all_wp res rewret smoothed l u b :
  I u → 0 ≤ b → pwp (confirm_all res rewret smoothed l) u b (λ _ u' b', I u' ∧ 0 ≤ b').
Proof.
  revert u b. induction l as [|[m verifs] l IH]; intros u b Hu Hb; cbn [confirm_all]; [done|].
  destruct (_ !! m) as [vres|]; [|done]. do 2 wp_step. wp_step. destruct a as [|x a].
  - wp_step. by apply IH.
  - wp_step; [by left|]. by apply IH.
Qed.

Lemma run_callbacks_wp rewret smoothed l failed u b :
  I u → 0 ≤ b → pwp (run_callbacks rewret smoothed l failed) u b (λ _ u' b', I u' ∧ 0 ≤ b').
Proof.
  revert failed u b. induction l as [|ev l IH]; intros failed u b Hu Hb; cbn [run_callbacks]; [done|].
  do 2 wp_step; [by left|]. by apply IH.
Qed.

Lemma batch_wp rewret u b :
  I u → 0 ≤ b → pwp (process_batch_proof_verifies order rewret) u b (λ _ u' b', I u' ∧ 0 ≤ b').
Proof.
  intros Hu Hb. unfold process_batch_proof_verifies. do 2 wp_step.
  pose proof (take_batch_inv order s (inv_dec _ s Hu ltac:(done))) as Hi.
  destruct (take_batch order s) as [s' l]. cbn in Hi. wp_step. pose proof (inv_enc s' Hi).
  split; [done|]. do 2 wp_step. destruct (o ≫= dec) as [res|]; [by apply confirm_all_wp|done].
Qed.

Lemma deferred_wp rewret u b :
  I u → 0 ≤ b → pwp (process_deferred_cron_events rt rewret) u b (λ _ u' b', I u' ∧ 0 ≤ b').
Proof.
  intros Hu Hb. unfold process_deferred_cron_events. do 4 wp_step.
  pose proof (take_cron_events_inv s0 (curr_epoch rt) (inv_dec _ s0 Hu ltac:(done))) as Hi. wp_step.
  destruct (take_cron_events s0 (curr_epoch rt)) as [s1 evs]. cbn in Hi. pose proof (inv_enc s1 Hi).
  split; [done|]. wp_step. eapply wp_mono; [|by apply run_callbacks_wp]. cbn. intros failed u' b' [Hu' Hb'].
  destruct failed as [|a l]; [done|]. do 2 wp_step. assert (I (state_enc (drop_failed s2 (a :: l)))); [|done].
  apply inv_enc, drop_failed_inv. by eapply inv_dec.
Qed.

Lemma on_epoch_tick_end_wp u b : I u → 0 ≤ b → pwp (on_epoch_tick_end order rt) u b post.
Proof.
  intros Hu Hb. unfold on_epoch_tick_end. do 4 wp_step; [by left|]. do 3 wp_step.
  eapply wp_mono; [|by apply batch_wp]. cbn. intros [] u1 b1 [Hu1 Hb1]. wp_step.
  eapply wp_mono; [|by apply deferred_wp]. cbn. intros [] u2 b2 [Hu2 Hb2]. do 3 wp_step. split.
  - apply inv_enc, end_epoch_inv. by eapply inv_dec.
  - do 2 wp_step; [by left|]. done.
Qed.

Context `{!Dec CreateMinerParams, !Enc CreateMinerReturn, !Dec UpdateClaimedPowerParams, !Dec EnrollCronEventParams}.
Context `{!Dec Z, !Dec SealVerifyInfo, !Enc CurrentTotalPowerReturn}.

Ltac commit_inv Hu :=
  split; [|done]; apply inv_enc;
  match goal with Hs : state_dec _ = Some _ |- _ => pose proof (inv_dec (inv := power_inv) _ _ Hu Hs) end;
  eauto 2 with power.

Lemma create_miner_wp p u b : pwp (create_miner rt p) u b post.
Proof.
  unfold create_miner. do 4 wp_step; [by right|]. do 6 wp_step. split; [|by wp_step].
  apply inv_enc. eapply create_claim_inv; [|done]. by eapply inv_dec.
Qed.

Lemma power_wp method params u b : I u → 0 ≤ b → pwp (power_invoke_method order rt method params) u b post.
Proof.
  intros Hu Hb. unfold power_invoke_method. repeat case_match; try exact Logic.I.
  all: try (apply call_unit_wp; intros ps Hps).
  - unfold current_total_power_method. by do 6 wp_step.
  - wp_step. eapply wp_mono; [|by apply on_epoch_tick_end_wp]. done.
  - unfold update_claimed_power. do 5 wp_step. commit_inv Hu.
  - unfold update_pledge_total. do 5 wp_step. commit_inv Hu.
  - unfold submit_porep_for_bulk_verify. do 7 wp_step. commit_inv Hu.
  - unfold enroll_cron_event. do 5 wp_step. commit_inv Hu.
  - apply call_ret_wp. intros ps Hps. apply create_miner_wp.
  - unfold power_constructor. do 4 wp_step; [|done]. apply inv_enc, power_new_inv.
Qed.

End safety.

(** ** Histories of the state *)

(** The transactions of the actor.  The id that the init actor returns for a
    new miner is new; [P] says which lists of failed miners occur. *)
Inductive power_step (P : PowerState → list Address → Prop) : PowerState → PowerState → Prop :=
| step_create s id p s' : claims s !! id = None → create_claim s id p = Ok s' → power_step P s s'
| step_claim s miner raw qa s' : claim_power s miner raw qa = Ok s' → power_step P s s'
| step_pledge s miner d s' : change_pledge s miner d = Ok s' → power_step P s s'
| step_event s epoch ev : power_step P s (append_cron_event s epoch ev)
| step_batch s miner info s' : add_to_batch s miner info = Ok s' → power_step P s s'
| step_take_batch order s : power_step P s (take_batch order s).1
| step_take_cron s rt_epoch : power_step P s (take_cron_events s rt_epoch).1
| step_drop s l : P s l → power_step P s (drop_failed s l)
| step_end s : power_step P s (end_epoch s).

(** Each failed miner once, and with a claim. *)
Definition distinct_miners (s : PowerState) (l : list Address) : Prop :=
  NoDup l ∧ Forall (λ a, is_Some (claims s !! a)) l.

(** The steps that leave the claims and totals alone. *)
Lemma totals_frame s s' :
  totals_of s (claims s) → claims s' = claims s →
  total_bytes_committed s' = total_bytes_committed s → total_qa_bytes_committed s' = total_qa_bytes_committed s →
  total_raw_byte_power s' = total_raw_byte_power s → total_quality_adj_power s' = total_quality_adj_power s →
  miner_above_min_power_count s' = miner_above_min_power_count s → totals_of s' (claims s').
Proof. unfold totals_of. by intros Ht -> -> -> -> -> ->. Qed.

Lemma power_step_counts P s s' :
  power_step P s s' → totals_of s (claims s) → power_inv s →
  totals_of s' (claims s') ∧
  Z.of_nat (size (claims s)) - miner_count s ≤ Z.of_nat (size (claims s')) - miner_count s' ∧
  ((∀ s l, P s l → distinct_miners s l) →
    Z.of_nat (size (claims s')) - miner_count s' = Z.of_nat (size (claims s)) - miner_count s).
Proof.
  intros Hstep Ht (Hc & Hp & Hq & Hb).
  destruct Hstep as [s id p s' Hid [-> Hmin]%create_claim_spec|s miner raw qa s' H|s miner d s' H|s epoch ev
    |s miner info s' H|order s|s rt_epoch|s l HP|s].
  - destruct Ht as (H1 & H2 & H3 & H4 & H5 & H6). cbn. rewrite (map_size_insert_None _ _ _ Hid).
    split; [|split; intros; lia].
    unfold totals_of, eligible in *. cbn [raw_byte_power quality_adj_power]. cbn.
    rewrite !(map_sum_insert_new _ _ _ _ Hid). cbn. split_and!; try done.
    apply map_Forall_insert_2; [|done]. by split_and!.
  - unfold claim_power in H. destruct (add_to_claim_frame s (claims s) miner raw qa) as (? & ? & ? & ? & ? & Hf).
    destruct (add_to_claim s (claims s) miner raw qa) as [s1 r] eqn:Ha. cbn in Hf. subst s1. inv_ok.
    destruct (add_to_claim_totals _ _ _ _ _ _ _ Ha Ht) as (Ht' & c & c' & Hc0 & -> & _).
    cbn. rewrite map_size_insert_Some by (by eexists). split; [exact Ht'|split; intros; lia].
  - unfold change_pledge in H. inv_ok. split; [by eapply totals_frame|split; intros; cbn; lia].
  - split; [by eapply totals_frame|split; intros; cbn; lia].
  - unfold add_to_batch in H. inv_ok. split; [by eapply totals_frame|split; intros; cbn; lia].
  - unfold take_batch. destruct (proof_validation_batch s); (split; [by eapply totals_frame|split; intros; cbn; lia]).
  - destruct (take_cron_events_spec s rt_epoch (queue_ok_nonempty _ _ Hq)) as (q & -> & _).
    split; [by eapply totals_frame|split; intros; cbn; lia].
  - unfold drop_failed.
    destruct (delete_failed_totals l s (claims s) Ht) as (s' & cs' & -> & Ht' & Hmc & Hsz & Hnd & _). cbn.
    split; [exact Ht'|split; [lia|]]. intros HPd. destruct (HPd _ _ HP) as [Hn Hf]. rewrite (Hnd Hn Hf). lia.
  - unfold end_epoch. destruct (current_total_power s). split; [by eapply totals_frame|split; intros; cbn; lia].
Qed.

Lemma power_step_inv P s s' : power_step P s s' → power_inv s → power_inv s'.
Proof.
  destruct 1; intros Hi; eauto 2 using create_claim_inv, claim_power_inv, change_pledge_inv, add_to_batch_inv.
  - by apply append_cron_event_inv.
  - by apply take_batch_inv.
  - by apply take_cron_events_inv.
  - by apply drop_failed_inv.
  - by apply end_epoch_inv.
Qed.

(** ** Theorems *)

(** C11.  In every state the actor can reach, the committed totals are the sums
    of all claims, the consensus totals and the count are those of the claims of
    at least the minimal power, and no claim or total is negative; deleting the
    claim of a failed miner never fails.  The count of miners is at most the
    number of claims, and exact if no miner fails twice in one epoch. *)
Theorem power_totals_exact (P : PowerState → list Address → Prop) (s : PowerState) :
  rtc (power_step P) power_state_new s →
  totals_of s (claims s) ∧ power_inv s ∧
  (0 ≤ (current_total_power s).1 ∧ 0 ≤ (current_total_power s).2) ∧
  (∀ miner, ∃ s', delete_claim s (claims s) miner = (s', Ok (delete miner (claims s)))) ∧
  miner_count s ≤ Z.of_nat (size (claims s)) ∧
  ((∀ s l, P s l → distinct_miners s l) → miner_count s = Z.of_nat (size (claims s))).
Proof.
  intros Hs. assert (H : totals_of s (claims s) ∧ power_inv s ∧ miner_count s ≤ Z.of_nat (size (claims s)) ∧
    ((∀ s l, P s l → distinct_miners s l) → miner_count s = Z.of_nat (size (claims s)))).
  { revert Hs. apply (rtc_ind_r (λ s, totals_of s (claims s) ∧ power_inv s ∧ miner_count s ≤ Z.of_nat (size (claims s)) ∧
      ((∀ s l, P s l → distinct_miners s l) → miner_count s = Z.of_nat (size (claims s))))).
    - split_and!; try done; apply power_new_inv.
    - intros s1 s2 _ Hstep (Ht & Hi & Hle & Heq). destruct (power_step_counts _ _ _ Hstep Ht Hi) as (Ht' & Hd & Hd').
      split_and!; [done|by eapply power_step_inv|lia|]. intros HP. specialize (Heq HP). specialize (Hd' HP). lia. }
  destruct H as (Ht & Hi & Hle & Heq). split_and!; try done.
  - destruct Ht as (H1 & H2 & H3 & H4 & H5 & H6). unfold current_total_power. case_if; cbn;
      [rewrite H1|rewrite H3]; apply map_sum_nonneg; intros k c (? & ? & _)%H6; [done|by case_if].
  - destruct Ht as (H1 & H2 & H3 & H4 & H5 & H6). unfold current_total_power. case_if; cbn;
      [rewrite H2|rewrite H4]; apply map_sum_nonneg; intros k c (? & ? & _)%H6; [done|by case_if].
  - intros miner. destruct (delete_claim_totals s (claims s) miner Ht) as (s' & Hs' & _). by exists s'.
Qed.

(** Two miners, one above the minimum, the other with two events in epoch 5. *)
Definition ex_big : Address := id_addr 1000.
Definition ex_small : Address := id_addr 1001.
Definition ex_power_steps : result ExitCode PowerState :=
  s ← create_claim power_state_new ex_big StackedDRGWindow32GiBV1;
  s ← create_claim s ex_small StackedDRGWindow32GiBV1;
  s ← claim_power s ex_big (MIN_POWER + 7) (MIN_POWER + 9);
  claim_power s ex_small 100 200.
Definition ex_power : PowerState := match ex_power_steps with Ok s => s | Err _ => power_state_new end.
Definition ex_events (s : PowerState) : PowerState :=
  append_cron_event (append_cron_event s 5 {| ev_miner_addr := ex_small; callback_payload := [1] |}) 5
    {| ev_miner_addr := ex_small; callback_payload := [2] |}.

Lemma power_totals_exact_witness :
  miner_count ex_power = 2 ∧ total_raw_byte_power ex_power = MIN_POWER + 7 ∧
  total_bytes_committed ex_power = map_sum raw_byte_power (claims ex_power).
Proof.
  assert (Hr : rtc (power_step distinct_miners) power_state_new ex_power).
  { eapply rtc_l; [eapply (step_create _ _ ex_big StackedDRGWindow32GiBV1); vm_compute; reflexivity|].
    eapply rtc_l; [eapply (step_create _ _ ex_small StackedDRGWindow32GiBV1); vm_compute; reflexivity|].
    eapply rtc_l; [eapply (step_claim _ _ ex_big (MIN_POWER + 7) (MIN_POWER + 9)); vm_compute; reflexivity|].
    eapply rtc_once. apply (step_claim _ _ ex_small 100 200). vm_compute. reflexivity. }
  destruct (power_totals_exact distinct_miners ex_power Hr) as ((Hb & _) & _ & _ & _ & _ & Hc).
  split_and!; [rewrite Hc by auto; vm_compute; reflexivity|vm_compute; reflexivity|exact Hb].
Defined.

(** A miner with two events in one epoch whose callbacks both fail is
    counted out twice: deleting an absent claim succeeds, and the count of miners
    goes down each time, to one less than the number of claims. *)
Theorem miner_count_drifts :
  let s := ex_events ex_power in
  let '(s', evs) := take_cron_events s 5 in
  map ev_miner_addr evs = [ex_small; ex_small] ∧
  miner_count s = Z.of_nat (size (claims s)) ∧
  miner_count (drop_failed s' [ex_small; ex_small]) = 0 ∧
  Z.of_nat (size (claims (drop_failed s' [ex_small; ex_small]))) = 1.
Proof. vm_compute. auto. Qed.
