(* ===== verification/Funds.v ===== *)
(** * The funds of the storage market

    [src/vm/actor/src/util/balance_table.rs],
    [builtin/market/{deal,policy}.rs] and the part of [builtin/market/state.rs]
    that moves funds: the escrow and locked tables with the locked totals, and
    what happens to them when a deal is made, paid, slashed, timed out or
    expired.  [Funds] is the part of [MarketStateMutation] these functions
    change. *)

From S2P Require Import Prelude Address Runtime Reward.

(** ** [balance_table.rs] *)

Notation BalanceTable := (gmap Address Z).

Definition bt_get (t : BalanceTable) (key : Address) : Z := default 0 (t !! key).
(** The key that is deleted has a non-zero entry, so that the HAMT has it. *)
Definition bt_add (t : BalanceTable) (key : Address) (value : Z) : result ExitCode BalanceTable :=
  let prev := bt_get t key in
  let sum := prev + value in
  if sum <? 0 then Err ErrIllegalState
  else if (sum =? 0) && negb (prev =? 0) then Ok (delete key t)
  else Ok (<[key := sum]> t).
Definition subtract_with_minimum (t : BalanceTable) (key : Address) (req floor : Z) : result ExitCode (BalanceTable * Z) :=
  let prev := bt_get t key in
  let available := Z.max 0 (prev - floor) in
  let sub := Z.min available req in
  if 0 <? sub then t ← bt_add t key (- sub); mret (t, sub) else mret (t, sub).
Definition must_subtract (t : BalanceTable) (key : Address) (req : Z) : result ExitCode BalanceTable :=
  let prev := bt_get t key in
  if prev <? req then Err ErrIllegalState else bt_add t key (- req).
Definition bt_total (t : BalanceTable) : Z := map_sum id t.

(** ** [deal.rs] *)

Record DealProposal := {
  piece_cid : bytes; piece_size : Z; verified_deal : bool; client : Address; provider : Address; label : bytes;
  start_epoch : Z; end_epoch : Z; storage_price_per_epoch : Z; provider_collateral : Z; client_collateral : Z }.

Definition duration (d : DealProposal) : Z := end_epoch d - start_epoch d.
Definition total_storage_fee (d : DealProposal) : Z := storage_price_per_epoch d * duration d.
Definition client_balance_requirement (d : DealProposal) : Z := client_collateral d + total_storage_fee d.
Definition provider_balance_requirement (d : DealProposal) : Z := provider_collateral d.

Record ClientDealProposal := { proposal : DealProposal; client_signature : bytes }.

Record DealState := { sector_start_epoch : Z; last_updated_epoch : Z; slash_epoch : Z }.

(** ** [policy.rs] *)

Definition DEAL_UPDATES_INTERVAL : Z := EPOCHS_IN_DAY.
Definition PROV_COLLATERAL_PERCENT_SUPPLY_NUM : Z := 1.
Definition PROV_COLLATERAL_PERCENT_SUPPLY_DENOM : Z := 100.
Definition DEAL_MAX_LABEL_SIZE : Z := 256.
Definition TOTAL_FILECOIN : Z := 2000000000 * FILECOIN_PRECISION.

Definition deal_duration_bounds (size : Z) : Z * Z := (180 * EPOCHS_IN_DAY, 540 * EPOCHS_IN_DAY).
Definition deal_price_per_epoch_bounds (size dur : Z) : Z * Z := (0, TOTAL_FILECOIN).
Definition deal_provider_collateral_bounds (size network_raw_power baseline_power network_circulating_supply : Z) : Z * Z :=
  let lock_target_num := network_circulating_supply * PROV_COLLATERAL_PERCENT_SUPPLY_NUM in
  let power_share_num := size in
  let power_share_denom := Z.max (Z.max network_raw_power baseline_power) power_share_num in
  let num := power_share_num * lock_target_num in
  let denom := power_share_denom * PROV_COLLATERAL_PERCENT_SUPPLY_DENOM in
  (num / denom, TOTAL_FILECOIN).
Definition deal_client_collateral_bounds (size dur : Z) : Z * Z := (0, TOTAL_FILECOIN).
Definition collateral_penalty_for_deal_activation_missed (provider_collateral : Z) : Z := provider_collateral.
Definition deal_weight (d : DealProposal) : Z := duration d * piece_size d.

(** ** [state.rs] *)

Inductive Reason := ClientCollateral | ClientStorageFee | ProviderCollateral.

Record Funds := {
  escrow_table : BalanceTable; locked_table : BalanceTable;
  total_client_locked_colateral : Z; total_provider_locked_colateral : Z; total_client_storage_fee : Z }.

Definition funds_new : Funds :=
  {| escrow_table := ∅; locked_table := ∅; total_client_locked_colateral := 0;
     total_provider_locked_colateral := 0; total_client_storage_fee := 0 |}.

Definition total_locked (f : Funds) : Z :=
  total_client_locked_colateral f + total_provider_locked_colateral f + total_client_storage_fee f.

Definition set_escrow (f : Funds) (t : BalanceTable) : Funds :=
  {| escrow_table := t; locked_table := locked_table f;
     total_client_locked_colateral := total_client_locked_colateral f;
     total_provider_locked_colateral := total_provider_locked_colateral f;
     total_client_storage_fee := total_client_storage_fee f |}.
Definition set_locked (f : Funds) (t : BalanceTable) (dcc dpc dsf : Z) : Funds :=
  {| escrow_table := escrow_table f; locked_table := t;
     total_client_locked_colateral := total_client_locked_colateral f + dcc;
     total_provider_locked_colateral := total_provider_locked_colateral f + dpc;
     total_client_storage_fee := total_client_storage_fee f + dsf |}.

Definition balance_covered (f : Funds) (addr : Address) (amount_to_lock : Z) : bool :=
  bt_get (locked_table f) addr + amount_to_lock <=? bt_get (escrow_table f) addr.

Definition maybe_lock_balance (f : Funds) (addr : Address) (amount : Z) : result ExitCode Funds :=
  _ ← throw_if (amount <? 0) ErrIllegalState;
  let prev_locked := bt_get (locked_table f) addr in
  let escrow_balance := bt_get (escrow_table f) addr in
  _ ← throw_if (escrow_balance <? prev_locked + amount) ErrInsufficientFunds;
  t ← bt_add (locked_table f) addr amount;
  mret (set_locked f t 0 0 0).

Definition lock_client_and_provider_balances (f : Funds) (d : DealProposal) : result ExitCode Funds :=
  f ← maybe_lock_balance f (client d) (client_balance_requirement d);
  f ← maybe_lock_balance f (provider d) (provider_collateral d);
  mret (set_locked f (locked_table f) (client_collateral d) (provider_collateral d) (total_storage_fee d)).

Definition unlock_balance (f : Funds) (addr : Address) (amount : Z) (lock_reason : Reason) : result ExitCode Funds :=
  _ ← throw_if (amount <? 0) ErrIllegalState;
  t ← must_subtract (locked_table f) addr amount;
  mret (match lock_reason with
        | ClientCollateral => set_locked f t (- amount) 0 0
        | ClientStorageFee => set_locked f t 0 0 (- amount)
        | ProviderCollateral => set_locked f t 0 (- amount) 0
        end).

Definition transfer_balance (f : Funds) (from_addr to_addr : Address) (amount : Z) : result ExitCode Funds :=
  _ ← throw_if (amount <? 0) ErrIllegalState;
  e ← must_subtract (escrow_table f) from_addr amount;
  f ← unlock_balance (set_escrow f e) from_addr amount ClientStorageFee;
  e ← bt_add (escrow_table f) to_addr amount;
  mret (set_escrow f e).

Definition slash_balance (f : Funds) (addr : Address) (amount : Z) (lock_reason : Reason) : result ExitCode Funds :=
  _ ← throw_if (amount <? 0) ErrIllegalState;
  e ← must_subtract (escrow_table f) addr amount;
  unlock_balance (set_escrow f e) addr amount lock_reason.

Definition deal_get_payment_remaining (d : DealProposal) (slash_epoch : Z) : result ExitCode Z :=
  _ ← throw_if (end_epoch d <? slash_epoch) ErrIllegalState;
  let slash_epoch := Z.max slash_epoch (start_epoch d) in
  let duration_remaining := end_epoch d - slash_epoch in
  _ ← throw_if (duration_remaining <? 0) ErrIllegalState;
  mret (storage_price_per_epoch d * duration_remaining).

Definition process_deal_init_timed_out (f : Funds) (d : DealProposal) : result ExitCode (Funds * Z) :=
  f ← unlock_balance f (client d) (total_storage_fee d) ClientStorageFee;
  f ← unlock_balance f (client d) (client_collateral d) ClientCollateral;
  let amount_slashed := collateral_penalty_for_deal_activation_missed (provider_collateral d) in
  let amount_remaining := provider_balance_requirement d - amount_slashed in
  f ← slash_balance f (provider d) amount_slashed ProviderCollateral;
  f ← unlock_balance f (provider d) amount_remaining ProviderCollateral;
  mret (f, amount_slashed).

Definition process_deal_expired (f : Funds) (d : DealProposal) (state : DealState) : result ExitCode Funds :=
  _ ← throw_if (sector_start_epoch state =? EPOCH_UNDEFINED) ErrIllegalState;
  f ← unlock_balance f (provider d) (provider_collateral d) ProviderCollateral;
  unlock_balance f (client d) (client_collateral d) ClientCollateral.

(** The amount slashed, the epoch of the next update, whether the deal is over. *)
Definition update_pending_deal_state (f : Funds) (state : DealState) (d : DealProposal) (epoch : Z)
    : result ExitCode (Funds * (Z * Z * bool)) :=
  let ever_updated := negb (last_updated_epoch state =? EPOCH_UNDEFINED) in
  let ever_slashed := negb (slash_epoch state =? EPOCH_UNDEFINED) in
  _ ← throw_if (ever_updated && (epoch <? last_updated_epoch state)) ErrIllegalState;
  if epoch <? start_epoch d then mret (f, (0, EPOCH_UNDEFINED, false))
  else
    payment_end_epoch ←
      (if ever_slashed then
         _ ← throw_if (epoch <? slash_epoch state) ErrIllegalState;
         _ ← throw_if (end_epoch d <? slash_epoch state) ErrIllegalState;
         mret (slash_epoch state)
       else mret (Z.min (end_epoch d) epoch));
    let payment_start_epoch :=
      if ever_updated && (start_epoch d <? last_updated_epoch state) then last_updated_epoch state
      else start_epoch d in
    let num_epochs_elapsed := payment_end_epoch - payment_start_epoch in
    let total_payment := storage_price_per_epoch d * num_epochs_elapsed in
    f ← (if 0 <? total_payment then transfer_balance f (client d) (provider d) total_payment else mret f);
    if ever_slashed then
      payment_remaining ← deal_get_payment_remaining d (slash_epoch state);
      f ← unlock_balance f (client d) payment_remaining ClientStorageFee;
      f ← unlock_balance f (client d) (client_collateral d) ClientCollateral;
      let slashed := provider_collateral d in
      f ← slash_balance f (provider d) slashed ProviderCollateral;
      mret (f, (slashed, EPOCH_UNDEFINED, true))
    else if end_epoch d <=? epoch then
      f ← process_deal_expired f d state;
      mret (f, (0, EPOCH_UNDEFINED, true))
    else mret (f, (0, epoch + DEAL_UPDATES_INTERVAL, false)).

(** ** What the operations do *)

(** A change by [v] at the address [a]. *)
Definition at_addr (a : Address) (v : Z) (b : Address) : Z := if decide (b = a) then v else 0.
Notation escrow f a := (bt_get (escrow_table f) a).
Notation locked f a := (bt_get (locked_table f) a).

(** [bt_add] succeeds unless the balance would become negative. *)
Lemma bt_add_ok t k v :
  0 ≤ bt_get t k + v →
  ∃ t', bt_add t k v = Ok t' ∧ (∀ a, bt_get t' a = bt_get t a + at_addr k v a) ∧ bt_total t' = bt_total t + v.
Proof.
  intros Hv. unfold bt_add. rewrite (proj2 (Z.ltb_ge _ _) Hv).
  destruct ((bt_get t k + v =? 0) && negb (bt_get t k =? 0)) eqn:E; eexists; (split; [reflexivity|]); reflect_bools.
  - unfold bt_get, bt_total in *. destruct (t !! k) as [x|] eqn:Ek; cbn in *; [|done]. split.
    + intros a. unfold at_addr. case_decide; [subst; rewrite lookup_delete_eq, Ek; cbn; lia|].
      rewrite lookup_delete_ne by done. lia.
    + rewrite (map_sum_delete _ _ _ _ Ek). unfold id. lia.
  - clear E. unfold bt_get, bt_total. split.
    + intros a. unfold at_addr. case_decide; [subst; by rewrite lookup_insert_eq|].
      rewrite lookup_insert_ne by done. lia.
    + rewrite map_sum_insert. unfold id. destruct (t !! k); cbn; lia.
Qed.

Lemma bt_add_nonneg t k v t' : bt_add t k v = Ok t' → 0 ≤ bt_get t k + v.
Proof. unfold bt_add. destruct (Z.ltb_spec (bt_get t k + v) 0); [done|]. lia. Qed.

(** The effect of a step: per address on escrow and locked, on the total in
    escrow, and on the three locked totals. *)
Definition moves (f f' : Funds) (dE dL : Address → Z) (dT dcc dpc dsf : Z) : Prop :=
  (∀ a, escrow f' a = escrow f a + dE a) ∧ (∀ a, locked f' a = locked f a + dL a) ∧
  bt_total (escrow_table f') = bt_total (escrow_table f) + dT ∧
  total_client_locked_colateral f' = total_client_locked_colateral f + dcc ∧
  total_provider_locked_colateral f' = total_provider_locked_colateral f + dpc ∧
  total_client_storage_fee f' = total_client_storage_fee f + dsf.

Lemma moves_trans f1 f2 f3 dE dL dT dcc dpc dsf dE' dL' dT' dcc' dpc' dsf' :
  moves f1 f2 dE dL dT dcc dpc dsf → moves f2 f3 dE' dL' dT' dcc' dpc' dsf' →
  moves f1 f3 (λ a, dE a + dE' a) (λ a, dL a + dL' a) (dT + dT') (dcc + dcc') (dpc + dpc') (dsf + dsf').
Proof.
  intros (He & Hl & Ht & H1 & H2 & H3) (He' & Hl' & Ht' & H1' & H2' & H3').
  split_and!; try lia; intros a; [rewrite He', He|rewrite Hl', Hl]; lia.
Qed.

Lemma moves_ext f f' dE dL dT dcc dpc dsf dE' dL' dT' dcc' dpc' dsf' :
  moves f f' dE dL dT dcc dpc dsf → (∀ a, dE a = dE' a) → (∀ a, dL a = dL' a) →
  dT = dT' → dcc = dcc' → dpc = dpc' → dsf = dsf' → moves f f' dE' dL' dT' dcc' dpc' dsf'.
Proof.
  intros (He & Hl & Ht & H1 & H2 & H3) HE HL -> -> -> ->. split_and!; try done; intros a; [rewrite He, HE|rewrite Hl, HL]; done.
Qed.

Lemma moves_refl f : moves f f (λ _, 0) (λ _, 0) 0 0 0 0.
Proof. split_and!; intros; lia. Qed.

(** Nothing locked is negative or above the escrow. *)
Definition funds_inv (f : Funds) : Prop := ∀ a, 0 ≤ locked f a ≤ escrow f a.

Definition reason_cc (r : Reason) (v : Z) : Z := match r with ClientCollateral => v | _ => 0 end.
Definition reason_pc (r : Reason) (v : Z) : Z := match r with ProviderCollateral => v | _ => 0 end.
Definition reason_sf (r : Reason) (v : Z) : Z := match r with ClientStorageFee => v | _ => 0 end.

Lemma unlock_ok f a v r :
  0 ≤ v ≤ locked f a →
  ∃ f', unlock_balance f a v r = Ok f' ∧
    moves f f' (λ _, 0) (at_addr a (- v)) 0 (reason_cc r (- v)) (reason_pc r (- v)) (reason_sf r (- v)).
Proof.
  intros [Hv Hl]. unfold unlock_balance, must_subtract, throw_if.
  rewrite (proj2 (Z.ltb_ge _ _) Hv). cbn. rewrite (proj2 (Z.ltb_ge _ _) Hl).
  destruct (bt_add_ok (locked_table f) a (- v)) as (t & -> & Ht & _); [lia|].
  eexists; split; [reflexivity|]. unfold moves. destruct r; cbn; split_and!; try lia; try done; intros; lia.
Qed.

Lemma unlock_inv f a v r f' : unlock_balance f a v r = Ok f' → 0 ≤ v ≤ locked f a.
Proof.
  unfold unlock_balance, must_subtract. intros H. inv_ok. reflect_bools.
  destruct (Z.ltb_spec (locked f a) v); [done|]. lia.
Qed.

Lemma slash_ok f a v r :
  0 ≤ v ≤ locked f a → v ≤ escrow f a →
  ∃ f', slash_balance f a v r = Ok f' ∧
    moves f f' (at_addr a (- v)) (at_addr a (- v)) (- v) (reason_cc r (- v)) (reason_pc r (- v)) (reason_sf r (- v)).
Proof.
  intros Hv He. unfold slash_balance, throw_if. rewrite (proj2 (Z.ltb_ge _ _)) by lia. cbn. unfold must_subtract at 1.
  rewrite (proj2 (Z.ltb_ge _ _) He).
  destruct (bt_add_ok (escrow_table f) a (- v)) as (t & -> & Ht & Hs); [lia|]. cbn.
  destruct (unlock_ok (set_escrow f t) a v r Hv) as (f' & -> & H1 & H2 & H3 & H4 & H5 & H6). cbn in *.
  eexists; split; [reflexivity|]. split_and!; try done; [intros b; rewrite H1, Ht|]; lia.
Qed.

Lemma slash_inv f a v r f' : slash_balance f a v r = Ok f' → 0 ≤ v ≤ locked f a ∧ v ≤ escrow f a.
Proof.
  unfold slash_balance, must_subtract at 1. intros H. inv_ok. reflect_bools.
  apply unlock_inv in H. by split.
Qed.

Lemma transfer_ok f a b v :
  0 ≤ v ≤ locked f a → funds_inv f →
  ∃ f', transfer_balance f a b v = Ok f' ∧
    moves f f' (λ x, at_addr a (- v) x + at_addr b v x) (at_addr a (- v)) 0 0 0 (- v).
Proof.
  intros Hv Hi. pose proof (Hi a) as Ha. unfold transfer_balance, throw_if. rewrite (proj2 (Z.ltb_ge _ _)) by lia. cbn.
  unfold must_subtract at 1. rewrite (proj2 (Z.ltb_ge _ _)) by lia.
  destruct (bt_add_ok (escrow_table f) a (- v)) as (t & -> & Ht & Hs); [lia|]. cbn.
  destruct (unlock_ok (set_escrow f t) a v ClientStorageFee Hv) as (f1 & -> & H1 & H2 & H3 & H4 & H5 & H6). cbn in *.
  destruct (bt_add_ok (escrow_table f1) b v) as (t' & -> & Ht' & Hs').
  { rewrite H1, Ht. unfold at_addr. pose proof (Hi b). case_decide; [subst|]; lia. }
  eexists; split; [reflexivity|]. split_and!; cbn; try done; try lia. intros x. rewrite Ht', H1, Ht. lia.
Qed.

Lemma transfer_inv f a b v f' : transfer_balance f a b v = Ok f' → 0 ≤ v ≤ locked f a.
Proof.
  unfold transfer_balance, must_subtract at 1. intros H. inv_ok.
  match goal with Hu : unlock_balance _ _ _ _ = Ok _ |- _ => apply unlock_inv in Hu; exact Hu end.
Qed.

(** *** The operations keep the invariant *)

Lemma unlock_keeps f a v r f' : unlock_balance f a v r = Ok f' → funds_inv f → funds_inv f'.
Proof.
  intros H Hi. pose proof (unlock_inv _ _ _ _ _ H) as Hv. destruct (unlock_ok f a v r Hv) as (f1 & H1 & He & Hl & _).
  rewrite H in H1. injection H1 as <-. intros b. rewrite He, Hl. pose proof (Hi b). unfold at_addr. case_decide; subst; lia.
Qed.

Lemma slash_keeps f a v r f' : slash_balance f a v r = Ok f' → funds_inv f → funds_inv f'.
Proof.
  intros H Hi. destruct (slash_inv _ _ _ _ _ H) as [Hv Hve]. destruct (slash_ok f a v r Hv Hve) as (f1 & H1 & He & Hl & _).
  rewrite H in H1. injection H1 as <-. intros b. rewrite He, Hl. pose proof (Hi b). unfold at_addr. case_decide; subst; lia.
Qed.

Lemma transfer_keeps f a b v f' : transfer_balance f a b v = Ok f' → funds_inv f → funds_inv f'.
Proof.
  intros H Hi. pose proof (transfer_inv _ _ _ _ _ H) as Hv. destruct (transfer_ok f a b v Hv Hi) as (f1 & H1 & He & Hl & _).
  rewrite H in H1. injection H1 as <-. intros x. rewrite He, Hl. pose proof (Hi x). unfold at_addr.
  repeat case_decide; subst; lia.
Qed.

Lemma maybe_lock_moves f a v f' :
  maybe_lock_balance f a v = Ok f' → funds_inv f →
  0 ≤ v ∧ moves f f' (λ _, 0) (at_addr a v) 0 0 0 0 ∧ funds_inv f'.
Proof.
  unfold maybe_lock_balance. intros H Hi. inv_ok. reflect_bools.
  destruct (bt_add_ok (locked_table f) a v) as (t & Ht & Hl & _); [pose proof (Hi a); lia|].
  match goal with Hb : bt_add _ _ _ = Ok _ |- _ => rewrite Hb in Ht; injection Ht as -> end.
  split_and!; [done| |].
  - split_and!; cbn; try lia; try done.
  - intros x. cbn. rewrite Hl. pose proof (Hi x). unfold at_addr. case_decide; subst; lia.
Qed.

Lemma lock_deal_moves f d f' :
  lock_client_and_provider_balances f d = Ok f' → funds_inv f →
  0 ≤ client_balance_requirement d ∧ 0 ≤ provider_collateral d ∧ funds_inv f' ∧
  moves f f' (λ _, 0) (λ a, at_addr (client d) (client_balance_requirement d) a + at_addr (provider d) (provider_collateral d) a)
    0 (client_collateral d) (provider_collateral d) (total_storage_fee d).
Proof.
  unfold lock_client_and_provider_balances. intros H Hi. inv_ok.
  destruct (maybe_lock_moves _ _ _ _ Hm Hi) as (H1 & M1 & Hi1).
  destruct (maybe_lock_moves _ _ _ _ Hm0 Hi1) as (H2 & M2 & Hi2).
  destruct (moves_trans _ _ _ _ _ _ _ _ _ _ _ _ _ _ _ M1 M2) as (He & Hl & Ht & Hc & Hp & Hs).
  split_and!; try done. split_and!; cbn; try lia; done.
Qed.

Lemma timed_out_keeps f d f' r : process_deal_init_timed_out f d = Ok (f', r) → funds_inv f → funds_inv f'.
Proof.
  unfold process_deal_init_timed_out. intros H Hi. inv_ok. eauto using unlock_keeps, slash_keeps.
Qed.

Lemma expired_keeps f d st f' : process_deal_expired f d st = Ok f' → funds_inv f → funds_inv f'.
Proof. unfold process_deal_expired. intros H Hi. inv_ok. eauto using unlock_keeps. Qed.

Lemma update_deal_keeps f st d e f' r : update_pending_deal_state f st d e = Ok (f', r) → funds_inv f → funds_inv f'.
Proof.
  unfold update_pending_deal_state. intros H Hi. inv_ok; try done.
  all: eauto 8 using unlock_keeps, slash_keeps, expired_keeps, transfer_keeps.
Qed.

(** ** What a deal locks *)

(** A published proposal. *)
Definition deal_ok (d : DealProposal) : Prop :=
  0 ≤ start_epoch d < end_epoch d ∧ 0 ≤ storage_price_per_epoch d ∧ 0 ≤ provider_collateral d ∧ 0 ≤ client_collateral d.

(** The epoch up to which a deal is paid for, and the fee that is still locked. *)
Definition paid_until (d : DealProposal) (o : option DealState) : Z :=
  match o with
  | Some st => if negb (last_updated_epoch st =? EPOCH_UNDEFINED) && (start_epoch d <? last_updated_epoch st)
               then last_updated_epoch st else start_epoch d
  | None => start_epoch d
  end.
Definition fee_left (d : DealProposal) (o : option DealState) : Z :=
  storage_price_per_epoch d * (end_epoch d - paid_until d o).
(** What a deal needs locked at an address. *)
Definition obligation (d : DealProposal) (o : option DealState) (a : Address) : Z :=
  at_addr (client d) (client_collateral d + fee_left d o) a + at_addr (provider d) (provider_collateral d) a.

(** The state of an active deal at epoch [now]: updates and slashing lie within
    the term of the deal and before [now], and slashing not before the last
    update. *)
Definition state_ok (now : Z) (d : DealProposal) (st : DealState) : Prop :=
  sector_start_epoch st ≠ EPOCH_UNDEFINED ∧
  (last_updated_epoch st = EPOCH_UNDEFINED ∨
   start_epoch d ≤ last_updated_epoch st < end_epoch d ∧ last_updated_epoch st ≤ now) ∧
  (slash_epoch st = EPOCH_UNDEFINED ∨
   last_updated_epoch st ≤ slash_epoch st < end_epoch d ∧ slash_epoch st ≤ now).

Lemma fee_left_none d : fee_left d None = total_storage_fee d.
Proof. done. Qed.

Lemma paid_until_range now d st : deal_ok d → state_ok now d st → start_epoch d ≤ paid_until d (Some st) < end_epoch d.
Proof.
  intros [Hd _] (_ & Hu & _). unfold paid_until. case_if; [|lia]. reflect_bools.
  unfold EPOCH_UNDEFINED in *. destruct Hu; lia.
Qed.

Lemma obligation_nonneg d o a : deal_ok d → start_epoch d ≤ paid_until d o ≤ end_epoch d → 0 ≤ obligation d o a.
Proof.
  intros (_ & Hp & Hpc & Hcc) Hu. unfold obligation, fee_left, at_addr. repeat case_decide; nia.
Qed.

Ltac addr_cases := unfold at_addr in *; repeat case_decide; simplify_eq; try congruence; try lia.

Lemma timed_out_ok f d :
  deal_ok d → funds_inv f → (∀ a, obligation d None a ≤ locked f a) →
  ∃ f', process_deal_init_timed_out f d = Ok (f', provider_collateral d) ∧
    moves f f' (at_addr (provider d) (- provider_collateral d)) (λ a, - obligation d None a) (- provider_collateral d)
      (- client_collateral d) (- provider_collateral d) (- fee_left d None).
Proof.
  intros Hd Hi Ho. assert (Hfee : 0 ≤ total_storage_fee d).
  { destruct Hd as (? & ? & ? & ?). unfold total_storage_fee, duration. nia. }
  destruct Hd as (Hse & Hp & Hpc & Hcc).
  pose proof (Ho (client d)) as Hoc. pose proof (Ho (provider d)) as Hop. pose proof (Hi (provider d)) as Hip.
  unfold obligation in Hoc, Hop. rewrite fee_left_none in *.
  unfold process_deal_init_timed_out.
  destruct (unlock_ok f (client d) (total_storage_fee d) ClientStorageFee) as (f1 & -> & M1); [addr_cases|].
  pose proof M1 as (He1 & Hl1 & _). cbn.
  destruct (unlock_ok f1 (client d) (client_collateral d) ClientCollateral) as (f2 & -> & M2);
    [rewrite Hl1; addr_cases|]. pose proof M2 as (He2 & Hl2 & _). cbn.
  destruct (slash_ok f2 (provider d) (provider_collateral d) ProviderCollateral) as (f3 & Hs & M3).
  { rewrite Hl2, Hl1. addr_cases. }
  { rewrite He2, He1. addr_cases. }
  unfold collateral_penalty_for_deal_activation_missed, provider_balance_requirement. rewrite Hs.
  pose proof M3 as (He3 & Hl3 & _). cbn. rewrite Z.sub_diag.
  destruct (unlock_ok f3 (provider d) 0 ProviderCollateral) as (f4 & -> & M4).
  { rewrite Hl3, Hl2, Hl1. addr_cases. }
  exists f4. split; [done|].
  eapply moves_ext; [exact (moves_trans _ _ _ _ _ _ _ _ _ _ _ _ _ _ _ (moves_trans _ _ _ _ _ _ _ _ _ _ _ _ _ _ _
    (moves_trans _ _ _ _ _ _ _ _ _ _ _ _ _ _ _ M1 M2) M3) M4)|..]; cbn; try lia.
  all: intros a; unfold obligation, fee_left, total_storage_fee, duration, paid_until; addr_cases.
Qed.

Lemma pay_ok f d v :
  v ≤ locked f (client d) → funds_inv f →
  ∃ f', (if 0 <? v then transfer_balance f (client d) (provider d) v else mret f) = Ok f' ∧ funds_inv f' ∧
    moves f f' (λ x, at_addr (client d) (- Z.max 0 v) x + at_addr (provider d) (Z.max 0 v) x)
      (at_addr (client d) (- Z.max 0 v)) 0 0 0 (- Z.max 0 v).
Proof.
  intros Hv Hi. destruct (Z.ltb_spec 0 v).
  - destruct (transfer_ok f (client d) (provider d) v) as (f' & Ht & M); [lia|done|]. exists f'.
    rewrite Z.max_r by lia. split_and!; [done|by eapply transfer_keeps|done].
  - exists f. rewrite Z.max_l by lia. split_and!; [done|done|].
    eapply moves_ext; [apply moves_refl|..]; try lia; intros; addr_cases.
Qed.

(** The end of a deal: everything it locks is released, the provider's
    collateral is burnt if the deal was slashed. *)
Lemma slash_deal_ok f d st now :
  deal_ok d → state_ok now d st → slash_epoch st ≠ EPOCH_UNDEFINED → funds_inv f →
  (∀ a, at_addr (client d) (client_collateral d + storage_price_per_epoch d * (end_epoch d - Z.max (slash_epoch st) (start_epoch d))) a
        + at_addr (provider d) (provider_collateral d) a ≤ locked f a) →
  ∃ f', (payment_remaining ← deal_get_payment_remaining d (slash_epoch st);
         f ← unlock_balance f (client d) payment_remaining ClientStorageFee;
         f ← unlock_balance f (client d) (client_collateral d) ClientCollateral;
         f ← slash_balance f (provider d) (provider_collateral d) ProviderCollateral;
         mret (f, (provider_collateral d, EPOCH_UNDEFINED, true)))
        = Ok (f', (provider_collateral d, EPOCH_UNDEFINED, true)) ∧
    moves f f' (at_addr (provider d) (- provider_collateral d))
      (λ a, - (at_addr (client d) (client_collateral d + storage_price_per_epoch d * (end_epoch d - Z.max (slash_epoch st) (start_epoch d))) a
               + at_addr (provider d) (provider_collateral d) a))
      (- provider_collateral d) (- client_collateral d) (- provider_collateral d)
      (- (storage_price_per_epoch d * (end_epoch d - Z.max (slash_epoch st) (start_epoch d)))).
Proof.
  intros (Hse & Hp & Hpc & Hcc) (_ & _ & Hst) Hns Hi Ho. destruct Hst as [?|[Hs1 Hs2]]; [done|].
  set (rem := storage_price_per_epoch d * (end_epoch d - Z.max (slash_epoch st) (start_epoch d))) in *.
  assert (Hrem : 0 ≤ rem) by (unfold rem; nia).
  unfold deal_get_payment_remaining, throw_if. rewrite !(proj2 (Z.ltb_ge _ _)) by lia. cbn. fold rem.
  pose proof (Ho (client d)) as Hoc. pose proof (Ho (provider d)) as Hop. pose proof (Hi (provider d)) as Hip.
  destruct (unlock_ok f (client d) rem ClientStorageFee) as (f1 & -> & M1); [addr_cases|].
  pose proof M1 as (He1 & Hl1 & _). cbn.
  destruct (unlock_ok f1 (client d) (client_collateral d) ClientCollateral) as (f2 & -> & M2);
    [rewrite Hl1; addr_cases|]. pose proof M2 as (He2 & Hl2 & _). cbn.
  destruct (slash_ok f2 (provider d) (provider_collateral d) ProviderCollateral) as (f3 & -> & M3).
  { rewrite Hl2, Hl1. addr_cases. }
  { rewrite He2, He1. addr_cases. }
  exists f3. split; [done|].
  eapply moves_ext; [exact (moves_trans _ _ _ _ _ _ _ _ _ _ _ _ _ _ _
    (moves_trans _ _ _ _ _ _ _ _ _ _ _ _ _ _ _ M1 M2) M3)|..]; cbn; try lia.
  all: intros a; addr_cases.
Qed.

Lemma expire_deal_ok f d st now :
  deal_ok d → state_ok now d st → funds_inv f →
  (∀ a, at_addr (client d) (client_collateral d) a + at_addr (provider d) (provider_collateral d) a ≤ locked f a) →
  ∃ f', process_deal_expired f d st = Ok f' ∧
    moves f f' (λ _, 0) (λ a, - (at_addr (client d) (client_collateral d) a + at_addr (provider d) (provider_collateral d) a))
      0 (- client_collateral d) (- provider_collateral d) 0.
Proof.
  intros (Hse & Hp & Hpc & Hcc) (Hss & _) Hi Ho. unfold process_deal_expired, throw_if.
  rewrite (proj2 (Z.eqb_neq _ _) Hss). cbn.
  pose proof (Ho (client d)) as Hoc. pose proof (Ho (provider d)) as Hop.
  destruct (unlock_ok f (provider d) (provider_collateral d) ProviderCollateral) as (f1 & -> & M1); [addr_cases|].
  pose proof M1 as (He1 & Hl1 & _). cbn.
  destruct (unlock_ok f1 (client d) (client_collateral d) ClientCollateral) as (f2 & -> & M2); [rewrite Hl1; addr_cases|].
  exists f2. split; [done|]. eapply moves_ext; [exact (moves_trans _ _ _ _ _ _ _ _ _ _ _ _ _ _ _ M1 M2)|..]; cbn; try lia.
  all: intros a; addr_cases.
Qed.

Definition updated (st : DealState) (now : Z) : DealState :=
  {| sector_start_epoch := sector_start_epoch st; last_updated_epoch := now; slash_epoch := slash_epoch st |}.

(** An update at epoch [now] pays the provider for the epochs since the last
    one, up to the end of the deal or its slashing; a deal that is over leaves
    nothing locked, and one that goes on is paid up to [now]. *)
Definition update_effect (now : Z) (d : DealProposal) (st : DealState) (f f' : Funds) (slashed next : Z) (over : bool)
    (pay : Z) : Prop :=
  let dE := λ a, at_addr (client d) (- pay) a + at_addr (provider d) (pay - slashed) a in
  if over then
    next = EPOCH_UNDEFINED ∧ slashed = (if slash_epoch st =? EPOCH_UNDEFINED then 0 else provider_collateral d) ∧
    moves f f' dE (λ a, - obligation d (Some st) a) (- slashed)
      (- client_collateral d) (- provider_collateral d) (- fee_left d (Some st))
  else
    next = now + DEAL_UPDATES_INTERVAL ∧ slashed = 0 ∧ slash_epoch st = EPOCH_UNDEFINED ∧ now < end_epoch d ∧
    moves f f' dE (λ a, obligation d (Some (updated st now)) a - obligation d (Some st) a) 0
      0 0 (fee_left d (Some (updated st now)) - fee_left d (Some st)).

(** The payment up to slashing and the remaining fee are the locked fee. *)
Lemma slash_payment now d st :
  deal_ok d → state_ok now d st → slash_epoch st ≠ EPOCH_UNDEFINED →
  Z.max 0 (storage_price_per_epoch d * (slash_epoch st - paid_until d (Some st)))
  + storage_price_per_epoch d * (end_epoch d - Z.max (slash_epoch st) (start_epoch d)) = fee_left d (Some st).
Proof.
  intros (Hse & Hp & _) (_ & Hu & Hs) Hns. destruct Hs as [?|Hs]; [done|]. unfold fee_left, paid_until.
  unfold EPOCH_UNDEFINED in *. case_if; reflect_bools.
  - rewrite (Z.max_l (slash_epoch st)) by lia. rewrite Z.max_r by nia. nia.
  - assert (last_updated_epoch st ≤ start_epoch d) by (destruct E; reflect_bools; lia).
    destruct (Z.le_ge_cases (slash_epoch st) (start_epoch d)).
    + rewrite (Z.max_r (slash_epoch st)) by lia. rewrite Z.max_l by nia. lia.
    + rewrite (Z.max_l (slash_epoch st)) by lia. rewrite Z.max_r by nia. nia.
Qed.

Lemma update_deal_ok now f d st :
  deal_ok d → state_ok now d st → start_epoch d ≤ now → funds_inv f → (∀ a, obligation d (Some st) a ≤ locked f a) →
  ∃ f' slashed next over pay,
    update_pending_deal_state f st d now = Ok (f', (slashed, next, over)) ∧ 0 ≤ pay ∧
    update_effect now d st f f' slashed next over pay.
Proof.
  intros Hd Hst Hnow Hi Ho. pose proof (paid_until_range now d st Hd Hst) as Hpu.
  assert (Hfl : 0 ≤ fee_left d (Some st)) by (destruct Hd as (? & ? & ? & ?); unfold fee_left; nia).
  assert (Hcl : client_collateral d + fee_left d (Some st) ≤ locked f (client d)).
  { pose proof (Ho (client d)) as Hoc. destruct Hd as (? & ? & ? & ?). unfold obligation in Hoc. addr_cases. }
  unfold update_pending_deal_state. fold (paid_until d (Some st)). rewrite (proj2 (Z.ltb_ge _ _) Hnow).
  assert (Hg : throw_if (negb (last_updated_epoch st =? EPOCH_UNDEFINED) && (now <? last_updated_epoch st)) ErrIllegalState = Ok tt).
  { destruct Hst as (_ & [->|[? ?]] & _); [done|]. unfold throw_if. by rewrite (proj2 (Z.ltb_ge _ _)), andb_false_r by lia. }
  rewrite Hg. cbn [mbind result_bind]. unfold update_effect. destruct (Z.eqb_spec (slash_epoch st) EPOCH_UNDEFINED) as [Hs|Hs]; cbn [negb].
  - cbn [mbind result_bind mret result_ret].
    assert (Hpn : paid_until d (Some st) ≤ now).
    { destruct Hst as (_ & Hu & _). unfold paid_until, EPOCH_UNDEFINED in *. case_if; reflect_bools; lia. }
    set (v := storage_price_per_epoch d * (Z.min (end_epoch d) now - paid_until d (Some st))).
    assert (Hv : 0 ≤ v ≤ fee_left d (Some st)) by (destruct Hd as (? & ? & ? & ?); unfold v, fee_left; nia).
    destruct (pay_ok f d v) as (f1 & -> & Hi1 & M1); [destruct Hd as (? & ? & ? & ?); lia|done|].
    pose proof M1 as (_ & Hl1 & _). rewrite Z.max_r in * by lia. cbn [mbind result_bind].
    destruct (Z.leb_spec (end_epoch d) now).
    + assert (v = fee_left d (Some st)) by (unfold v, fee_left; rewrite Z.min_l by lia; done).
      destruct (expire_deal_ok f1 d st now Hd Hst Hi1) as (f2 & -> & M2).
      { intros a. rewrite Hl1. specialize (Ho a). unfold obligation in Ho. addr_cases. }
      exists f2, 0, EPOCH_UNDEFINED, true, v. split_and!; try done; [lia|].
      eapply moves_ext; [exact (moves_trans _ _ _ _ _ _ _ _ _ _ _ _ _ _ _ M1 M2)|..]; cbn; try lia.
      all: intros a; unfold obligation; addr_cases.
    + assert (Hv' : v = fee_left d (Some st) - fee_left d (Some (updated st now))).
      { unfold v, fee_left. rewrite Z.min_r by lia. assert (paid_until d (Some (updated st now)) = now) as ->; [|lia].
        destruct Hd as ([? ?] & _). unfold paid_until, EPOCH_UNDEFINED. cbn. case_if; [done|]. destruct E; reflect_bools; lia. }
      exists f1, 0, (now + DEAL_UPDATES_INTERVAL), false, v. split_and!; try done; [lia|].
      eapply moves_ext; [exact M1|..]; try lia. all: intros a; unfold obligation; addr_cases.
  - pose proof (slash_payment now d st Hd Hst Hs) as Hsp.
    assert (Hsl : slash_epoch st < end_epoch d ∧ slash_epoch st ≤ now) by (destruct Hst as (_ & _ & [?|?]); [done|lia]).
    unfold throw_if. rewrite !(proj2 (Z.ltb_ge _ _)) by lia. cbn [mbind result_bind mret result_ret].
    set (v := storage_price_per_epoch d * (slash_epoch st - paid_until d (Some st))) in *.
    assert (Hv : v ≤ fee_left d (Some st)) by (destruct Hd as (? & ? & ? & ?); unfold v, fee_left; nia).
    destruct (pay_ok f d v) as (f1 & -> & Hi1 & M1); [destruct Hd as (? & ? & ? & ?); lia|done|].
    pose proof M1 as (_ & Hl1 & _). cbn [mbind result_bind].
    destruct (slash_deal_ok f1 d st now Hd Hst Hs Hi1) as (f2 & -> & M2).
    { intros a. rewrite Hl1. specialize (Ho a). unfold obligation in Ho. addr_cases. }
    exists f2, (provider_collateral d), EPOCH_UNDEFINED, true, (Z.max 0 v). split_and!; try done; [lia|].
    eapply moves_ext; [exact (moves_trans _ _ _ _ _ _ _ _ _ _ _ _ _ _ _ M1 M2)|..]; cbn; try lia.
    all: intros a; unfold obligation; addr_cases.
Qed.
