(* ===== verification/Market.v ===== *)
(** * The storage market actor

    [src/vm/actor/src/builtin/market/{mod,state,types}.rs]: balances in escrow,
    publishing, activating and terminating deals, and the cron tick that pays,
    slashes and cleans up.  The AMTs, HAMTs and set multimaps of the state are
    the finite maps and sets they implement; [MarketStateMutation], which loads
    the parts of the state a method declares and stores those it may write, is
    the state itself.  [Funds] has the tables of balances. *)

From S2P Require Import Prelude Address Runtime Types Smooth Reward Verifreg Power Funds.

(** ** [state.rs] and [types.rs] *)

Record MarketState := {
  proposals : gmap Z DealProposal; states : gmap Z DealState; pending_proposals : gset bytes;
  funds : Funds; mk_next_id : Z; deal_ops_by_epoch : gmap Z (gset Z); last_cron : Z }.

Definition market_state_new : MarketState :=
  {| proposals := ∅; states := ∅; pending_proposals := ∅; funds := funds_new; mk_next_id := 0;
     deal_ops_by_epoch := ∅; last_cron := EPOCH_UNDEFINED |}.

Definition set_funds (s : MarketState) (f : Funds) : MarketState :=
  {| proposals := proposals s; states := states s; pending_proposals := pending_proposals s; funds := f;
     mk_next_id := mk_next_id s; deal_ops_by_epoch := deal_ops_by_epoch s; last_cron := last_cron s |}.
Definition set_deals (s : MarketState) (ps : gmap Z DealProposal) (sts : gmap Z DealState) (pend : gset bytes) : MarketState :=
  {| proposals := ps; states := sts; pending_proposals := pend; funds := funds s;
     mk_next_id := mk_next_id s; deal_ops_by_epoch := deal_ops_by_epoch s; last_cron := last_cron s |}.
Definition set_ops (s : MarketState) (ops : gmap Z (gset Z)) (next last : Z) : MarketState :=
  {| proposals := proposals s; states := states s; pending_proposals := pending_proposals s; funds := funds s;
     mk_next_id := next; deal_ops_by_epoch := ops; last_cron := last |}.

Record WithdrawBalanceParams := { provider_or_client : Address; wb_amount : Z }.
Record WithdrawBalanceReturn := { amount_withdrawn : Z }.
Record OnMinerSectorsTerminateParams := { mt_epoch : Z; mt_deal_ids : list Z }.
Record PublishStorageDealsParams := { deals : list ClientDealProposal }.
(** The bit field of valid deals as the list of its bits. *)
Record PublishStorageDealsReturn := { ps_ids : list Z; ps_valid_deals : list Z }.
Record SectorDeals := { sector_expiry : Z; sd_deal_ids : list Z }.
Record VerifyDealsForActivationParams := { vd_sectors : list SectorDeals }.
Record SectorWeights := { deal_space : Z; sw_deal_weight : Z; verified_deal_weight : Z }.
Record VerifyDealsForActivationReturn := { vr_sectors : list SectorWeights }.
Record ActivateDealsParams := { ad_deal_ids : list Z; ad_sector_expiry : Z }.
Record SectorDataSpec := { ds_deal_ids : list Z; sector_type : RegisteredSealProof }.
Record ComputeDataCommitmentParams := { cd_inputs : list SectorDataSpec }.
Record ComputeDataCommitmentReturn := { commds : list bytes }.
Record GetControlAddressesReturn := { ca_owner : Address; ca_worker : Address; ca_control_addresses : list Address }.
Definition CONTROL_ADDRESSES : Z := 2.

(** [get] and [set] of an AMT fail beyond its largest index. *)
Definition AMT_MAX_INDEX : Z := usize_max - 1.
Definition amt_lookup {V} (m : gmap Z V) (i : Z) : result ExitCode (option V) :=
  _ ← throw_if (AMT_MAX_INDEX <? i) ErrIllegalState; mret (m !! i).
Definition amt_insert {V} (m : gmap Z V) (i : Z) (v : V) : result ExitCode (gmap Z V) :=
  _ ← throw_if (AMT_MAX_INDEX <? i) ErrIllegalState; mret (<[i := v]> m).
(** [delete] of a [Set] whose result must be [Some]: an absent key is an error
    or a panic. *)
Definition set_delete (absent_ok : gset bytes → bytes → bool) (X : gset bytes) (k : bytes) : result ExitCode (gset bytes) :=
  if decide (k ∈ X) then Ok (X ∖ {[k]})
  else if absent_ok X k then Err ErrIllegalState else Err SysErrActorPanic.

(** [as i64] of a 64-bit number. *)
Definition as_i64 (z : Z) : Z := if i64_max <? z then z - 2 ^ 64 else z.

Definition gen_rand_next_epoch (start_epoch deal_id : Z) : Z :=
  let offset := Z.rem (as_i64 deal_id) DEAL_UPDATES_INTERVAL in
  let q := {| q_unit := DEAL_UPDATES_INTERVAL; q_offset := 0 |} in
  let prev_day := quantize_down q start_epoch in
  if start_epoch <=? prev_day + offset then prev_day + offset
  else quantize_up q start_epoch + offset.

(** [SetMultimap::put] and [put_many]. *)
Definition ops_put (ops : gmap Z (gset Z)) (epoch : Z) (ids : list Z) : gmap Z (gset Z) :=
  <[epoch := default ∅ (ops !! epoch) ∪ list_to_set ids]> ops.

(** ** Activation *)

Definition validate_deal_can_activate (d : DealProposal) (miner_addr : Address) (sector_expiration curr_epoch : Z)
    : result ExitCode unit :=
  _ ← throw_if (negb (bool_decide (provider d = miner_addr))) ErrForbidden;
  _ ← throw_if (start_epoch d <? curr_epoch) ErrIllegalArgument;
  throw_if (sector_expiration <? end_epoch d) ErrIllegalArgument.

(** The sum of sizes is a 64-bit number and wraps around. *)
Fixpoint deal_weights (ps : gmap Z DealProposal) (deal_ids : list Z) (miner_addr : Address) (sector_expiry sector_activation : Z)
    (seen : list Z) (total_deal_space_time total_verified_space_time total_deal_space : Z) : result ExitCode (Z * Z * Z) :=
  match deal_ids with
  | [] => mret (total_deal_space_time, total_verified_space_time, total_deal_space)
  | deal_id :: l =>
      _ ← throw_if (bool_decide (deal_id ∈ seen)) ErrIllegalArgument;
      o ← amt_lookup ps deal_id;
      d ← ok_or o ErrNotFound;
      _ ← validate_deal_can_activate d miner_addr sector_expiry sector_activation;
      let space := wrap_u64 (total_deal_space + piece_size d) in
      let w := deal_weight d in
      if verified_deal d then
        deal_weights ps l miner_addr sector_expiry sector_activation (deal_id :: seen)
          total_deal_space_time (total_verified_space_time + w) space
      else
        deal_weights ps l miner_addr sector_expiry sector_activation (deal_id :: seen)
          (total_deal_space_time + w) total_verified_space_time space
  end.
Definition validate_and_compute_deal_weight (ps : gmap Z DealProposal) (deal_ids : list Z) (miner_addr : Address)
    (sector_expiry sector_activation : Z) : result ExitCode (Z * Z * Z) :=
  deal_weights ps deal_ids miner_addr sector_expiry sector_activation [] 0 0 0.

(** ** What the methods do to the state *)

Section state.
Context (cid : DealProposal → bytes).
(** Whether deleting an absent key of the HAMT returns or panics, and the order
    in which a set is iterated. *)
Context (absent_ok : gset bytes → bytes → bool) (absent_ops_ok : gmap Z (gset Z) → Z → bool) (set_order : gset Z → list Z).

Definition add_escrow (s : MarketState) (nominal : Address) (value : Z) : result ExitCode MarketState :=
  t ← bt_add (escrow_table (funds s)) nominal value;
  mret (set_funds s (set_escrow (funds s) t)).

Definition take_escrow (s : MarketState) (nominal : Address) (amount : Z) : result ExitCode (MarketState * Z) :=
  let min_balance := bt_get (locked_table (funds s)) nominal in
  '(t, ex) ← subtract_with_minimum (escrow_table (funds s)) nominal amount min_balance;
  mret (set_funds s (set_escrow (funds s) t), ex).

(** One deal of the transaction that publishes. *)
Definition add_deal (acc : MarketState * list Z) (d : DealProposal) : result ExitCode (MarketState * list Z) :=
  let '(s, new_deal_ids) := acc in
  f ← lock_client_and_provider_balances (funds s) d;
  let id := mk_next_id s in
  ps ← amt_insert (proposals s) id d;
  let process_epoch := gen_rand_next_epoch (start_epoch d) id in
  let s := set_funds (set_deals s ps (states s) ({[cid d]} ∪ pending_proposals s)) f in
  mret (set_ops s (ops_put (deal_ops_by_epoch s) process_epoch [id]) (id + 1) (last_cron s), new_deal_ids ++ [id]).
Definition add_deals (s : MarketState) (ds : list DealProposal) : result ExitCode (MarketState * list Z) :=
  try_fold add_deal (s, []) ds.

Definition activate_deal (curr_epoch : Z) (s : MarketState) (deal_id : Z) : result ExitCode MarketState :=
  o ← amt_lookup (states s) deal_id;
  _ ← throw_if (match o with Some _ => true | None => false end) ErrIllegalArgument;
  o ← amt_lookup (proposals s) deal_id;
  d ← ok_or o ErrNotFound;
  _ ← throw_if (negb (bool_decide (cid d ∈ pending_proposals s))) ErrIllegalState;
  sts ← amt_insert (states s) deal_id
    {| sector_start_epoch := curr_epoch; last_updated_epoch := EPOCH_UNDEFINED; slash_epoch := EPOCH_UNDEFINED |};
  mret (set_deals s (proposals s) sts (pending_proposals s)).
Definition activate (s : MarketState) (deal_ids : list Z) (miner_addr : Address) (sector_expiry curr_epoch : Z)
    : result ExitCode MarketState :=
  _ ← validate_and_compute_deal_weight (proposals s) deal_ids miner_addr sector_expiry curr_epoch;
  try_fold (activate_deal curr_epoch) s deal_ids.

Definition terminate_deal (miner_addr : Address) (epoch : Z) (s : MarketState) (id : Z) : result ExitCode MarketState :=
  o ← amt_lookup (proposals s) id;
  match o with
  | None => mret s
  | Some d =>
      _ ← throw_if (negb (bool_decide (provider d = miner_addr))) ErrIllegalState;
      if end_epoch d <=? epoch then mret s
      else
        o ← amt_lookup (states s) id;
        st ← ok_or o ErrIllegalArgument;
        if negb (slash_epoch st =? EPOCH_UNDEFINED) then mret s
        else
          sts ← amt_insert (states s) id
            {| sector_start_epoch := sector_start_epoch st; last_updated_epoch := last_updated_epoch st; slash_epoch := epoch |};
          mret (set_deals s (proposals s) sts (pending_proposals s))
  end.
Definition terminate (s : MarketState) (miner_addr : Address) (epoch : Z) (deal_ids : list Z) : result ExitCode MarketState :=
  try_fold (terminate_deal miner_addr epoch) s deal_ids.

(** *** The cron tick *)

Record CronAcc := {
  ca_state : MarketState; amount_slashed : Z; timed_out_verified_deals : list DealProposal;
  updates_needed : gmap Z (list Z) }.

Definition cron_deal (curr_epoch : Z) (acc : CronAcc) (deal_id : Z) : result ExitCode CronAcc :=
  let s := ca_state acc in
  o ← amt_lookup (proposals s) deal_id;
  deal ← ok_or o ErrNotFound;
  let dcid := cid deal in
  o ← amt_lookup (states s) deal_id;
  match o with
  | None =>
      _ ← throw_if (curr_epoch <? start_epoch deal) ErrIllegalState;
      '(f, slashed) ← process_deal_init_timed_out (funds s) deal;
      pend ← set_delete absent_ok (pending_proposals s) dcid;
      mret {| ca_state := set_funds (set_deals s (delete deal_id (proposals s)) (states s) pend) f;
              amount_slashed := amount_slashed acc + slashed;
              timed_out_verified_deals :=
                if verified_deal deal then timed_out_verified_deals acc ++ [deal] else timed_out_verified_deals acc;
              updates_needed := updates_needed acc |}
  | Some state =>
      pend ← (if last_updated_epoch state =? EPOCH_UNDEFINED then set_delete absent_ok (pending_proposals s) dcid
              else mret (pending_proposals s));
      '(f, r) ← update_pending_deal_state (funds s) state deal curr_epoch;
      let '(slash_amount, next_epoch, remove_deal) := (r : Z * Z * bool) in
      _ ← throw_if (slash_amount <? 0) ErrIllegalState;
      if remove_deal then
        _ ← throw_if (negb (next_epoch =? EPOCH_UNDEFINED)) ErrIllegalState;
        mret {| ca_state := set_funds (set_deals s (delete deal_id (proposals s)) (delete deal_id (states s)) pend) f;
                amount_slashed := amount_slashed acc + slash_amount;
                timed_out_verified_deals := timed_out_verified_deals acc; updates_needed := updates_needed acc |}
      else
        _ ← throw_if (next_epoch <=? curr_epoch) ErrIllegalState;
        _ ← throw_if (negb (slash_amount =? 0)) ErrIllegalState;
        sts ← amt_insert (states s) deal_id
          {| sector_start_epoch := sector_start_epoch state; last_updated_epoch := curr_epoch; slash_epoch := slash_epoch state |};
        mret {| ca_state := set_funds (set_deals s (proposals s) sts pend) f;
                amount_slashed := amount_slashed acc; timed_out_verified_deals := timed_out_verified_deals acc;
                updates_needed := <[next_epoch := default [] (updates_needed acc !! next_epoch) ++ [deal_id]]> (updates_needed acc) |}
  end.

(** The deals of one epoch, then the removal of its entry. *)
Definition cron_epoch (curr_epoch : Z) (acc : CronAcc) (i : Z) : result ExitCode CronAcc :=
  let deal_ids := set_order (default ∅ (deal_ops_by_epoch (ca_state acc) !! i)) in
  acc ← try_fold (cron_deal curr_epoch) acc deal_ids;
  let s := ca_state acc in
  let ops := deal_ops_by_epoch s in
  _ ← throw_if (match ops !! i with Some _ => false | None => negb (absent_ops_ok ops i) end) SysErrActorPanic;
  mret {| ca_state := set_ops s (delete i ops) (mk_next_id s) (last_cron s); amount_slashed := amount_slashed acc;
          timed_out_verified_deals := timed_out_verified_deals acc; updates_needed := updates_needed acc |}.

Definition cron_deals (s : MarketState) (curr_epoch : Z) : result ExitCode (MarketState * (Z * list DealProposal)) :=
  acc ← try_fold (cron_epoch curr_epoch)
    {| ca_state := s; amount_slashed := 0; timed_out_verified_deals := []; updates_needed := ∅ |}
    (seqZ (last_cron s + 1) (curr_epoch - last_cron s));
  let s := ca_state acc in
  let changed_epochs := merge_sort Z.le (elements (dom (updates_needed acc) : gset Z)) in
  let ops := fold_left (λ ops epoch, ops_put ops epoch (default [] (updates_needed acc !! epoch)))
               changed_epochs (deal_ops_by_epoch s) in
  mret (set_ops s ops (mk_next_id s) curr_epoch, (amount_slashed acc, timed_out_verified_deals acc)).

End state.

(** ** [mod.rs]: the methods *)

Section market.
Context {U : Type} `{!StateIn MarketState U}.
Context `{!Dec GetControlAddressesReturn, !Dec ThisEpochRewardReturn, !Dec CurrentTotalPowerReturn}.
Context `{!Enc BytesParams, !Enc DealProposal, !Enc (list (bytes * Z))}.
Context (cid : DealProposal → bytes) (piece_prefix_ok : bytes → bool).
Context (absent_ok : gset bytes → bytes → bool) (absent_ops_ok : gmap Z (gset Z) → Z → bool) (set_order : gset Z → list Z).
Context (rt : Ctx).

Definition request_miner_control_addrs (miner_addr : Address) : Prog U (Address * Address * list Address) :=
  ret ← send_ miner_addr CONTROL_ADDRESSES [] 0;
  addrs ← unwrap_or_abort (dec ret) ErrSerialization;
  mret (ca_owner addrs, ca_worker addrs, ca_control_addresses addrs).

Definition escrow_address (addr : Address) : Prog U (Address * Address * list Address) :=
  nominal ← resolve_address addr;
  nominal ← unwrap_or_abort nominal ErrIllegalArgument;
  code_id ← get_actor_code_cid nominal;
  code_id ← unwrap_or_abort code_id ErrIllegalArgument;
  if decide (code_id = MINER_ACTOR_CODE_ID) then
    '(owner_addr, worker_addr, _) ← request_miner_control_addrs nominal;
    mret (nominal, owner_addr, [owner_addr; worker_addr])
  else mret (nominal, nominal, [nominal]).

Definition request_current_baseline_power : Prog U Z :=
  rwret ← send_ REWARD_ACTOR_ADDR 3 [] 0;
  ret ← unwrap_or_abort (dec rwret) ErrSerialization;
  mret (er_baseline_power ret).
Definition request_current_network_power : Prog U (Z * Z) :=
  rwret ← send_ STORAGE_POWER_ACTOR_ADDR 9 [] 0;
  ret ← unwrap_or_abort (dec rwret) ErrSerialization;
  mret (tp_raw_byte_power ret, tp_quality_adj_power ret).

Definition market_constructor : Prog U unit :=
  _ ← validate_immediate_caller_is [SYSTEM_ACTOR_ADDR];
  create market_state_new.

Definition add_balance (provider_or_client : Address) : Prog U unit :=
  let msg_value := value_received rt in
  _ ← abort_if (msg_value <=? 0) ErrIllegalArgument;
  _ ← validate_immediate_caller_type CALLER_TYPES_SIGNABLE;
  '(nominal, _, _) ← escrow_address provider_or_client;
  transaction (λ st : MarketState, st ← of_code (add_escrow st nominal msg_value); mret (st, tt)).

Definition withdraw_balance (params : WithdrawBalanceParams) : Prog U WithdrawBalanceReturn :=
  _ ← abort_if (wb_amount params <? 0) ErrIllegalArgument;
  '(nominal, recipient, approved) ← escrow_address (provider_or_client params);
  _ ← validate_immediate_caller_is approved;
  amount_extracted ← transaction (λ st : MarketState, of_code (take_escrow st nominal (wb_amount params)));
  _ ← send_ recipient METHOD_SEND [] amount_extracted;
  mret {| amount_withdrawn := amount_extracted |}.

(** The checks of [validate_deal] that need no call. *)
Definition deal_terms_ok (d : DealProposal) : bool :=
  (Z.of_nat (length (label d)) <=? DEAL_MAX_LABEL_SIZE)
  && is_ok (padded_validate (piece_size d))
  && piece_prefix_ok (piece_cid d)
  && (start_epoch d <? end_epoch d)
  && (curr_epoch rt <=? start_epoch d)
  && (let '(min_dur, max_dur) := deal_duration_bounds (piece_size d) in
      (min_dur <=? duration d) && (duration d <=? max_dur))
  && (let '(min_price, max_price) := deal_price_per_epoch_bounds (piece_size d) (duration d) in
      (min_price <=? storage_price_per_epoch d) && (storage_price_per_epoch d <=? max_price)).
Definition deal_collateral_ok (d : DealProposal) (network_raw_power baseline_power supply : Z) : bool :=
  (let '(min_pc, max_pc) := deal_provider_collateral_bounds (piece_size d) network_raw_power baseline_power supply in
   (min_pc <=? provider_collateral d) && (provider_collateral d <=? max_pc))
  && (let '(min_cc, max_cc) := deal_client_collateral_bounds (piece_size d) (duration d) in
      (min_cc <=? client_collateral d) && (client_collateral d <=? max_cc)).

(** Whether a deal is valid.  A failure to compute the circulating supply, which
    only makes the deal invalid in the source, ends the method. *)
Definition validate_deal (deal : ClientDealProposal) (network_raw_power baseline_power : Z) : Prog U bool :=
  let d := proposal deal in
  sig ← syscall (VerifySignature (client_signature deal) (client d) (enc d));
  match sig with
  | None => mret false
  | Some _ =>
      if deal_terms_ok d then
        supply ← total_fil_circ_supply;
        mret (deal_collateral_ok d network_raw_power baseline_power supply)
      else mret false
  end.

Record PubAcc := {
  pa_lookup : gset bytes; pa_deals : list DealProposal; pa_client_lockup : gmap Address Z;
  pa_provider_lockup : Z; pa_bits : list Z }.

Definition with_addrs (d : DealProposal) (prov cl : Address) : DealProposal :=
  {| piece_cid := piece_cid d; piece_size := piece_size d; verified_deal := verified_deal d; client := cl;
     provider := prov; label := label d; start_epoch := start_epoch d; end_epoch := end_epoch d;
     storage_price_per_epoch := storage_price_per_epoch d; provider_collateral := provider_collateral d;
     client_collateral := client_collateral d |}.

(** The loop that drops invalid deals, on the state [st] that was read before
    it; the amounts a client and the provider would have to lock add up also
    over deals that are dropped later. *)
Fixpoint filter_deals (st : MarketState) (prov provider_raw : Address) (network_raw_power baseline_power : Z)
    (di : Z) (ds : list ClientDealProposal) (acc : PubAcc) : Prog U PubAcc :=
  match ds with
  | [] => mret acc
  | deal :: ds =>
      let continue acc := filter_deals st prov provider_raw network_raw_power baseline_power (di + 1) ds acc in
      let d := proposal deal in
      valid ← validate_deal deal network_raw_power baseline_power;
      if negb valid then continue acc
      else if negb (bool_decide (provider d = prov)) && negb (bool_decide (provider d = provider_raw)) then continue acc
      else
        cl ← resolve_address (client d);
        match cl with
        | None => continue acc
        | Some cl =>
            let lockup := default 0 (pa_client_lockup acc !! cl) + client_balance_requirement d in
            let acc := {| pa_lookup := pa_lookup acc; pa_deals := pa_deals acc;
                          pa_client_lockup := <[cl := lockup]> (pa_client_lockup acc);
                          pa_provider_lockup := pa_provider_lockup acc; pa_bits := pa_bits acc |} in
            if negb (balance_covered (funds st) cl lockup) then continue acc
            else
              let prov_lockup := pa_provider_lockup acc + provider_collateral d in
              let acc := {| pa_lookup := pa_lookup acc; pa_deals := pa_deals acc;
                            pa_client_lockup := pa_client_lockup acc; pa_provider_lockup := prov_lockup;
                            pa_bits := pa_bits acc |} in
              if negb (balance_covered (funds st) prov prov_lockup) then continue acc
              else
                let d := with_addrs d prov cl in
                let pcid := cid d in
                if bool_decide (pcid ∈ pending_proposals st) || bool_decide (pcid ∈ pa_lookup acc) then continue acc
                else
                  res ← (if verified_deal d then
                           send VERIFIED_REGISTRY_ACTOR_ADDR 5 (enc {| bp_address := cl; bp_deal_size := piece_size d |}) 0
                         else mret (Ok []));
                  match res with
                  | Err _ => continue acc
                  | Ok _ =>
                      continue {| pa_lookup := {[pcid]} ∪ pa_lookup acc; pa_deals := pa_deals acc ++ [d];
                                  pa_client_lockup := pa_client_lockup acc;
                                  pa_provider_lockup := pa_provider_lockup acc; pa_bits := pa_bits acc ++ [di] |}
                  end
        end
  end.

Definition publish_storage_deals (params : PublishStorageDealsParams) : Prog U PublishStorageDealsReturn :=
  _ ← validate_immediate_caller_type CALLER_TYPES_SIGNABLE;
  match deals params with
  | [] => abort ErrIllegalArgument
  | d0 :: _ =>
      let provider_raw := provider (proposal d0) in
      prov ← resolve_address provider_raw;
      prov ← unwrap_or_abort prov ErrNotFound;
      code_id ← get_actor_code_cid prov;
      code_id ← unwrap_or_abort code_id ErrIllegalArgument;
      _ ← abort_if (negb (bool_decide (code_id = MINER_ACTOR_CODE_ID))) ErrIllegalArgument;
      '(_, worker, controllers) ← request_miner_control_addrs prov;
      _ ← abort_if (negb (bool_decide (caller rt = worker) || existsb (λ c, bool_decide (caller rt = c)) controllers)) ErrForbidden;
      baseline_power ← request_current_baseline_power;
      '(network_raw_power, _) ← request_current_network_power;
      st ← get_state;
      acc ← filter_deals st prov provider_raw network_raw_power baseline_power 0 (deals params)
        {| pa_lookup := ∅; pa_deals := []; pa_client_lockup := ∅; pa_provider_lockup := 0; pa_bits := [] |};
      _ ← abort_if (bool_decide (pa_bits acc = [])) ErrIllegalArgument;
      new_deal_ids ← transaction (λ st : MarketState, of_code (add_deals cid st (pa_deals acc)));
      mret {| ps_ids := new_deal_ids; ps_valid_deals := pa_bits acc |}
  end.

Definition verify_deals_for_activation (params : VerifyDealsForActivationParams) : Prog U VerifyDealsForActivationReturn :=
  _ ← validate_immediate_caller_type [MINER_ACTOR_CODE_ID];
  st ← get_state;
  weights ← of_code (try_fold (λ (ws : list SectorWeights) sector,
      '(w, vw, space) ← validate_and_compute_deal_weight (proposals st) (sd_deal_ids sector) (caller rt)
                          (sector_expiry sector) (curr_epoch rt);
      mret (ws ++ [{| deal_space := space; sw_deal_weight := w; verified_deal_weight := vw |}])) [] (vd_sectors params));
  mret {| vr_sectors := weights |}.

Definition activate_deals (params : ActivateDealsParams) : Prog U unit :=
  _ ← validate_immediate_caller_type [MINER_ACTOR_CODE_ID];
  transaction (λ st : MarketState,
    st ← of_code (activate cid st (ad_deal_ids params) (caller rt) (ad_sector_expiry params) (curr_epoch rt));
    mret (st, tt)).

Definition on_miner_sectors_terminate (params : OnMinerSectorsTerminateParams) : Prog U unit :=
  _ ← validate_immediate_caller_type [MINER_ACTOR_CODE_ID];
  transaction (λ st : MarketState,
    st ← of_code (terminate st (caller rt) (mt_epoch params) (mt_deal_ids params));
    mret (st, tt)).

(** The pieces of the deals of one input. *)
Definition deal_pieces (ps : gmap Z DealProposal) (deal_ids : list Z) : result ExitCode (list (bytes * Z)) :=
  try_fold (λ (pieces : list (bytes * Z)) deal_id,
    o ← amt_lookup ps deal_id;
    d ← ok_or o ErrNotFound;
    mret (pieces ++ [(piece_cid d, piece_size d)])) [] deal_ids.
Fixpoint data_commitments (ps : gmap Z DealProposal) (inputs : list SectorDataSpec) (cs : list bytes) : Prog U (list bytes) :=
  match inputs with
  | [] => mret cs
  | i :: l =>
      pieces ← of_code (deal_pieces ps (ds_deal_ids i));
      commd ← syscall (ComputeUnsealedSectorCid (seal_to_i64 (sector_type i)) (enc pieces));
      commd ← unwrap_or_abort commd ErrIllegalArgument;
      data_commitments ps l (cs ++ [commd])
  end.
Definition compute_data_commitment (params : ComputeDataCommitmentParams) : Prog U ComputeDataCommitmentReturn :=
  _ ← validate_immediate_caller_type [MINER_ACTOR_CODE_ID];
  st ← get_state;
  cs ← data_commitments (proposals st) (cd_inputs params) [];
  mret {| commds := cs |}.

Fixpoint restore_all (ds : list DealProposal) : Prog U unit :=
  match ds with
  | [] => mret tt
  | d :: ds =>
      _ ← send VERIFIED_REGISTRY_ACTOR_ADDR 6 (enc {| bp_address := client d; bp_deal_size := piece_size d |}) 0;
      restore_all ds
  end.
Definition cron_tick : Prog U unit :=
  _ ← validate_immediate_caller_is [CRON_ACTOR_ADDR];
  '(amount_slashed, timed_out) ← transaction (λ st : MarketState,
    of_code (cron_deals cid absent_ok absent_ops_ok set_order st (curr_epoch rt)));
  _ ← restore_all timed_out;
  if negb (amount_slashed =? 0) then
    _ ← send_ BURNT_FUNDS_ACTOR_ADDR METHOD_SEND [] amount_slashed; mret tt
  else mret tt.

Context `{!Dec Address, !Dec WithdrawBalanceParams, !Enc WithdrawBalanceReturn, !Dec PublishStorageDealsParams}.
Context `{!Enc PublishStorageDealsReturn, !Dec VerifyDealsForActivationParams, !Enc VerifyDealsForActivationReturn}.
Context `{!Dec ActivateDealsParams, !Dec OnMinerSectorsTerminateParams, !Dec ComputeDataCommitmentParams}.
Context `{!Enc ComputeDataCommitmentReturn}.

Definition market_invoke_method (method : Z) (params : bytes) : Prog U bytes :=
  match method with
  | 1 => _ ← market_constructor; mret []
  | 2 => call_unit params add_balance
  | 3 => call_ret params withdraw_balance
  | 4 => call_ret params publish_storage_deals
  | 5 => call_ret params verify_deals_for_activation
  | 6 => call_unit params activate_deals
  | 7 => call_unit params on_miner_sectors_terminate
  | 8 => call_ret params compute_data_commitment
  | 9 => _ ← cron_tick; mret []
  | _ => invalid_method
  end.

End market.

(** ** The invariant *)

(** Balances cover what is locked, ids are new, and, as [state.rs] says, only
    proposals have states. *)
Definition market_inv (s : MarketState) : Prop :=
  funds_inv (funds s) ∧ map_Forall (λ id _, id < mk_next_id s) (proposals s) ∧
  (∀ id st, states s !! id = Some st → is_Some (proposals s !! id)).

Lemma market_new_inv : market_inv market_state_new.
Proof. split_and!; [by intros a|apply map_Forall_empty|]. intros id st. cbn. by rewrite lookup_empty. Qed.

Lemma add_escrow_spec s a v s' :
  add_escrow s a v = Ok s' → funds_inv (funds s) → 0 ≤ v →
  s' = set_funds s (funds s') ∧ funds_inv (funds s') ∧ locked_table (funds s') = locked_table (funds s) ∧
  moves (funds s) (funds s') (at_addr a v) (λ _, 0) v 0 0 0.
Proof.
  intros H Hi Hv. unfold add_escrow in H. inv_ok. cbn.
  destruct (bt_add_ok (escrow_table (funds s)) a v) as (t & Ht & Hg & Hs); [pose proof (Hi a); lia|].
  rewrite Hm in Ht. injection Ht as ->. split_and!; try done.
  - intros b. cbn. rewrite Hg. pose proof (Hi b). unfold at_addr. case_decide; lia.
  - split_and!; cbn; try lia; done || (intros; lia).
Qed.

Lemma take_escrow_spec s a v s' ex :
  take_escrow s a v = Ok (s', ex) → funds_inv (funds s) → 0 ≤ v →
  s' = set_funds s (funds s') ∧ funds_inv (funds s') ∧
  ex = Z.min v (bt_get (escrow_table (funds s)) a - bt_get (locked_table (funds s)) a) ∧
  moves (funds s) (funds s') (at_addr a (- ex)) (λ _, 0) (- ex) 0 0 0.
Proof.
  intros H Hi Hv. pose proof (Hi a) as Ha. unfold take_escrow, subtract_with_minimum in H.
  set (sub := Z.min _ v) in H. assert (Hsub : 0 ≤ sub ≤ bt_get (escrow_table (funds s)) a - bt_get (locked_table (funds s)) a ∧
    sub = Z.min v (bt_get (escrow_table (funds s)) a - bt_get (locked_table (funds s)) a)) by lia.
  destruct (Z.ltb_spec 0 sub); inv_ok; cbn.
  - destruct (bt_add_ok (escrow_table (funds s)) a (- sub)) as (t & Ht & Hg & Hs); [lia|].
    match goal with Hb : bt_add _ _ _ = Ok _ |- _ => rewrite Hb in Ht; injection Ht as -> end.
    split_and!; try done; [|lia|].
    + intros b. cbn. rewrite Hg. pose proof (Hi b). unfold at_addr. case_decide; subst; lia.
    + split_and!; cbn; try lia; done || (intros; lia).
  - assert (sub = 0) as -> by lia. split_and!; try done; [lia|].
    split_and!; cbn; try lia; intros; unfold at_addr; try case_decide; lia.
Qed.

(** [inv_ok] also through the tuples of the cron tick. *)
Ltac inv_tuples :=
  repeat first [progress inv_ok
    | match goal with H : match ?x with pair _ _ => _ end = Ok _ |- _ => is_var x; destruct x end].

Section safety_state.
Context (cid : DealProposal → bytes).
Context (absent_ok : gset bytes → bytes → bool) (absent_ops_ok : gmap Z (gset Z) → Z → bool) (set_order : gset Z → list Z).

Lemma add_deal_spec s ids d s' ids' :
  add_deal cid (s, ids) d = Ok (s', ids') →
  ∃ f, lock_client_and_provider_balances (funds s) d = Ok f ∧ ids' = ids ++ [mk_next_id s] ∧ mk_next_id s ≤ AMT_MAX_INDEX ∧
    s' = {| proposals := <[mk_next_id s := d]> (proposals s); states := states s;
            pending_proposals := {[cid d]} ∪ pending_proposals s; funds := f; mk_next_id := mk_next_id s + 1;
            deal_ops_by_epoch :=
              ops_put (deal_ops_by_epoch s) (gen_rand_next_epoch (start_epoch d) (mk_next_id s)) [mk_next_id s];
            last_cron := last_cron s |}.
Proof.
  unfold add_deal, amt_insert. intros H. inv_ok. reflect_bools. eexists; split_and!; done.
Qed.

Lemma add_deals_inv s ds s' ids : add_deals cid s ds = Ok (s', ids) → market_inv s → market_inv s'.
Proof.
  intros H Hi. revert H. unfold add_deals. intros H.
  refine (try_fold_inv (λ acc, market_inv acc.1) _ _ _ (s, []) (s', ids) Hi H).
  intros [s1 l1] d [s2 l2] _ (Hf & Hid & Hst) (f & Hl & _ & _ & ->)%add_deal_spec. cbn in *.
  destruct (lock_deal_moves _ _ _ Hl Hf) as (_ & _ & Hf' & _). split_and!; cbn; [done| |].
  - apply map_Forall_insert_2; [lia|]. eapply map_Forall_impl; [exact Hid|]. cbn. lia.
  - intros id st Hs%Hst. rewrite lookup_insert_is_Some. destruct (decide (mk_next_id s1 = id)); auto.
Qed.

Lemma activate_deal_spec epoch s id s' :
  activate_deal cid epoch s id = Ok s' →
  ∃ d, proposals s !! id = Some d ∧ states s !! id = None ∧ cid d ∈ pending_proposals s ∧
    s' = set_deals s (proposals s) (<[id := {| sector_start_epoch := epoch; last_updated_epoch := EPOCH_UNDEFINED;
                                             slash_epoch := EPOCH_UNDEFINED |}]> (states s)) (pending_proposals s).
Proof.
  unfold activate_deal, amt_lookup, amt_insert. intros H. inv_ok. reflect_bools.
  destruct (states s !! id); [done|]. eexists; split_and!; done.
Qed.

Lemma activate_inv s ids miner e c s' : activate cid s ids miner e c = Ok s' → market_inv s → market_inv s'.
Proof.
  intros H Hi. unfold activate in H. inv_ok.
  refine (try_fold_inv market_inv _ _ _ s s' Hi H).
  intros s1 id s2 _ (Hf & Hid & Hst) (d & Hd & Hn & _ & ->)%activate_deal_spec. split_and!; cbn; try done.
  intros id' st [[<- <-]|[_ ?]]%lookup_insert_Some; [by exists d|by eapply Hst].
Qed.

Lemma terminate_deal_spec miner epoch s id s' :
  terminate_deal miner epoch s id = Ok s' →
  s' = s ∨ ∃ d st, proposals s !! id = Some d ∧ states s !! id = Some st ∧ provider d = miner ∧ epoch < end_epoch d ∧
    slash_epoch st = EPOCH_UNDEFINED ∧
    s' = set_deals s (proposals s) (<[id := {| sector_start_epoch := sector_start_epoch st;
           last_updated_epoch := last_updated_epoch st; slash_epoch := epoch |}]> (states s)) (pending_proposals s).
Proof.
  unfold terminate_deal, amt_lookup, amt_insert. intros H. inv_ok; reflect_bools; eauto.
  right. do 2 eexists. split_and!; done.
Qed.

Lemma terminate_inv s miner e ids s' : terminate s miner e ids = Ok s' → market_inv s → market_inv s'.
Proof.
  intros H Hi. refine (try_fold_inv market_inv _ _ _ s s' Hi H).
  intros s1 id s2 _ (Hf & Hid & Hst) [->|(d & st & Hd & Hs & _ & _ & _ & ->)]%terminate_deal_spec; [done|].
  split_and!; cbn; try done. intros id' st' [[<- <-]|[_ ?]]%lookup_insert_Some; [by exists d|by eapply Hst].
Qed.

Lemma cron_deal_inv c acc id acc' :
  cron_deal cid absent_ok c acc id = Ok acc' → market_inv (ca_state acc) → market_inv (ca_state acc').
Proof.
  unfold cron_deal, amt_lookup, amt_insert. intros H (Hf & Hid & Hst).
  set (s := ca_state acc) in *. clearbody s. inv_tuples.
  all: repeat match goal with
    | Ht : process_deal_init_timed_out _ _ = Ok _ |- _ => apply timed_out_keeps in Ht; [|done]
    | Ht : update_pending_deal_state _ _ _ _ = Ok _ |- _ => apply update_deal_keeps in Ht; [|done]
    end.
  all: split_and!; cbn; try done; try by apply map_Forall_delete.
  all: intros id' st'; rewrite ?lookup_delete_Some, ?lookup_insert_Some, ?lookup_delete_is_Some.
  all: intuition (simplify_eq; eauto).
Qed.

Lemma cron_deals_inv s c s' r :
  cron_deals cid absent_ok absent_ops_ok set_order s c = Ok (s', r) → market_inv s → market_inv s'.
Proof.
  intros H Hi. unfold cron_deals in H. inv_ok.
  match goal with Ht : try_fold _ _ _ = Ok ?a |- _ => assert (Ha : market_inv (ca_state a)) end.
  { eapply (try_fold_inv (λ acc, market_inv (ca_state acc))); [| |exact Hm]; [|exact Hi].
    intros a1 i a2 _ Ha1 Ha2. unfold cron_epoch in Ha2. inv_ok. cbn.
    eapply (try_fold_inv (λ acc, market_inv (ca_state acc))); [|exact Ha1|eassumption].
    intros; by eapply cron_deal_inv. }
  exact Ha.
Qed.

End safety_state.

(** ** The actor keeps its invariant *)

(** Value leaves the market only as a plain transfer: a withdrawal, or burnt
    collateral. *)
Definition market_send_ok {U} (u : U) (b : Z) (m : Message) : Prop :=
  let '(_, method, params, value) := m in value = 0 ∨ (method = METHOD_SEND ∧ params = []).

Section safety.
Context {U : Type} `{!StateIn MarketState U}.
Context `{!Dec GetControlAddressesReturn, !Dec ThisEpochRewardReturn, !Dec CurrentTotalPowerReturn}.
Context `{!Enc BytesParams, !Enc DealProposal, !Enc (list (bytes * Z))}.
Context (cid : DealProposal → bytes) (piece_prefix_ok : bytes → bool).
Context (absent_ok : gset bytes → bytes → bool) (absent_ops_ok : gmap Z (gset Z) → Z → bool) (set_order : gset Z → list Z).
Context (rt : Ctx) (I : U → Prop) `{!InvIn market_inv I}.
Notation mwp := (wp market_send_ok I rt).
Notation post := (λ _ _ _, True).

Lemma control_addrs_wp a u b (Q : Address * Address * list Address → U → Z → Prop) :
  (∀ r u' b', I u' → 0 ≤ b' → Q r u' b') → mwp (request_miner_control_addrs a) u b Q.
Proof. intros HQ. unfold request_miner_control_addrs. do 2 wp_step; [by left|]. do 3 wp_step. by apply HQ. Qed.

Lemma escrow_address_wp a u b (Q : Address * Address * list Address → U → Z → Prop) :
  I u → 0 ≤ b → (∀ r u' b', I u' → 0 ≤ b' → Q r u' b') → mwp (escrow_address a) u b Q.
Proof.
  intros Hu Hb HQ. unfold escrow_address. do 9 wp_step.
  - wp_step. apply control_addrs_wp. intros [[ow wk] cs] u' b' ??. wp_step. by apply HQ.
  - wp_step. by apply HQ.
Qed.

Lemma validate_deal_wp d n p u b (Q : bool → U → Z → Prop) :
  (∀ r, Q r u b) → mwp (validate_deal piece_prefix_ok rt d n p) u b Q.
Proof. intros HQ. unfold validate_deal. do 3 wp_step; [wp_step; [do 3 wp_step|wp_step]|wp_step]; apply HQ. Qed.

Lemma filter_deals_wp st prov raw n p di ds acc u b :
  I u → 0 ≤ b → mwp (filter_deals cid piece_prefix_ok rt st prov raw n p di ds acc) u b (λ _ u' b', I u' ∧ 0 ≤ b').
Proof.
  revert di acc u b. induction ds as [|deal ds IH]; intros di acc u b Hu Hb; cbn [filter_deals]; [done|].
  wp_step. apply validate_deal_wp. intros valid. wp_step; [by apply IH|]. wp_step; [by apply IH|].
  do 2 wp_step. wp_step; [|by apply IH]. do 3 (wp_step; [by apply IH|]). wp_step. wp_step.
  - wp_step; [by left|]. wp_step; by apply IH.
  - wp_step; by apply IH.
Qed.

Lemma publish_wp p u b : mwp (publish_storage_deals cid piece_prefix_ok rt p) u b post.
Proof.
  unfold publish_storage_deals. do 2 wp_step. destruct (deals p) as [|d0 ds]; [done|]. do 11 wp_step.
  apply control_addrs_wp. intros [[ow wk] cs] u1 b1 ??. do 3 wp_step. unfold request_current_baseline_power.
  do 2 wp_step; [by left|]. do 4 wp_step. unfold request_current_network_power. do 2 wp_step; [by left|]. do 6 wp_step.
  eapply wp_mono; [|by apply filter_deals_wp]. cbn. intros acc u9 b9 [Hu9 Hb9]. do 5 wp_step.
  destruct a3 as [s' ids]. split; [|by wp_step].
  apply inv_enc. eapply add_deals_inv; [done|]. by eapply inv_dec.
Qed.

Lemma restore_all_wp ds u b : I u → 0 ≤ b → mwp (restore_all ds) u b (λ _ u' b', I u' ∧ 0 ≤ b').
Proof.
  revert u b. induction ds as [|d ds IH]; intros u b Hu Hb; [done|]. cbn [restore_all]. do 2 wp_step; [by left|]. by apply IH.
Qed.

Lemma market_cron_wp u b : I u → 0 ≤ b → mwp (cron_tick cid absent_ok absent_ops_ok set_order rt) u b post.
Proof.
  intros Hu Hb. unfold cron_tick. do 5 wp_step. destruct a as [s' [slashed timed_out]].
  assert (I (state_enc s')) by (apply inv_enc; eapply cron_deals_inv; [done|]; by eapply inv_dec).
  split; [done|]. wp_step. eapply wp_mono; [|by apply restore_all_wp]. cbn. intros _ u' b' [Hu' Hb'].
  wp_step; [|done]. do 2 wp_step; [by right|done].
Qed.

Lemma data_commitments_wp ps ins cs u b (Q : list bytes → U → Z → Prop) :
  (∀ r, Q r u b) → mwp (data_commitments ps ins cs) u b Q.
Proof.
  intros HQ. revert cs. induction ins as [|i l IH]; intros cs; cbn [data_commitments]; [by apply HQ|]. do 6 wp_step. apply IH.
Qed.

Context `{!Dec Address, !Dec WithdrawBalanceParams, !Enc WithdrawBalanceReturn, !Dec PublishStorageDealsParams}.
Context `{!Enc PublishStorageDealsReturn, !Dec VerifyDealsForActivationParams, !Enc VerifyDealsForActivationReturn}.
Context `{!Dec ActivateDealsParams, !Dec OnMinerSectorsTerminateParams, !Dec ComputeDataCommitmentParams}.
Context `{!Enc ComputeDataCommitmentReturn}.

Lemma add_balance_wp a u b : I u → 0 ≤ b → mwp (add_balance rt a) u b post.
Proof.
  intros Hu Hb. unfold add_balance. do 5 wp_step. apply escrow_address_wp; [done..|]. intros [[n r] ap] u' b' Hu' Hb'.
  do 4 wp_step. split; [|done]. apply inv_enc. destruct (inv_dec _ s Hu') as (Hf & Hid & Hst); [done|].
  destruct (add_escrow_spec _ _ _ _ H1 Hf) as (-> & Hf' & _); [lia|]. by split_and!.
Qed.

Lemma withdraw_wp p u b : I u → 0 ≤ b → mwp (withdraw_balance p) u b post.
Proof.
  intros Hu Hb. unfold withdraw_balance. do 3 wp_step. apply escrow_address_wp; [done..|]. intros [[n r] ap] u' b' Hu' Hb'.
  do 5 wp_step. destruct a as [s' ex]. destruct (inv_dec _ s Hu') as (Hf & Hid & Hst); [done|].
  destruct (take_escrow_spec _ _ _ _ _ H2 Hf) as (-> & Hf' & _); [lia|]. split; [apply inv_enc; by split_and!|].
  do 2 wp_step; [by right|]. by wp_step.
Qed.

Lemma market_wp method params u b :
  I u → 0 ≤ b →
  mwp (market_invoke_method cid piece_prefix_ok absent_ok absent_ops_ok set_order rt method params) u b post.
Proof.
  intros Hu Hb. unfold market_invoke_method. repeat case_match; try exact Logic.I.
  all: try (apply call_unit_wp; intros ps Hps); try (apply call_ret_wp; intros ps Hps).
  all: lazymatch goal with
    | |- wp _ _ _ (add_balance _ _) _ _ _ => by apply add_balance_wp
    | |- wp _ _ _ (withdraw_balance _) _ _ _ => by apply withdraw_wp
    | |- wp _ _ _ (publish_storage_deals _ _ _ _) _ _ _ => apply publish_wp
    | |- wp _ _ _ (cron_tick _ _ _ _ _ ≫= _) _ _ _ => wp_step; eapply wp_mono; [|by apply market_cron_wp]; done
    | |- wp _ _ _ (market_constructor ≫= _) _ _ _ =>
        unfold market_constructor; do 4 wp_step; [apply inv_enc, market_new_inv|done]
    | |- wp _ _ _ (verify_deals_for_activation _ _) _ _ _ => unfold verify_deals_for_activation; by do 7 wp_step
    | |- wp _ _ _ (compute_data_commitment _) _ _ _ =>
        unfold compute_data_commitment; do 5 wp_step; apply data_commitments_wp; intros; by wp_step
    | |- wp _ _ _ (activate_deals _ _ _) _ _ _ =>
        unfold activate_deals; do 5 wp_step; split; [|done]; apply inv_enc; eapply activate_inv; [done|]; by eapply inv_dec
    | |- wp _ _ _ (on_miner_sectors_terminate _ _) _ _ _ =>
        unfold on_miner_sectors_terminate; do 5 wp_step; split; [|done]; apply inv_enc; eapply terminate_inv; [done|];
        by eapply inv_dec
    end.
Qed.

End safety.
