(* ===== verification/MarketDeals.v ===== *)
(** * The deals of the storage market

    The invariant that ties the balances of the market to its deals, for
    histories of the transactions of [Market] on a clock that does not go back,
    and what follows from it: the cron tick, which pays, slashes and removes the
    deals that are due, cannot fail. *)

From S2P Require Import Prelude Address Runtime Types Reward Funds Market.

(** ** The invariant *)

(** A deal that cron has not seen yet. *)
Definition not_updated (o : option DealState) : Prop :=
  match o with Some st => last_updated_epoch st = EPOCH_UNDEFINED | None => True end.

Section inv.
Context (cid : DealProposal → bytes).

(** What is locked at each address, and the totals, are exactly what the deals
    need; the proposals that may not be published again are those of the deals
    that cron has not seen. *)
Definition deals_inv (now : Z) (s : MarketState) : Prop :=
  funds_inv (funds s) ∧
  map_Forall (λ id d, 0 ≤ id < mk_next_id s ∧ id ≤ AMT_MAX_INDEX ∧ deal_ok d) (proposals s) ∧
  (∀ id st, states s !! id = Some st → ∃ d, proposals s !! id = Some d ∧ state_ok now d st) ∧
  (∀ a, bt_get (locked_table (funds s)) a = map_sumk (λ id d, obligation d (states s !! id) a) (proposals s)) ∧
  (total_client_locked_colateral (funds s) = map_sumk (λ _ d, client_collateral d) (proposals s) ∧
   total_provider_locked_colateral (funds s) = map_sumk (λ _ d, provider_collateral d) (proposals s) ∧
   total_client_storage_fee (funds s) = map_sumk (λ id d, fee_left d (states s !! id)) (proposals s)) ∧
  (∀ c, c ∈ pending_proposals s ↔ ∃ id d, proposals s !! id = Some d ∧ not_updated (states s !! id) ∧ cid d = c) ∧
  (∀ i j d e, proposals s !! i = Some d → proposals s !! j = Some e → not_updated (states s !! i) →
     not_updated (states s !! j) → cid d = cid e → i = j) ∧
  0 ≤ mk_next_id s.

(** Every deal is scheduled at exactly one epoch, after the last cron tick and
    not before its start. *)
Definition scheduled (s : MarketState) (id e : Z) : Prop := ∃ ids, deal_ops_by_epoch s !! e = Some ids ∧ id ∈ ids.
Definition schedule_inv (s : MarketState) : Prop :=
  (∀ id e, scheduled s id e → last_cron s < e ∧ ∃ d, proposals s !! id = Some d ∧ start_epoch d ≤ e) ∧
  (∀ id e e', scheduled s id e → scheduled s id e' → e = e') ∧
  (∀ id d, proposals s !! id = Some d → ∃ e, scheduled s id e).

Lemma state_ok_mono now now' d st : now ≤ now' → state_ok now d st → state_ok now' d st.
Proof. intros Hn (H1 & H2 & H3). split_and!; [done|lia..]. Qed.

Lemma deals_inv_mono now now' s : now ≤ now' → deals_inv now s → deals_inv now' s.
Proof.
  intros Hn (H1 & H2 & H3 & H4). split_and!; try apply H4; try done.
  intros id st Hs. destruct (H3 id st Hs) as (d & Hd & Hok). exists d. split; [done|]. by eapply state_ok_mono.
Qed.

(** What a deal needs is there. *)
Lemma obligation_locked now s id d a :
  deals_inv now s → proposals s !! id = Some d → obligation d (states s !! id) a ≤ bt_get (locked_table (funds s)) a.
Proof.
  intros (_ & H2 & H3 & H4 & _) Hd. rewrite H4.
  apply (map_sumk_lookup_le (λ id d, obligation d (states s !! id) a)); [|done].
  intros k e He. destruct (H2 _ _ He) as (_ & _ & Hok). apply obligation_nonneg; [done|].
  destruct (states s !! k) as [st|] eqn:Es; [|destruct Hok as [? _]; cbn; lia].
  destruct (H3 _ _ Es) as (e' & He' & Hst). rewrite He in He'. injection He' as <-.
  pose proof (paid_until_range now e st Hok Hst). lia.
Qed.

(** The pending proposals once cron has seen the deal [id]. *)
Definition pending_without (s : MarketState) (id : Z) (d : DealProposal) (pend : gset bytes) : Prop :=
  ∀ c, c ∈ pend ↔ c ∈ pending_proposals s ∧ (not_updated (states s !! id) → c ≠ cid d).

(** The tables once [obligation d o] became [obligation d o'] (or nothing). *)
Definition funds_after (f f' : Funds) (d : DealProposal) (o : option DealState) (o' : option DealState) (gone : bool) : Prop :=
  funds_inv f' ∧
  (∀ a, bt_get (locked_table f') a
        = bt_get (locked_table f) a - obligation d o a + (if gone then 0 else obligation d o' a)) ∧
  total_client_locked_colateral f' = total_client_locked_colateral f - (if gone then client_collateral d else 0) ∧
  total_provider_locked_colateral f' = total_provider_locked_colateral f - (if gone then provider_collateral d else 0) ∧
  total_client_storage_fee f' = total_client_storage_fee f - fee_left d o + (if gone then 0 else fee_left d o').

Lemma remove_deal_inv now s id d pend f :
  deals_inv now s → proposals s !! id = Some d → pending_without s id d pend →
  funds_after (funds s) f d (states s !! id) None true →
  deals_inv now (set_funds (set_deals s (delete id (proposals s)) (delete id (states s)) pend) f).
Proof.
  intros (H1 & H2 & H3 & H4 & (H5a & H5b & H5c) & H6 & H7 & H8) Hd Hp (F1 & F2 & F3 & F4 & F5).
  assert (Hlk : ∀ k, k ≠ id → delete id (states s) !! k = states s !! k) by (intros; by rewrite lookup_delete_ne).
  unfold deals_inv. cbn. split_and!; try done.
  - by apply map_Forall_delete.
  - intros k st [Hne Hs]%lookup_delete_Some. destruct (H3 _ _ Hs) as (e & He & Hok). exists e. split; [|done].
    by rewrite lookup_delete_ne.
  - intros a. rewrite F2, H4. rewrite (map_sumk_ext _ (λ k e, obligation e (states s !! k) a) (delete id (proposals s))).
    + rewrite (map_sumk_delete _ _ _ _ Hd). lia.
    + intros k e [Hne _]%lookup_delete_Some. by rewrite Hlk.
  - rewrite F3, H5a, (map_sumk_delete _ _ _ _ Hd). lia.
  - rewrite F4, H5b, (map_sumk_delete _ _ _ _ Hd). lia.
  - rewrite F5, H5c. rewrite (map_sumk_ext _ (λ k e, fee_left e (states s !! k)) (delete id (proposals s))).
    + rewrite (map_sumk_delete _ _ _ _ Hd). lia.
    + intros k e [Hne _]%lookup_delete_Some. by rewrite Hlk.
  - intros c. rewrite (Hp c), H6. split.
    + intros [(k & e & He & Hnu & <-) Hne]. exists k, e.
      assert (k ≠ id) by (intros ->; rewrite Hd in He; injection He as <-; by apply Hne).
      rewrite lookup_delete_ne, Hlk by done. done.
    + intros (k & e & [Hne He]%lookup_delete_Some & Hnu & <-). rewrite Hlk in Hnu by done.
      split; [by exists k, e|]. intros Hnu' Heq. apply Hne. symmetry. by eapply H7.
  - intros i j e e' [Hi He]%lookup_delete_Some [Hj He']%lookup_delete_Some. rewrite !Hlk by done. by apply H7.
Qed.

(** Setting the state of a deal. *)
Lemma set_state_inv now s id d o st' pend f :
  deals_inv now s → proposals s !! id = Some d → states s !! id = o → state_ok now d st' →
  ¬ not_updated (Some st') ∨ (not_updated (Some st') ↔ not_updated o) →
  (∀ c, c ∈ pend ↔ c ∈ pending_proposals s ∧ (not_updated o → ¬ not_updated (Some st') → c ≠ cid d)) →
  funds_after (funds s) f d o (Some st') false →
  deals_inv now (set_funds (set_deals s (proposals s) (<[id := st']> (states s)) pend) f).
Proof.
  intros (H1 & H2 & H3 & H4 & (H5a & H5b & H5c) & H6 & H7 & H8) Hd Hst Hok' Hnu' Hp (F1 & F2 & F3 & F4 & F5).
  assert (Hlk : ∀ k, k ≠ id → <[id := st']> (states s) !! k = states s !! k) by (intros; by rewrite lookup_insert_ne).
  assert (Hsub : ∀ k, not_updated (<[id := st']> (states s) !! k) → not_updated (states s !! k)).
  { intros k. destruct (decide (k = id)) as [->|Hne]; [|by rewrite Hlk]. rewrite lookup_insert_eq, Hst. tauto. }
  unfold deals_inv. cbn. split_and!; try done; try lia.
  - intros k s1 [[<- <-]|[_ Hs]]%lookup_insert_Some; [by exists d|by apply H3].
  - intros a. rewrite F2, H4. rewrite (map_sumk_update (λ k e, obligation e (states s !! k) a)
      (λ k e, obligation e (<[id := st']> (states s) !! k) a) _ id d Hd).
    + rewrite lookup_insert_eq, Hst. lia.
    + intros k e Hne. by rewrite Hlk.
  - rewrite F5, H5c. rewrite (map_sumk_update (λ k e, fee_left e (states s !! k))
      (λ k e, fee_left e (<[id := st']> (states s) !! k)) _ id d Hd).
    + rewrite lookup_insert_eq, Hst. lia.
    + intros k e Hne. by rewrite Hlk.
  - intros c. rewrite (Hp c), H6. split.
    + intros [(k & e & He & Hnu & <-) Hne]. exists k, e. split_and!; try done.
      destruct (decide (k = id)) as [->|Hki]; [|by rewrite Hlk]. rewrite lookup_insert_eq. rewrite Hst in Hnu.
      rewrite Hd in He. injection He as <-. destruct Hnu' as [Hf|Hiff]; [|by apply Hiff].
      exfalso. by apply Hne.
    + intros (k & e & He & Hnu & <-). pose proof (Hsub _ Hnu) as Hold. split; [by exists k, e|].
      intros Hnst Hn' Heq. assert (k = id) as -> by (eapply H7; eauto; by rewrite Hst).
      by rewrite lookup_insert_eq in Hnu.
  - intros i j e e' He He' Hi%Hsub Hj%Hsub. by apply H7.
Qed.

(** ** One deal of the cron tick *)

Context (absent_ok : gset bytes → bytes → bool).

Lemma set_delete_in X k : k ∈ X → set_delete absent_ok X k = Ok (X ∖ {[k]}).
Proof. intros Hk. unfold set_delete. by rewrite decide_True. Qed.

Lemma lookup_deal now s id d : deals_inv now s → proposals s !! id = Some d → amt_lookup (proposals s) id = Ok (Some d) ∧
  amt_lookup (states s) id = Ok (states s !! id) ∧ deal_ok d.
Proof.
  intros (_ & H2 & _) Hd. destruct (H2 _ _ Hd) as (_ & Hmax & Hok). unfold amt_lookup, throw_if.
  rewrite !(proj2 (Z.ltb_ge _ _) Hmax). cbn. by rewrite Hd.
Qed.

Lemma pending_removed now s id d st :
  deals_inv now s → proposals s !! id = Some d → states s !! id = Some st →
  ∃ pend, (if last_updated_epoch st =? EPOCH_UNDEFINED then set_delete absent_ok (pending_proposals s) (cid d)
           else mret (pending_proposals s)) = Ok pend ∧ pending_without s id d pend.
Proof.
  intros (_ & _ & _ & _ & _ & H6 & _) Hd Hst. destruct (Z.eqb_spec (last_updated_epoch st) EPOCH_UNDEFINED) as [E|E].
  - rewrite set_delete_in by (apply H6; exists id, d; by rewrite Hst). eexists; split; [done|]. intros c. rewrite Hst. cbn. set_solver.
  - eexists; split; [done|]. intros c. rewrite Hst. cbn. tauto.
Qed.

(** The bookkeeping of a step of the tick. *)
Definition cron_step (c : Z) (acc acc' : CronAcc) (id : Z) : Prop :=
  let s := ca_state acc in let s' := ca_state acc' in
  deals_inv c s' ∧ deal_ops_by_epoch s' = deal_ops_by_epoch s ∧ last_cron s' = last_cron s ∧
  amount_slashed acc ≤ amount_slashed acc' ∧
  bt_total (escrow_table (funds s')) + amount_slashed acc' = bt_total (escrow_table (funds s)) + amount_slashed acc ∧
  ((proposals s' = delete id (proposals s) ∧ updates_needed acc' = updates_needed acc) ∨
   (proposals s' = proposals s ∧ (∀ d, proposals s !! id = Some d → c < end_epoch d) ∧
    updates_needed acc' = <[c + DEAL_UPDATES_INTERVAL :=
      default [] (updates_needed acc !! (c + DEAL_UPDATES_INTERVAL)) ++ [id]]> (updates_needed acc))).

Lemma cron_timed_out_ok c acc id d :
  deals_inv c (ca_state acc) → proposals (ca_state acc) !! id = Some d → start_epoch d ≤ c →
  states (ca_state acc) !! id = None → ∃ acc', cron_deal cid absent_ok c acc id = Ok acc' ∧ cron_step c acc acc' id.
Proof.
  intros Hi Hd Hc Hst. set (s := ca_state acc) in *. pose proof Hi as (H1 & _ & _ & _ & _ & H6 & _).
  destruct (lookup_deal _ _ _ _ Hi Hd) as (HL1 & HL2 & Hok).
  destruct (timed_out_ok (funds s) d Hok H1) as (f & Hf & M).
  { intros a. pose proof (obligation_locked _ _ _ _ a Hi Hd) as Ho. by rewrite Hst in Ho. }
  pose proof (timed_out_keeps _ _ _ _ Hf H1) as Hf1. destruct M as (He & Hl & Ht & Hcc & Hpc & Hsf).
  unfold cron_deal. fold s. rewrite HL1, HL2, Hst. cbn. unfold throw_if. rewrite (proj2 (Z.ltb_ge _ _) Hc), Hf. cbn.
  rewrite set_delete_in by (apply H6; exists id, d; by rewrite Hst). cbn. eexists. split; [reflexivity|].
  unfold cron_step. cbn. fold s. split_and!; try done; try (destruct Hok as (? & ? & ? & ?); lia); [|by left].
  rewrite <-(delete_id (states s) id Hst) at 1.
  apply (remove_deal_inv c s id d); [done|done| |].
  - intros x. rewrite Hst. cbn. set_solver.
  - rewrite Hst. split_and!; try done; try lia. intros a. rewrite Hl. lia.
Qed.

Lemma cron_active_ok c acc id d st :
  deals_inv c (ca_state acc) → proposals (ca_state acc) !! id = Some d → start_epoch d ≤ c →
  states (ca_state acc) !! id = Some st → ∃ acc', cron_deal cid absent_ok c acc id = Ok acc' ∧ cron_step c acc acc' id.
Proof.
  intros Hi Hd Hc Hst. set (s := ca_state acc) in *. pose proof Hi as (H1 & H2 & H3 & _).
  destruct (lookup_deal _ _ _ _ Hi Hd) as (HL1 & HL2 & Hok).
  destruct (H3 _ _ Hst) as (d' & Hd' & Hsok). rewrite Hd in Hd'. injection Hd' as <-.
  destruct (update_deal_ok c (funds s) d st Hok Hsok Hc H1) as (f & slashed & next & over & pay & Hf & Hpay & Hu).
  { intros a. pose proof (obligation_locked _ _ _ _ a Hi Hd) as Ho. by rewrite Hst in Ho. }
  pose proof (update_deal_keeps _ _ _ _ _ _ Hf H1) as Hf1.
  destruct (pending_removed _ _ _ _ _ Hi Hd Hst) as (pend & Hp & Hpw).
  unfold cron_deal. fold s. rewrite HL1, HL2, Hst. cbn. rewrite Hp. cbn. rewrite Hf. cbn. unfold update_effect in Hu.
  destruct over.
  - destruct Hu as (-> & Hsl & (He & Hl & Ht & Hcc & Hpc & Hsf)).
    assert (0 ≤ slashed) by (destruct Hok as (? & ? & ? & ?); rewrite Hsl; by case_if).
    unfold throw_if. rewrite (proj2 (Z.ltb_ge _ _)) by done. cbn. eexists. split; [reflexivity|].
    unfold cron_step. cbn. fold s. split_and!; try done; try lia; [|by left].
    apply (remove_deal_inv c s id d); [done|done|done|]. rewrite Hst. split_and!; try done; try lia.
    intros a. rewrite Hl. lia.
  - destruct Hu as (-> & -> & Hns & Hend & (He & Hl & Ht & Hcc & Hpc & Hsf)). destruct (H2 _ _ Hd) as (_ & Hmax & _).
    assert (Hc0 : 0 ≤ c) by (destruct Hok as (? & _); lia).
    unfold throw_if, amt_insert. rewrite (proj2 (Z.leb_gt _ _)) by (change DEAL_UPDATES_INTERVAL with 2880; lia).
    cbn. unfold throw_if. rewrite (proj2 (Z.ltb_ge _ _) Hmax). cbn. eexists. split; [reflexivity|].
    unfold cron_step. cbn. fold s. split_and!; try done; try lia; [|right; split_and!; [done|by rewrite Hd; intros ? [= <-]|done]].
    fold (updated st c). apply (set_state_inv c s id d (Some st)); try done.
    + destruct Hsok as (Hs1 & Hs2 & Hs3). split_and!; [done|right; cbn; lia|left; done].
    + left. cbn. unfold EPOCH_UNDEFINED. lia.
    + intros x. rewrite (Hpw x), Hst. cbn. unfold EPOCH_UNDEFINED. intuition lia.
    + split_and!; try done; try lia. intros a. rewrite Hl. lia.
Qed.

Lemma cron_deal_ok c acc id d :
  deals_inv c (ca_state acc) → proposals (ca_state acc) !! id = Some d → start_epoch d ≤ c →
  ∃ acc', cron_deal cid absent_ok c acc id = Ok acc' ∧ cron_step c acc acc' id.
Proof.
  intros Hi Hd Hc. destruct (states (ca_state acc) !! id) as [st|] eqn:Es; [by eapply cron_active_ok|by eapply cron_timed_out_ok].
Qed.

(** ** The loops of the cron tick *)

Context (absent_ops_ok : gmap Z (gset Z) → Z → bool) (set_order : gset Z → list Z).
Hypothesis set_order_perm : ∀ X, set_order X ≡ₚ elements X.
Hypothesis absent_delete_returns : ∀ m k, absent_ops_ok m k = true.

(** The deals that are to be scheduled again. *)
Definition renewed (c : Z) (acc : CronAcc) : list Z := default [] (updates_needed acc !! (c + DEAL_UPDATES_INTERVAL)).

(** After the deals [done], starting from [s0]: the others are as they were, and
    of those exactly the ones that go on are to be scheduled again. *)
Definition cron_so_far (c : Z) (s0 : MarketState) (done : Z → Prop) (acc : CronAcc) : Prop :=
  let s := ca_state acc in
  deals_inv c s ∧ last_cron s = last_cron s0 ∧ 0 ≤ amount_slashed acc ∧
  bt_total (escrow_table (funds s)) + amount_slashed acc = bt_total (escrow_table (funds s0)) ∧
  (∀ id, ¬ done id → proposals s !! id = proposals s0 !! id ∧ id ∉ renewed c acc) ∧
  (∀ id, done id → id ∈ renewed c acc ↔ is_Some (proposals s !! id)) ∧
  (∀ id d, proposals s !! id = Some d → proposals s0 !! id = Some d) ∧
  (∀ e, is_Some (updates_needed acc !! e) → e = c + DEAL_UPDATES_INTERVAL) ∧
  (∀ id d, id ∈ renewed c acc → proposals s !! id = Some d → c < end_epoch d).

Lemma so_far_proper c s0 done done' acc :
  (∀ id, done id ↔ done' id) → cron_so_far c s0 done acc → cron_so_far c s0 done' acc.
Proof.
  intros Hd (H1 & H2 & H3 & H4 & H5 & H6 & H7 & H8 & H9). split_and!; try done.
  - intros id Hid. apply H5. by rewrite Hd.
  - intros id Hid. apply H6. by rewrite Hd.
Qed.

Lemma cron_step_so_far c s0 done acc acc' id :
  cron_so_far c s0 done acc → cron_step c acc acc' id → ¬ done id → is_Some (proposals s0 !! id) →
  cron_so_far c s0 (λ i, i = id ∨ done i) acc'.
Proof.
  intros (H1 & H2 & H3 & H4 & H5 & H6 & H7 & H8 & H9) (S1 & S2 & S3 & S4 & S5 & S6) Hn Hid.
  destruct (H5 id Hn) as [Hsame Hnr]. unfold cron_so_far. destruct S6 as [[Hp Hu]|(Hp & Hend & Hu)].
  - unfold renewed in *. rewrite Hu, Hp. split_and!; try done; try lia; try congruence.
    + intros i Hi. rewrite lookup_delete_ne by (intros ->; tauto). apply H5. tauto.
    + intros i [->|Hi].
      * rewrite lookup_delete_eq. split; [done|by intros [? ?]].
      * rewrite lookup_delete_ne by (intros ->; tauto). by apply H6.
    + intros i d [_ ?]%lookup_delete_Some. by apply H7.
    + intros i d Hi [_ ?]%lookup_delete_Some. by eapply H9.
  - assert (Hr : renewed c acc' = renewed c acc ++ [id]) by (unfold renewed; by rewrite Hu, lookup_insert_eq).
    rewrite Hp, Hr. split_and!; try done; try lia; try congruence.
    + intros i Hi. destruct (H5 i) as [? ?]; [tauto|]. split; [done|]. set_solver.
    + intros i [->|Hi].
      * rewrite Hsame. set_solver.
      * rewrite <-(H6 i Hi). rewrite elem_of_app, list_elem_of_singleton. split; [|by left]. intros [?| ->]; [done|tauto].
    + rewrite Hu. intros e. rewrite lookup_insert_is_Some. intros [<-|[_ ?]]; [done|by apply H8].
    + intros i d [Hi| ->%list_elem_of_singleton]%elem_of_app; [by apply H9|apply Hend].
Qed.

Lemma cron_list_ok c s0 l done acc :
  cron_so_far c s0 done acc → NoDup l →
  (∀ id, id ∈ l → ¬ done id ∧ ∃ d, proposals s0 !! id = Some d ∧ start_epoch d ≤ c) →
  ∃ acc', try_fold (cron_deal cid absent_ok c) acc l = Ok acc' ∧ cron_so_far c s0 (λ i, i ∈ l ∨ done i) acc' ∧
    deal_ops_by_epoch (ca_state acc') = deal_ops_by_epoch (ca_state acc).
Proof.
  revert done acc. induction l as [|id l IH]; intros done acc Hk Hnd Hl; cbn [try_fold].
  { exists acc. split_and!; [done| |done]. eapply so_far_proper; [|exact Hk]. set_solver. }
  apply NoDup_cons in Hnd as [Hid Hnd]. destruct (Hl id) as (Hn & d & Hd & Hs); [set_solver|].
  pose proof Hk as (Hi & _ & _ & _ & H5 & _). destruct (H5 id Hn) as [Hsame _].
  destruct (cron_deal_ok c acc id d Hi) as (acc1 & -> & Hstep); [congruence|done|].
  destruct (IH (λ i, i = id ∨ done i) acc1) as (acc' & -> & Hk' & Hops).
  - by eapply cron_step_so_far.
  - done.
  - intros i Hil. destruct (Hl i) as (Hni & Hrest); [set_solver|]. split; [|done]. intros [->|?]; [done|tauto].
  - exists acc'. split_and!; [done| |destruct Hstep as (_ & Hops' & _); congruence].
    eapply so_far_proper; [|exact Hk']. set_solver.
Qed.

(** The epochs before [i] are done. *)
Definition cron_before (c : Z) (s0 : MarketState) (i : Z) (acc : CronAcc) : Prop :=
  cron_so_far c s0 (λ id, ∃ e, scheduled s0 id e ∧ e < i) acc ∧
  (∀ id e, scheduled (ca_state acc) id e ↔ scheduled s0 id e ∧ i ≤ e).

Lemma cron_epoch_ok c s0 i acc :
  schedule_inv s0 → cron_before c s0 i acc → i ≤ c →
  ∃ acc', cron_epoch cid absent_ok absent_ops_ok set_order c acc i = Ok acc' ∧ cron_before c s0 (i + 1) acc'.
Proof.
  intros (Q1 & Q2 & Q3) [Hk Hs] Hc. unfold cron_epoch.
  set (l := set_order (default ∅ (deal_ops_by_epoch (ca_state acc) !! i))).
  assert (Hl : ∀ id, id ∈ l ↔ scheduled s0 id i).
  { intros id. unfold l. rewrite set_order_perm, elem_of_elements. split.
    - intros Hid. apply (Hs id i). unfold scheduled. destruct (_ !! i) as [ids|]; [by exists ids|set_solver].
    - intros Hid. destruct (proj2 (Hs id i)) as (ids & -> & ?); [split; [done|lia]|done]. }
  destruct (cron_list_ok c s0 l (λ id, ∃ e, scheduled s0 id e ∧ e < i) acc Hk) as (acc1 & -> & Hk1 & Hops).
  { unfold l. rewrite set_order_perm. apply NoDup_elements. }
  { intros id Hid%Hl. split.
    - intros (e & He & Hlt). pose proof (Q2 _ _ _ Hid He). lia.
    - destruct (Q1 _ _ Hid) as (_ & d & Hd & Hst). exists d. split; [done|lia]. }
  cbn [mbind result_bind]. rewrite absent_delete_returns. unfold throw_if.
  replace (match deal_ops_by_epoch (ca_state acc1) !! i with Some _ => false | None => negb true end) with false
    by (by destruct (deal_ops_by_epoch (ca_state acc1) !! i)).
  eexists. split; [reflexivity|]. split.
  - cbn. eapply (so_far_proper c s0 (λ id, id ∈ l ∨ ∃ e, scheduled s0 id e ∧ e < i)); [|exact Hk1].
    intros id. rewrite Hl. split.
    + intros [?|(e & ? & ?)]; [exists i|exists e]; split; auto; lia.
    + intros (e & He & Hlt). destruct (decide (e = i)) as [->|]; [by left|right]. exists e. split; [done|lia].
  - intros id e. unfold scheduled at 1. cbn. rewrite Hops. split.
    + intros (ids & [Hne He]%lookup_delete_Some & Hid). destruct (proj1 (Hs id e)) as [? ?]; [by exists ids|].
      split; [done|lia].
    + intros [He Hle]. destruct (proj2 (Hs id e)) as (ids & Hids & Hid); [split; [done|lia]|].
      exists ids. rewrite lookup_delete_ne by lia. done.
Qed.

Lemma cron_epochs_ok c s0 n i acc :
  schedule_inv s0 → cron_before c s0 i acc → i + Z.of_nat n ≤ c + 1 →
  ∃ acc', try_fold (cron_epoch cid absent_ok absent_ops_ok set_order c) acc (seqZ i (Z.of_nat n)) = Ok acc' ∧
    cron_before c s0 (i + Z.of_nat n) acc'.
Proof.
  intros Hq. revert i acc. induction n as [|n IH]; intros i acc Hb Hc.
  { exists acc. rewrite Z.add_0_r. done. }
  rewrite seqZ_cons by lia. cbn [try_fold].
  destruct (cron_epoch_ok c s0 i acc Hq Hb) as (acc1 & -> & Hb1); [lia|].
  destruct (IH (i + 1) acc1 Hb1) as (acc' & Hf & Hb'); [lia|]. replace (Z.pred (Z.of_nat (S n))) with (Z.of_nat n) by lia.
  replace (Z.succ i) with (i + 1) by lia. rewrite Hf. exists acc'. split; [done|].
  by replace (i + Z.of_nat (S n)) with (i + 1 + Z.of_nat n) by lia.
Qed.

(** Scheduling again. *)
Lemma ops_put_elem ops epoch ids id e :
  (∃ X, ops_put ops epoch ids !! e = Some X ∧ id ∈ X) ↔
  (∃ X, ops !! e = Some X ∧ id ∈ X) ∨ (e = epoch ∧ id ∈ ids).
Proof.
  unfold ops_put. destruct (decide (e = epoch)) as [->|Hne].
  - rewrite lookup_insert_eq. split.
    + intros (X & [= <-] & Hid). apply elem_of_union in Hid as [Hid|Hid%elem_of_list_to_set]; [|by right].
      left. destruct (ops !! epoch) as [X|]; [by exists X|set_solver].
    + intros [(X & HX & Hid)|[_ Hid]]; eexists; (split; [reflexivity|]); rewrite ?HX; set_solver.
  - rewrite lookup_insert_ne by done. intuition congruence.
Qed.

Lemma reinsert_elem (upd : gmap Z (list Z)) l ops id e :
  (∃ X, fold_left (λ ops epoch, ops_put ops epoch (default [] (upd !! epoch))) l ops !! e = Some X ∧ id ∈ X) ↔
  (∃ X, ops !! e = Some X ∧ id ∈ X) ∨ (e ∈ l ∧ id ∈ default [] (upd !! e)).
Proof.
  revert ops. induction l as [|x l IH]; intros ops; cbn [fold_left]; [set_solver|].
  rewrite IH, ops_put_elem. set_solver.
Qed.

(** *** The whole tick *)

Lemma renewed_schedule c s acc s' :
  schedule_inv s → cron_so_far c s (λ id, ∃ e, scheduled s id e ∧ e < c + 1) acc →
  proposals s' = proposals (ca_state acc) → last_cron s' = c →
  (∀ id e, scheduled s' id e ↔ (scheduled s id e ∧ c < e) ∨ (e = c + DEAL_UPDATES_INTERVAL ∧ id ∈ renewed c acc)) →
  schedule_inv s'.
Proof.
  intros (Q1 & Q2 & Q3) (K1 & K2 & K3 & K4 & K5 & K6 & K7 & K8 & _) Hp Hc Hre.
  assert (Hi : 0 < DEAL_UPDATES_INTERVAL) by done.
  assert (Hlate : ∀ id e, scheduled s id e → c < e → ¬ ∃ e, scheduled s id e ∧ e < c + 1).
  { intros id e He Hlt (e' & He' & Hlt'). pose proof (Q2 _ _ _ He He'). lia. }
  assert (Hren : ∀ id, id ∈ renewed c acc → is_Some (proposals (ca_state acc) !! id) ∧ ∃ e, scheduled s id e ∧ e < c + 1).
  { intros id Hid. destruct (proposals s !! id) as [d|] eqn:Ed.
    - destruct (Q3 _ _ Ed) as (e & He). destruct (decide (e < c + 1)) as [Hlt|Hge].
      + split; [apply K6; [by exists e|done]|by exists e].
      + destruct (K5 id) as [_ ?]; [apply (Hlate id e); [done|lia]|done].
    - assert (Hn : ¬ ∃ e, scheduled s id e ∧ e < c + 1).
      { intros (e & (_ & d & Hd & _)%Q1 & _). congruence. }
      by destruct (K5 id Hn). }
  split_and!; rewrite ?Hp, ?Hc.
  - intros id e [[He Hlt]|[-> Hid]]%Hre.
    + split; [done|]. destruct (Q1 _ _ He) as (_ & d & Hd & Hst). exists d. split; [|done].
      destruct (K5 id) as [-> _]; [by eapply Hlate|done].
    + split; [lia|]. destruct (Hren id Hid) as ([d Hd] & e & He & Hlt). exists d. split; [done|].
      destruct (Q1 _ _ He) as (_ & d' & Hd' & Hst). apply K7 in Hd. rewrite Hd in Hd'. injection Hd' as <-. lia.
  - intros id e e' [[He Hlt]|[-> Hid]]%Hre [[He' Hlt']|[-> Hid']]%Hre; [by eapply Q2| | |done].
    + destruct (Hren id Hid') as (_ & Hd). by destruct (Hlate id e He Hlt).
    + destruct (Hren id Hid) as (_ & Hd). by destruct (Hlate id e' He' Hlt').
  - intros id d Hd. destruct (Q3 id d (K7 _ _ Hd)) as (e & He). destruct (decide (e < c + 1)) as [Hlt|Hge].
    + exists (c + DEAL_UPDATES_INTERVAL). apply Hre. right. split; [done|]. apply K6; [by exists e|by exists d].
    + exists e. apply Hre. left. split; [done|lia].
Qed.

Lemma cron_deals_ok now s c :
  deals_inv now s → schedule_inv s → now ≤ c → last_cron s < c →
  ∃ s' slashed timed_out,
    cron_deals cid absent_ok absent_ops_ok set_order s c = Ok (s', (slashed, timed_out)) ∧
    deals_inv c s' ∧ schedule_inv s' ∧ last_cron s' = c ∧ 0 ≤ slashed ∧
    bt_total (escrow_table (funds s')) + slashed = bt_total (escrow_table (funds s)) ∧
    (∀ id e d, scheduled s id e → e ≤ c → proposals s' !! id = Some d →
       c < end_epoch d ∧ scheduled s' id (c + DEAL_UPDATES_INTERVAL)).
Proof.
  intros Hi Hq Hn Hc. pose proof Hq as (Q1 & Q2 & Q3). unfold cron_deals.
  set (acc0 := Build_CronAcc s 0 [] ∅).
  assert (Hb : cron_before c s (last_cron s + 1) acc0).
  { split.
    - split_and!; try done; cbn; try lia; [by eapply deals_inv_mono| | | |].
      + intros id _. split; [done|]. set_solver.
      + intros id (e & He & Hlt). destruct (Q1 _ _ He). lia.
      + intros e. rewrite lookup_empty. by intros [? ?].
      + intros id d Hid. unfold renewed in Hid. cbn in Hid. rewrite lookup_empty in Hid. set_solver.
    - intros id e. split; [|tauto]. intros He. split; [done|]. destruct (Q1 _ _ He). lia. }
  destruct (cron_epochs_ok c s (Z.to_nat (c - last_cron s)) (last_cron s + 1) acc0 Hq Hb) as (acc & Hf & Hk & Hs); [lia|].
  rewrite Z2Nat.id in Hf, Hk, Hs by lia. rewrite Hf. cbn [mbind result_bind].
  replace (last_cron s + 1 + (c - last_cron s)) with (c + 1) in Hk, Hs by lia.
  pose proof Hk as (K1 & K2 & K3 & K4 & _ & K6 & _ & K8 & K9).
  set (l := merge_sort _ _). assert (Hl : ∀ e, e ∈ l ↔ is_Some (updates_needed acc !! e)).
  { intros e. unfold l. rewrite merge_sort_Permutation, elem_of_elements. apply elem_of_dom. }
  set (s' := set_ops _ _ _ _). assert (Hre : ∀ id e, scheduled s' id e ↔
    (scheduled s id e ∧ c < e) ∨ (e = c + DEAL_UPDATES_INTERVAL ∧ id ∈ renewed c acc)).
  { intros id e. unfold scheduled at 1. cbn. rewrite reinsert_elem. fold (scheduled (ca_state acc) id e). rewrite Hs, Hl.
    split; intros [Hx|[Hx Hy]]; [left; split; [apply Hx|lia]|right; pose proof (K8 _ Hx) as ->; done|left; split; [apply Hx|lia]|].
    right. subst e. split; [|done]. unfold renewed in Hy. destruct (updates_needed acc !! _); [done|set_solver]. }
  exists s'. do 2 eexists. split; [reflexivity|]. split_and!; try done.
  - by apply (renewed_schedule c s acc).
  - intros id e d He Hle Hd. assert (Hr : id ∈ renewed c acc) by (apply K6; [exists e; split; [done|lia]|by exists d]).
    split; [by eapply K9|]. apply Hre. by right.
Qed.

(** ** The other transactions *)

Lemma gen_rand_after start id : 0 ≤ id ≤ i64_max → start ≤ gen_rand_next_epoch start id < start + 2 * DEAL_UPDATES_INTERVAL.
Proof.
  intros Hid. unfold gen_rand_next_epoch, as_i64. rewrite (proj2 (Z.ltb_ge _ _)) by lia.
  set (q := Build_QuantSpec DEAL_UPDATES_INTERVAL 0). destruct (quantize_up_spec q start) as [_ Hr]; [done|].
  cbn [q_unit q] in Hr. assert (Ho : 0 ≤ Z.rem id DEAL_UPDATES_INTERVAL < DEAL_UPDATES_INTERVAL)
    by (apply Z.rem_bound_pos; [lia|done]).
  case_if; [|lia]. unfold quantize_down in *. cbn [q_unit q] in *. revert E. case_if; lia.
Qed.

Lemma fresh_id now s : deals_inv now s → proposals s !! mk_next_id s = None ∧ states s !! mk_next_id s = None.
Proof.
  intros (_ & H2 & H3 & _). assert (Hp : proposals s !! mk_next_id s = None).
  { destruct (proposals s !! _) as [d|] eqn:E; [|done]. destruct (H2 _ _ E). lia. }
  split; [done|]. destruct (states s !! _) as [st|] eqn:E; [|done]. destruct (H3 _ _ E) as (d & Hd & _). congruence.
Qed.

Lemma add_deal_deals now s ids d s' ids' :
  deals_inv now s → deal_ok d → cid d ∉ pending_proposals s → add_deal cid (s, ids) d = Ok (s', ids') → deals_inv now s'.
Proof.
  intros Hi Hok Hnp (f & Hl & _ & Hmax & ->)%add_deal_spec. destruct (fresh_id _ _ Hi) as [Hfp Hfs].
  destruct Hi as (H1 & H2 & H3 & H4 & (H5a & H5b & H5c) & H6 & H7 & H8).
  destruct (lock_deal_moves _ _ _ Hl H1) as (_ & _ & Hf & (He & Hlk & Ht & Hcc & Hpc & Hsf)).
  assert (Hin : ∀ k e, <[mk_next_id s := d]> (proposals s) !! k = Some e →
    (k = mk_next_id s ∧ e = d) ∨ (k ≠ mk_next_id s ∧ proposals s !! k = Some e)).
  { intros k e [[<- <-]|[? ?]]%lookup_insert_Some; auto. }
  unfold deals_inv. cbn. split_and!; try done; try lia.
  - apply map_Forall_insert_2; [split_and!; try done; lia|]. eapply map_Forall_impl; [exact H2|]. cbn. intros k e (? & ? & ?).
    split_and!; try done; lia.
  - intros id st Hs. destruct (H3 _ _ Hs) as (e & Hd & Hst). exists e. split; [|done].
    rewrite lookup_insert_ne; [done|]. congruence.
  - intros a. rewrite Hlk, H4, (map_sumk_insert_new _ _ _ _ Hfp), Hfs. unfold obligation. rewrite fee_left_none.
    unfold client_balance_requirement. lia.
  - rewrite Hcc, H5a, (map_sumk_insert_new _ _ _ _ Hfp). lia.
  - rewrite Hpc, H5b, (map_sumk_insert_new _ _ _ _ Hfp). lia.
  - rewrite Hsf, H5c, (map_sumk_insert_new _ _ _ _ Hfp), Hfs, fee_left_none. lia.
  - intros c. rewrite elem_of_union, elem_of_singleton, H6. split.
    + intros [->|(k & e & Hk & Hnu & <-)].
      * exists (mk_next_id s), d. by rewrite lookup_insert_eq, Hfs.
      * exists k, e. rewrite lookup_insert_ne by congruence. done.
    + intros (k & e & [[-> ->]|[_ Hk]]%Hin & Hnu & <-); [by left|right; by exists k, e].
  - intros i j e e' [[-> ->]|[_ Hi]]%Hin [[-> ->]|[_ Hj]]%Hin Hni Hnj Heq; [done| | |by eapply H7].
    + destruct Hnp. apply H6. exists j, e'. done.
    + destruct Hnp. apply H6. exists i, e. done.
Qed.

Lemma add_deal_schedule now s ids d s' ids' :
  deals_inv now s → schedule_inv s → last_cron s < start_epoch d → mk_next_id s ≤ i64_max →
  add_deal cid (s, ids) d = Ok (s', ids') → schedule_inv s'.
Proof.
  intros Hi (Q1 & Q2 & Q3) Hst Hid (f & _ & _ & _ & ->)%add_deal_spec. destruct (fresh_id _ _ Hi) as [Hfp _].
  destruct Hi as (_ & _ & _ & _ & _ & _ & _ & H8). pose proof (gen_rand_after (start_epoch d) (mk_next_id s) ltac:(lia)) as Hg.
  set (g := gen_rand_next_epoch _ _) in *.
  assert (Hsc : ∀ id e, (∃ X, ops_put (deal_ops_by_epoch s) g [mk_next_id s] !! e = Some X ∧ id ∈ X) ↔
    scheduled s id e ∨ (e = g ∧ id = mk_next_id s)).
  { intros id e. rewrite ops_put_elem, list_elem_of_singleton. done. }
  assert (Hold : ∀ e, ¬ scheduled s (mk_next_id s) e) by (intros e (_ & d' & ? & _)%Q1; congruence).
  unfold schedule_inv, scheduled. cbn. split_and!.
  - intros id e [He|[-> ->]]%Hsc.
    + destruct (Q1 _ _ He) as (? & d' & ? & ?). split; [done|]. exists d'. rewrite lookup_insert_ne by congruence. done.
    + split; [lia|]. exists d. rewrite lookup_insert_eq. split; [done|lia].
  - intros id e e' [He|[-> ->]]%Hsc [He'|[-> ?]]%Hsc; subst; try done; [by eapply Q2|by destruct (Hold e)|by destruct (Hold e')].
  - intros id e [[<- <-]|[_ He]]%lookup_insert_Some.
    + exists g. apply Hsc. by right.
    + destruct (Q3 _ _ He) as (x & Hx). exists x. apply Hsc. by left.
Qed.

(** Only the balances change. *)
Lemma escrow_deals now s f :
  deals_inv now s → funds_inv f → (∀ a, bt_get (locked_table f) a = bt_get (locked_table (funds s)) a) →
  total_client_locked_colateral f = total_client_locked_colateral (funds s) →
  total_provider_locked_colateral f = total_provider_locked_colateral (funds s) →
  total_client_storage_fee f = total_client_storage_fee (funds s) → deals_inv now (set_funds s f).
Proof.
  intros (H1 & H2 & H3 & H4 & (H5a & H5b & H5c) & H6 & H7 & H8) Hf Hl Hcc Hpc Hsf.
  unfold deals_inv. cbn. rewrite Hcc, Hpc, Hsf. split_and!; try done. intros a. by rewrite Hl.
Qed.

(** Activation and termination change no obligation. *)
Lemma set_state_same now s id d o st' :
  deals_inv now s → proposals s !! id = Some d → states s !! id = o → state_ok now d st' →
  paid_until d (Some st') = paid_until d o → (not_updated (Some st') ↔ not_updated o) →
  deals_inv now (set_deals s (proposals s) (<[id := st']> (states s)) (pending_proposals s)).
Proof.
  intros Hi Hd Ho Hok Hpu Hnu. pose proof Hi as (H1 & _).
  assert (Hfee : fee_left d (Some st') = fee_left d o) by (unfold fee_left; by rewrite Hpu).
  change (set_deals _ _ _ _) with (set_funds (set_deals s (proposals s) (<[id := st']> (states s)) (pending_proposals s)) (funds s)).
  apply (set_state_inv now s id d o); try done; [by right|intros c; tauto|].
  split_and!; try done; try lia. intros a. unfold obligation. rewrite Hfee. lia.
Qed.

(** ** Histories *)

(** The transactions at epoch [c], with the value each brings in.  Deals are
    published before they start, with the terms [validate_deal] asks for, once,
    and fewer than [2^63] of them; miners report the end of a sector at its
    epoch or later, but no deal as of an epoch before its last payment. *)
Inductive market_step (c : Z) : MarketState → Z → MarketState → Prop :=
| step_deposit s a v s' : 0 ≤ v → add_escrow s a v = Ok s' → market_step c s v s'
| step_withdraw s a v s' ex : 0 ≤ v → take_escrow s a v = Ok (s', ex) → market_step c s (- ex) s'
| step_publish s ids d s' ids' :
    deal_ok d → c ≤ start_epoch d → cid d ∉ pending_proposals s → mk_next_id s ≤ i64_max →
    add_deal cid (s, ids) d = Ok (s', ids') → market_step c s 0 s'
| step_activate s id s' : 0 ≤ c → activate_deal cid c s id = Ok s' → market_step c s 0 s'
| step_terminate s miner e id s' :
    (∀ st, states s !! id = Some st → last_updated_epoch st ≤ e) → e ≤ c →
    terminate_deal miner e s id = Ok s' → market_step c s 0 s'
| step_cron s s' slashed timed_out :
    cron_deals cid absent_ok absent_ops_ok set_order s c = Ok (s', (slashed, timed_out)) →
    market_step c s (- slashed) s'.

(** States reached by epoch [t], with the value brought in so far.  The cron
    tick is the last transaction of its epoch. *)
Inductive market_history : Z → Z → MarketState → Prop :=
| history_new : market_history EPOCH_UNDEFINED 0 market_state_new
| history_step t c held v s s' :
    market_history t held s → t ≤ c → last_cron s < c → market_step c s v s' → market_history c (held + v) s'.

Lemma schedule_frame s s' :
  schedule_inv s → deal_ops_by_epoch s' = deal_ops_by_epoch s → proposals s' = proposals s → last_cron s' = last_cron s →
  schedule_inv s'.
Proof. unfold schedule_inv, scheduled. by intros Hq -> -> ->. Qed.

Lemma market_step_inv c s v s' :
  market_step c s v s' → deals_inv c s → schedule_inv s → last_cron s < c →
  deals_inv c s' ∧ schedule_inv s' ∧ bt_total (escrow_table (funds s')) = bt_total (escrow_table (funds s)) + v.
Proof.
  intros Hstep Hi Hq Hc. pose proof Hi as (H1 & _ & H3 & _).
  destruct Hstep as [s a v s' Hv H|s a v s' ex Hv H|s ids d s' ids' Hok Hst Hnp Hid H|s id s' Hc0 H|s miner e id s' Hlu He H
    |s s' slashed timed_out H].
  - destruct (add_escrow_spec _ _ _ _ H H1 Hv) as (-> & Hf & _ & (_ & Hl & Ht & Hcc & Hpc & Hsf)). cbn in *.
    split_and!; [apply escrow_deals; try done; try lia; intros b; rewrite Hl; lia|by eapply schedule_frame|done].
  - destruct (take_escrow_spec _ _ _ _ _ H H1 Hv) as (-> & Hf & _ & (_ & Hl & Ht & Hcc & Hpc & Hsf)). cbn in *.
    split_and!; [apply escrow_deals; try done; try lia; intros b; rewrite Hl; lia|by eapply schedule_frame|done].
  - split_and!; [by eapply add_deal_deals|eapply add_deal_schedule; [..|exact H]; try done; lia|].
    apply add_deal_spec in H as (f & Hl & _ & _ & ->). cbn.
    destruct (lock_deal_moves _ _ _ Hl H1) as (_ & _ & _ & (_ & _ & Ht & _)). lia.
  - apply activate_deal_spec in H as (d & Hd & Hn & _ & ->). split_and!; [|by eapply schedule_frame|cbn; lia].
    apply (set_state_same c s id d None); try done. unfold state_ok, EPOCH_UNDEFINED. cbn. lia.
  - apply terminate_deal_spec in H as [->|(d & st & Hd & Hs & _ & Hend & Hns & ->)]; [split_and!; try done; lia|].
    split_and!; [|by eapply schedule_frame|cbn; lia]. apply (set_state_same c s id d (Some st)); try done.
    destruct (H3 _ _ Hs) as (d' & Hd' & Hok). rewrite Hd in Hd'. injection Hd' as <-. destruct Hok as (? & ? & ?).
    specialize (Hlu _ Hs). split_and!; cbn; [done|done|]. right. lia.
  - destruct (cron_deals_ok c s c Hi Hq) as (s1 & sl & tv & Hcr & Hi1 & Hq1 & _ & _ & Ht & _); [lia|done|].
    rewrite H in Hcr. injection Hcr as -> -> ->. split_and!; [done|done|lia].
Qed.

Lemma history_inv t held s :
  market_history t held s →
  deals_inv t s ∧ schedule_inv s ∧ bt_total (escrow_table (funds s)) = held.
Proof.
  induction 1 as [|t c held v s s' _ (Hi & Hq & Ht) Hle Hc Hstep].
  - split_and!; [split_and!|split_and!|]; cbn; try done.
    all: try (intros ? ?; rewrite lookup_empty; done).
    + intros c. split; [set_solver|]. by intros (? & ? & ? & _).
    + intros id e (X & HX & _). cbn in HX. by rewrite lookup_empty in HX.
    + intros id e e' (X & HX & _). cbn in HX. by rewrite lookup_empty in HX.
  - destruct (market_step_inv c s v s' Hstep) as (Hi' & Hq' & Ht'); [by eapply deals_inv_mono|done|done|].
    split_and!; [done|done|lia].
Qed.

End inv.

(** ** Theorems *)


(** *** A concrete history *)

Definition ex_client : Address := {| network := Mainnet; payload := ID 101 |}.
Definition ex_provider : Address := {| network := Mainnet; payload := ID 102 |}.
Definition ex_deal : DealProposal :=
  {| piece_cid := []; piece_size := 2048; verified_deal := false; client := ex_client; provider := ex_provider; label := [7];
     start_epoch := 0; end_epoch := 5000; storage_price_per_epoch := 1; provider_collateral := 50; client_collateral := 3 |}.

Notation ex_run m := (m label (λ _ _, true) (λ _ _, true) (@elements Z (gset Z) _)).
Notation ok_or_new r := (match r with Ok x => x | Err _ => market_state_new end).

(** Both deposit, the deal is published and activated, and the cron tick of
    epoch 5 makes its first payment. *)
Definition ex_funded : MarketState := ok_or_new (s ← add_escrow market_state_new ex_client 5003; add_escrow s ex_provider 50).
Definition ex_published : MarketState := ok_or_new (r ← add_deal label (ex_funded, []) ex_deal; mret r.1).
Definition ex_active : MarketState := ok_or_new (activate_deal label 0 ex_published 0).
Definition ex_updated : MarketState := ok_or_new (r ← ex_run cron_deals ex_active 5; mret r.1).

Lemma ex_history : ex_run market_history 5 5053 ex_updated.
Proof.
  set (s1 := ok_or_new (add_escrow market_state_new ex_client 5003)).
  assert (H1 : ex_run market_history 0 (0 + 5003) s1).
  { eapply history_step; [apply history_new|done|done|]. by apply (step_deposit _ _ _ _ _ _ ex_client). }
  assert (H2 : ex_run market_history 0 (0 + 5003 + 50) ex_funded).
  { eapply history_step; [exact H1|done|done|]. by apply (step_deposit _ _ _ _ _ _ ex_provider). }
  assert (H3 : ex_run market_history 0 (0 + 5003 + 50 + 0) ex_published).
  { eapply history_step; [exact H2|done|done|].
    eapply (step_publish _ _ _ _ _ _ [] ex_deal); [by vm_compute|done|by apply (bool_decide_unpack _); vm_compute|done|].
    vm_compute. reflexivity. }
  assert (H4 : ex_run market_history 0 (0 + 5003 + 50 + 0 + 0) ex_active).
  { eapply history_step; [exact H3|done|done|]. eapply (step_activate _ _ _ _ _ _ 0); [done|]. vm_compute. reflexivity. }
  apply (history_step label (λ _ _, true) (λ _ _, true) elements 0 5 5053 0 ex_active ex_updated); [exact H4|done|done|].
  apply (step_cron label _ _ _ 5 ex_active ex_updated 0 []). vm_compute. reflexivity.
Qed.


(** Epochs without deals change nothing. *)
Lemma cron_idle cid absent_ok set_order c i n acc :
  (∀ e, i ≤ e < i + Z.of_nat n → deal_ops_by_epoch (ca_state acc) !! e = None) → set_order ∅ = [] →
  try_fold (cron_epoch cid absent_ok (λ _ _, true) set_order c) acc (seqZ i (Z.of_nat n)) = Ok acc.
Proof.
  intros Hn Ho. revert i Hn. induction n as [|n IH]; intros i Hn; [done|]. rewrite seqZ_cons by lia. cbn [try_fold].
  replace (Z.pred (Z.of_nat (S n))) with (Z.of_nat n) by lia. unfold cron_epoch at 1. rewrite (Hn i) by lia. cbn [default from_option].
  rewrite Ho. cbn [try_fold mbind result_bind]. rewrite (Hn i) by lia. cbn. rewrite delete_id by (apply Hn; lia).
  replace (Build_CronAcc _ _ _ _) with acc by (by destruct acc as [[] ???]). apply IH. intros e He. apply Hn. lia.
Qed.

Definition ex_terminated : MarketState := ok_or_new (terminate_deal ex_provider 3 ex_updated 0).

