(* ===== verification/Vesting.v ===== *)
(** * Vesting of a miner's funds

    [policy.rs] (the vesting schedule) and [vesting_state.rs] of
    [src/vm/actor/src/builtin/miner/]: the table of funds that vest, and the
    operations on it. *)

From S2P Require Import Prelude Runtime Types.

(** ** Stable sorting by an integer key *)

Section sort.
Context {A : Type} (key : A → Z).

Fixpoint insert_by (x : A) (l : list A) : list A :=
  match l with
  | [] => [x]
  | y :: l => if key x <=? key y then x :: y :: l else y :: insert_by x l
  end.
(** [sort_by_key] *)
Definition sort_by (l : list A) : list A := foldr insert_by [] l.

(** Ascending, and strictly ascending. *)
Definition ascending (l : list A) : Prop := StronglySorted (λ x y, key x ≤ key y) l.
Definition increasing (l : list A) : Prop := StronglySorted (λ x y, key x < key y) l.

Lemma insert_by_perm x l : insert_by x l ≡ₚ x :: l.
Proof. induction l as [|y l IH]; cbn; [done|]. case_if; [done|]. rewrite IH. apply Permutation_swap. Qed.
Lemma sort_by_perm l : sort_by l ≡ₚ l.
Proof. induction l as [|x l IH]; cbn; [done|]. by rewrite insert_by_perm, IH. Qed.

Lemma insert_by_ascending x l : ascending l → ascending (insert_by x l).
Proof.
  induction 1 as [|y l Hl IH Hy]; cbn; [repeat constructor|]. case_if; reflect_bools.
  - constructor; [by constructor|]. constructor; [lia|]. eapply Forall_impl; [exact Hy|]. cbn. lia.
  - constructor; [done|]. rewrite insert_by_perm. constructor; [lia|done].
Qed.
Lemma sort_by_ascending l : ascending (sort_by l).
Proof. induction l; cbn; [constructor|]. by apply insert_by_ascending. Qed.

Lemma ascending_increasing l : ascending l → NoDup (key <$> l) → increasing l.
Proof.
  induction 1 as [|x l Hl IH Hx]; cbn; [constructor|]. rewrite NoDup_cons. intros [Hn Hd]. constructor; [by apply IH|].
  apply Forall_forall. intros y Hy. rewrite Forall_forall in Hx. specialize (Hx y Hy).
  assert (key x ≠ key y) by (intros He; apply Hn; rewrite He; by apply list_elem_of_fmap_2). lia.
Qed.
Lemma increasing_nodup l : increasing l → NoDup (key <$> l).
Proof.
  induction 1 as [|x l Hl IH Hx]; cbn; [constructor|]. constructor; [|done].
  intros (y & He & Hy)%list_elem_of_fmap. rewrite Forall_forall in Hx. specialize (Hx y Hy). lia.
Qed.
Lemma increasing_app l1 l2 : increasing (l1 ++ l2) ↔ increasing l1 ∧ increasing l2 ∧ (∀ x y, x ∈ l1 → y ∈ l2 → key x < key y).
Proof.
  induction l1 as [|x l1 IH]; cbn.
  { split; [intros; split_and!; [constructor|done|set_solver]|tauto]. }
  split.
  - inversion_clear 1 as [|?? Hl Hx]. apply IH in Hl as (? & ? & Hlt). rewrite Forall_app, !Forall_forall in Hx.
    destruct Hx as [Hx1 Hx2]. split_and!; [constructor; [done|by apply Forall_forall]|done|].
    intros a b [->|Ha]%elem_of_cons Hb; [by apply Hx2|by apply Hlt].
  - intros (H1 & H2 & Hlt). inversion_clear H1 as [|?? Hl Hx]. constructor.
    + apply IH. split_and!; [done|done|]. intros a b Ha Hb. apply Hlt; [by right|done].
    + apply Forall_app. split; [done|]. apply Forall_forall. intros b Hb. apply Hlt; [by left|done].
Qed.
End sort.

(** ** Quantisation is monotone *)

Lemma quantize_up_mono q e e' : 0 < q_unit q → e ≤ e' → quantize_up q e ≤ quantize_up q e'.
Proof.
  intros Hu He. destruct (quantize_up_spec q e Hu) as [[i Hi] Hr], (quantize_up_spec q e' Hu) as [[j Hj] Hr'].
  cbn zeta in *. destruct (Z.le_gt_cases (quantize_up q e) (quantize_up q e')) as [|Hlt]; [done|].
  assert (i ≤ j) by nia. nia.
Qed.
Lemma quantize_up_fix q e : 0 < q_unit q → (q_unit q | e - q_offset q) → quantize_up q e = e.
Proof.
  intros Hu [k Hk]. destruct (quantize_up_spec q e Hu) as [[i Hi] Hr]. cbn zeta in *.
  assert (i = k) by nia. nia.
Qed.
Lemma quantize_up_idem q e : 0 < q_unit q → quantize_up q (quantize_up q e) = quantize_up q e.
Proof. intros Hu. apply quantize_up_fix; [done|]. by destruct (quantize_up_spec q e Hu). Qed.

(** ** [policy.rs] *)

Record VestSpec := { initial_delay : Z; vest_period : Z; step_duration : Z; quantization : Z }.

Definition REWARD_VESTING_SPEC : VestSpec :=
  {| initial_delay := 0; vest_period := 180 * EPOCHS_IN_DAY; step_duration := EPOCHS_IN_DAY;
     quantization := 12 * EPOCHS_IN_HOUR |}.

(** ** [vesting_state.rs] *)

Record VestingFund := { vf_epoch : Z; vf_amount : Z }.
Notation VestingFunds := (list VestingFund).

Definition amounts (fs : VestingFunds) : Z := zsum (vf_amount <$> fs).

Definition vf_unlock_vested_funds (fs : VestingFunds) (current_epoch : Z) : VestingFunds * Z :=
  let i := default (length fs) (fst <$> list_find (λ f, current_epoch ≤ vf_epoch f) fs) in
  (drop i fs, amounts (take i fs)).

(** The entry that [epoch_to_index] has for [epoch], the last one, gets [v]. *)
Fixpoint add_to_entry (fs : VestingFunds) (epoch v : Z) : option VestingFunds :=
  match fs with
  | [] => None
  | f :: fs =>
      match add_to_entry fs epoch v with
      | Some fs' => Some (f :: fs')
      | None => if vf_epoch f =? epoch then Some ({| vf_epoch := epoch; vf_amount := vf_amount f + v |} :: fs) else None
      end
  end.
Definition add_entry (fs : VestingFunds) (epoch v : Z) : VestingFunds :=
  default (fs ++ [{| vf_epoch := epoch; vf_amount := v |}]) (add_to_entry fs epoch v).

(** What has vested [elapsed] epochs after the start. *)
Definition target_vest (spec : VestSpec) (vesting_sum elapsed : Z) : Z :=
  if elapsed <? vest_period spec then vesting_sum * elapsed / vest_period spec else vesting_sum.

(** The [while] loop; [None] when the fuel runs out. *)
Fixpoint vest_loop (fuel : nat) (fs : VestingFunds) (spec : VestSpec) (q : QuantSpec)
    (vest_begin vesting_sum vested_so_far epoch : Z) : option VestingFunds :=
  if vested_so_far <? vesting_sum then
    match fuel with
    | O => None
    | S fuel =>
        let epoch := epoch + step_duration spec in
        let vest_epoch := quantize_up q epoch in
        let target := target_vest spec vesting_sum (vest_epoch - vest_begin) in
        vest_loop fuel (add_entry fs vest_epoch (target - vested_so_far)) spec q vest_begin vesting_sum target epoch
    end
  else Some fs.

(** Each turn moves on by a step, and all has vested after the period. *)
Definition vest_fuel (spec : VestSpec) : nat := Z.to_nat (vest_period spec / step_duration spec + 1).

Definition vf_add_locked_funds (fs : VestingFunds) (current_epoch vesting_sum proving_period_start : Z) (spec : VestSpec)
    : option VestingFunds :=
  let q := {| q_unit := quantization spec; q_offset := proving_period_start |} in
  let vest_begin := current_epoch + initial_delay spec in
  sort_by vf_epoch <$> vest_loop (vest_fuel spec) fs spec q vest_begin vesting_sum 0 vest_begin.

(** The loop of [unlock_unvested_funds]: the entries with their new amounts, the
    amount unlocked, [last] and [start]. *)
Fixpoint unvested_loop (fs : VestingFunds) (i : nat) (current_epoch target amount_unlocked : Z) (last : option nat) (start : nat)
    : VestingFunds * (Z * option nat * nat) :=
  match fs with
  | [] => ([], (amount_unlocked, last, start))
  | vf :: rest =>
      if target <=? amount_unlocked then (fs, (amount_unlocked, last, start))
      else if current_epoch <=? vf_epoch vf then
        let unlock_amount := Z.min (target - amount_unlocked) (vf_amount vf) in
        let new_amount := vf_amount vf - unlock_amount in
        let '(vf', last') :=
          if new_amount =? 0 then (vf, Some i) else ({| vf_epoch := vf_epoch vf; vf_amount := new_amount |}, last) in
        let '(rest, r) := unvested_loop rest (S i) current_epoch target (amount_unlocked + unlock_amount) last' start in
        (vf' :: rest, r)
      else
        let '(rest, r) := unvested_loop rest (S i) current_epoch target amount_unlocked last (S i) in
        (vf :: rest, r)
  end.

(** [drain(start..=end)] panics when the range is not one of the vector. *)
Definition vf_unlock_unvested_funds (fs : VestingFunds) (current_epoch target : Z) : option (VestingFunds * Z) :=
  let '(fs, (amount_unlocked, last, start)) := unvested_loop fs 0 current_epoch target 0 None 0 in
  match last with
  | Some end_ =>
      if ((start <=? S end_) && (S end_ <=? length fs))%nat then Some (take start fs ++ drop (S end_) fs, amount_unlocked)
      else None
  | None => Some (fs, amount_unlocked)
  end.

(** ** What the operations do *)

(** Sums of the amounts, weighted by the epoch. *)
Definition wsum (w : Z → Z) (fs : VestingFunds) : Z := zsum ((λ f, w (vf_epoch f) * vf_amount f) <$> fs).
(** What vests by [e]. *)
Definition by_epoch (e x : Z) : Z := if x <=? e then 1 else 0.
Notation vested_by fs e := (wsum (by_epoch e) fs).

Definition table_ok (fs : VestingFunds) : Prop := increasing vf_epoch fs ∧ Forall (λ f, 0 ≤ vf_amount f) fs.
Definition spec_ok (spec : VestSpec) : Prop :=
  0 ≤ initial_delay spec ∧ 0 < vest_period spec ∧ 0 < step_duration spec ∧ 0 < quantization spec.

Lemma amounts_wsum fs : amounts fs = wsum (λ _, 1) fs.
Proof. unfold amounts, wsum. f_equal. apply list_fmap_ext. intros i f _. lia. Qed.
Lemma wsum_app w fs gs : wsum w (fs ++ gs) = wsum w fs + wsum w gs.
Proof. unfold wsum. rewrite fmap_app. apply zsum_app. Qed.
Lemma wsum_cons w f fs : wsum w (f :: fs) = w (vf_epoch f) * vf_amount f + wsum w fs.
Proof. done. Qed.
#[global] Instance wsum_perm w : Proper ((≡ₚ) ==> (=)) (wsum w).
Proof.
  intros fs gs Hp. induction Hp as [|f fs gs _ IH|f g fs|fs gs hs _ IH1 _ IH2]; [done| | |lia]; rewrite !wsum_cons; lia.
Qed.
Lemma wsum_le w w' fs :
  Forall (λ f, 0 ≤ vf_amount f) fs → (∀ x, w x ≤ w' x) → wsum w fs ≤ wsum w' fs.
Proof.
  intros Hf Hw. induction Hf as [|f fs Hf _ IH]; [done|]. rewrite !wsum_cons. specialize (Hw (vf_epoch f)). nia.
Qed.
Lemma wsum_ext w w' fs : Forall (λ f, w (vf_epoch f) = w' (vf_epoch f)) fs → wsum w fs = wsum w' fs.
Proof. induction 1 as [|f fs Hf _ IH]; [done|]. rewrite !wsum_cons, IH, Hf. done. Qed.
Lemma wsum_zero fs : wsum (λ _, 0) fs = 0.
Proof. induction fs as [|f fs IH]; [done|]. rewrite wsum_cons, IH. lia. Qed.
Lemma by_epoch_range e x : 0 ≤ by_epoch e x ≤ 1.
Proof. unfold by_epoch. case_if; lia. Qed.

Lemma add_to_entry_spec fs e v fs' :
  add_to_entry fs e v = Some fs' →
  vf_epoch <$> fs' = vf_epoch <$> fs ∧ (∀ w, wsum w fs' = wsum w fs + w e * v) ∧
  (0 ≤ v → Forall (λ f, 0 ≤ vf_amount f) fs → Forall (λ f, 0 ≤ vf_amount f) fs').
Proof.
  revert fs'. induction fs as [|f fs IH]; intros fs' H; cbn in H; [done|].
  destruct (add_to_entry fs e v) as [gs|].
  - injection H as <-. destruct (IH gs eq_refl) as (He & Hw & Hn). split_and!.
    + cbn. by rewrite He.
    + intros w. rewrite !wsum_cons, Hw. lia.
    + intros Hv. inversion_clear 1. constructor; auto.
  - destruct (vf_epoch f =? e) eqn:E; [|done]. reflect_bools. injection H as <-. split_and!.
    + cbn. by rewrite E.
    + intros w. rewrite !wsum_cons. cbn. rewrite E. lia.
    + intros Hv. inversion_clear 1. constructor; [cbn; lia|done].
Qed.
Lemma add_to_entry_none fs e v : add_to_entry fs e v = None → e ∉ vf_epoch <$> fs.
Proof.
  induction fs as [|f fs IH]; cbn; [set_solver|]. destruct (add_to_entry fs e v); [done|].
  case_if; [done|]. intros _. specialize (IH eq_refl). set_solver.
Qed.

Lemma add_entry_spec fs e v :
  NoDup (vf_epoch <$> fs) → NoDup (vf_epoch <$> add_entry fs e v) ∧ (∀ w, wsum w (add_entry fs e v) = wsum w fs + w e * v) ∧
  (0 ≤ v → Forall (λ f, 0 ≤ vf_amount f) fs → Forall (λ f, 0 ≤ vf_amount f) (add_entry fs e v)).
Proof.
  intros Hd. unfold add_entry. destruct (add_to_entry fs e v) as [gs|] eqn:E; cbn [default from_option]; unfold id.
  - apply add_to_entry_spec in E as (He & Hw & Hn). split_and!; [by rewrite He|done|done].
  - apply add_to_entry_none in E. split_and!.
    + rewrite fmap_app. apply NoDup_app. split_and!; [done| |apply NoDup_singleton].
      intros x Hx ->%list_elem_of_singleton. done.
    + intros w. rewrite wsum_app. unfold wsum at 2. cbn. lia.
    + intros Hv Hf. apply Forall_app. split; [done|]. by repeat constructor.
Qed.

Lemma target_vest_mono spec s x y :
  0 < vest_period spec → 0 ≤ s → x ≤ y → target_vest spec s x ≤ target_vest spec s y.
Proof.
  intros Hp Hs Hxy. unfold target_vest. repeat case_if; reflect_bools.
  - apply Z.div_le_mono; [done|]. nia.
  - apply Z.div_le_upper_bound; [done|]. nia.
  - lia.
  - lia.
Qed.
Lemma target_vest_range spec s x : 0 < vest_period spec → 0 ≤ s → 0 ≤ x → 0 ≤ target_vest spec s x ≤ s.
Proof.
  intros Hp Hs Hx. unfold target_vest. case_if; reflect_bools; [|lia].
  split; [apply Z.div_pos; nia|]. apply Z.div_le_upper_bound; [done|]. nia.
Qed.
Lemma target_vest_neg spec s x : 0 < vest_period spec → 0 ≤ s → x ≤ 0 → target_vest spec s x ≤ 0.
Proof.
  intros Hp Hs Hx. unfold target_vest. case_if; reflect_bools; [|lia].
  replace 0 with (0 / vest_period spec) by (apply Z.div_0_l; lia). apply Z.div_le_mono; [done|]. nia.
Qed.

Lemma target_vest_done spec s x : vest_period spec ≤ x → target_vest spec s x = s.
Proof. intros Hx. unfold target_vest. by rewrite (proj2 (Z.ltb_ge _ _) Hx). Qed.

Section vest_loop.
Context (spec : VestSpec) (q : QuantSpec) (vest_begin s : Z).
Context (Hspec : spec_ok spec) (Hq : q_unit q = quantization spec) (Hs : 0 ≤ s).
Notation T x := (target_vest spec s (x - vest_begin)).

(** From a point where [vested] is what has vested at [p]: what the rest of the
    loop adds by an epoch lies between the line one step and one quantum before
    and the line itself. *)
Lemma vest_loop_spec fuel fs p vested epoch :
  NoDup (vf_epoch <$> fs) → Forall (λ f, 0 ≤ vf_amount f) fs →
  vest_begin ≤ epoch → epoch ≤ p → p < epoch + quantization spec → 0 ≤ vested ≤ s → (vested = T p ∨ vested = 0 ∧ p = vest_begin) →
  p ≤ quantize_up q (epoch + step_duration spec) →
  vest_begin + vest_period spec ≤ epoch + Z.of_nat fuel * step_duration spec →
  ∃ fs', vest_loop fuel fs spec q vest_begin s vested epoch = Some fs' ∧ NoDup (vf_epoch <$> fs') ∧
    Forall (λ f, 0 ≤ vf_amount f) fs' ∧ amounts fs' = amounts fs + (s - vested) ∧
    ∀ e, (p ≤ e → T (e - step_duration spec - quantization spec) ≤ vested + (vested_by fs' e - vested_by fs e) ≤ Z.max vested (T e)) ∧
         (e < quantize_up q (epoch + step_duration spec) → vested_by fs' e = vested_by fs e) ∧
         vested_by fs e ≤ vested_by fs' e.
Proof.
  destruct Hspec as (_ & Hp & Hst & Hqu).
  revert fs p vested epoch. induction fuel as [|fuel IH]; intros fs p vested epoch Hd Hn Hb Hep Hpq Hv HT Hpn Hfuel.
  all: cbn [vest_loop]; case_if; reflect_bools.
  1: { exfalso. destruct HT as [HT|[-> ->]]; [|lia]. rewrite target_vest_done in HT by lia. lia. }
  1, 3: exists fs; split_and!; try done; [lia|]; intros e; split_and!; [|done|done]; intros _;
        assert (T (e - step_duration spec - quantization spec) ≤ s)
          by (transitivity (target_vest spec s (Z.max (e - step_duration spec - quantization spec - vest_begin) 0));
              [apply target_vest_mono; lia|apply target_vest_range; lia]); lia.
  set (epoch' := epoch + step_duration spec) in *. set (p' := quantize_up q epoch') in *.
  destruct (quantize_up_spec q epoch') as [_ Hr]; [lia|]. cbn zeta in Hr. fold p' in Hr. rewrite Hq in Hr.
  assert (Hmono : vested ≤ T p').
  { destruct HT as [->|[-> _]]; [apply target_vest_mono; lia|]. apply target_vest_range; lia. }
  destruct (add_entry_spec fs p' (T p' - vested) Hd) as (Hd' & Hw & Hn').
  destruct (IH (add_entry fs p' (T p' - vested)) p' (T p') epoch') as (fs' & -> & Hd2 & Hn2 & Ha & He);
    try done; try lia; [apply Hn'; [lia|done]|apply target_vest_range; lia|apply quantize_up_mono; lia|].
  exists fs'. rewrite !amounts_wsum, Hw in *. split_and!; try done; [lia|]. intros e. destruct (He e) as (He1 & He2 & He3).
  rewrite Hw in He1, He2, He3. assert (He4 : by_epoch e p' = if decide (p' ≤ e) then 1 else 0).
  { unfold by_epoch. case_decide; case_if; reflect_bools; lia. }
  rewrite He4 in *. assert (Hlater : p' ≤ quantize_up q (epoch' + step_duration spec)) by (apply quantize_up_mono; lia).
  split_and!; [| |case_decide; lia].
  - intros Hpe. case_decide as Hle.
    + destruct (He1 Hle) as [Hlo Hup]. split; [lia|]. assert (T p' ≤ T e) by (apply target_vest_mono; lia). lia.
    + rewrite He2 by lia. split; [|lia]. destruct HT as [->|[-> ->]].
      * apply Z.le_trans with (T p); [apply target_vest_mono; lia|lia].
      * enough (T (e - step_duration spec - quantization spec) ≤ 0) by lia. apply target_vest_neg; lia.
  - intros Hlt. rewrite He2 by lia. case_decide; lia.
Qed.
End vest_loop.

Lemma by_perm_ok fs gs : fs ≡ₚ gs → Forall (λ f, 0 ≤ vf_amount f) gs → Forall (λ f, 0 ≤ vf_amount f) fs.
Proof. by intros ->. Qed.

Lemma vf_add_locked_spec fs cur s pps spec :
  table_ok fs → spec_ok spec → 0 ≤ s →
  ∃ fs', vf_add_locked_funds fs cur s pps spec = Some fs' ∧ table_ok fs' ∧ amounts fs' = amounts fs + s ∧
    ∀ e, let elapsed := e - (cur + initial_delay spec) in
      Z.max 0 (target_vest spec s (elapsed - step_duration spec - quantization spec)) ≤
      vested_by fs' e - vested_by fs e ≤ Z.max 0 (target_vest spec s elapsed).
Proof.
  intros [Hinc Hn] Hok Hs. unfold vf_add_locked_funds. set (q := Build_QuantSpec _ _). set (b := cur + initial_delay spec).
  pose proof Hok as (Hid & Hp & Hst & Hqu).
  destruct (vest_loop_spec spec q b s Hok eq_refl Hs (vest_fuel spec) fs b 0 b) as (gs & Hl & Hd & Hn' & Ha & He);
    try done; try lia; [by apply increasing_nodup|destruct (quantize_up_spec q (b + step_duration spec)); cbn in *; lia| |].
  { unfold vest_fuel. pose proof (Z.div_mod (vest_period spec) (step_duration spec)).
    pose proof (Z.mod_pos_bound (vest_period spec) (step_duration spec)).
    assert (0 ≤ vest_period spec / step_duration spec) by (apply Z.div_pos; lia). nia. }
  rewrite Hl. exists (sort_by vf_epoch gs). split; [done|]. pose proof (sort_by_perm vf_epoch gs) as Hperm.
  split; [|split].
  - split; [|by eapply by_perm_ok]. apply ascending_increasing; [apply sort_by_ascending|]. by rewrite Hperm.
  - rewrite amounts_wsum, Hperm, <- amounts_wsum. lia.
  - intros e. rewrite Hperm. destruct (He e) as (He1 & He2 & He3). destruct (decide (b ≤ e)) as [Hle|Hgt].
    + specialize (He1 Hle).
      replace (e - b - step_duration spec - quantization spec) with (e - step_duration spec - quantization spec - b) by lia.
      lia.
    + rewrite He2 by (destruct (quantize_up_spec q (b + step_duration spec)); cbn in *; lia).
      assert (target_vest spec s (e - b - step_duration spec - quantization spec) ≤ 0) by (apply target_vest_neg; lia). lia.
Qed.

Lemma increasing_split fs cur :
  increasing vf_epoch fs →
  let i := default (length fs) (fst <$> list_find (λ f, cur ≤ vf_epoch f) fs) in
  Forall (λ f, vf_epoch f < cur) (take i fs) ∧ Forall (λ f, cur ≤ vf_epoch f) (drop i fs).
Proof.
  intros Hinc i. unfold i. destruct (list_find _ fs) as [[j f]|] eqn:E; cbn.
  - apply list_find_Some in E as (Hj & Hf & Hbefore). split.
    + apply Forall_forall. intros x (k & Hk)%list_elem_of_lookup. apply lookup_take_Some in Hk as [Hk Hlt].
      specialize (Hbefore k x Hk Hlt). cbn in Hbefore. lia.
    + rewrite <- (take_drop j fs) in Hinc. apply increasing_app in Hinc as (_ & Hinc & _).
      rewrite (drop_S fs f j Hj) in *. inversion_clear Hinc as [|? ? _ Hall]. constructor; [done|].
      eapply Forall_impl; [exact Hall|]. cbn in *. lia.
  - apply list_find_None in E. rewrite take_ge, drop_ge by done. split; [|constructor].
    eapply Forall_impl; [exact E|]. cbn. lia.
Qed.

Lemma vested_all fs e : Forall (λ f, vf_epoch f ≤ e) fs → vested_by fs e = amounts fs.
Proof.
  intros Hf. rewrite amounts_wsum. apply wsum_ext. eapply Forall_impl; [exact Hf|]. cbn. intros f Hle.
  unfold by_epoch. by rewrite (proj2 (Z.leb_le _ _) Hle).
Qed.
Lemma vested_none fs e : Forall (λ f, e < vf_epoch f) fs → vested_by fs e = 0.
Proof.
  intros Hf. rewrite <- (wsum_zero fs). apply wsum_ext. eapply Forall_impl; [exact Hf|]. cbn. intros f Hle.
  unfold by_epoch. by rewrite (proj2 (Z.leb_gt _ _) Hle).
Qed.
Lemma vested_range fs e : Forall (λ f, 0 ≤ vf_amount f) fs → 0 ≤ vested_by fs e ≤ amounts fs.
Proof.
  intros Hf. rewrite amounts_wsum. split; [rewrite <- (wsum_zero fs)|]; (apply wsum_le; [done|]); intros x; apply by_epoch_range.
Qed.
Lemma amounts_app fs gs : amounts (fs ++ gs) = amounts fs + amounts gs.
Proof. rewrite !amounts_wsum. apply wsum_app. Qed.
Lemma table_app fs gs : table_ok (fs ++ gs) ↔
  table_ok fs ∧ table_ok gs ∧ (∀ f g, f ∈ fs → g ∈ gs → vf_epoch f < vf_epoch g).
Proof. unfold table_ok. rewrite increasing_app, Forall_app. tauto. Qed.

(** Taking [x] off the first entry of a table. *)
Lemma vested_drop_front C D D' x e :
  table_ok (C ++ D) → (D' = D ∧ x = 0 ∨ ∃ f D0, D = f :: D0 ∧ 0 ≤ x ≤ vf_amount f ∧
    D' = {| vf_epoch := vf_epoch f; vf_amount := vf_amount f - x |} :: D0) →
  vested_by D' e = Z.max 0 (vested_by (C ++ D) e - (amounts C + x)).
Proof.
  intros (HC & HD & Hlt)%table_app Hcase. rewrite wsum_app.
  pose proof (vested_range C e (proj2 HC)). pose proof (vested_range D e (proj2 HD)).
  destruct (decide (Forall (λ f, vf_epoch f ≤ e) C)) as [Hall|Hex].
  - rewrite (vested_all C e Hall). destruct Hcase as [[-> ->]|(f & D0 & -> & Hx & ->)]; [lia|].
    rewrite !wsum_cons in *. cbn. destruct HD as [Hinc Hn]. inversion_clear Hn as [|?? _ Hn0].
    pose proof (vested_range D0 e Hn0). inversion_clear Hinc as [|?? _ Hf]. unfold by_epoch at 1 3. case_if; reflect_bools; [lia|].
    rewrite (vested_none D0 e); [lia|]. eapply Forall_impl; [exact Hf|]. cbn. lia.
  - apply not_Forall_Exists in Hex; [|apply _]. apply Exists_exists in Hex as (c & Hc & Hgt). cbn in Hgt.
    assert (HD0 : Forall (λ f, e < vf_epoch f) D) by (apply Forall_forall; intros f Hf; specialize (Hlt c f Hc Hf); lia).
    rewrite (vested_none D e HD0). rewrite vested_none; [|destruct Hcase as [[-> _]|(f & D0 & -> & _ & ->)]; [done|by inversion_clear HD0; constructor]].
    assert (0 ≤ x) by (destruct Hcase as [[_ ->]|(? & ? & ? & ? & ?)]; lia). lia.
Qed.

Lemma vf_unlock_vested_spec fs cur :
  table_ok fs → let '(fs', v) := vf_unlock_vested_funds fs cur in
  table_ok fs' ∧ v = vested_by fs (cur - 1) ∧ amounts fs' = amounts fs - v ∧ 0 ≤ v ∧
  ∀ e, vested_by fs' e = Z.max 0 (vested_by fs e - v).
Proof.
  intros Hok. unfold vf_unlock_vested_funds. pose proof (increasing_split fs cur (proj1 Hok)) as [Hlt Hge].
  set (i := default _ _) in *. clearbody i. assert (Hfs : fs = take i fs ++ drop i fs) by by rewrite take_drop.
  set (A := take i fs) in *. set (B := drop i fs) in *. clearbody A B. subst fs. pose proof Hok as (HA & HB & _)%table_app.
  rewrite wsum_app, amounts_app, (vested_all A), (vested_none B); try (eapply Forall_impl; [eassumption|]; cbn; lia).
  pose proof (vested_range A cur (proj2 HA)). split_and!; try done; try lia.
  intros e. rewrite (vested_drop_front A B B 0) by (done || by left). f_equal. lia.
Qed.

Lemma unvested_passed A B i cur target u last start :
  Forall (λ f, vf_epoch f < cur) A → u < target →
  unvested_loop (A ++ B) i cur target u last start =
  let '(B', r) := unvested_loop B (i + length A) cur target u last (if decide (A = []) then start else (i + length A)%nat) in (A ++ B', r).
Proof.
  intros HA Hu. revert i start. induction HA as [|f A Hf HA IH]; intros i start.
  { cbn [app length]. rewrite Nat.add_0_r, decide_True by done. by destruct (unvested_loop _ _ _ _ _ _ _). }
  cbn [app unvested_loop]. rewrite (proj2 (Z.leb_gt _ _) Hu), (proj2 (Z.leb_gt _ _) Hf), IH.
  cbn [length]. rewrite (decide_False (P := f :: A = [])) by done. replace (i + S (length A))%nat with (S i + length A)%nat by lia.
  assert (Hs : (if decide (A = []) then S i else (S i + length A)%nat) = (S i + length A)%nat)
    by (case_decide; subst; cbn; lia). rewrite Hs. by destruct (unvested_loop _ _ _ _ _ _ _).
Qed.

Lemma unvested_taken B i cur target u last start :
  Forall (λ f, cur ≤ vf_epoch f) B → Forall (λ f, 0 ≤ vf_amount f) B → 0 ≤ u ≤ target →
  ∃ C D D' x, B = C ++ D ∧
    unvested_loop B i cur target u last start =
      (C ++ D', (u + amounts C + x, if decide (C = []) then last else Some (i + length C - 1)%nat, start)) ∧
    u + amounts C + x = Z.min target (u + amounts B) ∧
    (D' = D ∧ x = 0 ∨ ∃ f D0, D = f :: D0 ∧ 0 ≤ x ≤ vf_amount f ∧
       D' = {| vf_epoch := vf_epoch f; vf_amount := vf_amount f - x |} :: D0).
Proof.
  intros HB Hn. revert i u last. induction HB as [|f B Hf HB IH]; intros i u last Hu.
  { exists [], [], [], 0. split_and!; [done| |cbn; lia|by left]. cbn. rewrite decide_True by done. f_equal. f_equal. f_equal. lia. }
  inversion_clear Hn as [|? ? Hf0 Hn0]. cbn [unvested_loop]. assert (0 ≤ amounts B) by (pose proof (vested_range B 0 Hn0); lia).
  assert (Hcons : amounts (f :: B) = vf_amount f + amounts B) by done.
  destruct (Z.leb_spec target u) as [Hdone|Hmore].
  { exists [], (f :: B), (f :: B), 0. rewrite decide_True by done. split_and!; [done| |cbn [app]; rewrite Hcons; unfold amounts at 1; cbn; lia|by left].
    cbn [app]. f_equal. f_equal. f_equal. unfold amounts. cbn. lia. }
  rewrite (proj2 (Z.leb_le _ _) Hf). destruct (Z.eqb_spec (vf_amount f - Z.min (target - u) (vf_amount f)) 0) as [Hz|Hnz].
  - destruct (IH Hn0 (S i) (u + Z.min (target - u) (vf_amount f)) (Some i)) as (C & D & D' & x & -> & -> & Hx & Hcase); [lia|].
    assert (HC : amounts (f :: C) = vf_amount f + amounts C) by done.
    exists (f :: C), D, D', x. rewrite (decide_False (P := f :: C = [])) by done. split_and!; [done| |rewrite HC, Hcons; lia|done].
    cbn [app length]. rewrite HC.
    replace (u + Z.min (target - u) (vf_amount f) + amounts C + x) with (u + (vf_amount f + amounts C) + x) by lia.
    do 3 f_equal. case_decide; subst; cbn; f_equal; lia.
  - exists [], (f :: B), ({| vf_epoch := vf_epoch f; vf_amount := vf_amount f - (target - u) |} :: B), (target - u).
    assert (Hmin : Z.min (target - u) (vf_amount f) = target - u) by lia. rewrite Hmin, decide_True by done. split_and!; [done| | |].
    + destruct B as [|g B]; cbn [unvested_loop app]; [|rewrite (proj2 (Z.leb_le target (u + (target - u)))) by lia];
        repeat f_equal; unfold amounts; cbn; lia.
    + rewrite Hcons. unfold amounts at 1. cbn. lia.
    + right. exists f, B. split_and!; [done|lia|lia|done].
Qed.

Lemma vf_unlock_unvested_spec fs cur target :
  table_ok fs → 0 ≤ target →
  ∃ fs' u, vf_unlock_unvested_funds fs cur target = Some (fs', u) ∧ table_ok fs' ∧
    u = Z.min target (amounts fs - vested_by fs (cur - 1)) ∧ amounts fs' = amounts fs - u ∧
    ∀ e, vested_by fs' e = if decide (e < cur) then vested_by fs e
                           else Z.max (vested_by fs (cur - 1)) (vested_by fs e - u).
Proof.
  intros Hok Ht. pose proof (increasing_split fs cur (proj1 Hok)) as [Hlt Hge].
  set (i := default _ _) in *. clearbody i. assert (Hfs : fs = take i fs ++ drop i fs) by by rewrite take_drop.
  set (A := take i fs) in *. set (B := drop i fs) in *. clearbody A B. subst fs. pose proof Hok as (HA & HB & HAB)%table_app.
  destruct (vested_range B cur (proj2 HB)) as [HB0 HB1].
  assert (Hv : vested_by (A ++ B) (cur - 1) = amounts A).
  { rewrite wsum_app, (vested_all A), (vested_none B); [lia|..]; eapply Forall_impl; try eassumption; cbn; lia. }
  assert (Hbefore : ∀ B', (∀ g, g ∈ B' → cur ≤ vf_epoch g) → ∀ e, e < cur → vested_by (A ++ B') e = vested_by A e).
  { intros B' HB' e He. rewrite wsum_app, (vested_none B'); [lia|]. apply Forall_forall. intros g Hg%HB'. lia. }
  assert (Hafter : ∀ e, cur ≤ e → vested_by A e = amounts A).
  { intros e He. apply vested_all. eapply Forall_impl; [exact Hlt|]. cbn. lia. }
  rewrite Hv, amounts_app. unfold vf_unlock_unvested_funds. destruct (decide (target = 0)) as [->|Hpos].
  { exists (A ++ B), 0. split_and!; [by destruct (A ++ B)|done|lia|rewrite amounts_app; lia|].
    intros e. case_decide; [done|]. rewrite wsum_app, Hafter by lia. destruct (vested_range B e (proj2 HB)). lia. }
  rewrite unvested_passed by (done || lia).
  destruct (unvested_taken B (0 + length A) cur target 0 None (if decide (A = []) then 0 else (0 + length A))%nat)
    as (C & D & D' & x & -> & -> & Hx & Hcase); [done|apply HB|lia|]. cbn [Nat.add].
  replace (if decide (A = []) then 0%nat else length A) with (length A) by (case_decide; subst; done).
  assert (Hres : (match (if decide (C = []) then None else Some (length A + length C - 1)%nat) with
    | Some end_ => if ((length A <=? S end_) && (S end_ <=? length (A ++ C ++ D')))%nat
                   then Some (take (length A) (A ++ C ++ D') ++ drop (S end_) (A ++ C ++ D'), 0 + amounts C + x) else None
    | None => Some (A ++ C ++ D', 0 + amounts C + x) end) = Some (A ++ D', amounts C + x)).
  { case_decide as HC; [by subst|]. rewrite !length_app. assert (length C ≠ 0%nat) by (by destruct C).
    rewrite (proj2 (Nat.leb_le _ _)), (proj2 (Nat.leb_le _ _)) by lia. cbn [andb].
    rewrite take_app_length. replace (S (length A + length C - 1)) with (length (A ++ C)) by (rewrite length_app; lia).
    rewrite (assoc_L (++) A C D'), drop_app_length. done. }
  rewrite Hres. exists (A ++ D'), (amounts C + x). apply table_app in HB as (HC & HD & HCD).
  assert (HD' : table_ok D' ∧ amounts D' = amounts D - x ∧ ∀ g, g ∈ D' → ∃ g', g' ∈ D ∧ vf_epoch g' = vf_epoch g).
  { destruct Hcase as [[-> ->]|(f & D0 & -> & Hxf & ->)]; [split_and!; [done|lia|eauto]|]. destruct HD as [Hinc Hn].
    inversion_clear Hinc. inversion_clear Hn. split_and!; [by repeat constructor; cbn; try lia|unfold amounts; cbn; lia|].
    intros g [->|Hg]%elem_of_cons; [exists f; split; [by left|done]|exists g; split; [by right|done]]. }
  destruct HD' as (HD' & HaD & Hep). split_and!; [done| | | |].
  - apply table_app. split_and!; [done|done|]. intros f g Hf (g' & Hg' & <-)%Hep. apply HAB; [done|]. set_solver.
  - rewrite amounts_app in *. lia.
  - rewrite !amounts_app in *. lia.
  - intros e. destruct (decide (e < cur)) as [He|He].
    + rewrite Forall_forall in Hge. rewrite (Hbefore (C ++ D)) by (done || apply Hge). apply Hbefore; [|done].
      intros g (g' & Hg' & <-)%Hep. apply Hge. set_solver.
    + rewrite !(wsum_app _ A), Hafter by lia. rewrite (vested_drop_front C D D' x); [lia|by apply table_app|done].
Qed.
