(* ===== verification/MinerFunds.v ===== *)
(** * The funds of a miner

    [monies.rs] and the part of [state.rs] that keeps deposits, pledge, locked
    funds and debt, of [src/vm/actor/src/builtin/miner/]. *)

From S2P Require Import Prelude Runtime Types Smooth Reward Vesting.

#[local] Arguments amounts : simpl never.
#[local] Arguments wsum : simpl never.

(** ** Errors

    A boxed error is an [ActorError] with its exit code, or any other error, to
    which the caller gives an exit code ([downcast_default]); a panic stops the
    actor. *)
Inductive BoxErr := Plain | Actor (code : ExitCode) | Panicked.
#[global] Instance box_err_eq_dec : EqDecision BoxErr.
Proof. solve_decision. Defined.

Definition downcast_default {A} (r : result BoxErr A) (default_code : ExitCode) : result ExitCode A :=
  match r with
  | Ok a => Ok a
  | Err Plain => Err default_code
  | Err (Actor c) => Err c
  | Err Panicked => Err SysErrActorPanic
  end.

(** ** [monies.rs] *)

Definition PRE_COMMIT_DEPOSIT_FACTOR : Z := 20.
Definition INITIAL_PLEDGE_FACTOR : Z := 20.
Definition PRE_COMMIT_DEPOSIT_PROJECTION_PERIOD : Z := PRE_COMMIT_DEPOSIT_FACTOR * EPOCHS_IN_DAY.
Definition INITIAL_PLEDGE_PROJECTION_PERIOD : Z := INITIAL_PLEDGE_FACTOR * EPOCHS_IN_DAY.
Definition LOCK_TARGET_FACTOR_NUM : Z := 3.
Definition LOCK_TARGET_FACTOR_DENOM : Z := 10.
Definition TERMINATION_REWARD_FACTOR_NUM : Z := 1.
Definition TERMINATION_REWARD_FACTOR_DENOM : Z := 2.
Definition LOCKED_REWARD_FACTOR_NUM : Z := 3.
Definition LOCKED_REWARD_FACTOR_DENOM : Z := 4.
Definition INITIAL_PLEDGE_MAX_PER_BYTE : Z := 10 ^ 18 / Z.shiftl 32 30.
Definition BASE_REWARD_FOR_DISPUTED_WINDOW_POST : Z := 4 * FILECOIN_PRECISION.
Definition BASE_PENALTY_FOR_DISPUTED_WINDOW_POST : Z := FILECOIN_PRECISION * 20.
Definition CONTINUED_FAULT_FACTOR_NUM : Z := 351.
Definition CONTINUED_FAULT_FACTOR_DENOM : Z := 100.
Definition CONTINUED_FAULT_PROJECTION_PERIOD : Z := EPOCHS_IN_DAY * CONTINUED_FAULT_FACTOR_NUM / CONTINUED_FAULT_FACTOR_DENOM.
Definition INVALID_WINDOW_POST_PROJECTION_PERIOD : Z := CONTINUED_FAULT_PROJECTION_PERIOD + 2 * EPOCHS_IN_DAY.
Definition TERMINATION_PENALTY_LOWER_BOUND_PROJECTIONS_PERIOD : Z := EPOCHS_IN_DAY * 35 / 10.
Definition TERMINATION_LIFETIME_CAP : Z := 140.
Definition CONSENSUS_FAULT_FACTOR : Z := 5.

Definition expected_reward_for_power (reward_estimate network_qa_power_estimate : FilterEstimate)
    (qa_sector_power projection_duration : Z) : Z :=
  let network_qa_power_smoothed := estimate network_qa_power_estimate in
  if network_qa_power_smoothed =? 0 then estimate reward_estimate
  else
    let expected_reward_for_proving_period :=
      extrapolated_cum_sum_of_ratio projection_duration 0 reward_estimate network_qa_power_estimate in
    Z.max (shr (qa_sector_power * expected_reward_for_proving_period)) 0.

Definition expected_reward_for_power_clamped_at_atto_fil (reward_estimate network_qa_power_estimate : FilterEstimate)
    (qa_sector_power projection_duration : Z) : Z :=
  let br := expected_reward_for_power reward_estimate network_qa_power_estimate qa_sector_power projection_duration in
  if br <=? 0 then 1 else br.

Definition pledge_penalty_for_continued_fault (reward_estimate network_qa_power_estimate : FilterEstimate) (qa_sector_power : Z) : Z :=
  expected_reward_for_power reward_estimate network_qa_power_estimate qa_sector_power CONTINUED_FAULT_PROJECTION_PERIOD.

Definition pledge_penalty_for_termination_lower_bound (reward_estimate network_qa_power_estimate : FilterEstimate)
    (qa_sector_power : Z) : Z :=
  expected_reward_for_power reward_estimate network_qa_power_estimate qa_sector_power
    TERMINATION_PENALTY_LOWER_BOUND_PROJECTIONS_PERIOD.

(** [/] on integers truncates. *)
Definition pledge_penalty_for_termination (day_reward sector_age twenty_day_reward_at_activation : Z)
    (network_qa_power_estimate : FilterEstimate) (qa_sector_power : Z) (reward_estimate : FilterEstimate)
    (replaced_day_reward replaced_sector_age : Z) : Z :=
  let lifetime_cap := TERMINATION_LIFETIME_CAP * EPOCHS_IN_DAY in
  let capped_sector_age := Z.min sector_age lifetime_cap in
  let expected_reward := day_reward * capped_sector_age in
  let relevant_replaced_age := Z.min replaced_sector_age (lifetime_cap - capped_sector_age) in
  let expected_reward := expected_reward + replaced_day_reward * relevant_replaced_age in
  let penalized_reward := expected_reward * TERMINATION_REWARD_FACTOR_NUM in
  let penalized_reward := Z.quot penalized_reward TERMINATION_REWARD_FACTOR_DENOM in
  Z.max (pledge_penalty_for_termination_lower_bound reward_estimate network_qa_power_estimate qa_sector_power)
        (twenty_day_reward_at_activation + Z.quot penalized_reward EPOCHS_IN_DAY).

Definition pledge_penalty_for_invalid_windowpost (reward_estimate network_qa_power_estimate : FilterEstimate)
    (qa_sector_power : Z) : Z :=
  expected_reward_for_power reward_estimate network_qa_power_estimate qa_sector_power INVALID_WINDOW_POST_PROJECTION_PERIOD
  + BASE_PENALTY_FOR_DISPUTED_WINDOW_POST.

Definition pre_commit_deposit_for_power (reward_estimate network_qa_power_estimate : FilterEstimate) (qa_sector_power : Z) : Z :=
  expected_reward_for_power_clamped_at_atto_fil reward_estimate network_qa_power_estimate qa_sector_power
    PRE_COMMIT_DEPOSIT_PROJECTION_PERIOD.

Definition initial_pledge_for_power (qa_power baseline_power : Z) (reward_estimate network_qa_power_estimate : FilterEstimate)
    (circulating_supply : Z) : Z :=
  let ip_base := expected_reward_for_power_clamped_at_atto_fil reward_estimate network_qa_power_estimate qa_power
                   INITIAL_PLEDGE_PROJECTION_PERIOD in
  let lock_target_num := LOCK_TARGET_FACTOR_NUM * circulating_supply in
  let pledge_share_denom := Z.max (Z.max (estimate network_qa_power_estimate) baseline_power) qa_power in
  let additional_ip_num := lock_target_num * qa_power in
  let additional_ip_denom := LOCK_TARGET_FACTOR_DENOM * pledge_share_denom in
  let additional_ip := additional_ip_num / additional_ip_denom in
  Z.min (ip_base + additional_ip) (INITIAL_PLEDGE_MAX_PER_BYTE * qa_power).

Definition consensus_fault_penalty (this_epoch_reward : Z) : Z :=
  this_epoch_reward * CONSENSUS_FAULT_FACTOR / EXPECTED_LEADERS_PER_EPOCH.

Definition locked_reward_from_reward (reward : Z) : Z * VestSpec :=
  (reward * LOCKED_REWARD_FACTOR_NUM / LOCKED_REWARD_FACTOR_DENOM, REWARD_VESTING_SPEC).

Definition ESTIMATED_SINGLE_PROVE_COMMIT_GAS_USAGE : Z := 49299973.
Definition ESTIMATED_SINGLE_PRE_COMMIT_GAS_USAGE : Z := 16433324.
Definition BATCH_DISCOUNT_NUM : Z := 1.
Definition BATCH_DISCOUNT_DENOM : Z := 20.
Definition BATCH_BALANCER : Z := 1000000000 * 5.

Definition aggregate_network_fee (aggregate_size gas_usage base_fee : Z) : Z :=
  let effective_gas_fee := Z.max base_fee BATCH_BALANCER in
  effective_gas_fee * gas_usage * aggregate_size * BATCH_DISCOUNT_NUM / BATCH_DISCOUNT_DENOM.
Definition aggregate_prove_commit_network_fee (aggregate_size base_fee : Z) : Z :=
  aggregate_network_fee aggregate_size ESTIMATED_SINGLE_PROVE_COMMIT_GAS_USAGE base_fee.
Definition aggregate_pre_commit_network_fee (aggregate_size base_fee : Z) : Z :=
  aggregate_network_fee aggregate_size ESTIMATED_SINGLE_PRE_COMMIT_GAS_USAGE base_fee.

(** ** [state.rs]: funds *)

Record MinerFunds := {
  pre_commit_deposits : Z; locked_funds : Z; vesting_funds : VestingFunds; fee_debt : Z; initial_pledge : Z }.

Definition set_vesting (f : MinerFunds) (locked : Z) (t : VestingFunds) : MinerFunds :=
  {| pre_commit_deposits := pre_commit_deposits f; locked_funds := locked; vesting_funds := t;
     fee_debt := fee_debt f; initial_pledge := initial_pledge f |}.
Definition set_debt (f : MinerFunds) (debt : Z) : MinerFunds :=
  {| pre_commit_deposits := pre_commit_deposits f; locked_funds := locked_funds f; vesting_funds := vesting_funds f;
     fee_debt := debt; initial_pledge := initial_pledge f |}.

Definition continue_deadline_cron (f : MinerFunds) : bool :=
  negb (pre_commit_deposits f =? 0) || negb (initial_pledge f =? 0) || negb (locked_funds f =? 0).

Definition add_pre_commit_deposit (f : MinerFunds) (amount : Z) : result BoxErr MinerFunds :=
  let new_total := pre_commit_deposits f + amount in
  _ ← throw_if (new_total <? 0) Plain;
  mret {| pre_commit_deposits := new_total; locked_funds := locked_funds f; vesting_funds := vesting_funds f;
          fee_debt := fee_debt f; initial_pledge := initial_pledge f |}.

Definition add_initial_pledge (f : MinerFunds) (amount : Z) : result BoxErr MinerFunds :=
  let new_total := initial_pledge f + amount in
  _ ← throw_if (new_total <? 0) Plain;
  mret {| pre_commit_deposits := pre_commit_deposits f; locked_funds := locked_funds f; vesting_funds := vesting_funds f;
          fee_debt := fee_debt f; initial_pledge := new_total |}.

Definition apply_penalty (f : MinerFunds) (penalty : Z) : result BoxErr MinerFunds :=
  _ ← throw_if (penalty <? 0) Plain;
  mret (set_debt f (fee_debt f + penalty)).

Definition add_locked_funds (f : MinerFunds) (proving_period_start current_epoch vesting_sum : Z) (spec : VestSpec)
    : result BoxErr (MinerFunds * Z) :=
  _ ← throw_if (vesting_sum <? 0) Plain;
  let '(t, amount_unlocked) := vf_unlock_vested_funds (vesting_funds f) current_epoch in
  let locked := locked_funds f - amount_unlocked in
  _ ← throw_if (locked <? 0) Plain;
  t ← ok_or (vf_add_locked_funds t current_epoch vesting_sum proving_period_start spec) Panicked;
  mret (set_vesting f (locked + vesting_sum) t, amount_unlocked).

Definition unlock_unvested_funds (f : MinerFunds) (current_epoch target : Z) : result BoxErr (MinerFunds * Z) :=
  if (target =? 0) || (locked_funds f =? 0) then mret (f, 0)
  else
    '(t, amount_unlocked) ← ok_or (vf_unlock_unvested_funds (vesting_funds f) current_epoch target) Panicked;
    let locked := locked_funds f - amount_unlocked in
    _ ← throw_if (locked <? 0) Plain;
    mret (set_vesting f locked t, amount_unlocked).

Definition unlock_vested_funds (f : MinerFunds) (current_epoch : Z) : result BoxErr (MinerFunds * Z) :=
  if locked_funds f =? 0 then mret (f, 0)
  else
    let '(t, amount_unlocked) := vf_unlock_vested_funds (vesting_funds f) current_epoch in
    let locked := locked_funds f - amount_unlocked in
    _ ← throw_if (locked <? 0) Plain;
    mret (set_vesting f locked t, amount_unlocked).

Fixpoint take_vested (t : VestingFunds) (current_epoch : Z) : Z :=
  match t with
  | [] => 0
  | x :: t => if vf_epoch x <? current_epoch then vf_amount x + take_vested t current_epoch else 0
  end.
Definition check_vested_funds (f : MinerFunds) (current_epoch : Z) : Z := take_vested (vesting_funds f) current_epoch.

Definition get_unlocked_balance (f : MinerFunds) (actor_balance : Z) : result BoxErr Z :=
  let unlocked_balance := actor_balance - locked_funds f - pre_commit_deposits f - initial_pledge f in
  _ ← throw_if (unlocked_balance <? 0) Plain;
  mret unlocked_balance.

Definition get_available_balance (f : MinerFunds) (actor_balance : Z) : result BoxErr Z :=
  unlocked ← get_unlocked_balance f actor_balance;
  mret (unlocked - fee_debt f).

Definition repay_partial_debt_in_priority_order (f : MinerFunds) (current_epoch curr_balance : Z)
    : result BoxErr (MinerFunds * (Z * Z)) :=
  unlocked_balance ← get_unlocked_balance f curr_balance;
  '(f, from_vesting) ← unlock_unvested_funds f current_epoch (fee_debt f);
  _ ← throw_if (fee_debt f <? from_vesting) Plain;
  let debt := fee_debt f - from_vesting in
  let from_balance := Z.min unlocked_balance debt in
  mret (set_debt f (debt - from_balance), (from_vesting, from_balance)).

Definition repay_debts (f : MinerFunds) (curr_balance : Z) : result BoxErr (MinerFunds * Z) :=
  unlocked_balance ← get_unlocked_balance f curr_balance;
  _ ← throw_if (unlocked_balance <? fee_debt f) (Actor ErrInsufficientFunds);
  mret (set_debt f 0, fee_debt f).

Definition check_balance_invariants (f : MinerFunds) (balance : Z) : result BoxErr unit :=
  _ ← throw_if (pre_commit_deposits f <? 0) Plain;
  _ ← throw_if (locked_funds f <? 0) Plain;
  _ ← throw_if (initial_pledge f <? 0) Plain;
  _ ← throw_if (fee_debt f <? 0) Plain;
  let min_balance := pre_commit_deposits f + locked_funds f + initial_pledge f in
  throw_if (balance <? min_balance) Plain.

(** ** Theorems *)

(** The locked funds are those of the table. *)
Definition funds_ok (f : MinerFunds) : Prop :=
  0 ≤ pre_commit_deposits f ∧ 0 ≤ fee_debt f ∧ 0 ≤ initial_pledge f ∧
  table_ok (vesting_funds f) ∧ locked_funds f = amounts (vesting_funds f).
(** The balance covers all that is set aside. *)
Definition solvent (f : MinerFunds) (balance : Z) : Prop :=
  pre_commit_deposits f + locked_funds f + initial_pledge f ≤ balance.

Lemma funds_ok_set f t debt :
  funds_ok f → table_ok t → 0 ≤ debt → funds_ok (set_debt (set_vesting f (amounts t) t) debt).
Proof. intros (? & ? & ? & ? & ?) Ht Hd. by split_and!. Qed.

Lemma amounts_nonneg t : table_ok t → 0 ≤ amounts t.
Proof. intros [_ Hn]. pose proof (vested_range t 0 Hn). lia. Qed.

Lemma amounts_zero t e : table_ok t → amounts t = 0 → vested_by t e = 0.
Proof. intros [_ Hn] Hz. pose proof (vested_range t e Hn). lia. Qed.

Lemma take_vested_spec t cur : increasing vf_epoch t → take_vested t cur = vested_by t (cur - 1).
Proof.
  induction 1 as [|x t Ht IH Hx]; [done|]. cbn [take_vested]. rewrite wsum_cons. unfold by_epoch at 1.
  destruct (Z.ltb_spec (vf_epoch x) cur) as [Hlt|Hge].
  - rewrite (proj2 (Z.leb_le _ _)) by lia. lia.
  - rewrite (proj2 (Z.leb_gt _ _)) by lia. rewrite vested_none; [lia|]. eapply Forall_impl; [exact Hx|]. cbn. lia.
Qed.

Lemma unlock_vested_ok f cur :
  funds_ok f → ∃ f' v, unlock_vested_funds f cur = Ok (f', v) ∧ funds_ok f' ∧
    v = check_vested_funds f cur ∧ locked_funds f' = locked_funds f - v ∧ fee_debt f' = fee_debt f ∧
    ∀ e, vested_by (vesting_funds f') e = Z.max 0 (vested_by (vesting_funds f) e - v).
Proof.
  intros Hok. pose proof Hok as (Hp & Hd & Hi & Ht & Hl). unfold unlock_vested_funds, check_vested_funds.
  rewrite take_vested_spec by apply Ht. destruct (Z.eqb_spec (locked_funds f) 0) as [Hz|Hz].
  - exists f, 0. rewrite Hl in Hz. rewrite (amounts_zero _ _ Ht Hz). split_and!; try done; try lia.
    intros e. rewrite (amounts_zero _ _ Ht Hz). done.
  - pose proof (vf_unlock_vested_spec _ cur Ht) as Hs. destruct (vf_unlock_vested_funds _ cur) as [t v].
    destruct Hs as (Ht' & -> & Ha & Hv & He). pose proof (amounts_nonneg t Ht').
    rewrite (proj2 (Z.ltb_ge _ _)) by lia. cbn. eexists _, _. split; [done|]. rewrite Hl, <- Ha.
    split_and!; try done; try lia.
Qed.

Lemma unlock_unvested_ok f cur target :
  funds_ok f → 0 ≤ target → ∃ f' u, unlock_unvested_funds f cur target = Ok (f', u) ∧ funds_ok f' ∧
    u = Z.min target (locked_funds f - check_vested_funds f cur) ∧ locked_funds f' = locked_funds f - u ∧
    fee_debt f' = fee_debt f ∧ pre_commit_deposits f' = pre_commit_deposits f ∧ initial_pledge f' = initial_pledge f.
Proof.
  intros Hok H0. pose proof Hok as (Hp & Hd & Hi & Ht & Hl). unfold unlock_unvested_funds, check_vested_funds.
  rewrite take_vested_spec by apply Ht. pose proof (vested_range _ (cur - 1) (proj2 Ht)). case_if.
  - exists f, 0. split_and!; try done; try lia.
  - destruct (vf_unlock_unvested_spec _ cur target Ht H0) as (t & u & -> & Ht' & Hu & Ha & _). cbn.
    pose proof (amounts_nonneg t Ht'). rewrite (proj2 (Z.ltb_ge _ _)) by lia. cbn. eexists _, _. split; [done|].
    rewrite Hl, <- Ha. split_and!; try done; lia.
Qed.


