(* ===== verification/Sectors.v ===== *)
(** * Sectors of a miner

    Sector infos and their power ([types.rs], [policy.rs], [sectors.rs] and the
    power functions of [mod.rs] of [src/vm/actor/src/builtin/miner/]), and the
    abstractions the queues, partitions and deadlines share.  A [BitField] is
    the finite set of its bits ([BitField.bitfield_refines_set]), an AMT the
    finite map from its indices ([AmtSpec.amt_refines_map]). *)

From S2P Require Import Prelude Address Runtime Types Vesting MinerFunds.

(** ** Bit fields as sets *)

(** [BitField::iter]: the bits in ascending order. *)
Definition bits (X : gset Z) : list Z := merge_sort Z.le (elements X).
Definition bits_len (X : gset Z) : Z := Z.of_nat (size X).
(** [bounded_iter] *)
Definition bounded_bits (max : Z) (X : gset Z) : result BoxErr (gset Z) :=
  _ ← throw_if (max <? bits_len X) Plain; mret X.
Definition bits_of (l : list Z) : gset Z := list_to_set l.

Lemma bits_perm X : bits X ≡ₚ elements X.
Proof. apply merge_sort_Permutation. Qed.
Lemma elem_of_bits X i : i ∈ bits X ↔ i ∈ X.
Proof. by rewrite bits_perm, elem_of_elements. Qed.
Lemma NoDup_bits X : NoDup (bits X).
Proof. rewrite bits_perm. apply NoDup_elements. Qed.

(** ** AMTs as maps *)

Definition AMT_MAX_INDEX : Z := usize_max - 1.
Definition as_usize (z : Z) : Z := z mod 2 ^ 64.
Definition as_i64 (z : Z) : Z := if i64_max <? z then z - 2 ^ 64 else z.

Section amt.
Context {V : Type}.
Implicit Types m : gmap Z V.

Definition amt_get m (i : Z) : result BoxErr (option V) := _ ← throw_if (AMT_MAX_INDEX <? i) Plain; mret (m !! i).
Definition amt_set m (i : Z) (v : V) : result BoxErr (gmap Z V) := _ ← throw_if (AMT_MAX_INDEX <? i) Plain; mret (<[i := v]> m).
Definition amt_del m (i : Z) : result BoxErr (gmap Z V) := _ ← throw_if (AMT_MAX_INDEX <? i) Plain; mret (delete i m).
(** [batch_delete] with [strict] *)
Definition amt_batch_delete m (l : list Z) : result BoxErr (gmap Z V) :=
  try_fold (λ m i,
    _ ← throw_if (AMT_MAX_INDEX <? i) Plain;
    _ ← throw_if (match m !! i with None => true | Some _ => false end) Plain;
    mret (delete i m)) m l.
(** The entries in ascending order. *)
Definition amt_entries m : list (Z * V) := sort_by fst (map_to_list m).

(** [for_each_while]: the closure [f] works on [S] and says whether to go on. *)
Fixpoint for_each_while {S} (f : S → Z → V → result BoxErr (S * bool)) (s : S) (l : list (Z * V)) : result BoxErr S :=
  match l with
  | [] => mret s
  | (i, v) :: l => '(s, keep_going) ← f s i v; if keep_going : bool then for_each_while f s l else mret s
  end.
(** [for_each_while_mut]: it may change the value. *)
Fixpoint for_each_while_mut {S} (f : S → Z → V → result BoxErr (S * V * bool)) (s : S) (m : gmap Z V) (l : list (Z * V))
    : result BoxErr (S * gmap Z V) :=
  match l with
  | [] => mret (s, m)
  | (i, v) :: l =>
      r ← f s i v;
      let '(s, v, keep_going) := (r : S * V * bool) in
      if keep_going then for_each_while_mut f s (<[i := v]> m) l else mret (s, <[i := v]> m)
  end.
Lemma amt_get_ok m i : i ≤ AMT_MAX_INDEX → amt_get m i = Ok (m !! i).
Proof. intros Hi. unfold amt_get. by rewrite (proj2 (Z.ltb_ge _ _) Hi). Qed.
Lemma amt_set_ok m i v : i ≤ AMT_MAX_INDEX → amt_set m i v = Ok (<[i := v]> m).
Proof. intros Hi. unfold amt_set. by rewrite (proj2 (Z.ltb_ge _ _) Hi). Qed.
Lemma amt_del_ok m i : i ≤ AMT_MAX_INDEX → amt_del m i = Ok (delete i m).
Proof. intros Hi. unfold amt_del. by rewrite (proj2 (Z.ltb_ge _ _) Hi). Qed.
Lemma amt_batch_delete_ok m l :
  NoDup l → (∀ i, i ∈ l → i ≤ AMT_MAX_INDEX ∧ is_Some (m !! i)) →
  ∃ m', amt_batch_delete m l = Ok m' ∧ ∀ i, m' !! i = if decide (i ∈ l) then None else m !! i.
Proof.
  unfold amt_batch_delete. intros Hd. revert m. induction Hd as [|i l Hi Hd IH]; intros m Hl.
  { exists m. split; [done|]. intros i. by rewrite decide_False by apply not_elem_of_nil. }
  destruct (Hl i) as [Hmax [v Hv]]; [by left|]. cbn [try_fold]. rewrite (proj2 (Z.ltb_ge _ _) Hmax), Hv. cbn.
  destruct (IH (delete i m)) as (m' & Hm' & Hlook).
  { intros j Hj. destruct (Hl j) as [? ?]; [by right|]. split; [done|]. rewrite lookup_delete_ne; [done|]. by intros ->. }
  exists m'. split; [exact Hm'|]. intros j. rewrite Hlook.
  destruct (decide (j = i)) as [->|Hne]; [rewrite lookup_delete_eq|rewrite lookup_delete_ne by done]; repeat case_decide; set_solver.
Qed.

Lemma elem_of_entries m i v : (i, v) ∈ amt_entries m ↔ m !! i = Some v.
Proof. unfold amt_entries. by rewrite sort_by_perm, elem_of_map_to_list. Qed.
Lemma entries_increasing m : increasing fst (amt_entries m).
Proof.
  apply ascending_increasing; [apply sort_by_ascending|]. unfold amt_entries. rewrite sort_by_perm. apply NoDup_fst_map_to_list.
Qed.
Lemma entries_nodup m : NoDup (amt_entries m).*1.
Proof. apply (increasing_nodup fst), entries_increasing. Qed.
End amt.

Lemma as_usize_small e : 0 ≤ e < 2 ^ 64 → as_usize e = e.
Proof. apply Z.mod_small. Qed.
Lemma as_i64_small e : e ≤ i64_max → as_i64 e = e.
Proof. intros He. unfold as_i64. by rewrite (proj2 (Z.ltb_ge _ _) He). Qed.

(** ** Power *)

Record PowerPair := { raw : Z; qa : Z }.
#[global] Instance power_pair_eq_dec : EqDecision PowerPair.
Proof. solve_decision. Defined.
Definition pp_zero : PowerPair := {| raw := 0; qa := 0 |}.
Definition pp_is_zero (p : PowerPair) : bool := (raw p =? 0) && (qa p =? 0).
Definition pp_add (p q : PowerPair) : PowerPair := {| raw := raw p + raw q; qa := qa p + qa q |}.
Definition pp_sub (p q : PowerPair) : PowerPair := {| raw := raw p - raw q; qa := qa p - qa q |}.
Definition pp_neg (p : PowerPair) : PowerPair := {| raw := - raw p; qa := - qa p |}.
Definition pp_nonneg (p : PowerPair) : Prop := 0 ≤ raw p ∧ 0 ≤ qa p.

Declare Scope power_scope.
Delimit Scope power_scope with pw.
Bind Scope power_scope with PowerPair.
Infix "+" := pp_add : power_scope.
Infix "-" := pp_sub : power_scope.
Notation "- p" := (pp_neg p) : power_scope.

Lemma pp_ext p q : raw p = raw q → qa p = qa q → p = q.
Proof. destruct p, q; cbn; by intros -> ->. Qed.
(** Equations between powers. *)
Ltac pp_solve := apply pp_ext; cbn [pp_add pp_sub pp_neg pp_zero raw qa]; lia.

(** ** [types.rs] *)

Record SectorOnChainInfo := {
  sector_number : Z; seal_proof : RegisteredSealProof; sealed_cid : bytes; deal_ids : list Z;
  activation : Z; expiration : Z; deal_weight : Z; verified_deal_weight : Z; si_initial_pledge : Z;
  expected_day_reward : Z; expected_storage_pledge : Z; replaced_sector_age : Z; replaced_day_reward : Z }.

(** ** [policy.rs] *)

Definition MAX_AGGREGATED_SECTORS : Z := 819.
Definition MIN_AGGREGATED_SECTORS : Z := 4.
Definition MAX_AGGREGATED_PROOF_SIZE : Z := 81960.
Definition PRE_COMMIT_SECTOR_BATCH_MAX_SIZE : Z := 256.
Definition EXPIRED_PRE_COMMIT_CLEAN_UP_DELAY : Z := 8 * EPOCHS_IN_HOUR.
Definition WPOST_PROVING_PERIOD : Z := EPOCHS_IN_DAY.
Definition WPOST_CHALLENGE_WINDOW : Z := 30 * 60 / EPOCH_DURATION_SECONDS.
Definition WPOST_PERIOD_DEADLINES : Z := 48.
Definition WPOST_MAX_CHAIN_COMMIT_AGE : Z := WPOST_CHALLENGE_WINDOW.
Definition CHAIN_FINALITY : Z := 900.
Definition WPOST_DISPUTE_WINDOW : Z := 2 * CHAIN_FINALITY.
Definition MAX_PARTITIONS_PER_DEADLINE : Z := 3000.
Definition MAX_CONTROL_ADDRESSES : Z := 10.
Definition MAX_PEER_ID_LENGTH : Z := 128.
Definition MAX_MULTIADDR_DATA : Z := 1024.
Definition ADDRESSED_PARTITIONS_MAX : Z := MAX_PARTITIONS_PER_DEADLINE.
Definition DELCARATIONS_MAX : Z := ADDRESSED_PARTITIONS_MAX.
Definition ADDRESSED_SECTORS_MAX : Z := 25000.
Definition load_partitions_sectors_max (partition_sector_count : Z) : Z :=
  Z.min (ADDRESSED_SECTORS_MAX / partition_sector_count) ADDRESSED_PARTITIONS_MAX.
Definition PRE_COMMIT_CHALLENGE_DELAY : Z := 150.
Definition MAX_PRE_COMMIT_RANDOMNESS_LOOKBACK : Z := EPOCHS_IN_DAY + CHAIN_FINALITY.
Definition WPOST_CHALLENGE_LOOKBACK : Z := 20.
Definition FAULT_DECLARATION_CUTOFF : Z := WPOST_CHALLENGE_LOOKBACK + 50.
Definition FAULT_MAX_AGE : Z := WPOST_PROVING_PERIOD * 42.
Definition WORKER_KEY_CHANGE_DELAY : Z := CHAIN_FINALITY.
Definition MIN_SECTOR_EXPIRATION : Z := 180 * EPOCHS_IN_DAY.
Definition MAX_SECTOR_EXPIRATION_EXTENSION : Z := 540 * EPOCHS_IN_DAY.
Definition DEAL_LIMIT_DENOMINATOR : Z := 134217728.
Definition CONSENSUS_FAULT_INELIGIBILITY_DURATION : Z := CHAIN_FINALITY.
Definition CONSENSUS_FAULT_REPORTER_DEFAULT_SHARE : Z := 4.

Definition can_pre_commit_seal_proof (proof : RegisteredSealProof) : bool :=
  match proof with StackedDRG32GiBV1P1 | StackedDRG64GiBV1P1 => true | _ => false end.

Definition max_prove_commit_duration (proof : RegisteredSealProof) : option Z :=
  match proof with
  | StackedDRG32GiBV1 | StackedDRG2KiBV1 | StackedDRG8MiBV1 | StackedDRG512MiBV1 | StackedDRG64GiBV1 =>
      Some (EPOCHS_IN_DAY + PRE_COMMIT_CHALLENGE_DELAY)
  | StackedDRG32GiBV1P1 | StackedDRG64GiBV1P1 | StackedDRG512MiBV1P1 | StackedDRG8MiBV1P1 | StackedDRG2KiBV1P1 =>
      Some (30 * EPOCHS_IN_DAY + PRE_COMMIT_CHALLENGE_DELAY)
  | _ => None
  end.

(** At network version 14, which the interpreter runs. *)
Definition seal_proof_sector_maximum_lifetime (proof : RegisteredSealProof) : option Z :=
  match proof with
  | StackedDRG32GiBV1 | StackedDRG2KiBV1 | StackedDRG8MiBV1 | StackedDRG512MiBV1 | StackedDRG64GiBV1 => Some (EPOCHS_IN_DAY * 540)
  | StackedDRG32GiBV1P1 | StackedDRG2KiBV1P1 | StackedDRG8MiBV1P1 | StackedDRG512MiBV1P1 | StackedDRG64GiBV1P1 =>
      Some (EPOCHS_IN_YEAR * 5)
  | _ => None
  end.

(** A sector that lives for no time makes the source divide by zero. *)
Definition quality_for_weight (size duration deal_weight verified_weight : Z) : Z :=
  let sector_space_time := size * duration in
  let total_deal_space_time := deal_weight + verified_weight in
  let weighted_base_space_time := (sector_space_time - total_deal_space_time) * QUALITY_BASE_MULTIPLIER in
  let weighted_deal_space_time := deal_weight * DEAL_WEIGHT_MULTIPLIER in
  let weighted_verified_space_time := verified_weight * VERIFIED_DEAL_WEIGHT_MULTIPLIER in
  let weighted_sum_space_time := weighted_base_space_time + weighted_deal_space_time + weighted_verified_space_time in
  let scaled_up_weighted_sum_space_time := Z.shiftl weighted_sum_space_time SECTOR_QUALITY_PRECISION in
  scaled_up_weighted_sum_space_time / sector_space_time / QUALITY_BASE_MULTIPLIER.

Definition qa_power_for_weight (size duration deal_weight verified_weight : Z) : Z :=
  Z.shiftr (size * quality_for_weight size duration deal_weight verified_weight) SECTOR_QUALITY_PRECISION.

Definition qa_power_for_sector (size : Z) (s : SectorOnChainInfo) : Z :=
  qa_power_for_weight size (expiration s - activation s) (deal_weight s) (verified_deal_weight s).

Definition sector_deals_max (size : Z) : Z := Z.max 256 (size / DEAL_LIMIT_DENOMINATOR).

Definition reward_for_consensus_slash_report (epoch_reward : Z) : Z :=
  epoch_reward / (EXPECTED_LEADERS_PER_EPOCH * CONSENSUS_FAULT_REPORTER_DEFAULT_SHARE).

(** ** [mod.rs] *)

Definition power_for_sector (size : Z) (s : SectorOnChainInfo) : PowerPair :=
  {| raw := size; qa := qa_power_for_sector size s |}.
Definition power_for_sectors (size : Z) (l : list SectorOnChainInfo) : PowerPair :=
  {| raw := size * Z.of_nat (length l); qa := zsum (qa_power_for_sector size <$> l) |}.

(** ** [sectors.rs] *)

Notation Sectors := (gmap Z SectorOnChainInfo).

Definition load_sector (sectors : Sectors) (sector_numbers : gset Z) : result BoxErr (list SectorOnChainInfo) :=
  mapM (λ n,
    o ← (match amt_get sectors n with Err _ => Err (Actor ErrIllegalState) | Ok o => Ok o end);
    ok_or o (Actor ErrNotFound)) (bits sector_numbers).

Definition sectors_store (sectors : Sectors) (infos : list SectorOnChainInfo) : result BoxErr Sectors :=
  try_fold (λ m info,
    _ ← throw_if (MAX_SECTOR_NUMBER <? sector_number info) Plain;
    amt_set m (sector_number info) info) sectors infos.

Definition must_get (sectors : Sectors) (n : Z) : result BoxErr SectorOnChainInfo :=
  o ← amt_get sectors n; ok_or o Plain.

Definition load_with_fault_max (sectors : Sectors) (X faults : gset Z) (fault_stand_in : Z)
    : result BoxErr (list SectorOnChainInfo) :=
  stand_in_info ← must_get sectors fault_stand_in;
  mapM (λ i, if bool_decide (i ∈ faults) then mret stand_in_info else must_get sectors i) (bits X).

Definition load_for_proof (sectors : Sectors) (proven_sectors expected_faults : gset Z)
    : result BoxErr (list SectorOnChainInfo) :=
  match bits (proven_sectors ∖ expected_faults) with
  | [] => mret []
  | good_sector_number :: _ => load_with_fault_max sectors proven_sectors expected_faults good_sector_number
  end.

(** The loop over the sectors, with the numbers still to be found. *)
Fixpoint select_loop (l : list SectorOnChainInfo) (to_include : gset Z) : list SectorOnChainInfo * gset Z :=
  match l with
  | [] => ([], to_include)
  | s :: l =>
      if bool_decide (sector_number s ∈ to_include)
      then let '(included, rest) := select_loop l (to_include ∖ {[sector_number s]}) in (s :: included, rest)
      else select_loop l to_include
  end.
Definition select_sectors (l : list SectorOnChainInfo) (field : gset Z) : result BoxErr (list SectorOnChainInfo) :=
  let '(included, rest) := select_loop l field in
  _ ← throw_if (negb (bool_decide (rest = ∅))) Plain;
  mret included.

(** ** Sums over sets *)

Definition ssum (f : Z → Z) (X : gset Z) : Z := zsum (f <$> elements X).

Lemma zsum_perm l l' : l ≡ₚ l' → zsum l = zsum l'.
Proof. unfold zsum. induction 1; cbn in *; lia. Qed.
Lemma ssum_list f l : NoDup l → zsum (f <$> l) = ssum f (list_to_set l).
Proof. intros Hd. unfold ssum. apply zsum_perm. by rewrite elements_list_to_set. Qed.
Lemma ssum_empty f : ssum f ∅ = 0.
Proof. unfold ssum. by rewrite elements_empty. Qed.
Lemma ssum_singleton f i : ssum f {[i]} = f i.
Proof. unfold ssum. rewrite elements_singleton. cbn. lia. Qed.
Lemma ssum_union f X Y : X ## Y → ssum f (X ∪ Y) = ssum f X + ssum f Y.
Proof. intros Hd. unfold ssum. rewrite <- zsum_app, <- fmap_app. apply zsum_perm. by rewrite elements_disj_union. Qed.
Lemma ssum_ext f g X : (∀ i, i ∈ X → f i = g i) → ssum f X = ssum g X.
Proof.
  intros He. unfold ssum. f_equal. apply list_fmap_ext. intros k i Hi. apply He, elem_of_elements. by eapply list_elem_of_lookup_2.
Qed.
Lemma ssum_split f X Y : ssum f X = ssum f (X ∩ Y) + ssum f (X ∖ Y).
Proof. rewrite <- ssum_union by set_solver. f_equal. apply set_eq. intros i. destruct (decide (i ∈ Y)); set_solver. Qed.
Lemma ssum_difference f X Y : Y ⊆ X → ssum f (X ∖ Y) = ssum f X - ssum f Y.
Proof.
  intros HY. pose proof (ssum_split f X Y) as Hs. assert (He : X ∩ Y = Y).
  { apply set_eq. intros i. rewrite elem_of_intersection. specialize (HY i). tauto. }
  rewrite He in Hs. lia.
Qed.
Lemma ssum_nonneg f X : (∀ i, i ∈ X → 0 ≤ f i) → 0 ≤ ssum f X.
Proof.
  revert X. apply (set_ind_L (λ X, (∀ i, i ∈ X → 0 ≤ f i) → 0 ≤ ssum f X)); [by rewrite ssum_empty|].
  intros i X Hi IH Hall. rewrite ssum_union, ssum_singleton by set_solver.
  assert (0 ≤ f i) by set_solver. assert (0 ≤ ssum f X) by (apply IH; set_solver). lia.
Qed.
Lemma ssum_subset f X Y : X ⊆ Y → (∀ i, i ∈ Y → 0 ≤ f i) → ssum f X ≤ ssum f Y.
Proof.
  intros Hs Hn. pose proof (ssum_difference f Y X Hs). assert (0 ≤ ssum f (Y ∖ X)) by (apply ssum_nonneg; set_solver). lia.
Qed.
Lemma ssum_delete f X i : i ∈ X → ssum f (X ∖ {[i]}) = ssum f X - f i.
Proof. intros Hi. rewrite ssum_difference, ssum_singleton; [done|set_solver]. Qed.

Definition psum (p : Z → PowerPair) (X : gset Z) : PowerPair := {| raw := ssum (λ i, raw (p i)) X; qa := ssum (λ i, qa (p i)) X |}.

#[global] Arguments psum : simpl never.
#[global] Arguments ssum : simpl never.

Lemma psum_empty p : psum p ∅ = pp_zero.
Proof. unfold psum. by rewrite !ssum_empty. Qed.
Lemma psum_union p X Y : X ## Y → psum p (X ∪ Y) = (psum p X + psum p Y)%pw.
Proof. intros Hd. unfold psum, pp_add. cbn. by rewrite !ssum_union. Qed.
Lemma psum_difference p X Y : Y ⊆ X → psum p (X ∖ Y) = (psum p X - psum p Y)%pw.
Proof. intros HY. unfold psum, pp_sub. cbn. by rewrite !ssum_difference. Qed.
Lemma psum_split p X Y : psum p X = (psum p (X ∩ Y) + psum p (X ∖ Y))%pw.
Proof. unfold psum, pp_add. cbn. f_equal; apply ssum_split. Qed.
Lemma psum_ext p q X : (∀ i, i ∈ X → p i = q i) → psum p X = psum q X.
Proof. intros He. unfold psum. f_equal; apply ssum_ext; intros i Hi; by rewrite He. Qed.
Lemma psum_singleton p i : psum p {[i]} = p i.
Proof. unfold psum. rewrite !ssum_singleton. by destruct (p i). Qed.
Lemma psum_nonneg p X : (∀ i, i ∈ X → pp_nonneg (p i)) → pp_nonneg (psum p X).
Proof. intros Hn. split; apply ssum_nonneg; intros i Hi; by apply Hn. Qed.
Lemma psum_subset p X Y : X ⊆ Y → (∀ i, i ∈ Y → pp_nonneg (p i)) → raw (psum p X) ≤ raw (psum p Y) ∧ qa (psum p X) ≤ qa (psum p Y).
Proof. intros Hs Hn. split; apply ssum_subset; try done; intros i Hi; by apply Hn. Qed.

Lemma ssum_set f X Y : X ≡ Y → ssum f X = ssum f Y.
Proof. by intros ->%leibniz_equiv. Qed.
Lemma psum_set p X Y : X ≡ Y → psum p X = psum p Y.
Proof. intros He. by rewrite (leibniz_equiv X Y He). Qed.
Lemma psum_empty_set p X : X ≡ ∅ → psum p X = pp_zero.
Proof. intros He. by rewrite (psum_set p X ∅ He), psum_empty. Qed.

(** ** Sector tables *)

(** A sector of the table lives for some time, with deals that weigh something
    or nothing, and expires within the range of epochs. *)
Definition sector_ok (n : Z) (s : SectorOnChainInfo) : Prop :=
  sector_number s = n ∧ 0 ≤ n ≤ MAX_SECTOR_NUMBER ∧ activation s < expiration s ∧ 0 ≤ expiration s ≤ 2 ^ 62 ∧
  0 ≤ deal_weight s ∧ 0 ≤ verified_deal_weight s ∧ 0 ≤ si_initial_pledge s.
Definition table_wf (m : Sectors) : Prop := map_Forall sector_ok m.

(** Power and pledge of a sector by its number. *)
Definition info_power (size : Z) (m : Sectors) (n : Z) : PowerPair := default pp_zero (power_for_sector size <$> m !! n).
Definition info_pledge (m : Sectors) (n : Z) : Z := default 0 (si_initial_pledge <$> m !! n).

Lemma qa_power_nonneg size n s : 0 < size → sector_ok n s → 0 ≤ qa_power_for_sector size s.
Proof.
  intros Hs (_ & _ & Ha & _ & Hd & Hv & _). unfold qa_power_for_sector, qa_power_for_weight. apply Z.shiftr_nonneg.
  apply Z.mul_nonneg_nonneg; [lia|]. unfold quality_for_weight. repeat (apply Z.div_pos; [|unfold QUALITY_BASE_MULTIPLIER; nia]).
  apply Z.shiftl_nonneg. unfold QUALITY_BASE_MULTIPLIER, DEAL_WEIGHT_MULTIPLIER, VERIFIED_DEAL_WEIGHT_MULTIPLIER. nia.
Qed.

Lemma sector_index n s : sector_ok n s → n ≤ AMT_MAX_INDEX.
Proof. intros (_ & Hn & _). unfold MAX_SECTOR_NUMBER, AMT_MAX_INDEX, i64_max, usize_max in *. lia. Qed.

Section tables.
Context (size : Z) (m : Sectors) (Hsize : 0 < size) (Hm : table_wf m).

Lemma info_power_nonneg n : pp_nonneg (info_power size m n).
Proof.
  unfold info_power. destruct (m !! n) as [s|] eqn:E; cbn; [|done]. split; cbn; [lia|]. by eapply qa_power_nonneg, Hm.
Qed.
Lemma info_pledge_nonneg n : 0 ≤ info_pledge m n.
Proof using Hm. clear Hsize. unfold info_pledge. destruct (m !! n) as [s|] eqn:E; cbn; [|done]. by apply Hm in E as (_ & _ & _ & _ & _ & _ & ?). Qed.

(** A list of infos of the table, each once. *)
Definition infos (l : list SectorOnChainInfo) : Prop :=
  NoDup (sector_number <$> l) ∧ Forall (λ s, m !! sector_number s = Some s) l.
Definition numbers (l : list SectorOnChainInfo) : gset Z := list_to_set (sector_number <$> l).

Lemma infos_cons s l : infos (s :: l) ↔ m !! sector_number s = Some s ∧ sector_number s ∉ numbers l ∧ infos l.
Proof.
  unfold infos, numbers. cbn. rewrite NoDup_cons, Forall_cons, elem_of_list_to_set. tauto.
Qed.
Lemma infos_power l : infos l → power_for_sectors size l = psum (info_power size m) (numbers l).
Proof using Type. clear Hsize Hm.
  induction l as [|s l IH]; intros Hl; [cbn; by rewrite psum_empty; apply pp_ext; cbn; lia|].
  apply infos_cons in Hl as (Hs & Hn & Hl). specialize (IH Hl). unfold numbers. cbn [fmap list_fmap list_to_set].
  fold (numbers l). rewrite psum_union, psum_singleton, <- IH by set_solver. unfold info_power. rewrite Hs. cbn.
  apply pp_ext; cbn; unfold zsum; lia.
Qed.
Lemma infos_pledge l : infos l → zsum (si_initial_pledge <$> l) = ssum (info_pledge m) (numbers l).
Proof using Type. clear Hsize Hm.
  induction l as [|s l IH]; intros Hl; [done|]. apply infos_cons in Hl as (Hs & Hn & Hl). specialize (IH Hl).
  unfold numbers. cbn. fold (numbers l). rewrite ssum_union, ssum_singleton, <- IH by set_solver. unfold info_pledge. by rewrite Hs.
Qed.

Lemma infos_filter (Q : SectorOnChainInfo → Prop) `{∀ s, Decision (Q s)} l : infos l → infos (filter Q l).
Proof.
  intros [Hd Hl]. split.
  - eapply sublist_NoDup; [exact Hd|]. apply fmap_sublist, sublist_filter.
  - apply Forall_forall. intros s [_ Hs]%list_elem_of_filter. rewrite Forall_forall in Hl. by apply Hl.
Qed.
Lemma elem_of_numbers l n : n ∈ numbers l ↔ ∃ s, s ∈ l ∧ sector_number s = n.
Proof. unfold numbers. rewrite elem_of_list_to_set, list_elem_of_fmap. naive_solver. Qed.
Lemma infos_elem l n : infos l → n ∈ numbers l → ∃ s, s ∈ l ∧ sector_number s = n ∧ m !! n = Some s.
Proof.
  intros [_ Hl] (s & Hs & <-)%elem_of_numbers. exists s. rewrite Forall_forall in Hl. split_and!; try done. by apply Hl.
Qed.
Lemma foldr_power l : foldr (λ s p, (power_for_sector size s + p)%pw) pp_zero l = power_for_sectors size l.
Proof. induction l as [|s l IH]; cbn [foldr]; [|rewrite IH]; apply pp_ext; cbn; unfold zsum; lia. Qed.

(** [load_sector] succeeds exactly on sets of sectors of the table. *)
Lemma load_sector_ok X : X ⊆ dom m → ∃ l, load_sector m X = Ok l ∧ infos l ∧ numbers l = X ∧ sector_number <$> l = bits X.
Proof using Hm. clear Hsize.
  intros HX. unfold load_sector.
  assert (Hgen : ∀ b, NoDup b → (∀ n, n ∈ b → n ∈ dom m) → ∃ l,
    mapM (λ n, o ← (match amt_get m n with Err _ => Err (Actor ErrIllegalState) | Ok o => Ok o end); ok_or o (Actor ErrNotFound)) b = Ok l
    ∧ infos l ∧ sector_number <$> l = b).
  { induction b as [|n b IH]; intros Hd Hb; [exists []; split_and!; [done|split; constructor|done]|].
    apply NoDup_cons in Hd as [Hn Hd]. destruct (IH Hd) as (l & Hl & Hi & Hf); [set_solver|].
    assert (Hin : n ∈ dom m) by set_solver. apply elem_of_dom in Hin as [s Hs]. pose proof (Hm _ _ Hs) as (Hsn & Hr & _).
    exists (s :: l). cbn [mapM]. rewrite amt_get_ok by (by eapply sector_index, Hm).
    cbn. rewrite Hs. cbn. rewrite Hl. cbn. split_and!; [done| |by rewrite Hsn, Hf].
    apply infos_cons. rewrite Hsn. split_and!; try done. unfold numbers. by rewrite Hf, elem_of_list_to_set. }
  destruct (Hgen (bits X)) as (l & Hl & Hi & Hf); [apply NoDup_bits|intros n Hn%elem_of_bits; set_solver|].
  exists l. split_and!; try done. unfold numbers. rewrite Hf. apply set_eq. intros n. by rewrite elem_of_list_to_set, elem_of_bits.
Qed.

Lemma load_sector_spec X l : load_sector m X = Ok l → infos l ∧ numbers l = X ∧ X ⊆ dom m.
Proof using Hm. clear Hsize.
  intros Hl. assert (HX : X ⊆ dom m); [|destruct (load_sector_ok X HX) as (l1 & Hl1 & ? & ? & _); rewrite Hl in Hl1; by injection Hl1 as <-].
  unfold load_sector in Hl. intros n Hn%elem_of_bits. revert l Hl Hn. generalize (bits X).
  induction l as [|k b IH]; intros l Hl Hn; [set_solver|]. cbn [mapM] in Hl.
  destruct (amt_get m k) as [o|] eqn:Ek; [|done]. cbn in Hl. destruct o as [s|]; [|done]. cbn in Hl.
  destruct (mapM _ b) as [l'|] eqn:Eb; [|done]. apply elem_of_cons in Hn as [->|Hn]; [|by eapply IH].
  unfold amt_get in Ek. inv_ok. apply elem_of_dom. by exists s.
Qed.
End tables.
