(* ===== verification/Expirations.v ===== *)
(** * Queues of expiring sectors

    [bitfield_queue.rs] and [expiration_queue.rs] of
    [src/vm/actor/src/builtin/miner/].  The queues are AMTs indexed by epochs,
    cast to [usize]. *)

From S2P Require Import Prelude Address Runtime Types Vesting MinerFunds Sectors.

(** ** [bitfield_queue.rs] *)

Notation BitFieldQueue := (gmap Z (gset Z)).

Section bitfield_queue.
Context (quant : QuantSpec).

Definition bfq_add_to_queue (q : BitFieldQueue) (raw_epoch : Z) (values : gset Z) : result BoxErr BitFieldQueue :=
  if bool_decide (values = ∅) then mret q
  else
    let epoch := quantize_up quant raw_epoch in
    o ← amt_get q (as_usize epoch);
    amt_set q (as_usize epoch) (default ∅ o ∪ values).

Definition bfq_add_to_queue_values (q : BitFieldQueue) (epoch : Z) (values : list Z) : result BoxErr BitFieldQueue :=
  match values with [] => mret q | _ => bfq_add_to_queue q epoch (bits_of values) end.

(** The bits of [to_cut] are taken out, and the others move down. *)
Definition set_cut (X to_cut : gset Z) : gset Z :=
  set_map (λ i, i - bits_len (filter (λ j, j < i) to_cut)) (X ∖ to_cut).

Definition bfq_cut (q : BitFieldQueue) (to_cut : gset Z) : result BoxErr BitFieldQueue :=
  '(epochs_to_remove, q) ← for_each_while_mut (λ rm epoch bitfield,
      let bf := set_cut bitfield to_cut in
      if bool_decide (bf = ∅) then mret (rm ++ [epoch], bitfield, true) else mret (rm, bf, true)) [] q (amt_entries q);
  amt_batch_delete q epochs_to_remove.

(** The map of values, by epoch, is given as the list of its entries in the
    order of its iteration. *)
Definition quantized_values (values : list (Z * list Z)) : gmap Z (list Z) :=
  fold_left (λ m e, let epoch := quantize_up quant e.1 in <[epoch := default [] (m !! epoch) ++ e.2]> m) values ∅.
Definition bfq_add_many_to_queue_values (q : BitFieldQueue) (values : list (Z * list Z)) : result BoxErr BitFieldQueue :=
  try_fold (λ q e, bfq_add_to_queue_values q e.1 e.2) q (sort_by fst (map_to_list (quantized_values values))).

Definition bfq_pop_until (q : BitFieldQueue) (until : Z) : result BoxErr (BitFieldQueue * (gset Z * bool)) :=
  '(popped_keys, popped_values) ← for_each_while (λ s epoch bitfield,
      let '(keys, vals) := s : list Z * gset Z in
      if until <? as_i64 epoch then mret (s, false) else mret ((keys ++ [epoch], vals ∪ bitfield), true))
    ([], ∅) (amt_entries q);
  match popped_keys with
  | [] => mret (q, (∅, false))
  | _ => q ← amt_batch_delete q popped_keys; mret (q, (popped_values, true))
  end.
End bitfield_queue.

(** ** [expiration_queue.rs]: sets *)

Definition ENTRY_SECTORS_MAX : Z := 10000.

Record ExpirationSet := {
  on_time_sectors : gset Z; early_sectors : gset Z; on_time_pledge : Z; active_power : PowerPair; faulty_power : PowerPair }.

Definition es_empty : ExpirationSet :=
  {| on_time_sectors := ∅; early_sectors := ∅; on_time_pledge := 0; active_power := pp_zero; faulty_power := pp_zero |}.

Definition es_validate_state (es : ExpirationSet) : result BoxErr unit :=
  _ ← throw_if (on_time_pledge es <? 0) Plain;
  _ ← throw_if (raw (active_power es) <? 0) Plain;
  _ ← throw_if (qa (active_power es) <? 0) Plain;
  _ ← throw_if (raw (faulty_power es) <? 0) Plain;
  throw_if (qa (faulty_power es) <? 0) Plain.

Definition es_add (es : ExpirationSet) (ot ea : gset Z) (pledge : Z) (ap fp : PowerPair) : result BoxErr ExpirationSet :=
  let es := {| on_time_sectors := on_time_sectors es ∪ ot; early_sectors := early_sectors es ∪ ea;
               on_time_pledge := on_time_pledge es + pledge; active_power := active_power es + ap;
               faulty_power := faulty_power es + fp |} in
  _ ← es_validate_state es;
  mret es.

Definition es_remove (es : ExpirationSet) (ot ea : gset Z) (pledge : Z) (ap fp : PowerPair) : result BoxErr ExpirationSet :=
  _ ← throw_if (negb (bool_decide (ot ⊆ on_time_sectors es))) Plain;
  _ ← throw_if (negb (bool_decide (ea ⊆ early_sectors es))) Plain;
  let es := {| on_time_sectors := on_time_sectors es ∖ ot; early_sectors := early_sectors es ∖ ea;
               on_time_pledge := on_time_pledge es - pledge; active_power := active_power es - ap;
               faulty_power := faulty_power es - fp |} in
  _ ← throw_if (on_time_pledge es <? 0) Plain;
  _ ← throw_if ((qa (active_power es) <? 0) || (qa (faulty_power es) <? 0)) Plain;
  _ ← es_validate_state es;
  mret es.

Definition es_is_empty (es : ExpirationSet) : bool :=
  bool_decide (on_time_sectors es = ∅) && bool_decide (early_sectors es = ∅).
Definition es_len (es : ExpirationSet) : Z := bits_len (on_time_sectors es) + bits_len (early_sectors es).

Record SectorEpochSet := { se_epoch : Z; se_sectors : list Z; se_power : PowerPair; se_pledge : Z }.
Record SectorExpirationSet := { sector_epoch_set : SectorEpochSet; expiration_set : ExpirationSet }.

(** ** [expiration_queue.rs]: the queue *)

Notation ExpirationQueue := (gmap Z ExpirationSet).

Section expiration_queue.
Context (quant : QuantSpec) (sector_size : Z).
(** The order in which a hash map of epochs is iterated. *)
Context (hash_order : gset Z → list Z).

Definition may_get (q : ExpirationQueue) (key : Z) : result BoxErr ExpirationSet :=
  o ← amt_get q (as_usize key); mret (default es_empty o).
Definition must_update (q : ExpirationQueue) (epoch : Z) (es : ExpirationSet) : result BoxErr ExpirationQueue :=
  amt_set q (as_usize epoch) es.
Definition must_update_or_delete (q : ExpirationQueue) (epoch : Z) (es : ExpirationSet) : result BoxErr ExpirationQueue :=
  if es_is_empty es then amt_del q (as_usize epoch) else amt_set q (as_usize epoch) es.

Definition eq_add (q : ExpirationQueue) (raw_epoch : Z) (ot ea : gset Z) (ap fp : PowerPair) (pledge : Z)
    : result BoxErr ExpirationQueue :=
  let epoch := quantize_up quant raw_epoch in
  es ← may_get q epoch;
  es ← es_add es ot ea pledge ap fp;
  must_update q epoch es.

Definition eq_remove (q : ExpirationQueue) (raw_epoch : Z) (ot ea : gset Z) (ap fp : PowerPair) (pledge : Z)
    : result BoxErr ExpirationQueue :=
  let epoch := quantize_up quant raw_epoch in
  o ← amt_get q (as_usize epoch);
  es ← ok_or o Plain;
  es ← es_remove es ot ea pledge ap fp;
  must_update_or_delete q epoch es.

(** Sectors by their declared expiration, in the order of the epochs. *)
Definition declared (l : list SectorOnChainInfo) : gset Z := list_to_set ((λ s, quantize_up quant (expiration s)) <$> l).
Definition group_new_sectors_by_declared_expiration (l : list SectorOnChainInfo) : list SectorEpochSet :=
  (λ e, let group := filter (λ s, quantize_up quant (expiration s) = e) l in
        {| se_epoch := e; se_sectors := sector_number <$> group;
           se_power := foldr (λ s p, (power_for_sector sector_size s + p)%pw) pp_zero group;
           se_pledge := zsum (si_initial_pledge <$> group) |}) <$> bits (declared l).

Definition add_active_sectors (q : ExpirationQueue) (l : list SectorOnChainInfo)
    : result BoxErr (ExpirationQueue * (gset Z * PowerPair * Z)) :=
  try_fold (λ acc group,
    let '(q, (total_sectors, total_power, total_pledge)) := acc : ExpirationQueue * (gset Z * PowerPair * Z) in
    let sector_numbers := bits_of (se_sectors group) in
    q ← eq_add q (se_epoch group) sector_numbers ∅ (se_power group) pp_zero (se_pledge group);
    mret (q, (total_sectors ∪ sector_numbers, (total_power + se_power group)%pw, total_pledge + se_pledge group)))
  (q, (∅, pp_zero, 0)) (group_new_sectors_by_declared_expiration l).

(** The later of two infos with the same number is the one in the map. *)
Definition by_number (l : list SectorOnChainInfo) : gmap Z SectorOnChainInfo :=
  list_to_map (reverse ((λ s, (sector_number s, s)) <$> l)).

(** The on-time sectors of [es] that are still to be found, with their power and
    pledge, and what is left to be found. *)
Definition group_expiration_set (sectors : gmap Z SectorOnChainInfo) (include_set : gset Z) (es : ExpirationSet) (expiration : Z)
    : SectorExpirationSet * gset Z :=
  let found := filter (λ u, u ∈ include_set) (bits (on_time_sectors es)) in
  let infos := omap (λ u, sectors !! u) found in
  ({| sector_epoch_set := {| se_epoch := expiration; se_sectors := found;
        se_power := foldr (λ s p, (power_for_sector sector_size s + p)%pw) pp_zero infos;
        se_pledge := zsum (si_initial_pledge <$> infos) |};
      expiration_set := es |}, include_set ∖ bits_of found).

Definition check_no_early_sectors (set : gset Z) (es : ExpirationSet) : result BoxErr unit :=
  throw_if (existsb (λ u, bool_decide (u ∈ set)) (bits (early_sectors es))) Plain.

Definition push_group (groups : list SectorExpirationSet) (g : SectorExpirationSet) : list SectorExpirationSet :=
  match se_sectors (sector_epoch_set g) with [] => groups | _ => groups ++ [g] end.

Definition find_sectors_by_expiration (q : ExpirationQueue) (l : list SectorOnChainInfo)
    : result BoxErr (list SectorExpirationSet) :=
  let declared_expirations := declared l in
  let sectors := by_number l in
  '(all_remaining, groups) ← try_fold (λ acc e,
      let '(rest, groups) := acc : gset Z * list SectorExpirationSet in
      es ← may_get q e;
      let '(g, rest) := group_expiration_set sectors rest es e in
      mret (rest, push_group groups g))
    (numbers l, []) (hash_order declared_expirations);
  '(all_remaining, groups) ←
    (if bool_decide (all_remaining = ∅) then mret (all_remaining, groups)
     else for_each_while (λ acc k es,
        let '(rest, groups) := acc : gset Z * list SectorExpirationSet in
        let epoch := as_i64 k in
        if bool_decide (epoch ∈ declared_expirations) then mret (acc, true)
        else
          _ ← check_no_early_sectors rest es;
          let '(g, rest) := group_expiration_set sectors rest es epoch in
          mret ((rest, push_group groups g), negb (bool_decide (rest = ∅))))
      (all_remaining, groups) (amt_entries q));
  _ ← throw_if (negb (bool_decide (all_remaining = ∅))) Plain;
  mret (sort_by (λ g, se_epoch (sector_epoch_set g)) groups).

Definition remove_active_sectors (q : ExpirationQueue) (l : list SectorOnChainInfo)
    : result BoxErr (ExpirationQueue * (gset Z * PowerPair * Z)) :=
  groups ← find_sectors_by_expiration q l;
  try_fold (λ acc group,
    let '(q, (ns, power, pledge)) := acc : ExpirationQueue * (gset Z * PowerPair * Z) in
    let g := sector_epoch_set group in
    let bf := bits_of (se_sectors g) in
    q ← eq_remove q (se_epoch g) bf ∅ (se_power g) pp_zero (se_pledge g);
    mret (q, (ns ∪ bf, (power + se_power g)%pw, pledge + se_pledge g)))
  (q, (∅, pp_zero, 0)) groups.

Definition reschedule_expirations (q : ExpirationQueue) (new_expiration : Z) (l : list SectorOnChainInfo)
    : result BoxErr ExpirationQueue :=
  match l with
  | [] => mret q
  | _ =>
      '(q, r) ← remove_active_sectors q l;
      let '(sector_numbers, power, pledge) := (r : gset Z * PowerPair * Z) in
      eq_add q new_expiration sector_numbers ∅ power pp_zero pledge
  end.

(** One group of [reschedule_as_faults]: the queue, the sectors to move, and the
    power of those that stay and of those that move. *)
Definition fault_group (new_expiration : Z) (acc : ExpirationQueue * (list Z * PowerPair * PowerPair)) (group : SectorExpirationSet)
    : result BoxErr (ExpirationQueue * (list Z * PowerPair * PowerPair)) :=
  let '(q, (sectors_total, expiring_power, rescheduled_power)) := acc in
  let g := sector_epoch_set group in
  let es := expiration_set group in
  let '(es, r) :=
    if se_epoch g <=? quantize_up quant new_expiration then
      ({| on_time_sectors := on_time_sectors es; early_sectors := early_sectors es; on_time_pledge := on_time_pledge es;
          active_power := active_power es - se_power g; faulty_power := faulty_power es + se_power g |},
       (sectors_total, (expiring_power + se_power g)%pw, rescheduled_power))
    else
      ({| on_time_sectors := on_time_sectors es ∖ bits_of (se_sectors g); early_sectors := early_sectors es;
          on_time_pledge := on_time_pledge es - se_pledge g; active_power := active_power es - se_power g;
          faulty_power := faulty_power es |},
       (sectors_total ++ se_sectors g, expiring_power, (rescheduled_power + se_power g)%pw)) in
  q ← must_update_or_delete q (se_epoch g) es;
  _ ← es_validate_state es;
  mret (q, r).

Definition reschedule_as_faults (q : ExpirationQueue) (new_expiration : Z) (l : list SectorOnChainInfo)
    : result BoxErr (ExpirationQueue * PowerPair) :=
  groups ← find_sectors_by_expiration q l;
  '(q, r) ← try_fold (fault_group new_expiration) (q, ([], pp_zero, pp_zero)) groups;
  let '(sectors_total, expiring_power, rescheduled_power) := (r : list Z * PowerPair * PowerPair) in
  q ← match sectors_total with
    | [] => mret q
    | _ => eq_add q new_expiration ∅ (bits_of sectors_total) pp_zero rescheduled_power 0
    end;
  mret (q, (rescheduled_power + expiring_power)%pw).

(** The state of the loop of [reschedule_all_as_faults]. *)
Record AllFaults := {
  af_epochs : list Z; af_sectors : gset Z; af_power : PowerPair; af_mutated : list (Z * ExpirationSet) }.

Definition reschedule_all_as_faults (q : ExpirationQueue) (fault_expiration : Z) : result BoxErr ExpirationQueue :=
  r ← for_each_while (λ acc k es,
      let epoch := as_i64 k in
      if epoch <=? quantize_up quant fault_expiration then
        let es := {| on_time_sectors := on_time_sectors es; early_sectors := early_sectors es; on_time_pledge := on_time_pledge es;
                     active_power := pp_zero; faulty_power := faulty_power es + active_power es |} in
        mret ({| af_epochs := af_epochs acc; af_sectors := af_sectors acc; af_power := af_power acc;
                 af_mutated := af_mutated acc ++ [(epoch, es)] |}, true)
      else
        _ ← throw_if (negb (bool_decide (early_sectors es = ∅))) Plain;
        mret ({| af_epochs := af_epochs acc ++ [as_usize epoch]; af_sectors := af_sectors acc ∪ on_time_sectors es;
                 af_power := (af_power acc + active_power es + faulty_power es)%pw; af_mutated := af_mutated acc |}, true))
    {| af_epochs := []; af_sectors := ∅; af_power := pp_zero; af_mutated := [] |} (amt_entries q);
  q ← try_fold (λ q e, q ← must_update q e.1 e.2; _ ← es_validate_state e.2; mret q) q (af_mutated r);
  match af_epochs r with
  | [] => mret q
  | _ => q ← eq_add q fault_expiration ∅ (af_sectors r) pp_zero (af_power r) 0;
         amt_batch_delete q (af_epochs r)
  end.

(** [iter_while_mut]: entries that the closure empties are deleted afterwards. *)
Definition iter_while_mut {S} (f : S → Z → ExpirationSet → result BoxErr (S * ExpirationSet * bool)) (s : S) (q : ExpirationQueue)
    : result BoxErr (S * ExpirationQueue) :=
  '(s, q) ← for_each_while_mut (λ acc k es,
      let '(s, emptied) := acc : S * list Z in
      r ← f s (as_i64 k) es;
      let '(s, es, keep_going) := (r : S * ExpirationSet * bool) in
      mret ((s, if es_is_empty es then emptied ++ [k] else emptied), es, keep_going)) (s, []) q (amt_entries q);
  q ← amt_batch_delete q s.2;
  mret (s.1, q).

(** The state of the loop of [reschedule_recovered]. *)
Record Recovered := { rec_remaining : gset Z; rec_rescheduled : list SectorOnChainInfo; rec_power : PowerPair }.

Definition recover_one (on_time early : gset Z) (acc : Recovered * ExpirationSet) (s : SectorOnChainInfo) : Recovered * ExpirationSet :=
  let '(r, es) := acc in
  let n := sector_number s in
  let power := power_for_sector sector_size s in
  if bool_decide (n ∈ on_time) then
    ({| rec_remaining := rec_remaining r ∖ {[n]}; rec_rescheduled := rec_rescheduled r; rec_power := rec_power r + power |},
     {| on_time_sectors := on_time_sectors es; early_sectors := early_sectors es; on_time_pledge := on_time_pledge es;
        active_power := active_power es + power; faulty_power := faulty_power es - power |})
  else if bool_decide (n ∈ early) then
    ({| rec_remaining := rec_remaining r ∖ {[n]}; rec_rescheduled := rec_rescheduled r ++ [s]; rec_power := rec_power r + power |},
     {| on_time_sectors := on_time_sectors es; early_sectors := early_sectors es ∖ {[n]}; on_time_pledge := on_time_pledge es;
        active_power := active_power es; faulty_power := faulty_power es - power |})
  else acc.

Definition reschedule_recovered (q : ExpirationQueue) (l : list SectorOnChainInfo) : result BoxErr (ExpirationQueue * PowerPair) :=
  '(r, q) ← iter_while_mut (λ r _ es,
      on_time ← bounded_bits ENTRY_SECTORS_MAX (on_time_sectors es);
      early ← bounded_bits ENTRY_SECTORS_MAX (early_sectors es);
      let '(r, es) := fold_left (recover_one on_time early) l (r, es) in
      _ ← es_validate_state es;
      mret (r, es, negb (bool_decide (rec_remaining r = ∅))))
    {| rec_remaining := numbers l; rec_rescheduled := []; rec_power := pp_zero |} q;
  _ ← throw_if (negb (bool_decide (rec_remaining r = ∅))) Plain;
  '(q, _) ← add_active_sectors q (rec_rescheduled r);
  mret (q, rec_power r).

Definition replace_sectors (q : ExpirationQueue) (old_sectors new_sectors : list SectorOnChainInfo)
    : result BoxErr (ExpirationQueue * (gset Z * gset Z * PowerPair * Z)) :=
  '(q, ro) ← remove_active_sectors q old_sectors;
  let '(old_numbers, old_power, old_pledge) := (ro : gset Z * PowerPair * Z) in
  '(q, rn) ← add_active_sectors q new_sectors;
  let '(new_numbers, new_power, new_pledge) := (rn : gset Z * PowerPair * Z) in
  mret (q, (old_numbers, new_numbers, (new_power - old_power)%pw, new_pledge - old_pledge)).

(** The state of the loop of [remove_sectors]. *)
Record Removed := { rm_remaining : gset Z; rm_set : ExpirationSet; rm_recovering : PowerPair }.

Definition remove_one (faults recovering on_time early : gset Z) (acc : Removed * ExpirationSet) (s : SectorOnChainInfo)
    : Removed * ExpirationSet :=
  let '(r, es) := acc in
  let n := sector_number s in
  let is_on_time := bool_decide (n ∈ on_time) in
  if is_on_time || bool_decide (n ∈ early) then
    let removed := rm_set r in
    let power := power_for_sector sector_size s in
    let faulty := bool_decide (n ∈ faults) in
    let pledge := if is_on_time then si_initial_pledge s else 0 in
    let fp := if faulty then power else pp_zero in
    let ap := if faulty then pp_zero else power in
    ({| rm_remaining := rm_remaining r ∖ {[n]};
        rm_set := {| on_time_sectors := if is_on_time then {[n]} ∪ on_time_sectors removed else on_time_sectors removed;
                     early_sectors := if is_on_time then early_sectors removed else {[n]} ∪ early_sectors removed;
                     on_time_pledge := on_time_pledge removed + pledge;
                     active_power := active_power removed + ap; faulty_power := faulty_power removed + fp |};
        rm_recovering := if bool_decide (n ∈ recovering) then (rm_recovering r + power)%pw else rm_recovering r |},
     {| on_time_sectors := if is_on_time then on_time_sectors es ∖ {[n]} else on_time_sectors es;
        early_sectors := if is_on_time then early_sectors es else early_sectors es ∖ {[n]};
        on_time_pledge := on_time_pledge es - pledge;
        active_power := active_power es - ap; faulty_power := faulty_power es - fp |})
  else acc.

Definition remove_sectors (q : ExpirationQueue) (l : list SectorOnChainInfo) (faults recovering : gset Z)
    : result BoxErr (ExpirationQueue * (ExpirationSet * PowerPair)) :=
  faults ← bounded_bits ADDRESSED_SECTORS_MAX faults;
  recovering ← bounded_bits ADDRESSED_SECTORS_MAX recovering;
  let faulty_sectors := filter (λ s, sector_number s ∈ faults) l in
  let non_faulty_sectors := filter (λ s, sector_number s ∉ faults) l in
  let remaining := numbers l ∖ numbers non_faulty_sectors in
  '(q, r) ← remove_active_sectors q non_faulty_sectors;
  let '(removed_numbers, removed_power, removed_pledge) := (r : gset Z * PowerPair * Z) in
  let removed := {| on_time_sectors := removed_numbers; early_sectors := ∅; on_time_pledge := removed_pledge;
                    active_power := removed_power; faulty_power := pp_zero |} in
  '(r, q) ← iter_while_mut (λ r _ es,
      on_time ← bounded_bits ENTRY_SECTORS_MAX (on_time_sectors es);
      early ← bounded_bits ENTRY_SECTORS_MAX (early_sectors es);
      let '(r, es) := fold_left (remove_one faults recovering on_time early) faulty_sectors (r, es) in
      _ ← es_validate_state es;
      mret (r, es, negb (bool_decide (rm_remaining r = ∅))))
    {| rm_remaining := remaining; rm_set := removed; rm_recovering := pp_zero |} q;
  _ ← throw_if (negb (bool_decide (rm_remaining r = ∅))) Plain;
  mret (q, (rm_set r, rm_recovering r)).

Definition es_merge (a es : ExpirationSet) : ExpirationSet :=
  {| on_time_sectors := on_time_sectors a ∪ on_time_sectors es; early_sectors := early_sectors a ∪ early_sectors es;
     on_time_pledge := on_time_pledge a + on_time_pledge es; active_power := active_power a + active_power es;
     faulty_power := faulty_power a + faulty_power es |}.

Definition pop_until (q : ExpirationQueue) (until : Z) : result BoxErr (ExpirationQueue * ExpirationSet) :=
  '(popped_keys, popped) ← for_each_while (λ acc i es,
      let '(keys, popped) := acc : list Z * ExpirationSet in
      if until <? as_i64 i then mret (acc, false) else mret ((keys ++ [i], es_merge popped es), true))
    ([], es_empty) (amt_entries q);
  q ← amt_batch_delete q popped_keys;
  mret (q, popped).
End expiration_queue.
