(* ===== verification/Schedule.v ===== *)
(** * What the expiration queue means

    An expiration queue is the grouping, by epoch, of a schedule: a map from
    each sector to the epoch at which it expires and whether it does so early,
    because of a fault.  The operations of [expiration_queue.rs] are operations
    on schedules. *)

From S2P Require Import Prelude Address Runtime Types Vesting MinerFunds Sectors Expirations.

(** ** Schedules *)

Notation Sched := (gmap Z (Z * bool)).
Implicit Types (σ : gmap Z (Z * bool)) (X F : gset Z).

(** The sectors that expire at [e], early or on time. *)
Definition at_epoch σ (e : Z) (early : bool) : gset Z := dom (filter (λ kv, kv.2 = (e, early)) σ).
(** The sectors [X] are scheduled, or taken out. *)
Definition upd X (p : Z * bool) σ : Sched := gset_to_gmap p X ∪ σ.
Definition del X σ : Sched := filter (λ kv, kv.1 ∉ X) σ.

Lemma elem_of_at σ e b n : n ∈ at_epoch σ e b ↔ σ !! n = Some (e, b).
Proof.
  unfold at_epoch. rewrite elem_of_dom. unfold is_Some. split.
  - intros (p & [Hp Hb]%map_lookup_filter_Some). cbn in Hb. by subst.
  - intros Hp. exists (e, b). by apply map_lookup_filter_Some.
Qed.
Lemma lookup_upd X p σ n : upd X p σ !! n = if decide (n ∈ X) then Some p else σ !! n.
Proof.
  unfold upd. case_decide as Hn.
  - apply lookup_union_Some_l. by apply lookup_gset_to_gmap_Some.
  - apply lookup_union_r. by apply lookup_gset_to_gmap_None.
Qed.
Lemma lookup_del X σ n : del X σ !! n = if decide (n ∈ X) then None else σ !! n.
Proof.
  unfold del. case_decide as Hn.
  - apply map_lookup_filter_None. right. intros p _ Hx. done.
  - destruct (σ !! n) as [p|] eqn:E; [by apply map_lookup_filter_Some|]. apply map_lookup_filter_None. by left.
Qed.
Lemma del_empty σ : del ∅ σ = σ.
Proof. apply map_eq. intros n. rewrite lookup_del. rewrite decide_False by set_solver. done. Qed.
Lemma del_del X Y σ : del Y (del X σ) = del (X ∪ Y) σ.
Proof. apply map_eq. intros n. rewrite !lookup_del. repeat case_decide; set_solver. Qed.
Lemma upd_dom X p σ : dom (upd X p σ) = X ∪ dom σ.
Proof.
  apply set_eq. intros n. rewrite elem_of_union, !elem_of_dom, lookup_upd. case_decide; [|tauto].
  split; [by left|]. intros _. by eexists.
Qed.

(** Sets of sectors of a schedule are equal when membership is. *)
Ltac sched_eq :=
  apply set_eq; intros ?n;
  repeat first [rewrite elem_of_at | rewrite elem_of_union | rewrite elem_of_difference | rewrite elem_of_intersection
               | rewrite lookup_upd | rewrite lookup_del];
  repeat case_decide; naive_solver.

(** ** Entries *)

Section entries.
Context (size : Z) (m : Sectors) (Hsize : 0 < size) (Hm : table_wf m).
Notation P := (info_power size m).
Notation G := (info_pledge m).

(** The entry for the on-time sectors [O] and the early sectors [E] when the
    sectors [F] are faulty. *)
Definition es_of F (O E : gset Z) : ExpirationSet :=
  {| on_time_sectors := O; early_sectors := E; on_time_pledge := ssum G O;
     active_power := psum P (O ∖ F); faulty_power := psum P (O ∩ F ∪ E) |}.

Definition entry F (O E : gset Z) : option ExpirationSet := if decide (O ∪ E = ∅) then None else Some (es_of F O E).

(** The queue is the grouping of the schedule. *)
Definition queue_rep (q : ExpirationQueue) σ F : Prop :=
  ∀ e, q !! e = entry F (at_epoch σ e false) (at_epoch σ e true).

(** Sectors are in the table and expire at quantised epochs; those that expire
    early are faulty. *)
Definition epoch_ok (quant : QuantSpec) (e : Z) : Prop := 0 ≤ e < i64_max ∧ quantize_up quant e = e.
Definition sched_ok (quant : QuantSpec) σ F : Prop :=
  ∀ n e b, σ !! n = Some (e, b) → n ∈ dom m ∧ epoch_ok quant e ∧ (b = true → n ∈ F).

Lemma psum_P_nonneg X : pp_nonneg (psum P X).
Proof. apply psum_nonneg. intros. by apply info_power_nonneg. Qed.
Lemma ssum_G_nonneg X : 0 ≤ ssum G X.
Proof. apply ssum_nonneg. intros. by apply info_pledge_nonneg. Qed.

Lemma es_of_valid F O E : es_validate_state (es_of F O E) = Ok tt.
Proof.
  unfold es_validate_state. cbn [on_time_pledge active_power faulty_power es_of]. pose proof (ssum_G_nonneg O).
  destruct (psum_P_nonneg (O ∖ F)), (psum_P_nonneg (O ∩ F ∪ E)). by rewrite !(proj2 (Z.ltb_ge _ _)) by lia.
Qed.

(** Two entries are equal when their parts are. *)
Lemma es_of_eq F O E O' E' pledge ap fp :
  O' = O → E' = E → pledge = ssum G O → ap = psum P (O ∖ F) → fp = psum P (O ∩ F ∪ E) →
  {| on_time_sectors := O'; early_sectors := E'; on_time_pledge := pledge; active_power := ap; faulty_power := fp |} = es_of F O E.
Proof. by intros -> -> -> -> ->. Qed.

Lemma es_of_empty F : es_of F ∅ ∅ = es_empty.
Proof.
  unfold es_of. rewrite ssum_empty, !psum_empty_set by set_solver. done.
Qed.

Lemma es_add_on_time F O E X :
  X ## O → X ## F → es_add (es_of F O E) X ∅ (ssum G X) (psum P X) pp_zero = Ok (es_of F (O ∪ X) E).
Proof.
  intros HO HF. unfold es_add. cbn [on_time_sectors early_sectors on_time_pledge active_power faulty_power es_of].
  erewrite (es_of_eq F (O ∪ X) E); [by rewrite es_of_valid|done|apply right_id_L; apply _|by rewrite ssum_union| |].
  - rewrite <- psum_union by set_solver. apply psum_set. set_solver.
  - rewrite (psum_set P ((O ∪ X) ∩ F ∪ E) (O ∩ F ∪ E)) by set_solver. pp_solve.
Qed.

Lemma es_add_early F O E X :
  X ## O ∩ F → X ## E → es_add (es_of F O E) ∅ X 0 pp_zero (psum P X) = Ok (es_of F O (E ∪ X)).
Proof.
  intros HO HE. unfold es_add. cbn [on_time_sectors early_sectors on_time_pledge active_power faulty_power es_of].
  erewrite (es_of_eq F O (E ∪ X)); [by rewrite es_of_valid|apply right_id_L; apply _|done|lia|pp_solve|].
  rewrite <- psum_union by set_solver. apply psum_set. set_solver.
Qed.

Lemma es_remove_on_time F O E X :
  X ⊆ O → X ## F → es_remove (es_of F O E) X ∅ (ssum G X) (psum P X) pp_zero = Ok (es_of F (O ∖ X) E).
Proof.
  intros HO HF. unfold es_remove. cbn [on_time_sectors early_sectors on_time_pledge active_power faulty_power es_of].
  rewrite !bool_decide_true by set_solver. cbn [negb throw_if mbind result_bind].
  assert (Hp : ssum G O - ssum G X = ssum G (O ∖ X)) by (by rewrite ssum_difference).
  assert (Ha : (psum P (O ∖ F) - psum P X)%pw = psum P ((O ∖ X) ∖ F)).
  { rewrite <- psum_difference by set_solver. apply psum_set. set_solver. }
  assert (Hf : (psum P (O ∩ F ∪ E) - pp_zero)%pw = psum P ((O ∖ X) ∩ F ∪ E)).
  { rewrite (psum_set P ((O ∖ X) ∩ F ∪ E) (O ∩ F ∪ E)) by set_solver. pp_solve. }
  rewrite Hp, Ha, Hf, (es_of_eq F (O ∖ X) E); try done; [|set_solver]. rewrite es_of_valid.
  pose proof (ssum_G_nonneg (O ∖ X)). destruct (psum_P_nonneg ((O ∖ X) ∖ F)), (psum_P_nonneg ((O ∖ X) ∩ F ∪ E)).
  by rewrite !(proj2 (Z.ltb_ge _ _)) by lia.
Qed.

(** ** Keys and lookups *)

Lemma key_ok quant e : epoch_ok quant e → as_usize e = e ∧ as_i64 e = e ∧ e ≤ AMT_MAX_INDEX.
Proof.
  intros [He _]. unfold AMT_MAX_INDEX, i64_max, usize_max in *.
  split_and!; [apply as_usize_small; lia|apply as_i64_small; unfold i64_max; lia|lia].
Qed.

Lemma entry_get F O E : default es_empty (entry F O E) = es_of F O E.
Proof.
  unfold entry. case_decide as He; cbn; [|done]. rewrite <- (es_of_empty F). f_equal; set_solver.
Qed.
Lemma entry_some F O E x : x ∈ O ∪ E → entry F O E = Some (es_of F O E).
Proof. intros Hx. unfold entry. rewrite decide_False; [done|]. set_solver. Qed.
Lemma es_of_is_empty F O E : es_is_empty (es_of F O E) = bool_decide (O ∪ E = ∅).
Proof.
  unfold es_is_empty. cbn. apply eq_bool_prop_intro. rewrite andb_True, !bool_decide_spec. set_solver.
Qed.

Section queue.
Context (quant : QuantSpec).

Lemma may_get_rep q σ F e : queue_rep q σ F → epoch_ok quant e →
  may_get q e = Ok (es_of F (at_epoch σ e false) (at_epoch σ e true)).
Proof.
  intros Hq He. destruct (key_ok quant e He) as (Hu & _ & Hi). unfold may_get. rewrite Hu, amt_get_ok by done. cbn.
  by rewrite Hq, entry_get.
Qed.

(** The entries of the other epochs do not change. *)
Definition same_but (e : Z) σ σ' F F' : Prop :=
  ∀ e', e' ≠ e → (∀ b, at_epoch σ' e' b = at_epoch σ e' b) ∧ (∀ n, σ !! n = Some (e', false) → n ∈ F' ↔ n ∈ F).

Lemma es_of_faults F F' O E : (∀ n, n ∈ O → n ∈ F' ↔ n ∈ F) → es_of F' O E = es_of F O E.
Proof.
  intros HF. unfold es_of. f_equal; apply psum_set; intros n; rewrite ?elem_of_union, ?elem_of_difference, ?elem_of_intersection;
    specialize (HF n); tauto.
Qed.
Lemma entry_faults F F' O E : (∀ n, n ∈ O → n ∈ F' ↔ n ∈ F) → entry F' O E = entry F O E.
Proof. intros HF. unfold entry. by rewrite (es_of_faults F F' O E HF). Qed.

(** Writing the entry of one epoch. *)
Lemma rep_write q σ σ' F F' e :
  queue_rep q σ F → same_but e σ σ' F F' →
  queue_rep (partial_alter (λ _, entry F' (at_epoch σ' e false) (at_epoch σ' e true)) e q) σ' F'.
Proof.
  intros Hq Hother e'. destruct (decide (e' = e)) as [->|Hne]; [by rewrite lookup_partial_alter_eq|].
  rewrite lookup_partial_alter_ne by done. destruct (Hother e' Hne) as [Hat HF]. rewrite Hq, !Hat. symmetry.
  apply entry_faults. intros n Hn%elem_of_at. by apply HF.
Qed.

Lemma update_rep q σ σ' F F' e x :
  queue_rep q σ F → epoch_ok quant e → x ∈ at_epoch σ' e false ∪ at_epoch σ' e true → same_but e σ σ' F F' →
  ∃ q', must_update q e (es_of F' (at_epoch σ' e false) (at_epoch σ' e true)) = Ok q' ∧ queue_rep q' σ' F'.
Proof.
  intros Hq He Hx Ho. destruct (key_ok quant e He) as (Hu & _ & Hi). unfold must_update. rewrite Hu, amt_set_ok by done.
  eexists. split; [done|]. pose proof (rep_write q σ σ' F F' e Hq Ho) as Hr. by erewrite (entry_some F' _ _ x) in Hr.
Qed.

Lemma update_or_delete_rep q σ σ' F F' e :
  queue_rep q σ F → epoch_ok quant e → same_but e σ σ' F F' →
  ∃ q', must_update_or_delete q e (es_of F' (at_epoch σ' e false) (at_epoch σ' e true)) = Ok q' ∧ queue_rep q' σ' F'.
Proof.
  intros Hq He Ho. destruct (key_ok quant e He) as (Hu & _ & Hi). unfold must_update_or_delete. rewrite es_of_is_empty, Hu.
  pose proof (rep_write q σ σ' F F' e Hq Ho) as Hr. unfold entry in Hr. destruct (decide _) as [Hd|Hd].
  - rewrite bool_decide_true by done. rewrite amt_del_ok by done. eexists. by split.
  - rewrite bool_decide_false by done. rewrite amt_set_ok by done. eexists. by split.
Qed.

(** The sectors [X] join, or leave, the epoch [e]. *)
Lemma eq_add_on_time q σ F r X :
  0 < q_unit quant → queue_rep q σ F → epoch_ok quant (quantize_up quant r) → X ≠ ∅ → X ## dom σ → X ## F →
  ∃ q', eq_add quant q r X ∅ (psum P X) pp_zero (ssum G X) = Ok q' ∧
    queue_rep q' (upd X (quantize_up quant r, false) σ) F.
Proof.
  intros Hu Hq He Hne Hd HF. unfold eq_add. set (e := quantize_up quant r) in *.
  assert (Hnone : ∀ n, n ∈ X → σ !! n = None) by (intros n Hn; apply not_elem_of_dom; set_solver).
  rewrite (may_get_rep q σ F e) by done. cbn [mbind result_bind]. rewrite es_add_on_time; [|intros n Hn%Hnone Hn'%elem_of_at; congruence|done].
  cbn [mbind result_bind]. destruct (set_choose_L X Hne) as [x Hx].
  set (σ' := upd X (e, false) σ).
  replace (at_epoch σ e false ∪ X) with (at_epoch σ' e false) by (unfold σ'; sched_eq).
  replace (at_epoch σ e true) with (at_epoch σ' e true) by (unfold σ'; sched_eq).
  apply (update_rep q σ σ' F F e x); [done|done| |intros e' Hne'; split; [intros b; unfold σ'; sched_eq|done]].
  apply elem_of_union_l, elem_of_at. unfold σ'. by rewrite lookup_upd, decide_True.
Qed.

Lemma eq_add_early q σ F r X :
  0 < q_unit quant → queue_rep q σ F → epoch_ok quant (quantize_up quant r) → X ≠ ∅ → X ## dom σ →
  ∃ q', eq_add quant q r ∅ X pp_zero (psum P X) 0 = Ok q' ∧
    queue_rep q' (upd X (quantize_up quant r, true) σ) F.
Proof.
  intros Hu Hq He Hne Hd. unfold eq_add. set (e := quantize_up quant r) in *.
  assert (Hnone : ∀ n, n ∈ X → σ !! n = None) by (intros n Hn; apply not_elem_of_dom; set_solver).
  rewrite (may_get_rep q σ F e) by done. cbn [mbind result_bind].
  rewrite es_add_early; [|intros n Hn%Hnone [Hn'%elem_of_at _]%elem_of_intersection; congruence|intros n Hn%Hnone Hn'%elem_of_at; congruence].
  cbn [mbind result_bind]. destruct (set_choose_L X Hne) as [x Hx].
  set (σ' := upd X (e, true) σ).
  replace (at_epoch σ e true ∪ X) with (at_epoch σ' e true) by (unfold σ'; sched_eq).
  replace (at_epoch σ e false) with (at_epoch σ' e false) by (unfold σ'; sched_eq).
  apply (update_rep q σ σ' F F e x); [done|done| |intros e' Hne'; split; [intros b; unfold σ'; sched_eq|done]].
  apply elem_of_union_r, elem_of_at. unfold σ'. by rewrite lookup_upd, decide_True.
Qed.

Lemma eq_remove_on_time q σ F e X :
  queue_rep q σ F → epoch_ok quant e → X ≠ ∅ → X ⊆ at_epoch σ e false → X ## F →
  ∃ q', eq_remove quant q e X ∅ (psum P X) pp_zero (ssum G X) = Ok q' ∧ queue_rep q' (del X σ) F.
Proof.
  intros Hq He Hne HX HF. destruct (key_ok quant e He) as (Hu & _ & Hi). destruct (set_choose_L X Hne) as [x Hx].
  unfold eq_remove. rewrite (proj2 He), Hu, amt_get_ok by done. cbn [mbind result_bind].
  rewrite Hq, (entry_some F _ _ x) by set_solver. cbn [ok_or mbind result_bind].
  rewrite es_remove_on_time by done. cbn [mbind result_bind].
  assert (HX' : ∀ n, n ∈ X → σ !! n = Some (e, false)) by (intros n Hn; apply elem_of_at; set_solver).
  replace (at_epoch σ e false ∖ X) with (at_epoch (del X σ) e false) by sched_eq.
  replace (at_epoch σ e true) with (at_epoch (del X σ) e true).
  2: { apply set_eq. intros n. rewrite !elem_of_at, lookup_del. case_decide as Hn; [|done]. rewrite (HX' n Hn). naive_solver. }
  apply update_or_delete_rep with σ F; [done|done|]. intros e' Hne'. split; [intros b|done]. apply set_eq. intros n.
  rewrite !elem_of_at, lookup_del. case_decide as Hn; [|done]. rewrite (HX' n Hn). naive_solver.
Qed.

(** ** Adding sectors *)

(** The quantised expiration of a sector of the table. *)
Definition target (n : Z) : Z := quantize_up quant (default 0 (expiration <$> m !! n)).
(** The sectors [X] expire on time. *)
Definition activate X σ : Sched := set_to_map (λ n, (n, (target n, false))) X ∪ σ.

Lemma lookup_activate X σ n : activate X σ !! n = if decide (n ∈ X) then Some (target n, false) else σ !! n.
Proof.
  unfold activate. assert (Hl : ∀ p, (set_to_map (λ n, (n, (target n, false))) X : Sched) !! n = Some p ↔ n ∈ X ∧ p = (target n, false)).
  { intros p. rewrite lookup_set_to_map by (by intros ????; cbn; intros ->). naive_solver. }
  case_decide as Hn; [apply lookup_union_Some_l, Hl; done|]. apply lookup_union_r.
  apply eq_None_not_Some. intros [p [? _]%Hl]. done.
Qed.

Definition target_ok (n : Z) : Prop := epoch_ok quant (target n).

Section add.
Context (l : list SectorOnChainInfo) (Hl : infos m l).
Notation qexp s := (quantize_up quant (expiration s)).
(** The sectors that expire at one of the epochs. *)
Definition due (es : list Z) : gset Z := numbers (filter (λ s, qexp s ∈ es) l).

Lemma elem_of_due es n : n ∈ due es ↔ n ∈ numbers l ∧ target n ∈ es.
Proof.
  unfold due. rewrite elem_of_numbers. split.
  - intros (s & [He Hs]%list_elem_of_filter & <-). split; [apply elem_of_numbers; by exists s|].
    destruct Hl as [_ Hl']. rewrite Forall_forall in Hl'. unfold target. by rewrite (Hl' s Hs).
  - intros [Hn He]. destruct (infos_elem m l n Hl Hn) as (s & Hs & Hsn & Hm'). exists s. split; [|done].
    apply list_elem_of_filter. unfold target in He. by rewrite Hm' in He.
Qed.

Lemma due_cons e es : due (e :: es) = due [e] ∪ due es.
Proof.
  apply set_eq. intros n. rewrite elem_of_union, !elem_of_due, elem_of_cons, list_elem_of_singleton. tauto.
Qed.
Lemma due_disj e es : e ∉ es → due [e] ## due es.
Proof. intros He n [_ H1]%elem_of_due [_ H2]%elem_of_due. apply list_elem_of_singleton in H1. by subst. Qed.
Lemma due_nil : due [] = ∅.
Proof. apply set_eq. intros n. rewrite elem_of_due, elem_of_nil. set_solver. Qed.

Lemma add_groups_ok es q σ F tot pw pl :
  NoDup es → 0 < q_unit quant → queue_rep q σ F → numbers l ## F → due es ## dom σ →
  (∀ e, e ∈ es → epoch_ok quant e ∧ due [e] ≠ ∅) →
  ∃ q', try_fold (λ acc group,
    let '(q, (total_sectors, total_power, total_pledge)) := acc : ExpirationQueue * (gset Z * PowerPair * Z) in
    let sector_numbers := bits_of (se_sectors group) in
    q ← eq_add quant q (se_epoch group) sector_numbers ∅ (se_power group) pp_zero (se_pledge group);
    mret (q, (total_sectors ∪ sector_numbers, (total_power + se_power group)%pw, total_pledge + se_pledge group)))
      (q, (tot, pw, pl))
      ((λ e, let group := filter (λ s, qexp s = e) l in
        {| se_epoch := e; se_sectors := sector_number <$> group;
           se_power := foldr (λ s p, (power_for_sector size s + p)%pw) pp_zero group;
           se_pledge := zsum (si_initial_pledge <$> group) |}) <$> es)
    = Ok (q', (tot ∪ due es, (pw + psum P (due es))%pw, pl + ssum G (due es))) ∧
    queue_rep q' (activate (due es) σ) F.
Proof.
  intros Hnd Hu. revert q σ tot pw pl. induction Hnd as [|e es Hne Hnd IH]; intros q σ tot pw pl Hq HF Hd Hes.
  { rewrite due_nil. exists q. split.
    - cbn. rewrite psum_empty, ssum_empty, (right_id_L ∅ (∪)). repeat f_equal; [pp_solve|lia].
    - replace (activate ∅ σ) with σ; [done|]. apply map_eq. intros n. rewrite lookup_activate, decide_False by set_solver. done. }
  cbn [fmap list_fmap try_fold]. destruct (Hes e) as [He Hnonempty]; [by left|].
  assert (Hgroup : infos m (filter (λ s, qexp s = e) l)) by by apply infos_filter.
  assert (Hset : numbers (filter (λ s, qexp s = e) l) = due [e]).
  { unfold due. f_equal. apply list_filter_iff. intros s. set_solver. }
  cbn [se_epoch se_sectors se_power se_pledge]. rewrite foldr_power, (infos_power size m), (infos_pledge m) by done.
  change (bits_of (sector_number <$> ?g)) with (numbers g). rewrite Hset.
  assert (Hee : quantize_up quant e = e) by apply He.
  destruct (eq_add_on_time q σ F e (due [e])) as (q1 & Hq1 & Hr1); try done; [by rewrite Hee| | |].
  { intros n Hn. apply Hd. rewrite due_cons. by apply elem_of_union_l. }
  { intros n [Hn _]%elem_of_due. by apply HF. }
  rewrite Hq1. cbn [mbind result_bind]. rewrite Hee in Hr1.
  destruct (IH q1 (upd (due [e]) (e, false) σ) (tot ∪ due [e]) (pw + psum P (due [e]))%pw (pl + ssum G (due [e]))) as (q2 & Hq2 & Hr2); try done.
  { intros n Hn. rewrite upd_dom. intros [He2|Hdom]%elem_of_union; [by apply (due_disj e es Hne n)|].
    apply (Hd n); [|done]. rewrite due_cons. by apply elem_of_union_r. }
  { intros e' He'. apply Hes. by right. }
  pose proof (due_cons e es) as Hsplit. pose proof (due_disj e es Hne) as Hdisj.
  exists q2. split.
  - etransitivity; [exact Hq2|]. rewrite Hsplit, psum_union, ssum_union, (assoc_L (∪)) by done. f_equal. f_equal. f_equal; [f_equal; pp_solve|lia].
  - replace (activate (due (e :: es)) σ) with (activate (due es) (upd (due [e]) (e, false) σ)); [done|].
    apply map_eq. intros n. rewrite !lookup_activate, lookup_upd, Hsplit.
    destruct (decide (n ∈ due es)) as [H1|H1]; [by rewrite decide_True by by apply elem_of_union_r|].
    destruct (decide (n ∈ due [e])) as [H2|H2]; [rewrite decide_True by by apply elem_of_union_l|by rewrite decide_False by by intros [|]%elem_of_union].
    apply elem_of_due in H2 as [_ ->%list_elem_of_singleton]. done.
Qed.

Lemma elem_of_declared e : e ∈ declared quant l ↔ ∃ n, n ∈ numbers l ∧ target n = e.
Proof.
  unfold declared. rewrite elem_of_list_to_set, list_elem_of_fmap. pose proof Hl as [_ Hl']. rewrite Forall_forall in Hl'. split.
  - intros (s & -> & Hs). exists (sector_number s). split; [apply elem_of_numbers; by exists s|]. unfold target. by rewrite (Hl' s Hs).
  - intros (n & Hn & <-). destruct (infos_elem m l n Hl Hn) as (s & Hs & Hsn & Hms). exists s. split; [|done].
    unfold target. by rewrite Hms.
Qed.

Lemma add_active_ok q σ F :
  0 < q_unit quant → queue_rep q σ F → numbers l ## F → numbers l ## dom σ → (∀ n, n ∈ numbers l → target_ok n) →
  ∃ q', add_active_sectors quant size q l = Ok (q', (numbers l, psum P (numbers l), ssum G (numbers l))) ∧
    queue_rep q' (activate (numbers l) σ) F.
Proof.
  intros Hu Hq HF Hd Ht. assert (Hdue : due (bits (declared quant l)) = numbers l).
  { apply set_eq. intros n. rewrite elem_of_due, elem_of_bits, elem_of_declared. split; [by intros [? _]|]. intros Hn. split; [done|by exists n]. }
  destruct (add_groups_ok (bits (declared quant l)) q σ F ∅ pp_zero 0) as (q' & Hq' & Hr); try done; rewrite ?Hdue in *; try done.
  - apply NoDup_bits.
  - intros e (n & Hn & <-)%elem_of_bits%elem_of_declared. split; [by apply Ht|]. intros He.
    assert (Hin : n ∈ due [target n]) by (apply elem_of_due; split; [done|by left]). rewrite He in Hin. set_solver.
  - exists q'. split; [|done]. etransitivity; [exact Hq'|]. rewrite (left_id_L ∅ (∪)).
    by do 3 f_equal.
Qed.
End add.

(** ** Finding sectors *)

Section find.
Context (hash_order : gset Z → list Z) (Horder : ∀ X, hash_order X ≡ₚ elements X).
Context (q : ExpirationQueue) (σ : Sched) (F : gset Z) (Hq : queue_rep q σ F) (Hσ : sched_ok quant σ F).
Context (l : list SectorOnChainInfo) (Hl : infos m l).
(** All sectors that are looked for expire on time. *)
Context (Hon : ∀ n, n ∈ numbers l → ∃ e, σ !! n = Some (e, false)) (Htarget : ∀ n, n ∈ numbers l → target_ok n).
Notation N := (numbers l).

(** The sectors that are found at an epoch, and their group. *)
Definition found (e : Z) : gset Z := N ∩ at_epoch σ e false.
Definition group_ok (g : SectorExpirationSet) : Prop :=
  let e := se_epoch (sector_epoch_set g) in
  bits_of (se_sectors (sector_epoch_set g)) = found e ∧ se_power (sector_epoch_set g) = psum P (found e) ∧
  se_pledge (sector_epoch_set g) = ssum G (found e) ∧ expiration_set g = es_of F (at_epoch σ e false) (at_epoch σ e true) ∧
  found e ≠ ∅ ∧ epoch_ok quant e ∧ NoDup (se_sectors (sector_epoch_set g)).

Notation gepochs gs := ((λ g, se_epoch (sector_epoch_set g)) <$> gs).
(** After the epochs [V]: what is left, and the groups. *)
Definition finding (V : gset Z) (acc : gset Z * list SectorExpirationSet) : Prop :=
  let '(rest, gs) := acc in
  (∀ n, n ∈ rest ↔ n ∈ N ∧ ∀ e, σ !! n = Some (e, false) → e ∉ V) ∧
  Forall group_ok gs ∧ NoDup (gepochs gs) ∧ (∀ e, e ∈ gepochs gs ↔ e ∈ V ∧ found e ≠ ∅).

Lemma by_number_lookup n s : s ∈ l → sector_number s = n → by_number l !! n = Some s.
Proof.
  intros Hs Hn. unfold by_number. apply elem_of_list_to_map_1.
  - rewrite fmap_reverse, reverse_Permutation, <- list_fmap_compose. apply Hl.
  - apply elem_of_reverse, list_elem_of_fmap. exists s. by rewrite Hn.
Qed.

(** The infos of a list of numbers. *)
Lemma omap_by_number ns :
  NoDup ns → (∀ n, n ∈ ns → n ∈ N) → infos m (omap (λ u, by_number l !! u) ns) ∧ sector_number <$> omap (λ u, by_number l !! u) ns = ns.
Proof.
  induction 1 as [|n ns Hn Hd IH]; intros Hin; [split; [split; constructor|done]|].
  destruct (IH ltac:(set_solver)) as [Hi Hf]. destruct (infos_elem m l n Hl) as (s & Hs & Hsn & Hms); [set_solver|].
  cbn. rewrite (by_number_lookup n s Hs Hsn). cbn. rewrite Hsn, Hf. split; [|done]. apply infos_cons. rewrite Hsn.
  split_and!; try done. unfold numbers. by rewrite Hf, elem_of_list_to_set.
Qed.

Lemma group_step V rest gs e :
  finding V (rest, gs) → e ∉ V → epoch_ok quant e →
  let '(g, rest') := group_expiration_set size (by_number l) rest (es_of F (at_epoch σ e false) (at_epoch σ e true)) e in
  finding (V ∪ {[e]}) (rest', push_group gs g).
Proof.
  intros (Hrest & Hgs & Hnd & Hep) HeV He. unfold group_expiration_set. cbn [on_time_sectors es_of].
  set (fs := filter (λ u, u ∈ rest) (bits (at_epoch σ e false))).
  assert (Hfs : ∀ n, n ∈ fs ↔ n ∈ found e).
  { intros n. unfold fs, found. rewrite list_elem_of_filter, elem_of_bits, elem_of_intersection, Hrest, elem_of_at.
    split; [tauto|]. intros [Hn Hat]. split_and!; try done. intros e' He'. rewrite Hat in He'. by injection He' as <-. }
  assert (Hset : bits_of fs = found e) by (apply set_eq; intros n; unfold bits_of; by rewrite elem_of_list_to_set).
  assert (Hdup : NoDup fs) by apply NoDup_filter, NoDup_bits.
  destruct (omap_by_number fs Hdup) as [Hi Hnum]; [intros n Hn%Hfs; set_solver|].
  set (g := Build_SectorExpirationSet _ _). assert (Hg : found e ≠ ∅ → group_ok g).
  { intros Hne. unfold group_ok. cbn. rewrite foldr_power, (infos_power size m), (infos_pledge m) by done. unfold numbers. rewrite Hnum.
    change (list_to_set fs) with (bits_of fs). by rewrite Hset. }
  split_and!.
  - intros n. rewrite elem_of_difference, Hrest, Hset. unfold found. rewrite elem_of_intersection, elem_of_at. split.
    + intros [[Hn HV] Hnf]. split; [done|]. intros e' He'. rewrite elem_of_union, elem_of_singleton. intros [Hv| ->]; [by eapply HV|tauto].
    + intros [Hn HV]. split_and!; [done| |].
      * intros e' He' Hv. apply (HV e' He'). by apply elem_of_union_l.
      * intros [_ Hat]. apply (HV e Hat). by apply elem_of_union_r, elem_of_singleton.
  - unfold push_group. destruct (se_sectors (sector_epoch_set g)) eqn:Efs; [done|]. apply Forall_app. split; [done|].
    constructor; [|done]. apply Hg. rewrite <- Hset. cbn in Efs. rewrite Efs. cbn. set_solver.
  - unfold push_group. destruct (se_sectors (sector_epoch_set g)) eqn:Efs; [done|]. rewrite fmap_app. apply NoDup_app.
    split_and!; [done| |apply NoDup_singleton]. intros e' [Hv _]%Hep ->%list_elem_of_singleton. done.
  - intros e'. unfold push_group. assert (Hempty : fs = [] ↔ found e = ∅).
    { rewrite <- Hset. unfold bits_of. destruct fs; cbn; [done|]. split; [done|]. set_solver. }
    destruct (se_sectors (sector_epoch_set g)) eqn:Efs; cbn in Efs.
    + rewrite Hep, elem_of_union, elem_of_singleton. split; [tauto|]. intros [[Hv| ->] Hf]; [done|]. by apply Hempty in Efs.
    + rewrite fmap_app, elem_of_app, Hep, elem_of_union, elem_of_singleton. cbn. rewrite list_elem_of_singleton.
      split; [intros [[? ?]| ->]; [tauto|]|tauto]. split; [by right|]. intros H0%Hempty. congruence.
Qed.

Lemma declared_loop es V acc :
  NoDup es → (∀ e, e ∈ es → e ∉ V ∧ epoch_ok quant e) → finding V acc →
  ∃ acc', try_fold (λ acc e,
      let '(rest, groups) := acc : gset Z * list SectorExpirationSet in
      es ← may_get q e;
      let '(g, rest) := group_expiration_set size (by_number l) rest es e in
      mret (rest, push_group groups g)) acc es = Ok acc' ∧ finding (V ∪ list_to_set es) acc'.
Proof.
  intros Hd. revert V acc. induction Hd as [|e es He Hd IH]; intros V acc Hes Hf.
  { exists acc. split; [done|]. cbn. by rewrite (right_id_L ∅ (∪)). }
  destruct acc as [rest gs]. destruct (Hes e) as [HeV Hok]; [by left|]. cbn [try_fold].
  rewrite (may_get_rep q σ F e) by done. cbn [mbind result_bind]. pose proof (group_step V rest gs e Hf HeV Hok) as Hstep.
  destruct (group_expiration_set _ _ _ _ _) as [g rest']. cbn [mbind result_bind mret result_ret].
  destruct (IH (V ∪ {[e]}) (rest', push_group gs g)) as (acc' & Hacc & Hf'); [|done|].
  - intros e' He'. destruct (Hes e') as [? ?]; [by right|]. split; [|done]. intros [?| ->%elem_of_singleton]%elem_of_union; done.
  - exists acc'. split; [exact Hacc|]. cbn [list_to_set]. by rewrite (assoc_L (∪)).
Qed.

Lemma rep_entry k es : q !! k = Some es →
  es = es_of F (at_epoch σ k false) (at_epoch σ k true) ∧ epoch_ok quant k.
Proof.
  rewrite Hq. unfold entry. case_decide as Hne; [done|]. intros [= <-]. split; [done|].
  apply set_choose_L in Hne as [n [Hn|Hn]%elem_of_union]; apply elem_of_at in Hn; by apply Hσ in Hn as (_ & ? & _).
Qed.

Lemma traverse_loop (D : gset Z) L (V : gset Z) acc :
  NoDup L.*1 → (∀ k es, (k, es) ∈ L → q !! k = Some es) → (∀ k, k ∈ L.*1 → k ∈ V → k ∈ D) → finding V acc →
  ∃ acc' V', for_each_while (λ acc k es,
        let '(rest, groups) := acc : gset Z * list SectorExpirationSet in
        let epoch := as_i64 k in
        if bool_decide (epoch ∈ D) then mret (acc, true)
        else
          _ ← check_no_early_sectors rest es;
          let '(g, rest) := group_expiration_set size (by_number l) rest es epoch in
          mret ((rest, push_group groups g), negb (bool_decide (rest = ∅)))) acc L = Ok acc' ∧
    finding V' acc' ∧ V ⊆ V' ∧ (acc'.1 = ∅ ∨ ∀ k, k ∈ L.*1 → k ∈ V' ∨ k ∈ D).
Proof.
  intros Hd. revert V acc. induction L as [|[k es] L IH]; intros V acc Hin HV Hf.
  { exists acc, V. split_and!; try done. right. set_solver. }
  cbn in Hd. apply NoDup_cons in Hd as [Hk Hd]. specialize (IH Hd). destruct (rep_entry k es) as [-> Hok]; [apply Hin; by left|].
  destruct acc as [rest gs]. cbn [for_each_while]. destruct (key_ok quant k Hok) as (_ & Hi & _). rewrite Hi.
  assert (Hin' : ∀ k es, (k, es) ∈ L → q !! k = Some es) by (intros; apply Hin; by right).
  case_bool_decide as HD; cbn [mbind result_bind mret result_ret].
  { destruct (IH V (rest, gs)) as (acc' & V' & ? & ? & ? & Hend); [done|intros k' Hk' Hv; apply HV; [by right|done]|done|].
    exists acc', V'. split_and!; try done. destruct Hend as [?|Hend]; [by left|right].
    intros k' [->|Hk']%elem_of_cons; [by right|by apply Hend]. }
  assert (HkV : k ∉ V) by (intros Hv; apply HD, HV; [by left|done]).
  assert (Hearly : check_no_early_sectors rest (es_of F (at_epoch σ k false) (at_epoch σ k true)) = Ok tt).
  { unfold check_no_early_sectors. cbn [early_sectors es_of]. replace (existsb _ _) with false; [done|]. symmetry.
    apply not_true_iff_false. intros (u & Hu & Hr)%existsb_exists. apply list_elem_of_In, elem_of_bits, elem_of_at in Hu.
    apply bool_decide_eq_true in Hr. apply Hf in Hr as [Hr _]. destruct (Hon u Hr) as [e' He']. congruence. }
  rewrite Hearly. cbn [mbind result_bind]. pose proof (group_step V rest gs k Hf HkV Hok) as Hstep.
  destruct (group_expiration_set _ _ _ _ _) as [g rest']. cbn [mbind result_bind mret result_ret].
  case_bool_decide as Hr; cbn [negb].
  { exists (rest', push_group gs g), (V ∪ {[k]}). split_and!; try done; [apply union_subseteq_l|by left]. }
  destruct (IH (V ∪ {[k]}) (rest', push_group gs g)) as (acc' & V' & ? & ? & HVV & Hend); try done.
  { intros k' Hk' [Hv| ->%elem_of_singleton]%elem_of_union; [apply HV; [by right|done]|done]. }
  exists acc', V'. split_and!; try done; [intros x Hx; apply HVV; by apply elem_of_union_l|].
  destruct Hend as [?|Hend]; [by left|right]. intros k' [->|Hk']%elem_of_cons; [|by apply Hend].
  left. apply HVV, elem_of_union_r, elem_of_singleton. done.
Qed.

Lemma find_ok :
  ∃ gs, find_sectors_by_expiration quant size hash_order q l = Ok gs ∧ Forall group_ok gs ∧ NoDup (gepochs gs) ∧
    (∀ e, e ∈ gepochs gs ↔ found e ≠ ∅).
Proof.
  unfold find_sectors_by_expiration. set (D := declared quant l).
  assert (HD : list_to_set (hash_order D) = D).
  { apply set_eq. intros e. by rewrite elem_of_list_to_set, Horder, elem_of_elements. }
  destruct (declared_loop (hash_order D) ∅ (N, [])) as ([rest gs] & -> & Hf).
  { rewrite Horder. apply NoDup_elements. }
  { intros e He. rewrite Horder, elem_of_elements in He. apply elem_of_declared in He as (n & Hn & <-); [|done].
    split; [set_solver|by apply Htarget]. }
  { split_and!; [|done|constructor|]; [intros n; set_solver|]. intros e. cbn. split; [by intros ?%elem_of_nil|set_solver]. }
  rewrite HD, (left_id_L ∅ (∪)) in Hf. cbn [mbind result_bind].
  assert (Hphase : ∃ gs' V, (if bool_decide (rest = ∅) then mret (rest, gs)
     else for_each_while (λ acc k es,
        let '(rest, groups) := acc : gset Z * list SectorExpirationSet in
        let epoch := as_i64 k in
        if bool_decide (epoch ∈ D) then mret (acc, true)
        else
          _ ← check_no_early_sectors rest es;
          let '(g, rest) := group_expiration_set size (by_number l) rest es epoch in
          mret ((rest, push_group groups g), negb (bool_decide (rest = ∅))))
      (rest, gs) (amt_entries q)) = Ok (∅, gs') ∧ finding V (∅, gs')).
  { case_bool_decide as Hr; [subst; by exists gs, D|].
    destruct (traverse_loop D (amt_entries q) D (rest, gs)) as ([rest' gs'] & V' & Hloop & Hf' & HV & Hend);
      [apply entries_nodup|by intros k es Hk%elem_of_entries|done|done|].
    assert (rest' = ∅) as ->.
    { destruct Hend as [Hend|Hend]; [done|]. apply set_eq. intros n. split; [|set_solver]. intros Hn.
      destruct Hf' as [Hrest _]. apply Hrest in Hn as [Hn Hne]. destruct (Hon n Hn) as [e He]. exfalso. apply (Hne e He).
      destruct (Hend e) as [?|HeD]; [|done|by apply HV]. apply list_elem_of_fmap.
      exists (e, es_of F (at_epoch σ e false) (at_epoch σ e true)). split; [done|]. apply elem_of_entries.
      rewrite Hq. apply (entry_some _ _ _ n). by apply elem_of_union_l, elem_of_at. }
    exists gs', V'. split; [exact Hloop|done]. }
  destruct Hphase as (gs' & V & Hp & Hrest & Hgs & Hnd & Hep). cbn zeta in Hp. rewrite Hp. cbn [mbind result_bind].
  rewrite bool_decide_true by done. cbn. eexists. split; [done|]. rewrite !sort_by_perm. split_and!; try done.
  intros e. rewrite sort_by_perm, Hep. split; [tauto|]. intros Hne. split; [|done]. apply set_choose_L in Hne as [n Hn].
  apply elem_of_intersection in Hn as [Hn Hat%elem_of_at]. destruct (decide (e ∈ V)) as [|HV]; [done|].
  exfalso. apply (not_elem_of_empty (C := gset Z) n). apply Hrest. split; [done|]. intros e' He'. congruence.
Qed.

(** *** Removing what is found *)

Definition all_found (es : list Z) : gset Z := ⋃ (found <$> es).

Lemma elem_of_all_found es n : n ∈ all_found es ↔ n ∈ N ∧ ∃ e, σ !! n = Some (e, false) ∧ e ∈ es.
Proof.
  unfold all_found. rewrite elem_of_union_list. split.
  - intros (X & (e & -> & He)%list_elem_of_fmap & [Hn Hat%elem_of_at]%elem_of_intersection). split; [done|by exists e].
  - intros (Hn & e & Hat & He). exists (found e). split; [by apply list_elem_of_fmap_2|]. by apply elem_of_intersection; rewrite elem_of_at.
Qed.
Lemma all_found_disj e es : e ∉ es → found e ## all_found es.
Proof.
  intros He n [_ Hat%elem_of_at]%elem_of_intersection (_ & e' & Hat' & He')%elem_of_all_found. congruence.
Qed.
Lemma all_found_N es : (∀ e, e ∈ es ↔ found e ≠ ∅) → all_found es = N.
Proof.
  intros Hes. apply set_eq. intros n. rewrite elem_of_all_found. split; [by intros [? _]|]. intros Hn. split; [done|].
  destruct (Hon n Hn) as [e He]. exists e. split; [done|]. apply Hes. intros Hemp.
  apply (not_elem_of_empty (C := gset Z) n). rewrite <- Hemp. by apply elem_of_intersection; rewrite elem_of_at.
Qed.

Lemma remove_groups gs q0 Y ns pw pl :
  Forall group_ok gs → NoDup (gepochs gs) → queue_rep q0 (del Y σ) F → all_found (gepochs gs) ## Y → N ## F →
  ∃ q', try_fold (λ acc group,
    let '(q, (ns, power, pledge)) := acc : ExpirationQueue * (gset Z * PowerPair * Z) in
    let g := sector_epoch_set group in
    let bf := bits_of (se_sectors g) in
    q ← eq_remove quant q (se_epoch g) bf ∅ (se_power g) pp_zero (se_pledge g);
    mret (q, (ns ∪ bf, (power + se_power g)%pw, pledge + se_pledge g))) (q0, (ns, pw, pl)) gs =
    Ok (q', (ns ∪ all_found (gepochs gs), (pw + psum P (all_found (gepochs gs)))%pw, pl + ssum G (all_found (gepochs gs)))) ∧
    queue_rep q' (del (Y ∪ all_found (gepochs gs)) σ) F.
Proof.
  intros Hgs. revert q0 Y ns pw pl. induction Hgs as [|g gs Hg Hgs IH]; intros q0 Y ns pw pl Hnd Hr HY HF.
  { exists q0. cbn. unfold all_found. cbn. rewrite psum_empty, ssum_empty, !(right_id_L ∅ (∪)). split; [|done].
    f_equal. f_equal. f_equal; [f_equal; pp_solve|lia]. }
  cbn [fmap list_fmap] in Hnd, HY |- *. apply NoDup_cons in Hnd as [Hne Hnd].
  destruct Hg as (Hbits & Hpw & Hpl & _ & Hnonempty & Hok & _). set (e := se_epoch (sector_epoch_set g)) in *.
  assert (Hsplit : all_found (e :: gepochs gs) = found e ∪ all_found (gepochs gs)) by done.
  pose proof (all_found_disj e _ Hne) as Hdisj.
  cbn [try_fold]. rewrite Hbits, Hpw, Hpl. fold e.
  assert (HfY : ∀ n, n ∈ found e → n ∉ Y) by (intros n Hn Hy; apply (HY n); [rewrite Hsplit; by apply elem_of_union_l|done]).
  destruct (eq_remove_on_time q0 (del Y σ) F e (found e)) as (q1 & -> & Hr1); try done.
  { intros n Hn. rewrite elem_of_at, lookup_del, decide_False by by apply HfY. by apply elem_of_at, (elem_of_intersection N _ n). }
  { intros n [Hn _]%elem_of_intersection. by apply HF. }
  cbn [mbind result_bind]. rewrite del_del in Hr1.
  destruct (IH q1 (Y ∪ found e) (ns ∪ found e) (pw + psum P (found e))%pw (pl + ssum G (found e))) as (q2 & Hq2 & Hr2); try done.
  { intros n Hn [Hy|Hf]%elem_of_union; [|by apply (Hdisj n)]. apply (HY n); [rewrite Hsplit; by apply elem_of_union_r|done]. }
  exists q2. split.
  - etransitivity; [exact Hq2|]. rewrite Hsplit, psum_union, ssum_union, (assoc_L (∪)) by done.
    f_equal. f_equal. f_equal; [f_equal; pp_solve|lia].
  - by rewrite Hsplit, (assoc_L (∪)).
Qed.

Lemma remove_active_ok : N ## F →
  ∃ q', remove_active_sectors quant size hash_order q l = Ok (q', (N, psum P N, ssum G N)) ∧ queue_rep q' (del N σ) F.
Proof.
  intros HF. destruct find_ok as (gs & Hfind & Hgs & Hnd & Hep). unfold remove_active_sectors. rewrite Hfind. cbn [mbind result_bind].
  destruct (remove_groups gs q ∅ ∅ pp_zero 0) as (q' & Hq' & Hr');
    [done|done|by rewrite del_empty|by intros n _ ?%not_elem_of_empty|done|].
  rewrite (all_found_N _ Hep), !(left_id_L ∅ (∪)) in Hq'. rewrite (all_found_N _ Hep), (left_id_L ∅ (∪)) in Hr'.
  exists q'. split; [|done]. etransitivity; [exact Hq'|]. by do 3 f_equal.
Qed.

Lemma reschedule_expirations_ok r :
  0 < q_unit quant → N ## F → N ≠ ∅ → epoch_ok quant (quantize_up quant r) →
  ∃ q', reschedule_expirations quant size hash_order q r l = Ok q' ∧
    queue_rep q' (upd N (quantize_up quant r, false) σ) F.
Proof.
  intros Hu HF Hne Hr. destruct (remove_active_ok HF) as (q1 & Hq1 & Hr1).
  destruct (eq_add_on_time q1 (del N σ) F r N) as (q2 & Hq2 & Hr2); try done.
  { intros n Hn [p Hp]%elem_of_dom. rewrite lookup_del, decide_True in Hp by done. done. }
  exists q2. split.
  - unfold reschedule_expirations. destruct l as [|s l']; [done|]. rewrite Hq1. exact Hq2.
  - replace (upd N _ σ) with (upd N (quantize_up quant r, false) (del N σ)); [done|].
    apply map_eq. intros n. rewrite !lookup_upd, lookup_del. by case_decide.
Qed.

(** *** Faults *)

Section faults.
Context (HF : N ## F) (r : Z) (Hu : 0 < q_unit quant) (Hr : epoch_ok quant (quantize_up quant r)).
Notation c := (quantize_up quant r).

(** The found sectors that expire after [c]. *)
Definition late_epochs (es : list Z) : list Z := filter (λ e, c < e) es.

Lemma fault_entry X O E : X ⊆ O → X ## F →
  {| on_time_sectors := O; early_sectors := E; on_time_pledge := ssum G O;
     active_power := psum P (O ∖ F) - psum P X; faulty_power := psum P (O ∩ F ∪ E) + psum P X |} = es_of (F ∪ X) O E ∨ ¬ (X ## E).
Proof.
  intros HO HX. destruct (decide (X ## E)) as [HE|]; [left|by right]. apply es_of_eq; try done.
  - rewrite <- psum_difference by set_solver. apply psum_set. set_solver.
  - rewrite <- psum_union by set_solver. apply psum_set. set_solver.
Qed.

Lemma moved_entry X O E : X ⊆ O → X ## F →
  {| on_time_sectors := O ∖ X; early_sectors := E; on_time_pledge := ssum G O - ssum G X;
     active_power := psum P (O ∖ F) - psum P X; faulty_power := psum P (O ∩ F ∪ E) |} = es_of (F ∪ X) (O ∖ X) E.
Proof.
  intros HO HX. apply es_of_eq; try done.
  - by rewrite ssum_difference.
  - rewrite <- psum_difference by set_solver. apply psum_set. set_solver.
  - apply psum_set. set_solver.
Qed.

Lemma all_found_app es es' : all_found (es ++ es') = all_found es ∪ all_found es'.
Proof. unfold all_found. by rewrite fmap_app, union_list_app_L. Qed.
Lemma all_found_one e : all_found [e] = found e.
Proof. unfold all_found. cbn. apply (right_id_L ∅ (∪)). Qed.

(** Before the group of the epoch [e], the epochs [V] being done. *)
Lemma before_group V e :
  e ∉ V → (∀ b, at_epoch (del (all_found (late_epochs V)) σ) e b = at_epoch σ e b) ∧
  (∀ n, n ∈ at_epoch σ e false → n ∈ F ∪ all_found V ↔ n ∈ F).
Proof.
  intros He. split.
  - intros b. apply set_eq. intros n. rewrite !elem_of_at, lookup_del. case_decide as Hn; [|done]. split; [done|]. intros Hat.
    apply elem_of_all_found in Hn as (_ & e' & Hat' & [_ He']%list_elem_of_filter). congruence.
  - intros n Hn%elem_of_at. rewrite elem_of_union. split; [|by left]. intros [?|(_ & e' & Hat' & He')%elem_of_all_found]; [done|congruence].
Qed.

Lemma found_sub e : found e ⊆ at_epoch σ e false.
Proof. intros n [_ ?]%elem_of_intersection. done. Qed.
Lemma found_healthy e : found e ## F.
Proof. intros n [Hn _]%elem_of_intersection. by apply HF. Qed.

Lemma fault_group_ok g V q0 tot ex rs :
  group_ok g → let e := se_epoch (sector_epoch_set g) in e ∉ V →
  queue_rep q0 (del (all_found (late_epochs V)) σ) (F ∪ all_found V) →
  ∃ q' tot' ex' rs', fault_group quant r (q0, (tot, ex, rs)) g = Ok (q', (tot', ex', rs')) ∧
    queue_rep q' (del (all_found (late_epochs (V ++ [e]))) σ) (F ∪ all_found (V ++ [e])) ∧
    bits_of tot' = bits_of tot ∪ all_found (late_epochs [e]) ∧ rs' = (rs + psum P (all_found (late_epochs [e])))%pw ∧
    (ex' + rs' = ex + rs + psum P (found e))%pw.
Proof.
  intros (Hbits & Hpw & Hpl & Hes & Hne & Hok & _) e He Hrep. destruct (before_group V e He) as [Hat HFe].
  set (σ0 := del (all_found (late_epochs V)) σ) in *. set (F0 := F ∪ all_found V) in *.
  pose proof (found_sub e) as Hsub. pose proof (found_healthy e) as Hh. unfold fault_group. fold e. rewrite Hes, Hbits, Hpw, Hpl.
  fold e. cbn [on_time_sectors early_sectors on_time_pledge active_power faulty_power es_of].
  assert (HX : found e ## at_epoch σ e true) by (intros n Hn Hn'%elem_of_at; apply Hsub, elem_of_at in Hn; congruence).
  unfold late_epochs. rewrite !all_found_app, all_found_one, filter_app, all_found_app. fold (late_epochs V).
  cbn [filter list_filter]. destruct (Z.leb_spec e c) as [Hle|Hlt].
  - rewrite decide_False by lia. destruct (fault_entry (found e) (at_epoch σ e false) (at_epoch σ e true)) as [Heq|]; [done|done| |done].
    rewrite Heq. rewrite <- (es_of_faults (F ∪ found e) (F0 ∪ found e)).
    2: { intros n Hn. rewrite !elem_of_union. specialize (HFe n Hn). unfold F0 in *. tauto. }
    rewrite <- (Hat false), <- (Hat true).
    destruct (update_or_delete_rep q0 σ0 σ0 F0 (F0 ∪ found e) e) as (q1 & -> & Hr1); [done|done| |].
    { intros e' Hne'. split; [done|]. intros n Hn. rewrite elem_of_union. split; [|by left]. intros [?|Hn'%Hsub%elem_of_at]; [done|].
      unfold σ0 in Hn. rewrite lookup_del in Hn. case_decide; [done|congruence]. }
    cbn [mbind result_bind]. rewrite es_of_valid. cbn [mbind result_bind]. unfold all_found. cbn. rewrite !(right_id_L ∅ (∪)).
    do 4 eexists. split; [done|]. unfold F0 in Hr1. rewrite (assoc_L (∪)). split_and!; try done; [rewrite psum_empty|]; pp_solve.
  - rewrite decide_True by lia. rewrite (moved_entry (found e)) by done.
    rewrite <- (es_of_faults (F ∪ found e) (F0 ∪ found e)).
    2: { intros n [Hn _]%elem_of_difference. rewrite !elem_of_union. specialize (HFe n Hn). unfold F0 in *. tauto. }
    set (σ1 := del (found e) σ0).
    replace (at_epoch σ e false ∖ found e) with (at_epoch σ1 e false) by (rewrite <- (Hat false); unfold σ1; sched_eq).
    replace (at_epoch σ e true) with (at_epoch σ1 e true).
    2: { rewrite <- (Hat true). apply set_eq. intros n. unfold σ1. rewrite !elem_of_at, lookup_del. case_decide as Hn; [|done].
         split; [done|]. intros Hn'. exfalso. apply (HX n Hn). rewrite <- (Hat true). by apply elem_of_at. }
    destruct (update_or_delete_rep q0 σ0 σ1 F0 (F0 ∪ found e) e) as (q1 & -> & Hr1); [done|done| |].
    { assert (Hother : ∀ n e', e' ≠ e → ∀ b, σ0 !! n = Some (e', b) → n ∉ found e).
      { intros n e' Hne' b Hn Hn'%Hsub%elem_of_at. unfold σ0 in Hn. rewrite lookup_del in Hn. case_decide; [done|congruence]. }
      intros e' Hne'. split.
      - intros b. apply set_eq. intros n. unfold σ1. rewrite !elem_of_at, lookup_del. case_decide as Hn; [|done]. split; [done|].
        intros Hn'. by apply (Hother n e' Hne' b) in Hn'.
      - intros n Hn. rewrite elem_of_union. split; [|by left]. intros [?|Hn']; [done|]. by apply (Hother n e' Hne' false) in Hn'. }
    cbn [mbind result_bind]. rewrite es_of_valid. cbn [mbind result_bind]. rewrite all_found_one. unfold σ1, σ0 in Hr1. rewrite del_del in Hr1.
    do 4 eexists. split; [done|]. unfold F0 in Hr1. rewrite <- (assoc_L (∪)) in Hr1. split_and!; try done; [|pp_solve].
    unfold bits_of in *. rewrite list_to_set_app_L. by rewrite Hbits.
Qed.

Lemma fault_groups gs V q0 tot ex rs :
  Forall group_ok gs → NoDup (V ++ gepochs gs) →
  queue_rep q0 (del (all_found (late_epochs V)) σ) (F ∪ all_found V) →
  ∃ q' tot' ex' rs', try_fold (fault_group quant r) (q0, (tot, ex, rs)) gs = Ok (q', (tot', ex', rs')) ∧
    queue_rep q' (del (all_found (late_epochs (V ++ gepochs gs))) σ) (F ∪ all_found (V ++ gepochs gs)) ∧
    bits_of tot' = bits_of tot ∪ all_found (late_epochs (gepochs gs)) ∧
    rs' = (rs + psum P (all_found (late_epochs (gepochs gs))))%pw ∧
    (ex' + rs' = ex + rs + psum P (all_found (gepochs gs)))%pw.
Proof.
  intros Hgs. revert V q0 tot ex rs. induction Hgs as [|g gs Hg Hgs IH]; intros V q0 tot ex rs Hnd Hrep.
  { exists q0, tot, ex, rs. cbn [fmap list_fmap] in *. unfold late_epochs. cbn [filter list_filter].
    rewrite app_nil_r. unfold all_found at 3 4 5. cbn. rewrite psum_empty, (right_id_L ∅ (∪)). split_and!; try done; pp_solve. }
  cbn [fmap list_fmap] in *. set (e := se_epoch (sector_epoch_set g)) in *.
  assert (He : e ∉ V ∧ e ∉ gepochs gs).
  { apply NoDup_app in Hnd as (_ & Hd & Hnd). apply NoDup_cons in Hnd as [? _]. split; [|done]. intros Hv. apply (Hd e Hv). by left. }
  destruct (fault_group_ok g V q0 tot ex rs Hg (proj1 He) Hrep) as (q1 & tot1 & ex1 & rs1 & Hstep & Hr1 & Ht1 & Hrs1 & Hex1).
  fold e in Hr1, Ht1, Hrs1, Hex1. cbn [try_fold]. rewrite Hstep. cbn [mbind result_bind].
  destruct (IH (V ++ [e]) q1 tot1 ex1 rs1) as (q2 & tot2 & ex2 & rs2 & Hf & Hr2 & Ht2 & Hrs2 & Hex2); [by rewrite <- app_assoc|done|].
  rewrite <- app_assoc in Hr2. exists q2, tot2, ex2, rs2.
  assert (Hlate : all_found (late_epochs (e :: gepochs gs)) = all_found (late_epochs [e]) ∪ all_found (late_epochs (gepochs gs))).
  { unfold late_epochs. change (e :: gepochs gs) with ([e] ++ gepochs gs). by rewrite filter_app, all_found_app. }
  assert (Hd1 : all_found (late_epochs [e]) ## all_found (late_epochs (gepochs gs))).
  { intros n (_ & e1 & Ha1 & [_ H1]%list_elem_of_filter)%elem_of_all_found (_ & e2 & Ha2 & [_ H2]%list_elem_of_filter)%elem_of_all_found.
    apply list_elem_of_singleton in H1. destruct He. congruence. }
  split_and!; try done.
  - by rewrite Hlate, Ht2, Ht1, (assoc_L (∪)).
  - rewrite Hlate, psum_union, Hrs2, Hrs1 by done. pp_solve.
  - rewrite Hex2, Hex1. change (e :: gepochs gs) with ([e] ++ gepochs gs). rewrite all_found_app, all_found_one, psum_union; [pp_solve|].
    apply all_found_disj, He.
Qed.

(** The sectors of [N] that expire after [c]. *)
Definition late : gset Z := filter (λ n, c < default c (fst <$> σ !! n)) N.

Lemma reschedule_as_faults_ok :
  ∃ q', reschedule_as_faults quant size hash_order q r l = Ok (q', psum P N) ∧ queue_rep q' (upd late (c, true) σ) (F ∪ N).
Proof.
  destruct find_ok as (gs & Hfind & Hgs & Hnd & Hep). unfold reschedule_as_faults. rewrite Hfind. cbn [mbind result_bind].
  destruct (fault_groups gs [] q [] pp_zero pp_zero) as (q1 & tot & ex & rs & -> & Hr1 & Ht & Hrs & Hex); [done|done| |].
  { unfold late_epochs, all_found. cbn. by rewrite del_empty, (right_id_L ∅ (∪)). }
  cbn [mbind result_bind app] in *. rewrite (all_found_N _ Hep) in Hr1, Hex.
  assert (Hlate : all_found (late_epochs (gepochs gs)) = late).
  { apply set_eq. intros n. unfold late. rewrite elem_of_all_found, elem_of_filter. split.
    - intros (Hn & e & Hat & [Hc _]%list_elem_of_filter). by rewrite Hat.
    - intros [Hc Hn]. split; [done|]. destruct (Hon n Hn) as [e Hat]. exists e. split; [done|]. rewrite Hat in Hc.
      apply list_elem_of_filter. split; [done|]. apply Hep. intros Hemp. apply (not_elem_of_empty (C := gset Z) n).
      rewrite <- Hemp. by apply elem_of_intersection; rewrite elem_of_at. }
  rewrite Hlate in *. change (bits_of tot = ∅ ∪ late) in Ht. rewrite (left_id_L ∅ (∪)) in Ht.
  assert (Hres : (rs + ex)%pw = psum P N).
  { replace (rs + ex)%pw with (ex + rs)%pw by pp_solve. rewrite Hex. pp_solve. }
  rewrite Hres. destruct tot as [|x tot].
  - cbn. exists q1. split; [done|]. cbn in Ht. rewrite <- Ht in Hr1 |- *. rewrite del_empty in Hr1.
    replace (upd ∅ (c, true) σ) with σ; [done|]. apply map_eq. intros n. by rewrite lookup_upd, decide_False by apply not_elem_of_empty.
  - rewrite Ht. replace rs with (psum P late) by (rewrite Hrs; pp_solve).
    destruct (eq_add_early q1 (del late σ) (F ∪ N) r late) as (q2 & -> & Hr2); try done.
    { rewrite <- Ht. cbn. set_solver. }
    { intros n Hn [p Hp]%elem_of_dom. rewrite lookup_del, decide_True in Hp by done. done. }
    cbn. exists q2. split; [done|]. replace (upd late (c, true) σ) with (upd late (c, true) (del late σ)); [done|].
    apply map_eq. intros n. rewrite !lookup_upd, lookup_del. by case_decide.
Qed.
End faults.
End find.
End queue.
End entries.
