(* ===== verification/ScheduleOps.v ===== *)
(** * What the expiration queue means: whole queues

    The operations of [expiration_queue.rs] that traverse the queue: all sectors
    become faulty, sectors recover, are removed, or expire. *)

From S2P Require Import Prelude Address Runtime Types Vesting MinerFunds Sectors Expirations Schedule.

Implicit Types (σ : gmap Z (Z * bool)) (X F : gset Z).

Section ops.
Context (size : Z) (m : Sectors) (Hsize : 0 < size) (Hm : table_wf m).
Context (quant : QuantSpec) (Hu : 0 < q_unit quant).
Notation P := (info_power size m).
Notation G := (info_pledge m).
Notation es_of := (es_of size m).
Notation entry := (entry size m).
Notation queue_rep := (queue_rep size m).

(** The entries of a queue, as a list of their epochs. *)
Definition entry_at σ F (e : Z) : Z * ExpirationSet := (e, es_of F (at_epoch σ e false) (at_epoch σ e true)).

Lemma rep_entries q σ F : queue_rep q σ F → sched_ok m quant σ F →
  ∃ es, amt_entries q = entry_at σ F <$> es ∧ increasing id es ∧
    (∀ e, e ∈ es ↔ ∃ n b, σ !! n = Some (e, b)) ∧ Forall (epoch_ok quant) es.
Proof.
  intros Hq Hσ. exists (amt_entries q).*1. split_and!.
  - rewrite <- list_fmap_compose. rewrite <- (list_fmap_id (amt_entries q)) at 1. apply list_fmap_ext. intros i [k es] Hi. cbn.
    apply list_elem_of_lookup_2, elem_of_entries in Hi. unfold entry_at. f_equal.
    by destruct (rep_entry size m quant q σ F Hq Hσ k es Hi).
  - pose proof (entries_increasing q) as Hinc. induction Hinc as [|x l _ IH Hx]; cbn; constructor; [done|].
    apply Forall_fmap. eapply Forall_impl; [exact Hx|]. done.
  - intros e. rewrite list_elem_of_fmap. split.
    + intros ([k es] & -> & Hk%elem_of_entries). rewrite Hq in Hk. unfold Schedule.entry in Hk. case_decide as Hne; [done|].
      apply set_choose_L in Hne as [n [Hn|Hn]%elem_of_union]; apply elem_of_at in Hn; by eexists _, _.
    + intros (n & b & Hn). exists (entry_at σ F e). split; [done|]. apply elem_of_entries. rewrite Hq.
      apply (entry_some size m Hsize Hm F _ _ n). apply elem_of_union. destruct b; [right|left]; by apply elem_of_at.
  - apply Forall_fmap, Forall_forall. intros [k es] Hk%elem_of_entries. by destruct (rep_entry size m quant q σ F Hq Hσ k es Hk).
Qed.

Lemma entry_none σ F e : (∀ n b, σ !! n ≠ Some (e, b)) → entry F (at_epoch σ e false) (at_epoch σ e true) = None.
Proof.
  intros Hno. unfold Schedule.entry. rewrite decide_True; [done|]. apply set_eq. intros n. rewrite elem_of_union, !elem_of_at.
  split; [|set_solver]. by intros [?%Hno|?%Hno].
Qed.

(** The sectors of some epochs. *)
Definition sectors_at σ (es : list Z) (b : bool) : gset Z := ⋃ ((λ e, at_epoch σ e b) <$> es).

Lemma elem_of_sectors_at σ es b n : n ∈ sectors_at σ es b ↔ ∃ e, σ !! n = Some (e, b) ∧ e ∈ es.
Proof.
  unfold sectors_at. rewrite elem_of_union_list. split.
  - intros (X & (e & -> & He)%list_elem_of_fmap & Hn%elem_of_at). by exists e.
  - intros (e & Hn & He). exists (at_epoch σ e b). split; [by apply (list_elem_of_fmap_2 (λ e, at_epoch σ e b))|]. by apply elem_of_at.
Qed.
Lemma sectors_at_cons σ e es b : sectors_at σ (e :: es) b = at_epoch σ e b ∪ sectors_at σ es b.
Proof. done. Qed.
Lemma sectors_at_nil σ b : sectors_at σ [] b = ∅.
Proof. done. Qed.
Lemma sectors_at_snoc σ es e b : sectors_at σ (es ++ [e]) b = sectors_at σ es b ∪ at_epoch σ e b.
Proof. apply set_eq. intros n. rewrite elem_of_union, !elem_of_sectors_at, elem_of_at. setoid_rewrite elem_of_app. setoid_rewrite list_elem_of_singleton. naive_solver. Qed.
Lemma sectors_at_disj σ e es b b' : e ∉ es → at_epoch σ e b ## sectors_at σ es b'.
Proof. intros He n Hn%elem_of_at (e' & Hn' & He')%elem_of_sectors_at. congruence. Qed.

(** ** Everything becomes faulty *)

Section all_faults.
Context (q : ExpirationQueue) (σ : Sched) (F : gset Z) (Hq : queue_rep q σ F) (Hσ : sched_ok m quant σ F).
Context (r : Z) (Hr : epoch_ok quant (quantize_up quant r)).
Notation c := (quantize_up quant r).
Context (Hearly : ∀ n e, σ !! n = Some (e, true) → e ≤ c).

Definition after (es : list Z) : list Z := filter (λ e, c < e) es.
Definition until_c (es : list Z) : list Z := filter (λ e, e ≤ c) es.

Lemma all_faults_loop es acc :
  NoDup es → Forall (epoch_ok quant) es →
  for_each_while (λ acc k es,
      let epoch := as_i64 k in
      if epoch <=? quantize_up quant r then
        let es := {| on_time_sectors := on_time_sectors es; early_sectors := early_sectors es; on_time_pledge := on_time_pledge es;
                     active_power := pp_zero; faulty_power := faulty_power es + active_power es |} in
        mret ({| af_epochs := af_epochs acc; af_sectors := af_sectors acc; af_power := af_power acc;
                 af_mutated := af_mutated acc ++ [(epoch, es)] |}, true)
      else
        _ ← throw_if (negb (bool_decide (early_sectors es = ∅))) Plain;
        mret ({| af_epochs := af_epochs acc ++ [as_usize epoch]; af_sectors := af_sectors acc ∪ on_time_sectors es;
                 af_power := (af_power acc + active_power es + faulty_power es)%pw; af_mutated := af_mutated acc |}, true))
    acc (entry_at σ F <$> es) =
  Ok {| af_epochs := af_epochs acc ++ after es; af_sectors := af_sectors acc ∪ sectors_at σ (after es) false;
        af_power := af_power acc + psum P (sectors_at σ (after es) false);
        af_mutated := af_mutated acc ++ (entry_at σ (dom σ) <$> until_c es) |}.
Proof.
  intros Hd Hes. revert acc Hd. induction Hes as [|e es He Hes IH]; intros acc Hd.
  { unfold after, until_c, sectors_at. cbn. rewrite psum_empty, !app_nil_r, (right_id_L ∅ (∪)). destruct acc. cbn.
    repeat f_equal. pp_solve. }
  apply NoDup_cons in Hd as [Hne Hd]. unfold entry_at at 1. cbn [fmap list_fmap for_each_while].
  destruct (key_ok quant e He) as (Hus & Hi & _). unfold after, until_c. rewrite !filter_cons, Hi. cbn [on_time_sectors early_sectors on_time_pledge active_power faulty_power Schedule.es_of].
  destruct (Z.leb_spec e c) as [Hle|Hlt]; cbn [mbind result_bind mret result_ret].
  - rewrite decide_False, decide_True by lia. rewrite IH by done. cbn [af_epochs af_sectors af_power af_mutated]. fold (after es) (until_c es). f_equal. f_equal.
    rewrite <- app_assoc. f_equal. cbn. f_equal. unfold entry_at. f_equal. apply es_of_eq; try done.
    + symmetry. apply psum_empty_set. intros n. rewrite elem_of_difference, elem_of_at, elem_of_dom. split; [|set_solver]. intros [Hn Hnd]. destruct Hnd. by eexists.
    + assert (Hdis : at_epoch σ e true ## at_epoch σ e false) by (intros n ?%elem_of_at ?%elem_of_at; congruence).
      rewrite (psum_union P (at_epoch σ e false ∩ F)), (psum_union P (at_epoch σ e false ∩ dom σ)) by set_solver.
      rewrite (psum_set P (at_epoch σ e false ∩ dom σ) (at_epoch σ e false)), (psum_split P (at_epoch σ e false) F); [pp_solve|].
      intros n. rewrite elem_of_intersection, elem_of_at, elem_of_dom. split; [tauto|]. intros Hn. split; [done|by eexists].
  - rewrite decide_True, decide_False by lia. assert (Hnone : at_epoch σ e true = ∅).
    { apply set_eq. intros n. split; [|set_solver]. intros Hn%elem_of_at%Hearly. lia. }
    rewrite Hnone, bool_decide_true by done. cbn [negb throw_if mbind result_bind mret result_ret]. rewrite IH by done.
    cbn [af_epochs af_sectors af_power af_mutated]. fold (after es) (until_c es). rewrite Hus, sectors_at_cons.
    rewrite (psum_union P (at_epoch σ e false) (sectors_at σ (after es) false)) by (apply sectors_at_disj; by intros [_ ?]%list_elem_of_filter).
    rewrite <- app_assoc, (assoc_L (∪)). f_equal. f_equal.
    rewrite (right_id_L ∅ (∪)), (psum_split P (at_epoch σ e false) F). pp_solve.
Qed.

Lemma update_all es F' q0 :
  NoDup es → Forall (epoch_ok quant) es →
  ∃ q1, try_fold (λ q e, q ← must_update q e.1 e.2; _ ← es_validate_state e.2; mret q) q0 (entry_at σ F' <$> es) = Ok q1 ∧
    ∀ e, q1 !! e = if decide (e ∈ es) then Some (entry_at σ F' e).2 else q0 !! e.
Proof.
  intros Hd Hes. revert q0 Hd. induction Hes as [|e es He Hes IH]; intros q0 Hd.
  { exists q0. split; [done|]. intros e. by rewrite decide_False by apply not_elem_of_nil. }
  apply NoDup_cons in Hd as [Hne Hd]. destruct (key_ok quant e He) as (Hus & _ & Hi).
  cbn [fmap list_fmap try_fold]. unfold must_update at 1.
  change (entry_at σ F' e).1 with e. change (entry_at σ F' e).2 with (es_of F' (at_epoch σ e false) (at_epoch σ e true)).
  rewrite Hus, amt_set_ok by done. cbn [mbind result_bind]. rewrite (es_of_valid size m Hsize Hm). cbn [mbind result_bind mret result_ret].
  destruct (IH (<[e := es_of F' (at_epoch σ e false) (at_epoch σ e true)]> q0) Hd) as (q1 & Hq1 & Hl1).
  exists q1. split; [exact Hq1|]. intros e'. rewrite Hl1. destruct (decide (e' = e)) as [->|Hn].
  - rewrite decide_False by done. rewrite decide_True by by left. by rewrite lookup_insert_eq.
  - rewrite lookup_insert_ne by done. repeat case_decide; set_solver.
Qed.

(** The sectors that expire after [c]. *)
Definition later : gset Z := filter (λ n, c < default c (fst <$> σ !! n)) (dom σ).

Lemma elem_of_later n : n ∈ later ↔ ∃ e, σ !! n = Some (e, false) ∧ c < e.
Proof.
  unfold later. rewrite elem_of_filter, elem_of_dom. split.
  - intros [Hc [[e b] Hn]]. rewrite Hn in Hc. cbn in Hc. exists e. split; [|done]. destruct b; [|done]. apply Hearly in Hn. lia.
  - intros (e & Hn & Hc). rewrite Hn. split; [done|by eexists].
Qed.
Lemma at_later e b : at_epoch (upd later (c, true) σ) e b =
  if decide (e = c) then (if b then at_epoch σ e b ∪ later else at_epoch σ e b) else if decide (c < e) then ∅ else at_epoch σ e b.
Proof.
  apply set_eq. intros n. rewrite elem_of_at, lookup_upd. destruct (decide (n ∈ later)) as [Hn|Hn].
  - pose proof Hn as (e' & He' & Hc)%elem_of_later. destruct (decide (e = c)) as [->|Hne].
    + destruct b; [rewrite elem_of_union|]; rewrite elem_of_at; [tauto|]. split; [done|]. intros Hx. rewrite He' in Hx. injection Hx as ->. lia.
    + case_decide; [set_solver|]. rewrite elem_of_at. split; [congruence|]. rewrite He'. intros [= -> _]. lia.
  - destruct (decide (e = c)) as [->|Hne]; [destruct b; rewrite ?elem_of_union, elem_of_at; tauto|].
    case_decide; [|by rewrite elem_of_at]. split; [|set_solver]. intros He. exfalso. destruct b; [apply Hearly in He; lia|].
    apply Hn, elem_of_later. by exists e.
Qed.

(** The queue once the entries until [c] are updated. *)
Lemma updated_lookup es (q1 : ExpirationQueue) :
  (∀ e, e ∈ es ↔ ∃ n b, σ !! n = Some (e, b)) →
  (∀ e, q1 !! e = if decide (e ∈ until_c es) then Some (entry_at σ (dom σ) e).2 else q !! e) →
  (∀ e, e ≤ c → q1 !! e = entry (dom σ) (at_epoch σ e false) (at_epoch σ e true)) ∧
  (∀ e, c < e → is_Some (q1 !! e) ↔ e ∈ after es).
Proof.
  intros Hmem Hq1. assert (Hq' : ∀ e, is_Some (q !! e) ↔ e ∈ es).
  { intros e. rewrite Hmem, Hq. unfold Schedule.entry. case_decide as Hemp.
    - split; [by intros []|]. intros (n & b & Hn). exfalso. apply (not_elem_of_empty (C := gset Z) n). rewrite <- Hemp, elem_of_union, !elem_of_at. destruct b; tauto.
    - split; [|by eexists]. intros _. apply set_choose_L in Hemp as [n [Hn|Hn]%elem_of_union]; apply elem_of_at in Hn; by eexists _, _. }
  split; intros e He; rewrite Hq1.
  - case_decide as Hin.
    + apply list_elem_of_filter in Hin as [_ (n & b & Hn)%Hmem]. symmetry. apply (entry_some size m Hsize Hm _ _ _ n).
      apply elem_of_union. destruct b; [right|left]; by apply elem_of_at.
    + assert (Hno : q !! e = None) by (apply eq_None_not_Some; rewrite Hq'; intros ?; by apply Hin, list_elem_of_filter).
      rewrite Hno. rewrite Hq in Hno. unfold Schedule.entry in *. by case_decide.
  - rewrite decide_False by (intros [? _]%list_elem_of_filter; lia). rewrite Hq'. unfold after. rewrite list_elem_of_filter. tauto.
Qed.

(** The sectors after [c] expire early at [c]. *)
Lemma collect_later (q1 : ExpirationQueue) :
  (∀ e, e ≤ c → q1 !! e = entry (dom σ) (at_epoch σ e false) (at_epoch σ e true)) → later ≠ ∅ →
  ∃ q2, eq_add quant q1 r ∅ later pp_zero (psum P later) 0 = Ok q2 ∧
    (∀ e, e ≤ c → q2 !! e = entry (dom σ) (at_epoch (upd later (c, true) σ) e false) (at_epoch (upd later (c, true) σ) e true)) ∧
    (∀ e, c < e → q2 !! e = q1 !! e).
Proof.
  intros Hsame [n Hn]%set_choose_L. destruct (key_ok quant _ Hr) as (Hus & _ & Hi).
  assert (Hdis : ∀ b, later ## at_epoch σ c b) by (intros b x (e & Hx & He)%elem_of_later Hy%elem_of_at; rewrite Hx in Hy; injection Hy as ??; lia).
  unfold eq_add, may_get. rewrite Hus, amt_get_ok by done. cbn [mbind result_bind]. rewrite (Hsame c) by lia. rewrite entry_get by done.
  cbn [mret result_ret mbind result_bind]. rewrite (es_add_early size m Hsize Hm); [|specialize (Hdis false); set_solver|done].
  cbn [mbind result_bind]. unfold must_update. rewrite Hus, amt_set_ok by done. eexists. split; [done|]. split; intros e He.
  - rewrite !at_later. destruct (decide (e = c)) as [->|Hne].
    + rewrite lookup_insert_eq. symmetry. apply (entry_some size m Hsize Hm _ _ _ n). set_solver.
    + rewrite lookup_insert_ne, !(decide_False (P := c < e)) by lia. by apply Hsame.
  - by rewrite lookup_insert_ne by lia.
Qed.

Lemma reschedule_all_ok :
  ∃ q', reschedule_all_as_faults quant q r = Ok q' ∧ queue_rep q' (upd later (c, true) σ) (dom σ).
Proof.
  destruct (rep_entries q σ F Hq Hσ) as (es & Hes & Hinc & Hmem & Hok).
  assert (Hnd : NoDup es) by (rewrite <- (list_fmap_id es); by apply increasing_nodup).
  unfold reschedule_all_as_faults. rewrite Hes, all_faults_loop by done. cbn [mbind result_bind af_epochs af_sectors af_power af_mutated].
  rewrite !app_nil_l, (left_id_L ∅ (∪)).
  destruct (update_all (until_c es) (dom σ) q) as (q1 & -> & Hq1); [by apply NoDup_filter|apply Forall_forall; intros e [_ He]%list_elem_of_filter; rewrite Forall_forall in Hok; by apply Hok|]. cbn [mbind result_bind].
  destruct (updated_lookup es q1 Hmem Hq1) as [Hsame Hbeyond].
  assert (Hset : sectors_at σ (after es) false = later).
  { apply set_eq. intros n. rewrite elem_of_sectors_at, elem_of_later. unfold after. setoid_rewrite list_elem_of_filter. setoid_rewrite Hmem.
    split; [naive_solver|]. intros (e & Hn & He). exists e. by eauto 6. }
  assert (Hout : ∀ e b, c < e → at_epoch (upd later (c, true) σ) e b = ∅).
  { intros e b He. rewrite at_later, decide_False, decide_True by lia. done. }
  rewrite Hset. destruct (after es) as [|e0 rest] eqn:Eafter.
  - exists q1. split; [done|]. assert (Hlater : later = ∅) by (by rewrite <- Hset; unfold sectors_at).
    intros e. destruct (Z.lt_ge_cases c e) as [Hlt|Hle].
    + rewrite !Hout by done. unfold Schedule.entry. rewrite decide_True by set_solver. apply eq_None_not_Some. rewrite Hbeyond by done. apply not_elem_of_nil.
    + rewrite Hsame by done. f_equal; apply set_eq; intros n; rewrite !elem_of_at, lookup_upd, decide_False by set_solver; done.
  - rewrite <- Eafter in *. assert (Hne : later ≠ ∅).
    { assert (He0 : e0 ∈ after es) by (rewrite Eafter; by left). apply list_elem_of_filter in He0 as [Hlt (n & b & Hn)%Hmem].
      destruct b; [apply Hearly in Hn; lia|]. intros Hemp. apply (not_elem_of_empty (C := gset Z) n). rewrite <- Hemp, elem_of_later. by exists e0. }
    destruct (collect_later q1 Hsame Hne) as (q2 & Hadd & Hlow & Hhigh).
    replace (pp_zero + psum P later)%pw with (psum P later) by pp_solve. rewrite Hadd. cbn [mbind result_bind].
    destruct (amt_batch_delete_ok q2 (after es)) as (q3 & -> & Hq3); [by apply NoDup_filter| |].
    { intros e He. pose proof He as [Hlt Hin]%list_elem_of_filter. rewrite Forall_forall in Hok. split; [by apply (key_ok quant e), Hok|].
      rewrite Hhigh by done. by apply Hbeyond. }
    exists q3. split; [done|]. intros e. rewrite Hq3. destruct (Z.lt_ge_cases c e) as [Hlt|Hle].
    + rewrite !Hout by done. unfold Schedule.entry. rewrite (decide_True (P := (∅ ∪ ∅ : gset Z) = ∅)) by set_solver. case_decide as Hin; [done|].
      rewrite Hhigh by done. apply eq_None_not_Some. by rewrite Hbeyond.
    + rewrite decide_False by (intros [? _]%list_elem_of_filter; lia). by apply Hlow.
Qed.
End all_faults.

(** ** Expiry *)

(** What expires until an epoch. *)
Definition expired σ (until : Z) : gset Z := filter (λ n, default (until + 1) (fst <$> σ !! n) ≤ until) (dom σ).
Definition expired_kind σ until (b : bool) : gset Z := filter (λ n, snd <$> σ !! n = Some b) (expired σ until).

Lemma elem_of_expired σ until n : n ∈ expired σ until ↔ ∃ e b, σ !! n = Some (e, b) ∧ e ≤ until.
Proof.
  unfold expired. rewrite elem_of_filter, elem_of_dom. split.
  - intros [Hle [[e b] Hn]]. rewrite Hn in Hle. by exists e, b.
  - intros (e & b & Hn & Hle). rewrite Hn. split; [done|by eexists].
Qed.
Lemma elem_of_expired_kind σ until b n : n ∈ expired_kind σ until b ↔ ∃ e, σ !! n = Some (e, b) ∧ e ≤ until.
Proof.
  unfold expired_kind. rewrite elem_of_filter, elem_of_expired. split.
  - intros [Hb (e & b' & Hn & Hle)]. rewrite Hn in Hb. injection Hb as ->. by exists e.
  - intros (e & Hn & Hle). rewrite Hn. split; [done|by exists e, b].
Qed.

Lemma es_merge_of F O E O' E' : O ∪ E ## O' ∪ E' → es_merge (es_of F O E) (es_of F O' E') = es_of F (O ∪ O') (E ∪ E').
Proof.
  intros Hd. unfold es_merge. cbn [on_time_sectors early_sectors on_time_pledge active_power faulty_power Schedule.es_of].
  apply es_of_eq; try done.
  - by rewrite ssum_union by set_solver.
  - rewrite <- psum_union by set_solver. apply psum_set. set_solver.
  - rewrite <- psum_union by set_solver. apply psum_set. set_solver.
Qed.

Lemma pop_loop σ F until es keys V :
  increasing id es → Forall (epoch_ok quant) es → (∀ e, e ∈ es → e ∉ V) →
  for_each_while (λ acc i es,
      let '(keys, popped) := acc : list Z * ExpirationSet in
      if until <? as_i64 i then mret (acc, false) else mret ((keys ++ [i], es_merge popped es), true))
    (keys, es_of F (sectors_at σ V false) (sectors_at σ V true)) (entry_at σ F <$> es) =
  let V' := V ++ filter (λ e, e ≤ until) es in
  Ok (keys ++ filter (λ e, e ≤ until) es, es_of F (sectors_at σ V' false) (sectors_at σ V' true)).
Proof.
  intros Hinc Hes. revert keys V. induction Hinc as [|e es Hinc IH Hlt]; intros keys V HV; [cbn; by rewrite !app_nil_r|].
  apply Forall_cons in Hes as [He Hes]. destruct (key_ok quant e He) as (_ & Hi & _). cbn [fmap list_fmap for_each_while].
  unfold entry_at at 1. rewrite Hi, filter_cons. destruct (Z.ltb_spec until e) as [Hu'|Hu']; cbn [mbind result_bind mret result_ret].
  - rewrite decide_False by lia. assert (Hnil : filter (λ e, e ≤ until) es = []).
    { destruct (filter _ es) as [|x l] eqn:E; [done|]. assert (Hx : x ∈ filter (λ e, e ≤ until) es) by (rewrite E; by left).
      apply list_elem_of_filter in Hx as [Hx Hin]. rewrite Forall_forall in Hlt. specialize (Hlt x Hin). cbn in Hlt. lia. }
    by rewrite Hnil, !app_nil_r.
  - rewrite decide_True by lia. assert (HeV : e ∉ V) by (apply HV; by left). rewrite es_merge_of by (intros n; rewrite !elem_of_union, !elem_of_sectors_at, !elem_of_at; naive_solver).
    replace (sectors_at σ V false ∪ at_epoch σ e false) with (sectors_at σ (V ++ [e]) false) by apply sectors_at_snoc.
    replace (sectors_at σ V true ∪ at_epoch σ e true) with (sectors_at σ (V ++ [e]) true) by apply sectors_at_snoc.
    rewrite IH; [cbn zeta; by rewrite <- !app_assoc|done|]. intros e' He' [Hx|Hx]%elem_of_app; [by apply (HV e'); [right|]|].
    apply list_elem_of_singleton in Hx as ->. rewrite Forall_forall in Hlt. specialize (Hlt e He'). cbn in Hlt. lia.
Qed.

Lemma pop_until_ok q σ F until :
  queue_rep q σ F → sched_ok m quant σ F →
  ∃ q', pop_until q until = Ok (q', es_of F (expired_kind σ until false) (expired_kind σ until true)) ∧
    queue_rep q' (del (expired σ until) σ) F.
Proof.
  intros Hq Hσ. destruct (rep_entries q σ F Hq Hσ) as (es & Hes & Hinc & Hmem & Hok).
  assert (Hnd : NoDup es) by (rewrite <- (list_fmap_id es); by apply increasing_nodup).
  unfold pop_until. rewrite Hes. pose proof (pop_loop σ F until es [] [] Hinc Hok) as Hloop. unfold sectors_at in Hloop at 1 2. cbn [fmap list_fmap union_list] in Hloop.
  rewrite (es_of_empty size m Hsize Hm) in Hloop. rewrite Hloop by (intros ?? ?%not_elem_of_nil; done). rewrite !app_nil_l. cbn [mbind result_bind]. cbn zeta.
  set (keys := filter (λ e, e ≤ until) es).
  assert (Hkeys : ∀ e, e ∈ keys ↔ e ≤ until ∧ ∃ n b, σ !! n = Some (e, b)) by (intros e; unfold keys; by rewrite list_elem_of_filter, Hmem).
  assert (Hset : ∀ b, sectors_at σ keys b = expired_kind σ until b).
  { intros b. apply set_eq. intros n. rewrite elem_of_sectors_at, elem_of_expired_kind. setoid_rewrite Hkeys. naive_solver. }
  rewrite !Hset. destruct (amt_batch_delete_ok q keys) as (q' & -> & Hq'); [by apply NoDup_filter| |].
  { intros e He. pose proof He as [_ Hin]%list_elem_of_filter. rewrite Forall_forall in Hok. split; [by apply (key_ok quant e), Hok|].
    apply Hkeys in He as (_ & n & b & Hn). rewrite Hq. rewrite (entry_some size m Hsize Hm _ _ _ n); [by eexists|].
    apply elem_of_union. destruct b; [right|left]; by apply elem_of_at. }
  exists q'. split; [done|]. intros e. rewrite Hq'. case_decide as He.
  - symmetry. unfold Schedule.entry. rewrite decide_True; [done|]. apply set_eq. intros n. rewrite elem_of_union, !elem_of_at, !lookup_del.
    split; [|set_solver]. apply Hkeys in He as [He _]. case_decide as Hn; [intuition discriminate|].
    rewrite elem_of_expired in Hn. intros [?|?]; destruct Hn; eauto.
  - rewrite Hq. f_equal; apply set_eq; intros n; rewrite !elem_of_at, lookup_del; case_decide as Hn; try done;
      (split; [|done]); intros Hl; destruct He; apply Hkeys; apply elem_of_expired in Hn as (e' & b' & Hn & Hle); rewrite Hl in Hn;
      injection Hn as <- <-; eauto.
Qed.


(** ** Traversals that change entries *)

Section iter.
Context {S : Type} (f : S → Z → ExpirationSet → result BoxErr (S * ExpirationSet * bool)) (fin : S → Prop).
(** The traversal takes the schedule [σ] with the faults [F] to [σ'] with
    [F']; [I V s] holds once the epochs [V] are done. *)
Context (q : ExpirationQueue) (σ σ' : Sched) (F F' : gset Z) (I : list Z → S → Prop).
Context (Hq : queue_rep q σ F) (Hσ : sched_ok m quant σ F).
Context (Hsub : ∀ n p, σ' !! n = Some p → σ !! n = Some p).
Notation es_at σ F e := (es_of F (at_epoch σ e false) (at_epoch σ e true)).
Context (Hstep : ∀ V e s, e ∉ V → (∃ n b, σ !! n = Some (e, b)) → I V s →
  ∃ s' go, f s e (es_at σ F e) = Ok (s', es_at σ' F' e, go) ∧ I (V ++ [e]) s' ∧ (go = false → fin s')).
Context (Hfin : ∀ V s, I V s → fin s → ∀ e, e ∉ V → es_at σ F e = es_at σ' F' e).

Definition gone (V : list Z) : list Z := filter (λ e, es_is_empty (es_at σ' F' e) = true) V.
Definition done_until (V : list Z) (qc : ExpirationQueue) : Prop :=
  ∀ e, qc !! e = if decide (e ∈ V) then Some (es_at σ' F' e) else q !! e.

Lemma iter_loop es V s qc :
  NoDup (V ++ es) → Forall (epoch_ok quant) es → (∀ e, e ∈ es → ∃ n b, σ !! n = Some (e, b)) → done_until V qc → I V s →
  ∃ es' s' qc', for_each_while_mut (λ acc k es,
      let '(s, emptied) := acc : S * list Z in
      r ← f s (as_i64 k) es;
      let '(s, es, keep_going) := (r : S * ExpirationSet * bool) in
      mret ((s, if es_is_empty es then emptied ++ [k] else emptied), es, keep_going)) (s, gone V) qc (entry_at σ F <$> es) =
    Ok ((s', gone (V ++ es')), qc') ∧ es' ⊆ es ∧ done_until (V ++ es') qc' ∧ I (V ++ es') s' ∧ NoDup (V ++ es') ∧ (es' = es ∨ fin s').
Proof.
  intros Hnd Hes. revert V s qc Hnd. induction Hes as [|e es He Hes IH]; intros V s qc Hnd Hin Hqc HI.
  { exists [], s, qc. rewrite app_nil_r in *. split_and!; try done. by left. }
  destruct (key_ok quant e He) as (_ & Hi & _). cbn [fmap list_fmap for_each_while_mut]. unfold entry_at at 1. rewrite Hi.
  assert (HeV : e ∉ V) by (apply NoDup_app in Hnd as (_ & Hx & _); intros ?; by eapply Hx; [|left]).
  destruct (Hstep V e s HeV) as (s1 & go & Hf & HI1 & Hgo); [apply Hin; by left|done|]. rewrite Hf. cbn [mbind result_bind mret result_ret].
  assert (Hg : (if es_is_empty (es_at σ' F' e) then gone V ++ [e] else gone V) = gone (V ++ [e])).
  { unfold gone. rewrite filter_app, filter_cons, filter_nil. by destruct (es_is_empty _); rewrite ?app_nil_r. }
  assert (Hq1 : done_until (V ++ [e]) (<[e := es_at σ' F' e]> qc)).
  { intros e'. destruct (decide (e' = e)) as [->|Hne]; [rewrite lookup_insert_eq, decide_True by set_solver; done|].
    rewrite lookup_insert_ne, Hqc by done. repeat case_decide; set_solver. }
  rewrite Hg. destruct go.
  - rewrite (assoc_L app V [e] es : V ++ e :: es = _) in Hnd.
    destruct (IH (V ++ [e]) s1 (<[e := es_at σ' F' e]> qc) Hnd) as (es' & s' & qc' & -> & Hsubs & Hd' & HI' & Hnd' & Hor); [intros e' He'; apply Hin; by right|done|done|].
    exists (e :: es'), s', qc'. rewrite <- app_assoc in *. split_and!; try done; [set_solver|]. destruct Hor as [->|]; [by left|by right].
  - exists [e], s1, (<[e := es_at σ' F' e]> qc). split_and!; try done; [set_solver| |right; by apply Hgo].
    change (e :: es) with ([e] ++ es) in Hnd. rewrite (assoc_L app) in Hnd. by apply NoDup_app in Hnd as (? & _).
Qed.

Lemma iter_ok s :
  I [] s → ∃ V s' q', iter_while_mut f s q = Ok (s', q') ∧ queue_rep q' σ' F' ∧ I V s' ∧
    ((∀ n e b, σ !! n = Some (e, b) → e ∈ V) ∨ fin s').
Proof.
  intros HI. destruct (rep_entries q σ F Hq Hσ) as (es & Hes & Hinc & Hmem & Hok).
  assert (Hnd : NoDup es) by (rewrite <- (list_fmap_id es); by apply increasing_nodup).
  destruct (iter_loop es [] s q) as (V & s' & qc & Hloop & HV & Hqc & HI' & HndV & Hor); [done|done|by intros e ?%Hmem|by intros e|done|].
  change (gone []) with (@nil Z) in Hloop. unfold iter_while_mut. rewrite Hes, Hloop. cbn [app mbind result_bind fst snd] in *.
  destruct (amt_batch_delete_ok qc (gone V)) as (q' & -> & Hq'); [by apply NoDup_filter| |].
  { intros e [_ He]%list_elem_of_filter. rewrite Forall_forall in Hok. split; [by apply (key_ok quant e), Hok, HV|]. rewrite Hqc, decide_True by done. by eexists. }
  cbn [mbind result_bind]. exists V, s', q'. split_and!; [done| |done|].
  - intros e. rewrite Hq', Hqc. destruct (decide (e ∈ gone V)) as [[Hemp He]%list_elem_of_filter|Hg].
    + rewrite (es_of_is_empty size m Hsize Hm), bool_decide_eq_true in Hemp. unfold Schedule.entry. by rewrite decide_True.
    + destruct (decide (e ∈ V)) as [He|He].
      * unfold Schedule.entry. rewrite decide_False; [done|]. intros Hemp. apply Hg, list_elem_of_filter. split; [|done].
        by rewrite (es_of_is_empty size m Hsize Hm), bool_decide_eq_true.
      * rewrite Hq. destruct Hor as [->|Hf].
        -- assert (Hno : ∀ n b, σ !! n ≠ Some (e, b)) by (intros n b Hn; apply He, Hmem; eauto).
           rewrite !entry_none; [done| |done]. intros n b Hn%Hsub. by eapply Hno.
        -- pose proof (Hfin V s' HI' Hf e He) as Heq. pose proof (f_equal on_time_sectors Heq) as HO. pose proof (f_equal early_sectors Heq) as HE.
           cbn in HO, HE. unfold Schedule.entry. by rewrite Heq, HO, HE.
  - destruct Hor as [->|]; [left|by right]. intros n e b Hn. apply Hmem. eauto.
Qed.
End iter.

(** The sectors that expire early, or on time. *)
Definition kind σ (b : bool) : gset Z := filter (λ n, snd <$> σ !! n = Some b) (dom σ).
Lemma elem_of_kind σ b n : n ∈ kind σ b ↔ ∃ e, σ !! n = Some (e, b).
Proof.
  unfold kind. rewrite elem_of_filter, elem_of_dom. split.
  - intros [Hb [[e b'] Hn]]. rewrite Hn in Hb. injection Hb as ->. by exists e.
  - intros [e Hn]. rewrite Hn. split; [done|by eexists].
Qed.

(** Of the sectors [X], those that do not expire at the epochs [V]. *)
Lemma remaining_step σ X (rem : gset Z) V e :
  (∀ n, n ∈ rem ↔ n ∈ X ∧ ∀ e b, σ !! n = Some (e, b) → e ∉ V) →
  ∀ n, n ∈ rem ∖ (X ∩ (at_epoch σ e false ∪ at_epoch σ e true)) ↔ n ∈ X ∧ ∀ e' b, σ !! n = Some (e', b) → e' ∉ V ++ [e].
Proof.
  intros Hrem n. rewrite elem_of_difference, Hrem, elem_of_intersection, elem_of_union, !elem_of_at. split.
  - intros [[Hn Hno] Hat]. split; [done|]. intros e' b Hl' [He'| ->%list_elem_of_singleton]%elem_of_app; [by eapply Hno|].
    apply Hat. split; [done|]. destruct b; tauto.
  - intros [Hn Hno]. split; [split; [done|]|].
    + intros e' b Hl' He'. eapply Hno; [exact Hl'|]. apply elem_of_app. by left.
    + intros [_ [Hat|Hat]]; eapply Hno; try exact Hat; apply elem_of_app; right; by left.
Qed.
Lemma sectors_at_snoc_disj σ V e X : e ∉ V →
  X ∩ (sectors_at σ V false ∪ sectors_at σ V true) ## X ∩ (at_epoch σ e false ∪ at_epoch σ e true).
Proof.
  intros HV n. rewrite !elem_of_intersection, !elem_of_union, !elem_of_at, !elem_of_sectors_at. naive_solver.
Qed.

Lemma bounded_bits_ok max X : Z.of_nat (base.size X) ≤ max → bounded_bits max X = Ok X.
Proof. intros H. unfold bounded_bits, bits_len. by rewrite (proj2 (Z.ltb_ge _ _) H). Qed.
Lemma at_epoch_size σ e b : (base.size (at_epoch σ e b) ≤ base.size (dom σ))%nat.
Proof. apply subseteq_size. intros n Hn%elem_of_at. apply elem_of_dom. by eexists. Qed.

(** ** Recovery *)

Section recovered.
Context (l : list SectorOnChainInfo) (Hl : infos m l).
Notation N := (numbers l).

Lemma recover_step r O E F E0 s :
  m !! sector_number s = Some s → O ## E → E0 ⊆ E → sector_number s ∈ F → (sector_number s ∈ E → sector_number s ∈ E0) →
  let n := sector_number s in
  recover_one size O E (r, es_of F O E0) s =
    ({| rec_remaining := rec_remaining r ∖ ({[n]} ∩ (O ∪ E));
        rec_rescheduled := rec_rescheduled r ++ (if decide (n ∈ E) then [s] else []);
        rec_power := (rec_power r + psum P ({[n]} ∩ (O ∪ E)))%pw |}, es_of (F ∖ {[n]}) O (E0 ∖ {[n]})).
Proof.
  intros Hs HOE HE0 HF Hn n. fold n in HF, Hn. assert (Hp : power_for_sector size s = P n) by (unfold info_power, n; by rewrite Hs).
  unfold recover_one. fold n. rewrite Hp. cbn [on_time_sectors early_sectors on_time_pledge active_power faulty_power Schedule.es_of].
  destruct (decide (n ∈ O)) as [HO|HO]; [rewrite (bool_decide_true (n ∈ O)) by done|rewrite (bool_decide_false (n ∈ O)) by done].
  - assert (n ∉ E) by set_solver. rewrite decide_False by done. f_equal.
    + f_equal; [set_solver|by rewrite app_nil_r|]. rewrite (psum_set P _ {[n]}), psum_singleton by set_solver. done.
    + apply es_of_eq; [done|set_solver|done| |].
      * rewrite <- (psum_singleton P n), <- psum_union by set_solver. apply psum_set. intros x. destruct (decide (x = n)); set_solver.
      * rewrite <- (psum_singleton P n), <- psum_difference by set_solver. apply psum_set. set_solver.
  - destruct (decide (n ∈ E)) as [HE|HE]; [rewrite (bool_decide_true (n ∈ E)) by done|rewrite (bool_decide_false (n ∈ E)) by done].
    + f_equal.
      * f_equal; [set_solver|]. rewrite (psum_set P _ {[n]}), psum_singleton by set_solver. done.
      * apply es_of_eq; [done|done|done|apply psum_set; set_solver|].
        rewrite <- (psum_singleton P n), <- psum_difference by set_solver. apply psum_set. set_solver.
    + destruct r as [rem resc pw]. cbn [rec_remaining rec_rescheduled rec_power]. f_equal.
      * f_equal; [set_solver|by rewrite app_nil_r|]. rewrite psum_empty_set by set_solver. pp_solve.
      * apply es_of_eq; [done|set_solver|done|apply psum_set; set_solver|apply psum_set; set_solver].
Qed.

Lemma recover_fold O E l0 r F E0 :
  infos m l0 → O ## E → E0 ⊆ E → numbers l0 ⊆ F → numbers l0 ∩ E ⊆ E0 →
  fold_left (recover_one size O E) l0 (r, es_of F O E0) =
    ({| rec_remaining := rec_remaining r ∖ (numbers l0 ∩ (O ∪ E));
        rec_rescheduled := rec_rescheduled r ++ filter (λ s, sector_number s ∈ E) l0;
        rec_power := (rec_power r + psum P (numbers l0 ∩ (O ∪ E)))%pw |}, es_of (F ∖ numbers l0) O (E0 ∖ numbers l0)).
Proof.
  intros Hl0 HOE. revert r F E0 Hl0. induction l0 as [|s l0 IH]; intros r F E0 Hl0 HE0 HF HE.
  { cbn. destruct r. cbn. rewrite app_nil_r. f_equal; [f_equal|f_equal]; try set_solver. rewrite psum_empty_set by set_solver. pp_solve. }
  apply infos_cons in Hl0 as (Hs & Hn & Hl0). assert (Hnum : numbers (s :: l0) = {[sector_number s]} ∪ numbers l0) by done.
  rewrite Hnum in *. cbn [fold_left]. rewrite recover_step; [|done|done|done|set_solver|set_solver].
  rewrite IH; [|done|set_solver|set_solver|set_solver]. cbn [rec_remaining rec_rescheduled rec_power]. f_equal.
  - f_equal; [set_solver| |].
    + rewrite filter_cons, <- app_assoc. f_equal. by case_decide.
    + rewrite (psum_set P (({[sector_number s]} ∪ numbers l0) ∩ (O ∪ E)) ({[sector_number s]} ∩ (O ∪ E) ∪ numbers l0 ∩ (O ∪ E))) by set_solver.
      rewrite (psum_union P ({[sector_number s]} ∩ (O ∪ E)) (numbers l0 ∩ (O ∪ E))) by set_solver. pp_solve.
  - f_equal; set_solver.
Qed.

Lemma numbers_app l1 l2 : numbers (l1 ++ l2) = numbers l1 ∪ numbers l2.
Proof. unfold numbers. by rewrite fmap_app, list_to_set_app_L. Qed.
Lemma infos_app l1 l2 : infos m l1 → infos m l2 → numbers l1 ## numbers l2 → infos m (l1 ++ l2).
Proof.
  intros [Hd1 Hi1] [Hd2 Hi2] Hd. split; [|by apply Forall_app]. rewrite fmap_app. apply NoDup_app. split_and!; try done.
  intros n Hn1 Hn2. by apply (Hd n); unfold numbers; apply elem_of_list_to_set.
Qed.
Lemma numbers_filter X l0 : numbers (filter (λ s, sector_number s ∈ X) l0) = numbers l0 ∩ X.
Proof. apply set_eq. intros n. rewrite elem_of_intersection, !elem_of_numbers. setoid_rewrite list_elem_of_filter. naive_solver. Qed.

Section recover.
Context (q : ExpirationQueue) (σ : Sched) (F : gset Z) (Hq : queue_rep q σ F) (Hσ : sched_ok m quant σ F).
Context (HNF : N ⊆ F) (HNσ : N ⊆ dom σ) (Hsz : Z.of_nat (base.size (dom σ)) ≤ ENTRY_SECTORS_MAX).
Context (Htarget : ∀ n, n ∈ N → target_ok m quant n).

Definition recovering_inv (V : list Z) (r : Recovered) : Prop :=
  (∀ n, n ∈ rec_remaining r ↔ n ∈ N ∧ ∀ e b, σ !! n = Some (e, b) → e ∉ V) ∧
  infos m (rec_rescheduled r) ∧ numbers (rec_rescheduled r) = N ∩ sectors_at σ V true ∧
  rec_power r = psum P (N ∩ (sectors_at σ V false ∪ sectors_at σ V true)).

Lemma recovering_step V e r : e ∉ V → recovering_inv V r →
  recovering_inv (V ++ [e])
    {| rec_remaining := rec_remaining r ∖ (N ∩ (at_epoch σ e false ∪ at_epoch σ e true));
       rec_rescheduled := rec_rescheduled r ++ filter (λ s, sector_number s ∈ at_epoch σ e true) l;
       rec_power := (rec_power r + psum P (N ∩ (at_epoch σ e false ∪ at_epoch σ e true)))%pw |}.
Proof.
  intros HV (Hrem & Hinf & Hnum & Hpow). split_and!; cbn [rec_remaining rec_rescheduled rec_power].
  - by apply remaining_step.
  - apply infos_app; [done|by apply infos_filter|]. rewrite numbers_filter, Hnum.
    pose proof (sectors_at_disj σ e V true true HV). set_solver.
  - rewrite numbers_app, numbers_filter, Hnum, sectors_at_snoc. set_solver.
  - rewrite Hpow, <- psum_union.
    + apply psum_set. rewrite !sectors_at_snoc. set_solver.
    + by apply sectors_at_snoc_disj.
Qed.

Lemma recover_iter :
  ∃ V r q', iter_while_mut (λ r _ es,
      on_time ← bounded_bits ENTRY_SECTORS_MAX (on_time_sectors es);
      early ← bounded_bits ENTRY_SECTORS_MAX (early_sectors es);
      let '(r, es) := fold_left (recover_one size on_time early) l (r, es) in
      _ ← es_validate_state es;
      mret (r, es, negb (bool_decide (rec_remaining r = ∅))))
    {| rec_remaining := N; rec_rescheduled := []; rec_power := pp_zero |} q = Ok (r, q') ∧
    queue_rep q' (del (N ∩ kind σ true) σ) (F ∖ N) ∧ recovering_inv V r ∧
    ((∀ n e b, σ !! n = Some (e, b) → e ∈ V) ∨ rec_remaining r = ∅).
Proof.
  apply (iter_ok _ (λ r, rec_remaining r = ∅) q σ _ F (F ∖ N) recovering_inv Hq Hσ).
  - intros n p. rewrite lookup_del. by case_decide.
  - intros V e r HV _ (Hrem & Hinf & Hnum & Hpow). set (O := at_epoch σ e false). set (E := at_epoch σ e true).
    assert (HOE : O ## E) by (intros n ?%elem_of_at ?%elem_of_at; congruence).
    cbn [on_time_sectors early_sectors Schedule.es_of].
    rewrite !bounded_bits_ok by (unfold O, E; pose proof (at_epoch_size σ e false); pose proof (at_epoch_size σ e true); lia).
    cbn [mbind result_bind]. rewrite recover_fold; [|done|done|done|done|set_solver]. rewrite (es_of_valid size m Hsize Hm).
    cbn [mbind result_bind mret result_ret]. eexists _, _. split_and!.
    + f_equal. f_equal. f_equal. f_equal; apply set_eq; intros n; rewrite ?elem_of_difference, elem_of_at, lookup_del; unfold O, E; rewrite ?elem_of_at.
      all: case_decide as Hx; rewrite elem_of_intersection, elem_of_kind in Hx; naive_solver.
    + by apply recovering_step.
    + intros Hg%negb_false_iff%bool_decide_eq_true. done.
  - intros V r (Hrem & _) Hemp e HV. assert (Hno : ∀ n b, n ∈ at_epoch σ e b → n ∉ N).
    { intros n b Hat%elem_of_at Hn. apply (not_elem_of_empty (C := gset Z) n). rewrite <- Hemp, Hrem. split; [done|]. intros e' b' Hl'. congruence. }
    assert (Hat : ∀ b, at_epoch (del (N ∩ kind σ true) σ) e b = at_epoch σ e b).
    { intros b. apply set_eq. intros n. rewrite !elem_of_at, lookup_del. case_decide as Hn; [|done]. apply elem_of_intersection in Hn as [Hn _].
      split; [done|]. intros Hl'%elem_of_at. by apply Hno in Hl'. }
    rewrite !Hat. symmetry. apply es_of_faults. intros n Hn%Hno. rewrite elem_of_difference. tauto.
  - split_and!; cbn [rec_remaining rec_rescheduled rec_power]; rewrite ?sectors_at_nil.
    + intros n. split; [|tauto]. intros Hn. split; [done|]. intros e b _. apply not_elem_of_nil.
    + split; constructor.
    + by rewrite intersection_empty_r_L.
    + rewrite psum_empty_set by set_solver. done.
Qed.

Lemma reschedule_recovered_ok :
  ∃ q', reschedule_recovered quant size q l = Ok (q', psum P N) ∧ queue_rep q' (activate m quant (N ∩ kind σ true) σ) (F ∖ N).
Proof.
  destruct recover_iter as (V & r & q1 & Hit & Hr1 & (Hrem & Hinf & Hnum & Hpow) & Hor). unfold reschedule_recovered. rewrite Hit. cbn [mbind result_bind].
  assert (Hemp : rec_remaining r = ∅).
  { destruct Hor as [Hall|]; [|done]. apply set_eq. intros n. rewrite Hrem. split; [|set_solver]. intros [Hn Hno].
    pose proof (HNσ n Hn) as [[e b] Hl']%elem_of_dom. by destruct (Hno e b Hl' (Hall n e b Hl')). }
  assert (HV : ∀ n e b, n ∈ N → σ !! n = Some (e, b) → e ∈ V).
  { intros n e b Hn Hl'. destruct (decide (e ∈ V)) as [|He]; [done|]. exfalso. apply (not_elem_of_empty (C := gset Z) n). rewrite <- Hemp, Hrem.
    split; [done|]. intros e' b' Hl2. congruence. }
  assert (Hkind : N ∩ sectors_at σ V true = N ∩ kind σ true).
  { apply set_eq. intros n. rewrite !elem_of_intersection, elem_of_sectors_at, elem_of_kind. naive_solver. }
  assert (Hall : N ∩ (sectors_at σ V false ∪ sectors_at σ V true) ≡ N).
  { intros n. rewrite elem_of_intersection, elem_of_union, !elem_of_sectors_at. split; [tauto|]. intros Hn. split; [done|].
    pose proof (HNσ n Hn) as [[e []] Hl']%elem_of_dom; [right|left]; eauto. }
  rewrite Hemp, bool_decide_true by done. cbn [negb throw_if mbind result_bind]. rewrite Hkind in Hnum.
  destruct (add_active_ok size m Hsize Hm quant (rec_rescheduled r) Hinf q1 _ (F ∖ N) Hu Hr1) as (q2 & -> & Hr2).
  - rewrite Hnum. set_solver.
  - rewrite Hnum. intros n Hn [p Hp]%elem_of_dom. rewrite lookup_del in Hp. by rewrite decide_True in Hp.
  - rewrite Hnum. intros n [Hn _]%elem_of_intersection. by apply Htarget.
  - cbn [mbind result_bind mret result_ret]. exists q2. rewrite Hpow, (psum_set P _ N Hall). split; [done|]. rewrite Hnum in Hr2.
    assert (Hact : activate m quant (N ∩ kind σ true) (del (N ∩ kind σ true) σ) = activate m quant (N ∩ kind σ true) σ).
    { apply map_eq. intros n. rewrite !lookup_activate, lookup_del. by repeat case_decide. }
    by rewrite Hact in Hr2.
Qed.
End recover.
End recovered.

End ops.
