(* ===== verification/ScheduleRemove.v ===== *)
(** * What the expiration queue means: removal

    [remove_sectors] of [expiration_queue.rs] takes sectors out of the schedule,
    and what is promised of the queue as a whole. *)

From S2P Require Import Prelude Address Runtime Types Vesting MinerFunds Sectors Expirations Schedule ScheduleOps.

Implicit Types (σ : gmap Z (Z * bool)) (X F : gset Z).

Section ops.
Context (size : Z) (m : Sectors) (Hsize : 0 < size) (Hm : table_wf m).
Context (quant : QuantSpec) (Hu : 0 < q_unit quant).
Notation P := (info_power size m).
Notation G := (info_pledge m).
Notation es_of := (es_of size m).
Notation entry := (entry size m).
Notation queue_rep := (queue_rep size m).

(** ** Removal *)

Section removed.
Context (F R : gset Z).

Lemma remove_step r O E O0 E0 X Y s :
  m !! sector_number s = Some s → O ## E → O0 ⊆ O → E0 ⊆ E → sector_number s ∈ F →
  (sector_number s ∈ O → sector_number s ∈ O0) → (sector_number s ∈ E → sector_number s ∈ E0) →
  (sector_number s ∈ O ∪ E → sector_number s ∉ X ∪ Y) → rm_set r = es_of F X Y →
  let n := sector_number s in
  remove_one size F R O E (r, es_of F O0 E0) s =
    ({| rm_remaining := rm_remaining r ∖ ({[n]} ∩ (O ∪ E)); rm_set := es_of F (X ∪ {[n]} ∩ O) (Y ∪ {[n]} ∩ E);
        rm_recovering := (rm_recovering r + psum P ({[n]} ∩ (O ∪ E) ∩ R))%pw |}, es_of F (O0 ∖ {[n]}) (E0 ∖ {[n]})).
Proof.
  intros Hs HOE HO0 HE0 HF HnO HnE HXY Hset n. fold n in HF, HnO, HnE, HXY.
  assert (Hp : power_for_sector size s = P n) by (unfold info_power, n; by rewrite Hs).
  assert (Hg : si_initial_pledge s = G n) by (unfold info_pledge, n; by rewrite Hs).
  unfold remove_one. fold n. rewrite Hp, Hg, Hset, (bool_decide_true (n ∈ F)) by done. clearbody n.
  cbn [on_time_sectors early_sectors on_time_pledge active_power faulty_power Schedule.es_of].
  assert (Hrec : ∀ pw, n ∈ O ∪ E → (if bool_decide (n ∈ R) then (pw + P n)%pw else pw) = (pw + psum P ({[n]} ∩ (O ∪ E) ∩ R))%pw).
  { intros pw Hin. case_bool_decide as HR.
    - rewrite (psum_set P ({[n]} ∩ (O ∪ E) ∩ R) {[n]}), psum_singleton by set_solver. done.
    - rewrite psum_empty_set by set_solver. pp_solve. }
  destruct (decide (n ∈ O)) as [HO|HO]; [rewrite (bool_decide_true (n ∈ O)) by done|rewrite (bool_decide_false (n ∈ O)) by done]; cbn [orb].
  - assert (HE : n ∉ E) by set_solver. f_equal; [f_equal|].
    + set_solver.
    + apply es_of_eq; [set_solver|set_solver| | |].
      * rewrite (ssum_set G (X ∪ {[n]} ∩ O) (X ∪ {[n]})), ssum_union, ssum_singleton by set_solver. lia.
      * rewrite (psum_set P ((X ∪ {[n]} ∩ O) ∖ F) (X ∖ F)) by set_solver. pp_solve.
      * rewrite <- (psum_singleton P n), <- psum_union by set_solver. apply psum_set. set_solver.
    + apply Hrec. set_solver.
    + apply es_of_eq; [done|set_solver| | |].
      * rewrite ssum_delete by auto. done.
      * rewrite (psum_set P ((O0 ∖ {[n]}) ∖ F) (O0 ∖ F)) by set_solver. pp_solve.
      * rewrite <- (psum_singleton P n), <- psum_difference by set_solver. apply psum_set. set_solver.
  - destruct (decide (n ∈ E)) as [HE|HE]; [rewrite (bool_decide_true (n ∈ E)) by done|rewrite (bool_decide_false (n ∈ E)) by done].
    + f_equal; [f_equal|].
      * set_solver.
      * apply es_of_eq; [set_solver|set_solver| | |].
        -- rewrite (ssum_set G (X ∪ {[n]} ∩ O) X) by set_solver. lia.
        -- rewrite (psum_set P ((X ∪ {[n]} ∩ O) ∖ F) (X ∖ F)) by set_solver. pp_solve.
        -- rewrite <- (psum_singleton P n), <- psum_union by set_solver. apply psum_set. set_solver.
      * apply Hrec. set_solver.
      * apply es_of_eq; [set_solver|done| | |].
        -- rewrite (ssum_set G (O0 ∖ {[n]}) O0) by set_solver. lia.
        -- rewrite (psum_set P ((O0 ∖ {[n]}) ∖ F) (O0 ∖ F)) by set_solver. pp_solve.
        -- rewrite <- (psum_singleton P n), <- psum_difference by set_solver. apply psum_set. set_solver.
    + destruct r as [rem rs rr]. cbn [rm_remaining rm_set rm_recovering] in *. f_equal; [f_equal|].
      * set_solver.
      * rewrite Hset. f_equal; set_solver.
      * rewrite psum_empty_set by set_solver. pp_solve.
      * f_equal; set_solver.
Qed.

Lemma remove_fold O E l0 r O0 E0 X Y :
  infos m l0 → O ## E → O0 ⊆ O → E0 ⊆ E → numbers l0 ⊆ F → numbers l0 ∩ O ⊆ O0 → numbers l0 ∩ E ⊆ E0 → numbers l0 ∩ (O ∪ E) ## X ∪ Y →
  rm_set r = es_of F X Y →
  fold_left (remove_one size F R O E) l0 (r, es_of F O0 E0) =
    ({| rm_remaining := rm_remaining r ∖ (numbers l0 ∩ (O ∪ E)); rm_set := es_of F (X ∪ numbers l0 ∩ O) (Y ∪ numbers l0 ∩ E);
        rm_recovering := (rm_recovering r + psum P (numbers l0 ∩ (O ∪ E) ∩ R))%pw |}, es_of F (O0 ∖ numbers l0) (E0 ∖ numbers l0)).
Proof.
  intros Hl0 HOE. revert r O0 E0 X Y Hl0. induction l0 as [|s l0 IH]; intros r O0 E0 X Y Hl0 HO0 HE0 HF HO HE HXY Hset.
  { cbn [fold_left]. change (numbers []) with (∅ : gset Z). destruct r as [rem rs rr]. cbn [rm_remaining rm_set rm_recovering] in *. rewrite Hset.
    f_equal; [f_equal|f_equal; set_solver]; [set_solver|f_equal; set_solver|]. rewrite psum_empty_set by set_solver. pp_solve. }
  apply infos_cons in Hl0 as (Hs & Hn & Hl0). assert (Hnum : numbers (s :: l0) = {[sector_number s]} ∪ numbers l0) by done.
  rewrite Hnum in *. cbn [fold_left]. rewrite (remove_step r O E O0 E0 X Y); [|done|done|done|done|set_solver..|done]. set (n := sector_number s) in *. clearbody n.
  rewrite (IH _ _ _ (X ∪ {[n]} ∩ O) (Y ∪ {[n]} ∩ E)); [|done|set_solver..|done]. cbn [rm_remaining rm_set rm_recovering]. f_equal; [f_equal|].
  - set_solver.
  - f_equal; set_solver.
  - rewrite (psum_set P (({[n]} ∪ numbers l0) ∩ (O ∪ E) ∩ R) ({[n]} ∩ (O ∪ E) ∩ R ∪ numbers l0 ∩ (O ∪ E) ∩ R)) by set_solver.
    rewrite (psum_union P ({[n]} ∩ (O ∪ E) ∩ R)) by set_solver. pp_solve.
  - f_equal; set_solver.
Qed.

Section remove.
Context (hash_order : gset Z → list Z) (Horder : ∀ X, hash_order X ≡ₚ elements X).
Context (q : ExpirationQueue) (σ : Sched) (Hq : queue_rep q σ F) (Hσ : sched_ok m quant σ F).
Context (l : list SectorOnChainInfo) (Hl : infos m l).
Notation N := (numbers l).
Context (HN : N ⊆ dom σ) (Hsz : Z.of_nat (base.size (dom σ)) ≤ ENTRY_SECTORS_MAX).
Context (HFsz : Z.of_nat (base.size F) ≤ ADDRESSED_SECTORS_MAX) (HRsz : Z.of_nat (base.size R) ≤ ADDRESSED_SECTORS_MAX).
Context (Htarget : ∀ n, n ∈ N → target_ok m quant n).
Notation lf := (filter (λ s, sector_number s ∈ F) l).

(** Among the faulty sectors, those of the epochs [V] are removed. *)
Definition removing_inv (V : list Z) (r : Removed) : Prop :=
  (∀ n, n ∈ rm_remaining r ↔ n ∈ N ∩ F ∧ ∀ e b, σ !! n = Some (e, b) → e ∉ V) ∧
  rm_set r = es_of F (N ∖ F ∪ N ∩ F ∩ sectors_at σ V false) (N ∩ F ∩ sectors_at σ V true) ∧
  rm_recovering r = psum P (N ∩ F ∩ (sectors_at σ V false ∪ sectors_at σ V true) ∩ R).

Lemma removing_step V e r : e ∉ V → removing_inv V r →
  let X := N ∩ F ∩ (at_epoch σ e false ∪ at_epoch σ e true) in
  removing_inv (V ++ [e])
    {| rm_remaining := rm_remaining r ∖ X;
       rm_set := es_of F (N ∖ F ∪ N ∩ F ∩ sectors_at σ V false ∪ N ∩ F ∩ at_epoch σ e false) (N ∩ F ∩ sectors_at σ V true ∪ N ∩ F ∩ at_epoch σ e true);
       rm_recovering := (rm_recovering r + psum P (X ∩ R))%pw |}.
Proof.
  intros HV (Hrem & Hset & Hrec) X. split_and!; cbn [rm_remaining rm_set rm_recovering].
  - by apply remaining_step.
  - rewrite !sectors_at_snoc. f_equal; set_solver.
  - unfold X. rewrite Hrec, <- psum_union.
    + apply psum_set. rewrite !sectors_at_snoc. set_solver.
    + pose proof (sectors_at_snoc_disj σ V e (N ∩ F) HV). set_solver.
Qed.

(** The healthy sectors are removed first. *)
Lemma healthy_gone_at e b : N ∩ F ∩ at_epoch (del (N ∖ F) σ) e b = N ∩ F ∩ at_epoch σ e b.
Proof. apply set_eq. intros n. rewrite !elem_of_intersection, !elem_of_at, lookup_del. case_decide; set_solver. Qed.
Lemma healthy_gone e :
  N ∩ F ∩ (at_epoch (del (N ∖ F) σ) e false ∪ at_epoch (del (N ∖ F) σ) e true) = N ∩ F ∩ (at_epoch σ e false ∪ at_epoch σ e true).
Proof. by rewrite !(intersection_union_l_L (N ∩ F)), !healthy_gone_at. Qed.
Lemma small_entry e b : Z.of_nat (base.size (at_epoch (del (N ∖ F) σ) e b)) ≤ ENTRY_SECTORS_MAX.
Proof.
  pose proof (at_epoch_size σ e b). enough (base.size (at_epoch (del (N ∖ F) σ) e b) ≤ base.size (at_epoch σ e b))%nat by lia.
  apply subseteq_size. intros n. rewrite !elem_of_at, lookup_del. by case_decide.
Qed.

Lemma remove_iter q1 r0 :
  queue_rep q1 (del (N ∖ F) σ) F → removing_inv [] r0 →
  ∃ V r q', iter_while_mut (λ r _ es,
      on_time ← bounded_bits ENTRY_SECTORS_MAX (on_time_sectors es);
      early ← bounded_bits ENTRY_SECTORS_MAX (early_sectors es);
      let '(r, es) := fold_left (remove_one size F R on_time early) lf (r, es) in
      _ ← es_validate_state es;
      mret (r, es, negb (bool_decide (rm_remaining r = ∅)))) r0 q1 = Ok (r, q') ∧
    queue_rep q' (del N σ) F ∧ removing_inv V r ∧
    ((∀ n e b, del (N ∖ F) σ !! n = Some (e, b) → e ∈ V) ∨ rm_remaining r = ∅).
Proof.
  intros Hq1 Hr0. assert (Hlf : numbers lf = N ∩ F) by apply numbers_filter.
  assert (Hσ1 : sched_ok m quant (del (N ∖ F) σ) F).
  { intros n e b. rewrite lookup_del. case_decide; [done|]. apply Hσ. }
  apply (iter_ok size m Hsize Hm quant Hu _ (λ r, rm_remaining r = ∅) q1 (del (N ∖ F) σ) _ F F removing_inv Hq1 Hσ1).
  - intros n p. rewrite !lookup_del. repeat case_decide; set_solver.
  - intros V e r HV _ HI. pose proof HI as (_ & Hset & _). pose proof (removing_step V e r HV HI) as HI'. cbn zeta in HI'.
    rewrite <- (healthy_gone e) in HI'. rewrite <- !(healthy_gone_at e) in HI'.
    set (O := at_epoch (del (N ∖ F) σ) e false) in *. set (E := at_epoch (del (N ∖ F) σ) e true) in *.
    assert (HOE : O ## E) by (intros n ?%elem_of_at ?%elem_of_at; congruence).
    cbn [on_time_sectors early_sectors Schedule.es_of]. rewrite !bounded_bits_ok by (unfold O, E; apply small_entry).
    cbn [mbind result_bind]. rewrite (remove_fold O E lf r O E (N ∖ F ∪ N ∩ F ∩ sectors_at σ V false) (N ∩ F ∩ sectors_at σ V true)); [|by apply infos_filter|done|done|done|set_solver|set_solver|set_solver| |exact Hset].
    + rewrite (es_of_valid size m Hsize Hm), Hlf. cbn [mbind result_bind mret result_ret]. eexists _, _. split_and!; [|exact HI'|].
      * f_equal. f_equal. f_equal. f_equal; apply set_eq; intros n; rewrite elem_of_difference; unfold O, E; rewrite !elem_of_at, !lookup_del;
          repeat case_decide; set_solver.
      * intros Hg%negb_false_iff%bool_decide_eq_true. done.
    + rewrite Hlf. intros n Hn. unfold O, E in Hn. rewrite healthy_gone, elem_of_intersection, elem_of_union, !elem_of_at in Hn.
      destruct Hn as [[_ HnF]%elem_of_intersection Hat]. rewrite !elem_of_union, !elem_of_intersection, elem_of_difference, !elem_of_sectors_at.
      intros [[[_ ?]|[_ (e' & He' & ?)]]|[_ (e' & He' & ?)]]; [done|..]; destruct Hat; congruence.
  - intros V r (Hrem & _) Hemp e HV. assert (Hat : ∀ b, at_epoch (del N σ) e b = at_epoch (del (N ∖ F) σ) e b); [|by rewrite !Hat].
    intros b. apply set_eq. intros n. rewrite !elem_of_at, !lookup_del. destruct (decide (n ∈ N)) as [Hn|Hn]; [|by rewrite decide_False by set_solver].
    case_decide as HnF; [done|]. split; [done|]. intros Hl'. exfalso. apply (not_elem_of_empty (C := gset Z) n). rewrite <- Hemp, Hrem.
    split; [set_solver|]. intros e' b' Hl2. congruence.
  - done.
Qed.

Lemma removing_init :
  removing_inv [] {| rm_remaining := N ∖ (N ∖ F);
    rm_set := {| on_time_sectors := N ∖ F; early_sectors := ∅; on_time_pledge := ssum G (N ∖ F);
                 active_power := psum P (N ∖ F); faulty_power := pp_zero |}; rm_recovering := pp_zero |}.
Proof.
  split_and!; cbn [rm_remaining rm_set rm_recovering]; rewrite ?sectors_at_nil.
  - intros n. rewrite !elem_of_difference, elem_of_intersection. split; [|destruct (decide (n ∈ F)); tauto].
    intros [Hn HF]. split; [destruct (decide (n ∈ F)); tauto|]. intros e b _. apply not_elem_of_nil.
  - rewrite intersection_empty_r_L, union_empty_r_L. apply es_of_eq; try done; [apply psum_set; set_solver|].
    symmetry. apply psum_empty_set. set_solver.
  - symmetry. apply psum_empty_set. set_solver.
Qed.

Lemma remove_sectors_ok : R ⊆ F →
  ∃ q', remove_sectors quant size hash_order q l F R =
      Ok (q', (es_of F (N ∩ kind σ false) (N ∩ kind σ true), psum P (N ∩ R))) ∧ queue_rep q' (del N σ) F.
Proof.
  intros HRF. set (nf := filter (λ s, sector_number s ∉ F) l). assert (Hnf : numbers nf = N ∖ F).
  { apply set_eq. intros n. unfold nf. rewrite elem_of_difference, !elem_of_numbers. setoid_rewrite list_elem_of_filter. naive_solver. }
  assert (Hinf : infos m nf) by by apply infos_filter.
  unfold remove_sectors. rewrite !bounded_bits_ok by done. cbn [mbind result_bind]. fold nf. rewrite Hnf.
  destruct (remove_active_ok size m Hsize Hm quant hash_order Horder q σ F Hq Hσ nf Hinf) as (q1 & -> & Hr1); rewrite ?Hnf.
  { intros n [Hn HF]%elem_of_difference. pose proof (HN n Hn) as [[e b] He]%elem_of_dom. exists e. destruct b; [|done].
    by apply Hσ in He as (_ & _ & ?%(λ H, H eq_refl)). }
  { intros n [Hn _]%elem_of_difference. by apply Htarget. }
  { set_solver. }
  rewrite Hnf in *. cbn [mbind result_bind].
  destruct (remove_iter q1 _ Hr1 removing_init) as (V & r & q2 & -> & Hr2 & (Hrem & Hset & Hrec) & Hor). cbn [mbind result_bind].
  assert (HV : ∀ n e b, n ∈ N ∩ F → σ !! n = Some (e, b) → e ∈ V).
  { intros n e b Hn He. destruct Hor as [Hall|Hemp].
    - apply (Hall n e b). rewrite lookup_del, decide_False by set_solver. done.
    - destruct (decide (e ∈ V)) as [|HeV]; [done|]. exfalso. apply (not_elem_of_empty (C := gset Z) n). rewrite <- Hemp, Hrem.
      split; [done|]. intros e' b' He'. congruence. }
  assert (Hemp : rm_remaining r = ∅).
  { apply set_eq. intros n. rewrite Hrem. split; [|set_solver]. intros [Hn Hno].
    assert (n ∈ dom σ) as [[e b] He]%elem_of_dom by (apply HN; set_solver). by destruct (Hno e b He (HV n e b Hn He)). }
  rewrite Hemp, bool_decide_true by done. cbn [negb throw_if mbind result_bind mret result_ret]. exists q2. split; [|done].
  do 3 f_equal; [rewrite Hset; f_equal|rewrite Hrec; apply psum_set].
  - apply set_eq. intros n. rewrite elem_of_union, elem_of_difference, !elem_of_intersection, elem_of_sectors_at, elem_of_kind. split.
    + intros [[Hn HF]|[[Hn HF] (e & He & _)]]; (split; [done|]); [|by exists e]. pose proof (HN n Hn) as [[e b] He]%elem_of_dom. exists e.
      destruct b; [|done]. by apply Hσ in He as (_ & _ & ?%(λ H, H eq_refl)).
    + intros [Hn [e He]]. destruct (decide (n ∈ F)) as [HF|HF]; [right|by left]. split; [done|]. exists e. split; [done|]. eapply HV; [|exact He]. set_solver.
  - apply set_eq. intros n. rewrite !elem_of_intersection, elem_of_sectors_at, elem_of_kind. split; [naive_solver|]. intros [Hn [e He]].
    assert (HF : n ∈ F) by (pose proof (Hσ n e true He) as (_ & _ & HF); by apply HF). split; [done|]. exists e. split; [done|]. eapply HV; [|exact He]. set_solver.
  - intros n. rewrite !elem_of_intersection, elem_of_union, !elem_of_sectors_at. split; [tauto|]. intros [Hn HR]. specialize (HRF n HR). split; [|done].
    split; [done|]. pose proof (HN n Hn) as [[e []] He]%elem_of_dom; [right|left]; exists e; (split; [done|]); (eapply HV; [|exact He]); set_solver.
Qed.
End remove.
End removed.
End ops.

(** ** Replacement *)

(** Another table of sectors, which agrees on the scheduled ones. *)
Lemma rep_table size m m' q σ F :
  (∀ n, n ∈ dom σ → m' !! n = m !! n) → queue_rep size m q σ F → queue_rep size m' q σ F.
Proof.
  intros Hm Hq e. rewrite Hq.
  assert (Hp : ∀ X, X ⊆ at_epoch σ e false ∪ at_epoch σ e true → psum (info_power size m) X = psum (info_power size m') X ∧ ssum (info_pledge m) X = ssum (info_pledge m') X).
  { intros X HX. assert (Hx : ∀ n, n ∈ X → m' !! n = m !! n).
    { intros n [Hn|Hn]%HX%elem_of_union; apply elem_of_at in Hn; apply Hm, elem_of_dom; by eexists. }
    split; [apply psum_ext|apply ssum_ext]; intros n Hn; unfold info_power, info_pledge; by rewrite Hx. }
  unfold entry. case_decide; [done|]. unfold es_of. f_equal. f_equal; apply Hp; set_solver.
Qed.

Section replace.
Context (size : Z) (m m' : Sectors) (Hsize : 0 < size) (Hm : table_wf m) (Hm' : table_wf m').
Context (quant : QuantSpec) (Hu : 0 < q_unit quant).
Context (hash_order : gset Z → list Z) (Horder : ∀ X, hash_order X ≡ₚ elements X).
Context (q : ExpirationQueue) (σ : Sched) (F : gset Z) (Hq : queue_rep size m q σ F) (Hσ : sched_ok m quant σ F).
Context (old new : list SectorOnChainInfo) (Hold : infos m old) (Hnew : infos m' new).

Lemma replace_sectors_ok :
  (∀ n, n ∈ numbers old → n ∈ dom σ ∖ F ∧ target_ok m quant n) →
  (∀ n, n ∈ numbers new → n ∉ F ∪ dom σ ∖ numbers old ∧ target_ok m' quant n) →
  (∀ n, n ∈ dom σ ∖ numbers old → m' !! n = m !! n) →
  ∃ q', replace_sectors quant size hash_order q old new =
      Ok (q', (numbers old, numbers new, (psum (info_power size m') (numbers new) - psum (info_power size m) (numbers old))%pw,
               ssum (info_pledge m') (numbers new) - ssum (info_pledge m) (numbers old))) ∧
    queue_rep size m' q' (activate m' quant (numbers new) (del (numbers old) σ)) F.
Proof.
  intros Ho Hn Hagree. unfold replace_sectors.
  destruct (remove_active_ok size m Hsize Hm quant hash_order Horder q σ F Hq Hσ old Hold) as (q1 & -> & Hr1).
  { intros n [[[[e b] He]%elem_of_dom HF]%elem_of_difference _]%Ho. exists e. destruct b; [|done]. by apply Hσ in He as (_ & _ & ?%(λ H, H eq_refl)). }
  { by intros n [_ ?]%Ho. }
  { by intros n [[_ ?]%elem_of_difference _]%Ho. }
  cbn [mbind result_bind].
  assert (Hd : ∀ n, n ∈ dom (del (numbers old) σ) ↔ n ∈ dom σ ∖ numbers old).
  { intros n. rewrite elem_of_difference, !elem_of_dom, lookup_del. case_decide; [|tauto]. split; [by intros []|tauto]. }
  apply (rep_table size m m') in Hr1; [|by intros n ?%Hd%Hagree].
  destruct (add_active_ok size m' Hsize Hm' quant new Hnew q1 _ F Hu Hr1) as (q2 & -> & Hr2).
  - intros n [? _]%Hn. set_solver.
  - intros n [Hx _]%Hn Hd'%Hd. set_solver.
  - by intros n [_ ?]%Hn.
  - by exists q2.
Qed.
End replace.
