(* ===== verification/Partition.v ===== *)
(** * Partitions

    [partition_state.rs] and [termination.rs] of
    [src/vm/actor/src/builtin/miner/].  A partition groups the sectors that are
    proven together; it remembers the power of its live, unproven, faulty and
    recovering sectors, and when each sector expires. *)

From S2P Require Import Prelude Address Runtime Types Vesting MinerFunds Sectors Expirations Schedule ScheduleOps ScheduleRemove.

(** ** [termination.rs] *)

Record TerminationResult := { tr_sectors : gmap Z (gset Z); partitions_processed : Z; sectors_processed : Z }.

Definition tr_new : TerminationResult := {| tr_sectors := ∅; partitions_processed := 0; sectors_processed := 0 |}.

(** [AddAssign] *)
Definition tr_add (a b : TerminationResult) : TerminationResult :=
  {| tr_sectors := union_with (λ x y, Some (x ∪ y)) (tr_sectors a) (tr_sectors b);
     partitions_processed := partitions_processed a + partitions_processed b;
     sectors_processed := sectors_processed a + sectors_processed b |}.

Definition below_limit (t : TerminationResult) (partition_limit sector_limit : Z) : bool :=
  (partitions_processed t <? partition_limit) && (sectors_processed t <? sector_limit).
Definition tr_is_empty (t : TerminationResult) : bool := sectors_processed t =? 0.
Definition tr_iter (t : TerminationResult) : list (Z * gset Z) := sort_by fst (map_to_list (tr_sectors t)).

(** ** The state *)

Record Partition := {
  pt_sectors : gset Z; pt_unproven : gset Z; pt_faults : gset Z; pt_recoveries : gset Z; pt_terminated : gset Z;
  expirations_epochs : ExpirationQueue; early_terminated : BitFieldQueue;
  live_power : PowerPair; unproven_power : PowerPair; pt_faulty_power : PowerPair; recovering_power : PowerPair }.

Definition partition_new : Partition :=
  {| pt_sectors := ∅; pt_unproven := ∅; pt_faults := ∅; pt_recoveries := ∅; pt_terminated := ∅;
     expirations_epochs := ∅; early_terminated := ∅;
     live_power := pp_zero; unproven_power := pp_zero; pt_faulty_power := pp_zero; recovering_power := pp_zero |}.

Definition live_sectors (p : Partition) : gset Z := pt_sectors p ∖ pt_terminated p.
Definition active_sectors (p : Partition) : gset Z := (live_sectors p ∖ pt_faults p) ∖ pt_unproven p.
Definition pt_active_power (p : Partition) : PowerPair := (live_power p - pt_faulty_power p) - unproven_power p.

(** ** Checks *)

Definition is_negative (p : PowerPair) : bool := (raw p <? 0) || (qa p <? 0).

Definition validate_power_state (p : Partition) : result BoxErr unit :=
  _ ← throw_if (is_negative (live_power p)) Plain;
  _ ← throw_if (is_negative (unproven_power p)) Plain;
  _ ← throw_if (is_negative (pt_faulty_power p)) Plain;
  _ ← throw_if (is_negative (recovering_power p)) Plain;
  _ ← throw_if (raw (live_power p) <? raw (unproven_power p)) Plain;
  _ ← throw_if (raw (live_power p) <? raw (pt_faulty_power p)) Plain;
  throw_if ((raw (live_power p) <? raw (recovering_power p)) || (raw (pt_faulty_power p) <? raw (recovering_power p))) Plain.

Definition contains_any (X Y : gset Z) : bool := negb (bool_decide (X ∩ Y = ∅)).
Definition contains_all (X Y : gset Z) : bool := bool_decide (Y ⊆ X).

Definition validate_bf_state (p : Partition) : result BoxErr unit :=
  let merge := pt_unproven p ∪ pt_faults p in
  _ ← throw_if (contains_any (pt_terminated p) merge) Plain;
  let merge := merge ∪ pt_terminated p in
  _ ← throw_if (negb (contains_all (pt_sectors p) merge)) Plain;
  throw_if (negb (contains_all (pt_faults p) (pt_recoveries p))) Plain.

Definition validate_state (p : Partition) : result BoxErr unit :=
  _ ← validate_power_state p; validate_bf_state p.

(** A bit field of a message: [None] when its bytes are not a valid encoding. *)
Notation UnvalidatedBitField := (option (gset Z)).

Definition validate_partition_contains_sectors (p : Partition) (sectors : UnvalidatedBitField) : result BoxErr unit :=
  X ← ok_or sectors Plain;
  throw_if (negb (contains_all (pt_sectors p) X)) Plain.

(** [map_err] to an actor error, whatever the error was. *)
Definition actor_err {A} (code : ExitCode) (r : result BoxErr A) : result BoxErr A :=
  match r with Err _ => Err (Actor code) | Ok a => Ok a end.

(** ** Operations *)

Section partition.
Context (sector_size : Z) (quant : QuantSpec) (hash_order : gset Z → list Z).

Definition add_sectors (p : Partition) (proven : bool) (l : list SectorOnChainInfo) : result BoxErr (Partition * PowerPair) :=
  '(q, r) ← add_active_sectors quant sector_size (expirations_epochs p) l;
  let '(sector_numbers, power, _) := (r : gset Z * PowerPair * Z) in
  _ ← throw_if (contains_any (pt_sectors p) sector_numbers) Plain;
  let p :=
    {| pt_sectors := pt_sectors p ∪ sector_numbers;
       pt_unproven := if proven then pt_unproven p else pt_unproven p ∪ sector_numbers;
       pt_faults := pt_faults p; pt_recoveries := pt_recoveries p; pt_terminated := pt_terminated p;
       expirations_epochs := q; early_terminated := early_terminated p;
       live_power := live_power p + power;
       unproven_power := if proven then unproven_power p else unproven_power p + power;
       pt_faulty_power := pt_faulty_power p; recovering_power := recovering_power p |} in
  _ ← validate_state p;
  mret (p, power).

Definition add_faults (p : Partition) (sector_numbers : gset Z) (l : list SectorOnChainInfo) (fault_expiration : Z)
    : result BoxErr (Partition * (PowerPair * PowerPair)) :=
  '(q, new_faulty_power) ← reschedule_as_faults quant sector_size hash_order (expirations_epochs p) fault_expiration l;
  let unproven := sector_numbers ∩ pt_unproven p in
  unproven_infos ← select_sectors l unproven;
  let lost_unproven_power := match unproven_infos with [] => pp_zero | _ => power_for_sectors sector_size unproven_infos end in
  let p :=
    {| pt_sectors := pt_sectors p; pt_unproven := pt_unproven p ∖ unproven; pt_faults := pt_faults p ∪ sector_numbers;
       pt_recoveries := pt_recoveries p; pt_terminated := pt_terminated p;
       expirations_epochs := q; early_terminated := early_terminated p;
       live_power := live_power p; unproven_power := unproven_power p - lost_unproven_power;
       pt_faulty_power := pt_faulty_power p + new_faulty_power; recovering_power := recovering_power p |} in
  _ ← validate_state p;
  mret (p, (pp_neg new_faulty_power + lost_unproven_power, new_faulty_power)%pw).

Definition record_faults (p : Partition) (sectors : Sectors) (sector_numbers : UnvalidatedBitField) (fault_expiration_epoch : Z)
    : result BoxErr (Partition * (gset Z * PowerPair * PowerPair)) :=
  _ ← actor_err ErrIllegalArgument (validate_partition_contains_sectors p sector_numbers);
  X ← ok_or sector_numbers Plain;
  let retracted_recoveries := pt_recoveries p ∩ X in
  let new_faults := ((X ∖ retracted_recoveries) ∖ pt_terminated p) ∖ pt_faults p in
  new_fault_sectors ← load_sector sectors new_faults;
  '(p, d) ← match new_fault_sectors with
    | [] => mret (p, (pp_zero, pp_zero))
    | _ => add_faults p new_faults new_fault_sectors fault_expiration_epoch
    end;
  _ ← validate_state p;
  mret (p, (new_faults, d.1, d.2)).

Definition recover_faults (p : Partition) (sectors : Sectors) : result BoxErr (Partition * PowerPair) :=
  recovered_sectors ← load_sector sectors (pt_recoveries p);
  '(q, power) ← reschedule_recovered quant sector_size (expirations_epochs p) recovered_sectors;
  let p :=
    {| pt_sectors := pt_sectors p; pt_unproven := pt_unproven p; pt_faults := pt_faults p ∖ pt_recoveries p; pt_recoveries := ∅;
       pt_terminated := pt_terminated p; expirations_epochs := q; early_terminated := early_terminated p;
       live_power := live_power p; unproven_power := unproven_power p;
       pt_faulty_power := pt_faulty_power p - power; recovering_power := recovering_power p - power |} in
  _ ← validate_state p;
  mret (p, power).

Definition activate_unproven (p : Partition) : Partition * PowerPair :=
  ({| pt_sectors := pt_sectors p; pt_unproven := ∅; pt_faults := pt_faults p; pt_recoveries := pt_recoveries p;
      pt_terminated := pt_terminated p; expirations_epochs := expirations_epochs p; early_terminated := early_terminated p;
      live_power := live_power p; unproven_power := pp_zero; pt_faulty_power := pt_faulty_power p;
      recovering_power := recovering_power p |}, unproven_power p).

(** Recovering sectors, and their power, are set. *)
Definition with_recoveries (p : Partition) (X : gset Z) (power : PowerPair) : Partition :=
  {| pt_sectors := pt_sectors p; pt_unproven := pt_unproven p; pt_faults := pt_faults p; pt_recoveries := X;
     pt_terminated := pt_terminated p; expirations_epochs := expirations_epochs p; early_terminated := early_terminated p;
     live_power := live_power p; unproven_power := unproven_power p; pt_faulty_power := pt_faulty_power p;
     recovering_power := power |}.

Definition declare_faults_recovered (p : Partition) (sectors : Sectors) (sector_numbers : UnvalidatedBitField) : result BoxErr Partition :=
  _ ← actor_err ErrIllegalArgument (validate_partition_contains_sectors p sector_numbers);
  X ← ok_or sector_numbers Plain;
  let recoveries := (X ∩ pt_faults p) ∖ pt_recoveries p in
  recovery_sectors ← load_sector sectors recoveries;
  let p := with_recoveries p (pt_recoveries p ∪ recoveries) (recovering_power p + power_for_sectors sector_size recovery_sectors) in
  _ ← validate_state p;
  mret p.

Definition remove_recoveries (p : Partition) (sector_numbers : gset Z) (power : PowerPair) : Partition :=
  if bool_decide (sector_numbers = ∅) then p
  else with_recoveries p (pt_recoveries p ∖ sector_numbers) (recovering_power p - power).

Definition with_expirations (p : Partition) (q : ExpirationQueue) : Partition :=
  {| pt_sectors := pt_sectors p; pt_unproven := pt_unproven p; pt_faults := pt_faults p; pt_recoveries := pt_recoveries p;
     pt_terminated := pt_terminated p; expirations_epochs := q; early_terminated := early_terminated p;
     live_power := live_power p; unproven_power := unproven_power p; pt_faulty_power := pt_faulty_power p;
     recovering_power := recovering_power p |}.

Definition pt_reschedule_expirations (p : Partition) (sectors : Sectors) (new_expiration : Z) (sector_numbers : UnvalidatedBitField)
    : result BoxErr (Partition * list SectorOnChainInfo) :=
  X ← ok_or sector_numbers Plain;
  let present := X ∩ pt_sectors p in
  let live := present ∖ pt_terminated p in
  let active := live ∖ pt_faults p in
  sector_infos ← load_sector sectors active;
  q ← reschedule_expirations quant sector_size hash_order (expirations_epochs p) new_expiration sector_infos;
  let p := with_expirations p q in
  _ ← validate_state p;
  mret (p, sector_infos).

Definition pt_replace_sectors (p : Partition) (old_sectors new_sectors : list SectorOnChainInfo)
    : result BoxErr (Partition * (PowerPair * Z)) :=
  '(q, r) ← replace_sectors quant sector_size hash_order (expirations_epochs p) old_sectors new_sectors;
  let '(old_sector_numbers, new_sector_numbers, power_delta, pledge_delta) := (r : gset Z * gset Z * PowerPair * Z) in
  _ ← throw_if (negb (contains_all (active_sectors p) old_sector_numbers)) Plain;
  let p :=
    {| pt_sectors := pt_sectors p ∖ old_sector_numbers ∪ new_sector_numbers; pt_unproven := pt_unproven p; pt_faults := pt_faults p;
       pt_recoveries := pt_recoveries p; pt_terminated := pt_terminated p;
       expirations_epochs := q; early_terminated := early_terminated p;
       live_power := live_power p + power_delta; unproven_power := unproven_power p; pt_faulty_power := pt_faulty_power p;
       recovering_power := recovering_power p |} in
  _ ← validate_state p;
  mret (p, (power_delta, pledge_delta)).

(** [record_early_termination]: only the queue of early terminations changes. *)
Definition record_early_termination (q : BitFieldQueue) (epoch : Z) (sectors : gset Z) : result BoxErr BitFieldQueue :=
  bfq_add_to_queue NO_QUANTIZATION q epoch sectors.

Definition terminate_sectors (p : Partition) (sectors : Sectors) (epoch : Z) (sector_numbers : UnvalidatedBitField)
    : result BoxErr (Partition * ExpirationSet) :=
  X ← ok_or sector_numbers (Actor ErrIllegalArgument);
  _ ← throw_if (negb (contains_all (live_sectors p) X)) (Actor ErrIllegalArgument);
  sector_infos ← load_sector sectors X;
  '(q, r) ← remove_sectors quant sector_size hash_order (expirations_epochs p) sector_infos (pt_faults p) (pt_recoveries p);
  let '(removed, removed_recovering) := (r : ExpirationSet * PowerPair) in
  let removed_sectors := on_time_sectors removed ∪ early_sectors removed in
  et ← record_early_termination (early_terminated p) epoch removed_sectors;
  let unproven_nos := removed_sectors ∩ pt_unproven p in
  unproven_infos ← select_sectors sector_infos unproven_nos;
  let removed_unproven_power := power_for_sectors sector_size unproven_infos in
  let p :=
    {| pt_sectors := pt_sectors p; pt_unproven := pt_unproven p ∖ unproven_nos; pt_faults := pt_faults p ∖ removed_sectors;
       pt_recoveries := pt_recoveries p ∖ removed_sectors; pt_terminated := pt_terminated p ∪ removed_sectors;
       expirations_epochs := q; early_terminated := et;
       live_power := (live_power p - active_power removed) - faulty_power removed;
       unproven_power := unproven_power p - removed_unproven_power;
       pt_faulty_power := pt_faulty_power p - faulty_power removed;
       recovering_power := recovering_power p - removed_recovering |} in
  let removed :=
    {| on_time_sectors := on_time_sectors removed; early_sectors := early_sectors removed; on_time_pledge := on_time_pledge removed;
       active_power := active_power removed - removed_unproven_power; faulty_power := faulty_power removed |} in
  _ ← validate_state p;
  mret (p, removed).

Definition pop_expired_sectors (p : Partition) (until : Z) : result BoxErr (Partition * ExpirationSet) :=
  _ ← throw_if (negb (bool_decide (pt_unproven p = ∅))) Plain;
  '(q, popped) ← pop_until (expirations_epochs p) until;
  let expired_sectors := on_time_sectors popped ∪ early_sectors popped in
  _ ← throw_if (negb (bool_decide (pt_recoveries p = ∅))) Plain;
  _ ← throw_if (negb (pp_is_zero (recovering_power p))) Plain;
  _ ← throw_if (contains_any (pt_terminated p) expired_sectors) Plain;
  et ← record_early_termination (early_terminated p) until (early_sectors popped);
  let p :=
    {| pt_sectors := pt_sectors p; pt_unproven := pt_unproven p; pt_faults := pt_faults p ∖ expired_sectors;
       pt_recoveries := pt_recoveries p; pt_terminated := pt_terminated p ∪ expired_sectors;
       expirations_epochs := q; early_terminated := et;
       live_power := live_power p - (active_power popped + faulty_power popped);
       unproven_power := unproven_power p; pt_faulty_power := pt_faulty_power p - faulty_power popped;
       recovering_power := recovering_power p |} in
  _ ← validate_state p;
  mret (p, popped).

Definition record_missed_post (p : Partition) (fault_expiration : Z) : result BoxErr (Partition * (PowerPair * PowerPair * PowerPair)) :=
  q ← reschedule_all_as_faults quant (expirations_epochs p) fault_expiration;
  let new_faulty_power := (live_power p - pt_faulty_power p)%pw in
  let penalized_power := (recovering_power p + new_faulty_power)%pw in
  let power_delta := (unproven_power p - new_faulty_power)%pw in
  let p :=
    {| pt_sectors := pt_sectors p; pt_unproven := ∅; pt_faults := live_sectors p; pt_recoveries := ∅; pt_terminated := pt_terminated p;
       expirations_epochs := q; early_terminated := early_terminated p;
       live_power := live_power p; unproven_power := pp_zero; pt_faulty_power := live_power p; recovering_power := pp_zero |} in
  _ ← validate_state p;
  mret (p, (power_delta, penalized_power, new_faulty_power)).

(** The first [n] sectors of a bit field. *)
Definition slice_first (X : gset Z) (n : Z) : gset Z := bits_of (take (Z.to_nat n) (bits X)).

(** The state of the loop of [pop_early_terminations]. *)
Record EarlyPop := { ep_processed : list Z; ep_remaining : option (gset Z * Z); ep_result : TerminationResult }.

Definition pop_early_step (max_sectors : Z) (s : EarlyPop) (i : Z) (sectors : gset Z) : result BoxErr (EarlyPop * bool) :=
  let epoch := as_i64 i in
  let count := bits_len sectors in
  let r := ep_result s in
  let limit := max_sectors - sectors_processed r in
  let '(to_process, processed, remaining, n) :=
    if limit <? count then
      let to_process := slice_first sectors limit in
      (to_process, ep_processed s, Some (sectors ∖ to_process, epoch), sectors_processed r + limit)
    else (sectors, ep_processed s ++ [i], ep_remaining s, sectors_processed r + count) in
  mret ({| ep_processed := processed; ep_remaining := remaining;
           ep_result := {| tr_sectors := <[epoch := to_process]> (tr_sectors r); partitions_processed := partitions_processed r;
                           sectors_processed := n |} |}, n <? max_sectors).

Definition pop_early_terminations (p : Partition) (max_sectors : Z) : result BoxErr (Partition * (TerminationResult * bool)) :=
  s ← for_each_while (pop_early_step max_sectors)
    {| ep_processed := []; ep_remaining := None; ep_result := {| tr_sectors := ∅; partitions_processed := 1; sectors_processed := 0 |} |}
    (amt_entries (early_terminated p));
  q ← amt_batch_delete (early_terminated p) (ep_processed s);
  q ← match ep_remaining s with
    | Some (remaining_sectors, remaining_epoch) => amt_set q (as_usize remaining_epoch) remaining_sectors
    | None => mret q
    end;
  let p :=
    {| pt_sectors := pt_sectors p; pt_unproven := pt_unproven p; pt_faults := pt_faults p; pt_recoveries := pt_recoveries p;
       pt_terminated := pt_terminated p; expirations_epochs := expirations_epochs p; early_terminated := q;
       live_power := live_power p; unproven_power := unproven_power p; pt_faulty_power := pt_faulty_power p;
       recovering_power := recovering_power p |} in
  _ ← validate_state p;
  mret (p, (ep_result s, negb (bool_decide (q = ∅)))).

Definition record_skipped_faults (p : Partition) (sectors : Sectors) (fault_expiration : Z) (skipped : UnvalidatedBitField)
    : result BoxErr (Partition * (PowerPair * PowerPair * PowerPair * bool)) :=
  X ← ok_or skipped (Actor ErrIllegalArgument);
  if bool_decide (X = ∅) then mret (p, (pp_zero, pp_zero, pp_zero, false))
  else
    _ ← throw_if (negb (contains_all (pt_sectors p) X)) (Actor ErrIllegalArgument);
    let retracted_recoveries := pt_recoveries p ∩ X in
    retracted_recovery_sectors ← load_sector sectors retracted_recoveries;
    let retracted_recovery_power := power_for_sectors sector_size retracted_recovery_sectors in
    let new_faults := (X ∖ pt_terminated p) ∖ pt_faults p in
    new_fault_sectors ← load_sector sectors new_faults;
    '(p, d) ← match add_faults p new_faults new_fault_sectors fault_expiration with
      | Err Plain => Err (Actor ErrIllegalState)
      | r => r
      end;
    let p := remove_recoveries p retracted_recoveries retracted_recovery_power in
    _ ← validate_state p;
    mret (p, (d.1, d.2, retracted_recovery_power, match new_fault_sectors with [] => false | _ => true end)).
End partition.
