(* ===== verification/PartitionSpec.v ===== *)
(** * What partitions guarantee

    The power memos of a partition are the sums over its sets of sectors, its
    expiration queue schedules exactly the live sectors, and every operation of
    [partition_state.rs] keeps this so. *)

From S2P Require Import Prelude Address Runtime Types Vesting MinerFunds Sectors Expirations Schedule ScheduleOps ScheduleRemove Partition.

Implicit Types (σ : gmap Z (Z * bool)) (X F : gset Z) (p : Partition).

(** The sets of a partition. *)
Record sets_ok p : Prop := {
  so_terminated : pt_terminated p ⊆ pt_sectors p;
  so_unproven : pt_unproven p ⊆ live_sectors p;
  so_faults : pt_faults p ⊆ live_sectors p;
  so_disjoint : pt_unproven p ## pt_faults p;
  so_recoveries : pt_recoveries p ⊆ pt_faults p }.

(** The memos are the sums over the sets. *)
Record memos_ok (size : Z) (m : Sectors) p : Prop := {
  mo_live : live_power p = psum (info_power size m) (live_sectors p);
  mo_unproven : unproven_power p = psum (info_power size m) (pt_unproven p);
  mo_faulty : pt_faulty_power p = psum (info_power size m) (pt_faults p);
  mo_recovering : recovering_power p = psum (info_power size m) (pt_recoveries p) }.

(** Early terminations are of terminated sectors, each once. *)
Record early_ok p : Prop := {
  eo_entries : ∀ e X, early_terminated p !! e = Some X → 0 ≤ e < i64_max ∧ X ≠ ∅ ∧ X ⊆ pt_terminated p;
  eo_disjoint : ∀ e e' X X', early_terminated p !! e = Some X → early_terminated p !! e' = Some X' → e ≠ e' → X ## X' }.

(** The whole invariant: [σ] schedules the live sectors, and those that expire
    early do so by the epoch [c]. *)
Record partition_ok (size : Z) (m : Sectors) (quant : QuantSpec) (c : Z) p σ : Prop := {
  po_sets : sets_ok p;
  po_memos : memos_ok size m p;
  po_early : early_ok p;
  po_size : Z.of_nat (base.size (pt_sectors p)) ≤ ENTRY_SECTORS_MAX;
  po_live : dom σ = live_sectors p;
  po_queue : queue_rep size m (expirations_epochs p) σ (pt_faults p);
  po_sched : sched_ok m quant σ (pt_faults p);
  po_clock : ∀ n e, σ !! n = Some (e, true) → e ≤ c }.

(** The sectors of a message that are not all in [S]. *)
Definition outside (S : gset Z) (o : UnvalidatedBitField) : Prop := match o with Some X => ¬ X ⊆ S | None => True end.

Lemma numbers_nil l : numbers l = ∅ → l = [].
Proof. destruct l as [|s l]; [done|]. intros He. exfalso. apply (not_elem_of_empty (C := gset Z) (sector_number s)). rewrite <- He. apply elem_of_numbers. exists s. split; [by left|done]. Qed.

Lemma new_faults_set (X R T F : gset Z) : R ⊆ F → ((X ∖ (R ∩ X)) ∖ T) ∖ F = (X ∖ T) ∖ F.
Proof. intros HR. apply set_eq. intros n. rewrite !elem_of_difference, elem_of_intersection. specialize (HR n). tauto. Qed.

Lemma sets_valid p : sets_ok p → validate_bf_state p = Ok tt.
Proof.
  intros [Ht Hun Hf Hd Hr]. unfold validate_bf_state, contains_any, contains_all, live_sectors in *.
  rewrite !bool_decide_true by set_solver. done.
Qed.
Lemma not_negative x : pp_nonneg x → is_negative x = false.
Proof. intros [Hr Hq]. unfold is_negative. by rewrite !(proj2 (Z.ltb_ge _ _)). Qed.

Lemma live_size size m quant c p σ : partition_ok size m quant c p σ → Z.of_nat (base.size (dom σ)) ≤ ENTRY_SECTORS_MAX.
Proof.
  intros H. rewrite (po_live _ _ _ _ _ _ H). pose proof (po_size _ _ _ _ _ _ H) as Hsz.
  pose proof (subseteq_size (live_sectors p) (pt_sectors p) ltac:(unfold live_sectors; set_solver)). lia.
Qed.

Lemma select_loop_spec m l Y :
  infos m l → let '(inc, rest) := select_loop l Y in infos m inc ∧ numbers inc = numbers l ∩ Y ∧ rest = Y ∖ numbers l.
Proof.
  revert Y. induction l as [|s l IH]; intros Y Hl; [cbn; split_and!; [split; constructor| |]; change (numbers []) with (∅ : gset Z); set_solver|].
  apply infos_cons in Hl as (Hs & Hn & Hl). cbn [select_loop]. assert (Hnum : ∀ l, numbers (s :: l) = {[sector_number s]} ∪ numbers l) by done.
  case_bool_decide as HY.
  - specialize (IH (Y ∖ {[sector_number s]}) Hl). destruct (select_loop _ _) as [inc rest]. destruct IH as (Hi & Hni & ->).
    split_and!; [apply infos_cons; split_and!; [done|set_solver|done]|rewrite !Hnum, Hni|rewrite Hnum]; set_solver.
  - specialize (IH Y Hl). destruct (select_loop _ _) as [inc rest]. destruct IH as (Hi & Hni & ->). split_and!; [done| |]; rewrite Hnum; set_solver.
Qed.
Lemma select_sectors_ok m l Y : infos m l → Y ⊆ numbers l → ∃ l', select_sectors l Y = Ok l' ∧ infos m l' ∧ numbers l' = Y.
Proof.
  intros Hl HY. pose proof (select_loop_spec m l Y Hl) as Hs. unfold select_sectors. destruct (select_loop l Y) as [inc rest].
  destruct Hs as (Hi & Hn & ->). rewrite bool_decide_true by set_solver. exists inc. split_and!; [done|done|]. rewrite Hn. set_solver.
Qed.

Section spec.
Context (size : Z) (m : Sectors) (Hsize : 0 < size) (Hm : table_wf m).
Context (quant : QuantSpec) (Hu : 0 < q_unit quant ≤ 2 ^ 60).
Context (hash_order : gset Z → list Z) (Horder : ∀ X, hash_order X ≡ₚ elements X).
Notation P := (info_power size m).
Notation G := (info_pledge m).

Lemma quantized_ok r : 0 ≤ r ≤ 2 ^ 62 → epoch_ok quant (quantize_up quant r).
Proof.
  intros Hr. destruct (quantize_up_spec quant r) as [_ Hq]; [lia|]. split; [unfold i64_max; lia|]. apply quantize_up_idem. lia.
Qed.
Lemma target_all n : target_ok m quant n.
Proof.
  unfold target_ok, target. apply quantized_ok. destruct (m !! n) as [s|] eqn:E; cbn; [|lia]. apply Hm in E as (_ & _ & _ & ? & _). lia.
Qed.

Lemma psum_nonneg_P X : pp_nonneg (psum P X).
Proof. by apply psum_P_nonneg. Qed.
Lemma psum_le X Y : X ⊆ Y → raw (psum P X) ≤ raw (psum P Y).
Proof. intros HX. apply psum_subset; [done|]. intros n _. by apply info_power_nonneg. Qed.

Lemma state_valid p : sets_ok p → memos_ok size m p → validate_state p = Ok tt.
Proof.
  intros Hs [Hl Hun Hf Hr]. unfold validate_state. rewrite (sets_valid p Hs). destruct Hs as [Ht HU HF Hd HR].
  unfold validate_power_state. rewrite Hl, Hun, Hf, Hr, !not_negative by apply psum_nonneg_P. cbn [throw_if mbind result_bind].
  rewrite !(proj2 (Z.ltb_ge _ _)); [done|..]; apply psum_le; first [done|by trans (pt_faults p)].
Qed.

Lemma live_in_table c p σ : partition_ok size m quant c p σ → live_sectors p ⊆ dom m.
Proof. intros H n. rewrite <- (po_live _ _ _ _ _ _ H), elem_of_dom. intros [[e b] Hn]. by apply (po_sched _ _ _ _ _ _ H) in Hn as (? & _). Qed.
Lemma healthy_on_time c p σ n : partition_ok size m quant c p σ → n ∈ live_sectors p → n ∉ pt_faults p → ∃ e, σ !! n = Some (e, false).
Proof.
  intros H Hn HF. rewrite <- (po_live _ _ _ _ _ _ H) in Hn. apply elem_of_dom in Hn as [[e b] Hn]. exists e. destruct b; [|done].
  pose proof (po_sched _ _ _ _ _ _ H n e true Hn) as (_ & _ & Hx). by destruct HF; apply Hx.
Qed.

(** A new partition is empty. *)
Lemma new_ok c : partition_ok size m quant c partition_new ∅.
Proof.
  split; cbn.
  - split; cbn; set_solver.
  - split; cbn; unfold live_sectors; cbn; symmetry; apply psum_empty_set; set_solver.
  - split; cbn; intros *; by rewrite lookup_empty.
  - done.
  - unfold live_sectors. cbn. rewrite dom_empty_L. set_solver.
  - intros e. rewrite lookup_empty. symmetry. apply (entry_none size m Hsize Hm quant); [lia|]. intros n b. by rewrite lookup_empty.
  - intros n e b. by rewrite lookup_empty.
  - intros n e. by rewrite lookup_empty.
Qed.

(** ** New sectors *)

Lemma add_sectors_ok c p σ proven l :
  partition_ok size m quant c p σ → infos m l → numbers l ## pt_sectors p →
  Z.of_nat (base.size (pt_sectors p ∪ numbers l)) ≤ ENTRY_SECTORS_MAX →
  ∃ p', add_sectors size quant p proven l = Ok (p', psum P (numbers l)) ∧
    partition_ok size m quant c p' (activate m quant (numbers l) σ) ∧
    pt_sectors p' = pt_sectors p ∪ numbers l ∧ live_sectors p' = live_sectors p ∪ numbers l ∧ pt_faults p' = pt_faults p ∧
    pt_unproven p' = (if proven then pt_unproven p else pt_unproven p ∪ numbers l).
Proof.
  intros H Hl HN Hsz. destruct H as [Hs Hmo He _ Hlive Hq Hσ Hc]. set (N := numbers l) in *.
  assert (HNF : N ## pt_faults p) by (destruct Hs; unfold live_sectors in *; set_solver).
  assert (HNσ : N ## dom σ) by (rewrite Hlive; unfold live_sectors; set_solver).
  assert (Hlive' : (pt_sectors p ∪ N) ∖ pt_terminated p = live_sectors p ∪ N) by (destruct Hs; unfold live_sectors; set_solver).
  destruct (add_active_ok size m Hsize Hm quant l Hl (expirations_epochs p) σ (pt_faults p)) as (q' & Hadd & Hq'); try done; [lia|intros; apply target_all|].
  unfold add_sectors. rewrite Hadd. cbn [mbind result_bind]. fold N. fold N in Hq'. unfold contains_any.
  rewrite bool_decide_true by set_solver. cbn [negb throw_if mbind result_bind].
  match goal with |- context [validate_state ?x] => set (p' := x) end.
  assert (Hs' : sets_ok p').
  { destruct Hs. split; unfold live_sectors in *; cbn; try rewrite Hlive'; unfold live_sectors; destruct proven; set_solver. }
  assert (Hmo' : memos_ok size m p').
  { destruct Hmo as [Hl1 Hl2 Hl3 Hl4]. split; unfold live_sectors; cbn; try done.
    - rewrite Hlive', psum_union by (unfold live_sectors; set_solver). by rewrite Hl1.
    - destruct proven; [done|]. rewrite psum_union by (destruct Hs; unfold live_sectors in *; set_solver). by rewrite Hl2. }
  rewrite (state_valid p' Hs' Hmo'). cbn [mbind result_bind]. exists p'. split; [done|]. split; [|done]. split; try done.
  - destruct He. by split.
  - unfold live_sectors at 1. cbn. rewrite Hlive'. apply set_eq. intros n. rewrite elem_of_dom, lookup_activate, elem_of_union, <- Hlive, elem_of_dom.
    fold N. case_decide; [split; [tauto|by eexists]|]. tauto.
  - intros n e b. rewrite lookup_activate. fold N. case_decide as Hn; [|apply Hσ]. intros [= <- <-]. split_and!; [|apply target_all|done].
    destruct (infos_elem m l n Hl Hn) as (s & _ & _ & Hms). by eapply elem_of_dom_2.
  - intros n e. rewrite lookup_activate. fold N. case_decide; [done|]. apply Hc.
Qed.

(** ** Faults *)

(** The power of a list of sectors that is skipped when empty. *)
Lemma power_or_zero l : infos m l → match l with [] => pp_zero | _ => power_for_sectors size l end = psum P (numbers l).
Proof. intros Hl. rewrite <- (infos_power size m l Hl). destruct l; [|done]. apply pp_ext; cbn; lia. Qed.

Lemma add_faults_ok c p σ X l r :
  partition_ok size m quant c p σ → infos m l → numbers l = X → X ⊆ live_sectors p ∖ pt_faults p → 0 ≤ r ≤ 2 ^ 62 → c ≤ quantize_up quant r →
  ∃ p', add_faults size quant hash_order p X l r = Ok (p', (pp_neg (psum P X) + psum P (X ∩ pt_unproven p), psum P X)%pw) ∧
    partition_ok size m quant (quantize_up quant r) p' (upd (late quant σ l r) (quantize_up quant r, true) σ) ∧
    pt_faults p' = pt_faults p ∪ X ∧ pt_unproven p' = pt_unproven p ∖ X ∧ pt_recoveries p' = pt_recoveries p ∧
    pt_sectors p' = pt_sectors p ∧ pt_terminated p' = pt_terminated p.
Proof.
  intros H Hl HX Hsub Hr Hcr. pose proof H as [Hs Hmo He Hsz Hlive Hq Hσ Hc].
  destruct (reschedule_as_faults_ok size m Hsize Hm quant hash_order Horder (expirations_epochs p) σ (pt_faults p) Hq Hσ l Hl) with (r := r) as (q' & Hf & Hq').
  { intros n Hn. rewrite HX in Hn. apply Hsub, elem_of_difference in Hn as [Hn HnF]. by eapply healthy_on_time. }
  { intros n _. apply target_all. }
  { rewrite HX. set_solver. }
  { lia. }
  { by apply quantized_ok. }
  destruct (select_sectors_ok m l (X ∩ pt_unproven p) Hl) as (lu & Hsel & Hlu & Hnu); [set_solver|].
  unfold add_faults. rewrite Hf, HX. cbn [mbind result_bind]. rewrite Hsel. cbn [mbind result_bind]. rewrite (power_or_zero lu Hlu), Hnu.
  match goal with |- context [validate_state ?x] => set (p' := x) end.
  assert (Hs' : sets_ok p') by (destruct Hs; split; unfold live_sectors in *; cbn; set_solver).
  assert (Hmo' : memos_ok size m p').
  { destruct Hmo as [Hl1 Hl2 Hl3 Hl4]. split; unfold live_sectors; cbn; try done.
    - rewrite Hl2, <- psum_difference by set_solver. done.
    - rewrite Hl3, <- psum_union by set_solver. done. }
  rewrite (state_valid p' Hs' Hmo'). cbn [mbind result_bind]. exists p'. split; [done|]. split; [|cbn; split_and!; try done; set_solver].
  assert (Hlate : ∀ n, n ∈ late quant σ l r → n ∈ X) by (intros n [_ ?]%elem_of_filter; by rewrite <- HX).
  split; try done.
  - by destruct He.
  - change (live_sectors p') with (live_sectors p). rewrite <- Hlive. apply set_eq. intros n. rewrite !elem_of_dom, lookup_upd. case_decide as Hn; [|done].
    apply Hlate, Hsub, elem_of_difference in Hn as [Hn _]. rewrite <- Hlive in Hn. apply elem_of_dom in Hn. split; [done|by eexists].
  - cbn. by rewrite <- HX.
  - intros n e b. rewrite lookup_upd. case_decide as Hn.
    + intros [= <- <-]. split_and!; [|by apply quantized_ok|cbn; set_solver]. eapply live_in_table; [exact H|]. set_solver.
    + intros Hl'%Hσ. cbn. set_solver.
  - intros n e. rewrite lookup_upd. case_decide; [by intros [= <-]|]. intros Hn%Hc. lia.
Qed.

Lemma partition_ok_mono c c' p σ : c ≤ c' → partition_ok size m quant c p σ → partition_ok size m quant c' p σ.
Proof. intros Hc [H1 H2 H3 H4 H5 H6 H7 H8]. split; try done. intros n e Hn%H8. lia. Qed.
Lemma contained p X : X ⊆ pt_sectors p → validate_partition_contains_sectors p (Some X) = Ok tt.
Proof. intros HX. unfold validate_partition_contains_sectors, contains_all. cbn. by rewrite bool_decide_true. Qed.
Lemma not_contained p X : ¬ X ⊆ pt_sectors p → validate_partition_contains_sectors p (Some X) = Err Plain.
Proof. intros HX. unfold validate_partition_contains_sectors, contains_all. cbn. by rewrite bool_decide_false. Qed.
Lemma load_live c p σ X : partition_ok size m quant c p σ → X ⊆ live_sectors p →
  ∃ l, load_sector m X = Ok l ∧ infos m l ∧ numbers l = X.
Proof.
  intros H HX. destruct (load_sector_ok m Hm X) as (l & ? & ? & ? & _); [|by exists l]. trans (live_sectors p); [done|]. by eapply live_in_table.
Qed.
(** The schedule when the sectors [N] are faulty: those that would expire after [r]
    expire then. *)
Definition faulted (r : Z) (N : gset Z) σ : gmap Z (Z * bool) :=
  let c := quantize_up quant r in upd (filter (λ n, c < default c (fst <$> σ !! n)) N) (c, true) σ.
Lemma faulted_none r σ : faulted r ∅ σ = σ.
Proof. unfold faulted. apply map_eq. intros n. rewrite lookup_upd, decide_False; [done|]. set_solver. Qed.

(** Of the declared sectors, those that are live and healthy become faulty.
    Recovering sectors stay so. *)
Lemma record_faults_ok c p σ X r :
  partition_ok size m quant c p σ → X ⊆ pt_sectors p → 0 ≤ r ≤ 2 ^ 62 → c ≤ quantize_up quant r →
  let N := (X ∖ pt_terminated p) ∖ pt_faults p in
  ∃ p' σ', record_faults size quant hash_order p m (Some X) r =
      Ok (p', (N, pp_neg (psum P N) + psum P (N ∩ pt_unproven p), psum P N)%pw) ∧
    partition_ok size m quant (quantize_up quant r) p' σ' ∧
    pt_faults p' = pt_faults p ∪ N ∧ pt_unproven p' = pt_unproven p ∖ N ∧ pt_recoveries p' = pt_recoveries p ∧
    pt_sectors p' = pt_sectors p ∧ pt_terminated p' = pt_terminated p ∧ σ' = faulted r N σ.
Proof.
  intros H HX Hr Hcr. cbn zeta. remember ((X ∖ pt_terminated p) ∖ pt_faults p) as N eqn:HNdef. unfold record_faults. rewrite contained by done. cbn [actor_err ok_or mbind result_bind].
  rewrite new_faults_set, <- HNdef by apply (po_sets _ _ _ _ _ _ H).
  assert (HN : N ⊆ live_sectors p ∖ pt_faults p) by (unfold live_sectors; set_solver).
  destruct (load_live c p σ N H) as (l & -> & Hl & Hnl); [set_solver|]. cbn [mbind result_bind].
  destruct (decide (N = ∅)) as [He|He].
  - rewrite (numbers_nil l) by congruence. cbn [mbind result_bind mret result_ret].
    rewrite state_valid by apply H. cbn [mbind result_bind fst snd]. exists p, σ. rewrite He, psum_empty, (psum_empty_set P (∅ ∩ pt_unproven p)) by set_solver.
    split_and!; [reflexivity|by eapply partition_ok_mono|set_solver|set_solver|done|done|done|by rewrite faulted_none].
  - destruct (add_faults_ok c p σ N l r H Hl Hnl HN Hr Hcr) as (p' & Hadd & Hp' & Heff). destruct l as [|s l]; [by rewrite <- Hnl in He|].
    rewrite Hadd. cbn [mbind result_bind]. rewrite state_valid by apply Hp'. cbn [mbind result_bind fst snd]. exists p', (upd (late quant σ (s :: l) r) (quantize_up quant r, true) σ).
    destruct Heff as (? & ? & ? & ? & ?). split_and!; try done. unfold faulted, late. by rewrite Hnl.
Qed.
Lemma record_faults_err p (o : UnvalidatedBitField) r : outside (pt_sectors p) o →
  record_faults size quant hash_order p m o r = Err (Actor ErrIllegalArgument).
Proof. intros Ho. unfold record_faults. destruct o as [X|]; [|done]. by rewrite not_contained. Qed.
Lemma record_skipped_err p (o : UnvalidatedBitField) r : outside (pt_sectors p) o →
  record_skipped_faults size quant hash_order p m r o = Err (Actor ErrIllegalArgument).
Proof.
  intros Ho. unfold record_skipped_faults. destruct o as [X|]; [|done]. cbn [ok_or mbind result_bind]. cbn in Ho.
  rewrite bool_decide_false by (intros ->; apply Ho; set_solver). unfold contains_all. by rewrite bool_decide_false.
Qed.

(** Recoveries change. *)
Lemma with_recoveries_ok c p σ X : partition_ok size m quant c p σ → X ⊆ pt_faults p →
  partition_ok size m quant c (with_recoveries p X (psum P X)) σ.
Proof.
  intros [[] [] [] H4 H5 H6 H7 H8] HX. split; try done; by split.
Qed.

Lemma record_skipped_ok c p σ X r :
  partition_ok size m quant c p σ → X ⊆ pt_sectors p → 0 ≤ r ≤ 2 ^ 62 → c ≤ quantize_up quant r →
  let N := (X ∖ pt_terminated p) ∖ pt_faults p in
  ∃ p' σ', record_skipped_faults size quant hash_order p m r (Some X) =
      Ok (p', (pp_neg (psum P N) + psum P (N ∩ pt_unproven p), psum P N, psum P (pt_recoveries p ∩ X), negb (bool_decide (N = ∅)))%pw) ∧
    partition_ok size m quant (quantize_up quant r) p' σ' ∧
    pt_faults p' = pt_faults p ∪ N ∧ pt_unproven p' = pt_unproven p ∖ N ∧ pt_recoveries p' = pt_recoveries p ∖ X ∧
    pt_sectors p' = pt_sectors p ∧ pt_terminated p' = pt_terminated p ∧ σ' = faulted r N σ.
Proof.
  intros H HX Hr Hcr. cbn zeta. remember ((X ∖ pt_terminated p) ∖ pt_faults p) as N eqn:HNdef. pose proof (po_sets _ _ _ _ _ _ H) as Hs. unfold record_skipped_faults. cbn [ok_or mbind result_bind].
  assert (HN : N ⊆ live_sectors p ∖ pt_faults p) by (unfold live_sectors; set_solver).
  destruct (decide (X = ∅)) as [He|He].
  - rewrite bool_decide_true by done. assert (HN0 : N = ∅) by set_solver. exists p, σ. rewrite HN0.
    rewrite psum_empty, !psum_empty_set, (bool_decide_true (∅ = ∅)) by set_solver. split_and!; [reflexivity|by eapply partition_ok_mono|set_solver|set_solver|set_solver|done|done|by rewrite faulted_none].
  - rewrite bool_decide_false by done. unfold contains_all. rewrite bool_decide_true by done. cbn [negb throw_if mbind result_bind].
    destruct (load_live c p σ (pt_recoveries p ∩ X) H) as (lr & -> & Hlr & Hnr); [destruct Hs; set_solver|]. cbn [mbind result_bind].
    destruct (load_live c p σ N H) as (l & Hload & Hl & Hnl); [set_solver|]. rewrite <- HNdef, Hload. cbn [mbind result_bind].
    destruct (add_faults_ok c p σ N l r H Hl Hnl HN Hr Hcr) as (p' & -> & Hp' & HF' & HU' & HR' & HS' & HT'). cbn [mbind result_bind fst snd].
    rewrite (infos_power size m lr Hlr), Hnr.
    set (p2 := remove_recoveries p' (pt_recoveries p ∩ X) (psum P (pt_recoveries p ∩ X))).
    assert (Hp2 : partition_ok size m quant (quantize_up quant r) p2 (upd (late quant σ l r) (quantize_up quant r, true) σ) ∧ pt_recoveries p2 = pt_recoveries p ∖ X ∧
      pt_faults p2 = pt_faults p' ∧ pt_unproven p2 = pt_unproven p' ∧ pt_sectors p2 = pt_sectors p' ∧ pt_terminated p2 = pt_terminated p').
    { unfold p2, remove_recoveries. case_bool_decide as He2; [split_and!; [done|rewrite HR'; set_solver|done..]|].
      rewrite (mo_recovering _ _ _ (po_memos _ _ _ _ _ _ Hp')), <- psum_difference by (rewrite HR'; set_solver).
      split_and!; [|cbn; rewrite HR'; set_solver|done..]. replace (pt_recoveries p' ∖ (pt_recoveries p ∩ X)) with (pt_recoveries p ∖ X) by (rewrite HR'; set_solver). apply with_recoveries_ok; [done|]. rewrite HF'. destruct Hs; set_solver. }
    destruct Hp2 as (Hp2 & HR2 & HF2 & HU2 & HS2 & HT2). rewrite state_valid by apply Hp2. cbn [mbind result_bind mret result_ret]. eexists p2, _.
    split_and!; [|exact Hp2|congruence..|unfold faulted, late; by rewrite Hnl].
    replace (match l with [] => false | _ => true end) with (negb (bool_decide (N = ∅))); [done|].
    destruct l; [by rewrite bool_decide_true|]. rewrite bool_decide_false; [done|]. rewrite <- Hnl. intros ?%numbers_nil. done.
Qed.

(** ** Recoveries *)

Lemma declare_recovered_ok c p σ X :
  partition_ok size m quant c p σ → X ⊆ pt_sectors p →
  ∃ p', declare_faults_recovered size p m (Some X) = Ok p' ∧ partition_ok size m quant c p' σ ∧
    p' = with_recoveries p (pt_recoveries p ∪ X ∩ pt_faults p) (psum P (pt_recoveries p ∪ X ∩ pt_faults p)).
Proof.
  intros H HX. pose proof (po_sets _ _ _ _ _ _ H) as Hs. unfold declare_faults_recovered. rewrite contained by done. cbn [actor_err ok_or mbind result_bind].
  destruct (load_live c p σ ((X ∩ pt_faults p) ∖ pt_recoveries p) H) as (l & -> & Hl & Hn); [destruct Hs; set_solver|]. cbn [mbind result_bind].
  rewrite (infos_power size m l Hl), Hn, (mo_recovering _ _ _ (po_memos _ _ _ _ _ _ H)), <- psum_union by set_solver.
  replace (pt_recoveries p ∪ (X ∩ pt_faults p) ∖ pt_recoveries p) with (pt_recoveries p ∪ X ∩ pt_faults p).
  2: { apply set_eq. intros n. rewrite !elem_of_union, elem_of_difference. destruct (decide (n ∈ pt_recoveries p)); tauto. }
  assert (Hp' := with_recoveries_ok c p σ (pt_recoveries p ∪ X ∩ pt_faults p) H ltac:(destruct Hs; set_solver)).
  rewrite state_valid by apply Hp'. by eexists.
Qed.
Lemma declare_recovered_err p (o : UnvalidatedBitField) : outside (pt_sectors p) o →
  declare_faults_recovered size p m o = Err (Actor ErrIllegalArgument).
Proof. intros Ho. unfold declare_faults_recovered. destruct o as [X|]; [|done]. by rewrite not_contained. Qed.

Lemma activate_unproven_ok c p σ : partition_ok size m quant c p σ →
  let '(p', power) := activate_unproven p in
  partition_ok size m quant c p' σ ∧ power = psum P (pt_unproven p) ∧ pt_unproven p' = ∅ ∧ pt_faults p' = pt_faults p ∧
  pt_recoveries p' = pt_recoveries p ∧ live_sectors p' = live_sectors p.
Proof.
  intros [[] [] [] H4 H5 H6 H7 H8]. cbn. by split_and!.
Qed.

(** The recovering sectors are healthy again, and expire on time. *)
Lemma recover_faults_ok c p σ :
  partition_ok size m quant c p σ →
  ∃ p', recover_faults size quant p m = Ok (p', psum P (pt_recoveries p)) ∧
    partition_ok size m quant c p' (activate m quant (pt_recoveries p ∩ kind σ true) σ) ∧
    pt_faults p' = pt_faults p ∖ pt_recoveries p ∧ pt_recoveries p' = ∅ ∧ pt_unproven p' = pt_unproven p ∧ live_sectors p' = live_sectors p.
Proof.
  intros H. pose proof H as [Hs Hmo He Hsz Hlive Hq Hσ Hc]. unfold recover_faults. set (R := pt_recoveries p) in *.
  assert (HRl : R ⊆ live_sectors p) by (destruct Hs; by trans (pt_faults p)).
  destruct (load_live c p σ R H HRl) as (l & -> & Hl & Hn). cbn [mbind result_bind].
  destruct (reschedule_recovered_ok size m Hsize Hm quant (proj1 Hu) l Hl (expirations_epochs p) σ (pt_faults p) Hq Hσ) as (q' & -> & Hq').
  { rewrite Hn. apply Hs. }
  { by rewrite Hn, Hlive. }
  { by eapply live_size. }
  { intros n _. apply target_all. }
  rewrite Hn in *. cbn [mbind result_bind]. match goal with |- context [validate_state ?x] => set (p' := x) end.
  assert (Hs' : sets_ok p') by (destruct Hs; split; unfold live_sectors in *; cbn; set_solver).
  assert (Hmo' : memos_ok size m p').
  { destruct Hmo as [Hl1 Hl2 Hl3 Hl4]. split; unfold live_sectors; cbn; try done.
    - rewrite Hl3, <- psum_difference by apply Hs. done.
    - rewrite Hl4, psum_empty. unfold R. pp_solve. }
  rewrite (state_valid p' Hs' Hmo'). cbn [mbind result_bind]. exists p'. split; [done|]. split; [|done].
  assert (Hin : ∀ n, n ∈ R ∩ kind σ true → ∃ e, σ !! n = Some (e, true)) by (by intros n [_ ?%elem_of_kind]%elem_of_intersection).
  split; try done.
  - by destruct He.
  - change (live_sectors p') with (live_sectors p). rewrite <- Hlive. apply set_eq. intros n. rewrite !elem_of_dom, lookup_activate. case_decide as HnR; [|done].
    apply Hin in HnR as [e HnR]. rewrite HnR. split; by eexists.
  - intros n e b. rewrite lookup_activate. case_decide as HnR.
    + intros [= <- <-]. split_and!; [|apply target_all|done]. apply (live_in_table c p σ H). set_solver.
    + intros Hx. pose proof (Hσ n e b Hx) as (? & ? & HF). split_and!; try done. intros ->. cbn. apply elem_of_difference. split; [by apply HF|].
      intros HR. apply HnR, elem_of_intersection. split; [done|]. apply elem_of_kind. by exists e.
  - intros n e. rewrite lookup_activate. case_decide; [done|]. apply Hc.
Qed.
End spec.
