(* ===== verification/PartitionOps.v ===== *)
(** * What partitions guarantee: terminations

    Sectors that are rescheduled, replaced, terminated or that expire, deadlines
    without proof, and the queue of early terminations. *)

From S2P Require Import Prelude Address Runtime Types Vesting MinerFunds Sectors Expirations Schedule ScheduleOps ScheduleRemove Partition PartitionSpec.

Implicit Types (σ : gmap Z (Z * bool)) (X F : gset Z) (p : Partition).

(** The faults matter on the scheduled sectors only. *)
Lemma rep_faults size m q σ F F' : (∀ n, n ∈ dom σ → n ∈ F' ↔ n ∈ F) → queue_rep size m q σ F → queue_rep size m q σ F'.
Proof.
  intros HF Hq e. rewrite Hq. symmetry. apply entry_faults. intros n Hn%elem_of_at. apply HF, elem_of_dom. by eexists.
Qed.
Lemma dom_del X σ : dom (del X σ) = dom σ ∖ X.
Proof. apply set_eq. intros n. rewrite elem_of_difference, !elem_of_dom, lookup_del. case_decide; [|tauto]. split; [by intros []|tauto]. Qed.

(** ** The queue of early terminations *)

Lemma no_quantization e : quantize_up NO_QUANTIZATION e = e.
Proof. apply quantize_up_fix; [done|]. cbn. exists (e - 0). lia. Qed.

Lemma record_early_ok (q : BitFieldQueue) epoch X : 0 ≤ epoch < i64_max →
  record_early_termination q epoch X = Ok (if decide (X = ∅) then q else <[epoch := default ∅ (q !! epoch) ∪ X]> q).
Proof.
  intros He. unfold record_early_termination, bfq_add_to_queue. rewrite no_quantization.
  assert (Hus : as_usize epoch = epoch) by (apply as_usize_small; unfold i64_max in He; lia).
  assert (Hi : epoch ≤ AMT_MAX_INDEX) by (unfold AMT_MAX_INDEX, usize_max, i64_max in *; lia).
  destruct (decide (X = ∅)) as [->|Hx]; [by rewrite bool_decide_true|]. rewrite bool_decide_false by done.
  rewrite Hus, amt_get_ok by done. cbn [mbind result_bind]. by rewrite amt_set_ok.
Qed.

(** Newly terminated sectors are recorded. *)
Lemma early_record p p' epoch X Y :
  early_ok p → 0 ≤ epoch < i64_max → X ⊆ Y → Y ## pt_terminated p → pt_terminated p' = pt_terminated p ∪ Y →
  early_terminated p' = (if decide (X = ∅) then early_terminated p else <[epoch := default ∅ (early_terminated p !! epoch) ∪ X]> (early_terminated p)) →
  early_ok p'.
Proof.
  intros [He Hd] Hep HX HY Ht Hq. assert (Hold : ∀ e W, early_terminated p !! e = Some W → W ## X ∧ W ⊆ pt_terminated p).
  { intros e W (_ & _ & HZ)%He. split; [set_solver|done]. }
  destruct (decide (X = ∅)) as [Hx|Hx].
  - split; rewrite Hq; [|done]. intros e W HZ. pose proof (He e W HZ) as (? & ? & ?). rewrite Ht. split_and!; [lia..|done|set_solver].
  - assert (Hsub : default ∅ (early_terminated p !! epoch) ⊆ pt_terminated p).
    { destruct (early_terminated p !! epoch) as [W|] eqn:E; cbn; [by apply (Hold epoch W E)|set_solver]. }
    assert (Hdis : ∀ e W, e ≠ epoch → early_terminated p !! e = Some W → W ## default ∅ (early_terminated p !! epoch) ∪ X).
    { intros e W Hne HZ. pose proof (Hold e W HZ) as [? _]. destruct (early_terminated p !! epoch) as [W2|] eqn:E; cbn; [|set_solver].
      pose proof (Hd e epoch W W2 HZ E Hne). set_solver. }
    split; rewrite Hq, ?Ht.
    + intros e W. destruct (decide (e = epoch)) as [->|Hne]; [rewrite lookup_insert_eq; intros [= <-]; split_and!; [lia..|set_solver|set_solver]|].
      rewrite lookup_insert_ne by done. intros HZ. pose proof (He e W HZ) as (? & ? & ?). split_and!; [lia..|done|set_solver].
    + intros e e' W W2. destruct (decide (e = epoch)) as [->|Hne], (decide (e' = epoch)) as [->|Hne']; [done| | |].
      * rewrite lookup_insert_eq, lookup_insert_ne by done. intros [= <-] HZ _. symmetry. by eapply Hdis.
      * rewrite lookup_insert_ne, lookup_insert_eq by done. intros HZ [= <-] _. by eapply Hdis.
      * rewrite !lookup_insert_ne by done. apply Hd.
Qed.

Section spec.
Context (size : Z) (m : Sectors) (Hsize : 0 < size) (Hm : table_wf m).
Context (quant : QuantSpec) (Hu : 0 < q_unit quant ≤ 2 ^ 60).
Context (hash_order : gset Z → list Z) (Horder : ∀ X, hash_order X ≡ₚ elements X).
Notation P := (info_power size m).
Notation G := (info_pledge m).
Notation partition_ok := (partition_ok size m quant).

(** ** Rescheduling *)

Lemma pt_reschedule_ok c p σ X r :
  partition_ok c p σ → 0 ≤ r ≤ 2 ^ 62 →
  let A := X ∩ pt_sectors p ∖ pt_terminated p ∖ pt_faults p in
  ∃ p' σ' l, pt_reschedule_expirations size quant hash_order p m r (Some X) = Ok (p', l) ∧ infos m l ∧ numbers l = A ∧
    partition_ok c p' σ' ∧ p' = with_expirations p (expirations_epochs p') ∧
    ∀ n, σ' !! n = if decide (n ∈ A) then Some (quantize_up quant r, false) else σ !! n.
Proof.
  intros H Hr. cbn zeta. remember (X ∩ pt_sectors p ∖ pt_terminated p ∖ pt_faults p) as A eqn:HA. unfold pt_reschedule_expirations.
  cbn [ok_or mbind result_bind]. rewrite <- HA. assert (HAl : A ⊆ live_sectors p ∖ pt_faults p) by (unfold live_sectors; set_solver).
  destruct (load_live size m Hm quant c p σ A H) as (l & -> & Hl & Hn); [set_solver|]. cbn [mbind result_bind].
  pose proof H as [Hs Hmo He Hsz Hlive Hq Hσ Hc]. destruct (decide (A = ∅)) as [HA0|HA0].
  - rewrite (numbers_nil l) by congruence. cbn [reschedule_expirations mbind result_bind mret result_ret].
    assert (Hp : with_expirations p (expirations_epochs p) = p) by by destruct p. rewrite Hp, (state_valid size m Hsize Hm) by done.
    exists p, σ, []. split_and!; [done|split; constructor|by rewrite HA0|done|done|]. intros n. by rewrite decide_False by set_solver.
  - destruct (reschedule_expirations_ok size m Hsize Hm quant hash_order Horder (expirations_epochs p) σ (pt_faults p) Hq Hσ l Hl) with (r := r)
      as (q' & -> & Hq'); rewrite ?Hn; [|intros n _; by apply target_all|lia|set_solver|done|by apply quantized_ok|].
    { intros n [Hnl HnF]%HAl%elem_of_difference. by eapply healthy_on_time. }
    rewrite Hn in Hq'. cbn [mbind result_bind]. rewrite (state_valid size m Hsize Hm) by by destruct Hs, Hmo. cbn [mbind result_bind mret result_ret].
    eexists _, (upd A (quantize_up quant r, false) σ), l. split_and!; [done|done|done| |done|intros n; apply lookup_upd]. split; try done.
    + by destruct Hs.
    + by destruct Hmo.
    + by destruct He.
    + change (live_sectors (with_expirations p q')) with (live_sectors p). apply set_eq. intros n. rewrite elem_of_dom, lookup_upd, <- Hlive.
      case_decide as HnA; [|by rewrite elem_of_dom]. rewrite Hlive. split; [set_solver|by eexists].
    + intros n e b. rewrite lookup_upd. case_decide as HnA; [|apply Hσ]. intros [= <- <-].
      split_and!; [|by apply quantized_ok|done]. eapply (live_in_table size m); [exact H|set_solver].
    + intros n e. rewrite lookup_upd. case_decide; [done|]. apply Hc.
Qed.

(** ** A deadline without proof *)

Lemma missed_post_ok c p σ r :
  partition_ok c p σ → 0 ≤ r ≤ 2 ^ 62 → c ≤ quantize_up quant r →
  let N := live_sectors p ∖ pt_faults p in
  ∃ p', record_missed_post quant p r = Ok (p', (psum P (pt_unproven p) - psum P N, psum P (pt_recoveries p) + psum P N, psum P N)%pw) ∧
    partition_ok (quantize_up quant r) p' (upd (later quant σ r) (quantize_up quant r, true) σ) ∧
    pt_faults p' = live_sectors p ∧ pt_unproven p' = ∅ ∧ pt_recoveries p' = ∅ ∧ live_sectors p' = live_sectors p ∧ active_sectors p' = ∅.
Proof.
  intros H Hr Hcr N. pose proof H as [Hs Hmo He Hsz Hlive Hq Hσ Hc].
  destruct (reschedule_all_ok size m Hsize Hm quant (proj1 Hu) (expirations_epochs p) σ (pt_faults p) Hq Hσ r) as (q' & Hre & Hq').
  { by apply quantized_ok. }
  { intros n e Hn%Hc. lia. }
  unfold record_missed_post. rewrite Hre. cbn [mbind result_bind]. destruct Hmo as [Hl1 Hl2 Hl3 Hl4].
  assert (Hnew : (live_power p - pt_faulty_power p)%pw = psum P N) by (unfold N; rewrite psum_difference by apply Hs; congruence).
  match goal with |- context [validate_state ?x] => set (p' := x) end.
  assert (Hs' : sets_ok p') by (destruct Hs; split; unfold live_sectors in *; cbn; set_solver).
  assert (Hmo' : memos_ok size m p') by (split; cbn; rewrite ?psum_empty; done).
  rewrite (state_valid size m Hsize Hm p' Hs' Hmo'). cbn [mbind result_bind]. exists p'. rewrite Hnew, Hl2, Hl4. split; [done|].
  split; [|split_and!; try done; unfold active_sectors, live_sectors; cbn; set_solver]. split; try done.
  - by destruct He.
  - change (live_sectors p') with (live_sectors p). rewrite <- Hlive. apply set_eq. intros n. rewrite !elem_of_dom, lookup_upd. case_decide as Hn; [|done].
    apply elem_of_filter in Hn as [_ Hn%elem_of_dom]. split; [done|by eexists].
  - change (pt_faults p') with (live_sectors p). by rewrite <- Hlive.
  - change (pt_faults p') with (live_sectors p). intros n e b Hx. assert (Hn : n ∈ live_sectors p).
    { rewrite <- Hlive. rewrite lookup_upd in Hx. case_decide as Hn; [by apply elem_of_filter in Hn as [_ ?]|]. apply elem_of_dom. by eexists. }
    split_and!; [by eapply live_in_table| |done]. rewrite lookup_upd in Hx. case_decide; [injection Hx as <- <-; by apply quantized_ok|]. by apply Hσ in Hx as (_ & ? & _).
  - intros n e. rewrite lookup_upd. case_decide; [by intros [= <-]|]. intros Hn%Hc. lia.
Qed.

(** ** Terminations *)

(** The power of an entry whose early sectors are faulty. *)
Lemma removed_power F O E : E ⊆ F →
  active_power (es_of size m F O E) = psum P ((O ∪ E) ∖ F) ∧ faulty_power (es_of size m F O E) = psum P ((O ∪ E) ∩ F).
Proof. intros HE. cbn [active_power faulty_power es_of]. split; apply psum_set; set_solver. Qed.

Lemma early_faulty c p σ : partition_ok c p σ → kind σ true ⊆ pt_faults p.
Proof. intros H n [e Hn]%elem_of_kind. by apply (po_sched _ _ _ _ _ _ H) in Hn as (_ & _ & ?%(λ H, H eq_refl)). Qed.

(** Sectors [X] leave a partition. *)
Lemma leave_ok c p p' σ X q' :
  partition_ok c p σ → X ⊆ live_sectors p → queue_rep size m q' (del X σ) (pt_faults p) → early_ok p' →
  pt_sectors p' = pt_sectors p → pt_unproven p' = pt_unproven p ∖ X → pt_faults p' = pt_faults p ∖ X → pt_recoveries p' = pt_recoveries p ∖ X →
  pt_terminated p' = pt_terminated p ∪ X → expirations_epochs p' = q' →
  live_power p' = (live_power p - psum P X)%pw → unproven_power p' = (unproven_power p - psum P (X ∩ pt_unproven p))%pw →
  pt_faulty_power p' = (pt_faulty_power p - psum P (X ∩ pt_faults p))%pw →
  recovering_power p' = (recovering_power p - psum P (X ∩ pt_recoveries p))%pw →
  partition_ok c p' (del X σ) ∧ live_sectors p' = live_sectors p ∖ X.
Proof.
  intros [Hs Hmo He Hsz Hlive Hq Hσ Hc] HX Hq' He' HS HU HF HR HT HQ Hp1 Hp2 Hp3 Hp4.
  assert (Hlive' : live_sectors p' = live_sectors p ∖ X) by (unfold live_sectors; rewrite HS, HT; set_solver). split; [|done].
  assert (Hcut : ∀ Y, psum P (Y ∖ X) = (psum P Y - psum P (X ∩ Y))%pw).
  { intros Y. rewrite <- psum_difference by set_solver. apply psum_set. set_solver. }
  split; try done.
  - destruct Hs. split; rewrite ?HS, ?HU, ?HF, ?HR, ?HT, ?Hlive'; unfold live_sectors in *; set_solver.
  - destruct Hmo as [Hl1 Hl2 Hl3 Hl4]. split; rewrite ?HU, ?HF, ?HR, ?Hlive', Hcut; [|congruence..].
    rewrite Hp1, Hl1. f_equal. apply psum_set. set_solver.
  - by rewrite HS.
  - by rewrite dom_del, Hlive.
  - rewrite HQ, HF. eapply rep_faults; [|exact Hq']. intros n. rewrite dom_del, !elem_of_difference. tauto.
  - intros n e b. rewrite lookup_del. case_decide as Hn; [done|]. intros (? & ? & Hb)%Hσ. rewrite HF. split_and!; try done. intros ->. apply elem_of_difference. auto.
  - intros n e. rewrite lookup_del. case_decide; [done|]. apply Hc.
Qed.

Lemma terminate_ok c p σ epoch X :
  partition_ok c p σ → X ⊆ live_sectors p → 0 ≤ epoch < i64_max →
  ∃ p', terminate_sectors size quant hash_order p m epoch (Some X) =
      Ok (p', {| on_time_sectors := X ∩ kind σ false; early_sectors := X ∩ kind σ true; on_time_pledge := ssum G (X ∩ kind σ false);
                 active_power := psum P (X ∖ pt_faults p) - psum P (X ∩ pt_unproven p); faulty_power := psum P (X ∩ pt_faults p) |}) ∧
    partition_ok c p' (del X σ) ∧ live_sectors p' = live_sectors p ∖ X ∧ pt_terminated p' = pt_terminated p ∪ X ∧
    early_terminated p' = (if decide (X = ∅) then early_terminated p else <[epoch := default ∅ (early_terminated p !! epoch) ∪ X]> (early_terminated p)).
Proof.
  intros H HX Hep. unfold terminate_sectors. cbn [ok_or mbind result_bind]. unfold contains_all. rewrite bool_decide_true by done.
  cbn [negb throw_if mbind result_bind]. destruct (load_live size m Hm quant c p σ X H HX) as (l & -> & Hl & Hn). cbn [mbind result_bind].
  pose proof H as [Hs Hmo He Hsz Hlive Hq Hσ Hc]. pose proof (live_size size m quant c p σ H) as Hls.
  assert (Hsub : ∀ Y, Y ⊆ live_sectors p → Z.of_nat (base.size Y) ≤ ADDRESSED_SECTORS_MAX).
  { intros Y HY. rewrite Hlive in Hls. pose proof (subseteq_size _ _ HY). unfold ENTRY_SECTORS_MAX, ADDRESSED_SECTORS_MAX in *. lia. }
  destruct (remove_sectors_ok size m Hsize Hm quant (proj1 Hu) (pt_faults p) (pt_recoveries p) hash_order Horder (expirations_epochs p) σ Hq Hσ l Hl)
    as (q' & -> & Hq'); rewrite ?Hn, ?Hlive; try apply Hs; try done.
  { by rewrite <- Hlive. }
  { apply Hsub, Hs. }
  { apply Hsub. destruct Hs. by trans (pt_faults p). }
  { intros n _. by apply target_all. }
  rewrite Hn in *. cbn [mbind result_bind]. cbn [on_time_sectors early_sectors on_time_pledge es_of].
  assert (Hall : X ∩ kind σ false ∪ X ∩ kind σ true = X).
  { apply set_eq. intros n. rewrite elem_of_union, !elem_of_intersection, !elem_of_kind. split; [tauto|]. intros HnX.
    assert (n ∈ dom σ) as [[e []] Hx]%elem_of_dom by (rewrite Hlive; by apply HX); [right|left]; (split; [done|by exists e]). }
  destruct (removed_power (pt_faults p) (X ∩ kind σ false) (X ∩ kind σ true)) as [Ha Hf].
  { pose proof (early_faulty c p σ H). set_solver. }
  rewrite Ha, Hf, Hall, record_early_ok by done. cbn [mbind result_bind].
  destruct (select_sectors_ok m l (X ∩ pt_unproven p) Hl) as (lu & -> & Hlu & Hnu); [rewrite Hn; set_solver|]. cbn [mbind result_bind].
  rewrite (infos_power size m lu Hlu), Hnu. match goal with |- context [validate_state ?x] => set (p' := x) end.
  assert (He' : early_ok p').
  { apply (early_record p p' epoch X X He); try done. unfold live_sectors in HX. set_solver. }
  destruct (leave_ok c p p' σ X q' H HX Hq' He') as [Hp' Hl']; try done.
  - cbn. set_solver.
  - cbn. rewrite (psum_split P X (pt_faults p)). pp_solve.
  - rewrite (state_valid size m Hsize Hm p') by apply Hp'. cbn [mbind result_bind mret result_ret]. by exists p'.
Qed.
Lemma terminate_err p epoch (o : UnvalidatedBitField) : outside (live_sectors p) o →
  terminate_sectors size quant hash_order p m epoch o = Err (Actor ErrIllegalArgument).
Proof. intros Ho. unfold terminate_sectors. destruct o as [X|]; [|done]. cbn [ok_or mbind result_bind]. unfold contains_all. by rewrite bool_decide_false. Qed.

(** ** Expiry *)

Lemma pop_expired_ok c p σ until :
  partition_ok c p σ → pt_unproven p = ∅ → pt_recoveries p = ∅ → 0 ≤ until < i64_max →
  let X := expired σ until in let Y := expired_kind σ until true in
  ∃ p', pop_expired_sectors p until = Ok (p', es_of size m (pt_faults p) (expired_kind σ until false) Y) ∧
    partition_ok c p' (del X σ) ∧ live_sectors p' = live_sectors p ∖ X ∧ pt_terminated p' = pt_terminated p ∪ X ∧
    early_terminated p' = (if decide (Y = ∅) then early_terminated p else <[until := default ∅ (early_terminated p !! until) ∪ Y]> (early_terminated p)).
Proof.
  intros H HU HR Hun. cbn zeta. pose proof H as [Hs Hmo He Hsz Hlive Hq Hσ Hc].
  destruct (pop_until_ok size m Hsize Hm quant (proj1 Hu) (expirations_epochs p) σ (pt_faults p) until Hq Hσ) as (q' & Hpop & Hq').
  set (X := expired σ until) in *. set (Y := expired_kind σ until true) in *.
  assert (Hall : expired_kind σ until false ∪ Y = X).
  { apply set_eq. intros n. unfold X, Y. rewrite elem_of_union, !elem_of_expired_kind, elem_of_expired. split; [naive_solver|]. intros (e & [] & ?); eauto. }
  assert (HX : X ⊆ live_sectors p) by (rewrite <- Hlive; intros n (e & b & Hn & _)%elem_of_expired; by eapply elem_of_dom_2).
  assert (HYF : Y ⊆ pt_faults p).
  { intros n (e & Hn & _)%elem_of_expired_kind. by apply Hσ in Hn as (_ & _ & ?%(λ H, H eq_refl)). }
  unfold pop_expired_sectors. rewrite HU, bool_decide_true by done. cbn [negb throw_if mbind result_bind]. rewrite Hpop. cbn [mbind result_bind].
  cbn [on_time_sectors early_sectors es_of]. destruct (removed_power (pt_faults p) (expired_kind σ until false) Y HYF) as [Ha Hf].
  rewrite Ha, Hf, Hall, HR, bool_decide_true by done. cbn [negb throw_if mbind result_bind].
  assert (Hz : pp_is_zero (recovering_power p) = true) by (by rewrite (mo_recovering _ _ _ Hmo), HR, psum_empty).
  rewrite Hz. cbn [negb throw_if mbind result_bind]. unfold contains_any. rewrite bool_decide_true by (unfold live_sectors in HX; set_solver).
  cbn [negb throw_if mbind result_bind]. rewrite record_early_ok by done. cbn [mbind result_bind].
  match goal with |- context [validate_state ?x] => set (p' := x) end.
  assert (He' : early_ok p').
  { apply (early_record p p' until Y X He); try done; [set_solver|]. unfold live_sectors in HX. set_solver. }
  destruct (leave_ok c p p' σ X q' H HX Hq' He') as [Hp' Hl']; try done.
  - cbn. rewrite HU. set_solver.
  - cbn. rewrite HR. set_solver.
  - cbn. rewrite (psum_split P X (pt_faults p)). pp_solve.
  - cbn. rewrite HU, psum_empty_set by set_solver. pp_solve.
  - cbn. rewrite HR, psum_empty_set by set_solver. pp_solve.
  - rewrite (state_valid size m Hsize Hm p') by apply Hp'. cbn [mbind result_bind mret result_ret]. by exists p'.
Qed.

(** ** Replacement *)

Lemma pt_replace_ok (m' : Sectors) c p σ old new :
  partition_ok c p σ → table_wf m' → infos m old → infos m' new → numbers old ⊆ active_sectors p →
  numbers new ## pt_sectors p ∖ numbers old → (∀ n, n ∈ live_sectors p ∖ numbers old → m' !! n = m !! n) →
  Z.of_nat (base.size (pt_sectors p ∖ numbers old ∪ numbers new)) ≤ ENTRY_SECTORS_MAX →
  let d := (psum (info_power size m') (numbers new) - psum P (numbers old))%pw in
  ∃ p', pt_replace_sectors size quant hash_order p old new = Ok (p', (d, ssum (info_pledge m') (numbers new) - ssum G (numbers old))) ∧
    PartitionSpec.partition_ok size m' quant c p' (activate m' quant (numbers new) (del (numbers old) σ)) ∧
    live_sectors p' = live_sectors p ∖ numbers old ∪ numbers new ∧ live_power p' = (live_power p + d)%pw.
Proof.
  intros H Hm' Hold Hnew HO HN Hagree Hsize'. cbn zeta. set (O := numbers old) in *. set (N := numbers new) in *.
  pose proof H as [Hs Hmo He Hsz Hlive Hq Hσ Hc]. unfold active_sectors in HO.
  assert (HOl : O ⊆ live_sectors p ∖ pt_faults p) by set_solver.
  assert (HNT : N ## pt_terminated p) by (destruct Hs; unfold live_sectors in *; set_solver).
  assert (HNF : N ## pt_faults p) by (destruct Hs; unfold live_sectors in *; set_solver).
  destruct (replace_sectors_ok size m m' Hsize Hm Hm' quant (proj1 Hu) hash_order Horder (expirations_epochs p) σ (pt_faults p) Hq Hσ old new Hold Hnew)
    as (q' & Hrep & Hq'); fold O N; rewrite ?Hlive.
  { intros n Hn. split; [by apply HOl|by apply target_all]. }
  { intros n Hn. split; [|by apply target_all]. unfold live_sectors. set_solver. }
  { done. }
  unfold pt_replace_sectors. rewrite Hrep. cbn [mbind result_bind]. fold O N. fold O N in Hq'. unfold contains_all, active_sectors.
  rewrite bool_decide_true by done. cbn [negb throw_if mbind result_bind]. match goal with |- context [validate_state ?x] => set (p' := x) end.
  assert (Hlive' : live_sectors p' = live_sectors p ∖ O ∪ N) by (unfold live_sectors; cbn; destruct Hs; set_solver).
  assert (Hsame : ∀ Y, Y ⊆ live_sectors p ∖ O → psum (info_power size m') Y = psum P Y).
  { intros Y HY. apply psum_ext. intros n Hn%HY%Hagree. unfold info_power. by rewrite Hn. }
  assert (Hs' : sets_ok p').
  { destruct Hs. split; rewrite ?Hlive'; cbn; set_solver. }
  assert (Hmo' : memos_ok size m' p').
  { destruct Hmo as [Hl1 Hl2 Hl3 Hl4]. destruct Hs. split; rewrite ?Hlive'; cbn.
    - rewrite psum_union by (unfold live_sectors; set_solver). rewrite (Hsame (live_sectors p ∖ O)) by done.
      rewrite psum_difference by set_solver. rewrite Hl1. pp_solve.
    - rewrite Hsame by set_solver. done.
    - rewrite Hsame by set_solver. done.
    - rewrite Hsame by set_solver. done. }
  rewrite (state_valid size m' Hsize Hm' p' Hs' Hmo'). cbn [mbind result_bind mret result_ret]. exists p'. split; [done|]. split; [|done].
  split; try done.
  - by destruct He.
  - rewrite Hlive', <- Hlive. apply set_eq. intros n. rewrite elem_of_dom, lookup_activate, lookup_del, elem_of_union, elem_of_difference, elem_of_dom. fold N O.
    repeat case_decide; (split; [|try by eexists]); try tauto. by intros [].
  - intros n e b. rewrite lookup_activate, lookup_del. fold N O. repeat case_decide; try done.
    + intros [= <- <-]. split_and!; [|by apply target_all|done]. destruct (infos_elem m' new n Hnew) as (s & _ & _ & Hms); [done|]. by eapply elem_of_dom_2.
    + intros Hx. pose proof (Hσ n e b Hx) as (Hd & ? & ?). split_and!; try done. apply elem_of_dom. rewrite Hagree; [by apply elem_of_dom|].
      rewrite <- Hlive. apply elem_of_difference. split; [|done]. by eapply elem_of_dom_2.
  - intros n e. rewrite lookup_activate, lookup_del. repeat case_decide; try done. apply Hc.
Qed.
End spec.
