(* ===== verification/EarlyTerminations.v ===== *)
(** * Early terminations

    [pop_early_terminations] of [partition_state.rs] takes a bounded number of
    sectors out of the queue of early terminations, earliest epochs first. *)

From S2P Require Import Prelude Address Runtime Types Vesting MinerFunds Sectors Expirations Schedule ScheduleOps ScheduleRemove Partition PartitionSpec PartitionOps.

Implicit Types (X : gset Z) (p : Partition) (L : list (Z * gset Z)).

Lemma slice_sub X n : slice_first X n ⊆ X.
Proof. intros i. unfold slice_first, bits_of. rewrite elem_of_list_to_set. intros Hi. apply elem_of_bits. eapply elem_of_take in Hi as (? & ? & _). by eapply list_elem_of_lookup_2. Qed.
Lemma bits_length X : length (bits X) = base.size X.
Proof. rewrite bits_perm. done. Qed.
Lemma slice_len X n : 0 ≤ n ≤ bits_len X → bits_len (slice_first X n) = n.
Proof.
  intros Hn. unfold bits_len, slice_first, bits_of in *. rewrite size_list_to_set.
  - rewrite length_take, bits_length. lia.
  - eapply sublist_NoDup; [apply NoDup_bits|apply sublist_take].
Qed.

(** The number of sectors of a map of epochs to sectors. *)
Definition count_of L : Z := zsum ((λ e, bits_len e.2) <$> L).

Lemma count_cons k X L : count_of ((k, X) :: L) = bits_len X + count_of L.
Proof. done. Qed.
Lemma count_nil : count_of [] = 0.
Proof. done. Qed.

(** The queue [L] from which at most [limit] sectors are taken: whole entries,
    then possibly a part of the next one. *)
Inductive taken (limit : Z) : list (Z * gset Z) → list (Z * gset Z) → list (Z * gset Z) → Prop :=
  | taken_all : 0 ≤ limit → taken limit [] [] []
  | taken_entry k X L T R : bits_len X ≤ limit → taken (limit - bits_len X) L T R → taken limit ((k, X) :: L) ((k, X) :: T) R
  | taken_part k X L Y : 0 ≤ limit < bits_len X → Y ⊆ X → bits_len Y = limit → taken limit ((k, X) :: L) [(k, Y)] ((k, X ∖ Y) :: L)
  | taken_stop L : limit = 0 → L ≠ [] → taken limit L [] L.

(** The entries of the early-termination queue are non-empty, at proper epochs. *)
Definition entries_ok L : Prop := Forall (λ e, 0 ≤ e.1 < i64_max ∧ e.2 ≠ ∅) L.

(** What the loop has done. *)
Record popped (limit : Z) (s s' : EarlyPop) L T R : Prop := {
  pp_taken : taken limit L T R;
  pp_tr : tr_sectors (ep_result s') = list_to_map (reverse T) ∪ tr_sectors (ep_result s);
  pp_parts : partitions_processed (ep_result s') = partitions_processed (ep_result s);
  pp_count : sectors_processed (ep_result s') = sectors_processed (ep_result s) + count_of T;
  pp_rest : ∃ L1, (∃ L2, L = L1 ++ L2 ∧ match ep_remaining s' with
      | None => R = L2
      | Some (X, k) => ∃ Y L3, L2 = (k, Y) :: L3 ∧ R = (k, X) :: L3 end) ∧ ep_processed s' = ep_processed s ++ L1.*1 }.

Lemma bits_len_pos X : X ≠ ∅ → 0 < bits_len X.
Proof. intros HX. unfold bits_len. pose proof (size_non_empty_iff X). enough (base.size X ≠ 0%nat) by lia. apply size_non_empty_iff. by apply non_empty_inhabited_L || intros ?%leibniz_equiv. Qed.

Lemma as_i64_epoch e : 0 ≤ e < i64_max → as_i64 e = e ∧ as_usize e = e ∧ e ≤ AMT_MAX_INDEX.
Proof. intros He. split_and!; [apply as_i64_small; lia|apply as_usize_small; unfold i64_max in He; lia|unfold AMT_MAX_INDEX, usize_max, i64_max in *; lia]. Qed.

Lemma pop_early_loop max L s :
  entries_ok L → ep_remaining s = None → 0 ≤ max - sectors_processed (ep_result s) →
  ∃ s' T R, for_each_while (pop_early_step max) s L = Ok s' ∧ popped (max - sectors_processed (ep_result s)) s s' L T R.
Proof.
  intros HL. revert s. induction HL as [|[k X] L [Hk HX] HL IH]; intros s Hrem Hlim.
  { exists s, [], []. split; [done|]. split; [by apply taken_all|cbn; by rewrite (left_id_L ∅ (∪))|done|rewrite count_nil; lia|]. exists []. split; [|by rewrite app_nil_r].
    exists []. split; [done|]. by rewrite Hrem. }
  cbn [fst snd] in *. destruct (as_i64_epoch k Hk) as (Hi & _ & _). cbn [for_each_while].
  match goal with |- context [pop_early_step max s k X] => unfold pop_early_step at 2 end. cbv zeta. rewrite Hi.
  set (n := sectors_processed (ep_result s)) in *. destruct (Z.ltb_spec (max - n) (bits_len X)) as [Hlt|Hge]; cbn [mbind result_bind mret result_ret].
  - rewrite (proj2 (Z.ltb_ge (n + (max - n)) max)) by lia. set (Y := slice_first X (max - n)).
    assert (HYlen : bits_len Y = max - n) by (apply slice_len; lia). eexists _, [(k, Y)], ((k, X ∖ Y) :: L). split; [done|].
    split; cbn [ep_processed ep_remaining ep_result tr_sectors partitions_processed sectors_processed].
    + apply taken_part; [lia|apply slice_sub|done].
    + unfold reverse. cbn. rewrite insert_empty. by rewrite insert_union_singleton_l.
    + done.
    + rewrite count_cons, count_nil. fold n. lia.
    + exists []. split; [|by rewrite app_nil_r]. exists ((k, X) :: L). split; [done|]. eauto.
  - destruct (Z.ltb_spec (n + bits_len X) max) as [Hgo|Hstop].
    + edestruct IH as (s' & T & R & Hloop & Hp); [| |exists s', ((k, X) :: T), R; split; [exact Hloop|]]; [done|cbn; lia|].
      destruct Hp as [Ht Htr Hpp Hc (L1 & (L2 & -> & Hrest) & Hproc)]. cbn [ep_processed ep_remaining ep_result tr_sectors partitions_processed sectors_processed] in *.
      split; try done.
      * apply taken_entry; [lia|]. by replace (max - n - bits_len X) with (max - (n + bits_len X)) by lia.
      * rewrite Htr, reverse_cons, list_to_map_app, <- (assoc_L (∪)). f_equal. cbn. rewrite insert_empty. by rewrite insert_union_singleton_l.
      * rewrite Hc, count_cons. fold n. lia.
      * exists ((k, X) :: L1). split; [by exists L2|]. rewrite Hproc. cbn. by rewrite <- app_assoc.
    + eexists _, [(k, X)], L. split; [done|].
      assert (Hz : max - n - bits_len X = 0) by lia. split; cbn [ep_processed ep_remaining ep_result tr_sectors partitions_processed sectors_processed].
      * apply taken_entry; [lia|]. destruct L; [constructor; lia|]. by apply taken_stop.
      * unfold reverse. cbn. rewrite insert_empty. by rewrite insert_union_singleton_l.
      * done.
      * rewrite count_cons, count_nil. fold n. lia.
      * exists [(k, X)]. split; [|done]. exists L. split; [done|]. by rewrite Hrem.
Qed.

Lemma bits_len_difference X Y : Y ⊆ X → bits_len (X ∖ Y) = bits_len X - bits_len Y.
Proof. intros HY. unfold bits_len. rewrite size_difference by done. pose proof (subseteq_size Y X HY). lia. Qed.

(** What is taken and what is left make up the queue; the limit is used up when
    something is left. *)
Lemma taken_count limit L T R :
  taken limit L T R → count_of T + count_of R = count_of L ∧ count_of T ≤ limit ∧ (R ≠ [] → count_of T = limit).
Proof.
  induction 1 as [limit Hl|limit k X L T R Hl Ht IH|limit k X L Y Hl HY Hlen|limit L Hl HL]; rewrite ?count_cons, ?count_nil.
  - split_and!; [lia|done|done].
  - destruct IH as (? & ? & IH). split_and!; [lia|lia|]. intros HR%IH. lia.
  - rewrite bits_len_difference by done. split_and!; [lia|lia|intros _; lia].
  - split_and!; [lia|lia|intros _; lia].
Qed.
Lemma taken_rest limit L T R k X : taken limit L T R → entries_ok L → (k, X) ∈ R → ∃ Y, (k, Y) ∈ L ∧ X ⊆ Y ∧ X ≠ ∅.
Proof.
  intros Ht HL. induction Ht as [limit Hl|limit k' X' L T R Hl Ht IH|limit k' X' L Y Hl HY Hlen|limit L Hl HL']; intros Hin.
  - by apply not_elem_of_nil in Hin.
  - apply Forall_cons in HL as [_ HL]. destruct (IH HL Hin) as (Y & ? & ? & ?). exists Y. split_and!; [by right|done|done].
  - apply Forall_cons in HL as [_ HL]. apply elem_of_cons in Hin as [[= -> ->]|Hin].
    + exists X'. split_and!; [by left|set_solver|]. intros He. pose proof (bits_len_difference X' Y HY) as Hd. rewrite He in Hd.
      unfold bits_len in Hd at 1. rewrite size_empty in Hd. lia.
    + exists X. split_and!; [by right|done|]. unfold entries_ok in HL. rewrite Forall_forall in HL. by apply (HL (k, X)).
  - exists X. unfold entries_ok in HL. rewrite Forall_forall in HL. split_and!; [done|done|]. by apply (HL (k, X)).
Qed.
Lemma taken_keys limit L T R : taken limit L T R → R.*1 `sublist_of` L.*1.
Proof.
  induction 1; cbn; [done|by apply sublist_cons|done|done].
Qed.

Section spec.
Context (size : Z) (m : Sectors) (Hsize : 0 < size) (Hm : table_wf m) (quant : QuantSpec).

Lemma pop_early_ok c p σ max :
  partition_ok size m quant c p σ → 0 ≤ max →
  ∃ p' T R, pop_early_terminations p max =
      Ok (p', ({| tr_sectors := list_to_map (reverse T); partitions_processed := 1; sectors_processed := count_of T |}, negb (bool_decide (R = [])))) ∧
    taken max (amt_entries (early_terminated p)) T R ∧ early_terminated p' = list_to_map R ∧
    partition_ok size m quant c p' σ ∧ live_sectors p' = live_sectors p ∧ pt_terminated p' = pt_terminated p.
Proof.
  intros H Hmax. pose proof H as [Hs Hmo [He Hd] Hsz Hlive Hq Hσ Hc]. set (q := early_terminated p) in *.
  assert (HL : entries_ok (amt_entries q)).
  { apply Forall_forall. intros [k X] Hk%elem_of_entries. by apply He in Hk as (? & ? & _). }
  destruct (pop_early_loop max (amt_entries q)
    {| ep_processed := []; ep_remaining := None; ep_result := {| tr_sectors := ∅; partitions_processed := 1; sectors_processed := 0 |} |} HL)
    as (s & T & R & Hloop & [Ht Htr Hpp Hcnt (L1 & (L2 & HLL & Hrem) & Hproc)]); [done|cbn; lia|].
  cbn [ep_processed ep_remaining ep_result tr_sectors partitions_processed sectors_processed] in *. rewrite (right_id_L ∅ (∪)) in Htr.
  rewrite Z.sub_0_r in Ht. pose proof (entries_nodup q) as Hnd. rewrite HLL, fmap_app in Hnd.
  pose proof (NoDup_app L1.*1 L2.*1) as [Hnda _]. destruct (Hnda Hnd) as (Hnd1 & Hdis & Hnd2).
  unfold pop_early_terminations. fold q. rewrite Hloop. cbn [mbind result_bind]. rewrite Hproc, app_nil_l.
  destruct (amt_batch_delete_ok q L1.*1 Hnd1) as (q1 & -> & Hq1).
  { intros k ([k' X] & -> & Hk)%list_elem_of_fmap. assert (Hkq : (k', X) ∈ amt_entries q) by (rewrite HLL; apply elem_of_app; by left).
    apply elem_of_entries in Hkq. pose proof (He k' X Hkq) as (Hr & _). split; [by apply as_i64_epoch|by eexists]. }
  cbn [mbind result_bind].
  assert (Hlook : ∀ e, q1 !! e = (list_to_map L2 : gmap Z (gset Z)) !! e).
  { intros e. rewrite Hq1. case_decide as Hin.
    - symmetry. apply not_elem_of_list_to_map_1. intros He2. by eapply Hdis.
    - apply option_eq. intros X. rewrite <- elem_of_list_to_map by done. rewrite <- elem_of_entries, HLL, elem_of_app. split; [|tauto].
      intros [Hx|]; [|done]. destruct Hin. by apply (list_elem_of_fmap_2 fst) in Hx. }
  assert (Hq1' : q1 = list_to_map L2) by (apply map_eq; intros e; by rewrite Hlook).
  assert (Hq2 : match ep_remaining s with Some (X, e) => amt_set q1 (as_usize e) X | None => mret q1 end = Ok (list_to_map R)).
  { destruct (ep_remaining s) as [[X e]|]; [|by rewrite Hq1', Hrem]. destruct Hrem as (Y & L3 & -> & ->).
    assert (Hkq : (e, Y) ∈ amt_entries q) by (rewrite HLL; apply elem_of_app; right; by left). apply elem_of_entries in Hkq.
    destruct (as_i64_epoch e) as (_ & -> & Hi); [by apply He in Hkq as (? & _)|]. rewrite amt_set_ok, Hq1' by done. cbn. by rewrite insert_insert_eq. }
  rewrite Hq2. cbn [mbind result_bind]. match goal with |- context [validate_state ?x] => set (p' := x) end.
  rewrite (state_valid size m Hsize Hm p') by by destruct Hs, Hmo. cbn [mbind result_bind mret result_ret]. exists p', T, R.
  split_and!; try done; [|].
  - destruct (ep_result s) as [a b d]. cbn in *. subst a b d. do 4 f_equal. rewrite (bool_decide_ext (list_to_map R = ∅) (R = [])); [done|].
    destruct R as [|[k X] R]; [done|]. cbn. split; [|done]. by intros ?%insert_non_empty.
  - split; try done; [by destruct Hs|by destruct Hmo|]. assert (HndR : NoDup R.*1) by (eapply sublist_NoDup; [apply (entries_nodup q)|by eapply taken_keys]).
    assert (HR : ∀ e X, early_terminated p' !! e = Some X → ∃ Y, q !! e = Some Y ∧ X ⊆ Y ∧ X ≠ ∅).
    { intros e X. cbn. rewrite <- elem_of_list_to_map by done. intros Hx. destruct (taken_rest _ _ _ _ _ _ Ht HL Hx) as (Y & HY%elem_of_entries & ? & ?). eauto. }
    split.
    + intros e X (Y & HY & ? & ?)%HR. apply He in HY as (? & ? & ?). split_and!; [lia..|done|]. by trans Y.
    + intros e e' X X' (Y & HY & ? & ?)%HR (Y' & HY' & ? & ?)%HR Hne. pose proof (Hd e e' Y Y' HY HY' Hne). set_solver.
Qed.
End spec.
