(* ===== verification/PartitionHistory.v ===== *)
(** * Histories of a partition

    The life of a partition, from its creation, under the operations of
    [partition_state.rs] and changes of the table of sectors. *)

From S2P Require Import Prelude Address Runtime Types Vesting MinerFunds Sectors Expirations Schedule ScheduleOps ScheduleRemove Partition PartitionSpec PartitionOps EarlyTerminations.

(** ** Operations *)

Inductive PartOp :=
  | OAdd (proven : bool) (l : list SectorOnChainInfo)
  | OFaults (o : UnvalidatedBitField) (fault_expiration : Z)
  | OSkipped (o : UnvalidatedBitField) (fault_expiration : Z)
  | ODeclareRecovered (o : UnvalidatedBitField)
  | ORecover
  | OActivate
  | OReschedule (o : UnvalidatedBitField) (new_expiration : Z)
  | OReplace (old new : list SectorOnChainInfo) (m' : Sectors)
  | OTerminate (o : UnvalidatedBitField) (epoch : Z)
  | OExpire (until : Z)
  | OMissedPost (fault_expiration : Z)
  | OPopEarly (max_sectors : Z)
  | OTable (m' : Sectors).

Section history.
Context (size : Z) (quant : QuantSpec) (hash_order : gset Z → list Z).

(** An operation on a table and a partition, with the change of active power
    that it reports. *)
Definition run_op (m : Sectors) (p : Partition) (op : PartOp) : result BoxErr (Sectors * Partition * PowerPair) :=
  match op with
  | OAdd proven l => '(p, power) ← add_sectors size quant p proven l; mret (m, p, if proven then power else pp_zero)
  | OFaults o r =>
      '(p, d) ← record_faults size quant hash_order p m o r;
      let '(_, power_delta, _) := (d : gset Z * PowerPair * PowerPair) in mret (m, p, power_delta)
  | OSkipped o r =>
      '(p, d) ← record_skipped_faults size quant hash_order p m r o;
      let '(power_delta, _, _, _) := (d : PowerPair * PowerPair * PowerPair * bool) in mret (m, p, power_delta)
  | ODeclareRecovered o => p ← declare_faults_recovered size p m o; mret (m, p, pp_zero)
  | ORecover => '(p, power) ← recover_faults size quant p m; mret (m, p, power)
  | OActivate => let '(p, power) := activate_unproven p in mret (m, p, power)
  | OReschedule o r => '(p, _) ← pt_reschedule_expirations size quant hash_order p m r o; mret (m, p, pp_zero)
  | OReplace old new m' => '(p, d) ← pt_replace_sectors size quant hash_order p old new; mret (m', p, d.1)
  | OTerminate o epoch => '(p, removed) ← terminate_sectors size quant hash_order p m epoch o; mret (m, p, pp_neg (active_power removed))
  | OExpire until => '(p, popped) ← pop_expired_sectors p until; mret (m, p, pp_neg (active_power popped))
  | OMissedPost r =>
      '(p, d) ← record_missed_post quant p r;
      let '(power_delta, _, _) := (d : PowerPair * PowerPair * PowerPair) in mret (m, p, power_delta)
  | OPopEarly max => '(p, _) ← pop_early_terminations p max; mret (m, p, pp_zero)
  | OTable m' => mret (m', p, pp_zero)
  end.

(** The latest epoch of an early expiration. *)
Definition clock (c : Z) (op : PartOp) : Z :=
  match op with OFaults _ r | OSkipped _ r | OMissedPost r => quantize_up quant r | _ => c end.

(** What the callers ensure. *)
Definition op_ok (m : Sectors) (p : Partition) (c : Z) (op : PartOp) : Prop :=
  match op with
  | OAdd _ l => infos m l ∧ numbers l ## pt_sectors p ∧ Z.of_nat (base.size (pt_sectors p ∪ numbers l)) ≤ ENTRY_SECTORS_MAX
  | OFaults _ r | OSkipped _ r | OMissedPost r => 0 ≤ r ≤ 2 ^ 62 ∧ c ≤ quantize_up quant r
  | OReschedule o r => is_Some o ∧ 0 ≤ r ≤ 2 ^ 62
  | OReplace old new m' =>
      table_wf m' ∧ infos m old ∧ infos m' new ∧ numbers old ⊆ active_sectors p ∧ numbers new ## pt_sectors p ∖ numbers old ∧
      (∀ n, n ∈ live_sectors p ∖ numbers old → m' !! n = m !! n) ∧
      Z.of_nat (base.size (pt_sectors p ∖ numbers old ∪ numbers new)) ≤ ENTRY_SECTORS_MAX
  | OTerminate _ epoch => 0 ≤ epoch < i64_max
  | OExpire until => pt_unproven p = ∅ ∧ pt_recoveries p = ∅ ∧ 0 ≤ until < i64_max
  | OPopEarly max => 0 ≤ max
  | OTable m' => table_wf m' ∧ ∀ n, n ∈ live_sectors p → m' !! n = m !! n
  | ODeclareRecovered _ | ORecover | OActivate => True
  end.

(** Messages that name sectors outside the partition are refused. *)
Definition refused (p : Partition) (op : PartOp) : Prop :=
  match op with
  | OFaults o _ | OSkipped o _ | ODeclareRecovered o => outside (pt_sectors p) o
  | OTerminate o _ => outside (live_sectors p) o
  | _ => False
  end.

(** The states that are reached from a new partition. *)
Inductive reached : Sectors → Partition → Z → Prop :=
  | reached_new m c : table_wf m → reached m partition_new c
  | reached_step m p c op m' p' d : reached m p c → op_ok m p c op → run_op m p op = Ok (m', p', d) → reached m' p' (clock c op).
End history.

(** ** Proofs *)

#[global] Instance outside_dec S o : Decision (outside S o).
Proof. destruct o; cbn; apply _. Defined.
#[global] Instance refused_dec p op : Decision (refused p op).
Proof. destruct op; cbn; apply _. Defined.

(** Steps of a computation that succeeds, with pairs as intermediate values. *)
Ltac inv_step :=
  match goal with
  | H : mret ?x = @Ok ?E ?A ?y |- _ => change (@Ok E A x = @Ok E A y) in H
  | H : Ok _ = Ok _ |- _ => injection H; clear H; intros; try subst
  | H : (let '(_, _) := ?x in _) = Ok _ |- _ => destruct x
  | H : match ?l with [] => _ | _ :: _ => _ end = Ok _ |- _ => destruct l
  | _ => inv_ok_step
  end.
Ltac inv_run := repeat inv_step.

(** The reported changes of active power are the changes of active power. *)
Lemma add_faults_delta size quant ho p X l r p' d d' :
  add_faults size quant ho p X l r = Ok (p', (d, d')) → pt_active_power p' = (pt_active_power p + d)%pw.
Proof.
  unfold add_faults. intros H. inv_run. unfold pt_active_power. cbn.
  match goal with |- context [match ?l with [] => _ | _ :: _ => _ end] => generalize (match l with [] => pp_zero | _ :: _ => power_for_sectors size l end) end.
  intros x. pp_solve.
Qed.
Lemma remove_recoveries_active p X d : pt_active_power (remove_recoveries p X d) = pt_active_power p.
Proof. unfold remove_recoveries. by case_bool_decide. Qed.
Lemma zero_delta p : pt_active_power p = (pt_active_power p + pp_zero)%pw.
Proof. pp_solve. Qed.

Lemma run_delta size quant ho m p op m' p' d :
  run_op size quant ho m p op = Ok (m', p', d) → pt_active_power p' = (pt_active_power p + d)%pw.
Proof.
  destruct op as [pr l|o r|o r|o| | |o r|old new m1|o ep|un|r|mx|m1]; cbn [run_op]; intros H.
  - unfold add_sectors in H. inv_run. unfold pt_active_power. cbn. destruct pr; pp_solve.
  - unfold record_faults in H. inv_run; [apply zero_delta|]. cbn [fst snd] in *. destruct p1. by eapply add_faults_delta.
  - unfold record_skipped_faults in H. inv_run; [apply zero_delta| |by destruct e].
    rewrite remove_recoveries_active. destruct p1. by eapply add_faults_delta.
  - unfold declare_faults_recovered in H. inv_run. apply (zero_delta p).
  - unfold recover_faults in H. inv_run. unfold pt_active_power. cbn. pp_solve.
  - unfold activate_unproven in H. inv_run. unfold pt_active_power. cbn. pp_solve.
  - unfold pt_reschedule_expirations in H. inv_run. apply (zero_delta p).
  - unfold pt_replace_sectors in H. inv_run. unfold pt_active_power. cbn. pp_solve.
  - unfold terminate_sectors in H. inv_run. unfold pt_active_power. cbn. pp_solve.
  - unfold pop_expired_sectors in H. inv_run. unfold pt_active_power. cbn. pp_solve.
  - unfold record_missed_post in H. inv_run. unfold pt_active_power. cbn. pp_solve.
  - unfold pop_early_terminations in H. inv_run; apply (zero_delta p).
  - inv_run. apply zero_delta.
Qed.

Section history_ok.
Context (size : Z) (Hsize : 0 < size) (quant : QuantSpec) (Hu : 0 < q_unit quant ≤ 2 ^ 60).
Context (hash_order : gset Z → list Z) (Horder : ∀ X, hash_order X ≡ₚ elements X).
Notation run := (run_op size quant hash_order).
Notation partition_ok := (partition_ok size).

Lemma table_ok m m' c p σ :
  partition_ok m quant c p σ → (∀ n, n ∈ live_sectors p → m' !! n = m !! n) → partition_ok m' quant c p σ.
Proof.
  intros [Hs Hmo He Hsz Hlive Hq Hσ Hc] Ha.
  assert (Hsame : ∀ Y, Y ⊆ live_sectors p → psum (info_power size m') Y = psum (info_power size m) Y).
  { intros Y HY. apply psum_ext. intros n Hn%HY%Ha. unfold info_power. by rewrite Hn. }
  split; try done.
  - destruct Hmo as [Hl1 Hl2 Hl3 Hl4], Hs. split; rewrite Hsame; try done. by trans (pt_faults p).
  - eapply rep_table; [|exact Hq]. intros n. rewrite Hlive. apply Ha.
  - intros n e b Hn. pose proof (Hσ n e b Hn) as (Hd & ? & ?). split_and!; try done. apply elem_of_dom. rewrite Ha; [by apply elem_of_dom|].
    rewrite <- Hlive. by eapply elem_of_dom_2.
Qed.

Lemma step_ok m c p σ op :
  table_wf m → partition_ok m quant c p σ → op_ok quant m p c op →
  if decide (refused p op) then run m p op = Err (Actor ErrIllegalArgument)
  else ∃ m' p' d σ', run m p op = Ok (m', p', d) ∧ table_wf m' ∧ partition_ok m' quant (clock quant c op) p' σ'.
Proof.
  intros Hm H Hop. destruct (decide (refused p op)) as [Href|Href].
  - destruct op; cbn in *; try done.
    + by rewrite record_faults_err.
    + by rewrite record_skipped_err.
    + by rewrite declare_recovered_err.
    + by rewrite terminate_err.
  - destruct op as [pr l|[X|] r|[X|] r|[X|]| | |[X|] r|old new m1|[X|] ep|un|r|mx|m1]; cbn [op_ok refused outside clock] in *;
      try (by destruct (Href I)); try apply dec_stable in Href; unfold run_op.
    + destruct Hop as (Hl & Hd & Hsz). destruct (add_sectors_ok size m Hsize Hm quant Hu hash_order Horder c p σ pr l H Hl Hd Hsz) as (p' & -> & Hp' & _).
      by eexists _, _, _, _.
    + destruct Hop as [Hr Hc]. destruct (record_faults_ok size m Hsize Hm quant Hu hash_order Horder c p σ X r H Href Hr Hc) as (p' & σ' & -> & Hp' & _).
      by eexists _, _, _, _.
    + destruct Hop as [Hr Hc]. destruct (record_skipped_ok size m Hsize Hm quant Hu hash_order Horder c p σ X r H Href Hr Hc) as (p' & σ' & -> & Hp' & _).
      by eexists _, _, _, _.
    + destruct (declare_recovered_ok size m Hsize Hm quant Hu hash_order Horder c p σ X H Href) as (p' & -> & Hp' & _). by eexists _, _, _, _.
    + destruct (recover_faults_ok size m Hsize Hm quant Hu hash_order Horder c p σ H) as (p' & -> & Hp' & _). by eexists _, _, _, _.
    + destruct (activate_unproven_ok size m quant c p σ H) as (Hp' & _). by eexists _, _, _, _.
    + destruct Hop as [_ Hr]. destruct (pt_reschedule_ok size m Hsize Hm quant Hu hash_order Horder c p σ X r H Hr) as (p' & σ' & l & -> & _ & _ & Hp' & _).
      by eexists _, _, _, _.
    + by destruct Hop as [[] _].
    + destruct Hop as (Hm1 & Hold & Hnew & HO & HN & Ha & Hsz).
      destruct (pt_replace_ok size m Hsize Hm quant Hu hash_order Horder m1 c p σ old new H Hm1 Hold Hnew HO HN Ha Hsz) as (p' & -> & Hp' & _). by eexists _, _, _, _.
    + destruct (terminate_ok size m Hsize Hm quant Hu hash_order Horder c p σ ep X H Href Hop) as (p' & -> & Hp' & _). by eexists _, _, _, _.
    + destruct Hop as (HU & HR & Hun). destruct (pop_expired_ok size m Hsize Hm quant Hu hash_order Horder c p σ un H HU HR Hun) as (p' & -> & Hp' & _). by eexists _, _, _, _.
    + destruct Hop as [Hr Hc]. destruct (missed_post_ok size m Hsize Hm quant Hu hash_order Horder c p σ r H Hr Hc) as (p' & -> & Hp' & _). by eexists _, _, _, _.
    + destruct (pop_early_ok size m Hsize Hm quant c p σ mx H Hop) as (p' & T & R & -> & _ & _ & Hp' & _). by eexists _, _, _, _.
    + destruct Hop as [Hm1 Ha]. eexists _, _, _, σ. split_and!; [done|done|by eapply table_ok].
Qed.

Lemma reached_ok m p c : reached size quant hash_order m p c → table_wf m ∧ ∃ σ, partition_ok m quant c p σ.
Proof.
  induction 1 as [m c Hm|m p c op m' p' d Hr [Hm [σ IH]] Hop Hrun].
  - split; [done|]. exists ∅. by apply (new_ok size m Hsize Hm quant Hu hash_order).
  - pose proof (step_ok m c p σ op Hm IH Hop) as Hs. destruct (decide (refused p op)); [congruence|].
    destruct Hs as (m1 & p1 & d1 & σ1 & Hrun1 & Hm1 & Hp1). rewrite Hrun in Hrun1. injection Hrun1 as <- <- <-. by split; [|exists σ1].
Qed.

(** C3.  Whatever happens to a partition, its power memos are the sums over its
    sets of sectors, these sets stay consistent, and its expiration queue
    schedules each live sector exactly once, the early ones being faulty.  Every
    operation that is called as the deadline and the actor call it succeeds,
    unless a message names sectors outside the partition, which is refused as an
    illegal argument; and the change of power that it reports is the change of
    the partition's active power. *)
Theorem partition_correct m p c :
  reached size quant hash_order m p c →
  sets_ok p ∧ memos_ok size m p ∧
  (∃ σ, dom σ = live_sectors p ∧ queue_rep size m (expirations_epochs p) σ (pt_faults p) ∧ sched_ok m quant σ (pt_faults p)) ∧
  ∀ op, op_ok quant m p c op →
    if decide (refused p op) then run m p op = Err (Actor ErrIllegalArgument)
    else ∃ m' p' d, run m p op = Ok (m', p', d) ∧ reached size quant hash_order m' p' (clock quant c op) ∧
      pt_active_power p' = (pt_active_power p + d)%pw.
Proof.
  intros Hr. destruct (reached_ok m p c Hr) as [Hm [σ H]]. split_and!; [apply H|apply H| |].
  - exists σ. split_and!; apply H.
  - intros op Hop. pose proof (step_ok m c p σ op Hm H Hop) as Hs. destruct (decide (refused p op)); [done|].
    destruct Hs as (m' & p' & d & σ' & Hrun & _ & _). exists m', p', d. split_and!; [done|by eapply reached_step|by eapply run_delta].
Qed.


(** C17.  At the end of a deadline, exactly the sectors that are due expire, and
    are terminated; those that expire because of a fault are recorded for the
    termination fee.  Later, the recorded early terminations are taken, earliest
    first, at most [max] at a time, and none is lost. *)
Theorem expiry_and_early_terminations m p c until max :
  reached size quant hash_order m p c → pt_unproven p = ∅ → pt_recoveries p = ∅ → 0 ≤ until < i64_max → 0 ≤ max →
  ∃ σ p1 popped p2 T R more, dom σ = live_sectors p ∧ queue_rep size m (expirations_epochs p) σ (pt_faults p) ∧
    pop_expired_sectors p until = Ok (p1, popped) ∧
    on_time_sectors popped ∪ early_sectors popped = expired σ until ∧
    live_sectors p1 = live_sectors p ∖ expired σ until ∧ pt_terminated p1 = pt_terminated p ∪ expired σ until ∧
    pop_early_terminations p1 max = Ok (p2, ({| tr_sectors := list_to_map (reverse T); partitions_processed := 1; sectors_processed := count_of T |}, more)) ∧
    taken max (amt_entries (early_terminated p1)) T R ∧ early_terminated p2 = list_to_map R ∧
    count_of T + count_of R = count_of (amt_entries (early_terminated p1)) ∧ count_of T ≤ max ∧ (more = true → count_of T = max).
Proof.
  intros Hr HU HR Hun Hmax. destruct (reached_ok m p c Hr) as [Hm [σ H]].
  destruct (pop_expired_ok size m Hsize Hm quant Hu hash_order Horder c p σ until H HU HR Hun) as (p1 & Hpop & Hp1 & Hl1 & Ht1 & _).
  destruct (pop_early_ok size m Hsize Hm quant c p1 _ max Hp1 Hmax) as (p2 & T & R & Hearly & Htk & Hq & _).
  destruct (taken_count _ _ _ _ Htk) as (Hc1 & Hc2 & Hc3).
  eexists σ, p1, _, p2, T, R, _. split_and!; [apply H|apply H|exact Hpop| |done|done|exact Hearly|done|done|done|done|].
  - cbn [on_time_sectors early_sectors es_of]. apply set_eq. intros n. rewrite elem_of_union, !elem_of_expired_kind, elem_of_expired.
    split; [naive_solver|]. intros (e & [] & ?); eauto.
  - intros HRn%negb_true_iff%bool_decide_eq_false. auto.
Qed.
End history_ok.

(** ** An example *)

Definition ex_sector (n exp : Z) : SectorOnChainInfo :=
  {| sector_number := n; seal_proof := StackedDRG2KiBV1; sealed_cid := []; deal_ids := []; activation := 0; expiration := exp;
     deal_weight := 0; verified_deal_weight := 0; si_initial_pledge := 7; expected_day_reward := 0; expected_storage_pledge := 0;
     replaced_sector_age := 0; replaced_day_reward := 0 |}.
Definition ex_sectors : list SectorOnChainInfo := [ex_sector 1 15; ex_sector 2 58].
Definition ex_table : Sectors := {[1 := ex_sector 1 15; 2 := ex_sector 2 58]}.
Definition ex_quant : QuantSpec := {| q_unit := 10; q_offset := 3 |}.
Definition ex_run (m : Sectors) (p : Partition) (op : PartOp) : Partition :=
  match run_op 2048 ex_quant elements m p op with Ok (_, p, _) => p | Err _ => p end.
(** Two proven sectors; one is faulty, then recovering. *)
Definition ex_added : Partition := ex_run ex_table partition_new (OAdd true ex_sectors).
Definition ex_faulty : Partition := ex_run ex_table ex_added (OFaults (Some {[2]}) 30).
Definition ex_recovering : Partition := ex_run ex_table ex_faulty (ODeclareRecovered (Some {[2]})).

Lemma ex_table_wf : table_wf ex_table.
Proof. apply map_Forall_insert_2; [|apply map_Forall_singleton]; by vm_compute. Qed.
Lemma ex_infos : infos ex_table ex_sectors.
Proof. split; [|repeat constructor]. repeat constructor; set_solver. Qed.
Lemma ex_added_reached : reached 2048 ex_quant elements ex_table ex_added 0.
Proof.
  eapply (reached_step 2048 ex_quant elements ex_table partition_new 0 (OAdd true ex_sectors)); [apply reached_new, ex_table_wf| |].
  - split_and!; [apply ex_infos|set_solver|done].
  - unfold ex_added, ex_run. vm_compute. reflexivity.
Qed.
Lemma ex_faulty_reached : reached 2048 ex_quant elements ex_table ex_faulty 33.
Proof.
  eapply (reached_step 2048 ex_quant elements ex_table ex_added 0 (OFaults (Some {[2]}) 30)); [apply ex_added_reached|done|].
  vm_compute. reflexivity.
Qed.
Lemma ex_recovering_reached : reached 2048 ex_quant elements ex_table ex_recovering 33.
Proof.
  eapply (reached_step 2048 ex_quant elements ex_table ex_faulty 33 (ODeclareRecovered (Some {[2]}))); [apply ex_faulty_reached|done|].
  vm_compute. reflexivity.
Qed.

Lemma partition_correct_witness :
  memos_ok 2048 ex_table ex_recovering ∧
  (if decide (refused ex_recovering (OTerminate (Some {[3]}) 20)) then run_op 2048 ex_quant elements ex_table ex_recovering (OTerminate (Some {[3]}) 20) = Err (Actor ErrIllegalArgument)
   else ∃ m' p' d, run_op 2048 ex_quant elements ex_table ex_recovering (OTerminate (Some {[3]}) 20) = Ok (m', p', d) ∧
     reached 2048 ex_quant elements m' p' 33 ∧ pt_active_power p' = (pt_active_power ex_recovering + d)%pw).
Proof.
  destruct (partition_correct 2048 ltac:(done) ex_quant ltac:(done) elements (λ X, reflexivity _) ex_table ex_recovering 33 ex_recovering_reached) as (_ & Hm & _ & Hop).
  split; [exact Hm|]. apply (Hop (OTerminate (Some {[3]}) 20)). done.
Defined.


Lemma expiry_and_early_terminations_witness :
  ∃ σ p1 popped p2 T R more, dom σ = live_sectors ex_faulty ∧ queue_rep 2048 ex_table (expirations_epochs ex_faulty) σ (pt_faults ex_faulty) ∧
    pop_expired_sectors ex_faulty 40 = Ok (p1, popped) ∧
    on_time_sectors popped ∪ early_sectors popped = expired σ 40 ∧
    live_sectors p1 = live_sectors ex_faulty ∖ expired σ 40 ∧ pt_terminated p1 = pt_terminated ex_faulty ∪ expired σ 40 ∧
    pop_early_terminations p1 5 = Ok (p2, ({| tr_sectors := list_to_map (reverse T); partitions_processed := 1; sectors_processed := count_of T |}, more)) ∧
    taken 5 (amt_entries (early_terminated p1)) T R ∧ early_terminated p2 = list_to_map R ∧
    count_of T + count_of R = count_of (amt_entries (early_terminated p1)) ∧ count_of T ≤ 5 ∧ (more = true → count_of T = 5).
Proof.
  apply (expiry_and_early_terminations 2048 ltac:(done) ex_quant ltac:(done) elements (λ X, reflexivity _) ex_table ex_faulty 33 40 5 ex_faulty_reached);
    [by vm_compute|by vm_compute|done|done].
Defined.
