(* ===== verification/DeadlineAssign.v ===== *)
(** * Assignment of sectors to deadlines

    [deadline_assignment.rs] of [src/vm/actor/src/builtin/miner/].  New sectors
    go, one by one, to the deadline that comes first in the order [cmp]; the
    binary heap of the code is the list of its entries, whose greatest element
    in the reversed order is the least one in the order itself. *)

From S2P Require Import Prelude Address Runtime Types Vesting MinerFunds Sectors.

(** ** The order *)

Definition div_rounding_up (dividend divisor : Z) : Z :=
  dividend / divisor + (if 0 <? dividend mod divisor then 1 else 0).

Record DeadlineAssignmentInfo := { da_index : Z; da_live : Z; da_total : Z }.
Implicit Types (a b : DeadlineAssignmentInfo) (h : list DeadlineAssignmentInfo).

Section assign.
Context (max_partitions partition_size : Z).

Definition partitions_after_assignment a : Z := div_rounding_up (da_total a + 1) partition_size.
Definition compact_partitions_after_assignment a : Z := div_rounding_up (da_live a + 1) partition_size.
Definition is_full_now a : bool := da_total a mod partition_size =? 0.
Definition max_partitions_reached a : bool := partition_size * max_partitions <=? da_total a.

Definition then_with (c d : comparison) : comparison := match c with Eq => d | _ => c end.
Definition bool_cmp (x y : bool) : comparison :=
  match x, y with false, true => Lt | true, false => Gt | _, _ => Eq end.

Definition cmp a b : comparison :=
  then_with (compact_partitions_after_assignment a ?= compact_partitions_after_assignment b)
    (then_with (partitions_after_assignment a ?= partitions_after_assignment b)
      (then_with (bool_cmp (is_full_now a) (is_full_now b))
        (then_with (if negb (is_full_now a) && negb (is_full_now b) then CompOpp (da_total a ?= da_total b) else Eq)
          (then_with (da_live a ?= da_live b) (da_index a ?= da_index b))))).

(** ** The loop *)

(** [heap.peek_mut()]: the entry that comes first, and the others. *)
Fixpoint peek a h : DeadlineAssignmentInfo * list DeadlineAssignmentInfo :=
  match h with
  | [] => (a, [])
  | b :: h =>
      let '(x, rest) := peek b h in
      match cmp a x with Gt => (x, a :: rest) | _ => (a, x :: rest) end
  end.

Inductive AssignErr := NoDeadlines | LimitReached | IndexOutOfBounds.

Definition assigned a : DeadlineAssignmentInfo :=
  {| da_index := da_index a; da_live := da_live a + 1; da_total := da_total a + 1 |}.

(** [changes[i].push(x)] *)
Definition push_at {A} (changes : list (list A)) (i : Z) (x : A) : option (list (list A)) :=
  l ← changes !! Z.to_nat i; Some (<[Z.to_nat i := l ++ [x]]> changes).

Fixpoint assign_loop {A} (h : list DeadlineAssignmentInfo) (changes : list (list A)) (sectors : list A)
    : result AssignErr (list (list A)) :=
  match sectors with
  | [] => mret changes
  | sector :: sectors =>
      match h with
      | [] => Err NoDeadlines
      | a :: h =>
          let '(info, rest) := peek a h in
          if max_partitions_reached info then Err LimitReached
          else
            changes ← ok_or (push_at changes (da_index info) sector) IndexOutOfBounds;
            assign_loop (assigned info :: rest) changes sectors
      end
  end.

(** The deadlines are given by their numbers of live and of all sectors; those
    that are not to be assigned to are left out. *)
Definition heap_of (deadlines : list (option (Z * Z))) : list DeadlineAssignmentInfo :=
  omap (λ e : nat * option (Z * Z), d ← e.2; Some {| da_index := Z.of_nat e.1; da_live := d.1; da_total := d.2 |})
    (imap pair deadlines).

Definition assign_deadlines {A} (deadlines : list (option (Z * Z))) (sectors : list A) : result AssignErr (list (list A)) :=
  match heap_of deadlines with
  | [] => Err NoDeadlines
  | h => assign_loop h (replicate (Z.to_nat WPOST_PERIOD_DEADLINES) []) sectors
  end.
End assign.

(** ** The order is lexicographic *)

Fixpoint lex (x y : list Z) : comparison :=
  match x, y with
  | [], [] => Eq
  | [], _ :: _ => Lt
  | _ :: _, [] => Gt
  | i :: x, j :: y => then_with (i ?= j) (lex x y)
  end.

Lemma lex_refl x : lex x x = Eq.
Proof. induction x as [|i x IH]; cbn; [done|]. by rewrite Z.compare_refl. Qed.
Lemma lex_antisym x y : lex y x = CompOpp (lex x y).
Proof.
  revert y. induction x as [|i x IH]; intros [|j y]; cbn; try done. rewrite (Z.compare_antisym i j). by destruct (i ?= j); cbn; [apply IH|..].
Qed.
Lemma lex_trans x y z : lex x y ≠ Gt → lex y z ≠ Gt → lex x z ≠ Gt.
Proof.
  revert y z. induction x as [|i x IH]; intros [|j y] [|k z]; cbn; try done.
  destruct (Z.compare_spec i j), (Z.compare_spec j k), (Z.compare_spec i k); cbn; try done; try lia. apply IH.
Qed.
Lemma lex_eq x y : lex x y = Eq → x = y.
Proof.
  revert y. induction x as [|i x IH]; intros [|j y]; cbn; try done. destruct (Z.compare_spec i j); cbn; try done. intros ?%IH. congruence.
Qed.

Section spec.
Context (max p : Z) (Hp : 0 < p).
Notation cmp := (cmp p).
Notation peek := (peek p).

(** What the comments of the code list, in their order. *)
Definition key a : list Z :=
  [compact_partitions_after_assignment p a; partitions_after_assignment p a; if is_full_now p a then 1 else 0;
   if is_full_now p a then 0 else - da_total a; da_live a; da_index a].

Lemma cmp_key a b : cmp a b = lex (key a) (key b).
Proof.
  unfold DeadlineAssign.cmp, key. cbn [lex]. f_equal. f_equal. destruct (is_full_now p a), (is_full_now p b); cbn; try done.
  - destruct (da_live a ?= da_live b); cbn; try done. by destruct (da_index a ?= da_index b).
  - rewrite Z.compare_opp, (Z.compare_antisym (da_total a)). f_equal. f_equal. by destruct (da_index a ?= da_index b).
Qed.
Lemma cmp_total a b : cmp a b = Gt → cmp b a ≠ Gt.
Proof. rewrite !cmp_key, (lex_antisym (key a) (key b)). by intros ->. Qed.
Lemma cmp_trans a b c : cmp a b ≠ Gt → cmp b c ≠ Gt → cmp a c ≠ Gt.
Proof. rewrite !cmp_key. apply lex_trans. Qed.
Lemma cmp_index a b : cmp a b = Eq → da_index a = da_index b.
Proof. rewrite cmp_key. intros ?%lex_eq. unfold key in *. congruence. Qed.

Lemma peek_spec a h x rest :
  peek a h = (x, rest) → x :: rest ≡ₚ a :: h ∧ ∀ b, b ∈ a :: h → cmp x b ≠ Gt.
Proof.
  revert a x rest. induction h as [|c h IH]; intros a x rest; cbn.
  { intros [= <- <-]. split; [done|]. intros b ->%list_elem_of_singleton. by rewrite cmp_key, lex_refl. }
  destruct (peek c h) as [y r] eqn:E. destruct (IH c y r E) as [Hperm Hmin].
  assert (Hya : cmp a y ≠ Gt → ∀ b, b ∈ a :: c :: h → cmp a b ≠ Gt).
  { intros Hay b [->|Hb]%elem_of_cons; [by rewrite cmp_key, lex_refl|]. eapply cmp_trans; [exact Hay|by apply Hmin]. }
  destruct (cmp a y) eqn:Ec; intros [= <- <-].
  - split; [by rewrite Hperm|by apply Hya].
  - split; [by rewrite Hperm|by apply Hya].
  - split; [etrans; [apply Permutation_swap|by rewrite Hperm]|]. intros b [->|Hb]%elem_of_cons; [by apply cmp_total|by apply Hmin].
Qed.

(** The order of the entries in the heap does not matter. *)
Lemma peek_perm a h a' h' x rest x' rest' :
  NoDup (da_index <$> a :: h) → a :: h ≡ₚ a' :: h' → peek a h = (x, rest) → peek a' h' = (x', rest') → x = x' ∧ rest ≡ₚ rest'.
Proof.
  intros Hnd Hperm [Hp1 Hm1]%peek_spec [Hp2 Hm2]%peek_spec.
  assert (Hx : x = x').
  { assert (H1 : cmp x x' ≠ Gt) by (apply Hm1; rewrite Hperm, <- Hp2; by left).
    assert (H2 : cmp x' x ≠ Gt) by (apply Hm2; rewrite <- Hperm, <- Hp1; by left).
    assert (He : cmp x x' = Eq) by (revert H1 H2; rewrite !cmp_key, (lex_antisym (key x) (key x')); by destruct (lex (key x) (key x'))).
    apply cmp_index in He. assert (Hin : x ∈ a :: h) by (rewrite <- Hp1; by left). assert (Hin' : x' ∈ a :: h) by (rewrite Hperm, <- Hp2; by left).
    apply list_elem_of_lookup in Hin as [i Hi], Hin' as [j Hj]. assert (i = j); [|congruence].
    eapply (NoDup_lookup _ _ _ (da_index x) Hnd); rewrite list_lookup_fmap; [by rewrite Hi|rewrite Hj; cbn; congruence]. }
  subst x'. split; [done|]. apply (Permutation_cons_inv (a := x)). by rewrite Hp1, Hp2.
Qed.

(** ** What is assigned *)

Section loop.
Context {A : Type}.
Implicit Types (d : Z → list A) (changes : list (list A)).
Notation indices h := (da_index <$> h).

(** [d] says what each deadline gets. *)
Definition dealt d (ix : list Z) (sectors : list A) : Prop :=
  mjoin (d <$> ix) ≡ₚ sectors ∧ (∀ i, d i `sublist_of` sectors) ∧ ∀ i, i ∉ ix → d i = [].

Definition push d (i : Z) (x : A) : Z → list A := λ j, if decide (j = i) then x :: d j else d j.

Lemma mjoin_push d i x ix : NoDup ix → i ∈ ix → mjoin (push d i x <$> ix) ≡ₚ x :: mjoin (d <$> ix).
Proof.
  intros Hnd Hi. apply list_elem_of_split in Hi as (l1 & l2 & ->). apply NoDup_app in Hnd as (_ & H1 & [H2 _]%NoDup_cons).
  assert (Hsame : ∀ l : list Z, i ∉ l → push d i x <$> l = d <$> l).
  { intros l Hl. apply list_fmap_ext. intros k j Hj. unfold push. rewrite decide_False; [done|]. intros ->. by apply Hl, list_elem_of_lookup_2 with k. }
  rewrite !fmap_app, !fmap_cons, !join_app. cbn. rewrite !Hsame; [|done|intros ?; by eapply (H1 i); [|left]].
  unfold push. rewrite decide_True by done. cbn. by rewrite <- Permutation_middle.
Qed.

(** The room that is left when each deadline takes [t] partitions of live
    sectors. *)
Definition room (t : Z) h : Z := zsum ((λ a, t * p - da_live a) <$> h).
Lemma room_nil t : room t [] = 0.
Proof. done. Qed.
Lemma room_cons t a h : room t (a :: h) = t * p - da_live a + room t h.
Proof. done. Qed.
Lemma room_perm t h h' : h ≡ₚ h' → room t h = room t h'.
Proof. intros Hh. unfold room. apply zsum_perm. by rewrite Hh. Qed.
Lemma room_some t h : 0 < room t h → ∃ a, a ∈ h ∧ da_live a < t * p.
Proof.
  induction h as [|a h IH]; rewrite ?room_nil, ?room_cons; [lia|]. intros Hr. destruct (Z.lt_ge_cases (da_live a) (t * p)) as [|Hge].
  - exists a. split; [by left|done].
  - destruct IH as (b & ? & ?); [lia|]. exists b. split; [by right|done].
Qed.
Lemma div_rounding_up_le n t : div_rounding_up n p ≤ t ↔ n ≤ t * p.
Proof.
  unfold div_rounding_up. pose proof (Z.div_mod n p ltac:(lia)). pose proof (Z.mod_pos_bound n p Hp).
  destruct (Z.ltb_spec 0 (n mod p)); split; nia.
Qed.

Lemma assign_loop_spec h changes sectors changes' :
  NoDup (indices h) → (∀ i, i ∈ indices h → 0 ≤ i < Z.of_nat (length changes)) →
  assign_loop max p h changes sectors = Ok changes' →
  ∃ d, dealt d (indices h) sectors ∧
    (∀ i : nat, changes' !! i = (λ l, l ++ d (Z.of_nat i)) <$> changes !! i) ∧
    (∀ a, a ∈ h → d (da_index a) ≠ [] → da_total a + Z.of_nat (length (d (da_index a))) ≤ p * max) ∧
    ∀ t, (∀ a, a ∈ h → da_live a ≤ t * p) → Z.of_nat (length sectors) ≤ room t h →
      ∀ a, a ∈ h → da_live a + Z.of_nat (length (d (da_index a))) ≤ t * p.
Proof.
  revert h changes. induction sectors as [|s sectors IH]; intros h changes Hnd Hix; cbn [assign_loop].
  { intros [= <-]. exists (λ _, []). split_and!; try done.
    - split_and!; [|by intros; apply sublist_nil_l|done]. clear. induction (indices h); done.
    - intros i. destruct (changes !! i); cbn; [by rewrite app_nil_r|done].
    - intros t Hl _ a Ha. cbn. specialize (Hl a Ha). lia. }
  destruct h as [|a0 h0]; [done|]. destruct (peek a0 h0) as [x rest] eqn:Ep. destruct (peek_spec _ _ _ _ Ep) as [Hperm Hmin].
  destruct (max_partitions_reached max p x) eqn:Efull; [done|]. unfold max_partitions_reached in Efull. apply Z.leb_gt in Efull.
  assert (Hpi : da_index x :: indices rest ≡ₚ indices (a0 :: h0)) by (rewrite <- Hperm; done).
  assert (Hx : 0 ≤ da_index x < Z.of_nat (length changes)) by (apply Hix; rewrite <- Hpi; by left).
  unfold push_at. destruct (lookup_lt_is_Some_2 changes (Z.to_nat (da_index x))) as [l Hl]; [lia|]. rewrite Hl. cbn [mbind option_bind ok_or result_bind].
  intros Hrun. destruct (IH (assigned x :: rest) (<[Z.to_nat (da_index x) := l ++ [s]]> changes)) as (d & (Hd1 & Hd2 & Hd3) & Hch & Hlim & Hopt); [| |exact Hrun|].
  { rewrite fmap_cons. cbn. by rewrite Hpi. }
  { intros i. rewrite fmap_cons, length_insert. cbn. rewrite Hpi. apply Hix. }
  cbn [fmap list_fmap assigned da_index] in *. exists (push d (da_index x) s). assert (Hxr : da_index x ∉ indices rest).
  { rewrite <- Hpi in Hnd. by apply NoDup_cons in Hnd as [? _]. }
  assert (Hother : ∀ b, b ∈ rest → da_index b ≠ da_index x).
  { intros b Hb He. apply Hxr. rewrite <- He. by apply (list_elem_of_fmap_2 da_index). }
  split_and!.
  - split_and!.
    + rewrite <- Hpi, mjoin_push; [by rewrite Hd1|by rewrite Hpi|by left].
    + intros i. unfold push. case_decide; [by apply sublist_skip|by apply sublist_cons].
    + intros i Hi. rewrite <- Hpi in Hi. unfold push. rewrite decide_False by (intros ->; apply Hi; by left). apply Hd3. done.
  - intros i. rewrite Hch. unfold push. destruct (decide (Z.of_nat i = da_index x)) as [He|Hne].
    + replace (Z.to_nat (da_index x)) with i in * by lia. rewrite list_lookup_insert_eq by (by eapply lookup_lt_Some). rewrite Hl. cbn. by rewrite <- app_assoc.
    + rewrite list_lookup_insert_ne by lia. done.
  - intros a Ha. rewrite <- Hperm in Ha. unfold push. apply elem_of_cons in Ha as [->|Ha].
    + rewrite decide_True by done. intros _. cbn [length]. destruct (decide (d (da_index x) = [])) as [->|Hne]; [cbn; lia|].
      specialize (Hlim (assigned x) ltac:(by left) Hne). cbn in Hlim. lia.
    + rewrite decide_False by (by apply Hother). apply (Hlim a). by right.
  - intros t Hlive Hroom. destruct (room_some t (a0 :: h0)) as (b & Hb & Hbl); [cbn [length] in Hroom; lia|].
    assert (Hxt : da_live x + 1 ≤ t * p).
    { apply div_rounding_up_le. etrans; [|apply (div_rounding_up_le (da_live b + 1)); lia].
      specialize (Hmin b Hb). revert Hmin. rewrite cmp_key. unfold key, compact_partitions_after_assignment. cbn [lex].
      destruct (Z.compare_spec (div_rounding_up (da_live x + 1) p) (div_rounding_up (da_live b + 1) p)); cbn; try lia. done. }
    assert (Hr' : room t (assigned x :: rest) = room t (a0 :: h0) - 1).
    { rewrite <- (room_perm t _ _ Hperm), !room_cons. cbn. lia. }
    specialize (Hopt t). intros a Ha. rewrite <- Hperm in Ha. unfold push. 
    assert (Hopt' : ∀ a, a ∈ assigned x :: rest → da_live a + Z.of_nat (length (d (da_index a))) ≤ t * p).
    { apply Hopt; [|rewrite Hr'; cbn [length] in Hroom; lia]. intros c [->|Hc]%elem_of_cons; [cbn; lia|]. apply Hlive. rewrite <- Hperm. by right. }
    apply elem_of_cons in Ha as [->|Ha].
    + rewrite decide_True by done. specialize (Hopt' (assigned x) ltac:(by left)). cbn in *. lia.
    + rewrite decide_False by (by apply Hother). apply Hopt'. by right.
Qed.
End loop.

(** The result does not depend on how the heap arranges its entries. *)
Lemma assign_loop_perm {A} h h' (changes : list (list A)) sectors :
  NoDup (da_index <$> h) → h ≡ₚ h' → assign_loop max p h changes sectors = assign_loop max p h' changes sectors.
Proof.
  revert h h' changes. induction sectors as [|s sectors IH]; intros h h' changes Hnd Hh; [done|]. cbn [assign_loop].
  destruct h as [|a h], h' as [|a' h']; [done|by apply Permutation_nil_cons in Hh|by symmetry in Hh; apply Permutation_nil_cons in Hh|].
  destruct (peek a h) as [x rest] eqn:E1, (peek a' h') as [x' rest'] eqn:E2. destruct (peek_perm a h a' h' x rest x' rest' Hnd Hh E1 E2) as [<- Hrest].
  destruct (max_partitions_reached max p x); [done|]. destruct (push_at changes (da_index x) s) as [ch|]; [|done]. cbn [ok_or mbind result_bind].
  apply IH; [|by rewrite Hrest]. destruct (peek_spec _ _ _ _ E1) as [Hperm _]. rewrite <- Hperm in Hnd. exact Hnd.
Qed.

(** ** The heap of the deadlines *)

Lemma elem_of_heap ds a : a ∈ heap_of ds ↔ ds !! Z.to_nat (da_index a) = Some (Some (da_live a, da_total a)) ∧ 0 ≤ da_index a.
Proof.
  unfold heap_of. rewrite list_elem_of_omap. split.
  - intros ([i o] & Hin & Ho). apply elem_of_lookup_imap in Hin as (j & y & Heq & Hj). injection Heq as -> ->. cbn in Ho. destruct y as [[l t]|]; [|done].
    injection Ho as <-. cbn. rewrite Nat2Z.id. split; [done|lia].
  - intros [Hds Hi]. exists (Z.to_nat (da_index a), Some (da_live a, da_total a)). split.
    + apply elem_of_lookup_imap. eauto.
    + cbn. destruct a. cbn in *. rewrite Z2Nat.id by lia. done.
Qed.
Lemma heap_imap_nodup (ds : list (option (Z * Z))) k :
  NoDup (da_index <$> omap (λ e : nat * option (Z * Z), d ← e.2; Some {| da_index := Z.of_nat e.1; da_live := d.1; da_total := d.2 |}) (imap (λ i, pair (k + i)%nat) ds)) ∧
  ∀ a, a ∈ omap (λ e : nat * option (Z * Z), d ← e.2; Some {| da_index := Z.of_nat e.1; da_live := d.1; da_total := d.2 |}) (imap (λ i, pair (k + i)%nat) ds) → Z.of_nat k ≤ da_index a.
Proof.
  revert k. induction ds as [|o ds IH]; intros k; cbn; [split; [constructor|by intros a ?%not_elem_of_nil]|].
  assert (Hext : imap ((λ i, pair (k + i)%nat) ∘ S) ds = imap (λ i, pair (S k + i)%nat) ds).
  { apply imap_ext. intros j x _. cbn. f_equal. lia. }
  rewrite Hext. destruct (IH (S k)) as [Hnd Hge]. destruct o as [[l t]|]; cbn.
  - split.
    + apply NoDup_cons. split; [|done]. intros (a & Ha & Hin)%list_elem_of_fmap. apply Hge in Hin. lia.
    + intros a [->|Ha]%elem_of_cons; [cbn; lia|]. apply Hge in Ha. lia.
  - split; [done|]. intros a Ha%Hge. lia.
Qed.
Lemma heap_nodup ds : NoDup (da_index <$> heap_of ds).
Proof. apply (heap_imap_nodup ds 0). Qed.

Lemma mjoin_cons' {A} (d : Z → list A) i L : mjoin (d <$> i :: L) = d i ++ mjoin (d <$> L).
Proof. done. Qed.
Lemma mjoin_support {A} (d : Z → list A) (L ix : list Z) :
  NoDup L → NoDup ix → (∀ i, i ∈ ix → i ∈ L) → (∀ i, i ∉ ix → d i = []) → mjoin (d <$> L) ≡ₚ mjoin (d <$> ix).
Proof.
  intros HL Hix Hsub Hd. assert (Hf : mjoin (d <$> L) = mjoin (d <$> filter (λ i, i ∈ ix) L)).
  { clear HL Hsub. induction L as [|i L IH]; [done|]. rewrite filter_cons, mjoin_cons', IH. case_decide as Hi; [done|]. by rewrite Hd. }
  rewrite Hf. assert (Hperm : filter (λ i, i ∈ ix) L ≡ₚ ix); [|by rewrite Hperm].
  apply NoDup_Permutation; [by apply NoDup_filter|done|]. intros i. rewrite list_elem_of_filter. naive_solver.
Qed.

(** Some deadline is free as long as all of them have room for the rest. *)
Lemma assign_loop_succeeds {A} h (changes : list (list A)) sectors :
  h ≠ [] → (∀ i, i ∈ da_index <$> h → 0 ≤ i < Z.of_nat (length changes)) →
  (∀ a, a ∈ h → da_total a + Z.of_nat (length sectors) ≤ p * max) →
  ∃ changes', assign_loop max p h changes sectors = Ok changes'.
Proof.
  revert h changes. induction sectors as [|s sectors IH]; intros h changes Hne Hix Hroom; [by eexists|].
  destruct h as [|a0 h0]; [done|]. cbn [assign_loop]. destruct (peek a0 h0) as [x rest] eqn:Ep. destruct (peek_spec _ _ _ _ Ep) as [Hperm _].
  assert (Hx : x ∈ a0 :: h0) by (rewrite <- Hperm; by left). cbn [length] in Hroom. pose proof (Hroom x Hx) as Hxr.
  unfold max_partitions_reached. rewrite (proj2 (Z.leb_gt _ _)) by lia.
  assert (Hxi : 0 ≤ da_index x < Z.of_nat (length changes)) by (apply Hix; by apply (list_elem_of_fmap_2 da_index)).
  unfold push_at. destruct (lookup_lt_is_Some_2 changes (Z.to_nat (da_index x))) as [l Hl]; [lia|]. rewrite Hl. cbn [mbind option_bind ok_or result_bind].
  apply IH; [done| |].
  - intros i. rewrite length_insert. intros Hi. apply Hix. rewrite <- Hperm. exact Hi.
  - intros a [->|Ha]%elem_of_cons; [cbn; lia|]. specialize (Hroom a). rewrite <- Hperm in Hroom. specialize (Hroom ltac:(by right)). lia.
Qed.
End spec.


Definition ex_deadlines : list (option (Z * Z)) := [Some (3, 4); None; Some (0, 0); Some (1, 1)].


