(* ===== verification/SectorMaps.v ===== *)
(** * Proving periods and maps of sectors

    [deadlines.rs] and [sector_map.rs] of [src/vm/actor/src/builtin/miner/]. *)

From S2P Require Import Prelude Address Runtime Types Vesting MinerFunds Sectors Expirations Partition.

(** ** [deadlines.rs] *)

Definition new_deadline_info (proving_period_start deadline_idx current_epoch : Z) : DeadlineInfo :=
  deadline_info_new proving_period_start deadline_idx current_epoch WPOST_PERIOD_DEADLINES WPOST_PROVING_PERIOD
    WPOST_CHALLENGE_WINDOW WPOST_CHALLENGE_LOOKBACK FAULT_DECLARATION_CUTOFF.

Definition deadline_is_mutable (proving_period_start deadline_idx current_epoch : Z) : option bool :=
  deadline_info ← next_not_elapsed (new_deadline_info proving_period_start deadline_idx current_epoch);
  Some (current_epoch <? d_open deadline_info - WPOST_CHALLENGE_WINDOW).

Definition quant_spec_for_deadline (di : DeadlineInfo) : QuantSpec :=
  {| q_unit := WPOST_PROVING_PERIOD; q_offset := deadline_last di |}.

Definition deadline_available_for_optimistic_post_dispute (proving_period_start deadline_idx current_epoch : Z) : option bool :=
  if current_epoch <? proving_period_start then Some false
  else
    dl_info ← next_not_elapsed (new_deadline_info proving_period_start deadline_idx current_epoch);
    Some (negb (is_open dl_info) && (current_epoch <? d_close dl_info - WPOST_PROVING_PERIOD + WPOST_DISPUTE_WINDOW)).

Definition deadline_available_for_compaction (proving_period_start deadline_idx current_epoch : Z) : option bool :=
  m ← deadline_is_mutable proving_period_start deadline_idx current_epoch;
  if m : bool then
    d ← deadline_available_for_optimistic_post_dispute proving_period_start deadline_idx current_epoch;
    Some (negb d)
  else Some false.

Definition new_deadline_info_from_offset_and_epoch (period_start_seed current_epoch : Z) : DeadlineInfo :=
  let q := {| q_unit := WPOST_PROVING_PERIOD; q_offset := period_start_seed |} in
  let current_period_start := quantize_down q current_epoch in
  let current_deadline_idx := as_usize (Z.quot (current_epoch - current_period_start) WPOST_CHALLENGE_WINDOW) mod WPOST_PERIOD_DEADLINES in
  new_deadline_info current_period_start current_deadline_idx current_epoch.

(** ** [sector_map.rs] *)

Notation PartitionSectorMap := (gmap Z UnvalidatedBitField).
Notation DeadlineSectorMap := (gmap Z PartitionSectorMap).

(** The entries in the order of their keys. *)
Definition map_iter {V} (m : gmap Z V) : list (Z * V) := sort_by fst (map_to_list m).

Definition psm_add (pm : PartitionSectorMap) (partition_idx : Z) (sector_numbers : UnvalidatedBitField) : result BoxErr PartitionSectorMap :=
  match pm !! partition_idx with
  | Some old_sector_numbers =>
      old ← ok_or old_sector_numbers Plain;
      new ← ok_or sector_numbers Plain;
      mret (<[partition_idx := Some (old ∪ new)]> pm)
  | None => mret (<[partition_idx := sector_numbers]> pm)
  end.
Definition psm_add_values (pm : PartitionSectorMap) (partition_idx : Z) (sector_numbers : list Z) : result BoxErr PartitionSectorMap :=
  psm_add pm partition_idx (Some (bits_of sector_numbers)).

(** Sums with [checked_add]; they only grow, so that the result does not depend on
    the order of the hash map. *)
Definition add_checked (a b : Z) : result BoxErr Z := ok_or (checked_add_u64 a b) Plain.

Definition psm_count (pm : PartitionSectorMap) : result BoxErr (Z * Z) :=
  sectors ← try_fold (λ sectors e, bf ← ok_or (e.2 : UnvalidatedBitField) Plain; add_checked sectors (bits_len bf)) 0 (map_iter pm);
  mret (Z.of_nat (size pm), sectors).
Definition psm_partitions (pm : PartitionSectorMap) : list Z := (map_iter pm).*1.

Definition dsm_count (dm : DeadlineSectorMap) : result BoxErr (Z * Z) :=
  try_fold (λ acc e,
    let '(partitions, sectors) := acc : Z * Z in
    '(partition_count, sector_count) ← psm_count e.2;
    partitions ← add_checked partitions partition_count;
    sectors ← add_checked sectors sector_count;
    mret (partitions, sectors)) (0, 0) (map_iter dm).

Definition dsm_check (dm : DeadlineSectorMap) (max_partitions max_sectors : Z) : result BoxErr unit :=
  '(partition_count, sector_count) ← dsm_count dm;
  _ ← throw_if (max_partitions <? partition_count) Plain;
  throw_if (max_sectors <? sector_count) Plain.

Definition dsm_add (dm : DeadlineSectorMap) (deadline_idx partition_idx : Z) (sector_numbers : UnvalidatedBitField) : result BoxErr DeadlineSectorMap :=
  _ ← throw_if (WPOST_PERIOD_DEADLINES <=? deadline_idx) Plain;
  pm ← psm_add (default ∅ (dm !! deadline_idx)) partition_idx sector_numbers;
  mret (<[deadline_idx := pm]> dm).
Definition dsm_add_values (dm : DeadlineSectorMap) (deadline_idx partition_idx : Z) (sector_numbers : list Z) : result BoxErr DeadlineSectorMap :=
  dsm_add dm deadline_idx partition_idx (Some (bits_of sector_numbers)).
Definition dsm_deadlines (dm : DeadlineSectorMap) : list Z := (map_iter dm).*1.
