(* ===== verification/DeadlineState.v ===== *)
(** * Deadlines

    [deadline_state.rs] of [src/vm/actor/src/builtin/miner/], and [find_sector]
    of [deadlines.rs].  A deadline holds the partitions that are proven in one
    window of the proving period.  AMTs are the maps they hold, so that the roots
    of two of them are equal when the maps are. *)

From S2P Require Import Prelude Address Runtime Types Vesting MinerFunds Sectors Expirations Partition SectorMaps.

(** ** The state *)

(** [src/types/src/sector/post.rs] *)
Record WindowedPoSt := { wp_partitions : gset Z; wp_proofs : list PoStProof }.

Record Deadline := {
  dl_partitions : gmap Z Partition; dl_expirations : BitFieldQueue;
  partitions_posted : gset Z; early_terminations : gset Z;
  dl_live_sectors : Z; dl_total_sectors : Z; dl_faulty_power : PowerPair;
  optimistic_post_submissions : gmap Z WindowedPoSt;
  partitions_snapshot : gmap Z Partition; optimistic_post_submissions_snapshot : gmap Z WindowedPoSt }.

Record DisputeInfo := {
  all_sector_nos : gset Z; ignored_sector_nos : gset Z; disputed_sectors : PartitionSectorMap; disputed_power : PowerPair }.

Record PoStPartition := { pp_index : Z; pp_skipped : UnvalidatedBitField }.

Record PoStResult := {
  pr_power_delta : PowerPair; new_faulty_power : PowerPair; retracted_recovery_power : PowerPair; recovered_power : PowerPair;
  pr_sectors : gset Z; ignored_sectors : gset Z; pr_partitions : gset Z }.

Definition deadline_new : Deadline :=
  {| dl_partitions := ∅; dl_expirations := ∅; partitions_posted := ∅; early_terminations := ∅; dl_live_sectors := 0; dl_total_sectors := 0;
     dl_faulty_power := pp_zero; optimistic_post_submissions := ∅; partitions_snapshot := ∅; optimistic_post_submissions_snapshot := ∅ |}.

(** Partitions, queue, marks and memos are set; the proofs stay. *)
Definition set_deadline (d : Deadline) (ps : gmap Z Partition) (q : BitFieldQueue) (et : gset Z) (live total : Z) (fp : PowerPair) : Deadline :=
  {| dl_partitions := ps; dl_expirations := q; partitions_posted := partitions_posted d; early_terminations := et;
     dl_live_sectors := live; dl_total_sectors := total; dl_faulty_power := fp;
     optimistic_post_submissions := optimistic_post_submissions d; partitions_snapshot := partitions_snapshot d;
     optimistic_post_submissions_snapshot := optimistic_post_submissions_snapshot d |}.

(** [downcast_default] on a boxed error. *)
Definition or_default {A} (code : ExitCode) (r : result BoxErr A) : result BoxErr A :=
  match r with Err Plain => Err (Actor code) | r => r end.

Definition amt_count {V} (m : gmap Z V) : Z := Z.of_nat (size m).

Definition load_partition (d : Deadline) (partition_idx : Z) : result BoxErr Partition :=
  o ← or_default ErrIllegalState (amt_get (dl_partitions d) partition_idx);
  ok_or o (Actor ErrNotFound).
Definition load_partition_snapshot (d : Deadline) (partition_idx : Z) : result BoxErr Partition :=
  o ← or_default ErrIllegalState (amt_get (partitions_snapshot d) partition_idx);
  ok_or o (Actor ErrNotFound).

Definition dl_validate_state (d : Deadline) : result BoxErr unit :=
  _ ← throw_if (dl_total_sectors d <? dl_live_sectors d) Plain;
  throw_if (is_negative (dl_faulty_power d)) Plain.

#[global] Instance expiration_set_eq_dec : EqDecision ExpirationSet.
Proof. solve_decision. Defined.
#[global] Instance partition_eq_dec : EqDecision Partition.
Proof. solve_decision. Defined.
#[global] Instance windowed_post_eq_dec : EqDecision WindowedPoSt.
Proof. solve_decision. Defined.

Definition is_live (d : Deadline) : bool :=
  (0 <? dl_live_sectors d) || negb (bool_decide (partitions_posted d = ∅)) ||
  negb (bool_decide (dl_partitions d = partitions_snapshot d)) ||
  negb (bool_decide (optimistic_post_submissions d = optimistic_post_submissions_snapshot d)).

(** ** Operations *)

Section deadline.
Context (sector_size : Z) (quant : QuantSpec) (hash_order : gset Z → list Z).

Definition add_expiration_partitions (q : BitFieldQueue) (expiration_epoch : Z) (partitions : list Z) : result BoxErr BitFieldQueue :=
  match partitions with [] => mret q | _ => bfq_add_to_queue_values quant q expiration_epoch partitions end.

Definition pop_expired_partitions (d : Deadline) (until : Z) : result BoxErr (BitFieldQueue * (gset Z * bool)) :=
  bfq_pop_until (dl_expirations d) until.

(** One partition of [pop_expired_sectors]: the partitions, those with early
    terminations, and the merged set. *)
Definition pop_expired_one (until : Z) (acc : gmap Z Partition * (list Z * ExpirationSet)) (partition_idx : Z)
    : result BoxErr (gmap Z Partition * (list Z * ExpirationSet)) :=
  let '(ps, (early, all)) := acc in
  o ← amt_get ps partition_idx;
  p ← ok_or o Plain;
  '(p, popped) ← pop_expired_sectors p until;
  ps ← amt_set ps partition_idx p;
  mret (ps, (if bool_decide (early_sectors popped = ∅) then early else early ++ [partition_idx], es_merge all popped)).

Definition dl_pop_expired_sectors (d : Deadline) (until : Z) : result BoxErr (Deadline * ExpirationSet) :=
  '(q, r) ← pop_expired_partitions d until;
  let '(expired_partitions, modified) := (r : gset Z * bool) in
  if negb modified then mret (d, es_empty)
  else
    '(ps, r) ← try_fold (pop_expired_one until) (dl_partitions d, ([], es_empty)) (bits expired_partitions);
    let '(early, all) := (r : list Z * ExpirationSet) in
    let count := bits_len (on_time_sectors all) + bits_len (early_sectors all) in
    mret (set_deadline d ps q (early_terminations d ∪ bits_of early) (wrap_u64 (dl_live_sectors d - count)) (dl_total_sectors d)
            (dl_faulty_power d - faulty_power all), all).

(** The updates of the expiration queue: for each expiration, the partitions, a
    partition once when its sectors are next to each other. *)
Definition record_update (updates : list (Z * list Z)) (epoch partition_idx : Z) : list (Z * list Z) :=
  match list_find (λ e, e.1 = epoch) updates with
  | Some (i, e) => if bool_decide (last e.2 = Some partition_idx) then updates else <[i := (epoch, e.2 ++ [partition_idx])]> updates
  | None => updates ++ [(epoch, [partition_idx])]
  end.

(** The loop of [add_sectors], from the given partition on. *)
Fixpoint add_sectors_loop (fuel : nat) (partition_size : Z) (proven : bool) (partition_idx : Z)
    (acc : gmap Z Partition * (list (Z * list Z) * PowerPair)) (sectors : list SectorOnChainInfo)
    : result BoxErr (gmap Z Partition * (list (Z * list Z) * PowerPair)) :=
  match sectors, fuel with
  | [], _ => mret acc
  | _, O => Err Panicked
  | _, S fuel =>
      let '(ps, (updates, total_power)) := acc in
      o ← amt_get ps partition_idx;
      let p := default partition_new o in
      let sector_count := bits_len (pt_sectors p) in
      if partition_size <=? sector_count then add_sectors_loop fuel partition_size proven (partition_idx + 1) acc sectors
      else
        let size := Z.to_nat (Z.min (partition_size - sector_count) (Z.of_nat (length sectors))) in
        let new_sectors := take size sectors in
        '(p, power) ← add_sectors sector_size quant p proven new_sectors;
        ps ← amt_set ps partition_idx p;
        let updates := fold_left (λ u s, record_update u (expiration s) partition_idx) new_sectors updates in
        add_sectors_loop fuel partition_size proven (partition_idx + 1) (ps, (updates, (total_power + power)%pw)) (drop size sectors)
  end.

Definition dl_add_sectors (d : Deadline) (partition_size : Z) (proven : bool) (sectors : list SectorOnChainInfo)
    : result BoxErr (Deadline * PowerPair) :=
  match sectors with
  | [] => mret (d, pp_zero)
  | _ =>
      let n := Z.of_nat (length sectors) in
      '(ps, r) ← add_sectors_loop (S (length sectors + size (dl_partitions d))) partition_size proven (Z.max 0 (amt_count (dl_partitions d) - 1))
        (dl_partitions d, ([], pp_zero)) sectors;
      let '(updates, total_power) := (r : list (Z * list Z) * PowerPair) in
      q ← bfq_add_many_to_queue_values quant (dl_expirations d) updates;
      mret (set_deadline d ps q (early_terminations d) (wrap_u64 (dl_live_sectors d + n)) (wrap_u64 (dl_total_sectors d + n)) (dl_faulty_power d),
            total_power)
  end.

(** The loop of [pop_early_terminations]. *)
Fixpoint pop_early_loop (max_partitions max_sectors : Z) (l : list Z) (acc : gmap Z Partition * (list Z * TerminationResult))
    : result BoxErr (gmap Z Partition * (list Z * TerminationResult)) :=
  match l with
  | [] => mret acc
  | partition_idx :: l =>
      let '(ps, (finished, r)) := acc in
      o ← amt_get ps partition_idx;
      match o with
      | None => pop_early_loop max_partitions max_sectors l (ps, (finished ++ [partition_idx], r))
      | Some p =>
          '(p, pr) ← pop_early_terminations p (wrap_u64 (max_sectors - sectors_processed r));
          let '(partition_result, more) := (pr : TerminationResult * bool) in
          let r := tr_add r partition_result in
          let finished := if more : bool then finished else finished ++ [partition_idx] in
          ps ← amt_set ps partition_idx p;
          if below_limit r max_partitions max_sectors then pop_early_loop max_partitions max_sectors l (ps, (finished, r))
          else mret (ps, (finished, r))
      end
  end.

Definition dl_pop_early_terminations (d : Deadline) (max_partitions max_sectors : Z) : result BoxErr (Deadline * (TerminationResult * bool)) :=
  '(ps, r) ← pop_early_loop max_partitions max_sectors (bits (early_terminations d)) (dl_partitions d, ([], tr_new));
  let '(finished, r) := (r : list Z * TerminationResult) in
  let et := early_terminations d ∖ bits_of finished in
  mret (set_deadline d ps (dl_expirations d) et (dl_live_sectors d) (dl_total_sectors d) (dl_faulty_power d), (r, negb (bool_decide (et = ∅)))).

Definition dl_terminate_one (sectors : Sectors) (epoch : Z) (acc : Deadline * PowerPair) (e : Z * UnvalidatedBitField)
    : result BoxErr (Deadline * PowerPair) :=
  let '(d, power_lost) := acc in
  let '(partition_idx, sector_numbers) := e in
  o ← amt_get (dl_partitions d) partition_idx;
  p ← ok_or o (Actor ErrNotFound);
  '(p, removed) ← terminate_sectors sector_size quant hash_order p sectors epoch sector_numbers;
  ps ← amt_set (dl_partitions d) partition_idx p;
  let empty := es_is_empty removed in
  mret (set_deadline d ps (dl_expirations d) (if empty then early_terminations d else {[partition_idx]} ∪ early_terminations d)
          (if empty then dl_live_sectors d else wrap_u64 (dl_live_sectors d - es_len removed)) (dl_total_sectors d)
          (dl_faulty_power d - faulty_power removed), (power_lost + active_power removed)%pw).

Definition dl_terminate_sectors (d : Deadline) (sectors : Sectors) (epoch : Z) (partition_sectors : PartitionSectorMap)
    : result BoxErr (Deadline * PowerPair) :=
  try_fold (dl_terminate_one sectors epoch) (d, pp_zero) (map_iter partition_sectors).

(** One partition of [remove_partitions]: kept at the end of the new ones, or
    removed with its live and dead sectors. *)
Definition remove_partition_one (to_remove : gset Z) (acc : gmap Z Partition * (gset Z * gset Z * PowerPair)) (e : Z * Partition)
    : result BoxErr (gmap Z Partition * (gset Z * gset Z * PowerPair)) :=
  let '(new, (live, dead, removed_power)) := acc in
  let '(partition_idx, p) := e in
  if negb (bool_decide (partition_idx ∈ to_remove)) then new ← amt_set new (amt_count new) p; mret (new, (live, dead, removed_power))
  else
    _ ← throw_if (negb (bool_decide (pt_faults p = ∅))) (Actor ErrIllegalArgument);
    _ ← throw_if (negb (bool_decide (pt_unproven p = ∅))) (Actor ErrIllegalArgument);
    mret (new, (live ∪ live_sectors p, dead ∪ pt_terminated p, (removed_power + live_power p)%pw)).

Definition remove_partitions (d : Deadline) (to_remove : gset Z) : result BoxErr (Deadline * (gset Z * gset Z * PowerPair)) :=
  let partition_count := amt_count (dl_partitions d) in
  to_remove ← actor_err ErrIllegalArgument (bounded_bits partition_count to_remove);
  if bool_decide (to_remove = ∅) then mret (d, (∅, ∅, pp_zero))
  else
    _ ← throw_if (existsb (λ i, partition_count <=? i) (elements to_remove)) (Actor ErrIllegalArgument);
    _ ← throw_if (negb (bool_decide (early_terminations d = ∅))) Plain;
    '(ps, r) ← try_fold (remove_partition_one to_remove) (∅, (∅, ∅, pp_zero)) (amt_entries (dl_partitions d));
    let '(live, dead, removed_power) := (r : gset Z * gset Z * PowerPair) in
    let removed_dead_sectors := bits_len dead in
    let removed_live_sectors := bits_len live in
    q ← bfq_cut (dl_expirations d) to_remove;
    mret (set_deadline d ps q (early_terminations d) (wrap_u64 (dl_live_sectors d - removed_live_sectors))
            (wrap_u64 (dl_total_sectors d - (removed_live_sectors + removed_dead_sectors))) (dl_faulty_power d), (live, dead, removed_power)).

(** The partition that a fault declaration or a recovery names. *)
Definition declared_partition (ps : gmap Z Partition) (partition_idx : Z) : result BoxErr Partition :=
  o ← or_default ErrIllegalState (amt_get ps partition_idx);
  ok_or o (Actor ErrNotFound).

Definition record_faults_one (sectors : Sectors) (fault_expiration_epoch : Z)
    (acc : gmap Z Partition * (list Z * PowerPair * PowerPair)) (e : Z * UnvalidatedBitField)
    : result BoxErr (gmap Z Partition * (list Z * PowerPair * PowerPair)) :=
  let '(ps, (with_fault, power_delta, fp)) := acc in
  let '(partition_idx, sector_numbers) := e in
  p ← declared_partition ps partition_idx;
  '(p, r) ← record_faults sector_size quant hash_order p sectors sector_numbers fault_expiration_epoch;
  let '(new_faults, partition_power_delta, partition_new_faulty_power) := (r : gset Z * PowerPair * PowerPair) in
  ps ← or_default ErrIllegalState (amt_set ps partition_idx p);
  mret (ps, (if bool_decide (new_faults = ∅) then with_fault else with_fault ++ [partition_idx],
             (power_delta + partition_power_delta)%pw, (fp + partition_new_faulty_power)%pw)).

Definition dl_record_faults (d : Deadline) (sectors : Sectors) (fault_expiration_epoch : Z) (partition_sectors : PartitionSectorMap)
    : result BoxErr (Deadline * PowerPair) :=
  '(ps, r) ← try_fold (record_faults_one sectors fault_expiration_epoch) (dl_partitions d, ([], pp_zero, dl_faulty_power d)) (map_iter partition_sectors);
  let '(with_fault, power_delta, fp) := (r : list Z * PowerPair * PowerPair) in
  q ← or_default ErrIllegalState (add_expiration_partitions (dl_expirations d) fault_expiration_epoch with_fault);
  mret (set_deadline d ps q (early_terminations d) (dl_live_sectors d) (dl_total_sectors d) fp, power_delta).

Definition dl_declare_faults_recovered (d : Deadline) (sectors : Sectors) (partition_sectors : PartitionSectorMap) : result BoxErr Deadline :=
  ps ← try_fold (λ ps e,
    let '(partition_idx, sector_numbers) := e : Z * UnvalidatedBitField in
    p ← declared_partition ps partition_idx;
    p ← declare_faults_recovered sector_size p sectors sector_numbers;
    or_default ErrIllegalState (amt_set ps partition_idx p)) (dl_partitions d) (map_iter partition_sectors);
  mret (set_deadline d ps (dl_expirations d) (early_terminations d) (dl_live_sectors d) (dl_total_sectors d) (dl_faulty_power d)).

(** One partition of [process_deadline_end]. *)
Definition deadline_end_one (posted : gset Z) (fault_expiration_epoch : Z)
    (acc : gmap Z Partition * (list Z * PowerPair * PowerPair * PowerPair)) (partition_idx : Z)
    : result BoxErr (gmap Z Partition * (list Z * PowerPair * PowerPair * PowerPair)) :=
  let '(ps, (rescheduled, fp, power_delta, penalized_power)) := acc in
  if bool_decide (partition_idx ∈ posted) then mret acc
  else
    o ← or_default ErrIllegalState (amt_get ps partition_idx);
    p ← ok_or o (Actor ErrIllegalState);
    if pp_is_zero (recovering_power p) && bool_decide (pt_faulty_power p = live_power p) then mret acc
    else
      '(p, r) ← or_default ErrIllegalState (record_missed_post quant p fault_expiration_epoch);
      let '(part_power_delta, part_penalized_power, part_new_faulty_power) := (r : PowerPair * PowerPair * PowerPair) in
      ps ← or_default ErrIllegalState (amt_set ps partition_idx p);
      mret (ps, (if pp_is_zero part_new_faulty_power then rescheduled else rescheduled ++ [partition_idx],
                 (fp + part_new_faulty_power)%pw, (power_delta + part_power_delta)%pw, (penalized_power + part_penalized_power)%pw)).

Definition process_deadline_end (d : Deadline) (fault_expiration_epoch : Z) : result BoxErr (Deadline * (PowerPair * PowerPair)) :=
  '(ps, r) ← try_fold (deadline_end_one (partitions_posted d) fault_expiration_epoch)
    (dl_partitions d, ([], dl_faulty_power d, pp_zero, pp_zero)) (seqZ 0 (amt_count (dl_partitions d)));
  let '(rescheduled, fp, power_delta, penalized_power) := (r : list Z * PowerPair * PowerPair * PowerPair) in
  q ← or_default ErrIllegalState (add_expiration_partitions (dl_expirations d) fault_expiration_epoch rescheduled);
  mret ({| dl_partitions := ps; dl_expirations := q; partitions_posted := ∅; early_terminations := early_terminations d;
           dl_live_sectors := dl_live_sectors d; dl_total_sectors := dl_total_sectors d; dl_faulty_power := fp;
           optimistic_post_submissions := ∅; partitions_snapshot := ps;
           optimistic_post_submissions_snapshot := optimistic_post_submissions d |}, (power_delta, penalized_power)).

Definition load_partitions_for_dispute (d : Deadline) (partitions : gset Z) : result BoxErr DisputeInfo :=
  try_fold (λ r part_idx,
    o ← amt_get (partitions_snapshot d) part_idx;
    p ← ok_or o Plain;
    ds ← psm_add (disputed_sectors r) part_idx (Some (active_sectors p));
    mret {| all_sector_nos := all_sector_nos r ∪ pt_sectors p;
            ignored_sector_nos := ignored_sector_nos r ∪ pt_faults p ∪ pt_terminated p ∪ pt_unproven p;
            disputed_sectors := ds; disputed_power := disputed_power r + pt_active_power p |})
    {| all_sector_nos := ∅; ignored_sector_nos := ∅; disputed_sectors := ∅; disputed_power := pp_zero |} (bits partitions).

(** One partition of [record_proven_sectors]. *)
Definition prove_one (sectors : Sectors) (fault_expiration : Z)
    (acc : gmap Z Partition * (list Z * gset Z * PoStResult)) (post : PoStPartition)
    : result BoxErr (gmap Z Partition * (list Z * gset Z * PoStResult)) :=
  let '(ps, (rescheduled, posted, r)) := acc in
  o ← amt_get ps (pp_index post);
  p ← ok_or o (Actor ErrNotFound);
  '(p, s) ← record_skipped_faults sector_size quant hash_order p sectors fault_expiration (pp_skipped post);
  let '(new_power_delta, new_fault_power, retracted, has_new_faults) := (s : PowerPair * PowerPair * PowerPair * bool) in
  '(p, recovered) ← recover_faults sector_size quant p sectors;
  let '(p, activated) := activate_unproven p in
  ps ← or_default ErrIllegalState (amt_set ps (pp_index post) p);
  mret (ps, (if has_new_faults : bool then rescheduled ++ [pp_index post] else rescheduled, {[pp_index post]} ∪ posted,
    {| pr_power_delta := pr_power_delta r + (new_power_delta + activated) + recovered;
       new_faulty_power := new_faulty_power r + new_fault_power;
       retracted_recovery_power := retracted_recovery_power r + retracted; recovered_power := recovered_power r + recovered;
       pr_sectors := pr_sectors r ∪ pt_sectors p; ignored_sectors := ignored_sectors r ∪ pt_faults p ∪ pt_terminated p;
       pr_partitions := pr_partitions r |})).

Definition record_proven_sectors (d : Deadline) (sectors : Sectors) (fault_expiration : Z) (post_partitions : list PoStPartition)
    : result BoxErr (Deadline * PoStResult) :=
  let partition_indexes := bits_of (pp_index <$> post_partitions) in
  _ ← throw_if (negb (bits_len partition_indexes =? Z.of_nat (length post_partitions))) (Actor ErrIllegalArgument);
  _ ← throw_if (negb (bool_decide (partitions_posted d ∩ partition_indexes = ∅))) (Actor ErrIllegalArgument);
  '(ps, s) ← try_fold (prove_one sectors fault_expiration)
    (dl_partitions d, ([], partitions_posted d,
      {| pr_power_delta := pp_zero; new_faulty_power := pp_zero; retracted_recovery_power := pp_zero; recovered_power := pp_zero;
         pr_sectors := ∅; ignored_sectors := ∅; pr_partitions := partition_indexes |})) post_partitions;
  let '(rescheduled, posted, r) := (s : list Z * gset Z * PoStResult) in
  q ← or_default ErrIllegalState (add_expiration_partitions (dl_expirations d) fault_expiration rescheduled);
  mret ({| dl_partitions := ps; dl_expirations := q; partitions_posted := posted; early_terminations := early_terminations d;
           dl_live_sectors := dl_live_sectors d; dl_total_sectors := dl_total_sectors d;
           dl_faulty_power := dl_faulty_power d - recovered_power r + new_faulty_power r;
           optimistic_post_submissions := optimistic_post_submissions d; partitions_snapshot := partitions_snapshot d;
           optimistic_post_submissions_snapshot := optimistic_post_submissions_snapshot d |}, r).

Definition record_post_proofs (d : Deadline) (partitions : gset Z) (proofs : list PoStProof) : result BoxErr Deadline :=
  a ← amt_set (optimistic_post_submissions d) (amt_count (optimistic_post_submissions d)) {| wp_partitions := partitions; wp_proofs := proofs |};
  mret {| dl_partitions := dl_partitions d; dl_expirations := dl_expirations d; partitions_posted := partitions_posted d;
          early_terminations := early_terminations d; dl_live_sectors := dl_live_sectors d; dl_total_sectors := dl_total_sectors d;
          dl_faulty_power := dl_faulty_power d; optimistic_post_submissions := a; partitions_snapshot := partitions_snapshot d;
          optimistic_post_submissions_snapshot := optimistic_post_submissions_snapshot d |}.

Definition take_post_proofs (d : Deadline) (idx : Z) : result BoxErr (Deadline * (gset Z * list PoStProof)) :=
  let arr := optimistic_post_submissions_snapshot d in
  arr' ← amt_del arr idx;
  post ← ok_or (arr !! idx) (Actor ErrIllegalArgument);
  mret ({| dl_partitions := dl_partitions d; dl_expirations := dl_expirations d; partitions_posted := partitions_posted d;
           early_terminations := early_terminations d; dl_live_sectors := dl_live_sectors d; dl_total_sectors := dl_total_sectors d;
           dl_faulty_power := dl_faulty_power d; optimistic_post_submissions := optimistic_post_submissions d;
           partitions_snapshot := partitions_snapshot d; optimistic_post_submissions_snapshot := arr' |}, (wp_partitions post, wp_proofs post)).

Definition reschedule_one (sectors : Sectors) (expiration : Z)
    (acc : gmap Z Partition * (list Z * list SectorOnChainInfo)) (e : Z * UnvalidatedBitField)
    : result BoxErr (gmap Z Partition * (list Z * list SectorOnChainInfo)) :=
  let '(ps, (rescheduled, all_replaced)) := acc in
  let '(partition_idx, sector_numbers) := e in
  o ← amt_get ps partition_idx;
  match o with
  | None => mret acc
  | Some p =>
      '(p, replaced) ← pt_reschedule_expirations sector_size quant hash_order p sectors expiration sector_numbers;
      match replaced with
      | [] => mret acc
      | _ => ps ← amt_set ps partition_idx p; mret (ps, (rescheduled ++ [partition_idx], all_replaced ++ replaced))
      end
  end.

Definition dl_reschedule_sector_expirations (d : Deadline) (sectors : Sectors) (expiration : Z) (partition_sectors : PartitionSectorMap)
    : result BoxErr (Deadline * list SectorOnChainInfo) :=
  '(ps, r) ← try_fold (reschedule_one sectors expiration) (dl_partitions d, ([], [])) (map_iter partition_sectors);
  let '(rescheduled, all_replaced) := (r : list Z * list SectorOnChainInfo) in
  match rescheduled with
  | [] => mret (d, all_replaced)
  | _ =>
      q ← add_expiration_partitions (dl_expirations d) expiration rescheduled;
      mret (set_deadline d ps q (early_terminations d) (dl_live_sectors d) (dl_total_sectors d) (dl_faulty_power d), all_replaced)
  end.
End deadline.

(** ** The deadlines of a proving period *)

Notation Deadlines := (list Deadline).

Definition deadlines_new : Deadlines := replicate (Z.to_nat WPOST_PERIOD_DEADLINES) deadline_new.

Definition load_deadline (ds : Deadlines) (deadline_idx : Z) : result BoxErr Deadline :=
  _ ← throw_if (WPOST_PERIOD_DEADLINES <=? deadline_idx) (Actor ErrIllegalArgument);
  ok_or (ds !! Z.to_nat deadline_idx) Panicked.

Definition update_deadline (ds : Deadlines) (deadline_idx : Z) (d : Deadline) : result BoxErr Deadlines :=
  _ ← throw_if (WPOST_PERIOD_DEADLINES <=? deadline_idx) Plain;
  _ ← dl_validate_state d;
  _ ← ok_or (ds !! Z.to_nat deadline_idx) Panicked;
  mret (<[Z.to_nat deadline_idx := d]> ds).

Definition deadlines_for_each {S} (f : S → Z → Deadline → result BoxErr S) (s : S) (ds : Deadlines) : result BoxErr S :=
  try_fold (λ s i, d ← load_deadline ds i; f s i d) s (seqZ 0 (Z.of_nat (length ds))).

(** [find_sector]: the partition of a sector in one deadline, and then the first of
    the deadlines [l] that has it. *)
Definition find_in_deadline (d : Deadline) (sector_number : Z) : option Z :=
  (λ r, r.2.1) <$> list_find (λ e, sector_number ∈ pt_sectors e.2) (amt_entries (dl_partitions d)).
Fixpoint find_from (ds : Deadlines) (l : list Z) (sector_number : Z) : result BoxErr (Z * Z) :=
  match l with
  | [] => Err Plain
  | i :: l =>
      d ← load_deadline ds i;
      match find_in_deadline d sector_number with Some p => mret (i, p) | None => find_from ds l sector_number end
  end.
Definition find_sector (ds : Deadlines) (sector_number : Z) : result BoxErr (Z * Z) :=
  find_from ds (seqZ 0 (Z.of_nat (length ds))) sector_number.
