(* ===== verification/DeadlineParts.v ===== *)
(** * Partitions in a deadline

    What a deadline relies on of each of its partitions: the partition's
    invariant, and that the deadline's expiration queue names the partition at
    every epoch at which one of its sectors expires or may expire once it has
    recovered.  Every operation of a partition keeps this so. *)

From S2P Require Import Prelude Address Runtime Types Vesting MinerFunds Sectors Expirations Schedule ScheduleOps ScheduleRemove Partition PartitionSpec PartitionOps EarlyTerminations PartitionHistory.

Implicit Types (σ : gmap Z (Z * bool)) (X F : gset Z) (p : Partition) (C : Z → Z → Prop).

(** ** What operations leave alone *)

(** The sectors, the terminated ones, and the early terminations. *)
Record framed p p' : Prop := {
  fr_sectors : pt_sectors p' = pt_sectors p;
  fr_terminated : pt_terminated p' = pt_terminated p;
  fr_early : early_terminated p' = early_terminated p }.
#[global] Instance framed_refl : Reflexive framed.
Proof. by split. Qed.
#[global] Instance framed_trans : Transitive framed.
Proof. intros p1 p2 p3 [] []. split; congruence. Qed.

Lemma framed_live p p' : framed p p' → live_sectors p' = live_sectors p.
Proof. intros [Hs Ht _]. unfold live_sectors. by rewrite Hs, Ht. Qed.

Section frames.
Context (size : Z) (quant : QuantSpec) (ho : gset Z → list Z).

Lemma add_faults_frame p X l r p' d : add_faults size quant ho p X l r = Ok (p', d) → framed p p'.
Proof. unfold add_faults. intros H. by inv_run. Qed.
Lemma record_faults_frame p m o r p' d : record_faults size quant ho p m o r = Ok (p', d) → framed p p'.
Proof. unfold record_faults. intros H. inv_run; [done|]. cbn [fst snd] in *. by eapply add_faults_frame. Qed.
Lemma remove_recoveries_frame p X d : framed p (remove_recoveries p X d).
Proof. unfold remove_recoveries. by case_bool_decide. Qed.
Lemma record_skipped_frame p m r o p' d : record_skipped_faults size quant ho p m r o = Ok (p', d) → framed p p'.
Proof.
  unfold record_skipped_faults. intros H. inv_run; [done| |by destruct e].
  etrans; [|apply remove_recoveries_frame]. by eapply add_faults_frame.
Qed.
Lemma recover_frame p m p' d : recover_faults size quant p m = Ok (p', d) → framed p p'.
Proof. unfold recover_faults. intros H. by inv_run. Qed.
Lemma missed_post_frame p r p' d : record_missed_post quant p r = Ok (p', d) → framed p p'.
Proof. unfold record_missed_post. intros H. by inv_run. Qed.
Lemma terminate_sectors_same p m ep o p' d : terminate_sectors size quant ho p m ep o = Ok (p', d) → pt_sectors p' = pt_sectors p.
Proof. unfold terminate_sectors. intros H. by inv_run. Qed.
Lemma terminate_sets p m ep o p' d : terminate_sectors size quant ho p m ep o = Ok (p', d) →
  let X := on_time_sectors d ∪ early_sectors d in
  pt_faults p' = pt_faults p ∖ X ∧ pt_unproven p' = pt_unproven p ∖ X ∧ pt_recoveries p' = pt_recoveries p ∖ X ∧
  pt_faulty_power p' = (pt_faulty_power p - faulty_power d)%pw.
Proof. unfold terminate_sectors. intros H. inv_run. cbn. split_and!; [done| |done|done]. set_solver. Qed.
Lemma pop_expired_same p u p' d : pop_expired_sectors p u = Ok (p', d) → pt_sectors p' = pt_sectors p.
Proof. unfold pop_expired_sectors. intros H. by inv_run. Qed.
Lemma pop_early_same p mx p' d : pop_early_terminations p mx = Ok (p', d) →
  pt_sectors p' = pt_sectors p ∧ pt_faults p' = pt_faults p ∧ pt_unproven p' = pt_unproven p ∧ pt_recoveries p' = pt_recoveries p ∧ pt_faulty_power p' = pt_faulty_power p.
Proof. unfold pop_early_terminations. intros H. by inv_run. Qed.
End frames.

(** ** Partitions and the deadline's queue *)

Section steps.
Context (size : Z) (m : Sectors) (Hsize : 0 < size) (Hm : table_wf m) (quant : QuantSpec) (Hu : 0 < q_unit quant ≤ 2 ^ 60).
Context (ho : gset Z → list Z) (Horder : ∀ X, ho X ≡ₚ elements X).
Notation P := (info_power size m).

(** Partition [i] has a schedule whose epochs the relation [C] names; faulty
    sectors expire by [c]. *)
Definition covered (c : Z) C (i : Z) p σ : Prop :=
  ∀ n e b, σ !! n = Some (e, b) →
    e ≤ target m quant n ∧ C e i ∧ C (target m quant n) i ∧ (n ∈ pt_faults p → e ≤ c).
Definition part_ok (c : Z) C (i : Z) p : Prop :=
  ∃ σ, partition_ok size m quant c p σ ∧ covered c C i p σ.

Lemma part_ok_mono c c' C C' i p : c ≤ c' → (∀ e, C e i → C' e i) → part_ok c C i p → part_ok c' C' i p.
Proof.
  intros Hc HC (σ & Hp & Hcov). exists σ. split; [by eapply (partition_ok_mono size m quant)|].
  intros n e b Hn. destruct (Hcov n e b Hn) as (? & ? & ? & HF). split_and!; [done|auto|auto|]. intros ?%HF. lia.
Qed.
Lemma part_new_ok c C i : part_ok c C i partition_new.
Proof. exists ∅. split; [by apply (new_ok size m Hsize Hm quant Hu ho)|]. intros n e b. by rewrite lookup_empty. Qed.

Lemma part_sets c C i p : part_ok c C i p → sets_ok p.
Proof. intros (σ & H & _). apply H. Qed.
Lemma part_memos c C i p : part_ok c C i p → memos_ok size m p.
Proof. intros (σ & H & _). apply H. Qed.
Lemma part_size c C i p : part_ok c C i p → bits_len (pt_sectors p) ≤ ENTRY_SECTORS_MAX.
Proof. intros (σ & H & _). apply H. Qed.

(** New sectors: the queue names the partition at their expirations. *)
Lemma part_add c C C' i p proven l :
  part_ok c C i p → infos m l → numbers l ## pt_sectors p → Z.of_nat (base.size (pt_sectors p ∪ numbers l)) ≤ ENTRY_SECTORS_MAX →
  (∀ e, C e i → C' e i) → (∀ n, n ∈ numbers l → C' (target m quant n) i) →
  ∃ p', add_sectors size quant p proven l = Ok (p', psum P (numbers l)) ∧ part_ok c C' i p' ∧
    pt_sectors p' = pt_sectors p ∪ numbers l ∧ live_sectors p' = live_sectors p ∪ numbers l ∧ pt_faults p' = pt_faults p ∧
    pt_unproven p' = (if proven then pt_unproven p else pt_unproven p ∪ numbers l).
Proof.
  intros (σ & Hp & Hcov) Hl Hd Hsz HC Hnew.
  destruct (add_sectors_ok size m Hsize Hm quant Hu ho Horder c p σ proven l Hp Hl Hd Hsz) as (p' & Hadd & Hp' & HS & HL & HF & HU).
  exists p'. split_and!; try done. exists (activate m quant (numbers l) σ). split; [done|]. intros n e b. rewrite lookup_activate, HF. case_decide as Hn.
  - intros [= <- <-]. split_and!; [lia|auto|auto|]. intros HnF. exfalso. pose proof (so_faults _ (po_sets _ _ _ _ _ _ Hp) n HnF).
    unfold live_sectors in *. set_solver.
  - intros Hs%Hcov. naive_solver.
Qed.

(** A schedule with new faults. *)
Lemma covered_faulted c C C' i p p' σ r N :
  covered c C i p σ → c ≤ quantize_up quant r → (∀ e, C e i → C' e i) → (N ≠ ∅ → C' (quantize_up quant r) i) →
  pt_faults p' = pt_faults p ∪ N → covered (quantize_up quant r) C' i p' (faulted quant r N σ).
Proof.
  intros Hcov Hc HC HN HF n e b. unfold faulted. cbv zeta. rewrite lookup_upd, HF. case_decide as Hn.
  - apply elem_of_filter in Hn as [Hlt HnN]. intros [= <- <-]. destruct (σ !! n) as [[e0 b0]|] eqn:E; cbn in Hlt; [|lia].
    destruct (Hcov n e0 b0 E) as (Ht & _ & HCt & _). split_and!; [lia|apply HN; set_solver|auto|lia].
  - intros E. destruct (Hcov n e b E) as (Ht & HCe & HCt & Hle). split_and!; [done|auto|auto|].
    intros [HnF|HnN]%elem_of_union; [specialize (Hle HnF); lia|]. rewrite elem_of_filter, E in Hn. cbn in Hn.
    destruct (decide (quantize_up quant r < e)); [tauto|lia].
Qed.

Lemma part_faults c C C' i p X r :
  part_ok c C i p → X ⊆ pt_sectors p → 0 ≤ r ≤ 2 ^ 62 → c ≤ quantize_up quant r → (∀ e, C e i → C' e i) →
  let N := (X ∖ pt_terminated p) ∖ pt_faults p in (N ≠ ∅ → C' (quantize_up quant r) i) →
  ∃ p' d, record_faults size quant ho p m (Some X) r = Ok (p', (N, d, psum P N)) ∧ part_ok (quantize_up quant r) C' i p' ∧ framed p p' ∧
    pt_active_power p' = (pt_active_power p + d)%pw ∧ pt_faults p' = pt_faults p ∪ N ∧ pt_unproven p' = pt_unproven p ∖ N ∧ pt_recoveries p' = pt_recoveries p.
Proof.
  intros (σ & Hp & Hcov) HX Hr Hc HC N HN.
  destruct (record_faults_ok size m Hsize Hm quant Hu ho Horder c p σ X r Hp HX Hr Hc) as (p' & σ' & Hrun & Hp' & HF & HU & HR & _ & _ & ->). fold N in Hrun, HF, HU, Hp'.
  exists p'. eexists _. split; [exact Hrun|]. split_and!; try done.
  - exists (faulted quant r N σ). split; [done|]. by eapply covered_faulted.
  - by eapply record_faults_frame.
  - apply (run_delta size quant ho m p (OFaults (Some X) r) m p'). unfold run_op. by rewrite Hrun.
Qed.

Lemma part_skipped c C C' i p X r :
  part_ok c C i p → X ⊆ pt_sectors p → 0 ≤ r ≤ 2 ^ 62 → c ≤ quantize_up quant r → (∀ e, C e i → C' e i) →
  let N := (X ∖ pt_terminated p) ∖ pt_faults p in (N ≠ ∅ → C' (quantize_up quant r) i) →
  ∃ p' d rr, record_skipped_faults size quant ho p m r (Some X) = Ok (p', (d, psum P N, rr, negb (bool_decide (N = ∅)))) ∧
    part_ok (quantize_up quant r) C' i p' ∧ framed p p' ∧ pt_active_power p' = (pt_active_power p + d)%pw ∧ pt_faults p' = pt_faults p ∪ N.
Proof.
  intros (σ & Hp & Hcov) HX Hr Hc HC N HN.
  destruct (record_skipped_ok size m Hsize Hm quant Hu ho Horder c p σ X r Hp HX Hr Hc) as (p' & σ' & Hrun & Hp' & HF & HU & HR & _ & _ & ->). fold N in Hrun, HF, HU, Hp'.
  exists p'. eexists _, _. split; [exact Hrun|]. split_and!; try done.
  - exists (faulted quant r N σ). split; [done|]. by eapply covered_faulted.
  - by eapply record_skipped_frame.
  - apply (run_delta size quant ho m p (OSkipped (Some X) r) m p'). unfold run_op. by rewrite Hrun.
Qed.

Lemma part_declare c C i p X :
  part_ok c C i p → X ⊆ pt_sectors p →
  ∃ p', declare_faults_recovered size p m (Some X) = Ok p' ∧ part_ok c C i p' ∧ framed p p' ∧ pt_active_power p' = pt_active_power p ∧
    pt_faults p' = pt_faults p ∧ pt_unproven p' = pt_unproven p ∧ pt_recoveries p' = pt_recoveries p ∪ X ∩ pt_faults p.
Proof.
  intros (σ & Hp & Hcov) HX. destruct (declare_recovered_ok size m Hsize Hm quant Hu ho Horder c p σ X Hp HX) as (p' & Hrun & Hp' & ->).
  eexists. split_and!; [exact Hrun|by exists σ|done..].
Qed.

Lemma part_recover c C i p :
  part_ok c C i p →
  ∃ p', recover_faults size quant p m = Ok (p', psum P (pt_recoveries p)) ∧ part_ok c C i p' ∧ framed p p' ∧
    pt_active_power p' = (pt_active_power p + psum P (pt_recoveries p))%pw ∧
    pt_faults p' = pt_faults p ∖ pt_recoveries p ∧ pt_recoveries p' = ∅ ∧ pt_unproven p' = pt_unproven p.
Proof.
  intros (σ & Hp & Hcov). destruct (recover_faults_ok size m Hsize Hm quant Hu ho Horder c p σ Hp) as (p' & Hrun & Hp' & HF & HR & HU & _).
  exists p'. split_and!; try done.
  - eexists. split; [exact Hp'|]. intros n e b. rewrite lookup_activate, HF. case_decide as Hn.
    + apply elem_of_intersection in Hn as [HnR [e0 Hn]%elem_of_kind]. intros [= <- <-]. destruct (Hcov n e0 true Hn) as (? & ? & ? & ?).
      split_and!; [lia|done|done|]. set_solver.
    + intros E. destruct (Hcov n e b E) as (? & ? & ? & HFc). split_and!; try done. intros [? _]%elem_of_difference. auto.
  - by eapply recover_frame.
  - apply (run_delta size quant ho m p ORecover m p'). unfold run_op. by rewrite Hrun.
Qed.

Lemma part_activate c C i p :
  part_ok c C i p →
  let '(p', power) := activate_unproven p in
  part_ok c C i p' ∧ framed p p' ∧ pt_active_power p' = (pt_active_power p + power)%pw ∧ pt_unproven p' = ∅ ∧ pt_faults p' = pt_faults p ∧
  pt_recoveries p' = pt_recoveries p.
Proof.
  intros (σ & Hp & Hcov). pose proof (activate_unproven_ok size m quant c p σ Hp) as Ha. pose proof (run_delta size quant ho m p OActivate m) as Hd. unfold run_op in Hd.
  destruct (activate_unproven p) as [p' power] eqn:E. destruct Ha as (Hp' & Hpw & HU & HF & HR & _). specialize (Hd p' power eq_refl).
  split_and!; try done. { exists σ. split; [done|]. intros n e b Hn. rewrite HF. exact (Hcov n e b Hn). } unfold activate_unproven in E. by injection E as <- <-.
Qed.

(** Rescheduled sectors expire no later than they did. *)
Lemma part_reschedule c C C' i p X r :
  part_ok c C i p → 0 ≤ r ≤ 2 ^ 62 →
  let A := X ∩ pt_sectors p ∖ pt_terminated p ∖ pt_faults p in
  (∀ n, n ∈ A → quantize_up quant r ≤ target m quant n) → (∀ e, C e i → C' e i) → (A ≠ ∅ → C' (quantize_up quant r) i) →
  ∃ p' l, pt_reschedule_expirations size quant ho p m r (Some X) = Ok (p', l) ∧ infos m l ∧ numbers l = A ∧ part_ok c C' i p' ∧
    framed p p' ∧ p' = with_expirations p (expirations_epochs p').
Proof.
  intros (σ & Hp & Hcov) Hr A Ht HC HA.
  destruct (pt_reschedule_ok size m Hsize Hm quant Hu ho Horder c p σ X r Hp Hr) as (p' & σ' & l & Hrun & Hl & Hn & Hp' & He & Hσ'). fold A in Hn, Hσ'.
  exists p', l. split_and!; try done; [|by rewrite He]. exists σ'. split; [done|]. intros n e b. rewrite Hσ', He. change (pt_faults (with_expirations p _)) with (pt_faults p).
  case_decide as HnA.
  - intros [= <- <-]. split_and!; [auto|apply HA; set_solver| |set_solver].
    assert (Hlv : n ∈ live_sectors p) by (unfold live_sectors; set_solver). rewrite <- (po_live _ _ _ _ _ _ Hp) in Hlv. apply elem_of_dom in Hlv as [[e0 b0] E].
    destruct (Hcov n e0 b0 E) as (? & ? & ? & ?). auto.
  - intros E. destruct (Hcov n e b E) as (? & ? & ? & ?). split_and!; auto.
Qed.

Lemma part_terminate c C i p epoch X :
  part_ok c C i p → X ⊆ live_sectors p → 0 ≤ epoch < i64_max →
  ∃ p' removed, terminate_sectors size quant ho p m epoch (Some X) = Ok (p', removed) ∧ part_ok c C i p' ∧ pt_sectors p' = pt_sectors p ∧
    pt_active_power p' = (pt_active_power p - active_power removed)%pw ∧ live_sectors p' = live_sectors p ∖ X ∧
    on_time_sectors removed ∪ early_sectors removed = X ∧ on_time_sectors removed ## early_sectors removed ∧
    faulty_power removed = psum P (X ∩ pt_faults p) ∧ pt_faulty_power p' = (pt_faulty_power p - faulty_power removed)%pw ∧ pt_faults p' = pt_faults p ∖ X ∧
    pt_unproven p' = pt_unproven p ∖ X ∧ pt_recoveries p' = pt_recoveries p ∖ X ∧
    early_terminated p' = (if decide (X = ∅) then early_terminated p else <[epoch := default ∅ (early_terminated p !! epoch) ∪ X]> (early_terminated p)).
Proof.
  intros (σ & Hp & Hcov) HX Hep.
  destruct (terminate_ok size m Hsize Hm quant Hu ho Horder c p σ epoch X Hp HX Hep) as (p' & Hrun & Hp' & HL & HT & HE).
  assert (Hk : ∀ n, n ∈ X → ∃ e b, σ !! n = Some (e, b)).
  { intros n Hn%HX. rewrite <- (po_live _ _ _ _ _ _ Hp) in Hn. apply elem_of_dom in Hn as [[e b] ?]. eauto. }
  assert (HX' : X ∩ kind σ false ∪ X ∩ kind σ true = X).
  { apply set_eq. intros n. rewrite elem_of_union, !elem_of_intersection, !elem_of_kind. split; [tauto|]. intros Hn. destruct (Hk n Hn) as (e & [] & ?); eauto. }
  destruct (terminate_sets _ _ _ _ _ _ _ _ _ Hrun) as (HF & HU & HR & HFp). cbn [on_time_sectors early_sectors faulty_power] in HF, HU, HR, HFp.
  rewrite HX' in HF, HU, HR. exists p'. eexists. split; [exact Hrun|]. cbn [on_time_sectors early_sectors faulty_power].
  split_and!; try done.
  - exists (del X σ). split; [done|]. intros n e b. rewrite lookup_del, HF. destruct (decide (n ∈ X)); [done|]. intros E. destruct (Hcov n e b E) as (? & ? & ? & HFc).
    split_and!; try done. set_solver.
  - by eapply terminate_sectors_same.
  - pose proof (run_delta size quant ho m p (OTerminate (Some X) epoch) m p') as Hd. unfold run_op in Hd. rewrite Hrun in Hd. rewrite (Hd _ eq_refl). pp_solve.
  - intros n. rewrite !elem_of_intersection, !elem_of_kind. intros [_ [e He]] [_ [e' He']]. congruence.
Qed.

(** The sectors of a partition that are due. *)
Definition due_sectors p (until : Z) : gset Z :=
  ⋃ ((λ kv, on_time_sectors kv.2 ∪ early_sectors kv.2) <$> filter (λ kv, kv.1 ≤ until) (amt_entries (expirations_epochs p))).

Lemma due_expired c p σ until : partition_ok size m quant c p σ → due_sectors p until = expired σ until.
Proof.
  intros H. pose proof (po_queue _ _ _ _ _ _ H) as Hq. apply set_eq. intros n. unfold due_sectors. rewrite elem_of_union_list, elem_of_expired. split.
  - intros (Y & HY & Hn). apply list_elem_of_fmap in HY as ([k es] & -> & [Hle Hk]%list_elem_of_filter). cbn in Hle, Hn. apply elem_of_entries in Hk.
    rewrite Hq in Hk. unfold entry in Hk. case_decide; [done|]. injection Hk as <-. cbn in Hn. apply elem_of_union in Hn as [Hn%elem_of_at|Hn%elem_of_at]; eauto.
  - intros (e & b & Hn & Hle). exists (at_epoch σ e false ∪ at_epoch σ e true). split.
    + apply list_elem_of_fmap. exists (e, es_of size m (pt_faults p) (at_epoch σ e false) (at_epoch σ e true)). split; [done|]. apply list_elem_of_filter. split; [done|].
      apply elem_of_entries. rewrite Hq. apply (entry_some size m Hsize Hm _ _ _ n). apply elem_of_union. destruct b; [right|left]; by apply elem_of_at.
    + apply elem_of_union. destruct b; [right|left]; by apply elem_of_at.
Qed.

Lemma due_live c C i p until : part_ok c C i p → due_sectors p until ⊆ live_sectors p.
Proof.
  intros (σ & Hp & _) n. rewrite (due_expired c p σ until Hp), elem_of_expired, <- (po_live _ _ _ _ _ _ Hp), elem_of_dom. intros (e & b & -> & _). by eexists.
Qed.

(** What is due is named in the queue by then. *)
Lemma due_covered c C i p until : part_ok c C i p → (∀ e, e ≤ until → ¬ C e i) → due_sectors p until = ∅.
Proof.
  intros (σ & Hp & Hcov) Hno. rewrite (due_expired c p σ until Hp). apply set_eq. intros n. rewrite elem_of_expired. split; [|set_solver].
  intros (e & b & Hn & Hle). exfalso. destruct (Hcov n e b Hn) as (_ & HCe & _). by apply (Hno e).
Qed.

Lemma part_expire c C C' i p until :
  part_ok c C i p → pt_unproven p = ∅ → pt_recoveries p = ∅ → 0 ≤ until < i64_max → (∀ e, until < e → C e i → C' e i) →
  ∃ p' popped, pop_expired_sectors p until = Ok (p', popped) ∧ part_ok c C' i p' ∧ pt_sectors p' = pt_sectors p ∧
    pt_active_power p' = (pt_active_power p - active_power popped)%pw ∧ live_sectors p' = live_sectors p ∖ due_sectors p until ∧
    on_time_sectors popped ∪ early_sectors popped = due_sectors p until ∧ on_time_sectors popped ## early_sectors popped ∧
    early_sectors popped ⊆ pt_faults p ∧
    on_time_pledge popped = ssum (info_pledge m) (on_time_sectors popped) ∧
    active_power popped = psum P (due_sectors p until ∖ pt_faults p) ∧
    faulty_power popped = psum P (due_sectors p until ∩ pt_faults p) ∧ pt_faulty_power p' = (pt_faulty_power p - faulty_power popped)%pw ∧
    pt_faults p' = pt_faults p ∖ due_sectors p until ∧ pt_unproven p' = ∅ ∧ pt_recoveries p' = ∅ ∧
    (early_terminated p' = ∅ ↔ early_terminated p = ∅ ∧ early_sectors popped = ∅) ∧ due_sectors p' until = ∅.
Proof.
  intros (σ & Hp & Hcov) HU HR Hun HC.
  destruct (pop_expired_ok size m Hsize Hm quant Hu ho Horder c p σ until Hp HU HR Hun) as (p' & Hrun & Hp' & HL & HT & HE).
  rewrite (due_expired c p σ until Hp). set (X := expired σ until) in *.
  assert (HX : X = expired_kind σ until false ∪ expired_kind σ until true).
  { apply set_eq. intros n. unfold X. rewrite elem_of_union, !elem_of_expired_kind, elem_of_expired. split; [intros (e & [] & ?); eauto|naive_solver]. }
  assert (HY : expired_kind σ until true ⊆ pt_faults p).
  { intros n (e & Hn & _)%elem_of_expired_kind. by apply (po_sched _ _ _ _ _ _ Hp) in Hn as (_ & _ & ?%(λ H, H eq_refl)). }
  assert (Hsets : pt_faults p' = pt_faults p ∖ X ∧ pt_unproven p' = ∅ ∧ pt_recoveries p' = ∅ ∧ pt_faulty_power p' = (pt_faulty_power p - faulty_power (es_of size m (pt_faults p) (expired_kind σ until false) (expired_kind σ until true)))%pw).
  { clear -Hrun HU HR HX. unfold pop_expired_sectors in Hrun. inv_run. cbn. by rewrite HX. }
  destruct Hsets as (HF & HU' & HR' & HFp). exists p'. eexists. split; [exact Hrun|].
  destruct (removed_power size m Hsize Hm quant Hu ho Horder (pt_faults p) (expired_kind σ until false) (expired_kind σ until true) HY) as [Hact Hflt]. rewrite <- HX in Hact, Hflt.
  split_and!; try done.
  - exists (del X σ). split; [done|]. intros n e b. rewrite lookup_del, HF. destruct (decide (n ∈ X)) as [HnX|HnX]; [done|]. intros E. destruct (Hcov n e b E) as (? & ? & ? & HFc).
    assert (until < e). { destruct (decide (e ≤ until)); [|lia]. destruct HnX. apply elem_of_expired. eauto. }
    split_and!; [done|apply HC; [lia|done]..|]. set_solver.
  - by eapply pop_expired_same.
  - pose proof (run_delta size quant ho m p (OExpire until) m p') as Hd. unfold run_op in Hd. rewrite Hrun in Hd. rewrite (Hd _ eq_refl). pp_solve.
  - intros n. cbn [on_time_sectors early_sectors es_of]. rewrite !elem_of_expired_kind. intros (e & He & _) (e' & He' & _). congruence.
  - cbn [early_sectors es_of]. rewrite HE. case_decide as He; [rewrite He; tauto|]. split; [by intros E%insert_non_empty|tauto].
  - rewrite (due_expired c p' _ until Hp'). apply set_eq. intros n. rewrite elem_of_expired. split; [|set_solver]. intros (e & b & Hn & Hle).
    rewrite lookup_del in Hn. destruct (decide (n ∈ X)) as [HnX|HnX]; [done|]. destruct HnX. apply elem_of_expired. eauto.
Qed.

(** A missed proof.  Nothing is rescheduled when no power becomes faulty. *)
Lemma part_missed c C C' i p r :
  part_ok c C i p → 0 ≤ r ≤ 2 ^ 62 → c ≤ quantize_up quant r → (∀ e, C e i → C' e i) →
  let N := live_sectors p ∖ pt_faults p in (N ≠ ∅ → C' (quantize_up quant r) i) →
  ∃ p' d, record_missed_post quant p r = Ok (p', (d, psum P (pt_recoveries p) + psum P N, psum P N)%pw) ∧ part_ok (quantize_up quant r) C' i p' ∧ framed p p' ∧
    pt_active_power p' = (pt_active_power p + d)%pw ∧ pt_faults p' = live_sectors p ∧ pt_unproven p' = ∅ ∧ pt_recoveries p' = ∅ ∧
    ∀ until, until < quantize_up quant r → due_sectors p' until = due_sectors p until.
Proof.
  intros (σ & Hp & Hcov) Hr Hc HC N HN.
  destruct (missed_post_ok size m Hsize Hm quant Hu ho Horder c p σ r Hp Hr Hc) as (p' & Hrun & Hp' & HF & HU & HR & _). fold N in Hrun.
  exists p'. eexists. split; [exact Hrun|]. split_and!; try done.
  - eexists. split; [exact Hp'|]. intros n e b. rewrite lookup_upd, HF. case_decide as Hn.
    + apply elem_of_later in Hn as (e0 & E & Hlt); [|intros ?? ?%(po_clock _ _ _ _ _ _ Hp); lia]. intros [= <- <-]. destruct (Hcov n e0 false E) as (? & ? & ? & HFc).
      split_and!; [lia| |auto|lia]. apply HN. intros HN0. assert (HnF : n ∈ pt_faults p); [|specialize (HFc HnF); lia].
      destruct (decide (n ∈ pt_faults p)); [done|]. exfalso. apply (not_elem_of_empty (C := gset Z) n). rewrite <- HN0. unfold N. apply elem_of_difference. split; [|done].
      rewrite <- (po_live _ _ _ _ _ _ Hp). by eapply elem_of_dom_2.
    + intros E. destruct (Hcov n e b E) as (? & ? & ? & HFc). split_and!; [done|auto|auto|]. intros _. destruct b; [pose proof (po_clock _ _ _ _ _ _ Hp n e E); lia|].
      destruct (decide (quantize_up quant r < e)); [|lia]. destruct Hn. apply elem_of_later; [intros ?? ?%(po_clock _ _ _ _ _ _ Hp); lia|]. eauto.
  - by eapply missed_post_frame.
  - apply (run_delta size quant ho m p (OMissedPost r) m p'). unfold run_op. by rewrite Hrun.
  - intros u Hun. rewrite (due_expired _ _ _ u Hp'), (due_expired _ _ _ u Hp). apply set_eq. intros n. rewrite !elem_of_expired. setoid_rewrite lookup_upd.
    destruct (decide (n ∈ later quant σ r)) as [Hn|Hn]; [|done]. apply elem_of_later in Hn as (e0 & E & Hlt); [|intros ?? ?%(po_clock _ _ _ _ _ _ Hp); lia].
    split; [intros (e & b & [= <- <-] & ?); lia|]. intros (e & b & E' & ?). rewrite E in E'. injection E' as <- <-. lia.
Qed.

Lemma part_pop_early c C i p max :
  part_ok c C i p → 0 ≤ max →
  ∃ p' T R, pop_early_terminations p max =
      Ok (p', ({| tr_sectors := list_to_map (reverse T); partitions_processed := 1; sectors_processed := count_of T |}, negb (bool_decide (R = [])))) ∧
    taken max (amt_entries (early_terminated p)) T R ∧ early_terminated p' = list_to_map R ∧ part_ok c C i p' ∧
    pt_sectors p' = pt_sectors p ∧ pt_terminated p' = pt_terminated p ∧ pt_active_power p' = pt_active_power p ∧
    pt_faults p' = pt_faults p ∧ pt_unproven p' = pt_unproven p ∧ pt_recoveries p' = pt_recoveries p ∧ pt_faulty_power p' = pt_faulty_power p.
Proof.
  intros (σ & Hp & Hcov) Hmax. destruct (pop_early_ok size m Hsize Hm quant c p σ max Hp Hmax) as (p' & T & R & Hrun & Htk & HE & Hp' & _ & HT).
  destruct (pop_early_same p max p' _ Hrun) as (HS & HF & HU & HR & HFp). exists p', T, R. split_and!; try done.
  - exists σ. split; [done|]. intros n e b Hn. rewrite HF. exact (Hcov n e b Hn).
  - pose proof (run_delta size quant ho m p (OPopEarly max) m p') as Hd. unfold run_op in Hd. rewrite Hrun in Hd. rewrite (Hd _ eq_refl). pp_solve.
Qed.
End steps.
