(* ===== verification/DeadlineSpec.v ===== *)
(** * What deadlines guarantee

    The invariant of a deadline: its partitions are numbered from zero and share
    no sector, its counts and its faulty power are the sums over them, the marks
    of early terminations are those of its partitions, and its expiration queue
    names every partition when one of its sectors expires. *)

From S2P Require Import Prelude Address Runtime Types Vesting MinerFunds Sectors Expirations Schedule ScheduleOps ScheduleRemove Partition PartitionSpec PartitionOps EarlyTerminations PartitionHistory SectorMaps DeadlineState DeadlineParts.

Implicit Types (p : Partition) (ps : gmap Z Partition) (C : Z → Z → Prop) (q : BitFieldQueue).

(** ** Sums over partitions *)

Definition tally (f : Partition → Z) ps : Z := zsum (f <$> (map_to_list ps).*2).
Definition ptally (f : Partition → PowerPair) ps : PowerPair := {| raw := tally (λ p, raw (f p)) ps; qa := tally (λ p, qa (f p)) ps |}.
#[global] Arguments tally : simpl never.
#[global] Arguments ptally : simpl never.

Lemma tally_empty f : tally f ∅ = 0.
Proof. unfold tally. by rewrite map_to_list_empty. Qed.
Lemma tally_insert f ps i p : ps !! i = None → tally f (<[i := p]> ps) = f p + tally f ps.
Proof. intros Hi. unfold tally. rewrite (zsum_perm _ (f <$> (p :: (map_to_list ps).*2))); [done|]. by rewrite map_to_list_insert. Qed.
Lemma tally_update f ps i p p' : ps !! i = Some p → tally f (<[i := p']> ps) = tally f ps - f p + f p'.
Proof.
  intros Hi. rewrite <- (insert_delete_id ps i p Hi) at 2. rewrite <- insert_delete_eq, !tally_insert by apply lookup_delete_eq. lia.
Qed.
Lemma tally_le f g ps : (∀ i p, ps !! i = Some p → f p ≤ g p) → tally f ps ≤ tally g ps.
Proof.
  induction ps as [|i p ps Hi IH] using map_ind; intros Hle; [by rewrite !tally_empty|]. rewrite !tally_insert by done.
  assert (f p ≤ g p) by (apply (Hle i); by rewrite lookup_insert_eq). enough (tally f ps ≤ tally g ps) by lia. apply IH. intros j pj Hj.
  apply (Hle j). rewrite lookup_insert_ne; [done|]. intros ->. congruence.
Qed.
Lemma tally_const k ps : tally (λ _, k) ps = k * amt_count ps.
Proof.
  unfold amt_count. induction ps as [|i p ps Hi IH] using map_ind; [rewrite tally_empty, map_size_empty; lia|].
  rewrite tally_insert, map_size_insert_None by done. lia.
Qed.
Lemma tally_split f ps i p : ps !! i = Some p → tally f ps = f p + tally f (delete i ps).
Proof. intros Hi. rewrite <- (insert_delete_id ps i p Hi) at 1. by rewrite tally_insert by apply lookup_delete_eq. Qed.

Lemma ptally_empty f : ptally f ∅ = pp_zero.
Proof. done. Qed.
Lemma ptally_insert f ps i p : ps !! i = None → ptally f (<[i := p]> ps) = (f p + ptally f ps)%pw.
Proof. intros Hi. unfold ptally. rewrite !tally_insert by done. done. Qed.
Lemma ptally_update f ps i p p' : ps !! i = Some p → ptally f (<[i := p']> ps) = (ptally f ps - f p + f p')%pw.
Proof. intros Hi. unfold ptally. rewrite !(tally_update _ ps i p p') by done. done. Qed.

Lemma count_insert ps i p p' : ps !! i = Some p → amt_count (<[i := p']> ps) = amt_count ps.
Proof. intros Hi. unfold amt_count. rewrite map_size_insert, Hi. done. Qed.

(** ** Epochs to partitions *)

Definition named q (e i : Z) : Prop := ∃ X, q !! e = Some X ∧ i ∈ X.

(** Partitions are added at an epoch. *)
Definition mark q (e : Z) (W : list Z) : BitFieldQueue :=
  match W with [] => q | _ => <[e := default ∅ (q !! e) ∪ bits_of W]> q end.

Lemma named_mark q k W e i : named (mark q k W) e i ↔ named q e i ∨ (e = k ∧ i ∈ W).
Proof.
  unfold named, mark. destruct W as [|w W]; [set_solver|]. rewrite lookup_insert. case_decide as Hk; [subst k|naive_solver].
  split.
  - intros (X & [= <-] & [Hi|Hi]%elem_of_union); [left|right; split; [done|]; by apply elem_of_list_to_set in Hi].
    destruct (q !! e) as [Y|]; [eauto|]. cbn in Hi. set_solver.
  - intros [(X & HX & Hi)|[_ Hi]]; (eexists; split; [reflexivity|]); apply elem_of_union; [left; by rewrite HX|right; by apply elem_of_list_to_set].
Qed.

Lemma mark_more q k W i e j : named (mark q k W) e j → named (mark q k (W ++ [i])) e j.
Proof. rewrite !named_mark, elem_of_app. tauto. Qed.
Lemma mark_new q k W i : named (mark q k (W ++ [i])) k i.
Proof. rewrite named_mark, elem_of_app, list_elem_of_singleton. tauto. Qed.

(** Keys are epochs. *)
Definition epochs_ok q : Prop := ∀ e X, q !! e = Some X → 0 ≤ e < i64_max.
Lemma mark_epochs q e W : 0 ≤ e < i64_max → epochs_ok q → epochs_ok (mark q e W).
Proof. intros He Hq. unfold mark. destruct W; [done|]. intros k X. rewrite lookup_insert. case_decide; [by subst|apply Hq]. Qed.

Lemma bfq_add_ok quant q r W : 0 ≤ quantize_up quant r < i64_max →
  bfq_add_to_queue_values quant q r W = Ok (mark q (quantize_up quant r) W).
Proof.
  intros He. destruct (as_i64_epoch _ He) as (_ & Hus & Hi). unfold bfq_add_to_queue_values, mark. destruct W as [|w W]; [done|].
  unfold bfq_add_to_queue. rewrite bool_decide_false by (unfold bits_of; set_solver). rewrite Hus, amt_get_ok by done. cbn [mbind result_bind]. by rewrite amt_set_ok.
Qed.
Lemma add_partitions_ok quant q r W : 0 ≤ quantize_up quant r < i64_max →
  add_expiration_partitions quant q r W = Ok (mark q (quantize_up quant r) W).
Proof. intros He. unfold add_expiration_partitions. rewrite bfq_add_ok by done. by destruct W. Qed.

(** Several epochs at once. *)
Lemma quantized_values_spec quant (vs : list (Z * list Z)) e i :
  (∃ l, quantized_values quant vs !! e = Some l ∧ i ∈ l) ↔ ∃ k l, (k, l) ∈ vs ∧ quantize_up quant k = e ∧ i ∈ l.
Proof.
  unfold quantized_values. assert (Hgen : ∀ acc : gmap Z (list Z), (∃ l, fold_left (λ m e, <[quantize_up quant e.1 := default [] (m !! quantize_up quant e.1) ++ e.2]> m) vs acc !! e = Some l ∧ i ∈ l) ↔
    (∃ l, acc !! e = Some l ∧ i ∈ l) ∨ ∃ k l, (k, l) ∈ vs ∧ quantize_up quant k = e ∧ i ∈ l).
  2: { rewrite Hgen. setoid_rewrite lookup_empty. naive_solver. }
  induction vs as [|[k0 l0] vs IH]; intros acc; cbn [fold_left]; [set_solver|]. rewrite IH. cbn [fst snd]. clear IH.
  setoid_rewrite elem_of_cons. rewrite lookup_insert. case_decide as Hk.
  - split.
    + intros [(l & [= <-] & [Hi|Hi]%elem_of_app)|H]; [left|right; exists k0, l0; naive_solver|naive_solver]. destruct (acc !! _) eqn:E; [|by apply not_elem_of_nil in Hi]. subst. eauto.
    + intros [(l & Hl & Hi)|(k & l & [[= -> ->]|Hin] & He & Hi)]; [left|left|right; eauto]; (eexists; split; [reflexivity|]); apply elem_of_app; [left|by right]. subst. by rewrite Hl.
  - naive_solver.
Qed.

Lemma marks_loop quant q (L : list (Z * list Z)) : 
  Forall (λ e, e.2 ≠ [] → 0 ≤ e.1 < i64_max ∧ quantize_up quant e.1 = e.1) L → epochs_ok q →
  ∃ q', try_fold (λ q e, bfq_add_to_queue_values quant q e.1 e.2) q L = Ok q' ∧ epochs_ok q' ∧
    ∀ e i, named q' e i ↔ named q e i ∨ ∃ l, (e, l) ∈ L ∧ i ∈ l.
Proof.
  intros HL. revert q. induction HL as [|[k l] L Hk HL IH]; intros q Hep; [exists q; split_and!; [done|done|set_solver]|].
  cbn [try_fold fst snd] in *. assert (Hadd : bfq_add_to_queue_values quant q k l = Ok (mark q k l) ∧ epochs_ok (mark q k l)).
  { destruct l as [|w l]; [done|]. destruct Hk as [Hk Hq]; [done|]. rewrite bfq_add_ok by (by rewrite Hq). rewrite Hq. split; [done|]. by apply mark_epochs. }
  destruct Hadd as [-> Hep']. destruct (IH (mark q k l) Hep') as (q' & -> & Hq' & Hn).
  exists q'. split_and!; [done|done|]. intros e i. rewrite Hn, named_mark. setoid_rewrite elem_of_cons. naive_solver.
Qed.

Lemma add_many_ok quant q (vs : list (Z * list Z)) :
  0 < q_unit quant → (∀ k l i, (k, l) ∈ vs → i ∈ l → 0 ≤ quantize_up quant k < i64_max) → epochs_ok q →
  ∃ q', bfq_add_many_to_queue_values quant q vs = Ok q' ∧ epochs_ok q' ∧
    ∀ e i, named q' e i ↔ named q e i ∨ ∃ k l, (k, l) ∈ vs ∧ quantize_up quant k = e ∧ i ∈ l.
Proof.
  intros Hu Hvs Hq. unfold bfq_add_many_to_queue_values. destruct (marks_loop quant q (sort_by fst (map_to_list (quantized_values quant vs)))) as (q' & -> & Hq' & Hn); [|done|].
  { apply Forall_forall. intros [k l]. rewrite sort_by_perm, elem_of_map_to_list. cbn. intros Hk Hl. destruct l as [|i l]; [done|].
    destruct (proj1 (quantized_values_spec quant vs k i)) as (k0 & l0 & Hin & <- & Hi); [exists (i :: l); split; [done|by left]|]. split; [by eapply Hvs|]. by apply quantize_up_idem. }
  exists q'. split_and!; [done|done|]. intros e i. rewrite Hn, <- quantized_values_spec. setoid_rewrite sort_by_perm. setoid_rewrite elem_of_map_to_list. done.
Qed.

(** What is taken out by an epoch. *)
Lemma bfq_pop_loop until L keys X :
  increasing fst L → Forall (λ e : Z * gset Z, 0 ≤ e.1 < i64_max) L →
  for_each_while (λ s epoch bitfield,
      let '(keys, vals) := s : list Z * gset Z in
      if until <? as_i64 epoch then mret (s, false) else mret ((keys ++ [epoch], vals ∪ bitfield), true)) (keys, X) L =
  let L' := filter (λ e, e.1 ≤ until) L in Ok (keys ++ L'.*1, X ∪ ⋃ L'.*2).
Proof.
  intros Hinc. revert keys X. induction Hinc as [|[k Y] L Hinc IH Hlt]; intros keys X HL; [cbn; by rewrite app_nil_r, (right_id_L ∅ (∪))|].
  apply Forall_cons in HL as [Hk HL]. cbn [for_each_while fst] in *. destruct (as_i64_epoch k Hk) as (-> & _ & _). rewrite filter_cons. cbn [fst].
  destruct (Z.ltb_spec until k) as [Hu|Hu]; cbn [mbind result_bind mret result_ret].
  - rewrite decide_False by lia. assert (Hnil : filter (λ e : Z * gset Z, e.1 ≤ until) L = []).
    { destruct (filter _ L) as [|[k' Y'] L'] eqn:E; [done|]. assert (Hx : (k', Y') ∈ filter (λ e : Z * gset Z, e.1 ≤ until) L) by (rewrite E; by left).
      apply list_elem_of_filter in Hx as [Hx Hin]. rewrite Forall_forall in Hlt. specialize (Hlt _ Hin). cbn in *. lia. }
    rewrite Hnil. cbn. by rewrite app_nil_r, (right_id_L ∅ (∪)).
  - rewrite decide_True, IH by done. cbn. by rewrite <- app_assoc, (assoc_L (∪)).
Qed.

Lemma bfq_pop_ok q until : epochs_ok q →
  ∃ q' X modified, bfq_pop_until q until = Ok (q', (X, modified)) ∧ epochs_ok q' ∧ (modified = false → q' = q) ∧
    (∀ e i, named q' e i ↔ named q e i ∧ until < e) ∧ (∀ i, i ∈ X ↔ ∃ e, e ≤ until ∧ named q e i).
Proof.
  intros Hq. unfold bfq_pop_until. rewrite bfq_pop_loop; [|apply entries_increasing|apply Forall_forall; intros [e X] Hin%elem_of_entries; by eapply Hq].
  cbv zeta. rewrite app_nil_l, (left_id_L ∅ (∪)). set (L := filter (λ e, e.1 ≤ until) (amt_entries q)). cbn [mbind result_bind].
  assert (HL : ∀ e X, (e, X) ∈ L ↔ e ≤ until ∧ q !! e = Some X) by (intros; unfold L; by rewrite list_elem_of_filter, elem_of_entries).
  assert (HX : ∀ i, i ∈ ⋃ L.*2 ↔ ∃ e, e ≤ until ∧ named q e i).
  { intros i. rewrite elem_of_union_list. unfold named. split.
    - intros (X & HX & Hi). apply list_elem_of_fmap in HX as ([e X'] & -> & [He HeX]%HL). eauto.
    - intros (e & He & X & HX & Hi). exists X. split; [|done]. apply list_elem_of_fmap. exists (e, X). split; [done|by apply HL]. }
  assert (Hgt : ∀ q', (∀ e, q' !! e = if decide (e ∈ L.*1) then None else q !! e) → (∀ e i, named q' e i ↔ named q e i ∧ until < e)).
  { intros q' Hq' e i. unfold named. rewrite Hq'. case_decide as Hin.
    - apply list_elem_of_fmap in Hin as ([e' X] & -> & [He _]%HL). cbn in *. naive_solver lia.
    - split; [|naive_solver]. intros (X & HeX & Hi). split; [eauto|]. destruct (decide (e ≤ until)); [|lia]. destruct Hin. apply list_elem_of_fmap. exists (e, X). split; [done|by apply HL]. }
  destruct L.*1 as [|k ks] eqn:E.
  - exists q, ∅, false. split_and!; [done|done|done|by apply Hgt|]. intros i. rewrite <- HX. destruct L; [done|discriminate].
  - destruct (amt_batch_delete_ok q (k :: ks)) as (q' & -> & Hq').
    { rewrite <- E. eapply sublist_NoDup; [apply (entries_nodup q)|]. apply fmap_sublist, sublist_filter. }
    { rewrite <- E. intros e He. apply list_elem_of_fmap in He as ([e' X] & -> & [He HeX]%HL). cbn. split; [|by eexists]. by apply as_i64_epoch, (Hq e' X). }
    exists q', (⋃ L.*2), true. split_and!; [done| |done|by apply Hgt|done]. intros e X HeX. apply (Hq e X). rewrite Hq' in HeX. by case_decide.
Qed.

(** ** The invariant *)

Definition MAX_PARTITIONS : Z := 2 ^ 32.

(** Proven in the current window: nothing is unproven or recovering. *)
Definition quiet p : Prop := pt_unproven p = ∅ ∧ pt_recoveries p = ∅.
Definition live_count p : Z := bits_len (live_sectors p).
Definition total_count p : Z := bits_len (pt_sectors p).

Section spec.
Context (size : Z) (m : Sectors) (quant : QuantSpec).
Notation part_ok := (part_ok size m quant).

Record parts_ok (c : Z) C ps : Prop := {
  pa_keys : ∀ i, is_Some (ps !! i) ↔ 0 ≤ i < amt_count ps;
  pa_count : amt_count ps ≤ MAX_PARTITIONS;
  pa_part : ∀ i p, ps !! i = Some p → part_ok c C i p;
  pa_disjoint : ∀ i j p p', i ≠ j → ps !! i = Some p → ps !! j = Some p' → pt_sectors p ## pt_sectors p' }.

(** All but the queue, which [C] stands for. *)
Record book_ok (c : Z) C (d : Deadline) : Prop := {
  bk_parts : parts_ok c C (dl_partitions d);
  bk_live : dl_live_sectors d = tally live_count (dl_partitions d);
  bk_total : dl_total_sectors d = tally total_count (dl_partitions d);
  bk_faulty : dl_faulty_power d = ptally pt_faulty_power (dl_partitions d);
  bk_early : ∀ i, i ∈ early_terminations d ↔ ∃ p, dl_partitions d !! i = Some p ∧ early_terminated p ≠ ∅;
  bk_posted : ∀ i, i ∈ partitions_posted d → ∃ p, dl_partitions d !! i = Some p ∧ quiet p }.

Record deadline_ok (c : Z) (d : Deadline) : Prop := {
  dk_book : book_ok c (named (dl_expirations d)) d;
  dk_epochs : epochs_ok (dl_expirations d);
  dk_names : ∀ e i, named (dl_expirations d) e i → is_Some (dl_partitions d !! i) }.

Lemma deadline_new_ok c : deadline_ok c deadline_new.
Proof.
  split; cbn; [|by intros e X; rewrite lookup_empty|intros e i (X & HX & _); by rewrite lookup_empty in HX].
  split; cbn; try done; [|set_solver..]. split; cbn; try done; [|by intros *; rewrite lookup_empty..].
  intros i. rewrite lookup_empty. unfold amt_count. rewrite map_size_empty. split; [by intros []|lia].
Qed.

Lemma book_mono c c' C C' d : c ≤ c' → (∀ e i, C e i → C' e i) → book_ok c C d → book_ok c' C' d.
Proof.
  intros Hc HC [[Hk Hn Hp Hd] H2 H3 H4 H5 H6]. split; try done. split; try done. intros i p Hi. eapply part_ok_mono; [done| |by apply Hp]. auto.
Qed.

(** One partition changes. *)
Lemma book_step c c' C C' (d d' : Deadline) i p p' :
  book_ok c C d → c ≤ c' → dl_partitions d !! i = Some p →
  part_ok c' C' i p' → (∀ e j, j ≠ i → C e j → C' e j) →
  (∀ j pj, j ≠ i → dl_partitions d !! j = Some pj → pt_sectors p' ## pt_sectors pj) →
  dl_partitions d' = <[i := p']> (dl_partitions d) →
  dl_live_sectors d' = dl_live_sectors d - live_count p + live_count p' →
  dl_total_sectors d' = dl_total_sectors d - total_count p + total_count p' →
  dl_faulty_power d' = (dl_faulty_power d - pt_faulty_power p + pt_faulty_power p')%pw →
  (∀ j, j ≠ i → j ∈ early_terminations d' ↔ j ∈ early_terminations d) → (i ∈ early_terminations d' ↔ early_terminated p' ≠ ∅) →
  (∀ j, j ≠ i → j ∈ partitions_posted d' → j ∈ partitions_posted d) → (i ∈ partitions_posted d' → quiet p') →
  book_ok c' C' d'.
Proof.
  intros [[Hk Hn Hp Hd] H2 H3 H4 H5 H6] Hc Hi Hp' HC Hdj Hps Hl Ht Hf He Hei Hpo Hpi. split; rewrite Hps.
  - split.
    + intros j. rewrite (count_insert _ i p p' Hi), <- Hk, lookup_insert. case_decide; [|done]. subst j. rewrite Hi. split; by eexists.
    + by rewrite (count_insert _ i p p' Hi).
    + intros j pj. rewrite lookup_insert. case_decide; [by intros [= <-]; subst j|]. intros Hj. eapply part_ok_mono; [done| |by apply Hp]. intros e. by apply HC.
    + intros j k pj pk Hjk. rewrite !lookup_insert. repeat case_decide; subst; try done.
      * intros [= <-] Hk'. by eapply Hdj.
      * intros Hj [= <-]. symmetry. by eapply Hdj.
      * by apply Hd.
  - rewrite Hl, H2, (tally_update _ _ i p p' Hi). lia.
  - rewrite Ht, H3, (tally_update _ _ i p p' Hi). lia.
  - by rewrite Hf, H4, (ptally_update _ _ i p p' Hi).
  - intros j. rewrite lookup_insert. case_decide; [subst j; rewrite Hei; naive_solver|]. rewrite He, H5 by done. done.
  - intros j Hj. rewrite lookup_insert. case_decide; [subst j; eauto|]. by apply H6, Hpo.
Qed.

(** The usual case: the sectors of the partition stay. *)
Lemma same_sectors_disj c C d i p p' :
  book_ok c C d → dl_partitions d !! i = Some p → pt_sectors p' = pt_sectors p →
  ∀ j pj, j ≠ i → dl_partitions d !! j = Some pj → pt_sectors p' ## pt_sectors pj.
Proof. intros H Hi -> j pj Hne Hj. eapply (pa_disjoint _ _ _ (bk_parts _ _ _ H) i j); by try apply not_eq_sym. Qed.

Lemma index_ok c C ps i p : parts_ok c C ps → ps !! i = Some p → 0 ≤ i ≤ AMT_MAX_INDEX ∧ i < amt_count ps.
Proof.
  intros [Hk Hn _ _] Hi. assert (0 ≤ i < amt_count ps) by (apply Hk; by eexists). unfold MAX_PARTITIONS, AMT_MAX_INDEX, usize_max in *. lia.
Qed.
Lemma get_part c C ps i p : parts_ok c C ps → ps !! i = Some p → amt_get ps i = Ok (Some p).
Proof. intros H Hi. rewrite amt_get_ok by by eapply index_ok. by rewrite Hi. Qed.
Lemma set_part c C ps i p p' : parts_ok c C ps → ps !! i = Some p → amt_set ps i p' = Ok (<[i := p']> ps).
Proof. intros H Hi. by rewrite amt_set_ok by by eapply index_ok. Qed.

Lemma live_le_total p : 0 ≤ live_count p ≤ total_count p.
Proof.
  unfold live_count, total_count, bits_len. pose proof (subseteq_size (live_sectors p) (pt_sectors p) ltac:(unfold live_sectors; set_solver)). lia.
Qed.
(** The counts fit in 64 bits. *)
Lemma counts_ok c C d : book_ok c C d → 0 ≤ dl_live_sectors d ≤ dl_total_sectors d ∧ dl_total_sectors d ≤ 2 ^ 46.
Proof.
  intros [[Hk Hn Hp Hd] H2 H3 _ _ _]. rewrite H2, H3.
  assert (H0 : tally (λ _, 0) (dl_partitions d) ≤ tally live_count (dl_partitions d)) by (apply tally_le; intros; apply live_le_total).
  assert (H1 : tally live_count (dl_partitions d) ≤ tally total_count (dl_partitions d)) by (apply tally_le; intros; apply live_le_total).
  assert (Hmax : tally total_count (dl_partitions d) ≤ tally (λ _, ENTRY_SECTORS_MAX) (dl_partitions d)).
  { apply tally_le. intros i p Hi. by eapply part_size, Hp. }
  rewrite tally_const in H0, Hmax. unfold MAX_PARTITIONS, ENTRY_SECTORS_MAX in *. lia.
Qed.
Lemma wrap_small z : 0 ≤ z ≤ 2 ^ 46 → wrap_u64 z = z.
Proof. intros Hz. unfold wrap_u64. apply Z.mod_small. lia. Qed.
Lemma live_bound c C d i p : book_ok c C d → dl_partitions d !! i = Some p → live_count p ≤ dl_live_sectors d.
Proof.
  intros H Hi. rewrite (bk_live _ _ _ H), (tally_split _ _ i p Hi). enough (tally (λ _, 0) (delete i (dl_partitions d)) ≤ tally live_count (delete i (dl_partitions d))) by (rewrite tally_const in *; lia).
  apply tally_le. intros; apply live_le_total.
Qed.

Lemma faulty_nonneg c C d : 0 < size → table_wf m → book_ok c C d → pp_nonneg (dl_faulty_power d).
Proof.
  intros Hsize Hm H. rewrite (bk_faulty _ _ _ H). assert (Hn : ∀ i p, dl_partitions d !! i = Some p → pp_nonneg (pt_faulty_power p)).
  { intros i p Hi. pose proof (pa_part _ _ _ (bk_parts _ _ _ H) i p Hi) as (σ & Hp & _). rewrite (mo_faulty _ _ _ (po_memos _ _ _ _ _ _ Hp)). by apply psum_P_nonneg. }
  split; cbn.
  - pose proof (tally_le (λ _, 0) (λ p, raw (pt_faulty_power p)) (dl_partitions d)) as Ht. rewrite tally_const in Ht. apply Ht. intros i p Hi. by apply (Hn i).
  - pose proof (tally_le (λ _, 0) (λ p, qa (pt_faulty_power p)) (dl_partitions d)) as Ht. rewrite tally_const in Ht. apply Ht. intros i p Hi. by apply (Hn i).
Qed.

(** A deadline in this state can be stored. *)
Lemma dl_valid c C d : 0 < size → table_wf m → book_ok c C d → dl_validate_state d = Ok tt.
Proof.
  intros Hsize Hm H. unfold dl_validate_state. destruct (counts_ok c C d H) as [Hc _]. rewrite (proj2 (Z.ltb_ge _ _)) by lia.
  cbn [throw_if mbind result_bind]. rewrite not_negative; [done|]. by eapply faulty_nonneg.
Qed.
End spec.

(** ** Partitions that a message names *)

Definition entries_in (Q : Partition → gset Z → Prop) ps (l : list (Z * UnvalidatedBitField)) : Prop :=
  NoDup l.*1 ∧ ∀ i o, (i, o) ∈ l → ∃ p X, ps !! i = Some p ∧ o = Some X ∧ Q p X.

Lemma entries_in_cons Q ps i o l :
  entries_in Q ps ((i, o) :: l) → ∃ p X, ps !! i = Some p ∧ o = Some X ∧ Q p X ∧ ∀ p', entries_in Q (<[i := p']> ps) l.
Proof.
  intros [[Hi Hnd]%NoDup_cons HQ]. destruct (HQ i o) as (p & X & Hp & Ho & HX); [by left|]. exists p, X. split_and!; try done. intros p'. split; [done|].
  intros j o' Hin. rewrite lookup_insert_ne; [apply HQ; by right|]. intros ->. apply Hi. apply list_elem_of_fmap. by exists (j, o').
Qed.
Lemma map_iter_nodup {V} (mp : gmap Z V) : NoDup (map_iter mp).*1.
Proof. apply (entries_nodup mp). Qed.
Lemma elem_of_map_iter {V} (mp : gmap Z V) i v : (i, v) ∈ map_iter mp ↔ mp !! i = Some v.
Proof. apply (elem_of_entries mp). Qed.
