(* ===== verification/DeadlineOps.v ===== *)
(** * The operations of a deadline

    Every operation of [deadline_state.rs] succeeds on what its callers pass, keeps
    the deadline's invariant, and reports the change of active power. *)

From S2P Require Import Prelude Address Runtime Types Vesting MinerFunds Sectors Expirations Schedule ScheduleOps ScheduleRemove Partition PartitionSpec PartitionOps EarlyTerminations PartitionHistory SectorMaps DeadlineState DeadlineParts DeadlineSpec.

Implicit Types (p : Partition) (ps : gmap Z Partition) (C : Z → Z → Prop) (q : BitFieldQueue) (d : Deadline).

(** Equations between powers. *)
Ltac pp_lia :=
  repeat match goal with
  | H : @eq PowerPair _ _ |- _ =>
      let H1 := fresh in let H2 := fresh in pose proof (f_equal raw H) as H1; pose proof (f_equal qa H) as H2; clear H
  end;
  apply pp_ext; unfold pp_add, pp_sub, pp_neg, pp_zero in *; cbn [raw qa] in *; lia.

(** The active power of a deadline. *)
Definition dl_active d : PowerPair := ptally pt_active_power (dl_partitions d).

(** A deadline with other partitions, marks of proofs, and faulty power. *)
Definition with_parts d ps (posted : gset Z) (fp : PowerPair) : Deadline :=
  {| dl_partitions := ps; dl_expirations := dl_expirations d; partitions_posted := posted; early_terminations := early_terminations d;
     dl_live_sectors := dl_live_sectors d; dl_total_sectors := dl_total_sectors d; dl_faulty_power := fp;
     optimistic_post_submissions := optimistic_post_submissions d; partitions_snapshot := partitions_snapshot d;
     optimistic_post_submissions_snapshot := optimistic_post_submissions_snapshot d |}.
Lemma with_parts_id d : with_parts d (dl_partitions d) (partitions_posted d) (dl_faulty_power d) = d.
Proof. by destruct d. Qed.

Lemma or_default_ok {A} code (x : A) : or_default code (Ok x) = Ok x.
Proof. done. Qed.

(** Partitions that exist are named. *)
Definition names_ok ps (W : list Z) : Prop := ∀ i, i ∈ W → is_Some (ps !! i).
Lemma names_step ps W i p' (b : bool) : names_ok ps W → names_ok (<[i := p']> ps) (if b then W else W ++ [i]).
Proof.
  intros HW j Hj. destruct (decide (i = j)) as [->|Hne]; [rewrite lookup_insert_eq; by eexists|]. rewrite lookup_insert_ne by done. apply HW.
  destruct b; [done|]. apply elem_of_app in Hj as [?|?%list_elem_of_singleton]; congruence.
Qed.

Section ops.
Context (size : Z) (m : Sectors) (Hsize : 0 < size) (Hm : table_wf m) (quant : QuantSpec) (Hu : 0 < q_unit quant ≤ 2 ^ 60).
Context (ho : gset Z → list Z) (Horder : ∀ X, ho X ≡ₚ elements X).
Notation P := (info_power size m).
Notation book_ok := (book_ok size m quant).
Notation part_ok := (part_ok size m quant).
Notation deadline_ok := (deadline_ok size m quant).
Notation qup := (quantize_up quant).

Lemma quant_epoch r : 0 ≤ r ≤ 2 ^ 62 → 0 ≤ qup r < i64_max.
Proof. intros Hr. by apply (quantized_ok quant Hu). Qed.

(** A partition changes and keeps its sectors, terminations and marks. *)
Lemma framed_step c c' C C' d ps posted posted' fp i p p' :
  book_ok c C (with_parts d ps posted fp) → c ≤ c' → ps !! i = Some p → framed p p' → part_ok c' C' i p' → (∀ e j, j ≠ i → C e j → C' e j) →
  (∀ j, j ≠ i → j ∈ posted' → j ∈ posted) → (i ∈ posted' → quiet p') →
  book_ok c' C' (with_parts d (<[i := p']> ps) posted' (fp - pt_faulty_power p + pt_faulty_power p')%pw).
Proof.
  intros H Hc Hi Hf Hp' HC Hpo Hpi. pose proof (framed_live _ _ Hf) as Hlive. destruct Hf as [HS HT HE].
  eapply (book_step size m quant c c' C C' _ _ i p p' H Hc Hi Hp' HC); cbn; try done.
  - by apply (same_sectors_disj size m quant c C _ i p p' H).
  - unfold live_count. rewrite Hlive. lia.
  - unfold total_count. rewrite HS. lia.
  - rewrite HE. rewrite (bk_early _ _ _ _ _ _ H). cbn. rewrite Hi. naive_solver.
Qed.

(** The faulty power memo of a partition. *)
Lemma faulty_memo c C i p : part_ok c C i p → pt_faulty_power p = psum P (pt_faults p).
Proof. intros H. apply (mo_faulty _ _ _ (part_memos _ _ _ _ _ _ _ H)). Qed.
Lemma active_step ps i p p' x : ps !! i = Some p → pt_active_power p' = (pt_active_power p + x)%pw →
  ptally pt_active_power (<[i := p']> ps) = (ptally pt_active_power ps + x)%pw.
Proof. intros Hi Hx. rewrite (ptally_update _ _ i p p' Hi), Hx. pp_solve. Qed.

(** ** Faults *)

Section faults.
Context (d : Deadline) (r : Z) (Hr : 0 ≤ r ≤ 2 ^ 62).
Notation cov W := (named (mark (dl_expirations d) (qup r) W)).


Lemma faults_loop l ps W δ fp :
  book_ok (qup r) (cov W) (with_parts d ps (partitions_posted d) fp) → names_ok ps W →
  entries_in (λ p X, X ⊆ pt_sectors p) ps l →
  ∃ ps' W' δ' fp', try_fold (record_faults_one size quant ho m r) (ps, (W, δ, fp)) l = Ok (ps', (W', δ', fp')) ∧
    book_ok (qup r) (cov W') (with_parts d ps' (partitions_posted d) fp') ∧ names_ok ps' W' ∧ dom ps' = dom ps ∧
    (δ' + ptally pt_active_power ps = δ + ptally pt_active_power ps')%pw.
Proof.
  revert ps W δ fp. induction l as [|[i o] l IH]; intros ps W δ fp H HW Hl; [exists ps, W, δ, fp; by split_and!|].
  destruct (entries_in_cons _ _ _ _ _ Hl) as (p & X & Hi & -> & HX & Hl'). clear Hl. pose proof (bk_parts _ _ _ _ _ _ H) as Hps. cbn in Hps.
  set (N := (X ∖ pt_terminated p) ∖ pt_faults p). set (W1 := if bool_decide (N = ∅) then W else W ++ [i]).
  assert (HC : ∀ e j, cov W e j → cov W1 e j) by (intros e j; unfold W1; destruct (bool_decide (N = ∅)); [done|apply mark_more]).
  destruct (part_faults size m Hsize Hm quant Hu ho Horder (qup r) (cov W) (cov W1) i p X r) as (p' & δp & Hrun & Hp' & Hfr & Hact & HF & HU & HR); try done.
  { by apply (pa_part _ _ _ _ _ _ Hps). }
  { auto. }
  { intros HN. unfold W1. rewrite bool_decide_false by done. apply mark_new. }
  fold N in Hrun, HF, HU. cbn [try_fold]. unfold record_faults_one at 1, declared_partition. rewrite (get_part _ _ _ _ _ _ _ _ Hps Hi), or_default_ok. cbn [mbind result_bind ok_or].
  rewrite Hrun. cbn [mbind result_bind]. rewrite (set_part _ _ _ _ _ _ _ _ p' Hps Hi), or_default_ok. cbn [mbind result_bind mret result_ret].
  assert (Hfp : (fp - pt_faulty_power p + pt_faulty_power p' = fp + psum P N)%pw).
  { rewrite (faulty_memo _ _ _ _ Hp'), (faulty_memo _ _ _ _ (pa_part _ _ _ _ _ _ Hps i p Hi)), HF, psum_union by set_solver. pp_solve. }
  destruct (IH (<[i := p']> ps) W1 (δ + δp)%pw (fp + psum P N)%pw) as (ps' & W' & δ' & fp' & Hf & Hb & HW' & Hd & Hδ).
  - rewrite <- Hfp. eapply framed_step; [exact H|lia|done|done|done|auto|done|]. cbn. intros Hpo.
    destruct (bk_posted _ _ _ _ _ _ H i Hpo) as (p0 & Hp0 & HU0 & HR0). cbn in Hp0. rewrite Hi in Hp0. injection Hp0 as <-. split; [rewrite HU, HU0; set_solver|by rewrite HR].
  - by apply names_step.
  - apply Hl'.
  - exists ps', W', δ', fp'. split_and!; [exact Hf|done|done|rewrite Hd, dom_insert_lookup_L; [done|by eexists]|].
    rewrite (active_step _ _ _ _ δp Hi Hact) in Hδ. clear -Hδ. pp_lia.
Qed.
End faults.

(** The names of a queue stay within the partitions. *)
Lemma names_mark d ps W k :
  (∀ e i, named (dl_expirations d) e i → is_Some (dl_partitions d !! i)) → dom ps = dom (dl_partitions d) → names_ok ps W →
  ∀ e i, named (mark (dl_expirations d) k W) e i → is_Some (ps !! i).
Proof. intros Hn Hd HW e i. rewrite named_mark. intros [He|[_ Hi]]; [|by apply HW]. apply elem_of_dom. rewrite Hd. apply elem_of_dom. by eapply Hn. Qed.

Lemma dl_faults_ok c d r pm :
  deadline_ok c d → 0 ≤ r ≤ 2 ^ 62 → c ≤ qup r → entries_in (λ p X, X ⊆ pt_sectors p) (dl_partitions d) (map_iter pm) →
  ∃ d' δ, dl_record_faults size quant ho d m r pm = Ok (d', δ) ∧ deadline_ok (qup r) d' ∧ dl_active d' = (dl_active d + δ)%pw ∧
    partitions_posted d' = partitions_posted d.
Proof.
  intros [Hb He Hn] Hr Hc Hpm. pose proof (quant_epoch r Hr) as Hep.
  destruct (faults_loop d r Hr (map_iter pm) (dl_partitions d) [] pp_zero (dl_faulty_power d)) as (ps' & W & δ & fp & Hrun & Hb' & HW & Hd & Hδ); [|by intros i ?%not_elem_of_nil|done|].
  { rewrite with_parts_id. eapply book_mono; [exact Hc|done|exact Hb]. }
  unfold dl_record_faults. rewrite Hrun. cbn [mbind result_bind]. rewrite add_partitions_ok by done. cbn [or_default mbind result_bind mret result_ret].
  eexists _, _. split; [reflexivity|]. split_and!; [|unfold dl_active; cbn; clear -Hδ; pp_lia|done].
  split; [|by apply mark_epochs|by apply names_mark]. destruct Hb' as [H1 H2 H3 H4 H5 H6]. by split.
Qed.

(** ** Recoveries *)

Lemma declare_loop c C d l ps :
  book_ok c C (with_parts d ps ∅ (dl_faulty_power d)) → entries_in (λ p X, X ⊆ pt_sectors p) ps l →
  ∃ ps', try_fold (λ ps e,
      let '(partition_idx, sector_numbers) := e : Z * UnvalidatedBitField in
      p ← declared_partition ps partition_idx;
      p ← declare_faults_recovered size p m sector_numbers;
      or_default ErrIllegalState (amt_set ps partition_idx p)) ps l = Ok ps' ∧
    book_ok c C (with_parts d ps' ∅ (dl_faulty_power d)) ∧ dom ps' = dom ps ∧ ptally pt_active_power ps' = ptally pt_active_power ps.
Proof.
  revert ps. induction l as [|[i o] l IH]; intros ps H Hl; [exists ps; by split_and!|].
  destruct (entries_in_cons _ _ _ _ _ Hl) as (p & X & Hi & -> & HX & Hl'). clear Hl. pose proof (bk_parts _ _ _ _ _ _ H) as Hps. cbn in Hps.
  destruct (part_declare size m Hsize Hm quant Hu ho Horder c C i p X) as (p' & Hrun & Hp' & Hfr & Hact & HF & HU & HR); [by apply (pa_part _ _ _ _ _ _ Hps)|done|].
  cbn [try_fold]. unfold declared_partition at 1. rewrite (get_part _ _ _ _ _ _ _ _ Hps Hi), or_default_ok. cbn [mbind result_bind ok_or].
  rewrite Hrun. cbn [mbind result_bind]. rewrite (set_part _ _ _ _ _ _ _ _ p' Hps Hi), or_default_ok.
  assert (Hfp : (dl_faulty_power d - pt_faulty_power p + pt_faulty_power p' = dl_faulty_power d)%pw).
  { rewrite (faulty_memo _ _ _ _ Hp'), (faulty_memo _ _ _ _ (pa_part _ _ _ _ _ _ Hps i p Hi)), HF. pp_solve. }
  destruct (IH (<[i := p']> ps)) as (ps' & Hf & Hb & Hd & Hδ); [|apply Hl'|].
  - rewrite <- Hfp at 1. eapply framed_step; [exact H|lia|done|done|done|done|done|]. set_solver.
  - exists ps'. split_and!; [exact Hf|done|rewrite Hd, dom_insert_lookup_L; [done|by eexists]|]. rewrite Hδ, (ptally_update _ _ i p p' Hi), Hact. pp_solve.
Qed.

Lemma dl_declare_ok c d pm :
  deadline_ok c d → partitions_posted d = ∅ → entries_in (λ p X, X ⊆ pt_sectors p) (dl_partitions d) (map_iter pm) →
  ∃ d', dl_declare_faults_recovered size d m pm = Ok d' ∧ deadline_ok c d' ∧ dl_active d' = dl_active d ∧ partitions_posted d' = ∅.
Proof.
  intros [Hb He Hn] Hpo Hpm. destruct (declare_loop c (named (dl_expirations d)) d (map_iter pm) (dl_partitions d)) as (ps' & Hrun & Hb' & Hd & Hδ); [|done|].
  { by rewrite <- Hpo, with_parts_id. }
  unfold dl_declare_faults_recovered. rewrite Hrun. cbn [mbind result_bind mret result_ret]. eexists. split; [reflexivity|]. split_and!; [|done|done].
  split; [|done|cbn; intros e i ?%Hn; by rewrite <- elem_of_dom, Hd, elem_of_dom]. destruct Hb' as [H1 H2 H3 H4 H5 H6]. split; try done. cbn. by rewrite Hpo.
Qed.

(** ** Proofs *)

(** What a proof does to one partition: skipped sectors become faulty, the
    recovering ones are healthy again, the unproven ones are proven. *)
Lemma proven_one c C C' i p X r :
  part_ok c C i p → X ⊆ pt_sectors p → 0 ≤ r ≤ 2 ^ 62 → c ≤ qup r → (∀ e, C e i → C' e i) →
  let N := (X ∖ pt_terminated p) ∖ pt_faults p in (N ≠ ∅ → C' (qup r) i) →
  ∃ p1 p2 δ rr, record_skipped_faults size quant ho p m r (Some X) = Ok (p1, (δ, psum P N, rr, negb (bool_decide (N = ∅)))) ∧
    recover_faults size quant p1 m = Ok (p2, psum P (pt_recoveries p1)) ∧
    let '(p', power) := activate_unproven p2 in
    part_ok (qup r) C' i p' ∧ framed p p' ∧ quiet p' ∧
    pt_active_power p' = (pt_active_power p + (δ + power + psum P (pt_recoveries p1)))%pw ∧
    pt_faulty_power p' = (pt_faulty_power p - psum P (pt_recoveries p1) + psum P N)%pw.
Proof.
  intros H HX Hr Hc HC N HN. pose proof (faulty_memo _ _ _ _ H) as HF0.
  destruct (part_skipped size m Hsize Hm quant Hu ho Horder c C C' i p X r H HX Hr Hc HC HN) as (p1 & δ & rr & Hs & Hp1 & Hf1 & Ha1 & HF1). fold N in Hs, HF1.
  destruct (part_recover size m Hsize Hm quant Hu ho Horder _ _ _ _ Hp1) as (p2 & Hrec & Hp2 & Hf2 & Ha2 & HF2 & HR2 & HU2).
  exists p1, p2, δ, rr. split; [exact Hs|]. split; [exact Hrec|]. pose proof (part_activate size m quant ho _ _ _ _ Hp2) as Ha. destruct (activate_unproven p2) as [p' power].
  destruct Ha as (Hp' & Hf3 & Ha3 & HU3 & HF3 & HR3). split_and!; [done|by do 2 (etrans; [eassumption|])|split; [done|by rewrite HR3]|rewrite Ha3, Ha2, Ha1; pp_solve|].
  pose proof (so_recoveries _ (part_sets _ _ _ _ _ _ _ Hp1)) as HR1.
  rewrite (faulty_memo _ _ _ _ Hp'), HF3, HF2, psum_difference by done. rewrite HF1, psum_union by (unfold N; clear; set_solver). rewrite HF0. pp_solve.
Qed.

Section proofs.
Context (d : Deadline) (r : Z) (Hr : 0 ≤ r ≤ 2 ^ 62).
Notation cov W := (named (mark (dl_expirations d) (qup r) W)).

Definition post_entries (posts : list PoStPartition) : list (Z * UnvalidatedBitField) := (λ post, (pp_index post, pp_skipped post)) <$> posts.

Lemma prove_loop posts ps W posted res :
  book_ok (qup r) (cov W) (with_parts d ps posted (dl_faulty_power d - recovered_power res + new_faulty_power res)%pw) → names_ok ps W →
  entries_in (λ p X, X ⊆ pt_sectors p) ps (post_entries posts) →
  ∃ ps' W' posted' res', try_fold (prove_one size quant ho m r) (ps, (W, posted, res)) posts = Ok (ps', (W', posted', res')) ∧
    book_ok (qup r) (cov W') (with_parts d ps' posted' (dl_faulty_power d - recovered_power res' + new_faulty_power res')%pw) ∧ names_ok ps' W' ∧ dom ps' = dom ps ∧
    (pr_power_delta res' + ptally pt_active_power ps = pr_power_delta res + ptally pt_active_power ps')%pw ∧
    posted' = posted ∪ bits_of (pp_index <$> posts) ∧ pr_partitions res' = pr_partitions res.
Proof.
  revert ps W posted res. induction posts as [|post posts IH]; intros ps W posted res H HW Hl.
  { exists ps, W, posted, res. split_and!; try done. unfold bits_of. cbn. by rewrite (right_id_L ∅ (∪)). }
  unfold post_entries in Hl. rewrite fmap_cons in Hl. cbn in Hl. set (i := pp_index post) in *.
  destruct (entries_in_cons _ _ _ _ _ Hl) as (p & X & Hi & HoX & HX & Hl'). clear Hl. pose proof (bk_parts _ _ _ _ _ _ H) as Hps. cbn in Hps.
  set (N := (X ∖ pt_terminated p) ∖ pt_faults p). set (W1 := if bool_decide (N = ∅) then W else W ++ [i]).
  assert (HC : ∀ e j, cov W e j → cov W1 e j) by (intros e j; unfold W1; destruct (bool_decide (N = ∅)); [done|apply mark_more]).
  destruct (proven_one (qup r) (cov W) (cov W1) i p X r) as (p1 & p2 & δ & rr & Hs & Hrec & Hact); try done.
  { by apply (pa_part _ _ _ _ _ _ Hps). }
  { auto. }
  { intros HN. unfold W1. rewrite bool_decide_false by done. apply mark_new. }
  fold N in Hs, Hact. cbn [try_fold]. unfold prove_one at 1. fold i. rewrite (get_part _ _ _ _ _ _ _ _ Hps Hi). cbn [mbind result_bind ok_or].
  rewrite HoX, Hs. cbn [mbind result_bind]. rewrite Hrec. cbn [mbind result_bind]. destruct (activate_unproven p2) as [p' power]. destruct Hact as (Hp' & Hfr & Hq & Ha & Hfp).
  rewrite (set_part _ _ _ _ _ _ _ _ p' Hps Hi), or_default_ok. cbn [mbind result_bind mret result_ret].
  replace (if negb (bool_decide (N = ∅)) then W ++ [i] else W) with W1 by (unfold W1; by case_bool_decide).
  match goal with |- context [(<[i := p']> ps, (W1, ?po, ?re))] => set (posted1 := po); set (res1 := re) end.
  destruct (IH (<[i := p']> ps) W1 posted1 res1) as (ps' & W' & posted' & res' & Hf & Hb & HW' & Hd & Hδ & Hpo & Hpr).
  - replace (dl_faulty_power d - recovered_power res1 + new_faulty_power res1)%pw with ((dl_faulty_power d - recovered_power res + new_faulty_power res) - pt_faulty_power p + pt_faulty_power p')%pw
      by (rewrite Hfp; cbn; clear; pp_lia).
    eapply framed_step; [exact H|lia|done|done|done|auto| |by intros _]. intros j Hj [?%elem_of_singleton|?]%elem_of_union; done.
  - by apply names_step.
  - apply Hl'.
  - exists ps', W', posted', res'. split_and!; [exact Hf|done|done|rewrite Hd, dom_insert_lookup_L; [done|by eexists]| | |done].
    + rewrite (active_step _ _ _ _ _ Hi Ha) in Hδ. cbn [pr_power_delta res1] in Hδ. clear -Hδ. pp_lia.
    + rewrite Hpo. unfold posted1, bits_of. cbn. fold i. set_solver.
Qed.
End proofs.

Lemma dl_prove_ok c d r posts :
  deadline_ok c d → 0 ≤ r ≤ 2 ^ 62 → c ≤ qup r → bits_of (pp_index <$> posts) ## partitions_posted d →
  entries_in (λ p X, X ⊆ pt_sectors p) (dl_partitions d) (post_entries posts) →
  ∃ d' res, record_proven_sectors size quant ho d m r posts = Ok (d', res) ∧ deadline_ok (qup r) d' ∧ dl_active d' = (dl_active d + pr_power_delta res)%pw ∧
    partitions_posted d' = partitions_posted d ∪ bits_of (pp_index <$> posts) ∧ pr_partitions res = bits_of (pp_index <$> posts).
Proof.
  intros [Hb He Hn] Hr Hc Hpo Hl. pose proof (quant_epoch r Hr) as Hep. unfold record_proven_sectors.
  assert (Hnd : NoDup (pp_index <$> posts)).
  { destruct Hl as [Hnd _]. unfold post_entries in Hnd. by rewrite <- list_fmap_compose in Hnd. }
  replace (bits_len (bits_of (pp_index <$> posts)) =? Z.of_nat (length posts)) with true
    by (symmetry; apply Z.eqb_eq; unfold bits_len, bits_of; by rewrite size_list_to_set, length_fmap).
  rewrite bool_decide_true by set_solver. cbn [negb throw_if mbind result_bind].
  match goal with |- context [try_fold _ (_, ([], _, ?x)) _] => set (res0 := x) end.
  destruct (prove_loop d r Hr posts (dl_partitions d) [] (partitions_posted d) res0) as (ps' & W & posted & res & Hrun & Hb' & HW & Hd & Hδ & Hpos & Hpr); [|by intros i ?%not_elem_of_nil|done|].
  { replace (dl_faulty_power d - recovered_power res0 + new_faulty_power res0)%pw with (dl_faulty_power d) by (cbn; clear; pp_lia). rewrite with_parts_id. eapply book_mono; [exact Hc|done|exact Hb]. }
  rewrite Hrun. cbn [mbind result_bind]. rewrite add_partitions_ok by done. cbn [or_default mbind result_bind mret result_ret].
  eexists _, _. split; [reflexivity|]. split_and!; [|unfold dl_active; cbn; cbn in Hδ; clear -Hδ; pp_lia|done|done].
  split; [|by apply mark_epochs|by apply names_mark]. destruct Hb' as [H1 H2 H3 H4 H5 H6]. by split.
Qed.

(** ** The end of a deadline *)

Lemma zero_power_empty X : X ⊆ dom m → raw (psum P X) = 0 → X = ∅.
Proof.
  intros HX Hz. apply set_eq. intros n. split; [|set_solver]. intros Hn. exfalso. pose proof (HX n Hn) as [s Hs]%elem_of_dom.
  pose proof (psum_le size m Hsize Hm {[n]} X ltac:(set_solver)) as Hle. rewrite psum_singleton in Hle. unfold info_power in Hle at 1. rewrite Hs in Hle. cbn in Hle. lia.
Qed.
Lemma live_known c C i p : part_ok c C i p → live_sectors p ⊆ dom m.
Proof. intros (σ & Hp & _). by eapply live_in_table. Qed.

(** A partition that is skipped has nothing to prove. *)
Lemma skipped_quiet c C i p :
  part_ok c C i p → pp_is_zero (recovering_power p) && bool_decide (pt_faulty_power p = live_power p) = true → quiet p.
Proof.
  intros H Hb. apply andb_true_iff in Hb as [Hz He%bool_decide_eq_true]. unfold pp_is_zero in Hz. apply andb_true_iff in Hz as [Hz%Z.eqb_eq _].
  pose proof (part_memos _ _ _ _ _ _ _ H) as [Hl Hun Hf Hr]. pose proof (part_sets _ _ _ _ _ _ _ H) as [Ht HU HF Hd HR]. pose proof (live_known _ _ _ _ H) as Hk. split.
  - assert (Hn : live_sectors p ∖ pt_faults p = ∅); [|set_solver]. apply zero_power_empty; [set_solver|]. rewrite psum_difference, <- Hl, <- Hf, He by done. cbn. lia.
  - apply zero_power_empty; [set_solver|]. by rewrite <- Hr.
Qed.
Lemma power_zero X : X ⊆ dom m → pp_is_zero (psum P X) = bool_decide (X = ∅).
Proof.
  intros HX. case_bool_decide as He; [by rewrite He, psum_empty|]. destruct (pp_is_zero _) eqn:E; [|done]. destruct He. unfold pp_is_zero in E.
  apply andb_true_iff in E as [E%Z.eqb_eq _]. by apply zero_power_empty.
Qed.

Lemma skipped_faults c C i p :
  part_ok c C i p → pp_is_zero (recovering_power p) && bool_decide (pt_faulty_power p = live_power p) = true → pt_faults p = live_sectors p.
Proof.
  intros H Hb. apply andb_true_iff in Hb as [_ He%bool_decide_eq_true]. pose proof (part_memos _ _ _ _ _ _ _ H) as [Hl Hun Hf Hr]. pose proof (part_sets _ _ _ _ _ _ _ H) as [Ht HU HF Hd HR].
  pose proof (live_known _ _ _ _ H) as Hk. assert (Hn : live_sectors p ∖ pt_faults p = ∅).
  { apply zero_power_empty; [set_solver|]. rewrite psum_difference, <- Hl, <- Hf, He by done. cbn. lia. }
  apply set_eq. intros n. split; [apply HF|]. intros Hnl. destruct (decide (n ∈ pt_faults p)); [done|]. set_solver.
Qed.

(** A proven partition may be marked. *)
Lemma mark_posted c C d ps G fp i p :
  book_ok c C (with_parts d ps G fp) → ps !! i = Some p → quiet p → book_ok c C (with_parts d ps ({[i]} ∪ G) fp).
Proof.
  intros [H1 H2 H3 H4 H5 H6] Hi Hq. split; try done. cbn in *. intros j [->%elem_of_singleton|Hj]%elem_of_union; [by exists p|by apply H6].
Qed.

Section deadline_end.
Context (d : Deadline) (r : Z) (Hr : 0 ≤ r ≤ 2 ^ 62).
Notation cov W := (named (mark (dl_expirations d) (qup r) W)).

(** What the end of a deadline does to a partition. *)
Record ended (i : Z) p p' : Prop := {
  en_frame : framed p p';
  en_due : ∀ until, until < qup r → due_sectors p' until = due_sectors p until;
  en_posted : i ∈ partitions_posted d → p' = p;
  en_faulty : pt_faults p = live_sectors p → pt_faults p' = live_sectors p' }.
Lemma ended_refl i p : ended i p p.
Proof. by split. Qed.
Lemma ended_trans i p1 p2 p3 : ended i p1 p2 → ended i p2 p3 → ended i p1 p3.
Proof.
  intros [H1 H2 H3 H4] [K1 K2 K3 K4]. split; [by etrans| | |auto].
  - intros u Hlt. rewrite K2, H2 by done. done.
  - intros Hi. rewrite K3, H3 by done. done.
Qed.
Definition all_ended (l : list Z) ps ps' : Prop :=
  ∀ i p, ps !! i = Some p → ∃ p', ps' !! i = Some p' ∧ ended i p p' ∧ (i ∈ l → i ∉ partitions_posted d → pt_faults p' = live_sectors p').

Lemma end_loop l ps W fp δ pen G :
  book_ok (qup r) (cov W) (with_parts d ps G fp) → names_ok ps W → partitions_posted d ⊆ G → (∀ i, i ∈ l → is_Some (ps !! i)) →
  ∃ ps' W' fp' δ' pen', try_fold (deadline_end_one quant (partitions_posted d) r) (ps, (W, fp, δ, pen)) l = Ok (ps', (W', fp', δ', pen')) ∧
    book_ok (qup r) (cov W') (with_parts d ps' (bits_of l ∪ G) fp') ∧ names_ok ps' W' ∧ dom ps' = dom ps ∧
    (δ' + ptally pt_active_power ps = δ + ptally pt_active_power ps')%pw ∧
    (pen' + fp + ptally recovering_power ps' = pen + fp' + ptally recovering_power ps)%pw ∧ all_ended l ps ps'.
Proof.
  revert ps W fp δ pen G. induction l as [|i l IH]; intros ps W fp δ pen G H HW HG Hl.
  { exists ps, W, fp, δ, pen. split_and!; try done; [unfold bits_of; cbn; by rewrite (left_id_L ∅ (∪))|]. intros i p Hi. exists p. split_and!; [done|apply ended_refl|]. intros Hx. by apply not_elem_of_nil in Hx. }
  assert (Hset : bits_of (i :: l) ∪ G = bits_of l ∪ ({[i]} ∪ G)) by (unfold bits_of; cbn; set_solver). rewrite Hset. clear Hset.
  destruct (Hl i) as [p Hi]; [by left|]. pose proof (bk_parts _ _ _ _ _ _ H) as Hps. cbn in Hps. pose proof (pa_part _ _ _ _ _ _ Hps i p Hi) as Hp.
  cbn [try_fold]. unfold deadline_end_one at 1.
  assert (Hskip : quiet p → (i ∉ partitions_posted d → pt_faults p = live_sectors p) → ∃ ps' W' fp' δ' pen', try_fold (deadline_end_one quant (partitions_posted d) r) (ps, (W, fp, δ, pen)) l = Ok (ps', (W', fp', δ', pen')) ∧
    book_ok (qup r) (cov W') (with_parts d ps' (bits_of l ∪ ({[i]} ∪ G)) fp') ∧ names_ok ps' W' ∧ dom ps' = dom ps ∧
    (δ' + ptally pt_active_power ps = δ + ptally pt_active_power ps')%pw ∧
    (pen' + fp + ptally recovering_power ps' = pen + fp' + ptally recovering_power ps)%pw ∧ all_ended (i :: l) ps ps').
  { intros Hq Hfl. destruct (IH ps W fp δ pen ({[i]} ∪ G)) as (ps' & W' & fp' & δ' & pen' & Hf & Hb & HW' & Hd & Hδ & Hpen & Hend); [by eapply mark_posted|done|set_solver|intros j Hj; apply Hl; by right|].
    exists ps', W', fp', δ', pen'. split_and!; try done. intros j pj Hj. destruct (Hend j pj Hj) as (pj' & Hj' & He & Hin). exists pj'. split_and!; [done|done|].
    intros [->|Hjl]%elem_of_cons Hjp; [|auto]. rewrite Hi in Hj. injection Hj as <-. apply (en_faulty _ _ _ He). auto. }
  case_bool_decide as Hpo.
  { apply Hskip; [|done]. destruct (bk_posted _ _ _ _ _ _ H i) as (p0 & Hp0 & Hq); [by apply HG|]. cbn in Hp0. rewrite Hi in Hp0. by injection Hp0 as <-. }
  rewrite (get_part _ _ _ _ _ _ _ _ Hps Hi), or_default_ok. cbn [mbind result_bind ok_or].
  destruct (pp_is_zero (recovering_power p) && _) eqn:Hz; [apply Hskip; [by eapply skipped_quiet|intros _; by eapply skipped_faults]|]. clear Hskip.
  set (N := live_sectors p ∖ pt_faults p). set (W1 := if bool_decide (N = ∅) then W else W ++ [i]).
  assert (HC : ∀ e j, cov W e j → cov W1 e j) by (intros e j; unfold W1; destruct (bool_decide (N = ∅)); [done|apply mark_more]).
  destruct (part_missed size m Hsize Hm quant Hu ho Horder (qup r) (cov W) (cov W1) i p r) as (p' & δp & Hrun & Hp' & Hfr & Hact & HF & HU & HR & Hdue); try done.
  { auto. }
  { intros HN. unfold W1. rewrite bool_decide_false by done. apply mark_new. }
  fold N in Hrun. rewrite Hrun, or_default_ok. cbn [mbind result_bind]. rewrite (set_part _ _ _ _ _ _ _ _ p' Hps Hi), or_default_ok. cbn [mbind result_bind mret result_ret].
  rewrite power_zero by (pose proof (live_known _ _ _ _ Hp); unfold N; set_solver). fold W1.
  pose proof (part_sets _ _ _ _ _ _ _ Hp) as Hs.
  assert (Hfp : (fp - pt_faulty_power p + pt_faulty_power p' = fp + psum P N)%pw).
  { rewrite (faulty_memo _ _ _ _ Hp'), (faulty_memo _ _ _ _ Hp), HF. unfold N. rewrite psum_difference by apply Hs. clear; pp_lia. }
  destruct (IH (<[i := p']> ps) W1 (fp + psum P N)%pw (δ + δp)%pw (pen + (psum P (pt_recoveries p) + psum P N))%pw ({[i]} ∪ G)) as (ps' & W' & fp' & δ' & pen' & Hf & Hb & HW' & Hd & Hδ & Hpen & Hend).
  - rewrite <- Hfp. eapply framed_step; [exact H|lia|done|done|done|auto| |by intros _]. intros j Hj [?%elem_of_singleton|?]%elem_of_union; done.
  - by apply names_step.
  - set_solver.
  - intros j Hj. destruct (decide (i = j)) as [->|Hne]; [rewrite lookup_insert_eq; by eexists|]. rewrite lookup_insert_ne by done. apply Hl. by right.
  - exists ps', W', fp', δ', pen'. split_and!; [exact Hf|done|done|rewrite Hd, dom_insert_lookup_L; [done|by eexists]| | |].
    + rewrite (active_step _ _ _ _ δp Hi Hact) in Hδ. clear -Hδ. pp_lia.
    + rewrite (ptally_update _ _ i p p' Hi), (mo_recovering _ _ _ (part_memos _ _ _ _ _ _ _ Hp')), HR, psum_empty, (mo_recovering _ _ _ (part_memos _ _ _ _ _ _ _ Hp)) in Hpen. clear -Hpen. pp_lia.
    + assert (Hown : ended i p p') by (split; [done|done|done|intros _; by rewrite HF, (framed_live _ _ Hfr)]).
      intros j pj Hj. destruct (decide (i = j)) as [<-|Hne].
      * rewrite Hi in Hj. injection Hj as <-. destruct (Hend i p') as (p2 & Hp2 & He2 & _); [by rewrite lookup_insert_eq|]. exists p2. split_and!; [done|by eapply ended_trans|].
        intros _ _. apply (en_faulty _ _ _ He2). by rewrite HF, (framed_live _ _ Hfr).
      * destruct (Hend j pj) as (p2 & Hp2 & He2 & Hin); [by rewrite lookup_insert_ne|]. exists p2. split_and!; [done|done|]. intros [->|?]%elem_of_cons; [done|auto].
Qed.
End deadline_end.

Definition dl_recovering d : PowerPair := ptally recovering_power (dl_partitions d).

Lemma dl_end_ok c d r :
  deadline_ok c d → 0 ≤ r ≤ 2 ^ 62 → c ≤ qup r →
  ∃ d' δ pen, process_deadline_end quant d r = Ok (d', (δ, pen)) ∧ deadline_ok (qup r) d' ∧ dl_active d' = (dl_active d + δ)%pw ∧
    pen = (dl_recovering d + (dl_faulty_power d' - dl_faulty_power d))%pw ∧
    partitions_posted d' = ∅ ∧ (∀ i p, dl_partitions d' !! i = Some p → quiet p) ∧ dom (dl_partitions d') = dom (dl_partitions d) ∧
    ∀ i p, dl_partitions d !! i = Some p → ∃ p', dl_partitions d' !! i = Some p' ∧ ended d r i p p' ∧ (i ∉ partitions_posted d → pt_faults p' = live_sectors p').
Proof.
  intros [Hb He Hn] Hr Hc. pose proof (quant_epoch r Hr) as Hep. pose proof (pa_keys _ _ _ _ _ _ (bk_parts _ _ _ _ _ _ Hb)) as Hkeys.
  destruct (end_loop d r Hr (seqZ 0 (amt_count (dl_partitions d))) (dl_partitions d) [] (dl_faulty_power d) pp_zero pp_zero (partitions_posted d)) as (ps' & W & fp & δ & pen & Hrun & Hb' & HW & Hd & Hδ & Hpen & Hend);
    [|by intros i ?%not_elem_of_nil|done| |].
  { rewrite with_parts_id. eapply book_mono; [exact Hc|done|exact Hb]. }
  { intros i Hi%elem_of_seqZ. apply Hkeys. lia. }
  unfold process_deadline_end. rewrite Hrun. cbn [mbind result_bind]. rewrite add_partitions_ok by done. cbn [or_default mbind result_bind mret result_ret].
  assert (Hall : ∀ i p, ps' !! i = Some p → quiet p).
  { intros i p Hi. destruct (bk_posted _ _ _ _ _ _ Hb' i) as (p0 & Hp0 & Hq); [|cbn in Hp0; rewrite Hi in Hp0; by injection Hp0 as <-].
    cbn. apply elem_of_union. left. apply elem_of_list_to_set, elem_of_seqZ. enough (0 ≤ i < amt_count (dl_partitions d)) by lia. apply Hkeys, elem_of_dom. rewrite <- Hd. by eapply elem_of_dom_2. }
  eexists _, _, _. split; [reflexivity|]. split_and!; [|unfold dl_active; cbn; clear -Hδ; pp_lia| |done|exact Hall|done|].
  - split; [|by apply mark_epochs|by apply names_mark]. destruct Hb' as [H1 H2 H3 H4 H5 H6]. by split.
  - unfold dl_recovering. cbn. assert (Hz : ptally recovering_power ps' = pp_zero); [|rewrite Hz in Hpen; clear -Hpen; pp_lia].
    assert (Hzero : ∀ i p, ps' !! i = Some p → recovering_power p = pp_zero).
    { intros i p Hi. rewrite (mo_recovering _ _ _ (part_memos _ _ _ _ _ _ _ (pa_part _ _ _ _ _ _ (bk_parts _ _ _ _ _ _ Hb') i p Hi))). destruct (Hall i p Hi) as [_ ->]. apply psum_empty. }
    apply pp_ext; cbn; apply Z.le_antisymm; (etrans; [apply (tally_le _ (λ _, 0))|]) || (etrans; [|apply (tally_le (λ _, 0))]); try (intros i p Hi; rewrite (Hzero i p Hi); cbn; lia); rewrite tally_const; lia.
  - intros i p Hi. destruct (Hend i p Hi) as (p' & Hi' & He' & Hin). exists p'. split_and!; [done|done|]. intros Hpo. apply Hin; [|done]. apply elem_of_seqZ.
    enough (0 ≤ i < amt_count (dl_partitions d)) by lia. apply Hkeys. by eexists.
Qed.
End ops.
