(* ===== verification/DeadlineExpiry.v ===== *)
(** * Expiry and termination in a deadline

    Exactly the sectors that are due expire, and the sectors that terminate early
    are handed out once. *)

From S2P Require Import Prelude Address Runtime Types Vesting MinerFunds Sectors Expirations Schedule ScheduleOps ScheduleRemove Partition PartitionSpec PartitionOps EarlyTerminations PartitionHistory SectorMaps DeadlineState DeadlineParts DeadlineSpec DeadlineOps.

Implicit Types (p : Partition) (ps : gmap Z Partition) (C : Z → Z → Prop) (q : BitFieldQueue) (d : Deadline).

(** The sectors that are due in a deadline. *)
Definition dl_due d (until : Z) : gset Z := ⋃ ((λ p, due_sectors p until) <$> (map_to_list (dl_partitions d)).*2).

Lemma elem_of_dl_due d until n : n ∈ dl_due d until ↔ ∃ i p, dl_partitions d !! i = Some p ∧ n ∈ due_sectors p until.
Proof.
  unfold dl_due. rewrite elem_of_union_list. setoid_rewrite list_elem_of_fmap. setoid_rewrite list_elem_of_fmap. split.
  - intros (Y & (p & -> & [i p'] & -> & Hin%elem_of_map_to_list) & Hn). eauto.
  - intros (i & p & Hi & Hn). eexists. split; [|exact Hn]. exists p. split; [done|]. exists (i, p). split; [done|]. by apply elem_of_map_to_list.
Qed.

Lemma bits_len_union (X Y : gset Z) : X ## Y → bits_len (X ∪ Y) = bits_len X + bits_len Y.
Proof. intros H. unfold bits_len. rewrite size_union by done. lia. Qed.

Section expiry.
Context (size : Z) (m : Sectors) (Hsize : 0 < size) (Hm : table_wf m) (quant : QuantSpec) (Hu : 0 < q_unit quant ≤ 2 ^ 60).
Context (ho : gset Z → list Z) (Horder : ∀ X, ho X ≡ₚ elements X).
Notation P := (info_power size m).
Notation book_ok := (book_ok size m quant).
Notation part_ok := (part_ok size m quant).
Notation deadline_ok := (deadline_ok size m quant).

(** ** Expiry *)

Section pop.
Context (c : Z) (d : Deadline) (until : Z) (Hun : 0 ≤ until < i64_max) (q' : BitFieldQueue).
Context (Hd0 : deadline_ok c d) (Hq' : ∀ e i, named q' e i ↔ named (dl_expirations d) e i ∧ until < e).
Context (Hquiet : ∀ i p, dl_partitions d !! i = Some p → quiet p).

(** The queue, once the partitions [V] are done. *)
Definition popped_names (V : gset Z) (e i : Z) : Prop := if decide (i ∈ V) then named q' e i else named (dl_expirations d) e i.
(** The deadline, once the sectors [all] are gone. *)
Definition popped_deadline ps (early : list Z) (all : ExpirationSet) : Deadline :=
  set_deadline d ps q' (early_terminations d ∪ bits_of early) (dl_live_sectors d - es_len all) (dl_total_sectors d) (dl_faulty_power d - faulty_power all)%pw.

Record popping (V : gset Z) ps (early : list Z) (all : ExpirationSet) : Prop := {
  pg_book : book_ok c (popped_names V) (popped_deadline ps early all);
  pg_parts : ∀ i p0, dl_partitions d !! i = Some p0 → ∃ p, ps !! i = Some p ∧ pt_sectors p = pt_sectors p0 ∧
    if decide (i ∈ V) then quiet p ∧ live_sectors p = live_sectors p0 ∖ due_sectors p0 until ∧ due_sectors p until = ∅ ∧ pt_faults p = pt_faults p0 ∖ due_sectors p0 until else p = p0;
  pg_dom : dom ps = dom (dl_partitions d);
  pg_due : ∀ n, n ∈ on_time_sectors all ∪ early_sectors all ↔ ∃ i p0, i ∈ V ∧ dl_partitions d !! i = Some p0 ∧ n ∈ due_sectors p0 until;
  pg_disj : on_time_sectors all ## early_sectors all;
  pg_active : (ptally pt_active_power ps = dl_active d - active_power all)%pw;
  pg_pledge : on_time_pledge all = ssum (info_pledge m) (on_time_sectors all) }.

Lemma due_in i p0 n : dl_partitions d !! i = Some p0 → n ∈ due_sectors p0 until → n ∈ live_sectors p0 ∧ n ∈ pt_sectors p0.
Proof using Hd0 Hsize Hm.
  intros Hi Hn. pose proof (due_live size m Hsize Hm quant _ _ _ _ until (pa_part _ _ _ _ _ _ (bk_parts _ _ _ _ _ _ (dk_book _ _ _ _ _ Hd0)) i p0 Hi) n Hn) as Hl.
  split; [exact Hl|]. unfold live_sectors in Hl. clear -Hl. set_solver.
Qed.

(** What expires in a partition is not among the sectors of the others. *)
Lemma pop_new V ps early all i p :
  popping V ps early all → i ∉ V → dl_partitions d !! i = Some p → on_time_sectors all ∪ early_sectors all ## due_sectors p until.
Proof.
  intros H HiV Hi n (j & pj & HjV & Hj & Hn)%(pg_due _ _ _ _ H) Hn'. assert (i ≠ j) by (by intros ->).
  destruct (due_in i p n Hi Hn') as [_ H1]. destruct (due_in j pj n Hj Hn) as [_ H2].
  by apply (pa_disjoint _ _ _ _ _ _ (bk_parts _ _ _ _ _ _ (dk_book _ _ _ _ _ Hd0)) i j p pj ltac:(done) Hi Hj n).
Qed.

Lemma merge_len (a b : ExpirationSet) :
  on_time_sectors a ∪ early_sectors a ## on_time_sectors b ∪ early_sectors b → es_len (es_merge a b) = es_len a + es_len b.
Proof. intros Hd. unfold es_len, es_merge. cbn. rewrite !bits_len_union by set_solver. lia. Qed.

Lemma pop_one V ps early all i p :
  popping V ps early all → i ∉ V → dl_partitions d !! i = Some p →
  ∃ ps' early' all', pop_expired_one until (ps, (early, all)) i = Ok (ps', (early', all')) ∧ popping ({[i]} ∪ V) ps' early' all'.
Proof.
  intros H HiV Hi0. pose proof (pop_new V ps early all i p H HiV Hi0) as Hnew. destruct H as [Hb Hparts Hdom Hdue Hdisj Hact Hpl].
  destruct (Hparts i p Hi0) as (p0 & Hi & _ & Hp0). rewrite decide_False in Hp0 by done. subst p0.
  pose proof (bk_parts _ _ _ _ _ _ Hb) as Hps. cbn in Hps. pose proof (pa_part _ _ _ _ _ _ Hps i p Hi) as Hp. destruct (Hquiet i p Hi0) as [HU HR].
  destruct (part_expire size m Hsize Hm quant Hu ho Horder c (popped_names V) (popped_names ({[i]} ∪ V)) i p until Hp HU HR Hun)
    as (p' & popped & Hrun & Hp' & HS & Ha & HL & Hot & Hdj & Hef & Hplp & _ & _ & Hfp & HF & HU' & HR' & HE & Hd').
  { intros e He. unfold popped_names. rewrite (decide_False (P := i ∈ V)), (decide_True (P := i ∈ _)) by set_solver. intros Hn. by apply Hq'. }
  unfold pop_expired_one. rewrite (get_part _ _ _ _ _ _ _ _ Hps Hi). cbn [mbind result_bind ok_or]. rewrite Hrun. cbn [mbind result_bind].
  rewrite (set_part _ _ _ _ _ _ _ _ p' Hps Hi). cbn [mbind result_bind mret result_ret]. eexists _, _, _. split; [reflexivity|].
  assert (Hlen : es_len (es_merge all popped) = es_len all + bits_len (due_sectors p until)).
  { rewrite merge_len by (by rewrite Hot). f_equal. rewrite <- Hot, bits_len_union by done. done. }
  split.
  - eapply (book_step size m quant c c (popped_names V) (popped_names ({[i]} ∪ V)) (popped_deadline ps early all) _ i p p'); try done.
    + intros e j Hj. unfold popped_names. by destruct (decide (j ∈ V)); [rewrite decide_True by set_solver|rewrite decide_False by set_solver].
    + by apply (same_sectors_disj size m quant c _ _ i p p' Hb).
    + cbn. rewrite Hlen. unfold live_count. rewrite HL, bits_len_difference by (intros n Hn; by eapply due_in). lia.
    + cbn. unfold total_count. rewrite HS. lia.
    + cbn. rewrite Hfp. clear; pp_lia.
    + intros j Hj. cbn. case_bool_decide; [done|]. unfold bits_of. rewrite list_to_set_app_L. cbn. set_solver.
    + pose proof (bk_early _ _ _ _ _ _ Hb i) as Hbe. cbn in Hbe. rewrite Hi in Hbe. cbn. case_bool_decide as Hes.
      * rewrite Hbe, HE. split; [naive_solver|]. intros Hx. exists p. split; [done|]. intros Hy. by apply Hx.
      * split; [intros _; rewrite HE; tauto|]. intros _. unfold bits_of. rewrite list_to_set_app_L. cbn. set_solver.
  - intros j p0 Hj. destruct (decide (i = j)) as [<-|Hne].
    + rewrite Hi0 in Hj. injection Hj as <-. exists p'. by rewrite lookup_insert_eq, decide_True by set_solver.
    + rewrite lookup_insert_ne by done. destruct (Hparts j p0 Hj) as (pj & Hj' & HSj & Hrel). exists pj. split_and!; [done|done|].
      by destruct (decide (j ∈ V)); [rewrite decide_True by set_solver|rewrite decide_False by set_solver].
  - rewrite dom_insert_lookup_L; [done|by eexists].
  - intros n. cbn [on_time_sectors early_sectors es_merge]. transitivity (n ∈ on_time_sectors all ∪ early_sectors all ∨ n ∈ due_sectors p until); [rewrite <- Hot; set_solver|].
    rewrite Hdue. split.
    + intros [(j & pj & Hj & ? & ?)|Hn]; [exists j, pj; set_solver|exists i, p; set_solver].
    + intros (j & pj & [->%elem_of_singleton|Hj]%elem_of_union & Hpj & Hn); [right; rewrite Hi0 in Hpj; by injection Hpj as <-|left; eauto].
  - cbn. rewrite <- Hot in Hnew. set_solver.
  - cbn. rewrite (active_step ps i p p' (pp_neg (active_power popped)) Hi) by (rewrite Ha; pp_solve). rewrite Hact. clear; pp_lia.
  - cbn. rewrite <- Hot in Hnew. rewrite Hpl, Hplp, ssum_union by set_solver. done.
Qed.

Lemma pop_loop_ok l V ps early all :
  popping V ps early all → NoDup l → (∀ i, i ∈ l → i ∉ V ∧ is_Some (dl_partitions d !! i)) →
  ∃ ps' early' all', try_fold (pop_expired_one until) (ps, (early, all)) l = Ok (ps', (early', all')) ∧ popping (bits_of l ∪ V) ps' early' all'.
Proof.
  intros H Hnd. revert V ps early all H. induction Hnd as [|i l Hi Hnd IH]; intros V ps early all H Hl.
  { exists ps, early, all. unfold bits_of. cbn. rewrite (left_id_L ∅ (∪)). done. }
  destruct (Hl i) as [HiV [p Hp]]; [by left|]. destruct (pop_one V ps early all i p H HiV Hp) as (ps1 & early1 & all1 & Hrun & H1).
  cbn [try_fold]. rewrite Hrun. destruct (IH _ _ _ _ H1) as (ps' & early' & all' & -> & H').
  { intros j Hj. destruct (Hl j) as [HjV Hs]; [by right|]. split; [|done]. rewrite elem_of_union, elem_of_singleton. intros [->|?]; done. }
  exists ps', early', all'. split; [done|]. replace (bits_of (i :: l) ∪ V) with (bits_of l ∪ ({[i]} ∪ V)); [done|]. unfold bits_of. cbn. set_solver.
Qed.

Lemma popping_start : popping ∅ (dl_partitions d) [] es_empty.
Proof.
  destruct Hd0 as [Hb _ _]. split; cbn; try done.
  - destruct Hb as [H1 H2 H3 H4 H5 H6]. split; cbn; try done.
    + by rewrite H2, Z.sub_0_r.
    + rewrite H4. clear; pp_lia.
    + intros i. unfold bits_of. cbn. rewrite (right_id_L ∅ (∪)). apply H5.
  - intros i p0 Hi. exists p0. by rewrite decide_False by set_solver.
  - set_solver.
  - unfold dl_active. clear; pp_lia.
Qed.
End pop.

(** The sectors that are due expire, and nothing else does. *)
Record expiry_spec c d d' until (es : ExpirationSet) : Prop := {
  ex_ok : deadline_ok c d';
  ex_due : on_time_sectors es ∪ early_sectors es = dl_due d until;
  ex_disj : on_time_sectors es ## early_sectors es;
  ex_none : dl_due d' until = ∅;
  ex_live : ∀ i p, dl_partitions d !! i = Some p → ∃ p', dl_partitions d' !! i = Some p' ∧ pt_sectors p' = pt_sectors p ∧
    live_sectors p' = live_sectors p ∖ dl_due d until ∧ pt_faults p' = pt_faults p ∖ dl_due d until;
  ex_active : dl_active d' = (dl_active d - active_power es)%pw;
  ex_pledge : on_time_pledge es = ssum (info_pledge m) (on_time_sectors es);
  ex_posted : partitions_posted d' = partitions_posted d }.

Lemma due_own c d i p until : deadline_ok c d → dl_partitions d !! i = Some p → live_sectors p ∖ dl_due d until = live_sectors p ∖ due_sectors p until.
Proof.
  intros H Hi. apply set_eq. intros n. rewrite !elem_of_difference. split; intros [Hl Hn]; (split; [done|]); intros Hx; apply Hn; [apply elem_of_dl_due; eauto|].
  apply elem_of_dl_due in Hx as (j & pj & Hj & Hnj). destruct (decide (i = j)) as [<-|Hne]; [rewrite Hi in Hj; by injection Hj as <-|]. exfalso.
  destruct (due_in c d until H j pj n Hj Hnj) as [_ H2]. apply (pa_disjoint _ _ _ _ _ _ (bk_parts _ _ _ _ _ _ (dk_book _ _ _ _ _ H)) i j p pj Hne Hi Hj n); [|done].
  unfold live_sectors in Hl. set_solver.
Qed.

Lemma due_own_faults c d i p until : deadline_ok c d → dl_partitions d !! i = Some p → pt_faults p ∖ dl_due d until = pt_faults p ∖ due_sectors p until.
Proof.
  intros H Hi. pose proof (due_own c d i p until H Hi) as Ho. pose proof (so_faults _ (part_sets _ _ _ _ _ _ _ (pa_part _ _ _ _ _ _ (bk_parts _ _ _ _ _ _ (dk_book _ _ _ _ _ H)) i p Hi))) as HF.
  apply set_eq. intros n. assert (Hn : n ∈ live_sectors p ∖ dl_due d until ↔ n ∈ live_sectors p ∖ due_sectors p until) by (by rewrite Ho). specialize (HF n).
  rewrite !elem_of_difference in *. tauto.
Qed.

Lemma dl_expire_ok c d until :
  deadline_ok c d → (∀ i p, dl_partitions d !! i = Some p → quiet p) → 0 ≤ until < i64_max →
  ∃ d' es, dl_pop_expired_sectors d until = Ok (d', es) ∧ expiry_spec c d d' until es.
Proof.
  intros H Hq Hun. pose proof H as [Hb He Hn]. destruct (bfq_pop_ok (dl_expirations d) until He) as (q' & X & mod_ & Hpop & Hep' & Hmod & Hq' & HX).
  unfold dl_pop_expired_sectors, pop_expired_partitions. rewrite Hpop. cbn [mbind result_bind]. destruct mod_; cbn [negb].
  - destruct (pop_loop_ok c d until Hun q' H Hq' Hq (bits X) ∅ (dl_partitions d) [] es_empty) as (ps' & early & all & -> & [Hb' Hparts Hdom Hdue Hdisj Hact Hpl]); [by apply popping_start|apply NoDup_bits| |].
    { intros i Hi%elem_of_bits. split; [set_solver|]. apply HX in Hi as (e & _ & Hi). by eapply Hn. }
    assert (HXb : ∀ i, i ∈ bits_of (bits X) ∪ ∅ ↔ i ∈ X) by (intros i; unfold bits_of; rewrite elem_of_union, elem_of_list_to_set, elem_of_bits; set_solver).
    cbn [mbind result_bind mret result_ret]. eexists _, _. split; [reflexivity|].
    assert (Hout : ∀ i p, dl_partitions d !! i = Some p → i ∉ X → due_sectors p until = ∅).
    { intros i p Hi HiX. eapply (due_covered size m Hsize Hm quant Hu ho Horder); [by apply (pa_part _ _ _ _ _ _ (bk_parts _ _ _ _ _ _ Hb))|]. intros e Hle Hne. apply HiX, HX. eauto. }
    assert (Hall : on_time_sectors all ∪ early_sectors all = dl_due d until).
    { apply set_eq. intros n. rewrite Hdue, elem_of_dl_due. split; [naive_solver|]. intros (i & p & Hi & Hnd). exists i, p. split_and!; [|done|done]. apply HXb.
      destruct (decide (i ∈ X)); [done|]. rewrite (Hout i p) in Hnd by done. set_solver. }
    assert (Hcnt : wrap_u64 (dl_live_sectors d - (bits_len (on_time_sectors all) + bits_len (early_sectors all))) = dl_live_sectors d - es_len all).
    { apply wrap_small. pose proof (counts_ok _ _ _ _ _ _ Hb') as Hc. cbn in Hc. unfold es_len in *. lia. }
    split; cbn; try done.
    + split; [|done|].
      * rewrite Hcnt. eapply book_mono; [reflexivity| |exact Hb']. intros e i. unfold popped_names. case_decide as Hi; [done|]. intros Hne. apply Hq'. split; [done|].
        destruct (decide (until < e)); [done|]. destruct Hi. apply HXb, HX. exists e. split; [lia|done].
      * cbn. intros e i [Hne _]%Hq'. apply elem_of_dom. rewrite Hdom. apply elem_of_dom. by eapply Hn.
    + apply set_eq. intros n. rewrite elem_of_dl_due. cbn. split; [|set_solver]. intros (i & p & Hi & Hnd).
      assert (Hi' : is_Some (dl_partitions d !! i)) by (apply elem_of_dom; rewrite <- Hdom; by eapply elem_of_dom_2). destruct Hi' as [p0 Hi0].
      destruct (Hparts i p0 Hi0) as (p1 & Hp1 & _ & Hrel). rewrite Hi in Hp1. injection Hp1 as <-. case_decide as HiX; [destruct Hrel as (_ & _ & Hz & _); rewrite Hz in Hnd; set_solver|].
      subst p. rewrite (Hout i p0) in Hnd; [set_solver|done|]. by rewrite <- HXb.
    + intros i p Hi. destruct (Hparts i p Hi) as (p' & Hi' & HS & Hrel). exists p'. rewrite (due_own_faults c d i p until H Hi), (due_own c d i p until H Hi).
      case_decide as HiX; [by destruct Hrel as (_ & ? & _ & ?)|]. subst p'. rewrite (Hout i p Hi) by (by rewrite <- HXb). split_and!; [done|done|set_solver|set_solver].
  - specialize (Hmod eq_refl). subst q'. assert (Hz : ∀ i p, dl_partitions d !! i = Some p → due_sectors p until = ∅).
    { intros i p Hi. eapply (due_covered size m Hsize Hm quant Hu ho Horder); [by apply (pa_part _ _ _ _ _ _ (bk_parts _ _ _ _ _ _ Hb))|]. intros e Hle Hne. apply Hq' in Hne as [_ ?]. lia. }
    assert (Hz' : dl_due d until = ∅). { apply set_eq. intros n. rewrite elem_of_dl_due. split; [|set_solver]. intros (i & p & Hi & Hnd). rewrite (Hz i p Hi) in Hnd. set_solver. }
    exists d, es_empty. split; [done|]. split; cbn; try done; [|clear; unfold dl_active; pp_lia].
    intros i p Hi. exists p. split_and!; [done|done|rewrite Hz'; set_solver|rewrite Hz'; set_solver].
Qed.
End expiry.
