(* ===== verification/DeadlineTerminate.v ===== *)
(** * Terminations in a deadline

    Terminated sectors leave their partitions, and the sectors that terminated
    early are handed out, none of them lost and none twice. *)

From S2P Require Import Prelude Address Runtime Types Vesting MinerFunds Sectors Expirations Schedule ScheduleOps ScheduleRemove Partition PartitionSpec PartitionOps EarlyTerminations PartitionHistory SectorMaps DeadlineState DeadlineParts DeadlineSpec DeadlineOps DeadlineExpiry.

Implicit Types (p : Partition) (ps : gmap Z Partition) (C : Z → Z → Prop) (q : BitFieldQueue) (d : Deadline).

(** Early terminations that are still to be handed out. *)
Definition pending p : Z := count_of (amt_entries (early_terminated p)).
Definition dl_pending d : Z := tally pending (dl_partitions d).

Lemma count_perm L L' : L ≡ₚ L' → count_of L = count_of L'.
Proof. intros H. unfold count_of. apply zsum_perm. by rewrite H. Qed.
Lemma count_nonneg L : 0 ≤ count_of L.
Proof. induction L as [|[k X] L IH]; [done|]. rewrite count_cons. unfold bits_len. lia. Qed.

Lemma es_empty_union es : es_is_empty es = bool_decide (on_time_sectors es ∪ early_sectors es = ∅).
Proof. unfold es_is_empty. apply eq_iff_eq_true. rewrite andb_true_iff, !bool_decide_eq_true. split; [intros [-> ->]; set_solver|set_solver]. Qed.

Section terminate.
Context (size : Z) (m : Sectors) (Hsize : 0 < size) (Hm : table_wf m) (quant : QuantSpec) (Hu : 0 < q_unit quant ≤ 2 ^ 60).
Context (ho : gset Z → list Z) (Horder : ∀ X, ho X ≡ₚ elements X).
Notation P := (info_power size m).
Notation book_ok := (book_ok size m quant).
Notation part_ok := (part_ok size m quant).
Notation deadline_ok := (deadline_ok size m quant).

(** ** Terminations *)

Lemma terminate_step c d lost epoch i p X :
  deadline_ok c d → 0 ≤ epoch < i64_max → dl_partitions d !! i = Some p → X ⊆ live_sectors p →
  ∃ d' p' lost', dl_terminate_one size quant ho m epoch (d, lost) (i, Some X) = Ok (d', lost') ∧ deadline_ok c d' ∧
    dl_partitions d' = <[i := p']> (dl_partitions d) ∧ live_sectors p' = live_sectors p ∖ X ∧ pt_sectors p' = pt_sectors p ∧
    (lost' + dl_active d' = lost + dl_active d)%pw ∧ partitions_posted d' = partitions_posted d.
Proof.
  intros [Hb He Hn] Hep Hi HX. pose proof (bk_parts _ _ _ _ _ _ Hb) as Hps. pose proof (pa_part _ _ _ _ _ _ Hps i p Hi) as Hp.
  destruct (part_terminate size m Hsize Hm quant Hu ho Horder _ _ i p epoch X Hp HX Hep) as (p' & rm & Hrun & Hp' & HS & Ha & HL & Hot & Hdj & _ & Hfp & HF & HU & HR & HE).
  unfold dl_terminate_one. rewrite (get_part _ _ _ _ _ _ _ _ Hps Hi). cbn [mbind result_bind ok_or]. rewrite Hrun. cbn [mbind result_bind].
  rewrite (set_part _ _ _ _ _ _ _ _ p' Hps Hi). cbn [mbind result_bind mret result_ret].
  assert (Hemp : es_is_empty rm = bool_decide (X = ∅)).
  { by rewrite es_empty_union, Hot. }
  assert (Hlen : es_len rm = bits_len X) by (unfold es_len; by rewrite <- Hot, bits_len_union).
  assert (Hlc : live_count p' = live_count p - bits_len X) by (unfold live_count; rewrite HL, bits_len_difference; done).
  assert (Hlive : (if es_is_empty rm then dl_live_sectors d else wrap_u64 (dl_live_sectors d - es_len rm)) = dl_live_sectors d - live_count p + live_count p').
  { rewrite Hemp, Hlen, Hlc. pose proof (counts_ok _ _ _ _ _ _ Hb). pose proof (live_bound _ _ _ _ _ _ i p Hb Hi). pose proof (live_le_total p'). assert (0 ≤ bits_len X) by (unfold bits_len; lia).
    case_bool_decide as Hx; [rewrite Hx; change (bits_len ∅) with 0; lia|]. rewrite wrap_small by lia. lia. }
  eexists _, p', _. split; [reflexivity|]. split_and!; try done.
  - split; [|done|cbn; intros e j Hj%Hn; rewrite <- elem_of_dom, dom_insert_lookup_L; [by apply elem_of_dom|by eexists]].
    eapply (book_step size m quant c c _ _ d _ i p p' Hb); try done.
    + by apply (same_sectors_disj size m quant c _ _ i p p' Hb).
    + cbn. unfold total_count. rewrite HS. lia.
    + cbn. rewrite Hfp. clear; pp_lia.
    + cbn. intros j Hj. destruct (es_is_empty rm); [done|]. set_solver.
    + cbn. rewrite Hemp, HE. pose proof (bk_early _ _ _ _ _ _ Hb i) as Hbe. rewrite Hi in Hbe. case_bool_decide as Hx.
      * rewrite decide_True by done. rewrite Hbe. naive_solver.
      * rewrite decide_False by done. split; [intros _; apply insert_non_empty|]. intros _. set_solver.
    + cbn. intros Hpo. destruct (bk_posted _ _ _ _ _ _ Hb i Hpo) as (p0 & Hp0 & HU0 & HR0). rewrite Hi in Hp0. injection Hp0 as <-. split; [rewrite HU, HU0; set_solver|rewrite HR, HR0; set_solver].
  - unfold dl_active. cbn. rewrite (active_step _ i p p' (pp_neg (active_power rm)) Hi) by (rewrite Ha; pp_solve). clear; pp_lia.
Qed.

Lemma terminate_loop c epoch l d lost :
  deadline_ok c d → 0 ≤ epoch < i64_max → entries_in (λ p X, X ⊆ live_sectors p) (dl_partitions d) l →
  ∃ d' lost', try_fold (dl_terminate_one size quant ho m epoch) (d, lost) l = Ok (d', lost') ∧ deadline_ok c d' ∧
    (lost' + dl_active d' = lost + dl_active d)%pw ∧ partitions_posted d' = partitions_posted d ∧
    ∀ i p, dl_partitions d !! i = Some p → ∃ p', dl_partitions d' !! i = Some p' ∧ pt_sectors p' = pt_sectors p ∧
      live_sectors p' = live_sectors p ∖ default ∅ ((list_to_map l : PartitionSectorMap) !! i ≫= λ o, o).
Proof.
  intros H Hep. revert d lost H. induction l as [|[i o] l IH]; intros d lost H Hl.
  { exists d, lost. split_and!; try done. intros i p Hi. exists p. split_and!; [done|done|]. cbn. rewrite lookup_empty. cbn. set_solver. }
  pose proof Hl as [[Hnot _]%NoDup_cons _]. destruct (entries_in_cons _ _ _ _ _ Hl) as (p & X & Hi & -> & HX & Hl').
  destruct (terminate_step c d lost epoch i p X H Hep Hi HX) as (d1 & p' & lost1 & Hrun & H1 & Hps & HL & HS & Ha & Hpo).
  cbn [try_fold]. rewrite Hrun. destruct (IH d1 lost1 H1) as (d' & lost' & -> & H' & Ha' & Hpo' & Hlv); [rewrite Hps; apply Hl'|].
  exists d', lost'. split_and!; [done|done|clear -Ha Ha'; pp_lia|congruence|]. intros j pj Hj. rewrite Hps in Hlv. cbn. destruct (decide (i = j)) as [<-|Hne].
  - rewrite Hi in Hj. injection Hj as <-. destruct (Hlv i p') as (p2 & Hp2 & HS2 & HL2); [by rewrite lookup_insert_eq|]. exists p2. rewrite lookup_insert_eq. split_and!; [done|congruence|].
    rewrite HL2, HL. rewrite (not_elem_of_list_to_map_1 l i Hnot). cbn. set_solver.
  - rewrite lookup_insert_ne by done. apply Hlv. by rewrite lookup_insert_ne.
Qed.

Lemma dl_terminate_ok c d epoch (pm : PartitionSectorMap) :
  deadline_ok c d → 0 ≤ epoch < i64_max → entries_in (λ p X, X ⊆ live_sectors p) (dl_partitions d) (map_iter pm) →
  ∃ d' lost, dl_terminate_sectors size quant ho d m epoch pm = Ok (d', lost) ∧ deadline_ok c d' ∧
    dl_active d' = (dl_active d - lost)%pw ∧ partitions_posted d' = partitions_posted d ∧
    ∀ i p, dl_partitions d !! i = Some p → ∃ p', dl_partitions d' !! i = Some p' ∧ pt_sectors p' = pt_sectors p ∧
      live_sectors p' = live_sectors p ∖ default ∅ (pm !! i ≫= λ o, o).
Proof.
  intros H Hep Hl. destruct (terminate_loop c epoch (map_iter pm) d pp_zero H Hep Hl) as (d' & lost & Hrun & H' & Ha & Hpo & Hlv).
  exists d', lost. split_and!; [done|done|clear -Ha; pp_lia|done|].
  assert (Hmap : list_to_map (map_iter pm) = pm) by (apply map_eq; intros i; apply option_eq; intros v; rewrite <- elem_of_list_to_map by apply map_iter_nodup; apply elem_of_map_iter).
  by rewrite Hmap in Hlv.
Qed.

(** ** Early terminations *)


Definition early_deadline d ps (finished : list Z) : Deadline :=
  set_deadline d ps (dl_expirations d) (early_terminations d ∖ bits_of finished) (dl_live_sectors d) (dl_total_sectors d) (dl_faulty_power d).

(** One partition is popped. *)
Lemma early_step c C d ps finished i p max :
  book_ok c C (early_deadline d ps finished) → ps !! i = Some p → i ∈ early_terminations d → i ∉ finished → 0 ≤ max →
  ∃ p' r more, pop_early_terminations p max = Ok (p', (r, more)) ∧ 0 ≤ sectors_processed r ≤ max ∧ partitions_processed r = 1 ∧
    book_ok c C (early_deadline d (<[i := p']> ps) (if more : bool then finished else finished ++ [i])) ∧
    sectors_processed r + pending p' = pending p ∧ (more = true → sectors_processed r = max) ∧
    pt_active_power p' = pt_active_power p.
Proof.
  intros H Hi Hiet Hif Hmax. pose proof (bk_parts _ _ _ _ _ _ H) as Hps. cbn in Hps. pose proof (pa_part _ _ _ _ _ _ Hps i p Hi) as Hp.
  destruct (part_pop_early size m Hsize Hm quant ho _ _ i p max Hp Hmax) as (p' & T & R & Hrun & Htk & HE & Hp' & HS & HT & Ha & HF & HU & HR & HFp).
  destruct (taken_count _ _ _ _ Htk) as (Hc1 & Hc2 & Hc3). eexists p', _, _. split; [exact Hrun|]. cbn [sectors_processed partitions_processed].
  assert (HndR : NoDup R.*1) by (eapply sublist_NoDup; [apply (entries_nodup (early_terminated p))|by eapply taken_keys]).
  assert (HRp : amt_entries (early_terminated p') ≡ₚ R).
  { rewrite HE. unfold amt_entries. rewrite sort_by_perm. by apply map_to_list_to_map. }
  assert (HRe : R = [] ↔ early_terminated p' = ∅).
  { rewrite HE. split; [by intros ->|]. intros Hx. destruct R as [|[k X] R]; [done|]. cbn in Hx. by apply insert_non_empty in Hx. }
  pose proof (count_nonneg T). split_and!; try lia; [|unfold pending at 1; rewrite (count_perm _ _ HRp); done|intros HR1%negb_true_iff%bool_decide_eq_false; auto|done].
  eapply (book_step size m quant c c C C _ _ i p p' H); try done; cbn.
  - by apply (same_sectors_disj size m quant c _ _ i p p' H).
  - unfold live_count, live_sectors. rewrite HS, HT. lia.
  - unfold total_count. rewrite HS. lia.
  - rewrite HFp. clear; pp_lia.
  - intros j Hj. case_bool_decide; cbn; [|done]. unfold bits_of. rewrite list_to_set_app_L. cbn. set_solver.
  - rewrite <- HRe. case_bool_decide as HR0; cbn.
    + split; [|done]. unfold bits_of. rewrite list_to_set_app_L. cbn. set_solver.
    + split; [done|]. intros _. unfold bits_of. rewrite elem_of_difference, elem_of_list_to_set. done.
  - intros Hpo. destruct (bk_posted _ _ _ _ _ _ H i Hpo) as (p0 & Hp0 & HU0 & HR0). cbn in Hp0. rewrite Hi in Hp0. injection Hp0 as <-. split; congruence.
Qed.

Lemma early_loop c C d max_partitions max_sectors l ps finished r :
  book_ok c C (early_deadline d ps finished) → NoDup l → (∀ i, i ∈ l → i ∈ early_terminations d ∧ i ∉ finished) →
  0 ≤ sectors_processed r ≤ max_sectors → max_sectors ≤ usize_max →
  ∃ ps' finished' r', pop_early_loop max_partitions max_sectors l (ps, (finished, r)) = Ok (ps', (finished', r')) ∧
    book_ok c C (early_deadline d ps' finished') ∧ dom ps' = dom ps ∧ sectors_processed r' + tally pending ps' = sectors_processed r + tally pending ps ∧
    0 ≤ sectors_processed r' ≤ max_sectors ∧ ptally pt_active_power ps' = ptally pt_active_power ps ∧
    (below_limit r' max_partitions max_sectors = false ∨ ∀ i, i ∈ l ∨ i ∈ finished → i ∈ finished').
Proof.
  intros H Hnd. revert ps finished r H. induction Hnd as [|i l Hil Hnd IH]; intros ps finished r H Hl Hs Hmax.
  { exists ps, finished, r. split_and!; try done; try lia. right. intros i [?%not_elem_of_nil|?]; done. }
  destruct (Hl i) as [Hiet Hif]; [by left|]. destruct (bk_early _ _ _ _ _ _ H i) as [Hbe _]. cbn in Hbe.
  destruct Hbe as (p & Hi & _). { unfold bits_of. by rewrite elem_of_difference, elem_of_list_to_set. }
  pose proof (bk_parts _ _ _ _ _ _ H) as Hps. cbn in Hps.
  destruct (early_step c C d ps finished i p (max_sectors - sectors_processed r) H Hi Hiet Hif) as (p' & rp & more & Hrun & Hrp & Hone & Hb & Hpend & Hmore & Ha); [lia|].
  cbn [pop_early_loop]. rewrite (get_part _ _ _ _ _ _ _ _ Hps Hi). cbn [mbind result_bind].
  assert (Hw : wrap_u64 (max_sectors - sectors_processed r) = max_sectors - sectors_processed r) by (unfold wrap_u64; apply Z.mod_small; unfold usize_max in *; lia).
  rewrite Hw, Hrun. cbn [mbind result_bind]. rewrite (set_part _ _ _ _ _ _ _ _ p' Hps Hi). cbn [mbind result_bind].
  set (fin1 := if more then finished else finished ++ [i]) in *. set (r1 := tr_add r rp).
  assert (Hr1 : sectors_processed r1 = sectors_processed r + sectors_processed rp) by done.
  assert (Hp1 : tally pending (<[i := p']> ps) = tally pending ps - sectors_processed rp) by (rewrite (tally_update _ _ i p p' Hi); lia).
  assert (Ha1 : ptally pt_active_power (<[i := p']> ps) = ptally pt_active_power ps) by (rewrite (ptally_update _ _ i p p' Hi), Ha; pp_solve).
  assert (Hd1 : dom (<[i := p']> ps) = dom ps) by (apply dom_insert_lookup_L; by eexists).
  destruct (below_limit r1 max_partitions max_sectors) eqn:Hbl.
  - assert (Hm1 : more = false).
    { destruct more; [|done]. specialize (Hmore eq_refl). unfold below_limit in Hbl. apply andb_true_iff in Hbl as [_ Hbl%Z.ltb_lt]. lia. }
    destruct (IH (<[i := p']> ps) fin1 r1 Hb) as (ps' & fin' & r' & -> & Hb' & Hd & Hcnt & Hr' & Ha' & Hfin).
    + intros j Hj. destruct (Hl j) as [? Hjf]; [by right|]. split; [done|]. unfold fin1. rewrite Hm1, elem_of_app, list_elem_of_singleton. intros [?| ->]; done.
    + lia.
    + done.
    + exists ps', fin', r'. split_and!; try done; try lia; try congruence. destruct Hfin as [?|Hfin]; [by left|]. right.
      intros j [[->|Hj]%elem_of_cons|Hj]; apply Hfin; [right|by left|right]; unfold fin1; rewrite Hm1, elem_of_app; [right; by apply list_elem_of_singleton|by left].
  - exists (<[i := p']> ps), fin1, r1. split_and!; try done; try lia. by left.
Qed.

(** At most [max_sectors] early terminations are handed out, and some are left
    only when a limit is reached. *)
Lemma dl_early_ok c d max_partitions max_sectors :
  deadline_ok c d → 0 ≤ max_sectors ≤ usize_max →
  ∃ d' r more, dl_pop_early_terminations d max_partitions max_sectors = Ok (d', (r, more)) ∧ deadline_ok c d' ∧
    sectors_processed r + dl_pending d' = dl_pending d ∧ sectors_processed r ≤ max_sectors ∧
    (if more : bool then below_limit r max_partitions max_sectors = false else early_terminations d' = ∅) ∧
    dl_active d' = dl_active d ∧ partitions_posted d' = partitions_posted d.
Proof.
  intros [Hb He Hn] Hmax. destruct (early_loop c (named (dl_expirations d)) d max_partitions max_sectors (bits (early_terminations d)) (dl_partitions d) [] tr_new)
    as (ps' & fin & r & Hrun & Hb' & Hd & Hcnt & Hr & Ha & Hfin); [|apply NoDup_bits|intros i Hi%elem_of_bits; split; [done|apply not_elem_of_nil]|cbn; lia|lia|].
  { destruct Hb as [H1 H2 H3 H4 H5 H6]. split; try done. cbn. intros i. rewrite <- H5. unfold bits_of. cbn. set_solver. }
  unfold dl_pop_early_terminations. rewrite Hrun. cbn [mbind result_bind mret result_ret]. eexists _, _, _. split; [reflexivity|]. split_and!; [|exact Hcnt|lia| |done|done].
  - split; [exact Hb'|done|cbn; intros e i Hi%Hn; by rewrite <- elem_of_dom, Hd, elem_of_dom].
  - case_bool_decide as Hemp; cbn [negb]; [done|]. destruct Hfin as [?|Hfin]; [done|]. destruct Hemp. apply set_eq. intros i. split; [|set_solver].
    intros [Hi Hif]%elem_of_difference. destruct Hif. unfold bits_of. apply elem_of_list_to_set, Hfin. left. by apply elem_of_bits.
Qed.
End terminate.
