(* ===== verification/DeadlineGrowth.v ===== *)
(** * New and rescheduled sectors in a deadline

    New sectors fill the last partition first and then new ones; the deadline's
    queue names their partitions at their expirations. *)

From S2P Require Import Prelude Address Runtime Types Vesting MinerFunds Sectors Expirations Schedule ScheduleOps ScheduleRemove Partition PartitionSpec PartitionOps EarlyTerminations PartitionHistory SectorMaps DeadlineState DeadlineParts DeadlineSpec DeadlineOps DeadlineExpiry.

Implicit Types (p : Partition) (ps : gmap Z Partition) (C : Z → Z → Prop) (q : BitFieldQueue) (d : Deadline) (u : list (Z * list Z)).

(** ** The updates of the queue *)

Definition updated u (k i : Z) : Prop := ∃ l, (k, l) ∈ u ∧ i ∈ l.

Lemma updated_record u k0 i0 k i : updated (record_update u k0 i0) k i ↔ updated u k i ∨ (k = k0 ∧ i = i0).
Proof.
  unfold record_update, updated. destruct (list_find _ u) as [[j [k1 l1]]|] eqn:E.
  - apply list_find_Some in E as (Hj & Hk & _). cbn in Hk. subst k1. cbn [snd]. case_bool_decide as Hl.
    + split; [tauto|]. intros [?|[-> ->]]; [done|]. exists l1. split; [by eapply list_elem_of_lookup_2|]. apply last_Some in Hl as [l2 ->]. apply elem_of_app. right. by left.
    + split.
      * intros (l & Hin & Hi). apply list_elem_of_lookup_1 in Hin as [n Hn]. destruct (decide (j = n)) as [<-|Hne].
        -- rewrite list_lookup_insert_eq in Hn by (by eapply lookup_lt_Some). injection Hn as <- <-. apply elem_of_app in Hi as [Hi|Hi]; [left|right; by apply list_elem_of_singleton in Hi].
           exists l1. split; [by eapply list_elem_of_lookup_2|done].
        -- rewrite list_lookup_insert_ne in Hn by done. left. exists l. split; [by eapply list_elem_of_lookup_2|done].
      * assert (Hnew : (k0, l1 ++ [i0]) ∈ <[j := (k0, l1 ++ [i0])]> u) by (eapply list_elem_of_lookup_2, list_lookup_insert_eq; by eapply lookup_lt_Some).
        intros [(l & Hin & Hi)|[-> ->]]; [|exists (l1 ++ [i0]); split; [done|apply elem_of_app; right; by left]].
        apply list_elem_of_lookup_1 in Hin as [n Hn]. destruct (decide (j = n)) as [<-|Hne].
        -- rewrite Hj in Hn. injection Hn as <- <-. exists (l1 ++ [i0]). split; [done|]. apply elem_of_app. by left.
        -- exists l. split; [|done]. eapply list_elem_of_lookup_2. by rewrite list_lookup_insert_ne.
  - split.
    + intros (l & [Hin|[= -> ->]%list_elem_of_singleton]%elem_of_app & Hi); [left; eauto|right]. by apply list_elem_of_singleton in Hi.
    + intros [(l & Hin & Hi)|[-> ->]]; [exists l; split; [apply elem_of_app; by left|done]|]. exists [i0]. split; [apply elem_of_app; right; by left|by left].
Qed.

Lemma updated_all (l : list SectorOnChainInfo) i0 u k i :
  updated (fold_left (λ u s, record_update u (expiration s) i0) l u) k i ↔ updated u k i ∨ (i = i0 ∧ ∃ s, s ∈ l ∧ expiration s = k).
Proof.
  revert u. induction l as [|s l IH]; intros u; cbn [fold_left]; [set_solver|]. rewrite IH, updated_record. setoid_rewrite elem_of_cons. naive_solver.
Qed.

Section growth.
Context (size : Z) (m : Sectors) (Hsize : 0 < size) (Hm : table_wf m) (quant : QuantSpec) (Hu : 0 < q_unit quant ≤ 2 ^ 60).
Context (ho : gset Z → list Z) (Horder : ∀ X, ho X ≡ₚ elements X).
Notation P := (info_power size m).
Notation book_ok := (book_ok size m quant).
Notation part_ok := (part_ok size m quant).
Notation parts_ok := (parts_ok size m quant).
Notation deadline_ok := (deadline_ok size m quant).
Notation qup := (quantize_up quant).

(** ** New sectors *)

Lemma target_info s : m !! sector_number s = Some s → target m quant (sector_number s) = qup (expiration s).
Proof. intros Hs. unfold target. by rewrite Hs. Qed.
Lemma expiration_epoch s : m !! sector_number s = Some s → 0 ≤ qup (expiration s) < i64_max.
Proof. intros Hs. apply (quant_epoch quant Hu). apply Hm in Hs as (_ & _ & _ & ? & _). lia. Qed.

(** An empty partition is appended. *)
Lemma book_new c C ps d :
  book_ok c C d → dl_partitions d = ps → amt_count ps < MAX_PARTITIONS →
  ps !! amt_count ps = None ∧
  book_ok c C (set_deadline d (<[amt_count ps := partition_new]> ps) (dl_expirations d) (early_terminations d) (dl_live_sectors d) (dl_total_sectors d) (dl_faulty_power d)).
Proof.
  intros [[Hk Hc Hp Hd] H2 H3 H4 H5 H6] <- Hlt. set (ps := dl_partitions d) in *. set (n := amt_count ps) in *.
  assert (Hn : ps !! n = None) by (apply eq_None_not_Some; rewrite Hk; lia). split; [done|].
  assert (Hcount : amt_count (<[n := partition_new]> ps) = n + 1) by (unfold amt_count; rewrite map_size_insert_None by done; unfold n, amt_count; lia).
  split; cbn.
  - split.
    + intros i. rewrite Hcount, lookup_insert. case_decide as Hi; [split; [unfold n, amt_count in *; lia|by eexists]|]. rewrite Hk. lia.
    + lia.
    + intros i p. rewrite lookup_insert. case_decide; [intros [= <-]; by apply (part_new_ok size m Hsize Hm quant Hu ho)|apply Hp].
    + intros i j p p' Hij. rewrite !lookup_insert. destruct (decide (n = i)), (decide (n = j)); [congruence|intros [= <-] _|intros _ [= <-]|by apply Hd]; cbn; set_solver.
  - rewrite tally_insert by done. cbn. rewrite H2. done.
  - rewrite tally_insert by done. cbn. rewrite H3. done.
  - rewrite ptally_insert by done. cbn. rewrite H4. clear; pp_lia.
  - intros i. rewrite H5. fold ps. rewrite lookup_insert. case_decide as Hi; [|done]. subst i. rewrite Hn. split; [by intros (? & ? & _)|]. intros (p & [= <-] & Hx). done.
  - intros i Hi. destruct (H6 i Hi) as (p & Hp' & Hq). exists p. split; [|done]. fold ps in Hp'. rewrite lookup_insert_ne; [done|]. intros <-. congruence.
Qed.

Section add.
Context (c : Z) (d : Deadline) (partition_size : Z) (proven : bool) (Hpsz : 0 < partition_size ≤ ENTRY_SECTORS_MAX).

(** The queue with the updates. *)
Definition cov u (e i : Z) : Prop := named (dl_expirations d) e i ∨ ∃ k, updated u k i ∧ qup k = e.
(** The deadline with [n] more sectors. *)
Definition grown ps (n : Z) : Deadline :=
  {| dl_partitions := ps; dl_expirations := dl_expirations d; partitions_posted := ∅; early_terminations := early_terminations d;
     dl_live_sectors := dl_live_sectors d + n; dl_total_sectors := dl_total_sectors d + n; dl_faulty_power := dl_faulty_power d;
     optimistic_post_submissions := optimistic_post_submissions d; partitions_snapshot := partitions_snapshot d;
     optimistic_post_submissions_snapshot := optimistic_post_submissions_snapshot d |}.

Record growing ps u (n : Z) (power : PowerPair) (rest : list SectorOnChainInfo) : Prop := {
  gr_book : book_ok c (cov u) (grown ps n);
  gr_names : ∀ k i, updated u k i → is_Some (ps !! i) ∧ 0 ≤ qup k < i64_max;
  gr_rest : infos m rest;
  gr_disj : ∀ i p, ps !! i = Some p → pt_sectors p ## numbers rest;
  gr_active : (ptally pt_active_power ps = dl_active d + if proven then power else pp_zero)%pw;
  gr_dom : dom (dl_partitions d) ⊆ dom ps }.

Lemma infos_take l k : infos m l → infos m (take k l) ∧ infos m (drop k l) ∧ numbers (take k l) ## numbers (drop k l) ∧ numbers l = numbers (take k l) ∪ numbers (drop k l).
Proof.
  intros [Hnd HF]. rewrite <- (take_drop k l) in Hnd at 1. rewrite fmap_app in Hnd. apply NoDup_app in Hnd as (Hn1 & Hdj & Hn2). split_and!.
  - split; [done|by apply Forall_take].
  - split; [done|by apply Forall_drop].
  - intros n. unfold numbers. rewrite !elem_of_list_to_set. apply Hdj.
  - unfold numbers. by rewrite <- list_to_set_app_L, <- fmap_app, take_drop.
Qed.
Lemma numbers_len l : infos m l → bits_len (numbers l) = Z.of_nat (length l).
Proof. intros [Hnd _]. unfold bits_len, numbers. by rewrite size_list_to_set, length_fmap. Qed.

(** Some sectors go to the partition [i]. *)
Lemma grow_step ps u n power rest i p k :
  growing ps u n power rest → ps !! i = Some p → bits_len (pt_sectors p) + Z.of_nat (length (take k rest)) ≤ partition_size →
  ∃ p', add_sectors size quant p proven (take k rest) = Ok (p', psum P (numbers (take k rest))) ∧
    growing (<[i := p']> ps) (fold_left (λ u s, record_update u (expiration s) i) (take k rest) u) (n + Z.of_nat (length (take k rest)))
      (power + psum P (numbers (take k rest)))%pw (drop k rest).
Proof.
  intros [Hb Hnm Hr Hdj Hact Hdom] Hi Hsz. destruct (infos_take rest k Hr) as (Ht & Hd & Htd & Hnum). set (l := take k rest) in *. set (u' := fold_left _ l u).
  pose proof (bk_parts _ _ _ _ _ _ Hb) as Hps. cbn in Hps. pose proof (pa_part _ _ _ _ _ _ Hps i p Hi) as Hp.
  assert (Hpl : numbers l ## pt_sectors p) by (pose proof (Hdj i p Hi); set_solver).
  assert (Hmore : ∀ e j, cov u e j → cov u' e j).
  { intros e j [?|(k0 & Hk & He)]; [by left|right]. exists k0. split; [|done]. apply updated_all. by left. }
  assert (Hlen : bits_len (pt_sectors p ∪ numbers l) = bits_len (pt_sectors p) + Z.of_nat (length l)) by (rewrite bits_len_union by (symmetry; done); by rewrite numbers_len).
  destruct (part_add size m Hsize Hm quant Hu ho Horder c (cov u) (cov u') i p proven l Hp Ht Hpl) as (p' & Hrun & Hp' & HS & HL & HF & HU).
  { unfold bits_len in *. lia. }
  { intros e. apply Hmore. }
  { intros s Hs. destruct (infos_elem m l s Ht Hs) as (x & Hx & <- & Hmx). right. exists (expiration x). split; [|by rewrite target_info]. apply updated_all. right. eauto. }
  exists p'. split; [done|]. assert (Hlive : live_count p' = live_count p + Z.of_nat (length l)).
  { unfold live_count. rewrite HL, bits_len_union by (unfold live_sectors; set_solver). by rewrite numbers_len. }
  assert (Htot : total_count p' = total_count p + Z.of_nat (length l)) by (unfold total_count; by rewrite HS).
  assert (HE : early_terminated p' = early_terminated p ∧ pt_faulty_power p' = pt_faulty_power p) by (clear -Hrun; unfold add_sectors in Hrun; by inv_run).
  destruct HE as [HE HFp]. split.
  - eapply (book_step size m quant c c (cov u) (cov u') _ _ i p p' Hb); try done; cbn; auto; try lia.
    + intros j pj Hj Hpj. rewrite HS. pose proof (pa_disjoint _ _ _ _ _ _ Hps i j p pj ltac:(done) Hi Hpj). pose proof (Hdj j pj Hpj). set_solver.
    + rewrite HFp. clear; pp_lia.
    + rewrite HE. rewrite (bk_early _ _ _ _ _ _ Hb). cbn. rewrite Hi. naive_solver.
  - intros k0 j Hj. apply updated_all in Hj as [Hj|(-> & s & Hs & <-)].
    + destruct (Hnm k0 j Hj) as [? ?]. split; [|done]. rewrite <- elem_of_dom, dom_insert_lookup_L by (by eexists). by apply elem_of_dom.
    + split; [rewrite lookup_insert_eq; by eexists|]. destruct Ht as [_ Ht]. rewrite Forall_forall in Ht. by apply expiration_epoch, Ht.
  - done.
  - intros j pj. rewrite lookup_insert. case_decide; [intros [= <-]; rewrite HS; pose proof (Hdj i p Hi); set_solver|]. intros Hj. pose proof (Hdj j pj Hj). set_solver.
  - pose proof (run_delta size quant ho m p (OAdd proven l) m p') as Hdel. unfold run_op in Hdel. rewrite Hrun in Hdel. rewrite (active_step _ _ _ _ _ Hi (Hdel _ eq_refl)), Hact. destruct proven; clear; pp_lia.
  - rewrite dom_insert_L. set_solver.
Qed.

Lemma grow_new ps u n power rest :
  growing ps u n power rest → amt_count ps < MAX_PARTITIONS →
  ps !! amt_count ps = None ∧ growing (<[amt_count ps := partition_new]> ps) u n power rest.
Proof.
  intros [Hb Hnm Hr Hdj Hact Hdom] Hlt. destruct (book_new c (cov u) ps _ Hb eq_refl Hlt) as [Hnone Hb']. split; [done|]. split; try done.
  - intros k i [[p Hi] ?]%Hnm. split; [|done]. rewrite lookup_insert_ne; [by eexists|]. intros <-. congruence.
  - intros i p. rewrite lookup_insert. case_decide; [intros [= <-]; set_solver|apply Hdj].
  - rewrite ptally_insert, Hact by done. change (pt_active_power partition_new) with ((pp_zero - pp_zero) - pp_zero)%pw. clear; pp_lia.
  - rewrite dom_insert_L. set_solver.
Qed.

(** The loop, from the last partition or from the next new one. *)
Lemma grow_loop fuel rest ps u n power idx :
  growing ps u n power rest → (idx = amt_count ps ∨ idx = amt_count ps - 1 ∧ 0 ≤ idx) →
  amt_count ps + Z.of_nat (length rest) ≤ MAX_PARTITIONS →
  Z.of_nat (length rest) + (if decide (idx = amt_count ps) then 0 else 1) < Z.of_nat fuel →
  ∃ ps' u' power', add_sectors_loop size quant fuel partition_size proven idx (ps, (u, power)) rest = Ok (ps', (u', power')) ∧
    growing ps' u' (n + Z.of_nat (length rest)) power' [] ∧ power' = (power + psum P (numbers rest))%pw.
Proof.
  revert rest ps u n power idx. induction fuel as [|fuel IH]; intros rest ps u n power idx H Hidx Hmax Hfuel; [case_decide; lia|].
  destruct rest as [|s rest'] eqn:Er.
  { exists ps, u, power. split_and!; [done|by replace (n + Z.of_nat (length [])) with n by (cbn; lia)|]. change (numbers []) with (∅ : gset Z). rewrite psum_empty. clear; pp_lia. }
  rewrite <- Er in *. assert (Hne : (0 < length rest)%nat) by (rewrite Er; cbn; lia).
  assert (Hunf : add_sectors_loop size quant (S fuel) partition_size proven idx (ps, (u, power)) rest =
    (o ← amt_get ps idx;
     let p := default partition_new o in
     let sector_count := bits_len (pt_sectors p) in
     if partition_size <=? sector_count then add_sectors_loop size quant fuel partition_size proven (idx + 1) (ps, (u, power)) rest
     else
       let k := Z.to_nat (Z.min (partition_size - sector_count) (Z.of_nat (length rest))) in
       '(p, pw) ← add_sectors size quant p proven (take k rest);
       ps ← amt_set ps idx p;
       add_sectors_loop size quant fuel partition_size proven (idx + 1)
         (ps, (fold_left (λ u s, record_update u (expiration s) idx) (take k rest) u, (power + pw)%pw)) (drop k rest))) by (rewrite Er; done).
  rewrite Hunf. clear Hunf Er s rest'. assert (Hbound : 0 ≤ idx ≤ amt_count ps ∧ idx ≤ AMT_MAX_INDEX).
  { unfold MAX_PARTITIONS, AMT_MAX_INDEX, usize_max, amt_count in *. lia. }
  rewrite amt_get_ok by lia. cbn [mbind result_bind]. pose proof (bk_parts _ _ _ _ _ _ (gr_book _ _ _ _ _ H)) as Hps. cbn in Hps.
  (** The partition at [idx] exists, or is a new one. *)
  assert (Hcase : ∃ p ps1, default partition_new (ps !! idx) = p ∧ ps1 !! idx = Some p ∧ growing ps1 u n power rest ∧ (∀ p', <[idx := p']> ps1 = <[idx := p']> ps) ∧
    amt_count ps1 = idx + 1 ∧ (idx = amt_count ps → p = partition_new)).
  { destruct (ps !! idx) as [p|] eqn:Ei.
    - assert (idx < amt_count ps) by (by eapply index_ok). exists p, ps. split_and!; try done; lia.
    - assert (idx = amt_count ps) as ->. { destruct Hidx as [?|[? ?]]; [done|]. exfalso. apply eq_None_not_Some in Ei. apply Ei, (pa_keys _ _ _ _ _ _ Hps). lia. }
      destruct (grow_new ps u n power rest H ltac:(lia)) as [_ H']. exists partition_new, (<[amt_count ps := partition_new]> ps).
      split_and!; [done|by rewrite lookup_insert_eq|done|intros; by rewrite insert_insert_eq| |done]. unfold amt_count at 1. rewrite map_size_insert_None by done. unfold amt_count. lia. }
  destruct Hcase as (p & ps1 & -> & Hp & H1 & Hins & Hcnt & Hnew). cbv zeta. destruct (Z.leb_spec partition_size (bits_len (pt_sectors p))) as [Hfull|Hroom].
  - assert (Hlast : idx ≠ amt_count ps) by (intros Hx; rewrite (Hnew Hx) in Hfull; cbn in Hfull; change (bits_len ∅) with 0 in Hfull; lia).
    destruct Hidx as [?|[Hx ?]]; [done|]. apply IH; [done|left; lia|lia|]. rewrite decide_True by lia. rewrite decide_False in Hfuel by done. lia.
  - set (k := Z.to_nat (Z.min (partition_size - bits_len (pt_sectors p)) (Z.of_nat (length rest)))).
    assert (Hk : (0 < k ≤ length rest)%nat) by (unfold k; lia). assert (Hlt : length (take k rest) = k) by (rewrite length_take; lia).
    destruct (grow_step ps1 u n power rest idx p k H1 Hp) as (p' & -> & H'); [rewrite Hlt; unfold k; lia|]. cbn [mbind result_bind].
    rewrite amt_set_ok by lia. cbn [mbind result_bind]. rewrite Hins in H'. assert (Hc' : amt_count (<[idx := p']> ps) = idx + 1) by (by rewrite <- Hins, (count_insert ps1 idx p p' Hp)).
    destruct (IH _ _ _ _ _ (idx + 1) H') as (ps' & u' & power' & -> & H'' & ->); [by left|rewrite Hc', length_drop; lia|rewrite decide_True by done; rewrite length_drop; case_decide; lia|].
    exists ps', u'. eexists. split_and!; [reflexivity| |].
    + replace (n + Z.of_nat (length rest)) with (n + Z.of_nat (length (take k rest)) + Z.of_nat (length (drop k rest))) by (rewrite Hlt, length_drop; lia). done.
    + destruct (infos_take rest k (gr_rest _ _ _ _ _ H)) as (_ & _ & Hdj & ->). rewrite psum_union by done. clear; pp_lia.
Qed.
End add.

Lemma growing_start c d proven l :
  deadline_ok c d → partitions_posted d = ∅ → infos m l → (∀ i p, dl_partitions d !! i = Some p → pt_sectors p ## numbers l) →
  growing c d proven (dl_partitions d) [] 0 pp_zero l.
Proof.
  intros [Hb _ _] Hpo Hl Hdj. split; try done.
  - destruct Hb as [H1 H2 H3 H4 H5 H6]. split; cbn; try done; [|by rewrite Z.add_0_r..].
    destruct H1 as [K1 K2 K3 K4]. split; try done. intros i p Hi. eapply part_ok_mono; [reflexivity| |by apply K3]. intros e He. by left.
  - intros k i (x & Hx & _). by apply not_elem_of_nil in Hx.
  - unfold dl_active. destruct proven; clear; pp_lia.
Qed.

Lemma dl_add_ok c d partition_size proven l :
  deadline_ok c d → partitions_posted d = ∅ → 0 < partition_size ≤ ENTRY_SECTORS_MAX → infos m l →
  (∀ i p, dl_partitions d !! i = Some p → pt_sectors p ## numbers l) → amt_count (dl_partitions d) + Z.of_nat (length l) ≤ MAX_PARTITIONS →
  ∃ d', dl_add_sectors size quant d partition_size proven l = Ok (d', psum P (numbers l)) ∧ deadline_ok c d' ∧
    dl_active d' = (dl_active d + if proven then psum P (numbers l) else pp_zero)%pw ∧ partitions_posted d' = ∅ ∧
    dl_live_sectors d' = dl_live_sectors d + Z.of_nat (length l) ∧ dl_total_sectors d' = dl_total_sectors d + Z.of_nat (length l).
Proof.
  intros H Hpo Hpsz Hl Hdj Hmax. destruct l as [|s l'] eqn:El.
  { exists d. change (numbers []) with (∅ : gset Z). rewrite psum_empty. split_and!; try done; cbn; try lia. destruct proven; unfold dl_active; clear; pp_lia. }
  rewrite <- El in *. pose proof H as [Hb He Hn].
  assert (Hcnt : 0 ≤ amt_count (dl_partitions d)) by (unfold amt_count; lia).
  destruct (grow_loop c d partition_size proven Hpsz (S (length l + base.size (dl_partitions d))) l (dl_partitions d) [] 0 pp_zero (Z.max 0 (amt_count (dl_partitions d) - 1)))
    as (ps' & u & power & Hrun & [Hb' Hnm _ _ Hact Hdom] & Hpw); [by apply growing_start|lia|done| |].
  { unfold amt_count in *. case_decide; lia. }
  destruct (add_many_ok quant (dl_expirations d) u) as (q' & Hadd & Hq' & Hnq); [lia|intros k x i Hkx Hi; apply (Hnm k i); by exists x|done|].
  unfold dl_add_sectors. rewrite Hrun, El, <- El. cbn [mbind result_bind]. rewrite Hadd. cbn [mbind result_bind mret result_ret].
  assert (Hpw' : power = psum P (numbers l)) by (rewrite Hpw; clear; pp_lia). rewrite Hpw' in *. eexists. split; [reflexivity|]. cbn [partitions_posted dl_live_sectors dl_total_sectors set_deadline].
  pose proof (counts_ok _ _ _ _ _ _ Hb') as Hc. pose proof (counts_ok _ _ _ _ _ _ Hb) as Hc0. cbn in Hc. rewrite !wrap_small by lia.
  split_and!; [|done|done|done|done]. split; [|done|].
  - destruct Hb' as [[K1 K2 K3 K4] H2 H3 H4 H5 H6]. split; cbn in *; try done; [|by rewrite Hpo]. split; try done.
    intros i p Hi. eapply part_ok_mono; [reflexivity| |by apply K3]. intros e [?|(k & (x & Hk & Hx) & <-)]; apply Hnq; [by left|right]. eauto.
  - cbn. intros e i [Hne|(k & x & Hk & _ & Hx)]%Hnq; [|apply (Hnm k i); by exists x]. apply elem_of_dom, Hdom, elem_of_dom. by eapply Hn.
Qed.

(** ** Rescheduled sectors *)

Lemma reschedule_loop c d r (l : list (Z * UnvalidatedBitField)) ps W rep :
  0 ≤ r ≤ 2 ^ 62 → book_ok c (named (mark (dl_expirations d) (qup r) W)) (with_parts d ps (partitions_posted d) (dl_faulty_power d)) → names_ok ps W →
  (∀ i o, (i, o) ∈ l → i ≤ AMT_MAX_INDEX ∧ ∃ X, o = Some X ∧ ∀ n, n ∈ X → qup r ≤ target m quant n) →
  ∃ ps' W' rep', try_fold (reschedule_one size quant ho m r) (ps, (W, rep)) l = Ok (ps', (W', rep')) ∧
    book_ok c (named (mark (dl_expirations d) (qup r) W')) (with_parts d ps' (partitions_posted d) (dl_faulty_power d)) ∧ names_ok ps' W' ∧ dom ps' = dom ps ∧
    ptally pt_active_power ps' = ptally pt_active_power ps ∧ (W' = [] → ps' = ps) ∧ (W ≠ [] → W' ≠ []).
Proof.
  intros Hr. revert ps W rep. induction l as [|[i o] l IH]; intros ps W rep H HW Hl; [exists ps, W, rep; by split_and!|].
  destruct (Hl i o) as (Hi & X & -> & HX); [by left|]. assert (Hl' : ∀ i o, (i, o) ∈ l → i ≤ AMT_MAX_INDEX ∧ ∃ X, o = Some X ∧ ∀ n, n ∈ X → qup r ≤ target m quant n) by (intros j o' Hj; apply (Hl j o'); by right).
  cbn [try_fold]. unfold reschedule_one at 1. rewrite amt_get_ok by done. cbn [mbind result_bind]. destruct (ps !! i) as [p|] eqn:Ei; [|by apply IH].
  pose proof (bk_parts _ _ _ _ _ _ H) as Hps. cbn in Hps. pose proof (pa_part _ _ _ _ _ _ Hps i p Ei) as Hp.
  destruct (part_reschedule size m Hsize Hm quant Hu ho Horder c _ (named (mark (dl_expirations d) (qup r) (W ++ [i]))) i p X r Hp Hr) as (p' & x & Hrun & Hx & Hnx & Hp' & Hfr & Heq).
  { intros n Hn. apply HX. set_solver. }
  { intros e. apply mark_more. }
  { intros _. apply mark_new. }
  rewrite Hrun. cbn [mbind result_bind]. destruct x as [|s x]; [by apply IH|]. rewrite (set_part _ _ _ _ _ _ _ _ p' Hps Ei). cbn [mbind result_bind mret result_ret].
  assert (Hsame : pt_faulty_power p' = pt_faulty_power p ∧ pt_active_power p' = pt_active_power p ∧ pt_unproven p' = pt_unproven p ∧ pt_recoveries p' = pt_recoveries p) by (by rewrite Heq).
  destruct Hsame as (HFp & Ha & HU & HR).
  destruct (IH (<[i := p']> ps) (W ++ [i]) (rep ++ s :: x)) as (ps' & W' & rep' & Hf & Hb' & HW' & Hd & Ha' & Hz & Hnz); [| |done|].
  - replace (dl_faulty_power d) with (dl_faulty_power d - pt_faulty_power p + pt_faulty_power p')%pw by (rewrite HFp; clear; pp_lia).
    eapply (framed_step size m quant Hu); [exact H|lia|done|done|done|intros e j _; apply mark_more|done|]. intros Hpo. destruct (bk_posted _ _ _ _ _ _ H i Hpo) as (p0 & Hp0 & HU0 & HR0). cbn in Hp0. rewrite Ei in Hp0. injection Hp0 as <-. split; congruence.
  - by apply (names_step ps W i p' false).
  - exists ps', W', rep'. split_and!; [exact Hf|done|done|rewrite Hd, dom_insert_lookup_L; [done|by eexists]| | |].
    + rewrite Ha', (ptally_update _ _ i p p' Ei), Ha. pp_solve.
    + intros Hw. exfalso. apply Hnz; [|done]. by destruct W.
    + intros _. apply Hnz. by destruct W.
Qed.

Lemma dl_reschedule_ok c d r (pm : PartitionSectorMap) :
  deadline_ok c d → 0 ≤ r ≤ 2 ^ 62 → (∀ i o, pm !! i = Some o → i ≤ AMT_MAX_INDEX ∧ ∃ X, o = Some X ∧ ∀ n, n ∈ X → qup r ≤ target m quant n) →
  ∃ d' rep, dl_reschedule_sector_expirations size quant ho d m r pm = Ok (d', rep) ∧ deadline_ok c d' ∧ dl_active d' = dl_active d ∧
    partitions_posted d' = partitions_posted d.
Proof.
  intros H Hr Hpm. pose proof H as [Hb He Hn]. pose proof (quant_epoch quant Hu r Hr) as Hep.
  destruct (reschedule_loop c d r (map_iter pm) (dl_partitions d) [] []) as (ps' & W & rep & Hrun & Hb' & HW & Hd & Ha & _); [done|by rewrite with_parts_id|by intros i ?%not_elem_of_nil| |].
  { intros i o Hio%elem_of_map_iter. by apply Hpm. }
  unfold dl_reschedule_sector_expirations. rewrite Hrun. cbn [mbind result_bind]. destruct W as [|w W]; [by eexists _, _|].
  rewrite add_partitions_ok by done. cbn [mbind result_bind mret result_ret]. eexists _, _. split; [reflexivity|]. split_and!; [|done|done].
  split; [|by apply mark_epochs|by apply (names_mark d ps' (w :: W))]. destruct Hb' as [H1 H2 H3 H4 H5 H6]. by split.
Qed.
End growth.
