(* ===== verification/DeadlineCompact.v ===== *)
(** * Compaction of a deadline

    Partitions are removed, and the others move down; the deadline's queue keeps
    naming each of them when its sectors expire. *)

From S2P Require Import Prelude Address Runtime Types Vesting MinerFunds Sectors Expirations Schedule ScheduleOps ScheduleRemove Partition PartitionSpec PartitionOps EarlyTerminations PartitionHistory SectorMaps DeadlineState DeadlineParts DeadlineSpec DeadlineOps DeadlineExpiry.

Implicit Types (p : Partition) (ps : gmap Z Partition) (C : Z → Z → Prop) (q : BitFieldQueue) (d : Deadline) (R : gset Z).

(** ** Positions *)

(** The position of [i] once the positions [R] are taken out. *)
Definition shift R (i : Z) : Z := i - bits_len (filter (λ j, j < i) R).

Lemma elem_of_set_cut (X : gset Z) R j : j ∈ set_cut X R ↔ ∃ i, i ∈ X ∧ i ∉ R ∧ j = shift R i.
Proof. unfold set_cut, shift. rewrite elem_of_map. setoid_rewrite elem_of_difference. naive_solver. Qed.

Lemma shift_next R k : shift R (k + 1) = shift R k + if decide (k ∈ R) then 0 else 1.
Proof.
  unfold shift. case_decide as Hk.
  - replace (filter (λ j, j < k + 1) R) with ({[k]} ∪ filter (λ j, j < k) R).
    + rewrite bits_len_union; [unfold bits_len; rewrite size_singleton; lia|]. intros j. rewrite elem_of_singleton, elem_of_filter. lia.
    + apply set_eq. intros j. rewrite elem_of_union, elem_of_singleton, !elem_of_filter. split; [intros [->|[? ?]]; split; (done || lia)|]. intros [Hj HR]. destruct (decide (j = k)); [by left|right]. split; [lia|done].
  - replace (filter (λ j, j < k + 1) R) with (filter (λ j, j < k) R); [lia|]. apply set_eq. intros j. rewrite !elem_of_filter. split; [intros [? ?]; split; [lia|done]|].
    intros [Hj HR]. split; [|done]. destruct (decide (j = k)) as [->|]; [done|lia].
Qed.
Lemma shift_zero R : (∀ i, i ∈ R → 0 ≤ i) → shift R 0 = 0.
Proof. intros HR. unfold shift. replace (filter (λ j, j < 0) R) with (∅ : gset Z); [done|]. apply set_eq. intros j. rewrite elem_of_filter. split; [set_solver|]. intros [? ?%HR]. lia. Qed.

(** ** The queue *)

Definition cut_step R (rm : list Z) (epoch : Z) (bitfield : gset Z) : result BoxErr (list Z * gset Z * bool) :=
  let bf := set_cut bitfield R in
  if bool_decide (bf = ∅) then mret (rm ++ [epoch], bitfield, true) else mret (rm, bf, true).

Lemma cut_step_eq R rm e X : cut_step R rm e X = Ok (if decide (set_cut X R = ∅) then (rm ++ [e], X, true) else (rm, set_cut X R, true)).
Proof. unfold cut_step. cbv zeta. case_bool_decide; by case_decide. Qed.

Lemma cut_loop R (L : list (Z * gset Z)) rm q :
  NoDup L.*1 → (∀ e X, (e, X) ∈ L → q !! e = Some X) →
  ∃ gone q1, for_each_while_mut (cut_step R) rm q L = Ok (rm ++ gone, q1) ∧ NoDup gone ∧
    (∀ e, e ∈ gone ↔ ∃ X, (e, X) ∈ L ∧ set_cut X R = ∅) ∧
    (∀ e X, (e, X) ∈ L → q1 !! e = Some (if decide (set_cut X R = ∅) then X else set_cut X R)) ∧ (∀ e, e ∉ L.*1 → q1 !! e = q !! e).
Proof.
  revert rm q. induction L as [|[k Y] L IH]; intros rm q Hnd HL.
  { exists [], q. cbn. rewrite app_nil_r. split_and!; [done|constructor|set_solver|set_solver|done]. }
  cbn in Hnd. apply NoDup_cons in Hnd as [Hk Hnd]. cbn [for_each_while_mut]. rewrite cut_step_eq. set (Z0 := set_cut Y R).
  assert (Hother : ∀ v e X, (e, X) ∈ L → <[k := v]> q !! e = Some X).
  { intros v e X Hin. rewrite lookup_insert_ne; [apply HL; by right|]. intros ->. apply Hk. apply list_elem_of_fmap. by exists (e, X). }
  assert (Hgen : ∀ v rm1, v = (if decide (Z0 = ∅) then Y else Z0) → rm1 = (if decide (Z0 = ∅) then rm ++ [k] else rm) →
    ∃ gone q1, for_each_while_mut (cut_step R) rm1 (<[k := v]> q) L = Ok (rm ++ gone, q1) ∧ NoDup gone ∧
      (∀ e, e ∈ gone ↔ ∃ X, (e, X) ∈ (k, Y) :: L ∧ set_cut X R = ∅) ∧
      (∀ e X, (e, X) ∈ (k, Y) :: L → q1 !! e = Some (if decide (set_cut X R = ∅) then X else set_cut X R)) ∧ (∀ e, e ∉ ((k, Y) :: L).*1 → q1 !! e = q !! e)).
  { intros v rm1 Hv Hrm1. destruct (IH rm1 (<[k := v]> q) Hnd (Hother v)) as (gone & q1 & -> & Hng & Hg & Hin & Hout).
    assert (Hkg : k ∉ gone) by (intros (X & HX & _)%Hg; apply Hk, list_elem_of_fmap; by exists (k, X)).
    exists (if decide (Z0 = ∅) then k :: gone else gone), q1. split_and!.
    - rewrite Hrm1. case_decide; [by rewrite <- app_assoc|done].
    - case_decide; [by constructor|done].
    - intros e. setoid_rewrite elem_of_cons. case_decide as Hz; [rewrite elem_of_cons, Hg|rewrite Hg]; unfold Z0 in *; naive_solver.
    - intros e X [[= -> ->]|HX]%elem_of_cons; [|by apply Hin]. rewrite Hout by done. by rewrite lookup_insert_eq, Hv.
    - intros e [He1 He2]%not_elem_of_cons. cbn in He1. rewrite Hout by done. by rewrite lookup_insert_ne by (by apply not_eq_sym). }
  destruct (decide (Z0 = ∅)) as [Hz|Hz]; cbn [mbind result_bind].
  - by apply Hgen.
  - by apply Hgen.
Qed.

Lemma bfq_cut_ok q R : epochs_ok q →
  ∃ q', bfq_cut q R = Ok q' ∧ epochs_ok q' ∧ ∀ e j, named q' e j ↔ ∃ i, named q e i ∧ i ∉ R ∧ j = shift R i.
Proof.
  intros Hq. unfold bfq_cut. change (λ rm epoch bitfield, _) with (cut_step R).
  destruct (cut_loop R (amt_entries q) [] q (entries_nodup q)) as (gone & q1 & -> & Hng & Hg & Hin & Hout); [intros e X; by rewrite elem_of_entries|].
  cbn [mbind result_bind]. rewrite app_nil_l. assert (Hall : ∀ e X, q !! e = Some X → q1 !! e = Some (if decide (set_cut X R = ∅) then X else set_cut X R)) by (intros e X HX; by apply Hin, elem_of_entries).
  assert (Hnone : ∀ e, q !! e = None → q1 !! e = None).
  { intros e He. rewrite Hout; [done|]. intros Hx. apply list_elem_of_fmap in Hx as ([e' X] & -> & HX%elem_of_entries). cbn in *. congruence. }
  destruct (amt_batch_delete_ok q1 gone Hng) as (q' & -> & Hq').
  { intros e (X & HX%elem_of_entries & _)%Hg. split; [by apply as_i64_epoch, (Hq e X)|]. rewrite (Hall e X HX). by eexists. }
  assert (Hfin : ∀ e, q' !! e = (q !! e ≫= λ X, if decide (set_cut X R = ∅) then None else Some (set_cut X R))).
  { intros e. rewrite Hq'. destruct (q !! e) as [X|] eqn:E; cbn.
    - destruct (decide (set_cut X R = ∅)) as [Hz|Hz].
      + rewrite decide_True; [done|]. apply Hg. exists X. split; [by apply elem_of_entries|done].
      + rewrite decide_False; [rewrite (Hall e X E); by rewrite decide_False|]. intros (Y & HY%elem_of_entries & HYz)%Hg. congruence.
    - rewrite (Hnone e E). by case_decide. }
  exists q'. split_and!; [done| |].
  - intros e X. rewrite Hfin. destruct (q !! e) eqn:E; [|done]. intros _. by eapply Hq.
  - intros e j. unfold named. rewrite Hfin. split.
    + intros (X & HX & Hj). destruct (q !! e) as [Y|] eqn:E; [|done]. cbn in HX. case_decide; [done|]. injection HX as <-. apply elem_of_set_cut in Hj as (i & Hi & HiR & ->). exists i. split_and!; [by exists Y|done|done].
    + intros (i & (Y & HY & Hi) & HiR & ->). rewrite HY. cbn. assert (Hin' : shift R i ∈ set_cut Y R) by (apply elem_of_set_cut; eauto).
      rewrite decide_False by (intros Hz; rewrite Hz in Hin'; set_solver). by eexists.
Qed.

(** ** The partitions *)

Definition ltally (f : Partition → Z) (D : list (Z * Partition)) : Z := zsum (f <$> D.*2).
Lemma ltally_cons f i p D : ltally f ((i, p) :: D) = f p + ltally f D.
Proof. done. Qed.
Lemma tally_entries f ps : tally f ps = ltally f (amt_entries ps).
Proof. unfold tally, ltally, amt_entries. apply zsum_perm. by rewrite sort_by_perm. Qed.
Lemma ltally_app f D E : ltally f (D ++ E) = ltally f D + ltally f E.
Proof. unfold ltally. by rewrite !fmap_app, zsum_app. Qed.
Lemma ltally_one f i p : ltally f [(i, p)] = f p.
Proof. unfold ltally. cbn. lia. Qed.

(** The removed ones among some partitions. *)
Definition gone R (D : list (Z * Partition)) : list (Z * Partition) := filter (λ e, e.1 ∈ R) D.
Lemma gone_snoc R D i p : gone R (D ++ [(i, p)]) = gone R D ++ if decide (i ∈ R) then [(i, p)] else [].
Proof. unfold gone. by rewrite filter_app. Qed.

Definition removable p : Prop := pt_faults p = ∅ ∧ pt_unproven p = ∅.

(** The loop, once the partitions [D] are done. *)
Record compacting R (D : list (Z * Partition)) (new : gmap Z Partition) (live dead : gset Z) (power : PowerPair) : Prop := {
  co_count : amt_count new = shift R (Z.of_nat (length D));
  co_keys : ∀ j, is_Some (new !! j) ↔ 0 ≤ j < amt_count new;
  co_in : ∀ i p, (i, p) ∈ D → i ∉ R → new !! shift R i = Some p;
  co_out : ∀ j p, new !! j = Some p → ∃ i, (i, p) ∈ D ∧ i ∉ R ∧ j = shift R i;
  co_tally : ∀ f, tally f new + ltally f (gone R D) = ltally f D;
  co_live : ∀ n, n ∈ live ↔ ∃ i p, (i, p) ∈ D ∧ i ∈ R ∧ n ∈ live_sectors p;
  co_dead : ∀ n, n ∈ dead ↔ ∃ i p, (i, p) ∈ D ∧ i ∈ R ∧ n ∈ pt_terminated p;
  co_nlive : bits_len live = ltally live_count (gone R D);
  co_ndead : bits_len dead = ltally (λ p, bits_len (pt_terminated p)) (gone R D);
  co_raw : raw power = ltally (λ p, raw (live_power p)) (gone R D);
  co_qa : qa power = ltally (λ p, qa (live_power p)) (gone R D) }.

Lemma compacting_start R : (∀ i, i ∈ R → 0 ≤ i) → compacting R [] ∅ ∅ ∅ pp_zero.
Proof.
  intros HR. split; cbn; try done; try set_solver.
  - by rewrite shift_zero.
  - intros j. rewrite lookup_empty. unfold amt_count. rewrite map_size_empty. split; [by intros []|lia].
Qed.

Lemma compact_keep R D new live dead power p :
  compacting R D new live dead power → Z.of_nat (length D) ∉ R → Z.of_nat (length D) < MAX_PARTITIONS →
  0 ≤ shift R (Z.of_nat (length D)) ≤ Z.of_nat (length D) →
  amt_set new (amt_count new) p = Ok (<[amt_count new := p]> new) ∧
  compacting R (D ++ [(Z.of_nat (length D), p)]) (<[amt_count new := p]> new) live dead power.
Proof.
  intros [Hc Hk Hin Hout Ht Hl Hd Hnl Hnd Hr Hq] HR Hmax Hsh. set (k := Z.of_nat (length D)) in *. split; [apply amt_set_ok; unfold AMT_MAX_INDEX, usize_max, MAX_PARTITIONS in *; lia|].
  assert (Hnone : new !! amt_count new = None) by (apply eq_None_not_Some; rewrite Hk; lia).
  assert (Hcnt : amt_count (<[amt_count new := p]> new) = amt_count new + 1) by (unfold amt_count at 1; rewrite map_size_insert_None by done; unfold amt_count; lia).
  assert (Hgone : gone R (D ++ [(k, p)]) = gone R D) by (rewrite gone_snoc, decide_False, app_nil_r by done; done).
  split; try (rewrite Hgone; done).
  - rewrite Hcnt, length_app. cbn [length]. replace (Z.of_nat (length D + 1)) with (k + 1) by lia. rewrite shift_next, decide_False by done. lia.
  - intros j. rewrite Hcnt, lookup_insert. case_decide; [split; [lia|by eexists]|]. rewrite Hk. lia.
  - intros i p' [HD|[= -> ->]%list_elem_of_singleton]%elem_of_app HiR; [|rewrite <- Hc; apply lookup_insert_eq]. rewrite lookup_insert_ne; [by apply Hin|].
    intros Hx. pose proof (Hin i p' HD HiR). congruence.
  - intros j p'. rewrite lookup_insert. case_decide as Hj.
    + intros [= <-]. exists k. split_and!; [apply elem_of_app; right; by left|done|congruence].
    + intros (i & HD & ? & ?)%Hout. exists i. split_and!; [apply elem_of_app; by left|done|done].
  - intros f. rewrite Hgone, tally_insert, ltally_app, ltally_one, <- Ht by done. lia.
  - intros n. rewrite Hl. setoid_rewrite elem_of_app. setoid_rewrite list_elem_of_singleton. split; [naive_solver|]. intros (i & p' & [?|[= -> ->]] & ? & ?); [eauto|done].
  - intros n. rewrite Hd. setoid_rewrite elem_of_app. setoid_rewrite list_elem_of_singleton. split; [naive_solver|]. intros (i & p' & [?|[= -> ->]] & ? & ?); [eauto|done].
Qed.

Lemma compact_drop R D new live dead power p :
  compacting R D new live dead power → Z.of_nat (length D) ∈ R → live_sectors p ## live → pt_terminated p ## dead →
  compacting R (D ++ [(Z.of_nat (length D), p)]) new (live ∪ live_sectors p) (dead ∪ pt_terminated p) (power + live_power p)%pw.
Proof.
  intros [Hc Hk Hin Hout Ht Hl Hd Hnl Hnd Hr Hq] HR Hdl Hdd. set (k := Z.of_nat (length D)) in *.
  assert (Hgone : gone R (D ++ [(k, p)]) = gone R D ++ [(k, p)]) by (rewrite gone_snoc, decide_True by done; done).
  split; try done.
  - rewrite Hc, length_app. cbn [length]. replace (Z.of_nat (length D + 1)) with (k + 1) by lia. rewrite shift_next, decide_True by done. lia.
  - intros i p' [HD|[= -> ->]%list_elem_of_singleton]%elem_of_app HiR; [by apply Hin|done].
  - intros j p' (i & HD & ? & ?)%Hout. exists i. split_and!; [apply elem_of_app; by left|done|done].
  - intros f. rewrite Hgone, !ltally_app, !ltally_one, <- Ht. lia.
  - intros n. rewrite elem_of_union, Hl. setoid_rewrite elem_of_app. setoid_rewrite list_elem_of_singleton. naive_solver.
  - intros n. rewrite elem_of_union, Hd. setoid_rewrite elem_of_app. setoid_rewrite list_elem_of_singleton. naive_solver.
  - rewrite Hgone, ltally_app, ltally_one, bits_len_union, Hnl by (symmetry; done). done.
  - rewrite Hgone, ltally_app, ltally_one, bits_len_union, Hnd by (symmetry; done). done.
  - rewrite Hgone, ltally_app, ltally_one. cbn. lia.
  - rewrite Hgone, ltally_app, ltally_one. cbn. lia.
Qed.

Lemma shift_bounds R (k : nat) : (∀ i, i ∈ R → 0 ≤ i) → 0 ≤ shift R (Z.of_nat k) ≤ Z.of_nat k.
Proof.
  intros HR. induction k as [|k IH]; [rewrite shift_zero by done; lia|]. replace (Z.of_nat (S k)) with (Z.of_nat k + 1) by lia. rewrite shift_next. case_decide; lia.
Qed.

Lemma seqZ_le_sorted a n : StronglySorted Z.le (seqZ a n).
Proof. induction (seqZ_sorted a n); constructor; [done|]. eapply Forall_impl; [done|]. cbn. lia. Qed.

Section compact.
Context (size : Z) (m : Sectors) (quant : QuantSpec).
Notation P := (info_power size m).
Notation book_ok := (book_ok size m quant).
Notation part_ok := (part_ok size m quant).
Notation parts_ok := (parts_ok size m quant).
Notation deadline_ok := (deadline_ok size m quant).

Lemma part_ok_move c C C' i j p : (∀ e, C e i → C' e j) → part_ok c C i p → part_ok c C' j p.
Proof. intros HC (σ & Hp & Hcov). exists σ. split; [done|]. intros n e b Hn. destruct (Hcov n e b Hn) as (? & ? & ? & ?). split_and!; auto. Qed.

Lemma entries_keys c C ps : parts_ok c C ps → (amt_entries ps).*1 = seqZ 0 (amt_count ps).
Proof.
  intros [Hk _ _ _]. apply (StronglySorted_unique Z.le).
  - eapply (StronglySorted_fmap fst (λ x y, x.1 < y.1)); [intros x y; lia|]. apply entries_increasing.
  - apply seqZ_le_sorted.
  - apply NoDup_Permutation; [apply entries_nodup|apply NoDup_seqZ|]. intros i. rewrite elem_of_seqZ. rewrite list_elem_of_fmap. split.
    + intros ([i' p] & -> & Hi%elem_of_entries). cbn. enough (0 ≤ i' < amt_count ps) by lia. apply Hk. by eexists.
    + intros Hi. destruct (proj2 (Hk i)) as [p Hp]; [lia|]. exists (i, p). split; [done|by apply elem_of_entries].
Qed.

Lemma compact_loop c C ps R E D new live dead power :
  parts_ok c C ps → (∀ i, i ∈ R → 0 ≤ i) → amt_entries ps = D ++ E → compacting R D new live dead power →
  (∀ i p, ps !! i = Some p → i ∈ R → removable p) →
  ∃ new' live' dead' power', try_fold (remove_partition_one R) (new, (live, dead, power)) E = Ok (new', (live', dead', power')) ∧
    compacting R (amt_entries ps) new' live' dead' power'.
Proof.
  intros Hps HR. revert D new live dead power. induction E as [|[i p] E IH]; intros D new live dead power HE H Hrem.
  { rewrite app_nil_r in HE. rewrite HE. by exists new, live, dead, power. }
  assert (Hkey : i = Z.of_nat (length D) ∧ i < amt_count ps).
  { pose proof (entries_keys c C ps Hps) as Hk. assert (Hl : (amt_entries ps).*1 !! length D = Some i) by (rewrite list_lookup_fmap, HE, list_lookup_middle; done).
    rewrite Hk in Hl. apply lookup_seqZ in Hl as [-> ?]. lia. }
  destruct Hkey as [Hik Hilt]. assert (Hi : ps !! i = Some p) by (apply elem_of_entries; rewrite HE; apply elem_of_app; right; by left).
  assert (Hold : ∀ i' p', (i', p') ∈ D → pt_sectors p' ## pt_sectors p).
  { intros i' p' Hin. assert (Hi' : ps !! i' = Some p') by (apply elem_of_entries; rewrite HE; apply elem_of_app; by left).
    apply (pa_disjoint _ _ _ _ _ _ Hps i' i p' p); [|done|done]. intros ->. pose proof (entries_nodup ps) as Hnd. rewrite HE, fmap_app in Hnd. apply NoDup_app in Hnd as (_ & Hnd & _).
    apply (Hnd i); [apply list_elem_of_fmap; by exists (i, p')|by left]. }
  assert (HE' : amt_entries ps = (D ++ [(Z.of_nat (length D), p)]) ++ E) by (rewrite HE, <- app_assoc, Hik; done).
  cbn [try_fold]. unfold remove_partition_one at 1. pose proof (pa_count _ _ _ _ _ _ Hps) as Hmax. case_bool_decide as HiR; cbn [negb].
  - destruct (Hrem i p Hi HiR) as [HF HU]. rewrite HF, HU. rewrite !bool_decide_true by done. cbn [negb throw_if mbind result_bind mret result_ret].
    apply (IH _ _ _ _ _ HE'); [|done]. rewrite Hik in HiR. apply compact_drop; [done|done| |].
    + intros n Hn (i' & p' & Hin & _ & Hn')%(co_live _ _ _ _ _ _ H). apply (Hold i' p' Hin n); unfold live_sectors in *; set_solver.
    + intros n Hn (i' & p' & Hin & _ & Hn')%(co_dead _ _ _ _ _ _ H).
      assert (Hi' : ps !! i' = Some p') by (apply elem_of_entries; rewrite HE; apply elem_of_app; by left).
      apply (Hold i' p' Hin n); [by apply (so_terminated _ (part_sets _ _ _ _ _ _ _ (pa_part _ _ _ _ _ _ Hps i' p' Hi')))|by apply (so_terminated _ (part_sets _ _ _ _ _ _ _ (pa_part _ _ _ _ _ _ Hps i p Hi)))].
  - rewrite Hik in HiR. destruct (compact_keep R D new live dead power p H HiR) as [Hset H']; [lia|by apply shift_bounds|]. rewrite Hset. cbn [mbind result_bind mret result_ret].
    by apply (IH _ _ _ _ _ HE').
Qed.

Lemma total_split c C i p : part_ok c C i p → total_count p = live_count p + bits_len (pt_terminated p).
Proof.
  intros H. unfold total_count, live_count, live_sectors. rewrite bits_len_difference by apply (so_terminated _ (part_sets _ _ _ _ _ _ _ H)). lia.
Qed.

(** What the removed partitions had. *)
Record removed_spec d R (live dead : gset Z) : Prop := {
  rs_live : ∀ n, n ∈ live ↔ ∃ i p, dl_partitions d !! i = Some p ∧ i ∈ R ∧ n ∈ live_sectors p;
  rs_dead : ∀ n, n ∈ dead ↔ ∃ i p, dl_partitions d !! i = Some p ∧ i ∈ R ∧ n ∈ pt_terminated p }.

Lemma ltally_ext f g D : (∀ i p, (i, p) ∈ D → f p = g p) → ltally f D = ltally g D.
Proof.
  induction D as [|[i p] D IH]; intros Hfg; [done|]. rewrite !ltally_cons, (Hfg i p) by (by left). f_equal. apply IH. intros j pj Hj. apply (Hfg j). by right.
Qed.
Lemma ltally_add f g D : ltally (λ p, f p + g p) D = ltally f D + ltally g D.
Proof. induction D as [|[i p] D IH]; [done|]. rewrite !ltally_cons, IH. lia. Qed.
Lemma ltally_zero D : ltally (λ _, 0) D = 0.
Proof. induction D as [|[i p] D IH]; [done|]. rewrite ltally_cons, IH. lia. Qed.

(** The sums over the partitions that are left. *)
Lemma compact_sums c C ps R new live dead power :
  parts_ok c C ps → (∀ i p, ps !! i = Some p → i ∈ R → removable p) → compacting R (amt_entries ps) new live dead power →
  tally live_count new = tally live_count ps - bits_len live ∧
  tally total_count new = tally total_count ps - (bits_len live + bits_len dead) ∧
  ptally pt_faulty_power new = ptally pt_faulty_power ps ∧ (ptally pt_active_power new = ptally pt_active_power ps - power)%pw.
Proof.
  intros Hps HR [Hc Hk Hin Hout Ht Hl Hd Hnl Hnd Hraw Hqa]. set (G := gone R (amt_entries ps)) in *.
  assert (Hgr : ∀ i p, (i, p) ∈ G → ps !! i = Some p ∧ removable p).
  { intros i p [HiR Hi%elem_of_entries]%list_elem_of_filter. split; [done|by eapply HR]. }
  assert (Hzero : ∀ i p, (i, p) ∈ G → pt_faulty_power p = pp_zero ∧ unproven_power p = pp_zero).
  { intros i p [Hi [HF HU]]%Hgr. destruct (part_memos _ _ _ _ _ _ _ (pa_part _ _ _ _ _ _ Hps i p Hi)) as [_ Hu Hf _]. rewrite Hf, Hu, HF, HU. split; apply psum_empty. }
  assert (Htot : ltally total_count G = bits_len live + bits_len dead).
  { rewrite Hnl, Hnd, <- ltally_add. apply ltally_ext. intros i p [Hi _]%Hgr. eapply total_split. by apply (pa_part _ _ _ _ _ _ Hps i p Hi). }
  split_and!.
  - rewrite (tally_entries _ ps), <- (Ht live_count), Hnl. lia.
  - rewrite (tally_entries _ ps), <- (Ht total_count), Htot. lia.
  - apply pp_ext; unfold ptally; cbn [raw qa]; rewrite (tally_entries _ ps), <- Ht; (rewrite (ltally_ext _ (λ _, 0)), ltally_zero; [lia|]); intros i p Hi; by rewrite (proj1 (Hzero i p Hi)).
  - apply pp_ext; unfold ptally, pp_sub; cbn [raw qa]; rewrite (tally_entries _ ps), <- Ht, ?Hraw, ?Hqa.
    + rewrite (ltally_ext _ (λ p, raw (live_power p)) G); [lia|]. intros i p Hi. unfold pt_active_power. destruct (Hzero i p Hi) as [-> ->]. cbn. lia.
    + rewrite (ltally_ext _ (λ p, qa (live_power p)) G); [lia|]. intros i p Hi. unfold pt_active_power. destruct (Hzero i p Hi) as [-> ->]. cbn. lia.
Qed.

Lemma compact_parts c C C' ps R new live dead power :
  parts_ok c C ps → (∀ i, i ∈ R → 0 ≤ i) → (∀ e i, i ∉ R → C e i → C' e (shift R i)) → compacting R (amt_entries ps) new live dead power → parts_ok c C' new.
Proof.
  intros Hps HR0 HC [Hc Hk Hin Hout _ _ _ _ _ _ _]. split; [done| | |].
  - rewrite Hc. pose proof (pa_count _ _ _ _ _ _ Hps). pose proof (shift_bounds R (length (amt_entries ps)) HR0).
    assert (Z.of_nat (length (amt_entries ps)) = amt_count ps); [|lia]. unfold amt_count, amt_entries. by rewrite sort_by_perm, length_map_to_list.
  - intros j p (i & Hi%elem_of_entries & HiR & ->)%Hout. eapply part_ok_move; [|by apply (pa_part _ _ _ _ _ _ Hps i p Hi)]. intros e. by apply HC.
  - intros j j' p p' Hne (i & Hi%elem_of_entries & _ & ->)%Hout (i' & Hi'%elem_of_entries & _ & ->)%Hout. apply (pa_disjoint _ _ _ _ _ _ Hps i i' p p'); [congruence|done|done].
Qed.

(** The guards of [remove_partitions] pass. *)
Lemma remove_guards c C ps R :
  parts_ok c C ps → R ⊆ dom ps → bounded_bits (amt_count ps) R = Ok R ∧ existsb (λ i, amt_count ps <=? i) (elements R) = false.
Proof.
  intros Hps HR. split.
  - unfold bounded_bits. rewrite (proj2 (Z.ltb_ge _ _)); [done|]. unfold bits_len, amt_count. rewrite <- (size_dom ps (D := gset Z)). by apply inj_le, subseteq_size.
  - apply not_true_iff_false. rewrite existsb_exists. intros (i & Hi & Hle%Z.leb_le). apply list_elem_of_In, elem_of_elements, HR, elem_of_dom in Hi.
    apply (pa_keys _ _ _ _ _ _ Hps) in Hi. lia.
Qed.

Lemma dl_remove_ok c d R :
  deadline_ok c d → early_terminations d = ∅ → partitions_posted d = ∅ → R ≠ ∅ → (∀ i, i ∈ R → ∃ p, dl_partitions d !! i = Some p ∧ removable p) →
  ∃ d' live dead power, remove_partitions d R = Ok (d', (live, dead, power)) ∧ deadline_ok c d' ∧ dl_active d' = (dl_active d - power)%pw ∧
    partitions_posted d' = ∅ ∧ removed_spec d R live dead ∧
    (∀ i p, dl_partitions d !! i = Some p → i ∉ R → dl_partitions d' !! shift R i = Some p) ∧
    (∀ j p, dl_partitions d' !! j = Some p → ∃ i, dl_partitions d !! i = Some p ∧ i ∉ R ∧ j = shift R i).
Proof.
  intros H Het Hpo HRne HR. pose proof H as [Hb He Hn]. pose proof (bk_parts _ _ _ _ _ _ Hb) as Hps. set (ps := dl_partitions d) in *.
  assert (HRd : R ⊆ dom ps) by (intros i (p & Hp & _)%HR; by eapply elem_of_dom_2).
  assert (HR0 : ∀ i, i ∈ R → 0 ≤ i) by (intros i Hi%HRd%elem_of_dom; by apply (pa_keys _ _ _ _ _ _ Hps)).
  assert (Hrem : ∀ i p, ps !! i = Some p → i ∈ R → removable p).
  { intros i p Hi HiR. destruct (HR i HiR) as (p' & Hp' & Hr). rewrite Hi in Hp'. by injection Hp' as <-. }
  destruct (compact_loop c _ ps R (amt_entries ps) [] ∅ ∅ ∅ pp_zero Hps HR0 eq_refl (compacting_start R HR0) Hrem) as (new & live & dead & power & Hrun & Hco).
  destruct (bfq_cut_ok (dl_expirations d) R He) as (q' & Hcut & Hq' & Hnq). destruct (remove_guards c _ ps R Hps HRd) as [Hg1 Hg2].
  destruct (compact_sums c _ ps R new live dead power Hps Hrem Hco) as (Hsl & Hst & Hsf & Hsa).
  unfold remove_partitions. fold ps. rewrite Hg1. cbn [mbind result_bind actor_err]. rewrite bool_decide_false by done. rewrite Hg2, bool_decide_true by done.
  cbn [negb throw_if mbind result_bind]. rewrite Hrun. cbn [mbind result_bind]. rewrite Hcut. cbn [mbind result_bind mret result_ret].
  assert (Hbk : book_ok c (named q') (set_deadline d new q' (early_terminations d) (dl_live_sectors d - bits_len live) (dl_total_sectors d - (bits_len live + bits_len dead)) (dl_faulty_power d))).
  { split; cbn.
    - eapply compact_parts; [exact Hps|done| |exact Hco]. intros e i HiR Hei. apply Hnq. eauto.
    - by rewrite Hsl, (bk_live _ _ _ _ _ _ Hb).
    - by rewrite Hst, (bk_total _ _ _ _ _ _ Hb).
    - by rewrite Hsf, (bk_faulty _ _ _ _ _ _ Hb).
    - intros j. rewrite Het. split; [set_solver|]. intros (p & (i & Hi%elem_of_entries & _)%(co_out _ _ _ _ _ _ Hco) & Hx). rewrite <- Het. exfalso.
      apply (not_elem_of_empty (C := gset Z) i). rewrite <- Het. apply (bk_early _ _ _ _ _ _ Hb). eauto.
    - rewrite Hpo. set_solver. }
  pose proof (counts_ok _ _ _ _ _ _ Hbk) as Hcs. pose proof (counts_ok _ _ _ _ _ _ Hb) as Hcs0. cbn in Hcs. assert (0 ≤ bits_len live ∧ 0 ≤ bits_len dead) by (unfold bits_len; lia).
  rewrite !wrap_small by lia. eexists _, live, dead, power. split; [reflexivity|]. split_and!; [|done|done| | |].
  - split; [done|done|]. cbn. intros e j (i & Hei & HiR & ->)%Hnq. destruct (Hn e i Hei) as [p Hp]. exists p. apply (co_in _ _ _ _ _ _ Hco); [by apply elem_of_entries|done].
  - split; intros n; [rewrite (co_live _ _ _ _ _ _ Hco)|rewrite (co_dead _ _ _ _ _ _ Hco)]; by setoid_rewrite elem_of_entries.
  - intros i p Hi HiR. apply (co_in _ _ _ _ _ _ Hco); [by apply elem_of_entries|done].
  - intros j p (i & Hi%elem_of_entries & ? & ?)%(co_out _ _ _ _ _ _ Hco). eauto.
Qed.
End compact.
