(* ===== verification/DeadlineHistory.v ===== *)
(** * Histories of a deadline

    The life of a deadline, from its creation, under the operations of
    [deadline_state.rs] and changes of the table of sectors. *)

From S2P Require Import Prelude Address Runtime Types Vesting MinerFunds Sectors Expirations Schedule ScheduleOps ScheduleRemove Partition PartitionSpec PartitionOps EarlyTerminations PartitionHistory SectorMaps DeadlineState DeadlineParts DeadlineSpec DeadlineOps DeadlineExpiry DeadlineTerminate DeadlineGrowth DeadlineCompact.

Implicit Types (p : Partition) (d : Deadline) (m : Sectors).

(** ** Operations *)

Inductive DlOp :=
  | DAdd (partition_size : Z) (proven : bool) (l : list SectorOnChainInfo)
  | DFaults (pm : PartitionSectorMap) (fault_expiration : Z)
  | DDeclareRecovered (pm : PartitionSectorMap)
  | DProve (posts : list PoStPartition) (fault_expiration : Z)
  | DEnd (fault_expiration until : Z)
  | DTerminate (pm : PartitionSectorMap) (epoch : Z)
  | DPopEarly (max_partitions max_sectors : Z)
  | DReschedule (pm : PartitionSectorMap) (new_expiration : Z)
  | DRemove (to_remove : gset Z)
  | DPostProofs (partitions : gset Z) (proofs : list PoStProof)
  | DTable (m' : Sectors).

(** The end of a deadline, as [advance_deadline] composes it. *)
Definition end_deadline (quant : QuantSpec) d (fault_expiration until : Z) : result BoxErr (Deadline * (PowerPair * PowerPair * ExpirationSet)) :=
  '(d, r) ← process_deadline_end quant d fault_expiration;
  '(d, expired) ← dl_pop_expired_sectors d until;
  mret (d, (r.1, r.2, expired)).

Section history.
Context (size : Z) (quant : QuantSpec) (ho : gset Z → list Z).

(** An operation on a table and a deadline, with the change of active power that
    it reports. *)
Definition run_dl m d (op : DlOp) : result BoxErr (Sectors * Deadline * PowerPair) :=
  match op with
  | DAdd partition_size proven l =>
      '(d, power) ← dl_add_sectors size quant d partition_size proven l; mret (m, d, if proven then power else pp_zero)
  | DFaults pm r => '(d, δ) ← dl_record_faults size quant ho d m r pm; mret (m, d, δ)
  | DDeclareRecovered pm => d ← dl_declare_faults_recovered size d m pm; mret (m, d, pp_zero)
  | DProve posts r => '(d, res) ← record_proven_sectors size quant ho d m r posts; mret (m, d, pr_power_delta res)
  | DEnd r until =>
      '(d, x) ← end_deadline quant d r until;
      let '(δ, _, expired) := (x : PowerPair * PowerPair * ExpirationSet) in mret (m, d, (δ - active_power expired)%pw)
  | DTerminate pm epoch => '(d, lost) ← dl_terminate_sectors size quant ho d m epoch pm; mret (m, d, pp_neg lost)
  | DPopEarly max_partitions max_sectors => '(d, _) ← dl_pop_early_terminations d max_partitions max_sectors; mret (m, d, pp_zero)
  | DReschedule pm r => '(d, _) ← dl_reschedule_sector_expirations size quant ho d m r pm; mret (m, d, pp_zero)
  | DRemove R =>
      '(d, x) ← remove_partitions d R; let '(_, _, power) := (x : gset Z * gset Z * PowerPair) in mret (m, d, pp_neg power)
  | DPostProofs partitions proofs => d ← record_post_proofs d partitions proofs; mret (m, d, pp_zero)
  | DTable m' => mret (m', d, pp_zero)
  end.

(** The latest epoch at which a faulty sector expires. *)
Definition dl_clock (c : Z) (op : DlOp) : Z :=
  match op with DFaults _ r | DProve _ r | DEnd r _ => quantize_up quant r | _ => c end.

(** What the callers ensure. *)
Definition dl_op_ok m d (c : Z) (op : DlOp) : Prop :=
  match op with
  | DAdd partition_size _ l =>
      partitions_posted d = ∅ ∧ 0 < partition_size ≤ ENTRY_SECTORS_MAX ∧ infos m l ∧
      (∀ i p, dl_partitions d !! i = Some p → pt_sectors p ## numbers l) ∧ amt_count (dl_partitions d) + Z.of_nat (length l) ≤ MAX_PARTITIONS
  | DFaults pm r =>
      0 ≤ r ≤ 2 ^ 62 ∧ c ≤ quantize_up quant r ∧ entries_in (λ p X, X ⊆ pt_sectors p) (dl_partitions d) (map_iter pm)
  | DDeclareRecovered pm => partitions_posted d = ∅ ∧ entries_in (λ p X, X ⊆ pt_sectors p) (dl_partitions d) (map_iter pm)
  | DProve posts r =>
      0 ≤ r ≤ 2 ^ 62 ∧ c ≤ quantize_up quant r ∧ bits_of (pp_index <$> posts) ## partitions_posted d ∧
      entries_in (λ p X, X ⊆ pt_sectors p) (dl_partitions d) (post_entries posts)
  | DEnd r until => 0 ≤ r ≤ 2 ^ 62 ∧ c ≤ quantize_up quant r ∧ 0 ≤ until < i64_max
  | DTerminate pm epoch => 0 ≤ epoch < i64_max ∧ entries_in (λ p X, X ⊆ live_sectors p) (dl_partitions d) (map_iter pm)
  | DPopEarly _ max_sectors => 0 ≤ max_sectors ≤ usize_max
  | DReschedule pm r =>
      0 ≤ r ≤ 2 ^ 62 ∧ ∀ i o, pm !! i = Some o → i ≤ AMT_MAX_INDEX ∧ ∃ X, o = Some X ∧ ∀ n, n ∈ X → quantize_up quant r ≤ target m quant n
  | DRemove R =>
      early_terminations d = ∅ ∧ partitions_posted d = ∅ ∧ R ≠ ∅ ∧ ∀ i, i ∈ R → ∃ p, dl_partitions d !! i = Some p ∧ removable p
  | DPostProofs _ _ => amt_count (optimistic_post_submissions d) < 2 ^ 32
  | DTable m' => table_wf m' ∧ ∀ i p n, dl_partitions d !! i = Some p → n ∈ live_sectors p → m' !! n = m !! n
  end.

(** The states that are reached from a new deadline. *)
Inductive dl_reached : Sectors → Deadline → Z → Prop :=
  | dl_reached_new m c : table_wf m → dl_reached m deadline_new c
  | dl_reached_step m d c op m' d' δ : dl_reached m d c → dl_op_ok m d c op → run_dl m d op = Ok (m', d', δ) → dl_reached m' d' (dl_clock c op).
End history.

(** ** Proofs *)

Section history_ok.
Context (size : Z) (Hsize : 0 < size) (quant : QuantSpec) (Hu : 0 < q_unit quant ≤ 2 ^ 60).
Context (ho : gset Z → list Z) (Horder : ∀ X, ho X ≡ₚ elements X).
Notation deadline_ok := (deadline_ok size).
Notation run := (run_dl size quant ho).
Notation reached := (dl_reached size quant ho).

Lemma part_table m m' c C i p : (∀ n, n ∈ live_sectors p → m' !! n = m !! n) → part_ok size m quant c C i p → part_ok size m' quant c C i p.
Proof.
  intros Ha (σ & Hp & Hcov). exists σ. split; [by eapply table_ok|]. intros n e b Hn.
  assert (Ht : target m' quant n = target m quant n). { unfold target. rewrite Ha; [done|]. rewrite <- (po_live _ _ _ _ _ _ Hp). by eapply elem_of_dom_2. }
  rewrite Ht. exact (Hcov n e b Hn).
Qed.
Lemma deadline_table m m' c d :
  (∀ i p n, dl_partitions d !! i = Some p → n ∈ live_sectors p → m' !! n = m !! n) → deadline_ok m quant c d → deadline_ok m' quant c d.
Proof.
  intros Ha [[[K1 K2 K3 K4] H2 H3 H4 H5 H6] He Hn]. split; [|done|done]. split; try done. split; try done. intros i p Hi. eapply part_table; [|by apply K3]. intros n. by eapply Ha.
Qed.

(** The end of a deadline: partitions without a proof become faulty, and what is
    due expires. *)
Lemma end_deadline_ok m c d r until :
  table_wf m → deadline_ok m quant c d → 0 ≤ r ≤ 2 ^ 62 → c ≤ quantize_up quant r → 0 ≤ until < i64_max →
  ∃ d1 d' δ pen expired, process_deadline_end quant d r = Ok (d1, (δ, pen)) ∧ dl_pop_expired_sectors d1 until = Ok (d', expired) ∧
    deadline_ok m quant (quantize_up quant r) d' ∧ dl_active d' = (dl_active d + (δ - active_power expired))%pw ∧
    pen = (dl_recovering d + (dl_faulty_power d1 - dl_faulty_power d))%pw ∧ partitions_posted d' = ∅ ∧
    expiry_spec size m quant (quantize_up quant r) d1 d' until expired ∧ dom (dl_partitions d1) = dom (dl_partitions d) ∧
    ∀ i p, dl_partitions d !! i = Some p → ∃ p1, dl_partitions d1 !! i = Some p1 ∧ ended quant d r i p p1 ∧ (i ∉ partitions_posted d → pt_faults p1 = live_sectors p1).
Proof.
  intros Hm H Hr Hc Hun. destruct (dl_end_ok size m Hsize Hm quant Hu ho Horder c d r H Hr Hc) as (d1 & δ & pen & Hrun1 & H1 & Ha1 & Hpen & Hpo & Hq & Hdom & Hend).
  destruct (dl_expire_ok size m Hsize Hm quant Hu ho Horder _ d1 until H1 Hq Hun) as (d' & expired & Hrun2 & Hex).
  exists d1, d', δ, pen, expired. split_and!; try done; [apply Hex| |by rewrite (ex_posted _ _ _ _ _ _ _ _ Hex)]. rewrite (ex_active _ _ _ _ _ _ _ _ Hex), Ha1. clear; pp_lia.
Qed.

Lemma dl_step_ok m c d op :
  table_wf m → deadline_ok m quant c d → dl_op_ok quant m d c op →
  ∃ m' d' δ, run m d op = Ok (m', d', δ) ∧ table_wf m' ∧ deadline_ok m' quant (dl_clock quant c op) d' ∧ dl_active d' = (dl_active d + δ)%pw.
Proof.
  intros Hm H Hop. assert (Hz : ∀ x : PowerPair, x = (x + pp_zero)%pw) by (intros; pp_solve). unfold run_dl.
  destruct op as [psz pr l|pm r|pm|posts r|r un|pm ep|mp ms|pm r|R|X pf|m1]; cbn [dl_op_ok dl_clock] in *.
  - destruct Hop as (Hpo & Hp & Hl & Hd & Hc). destruct (dl_add_ok size m Hsize Hm quant Hu ho Horder c d psz pr l H Hpo Hp Hl Hd Hc) as (d' & -> & H' & Ha & _). by eexists _, _, _.
  - destruct Hop as (Hr & Hc & He). destruct (dl_faults_ok size m Hsize Hm quant Hu ho Horder c d r pm H Hr Hc He) as (d' & δ & -> & H' & Ha & _). by eexists _, _, _.
  - destruct Hop as (Hpo & He). destruct (dl_declare_ok size m Hsize Hm quant Hu ho Horder c d pm H Hpo He) as (d' & -> & H' & Ha & _). eexists _, _, _. split_and!; [done|done|done|by rewrite Ha].
  - destruct Hop as (Hr & Hc & Hpo & He). destruct (dl_prove_ok size m Hsize Hm quant Hu ho Horder c d r posts H Hr Hc Hpo He) as (d' & res & -> & H' & Ha & _). by eexists _, _, _.
  - destruct Hop as (Hr & Hc & Hun). destruct (end_deadline_ok m c d r un Hm H Hr Hc Hun) as (d1 & d' & δ & pen & ex & Hr1 & Hr2 & H' & Ha & _). unfold end_deadline. rewrite Hr1. cbn [mbind result_bind]. rewrite Hr2. by eexists _, _, _.
  - destruct Hop as (Hep & He). destruct (dl_terminate_ok size m Hsize Hm quant Hu ho Horder c d ep pm H Hep He) as (d' & lost & -> & H' & Ha & _). eexists _, _, _. split_and!; [done|done|done|]. rewrite Ha. pp_solve.
  - destruct (dl_early_ok size m Hsize Hm quant Hu ho Horder c d mp ms H Hop) as (d' & r & more & -> & H' & _ & _ & _ & Ha & _). eexists _, _, _. split_and!; [done|done|done|by rewrite Ha].
  - destruct Hop as (Hr & He). destruct (dl_reschedule_ok size m Hsize Hm quant Hu ho Horder c d r pm H Hr He) as (d' & rep & -> & H' & Ha & _). eexists _, _, _. split_and!; [done|done|done|by rewrite Ha].
  - destruct Hop as (Het & Hpo & HR & He). destruct (dl_remove_ok size m quant c d R H Het Hpo HR He) as (d' & live & dead & pw & -> & H' & Ha & _). eexists _, _, _. split_and!; [done|done|done|]. rewrite Ha. pp_solve.
  - unfold record_post_proofs. rewrite amt_set_ok by (unfold AMT_MAX_INDEX, usize_max; lia). eexists _, _, _. split_and!; [done|done| |apply Hz]. destruct H as [[H1 H2 H3 H4 H5 H6] He Hn]. by split; [split|..].
  - destruct Hop as (Hm1 & Ha). eexists _, _, _. split_and!; [done|done|by eapply deadline_table|apply Hz].
Qed.

Lemma dl_reached_ok m d c : reached m d c → table_wf m ∧ deadline_ok m quant c d.
Proof.
  induction 1 as [m c Hm|m d c op m' d' δ Hr [Hm IH] Hop Hrun]; [split; [done|apply deadline_new_ok]|].
  destruct (dl_step_ok m c d op Hm IH Hop) as (m1 & d1 & δ1 & Hrun1 & Hm1 & H1 & _). rewrite Hrun in Hrun1. by injection Hrun1 as <- <- <-.
Qed.




(** C20.  Compaction removes partitions without faults and unproven sectors, and
    returns their live and dead sectors; the other partitions keep their order and
    their contents, and are still named in the deadline's queue by the time one of
    their sectors is due. *)
Theorem compaction_correct m d c R :
  reached m d c → early_terminations d = ∅ → partitions_posted d = ∅ → R ≠ ∅ → (∀ i, i ∈ R → ∃ p, dl_partitions d !! i = Some p ∧ removable p) →
  ∃ d' live dead power, remove_partitions d R = Ok (d', (live, dead, power)) ∧ removed_spec d R live dead ∧ dl_active d' = (dl_active d - power)%pw ∧
    (∀ i p, dl_partitions d !! i = Some p → i ∉ R → dl_partitions d' !! shift R i = Some p) ∧
    (∀ j p, dl_partitions d' !! j = Some p → ∃ i, dl_partitions d !! i = Some p ∧ i ∉ R ∧ j = shift R i) ∧
    ∀ j p until, dl_partitions d' !! j = Some p → due_sectors p until ≠ ∅ → ∃ e, e ≤ until ∧ named (dl_expirations d') e j.
Proof.
  intros Hr Het Hpo HR Hrem. destruct (dl_reached_ok m d c Hr) as [Hm H].
  destruct (dl_remove_ok size m quant c d R H Het Hpo HR Hrem) as (d' & live & dead & pw & Hrun & [Hb _ _] & Ha & _ & Hsp & Hin & Hout). exists d', live, dead, pw. split_and!; try done.
  intros j p u Hj (n & Hn)%set_choose_L. destruct (pa_part _ _ _ _ _ _ (bk_parts _ _ _ _ _ _ Hb) j p Hj) as (σ & Hp & Hcov). rewrite (due_expired size m Hsize Hm quant c p σ u Hp) in Hn.
  apply elem_of_expired in Hn as (e & b & E & Hle). destruct (Hcov n e b E) as (_ & HC & _). by exists e.
Qed.
End history_ok.

(** ** An example *)

Definition ex_dl_run (m : Sectors) (d : Deadline) (op : DlOp) : Deadline :=
  match run_dl 2048 ex_quant elements m d op with Ok (_, d, _) => d | Err _ => d end.
(** Two partitions with a sector each; then the second sector is terminated. *)
Definition ex_dl : Deadline := ex_dl_run ex_table deadline_new (DAdd 1 true ex_sectors).
Definition ex_dl_terminated : Deadline := ex_dl_run ex_table ex_dl (DTerminate {[1 := Some {[2]}]} 20).

Lemma ex_dl_reached : dl_reached 2048 ex_quant elements ex_table ex_dl 0.
Proof.
  eapply (dl_reached_step 2048 ex_quant elements ex_table deadline_new 0 (DAdd 1 true ex_sectors)); [apply dl_reached_new, ex_table_wf| |].
  - split_and!; [done|done|done|apply ex_infos|intros i p; cbn; by rewrite lookup_empty|done].
  - unfold ex_dl, ex_dl_run. vm_compute. reflexivity.
Qed.
Lemma ex_dl_terminated_reached : dl_reached 2048 ex_quant elements ex_table ex_dl_terminated 0.
Proof.
  eapply (dl_reached_step 2048 ex_quant elements ex_table ex_dl 0 (DTerminate {[1 := Some {[2]}]} 20)); [apply ex_dl_reached| |].
  - split; [done|]. split; [apply map_iter_nodup|]. intros i o Hio%elem_of_map_iter. apply lookup_singleton_Some in Hio as [<- <-].
    eexists _, {[2]}. split_and!; [vm_compute; reflexivity|done|]. apply (bool_decide_unpack _). vm_compute. exact I.
  - unfold ex_dl_terminated, ex_dl_run. vm_compute. reflexivity.
Qed.




Lemma ex_removable i : i ∈ ({[0]} : gset Z) → ∃ p, dl_partitions ex_dl !! i = Some p ∧ removable p.
Proof. intros ->%elem_of_singleton. eexists. split; [vm_compute; reflexivity|]. split; vm_compute; reflexivity. Qed.
Lemma compaction_correct_witness :
  ∃ d' live dead power, remove_partitions ex_dl {[0]} = Ok (d', (live, dead, power)) ∧ removed_spec ex_dl {[0]} live dead ∧ dl_active d' = (dl_active ex_dl - power)%pw ∧
    (∀ i p, dl_partitions ex_dl !! i = Some p → i ∉ ({[0]} : gset Z) → dl_partitions d' !! shift {[0]} i = Some p) ∧
    (∀ j p, dl_partitions d' !! j = Some p → ∃ i, dl_partitions ex_dl !! i = Some p ∧ i ∉ ({[0]} : gset Z) ∧ j = shift {[0]} i) ∧
    ∀ j p until, dl_partitions d' !! j = Some p → due_sectors p until ≠ ∅ → ∃ e, e ≤ until ∧ named (dl_expirations d') e j.
Proof.
  apply (compaction_correct 2048 ltac:(done) ex_quant ltac:(done) elements (λ X, reflexivity _) ex_table ex_dl 0 {[0]} ex_dl_reached);
    [by vm_compute|by vm_compute|done|apply ex_removable].
Defined.
