(* ===== verification/MinerState.v ===== *)
(** * The state of a miner

    [src/vm/actor/src/builtin/miner/state.rs] and the types of its fields
    ([types.rs]): pre-committed sectors with their deposits and clean-up queue,
    allocated sector numbers, the table of sectors, the deadlines, and the end
    of a deadline.  The funds of the state are [MinerFunds.MinerFunds].  The
    CIDs of the source are what they point to; the HAMT of pre-committed sectors
    is the map it implements. *)

From S2P Require Import Prelude Address Runtime Types Reward Vesting MinerFunds Sectors Expirations Partition DeadlineAssign SectorMaps DeadlineState.

(** ** [types.rs] *)

Record WorkerKeyChange := { new_worker : Address; effective_at : Z }.

Record SectorPreCommitInfo := {
  pc_seal_proof : RegisteredSealProof; pc_sector_number : Z; pc_sealed_cid : bytes; seal_rand_epoch : Z;
  pc_deal_ids : list Z; pc_expiration : Z; replace_capacity : bool; replace_sector_deadline : Z;
  replace_sector_partition : Z; replace_sector_number : Z }.

Record SectorPreCommitOnChainInfo := {
  pc_info : SectorPreCommitInfo; pre_commit_deposit : Z; pre_commit_epoch : Z; pc_deal_weight : Z;
  pc_verified_deal_weight : Z }.

(** ** [MinerInfo] *)

Record MinerInfo := {
  mi_owner : Address; mi_worker : Address; mi_control_addresses : list Address;
  mi_pending_worker_key : option WorkerKeyChange; mi_peer_id : bytes; mi_multi_address : list bytes;
  mi_window_post_proof_type : RegisteredPoStProof; mi_sector_size : SectorSize;
  mi_window_post_partition_sectors : Z; mi_consensus_fault_elapsed : Z;
  mi_pending_owner_address : option Address }.

(** The error of the proof type becomes [ErrIllegalArgument]. *)
Definition or_illegal {E A} (r : result E A) : result ExitCode A :=
  match r with Ok a => Ok a | Err _ => Err ErrIllegalArgument end.

Definition miner_info_new (owner worker : Address) (control_addresses : list Address) (peer_id : bytes)
    (multi_address : list bytes) (window_post_proof_type : RegisteredPoStProof) : result ExitCode MinerInfo :=
  sector_size ← or_illegal (post_sector_size window_post_proof_type);
  window_post_partition_sectors ← or_illegal (post_window_partitions_sector window_post_proof_type);
  mret {| mi_owner := owner; mi_worker := worker; mi_control_addresses := control_addresses;
          mi_pending_worker_key := None; mi_peer_id := peer_id; mi_multi_address := multi_address;
          mi_window_post_proof_type := window_post_proof_type; mi_sector_size := sector_size;
          mi_window_post_partition_sectors := window_post_partition_sectors;
          mi_consensus_fault_elapsed := EPOCH_UNDEFINED; mi_pending_owner_address := None |}.

(** ** [State] *)

Record MinerState := {
  ms_info : MinerInfo; ms_funds : MinerFunds;
  ms_pre_committed_sectors : gmap Z SectorPreCommitOnChainInfo; ms_pre_committed_sectors_cleanup : BitFieldQueue;
  ms_allocated_sectors : gset Z; ms_sectors : Sectors; ms_proving_period_start : Z; ms_current_deadline : Z;
  ms_deadlines : Deadlines; ms_early_terminations : gset Z; ms_deadline_cron_active : bool }.

(** Assignments to the fields. *)
Definition set_info (st : MinerState) (info : MinerInfo) : MinerState :=
  {| ms_info := info; ms_funds := ms_funds st; ms_pre_committed_sectors := ms_pre_committed_sectors st;
     ms_pre_committed_sectors_cleanup := ms_pre_committed_sectors_cleanup st;
     ms_allocated_sectors := ms_allocated_sectors st; ms_sectors := ms_sectors st;
     ms_proving_period_start := ms_proving_period_start st; ms_current_deadline := ms_current_deadline st;
     ms_deadlines := ms_deadlines st; ms_early_terminations := ms_early_terminations st;
     ms_deadline_cron_active := ms_deadline_cron_active st |}.
Definition set_funds (st : MinerState) (f : MinerFunds) : MinerState :=
  {| ms_info := ms_info st; ms_funds := f; ms_pre_committed_sectors := ms_pre_committed_sectors st;
     ms_pre_committed_sectors_cleanup := ms_pre_committed_sectors_cleanup st;
     ms_allocated_sectors := ms_allocated_sectors st; ms_sectors := ms_sectors st;
     ms_proving_period_start := ms_proving_period_start st; ms_current_deadline := ms_current_deadline st;
     ms_deadlines := ms_deadlines st; ms_early_terminations := ms_early_terminations st;
     ms_deadline_cron_active := ms_deadline_cron_active st |}.
Definition set_precommits (st : MinerState) (pcs : gmap Z SectorPreCommitOnChainInfo) (q : BitFieldQueue) (allocated : gset Z) : MinerState :=
  {| ms_info := ms_info st; ms_funds := ms_funds st; ms_pre_committed_sectors := pcs;
     ms_pre_committed_sectors_cleanup := q; ms_allocated_sectors := allocated; ms_sectors := ms_sectors st;
     ms_proving_period_start := ms_proving_period_start st; ms_current_deadline := ms_current_deadline st;
     ms_deadlines := ms_deadlines st; ms_early_terminations := ms_early_terminations st;
     ms_deadline_cron_active := ms_deadline_cron_active st |}.
Definition set_sectors (st : MinerState) (sectors : Sectors) (ds : Deadlines) (et : gset Z) : MinerState :=
  {| ms_info := ms_info st; ms_funds := ms_funds st; ms_pre_committed_sectors := ms_pre_committed_sectors st;
     ms_pre_committed_sectors_cleanup := ms_pre_committed_sectors_cleanup st;
     ms_allocated_sectors := ms_allocated_sectors st; ms_sectors := sectors;
     ms_proving_period_start := ms_proving_period_start st; ms_current_deadline := ms_current_deadline st;
     ms_deadlines := ds; ms_early_terminations := et;
     ms_deadline_cron_active := ms_deadline_cron_active st |}.
Definition set_period (st : MinerState) (start deadline : Z) (active : bool) : MinerState :=
  {| ms_info := ms_info st; ms_funds := ms_funds st; ms_pre_committed_sectors := ms_pre_committed_sectors st;
     ms_pre_committed_sectors_cleanup := ms_pre_committed_sectors_cleanup st;
     ms_allocated_sectors := ms_allocated_sectors st; ms_sectors := ms_sectors st;
     ms_proving_period_start := start; ms_current_deadline := deadline;
     ms_deadlines := ms_deadlines st; ms_early_terminations := ms_early_terminations st;
     ms_deadline_cron_active := active |}.

(** [save_deadlines] *)
Definition save_deadlines (st : MinerState) (ds : Deadlines) : MinerState :=
  set_sectors st (ms_sectors st) ds (ms_early_terminations st).

Definition miner_state_new (info : MinerInfo) (period_start deadline_idx : Z) : MinerState :=
  {| ms_info := info;
     ms_funds := {| pre_commit_deposits := 0; locked_funds := 0; vesting_funds := []; fee_debt := 0; initial_pledge := 0 |};
     ms_pre_committed_sectors := ∅; ms_pre_committed_sectors_cleanup := ∅; ms_allocated_sectors := ∅; ms_sectors := ∅;
     ms_proving_period_start := period_start; ms_current_deadline := deadline_idx; ms_deadlines := deadlines_new;
     ms_early_terminations := ∅; ms_deadline_cron_active := false |}.

(** *** Deadline infos *)

Definition deadline_info (st : MinerState) (current_epoch : Z) : DeadlineInfo :=
  new_deadline_info_from_offset_and_epoch (ms_proving_period_start st) current_epoch.
Definition recorded_deadline_info (st : MinerState) (current_epoch : Z) : DeadlineInfo :=
  new_deadline_info (ms_proving_period_start st) (ms_current_deadline st) current_epoch.
Definition ms_current_proving_period_start (st : MinerState) (current_epoch : Z) : Z :=
  d_period_start (deadline_info st current_epoch).
Definition ms_quant_spec_for_deadline (st : MinerState) (deadline_idx : Z) : QuantSpec :=
  deadline_quant_spec (new_deadline_info (ms_proving_period_start st) deadline_idx 0).
Definition quant_spec_every_deadline (st : MinerState) : QuantSpec :=
  {| q_unit := WPOST_CHALLENGE_WINDOW; q_offset := ms_proving_period_start st |}.

(** *** Sector numbers and pre-commitments *)

Inductive CollisionPolicy := AllowCollisions | DenyCollisions.

Definition allocate_sector_numbers (st : MinerState) (sector_numbers : gset Z) (policy : CollisionPolicy) : result ExitCode MinerState :=
  let prior_allocation := ms_allocated_sectors st in
  _ ← throw_if (match policy with
                | AllowCollisions => false
                | DenyCollisions => negb (bool_decide (prior_allocation ∩ sector_numbers = ∅))
                end) ErrIllegalArgument;
  mret (set_precommits st (ms_pre_committed_sectors st) (ms_pre_committed_sectors_cleanup st) (prior_allocation ∪ sector_numbers)).

Definition put_precommitted_sectors (st : MinerState) (precommits : list SectorPreCommitOnChainInfo) : result BoxErr MinerState :=
  precommitted ← try_fold (λ (m : gmap Z SectorPreCommitOnChainInfo) precommit,
    let sector_no := pc_sector_number (pc_info precommit) in
    _ ← throw_if (bool_decide (is_Some (m !! sector_no))) Plain;
    mret (<[sector_no := precommit]> m)) (ms_pre_committed_sectors st) precommits;
  mret (set_precommits st precommitted (ms_pre_committed_sectors_cleanup st) (ms_allocated_sectors st)).

Definition get_precommitted_sector (st : MinerState) (sector_num : Z) : option SectorPreCommitOnChainInfo :=
  ms_pre_committed_sectors st !! sector_num.

Definition find_precommitted_sectors (st : MinerState) (sector_numbers : list Z) : list SectorPreCommitOnChainInfo :=
  omap (λ n, ms_pre_committed_sectors st !! n) sector_numbers.

Definition get_all_precommitted_sectors (st : MinerState) (sector_nos : gset Z) : result BoxErr (list SectorPreCommitOnChainInfo) :=
  try_fold (λ precommits sector_no,
    _ ← throw_if (MAX_SECTOR_NUMBER <? sector_no) (Actor ErrIllegalArgument);
    info ← ok_or (ms_pre_committed_sectors st !! sector_no) (Actor ErrNotFound);
    mret (precommits ++ [info])) [] (bits sector_nos).

(** *** Sectors *)

Definition has_sector_number (st : MinerState) (sector_num : Z) : result BoxErr bool :=
  o ← amt_get (ms_sectors st) sector_num; mret (bool_decide (is_Some o)).
Definition put_sectors (st : MinerState) (new_sectors : list SectorOnChainInfo) : result BoxErr MinerState :=
  sectors ← sectors_store (ms_sectors st) new_sectors;
  mret (set_sectors st sectors (ms_deadlines st) (ms_early_terminations st)).
Definition get_sector (st : MinerState) (sector_num : Z) : result BoxErr (option SectorOnChainInfo) :=
  amt_get (ms_sectors st) sector_num.
Definition delete_sectors (st : MinerState) (sector_nos : gset Z) : result BoxErr MinerState :=
  sectors ← try_fold (λ m n, amt_del m n) (ms_sectors st) (bits sector_nos);
  mret (set_sectors st sectors (ms_deadlines st) (ms_early_terminations st)).
Definition ms_find_sector (st : MinerState) (sector_number : Z) : result BoxErr (Z * Z) :=
  find_sector (ms_deadlines st) sector_number.
Definition load_sector_infos (st : MinerState) (sectors : gset Z) : result BoxErr (list SectorOnChainInfo) :=
  load_sector (ms_sectors st) sectors.

Definition check_sector_health (st : MinerState) (deadline_idx partition_idx sector_number : Z) : result BoxErr unit :=
  d ← load_deadline (ms_deadlines st) deadline_idx;
  p ← load_partition d partition_idx;
  _ ← throw_if (negb (bool_decide (sector_number ∈ pt_sectors p))) (Actor ErrNotFound);
  _ ← throw_if (bool_decide (sector_number ∈ pt_faults p)) (Actor ErrForbidden);
  throw_if (bool_decide (sector_number ∈ pt_terminated p)) (Actor ErrNotFound).

(** *** Operations on the deadlines *)

Section miner_state.
(** The order of a hash map of epochs, and whether deleting an absent key from the
    HAMT returns or panics ([Runtime.map_delete]). *)
Context (hash_order : gset Z → list Z) (absent_ok : gmap Z SectorPreCommitOnChainInfo → Z → bool).

Definition delete_precommitted_sectors (st : MinerState) (sector_nums : list Z) : result BoxErr MinerState :=
  precommitted ← try_fold (λ (m : gmap Z SectorPreCommitOnChainInfo) n,
    match m !! n with
    | Some _ => mret (delete n m)
    | None => if absent_ok m n then mret m else Err Panicked
    end) (ms_pre_committed_sectors st) sector_nums;
  mret (set_precommits st precommitted (ms_pre_committed_sectors_cleanup st) (ms_allocated_sectors st)).

Definition reschedule_deadline (st : MinerState) (current_epoch sector_size : Z) (acc : Deadlines * list SectorOnChainInfo)
    (e : Z * PartitionSectorMap) : result BoxErr (Deadlines * list SectorOnChainInfo) :=
  let '(ds, all_replaced) := acc in
  let '(deadline_idx, partition_sectors) := e in
  dl_info ← ok_or (next_not_elapsed (new_deadline_info (ms_current_proving_period_start st current_epoch) deadline_idx current_epoch)) Panicked;
  d ← load_deadline ds deadline_idx;
  '(d, replaced) ← dl_reschedule_sector_expirations sector_size (deadline_quant_spec dl_info) hash_order d (ms_sectors st)
                     (deadline_last dl_info) partition_sectors;
  ds ← update_deadline ds deadline_idx d;
  mret (ds, all_replaced ++ replaced).
Definition ms_reschedule_sector_expirations (st : MinerState) (current_epoch sector_size : Z) (deadline_sectors : DeadlineSectorMap)
    : result BoxErr (MinerState * list SectorOnChainInfo) :=
  '(ds, all_replaced) ← try_fold (reschedule_deadline st current_epoch sector_size) (ms_deadlines st, []) (map_iter deadline_sectors);
  mret (save_deadlines st ds, all_replaced).

(** The deadlines that may be changed. *)
Definition mutable_deadlines (st : MinerState) (current_epoch : Z) : result BoxErr (list (option Deadline)) :=
  deadlines_for_each (λ (deadline_vec : list (option Deadline)) deadline_idx d,
    b ← ok_or (deadline_is_mutable (ms_current_proving_period_start st current_epoch) deadline_idx current_epoch) Panicked;
    if b : bool then
      _ ← ok_or (deadline_vec !! Z.to_nat deadline_idx) Panicked;
      mret (<[Z.to_nat deadline_idx := Some d]> deadline_vec)
    else mret deadline_vec) (replicate (Z.to_nat WPOST_PERIOD_DEADLINES) None) (ms_deadlines st).
Definition assign_error {A} (r : result AssignErr A) : result BoxErr A :=
  match r with Ok a => Ok a | Err LimitReached => Err Plain | Err _ => Err Panicked end.
Definition assign_to_deadline (st : MinerState) (partition_size sector_size : Z) (deadline_vec : list (option Deadline)) (ds : Deadlines)
    (e : Z * list SectorOnChainInfo) : result BoxErr Deadlines :=
  let '(deadline_idx, deadline_sectors) := e in
  match deadline_sectors with
  | [] => mret ds
  | _ =>
      d ← ok_or (mjoin (deadline_vec !! Z.to_nat deadline_idx)) Panicked;
      '(d, _) ← dl_add_sectors sector_size (ms_quant_spec_for_deadline st deadline_idx) d partition_size false deadline_sectors;
      update_deadline ds deadline_idx d
  end.
Definition assign_sectors_to_deadlines (st : MinerState) (current_epoch : Z) (sectors : list SectorOnChainInfo) (partition_size sector_size : Z)
    : result BoxErr MinerState :=
  let sectors := sort_by sector_number sectors in
  deadline_vec ← mutable_deadlines st current_epoch;
  deadline_to_sectors ← assign_error (assign_deadlines MAX_PARTITIONS_PER_DEADLINE partition_size
    (option_map (λ d, (dl_live_sectors d, dl_total_sectors d)) <$> deadline_vec) sectors);
  ds ← try_fold (assign_to_deadline st partition_size sector_size deadline_vec) (ms_deadlines st)
         (zip (seqZ 0 (Z.of_nat (length deadline_to_sectors))) deadline_to_sectors);
  mret (save_deadlines st ds).

(** The loop over the deadlines with early terminations. *)
Fixpoint ms_pop_early_loop (max_partitions max_sectors : Z) (l : list Z) (acc : Deadlines * (list Z * TerminationResult))
    : result BoxErr (Deadlines * (list Z * TerminationResult)) :=
  match l with
  | [] => mret acc
  | deadline_idx :: l =>
      let '(ds, (to_unset, r)) := acc in
      d ← load_deadline ds deadline_idx;
      '(d, dr) ← dl_pop_early_terminations d (wrap_u64 (max_partitions - partitions_processed r)) (wrap_u64 (max_sectors - sectors_processed r));
      let '(deadline_result, more) := (dr : TerminationResult * bool) in
      let r := tr_add r deadline_result in
      let to_unset := if more then to_unset else to_unset ++ [deadline_idx] in
      ds ← update_deadline ds deadline_idx d;
      if below_limit r max_partitions max_sectors then ms_pop_early_loop max_partitions max_sectors l (ds, (to_unset, r))
      else mret (ds, (to_unset, r))
  end.
Definition ms_pop_early_terminations (st : MinerState) (max_partitions max_sectors : Z) : result BoxErr (MinerState * (TerminationResult * bool)) :=
  if bool_decide (ms_early_terminations st = ∅) then mret (st, (tr_new, false))
  else
    '(ds, r) ← ms_pop_early_loop max_partitions max_sectors (bits (ms_early_terminations st)) (ms_deadlines st, ([], tr_new));
    let '(to_unset, r) := (r : list Z * TerminationResult) in
    let et := ms_early_terminations st ∖ bits_of to_unset in
    mret (set_sectors st (ms_sectors st) ds et, (r, negb (bool_decide (et = ∅)))).

(** *** Clean-up of pre-commitments *)

(** The events as pairs of an epoch and its sectors, in the order of the epochs. *)
Definition add_pre_commit_clean_ups (st : MinerState) (cleanup_events : gmap Z (list Z)) : result BoxErr MinerState :=
  q ← try_fold (λ q e, bfq_add_to_queue_values (quant_spec_every_deadline st) q e.1 e.2) (ms_pre_committed_sectors_cleanup st)
        (map_iter cleanup_events);
  mret (set_precommits st (ms_pre_committed_sectors st) q (ms_allocated_sectors st)).

Definition cleanup_expired_pre_commits (st : MinerState) (current_epoch : Z) : result BoxErr (MinerState * Z) :=
  '(q, popped) ← bfq_pop_until (ms_pre_committed_sectors_cleanup st) current_epoch;
  let '(sectors, modified) := (popped : gset Z * bool) in
  let st := if modified then set_precommits st (ms_pre_committed_sectors st) q (ms_allocated_sectors st) else st in
  let expired := omap (λ n, (λ pc, (n, pc)) <$> get_precommitted_sector st n) (bits sectors) in
  let deposit_to_burn := zsum ((λ e, pre_commit_deposit e.2) <$> expired) in
  st ← (match expired with [] => mret st | _ => delete_precommitted_sectors st expired.*1 end);
  let f := ms_funds st in
  let deposits := pre_commit_deposits f - deposit_to_burn in
  _ ← throw_if (deposits <? 0) Plain;
  mret (set_funds st {| pre_commit_deposits := deposits; locked_funds := locked_funds f; vesting_funds := vesting_funds f;
                        fee_debt := fee_debt f; initial_pledge := initial_pledge f |}, deposit_to_burn).

(** *** The end of a deadline *)

Record AdvanceDeadlineResult := {
  pledge_delta : Z; ad_power_delta : PowerPair; previously_faulty_power : PowerPair; detected_faulty_power : PowerPair;
  total_faulty_power : PowerPair }.

Definition advance_deadline (st : MinerState) (current_epoch : Z) : result BoxErr (MinerState * AdvanceDeadlineResult) :=
  let dl_info := deadline_info st current_epoch in
  if negb (period_started dl_info) then
    mret (st, {| pledge_delta := 0; ad_power_delta := pp_zero; previously_faulty_power := pp_zero;
                 detected_faulty_power := pp_zero; total_faulty_power := pp_zero |})
  else
    let current_deadline := (d_index dl_info + 1) mod WPOST_PERIOD_DEADLINES in
    let start := if current_deadline =? 0 then d_period_start dl_info + WPOST_PROVING_PERIOD else ms_proving_period_start st in
    let st := set_period st start current_deadline (ms_deadline_cron_active st) in
    d ← load_deadline (ms_deadlines st) (d_index dl_info);
    let previously := dl_faulty_power d in
    if negb (is_live d) then
      mret (st, {| pledge_delta := 0; ad_power_delta := pp_zero; previously_faulty_power := previously;
                   detected_faulty_power := pp_zero; total_faulty_power := dl_faulty_power d |})
    else
      let quant := quant_spec_for_deadline dl_info in
      let fault_expiration := deadline_last dl_info + FAULT_MAX_AGE in
      '(d, r) ← process_deadline_end quant d fault_expiration;
      let '(power_delta, detected) := (r : PowerPair * PowerPair) in
      let total := dl_faulty_power d in
      '(d, expired) ← dl_pop_expired_sectors d (deadline_last dl_info);
      f ← add_initial_pledge (ms_funds st) (- on_time_pledge expired);
      let st := set_funds st f in
      let power_delta := (power_delta - active_power expired)%pw in
      let et := if bool_decide (early_sectors expired = ∅) then ms_early_terminations st
                else {[d_index dl_info]} ∪ ms_early_terminations st in
      ds ← update_deadline (ms_deadlines st) (d_index dl_info) d;
      mret (set_sectors st (ms_sectors st) ds et,
            {| pledge_delta := - on_time_pledge expired; ad_power_delta := power_delta; previously_faulty_power := previously;
               detected_faulty_power := detected; total_faulty_power := total |}).

End miner_state.
