(* ===== verification/MinerActor.v ===== *)
(** * The miner actor: identity, funds and cron

    [src/vm/actor/src/builtin/miner/mod.rs] without the methods that handle
    sectors: the requests to other actors, the constructor and the changes of
    owner, worker and peer information, rewards, penalties, withdrawal, early
    terminations and the end of a proving deadline. *)

From S2P Require Import Prelude Address Runtime Types Smooth Reward SimpleActors Power Market.
From S2P Require Import Vesting MinerFunds Sectors Expirations Partition DeadlineAssign SectorMaps DeadlineState MinerState.

(** ** [types.rs] *)

Record ChangeWorkerAddressParams := { cw_new_worker : Address; cw_new_control_addresses : list Address }.
Record ChangePeerIDParams := { new_id : bytes }.
Record ChangeMultiaddrsParams := { new_multi_addrs : list bytes }.
Record ReportConsensusFaultParams := { header1 : bytes; header2 : bytes; header_extra : bytes }.
Record MinerWithdrawBalanceParams := { mw_amount_requested : Z }.
Record MinerWithdrawBalanceReturn := { mw_amount_withdrawn : Z }.
Record CronEventPayload := { event_type : Z }.
Definition CRON_EVENT_PROVING_DEADLINE : Z := 1.
Definition CRON_EVENT_PROCESS_EARLY_TERMINATIONS : Z := 2.

(** What the system calls take and return ([types/src/sector/], [runtime]). *)
Record SectorInfo := { sc_proof : RegisteredSealProof; sc_sector_number : Z; sc_sealed_cid : bytes }.
Record WindowPoStVerifyInfo := {
  wv_randomness : bytes; wv_proofs : list PoStProof; wv_challenged_sectors : list SectorInfo; wv_prover : Z }.
Record ConsensusFault := { cf_target : Address; cf_epoch : Z }.

(** Domain separation tags. *)
Definition WindowedPoStChallengeSeed : Z := 4.
Definition SealRandomness : Z := 5.
Definition InteractiveSealChallengeSeed : Z := 6.
Definition PoStChainCommit : Z := 9.

(** ** Checks and computations *)

(** The addresses that control the miner. *)
Definition controllers (info : MinerInfo) : list Address := mi_control_addresses info ++ [mi_worker info; mi_owner info].
Definition sector_bytes (info : MinerInfo) : Z := sector_size_bytes (mi_sector_size info).

Definition check_control_addresses (control_addrs : list Address) : result ExitCode unit :=
  throw_if (MAX_CONTROL_ADDRESSES <? Z.of_nat (length control_addrs)) ErrIllegalArgument.
Definition check_valid_post_proof_type (proof_type : RegisteredPoStProof) : result ExitCode unit :=
  match proof_type with StackedDRGWindow32GiBV1 | StackedDRGWindow64GiBV1 => Ok tt | _ => Err ErrIllegalArgument end.
Definition check_peer_info (peer_id : bytes) (multiaddrs : list bytes) : result ExitCode unit :=
  _ ← throw_if (MAX_PEER_ID_LENGTH <? Z.of_nat (length peer_id)) ErrIllegalArgument;
  total_size ← try_fold (λ total_size ma,
    _ ← throw_if (match ma with [] => true | _ => false end) ErrIllegalArgument;
    mret (total_size + Z.of_nat (length (ma : bytes)))) 0 multiaddrs;
  throw_if (MAX_MULTIADDR_DATA <? total_size) ErrIllegalArgument.

(** The period of a miner starts at an offset that is taken from a digest. *)
Definition proving_period_offset (digest : bytes) : Z := un_be_u64 (take 8 digest) mod WPOST_PROVING_PERIOD.
Definition current_proving_period_start (current_epoch offset : Z) : Z :=
  let curr_modulus := Z.rem current_epoch WPOST_PROVING_PERIOD in
  let period_progress :=
    if offset <=? curr_modulus then curr_modulus - offset else WPOST_PROVING_PERIOD - (offset - curr_modulus) in
  current_epoch - period_progress.
Definition current_deadline_index (current_epoch period_start : Z) : Z :=
  as_usize (Z.quot (current_epoch - period_start) WPOST_CHALLENGE_WINDOW).

Definition declaration_deadline_info (period_start deadline_idx current_epoch : Z) : result ExitCode DeadlineInfo :=
  _ ← throw_if (WPOST_PERIOD_DEADLINES <=? deadline_idx) ErrIllegalArgument;
  ok_or (next_not_elapsed (new_deadline_info period_start deadline_idx current_epoch)) SysErrActorPanic.
Definition validate_fr_declaration_deadline (deadline : DeadlineInfo) : result ExitCode unit :=
  throw_if (fault_cutoff_passed deadline) ErrIllegalArgument.

Definition termination_penalty (sector_size current_epoch : Z) (reward_estimate network_qa_power_estimate : FilterEstimate)
    (sectors : list SectorOnChainInfo) : Z :=
  zsum ((λ s, pledge_penalty_for_termination (expected_day_reward s) (current_epoch - activation s) (expected_storage_pledge s)
           network_qa_power_estimate (qa_power_for_sector sector_size s) reward_estimate (replaced_day_reward s)
           (replaced_sector_age s)) <$> sectors).

Definition consensus_fault_active (info : MinerInfo) (curr_epoch : Z) : bool := curr_epoch <=? mi_consensus_fault_elapsed info.
Definition have_pending_early_terminations (st : MinerState) : bool := negb (bool_decide (ms_early_terminations st = ∅)).

(** Assignments to the info. *)
Definition set_worker (i : MinerInfo) (worker : Address) (controls : list Address) (pending : option WorkerKeyChange) : MinerInfo :=
  {| mi_owner := mi_owner i; mi_worker := worker; mi_control_addresses := controls; mi_pending_worker_key := pending;
     mi_peer_id := mi_peer_id i; mi_multi_address := mi_multi_address i;
     mi_window_post_proof_type := mi_window_post_proof_type i; mi_sector_size := mi_sector_size i;
     mi_window_post_partition_sectors := mi_window_post_partition_sectors i;
     mi_consensus_fault_elapsed := mi_consensus_fault_elapsed i; mi_pending_owner_address := mi_pending_owner_address i |}.
Definition set_owner (i : MinerInfo) (owner : Address) (pending : option Address) : MinerInfo :=
  {| mi_owner := owner; mi_worker := mi_worker i; mi_control_addresses := mi_control_addresses i;
     mi_pending_worker_key := mi_pending_worker_key i; mi_peer_id := mi_peer_id i; mi_multi_address := mi_multi_address i;
     mi_window_post_proof_type := mi_window_post_proof_type i; mi_sector_size := mi_sector_size i;
     mi_window_post_partition_sectors := mi_window_post_partition_sectors i;
     mi_consensus_fault_elapsed := mi_consensus_fault_elapsed i; mi_pending_owner_address := pending |}.
Definition set_peer (i : MinerInfo) (peer_id : bytes) (multi_address : list bytes) (elapsed : Z) : MinerInfo :=
  {| mi_owner := mi_owner i; mi_worker := mi_worker i; mi_control_addresses := mi_control_addresses i;
     mi_pending_worker_key := mi_pending_worker_key i; mi_peer_id := peer_id; mi_multi_address := multi_address;
     mi_window_post_proof_type := mi_window_post_proof_type i; mi_sector_size := mi_sector_size i;
     mi_window_post_partition_sectors := mi_window_post_partition_sectors i;
     mi_consensus_fault_elapsed := elapsed; mi_pending_owner_address := mi_pending_owner_address i |}.

Definition process_pending_worker (st : MinerState) (curr_epoch : Z) : MinerState :=
  let info := ms_info st in
  match mi_pending_worker_key info with
  | None => st
  | Some k =>
      if curr_epoch <? effective_at k then st
      else set_info st (set_worker info (new_worker k) (mi_control_addresses info) None)
  end.

(** What the transactions of [change_worker_address] and [change_owner_address] do
    to the info. *)
Definition request_worker (info : MinerInfo) (worker : Address) (controls : list Address) (curr_epoch : Z) : MinerInfo :=
  set_worker info (mi_worker info) controls
    (if negb (bool_decide (worker = mi_worker info)) &&
        match mi_pending_worker_key info with None => true | Some _ => false end
     then Some {| new_worker := worker; effective_at := curr_epoch + WORKER_KEY_CHANGE_DELAY |}
     else mi_pending_worker_key info).
Definition clear_noop (info : MinerInfo) : MinerInfo :=
  if bool_decide (mi_pending_owner_address info = Some (mi_owner info)) then set_owner info (mi_owner info) None else info.

(** ** Parts of the methods that only change the state *)

Definition box {U A} (code : ExitCode) (r : result BoxErr A) : Prog U A := of_code (downcast_default r code).

(** [process_early_terminations]: the fee, the pledge and the deals of the popped
    sectors, group by group. *)
Definition terminated_group (sector_size : Z) (sectors : Sectors) (reward_smoothed quality_adj_power_smoothed : FilterEstimate)
    (acc : Z * Z * list OnMinerSectorsTerminateParams) (e : Z * gset Z) : result BoxErr (Z * Z * list OnMinerSectorsTerminateParams) :=
  let '(total_initial_pledge, penalty, deals_to_terminate) := acc in
  let '(epoch, sector_numbers) := e in
  infos ← load_sector sectors sector_numbers;
  mret (total_initial_pledge + zsum (si_initial_pledge <$> infos),
        penalty + termination_penalty sector_size epoch reward_smoothed quality_adj_power_smoothed infos,
        deals_to_terminate ++ [{| mt_epoch := epoch; mt_deal_ids := infos ≫= deal_ids |}]).
(** The transaction of [process_early_terminations]: whether it did anything, whether
    more is to do, the deals to terminate, the penalty to burn and the change of pledge. *)
Definition terminations_tx (st : MinerState) (curr_epoch balance : Z) (reward_smoothed quality_adj_power_smoothed : FilterEstimate)
    : result ExitCode (MinerState * (bool * bool * list OnMinerSectorsTerminateParams * Z * Z)) :=
  '(st, r) ← downcast_default (ms_pop_early_terminations st ADDRESSED_PARTITIONS_MAX ADDRESSED_SECTORS_MAX) ErrIllegalState;
  let '(result, more) := (r : TerminationResult * bool) in
  if tr_is_empty result then mret (st, (true, more, [], 0, 0))
  else
    acc ← downcast_default (try_fold (terminated_group (sector_bytes (ms_info st)) (ms_sectors st) reward_smoothed quality_adj_power_smoothed)
            (0, 0, []) (tr_iter result)) ErrIllegalState;
    let '(total_initial_pledge, penalty, deals_to_terminate) := (acc : Z * Z * list OnMinerSectorsTerminateParams) in
    f ← downcast_default (apply_penalty (ms_funds st) penalty) ErrIllegalState;
    f ← downcast_default (add_initial_pledge f (- total_initial_pledge)) ErrIllegalState;
    '(f, paid) ← downcast_default (repay_partial_debt_in_priority_order f curr_epoch balance) ErrIllegalState;
    let '(penalty_from_vesting, penalty_from_balance) := (paid : Z * Z) in
    mret (set_funds st f, (false, more, deals_to_terminate, penalty_from_vesting + penalty_from_balance,
                           - total_initial_pledge - penalty_from_vesting)).

Record DeadlineOutcome := {
  do_had_early : bool; do_power_delta : PowerPair; do_penalty : Z; do_pledge_delta : Z; do_continue : bool }.

(** The transaction of [handle_proving_deadline]. *)
Definition deadline_tx (absent_ok : gmap Z SectorPreCommitOnChainInfo → Z → bool) (st : MinerState) (curr_epoch balance : Z)
    (reward_smoothed quality_adj_power_smoothed : FilterEstimate) : result ExitCode (MinerState * DeadlineOutcome) :=
  '(f, newly_vested) ← downcast_default (unlock_vested_funds (ms_funds st) curr_epoch) ErrIllegalState;
  let st := process_pending_worker (set_funds st f) curr_epoch in
  '(st, deposit_to_burn) ← downcast_default (cleanup_expired_pre_commits absent_ok st curr_epoch) ErrIllegalState;
  f ← downcast_default (apply_penalty (ms_funds st) deposit_to_burn) ErrIllegalState;
  let st := set_funds st f in
  let had_early_terminations := have_pending_early_terminations st in
  '(st, result) ← downcast_default (advance_deadline st curr_epoch) ErrIllegalState;
  let penalty_target := pledge_penalty_for_continued_fault reward_smoothed quality_adj_power_smoothed (qa (previously_faulty_power result)) in
  f ← downcast_default (apply_penalty (ms_funds st) penalty_target) ErrIllegalState;
  '(f, paid) ← downcast_default (repay_partial_debt_in_priority_order f curr_epoch balance) ErrIllegalState;
  let '(penalty_from_vesting, penalty_from_balance) := (paid : Z * Z) in
  let continue_cron := continue_deadline_cron f in
  let st := set_funds st f in
  let st := set_period st (ms_proving_period_start st) (ms_current_deadline st) (if continue_cron then ms_deadline_cron_active st else false) in
  mret (st, {| do_had_early := had_early_terminations; do_power_delta := ad_power_delta result;
               do_penalty := penalty_from_vesting + penalty_from_balance;
               do_pledge_delta := - newly_vested + pledge_delta result - penalty_from_vesting;
               do_continue := continue_cron |}).

(** ** The methods *)

Section miner.
Context {U : Type} `{!StateIn MinerState U}.
Context `{!Enc Address, !Dec Address, !Enc Z, !Enc CronEventPayload, !Dec CronEventPayload, !Enc EnrollCronEventParams}.
Context `{!Enc UpdateClaimedPowerParams, !Enc OnMinerSectorsTerminateParams, !Enc WindowPoStVerifyInfo}.
Context `{!Dec ThisEpochRewardReturn, !Dec CurrentTotalPowerReturn, !Dec (option ConsensusFault)}.
Context (absent_ok : gmap Z SectorPreCommitOnChainInfo → Z → bool) (rt : Ctx).

(** *** Requests to other actors *)

Definition miner_enroll_cron_event (event_epoch : Z) (cb : CronEventPayload) : Prog U unit :=
  _ ← send_ STORAGE_POWER_ACTOR_ADDR 4 (enc {| Power.event_epoch := event_epoch; ee_payload := enc cb |}) 0;
  mret tt.

Definition request_update_power (delta : PowerPair) : Prog U unit :=
  if pp_is_zero delta then mret tt
  else _ ← send_ STORAGE_POWER_ACTOR_ADDR 3 (enc {| raw_byte_delta := raw delta; quality_adjusted_delta := qa delta |}) 0; mret tt.

Definition TERMINATE_MAX_LENGTH : nat := Z.to_nat 8192.
(** [deal_ids.chunks(MAX_LENGTH)]; the fuel is the number of ids. *)
Fixpoint terminate_chunks (fuel : nat) (epoch : Z) (deal_ids : list Z) : Prog U unit :=
  match deal_ids, fuel with
  | [], _ | _, O => mret tt
  | _, S fuel =>
      _ ← send_ STORAGE_MARKET_ACTOR_ADDR 7 (enc {| mt_epoch := epoch; mt_deal_ids := take TERMINATE_MAX_LENGTH deal_ids |}) 0;
      terminate_chunks fuel epoch (drop TERMINATE_MAX_LENGTH deal_ids)
  end.
Definition request_terminate_deals (epoch : Z) (deal_ids : list Z) : Prog U unit := terminate_chunks (length deal_ids) epoch deal_ids.

Definition schedule_early_termination_work : Prog U unit :=
  miner_enroll_cron_event (curr_epoch rt + 1) {| event_type := CRON_EVENT_PROCESS_EARLY_TERMINATIONS |}.

Definition request_current_epoch_block_reward : Prog U ThisEpochRewardReturn :=
  ret ← send_ REWARD_ACTOR_ADDR 3 [] 0; unwrap_or_abort (dec ret) ErrSerialization.
Definition request_current_total_power : Prog U CurrentTotalPowerReturn :=
  ret ← send_ STORAGE_POWER_ACTOR_ADDR 9 [] 0; unwrap_or_abort (dec ret) ErrSerialization.

Definition burn_funds (amount : Z) : Prog U unit :=
  if 0 <? amount then _ ← send_ BURNT_FUNDS_ACTOR_ADDR METHOD_SEND [] amount; mret tt else mret tt.
Definition notify_pledge_changed (pledge_delta : Z) : Prog U unit :=
  if pledge_delta =? 0 then mret tt else _ ← send_ STORAGE_POWER_ACTOR_ADDR 6 (enc pledge_delta) 0; mret tt.

Definition resolve_control_address (raw_addr : Address) : Prog U Address :=
  o ← resolve_address raw_addr;
  resolved ← unwrap_or_abort o ErrIllegalArgument;
  c ← get_actor_code_cid resolved;
  owner_code ← unwrap_or_abort c ErrIllegalArgument;
  _ ← abort_if (negb (is_principal owner_code)) ErrIllegalArgument;
  mret resolved.
Fixpoint resolve_control_addresses (l : list Address) : Prog U (list Address) :=
  match l with
  | [] => mret []
  | a :: l => a ← resolve_control_address a; l ← resolve_control_addresses l; mret (a :: l)
  end.
Definition resolve_worker_address (raw_addr : Address) : Prog U Address :=
  o ← resolve_address raw_addr;
  resolved ← unwrap_or_abort o ErrIllegalArgument;
  c ← get_actor_code_cid resolved;
  worker_code ← unwrap_or_abort c ErrIllegalArgument;
  _ ← abort_if (negb (bool_decide (worker_code = ACCOUNT_ACTOR_CODE_ID))) ErrIllegalArgument;
  if bool_decide (protocol raw_addr = ProtocolBLS) then mret resolved
  else
    ret ← send_ resolved 2 [] 0;
    pub_key ← unwrap_or_abort (dec ret : option Address) ErrSerialization;
    _ ← abort_if (negb (bool_decide (protocol pub_key = ProtocolBLS))) ErrIllegalArgument;
    mret resolved.

(** [check_balance_invariants] on a state at the end of a method. *)
Definition check_invariants (st : MinerState) : Prog U unit :=
  b ← current_balance; box ErrPlaceholder (check_balance_invariants (ms_funds st) b).
Definition check_state : Prog U unit := st ← get_state; check_invariants st.

(** *** Identity *)

Definition miner_constructor (params : MinerConstructorParams) : Prog U unit :=
  _ ← validate_immediate_caller_is [INIT_ACTOR_ADDR];
  _ ← of_code (check_control_addresses (mc_control_addresses params));
  _ ← of_code (check_peer_info (mc_peer_id params) (mc_multi_addresses params));
  _ ← of_code (check_valid_post_proof_type (mc_window_post_proof_type params));
  owner ← resolve_control_address (mc_owner params);
  worker ← resolve_worker_address (mc_worker params);
  control_addresses ← resolve_control_addresses (mc_control_addresses params);
  let current_epoch := curr_epoch rt in
  digest ← syscall (HashBlake2b (enc (receiver rt) ++ be_u64 current_epoch));
  digest ← unwrap_or_abort digest ErrSerialization;
  let period_start := current_proving_period_start current_epoch (proving_period_offset digest) in
  _ ← abort_if (current_epoch <? period_start) ErrIllegalState;
  let deadline_idx := current_deadline_index current_epoch period_start in
  _ ← abort_if (WPOST_PERIOD_DEADLINES <=? deadline_idx) ErrIllegalState;
  info ← of_code (miner_info_new owner worker control_addresses (mc_peer_id params) (mc_multi_addresses params)
                    (mc_window_post_proof_type params));
  create (miner_state_new info period_start deadline_idx).

Definition control_addresses : Prog U GetControlAddressesReturn :=
  _ ← validate_immediate_caller_accept_any;
  st ← get_state;
  let info := ms_info st in
  mret {| ca_owner := mi_owner info; ca_worker := mi_worker info; ca_control_addresses := mi_control_addresses info |}.

Definition change_worker_address (params : ChangeWorkerAddressParams) : Prog U unit :=
  _ ← of_code (check_control_addresses (cw_new_control_addresses params));
  worker ← resolve_worker_address (cw_new_worker params);
  controls ← resolve_control_addresses (cw_new_control_addresses params);
  transaction (λ st : MinerState,
    let info := ms_info st in
    _ ← validate_immediate_caller_is [mi_owner info];
    mret (set_info st (request_worker info worker controls (curr_epoch rt)), tt)).

Definition confirm_update_worker_key : Prog U unit :=
  transaction (λ st : MinerState,
    _ ← validate_immediate_caller_is [mi_owner (ms_info st)];
    mret (process_pending_worker st (curr_epoch rt), tt)).

Definition change_owner_address (new_address : Address) : Prog U unit :=
  _ ← abort_if (negb (bool_decide (protocol new_address = ProtocolID))) ErrIllegalArgument;
  transaction (λ st : MinerState,
    let info := ms_info st in
    info ← (match mi_pending_owner_address info with
            | Some pending_address =>
                if bool_decide (caller rt = mi_owner info) then
                  _ ← validate_immediate_caller_is [mi_owner info];
                  mret (set_owner info (mi_owner info) (Some new_address))
                else
                  _ ← validate_immediate_caller_is [pending_address];
                  _ ← abort_if (negb (bool_decide (new_address = pending_address))) ErrIllegalArgument;
                  mret (set_owner info pending_address (Some pending_address))
            | None =>
                _ ← validate_immediate_caller_is [mi_owner info];
                mret (set_owner info (mi_owner info) (Some new_address))
            end);
    mret (set_info st (clear_noop info), tt)).

Definition change_peer_id (params : ChangePeerIDParams) : Prog U unit :=
  _ ← of_code (check_peer_info (new_id params) []);
  transaction (λ st : MinerState,
    let info := ms_info st in
    _ ← validate_immediate_caller_is (controllers info);
    mret (set_info st (set_peer info (new_id params) (mi_multi_address info) (mi_consensus_fault_elapsed info)), tt)).

Definition change_multiaddresses (params : ChangeMultiaddrsParams) : Prog U unit :=
  _ ← of_code (check_peer_info [] (new_multi_addrs params));
  transaction (λ st : MinerState,
    let info := ms_info st in
    _ ← validate_immediate_caller_is (controllers info);
    mret (set_info st (set_peer info (mi_peer_id info) (new_multi_addrs params) (mi_consensus_fault_elapsed info)), tt)).

(** *** Funds *)

(** [repay_debts_or_abort] *)
Definition repay_debts_or_abort (st : MinerState) : Prog U (MinerState * Z) :=
  b ← current_balance;
  '(f, res) ← box ErrIllegalState (repay_debts (ms_funds st) b);
  mret (set_funds st f, res).

Definition apply_rewards (params : ApplyRewardParams) : Prog U unit :=
  _ ← abort_if (ar_reward params <? 0) ErrIllegalArgument;
  _ ← abort_if (ar_penalty params <? 0) ErrIllegalArgument;
  '(pledge_delta_total, to_burn) ← transaction (λ st : MinerState,
    _ ← validate_immediate_caller_is [REWARD_ACTOR_ADDR];
    let '(reward_to_lock, locked_reward_vesting_spec) := locked_reward_from_reward (ar_reward params) in
    b ← current_balance;
    unlocked_balance ← box ErrIllegalState (get_unlocked_balance (ms_funds st) b);
    _ ← abort_if (unlocked_balance <? reward_to_lock) ErrInsufficientFunds;
    '(f, newly_vested) ← box ErrIllegalState (add_locked_funds (ms_funds st) (ms_proving_period_start st) (curr_epoch rt)
                                                 reward_to_lock locked_reward_vesting_spec);
    f ← box ErrIllegalState (apply_penalty f (ar_penalty params));
    '(f, paid) ← box ErrIllegalState (repay_partial_debt_in_priority_order f (curr_epoch rt) b);
    let '(penalty_from_vesting, penalty_from_balance) := (paid : Z * Z) in
    mret (set_funds st f, (- newly_vested + reward_to_lock - penalty_from_vesting, penalty_from_vesting + penalty_from_balance)));
  _ ← notify_pledge_changed pledge_delta_total;
  _ ← burn_funds to_burn;
  check_state.

Definition report_consensus_fault (params : ReportConsensusFaultParams) : Prog U unit :=
  _ ← validate_immediate_caller_type CALLER_TYPES_SIGNABLE;
  let reporter := caller rt in
  answer ← syscall (VerifyConsensusFault (header1 params) (header2 params) (header_extra params));
  fault ← unwrap_or_abort (answer ≫= dec) ErrIllegalArgument;
  fault ← unwrap_or_abort (fault : option ConsensusFault) ErrIllegalArgument;
  _ ← abort_if (negb (bool_decide (cf_target fault = receiver rt))) ErrIllegalArgument;
  let fault_age := curr_epoch rt - cf_epoch fault in
  _ ← abort_if (fault_age <=? 0) ErrIllegalArgument;
  reward_stats ← request_current_epoch_block_reward;
  let this_epoch_reward := estimate (er_smoothed reward_stats) in
  let fault_penalty := consensus_fault_penalty this_epoch_reward in
  let slasher_reward := reward_for_consensus_slash_report this_epoch_reward in
  '(burn_amount, reward_amount, pledge_delta) ← transaction (λ st : MinerState,
    let info := ms_info st in
    _ ← abort_if (cf_epoch fault <? mi_consensus_fault_elapsed info) ErrForbidden;
    f ← box ErrIllegalState (apply_penalty (ms_funds st) fault_penalty);
    b ← current_balance;
    '(f, paid) ← box ErrIllegalState (repay_partial_debt_in_priority_order f (curr_epoch rt) b);
    let '(penalty_from_vesting, penalty_from_balance) := (paid : Z * Z) in
    let burn_amount := penalty_from_vesting + penalty_from_balance in
    let reward_amount := Z.min burn_amount slasher_reward in
    let info := set_peer info (mi_peer_id info) (mi_multi_address info) (curr_epoch rt + CONSENSUS_FAULT_INELIGIBILITY_DURATION) in
    mret (set_info (set_funds st f) info, (burn_amount - reward_amount, reward_amount, - penalty_from_vesting)));
  _ ← send reporter METHOD_SEND [] reward_amount;
  _ ← burn_funds burn_amount;
  _ ← notify_pledge_changed pledge_delta;
  check_state.

Definition miner_withdraw_balance (params : MinerWithdrawBalanceParams) : Prog U MinerWithdrawBalanceReturn :=
  _ ← abort_if (mw_amount_requested params <? 0) ErrIllegalArgument;
  '(owner, newly_vested, fee_to_burn, available_balance, st) ← transaction (λ st : MinerState,
    let info := ms_info st in
    _ ← validate_immediate_caller_is [mi_owner info];
    _ ← abort_if (have_pending_early_terminations st) ErrForbidden;
    '(f, newly_vested) ← box ErrIllegalState (unlock_vested_funds (ms_funds st) (curr_epoch rt));
    b ← current_balance;
    available_balance ← box ErrIllegalState (get_available_balance f b);
    '(st, fee_to_burn) ← repay_debts_or_abort (set_funds st f);
    mret (st, (mi_owner info, newly_vested, fee_to_burn, available_balance, st)));
  let amount_withdrawn := Z.min available_balance (mw_amount_requested params) in
  _ ← abort_if (amount_withdrawn <? 0) ErrIllegalState;
  _ ← abort_if (available_balance <? amount_withdrawn) ErrIllegalState;
  _ ← (if 0 <? amount_withdrawn then _ ← send_ owner METHOD_SEND [] amount_withdrawn; mret tt else mret tt);
  _ ← burn_funds fee_to_burn;
  _ ← notify_pledge_changed (- newly_vested);
  _ ← check_invariants st;
  mret {| mw_amount_withdrawn := amount_withdrawn |}.

Definition repay_debt : Prog U unit :=
  '(from_vesting, from_balance, st) ← transaction (λ st : MinerState,
    _ ← validate_immediate_caller_is (controllers (ms_info st));
    b ← current_balance;
    '(f, paid) ← box ErrIllegalState (repay_partial_debt_in_priority_order (ms_funds st) (curr_epoch rt) b);
    let st := set_funds st f in
    mret (st, (paid.1, paid.2, st)));
  let burn_amount := from_balance + from_vesting in
  _ ← notify_pledge_changed (- from_vesting);
  _ ← burn_funds burn_amount;
  check_invariants st.

(** *** Cron *)

Fixpoint terminate_all (l : list OnMinerSectorsTerminateParams) : Prog U unit :=
  match l with
  | [] => mret tt
  | params :: l => _ ← request_terminate_deals (mt_epoch params) (mt_deal_ids params); terminate_all l
  end.

Definition process_early_terminations (reward_smoothed quality_adj_power_smoothed : FilterEstimate) : Prog U bool :=
  r ← transaction (λ st : MinerState,
    b ← current_balance;
    of_code (terminations_tx st (curr_epoch rt) b reward_smoothed quality_adj_power_smoothed));
  let '(is_empty, more, deals_to_terminate, penalty, pledge_delta) := (r : bool * bool * list OnMinerSectorsTerminateParams * Z * Z) in
  if is_empty then mret more
  else
    _ ← burn_funds penalty;
    _ ← notify_pledge_changed pledge_delta;
    _ ← terminate_all deals_to_terminate;
    mret more.

Definition handle_proving_deadline (reward_smoothed quality_adj_power_smoothed : FilterEstimate) : Prog U unit :=
  '(st, out) ← transaction (λ st : MinerState,
    b ← current_balance;
    '(st, out) ← of_code (deadline_tx absent_ok st (curr_epoch rt) b reward_smoothed quality_adj_power_smoothed);
    mret (st, (st, out)));
  _ ← request_update_power (do_power_delta out);
  _ ← burn_funds (do_penalty out);
  _ ← notify_pledge_changed (do_pledge_delta out);
  _ ← (if do_continue out then
         miner_enroll_cron_event (deadline_last (deadline_info st (curr_epoch rt + 1))) {| event_type := CRON_EVENT_PROVING_DEADLINE |}
       else mret tt);
  if negb (do_had_early out) && have_pending_early_terminations st then
    more ← process_early_terminations reward_smoothed quality_adj_power_smoothed;
    if more : bool then schedule_early_termination_work else mret tt
  else mret tt.

Definition on_deferred_cron_event (params : DeferredCronEventParams) : Prog U unit :=
  _ ← validate_immediate_caller_is [STORAGE_POWER_ACTOR_ADDR];
  payload ← unwrap_or_abort (dec (dc_event_payload params) : option CronEventPayload) ErrIllegalState;
  _ ← (if event_type payload =? CRON_EVENT_PROVING_DEADLINE then
         handle_proving_deadline (dc_reward_smoothed params) (dc_quality_adj_power_smoothed params)
       else if event_type payload =? CRON_EVENT_PROCESS_EARLY_TERMINATIONS then
         more ← process_early_terminations (dc_reward_smoothed params) (dc_quality_adj_power_smoothed params);
         if more : bool then schedule_early_termination_work else mret tt
       else mret tt);
  check_state.

End miner.
