(* ===== verification/MinerHandlers.v ===== *)
(** * The miner actor: sectors

    The methods of [src/vm/actor/src/builtin/miner/mod.rs] that handle sectors:
    pre-commitment, proof of replication, confirmation, window proofs and their
    disputes, faults and recoveries, extension, termination and compaction, and
    the dispatch of methods.  What a transaction does between two calls of the
    runtime is a function on the state. *)

From S2P Require Import Prelude Address Runtime Types Smooth Reward SimpleActors Power Market.
From S2P Require Import Vesting MinerFunds Sectors Expirations Partition DeadlineAssign SectorMaps DeadlineState MinerState MinerActor.

(** ** [types.rs] *)

Record SubmitWindowedPoStParams := {
  sw_deadline : Z; sw_partitions : list PoStPartition; sw_proofs : list PoStProof; chain_commit_epoch : Z; chain_commit_rand : bytes }.
Record DisputeWindowedPoStParams := { dw_deadline : Z; post_index : Z }.
Record PreCommitSectorBatchParams := { pb_sectors : list SectorPreCommitInfo }.
Record ProveCommitSectorParams := { pv_sector_number : Z; pv_proof : bytes }.
Record ProveCommitAggregateParams := { pg_sector_numbers : UnvalidatedBitField; aggregate_proof : bytes }.
Record CheckSectorProvenParams := { cp_sector_number : Z }.
Record ExpirationExtension := { ex_deadline : Z; ex_partition : Z; ex_sectors : UnvalidatedBitField; new_expiration : Z }.
Record ExtendSectorExpirationParams := { extensions : list ExpirationExtension }.
Record TerminationDeclaration := { td_deadline : Z; td_partition : Z; td_sectors : UnvalidatedBitField }.
Record TerminateSectorsParams := { terminations : list TerminationDeclaration }.
Record TerminateSectorsReturn := { ts_done : bool }.
Record FaultDeclaration := { fd_deadline : Z; fd_partition : Z; fd_sectors : UnvalidatedBitField }.
Record DeclareFaultsParams := { df_faults : list FaultDeclaration }.
Record RecoveryDeclaration := { rd_deadline : Z; rd_partition : Z; rd_sectors : UnvalidatedBitField }.
Record DeclareFaultsRecoveredParams := { df_recoveries : list RecoveryDeclaration }.
Record CompactPartitionsParams := { cp_deadline : Z; cp_partitions : UnvalidatedBitField }.
Record CompactSectorNumbersParams := { mask_sector_numbers : UnvalidatedBitField }.

(** [types/src/sector/seal.rs] *)
Record SealVerifyParams := {
  sp_sealed_cid : bytes; interactive_epoch : Z; sp_registered_seal_proof : RegisteredSealProof; sp_proof : bytes;
  sp_deal_ids : list Z; sector_num : Z; sp_seal_rand_epoch : Z }.
Record AggregateSealVerifyInfo := {
  av_sector_number : Z; av_randomness : bytes; av_interactive_randomness : bytes; av_sealed_cid : bytes; av_unsealed_cid : bytes }.
Record AggregateSealVerifyProofAndInfos := {
  av_miner : Z; av_seal_proof : RegisteredSealProof; av_aggregate_proof : RegisteredAggregateProof; av_proof : bytes;
  av_infos : list AggregateSealVerifyInfo }.

(** ** Checks *)

(** The network version the interpreter runs. *)
Definition NETWORK_VERSION : Z := 14.
Definition can_extend_seal_proof_type (proof : RegisteredSealProof) (nv : Z) : bool :=
  if (7 <=? nv) && (nv <=? 10) then match proof with StackedDRG32GiBV1P1 | StackedDRG64GiBV1P1 => true | _ => false end
  else true.
Definition post_proof_size (p : RegisteredPoStProof) : result TypesError Z :=
  match p with InvalidPoSt i => Err (UnsupportedProof i) | _ => Ok 192 end.
Definition reward_for_disputed_window_post (proof_type : RegisteredPoStProof) (power : PowerPair) : Z := BASE_REWARD_FOR_DISPUTED_WINDOW_POST.

Definition validate_expiration (curr_epoch activation expiration : Z) (seal_proof : RegisteredSealProof) : result ExitCode unit :=
  _ ← throw_if (expiration <=? activation) ErrIllegalArgument;
  _ ← throw_if (expiration - activation <? MIN_SECTOR_EXPIRATION) ErrIllegalArgument;
  _ ← throw_if (curr_epoch + MAX_SECTOR_EXPIRATION_EXTENSION <? expiration) ErrIllegalArgument;
  max_lifetime ← ok_or (seal_proof_sector_maximum_lifetime seal_proof) ErrIllegalArgument;
  throw_if (max_lifetime <? expiration - activation) ErrIllegalArgument.

(** A lookup of a proof type that fails gives the code [c]. *)
Definition proof_or {A} (c : ExitCode) (r : result TypesError A) : result ExitCode A :=
  match r with Ok a => Ok a | Err _ => Err c end.

Definition validate_replace_sector (st : MinerState) (params : SectorPreCommitInfo) : result ExitCode unit :=
  o ← downcast_default (get_sector st (replace_sector_number params)) ErrIllegalState;
  replace_sector ← ok_or o ErrNotFound;
  _ ← throw_if (match Sectors.deal_ids replace_sector with [] => false | _ => true end) ErrIllegalArgument;
  replace_w_post_proof ← proof_or ErrIllegalState (registered_window_post_proof (Sectors.seal_proof replace_sector));
  new_w_post_proof ← proof_or ErrIllegalArgument (registered_window_post_proof (pc_seal_proof params));
  _ ← throw_if (negb (bool_decide (replace_w_post_proof = new_w_post_proof))) ErrIllegalArgument;
  _ ← throw_if (pc_expiration params <? Sectors.expiration replace_sector) ErrIllegalArgument;
  downcast_default (check_sector_health st (replace_sector_deadline params) (replace_sector_partition params) (replace_sector_number params))
    ErrIllegalState.

Definition replaced_sector_parameters (curr_epoch : Z) (precommit : SectorPreCommitOnChainInfo) (replaced_by_num : gmap Z SectorOnChainInfo)
    : result ExitCode (Z * Z * Z) :=
  if negb (replace_capacity (pc_info precommit)) then mret (0, 0, 0)
  else
    replaced ← ok_or (replaced_by_num !! replace_sector_number (pc_info precommit)) ErrNotFound;
    mret (si_initial_pledge replaced, Z.max 0 (curr_epoch - activation replaced), expected_day_reward replaced).

(** The declarations of a message grouped by deadline and partition, within the
    limits of a message. *)
Definition declared (l : list (Z * Z * UnvalidatedBitField)) : result ExitCode DeadlineSectorMap :=
  _ ← throw_if (DELCARATIONS_MAX <? Z.of_nat (length l)) ErrIllegalArgument;
  to_process ← downcast_default (try_fold (λ dm t, dsm_add dm t.1.1 t.1.2 t.2) (∅ : DeadlineSectorMap) l) ErrIllegalArgument;
  _ ← downcast_default (dsm_check to_process ADDRESSED_PARTITIONS_MAX ADDRESSED_SECTORS_MAX) ErrIllegalArgument;
  mret to_process.

(** ** Pre-commitment *)

(** The checks of one sector before the transaction, with the numbers seen so far. *)
Definition precommit_check (curr_epoch : Z) (sealed_prefix_ok : bytes → bool) (acc : gset Z * list SectorDeals) (pc : SectorPreCommitInfo)
    : result ExitCode (gset Z * list SectorDeals) :=
  let '(sector_numbers, sectors_deals) := acc in
  let challenge_earliest := curr_epoch - MAX_PRE_COMMIT_RANDOMNESS_LOOKBACK in
  _ ← throw_if (bool_decide (pc_sector_number pc ∈ sector_numbers)) ErrIllegalArgument;
  _ ← throw_if (negb (can_pre_commit_seal_proof (pc_seal_proof pc))) ErrIllegalArgument;
  _ ← throw_if (MAX_SECTOR_NUMBER <? pc_sector_number pc) ErrIllegalArgument;
  _ ← throw_if (negb (sealed_prefix_ok (pc_sealed_cid pc))) ErrIllegalArgument;
  _ ← throw_if (curr_epoch <=? seal_rand_epoch pc) ErrIllegalArgument;
  _ ← throw_if (seal_rand_epoch pc <? challenge_earliest) ErrIllegalArgument;
  let max_activation := curr_epoch + default 0 (max_prove_commit_duration (pc_seal_proof pc)) in
  _ ← validate_expiration curr_epoch max_activation (pc_expiration pc) (pc_seal_proof pc);
  _ ← throw_if (replace_capacity pc && match pc_deal_ids pc with [] => true | _ => false end) ErrIllegalArgument;
  _ ← throw_if (WPOST_PERIOD_DEADLINES <=? replace_sector_deadline pc) ErrIllegalArgument;
  _ ← throw_if (MAX_SECTOR_NUMBER <? replace_sector_number pc) ErrIllegalArgument;
  mret ({[pc_sector_number pc]} ∪ sector_numbers,
        sectors_deals ++ [{| sector_expiry := pc_expiration pc; sd_deal_ids := pc_deal_ids pc |}]).

(** The loop of the transaction: the record of a sector, the deposits and the
    clean-up events so far. *)
Definition precommit_one (st : MinerState) (curr_epoch : Z) (reward_smoothed qa_power_smoothed : FilterEstimate)
    (acc : list SectorPreCommitOnChainInfo * Z * gmap Z (list Z)) (e : SectorPreCommitInfo * SectorWeights)
    : result ExitCode (list SectorPreCommitOnChainInfo * Z * gmap Z (list Z)) :=
  let '(chain_infos, total_deposit_required, clean_up_events) := acc in
  let '(pc, weight) := e in
  let info := ms_info st in
  sector_wpost_proof ← proof_or ErrIllegalArgument (registered_window_post_proof (pc_seal_proof pc));
  _ ← throw_if (negb (bool_decide (sector_wpost_proof = mi_window_post_proof_type info))) ErrIllegalArgument;
  _ ← throw_if (sector_deals_max (sector_bytes info) <? Z.of_nat (length (pc_deal_ids pc))) ErrIllegalArgument;
  _ ← throw_if (sector_bytes info <? deal_space weight) ErrIllegalArgument;
  _ ← (if replace_capacity pc then validate_replace_sector st pc else mret tt);
  let duration := pc_expiration pc - curr_epoch in
  let sector_weight := qa_power_for_weight (sector_bytes info) duration (sw_deal_weight weight) (Market.verified_deal_weight weight) in
  let deposit_req := pre_commit_deposit_for_power reward_smoothed qa_power_smoothed sector_weight in
  msd ← ok_or (max_prove_commit_duration (pc_seal_proof pc)) ErrIllegalArgument;
  let clean_up_bound := curr_epoch + msd + EXPIRED_PRE_COMMIT_CLEAN_UP_DELAY in
  mret (chain_infos ++ [{| pc_info := pc; pre_commit_deposit := deposit_req; pre_commit_epoch := curr_epoch;
                           pc_deal_weight := sw_deal_weight weight; pc_verified_deal_weight := Market.verified_deal_weight weight |}],
        total_deposit_required + deposit_req,
        <[clean_up_bound := default [] (clean_up_events !! clean_up_bound) ++ [pc_sector_number pc]]> clean_up_events).

(** The rest of the transaction. *)
Definition precommit_tx (st : MinerState) (available_balance : Z) (sector_numbers : gset Z)
    (acc : list SectorPreCommitOnChainInfo * Z * gmap Z (list Z)) : result ExitCode (MinerState * bool) :=
  let '(chain_infos, total_deposit_required, clean_up_events) := acc in
  _ ← throw_if (available_balance <? total_deposit_required) ErrInsufficientFunds;
  f ← downcast_default (add_pre_commit_deposit (ms_funds st) total_deposit_required) ErrIllegalState;
  st ← allocate_sector_numbers (set_funds st f) sector_numbers DenyCollisions;
  st ← downcast_default (put_precommitted_sectors st chain_infos) ErrIllegalState;
  st ← downcast_default (add_pre_commit_clean_ups st clean_up_events) ErrIllegalState;
  let needs_cron := negb (ms_deadline_cron_active st) in
  mret (set_period st (ms_proving_period_start st) (ms_current_deadline st) true, needs_cron).

Section handlers.
Context (hash_order : gset Z → list Z) (absent_ok : gmap Z SectorPreCommitOnChainInfo → Z → bool).

(** ** Confirmation *)

(** The loop over the pre-commitments: sectors with their total pledge, and the
    deposits to unlock. *)
Definition confirm_one (info : MinerInfo) (curr_epoch circulating_supply baseline_power : Z) (reward_smoothed qa_power_smoothed : FilterEstimate)
    (replaced_by : gmap Z SectorOnChainInfo) (acc : list SectorOnChainInfo * Z * Z) (pre_commit : SectorPreCommitOnChainInfo)
    : result ExitCode (list SectorOnChainInfo * Z * Z) :=
  let '(new_sectors, deposit_to_unlock, total_pledge) := acc in
  let duration := pc_expiration (pc_info pre_commit) - curr_epoch in
  if duration <? MIN_SECTOR_EXPIRATION then mret acc
  else
    let power := qa_power_for_weight (sector_bytes info) duration (pc_deal_weight pre_commit) (pc_verified_deal_weight pre_commit) in
    let day_reward := expected_reward_for_power reward_smoothed qa_power_smoothed power EPOCHS_IN_DAY in
    let storage_pledge := expected_reward_for_power reward_smoothed qa_power_smoothed power INITIAL_PLEDGE_PROJECTION_PERIOD in
    let pledge := initial_pledge_for_power power baseline_power reward_smoothed qa_power_smoothed circulating_supply in
    r ← replaced_sector_parameters curr_epoch pre_commit replaced_by;
    let '(replaced_pledge, replaced_age, replaced_reward) := (r : Z * Z * Z) in
    let pledge := Z.max pledge replaced_pledge in
    mret (new_sectors ++ [{|
            sector_number := pc_sector_number (pc_info pre_commit); seal_proof := pc_seal_proof (pc_info pre_commit);
            sealed_cid := pc_sealed_cid (pc_info pre_commit); deal_ids := pc_deal_ids (pc_info pre_commit);
            activation := curr_epoch; expiration := pc_expiration (pc_info pre_commit);
            deal_weight := pc_deal_weight pre_commit; Sectors.verified_deal_weight := pc_verified_deal_weight pre_commit;
            si_initial_pledge := pledge; expected_day_reward := day_reward; expected_storage_pledge := storage_pledge;
            replaced_sector_age := replaced_age; replaced_day_reward := replaced_reward |}],
          deposit_to_unlock + pre_commit_deposit pre_commit, total_pledge + pledge).

(** The transaction of [confirm_sector_proofs_valid_internal]. *)
Definition confirm_tx (st : MinerState) (curr_epoch balance circulating_supply baseline_power : Z) (reward_smoothed qa_power_smoothed : FilterEstimate)
    (replace_sectors : DeadlineSectorMap) (valid_pre_commits : list SectorPreCommitOnChainInfo) : result ExitCode (MinerState * Z) :=
  let info := ms_info st in
  '(st, replaced) ← downcast_default (ms_reschedule_sector_expirations hash_order st curr_epoch (sector_bytes info) replace_sectors) ErrIllegalState;
  let replaced_by := list_to_map (reverse ((λ s, (sector_number s, s)) <$> replaced)) in
  acc ← try_fold (confirm_one info curr_epoch circulating_supply baseline_power reward_smoothed qa_power_smoothed replaced_by) ([], 0, 0) valid_pre_commits;
  let '(new_sectors, deposit_to_unlock, total_pledge) := (acc : list SectorOnChainInfo * Z * Z) in
  st ← downcast_default (put_sectors st new_sectors) ErrIllegalState;
  st ← downcast_default (delete_precommitted_sectors absent_ok st (sector_number <$> new_sectors)) ErrIllegalState;
  st ← downcast_default (assign_sectors_to_deadlines st curr_epoch new_sectors (mi_window_post_partition_sectors info) (sector_bytes info)) ErrIllegalState;
  f ← downcast_default (add_pre_commit_deposit (ms_funds st) (- deposit_to_unlock)) ErrIllegalState;
  unlocked_balance ← downcast_default (get_unlocked_balance f balance) ErrIllegalState;
  _ ← throw_if (unlocked_balance <? total_pledge) ErrInsufficientFunds;
  f ← downcast_default (add_initial_pledge f total_pledge) ErrIllegalState;
  _ ← downcast_default (check_balance_invariants f balance) ErrPlaceholder;
  mret (set_funds st f, total_pledge).

(** ** Window proofs *)

(** What is proven, before the proof is recorded or verified. *)
Definition post_tx (st : MinerState) (current_deadline : DeadlineInfo) (deadline_idx : Z) (partitions : list PoStPartition)
    : result ExitCode (Deadline * PoStResult) :=
  d ← downcast_default (load_deadline (ms_deadlines st) deadline_idx) ErrIllegalState;
  let fault_expiration := deadline_last current_deadline + FAULT_MAX_AGE in
  '(d, post_result) ← downcast_default (record_proven_sectors (sector_bytes (ms_info st)) (deadline_quant_spec current_deadline) hash_order d
                         (ms_sectors st) fault_expiration partitions) ErrIllegalState;
  _ ← throw_if (bool_decide (pr_sectors post_result ∖ ignored_sectors post_result = ∅)) ErrIllegalArgument;
  mret (d, post_result).

(** Store a changed deadline. *)
Definition store_deadline (st : MinerState) (deadline_idx : Z) (d : Deadline) : result ExitCode MinerState :=
  ds ← downcast_default (update_deadline (ms_deadlines st) deadline_idx d) ErrIllegalState;
  mret (save_deadlines st ds).

(** The proof that is disputed is taken out of the snapshot. *)
Definition dispute_load (st : MinerState) (deadline_idx idx : Z)
    : result ExitCode (Deadline * DisputeInfo * list PoStProof * list SectorOnChainInfo) :=
  d ← downcast_default (load_deadline (ms_deadlines st) deadline_idx) ErrIllegalState;
  '(d, post) ← downcast_default (take_post_proofs d idx) ErrIllegalState;
  let '(partitions, proofs) := (post : gset Z * list PoStProof) in
  dispute_info ← downcast_default (load_partitions_for_dispute d partitions) ErrIllegalState;
  sector_infos ← downcast_default (load_for_proof (ms_sectors st) (all_sector_nos dispute_info) (ignored_sector_nos dispute_info)) ErrIllegalState;
  mret (d, dispute_info, proofs, sector_infos).

(** The rest of the transaction, after the proof was found to be wrong: the change
    of pledge, what to burn, the change of power and the reward. *)
Definition dispute_tx (st : MinerState) (target : DeadlineInfo) (deadline_idx curr_epoch balance : Z) (reward_smoothed qa_power_smoothed : FilterEstimate)
    (d : Deadline) (dispute_info : DisputeInfo) : result ExitCode (MinerState * (Z * Z * PowerPair * Z)) :=
  let info := ms_info st in
  let penalised_power := disputed_power dispute_info in
  let fault_expiration_epoch := deadline_last target + FAULT_MAX_AGE in
  '(d, power_delta) ← downcast_default (dl_record_faults (sector_bytes info) (quant_spec_for_deadline target) hash_order d (ms_sectors st)
                         fault_expiration_epoch (disputed_sectors dispute_info)) ErrIllegalState;
  st ← store_deadline st deadline_idx d;
  let penalty_base := pledge_penalty_for_invalid_windowpost reward_smoothed qa_power_smoothed (qa penalised_power) in
  let reward_target := reward_for_disputed_window_post (mi_window_post_proof_type info) penalised_power in
  let penalty_target := penalty_base + reward_target in
  f ← downcast_default (apply_penalty (ms_funds st) penalty_target) ErrIllegalState;
  '(f, paid) ← downcast_default (repay_partial_debt_in_priority_order f curr_epoch balance) ErrIllegalState;
  let '(penalty_from_vesting, penalty_from_balance) := (paid : Z * Z) in
  let to_burn := penalty_from_vesting + penalty_from_balance in
  let to_reward := Z.min to_burn reward_target in
  mret (set_funds st f, (- penalty_from_vesting, to_burn - to_reward, power_delta, to_reward)).

(** ** Declarations *)

Definition declare_fault_deadline (st : MinerState) (curr_epoch : Z) (acc : Deadlines * PowerPair) (e : Z * PartitionSectorMap)
    : result ExitCode (Deadlines * PowerPair) :=
  let '(ds, total) := acc in
  let '(deadline_idx, partition_map) := e in
  target ← declaration_deadline_info (ms_current_proving_period_start st curr_epoch) deadline_idx curr_epoch;
  _ ← validate_fr_declaration_deadline target;
  d ← downcast_default (load_deadline ds deadline_idx) ErrIllegalState;
  let fault_expiration_epoch := deadline_last target + FAULT_MAX_AGE in
  '(d, delta) ← downcast_default (dl_record_faults (sector_bytes (ms_info st)) (deadline_quant_spec target) hash_order d (ms_sectors st)
                   fault_expiration_epoch partition_map) ErrIllegalState;
  ds ← downcast_default (update_deadline ds deadline_idx d) ErrIllegalState;
  mret (ds, (total + delta)%pw).
Definition declare_faults_tx (st : MinerState) (curr_epoch : Z) (to_process : DeadlineSectorMap) : result ExitCode (MinerState * PowerPair) :=
  '(ds, total) ← try_fold (declare_fault_deadline st curr_epoch) (ms_deadlines st, pp_zero) (map_iter to_process);
  mret (save_deadlines st ds, total).

Definition recover_deadline (st : MinerState) (curr_epoch : Z) (ds : Deadlines) (e : Z * PartitionSectorMap) : result ExitCode Deadlines :=
  let '(deadline_idx, partition_map) := e in
  target ← declaration_deadline_info (ms_current_proving_period_start st curr_epoch) deadline_idx curr_epoch;
  _ ← validate_fr_declaration_deadline target;
  d ← downcast_default (load_deadline ds deadline_idx) ErrIllegalState;
  d ← downcast_default (dl_declare_faults_recovered (sector_bytes (ms_info st)) d (ms_sectors st) partition_map) ErrIllegalState;
  downcast_default (update_deadline ds deadline_idx d) ErrIllegalState.
Definition recoveries_tx (st : MinerState) (curr_epoch : Z) (to_process : DeadlineSectorMap) : result ExitCode MinerState :=
  ds ← try_fold (recover_deadline st curr_epoch) (ms_deadlines st) (map_iter to_process);
  mret (save_deadlines st ds).

Definition terminate_deadline (st : MinerState) (curr_epoch : Z) (acc : Deadlines * gset Z * PowerPair) (e : Z * PartitionSectorMap)
    : result ExitCode (Deadlines * gset Z * PowerPair) :=
  let '(ds, et, power_delta) := acc in
  let '(deadline_idx, partition_sectors) := e in
  mutable ← ok_or (deadline_is_mutable (ms_current_proving_period_start st curr_epoch) deadline_idx curr_epoch) SysErrActorPanic;
  _ ← throw_if (negb mutable) ErrIllegalArgument;
  let quant := ms_quant_spec_for_deadline st deadline_idx in
  d ← downcast_default (load_deadline ds deadline_idx) ErrIllegalState;
  '(d, removed_power) ← downcast_default (dl_terminate_sectors (sector_bytes (ms_info st)) quant hash_order d (ms_sectors st) curr_epoch partition_sectors)
                          ErrIllegalState;
  ds ← downcast_default (update_deadline ds deadline_idx d) ErrIllegalState;
  mret (ds, {[deadline_idx]} ∪ et, (power_delta - removed_power)%pw).
Definition terminate_tx (st : MinerState) (curr_epoch : Z) (to_process : DeadlineSectorMap) : result ExitCode (MinerState * PowerPair) :=
  r ← try_fold (terminate_deadline st curr_epoch) (ms_deadlines st, ms_early_terminations st, pp_zero) (map_iter to_process);
  let '(ds, et, power_delta) := (r : Deadlines * gset Z * PowerPair) in
  mret (set_sectors st (ms_sectors st) ds et, power_delta).

(** The transaction of [compact_partitions] after its guards. *)
Definition compact_tx (st : MinerState) (deadline_idx : Z) (partitions : gset Z) : result ExitCode MinerState :=
  let info := ms_info st in
  let quant := ms_quant_spec_for_deadline st deadline_idx in
  d ← downcast_default (load_deadline (ms_deadlines st) deadline_idx) ErrIllegalState;
  '(d, r) ← downcast_default (remove_partitions d partitions) ErrIllegalState;
  let '(live, dead, removed_power) := (r : gset Z * gset Z * PowerPair) in
  st ← downcast_default (delete_sectors st dead) ErrIllegalState;
  sectors ← downcast_default (load_sector_infos st live) ErrIllegalState;
  '(d, added_power) ← downcast_default (dl_add_sectors (sector_bytes info) quant d (mi_window_post_partition_sectors info) true sectors) ErrIllegalState;
  _ ← throw_if (negb (bool_decide (removed_power = added_power))) ErrIllegalState;
  store_deadline st deadline_idx d.

(** ** Extension *)

(** A map of vectors that remembers the order of its keys. *)
Fixpoint push_assoc {A} (l : list (Z * list A)) (k : Z) (x : A) : list (Z * list A) :=
  match l with
  | [] => [(k, [x])]
  | (k', xs) :: l => if k =? k' then (k', xs ++ [x]) :: l else (k', xs) :: push_assoc l k x
  end.

Definition extend_check (sector_count : Z) (decl : ExpirationExtension) : result ExitCode Z :=
  _ ← throw_if (WPOST_PERIOD_DEADLINES <=? ex_deadline decl) ErrIllegalArgument;
  sectors ← ok_or (ex_sectors decl) ErrIllegalArgument;
  ok_or (checked_add_u64 sector_count (bits_len sectors)) ErrIllegalArgument.

Definition extended_sector (curr_epoch new_expiration : Z) (s : SectorOnChainInfo) : result ExitCode SectorOnChainInfo :=
  _ ← throw_if (negb (can_extend_seal_proof_type (seal_proof s) NETWORK_VERSION)) ErrForbidden;
  _ ← throw_if (expiration s <? curr_epoch) ErrForbidden;
  _ ← throw_if (new_expiration <? expiration s) ErrIllegalArgument;
  _ ← validate_expiration curr_epoch (activation s) new_expiration (seal_proof s);
  let lifetime := expiration s - activation s in
  _ ← throw_if (lifetime =? 0) SysErrActorPanic;
  mret {| sector_number := sector_number s; seal_proof := seal_proof s; sealed_cid := sealed_cid s; deal_ids := deal_ids s;
          activation := activation s; expiration := new_expiration;
          deal_weight := deal_weight s * (expiration s - curr_epoch) / lifetime;
          Sectors.verified_deal_weight := Sectors.verified_deal_weight s * (expiration s - curr_epoch) / lifetime;
          si_initial_pledge := si_initial_pledge s; expected_day_reward := expected_day_reward s;
          expected_storage_pledge := expected_storage_pledge s; replaced_sector_age := replaced_sector_age s;
          replaced_day_reward := replaced_day_reward s |}.

Definition extend_one (sector_size curr_epoch : Z) (quant : QuantSpec)
    (acc : gmap Z Partition * Sectors * PowerPair * Z * list (Z * list Z)) (decl : ExpirationExtension)
    : result ExitCode (gmap Z Partition * Sectors * PowerPair * Z * list (Z * list Z)) :=
  let '(ps, sectors, power_delta, pledge_delta, by_epoch) := acc in
  o ← downcast_default (amt_get ps (ex_partition decl)) ErrIllegalState;
  p ← ok_or o ErrNotFound;
  bf ← ok_or (ex_sectors decl) ErrIllegalArgument;
  old_sectors ← downcast_default (load_sector sectors bf) ErrIllegalState;
  new_sectors ← mapM (extended_sector curr_epoch (new_expiration decl)) old_sectors;
  sectors ← downcast_default (sectors_store sectors new_sectors) ErrIllegalState;
  '(p, r) ← downcast_default (pt_replace_sectors sector_size quant hash_order p old_sectors new_sectors) ErrIllegalState;
  let '(partition_power_delta, partition_pledge_delta) := (r : PowerPair * Z) in
  ps ← downcast_default (amt_set ps (ex_partition decl) p) ErrIllegalState;
  mret (ps, sectors, (power_delta + partition_power_delta)%pw, pledge_delta + partition_pledge_delta,
        push_assoc by_epoch (new_expiration decl) (ex_partition decl)).

Definition extend_deadline (st : MinerState) (curr_epoch : Z) (acc : Deadlines * Sectors * PowerPair * Z) (e : Z * list ExpirationExtension)
    : result ExitCode (Deadlines * Sectors * PowerPair * Z) :=
  let '(ds, sectors, power_delta, pledge_delta) := acc in
  let '(deadline_idx, decls) := e in
  d ← downcast_default (load_deadline ds deadline_idx) ErrIllegalState;
  let quant := ms_quant_spec_for_deadline st deadline_idx in
  r ← try_fold (extend_one (sector_bytes (ms_info st)) curr_epoch quant) (dl_partitions d, sectors, power_delta, pledge_delta, []) decls;
  let '(ps, sectors, power_delta, pledge_delta, by_epoch) := (r : gmap Z Partition * Sectors * PowerPair * Z * list (Z * list Z)) in
  q ← downcast_default (try_fold (λ q e, add_expiration_partitions quant q e.1 e.2) (dl_expirations d) by_epoch) ErrIllegalState;
  ds ← downcast_default (update_deadline ds deadline_idx
         (set_deadline d ps q (early_terminations d) (dl_live_sectors d) (dl_total_sectors d) (dl_faulty_power d))) ErrIllegalState;
  mret (ds, sectors, power_delta, pledge_delta).

Definition extend_tx (st : MinerState) (curr_epoch : Z) (exts : list ExpirationExtension) : result ExitCode (MinerState * (PowerPair * Z)) :=
  let decls_by_deadline := fold_left (λ l decl, push_assoc l (ex_deadline decl) decl) exts [] in
  r ← try_fold (extend_deadline st curr_epoch) (ms_deadlines st, ms_sectors st, pp_zero, 0) decls_by_deadline;
  let '(ds, sectors, power_delta, pledge_delta) := (r : Deadlines * Sectors * PowerPair * Z) in
  mret (set_sectors st sectors ds (ms_early_terminations st), (power_delta, pledge_delta)).

(** ** The methods *)

Context {U : Type} `{!StateIn MinerState U}.
Context `{!Enc Address, !Dec Address, !Enc Z, !Enc CronEventPayload, !Dec CronEventPayload, !Enc EnrollCronEventParams}.
Context `{!Enc UpdateClaimedPowerParams, !Enc OnMinerSectorsTerminateParams, !Enc WindowPoStVerifyInfo}.
Context `{!Dec ThisEpochRewardReturn, !Dec CurrentTotalPowerReturn, !Dec (option ConsensusFault)}.
Context `{!Enc ComputeDataCommitmentParams, !Dec ComputeDataCommitmentReturn, !Enc VerifyDealsForActivationParams}.
Context `{!Dec VerifyDealsForActivationReturn, !Enc ActivateDealsParams, !Enc SealVerifyInfo, !Enc AggregateSealVerifyProofAndInfos}.
Context (sealed_prefix_ok : bytes → bool) (rt : Ctx).

(** A failure of the randomness source is fatal. *)
Definition randomness (q : SysQuery) : Prog U bytes :=
  r ← syscall q; match r with Some b => mret b | None => Ret (Err new_fatal) end.
Definition receiver_id : Prog U Z :=
  match payload (receiver rt) with ID i => mret i | _ => abort ErrIllegalState end.

(** [Ok] when the proof is valid; any error of the check is a value. *)
Definition verify_windowed_post (challenge_epoch : Z) (sectors : list SectorOnChainInfo) (proofs : list PoStProof)
    : Prog U (result ActorError unit) :=
  match payload (receiver rt) with
  | ID miner_actor_id =>
      r ← syscall (RandomnessBeacon WindowedPoStChallengeSeed challenge_epoch (enc (receiver rt)));
      match r with
      | None => mret (Err new_fatal)
      | Some rand =>
          v ← syscall (VerifyPost (enc {| wv_randomness := rand; wv_proofs := proofs;
                wv_challenged_sectors := (λ s, {| sc_proof := seal_proof s; sc_sector_number := sector_number s; sc_sealed_cid := sealed_cid s |}) <$> sectors;
                wv_prover := miner_actor_id |}));
          mret (match v with Some _ => Ok tt | None => Err (actor_error ErrIllegalArgument) end)
      end
  | _ => mret (Err (actor_error ErrIllegalState))
  end.

Definition request_unsealed_sector_cids (inputs : list SectorDataSpec) : Prog U (list bytes) :=
  match inputs with
  | [] => mret []
  | _ =>
      ret ← send_ STORAGE_MARKET_ACTOR_ADDR 8 (enc {| cd_inputs := inputs |}) 0;
      r ← unwrap_or_abort (dec ret : option ComputeDataCommitmentReturn) ErrSerialization;
      _ ← abort_if (negb (bool_decide (length inputs = length (commds r)))) ErrIllegalState;
      mret (commds r)
  end.

Definition request_deal_weights (sectors : list SectorDeals) : Prog U VerifyDealsForActivationReturn :=
  if zsum ((λ s, Z.of_nat (length (sd_deal_ids s))) <$> sectors) =? 0 then
    mret {| vr_sectors := (λ _, {| deal_space := 0; sw_deal_weight := 0; Market.verified_deal_weight := 0 |}) <$> sectors |}
  else
    ret ← send_ STORAGE_MARKET_ACTOR_ADDR 5 (enc {| vd_sectors := sectors |}) 0;
    unwrap_or_abort (dec ret) ErrSerialization.

Definition get_verify_info (params : SealVerifyParams) : Prog U SealVerifyInfo :=
  _ ← abort_if (curr_epoch rt <=? interactive_epoch params) ErrForbidden;
  commds ← request_unsealed_sector_cids [{| ds_deal_ids := sp_deal_ids params; sector_type := sp_registered_seal_proof params |}];
  miner_actor_id ← receiver_id;
  let entropy := enc (receiver rt) in
  rand ← randomness (RandomnessTickets SealRandomness (sp_seal_rand_epoch params) entropy);
  interactive ← randomness (RandomnessBeacon InteractiveSealChallengeSeed (interactive_epoch params) entropy);
  unsealed ← unwrap_or_abort (head commds) SysErrActorPanic;
  mret {| registered_proof := sp_registered_seal_proof params; sector_id := {| si_miner := miner_actor_id; si_number := sector_num params |};
          svi_deal_ids := sp_deal_ids params; svi_randomness := rand; interactive_randomness := interactive;
          svi_proof := sp_proof params; Power.sealed_cid := sp_sealed_cid params; unsealed_cid := unsealed |}.

(** *** Window proofs *)

Definition RANDOMNESS_LENGTH : Z := 32.

(** The guards of the transaction of [submit_windowed_post] before the randomness is
    checked. *)
Definition post_guards (st : MinerState) (current_deadline : DeadlineInfo) (params : SubmitWindowedPoStParams) (proof : PoStProof) (max_proof_size : Z)
    : result ExitCode unit :=
  let info := ms_info st in
  let n := Z.of_nat (length (sw_partitions params)) in
  _ ← throw_if (negb (bool_decide (post_proof proof = mi_window_post_proof_type info))) ErrIllegalArgument;
  _ ← throw_if (max_proof_size * n <? Z.of_nat (length (proof_bytes proof))) ErrIllegalArgument;
  _ ← throw_if (load_partitions_sectors_max (mi_window_post_partition_sectors info) <? n) ErrIllegalArgument;
  _ ← throw_if (negb (is_open current_deadline)) ErrIllegalState;
  _ ← throw_if (negb (sw_deadline params =? d_index current_deadline)) ErrIllegalArgument;
  _ ← throw_if (chain_commit_epoch params <? d_challenge current_deadline) ErrIllegalArgument;
  throw_if (curr_epoch rt <=? chain_commit_epoch params) ErrIllegalArgument.

Definition submit_windowed_post (params : SubmitWindowedPoStParams) : Prog U unit :=
  match sw_proofs params with
  | [proof] =>
      _ ← of_code (check_valid_post_proof_type (post_proof proof));
      _ ← abort_if (WPOST_PERIOD_DEADLINES <=? sw_deadline params) ErrIllegalArgument;
      _ ← abort_if (RANDOMNESS_LENGTH <? Z.of_nat (length (chain_commit_rand params))) ErrIllegalArgument;
      power_delta ← transaction (λ st : MinerState,
        let info := ms_info st in
        max_proof_size ← of_code (proof_or ErrIllegalState (post_proof_size (mi_window_post_proof_type info)));
        _ ← validate_immediate_caller_is (controllers info);
        let current_deadline := deadline_info st (curr_epoch rt) in
        _ ← of_code (post_guards st current_deadline params proof max_proof_size);
        comm_rand ← randomness (RandomnessTickets PoStChainCommit (chain_commit_epoch params) []);
        _ ← abort_if (negb (bool_decide (comm_rand = chain_commit_rand params))) ErrIllegalArgument;
        '(d, post_result) ← of_code (post_tx st current_deadline (sw_deadline params) (sw_partitions params));
        d ← (if pp_is_zero (recovered_power post_result) then
               box ErrIllegalState (record_post_proofs d (pr_partitions post_result) (sw_proofs params))
             else
               sector_infos ← box ErrIllegalState (load_for_proof (ms_sectors st) (pr_sectors post_result) (ignored_sectors post_result));
               v ← verify_windowed_post (d_challenge current_deadline) sector_infos (sw_proofs params);
               _ ← of_result v;
               mret d);
        st ← of_code (store_deadline st (sw_deadline params) d);
        mret (st, pr_power_delta post_result));
      _ ← request_update_power power_delta;
      check_state
  | _ => abort ErrIllegalArgument
  end.

Definition dispute_windowed_post (params : DisputeWindowedPoStParams) : Prog U unit :=
  _ ← validate_immediate_caller_type CALLER_TYPES_SIGNABLE;
  let reporter := caller rt in
  _ ← abort_if (WPOST_PERIOD_DEADLINES <=? dw_deadline params) ErrIllegalArgument;
  let current_epoch := curr_epoch rt in
  epoch_reward ← request_current_epoch_block_reward;
  power_total ← request_current_total_power;
  r ← transaction (λ st : MinerState,
    let dl_info := deadline_info st current_epoch in
    available ← unwrap_or_abort (deadline_available_for_optimistic_post_dispute (d_period_start dl_info) (dw_deadline params) current_epoch) SysErrActorPanic;
    _ ← abort_if (negb available) ErrForbidden;
    let pp_start := if d_index dl_info <? dw_deadline params then d_period_start dl_info - WPOST_PROVING_PERIOD else d_period_start dl_info in
    let target_deadline := new_deadline_info pp_start (dw_deadline params) current_epoch in
    loaded ← of_code (dispute_load st (dw_deadline params) (post_index params));
    let '(d, dispute_info, proofs, sector_infos) := (loaded : Deadline * DisputeInfo * list PoStProof * list SectorOnChainInfo) in
    v ← verify_windowed_post (d_challenge target_deadline) sector_infos proofs;
    match v with
    | Ok _ => abort ErrIllegalArgument
    | Err _ =>
        b ← current_balance;
        of_code (dispute_tx st target_deadline (dw_deadline params) current_epoch b (er_smoothed epoch_reward)
                   (tp_quality_adj_power_smoothed power_total) d dispute_info)
    end);
  let '(pledge_delta, to_burn, power_delta, to_reward) := (r : Z * Z * PowerPair * Z) in
  _ ← request_update_power power_delta;
  to_burn ← (if to_reward =? 0 then mret to_burn
             else
               res ← send reporter METHOD_SEND [] to_reward;
               mret (match res with Ok _ => to_burn | Err _ => to_burn + to_reward end));
  _ ← burn_funds to_burn;
  _ ← notify_pledge_changed pledge_delta;
  check_state.

(** *** Pre-commitment *)

Definition pre_commit_sector_batch (params : PreCommitSectorBatchParams) : Prog U unit :=
  let n := Z.of_nat (length (pb_sectors params)) in
  _ ← abort_if (n =? 0) ErrIllegalArgument;
  _ ← abort_if (PRE_COMMIT_SECTOR_BATCH_MAX_SIZE <? n) ErrIllegalArgument;
  '(sector_numbers, sectors_deals) ← of_code (try_fold (precommit_check (curr_epoch rt) sealed_prefix_ok) (∅, []) (pb_sectors params));
  reward_stats ← request_current_epoch_block_reward;
  power_total ← request_current_total_power;
  deal_weights ← request_deal_weights sectors_deals;
  _ ← abort_if (negb (bool_decide (length (vr_sectors deal_weights) = length (pb_sectors params)))) ErrIllegalState;
  '(fee_to_burn, needs_cron) ← transaction (λ st : MinerState,
    f ← (if 1 <? n then box ErrIllegalState (apply_penalty (ms_funds st) (aggregate_pre_commit_network_fee n (base_fee rt)))
         else mret (ms_funds st));
    b ← current_balance;
    available_balance ← box ErrIllegalState (get_available_balance f b);
    '(st, fee_to_burn) ← repay_debts_or_abort (set_funds st f);
    let info := ms_info st in
    _ ← validate_immediate_caller_is (controllers info);
    _ ← abort_if (consensus_fault_active info (curr_epoch rt)) ErrForbidden;
    acc ← of_code (try_fold (precommit_one st (curr_epoch rt) (er_smoothed reward_stats) (tp_quality_adj_power_smoothed power_total)) ([], 0, ∅)
                     (zip (pb_sectors params) (vr_sectors deal_weights)));
    '(st, needs_cron) ← of_code (precommit_tx st available_balance sector_numbers acc);
    mret (st, (fee_to_burn, needs_cron)));
  _ ← burn_funds fee_to_burn;
  st ← get_state;
  _ ← check_invariants st;
  if needs_cron : bool then
    miner_enroll_cron_event (deadline_last (deadline_info st (curr_epoch rt))) {| event_type := CRON_EVENT_PROVING_DEADLINE |}
  else mret tt.
Definition pre_commit_sector (params : SectorPreCommitInfo) : Prog U unit := pre_commit_sector_batch {| pb_sectors := [params] |}.

(** *** Proofs of replication *)

Definition prove_commit_sector (params : ProveCommitSectorParams) : Prog U unit :=
  _ ← validate_immediate_caller_accept_any;
  _ ← abort_if (MAX_SECTOR_NUMBER <? pv_sector_number params) ErrIllegalArgument;
  st ← get_state;
  precommit ← unwrap_or_abort (get_precommitted_sector st (pv_sector_number params)) ErrNotFound;
  let info := pc_info precommit in
  max_proof_size ← of_code (proof_or ErrIllegalState (seal_proof_size (pc_seal_proof info)));
  _ ← abort_if (max_proof_size <? Z.of_nat (length (pv_proof params))) ErrIllegalArgument;
  msd ← unwrap_or_abort (max_prove_commit_duration (pc_seal_proof info)) ErrIllegalState;
  let prove_commit_due := pre_commit_epoch precommit + msd in
  _ ← abort_if (prove_commit_due <? curr_epoch rt) ErrIllegalArgument;
  svi ← get_verify_info {|
    sp_sealed_cid := pc_sealed_cid info; interactive_epoch := pre_commit_epoch precommit + PRE_COMMIT_CHALLENGE_DELAY;
    sp_seal_rand_epoch := seal_rand_epoch info; sp_proof := pv_proof params; sp_deal_ids := pc_deal_ids info;
    sector_num := pc_sector_number info; sp_registered_seal_proof := pc_seal_proof info |};
  _ ← send_ STORAGE_POWER_ACTOR_ADDR 8 (enc svi) 0;
  mret tt.

(** The loop that activates the deals: the sectors to replace and the
    pre-commitments that stay. *)
Fixpoint activate_all (l : list SectorPreCommitOnChainInfo) (acc : DeadlineSectorMap * list SectorPreCommitOnChainInfo)
    : Prog U (DeadlineSectorMap * list SectorPreCommitOnChainInfo) :=
  match l with
  | [] => mret acc
  | pre_commit :: l =>
      let info := pc_info pre_commit in
      activated ← (match pc_deal_ids info with
                   | [] => mret true
                   | ids =>
                       res ← send STORAGE_MARKET_ACTOR_ADDR 6 (enc {| ad_deal_ids := ids; ad_sector_expiry := pc_expiration info |}) 0;
                       mret (match res with Ok _ => true | Err _ => false end)
                   end);
      if activated : bool then
        replace_sectors ←
          (if replace_capacity info then
             box ErrIllegalArgument (dsm_add_values acc.1 (replace_sector_deadline info) (replace_sector_partition info) [replace_sector_number info])
           else mret acc.1);
        activate_all l (replace_sectors, acc.2 ++ [pre_commit])
      else activate_all l acc
  end.

Definition confirm_sector_proofs_valid_internal (pre_commits : list SectorPreCommitOnChainInfo) (baseline_power : Z)
    (reward_smoothed qa_power_smoothed : FilterEstimate) : Prog U unit :=
  circulating_supply ← total_fil_circ_supply;
  '(replace_sectors, valid_pre_commits) ← activate_all pre_commits (∅, []);
  _ ← abort_if (match valid_pre_commits with [] => true | _ => false end) ErrIllegalArgument;
  total_pledge ← transaction (λ st : MinerState,
    b ← current_balance;
    of_code (confirm_tx st (curr_epoch rt) b circulating_supply baseline_power reward_smoothed qa_power_smoothed replace_sectors valid_pre_commits));
  notify_pledge_changed total_pledge.

Definition confirm_sector_proofs_valid (params : ConfirmSectorProofsParams) : Prog U unit :=
  _ ← validate_immediate_caller_is [STORAGE_POWER_ACTOR_ADDR];
  st ← get_state;
  confirm_sector_proofs_valid_internal (find_precommitted_sectors st (cs_sectors params)) (cs_reward_baseline_power params)
    (cs_reward_smoothed params) (cs_quality_adj_power_smoothed params).

(** One pre-commitment of an aggregate: its proof type is that of the one before, and
    it is confirmed unless it is too late. *)
Definition aggregate_one (acc : option RegisteredSealProof * list SectorPreCommitOnChainInfo * list SectorDataSpec) (precommit : SectorPreCommitOnChainInfo)
    : result ExitCode (option RegisteredSealProof * list SectorPreCommitOnChainInfo * list SectorDataSpec) :=
  let '(prev_seal_proof, to_confirm, inputs) := acc in
  let proof := pc_seal_proof (pc_info precommit) in
  msd ← ok_or (max_prove_commit_duration proof) ErrIllegalState;
  let prove_commit_due := pre_commit_epoch precommit + msd in
  let to_confirm := if prove_commit_due <? curr_epoch rt then to_confirm else to_confirm ++ [precommit] in
  _ ← throw_if (match prev_seal_proof with Some prev => negb (bool_decide (prev = proof)) | None => false end) ErrIllegalState;
  mret (Some proof, to_confirm, inputs ++ [{| ds_deal_ids := pc_deal_ids (pc_info precommit); sector_type := proof |}]).

Fixpoint aggregate_infos (l : list (SectorPreCommitOnChainInfo * bytes)) : Prog U (list AggregateSealVerifyInfo) :=
  match l with
  | [] => mret []
  | (precommit, commd) :: l =>
      let interactive_epoch := pre_commit_epoch precommit + PRE_COMMIT_CHALLENGE_DELAY in
      _ ← abort_if (curr_epoch rt <=? interactive_epoch) ErrForbidden;
      rand ← randomness (RandomnessTickets SealRandomness (seal_rand_epoch (pc_info precommit)) (enc (receiver rt)));
      interactive ← randomness (RandomnessBeacon InteractiveSealChallengeSeed interactive_epoch (enc (receiver rt)));
      svis ← aggregate_infos l;
      mret ({| av_sector_number := pc_sector_number (pc_info precommit); av_randomness := rand; av_interactive_randomness := interactive;
               av_sealed_cid := pc_sealed_cid (pc_info precommit); av_unsealed_cid := commd |} :: svis)
  end.

Definition prove_commit_aggregate (params : ProveCommitAggregateParams) : Prog U unit :=
  sector_numbers ← unwrap_or_abort (pg_sector_numbers params) ErrIllegalState;
  let agg_sectors_count := bits_len sector_numbers in
  _ ← abort_if (MAX_AGGREGATED_SECTORS <? agg_sectors_count) ErrIllegalArgument;
  _ ← abort_if (agg_sectors_count <? MIN_AGGREGATED_SECTORS) ErrIllegalArgument;
  _ ← abort_if (MAX_AGGREGATED_PROOF_SIZE <? Z.of_nat (length (aggregate_proof params))) ErrIllegalArgument;
  st ← get_state;
  _ ← validate_immediate_caller_is (controllers (ms_info st));
  precommits ← box ErrIllegalState (get_all_precommitted_sectors st sector_numbers);
  acc ← of_code (try_fold aggregate_one (None, [], []) precommits);
  let '(_, precommits_to_confirm, inputs) := (acc : option RegisteredSealProof * list SectorPreCommitOnChainInfo * list SectorDataSpec) in
  comm_ds ← request_unsealed_sector_cids inputs;
  miner_actor_id ← receiver_id;
  svis ← aggregate_infos (zip precommits comm_ds);
  first ← unwrap_or_abort (head precommits) SysErrActorPanic;
  v ← syscall (VerifyAggregateSeals (enc {| av_miner := miner_actor_id; av_seal_proof := pc_seal_proof (pc_info first);
        av_aggregate_proof := SnarkPackV1; av_proof := aggregate_proof params; av_infos := svis |}));
  _ ← unwrap_or_abort v ErrIllegalArgument;
  rew ← request_current_epoch_block_reward;
  pwr ← request_current_total_power;
  _ ← confirm_sector_proofs_valid_internal precommits_to_confirm (er_baseline_power rew) (er_smoothed rew) (tp_quality_adj_power_smoothed pwr);
  st ← get_state;
  let aggregate_fee := aggregate_prove_commit_network_fee (Z.of_nat (length precommits_to_confirm)) (base_fee rt) in
  b ← current_balance;
  unlocked_balance ← box ErrIllegalState (get_unlocked_balance (ms_funds st) b);
  _ ← abort_if (unlocked_balance <? aggregate_fee) ErrInsufficientFunds;
  _ ← burn_funds aggregate_fee;
  check_invariants st.

Definition check_sector_proven (params : CheckSectorProvenParams) : Prog U unit :=
  _ ← validate_immediate_caller_accept_any;
  _ ← abort_if (MAX_SECTOR_NUMBER <? cp_sector_number params) ErrIllegalArgument;
  st ← get_state;
  o ← box ErrIllegalState (get_sector st (cp_sector_number params));
  match o with None => abort ErrNotFound | Some _ => mret tt end.

(** *** Sectors of the deadlines *)

Definition extend_sector_expiration (params : ExtendSectorExpirationParams) : Prog U unit :=
  _ ← abort_if (DELCARATIONS_MAX <? Z.of_nat (length (extensions params))) ErrIllegalArgument;
  sector_count ← of_code (try_fold extend_check 0 (extensions params));
  _ ← abort_if (ADDRESSED_SECTORS_MAX <? sector_count) ErrIllegalArgument;
  '(power_delta, pledge_delta) ← transaction (λ st : MinerState,
    _ ← validate_immediate_caller_is (controllers (ms_info st));
    of_code (extend_tx st (curr_epoch rt) (extensions params)));
  _ ← request_update_power power_delta;
  notify_pledge_changed pledge_delta.

Definition miner_terminate_sectors (params : TerminateSectorsParams) : Prog U TerminateSectorsReturn :=
  to_process ← of_code (declared ((λ t, (td_deadline t, td_partition t, td_sectors t)) <$> terminations params));
  '(had_early_terminations, power_delta) ← transaction (λ st : MinerState,
    let had_early_terminations := have_pending_early_terminations st in
    _ ← validate_immediate_caller_is (controllers (ms_info st));
    '(st, power_delta) ← of_code (terminate_tx st (curr_epoch rt) to_process);
    mret (st, (had_early_terminations, power_delta)));
  epoch_reward ← request_current_epoch_block_reward;
  pwr_total ← request_current_total_power;
  more ← process_early_terminations rt (er_smoothed epoch_reward) (tp_quality_adj_power_smoothed pwr_total);
  _ ← (if more && negb had_early_terminations then schedule_early_termination_work rt else mret tt);
  _ ← check_state;
  _ ← request_update_power power_delta;
  mret {| ts_done := negb more |}.

Definition miner_declare_faults (params : DeclareFaultsParams) : Prog U unit :=
  to_process ← of_code (declared ((λ t, (fd_deadline t, fd_partition t, fd_sectors t)) <$> df_faults params));
  power_delta ← transaction (λ st : MinerState,
    _ ← validate_immediate_caller_is (controllers (ms_info st));
    of_code (declare_faults_tx st (curr_epoch rt) to_process));
  request_update_power power_delta.

Definition miner_declare_faults_recovered (params : DeclareFaultsRecoveredParams) : Prog U unit :=
  to_process ← of_code (declared ((λ t, (rd_deadline t, rd_partition t, rd_sectors t)) <$> df_recoveries params));
  fee_to_burn ← transaction (λ st : MinerState,
    '(st, fee_to_burn) ← repay_debts_or_abort st;
    let info := ms_info st in
    _ ← validate_immediate_caller_is (controllers info);
    _ ← abort_if (consensus_fault_active info (curr_epoch rt)) ErrForbidden;
    st ← of_code (recoveries_tx st (curr_epoch rt) to_process);
    mret (st, fee_to_burn));
  _ ← burn_funds fee_to_burn;
  check_state.

Definition compact_partitions (params : CompactPartitionsParams) : Prog U unit :=
  _ ← abort_if (WPOST_PERIOD_DEADLINES <=? cp_deadline params) ErrIllegalArgument;
  partitions ← unwrap_or_abort (cp_partitions params) ErrIllegalArgument;
  let partition_count := bits_len partitions in
  transaction (λ st : MinerState,
    let info := ms_info st in
    _ ← validate_immediate_caller_is (controllers info);
    available ← unwrap_or_abort (deadline_available_for_compaction (ms_current_proving_period_start st (curr_epoch rt)) (cp_deadline params) (curr_epoch rt))
                  SysErrActorPanic;
    _ ← abort_if (negb available) ErrForbidden;
    _ ← abort_if (load_partitions_sectors_max (mi_window_post_partition_sectors info) <? partition_count) ErrIllegalArgument;
    st ← of_code (compact_tx st (cp_deadline params) partitions);
    mret (st, tt)).

Definition compact_sector_numbers (params : CompactSectorNumbersParams) : Prog U unit :=
  mask ← unwrap_or_abort (mask_sector_numbers params) ErrIllegalArgument;
  last_sector_number ← unwrap_or_abort (last (bits mask)) ErrIllegalArgument;
  _ ← abort_if (MAX_SECTOR_NUMBER <? last_sector_number) ErrIllegalArgument;
  transaction (λ st : MinerState,
    _ ← validate_immediate_caller_is (controllers (ms_info st));
    st ← of_code (allocate_sector_numbers st mask AllowCollisions);
    mret (st, tt)).

(** *** Dispatch *)

Context `{!Dec MinerConstructorParams, !Enc GetControlAddressesReturn, !Dec ChangeWorkerAddressParams, !Dec ChangePeerIDParams}.
Context `{!Dec SubmitWindowedPoStParams, !Dec SectorPreCommitInfo, !Dec ProveCommitSectorParams, !Dec ExtendSectorExpirationParams}.
Context `{!Dec TerminateSectorsParams, !Enc TerminateSectorsReturn, !Dec DeclareFaultsParams, !Dec DeclareFaultsRecoveredParams}.
Context `{!Dec DeferredCronEventParams, !Dec CheckSectorProvenParams, !Dec ApplyRewardParams, !Dec ReportConsensusFaultParams}.
Context `{!Dec MinerWithdrawBalanceParams, !Enc MinerWithdrawBalanceReturn, !Dec ConfirmSectorProofsParams, !Dec ChangeMultiaddrsParams}.
Context `{!Dec CompactPartitionsParams, !Dec CompactSectorNumbersParams, !Dec DisputeWindowedPoStParams, !Dec PreCommitSectorBatchParams}.
Context `{!Dec ProveCommitAggregateParams}.

Definition miner_invoke_method (method : Z) (params : bytes) : Prog U bytes :=
  match method with
  | 1 => call_unit params (miner_constructor rt)
  | 2 => r ← control_addresses; mret (enc r)
  | 3 => call_unit params (change_worker_address rt)
  | 4 => call_unit params change_peer_id
  | 5 => call_unit params submit_windowed_post
  | 6 => call_unit params pre_commit_sector
  | 7 => call_unit params prove_commit_sector
  | 8 => call_unit params extend_sector_expiration
  | 9 => call_ret params miner_terminate_sectors
  | 10 => call_unit params miner_declare_faults
  | 11 => call_unit params miner_declare_faults_recovered
  | 12 => call_unit params (on_deferred_cron_event absent_ok rt)
  | 13 => call_unit params check_sector_proven
  | 14 => call_unit params (apply_rewards rt)
  | 15 => call_unit params (report_consensus_fault rt)
  | 16 => call_ret params (miner_withdraw_balance rt)
  | 17 => call_unit params confirm_sector_proofs_valid
  | 18 => call_unit params change_multiaddresses
  | 19 => call_unit params compact_partitions
  | 20 => call_unit params compact_sector_numbers
  | 21 => _ ← confirm_update_worker_key rt; mret []
  | 22 => _ ← repay_debt rt; mret []
  | 23 => call_unit params (change_owner_address rt)
  | 24 => call_unit params dispute_windowed_post
  | 25 => call_unit params pre_commit_sector_batch
  | 26 => call_unit params prove_commit_aggregate
  | _ => invalid_method
  end.

End handlers.
