(* ===== verification/MinerInv.v ===== *)
(** * What a miner's state always satisfies

    The invariant [miner_inv] of the state of a miner, and that every operation
    and transaction on the state keeps it. *)

From S2P Require Import Prelude Address Runtime Types Smooth Reward SimpleActors Power Market.
From S2P Require Import Vesting MinerFunds Sectors Expirations Partition DeadlineAssign SectorMaps DeadlineState MinerState MinerActor MinerHandlers.

(** ** The invariant *)

(** Keys, sizes and bounds of the identity. *)
Record info_inv (i : MinerInfo) : Prop := {
  iv_owner : is_id (mi_owner i); iv_worker : is_id (mi_worker i); iv_controls : Forall is_id (mi_control_addresses i);
  iv_pending : ∀ k, mi_pending_worker_key i = Some k → is_id (new_worker k);
  iv_pending_owner : ∀ a, mi_pending_owner_address i = Some a → is_id a ∧ a ≠ mi_owner i;
  iv_control_count : Z.of_nat (length (mi_control_addresses i)) ≤ MAX_CONTROL_ADDRESSES;
  iv_peer : check_peer_info (mi_peer_id i) (mi_multi_address i) = Ok tt;
  iv_size : post_sector_size (mi_window_post_proof_type i) = Ok (mi_sector_size i);
  iv_partition : post_window_partitions_sector (mi_window_post_proof_type i) = Ok (mi_window_post_partition_sectors i) }.

(** A sector of the table is found under its number, and lives as long as a sector must. *)
Definition sector_inv (n : Z) (s : SectorOnChainInfo) : Prop :=
  sector_number s = n ∧ n ≤ MAX_SECTOR_NUMBER ∧ MIN_SECTOR_EXPIRATION ≤ expiration s - activation s.
Definition precommit_inv (allocated : gset Z) (n : Z) (pc : SectorPreCommitOnChainInfo) : Prop :=
  pc_sector_number (pc_info pc) = n ∧ n ∈ allocated ∧ 0 < pre_commit_deposit pc.

Record miner_inv (st : MinerState) : Prop := {
  mv_info : info_inv (ms_info st);
  mv_funds : funds_ok (ms_funds st);
  mv_precommits : map_Forall (precommit_inv (ms_allocated_sectors st)) (ms_pre_committed_sectors st);
  mv_sectors : map_Forall sector_inv (ms_sectors st);
  mv_deadlines : length (ms_deadlines st) = Z.to_nat WPOST_PERIOD_DEADLINES;
  mv_current : ms_current_deadline st < WPOST_PERIOD_DEADLINES;
  mv_early : set_Forall (λ i, i < WPOST_PERIOD_DEADLINES) (ms_early_terminations st) }.

(** ** Steps of a run *)

Lemma downcast_Ok {A} (r : result BoxErr A) c a : downcast_default r c = Ok a → r = Ok a.
Proof. by destruct r as [|[]]; intros [=->]. Qed.
Lemma proof_or_Ok {A} c (r : result TypesError A) a : proof_or c r = Ok a → r = Ok a.
Proof. by destruct r; intros [=->]. Qed.

(** Opens a successful run, step by step. *)
Ltac inv_step :=
  match goal with
  | H : mret ?x = @Ok ?E ?A ?y |- _ => change (@Ok E A x = @Ok E A y) in H
  | H : Ok _ = Ok _ |- _ => injection H; clear H; intros; try subst
  | H : downcast_default _ _ = Ok _ |- _ => apply downcast_Ok in H
  | H : proof_or _ _ = Ok _ |- _ => apply proof_or_Ok in H
  | H : (let '(_, _) := ?x in _) = Ok _ |- _ => destruct x
  | H : match ?l with [] => _ | _ :: _ => _ end = Ok _ |- _ => destruct l eqn:?
  | H : context [(?a, ?b).1] |- _ => progress cbn [fst snd] in H
  | _ => inv_ok_step
  end.
Ltac inv_tx := repeat inv_step.

(** ** Funds *)

Section funds.
Implicit Types f : MinerFunds.

Lemma deposit_inv f a f' : funds_ok f → add_pre_commit_deposit f a = Ok f' → funds_ok f'.
Proof. intros (?&?&?&?&?) Hr. unfold add_pre_commit_deposit in Hr. inv_tx. reflect_bools. by split_and!. Qed.
Lemma pledge_inv f a f' : funds_ok f → add_initial_pledge f a = Ok f' → funds_ok f'.
Proof. intros (?&?&?&?&?) Hr. unfold add_initial_pledge in Hr. inv_tx. reflect_bools. by split_and!. Qed.
Lemma penalty_inv f a f' : funds_ok f → apply_penalty f a = Ok f' → funds_ok f'.
Proof. intros (?&?&?&?&?) Hr. unfold apply_penalty in Hr. inv_tx. reflect_bools. split_and!; cbn; try done; lia. Qed.
Lemma vested_inv f e f' v : funds_ok f → unlock_vested_funds f e = Ok (f', v) → funds_ok f'.
Proof. intros Hf H. destruct (unlock_vested_ok f e Hf) as (f1 & v1 & E & ? & _). rewrite H in E. by injection E as -> _. Qed.
Lemma repay_debts_inv f b f' v : funds_ok f → repay_debts f b = Ok (f', v) → funds_ok f'.
Proof. intros (?&?&?&?&?) Hr. unfold repay_debts in Hr. inv_tx. by split_and!. Qed.
Lemma repay_partial_inv f e b f' r : funds_ok f → repay_partial_debt_in_priority_order f e b = Ok (f', r) → funds_ok f'.
Proof.
  intros Hf H. unfold repay_partial_debt_in_priority_order, get_unlocked_balance in H. pose proof Hf as (_ & Hd & _).
  destruct (unlock_unvested_ok f e (fee_debt f) Hf Hd) as (f1 & u & E & (Hp & _ & Hi & Ht & Hl) & _ & _ & Hd1 & _). rewrite E in H. inv_tx. reflect_bools.
  split_and!; cbn; try done; try lia; apply Ht.
Qed.
Lemma locked_inv f pps e v f' r : funds_ok f → add_locked_funds f pps e v REWARD_VESTING_SPEC = Ok (f', r) → funds_ok f'.
Proof.
  intros (Hp & Hd & Hi & Ht & Hl) H. unfold add_locked_funds in H. pose proof (vf_unlock_vested_spec _ e Ht) as Hu.
  destruct (vf_unlock_vested_funds (vesting_funds f) e) as [t u]. destruct Hu as (Ht1 & _ & Ha & _).
  assert (Hv : 0 ≤ v) by (inv_tx; reflect_bools; lia).
  destruct (vf_add_locked_spec t e v pps REWARD_VESTING_SPEC Ht1) as (t' & E & Ht2 & Ha2 & _); [by vm_compute|done|]. rewrite E in H. cbn [ok_or] in H. inv_tx.
  split_and!; cbn -[amounts]; try done; (apply Ht2 || lia).
Qed.
End funds.

(** From the funds at the end of a chain of operations back to those at its start. *)
Ltac funds_step :=
  match goal with
  | H : add_pre_commit_deposit _ _ = Ok ?f |- funds_ok ?f => eapply deposit_inv, H
  | H : add_initial_pledge _ _ = Ok ?f |- funds_ok ?f => eapply pledge_inv, H
  | H : apply_penalty _ _ = Ok ?f |- funds_ok ?f => eapply penalty_inv, H
  | H : unlock_vested_funds _ _ = Ok (?f, _) |- funds_ok ?f => eapply vested_inv, H
  | H : repay_debts _ _ = Ok (?f, _) |- funds_ok ?f => eapply repay_debts_inv, H
  | H : repay_partial_debt_in_priority_order _ _ _ = Ok (?f, _) |- funds_ok ?f => eapply repay_partial_inv, H
  | H : add_locked_funds _ _ _ _ _ = Ok (?f, _) |- funds_ok ?f => eapply locked_inv, H
  | H : miner_inv ?st |- funds_ok (ms_funds ?st) => exact (mv_funds _ H)
  end.
Create HintDb miner.
#[export] Hint Extern 1 (funds_ok _) => repeat funds_step : miner.

(** ** Deadlines *)

Lemma update_length ds i d ds' : update_deadline ds i d = Ok ds' → length ds' = length ds.
Proof. unfold update_deadline. intros H. inv_tx. by rewrite length_insert. Qed.
Lemma load_index ds i d : load_deadline ds i = Ok d → i < WPOST_PERIOD_DEADLINES.
Proof. unfold load_deadline. intros H. inv_tx. by reflect_bools. Qed.
Lemma map_iter_lookup {V} (m : gmap Z V) e : e ∈ map_iter m → m !! e.1 = Some e.2.
Proof. unfold map_iter. rewrite sort_by_perm. destruct e. by rewrite elem_of_map_to_list. Qed.

(** ** Parts of the state *)

Section parts.
Implicit Types st : MinerState.

Lemma set_info_inv st i : miner_inv st → info_inv i → miner_inv (set_info st i).
Proof. intros [] ?. by split. Qed.
Lemma set_funds_inv st f : miner_inv st → funds_ok f → miner_inv (set_funds st f).
Proof. intros [] ?. by split. Qed.
Lemma set_period_inv st start d b : miner_inv st → d < WPOST_PERIOD_DEADLINES → miner_inv (set_period st start d b).
Proof. intros [] ?. by split. Qed.
Lemma set_precommits_inv st pcs q al : miner_inv st → map_Forall (precommit_inv al) pcs → miner_inv (set_precommits st pcs q al).
Proof. intros [] ?. by split. Qed.
Lemma set_sectors_inv st m ds et :
  miner_inv st → map_Forall sector_inv m → length ds = Z.to_nat WPOST_PERIOD_DEADLINES → set_Forall (λ i, i < WPOST_PERIOD_DEADLINES) et →
  miner_inv (set_sectors st m ds et).
Proof. intros [] ???. by split. Qed.
Lemma save_deadlines_inv st ds : miner_inv st → length ds = Z.to_nat WPOST_PERIOD_DEADLINES → miner_inv (save_deadlines st ds).
Proof. intros Hi ?. apply set_sectors_inv; [done|apply Hi|done|apply Hi]. Qed.

Lemma miner_new_inv i start d : info_inv i → d < WPOST_PERIOD_DEADLINES → miner_inv (miner_state_new i start d).
Proof. intros Hi Hd. split; cbn; try done. split_and!; try done. by split; constructor. Qed.
Lemma info_new_inv ow wk cs pid ma pt i :
  is_id ow → is_id wk → Forall is_id cs → check_control_addresses cs = Ok tt → check_peer_info pid ma = Ok tt →
  miner_info_new ow wk cs pid ma pt = Ok i → info_inv i.
Proof.
  intros ??? Hc ? H. unfold check_control_addresses in Hc. apply throw_if_Ok in Hc. reflect_bools. unfold miner_info_new, or_illegal in H.
  destruct (post_sector_size pt) eqn:E1; [|done]. destruct (post_window_partitions_sector pt) eqn:E2; [|done]. injection H as <-. by split.
Qed.

(** *** Sectors and pre-commitments *)

Lemma allocate_inv st X pol st' : miner_inv st → allocate_sector_numbers st X pol = Ok st' → miner_inv st'.
Proof.
  intros Hi H. unfold allocate_sector_numbers in H. inv_tx. apply set_precommits_inv; [done|]. intros n pc Hn. destruct (mv_precommits _ Hi n pc Hn) as (? & ? & ?). repeat split; set_solver.
Qed.
Lemma put_precommitted_inv st l st' :
  miner_inv st → Forall (λ pc, pc_sector_number (pc_info pc) ∈ ms_allocated_sectors st ∧ 0 < pre_commit_deposit pc) l →
  put_precommitted_sectors st l = Ok st' → miner_inv st'.
Proof.
  intros Hi Hl H. unfold put_precommitted_sectors in H. inv_tx. apply set_precommits_inv; [done|]. match goal with H : try_fold _ _ _ = Ok _ |- _ => revert H end.
  apply (try_fold_inv (map_Forall (precommit_inv (ms_allocated_sectors st)))); [|apply Hi]. intros m pc m' Hpc Hm Hr. inv_tx. apply map_Forall_insert_2; [|done].
  rewrite Forall_forall in Hl. destruct (Hl pc Hpc). by split_and!.
Qed.
Lemma delete_precommitted_inv absent_ok st l st' : miner_inv st → delete_precommitted_sectors absent_ok st l = Ok st' → miner_inv st'.
Proof.
  intros Hi H. unfold delete_precommitted_sectors in H. inv_tx. apply set_precommits_inv; [done|]. match goal with H : try_fold _ _ _ = Ok _ |- _ => revert H end.
  apply (try_fold_inv (map_Forall (precommit_inv (ms_allocated_sectors st)))); [|apply Hi]. intros m n m' _ Hm Hr. destruct (m !! n); [|destruct (absent_ok m n)]; inv_tx; [by apply map_Forall_delete|done].
Qed.
Lemma cleanups_inv st ev st' : miner_inv st → add_pre_commit_clean_ups st ev = Ok st' → miner_inv st'.
Proof. intros Hi H. unfold add_pre_commit_clean_ups in H. inv_tx. apply set_precommits_inv; [done|apply Hi]. Qed.

Lemma cleanup_inv absent_ok st e st' v : miner_inv st → cleanup_expired_pre_commits absent_ok st e = Ok (st', v) → miner_inv st' ∧ 0 ≤ v.
Proof.
  intros Hi H. unfold cleanup_expired_pre_commits in H. apply bind_Ok in H as ([q [X modified]] & _ & H). cbn beta iota zeta in H.
  set (st1 := if modified then _ else st) in *. assert (Hi1 : miner_inv st1) by (unfold st1; destruct modified; [apply set_precommits_inv; [done|apply Hi]|done]).
  assert (Hex : Forall (λ e : Z * SectorPreCommitOnChainInfo, 0 ≤ pre_commit_deposit e.2) (omap (λ n, (λ pc, (n, pc)) <$> get_precommitted_sector st1 n) (bits X))).
  { apply Forall_forall. intros [n pc] (n' & _ & (pc' & Hn & [= <- <-])%fmap_Some)%list_elem_of_omap. destruct (mv_precommits _ Hi1 n pc Hn) as (_ & _ & ?). cbn. lia. }
  revert H. generalize dependent (omap (λ n, (λ pc, (n, pc)) <$> get_precommitted_sector st1 n) (bits X)). intros ex Hex H.
  assert (0 ≤ zsum ((λ e, pre_commit_deposit e.2) <$> ex)) by (apply zsum_nonneg; by apply Forall_fmap).
  assert (∀ st2, (match ex with [] => mret st1 | _ :: _ => delete_precommitted_sectors absent_ok st1 ex.*1 end) = Ok st2 → miner_inv st2).
  { intros st2 Hst2. destruct ex; [by inv_tx|by eapply delete_precommitted_inv]. }
  apply bind_Ok in H as (st2 & Hst2 & H). apply bind_Ok in H as (? & Hg & H). apply throw_if_Ok in Hg. injection H as <- <-. reflect_bools. split; [|done].
  apply set_funds_inv; [auto|]. destruct (mv_funds st2) as (?&?&?&?&?); [auto|]. by split_and!.
Qed.

Lemma sectors_store_inv m l m' :
  map_Forall sector_inv m → Forall (λ s, MIN_SECTOR_EXPIRATION ≤ expiration s - activation s) l → sectors_store m l = Ok m' → map_Forall sector_inv m'.
Proof.
  intros Hm Hl. unfold sectors_store. apply (try_fold_inv (map_Forall sector_inv)); [|done]. intros m1 s m2 Hs Hm1 Hr. unfold amt_set in Hr. inv_tx. reflect_bools.
  apply map_Forall_insert_2; [|done]. rewrite Forall_forall in Hl. by split_and!; [done..|apply Hl].
Qed.
Lemma put_sectors_inv st l st' :
  miner_inv st → Forall (λ s, MIN_SECTOR_EXPIRATION ≤ expiration s - activation s) l → put_sectors st l = Ok st' → miner_inv st'.
Proof. intros Hi Hl H. unfold put_sectors in H. inv_tx. apply set_sectors_inv; [done|by eapply sectors_store_inv, Hm; [apply Hi|]|apply Hi|apply Hi]. Qed.
Lemma delete_sectors_inv st X st' : miner_inv st → delete_sectors st X = Ok st' → miner_inv st'.
Proof.
  intros Hi H. unfold delete_sectors in H. inv_tx. apply set_sectors_inv; [done| |apply Hi|apply Hi]. revert Hm. apply (try_fold_inv (map_Forall sector_inv)); [|apply Hi].
  intros m n m' _ Hmi Hr. unfold amt_del in Hr. inv_tx. by apply map_Forall_delete.
Qed.
End parts.

(** ** Operations on the deadlines *)

Section deadlines.
Context (hash_order : gset Z → list Z) (absent_ok : gmap Z SectorPreCommitOnChainInfo → Z → bool).
Implicit Types st : MinerState.

Lemma reschedule_inv st e size dm st' r : miner_inv st → ms_reschedule_sector_expirations hash_order st e size dm = Ok (st', r) → miner_inv st'.
Proof.
  intros Hi H. unfold ms_reschedule_sector_expirations in H. apply bind_Ok in H as ([ds l] & H & [= <- <-]). apply save_deadlines_inv; [done|].
  revert H. apply (try_fold_inv (λ a : Deadlines * list SectorOnChainInfo, length a.1 = Z.to_nat WPOST_PERIOD_DEADLINES)); [|apply Hi].
  intros [a1 a2] [i pm] b' _ Ha Hr. unfold reschedule_deadline in Hr. inv_tx. cbn in *. match goal with H : update_deadline _ _ _ = _ |- _ => by rewrite (update_length _ _ _ _ H) end.
Qed.
Lemma assign_inv st e l psz size st' : miner_inv st → assign_sectors_to_deadlines st e l psz size = Ok st' → miner_inv st'.
Proof.
  intros Hi H. unfold assign_sectors_to_deadlines in H. apply bind_Ok in H as (dv & _ & H). apply bind_Ok in H as (dts & _ & H). apply bind_Ok in H as (ds & H & [= <-]). apply save_deadlines_inv; [done|].
  revert H. apply (try_fold_inv (λ a : Deadlines, length a = Z.to_nat WPOST_PERIOD_DEADLINES)); [|apply Hi].
  intros ds1 [i sl] ds2 _ Ha Hr. unfold assign_to_deadline in Hr. inv_tx; [done|]. by rewrite (update_length _ _ _ _ Hr).
Qed.

Lemma pop_early_loop_inv mp ms l acc acc' :
  length acc.1 = Z.to_nat WPOST_PERIOD_DEADLINES → ms_pop_early_loop mp ms l acc = Ok acc' → length acc'.1 = Z.to_nat WPOST_PERIOD_DEADLINES.
Proof.
  revert acc. induction l as [|i l IH]; intros [ds [un r]] Ha H; cbn in H; [by inv_tx|]. apply bind_Ok in H as (d & _ & H). apply bind_Ok in H as ([d' [r' more]] & _ & H).
  apply bind_Ok in H as (ds' & Hu & H). assert (Hl : length ds' = Z.to_nat WPOST_PERIOD_DEADLINES) by (by rewrite (update_length _ _ _ _ Hu)).
  destruct (below_limit _ _ _); [by eapply IH, H|]. by injection H as <-.
Qed.
Lemma pop_early_inv st mp ms st' r : miner_inv st → ms_pop_early_terminations st mp ms = Ok (st', r) → miner_inv st'.
Proof.
  intros Hi H. unfold ms_pop_early_terminations in H. case_bool_decide; [by inv_tx|]. apply bind_Ok in H as ([ds [un tr]] & Hl & [= <- _]).
  apply set_sectors_inv; [done|apply Hi|by apply (pop_early_loop_inv _ _ _ (_, _) _ (mv_deadlines _ Hi) Hl)|]. intros i [Hin _]%elem_of_difference. by apply (mv_early _ Hi).
Qed.

Lemma info_index st e : d_index (deadline_info st e) < WPOST_PERIOD_DEADLINES.
Proof.
  unfold deadline_info, new_deadline_info_from_offset_and_epoch. set (i := _ mod _). assert (0 ≤ i < WPOST_PERIOD_DEADLINES) by (apply Z.mod_pos_bound; done).
  unfold new_deadline_info, deadline_info_new. case_if; cbn; lia.
Qed.
Lemma advance_inv st e st' r : miner_inv st → advance_deadline st e = Ok (st', r) → miner_inv st'.
Proof.
  intros Hi H. unfold advance_deadline in H. destruct (period_started _); cbn [negb] in H; [|by injection H as <- <-]. set (st1 := set_period _ _ _ _) in *.
  assert (Hi1 : miner_inv st1) by (apply set_period_inv; [done|apply Z.mod_pos_bound; done]). clearbody st1.
  apply bind_Ok in H as (d & _ & H). destruct (is_live d); cbn [negb] in H; [|by injection H as <- <-].
  apply bind_Ok in H as ([d1 [δ det]] & _ & H). apply bind_Ok in H as ([d2 ex] & _ & H). apply bind_Ok in H as (f & Hf & H). apply bind_Ok in H as (ds & Hu & [= <- _]).
  apply set_sectors_inv; [apply set_funds_inv; [done|by eapply pledge_inv, Hf; apply Hi1]|apply Hi1| |].
  - rewrite (update_length _ _ _ _ Hu). apply Hi1.
  - case_bool_decide; [apply Hi1|]. intros i [->%elem_of_singleton|Hin]%elem_of_union; [apply info_index|by apply (mv_early _ Hi1)].
Qed.

(** ** Transactions *)

Lemma pending_worker_inv st e : miner_inv st → miner_inv (process_pending_worker st e).
Proof.
  intros Hi. unfold process_pending_worker. destruct (mi_pending_worker_key _) as [k|] eqn:Ek; [|done]. case_if; [done|]. apply set_info_inv; [done|].
  destruct (mv_info _ Hi) as [H1 H2 H3 H4 H5 H6 H7 H8 H9]. split; try done. by apply H4.
Qed.
Lemma terminations_inv st e b rs qs st' r : miner_inv st → terminations_tx st e b rs qs = Ok (st', r) → miner_inv st'.
Proof.
  intros Hi H. unfold terminations_tx in H. apply bind_Ok in H as ([st1 [tr more]] & H1%downcast_Ok & H). pose proof (pop_early_inv _ _ _ _ _ Hi H1) as Hi1.
  destruct (tr_is_empty tr); [by injection H as <- _|]. apply bind_Ok in H as ([[tp pen] deals] & _ & H). inv_tx. apply set_funds_inv; [done|]. pose proof (mv_funds _ Hi1). auto with miner.
Qed.
Lemma deadline_inv st e b rs qs st' r : miner_inv st → deadline_tx absent_ok st e b rs qs = Ok (st', r) → miner_inv st'.
Proof.
  intros Hi H. unfold deadline_tx in H. apply bind_Ok in H as ([f v] & Hf%downcast_Ok & H). pose proof (vested_inv _ _ _ _ (mv_funds _ Hi) Hf) as Hf1.
  pose proof (pending_worker_inv _ e (set_funds_inv _ _ Hi Hf1)) as Hi1. set (st1 := process_pending_worker _ _) in *. clearbody st1.
  apply bind_Ok in H as ([st2 dep] & H2%downcast_Ok & H). destruct (cleanup_inv _ _ _ _ _ Hi1 H2) as [Hi2 _]. apply bind_Ok in H as (f2 & Hf2%downcast_Ok & H).
  pose proof (set_funds_inv _ _ Hi2 (penalty_inv _ _ _ (mv_funds _ Hi2) Hf2)) as Hi3. apply bind_Ok in H as ([st3 res] & H3%downcast_Ok & H). pose proof (advance_inv _ _ _ _ Hi3 H3) as Hi4.
  apply bind_Ok in H as (f3 & Hf3%downcast_Ok & H). apply bind_Ok in H as ([f4 [pv pb]] & Hf4%downcast_Ok & [= <- _]). pose proof (mv_funds _ Hi4).
  apply set_period_inv; [apply set_funds_inv; [done|by auto with miner]|apply Hi4].
Qed.
Lemma precommit_inv_tx st av X acc st' b :
  miner_inv st → Forall (λ pc, pc_sector_number (pc_info pc) ∈ X ∧ 0 < pre_commit_deposit pc) acc.1.1 → precommit_tx st av X acc = Ok (st', b) → miner_inv st'.
Proof.
  clear hash_order absent_ok. intros Hi Hl H. destruct acc as [[l tot] ev]. unfold precommit_tx in H. apply bind_Ok in H as (? & _ & H). apply bind_Ok in H as (f & Hf%downcast_Ok & H).
  pose proof (set_funds_inv _ _ Hi (deposit_inv _ _ _ (mv_funds _ Hi) Hf)) as Hi1. apply bind_Ok in H as (st2 & H2 & H). pose proof (allocate_inv _ _ _ _ Hi1 H2) as Hi2.
  apply bind_Ok in H as (st3 & H3%downcast_Ok & H). assert (Hi3 : miner_inv st3).
  { eapply put_precommitted_inv, H3; [done|]. eapply Forall_impl; [exact Hl|]. intros pc [Hx Hd]. split; [|done]. unfold allocate_sector_numbers in H2. inv_tx. cbn. set_solver. }
  apply bind_Ok in H as (st4 & H4%downcast_Ok & [= <- _]). pose proof (cleanups_inv _ _ _ Hi3 H4) as Hi4. apply set_period_inv; [done|apply Hi4].
Qed.
Lemma confirm_loop_inv info e cs bp rs qs rb l acc acc' :
  Forall (λ s, MIN_SECTOR_EXPIRATION ≤ expiration s - activation s) acc.1.1 → try_fold (confirm_one info e cs bp rs qs rb) acc l = Ok acc' →
  Forall (λ s, MIN_SECTOR_EXPIRATION ≤ expiration s - activation s) acc'.1.1.
Proof.
  apply (try_fold_inv (λ a : list SectorOnChainInfo * Z * Z, Forall (λ s, MIN_SECTOR_EXPIRATION ≤ expiration s - activation s) a.1.1)).
  intros [[ns dep] tp] pc acc2 _ Ha Hr. unfold confirm_one in Hr. destruct (_ <? MIN_SECTOR_EXPIRATION) eqn:E; [by injection Hr as <-|]. apply bind_Ok in Hr as ([[rp ra] rr] & _ & [= <-]).
  reflect_bools. apply Forall_app. split; [done|]. by apply Forall_singleton.
Qed.
Lemma confirm_inv st e b cs bp rs qs dm l st' v : miner_inv st → confirm_tx hash_order absent_ok st e b cs bp rs qs dm l = Ok (st', v) → miner_inv st'.
Proof.
  intros Hi H. unfold confirm_tx in H. apply bind_Ok in H as ([st1 rep] & H1%downcast_Ok & H). pose proof (reschedule_inv _ _ _ _ _ _ Hi H1) as Hi1. apply bind_Ok in H as ([[ns dep] tp] & Hc & H).
  apply confirm_loop_inv in Hc; [|done]. apply bind_Ok in H as (st2 & H2%downcast_Ok & H). pose proof (put_sectors_inv _ _ _ Hi1 Hc H2) as Hi2.
  apply bind_Ok in H as (st3 & H3%downcast_Ok & H). pose proof (delete_precommitted_inv _ _ _ _ Hi2 H3) as Hi3. apply bind_Ok in H as (st4 & H4%downcast_Ok & H). pose proof (assign_inv _ _ _ _ _ _ Hi3 H4) as Hi4.
  pose proof (mv_funds _ Hi4). unfold get_unlocked_balance in H. inv_tx. apply set_funds_inv; [done|]. auto with miner.
Qed.

Lemma store_deadline_inv st i d st' : miner_inv st → store_deadline st i d = Ok st' → miner_inv st'.
Proof. intros Hi H. unfold store_deadline in H. inv_tx. apply save_deadlines_inv; [done|]. rewrite (update_length _ _ _ _ Hm). apply Hi. Qed.
Lemma dispute_inv st t i e b rs qs d di st' r : miner_inv st → dispute_tx hash_order st t i e b rs qs d di = Ok (st', r) → miner_inv st'.
Proof.
  intros Hi H. unfold dispute_tx in H. apply bind_Ok in H as ([d1 δ] & _ & H). apply bind_Ok in H as (st1 & H1 & H). pose proof (store_deadline_inv _ _ _ _ Hi H1) as Hi1. pose proof (mv_funds _ Hi1).
  apply bind_Ok in H as (f & Hf%downcast_Ok & H). apply bind_Ok in H as ([f1 [pv pb]] & Hf1%downcast_Ok & [= <- _]). apply set_funds_inv; [done|]. auto with miner.
Qed.
Lemma dispute_reward st t i e b rs qs d di st' r : dispute_tx hash_order st t i e b rs qs d di = Ok (st', r) → r.2 ≤ BASE_REWARD_FOR_DISPUTED_WINDOW_POST.
Proof.
  intros H. unfold dispute_tx in H. apply bind_Ok in H as ([d1 δ] & _ & H). apply bind_Ok in H as (st1 & H1 & H). apply bind_Ok in H as (f & Hf & H). apply bind_Ok in H as ([f1 [pv pb]] & Hf1 & [= _ <-]).
  unfold reward_for_disputed_window_post. cbn [snd]. lia.
Qed.

Lemma faults_inv st e dm st' δ : miner_inv st → declare_faults_tx hash_order st e dm = Ok (st', δ) → miner_inv st'.
Proof.
  intros Hi H. unfold declare_faults_tx in H. apply bind_Ok in H as ([ds l] & H & [= <- _]). apply save_deadlines_inv; [done|].
  revert H. apply (try_fold_inv (λ a : Deadlines * PowerPair, length a.1 = Z.to_nat WPOST_PERIOD_DEADLINES)); [|apply Hi].
  intros [a1 a2] [i pm] b' _ Ha Hr. unfold declare_fault_deadline in Hr. inv_tx. cbn in *. match goal with H : update_deadline _ _ _ = _ |- _ => by rewrite (update_length _ _ _ _ H) end.
Qed.
Lemma recoveries_inv st e dm st' : miner_inv st → recoveries_tx st e dm = Ok st' → miner_inv st'.
Proof.
  intros Hi H. unfold recoveries_tx in H. apply bind_Ok in H as (ds & H & [= <-]). apply save_deadlines_inv; [done|].
  revert H. apply (try_fold_inv (λ a : Deadlines, length a = Z.to_nat WPOST_PERIOD_DEADLINES)); [|apply Hi].
  intros a [i pm] b' _ Ha Hr. unfold recover_deadline in Hr. inv_tx. match goal with H : update_deadline _ _ _ = _ |- _ => by rewrite (update_length _ _ _ _ H) end.
Qed.
Lemma terminate_tx_inv st e dm st' δ : miner_inv st → terminate_tx hash_order st e dm = Ok (st', δ) → miner_inv st'.
Proof.
  intros Hi H. unfold terminate_tx in H. apply bind_Ok in H as ([[ds et] l] & H & [= <- _]).
  assert (length ds = Z.to_nat WPOST_PERIOD_DEADLINES ∧ set_Forall (λ i, i < WPOST_PERIOD_DEADLINES) et) as [Hl He].
  { revert H. apply (try_fold_inv (λ a : Deadlines * gset Z * PowerPair, length a.1.1 = Z.to_nat WPOST_PERIOD_DEADLINES ∧ set_Forall (λ i, i < WPOST_PERIOD_DEADLINES) a.1.2)); [|split; apply Hi].
    intros [[a1 a2] a3] [i pm] b' _ [Ha Hb] Hr. unfold terminate_deadline in Hr. inv_tx. cbn in *. split; [match goal with H : update_deadline _ _ _ = _ |- _ => by rewrite (update_length _ _ _ _ H) end|].
    intros j [->%elem_of_singleton|Hj]%elem_of_union; [by eapply load_index|by apply Hb]. }
  apply set_sectors_inv; [done|apply Hi|done..].
Qed.
Lemma compact_inv st i X st' : miner_inv st → compact_tx st i X = Ok st' → miner_inv st'.
Proof.
  intros Hi H. unfold compact_tx in H. apply bind_Ok in H as (d & _ & H). apply bind_Ok in H as ([d1 [[lv dd] rp]] & _ & H). apply bind_Ok in H as (st1 & H1%downcast_Ok & H).
  pose proof (delete_sectors_inv _ _ _ Hi H1) as Hi1. apply bind_Ok in H as (l & _ & H). apply bind_Ok in H as ([d2 ap] & _ & H). apply bind_Ok in H as (? & _ & H). by eapply store_deadline_inv.
Qed.

Lemma extended_lifetime e ne s s' : extended_sector e ne s = Ok s' → MIN_SECTOR_EXPIRATION ≤ expiration s' - activation s'.
Proof. intros H. unfold extended_sector, validate_expiration in H. inv_tx. reflect_bools. cbn. lia. Qed.
Lemma mapM_Forall {A B E} (P : B → Prop) (f : A → result E B) l l' : (∀ a b, f a = Ok b → P b) → mapM f l = Ok l' → Forall P l'.
Proof.
  intros Hf. revert l'. induction l as [|a l IH]; intros l' H; cbn in H; [by injection H as <-|]. apply bind_Ok in H as (b & Hb & H). apply bind_Ok in H as (l1 & Hl & [= <-]). constructor; eauto.
Qed.
Lemma extend_inv st e l st' r : miner_inv st → extend_tx hash_order st e l = Ok (st', r) → miner_inv st'.
Proof.
  intros Hi H. unfold extend_tx in H. apply bind_Ok in H as ([[[ds m] δ] pl] & H & [= <- _]).
  assert (length ds = Z.to_nat WPOST_PERIOD_DEADLINES ∧ map_Forall sector_inv m) as [Hl Hm]; [|apply set_sectors_inv; [done..|apply Hi]].
  revert H. apply (try_fold_inv (λ a : Deadlines * Sectors * PowerPair * Z, length a.1.1.1 = Z.to_nat WPOST_PERIOD_DEADLINES ∧ map_Forall sector_inv a.1.1.2)); [|split; apply Hi].
  intros [[[a1 a2] a3] a4] [i decls] b' _ [Ha Hb] Hr. unfold extend_deadline in Hr. apply bind_Ok in Hr as (d & _ & Hr). apply bind_Ok in Hr as ([[[[ps m1] δ1] pl1] by_] & Hf & Hr). cbn in Ha, Hb.
  apply bind_Ok in Hr as (q & _ & Hr). apply bind_Ok in Hr as (ds1 & Hu%downcast_Ok & [= <-]). cbn. split; [by rewrite (update_length _ _ _ _ Hu)|]. clear Hu.
  revert Hf. apply (try_fold_inv (λ a : gmap Z Partition * Sectors * PowerPair * Z * list (Z * list Z), map_Forall sector_inv a.1.1.1.2)); [|done].
  intros [[[[c1 c2] c3] c4] c5] decl b2 _ Hc Hr. unfold extend_one in Hr. apply bind_Ok in Hr as (o & _ & Hr). apply bind_Ok in Hr as (p & _ & Hr). apply bind_Ok in Hr as (bf & _ & Hr).
  apply bind_Ok in Hr as (old & _ & Hr). apply bind_Ok in Hr as (new & Hn & Hr). apply bind_Ok in Hr as (m2 & Hs%downcast_Ok & Hr). apply bind_Ok in Hr as ([p2 [dp dl]] & _ & Hr). apply bind_Ok in Hr as (ps2 & _ & [= <-]).
  cbn in *. eapply sectors_store_inv, Hs; [done|]. eapply mapM_Forall, Hn. intros ??. apply extended_lifetime.
Qed.

(** What the loops of a pre-commitment collect. *)
Lemma checked_numbers e ok l acc acc' : try_fold (precommit_check e ok) acc l = Ok acc' → acc.1 ⊆ acc'.1 ∧ ∀ pc, pc ∈ l → pc_sector_number pc ∈ acc'.1.
Proof.
  clear hash_order absent_ok. revert acc. induction l as [|pc l IH]; intros acc H; cbn in H; [injection H as <-; set_solver|]. apply bind_Ok in H as (acc1 & H1 & H). apply IH in H as [Hs Hin].
  destruct acc as [X sd]. unfold precommit_check in H1. inv_tx. cbn in *. set_solver.
Qed.
Lemma collected_infos st e rs qs l acc acc' (X : gset Z) :
  (∀ x, x ∈ l → pc_sector_number x.1 ∈ X) → Forall (λ pc, pc_sector_number (pc_info pc) ∈ X ∧ 0 < pre_commit_deposit pc) acc.1.1 →
  try_fold (precommit_one st e rs qs) acc l = Ok acc' → Forall (λ pc, pc_sector_number (pc_info pc) ∈ X ∧ 0 < pre_commit_deposit pc) acc'.1.1.
Proof.
  intros Hl. apply (try_fold_inv (λ a : list SectorPreCommitOnChainInfo * Z * gmap Z (list Z), Forall (λ pc, pc_sector_number (pc_info pc) ∈ X ∧ 0 < pre_commit_deposit pc) a.1.1)).
  intros [[ci tot] ev] [pc w] acc2 Hin Ha Hr. unfold precommit_one in Hr. apply Hl in Hin. inv_tx; cbn; (apply Forall_app; split; [done|]; apply Forall_singleton; split; [done|]);
    unfold pre_commit_deposit_for_power, expected_reward_for_power_clamped_at_atto_fil; cbn; case_if; lia.
Qed.
End deadlines.
