(* ===== verification/MinerSafe.v ===== *)
(** * The methods of the miner actor keep its invariant

    Every method of the miner actor keeps [miner_inv], whatever the actors it
    calls do in between, and pays only the burnt funds actor and, where a method
    is meant to, its caller. *)

From S2P Require Import Prelude Address Runtime Types Smooth Reward SimpleActors Power Market.
From S2P Require Import Vesting MinerFunds Sectors Expirations Partition DeadlineAssign SectorMaps DeadlineState MinerState MinerActor MinerHandlers MinerInv.

(** ** Methods *)

(** The payments of a method: penalties and fees are burnt; the caller is paid by a
    withdrawal, which only the owner may make and which leaves what the miner must
    keep, and for a dispute or the report of a consensus fault. *)
Definition pays_caller {U} `{!StateIn MinerState U} (rt : Ctx) (method : Z) (u : U) (b v : Z) : Prop :=
  match method with
  | 15 => True
  | 16 => ∃ st, state_dec u = Some st ∧ caller rt = mi_owner (ms_info st) ∧ ms_early_terminations st = ∅ ∧ solvent (ms_funds st) (b - v)
  | 24 => v ≤ BASE_REWARD_FOR_DISPUTED_WINDOW_POST
  | _ => False
  end.
Definition miner_send_ok {U} `{!StateIn MinerState U} (rt : Ctx) (method : Z) (u : U) (b : Z) (m : Message) : Prop :=
  let '(to, call, params, v) := m in
  v ≠ 0 → call = METHOD_SEND ∧ params = [] ∧ (to = BURNT_FUNDS_ACTOR_ADDR ∧ 0 < v ∨ to = caller rt ∧ pays_caller rt method u b v).

Section methods.
Context {U : Type} `{!StateIn MinerState U}.
Context `{!Enc Address, !Dec Address, !Enc Z, !Enc CronEventPayload, !Dec CronEventPayload, !Enc EnrollCronEventParams}.
Context `{!Enc UpdateClaimedPowerParams, !Enc OnMinerSectorsTerminateParams, !Enc WindowPoStVerifyInfo}.
Context `{!Dec ThisEpochRewardReturn, !Dec CurrentTotalPowerReturn, !Dec (option ConsensusFault)}.
Context (absent_ok : gmap Z SectorPreCommitOnChainInfo → Z → bool) (hash_order : gset Z → list Z) (sealed_prefix_ok : bytes → bool).
Context (rt : Ctx) (method : Z) (I : U → Prop) `{!InvIn miner_inv I}.
Notation mwp := (wp (miner_send_ok rt method) I rt).
Notation keep := (λ _ u b, I u ∧ 0 ≤ b).

Lemma wp_seq {A B} (f : A → Prog U B) (p : Prog U A) u b Q :
  mwp p u b keep → (∀ a u' b', I u' → 0 ≤ b' → mwp (f a) u' b' Q) → mwp (p ≫= f) u b Q.
Proof. intros Hp Hf. apply wp_bind. eapply wp_mono; [|exact Hp]. intros a u' b' [??]. by apply Hf. Qed.
Lemma wp_last {A} (p : Prog U A) u b : mwp p u b keep → mwp p u b (λ _ _ _, True).
Proof. apply wp_mono. done. Qed.

(** A request without value. *)
Lemma request_wp {A} to me ps (k : bytes → Prog U A) u b Q :
  (∀ r u' b', I u' → 0 ≤ b' → mwp (k r) u' b' Q) → mwp (send_ to me ps 0 ≫= k) u b Q.
Proof. intros Hk. apply wp_bind, wp_send_; [|done]. by intros []. Qed.
Lemma enroll_wp e cb u b : mwp (miner_enroll_cron_event e cb) u b keep.
Proof. unfold miner_enroll_cron_event. by apply request_wp. Qed.
Lemma update_power_wp δ u b : I u → 0 ≤ b → mwp (request_update_power δ) u b keep.
Proof. intros ??. unfold request_update_power. case_if; [done|]. by apply request_wp. Qed.
Lemma pledge_wp δ u b : I u → 0 ≤ b → mwp (notify_pledge_changed δ) u b keep.
Proof. intros ??. unfold notify_pledge_changed. case_if; [done|]. by apply request_wp. Qed.
Lemma burn_wp v u b : I u → 0 ≤ b → mwp (burn_funds v) u b keep.
Proof.
  intros ??. unfold burn_funds. case_if; [|done]. apply wp_bind, wp_send_; [|done]. intros _. split_and!; [done..|by left].
Qed.
Lemma epoch_reward_wp u b : mwp request_current_epoch_block_reward u b keep.
Proof. apply request_wp. intros. by wp_step. Qed.
Lemma total_power_wp u b : mwp request_current_total_power u b keep.
Proof. apply request_wp. intros. by wp_step. Qed.
Lemma schedule_wp u b : mwp (schedule_early_termination_work rt) u b keep.
Proof. apply enroll_wp. Qed.
Lemma chunks_wp fuel e ids u b : I u → 0 ≤ b → mwp (terminate_chunks fuel e ids) u b keep.
Proof. revert ids u b. induction fuel as [|n IH]; intros [|x ids] u b ??; try done. cbn [terminate_chunks]. apply request_wp. intros. by apply IH. Qed.
Lemma terminate_all_wp l u b : I u → 0 ≤ b → mwp (terminate_all l) u b keep.
Proof. revert u b. induction l as [|p l IH]; intros u b ??; [done|]. cbn [terminate_all]. apply wp_seq; [by apply chunks_wp|]. intros. by apply IH. Qed.
Lemma check_invariants_wp st u b : I u → 0 ≤ b → mwp (check_invariants st) u b keep.
Proof. intros ??. unfold check_invariants, box. do 2 wp_step. by wp_step. Qed.
Lemma check_state_wp u b : I u → 0 ≤ b → mwp check_state u b keep.
Proof. intros ??. unfold check_state. do 2 wp_step. by apply check_invariants_wp. Qed.

Lemma control_address_wp a u b : I u → 0 ≤ b → mwp (resolve_control_address a) u b (λ a' u' b', is_id a' ∧ I u' ∧ 0 ≤ b').
Proof. intros ??. unfold resolve_control_address. do 10 wp_step. split_and!; [|done..]. auto. Qed.
Lemma control_addresses_wp l u b : I u → 0 ≤ b → mwp (resolve_control_addresses l) u b (λ l' u' b', Forall is_id l' ∧ length l' = length l ∧ I u' ∧ 0 ≤ b').
Proof.
  revert u b. induction l as [|a l IH]; intros u b ??; [done|]. cbn [resolve_control_addresses]. wp_step. eapply wp_mono; [|by apply control_address_wp]. intros a' u' b' (?&?&?). wp_step.
  eapply wp_mono; [|by apply IH]. intros l' u2 b2 (?&?&?&?). cbn. split_and!; [by constructor|by f_equal|done..].
Qed.
Lemma worker_address_wp a u b : I u → 0 ≤ b → mwp (resolve_worker_address a) u b (λ a' u' b', is_id a' ∧ I u' ∧ 0 ≤ b').
Proof.
  intros ??. unfold resolve_worker_address. do 10 wp_step. wp_step; [by split_and!; auto|]. apply request_wp. intros. do 4 wp_step. by split_and!; auto.
Qed.

(** The state of an object that satisfies [I]. *)
Lemma state_inv u st : I u → state_dec u = Some st → miner_inv st.
Proof. apply inv_dec. Qed.
(** A transaction that keeps the invariant. *)
Lemma tx_wp {R} (f : MinerState → Prog U (MinerState * R)) u b Q :
  I u → (∀ st, state_dec u = Some st → miner_inv st → mwp (f st) u b (λ '(st', r) _ b', miner_inv st' ∧ (I (state_enc st') → Q r (state_enc st') b'))) →
  mwp (transaction f) u b Q.
Proof.
  intros Hu Hf. apply wp_transaction. intros st Hst. eapply wp_mono; [|apply (Hf st Hst); by eapply state_inv]. intros [st' r] u' b' [Hi HQ]. assert (I (state_enc st')) by by apply inv_enc. auto.
Qed.
(** The last transaction of a method. *)
Lemma tx_last {R} (f : MinerState → Prog U (MinerState * R)) u b :
  I u → 0 ≤ b → (∀ st, state_dec u = Some st → miner_inv st → mwp (f st) u b (λ '(st', r) _ b', miner_inv st' ∧ 0 ≤ b')) → mwp (transaction f) u b keep.
Proof. intros Hu Hb Hf. apply tx_wp; [done|]. intros st Hst Hi. eapply wp_mono; [|by apply Hf]. intros [st' r] u' b' [??]. auto. Qed.

Lemma early_terminations_wp rs qs u b : I u → 0 ≤ b → mwp (process_early_terminations rt rs qs) u b keep.
Proof.
  intros Hu Hb. unfold process_early_terminations. apply wp_bind, tx_wp; [done|]. intros st Hst Hi. do 2 wp_step. wp_step. destruct a as [st' [[[[em more] deals] pen] pl]]. split; [by eapply terminations_inv|].
  intros Hu'. wp_step; [done|]. apply wp_seq; [by apply burn_wp|]. intros. apply wp_seq; [by apply pledge_wp|]. intros. apply wp_seq; [by apply terminate_all_wp|]. done.
Qed.
Lemma proving_deadline_wp rs qs u b : I u → 0 ≤ b → mwp (handle_proving_deadline absent_ok rt rs qs) u b keep.
Proof.
  intros Hu Hb. unfold handle_proving_deadline. apply wp_bind, tx_wp; [done|]. intros st Hst Hi. do 3 wp_step. wp_step. destruct a as [st' out]. cbn [wp mret prog_ret_inst]. split; [by eapply deadline_inv|].
  intros Hu'. apply wp_seq; [by apply update_power_wp|]. intros. apply wp_seq; [by apply burn_wp|]. intros. apply wp_seq; [by apply pledge_wp|]. intros.
  apply wp_seq; [wp_step; [apply enroll_wp|done]|]. intros. wp_step; [|done]. apply wp_seq; [by apply early_terminations_wp|]. intros. wp_step; [apply schedule_wp|done].
Qed.
Lemma cron_event_wp params u b : I u → 0 ≤ b → mwp (on_deferred_cron_event absent_ok rt params) u b keep.
Proof.
  intros Hu Hb. unfold on_deferred_cron_event. do 4 wp_step. apply wp_seq; [|intros; by apply check_state_wp]. wp_step; [by apply proving_deadline_wp|]. wp_step; [|done].
  apply wp_seq; [by apply early_terminations_wp|]. intros. wp_step; [apply schedule_wp|done].
Qed.

(** *** Identity *)

Lemma constructor_wp params u b : I u → 0 ≤ b → mwp (miner_constructor rt params) u b keep.
Proof.
  intros Hu Hb. unfold miner_constructor. do 8 wp_step. wp_step. eapply wp_mono; [|by apply control_address_wp]. intros ow u1 b1 (How & Hu1 & Hb1). wp_step. eapply wp_mono; [|by apply worker_address_wp].
  intros wk u2 b2 (Hwk & Hu2 & Hb2). wp_step. eapply wp_mono; [|by apply control_addresses_wp]. intros cs u3 b3 (Hcs & Hlen & Hu3 & Hb3). do 10 wp_step.
  assert (Hi : miner_inv (miner_state_new a3 (current_proving_period_start (curr_epoch rt) (proving_period_offset a2))
    (current_deadline_index (curr_epoch rt) (current_proving_period_start (curr_epoch rt) (proving_period_offset a2))))); [|by wp_step; [apply inv_enc|split; [apply inv_enc|]]].
  apply miner_new_inv; [|done]. repeat match goal with x : unit |- _ => destruct x end. refine (info_new_inv _ _ _ _ _ _ _ How Hwk Hcs _ H1 H6). unfold check_control_addresses in *. by rewrite Hlen.
Qed.
Lemma control_addresses_method_wp u b : I u → 0 ≤ b → mwp control_addresses u b keep.
Proof. intros ??. unfold control_addresses. by do 4 wp_step. Qed.
Lemma change_worker_wp params u b : I u → 0 ≤ b → mwp (change_worker_address rt params) u b keep.
Proof.
  intros Hu Hb. unfold change_worker_address. do 3 wp_step. eapply wp_mono; [|by apply worker_address_wp]. intros wk u2 b2 (Hwk & Hu2 & Hb2). wp_step. eapply wp_mono; [|by apply control_addresses_wp].
  intros cs u3 b3 (Hcs & Hlen & Hu3 & Hb3). apply tx_last; [done..|]. intros st Hst Hi. do 2 wp_step. split; [|done]. apply set_info_inv; [done|]. destruct (mv_info _ Hi) as [H1 H2 H3 H4 H5 H6 H7 H8 H9].
  unfold check_control_addresses in *. destruct a. apply throw_if_Ok in H. reflect_bools. unfold request_worker. split; cbn; try done; [|lia].
  intros k. destruct (mi_pending_worker_key (ms_info st)) as [k'|] eqn:Ek; [|case_if; intros [= <-]; done]. rewrite andb_false_r. intros [= <-]. by apply H4.
Qed.
Lemma confirm_worker_wp u b : I u → 0 ≤ b → mwp (confirm_update_worker_key rt) u b keep.
Proof. intros Hu Hb. unfold confirm_update_worker_key. apply tx_last; [done..|]. intros st Hst Hi. do 2 wp_step. split; [by apply pending_worker_inv|done]. Qed.

(** A proposal that is not the owner. *)
Lemma owner_inv i ow pd : info_inv i → is_id ow → (∀ a, pd = Some a → is_id a) → info_inv (clear_noop (set_owner i ow pd)).
Proof.
  intros [H1 H2 H3 H4 H5 H6 H7 H8 H9] Ho Hp. unfold clear_noop. case_bool_decide as E; cbn in E; (split; cbn; try done). intros a ->. split; [auto|]. congruence.
Qed.
Lemma change_owner_wp a u b : I u → 0 ≤ b → mwp (change_owner_address rt a) u b keep.
Proof.
  intros Hu Hb. unfold change_owner_address. do 2 wp_step. apply tx_last; [done..|]. intros st Hst Hi. pose proof (mv_info _ Hi) as Hf.
  wp_step. destruct (mi_pending_owner_address (ms_info st)) as [pa|] eqn:Ep.
  - wp_step; do 2 wp_step; [|do 2 wp_step]; (split; [|done]; apply set_info_inv; [done|]; apply owner_inv; [done|..]).
    + apply Hf.
    + by intros ? [= <-].
    + by apply (iv_pending_owner _ Hf).
    + intros ? [= <-]. by apply (iv_pending_owner _ Hf).
  - do 2 wp_step. split; [|done]. apply set_info_inv; [done|]. apply owner_inv; [done|apply Hf|by intros ? [= <-]].
Qed.
Lemma peer_inv i pid ma e : info_inv i → check_peer_info pid ma = Ok tt → info_inv (set_peer i pid ma e).
Proof. intros [] ?. by split. Qed.
Lemma peer_split pid ma : check_peer_info pid ma = Ok tt ↔ check_peer_info pid [] = Ok tt ∧ check_peer_info [] ma = Ok tt.
Proof.
  unfold check_peer_info. cbn -[MAX_PEER_ID_LENGTH MAX_MULTIADDR_DATA]. destruct (_ <? Z.of_nat (length pid)) eqn:E; cbn -[MAX_MULTIADDR_DATA]; [naive_solver|]. split; [|naive_solver]. intros ->. done.
Qed.
Lemma change_peer_wp params u b : I u → 0 ≤ b → mwp (change_peer_id params) u b keep.
Proof.
  intros Hu Hb. unfold change_peer_id. do 2 wp_step. destruct a. apply tx_last; [done..|]. intros st Hst Hi. do 2 wp_step. split; [|done]. apply set_info_inv; [done|]. pose proof (mv_info _ Hi) as Hf.
  apply peer_inv; [done|]. apply peer_split. split; [done|]. apply (peer_split (mi_peer_id (ms_info st))), (iv_peer _ Hf).
Qed.
Lemma change_multiaddrs_wp params u b : I u → 0 ≤ b → mwp (change_multiaddresses params) u b keep.
Proof.
  intros Hu Hb. unfold change_multiaddresses. do 2 wp_step. destruct a. apply tx_last; [done..|]. intros st Hst Hi. do 2 wp_step. split; [|done]. apply set_info_inv; [done|]. pose proof (mv_info _ Hi) as Hf.
  apply peer_inv; [done|]. apply peer_split. split; [|done]. apply (peer_split _ (mi_multi_address (ms_info st))), (iv_peer _ Hf).
Qed.

(** *** Funds *)

Lemma repay_debts_wp st u b (Q : MinerState * Z → U → Z → Prop) :
  (∀ f v, repay_debts (ms_funds st) b = Ok (f, v) → Q (set_funds st f, v) u b) → mwp (repay_debts_or_abort st) u b Q.
Proof. intros HQ. unfold repay_debts_or_abort, box. do 3 wp_step. wp_step. destruct a as [f v]. cbn. apply HQ. by apply downcast_Ok in H. Qed.

Lemma apply_rewards_wp params u b : I u → 0 ≤ b → mwp (apply_rewards rt params) u b keep.
Proof.
  intros Hu Hb. unfold apply_rewards. do 4 wp_step. apply wp_bind, tx_wp; [done|]. intros st Hst Hi. unfold box, locked_reward_from_reward. do 8 wp_step.
  wp_step. wp_step. destruct a0 as [f v]. wp_step. wp_step. wp_step. wp_step. destruct a1 as [f2 [pv pb]]. inv_tx. split; [apply set_funds_inv; [done|by auto with miner]|].
  intros Hu'. apply wp_seq; [by apply pledge_wp|]. intros. apply wp_seq; [by apply burn_wp|]. intros. by apply check_state_wp.
Qed.
Lemma report_fault_wp params u b : method = 15 → I u → 0 ≤ b → mwp (report_consensus_fault rt params) u b keep.
Proof.
  intros Hme Hu Hb. unfold report_consensus_fault, box. do 12 wp_step. apply wp_seq; [apply epoch_reward_wp|]. intros rw u1 b1 Hu1 Hb1. apply wp_bind, tx_wp; [done|]. intros st Hst Hi. do 4 wp_step. wp_step. wp_step. wp_step. wp_step.
  destruct a2 as [f2 [pv pb]]. inv_tx. split.
  { apply set_info_inv; [apply set_funds_inv; [done|by auto with miner]|]. apply peer_inv; [apply Hi|apply (iv_peer _ (mv_info _ Hi))]. }
  intros Hu'. wp_step. wp_step; [intros Hv; split_and!; [done..|right; split; [done|]]; by rewrite Hme|]. apply wp_seq; [by apply burn_wp|]. intros. apply wp_seq; [by apply pledge_wp|]. intros. by apply check_state_wp.
Qed.
(** What is available, once the debt is paid, is more than what must be kept. *)
Lemma withdraw_solvent f b f' fee a v : funds_ok f → get_available_balance f b = Ok a → repay_debts f b = Ok (f', fee) → v ≤ a → solvent f' (b - v).
Proof.
  intros (_ & Hd & _) Ha Hr Hv. unfold get_available_balance, get_unlocked_balance in Ha. unfold repay_debts in Hr. inv_tx. unfold solvent. cbn. lia.
Qed.
Lemma miner_withdraw_wp params u b : method = 16 → I u → 0 ≤ b → mwp (miner_withdraw_balance rt params) u b keep.
Proof.
  intros Hme Hu Hb. unfold miner_withdraw_balance, box. do 2 wp_step. apply wp_bind, tx_wp; [done|]. intros st Hst Hi. do 6 wp_step. destruct a as [f v]. wp_step. wp_step. wp_step. wp_step. wp_step. apply repay_debts_wp. intros f2 fee Hf2.
  cbn [wp mret prog_ret_inst]. inv_tx. pose proof (vested_inv _ _ _ _ (mv_funds _ Hi) H2) as Hf. split; [apply set_funds_inv; [apply set_funds_inv; [done|done]|by eapply repay_debts_inv, Hf2]|].
  intros Hu'. do 4 wp_step. apply wp_seq.
  - wp_step; [|done]. apply wp_bind, wp_send_; [|done]. intros Hv. split_and!; [done..|right].
    assert (Hc : caller rt = mi_owner (ms_info st)) by set_solver. rewrite Hme. split; [done|]. eexists. split_and!; [apply state_dec_enc|done|..].
    + unfold have_pending_early_terminations in H1. reflect_bools. done.
    + apply (withdraw_solvent f b f2 fee a _ Hf H3 Hf2 H5).
  - intros. apply wp_seq; [by apply burn_wp|]. intros. apply wp_seq; [by apply pledge_wp|]. intros. apply wp_seq; [by apply check_invariants_wp|]. done.
Qed.
Lemma repay_debt_wp u b : I u → 0 ≤ b → mwp (repay_debt rt) u b keep.
Proof.
  intros Hu Hb. unfold repay_debt, box. apply wp_bind, tx_wp; [done|]. intros st Hst Hi. do 5 wp_step. wp_step. destruct a as [f [pv pb]]. inv_tx. split; [apply set_funds_inv; [done|by auto with miner]|].
  intros Hu'. apply wp_seq; [by apply pledge_wp|]. intros. apply wp_seq; [by apply burn_wp|]. intros. by apply check_invariants_wp.
Qed.

(** *** Sectors *)

Context `{!Enc ComputeDataCommitmentParams, !Dec ComputeDataCommitmentReturn, !Enc VerifyDealsForActivationParams}.
Context `{!Dec VerifyDealsForActivationReturn, !Enc ActivateDealsParams, !Enc SealVerifyInfo, !Enc AggregateSealVerifyProofAndInfos}.

Lemma randomness_wp q u b (Q : bytes → U → Z → Prop) : (∀ r, Q r u b) → mwp (randomness q) u b Q.
Proof. intros HQ. unfold randomness. do 2 wp_step. wp_step; [by apply HQ|done]. Qed.
Lemma verify_post_wp ce l pf u b (Q : result ActorError unit → U → Z → Prop) : (∀ r, Q r u b) → mwp (verify_windowed_post rt ce l pf) u b Q.
Proof. intros HQ. unfold verify_windowed_post. wp_step; [|by apply HQ..]. do 2 wp_step. wp_step; [|by apply HQ]. do 2 wp_step. apply HQ. Qed.
Lemma receiver_id_wp u b (Q : Z → U → Z → Prop) : (∀ i, Q i u b) → mwp (receiver_id rt) u b Q.
Proof. intros HQ. unfold receiver_id. wp_step; [apply HQ|done..]. Qed.
Lemma unsealed_wp l u b : I u → 0 ≤ b → mwp (request_unsealed_sector_cids l) u b keep.
Proof. intros ??. unfold request_unsealed_sector_cids. destruct l; [done|]. apply request_wp. intros. by do 4 wp_step. Qed.
Lemma deal_weights_wp l u b : I u → 0 ≤ b → mwp (request_deal_weights l) u b keep.
Proof. intros ??. unfold request_deal_weights. wp_step; [done|]. apply request_wp. intros. by wp_step. Qed.

Lemma submit_post_wp params u b : I u → 0 ≤ b → mwp (submit_windowed_post hash_order rt params) u b keep.
Proof.
  intros Hu Hb. unfold submit_windowed_post, box. destruct (sw_proofs params) as [|pf [|? ?]]; [done| |done]. do 6 wp_step. apply wp_bind, tx_wp; [done|]. intros st Hst Hi. do 6 wp_step.
  wp_step. apply randomness_wp. intros rand. do 4 wp_step. destruct a2 as [d res]. wp_step.
  assert (Hend : ∀ d', mwp (st' ← of_code (store_deadline st (sw_deadline params) d'); mret (st', pr_power_delta res)) u b
    (λ '(st', r) _ b', miner_inv st' ∧ (I (state_enc st') → mwp (_ ← request_update_power r; check_state) (state_enc st') b' keep))).
  { intros d'. wp_step. wp_step. split; [by eapply store_deadline_inv|]. intros Hu'. apply wp_seq; [by apply update_power_wp|]. intros. by apply check_state_wp. }
  wp_step; [by wp_step; apply Hend|]. do 2 wp_step. wp_step. apply verify_post_wp. intros r. do 2 wp_step. apply Hend.
Qed.
Lemma dispute_wp params u b : method = 24 → I u → 0 ≤ b → mwp (dispute_windowed_post hash_order rt params) u b keep.
Proof.
  intros Hme Hu Hb. unfold dispute_windowed_post. do 4 wp_step. apply wp_seq; [apply epoch_reward_wp|]. intros rw u1 b1 ? ?. apply wp_seq; [apply total_power_wp|]. intros pw u2 b2 Hu2 Hb2.
  apply wp_bind, tx_wp; [done|]. intros st Hst Hi. do 6 wp_step. destruct a0 as [[[d di] pf] infos]. wp_step. apply verify_post_wp. intros [[]|e]; [done|]. do 2 wp_step. wp_step. destruct a0 as [st' [[[pl br] δ] rew]].
  split; [by eapply dispute_inv|]. intros Hu'. pose proof (dispute_reward _ _ _ _ _ _ _ _ _ _ _ _ H5) as Hrew. cbn in Hrew. apply wp_seq; [by apply update_power_wp|]. intros. apply wp_seq.
  - wp_step; [done|]. wp_step. wp_step; [|done]. intros Hv. split_and!; [done..|right; split; [done|]]. by rewrite Hme.
  - intros. apply wp_seq; [by apply burn_wp|]. intros. apply wp_seq; [by apply pledge_wp|]. intros. by apply check_state_wp.
Qed.
Lemma precommit_wp params u b : I u → 0 ≤ b → mwp (pre_commit_sector_batch sealed_prefix_ok rt params) u b keep.
Proof.
  intros Hu Hb. unfold pre_commit_sector_batch, box. do 6 wp_step. destruct a as [X sd]. apply checked_numbers in H1 as [_ Hnum]. apply wp_seq; [apply epoch_reward_wp|]. intros rw u1 b1 ? ?.
  apply wp_seq; [apply total_power_wp|]. intros pw u2 b2 Hu2 Hb2. apply wp_seq; [by apply deal_weights_wp|]. intros dw u3 b3 Hu3 Hb3. do 2 wp_step. apply wp_bind, tx_wp; [done|]. intros st Hst Hi. wp_step.
  eapply (wp_mono _ _ _ _ _ _ (λ f u' b', funds_ok f ∧ u' = u3 ∧ b' = b3)); [intros f u4 b4 (Hf & -> & ->)|wp_step; [wp_step; inv_tx; split_and!; auto with miner|split_and!; [apply Hi|done..]]].
  do 4 wp_step. wp_step. apply repay_debts_wp. intros f2 fee Hf2. assert (Hi2 : miner_inv (set_funds (set_funds st f) f2)) by (apply set_funds_inv; [by apply set_funds_inv|by eapply repay_debts_inv, Hf2]).
  do 6 wp_step. wp_step. wp_step. destruct a1 as [st' nc]. cbn [wp mret prog_ret_inst]. split.
  { eapply precommit_inv_tx; [exact Hi2| |exact H8]. eapply collected_infos with (X:=X); [| |exact H7]; [|by apply Forall_nil]. intros [pc w] Hin. apply elem_of_zip_l in Hin. by apply Hnum. }
  intros Hu'. apply wp_seq; [by apply burn_wp|]. intros. do 2 wp_step. apply wp_seq; [by apply check_invariants_wp|]. intros. wp_step; [apply enroll_wp|done].
Qed.
Lemma prove_commit_wp params u b : I u → 0 ≤ b → mwp (prove_commit_sector rt params) u b keep.
Proof.
  intros Hu Hb. unfold prove_commit_sector. do 16 wp_step. wp_step. unfold get_verify_info. do 2 wp_step. apply wp_seq; [by apply unsealed_wp|]. intros. wp_step. apply receiver_id_wp. intros i.
  do 1 wp_step. apply randomness_wp. intros ?. wp_step. apply randomness_wp. intros ?. do 2 wp_step. wp_step. by apply request_wp.
Qed.
Lemma activate_all_wp l acc u b : I u → 0 ≤ b → mwp (activate_all l acc) u b keep.
Proof.
  revert acc u b. induction l as [|pc l IH]; intros acc u b Hu Hb; [done|]. cbn [activate_all]. unfold box. apply wp_seq.
  - destruct (pc_deal_ids (pc_info pc)); [done|]. wp_step. wp_step; [by intros []|]. done.
  - intros act u' b' ??. wp_step; [|by apply IH]. apply wp_seq; [wp_step; [by wp_step|done]|]. intros. by apply IH.
Qed.
Lemma confirm_internal_wp l bp rs qs u b : I u → 0 ≤ b → mwp (confirm_sector_proofs_valid_internal hash_order absent_ok rt l bp rs qs) u b keep.
Proof.
  intros Hu Hb. unfold confirm_sector_proofs_valid_internal. do 2 wp_step. apply wp_seq; [by apply activate_all_wp|]. intros [dm vl] u' b' ??. do 2 wp_step. apply wp_bind, tx_wp; [done|]. intros st Hst Hi.
  do 2 wp_step. wp_step. destruct a as [st' v]. split; [by eapply confirm_inv|]. intros. by apply pledge_wp.
Qed.
Lemma confirm_wp params u b : I u → 0 ≤ b → mwp (confirm_sector_proofs_valid hash_order absent_ok rt params) u b keep.
Proof. intros Hu Hb. unfold confirm_sector_proofs_valid. do 4 wp_step. by apply confirm_internal_wp. Qed.
Lemma aggregate_infos_wp l u b (Q : list AggregateSealVerifyInfo → U → Z → Prop) : (∀ r, Q r u b) → mwp (aggregate_infos rt l) u b Q.
Proof.
  revert Q. induction l as [|[pc cd] l IH]; intros Q HQ; [by apply HQ|]. cbn [aggregate_infos]. do 3 wp_step. apply randomness_wp. intros ?. wp_step. apply randomness_wp. intros ?. wp_step. apply IH. intros ?. apply HQ.
Qed.
Lemma aggregate_wp params u b : I u → 0 ≤ b → mwp (prove_commit_aggregate hash_order absent_ok rt params) u b keep.
Proof.
  intros Hu Hb. unfold prove_commit_aggregate, box. do 15 wp_step. wp_step. destruct a1 as [[pr tc] inp]. apply wp_seq; [by apply unsealed_wp|]. intros cds u1 b1 ??. wp_step. apply receiver_id_wp. intros i. wp_step.
  apply aggregate_infos_wp. intros svis. do 6 wp_step. apply wp_seq; [apply epoch_reward_wp|]. intros rw u2 b2 ??. apply wp_seq; [apply total_power_wp|]. intros pw u3 b3 ??. apply wp_seq; [by apply confirm_internal_wp|].
  intros. do 8 wp_step. apply wp_seq; [by apply burn_wp|]. intros. by apply check_invariants_wp.
Qed.
Lemma check_proven_wp params u b : I u → 0 ≤ b → mwp (check_sector_proven params) u b keep.
Proof. intros ??. unfold check_sector_proven, box. do 8 wp_step. by wp_step. Qed.
Lemma extend_wp params u b : I u → 0 ≤ b → mwp (extend_sector_expiration hash_order rt params) u b keep.
Proof.
  intros Hu Hb. unfold extend_sector_expiration. do 6 wp_step. apply wp_bind, tx_wp; [done|]. intros st Hst Hi. do 2 wp_step. wp_step. destruct a0 as [st' [δ pl]]. split; [by eapply extend_inv|].
  intros. apply wp_seq; [by apply update_power_wp|]. intros. by apply pledge_wp.
Qed.
Lemma terminate_wp params u b : I u → 0 ≤ b → mwp (miner_terminate_sectors hash_order rt params) u b keep.
Proof.
  intros Hu Hb. unfold miner_terminate_sectors. do 2 wp_step. apply wp_bind, tx_wp; [done|]. intros st Hst Hi. do 3 wp_step. wp_step. destruct a0 as [st' δ]. cbn [wp mret prog_ret_inst]. split; [by eapply terminate_tx_inv|].
  intros Hu'. apply wp_seq; [apply epoch_reward_wp|]. intros rw u2 b2 ??. apply wp_seq; [apply total_power_wp|]. intros pw u3 b3 ??. apply wp_seq; [by apply early_terminations_wp|]. intros more u4 b4 ??.
  apply wp_seq; [wp_step; [apply schedule_wp|done]|]. intros. apply wp_seq; [by apply check_state_wp|]. intros. apply wp_seq; [by apply update_power_wp|]. done.
Qed.
Lemma faults_wp params u b : I u → 0 ≤ b → mwp (miner_declare_faults hash_order rt params) u b keep.
Proof.
  intros Hu Hb. unfold miner_declare_faults. do 2 wp_step. apply wp_bind, tx_wp; [done|]. intros st Hst Hi. do 2 wp_step. wp_step. destruct a0 as [st' δ]. split; [by eapply faults_inv|]. intros. by apply update_power_wp.
Qed.
Lemma recovered_wp params u b : I u → 0 ≤ b → mwp (miner_declare_faults_recovered rt params) u b keep.
Proof.
  intros Hu Hb. unfold miner_declare_faults_recovered. do 2 wp_step. apply wp_bind, tx_wp; [done|]. intros st Hst Hi. wp_step. apply repay_debts_wp. intros f fee Hf.
  assert (Hi2 : miner_inv (set_funds st f)) by (apply set_funds_inv; [done|eapply repay_debts_inv, Hf; apply Hi]). do 5 wp_step. wp_step. cbn [wp mret prog_ret_inst]. split; [by eapply recoveries_inv|].
  intros. apply wp_seq; [by apply burn_wp|]. intros. by apply check_state_wp.
Qed.
Lemma compact_wp params u b : I u → 0 ≤ b → mwp (compact_partitions rt params) u b keep.
Proof.
  intros Hu Hb. unfold compact_partitions. do 4 wp_step. apply tx_last; [done..|]. intros st Hst Hi. do 9 wp_step. wp_step. cbn [wp mret prog_ret_inst]. split; [by eapply compact_inv|done].
Qed.
Lemma compact_numbers_wp params u b : I u → 0 ≤ b → mwp (compact_sector_numbers params) u b keep.
Proof.
  intros Hu Hb. unfold compact_sector_numbers. do 6 wp_step. apply tx_last; [done..|]. intros st Hst Hi. do 3 wp_step. wp_step. cbn [wp mret prog_ret_inst]. split; [by eapply allocate_inv|done].
Qed.
End methods.

(** *** Dispatch *)

(** The lemma of the method that the goal runs. *)
Ltac method_wp :=
  lazymatch goal with
  | |- context [@submit_windowed_post] => apply submit_post_wp
  | |- context [@dispute_windowed_post] => apply dispute_wp
  | |- context [@pre_commit_sector_batch] => apply precommit_wp
  | |- context [@pre_commit_sector] => apply precommit_wp
  | |- context [@prove_commit_sector] => apply prove_commit_wp
  | |- context [@confirm_sector_proofs_valid] => apply confirm_wp
  | |- context [@prove_commit_aggregate] => apply aggregate_wp
  | |- context [@check_sector_proven] => apply check_proven_wp
  | |- context [@extend_sector_expiration] => apply extend_wp
  | |- context [@miner_terminate_sectors] => apply terminate_wp
  | |- context [@miner_declare_faults] => apply faults_wp
  | |- context [@miner_declare_faults_recovered] => apply recovered_wp
  | |- context [@compact_partitions] => apply compact_wp
  | |- context [@compact_sector_numbers] => apply compact_numbers_wp
  | |- context [@miner_constructor] => apply constructor_wp
  | |- context [@control_addresses] => apply control_addresses_method_wp
  | |- context [@change_worker_address] => apply change_worker_wp
  | |- context [@confirm_update_worker_key] => apply confirm_worker_wp
  | |- context [@change_owner_address] => apply change_owner_wp
  | |- context [@change_peer_id] => apply change_peer_wp
  | |- context [@change_multiaddresses] => apply change_multiaddrs_wp
  | |- context [@apply_rewards] => apply apply_rewards_wp
  | |- context [@report_consensus_fault] => apply report_fault_wp
  | |- context [@miner_withdraw_balance] => apply miner_withdraw_wp
  | |- context [@repay_debt] => apply repay_debt_wp
  | |- context [@on_deferred_cron_event] => apply cron_event_wp
  end.

Section dispatch.
Context {U : Type} `{!StateIn MinerState U}.
Context `{!Enc Address, !Dec Address, !Enc Z, !Enc CronEventPayload, !Dec CronEventPayload, !Enc EnrollCronEventParams}.
Context `{!Enc UpdateClaimedPowerParams, !Enc OnMinerSectorsTerminateParams, !Enc WindowPoStVerifyInfo}.
Context `{!Dec ThisEpochRewardReturn, !Dec CurrentTotalPowerReturn, !Dec (option ConsensusFault)}.
Context `{!Enc ComputeDataCommitmentParams, !Dec ComputeDataCommitmentReturn, !Enc VerifyDealsForActivationParams}.
Context `{!Dec VerifyDealsForActivationReturn, !Enc ActivateDealsParams, !Enc SealVerifyInfo, !Enc AggregateSealVerifyProofAndInfos}.
Context `{!Dec MinerConstructorParams, !Enc GetControlAddressesReturn, !Dec ChangeWorkerAddressParams, !Dec ChangePeerIDParams}.
Context `{!Dec SubmitWindowedPoStParams, !Dec SectorPreCommitInfo, !Dec ProveCommitSectorParams, !Dec ExtendSectorExpirationParams}.
Context `{!Dec TerminateSectorsParams, !Enc TerminateSectorsReturn, !Dec DeclareFaultsParams, !Dec DeclareFaultsRecoveredParams}.
Context `{!Dec DeferredCronEventParams, !Dec CheckSectorProvenParams, !Dec ApplyRewardParams, !Dec ReportConsensusFaultParams}.
Context `{!Dec MinerWithdrawBalanceParams, !Enc MinerWithdrawBalanceReturn, !Dec ConfirmSectorProofsParams, !Dec ChangeMultiaddrsParams}.
Context `{!Dec CompactPartitionsParams, !Dec CompactSectorNumbersParams, !Dec DisputeWindowedPoStParams, !Dec PreCommitSectorBatchParams}.
Context `{!Dec ProveCommitAggregateParams}.

Context (hash_order : gset Z → list Z) (absent_ok : gmap Z SectorPreCommitOnChainInfo → Z → bool) (sealed_prefix_ok : bytes → bool) (rt : Ctx).

Lemma miner_wp (I : U → Prop) `{!InvIn miner_inv I} method params u b :
  I u → 0 ≤ b → wp (miner_send_ok rt method) I rt (miner_invoke_method hash_order absent_ok sealed_prefix_ok rt method params) u b (λ _ _ _, True).
Proof.
  intros Hu Hb. unfold miner_invoke_method. repeat case_match; try exact Logic.I.
  all: first [apply call_unit_wp; intros ps _; apply wp_last|apply call_ret_wp; intros ps _; apply wp_last|apply wp_seq; [|done]].
  all: by method_wp.
Qed.

End dispatch.

(** ** A run *)

(** A new miner, of owner 100 and worker 101, whose first proving period starts at epoch 1000. *)
Definition ex_miner : MinerState :=
  miner_state_new {| mi_owner := id_addr 100; mi_worker := id_addr 101; mi_control_addresses := []; mi_pending_worker_key := None;
    mi_peer_id := []; mi_multi_address := []; mi_window_post_proof_type := StackedDRGWindow32GiBV1; mi_sector_size := S32GiB;
    mi_window_post_partition_sectors := 2349; mi_consensus_fault_elapsed := EPOCH_UNDEFINED; mi_pending_owner_address := None |} 1000 0.
Lemma ex_miner_ok : miner_inv ex_miner.
Proof. apply miner_new_inv; [by split|done]. Qed.

#[local] Instance ex_miner_in : StateIn MinerState (option MinerState) :=
  {| state_enc := Some; state_dec := id; state_dec_enc := λ s, eq_refl |}.
(** A toy encoding: requests are not encoded, only the amount of a withdrawal is read. *)
#[local] Instance ex_miner_enc {P} : Enc P | 10 := λ _, [].
#[local] Instance ex_miner_dec {P} : Dec P | 10 := λ _, None.
#[local] Instance ex_amount : Dec MinerWithdrawBalanceParams := λ x, match x with [n] => Some {| mw_amount_requested := n |} | _ => None end.
Definition ex_owner_rt : Ctx :=
  {| caller := id_addr 100; receiver := id_addr 160; value_received := 0; curr_epoch := 1200; base_fee := 100 |}.

