(* ===== verification/Network.v ===== *)
(** * The network of built-in actors

    The state objects of all actors as one type, the dispatch from code ids to
    method tables ([invoke_code] of [src/vm/actor/src/lib.rs]), and the actor
    invariants put together: they hold of every actor in the state tree after
    any message, whatever calls it makes. *)

From S2P Require Import Vesting MinerFunds Sectors Expirations Partition DeadlineState MinerState MinerActor MinerHandlers MinerInv MinerSafe.
From S2P Require Import Prelude Address Runtime Gas StateTree Interp InterpFacts InterpInv.
From S2P Require Import Types SimpleActors Multisig Paych Smooth Reward Verifreg Power Funds Market.

(** ** State objects *)

#[global] Instance account_state_eq_dec : EqDecision AccountState.
Proof. solve_decision. Defined.
#[global] Instance init_state_eq_dec : EqDecision InitState.
Proof. solve_decision. Defined.
#[global] Instance cron_entry_eq_dec : EqDecision CronEntry.
Proof. solve_decision. Defined.
#[global] Instance cron_state_eq_dec : EqDecision CronState.
Proof. solve_decision. Defined.
#[global] Instance transaction_eq_dec : EqDecision Transaction.
Proof. solve_decision. Defined.
#[global] Instance multisig_state_eq_dec : EqDecision MultisigState.
Proof. solve_decision. Defined.
#[global] Instance lane_state_eq_dec : EqDecision LaneState.
Proof. solve_decision. Defined.
#[global] Instance paych_state_eq_dec : EqDecision PaychState.
Proof. solve_decision. Defined.
#[global] Instance estimate_eq_dec : EqDecision FilterEstimate.
Proof. solve_decision. Defined.
#[global] Instance reward_state_eq_dec : EqDecision RewardState.
Proof. solve_decision. Defined.
#[global] Instance verifreg_state_eq_dec : EqDecision VerifregState.
Proof. solve_decision. Defined.
#[global] Instance claim_eq_dec : EqDecision Claim.
Proof. solve_decision. Defined.
#[global] Instance cron_event_eq_dec : EqDecision CronEvent.
Proof. solve_decision. Defined.
#[global] Instance sector_id_eq_dec : EqDecision SectorID.
Proof. solve_decision. Defined.
#[global] Instance seal_verify_info_eq_dec : EqDecision SealVerifyInfo.
Proof. solve_decision. Defined.
#[global] Instance power_state_eq_dec : EqDecision PowerState.
Proof. solve_decision. Defined.
#[global] Instance deal_proposal_eq_dec : EqDecision DealProposal.
Proof. solve_decision. Defined.
#[global] Instance deal_state_eq_dec : EqDecision DealState.
Proof. solve_decision. Defined.
#[global] Instance funds_eq_dec : EqDecision Funds.
Proof. solve_decision. Defined.
#[global] Instance market_state_eq_dec : EqDecision MarketState.
Proof. solve_decision. Defined.
#[global] Instance worker_key_eq_dec : EqDecision WorkerKeyChange.
Proof. solve_decision. Defined.
#[global] Instance miner_info_eq_dec : EqDecision MinerInfo.
Proof. solve_decision. Defined.
#[global] Instance vesting_fund_eq_dec : EqDecision VestingFund.
Proof. solve_decision. Defined.
#[global] Instance miner_funds_eq_dec : EqDecision MinerFunds.
Proof. solve_decision. Defined.
#[global] Instance precommit_info_eq_dec : EqDecision SectorPreCommitInfo.
Proof. solve_decision. Defined.
#[global] Instance precommit_eq_dec : EqDecision SectorPreCommitOnChainInfo.
Proof. solve_decision. Defined.
#[global] Instance sector_info_eq_dec : EqDecision SectorOnChainInfo.
Proof. solve_decision. Defined.
#[global] Instance deadline_eq_dec : EqDecision Deadline.
Proof. solve_decision. Defined.
#[global] Instance miner_state_eq_dec : EqDecision MinerState.
Proof. solve_decision. Defined.

Inductive Obj :=
| OEmpty
| OAccount (s : AccountState)
| OInit (s : InitState)
| OCron (s : CronState)
| OMultisig (s : MultisigState)
| OPaych (s : PaychState)
| OReward (s : RewardState)
| OVerifreg (s : VerifregState)
| OPower (s : PowerState)
| OMarket (s : MarketState)
| OMiner (s : MinerState).

#[global] Instance obj_eq_dec : EqDecision Obj.
Proof. solve_decision. Defined.

#[global] Instance account_in : StateIn AccountState Obj := {|
  state_enc := OAccount; state_dec o := match o with OAccount s => Some s | _ => None end;
  state_dec_enc s := eq_refl |}.
#[global] Instance init_in : StateIn InitState Obj := {|
  state_enc := OInit; state_dec o := match o with OInit s => Some s | _ => None end;
  state_dec_enc s := eq_refl |}.
#[global] Instance cron_in : StateIn CronState Obj := {|
  state_enc := OCron; state_dec o := match o with OCron s => Some s | _ => None end;
  state_dec_enc s := eq_refl |}.
#[global] Instance multisig_in : StateIn MultisigState Obj := {|
  state_enc := OMultisig; state_dec o := match o with OMultisig s => Some s | _ => None end;
  state_dec_enc s := eq_refl |}.
#[global] Instance paych_in : StateIn PaychState Obj := {|
  state_enc := OPaych; state_dec o := match o with OPaych s => Some s | _ => None end;
  state_dec_enc s := eq_refl |}.
#[global] Instance reward_in : StateIn RewardState Obj := {|
  state_enc := OReward; state_dec o := match o with OReward s => Some s | _ => None end;
  state_dec_enc s := eq_refl |}.
#[global] Instance verifreg_in : StateIn VerifregState Obj := {|
  state_enc := OVerifreg; state_dec o := match o with OVerifreg s => Some s | _ => None end;
  state_dec_enc s := eq_refl |}.
#[global] Instance power_in : StateIn PowerState Obj := {|
  state_enc := OPower; state_dec o := match o with OPower s => Some s | _ => None end;
  state_dec_enc s := eq_refl |}.
#[global] Instance market_in : StateIn MarketState Obj := {|
  state_enc := OMarket; state_dec o := match o with OMarket s => Some s | _ => None end;
  state_dec_enc s := eq_refl |}.
#[global] Instance miner_in : StateIn MinerState Obj := {|
  state_enc := OMiner; state_dec o := match o with OMiner s => Some s | _ => None end;
  state_dec_enc s := eq_refl |}.

(** ** Encodings and other externals *)

(** CBOR of parameters and return values. *)
Class Codecs := {
  dec_address :: Dec Address; enc_address :: Enc Address; enc_bytes :: Enc bytes;
  dec_init :: Dec InitConstructorParams; dec_exec :: Dec ExecParams; enc_exec :: Enc ExecReturn;
  dec_cron :: Dec CronConstructorParams;
  enc_proposal :: Enc ProposalHashData; dec_ms :: Dec MsConstructorParams; dec_propose :: Dec ProposeParams;
  enc_propose :: Enc ProposeReturn; dec_txn_id :: Dec TxnIDParams; enc_approve :: Enc ApproveReturn;
  dec_add_signer :: Dec AddSignerParams; dec_remove_signer :: Dec RemoveSignerParams;
  dec_swap_signer :: Dec SwapSignerParams; dec_threshold :: Dec ChangeThresholdParams;
  dec_lock :: Dec LockBalanceParams;
  dec_threshold_usize x (p : ChangeThresholdParams) : dec x = Some p → 0 ≤ ct_new_threshold p;
  dec_paych :: Dec PcConstructorParams; dec_update :: Dec UpdateChannelStateParams;
  enc_voucher :: Enc SignedVoucher;
  dec_opt_power :: Dec (option Z); dec_award :: Dec AwardBlockRewardParams; enc_apply :: Enc ApplyRewardParams;
  enc_epoch_reward :: Enc ThisEpochRewardReturn; dec_epoch_reward :: Dec ThisEpochRewardReturn;
  dec_verifier :: Dec VerifierParams; dec_bytes_params :: Dec BytesParams;
  enc_miner :: Enc MinerConstructorParams; enc_exec_params :: Enc ExecParams; dec_exec_return :: Dec ExecReturn;
  enc_confirm :: Enc ConfirmSectorProofsParams; enc_deferred :: Enc DeferredCronEventParams; enc_z :: Enc Z;
  enc_seals :: Enc (list (Address * list SealVerifyInfo)); dec_seals :: Dec (list (Address * list bool));
  dec_create_miner :: Dec CreateMinerParams; enc_create_miner :: Enc CreateMinerReturn;
  dec_claimed :: Dec UpdateClaimedPowerParams; dec_enroll :: Dec EnrollCronEventParams; dec_z :: Dec Z;
  dec_seal :: Dec SealVerifyInfo; enc_total_power :: Enc CurrentTotalPowerReturn;
  dec_control :: Dec GetControlAddressesReturn; dec_total_power :: Dec CurrentTotalPowerReturn;
  enc_bytes_params :: Enc BytesParams; enc_deal :: Enc DealProposal; enc_pieces :: Enc (list (bytes * Z));
  dec_withdraw :: Dec WithdrawBalanceParams; enc_withdraw :: Enc WithdrawBalanceReturn;
  dec_publish :: Dec PublishStorageDealsParams; enc_publish :: Enc PublishStorageDealsReturn;
  dec_verify_deals :: Dec VerifyDealsForActivationParams; enc_verify_deals :: Enc VerifyDealsForActivationReturn;
  dec_activate :: Dec ActivateDealsParams; dec_terminate :: Dec OnMinerSectorsTerminateParams;
  dec_commitment :: Dec ComputeDataCommitmentParams; enc_commitment :: Enc ComputeDataCommitmentReturn;
  enc_payload :: Enc CronEventPayload; dec_payload :: Dec CronEventPayload; enc_enroll :: Enc EnrollCronEventParams;
  enc_claimed :: Enc UpdateClaimedPowerParams; enc_terminate :: Enc OnMinerSectorsTerminateParams;
  enc_window_post :: Enc WindowPoStVerifyInfo; dec_fault :: Dec (option ConsensusFault);
  enc_commitment_params :: Enc ComputeDataCommitmentParams; dec_commitment_return :: Dec ComputeDataCommitmentReturn;
  enc_verify_params :: Enc VerifyDealsForActivationParams; dec_verify_return :: Dec VerifyDealsForActivationReturn;
  enc_activate :: Enc ActivateDealsParams; enc_seal :: Enc SealVerifyInfo; enc_aggregate :: Enc AggregateSealVerifyProofAndInfos;
  dec_miner :: Dec MinerConstructorParams; enc_control :: Enc GetControlAddressesReturn;
  dec_change_worker :: Dec ChangeWorkerAddressParams; dec_change_peer :: Dec ChangePeerIDParams;
  dec_submit :: Dec SubmitWindowedPoStParams; dec_precommit :: Dec SectorPreCommitInfo; dec_prove :: Dec ProveCommitSectorParams;
  dec_extend :: Dec ExtendSectorExpirationParams; dec_terminations :: Dec TerminateSectorsParams;
  enc_terminations :: Enc TerminateSectorsReturn; dec_faults :: Dec DeclareFaultsParams;
  dec_recoveries :: Dec DeclareFaultsRecoveredParams; dec_deferred :: Dec DeferredCronEventParams;
  dec_proven :: Dec CheckSectorProvenParams; dec_apply :: Dec ApplyRewardParams; dec_report :: Dec ReportConsensusFaultParams;
  dec_miner_withdraw :: Dec MinerWithdrawBalanceParams; enc_miner_withdraw :: Enc MinerWithdrawBalanceReturn;
  dec_confirm :: Dec ConfirmSectorProofsParams; dec_multiaddrs :: Dec ChangeMultiaddrsParams;
  dec_compact :: Dec CompactPartitionsParams; dec_compact_numbers :: Dec CompactSectorNumbersParams;
  dec_dispute :: Dec DisputeWindowedPoStParams; dec_precommits :: Dec PreCommitSectorBatchParams;
  dec_aggregate :: Dec ProveCommitAggregateParams }.

(** The rest of what the interpreter and the actors take from outside. *)
Class Externals := {
  e_state_size : Obj → Z; e_nested_gas : Obj → Obj → Z;
  e_sys_answer : SysQuery → StateTree Obj → option bytes; e_sys_gas : SysQuery → GasCharge;
  e_supply : StateTree Obj → option Z; e_new_actor_key : Address → Z → Z → Address;
  e_prices : PriceList;
  absent_delete_ok : gmap Z Transaction → Z → bool; absent_cap_ok : gmap Address Z → Address → bool;
  batch_order : gmap Address (list SealVerifyInfo) → list (Address * list SealVerifyInfo);
  deal_cid : DealProposal → bytes; piece_prefix_ok : bytes → bool; absent_pending_ok : gset bytes → bytes → bool;
  absent_ops_ok : gmap Z (gset Z) → Z → bool; set_order : gset Z → list Z;
  absent_precommit_ok : gmap Z SectorPreCommitOnChainInfo → Z → bool; hash_order : gset Z → list Z;
  sealed_prefix_ok : bytes → bool }.

Section network.
Context `{!Codecs, !Externals}.

Definition network_invoke_code (c : Code) (method : Z) (params : bytes) : option (Ctx → Prog Obj bytes) :=
  match c with
  | SYSTEM_ACTOR_CODE_ID => Some (system_invoke_method OEmpty method params)
  | INIT_ACTOR_CODE_ID => Some (init_invoke_method method params)
  | CRON_ACTOR_CODE_ID => Some (cron_invoke_method method params)
  | ACCOUNT_ACTOR_CODE_ID => Some (account_invoke_method method params)
  | MULTISIG_ACTOR_CODE_ID => Some (λ rt, multisig_invoke_method absent_delete_ok rt method params)
  | PAYCH_ACTOR_CODE_ID => Some (λ rt, paych_invoke_method rt method params)
  | REWARD_ACTOR_CODE_ID => Some (λ rt, reward_invoke_method rt method params)
  | VERIFREG_ACTOR_CODE_ID => Some (λ rt, verifreg_invoke_method absent_cap_ok rt method params)
  | POWER_ACTOR_CODE_ID => Some (λ rt, power_invoke_method batch_order rt method params)
  | MARKET_ACTOR_CODE_ID =>
      Some (λ rt, market_invoke_method deal_cid piece_prefix_ok absent_pending_ok absent_ops_ok set_order rt method params)
  | MINER_ACTOR_CODE_ID =>
      Some (λ rt, miner_invoke_method hash_order absent_precommit_ok sealed_prefix_ok rt method params)
  | OTHER_CODE_ID _ => None
  end.

#[global] Instance network_machine : Machine Obj := {|
  invoke_code := network_invoke_code; empty_arr := OEmpty; state_size := e_state_size;
  nested_gas := e_nested_gas; sys_answer := e_sys_answer; sys_gas := e_sys_gas;
  get_supply := e_supply; addr_cbor := enc; new_actor_key := e_new_actor_key; prices := e_prices |}.

End network.

(** ** The invariants *)

(** New ids are never handed out twice. *)
Definition init_inv (s : InitState) : Prop :=
  map_Forall (λ _ id, id < next_id s) (address_map s) ∧
  (∀ a b id, address_map s !! a = Some id → address_map s !! b = Some id → a = b).
Definition account_inv (s : AccountState) : Prop :=
  protocol (account_address s) = ProtocolSecp256k1 ∨ protocol (account_address s) = ProtocolBLS.
Definition network_inv (o : Obj) : Prop :=
  match o with
  | OAccount s => account_inv s
  | OInit s => init_inv s
  | OMultisig s => ms_inv s
  | OPaych s => paych_inv s
  | OReward s => reward_inv s
  | OVerifreg s => verifreg_inv s
  | OPower s => power_inv s
  | OMarket s => market_inv s
  | OMiner s => miner_inv s
  | OEmpty | OCron _ => True
  end.

Lemma init_inv_map s a : init_inv s → init_inv (map_address_to_new_id s a).1.
Proof.
  intros [Hlt Hinj]. split; cbn.
  - apply map_Forall_insert_2; [lia|]. eapply map_Forall_impl; [exact Hlt|]. cbn. lia.
  - intros x y id [[<- Hx]|[Hne Hx]]%lookup_insert_Some [[<- Hy]|[Hne' Hy]]%lookup_insert_Some; try done.
    + apply Hlt in Hy. lia.
    + apply Hlt in Hx. lia.
    + by eapply Hinj.
Qed.

Section proofs.
Context `{!Codecs, !Externals}.
Context (rt : Ctx).
Notation nwp := (wp (λ _ _ _, True) network_inv rt).
Notation post := (λ _ _ _, True).

Lemma account_wp method params u b : nwp (account_invoke_method method params rt) u b post.
Proof.
  unfold account_invoke_method. repeat case_if.
  - apply call_unit_wp. intros a _. unfold account_constructor. do 2 wp_step.
    destruct (protocol a) eqn:Ep; try done; (wp_step; [|done]); [by left|by right].
  - unfold pubkey_address. by do 6 wp_step.
  - done.
Qed.

Lemma send_entries_wp es u b : nwp (send_entries es) u b post.
Proof.
  revert u b. induction es as [|e es IH]; intros u b; [done|]. cbn [send_entries]. do 2 wp_step; [done|]. apply IH.
Qed.

Lemma cron_wp method params u b : nwp (cron_invoke_method method params rt) u b post.
Proof.
  unfold cron_invoke_method. repeat case_if; [| |done].
  - apply call_unit_wp. intros p _. unfold cron_constructor. by do 3 wp_step.
  - unfold epoch_tick. do 5 wp_step. eapply wp_mono; [|apply send_entries_wp]. done.
Qed.

Lemma init_wp method params u b : network_inv u → nwp (init_invoke_method method params rt) u b post.
Proof.
  intros Hu. unfold init_invoke_method. repeat case_if; [| |done].
  - apply call_unit_wp. intros p _. unfold init_constructor. do 3 wp_step; [|done].
    split; [apply map_Forall_empty|]. intros ? ? ? Hx. cbn in Hx. by rewrite lookup_empty in Hx.
  - apply call_ret_wp. intros p _. unfold exec. do 12 wp_step.
    assert (Hs : init_inv s) by (destruct u; try done; cbn in *; congruence).
    pose proof (init_inv_map s a0 Hs) as Hs'. destruct (map_address_to_new_id s a0) as [s' id].
    wp_step. split; [done|]. by do 4 wp_step.
Qed.

#[global] Instance ms_inv_in : InvIn ms_inv network_inv.
Proof. intros u st. destruct u; try done. cbn. by intros [= ->]. Qed.
#[global] Instance paych_inv_in : InvIn paych_inv network_inv.
Proof. intros u st. destruct u; try done. cbn. by intros [= ->]. Qed.
#[global] Instance reward_inv_in : InvIn reward_inv network_inv.
Proof. intros u st. destruct u; try done. cbn. by intros [= ->]. Qed.
#[global] Instance verifreg_inv_in : InvIn verifreg_inv network_inv.
Proof. intros u st. destruct u; try done. cbn. by intros [= ->]. Qed.
#[global] Instance power_inv_in : InvIn power_inv network_inv.
Proof. intros u st. destruct u; try done. cbn. by intros [= ->]. Qed.
#[global] Instance market_inv_in : InvIn market_inv network_inv.
Proof. intros u st. destruct u; try done. cbn. by intros [= ->]. Qed.
#[global] Instance miner_inv_in : InvIn miner_inv network_inv.
Proof. intros u st. destruct u; try done. cbn. by intros [= ->]. Qed.

Lemma system_wp method params u b : nwp (system_invoke_method OEmpty method params rt) u b post.
Proof. unfold system_invoke_method. case_if; [|done]. unfold system_constructor. by do 3 wp_step. Qed.

Lemma network_code_wp c method params p u b :
  invoke_code c method params = Some p → network_inv u → 0 ≤ b → nwp (p rt) u b post.
Proof.
  intros Hp Hu Hb. cbn in Hp.
  destruct c; cbn in Hp; try (injection Hp as <-); try discriminate Hp.
  - apply system_wp.
  - by apply init_wp.
  - apply cron_wp.
  - apply account_wp.
  - eapply wp_weaken; [|by apply (power_wp batch_order rt network_inv)]. done.
  - eapply wp_weaken; [|by apply (miner_wp hash_order absent_precommit_ok sealed_prefix_ok rt network_inv)]. done.
  - eapply wp_weaken; [|by apply (market_wp deal_cid piece_prefix_ok absent_pending_ok absent_ops_ok set_order rt network_inv)]. done.
  - eapply wp_weaken; [|by apply (paych_wp rt network_inv)]. done.
  - eapply wp_weaken; [|apply (multisig_wp absent_delete_ok rt network_inv dec_threshold_usize); done]. done.
  - eapply wp_weaken; [|by apply (reward_wp rt network_inv)]. done.
  - eapply wp_weaken; [|by apply (verifreg_wp absent_cap_ok rt network_inv)]. done.
Qed.

End proofs.

(** ** Sequences of messages *)

Section messages.
Context `{!Codecs, !Externals}.

Definition send_all (fuel : nat) (l : list (Frame * Msg)) (w : World Obj) : World Obj :=
  fold_left (λ w fm, (internal_send fuel fm.1 fm.2 w).1) l w.

Lemma internal_send_keeps fuel f m w : ainv network_inv w → ainv network_inv (internal_send fuel f m w).1.
Proof.
  intros Hi. assert (Hinit : ∀ u s a, network_inv u → state_dec u = Some s →
    network_inv (state_enc (map_address_to_new_id s a).1)).
  { intros u s a Hu Hs. destruct u; try done. injection Hs as <-. by apply init_inv_map. }
  assert (Hfr : pr frame_rel (execute_send fuel f m None)).
  { eapply (execute_send_preserves frame_rel); by left. }
  assert (Hk : keeps network_inv (execute_send fuel f m None)).
  { apply execute_send_keeps; [done|exact Hinit|]. intros c method params p Hp rt u b ??. by eapply network_code_wp. }
  pose proof (keeps_snapshot network_inv Logic.I Hinit _ Hfr Hk w Hi) as Hht. unfold ht, internal_send in *.
  destruct (with_snapshot _ w) as [w' [r|e]]; [by destruct Hht|done].
Qed.

Lemma send_all_keeps fuel l w : ainv network_inv w → ainv network_inv (send_all fuel l w).
Proof.
  revert w. induction l as [|[f m] l IH]; intros w Hi; [done|]. cbn. by apply IH, internal_send_keeps.
Qed.

End messages.

(** ** Theorems *)

Definition record_ok (s : ActorState Obj) : Prop := network_inv (state s) ∧ 0 ≤ balance s.

(** C6.  The invariants of all built-in actors hold of every actor record that
    can be read after any sequence of messages, whatever calls they make: no
    id is handed out twice, accounts have key addresses, multisigs, payment
    channels, the reward, verified registry, power and market actors and the
    miners keep their invariants, and no balance is negative, although calls nest
    and re-enter and failed calls are rolled back. *)
Theorem network_invariant `{!Codecs, !Externals} (fuel : nat) (l : list (Frame * Msg)) (g : GasTracker)
    (h : gmap Address (ActorState Obj)) (a : Address) (t : StateTree Obj) (s : ActorState Obj) :
  map_Forall (λ _, record_ok) h →
  tree_get_actor a (tree (send_all fuel l {| tree := tree_new_from_root h; gas := g |})) = (t, Ok (Some s)) →
  record_ok s.
Proof.
  intros Hh Hg. set (w := send_all _ _ _) in *.
  assert (Hi : ainv network_inv w).
  { apply send_all_keeps. split_and!; [done| |split].
    - intros x Hx%list_elem_of_singleton b r. subst. cbn. by rewrite lookup_empty.
    - exact Hh.
    - intros x Hx%list_elem_of_singleton b r. subst. cbn. by rewrite lookup_empty. }
  destruct Hi as (Hne & Hc & Ha).
  destruct (tree_get_spec (tree w) a Hne) as (t' & r & Hl & Hx & Hr).
  rewrite Hg in Hl. injection Hl as <- <-. destruct (Hr s eq_refl) as (id & _ & Hcur).
  eapply (tree_all_cur (rec_ok network_inv)); [|exact Hcur]. by eapply read_ext_all.
Qed.
