(* ===== verification/InterpSpec.v ===== *)
(** * Sends

    What a send guarantees for any actor code, and a small concrete network on
    which the general theorems are instantiated. *)

From S2P Require Import Prelude Address Runtime Gas StateTree Interp InterpFacts InterpInv.
From S2P Require Import MinerActor MinerSafe SimpleActors Multisig Paych Smooth Reward Verifreg Power Network.

(** ** A small network *)

Definition ex_code_of (n : Z) : Code := if n =? 1 then MULTISIG_ACTOR_CODE_ID else PAYCH_ACTOR_CODE_ID.

(** Toy encodings: enough to approve a multisig transaction, to change its
    threshold, and to create a multisig with one signer. *)
#[export] Instance ex_codecs : Codecs := {|
  dec_address := λ x, match x with [n] => Some (id_addr n) | _ => None end; enc_address := λ _, [];
  enc_bytes := λ x, x;
  dec_init := λ x, Some {| icp_network_name := x |};
  dec_exec := λ x, match x with n :: ps => Some {| code_cid := ex_code_of n; constructor_params := ps |} | _ => None end;
  enc_exec := λ _, []; dec_cron := λ _, None;
  enc_proposal := λ _, [];
  dec_ms := λ x, match x with
    | [n] => Some {| mcp_signers := [id_addr n]; mcp_threshold := 1; mcp_unlock_duration := 0; mcp_start_epoch := 0 |}
    | _ => None end;
  dec_propose := λ x, match x with
    | [n; v] => Some {| pp_to := id_addr n; pp_value := v; pp_method := 0; pp_params := [] |} | _ => None end;
  enc_propose := λ _, [];
  dec_txn_id := ex_txn_id; enc_approve := λ _, []; dec_add_signer := λ _, None; dec_remove_signer := λ _, None;
  dec_swap_signer := λ _, None; dec_threshold := ex_threshold; dec_lock := λ _, None;
  dec_threshold_usize := ex_threshold_usize;
  dec_paych := λ x, match x with [f; t] => Some {| pcp_from := id_addr f; pcp_to := id_addr t |} | _ => None end;
  dec_update := λ _, None; enc_voucher := λ _, [];
  dec_opt_power := λ x, match x with [n] => Some (Some n) | _ => None end;
  dec_award := λ x, match x with
    | [] => Some {| aw_miner := id_addr 101; aw_penalty := 0; aw_gas_reward := 0; aw_win_count := 1 |}
    | _ => None end;
  enc_apply := λ _, []; enc_epoch_reward := λ _, []; dec_epoch_reward := λ _, None; dec_verifier := λ _, None;
  dec_bytes_params := λ _, None; enc_miner := λ _, []; enc_exec_params := λ _, []; dec_exec_return := λ _, None;
  enc_confirm := λ _, []; enc_deferred := λ _, []; enc_z := λ n, [n]; enc_seals := λ _, []; dec_seals := λ _, None;
  dec_create_miner := λ _, None; enc_create_miner := λ _, []; dec_claimed := λ _, None; dec_enroll := λ _, None;
  dec_z := λ x, match x with [n] => Some n | _ => None end; dec_seal := λ _, None; enc_total_power := λ _, [];
  dec_control := λ _, None; dec_total_power := λ _, None; enc_bytes_params := λ _, []; enc_deal := λ _, [];
  enc_pieces := λ _, []; dec_withdraw := λ _, None; enc_withdraw := λ _, []; dec_publish := λ _, None;
  enc_publish := λ _, []; dec_verify_deals := λ _, None; enc_verify_deals := λ _, []; dec_activate := λ _, None;
  dec_terminate := λ _, None; dec_commitment := λ _, None; enc_commitment := λ _, [];
  enc_payload := λ _, []; dec_payload := λ _, None; enc_enroll := λ _, []; enc_claimed := λ _, []; enc_terminate := λ _, [];
  enc_window_post := λ _, []; dec_fault := λ _, None; enc_commitment_params := λ _, []; dec_commitment_return := λ _, None;
  enc_verify_params := λ _, []; dec_verify_return := λ _, None; enc_activate := λ _, []; enc_seal := λ _, [];
  enc_aggregate := λ _, []; dec_miner := λ _, None; enc_control := λ _, []; dec_change_worker := λ _, None;
  dec_change_peer := λ _, None; dec_submit := λ _, None; dec_precommit := λ _, None; dec_prove := λ _, None;
  dec_extend := λ _, None; dec_terminations := λ _, None; enc_terminations := λ _, []; dec_faults := λ _, None;
  dec_recoveries := λ _, None; dec_deferred := λ _, None; dec_proven := λ _, None; dec_apply := λ _, None;
  dec_report := λ _, None; dec_miner_withdraw := λ x, match x with [n] => Some {| mw_amount_requested := n |} | _ => None end;
  enc_miner_withdraw := λ _, []; dec_confirm := λ _, None; dec_multiaddrs := λ _, None; dec_compact := λ _, None;
  dec_compact_numbers := λ _, None; dec_dispute := λ _, None; dec_precommits := λ _, None; dec_aggregate := λ _, None |}.

#[export] Instance ex_externals : Externals := {|
  e_state_size := λ _, 100; e_nested_gas := λ _ _, 0; e_sys_answer := λ _ _, Some []; e_sys_gas := λ _, gas_charge_new 0 0;
  e_supply := λ _, None;
  e_new_actor_key := λ a n k, {| network := Mainnet; payload := Actor (repeat (n + k) 20%nat) |};
  e_prices := CALICO_PRICES; absent_delete_ok := λ _ _, false; absent_cap_ok := λ _ _, false;
  batch_order := map_to_list; deal_cid := Funds.label; piece_prefix_ok := λ _, true; absent_pending_ok := λ _ _, false;
  absent_ops_ok := λ _ _, true; set_order := elements; absent_precommit_ok := λ _ _, true;
  hash_order := elements; sealed_prefix_ok := λ _, true |}.

Definition ex_rec (c : Code) (u : Obj) (b : Z) : ActorState Obj :=
  {| code := c; state := u; sequence := 0; balance := b |}.
(** A reward actor in its first epoch. *)
Definition ex_reward : RewardState :=
  {| cumsum_baseline := 10; cumsum_realized := 5; effective_network_time := 1; effective_baseline_power := 10;
     this_epoch_reward := 100; this_epoch_reward_smoothed := {| position := 0; velocity := 0 |};
     this_epoch_baseline_power := 10; rw_epoch := 0; total_storage_power_reward := 0;
     simple_total := 1000; baseline_total := 1000 |}.
Definition ex_hamt : gmap Address (ActorState Obj) := list_to_map [
  (SYSTEM_ACTOR_ADDR, ex_rec SYSTEM_ACTOR_CODE_ID OEmpty 0);
  (INIT_ACTOR_ADDR, ex_rec INIT_ACTOR_CODE_ID (OInit {| address_map := ∅; next_id := 200; network_name := [] |}) 0);
  (REWARD_ACTOR_ADDR, ex_rec REWARD_ACTOR_CODE_ID (OReward ex_reward) 1000);
  (CRON_ACTOR_ADDR, ex_rec CRON_ACTOR_CODE_ID (OCron {| entries := [] |}) 0);
  (BURNT_FUNDS_ACTOR_ADDR, ex_rec ACCOUNT_ACTOR_CODE_ID OEmpty 0);
  (id_addr 100, ex_rec ACCOUNT_ACTOR_CODE_ID OEmpty 5000000000);
  (id_addr 101, ex_rec ACCOUNT_ACTOR_CODE_ID OEmpty 0);
  (id_addr 150, ex_rec MULTISIG_ACTOR_CODE_ID (OMultisig (ex_ms {[0 := ex_txn]})) 400);
  (id_addr 160, ex_rec PAYCH_ACTOR_CODE_ID (OPaych ex_channel) 100) ].
Definition ex_world : World Obj :=
  {| tree := tree_new_from_root ex_hamt; gas := {| gas_available := 10000000000; gas_used := 0 |} |}.
Definition ex_frame (from to : Z) : Frame :=
  {| ctx := {| caller := id_addr from; receiver := id_addr to; value_received := 0; curr_epoch := 250; base_fee := 100 |};
     origin := id_addr from; origin_nonce := 0; num_actors_created := 0; caller_validated := false;
     allow_internal := true |}.
Definition ex_msg (from to method value : Z) (ps : bytes) : Msg :=
  {| m_from := id_addr from; m_to := id_addr to; m_method := method; m_value := value; m_params := ps |}.

Definition ex_collect : Frame * Msg := (ex_frame 100 160, ex_msg 100 160 4 0 []).


(** ** Theorems *)

(** C7.  Sends are atomic and gas is bounded.  For any actor code: a call that
    fails leaves the state tree exactly as it was before the call, with all
    that the callee, and whatever it called in turn, wrote undone; a call that
    succeeds changes nothing below the newest snapshot; and whatever happens,
    the gas used stays within the gas available. *)
Theorem send_atomic {U} `{!EqDecision U, !StateIn InitState U, !StateIn AccountState U, !Machine U}
    (fuel : nat) (f : Frame) (m : Msg) (w : World U) (l : StateSnapLayer U) (ls : list (StateSnapLayer U)) :
  layers (tree w) = l :: ls → gas_used (gas w) ≤ gas_available (gas w) →
  ∃ w' r, internal_send fuel f m w = (w', r) ∧
    gas_used (gas w') ≤ gas_available (gas w') ∧ gas_available (gas w') = gas_available (gas w) ∧
    match r with
    | Err _ => tree w' = tree w
    | Ok _ => hamt (tree w') = hamt (tree w) ∧ ∃ l', layers (tree w') = l' :: ls
    end.
Proof.
  intros Hl Hgas. unfold internal_send.
  assert (Hm : pr frame_rel (execute_send fuel f m None)).
  { eapply (execute_send_preserves frame_rel); by left. }
  destruct (frame_snapshot _ Hm w) as (_ & Ha & Hu).
  destruct (with_snapshot_spec _ w l ls Hm Hl) as (_ & _ & w2 & r & _ & _ & l0 & w' & _ & Heq & _ & Hh & Hl').
  rewrite Heq in *. cbn in *. exists w', r. split_and!; [done|rewrite Ha; auto|done|].
  destruct r as [r|e]; [eauto|]. destruct (tree w), (tree w'); cbn in *; congruence.
Qed.

(** A transfer that the sender cannot cover. *)
Lemma send_atomic_witness :
  ∃ w' e, internal_send 5 (ex_frame 101 100) (ex_msg 101 100 0 7 []) ex_world = (w', Err e) ∧
    tree w' = tree ex_world ∧ exit_code e = SysErrInsufficientFunds.
Proof.
  destruct (send_atomic 5 (ex_frame 101 100) (ex_msg 101 100 0 7 []) ex_world empty_layer []) as (w' & r & Hs & _ & _ & Hr);
    [reflexivity|cbn; lia|].
  assert (Hc : match (internal_send 5 (ex_frame 101 100) (ex_msg 101 100 0 7 []) ex_world).2 with
               | Err e => exit_code e = SysErrInsufficientFunds | Ok _ => False end) by (vm_compute; reflexivity).
  rewrite Hs in Hc. destruct r as [x|e]; [destruct Hc|]. exists w', e. exact (conj Hs (conj Hr Hc)).
Defined.


(** The records of the small network satisfy the invariants, also after a
    multisig transaction and the collection of a channel. *)
Lemma ex_hamt_ok : map_Forall (λ _, record_ok) ex_hamt.
Proof.
  repeat (apply map_Forall_insert_2; [|]); try apply map_Forall_empty; split; cbn; try lia; try done.
  - apply ex_ms_ok.
  - apply ex_channel_ok.
Qed.

Lemma network_invariant_witness :
  ∃ t s, tree_get_actor (id_addr 150)
      (tree (send_all 10 [(ex_frame 101 150, ex_msg 101 150 3 0 [0]); ex_collect] ex_world)) = (t, Ok (Some s)) ∧
    record_ok s.
Proof.
  set (w := send_all _ _ _). destruct (tree_get_actor (id_addr 150) (tree w)) as [t r] eqn:E.
  assert (Hr : match r with Ok (Some _) => True | _ => False end).
  { change r with (t, r).2. rewrite <-E. vm_compute. exact Logic.I. }
  destruct r as [[s|]|]; [|destruct Hr..]. exists t, s. split; [reflexivity|].
  apply (network_invariant 10 [(ex_frame 101 150, ex_msg 101 150 3 0 [0]); ex_collect] (gas ex_world) ex_hamt
    (id_addr 150) t s); [apply ex_hamt_ok|exact E].
Defined.
