(* ===== verification/Vm.v ===== *)
(** * Applying messages

    [VM] of [src/vm/interpreter/src/vm.rs]: what a message on chain costs, when
    it is rejected, how its effects are rolled back if it fails, who is paid,
    and the messages of a tipset with the block rewards and cron. *)

From S2P Require Import Prelude Address Runtime Gas StateTree Interp InterpFacts.
From S2P Require Import Network InterpSpec.

Record ChainMessage := {
  cm_from : Address; cm_to : Address; cm_sequence : Z; cm_value : Z; cm_method : Z; cm_params : bytes;
  cm_gas_limit : Z; cm_gas_fee_cap : Z; cm_gas_premium : Z }.

Record MessageReceipt := { r_exit_code : ExitCode; return_data : bytes; r_gas_used : Z }.
Record ApplyRet := {
  msg_receipt : MessageReceipt; act_error : option ActorError; penalty : Z; ret_miner_tip : Z }.

(** The strings of [Result<_, String>]; [GasPanic] is the [unwrap] of a gas
    amount that is no [i64]. *)
Inductive VmError :=
| NoGasLimit | NegativeGasLimit | TreeFailed (e : TreeError) | FatalError (e : ActorError)
| ReturnOnError | NoRuntime (e : option ActorError) | NegativeTransfer | GasMathWrong | GasPanic
| RewardFailed | MigrationFailed.

Definition check_message (msg : ChainMessage) : result VmError unit :=
  if cm_gas_limit msg =? 0 then Err NoGasLimit
  else if cm_gas_limit msg <? 0 then Err NegativeGasLimit
  else Ok tt.

Definition UPGRADE_CLAUS_HEIGHT : Z := 343200.
Definition UPGRADE_ACTORS_V4_HEIGHT : Z := 712320.
Definition SUBMIT_WINDOWED_POST : Z := 5.

(** A receipt without return value and gas, and the penalty of the miner. *)
Definition rejected (c : ExitCode) (pen : Z) : ApplyRet :=
  {| msg_receipt := {| r_exit_code := c; return_data := []; r_gas_used := 0 |};
     act_error := Some (actor_error c); penalty := pen; ret_miner_tip := 0 |}.

Definition VM (U A : Type) : Type := StateTree U → StateTree U * result VmError A.
#[global] Instance vm_ret {U} : MRet (VM U) := λ A a t, (t, Ok a).
#[global] Instance vm_bind {U} : MBind (VM U) := λ A B f m t,
  match m t with (t', Ok a) => f a t' | (t', Err e) => (t', Err e) end.

Section vm.
Context {U : Type} `{!EqDecision U, !StateIn InitState U, !StateIn AccountState U, !Machine U}.
(** Length of the CBOR of a message. *)
Context (msg_size : ChainMessage → Z).

Definition vm_throw {A} (e : VmError) : VM U A := λ t, (t, Err e).
Definition lift {A} (m : TM U A) : VM U A := λ t,
  match m t with (t, Ok a) => (t, Ok a) | (t, Err e) => (t, Err (TreeFailed e)) end.

Definition top_frame (epoch base_fee : Z) (msg : ChainMessage) (caller receiver : Address) : Frame :=
  {| ctx := {| caller := caller; receiver := receiver; value_received := cm_value msg;
               curr_epoch := epoch; base_fee := base_fee |};
     origin := cm_from msg; origin_nonce := cm_sequence msg; num_actors_created := 0;
     caller_validated := false; allow_internal := true |}.
Definition to_msg (msg : ChainMessage) : Msg :=
  {| m_from := cm_from msg; m_to := cm_to msg; m_method := cm_method msg; m_value := cm_value msg;
     m_params := cm_params msg |}.

(** [VM::send]: a runtime, if the sender resolves, and the message run on it. *)
Definition vm_send (epoch base_fee : Z) (msg : ChainMessage) (gas_cost : option GasCharge) (t : StateTree U)
    : StateTree U * (bytes * option GasTracker * option ActorError) :=
  let w := {| tree := t; gas := {| gas_available := cm_gas_limit msg; gas_used := 0 |} |} in
  match on_tree (lookup_id (cm_from msg)) new_fatal w with
  | (w, Err e) => (tree w, ([], None, Some e))
  | (w, Ok None) => (tree w, ([], None, Some (actor_error SysErrInvalidReceiver)))
  | (w, Ok (Some caller)) =>
      match on_tree (lookup_id (cm_to msg)) new_fatal w with
      | (w, Err e) => (tree w, ([], None, Some e))
      | (w, Ok receiver) =>
          let f := top_frame epoch base_fee msg caller (default (cm_to msg) receiver) in
          match execute_send MAX_CALL_DEPTH f (to_msg msg) gas_cost w with
          | (w, Ok ser) => (tree w, (ser, Some (gas w), None))
          | (w, Err e) => (tree w, ([], Some (gas w), Some e))
          end
      end
  end.

Definition apply_implicit_message (epoch base_fee : Z) (msg : ChainMessage) : VM U ApplyRet := λ t,
  let '(t, (ret, _, act_err)) := vm_send epoch base_fee msg None t in
  (t, Ok {| msg_receipt := {| r_exit_code := match act_err with Some e => exit_code e | None => EOk end;
                              return_data := ret; r_gas_used := 0 |};
            act_error := act_err; penalty := 0; ret_miner_tip := 0 |}).

Definition should_burn (epoch : Z) (msg : ChainMessage) (c : ExitCode) : VM U bool :=
  if (epoch <=? UPGRADE_ACTORS_V4_HEIGHT) && (UPGRADE_CLAUS_HEIGHT <? epoch) && is_success c
     && (cm_method msg =? SUBMIT_WINDOWED_POST) then
    to_actor ← lift (tree_get_actor (cm_to msg));
    match to_actor with
    | Some act => mret (negb (bool_decide (code act = MINER_ACTOR_CODE_ID)))
    | None => mret true
    end
  else mret true.

Definition transfer_to_actor (a : Address) (amt : Z) : VM U unit :=
  if amt <? 0 then vm_throw NegativeTransfer
  else if amt =? 0 then mret tt
  else lift (mutate_actor a (λ act, Some (deposit_funds act amt))).

(** Charge the return value; running out of gas there drops it. *)
Definition charge_return (g : GasTracker) (ret : bytes) (act_err : option ActorError)
    : GasTracker * bytes * option ActorError :=
  match ret with
  | [] => (g, ret, act_err)
  | _ =>
      match tracker_charge_gas g (on_chain_return_value prices (Z.of_nat (length ret))) with
      | (g, Ok _) => (g, ret, act_err)
      | (g, Err e) => (g, [], Some e)
      end
  end.

(** Pays for the gas of a message, from the balance charged in advance. *)
Definition settle_gas (base_fee : Z) (msg : ChainMessage) (gas_cost : Z) (used : Z) (burn : bool) : VM U GasOutputs :=
  match compute_gas_outputs used (cm_gas_limit msg) base_fee (cm_gas_fee_cap msg) (cm_gas_premium msg) burn with
  | None => vm_throw GasPanic
  | Some out =>
      _ ← transfer_to_actor BURNT_FUNDS_ACTOR_ADDR (base_fee_burn out);
      _ ← transfer_to_actor REWARD_ACTOR_ADDR (miner_tip out);
      _ ← transfer_to_actor BURNT_FUNDS_ACTOR_ADDR (over_estimation_burn out);
      _ ← transfer_to_actor (cm_from msg) (refund out);
      if negb (base_fee_burn out + over_estimation_burn out + refund out + miner_tip out =? gas_cost)
      then vm_throw GasMathWrong else mret out
  end.

(** The closure of [apply_message] that runs between the snapshot and its end. *)
Definition send_clo (epoch base_fee : Z) (msg : ChainMessage) (msg_gas_cost : GasCharge) (gas_cost : Z)
    : VM U ApplyRet := λ t,
  match lift snapshot t with
  | (t, Err e) => (t, Err e)
  | (t, Ok _) =>
      let '(t, (ret_data, rt, act_err)) := vm_send epoch base_fee msg (Some msg_gas_cost) t in
      let broken := match act_err with
        | Some e => if fatal e then Some (FatalError e)
                    else match ret_data with [] => None | _ => Some ReturnOnError end
        | None => None
        end in
      match broken, rt with
      | Some e, _ => (t, Err e)
      | None, None => (t, Err (NoRuntime act_err))
      | None, Some g =>
          let '(g, ret_data, act_err) := charge_return g ret_data act_err in
          let used := if gas_used g <? 0 then 0 else gas_used g in
          (_ ← match act_err with
               | Some e => if error_is_ok e then mret tt else lift revert_to_snapshot
               | None => mret tt
               end;
           let err_code := match act_err with Some e => exit_code e | None => EOk end in
           burn ← should_burn epoch msg err_code;
           out ← settle_gas base_fee msg gas_cost used burn;
           mret {| msg_receipt := {| r_exit_code := err_code; return_data := ret_data; r_gas_used := used |};
                   act_error := act_err; penalty := miner_penalty out; ret_miner_tip := miner_tip out |}) t
      end
  end.

(** [clear_snapshot] also after an error. *)
Definition then_clear (m : VM U ApplyRet) : VM U ApplyRet := λ t,
  let '(t, res) := m t in
  match lift clear_snapshot t with (t, Ok _) => (t, res) | (t, Err e) => (t, Err e) end.
(** An error of [get_actor] counts as an absent sender. *)
Definition load_sender (a : Address) : VM U (option (ActorState U)) := λ t,
  match tree_get_actor a t with (t, Ok o) => (t, Ok o) | (t, Err _) => (t, Ok None) end.
Definition vm_check (msg : ChainMessage) : VM U unit := λ t, (t, check_message msg).

Definition apply_message (epoch base_fee : Z) (msg : ChainMessage) : VM U ApplyRet :=
  _ ← vm_check msg;
  let msg_gas_cost := on_chain_message (price_list_by_epoch epoch) (msg_size msg) in
  let cost_total := charge_total msg_gas_cost in
  if cm_gas_limit msg <? cost_total then mret (rejected SysErrOutOfGas (base_fee * cost_total))
  else
    let miner_penalty_amount := base_fee * cm_gas_limit msg in
    from_act ← load_sender (cm_from msg);
    match from_act with
    | None => mret (rejected SysErrSenderInvalid miner_penalty_amount)
    | Some from_act =>
        if negb (is_account_actor (code from_act)) then mret (rejected SysErrSenderInvalid miner_penalty_amount)
        else if negb (cm_sequence msg =? sequence from_act)
        then mret (rejected SysErrSenderStateInvalid miner_penalty_amount)
        else
          let gas_cost := cm_gas_fee_cap msg * cm_gas_limit msg in
          if balance from_act <? gas_cost then mret (rejected SysErrSenderStateInvalid miner_penalty_amount)
          else
            _ ← lift (mutate_actor (cm_from msg) (λ act, incr_sequence <$> deduct_funds act gas_cost));
            then_clear (send_clo epoch base_fee msg msg_gas_cost gas_cost)
    end.

(** ** Tipsets *)

(** CID of a message, CBOR of the reward parameters, and the state migration of
    the one epoch that has one. *)
Context {Cid : Type} `{!EqDecision Cid} (msg_cid : ChainMessage → Cid)
  (award_params : Address → Z → Z → Z → bytes) (run_migration : StateTree U → option (StateTree U)).

Record BlockMessages := { bm_miner : Address; bm_messages : list ChainMessage; win_count : Z }.

Definition BLOCK_GAS_LIMIT : Z := 10000000000.
Definition implicit_msg (to : Address) (epoch gas_limit method : Z) (params : bytes) : ChainMessage :=
  {| cm_from := SYSTEM_ACTOR_ADDR; cm_to := to; cm_sequence := epoch mod 2 ^ 64; cm_value := 0;
     cm_method := method; cm_params := params; cm_gas_limit := gas_limit; cm_gas_fee_cap := 0;
     cm_gas_premium := 0 |}.
(** Errors of cron are logged by the callers. *)
Definition run_cron (vm_epoch base_fee epoch : Z) : VM U unit :=
  _ ← apply_implicit_message vm_epoch base_fee
        (implicit_msg CRON_ACTOR_ADDR epoch (BLOCK_GAS_LIMIT * 10000) 2 []);
  mret tt.

Definition migrate_state (epoch : Z) : VM U unit :=
  if epoch =? UPGRADE_ACTORS_V4_HEIGHT then λ t,
    match run_migration t with Some t' => (t', Ok tt) | None => (t, Err MigrationFailed) end
  else mret tt.

(** The null rounds: for each epoch but the first cron, then the migration; the
    [VM] is at epoch [i] when round [i] runs, but for the first. *)
Fixpoint null_rounds (n : nat) (vm_epoch base_fee parent_epoch i : Z) : VM U Z :=
  match n with
  | O => mret vm_epoch
  | S n =>
      _ ← (if parent_epoch <? i then run_cron vm_epoch base_fee i else mret tt);
      _ ← migrate_state i;
      null_rounds n (i + 1) base_fee parent_epoch (i + 1)
  end.

(** The messages of one block: processed CIDs, receipts, reward and penalty. *)
Fixpoint process_msgs (epoch base_fee : Z) (msgs : list ChainMessage) (processed : list Cid)
    (receipts : list MessageReceipt) (gas_reward pen : Z) : VM U (list Cid * list MessageReceipt * Z * Z) :=
  match msgs with
  | [] => mret (processed, receipts, gas_reward, pen)
  | msg :: msgs =>
      if bool_decide (msg_cid msg ∈ processed) then process_msgs epoch base_fee msgs processed receipts gas_reward pen
      else
        ret ← apply_message epoch base_fee msg;
        process_msgs epoch base_fee msgs (msg_cid msg :: processed) (receipts ++ [msg_receipt ret])
          (gas_reward + ret_miner_tip ret) (pen + penalty ret)
  end.

Fixpoint process_blocks (vm_epoch base_fee epoch : Z) (blocks : list BlockMessages) (processed : list Cid)
    (receipts : list MessageReceipt) : VM U (list Cid * list MessageReceipt) :=
  match blocks with
  | [] => mret (processed, receipts)
  | block :: blocks =>
      '(processed, receipts, gas_reward, pen) ←
        process_msgs vm_epoch base_fee (bm_messages block) processed receipts 0 0;
      ret ← apply_implicit_message vm_epoch base_fee
        (implicit_msg REWARD_ACTOR_ADDR epoch (2 ^ 30) 2
           (award_params (bm_miner block) pen gas_reward (win_count block)));
      if bool_decide (act_error ret = None) && bool_decide (r_exit_code (msg_receipt ret) = EOk)
      then process_blocks vm_epoch base_fee epoch blocks processed receipts
      else vm_throw RewardFailed
  end.

Definition apply_block_messages (vm_epoch base_fee : Z) (blocks : list BlockMessages) (parent_epoch epoch : Z)
    : VM U (list MessageReceipt) :=
  vm_epoch ← null_rounds (Z.to_nat (epoch - parent_epoch)) vm_epoch base_fee parent_epoch parent_epoch;
  '(_, receipts) ← process_blocks vm_epoch base_fee epoch blocks [] [];
  _ ← run_cron vm_epoch base_fee epoch;
  mret receipts.

End vm.

(** ** What applying a message does to the records *)

Section facts.
Context {U : Type} `{!EqDecision U, !StateIn InitState U, !StateIn AccountState U, !Machine U}.
Implicit Types (t : StateTree U) (m : gmap Address (ActorState U)).

(** Only the newest layer changed, and addresses still resolve as before. *)
Definition grows t t' : Prop :=
  supply_inv t' ∧ fr t t' ∧ ∀ a i, resolves t a i → resolves t' a i.

Lemma grows_trans t1 t2 t3 : grows t1 t2 → grows t2 t3 → grows t1 t3.
Proof. intros (? & ? & ?) (? & ? & ?). split_and!; [done|by eapply fr_trans|auto]. Qed.
Lemma grows_refl t : supply_inv t → grows t t.
Proof. intros. split_and!; [done|apply fr_refl|done]. Qed.

Lemma read_grows t t' : supply_inv t → read_ext t t' → grows t t' ∧ view t' = view t.
Proof.
  intros Hi Hx. destruct (read_ext_supply _ _ Hx Hi) as [Hi' _]. split.
  - split_and!; [done|by apply read_ext_fr|]. intros a i. by eapply read_ext_resolves.
  - apply read_ext_view; [done|apply Hi].
Qed.

Lemma view_balance t a s : supply_inv t → view t !! a = Some s → 0 ≤ balance s.
Proof.
  intros (_ & Hn & _ & Ha) Hs. apply (tree_all_cur (λ s, 0 ≤ balance s) t a); [done|]. by rewrite no_marks_cur.
Qed.

Lemma mutate_spec t a f t' :
  supply_inv t → mutate_actor a f t = (t', Ok tt) →
  (∀ s s', 0 ≤ balance s → f s = Some s' → 0 ≤ balance s') →
  ∃ id s s', resolves t' a id ∧ view t !! id = Some s ∧ f s = Some s' ∧
    view t' = <[id := s']> (view t) ∧ grows t t'.
Proof.
  intros Hi Hm Hf. unfold mutate_actor, mbind, tm_bind in Hm.
  destruct (tree_get_spec t a (proj1 Hi)) as (t1 & r & Hg & Hx & Hr). rewrite Hg in Hm.
  destruct r as [[s|]|e]; [|discriminate Hm..]. destruct (Hr s eq_refl) as (id & Hres & Hcur).
  destruct (read_grows _ _ Hi Hx) as [Hg1 Hv1]. pose proof Hg1 as ((Hne & Hn & ?) & _).
  rewrite no_marks_cur in Hcur by done.
  destruct (f s) as [s'|] eqn:Es; [|discriminate Hm].
  destruct (set_supply t1 a id s') as (t2 & Hset & Hi2 & Hv2 & Hres2); [apply Hg1|done| |].
  { eapply Hf; [|done]. eapply view_balance; [apply Hg1|done]. }
  pose proof (tpr_set a s' t1) as Hfr. rewrite Hset in Hm, Hfr. injection Hm as <-.
  exists id, s, s'. rewrite Hv2, <-Hv1. split_and!; try done; [by rewrite <-Hres2|].
  eapply grows_trans; [exact Hg1|]. split_and!; [done|done|]. intros b i. by rewrite <-Hres2.
Qed.

Definition deposit (a : Address) (x : Z) m : gmap Address (ActorState U) :=
  if x =? 0 then m
  else match m !! a with Some s => <[a := deposit_funds s x]> m | None => m end.

Lemma resolves_det t a i j : resolves t a i → resolves t a j → i = j.
Proof. intros [[? ->]|[? Hi]] [[? ->]|[? Hj]]; congruence. Qed.

Lemma transfer_to_spec t a x t' :
  supply_inv t → transfer_to_actor a x t = (t', Ok tt) →
  0 ≤ x ∧ (∀ id, resolves t a id → view t' = deposit id x (view t)) ∧ supply t' = supply t + x ∧ grows t t'.
Proof.
  intros Hi. unfold transfer_to_actor, deposit. destruct (Z.ltb_spec x 0); [done|].
  destruct (Z.eqb_spec x 0) as [->|Hx]; [intros [= <-]; split_and!; [done|done|lia|by apply grows_refl]|].
  unfold lift. destruct (mutate_actor _ _ t) as [t1 [[]|e]] eqn:Hm; [|done]. intros [= <-].
  apply mutate_spec in Hm as (id & s & s' & Hr & Hs & [= <-] & Hv & Hg); [|done|].
  2:{ intros s0 s1 Hb [= <-]. cbn. lia. }
  split_and!; [lia| | |done].
  - intros id' Hr'. assert (id' = id) as -> by (eapply resolves_det; [by apply Hg|exact Hr]). by rewrite Hs.
  - unfold supply. rewrite Hv, map_sum_insert, Hs. cbn. lia.
Qed.

(** The records after gas has been paid for. *)
Definition pay_gas (from : Address) (out : GasOutputs) m : gmap Address (ActorState U) :=
  deposit from (refund out)
    (deposit BURNT_FUNDS_ACTOR_ADDR (over_estimation_burn out)
       (deposit REWARD_ACTOR_ADDR (miner_tip out)
          (deposit BURNT_FUNDS_ACTOR_ADDR (base_fee_burn out) m))).

Lemma vm_bind_ok {A B} (c : VM U A) (k : A → VM U B) t t' b :
  (c ≫= k) t = (t', Ok b) → ∃ t1 a, c t = (t1, Ok a) ∧ k a t1 = (t', Ok b).
Proof. unfold mbind, vm_bind. destruct (c t) as [t1 [a|e]]; [eauto|done]. Qed.

Lemma settle_gas_spec base_fee msg cost used burn t t' out :
  supply_inv t → settle_gas base_fee msg cost used burn t = (t', Ok out) →
  compute_gas_outputs used (cm_gas_limit msg) base_fee (cm_gas_fee_cap msg) (cm_gas_premium msg) burn = Some out ∧
  (base_fee_burn out + over_estimation_burn out + refund out + miner_tip out = cost ∧
   0 ≤ base_fee_burn out ∧ 0 ≤ over_estimation_burn out ∧ 0 ≤ refund out ∧ 0 ≤ miner_tip out) ∧
  (∀ id, resolves t (cm_from msg) id → view t' = pay_gas id out (view t)) ∧
  supply t' = supply t + cost ∧ grows t t'.
Proof.
  intros Hi. unfold settle_gas. destruct (compute_gas_outputs _ _ _ _ _ _) as [o|]; [|done].
  intros (t1 & [] & H1 & (t2 & [] & H2 & (t3 & [] & H3 & (t4 & [] & H4 & H)%vm_bind_ok)%vm_bind_ok)%vm_bind_ok)%vm_bind_ok.
  destruct (Z.eqb_spec (base_fee_burn o + over_estimation_burn o + refund o + miner_tip o) cost) as [Hc|]; [|done].
  injection H as <- <-.
  apply transfer_to_spec in H1 as (? & Hv1 & Hs1 & Hg1); [|done].
  apply transfer_to_spec in H2 as (? & Hv2 & Hs2 & Hg2); [|apply Hg1].
  apply transfer_to_spec in H3 as (? & Hv3 & Hs3 & Hg3); [|apply Hg2].
  apply transfer_to_spec in H4 as (? & Hv4 & Hs4 & Hg4); [|apply Hg3].
  split_and!; try done; [|lia|eauto using grows_trans].
  intros id Hr. rewrite (Hv4 id), (Hv3 BURNT_FUNDS_ACTOR_ADDR), (Hv2 REWARD_ACTOR_ADDR),
    (Hv1 BURNT_FUNDS_ACTOR_ADDR); [done|by left..|]. by apply Hg3, Hg2, Hg1.
Qed.

(** ** Running the message *)

Definition no_deletes : Prop :=
  ∀ c method params (p : Ctx → Prog U bytes) rt, invoke_code c method params = Some p → no_delete (p rt).
Definition start t msg : World U := {| tree := t; gas := {| gas_available := cm_gas_limit msg; gas_used := 0 |} |}.

Lemma vm_send_preserves (R : World U → World U → Prop) (deletes : Prop) `{!Preserved R deletes}
    epoch base_fee msg cost t t' ret rt act_err :
  deletes ∨ no_deletes →
  vm_send epoch base_fee msg cost t = (t', (ret, rt, act_err)) →
  ∃ w, R (start t msg) w ∧ tree w = t' ∧ ∀ g, rt = Some g → g = gas w.
Proof.
  intros Hd. unfold vm_send. fold (start t msg).
  pose proof (pres_lookup R (cm_from msg) new_fatal (start t msg)) as H1.
  destruct (on_tree (lookup_id (cm_from msg)) new_fatal (start t msg)) as [w1 [[caller|]|e]]; cbn in H1.
  2,3: by intros [= <- <- <- <-]; exists w1.
  pose proof (pres_lookup R (cm_to msg) new_fatal w1) as H2.
  destruct (on_tree (lookup_id (cm_to msg)) new_fatal w1) as [w2 [receiver|e]]; cbn in H2.
  2: by intros [= <- <- <- <-]; exists w2; split; [by eapply pres_trans|].
  set (f := top_frame _ _ _ _ _).
  pose proof (execute_send_preserves R Hd MAX_CALL_DEPTH f (to_msg msg) cost w2) as H3.
  destruct (execute_send MAX_CALL_DEPTH f (to_msg msg) cost w2) as [w3 [r|e]]; cbn in H3;
    intros [= <- <- <- <-]; exists w3; (split; [by eapply pres_trans, pres_trans|]); (split; [done|by intros g [= <-]]).
Qed.

Lemma vm_send_frame epoch base_fee msg cost t t' ret rt act_err :
  vm_send epoch base_fee msg cost t = (t', (ret, rt, act_err)) →
  fr t t' ∧
  ∀ g, rt = Some g → gas_available g = cm_gas_limit msg ∧ (0 ≤ cm_gas_limit msg → gas_used g ≤ cm_gas_limit msg).
Proof.
  intros H. apply (vm_send_preserves frame_rel True) in H as (w & (Hf & Ha & Hu) & <- & Hg); [|by left].
  split; [done|]. intros g ->%Hg. split; [done|]. exact Hu.
Qed.

Lemma vm_send_supply epoch base_fee msg cost t t' ret rt act_err :
  no_deletes → vm_send epoch base_fee msg cost t = (t', (ret, rt, act_err)) →
  supply_inv t → supply_inv t' ∧ supply t' ≤ supply t.
Proof.
  intros Hd H Hi. apply (vm_send_preserves supply_rel False) in H as (w & [_ Hs] & <- & _); [|by right]. by apply Hs.
Qed.

Definition snapped t : StateTree U := with_layers t (empty_layer :: layers t).

Lemma snapped_inv t : supply_inv t → supply_inv (snapped t) ∧ view (snapped t) = view t ∧
  ∀ a i, resolves t a i → resolves (snapped t) a i.
Proof.
  intros (Hne & Hn & Hc & [Hh Hl]). split_and!.
  - split_and!; [done| | |split; [done|]].
    + intros x [->|Hx]%elem_of_cons a; [cbn; by rewrite lookup_empty|by apply Hn].
    + intros x [->|Hx]%elem_of_cons a r; [cbn; by rewrite lookup_empty|by apply Hc].
    + intros x [->|Hx]%elem_of_cons a s; [cbn; by rewrite lookup_empty|by apply Hl].
  - apply overlay_empty.
  - intros a i [?|[? ?]]; [by left|right]. cbn. by rewrite lookup_empty.
Qed.

Lemma revert_snapped t t' : fr (snapped t) t' → lift revert_to_snapshot t' = (snapped t, Ok tt).
Proof.
  intros Hf. destruct (Hf empty_layer (layers t) eq_refl) as (Hh & l' & Hl').
  unfold lift, revert_to_snapshot, on_snaps. rewrite Hl'. cbn. unfold snapped, with_layers. by rewrite Hh.
Qed.

Lemma clear_snapped t t' : layers t ≠ [] → fr (snapped t) t' →
  ∃ t2, lift clear_snapshot t' = (t2, Ok tt) ∧ view t2 = view t' ∧ fr t t2 ∧ (supply_inv t' → supply_inv t2).
Proof.
  intros Hne Hf. destruct (Hf empty_layer (layers t) eq_refl) as (Hh & l0 & Hl0).
  destruct (layers t) as [|l ls] eqn:Hl; [done|]. unfold lift, clear_snapshot, on_snaps. rewrite Hl0.
  cbn [snaps_merge_last_layer]. eexists; split; [reflexivity|]. split_and!.
  - unfold view. rewrite Hl0. cbn [with_layers layers hamt view_of]. apply overlay_union.
  - intros x xs Hx. rewrite Hl in Hx. injection Hx as <- <-. cbn. split; [done|by eexists].
  - intros (_ & Hn & Hc & Ha). split_and!; [done| | |].
    + eapply merge_marks; [exact Hl0|done|done].
    + unfold cache_ids in *. rewrite Hl0 in Hc. cbn. intros x [->|Hx]%elem_of_cons a r; [|apply Hc; set_solver].
      cbn. intros [?|[_ ?]]%lookup_union_Some_raw; eapply Hc; try done; set_solver.
    + eapply merge_all; [exact Hl0| | |exact Ha]; done.
Qed.

Lemma charge_return_spec (g g' : GasTracker) ret ret' ae ae' :
  charge_return g ret ae = (g', ret', ae') →
  (gas_used g ≤ gas_available g → gas_used g' ≤ gas_available g) ∧
  (∀ e, ae' = Some e → ae = Some e ∨ exit_code e = SysErrOutOfGas).
Proof.
  unfold charge_return. destruct ret as [|x ret].
  { intros [= <- <- <-]. auto. }
  pose proof (tracker_charge_ok g (on_chain_return_value prices (Z.of_nat (length (x :: ret))))) as Hok.
  unfold tracker_charge_gas in *. case_if; intros [= <- <- <-]; (split; [exact Hok|]); [|by left].
  intros e [= <-]. by right.
Qed.

Lemma should_burn_spec epoch msg c t t' b :
  supply_inv t → should_burn epoch msg c t = (t', Ok b) → grows t t' ∧ view t' = view t.
Proof.
  intros Hi. unfold should_burn. case_if.
  - intros (t1 & o & Hb1 & Hb2)%vm_bind_ok. unfold lift in Hb1.
    destruct (tree_get_spec t (cm_to msg) (proj1 Hi)) as (t2 & r & Hg & Hx & _). rewrite Hg in Hb1.
    destruct r as [o'|e]; [|done]. injection Hb1 as <- <-.
    destruct o'; injection Hb2 as <- <-; by apply read_grows.
  - intros [= <- <-]. split; [by apply grows_refl|done].
Qed.

(** Without knowing anything of the tree. *)
Lemma lift_fr {A} (m : TM U A) t t' a : tpr m → lift m t = (t', Ok a) → fr t t'.
Proof. intros Hm. specialize (Hm t). unfold lift. destruct (m t) as [t1 [b|e]]; [|done]. by intros [= <- <-]. Qed.
Lemma tpr_mutate a (f : ActorState U → option (ActorState U)) : tpr (mutate_actor a f).
Proof.
  apply tpr_bind; [apply tpr_get|]. intros [s|]; [|apply tpr_err]. destruct (f s); [apply tpr_set|apply tpr_err].
Qed.
Lemma should_burn_fr epoch msg c t t' b : should_burn epoch msg c t = (t', Ok b) → fr t t'.
Proof.
  unfold should_burn. case_if; [|intros [= <- <-]; apply fr_refl].
  intros (t1 & o & Hb1 & Hb2)%vm_bind_ok. apply lift_fr in Hb1; [|apply tpr_get].
  by destruct o; injection Hb2 as <- <-.
Qed.
Lemma transfer_to_fr a x t t' : transfer_to_actor a x t = (t', Ok tt) → 0 ≤ x ∧ fr t t'.
Proof.
  unfold transfer_to_actor. destruct (Z.ltb_spec x 0); [done|].
  destruct (Z.eqb_spec x 0) as [->|]; [intros [= <-]; split; [done|apply fr_refl]|].
  intros Hm. split; [done|]. eapply lift_fr; [|exact Hm]. apply tpr_mutate.
Qed.
Lemma settle_gas_bill base_fee msg cost used burn t t' out :
  settle_gas base_fee msg cost used burn t = (t', Ok out) →
  fr t t' ∧
  compute_gas_outputs used (cm_gas_limit msg) base_fee (cm_gas_fee_cap msg) (cm_gas_premium msg) burn = Some out ∧
  base_fee_burn out + over_estimation_burn out + refund out + miner_tip out = cost ∧
  0 ≤ base_fee_burn out ∧ 0 ≤ over_estimation_burn out ∧ 0 ≤ refund out ∧ 0 ≤ miner_tip out.
Proof.
  unfold settle_gas. destruct (compute_gas_outputs _ _ _ _ _ _) as [o|]; [|done].
  intros (t1 & [] & H1 & (t2 & [] & H2 & (t3 & [] & H3 & (t4 & [] & H4 & H)%vm_bind_ok)%vm_bind_ok)%vm_bind_ok)%vm_bind_ok.
  destruct (Z.eqb_spec (base_fee_burn o + over_estimation_burn o + refund o + miner_tip o) cost) as [Hc|]; [|done].
  injection H as <- <-. apply transfer_to_fr in H1 as [??], H2 as [??], H3 as [??], H4 as [??].
  split_and!; try done. eauto using fr_trans.
Qed.

(** The receipt of a message that was run: gas within the limit, and the bill. *)
Definition billed (base_fee : Z) (msg : ChainMessage) (ret : ApplyRet) (out : GasOutputs) : Prop :=
  0 ≤ r_gas_used (msg_receipt ret) ≤ cm_gas_limit msg ∧
  (∃ burn, compute_gas_outputs (r_gas_used (msg_receipt ret)) (cm_gas_limit msg) base_fee
     (cm_gas_fee_cap msg) (cm_gas_premium msg) burn = Some out) ∧
  base_fee_burn out + over_estimation_burn out + refund out + miner_tip out = cm_gas_fee_cap msg * cm_gas_limit msg ∧
  0 ≤ base_fee_burn out ∧ 0 ≤ over_estimation_burn out ∧ 0 ≤ refund out ∧ 0 ≤ miner_tip out ∧
  penalty ret = miner_penalty out ∧ ret_miner_tip ret = miner_tip out.

Lemma send_clo_spec epoch base_fee msg c t t' ret :
  supply_inv t → 0 < cm_gas_limit msg →
  send_clo epoch base_fee msg c (cm_gas_fee_cap msg * cm_gas_limit msg) t = (t', Ok ret) →
  ∃ out, billed base_fee msg ret out ∧ fr (snapped t) t' ∧
    (r_exit_code (msg_receipt ret) ≠ EOk → supply_inv t' ∧
      supply t' = supply t + cm_gas_fee_cap msg * cm_gas_limit msg ∧
      ∀ id, resolves t (cm_from msg) id → view t' = pay_gas id out (view t)) ∧
    (no_deletes → supply_inv t' ∧ supply t' ≤ supply t + cm_gas_fee_cap msg * cm_gas_limit msg).
Proof.
  intros Hi Hlim. destruct (snapped_inv t Hi) as (His & Hvs & Hrs).
  unfold send_clo. replace (lift snapshot t) with (snapped t, Ok (E:=VmError) tt) by done.
  destruct (vm_send epoch base_fee msg (Some c) (snapped t)) as [t1 [[ret_data rt] ae]] eqn:Hsend.
  destruct (vm_send_frame _ _ _ _ _ _ _ _ _ Hsend) as [Hf Hgas].
  set (broken := match ae with Some e => _ | None => _ end). destruct broken; [done|].
  destruct rt as [g|]; [|done]. destruct (Hgas g eq_refl) as [Ha Hu].
  destruct (charge_return g ret_data ae) as [[g' ret'] ae'] eqn:Hret.
  apply charge_return_spec in Hret as [Hu' _].
  set (used := if gas_used g' <? 0 then 0 else gas_used g').
  assert (Hused : 0 ≤ used ≤ cm_gas_limit msg) by (unfold used; rewrite Ha in *; case_if; lia).
  intros (t2 & [] & Hrev & (t3 & burn & Hburn & (t4 & out & Hset & Hret)%vm_bind_ok)%vm_bind_ok)%vm_bind_ok.
  injection Hret as <- <-. cbn [msg_receipt r_exit_code].
  assert (Hcase : (∃ e, ae' = Some e ∧ error_is_ok e = false ∧ t2 = snapped t) ∨
    (match ae' with Some e => exit_code e | None => EOk end = EOk ∧ t2 = t1)).
  { destruct ae' as [e|]; [|right; by injection Hrev as <-]. destruct (error_is_ok e) eqn:He.
    - right. injection Hrev as <-. split; [|done]. unfold error_is_ok in He. destruct (exit_code e); done.
    - left. exists e. rewrite (revert_snapped _ _ Hf) in Hrev. by injection Hrev as <-. }
  destruct (settle_gas_bill _ _ _ _ _ _ _ _ Hset) as (Hf4 & Hout & Hsum & ? & ? & ? & ?).
  assert (Hf2 : fr (snapped t) t2) by (destruct Hcase as [(? & _ & _ & ->)|[_ ->]]; [apply fr_refl|done]).
  assert (Hpay : supply_inv t2 → supply_inv t4 ∧
    supply t4 = supply t2 + cm_gas_fee_cap msg * cm_gas_limit msg ∧
    ∀ id, resolves t2 (cm_from msg) id → view t4 = pay_gas id out (view t2)).
  { intros Hi2. destruct (should_burn_spec _ _ _ _ _ _ Hi2 Hburn) as [Hg3 Hv3].
    apply settle_gas_spec in Hset as (_ & _ & Hv4 & Hs4 & Hg4); [|apply Hg3]. unfold supply in *. rewrite <-Hv3.
    split_and!; [apply Hg4|done|]. intros id Hr. by apply Hv4, Hg3. }
  exists out. split_and!.
  - split_and!; cbn; try done; try lia. by exists burn.
  - eapply fr_trans; [exact Hf2|]. eapply fr_trans; [by eapply should_burn_fr|done].
  - intros Hne. destruct Hcase as [(e & _ & _ & ->)|[He _]]; [|done].
    destruct (Hpay His) as (Hi4 & Hs4 & Hv4). unfold supply in *. rewrite <-Hvs. split_and!; [done|done|auto].
  - intros Hd. assert (Hst2 : supply_inv t2 ∧ supply t2 ≤ supply t).
    { unfold supply at 2. rewrite <-Hvs. destruct Hcase as [(e & _ & _ & ->)|[_ ->]]; [split; [done|unfold supply; lia]|].
      by eapply vm_send_supply. }
    destruct Hst2 as [Hi2 Hs2]. destruct (Hpay Hi2) as (Hi4 & Hs4 & _). split; [done|lia].
Qed.

(** The sender, before and after being charged in advance. *)
Definition charged (s : ActorState U) (cost : Z) : ActorState U :=
  {| code := code s; state := state s; sequence := sequence s + 1; balance := balance s - cost |}.

Lemma charge_sender_spec t a cost t1 :
  supply_inv t → lift (mutate_actor a (λ act, incr_sequence <$> deduct_funds act cost)) t = (t1, Ok tt) →
  ∃ id s, resolves t1 a id ∧ view t !! id = Some s ∧ cost ≤ balance s ∧
    view t1 = <[id := charged s cost]> (view t) ∧ supply t1 = supply t - cost ∧ grows t t1.
Proof.
  intros Hi Hm. unfold lift in Hm. destruct (mutate_actor _ _ t) as [t1' [[]|e]] eqn:E; [|done]. injection Hm as <-.
  assert (Hd : ∀ s s' : ActorState U, incr_sequence <$> deduct_funds s cost = Some s' → cost ≤ balance s ∧ s' = charged s cost).
  { intros s s'. unfold deduct_funds. destruct (Z.ltb_spec (balance s) cost); [done|]. by intros [= <-]. }
  apply mutate_spec in E as (id & s & s' & Hr & Hs & [Hc ->]%Hd & Hv & Hg); [|done|].
  2:{ intros s s' Hb [Hc ->]%Hd. cbn. lia. }
  exists id, s. split_and!; try done. unfold supply. rewrite Hv, map_sum_insert, Hs. cbn. lia.
Qed.

Lemma then_clear_spec t c t' ret :
  layers t ≠ [] → (∀ t1 r, c t = (t1, Ok r) → fr (snapped t) t1) → then_clear c t = (t', Ok ret) →
  ∃ t1, c t = (t1, Ok ret) ∧ view t' = view t1 ∧ fr t t' ∧ (supply_inv t1 → supply_inv t').
Proof.
  intros Hne Hf. unfold then_clear. destruct (c t) as [t1 [r|e]] eqn:Em.
  - destruct (clear_snapped t t1) as (t2 & Hcl & Hv & Hfr & Hinv); [done|by eapply Hf|].
    rewrite Hcl. intros [= <- <-]. by exists t1.
  - by destruct (lift clear_snapshot t1) as [t2 [?|?]].
Qed.

(** The receipt of a message that is not run. *)
Definition rejection (msg_size : ChainMessage → Z) (epoch base_fee : Z) (msg : ChainMessage) (ret : ApplyRet) : Prop :=
  ret = rejected SysErrOutOfGas
          (base_fee * charge_total (on_chain_message (price_list_by_epoch epoch) (msg_size msg))) ∨
  ret = rejected SysErrSenderInvalid (base_fee * cm_gas_limit msg) ∨
  ret = rejected SysErrSenderStateInvalid (base_fee * cm_gas_limit msg).

Lemma apply_message_cases msg_size epoch base_fee msg t t' ret :
  layers t ≠ [] → apply_message msg_size epoch base_fee msg t = (t', Ok ret) →
  let cost := cm_gas_fee_cap msg * cm_gas_limit msg in
  0 < cm_gas_limit msg ∧ ∃ t1, read_ext t t1 ∧
    ((t' = t1 ∧ rejection msg_size epoch base_fee msg ret) ∨
     ∃ id s, resolves t1 (cm_from msg) id ∧ cur t1 id = Some s ∧ is_account_actor (code s) = true ∧
       sequence s = cm_sequence msg ∧
       (_ ← lift (mutate_actor (cm_from msg) (λ act, incr_sequence <$> deduct_funds act cost));
        then_clear (send_clo epoch base_fee msg
          (on_chain_message (price_list_by_epoch epoch) (msg_size msg)) cost)) t1 = (t', Ok ret)).
Proof.
  intros Hne (t0 & [] & Hchk & H)%vm_bind_ok cost.
  assert (t0 = t ∧ 0 < cm_gas_limit msg) as [-> Hlim].
  { unfold vm_check, check_message in Hchk. injection Hchk as <- Hc. split; [done|].
    destruct (Z.eqb_spec (cm_gas_limit msg) 0); [done|]. destruct (Z.ltb_spec (cm_gas_limit msg) 0); [done|lia]. }
  split; [done|]. cbv zeta in H. match type of H with (if ?b then _ else _) _ = _ => destruct b end.
  { injection H as <- <-. exists t. split; [by apply read_ext_refl|]. left. split; [done|by left]. }
  apply vm_bind_ok in H as (t1 & sender & Hload & H). unfold load_sender in Hload.
  destruct (tree_get_spec t (cm_from msg) Hne) as (t1' & r & Hg & Hx & Hr). rewrite Hg in Hload.
  assert (t1 = t1') as -> by (destruct r; by injection Hload). exists t1'. split; [done|].
  destruct sender as [s|]; [|injection H as <- <-; left; split; [done|by right; left]].
  destruct r as [[s'|]|e]; try discriminate Hload. injection Hload as ->.
  destruct (Hr s eq_refl) as (id & Hres & Hcur). fold cost in H.
  destruct (is_account_actor (code s)) eqn:Hacc; cbn [negb] in H.
  2:{ injection H as <- <-. left. split; [done|by right; left]. }
  destruct (Z.eqb_spec (cm_sequence msg) (sequence s)) as [Hseq|]; cbn [negb] in H.
  2:{ injection H as <- <-. left. split; [done|by right; right]. }
  destruct (balance s <? cost); [injection H as <- <-; left; split; [done|by right; right]|].
  right. by exists id, s.
Qed.

End facts.

(** ** Theorems *)


(** A call of a method that no account has. *)
Definition ex_chain_msg : ChainMessage :=
  {| cm_from := id_addr 100; cm_to := id_addr 101; cm_sequence := 0; cm_value := 5; cm_method := 9; cm_params := [];
     cm_gas_limit := 2000000; cm_gas_fee_cap := 120; cm_gas_premium := 15 |}.

Lemma ex_supply_inv : supply_inv (tree ex_world).
Proof.
  split_and!; [done| | |split].
  - intros x ->%list_elem_of_singleton a. cbn. by rewrite lookup_empty.
  - intros x ->%list_elem_of_singleton a r. cbn. by rewrite lookup_empty.
  - intros a s Hs. by destruct (ex_hamt_ok a s Hs).
  - intros x ->%list_elem_of_singleton a s. cbn. by rewrite lookup_empty.
Qed.


(** ** The messages of a tipset *)

Section tipset.
Context {U : Type} `{!EqDecision U, !StateIn InitState U, !StateIn AccountState U, !Machine U}.
Context (msg_size : ChainMessage → Z) {Cid : Type} `{!EqDecision Cid} (msg_cid : ChainMessage → Cid)
  (award_params : Address → Z → Z → Z → bytes) (run_migration : StateTree U → option (StateTree U)).
Implicit Types t : StateTree U.

(** The messages that have not been seen, each at its first occurrence. *)
Fixpoint firsts (seen : list Cid) (l : list ChainMessage) : list ChainMessage :=
  match l with
  | [] => []
  | m :: l => if bool_decide (msg_cid m ∈ seen) then firsts seen l else m :: firsts (msg_cid m :: seen) l
  end.
Definition seen_after (seen : list Cid) (l : list ChainMessage) : list Cid :=
  rev (map msg_cid (firsts seen l)) ++ seen.

Lemma firsts_app seen l l' : firsts seen (l ++ l') = firsts seen l ++ firsts (seen_after seen l) l'.
Proof.
  unfold seen_after. revert seen. induction l as [|m l IH]; intros seen; [done|]. cbn. case_bool_decide; [apply IH|].
  cbn. rewrite IH, <-(assoc_L (++)). done.
Qed.

Lemma firsts_seen seen l c : c ∈ seen → c ∉ map msg_cid (firsts seen l).
Proof.
  revert seen. induction l as [|m l IH]; intros seen Hc; cbn; [apply not_elem_of_nil|].
  case_bool_decide; [by apply IH|]. cbn. apply not_elem_of_cons. split; [congruence|]. apply IH. by right.
Qed.
Lemma firsts_nodup seen l : NoDup (map msg_cid (firsts seen l)).
Proof.
  revert seen. induction l as [|m l IH]; intros seen; cbn; [constructor|]. case_bool_decide; [apply IH|].
  cbn. constructor; [|apply IH]. apply firsts_seen. by left.
Qed.
Lemma firsts_all_seen seen l m : m ∈ l → msg_cid m ∈ seen ∨ msg_cid m ∈ map msg_cid (firsts seen l).
Proof.
  revert seen. induction l as [|x l IH]; intros seen Hm; [by apply not_elem_of_nil in Hm|]. cbn.
  case_bool_decide as Hx; apply elem_of_cons in Hm as [->|Hm]; [by left|by apply IH|right; by left|].
  cbn. destruct (IH (msg_cid x :: seen) Hm) as [[->|?]%elem_of_cons|?]; [right; by left|by left|right; by right].
Qed.
Lemma firsts_all l m : m ∈ l → msg_cid m ∈ map msg_cid (firsts [] l).
Proof. intros Hm. destruct (firsts_all_seen [] l m Hm) as [H|]; [by apply not_elem_of_nil in H|done]. Qed.

(** Every message was applied, in this order, with this result. *)
Definition applied epoch base_fee (l : list ChainMessage) (rets : list ApplyRet) : Prop :=
  Forall2 (λ m ret, ∃ t1 t2, apply_message (U:=U) msg_size epoch base_fee m t1 = (t2, Ok ret)) l rets.

Lemma process_msgs_spec epoch base_fee l seen receipts g p t t' seen' receipts' g' p' :
  process_msgs msg_size msg_cid epoch base_fee l seen receipts g p t = (t', Ok (seen', receipts', g', p')) →
  ∃ rets, applied epoch base_fee (firsts seen l) rets ∧ seen' = seen_after seen l ∧
    receipts' = receipts ++ map msg_receipt rets ∧
    g' = g + zsum (map ret_miner_tip rets) ∧ p' = p + zsum (map penalty rets).
Proof.
  unfold seen_after. revert seen receipts g p t. induction l as [|m l IH]; intros seen receipts g p t; cbn [process_msgs firsts].
  { intros [= <- <- <- <- <-]. exists []. split_and!; [constructor|done|by rewrite app_nil_r|cbn; lia..]. }
  case_bool_decide; [apply IH|]. intros (t1 & ret & Ha & Hp)%vm_bind_ok.
  apply IH in Hp as (rets & Hall & -> & -> & -> & ->). exists (ret :: rets). split_and!.
  - constructor; eauto.
  - cbn. by rewrite <-(assoc_L (++)).
  - cbn. by rewrite <-(assoc_L (++)).
  - unfold zsum. cbn. lia.
  - unfold zsum. cbn. lia.
Qed.

Lemma process_blocks_spec vm_epoch base_fee epoch blocks seen receipts t t' seen' receipts' :
  process_blocks msg_size msg_cid award_params vm_epoch base_fee epoch blocks seen receipts t
    = (t', Ok (seen', receipts')) →
  ∃ rets, applied vm_epoch base_fee (firsts seen (concat (map bm_messages blocks))) rets ∧
    receipts' = receipts ++ map msg_receipt rets.
Proof.
  revert seen receipts t. induction blocks as [|b blocks IH]; intros seen receipts t; cbn [process_blocks].
  { intros [= <- <- <-]. exists []. split; [constructor|by rewrite app_nil_r]. }
  intros (t1 & [[[seen1 rec1] g] p] & Hm & (t2 & ret & _ & H)%vm_bind_ok)%vm_bind_ok.
  apply process_msgs_spec in Hm as (rets & Hall & -> & -> & _). case_match; [|done].
  apply IH in H as (rets' & Hall' & ->). exists (rets ++ rets'). split.
  - cbn. rewrite firsts_app. by apply Forall2_app.
  - by rewrite map_app, (assoc_L (++)).
Qed.

Lemma null_rounds_spec n vm_epoch base_fee parent i t t' e :
  null_rounds run_migration n vm_epoch base_fee parent i t = (t', Ok e) →
  e = match n with O => vm_epoch | _ => i + Z.of_nat n end.
Proof.
  revert vm_epoch i t. induction n as [|n IH]; intros vm_epoch i t; cbn [null_rounds].
  { by intros [= _ <-]. }
  intros (t1 & [] & _ & (t2 & [] & _ & H)%vm_bind_ok)%vm_bind_ok. apply IH in H. destruct n; lia.
Qed.

End tipset.


(** A tipset of two blocks with the same message. *)
Definition ex_blocks : list BlockMessages :=
  [{| bm_miner := id_addr 120; bm_messages := [ex_chain_msg]; win_count := 1 |};
   {| bm_miner := id_addr 121; bm_messages := [ex_chain_msg]; win_count := 1 |}].

