(* ===== verification/Sorting.v ===== *)
(** * Orders and sorting

    Comparison functions with the laws of Rust's [Ord], the derived orders of
    tuples, options and byte strings, and the stable sort of a list by a key. *)

From S2P Require Import Prelude.
From stdpp Require Import sorting.

(** ** Orders *)

(** What [Ord] promises. *)
Class Ordered (A : Type) := cmp : A → A → comparison.
Class OrderOk (A : Type) `{!Ordered A} : Prop := {
  cmp_eq (a b : A) : cmp a b = Eq ↔ a = b;
  cmp_sym (a b : A) : cmp a b = CompOpp (cmp b a);
  cmp_lt_trans (a b c : A) : cmp a b = Lt → cmp b c = Lt → cmp a c = Lt }.

#[global] Instance Z_ordered : Ordered Z := Z.compare.
#[global] Instance Z_order_ok : OrderOk Z.
Proof.
  split; unfold cmp, Z_ordered.
  - intros. apply Z.compare_eq_iff.
  - intros. apply Z.compare_antisym.
  - intros a b c. rewrite !Z.compare_lt_iff. lia.
Qed.

#[global] Instance option_ordered {A} `{!Ordered A} : Ordered (option A) := λ a b,
  match a, b with None, None => Eq | None, Some _ => Lt | Some _, None => Gt | Some a, Some b => cmp a b end.
#[global] Instance prod_ordered {A B} `{!Ordered A, !Ordered B} : Ordered (A * B) := λ p q,
  match cmp p.1 q.1 with Eq => cmp p.2 q.2 | c => c end.
Fixpoint list_cmp {A} `{!Ordered A} (l k : list A) : comparison :=
  match l, k with
  | [], [] => Eq
  | [], _ => Lt
  | _, [] => Gt
  | a :: l, b :: k => match cmp a b with Eq => list_cmp l k | c => c end
  end.
#[global] Instance list_ordered {A} `{!Ordered A} : Ordered (list A) := list_cmp.

Section laws.
Context {A : Type} `{!Ordered A, !OrderOk A}.

Lemma cmp_refl (a : A) : cmp a a = Eq.
Proof. by apply cmp_eq. Qed.
Lemma cmp_gt (a b : A) : cmp a b = Gt ↔ cmp b a = Lt.
Proof. rewrite cmp_sym. by destruct (cmp b a). Qed.

#[global] Instance option_order_ok : OrderOk (option A).
Proof.
  split.
  - intros [a|] [b|]; cbn; try done. rewrite cmp_eq. naive_solver.
  - intros [a|] [b|]; cbn; try done. apply cmp_sym.
  - intros [a|] [b|] [c|]; cbn; try done. apply cmp_lt_trans.
Qed.

Context {B : Type} `{!Ordered B, !OrderOk B}.
Lemma cmp_pair (a a' : A) (b b' : B) : cmp (a, b) (a', b') = match cmp a a' with Eq => cmp b b' | c => c end.
Proof. done. Qed.
#[global] Instance prod_order_ok : OrderOk (A * B).
Proof.
  split.
  - intros [a b] [a' b']. rewrite cmp_pair. destruct (cmp a a') eqn:E; [apply cmp_eq in E; subst; rewrite cmp_eq; naive_solver|..].
    all: split; [done|]; intros [= <- <-]; by rewrite cmp_refl in E.
  - intros [a b] [a' b']. rewrite !cmp_pair, (cmp_sym a a'). destruct (cmp a' a); cbn; [apply cmp_sym|done..].
  - intros [a b] [a' b'] [a'' b'']. rewrite !cmp_pair. destruct (cmp a a') eqn:E1; try done.
    + apply cmp_eq in E1. subst a'. destruct (cmp a a''); try done. apply cmp_lt_trans.
    + destruct (cmp a' a'') eqn:E2; try done; [apply cmp_eq in E2; subst a''; by rewrite E1|]. by rewrite (cmp_lt_trans a a' a'').
Qed.
End laws.

#[global] Instance list_order_ok {A} `{!Ordered A, !OrderOk A} : OrderOk (list A).
Proof.
  split; unfold cmp at 1, list_ordered.
  - intros l. induction l as [|a l IH]; intros [|b k]; cbn; try done. destruct (cmp a b) eqn:E.
    + apply cmp_eq in E. subst b. specialize (IH k). rewrite IH. naive_solver.
    + split; [done|]. intros [= <- <-]. by rewrite cmp_refl in E.
    + split; [done|]. intros [= <- <-]. by rewrite cmp_refl in E.
  - intros l. induction l as [|a l IH]; intros [|b k]; cbn; try done. rewrite (cmp_sym a b). destruct (cmp b a); cbn; [apply IH|done..].
  - intros l. induction l as [|a l IH]; intros [|b k] [|c m]; cbn; try done. destruct (cmp a b) eqn:E1; try done.
    + apply cmp_eq in E1. subst b. destruct (cmp a c); try done. apply IH.
    + destruct (cmp b c) eqn:E2; try done; [apply cmp_eq in E2; subst c; by rewrite E1|]. by rewrite (cmp_lt_trans a b c).
Qed.

(** ** Sorting by a key *)

Section sort.
Context {A K : Type} `{!Ordered K} (key : A → K).

Fixpoint sort_insert (x : A) (l : list A) : list A :=
  match l with
  | [] => [x]
  | y :: l' => match cmp (key x) (key y) with Gt => y :: sort_insert x l' | _ => x :: l end
  end.
(** [slice::sort_by_key]: elements with equal keys keep their order. *)
Definition sort_by_key (l : list A) : list A := foldr sort_insert [] l.

Definition key_le (x y : A) : Prop := cmp (key x) (key y) ≠ Gt.
Definition sorted_by (l : list A) : Prop := StronglySorted key_le l.

Lemma sort_insert_perm x l : sort_insert x l ≡ₚ x :: l.
Proof. induction l as [|y l IH]; cbn; [done|]. destruct (cmp _ _); [done..|]. rewrite IH. constructor. Qed.
Lemma sort_by_key_perm' l : sort_by_key l ≡ₚ l.
Proof. induction l as [|x l IH]; cbn; [done|]. rewrite sort_insert_perm. by f_equiv. Qed.
Lemma elem_of_sort x l : x ∈ sort_by_key l ↔ x ∈ l.
Proof. by rewrite sort_by_key_perm'. Qed.
Lemma sort_by_key_length l : length (sort_by_key l) = length l.
Proof. by rewrite sort_by_key_perm'. Qed.

Context `{!OrderOk K}.

Lemma key_le_trans x y z : key_le x y → key_le y z → key_le x z.
Proof.
  unfold key_le. destruct (cmp (key x) (key y)) eqn:E1, (cmp (key y) (key z)) eqn:E2; intros ?? Hgt; try done.
  - apply cmp_eq in E1. rewrite E1 in Hgt. congruence.
  - apply cmp_eq in E1. rewrite E1 in Hgt. congruence.
  - apply cmp_eq in E2. rewrite E2 in E1. congruence.
  - by rewrite (cmp_lt_trans _ _ _ E1 E2) in Hgt.
Qed.
Lemma key_le_total x y : key_le x y ∨ key_le y x.
Proof. unfold key_le. destruct (cmp (key x) (key y)) eqn:E; [by left..|right]. apply cmp_gt in E. congruence. Qed.

Lemma sort_insert_sorted x l : sorted_by l → sorted_by (sort_insert x l).
Proof.
  induction 1 as [|y l Hl IH Hy]; cbn; [repeat constructor|]. destruct (cmp (key x) (key y)) eqn:E.
  1,2: constructor; [by constructor|]; assert (key_le x y) by (unfold key_le; congruence); constructor; [done|]; eapply Forall_impl; [exact Hy|]; intros z; by apply key_le_trans.
  constructor; [exact IH|]. rewrite Forall_forall in *. intros z. rewrite sort_insert_perm. intros [->|Hz]%elem_of_cons; [|by apply Hy].
  unfold key_le. apply cmp_gt in E. congruence.
Qed.
Lemma sort_by_key_sorted' l : sorted_by (sort_by_key l).
Proof. induction l as [|x l IH]; cbn; [constructor|]. by apply sort_insert_sorted. Qed.

(** With distinct keys the sorted list depends only on the elements. *)
Lemma sorted_perm_eq l l' : sorted_by l → sorted_by l' → NoDup (key <$> l) → l ≡ₚ l' → l = l'.
Proof.
  intros Hs. revert l'. induction Hs as [|x l Hl IH Hx]; intros l' Hs' Hnd Hp; [by apply Permutation_nil_l in Hp|].
  destruct l' as [|y l']; [by apply Permutation_nil_r in Hp|]. apply StronglySorted_inv in Hs' as [Hs' Hy]. cbn in Hnd. apply NoDup_cons in Hnd as [Hnx Hnd].
  assert (x = y) as ->.
  { rewrite Forall_forall in Hx, Hy. assert (Hxy : y ∈ x :: l) by (rewrite Hp; left). assert (Hyx : x ∈ y :: l') by (rewrite <-Hp; left).
    apply elem_of_cons in Hxy as [->|Hxy]; [done|]. apply elem_of_cons in Hyx as [->|Hyx]; [done|]. exfalso. apply Hnx, list_elem_of_fmap. exists y. split; [|done].
    specialize (Hx _ Hxy). specialize (Hy _ Hyx). unfold key_le in Hx, Hy. destruct (cmp (key x) (key y)) eqn:E; [by apply cmp_eq in E| |done]. by apply cmp_gt in E. }
  f_equal. apply IH; [done..|]. by apply Permutation_cons_inv in Hp.
Qed.
Lemma sort_by_key_proper l l' : NoDup (key <$> l) → l ≡ₚ l' → sort_by_key l = sort_by_key l'.
Proof.
  intros Hnd Hp. apply sorted_perm_eq; [apply sort_by_key_sorted'..| |by rewrite !sort_by_key_perm']. by rewrite sort_by_key_perm'.
Qed.
End sort.
