(* ===== verification/Messages.v ===== *)
(** * Messages

    Unsigned and signed messages ([src/vm/message]) and the checks a message must
    pass before it may go into a block.  Encodings, and so CIDs, and the verification of
    signatures come from outside: [MessageCodec]. *)

From S2P Require Import Prelude Address Types.

(** A CID is represented by its bytes. *)
Notation Cid := (list Z) (only parsing).

Inductive SignatureType := SigSecp256k1 | SigBLS.
Record Signature := { sig_type : SignatureType; sig_bytes : bytes }.

Record UnsignedMessage := {
  version : Z; from : Address; to : Address; sequence : Z; value : Z; method_num : Z; params : bytes;
  gas_limit : Z; gas_fee_cap : Z; gas_premium : Z }.
Record SignedMessage := { message : UnsignedMessage; signature : Signature }.
Inductive ChainMessage := Unsigned (m : UnsignedMessage) | Signed (m : SignedMessage).

#[global] Instance signature_type_eq_dec : EqDecision SignatureType.
Proof. solve_decision. Defined.
#[global] Instance signature_eq_dec : EqDecision Signature.
Proof. solve_decision. Defined.
#[global] Instance unsigned_message_eq_dec : EqDecision UnsignedMessage.
Proof. solve_decision. Defined.
#[global] Instance signed_message_eq_dec : EqDecision SignedMessage.
Proof. solve_decision. Defined.

Definition required_funds (m : UnsignedMessage) : Z := gas_fee_cap m * gas_limit m + value m.
Definition is_bls (m : SignedMessage) : bool := bool_decide (sig_type (signature m) = SigBLS).

(** The message inside a chain message. *)
Definition chain_msg (m : ChainMessage) : UnsignedMessage := match m with Unsigned m => m | Signed m => message m end.

(** CBOR of messages, and of signed messages, which for a BLS signature is that of the
    message alone; CIDs; and the verification of a signature of a byte string. *)
Class MessageCodec := {
  msg_cbor : UnsignedMessage → bytes; signed_cbor : SignedMessage → bytes; cid_of : bytes → Cid;
  sig_verify : Signature → bytes → Address → bool }.

Section codec.
Context `{!MessageCodec}.
Definition marshal_cbor (m : SignedMessage) : bytes := if is_bls m then msg_cbor (message m) else signed_cbor m.
Definition msg_cid (m : UnsignedMessage) : Cid := cid_of (msg_cbor m).
Definition signed_cid (m : SignedMessage) : Cid := cid_of (marshal_cbor m).
Definition to_signing_bytes (m : UnsignedMessage) : bytes := msg_cid m.
Definition new_from_parts (m : UnsignedMessage) (s : Signature) : option SignedMessage :=
  if sig_verify s (to_signing_bytes m) (from m) then Some {| message := m; signature := s |} else None.
Definition verify (m : SignedMessage) : bool := sig_verify (signature m) (to_signing_bytes (message m)) (from (message m)).
End codec.

(** ** Inclusion in a block *)

Definition BLOCK_GAS_LIMIT : Z := 10000000000.
Definition TOTAL_FILECOIN : Z := 2000000000 * 10 ^ 18.
Definition ZERO_ADDRESS : Address := {| network := Mainnet; payload := BLS (repeat 0 48) |}.

Inductive InclusionError :=
| BadVersion | BadTo | NegativeValue | ValueTooHigh | NegativeFeeCap | NegativePremium | PremiumAboveCap | GasAboveBlock | GasBelowCost.

Definition valid_for_block_inclusion (m : UnsignedMessage) (min_gas network_version : Z) : result InclusionError unit :=
  _ ← throw_if (negb (version m =? 0)) BadVersion;
  _ ← throw_if (bool_decide (to m = ZERO_ADDRESS) && (7 <=? network_version)) BadTo;
  _ ← throw_if (value m <? 0) NegativeValue;
  _ ← throw_if (TOTAL_FILECOIN <? value m) ValueTooHigh;
  _ ← throw_if (gas_fee_cap m <? 0) NegativeFeeCap;
  _ ← throw_if (gas_premium m <? 0) NegativePremium;
  _ ← throw_if (gas_fee_cap m <? gas_premium m) PremiumAboveCap;
  _ ← throw_if (BLOCK_GAS_LIMIT <? gas_limit m) GasAboveBlock;
  throw_if (gas_limit m <? min_gas) GasBelowCost.

Lemma valid_for_block_inclusion_Ok m g v :
  valid_for_block_inclusion m g v = Ok tt →
  0 ≤ value m ≤ TOTAL_FILECOIN ∧ 0 ≤ gas_premium m ≤ gas_fee_cap m ∧ g ≤ gas_limit m ≤ BLOCK_GAS_LIMIT.
Proof. unfold valid_for_block_inclusion. intros H. inv_ok. reflect_bools. lia. Qed.
