(* ===== verification/Blocks.v ===== *)
(** * Blocks and tipsets

    Headers, tickets and election proofs, tipsets and the randomness beacon
    ([src/blockchain/blocks], [src/blockchain/beacon]).  The hash functions and the encoding
    of headers come from outside: [HeaderCodec]. *)

From S2P Require Import Prelude Address Types Messages Sorting.

(** ** Headers *)

Record Ticket := { vrfproof : bytes }.
Record ElectionProof := { win_count : Z; ep_vrfproof : bytes }.
Record BeaconEntry := { round : Z; data : bytes }.
Notation TipsetKeys := (list (list Z)) (only parsing).

Record BlockHeader := {
  parents : TipsetKeys; weight : Z; epoch : Z; beacon_entries : list BeaconEntry; winning_post_proof : list PoStProof;
  miner_address : Address; messages : Cid; message_receipts : Cid; state_root : Cid; fork_signal : Z;
  bh_signature : option Signature; election_proof : option ElectionProof; timestamp : Z; ticket : option Ticket;
  bls_aggregate : option Signature; parent_base_fee : Z }.
Record Block := { header : BlockHeader; bls_messages : list UnsignedMessage; secp_messages : list SignedMessage }.

#[global] Instance ticket_eq_dec : EqDecision Ticket.
Proof. solve_decision. Defined.
#[global] Instance election_proof_eq_dec : EqDecision ElectionProof.
Proof. solve_decision. Defined.
#[global] Instance beacon_entry_eq_dec : EqDecision BeaconEntry.
Proof. solve_decision. Defined.
#[global] Instance block_header_eq_dec : EqDecision BlockHeader.
Proof. solve_decision. Defined.

(** The CID of a header and the hash functions. *)
Class HeaderCodec := {
  header_cid : BlockHeader → Cid; blake2b_256 : bytes → bytes; sha256 : bytes → bytes }.
Section headers.
Context `{!HeaderCodec}.

Definition to_sort_key (h : BlockHeader) : option (bytes * bytes) :=
  t ← ticket h; Some (blake2b_256 (vrfproof t), header_cid h).

(** ** Tickets and elections *)

Definition BLOCKS_PER_EPOCH : Z := 5.
Definition SHA_256_BITS : Z := 256.
Fixpoint unsigned_be (bz : bytes) : Z :=
  match bz with [] => 0 | b :: bz' => b * 256 ^ Z.of_nat (length bz') + unsigned_be bz' end.
(** [BigInt::from_signed_bytes_be]: two's complement. *)
Definition signed_be (bz : bytes) : Z :=
  match bz with
  | [] => 0
  | b :: _ => if 128 <=? b then unsigned_be bz - 256 ^ Z.of_nat (length bz) else unsigned_be bz
  end.
Definition is_ticket_winner (t : Ticket) (mpow net_pow : Z) : bool :=
  let lhs := signed_be (sha256 (vrfproof t)) * net_pow in
  let rhs := Z.shiftl mpow SHA_256_BITS * BLOCKS_PER_EPOCH in
  lhs <? rhs.

Definition PRECISION : Z := 256.
Definition MAX_WIN_COUNT : Z := 3 * BLOCKS_PER_EPOCH.
Definition parse (l : list Z) : list Z := (λ i, Z.shiftl i (PRECISION - 128)) <$> l.
Definition EXP_NUM_COEF : list Z := parse [
  -648770010757830093818553637600; 67469480939593786226847644286976; -3197587544499098424029388939001856;
  89244641121992890118377641805348864; -1579656163641440567800982336819953664; 17685496037279256458459817590917169152;
  -115682590513835356866803355398940131328; 340282366920938463463374607431768211456].
Definition EXP_DENO_COEF : list Z := parse [
  1225524182432722209606361; 114095592300906098243859450; 5665570424063336070530214243; 194450132448609991765137938448;
  5068267641632683791026134915072; 104716890604972796896895427629056; 1748338658439454459487681798864896;
  23704654329841312470660182937960448; 259380097567996910282699886670381056; 2250336698853390384720606936038375424;
  14978272436876548034486263159246028800; 72144088983913131323343765784380833792; 224599776407103106596571252037123047424;
  340282366920938463463374607431768211456].
Definition poly_val (poly : list Z) (x : Z) : Z :=
  match poly with
  | [] => 0
  | c :: poly => fold_left (λ res coeff, Z.shiftr (res * x) PRECISION + coeff) poly c
  end.
Definition expneg (x : Z) : Z := Z.shiftl (poly_val EXP_NUM_COEF x) PRECISION / poly_val EXP_DENO_COEF x.
Definition lambda (power total_power : Z) : Z := Z.shiftl (power * BLOCKS_PER_EPOCH) PRECISION / total_power.

Record Poiss := { lam : Z; pmf : Z; icdf : Z; k : Z }.
Definition poiss_new (l : Z) : Poiss := {| lam := l; pmf := expneg l; icdf := Z.shiftl 1 PRECISION - expneg l; k := 0 |}.
Definition poiss_next (p : Poiss) : Poiss :=
  let k' := k p + 1 in
  let pmf' := Z.shiftr (pmf p / k' * lam p) PRECISION in
  {| lam := lam p; pmf := pmf'; icdf := icdf p - pmf'; k := k' |}.

(** The loop of [compute_win_count]; its bound makes the fuel [MAX_WIN_COUNT] enough. *)
Fixpoint win_loop (fuel : nat) (lhs : Z) (p : Poiss) (j : Z) : Z :=
  match fuel with
  | O => j
  | S fuel => if (lhs <? icdf p) && (j <? MAX_WIN_COUNT) then win_loop fuel lhs (poiss_next p) (j + 1) else j
  end.
Definition compute_win_count (e : ElectionProof) (power total_power : Z) : Z :=
  let lhs := unsigned_be (blake2b_256 (ep_vrfproof e)) in
  win_loop (Z.to_nat MAX_WIN_COUNT) lhs (poiss_new (lambda power total_power)) 0.

(** ** Tipsets *)

Record Tipset := { ts_headers : list BlockHeader }.
Inductive TipsetError := NoBlocks | ParentsDiffer | StateRootsDiffer | EpochsDiffer | SameMiner.

Definition verify_header (first : BlockHeader) (_ : unit) (h : BlockHeader) : result TipsetError unit :=
  _ ← throw_if (negb (bool_decide (parents h = parents first))) ParentsDiffer;
  _ ← throw_if (negb (bool_decide (state_root h = state_root first))) StateRootsDiffer;
  _ ← throw_if (negb (epoch h =? epoch first)) EpochsDiffer;
  throw_if (bool_decide (miner_address h = miner_address first)) SameMiner.
Definition verify_blocks (headers : list BlockHeader) : result TipsetError unit :=
  match headers with
  | [] => Err NoBlocks
  | first :: rest => try_fold (verify_header first) tt rest
  end.

Definition tipset_new (headers : list BlockHeader) : result TipsetError Tipset :=
  _ ← verify_blocks headers;
  mret {| ts_headers := sort_by_key to_sort_key headers |}.
(** [None] is the [unwrap] of an empty list, which [tipset_new] rules out. *)
Definition min_ticket_block (ts : Tipset) : option BlockHeader := head (ts_headers ts).
Definition ts_epoch (ts : Tipset) : Z := default 0 (epoch <$> min_ticket_block ts).
Definition ts_parents (ts : Tipset) : TipsetKeys := default [] (parents <$> min_ticket_block ts).
Definition ts_key (ts : Tipset) : TipsetKeys := header_cid <$> ts_headers ts.
Definition ts_parent_state (ts : Tipset) : Cid := default [] (state_root <$> min_ticket_block ts).
Definition ts_weight (ts : Tipset) : Z := default 0 (weight <$> min_ticket_block ts).
Definition min_timestamp (ts : Tipset) : option Z :=
  match ts_headers ts with [] => None | h :: l => Some (fold_left Z.min (timestamp <$> l) (timestamp h)) end.
(** [Tipset::eq]: headers are compared by their CIDs. *)
Definition tipset_eqb (a b : Tipset) : bool := bool_decide (ts_key a = ts_key b).

Record FullTipset := { ft_blocks : list Block }.
Definition full_tipset_new (blocks : list Block) : result TipsetError FullTipset :=
  _ ← verify_blocks (header <$> blocks);
  mret {| ft_blocks := sort_by_key (to_sort_key ∘ header) blocks |}.
Definition into_tipset (f : FullTipset) : Tipset := {| ts_headers := header <$> ft_blocks f |}.
End headers.

(** ** The randomness beacon *)

(** The [Beacon] trait. *)
Class Beacon (T : Type) := {
  verify_entry : T → BeaconEntry → BeaconEntry → result unit bool;
  entry : T → Z → result unit BeaconEntry;
  max_beacon_round_for_epoch : T → Z → Z }.
Record BeaconPoint (T : Type) := { height : Z; beacon : T }.
Arguments height {T}. Arguments beacon {T}.

Inductive DrandError := NoBeacon | BeaconFailed | TwoEntriesExpected | NoEntryExpected | EntryExpected | WrongRound | InvalidEntry | BeaconLoops.
Definition beacon_err {A} (r : result unit A) : result DrandError A := match r with Ok a => Ok a | Err _ => Err BeaconFailed end.

Section beacons.
Context {T : Type} `{!Beacon T}.

Definition beacon_for_epoch (s : list (BeaconPoint T)) (e : Z) : result DrandError (Z * T) :=
  match find (λ u, height u <=? e) (reverse s) with Some u => Ok (height u, beacon u) | None => Err NoBeacon end.

(** The loop that collects the entries of the rounds since [prev_round], the latest first; a beacon that
    answers with later rounds would make it run forever. *)
Fixpoint collect_entries (fuel : nat) (b : T) (prev_round cur : Z) : result DrandError (list BeaconEntry) :=
  match fuel with
  | O => Err BeaconLoops
  | S fuel =>
      if prev_round <? cur then
        e ← beacon_err (entry b cur);
        out ← collect_entries fuel b prev_round (wrap_u64 (round e - 1));
        mret (e :: out)
      else mret []
  end.

Definition beacon_entries_for_block (fuel : nat) (s : list (BeaconPoint T)) (ep parent_epoch : Z) (prev : BeaconEntry)
    : result DrandError (list BeaconEntry) :=
  '(cb_epoch, curr_beacon) ← beacon_for_epoch s ep;
  '(pb_epoch, _) ← beacon_for_epoch s parent_epoch;
  if negb (cb_epoch =? pb_epoch) then
    let r := max_beacon_round_for_epoch curr_beacon ep in
    e1 ← beacon_err (entry curr_beacon (wrap_u64 (r - 1)));
    e2 ← beacon_err (entry curr_beacon r);
    mret [e1; e2]
  else
    let max_round := max_beacon_round_for_epoch curr_beacon ep in
    if max_round =? round prev then mret []
    else
      let prev_round := if round prev =? 0 then wrap_u64 (max_round - 1) else round prev in
      out ← collect_entries fuel curr_beacon prev_round max_round;
      mret (reverse out).

Fixpoint verify_entries (b : T) (prev : BeaconEntry) (l : list BeaconEntry) : result DrandError unit :=
  match l with
  | [] => mret tt
  | curr :: l =>
      ok ← beacon_err (verify_entry b curr prev);
      _ ← throw_if (negb ok) InvalidEntry;
      verify_entries b curr l
  end.

Definition validate_block_drand (h : BlockHeader) (s : list (BeaconPoint T)) (parent_epoch : Z) (prev_entry : BeaconEntry)
    : result DrandError unit :=
  '(cb_epoch, curr_beacon) ← beacon_for_epoch s (epoch h);
  '(pb_epoch, _) ← beacon_for_epoch s parent_epoch;
  if negb (cb_epoch =? pb_epoch) then
    match beacon_entries h with
    | [e0; e1] => _ ← beacon_err (verify_entry curr_beacon e1 e0); mret tt
    | _ => Err TwoEntriesExpected
    end
  else
    let max_round := max_beacon_round_for_epoch curr_beacon (epoch h) in
    if max_round =? round prev_entry then throw_if (negb (bool_decide (beacon_entries h = []))) NoEntryExpected
    else
      last_entry ← ok_or (last (beacon_entries h)) EntryExpected;
      _ ← throw_if (negb (round last_entry =? max_round)) WrongRound;
      verify_entries curr_beacon prev_entry (beacon_entries h).
End beacons.

(** *** Drand *)

Record DrandBeacon := { interval : Z; drand_gen_time : Z; fil_gen_time : Z; fil_round_time : Z; local_cache : gmap Z bytes }.
(** The signature check of drand entries, and the HTTP endpoint. *)
Class DrandNet := {
  drand_sig_ok : bytes → Z → bytes → result unit bool; drand_fetch : Z → result unit BeaconEntry }.

Section drand.
Context `{!DrandNet}.
Definition drand_verify_entry (b : DrandBeacon) (curr prev : BeaconEntry) : result unit bool :=
  if round prev =? 0 then Ok true else drand_sig_ok (data prev) (round curr) (data curr).
(** The beacon after a check: a good entry is cached. *)
Definition drand_cache (b : DrandBeacon) (curr prev : BeaconEntry) : DrandBeacon :=
  match drand_verify_entry b curr prev with
  | Ok true =>
      if negb (round prev =? 0) && negb (bool_decide (is_Some (local_cache b !! round curr))) then
        {| interval := interval b; drand_gen_time := drand_gen_time b; fil_gen_time := fil_gen_time b;
           fil_round_time := fil_round_time b; local_cache := <[round curr := data curr]> (local_cache b) |}
      else b
  | _ => b
  end.
Definition drand_entry (b : DrandBeacon) (r : Z) : result unit BeaconEntry :=
  match local_cache b !! r with Some d => Ok {| round := r; data := d |} | None => drand_fetch r end.
Definition drand_max_round (b : DrandBeacon) (fil_epoch : Z) : Z :=
  let latest_ts := wrap_u64 (wrap_u64 (wrap_u64 (wrap_u64 fil_epoch * fil_round_time b) + fil_gen_time b) - fil_round_time b) in
  wrap_u64 (latest_ts - drand_gen_time b) / interval b.
#[global] Instance drand_beacon : Beacon DrandBeacon :=
  {| verify_entry := drand_verify_entry; entry := drand_entry; max_beacon_round_for_epoch := drand_max_round |}.
End drand.

(** ** Facts *)

Section facts.
Context `{!HeaderCodec}.

Definition agree (h first : BlockHeader) : Prop := parents h = parents first ∧ state_root h = state_root first ∧ epoch h = epoch first.

Lemma verify_header_Ok first h : verify_header first tt h = Ok tt ↔ agree h first ∧ miner_address h ≠ miner_address first.
Proof.
  unfold verify_header, agree. split.
  - intros Hv. inv_ok. reflect_bools. split_and!; done || lia.
  - intros ((-> & -> & ->) & Hm). rewrite (bool_decide_true (parents first = _)), (bool_decide_true (state_root first = _)), Z.eqb_refl, (bool_decide_false (miner_address h = _)) by done. done.
Qed.
Lemma verify_rest first l : try_fold (verify_header first) tt l = Ok tt ↔ Forall (λ h, agree h first ∧ miner_address h ≠ miner_address first) l.
Proof.
  induction l as [|h l IH]; cbn; [done|]. rewrite Forall_cons, <-IH, <-verify_header_Ok. destruct (verify_header first tt h) as [[]|]; cbn; naive_solver.
Qed.
Lemma verify_blocks_Ok l :
  verify_blocks l = Ok tt ↔ ∃ first rest, l = first :: rest ∧ Forall (λ h, agree h first ∧ miner_address h ≠ miner_address first) rest.
Proof. destruct l as [|first rest]; cbn; [naive_solver|]. rewrite verify_rest. naive_solver. Qed.
Lemma tipset_new_Ok l ts : tipset_new l = Ok ts ↔ verify_blocks l = Ok tt ∧ ts = {| ts_headers := sort_by_key to_sort_key l |}.
Proof.
  unfold tipset_new. destruct (verify_blocks l) as [[]|]; cbn; [|split; [done|by intros []]]. split; [by intros [= <-]|by intros [_ ->]].
Qed.

(** With distinct miners the checks do not depend on the order of the headers. *)
Lemma verify_blocks_perm l l' : NoDup (miner_address <$> l) → l ≡ₚ l' → verify_blocks l = Ok tt → verify_blocks l' = Ok tt.
Proof.
  intros Hnd Hp (first & rest & -> & Hall)%verify_blocks_Ok. destruct l' as [|f' l']; [by apply Permutation_nil_r in Hp|].
  apply verify_blocks_Ok. exists f', l'. split; [done|]. assert (Ha : ∀ h, h ∈ f' :: l' → agree h first).
  { intros h. rewrite <-Hp. intros [->|Hh]%elem_of_cons; [done|]. rewrite Forall_forall in Hall. by apply Hall. }
  rewrite Hp in Hnd. cbn in Hnd. apply NoDup_cons in Hnd as [Hn _]. apply Forall_forall. intros h Hh. split.
  - destruct (Ha h ltac:(by right)) as (?&?&?), (Ha f' ltac:(by left)) as (?&?&?). unfold agree. split_and!; congruence.
  - intros He. apply Hn. rewrite <-He. by apply list_elem_of_fmap_2.
Qed.
Lemma sort_keys_distinct l : NoDup (header_cid <$> l) → Forall (λ h, is_Some (ticket h)) l → NoDup (to_sort_key <$> l).
Proof.
  induction l as [|h l IH]; cbn; [constructor|]. intros [Hn Hnd]%NoDup_cons [[t Ht] Hl]%Forall_cons. constructor; [|by apply IH].
  intros (h' & He & Hin)%list_elem_of_fmap. rewrite Forall_forall in Hl. destruct (Hl h' Hin) as [t' Ht']. unfold to_sort_key in He. rewrite Ht, Ht' in He. cbn in He.
  injection He as _ He. apply Hn. rewrite He. by apply list_elem_of_fmap_2.
Qed.

Lemma win_loop_bounds fuel lhs p j : j ≤ win_loop fuel lhs p j ≤ j + Z.of_nat fuel.
Proof.
  revert p j. induction fuel as [|fuel IH]; intros p j; cbn [win_loop]; [lia|]. case_if; [|lia]. specialize (IH (poiss_next p) (j + 1)). lia.
Qed.
Lemma win_loop_anti fuel lhs lhs' p j : lhs ≤ lhs' → win_loop fuel lhs' p j ≤ win_loop fuel lhs p j.
Proof.
  intros Hl. revert p j. induction fuel as [|fuel IH]; intros p j; cbn [win_loop]; [lia|].
  destruct (lhs' <? icdf p) eqn:E; cbn [andb]; [|pose proof (win_loop_bounds (S fuel) lhs p j) as Hb; cbn [win_loop] in Hb; lia].
  replace (lhs <? icdf p) with true by (symmetry; lia). cbn [andb]. case_if; [apply IH|lia].
Qed.
(** More fuel changes nothing: the loop stops at [MAX_WIN_COUNT]. *)
Lemma win_loop_fuel fuel extra lhs p j : MAX_WIN_COUNT - j ≤ Z.of_nat fuel → win_loop (fuel + extra) lhs p j = win_loop fuel lhs p j.
Proof.
  revert p j. induction fuel as [|fuel IH]; intros p j Hf.
  - cbn [Nat.add win_loop]. destruct extra; [done|]. cbn [win_loop]. replace (j <? MAX_WIN_COUNT) with false by (symmetry; lia). by rewrite andb_false_r.
  - cbn [Nat.add win_loop]. case_if; [|done]. apply IH. lia.
Qed.
End facts.

(** ** Theorems *)

(** C0.  A tipset depends only on the set of its blocks: if the miners and the CIDs of the headers are distinct and all have
    tickets, then the same headers in any order make the same tipset, or none.  Its headers are those given, in the order of their
    tickets, the least first, and agree on parents, state root and epoch. *)
Theorem tipset_canonical `{!HeaderCodec} (l l' : list BlockHeader) (ts : Tipset) :
  NoDup (miner_address <$> l) → NoDup (header_cid <$> l) → Forall (λ h, is_Some (ticket h)) l → l ≡ₚ l' → tipset_new l = Ok ts →
  tipset_new l' = Ok ts ∧ ts_headers ts ≡ₚ l ∧ sorted_by to_sort_key (ts_headers ts) ∧
  ∃ first, min_ticket_block ts = Some first ∧ Forall (λ h, agree h first ∧ key_le to_sort_key first h) l.
Proof.
  intros Hnd Hc Ht Hp [Hv ->]%tipset_new_Ok. pose proof (sort_keys_distinct l Hc Ht) as Hk. cbn. split; [apply tipset_new_Ok; split; [by eapply verify_blocks_perm|]; by rewrite (sort_by_key_proper to_sort_key l l')|].
  split; [apply sort_by_key_perm'|]. split; [apply (sort_by_key_sorted' to_sort_key)|]. unfold min_ticket_block. cbn.
  pose proof (sort_by_key_perm' to_sort_key l) as Hsp. pose proof (sort_by_key_sorted' to_sort_key l) as Hs.
  assert (Hv' : verify_blocks (sort_by_key to_sort_key l) = Ok tt) by (by eapply verify_blocks_perm).
  apply verify_blocks_Ok in Hv' as (fst_h & rest & Heq & Hall). exists fst_h. split; [by rewrite Heq|]. rewrite <-Hsp. rewrite Heq in *.
  apply StronglySorted_inv in Hs as [_ Hle]. constructor; [split; [done|]; unfold key_le; by rewrite cmp_refl|].
  rewrite Forall_forall in *. intros h Hh. split; [by apply Hall|by apply Hle].
Qed.

(** C0.  The number of wins of an election lies between none and three times the expected number of blocks, the bound
    of the loop being enough whatever the power, and a smaller hash never wins less often. *)
Theorem win_count_correct `{!HeaderCodec} (e e' : ElectionProof) (power total_power : Z) :
  unsigned_be (blake2b_256 (ep_vrfproof e)) ≤ unsigned_be (blake2b_256 (ep_vrfproof e')) →
  0 ≤ compute_win_count e' power total_power ≤ compute_win_count e power total_power ∧
  compute_win_count e power total_power ≤ MAX_WIN_COUNT ∧
  ∀ extra, win_loop (Z.to_nat MAX_WIN_COUNT + extra) (unsigned_be (blake2b_256 (ep_vrfproof e))) (poiss_new (lambda power total_power)) 0
           = compute_win_count e power total_power.
Proof.
  intros Hl. unfold compute_win_count. split; [split|split].
  - apply win_loop_bounds.
  - by apply win_loop_anti.
  - pose proof (win_loop_bounds (Z.to_nat MAX_WIN_COUNT) (unsigned_be (blake2b_256 (ep_vrfproof e))) (poiss_new (lambda power total_power)) 0) as Hb.
    unfold MAX_WIN_COUNT, BLOCKS_PER_EPOCH in *. lia.
  - intros extra. apply win_loop_fuel. unfold MAX_WIN_COUNT, BLOCKS_PER_EPOCH. lia.
Qed.

(** *** Beacons *)

(** What the node expects of a beacon: its entries carry the rounds asked for, each is verified by the one before, and any by one of
    round 0; rounds are 64-bit numbers. *)
Class BeaconOk (T : Type) `{!Beacon T} : Prop := {
  entry_round (b : T) r e : entry b r = Ok e → round e = r;
  entry_verifies (b : T) r e e' : 0 ≤ r → entry b r = Ok e → entry b (r + 1) = Ok e' → verify_entry b e' e = Ok true;
  genesis_verifies (b : T) e e' : round e = 0 → verify_entry b e' e = Ok true;
  max_round_u64 (b : T) ep : 0 ≤ max_beacon_round_for_epoch b ep < 2 ^ 64 }.

Definition is_Ok {E A} (r : result E A) : Prop := ∃ a, r = Ok a.

Section beacon_facts.
Context {T : Type} `{!Beacon T, !BeaconOk T}.
Implicit Types b : T.

Lemma verify_snoc b p l e :
  verify_entries b p l = Ok tt → verify_entry b e (default p (last l)) = Ok true → verify_entries b p (l ++ [e]) = Ok tt.
Proof.
  revert p. induction l as [|x l IH]; intros p Hl He; [cbn in *; by rewrite He|]. cbn [verify_entries app] in *.
  destruct (verify_entry b x p) as [[]|]; try done. cbn in Hl |- *. apply IH; [done|]. rewrite last_cons in He. by destruct (last l).
Qed.

(** The collected entries are one for each round after [p], each verified by the one before. *)
Lemma collect_ok fuel b p cur e0 :
  0 ≤ p ≤ cur → cur < 2 ^ 64 → cur - p < Z.of_nat fuel → (∀ r, p < r ≤ cur → is_Ok (entry b r)) →
  (∀ e, entry b (p + 1) = Ok e → verify_entry b e e0 = Ok true) →
  ∃ l, collect_entries fuel b p cur = Ok l ∧ verify_entries b e0 (reverse l) = Ok tt ∧
    (if decide (p = cur) then l = [] else ∃ e, last (reverse l) = Some e ∧ entry b cur = Ok e).
Proof.
  revert cur. induction fuel as [|fuel IH]; intros cur Hp Hc Hf Hall Hv; [lia|]. cbn [collect_entries].
  destruct (decide (p = cur)) as [->|Hne]; [rewrite Z.ltb_irrefl; eauto|]. replace (p <? cur) with true by (symmetry; lia).
  destruct (Hall cur ltac:(lia)) as [e He]. rewrite He. cbn [beacon_err mbind result_bind]. rewrite (entry_round _ _ _ He). unfold wrap_u64. rewrite Z.mod_small by lia.
  destruct (IH (cur - 1)) as (l & Hl & Hvl & Hlast); [lia..|intros; apply Hall; lia|done|]. exists (e :: l).
  rewrite Hl, reverse_cons. cbn [mbind result_bind]. split; [done|]. split; [|exists e; by rewrite last_snoc].
  apply verify_snoc; [done|]. case_decide as Hd.
  - subst l. cbn. apply Hv. by replace (p + 1) with cur by lia.
  - destruct Hlast as (e1 & -> & He1). cbn. eapply (entry_verifies b (cur - 1)); [lia|done|]. by replace (cur - 1 + 1) with cur by lia.
Qed.
End beacon_facts.

(** C0.  The beacon entries that a node collects for a new block pass the checks of the nodes that
    receive it: within one beacon, when the previous entry is the beacon's own or that of genesis and not later than the round of the block; and at the
    start of a new beacon.  Collecting them ends, with one entry for each round since the previous one. *)
Theorem beacon_entries_accepted {T} `{!Beacon T, !BeaconOk T} (s : list (BeaconPoint T)) (b : T) (h : BlockHeader) (start parent_epoch : Z) (prev : BeaconEntry) :
  let r := max_beacon_round_for_epoch b (epoch h) in
  beacon_for_epoch s (epoch h) = Ok (start, b) → is_Ok (beacon_for_epoch s parent_epoch) →
  0 ≤ round prev ≤ r → 0 < r → (round prev = 0 ∨ entry b (round prev) = Ok prev) → (∀ r', 0 ≤ r' ≤ r → is_Ok (entry b r')) →
  ∃ es, beacon_entries_for_block (Z.to_nat r + 1) s (epoch h) parent_epoch prev = Ok es ∧
    (beacon_entries h = es → validate_block_drand h s parent_epoch prev = Ok tt).
Proof.
  intros r Hb [[pe pb] Hpb] Hr Hr0 Hprev Hall. unfold beacon_entries_for_block, validate_block_drand. pose proof (max_round_u64 b (epoch h)) as Hu. fold r in Hu.
  rewrite Hb, Hpb. cbn [mbind result_bind]. fold r. destruct (start =? pe) eqn:Ee; cbn [negb].
  - destruct (r =? round prev) eqn:Er; [exists []; split; [done|]; intros ->; by rewrite bool_decide_true|].
    set (p := if round prev =? 0 then wrap_u64 (r - 1) else round prev).
    assert (Hp : p = if round prev =? 0 then r - 1 else round prev) by (unfold p, wrap_u64; case_if; [apply Z.mod_small; lia|done]).
    assert (Hpr : 0 ≤ p < r) by (rewrite Hp; case_if; lia).
    destruct (collect_ok (Z.to_nat r + 1) b p r prev) as (l & Hl & Hv & Hlast); [lia..|intros; apply Hall; lia| |].
    + intros e He. destruct (decide (round prev = 0)) as [H0|H0]; [by apply genesis_verifies|]. destruct Hprev as [|Hprev]; [lia|].
      rewrite Hp in He. replace (round prev =? 0) with false in He by (symmetry; lia). eapply entry_verifies; [|exact Hprev|exact He]. lia.
    + rewrite Hl. exists (reverse l). split; [done|]. intros ->. rewrite decide_False in Hlast by lia.
      destruct Hlast as (e & -> & He). cbn. rewrite (entry_round _ _ _ He), Z.eqb_refl. cbn. exact Hv.
  - unfold wrap_u64. rewrite Z.mod_small by lia. destruct (Hall (r - 1) ltac:(lia)) as [e1 He1], (Hall r ltac:(lia)) as [e2 He2]. rewrite He1, He2. cbn.
    exists [e1; e2]. split; [done|]. intros ->. rewrite (entry_verifies b (r - 1) e1 e2); [done|lia|done|]. by replace (r - 1 + 1) with r by lia.
Qed.

(** *** Examples *)

(** A header by a miner at an epoch, with a ticket; the time tells headers apart. *)
Definition ex_header (miner ep tick time : Z) (es : list BeaconEntry) : BlockHeader :=
  {| parents := [[0]]; weight := 10; epoch := ep; beacon_entries := es; winning_post_proof := []; miner_address := {| network := Mainnet; payload := ID miner |};
     messages := [1]; message_receipts := [2]; state_root := [3]; fork_signal := 0; bh_signature := None;
     election_proof := Some {| win_count := 1; ep_vrfproof := [200] |}; timestamp := time; ticket := Some {| vrfproof := [tick] |};
     bls_aggregate := None; parent_base_fee := 100 |}.
#[export] Instance ex_header_codec : HeaderCodec := {| header_cid h := [timestamp h]; blake2b_256 bz := bz; sha256 bz := bz |}.
(** A beacon with a round for each epoch, whose entries hold their round. *)
#[export] Instance ex_beacon : Beacon unit := {|
  verify_entry _ e p := Ok ((round p =? 0) || bool_decide (data e = [round p + 1])); entry _ r := Ok {| round := r; data := [r] |};
  max_beacon_round_for_epoch _ ep := wrap_u64 ep |}.
#[export] Instance ex_beacon_ok : BeaconOk unit.
Proof.
  split; cbn.
  - by intros _ r e [= <-].
  - intros _ r e e' _ [= <-] [= <-]. cbn. rewrite bool_decide_true by done. by rewrite orb_true_r.
  - intros _ e e' ->. done.
  - intros. apply Z.mod_pos_bound. done.
Qed.

Lemma tipset_canonical_witness :
  let a := ex_header 100 7 9 1 [] in let b := ex_header 101 7 4 2 [] in
  tipset_new [a; b] = Ok {| ts_headers := [b; a] |} ∧ tipset_new [b; a] = Ok {| ts_headers := [b; a] |}.
Proof.
  split; [reflexivity|]. refine (proj1 (tipset_canonical [ex_header 100 7 9 1 []; ex_header 101 7 4 2 []] _ _ _ _ _ _ _)).
  - apply (bool_decide_unpack _). reflexivity.
  - apply (bool_decide_unpack _). reflexivity.
  - repeat constructor; by eexists.
  - apply perm_swap.
  - reflexivity.
Defined.
Lemma win_count_correct_witness :
  compute_win_count {| win_count := 0; ep_vrfproof := repeat 255 32 |} 10 100 ≤ compute_win_count {| win_count := 0; ep_vrfproof := [0] |} 10 100.
Proof. refine (proj2 (proj1 (win_count_correct {| win_count := 0; ep_vrfproof := [0] |} {| win_count := 0; ep_vrfproof := repeat 255 32 |} 10 100 _))). vm_compute. discriminate. Defined.
Lemma beacon_entries_accepted_witness :
  ∃ es, beacon_entries_for_block 8 [{| height := 0; beacon := tt |}] 7 6 {| round := 4; data := [4] |} = Ok es ∧
    (beacon_entries (ex_header 100 7 9 1 [{| round := 5; data := [5] |}; {| round := 6; data := [6] |}; {| round := 7; data := [7] |}]) = es →
     validate_block_drand (ex_header 100 7 9 1 [{| round := 5; data := [5] |}; {| round := 6; data := [6] |}; {| round := 7; data := [7] |}])
       [{| height := 0; beacon := tt |}] 6 {| round := 4; data := [4] |} = Ok tt).
Proof.
  refine (beacon_entries_accepted [{| height := 0; beacon := tt |}] tt
    (ex_header 100 7 9 1 [{| round := 5; data := [5] |}; {| round := 6; data := [6] |}; {| round := 7; data := [7] |}]) 0 6 {| round := 4; data := [4] |} _ _ _ _ _ _).
  - reflexivity.
  - by eexists.
  - vm_compute. split; discriminate.
  - done.
  - by right.
  - intros. by eexists.
Defined.

(** C0.  Only the first block of a tipset is compared with the others: two blocks of one miner are accepted behind a block of
    another miner, and rejected in front of it. *)
Theorem same_miner_accepted :
  let a := ex_header 100 7 1 1 [] in let b := ex_header 101 7 2 2 [] in let c := ex_header 101 7 3 3 [] in
  tipset_new [a; b; c] = Ok {| ts_headers := [a; b; c] |} ∧ tipset_new [b; a; c] = Err SameMiner.
Proof. split; reflexivity. Qed.

(** C0.  At the start of a new beacon the result of the check of the entries is dropped: entries that the beacon rejects
    are accepted. *)
Theorem fork_entry_unchecked :
  let s := [{| height := 0; beacon := tt |}; {| height := 5; beacon := tt |}] in
  let e0 := {| round := 6; data := [0] |} in let e1 := {| round := 7; data := [0] |} in
  verify_entry tt e1 e0 = Ok false ∧ validate_block_drand (ex_header 100 7 1 1 [e0; e1]) s 4 {| round := 4; data := [4] |} = Ok tt.
Proof. split; reflexivity. Qed.

(** C0.  The hash of a ticket is read as a signed number: a ticket whose hash starts with a set bit wins without any power. *)
Theorem negative_ticket_wins `{!HeaderCodec} (t : Ticket) (b : Z) (bz : bytes) (net_pow : Z) :
  sha256 (vrfproof t) = b :: bz → 128 ≤ b < 256 → Forall (λ x, 0 ≤ x < 256) bz → 0 < net_pow → is_ticket_winner t 0 net_pow = true.
Proof.
  intros Hs Hb Hbz Hp. unfold is_ticket_winner. rewrite Hs, Z.shiftl_0_l. assert (Hu : 0 ≤ unsigned_be bz < 256 ^ Z.of_nat (length bz)).
  { clear Hs. induction Hbz as [|x bz Hx Hbz IH]; cbn [unsigned_be length]; [lia|]. rewrite Nat2Z.inj_succ, Z.pow_succ_r by lia. nia. }
  assert (signed_be (b :: bz) < 0); [|nia]. unfold signed_be. replace (128 <=? b) with true by (symmetry; lia). cbn [unsigned_be length].
  rewrite Nat2Z.inj_succ, Z.pow_succ_r by lia. nia.
Qed.
Lemma negative_ticket_wins_witness : is_ticket_winner {| vrfproof := [200; 1] |} 0 5 = true.
Proof. apply (negative_ticket_wins {| vrfproof := [200; 1] |} 200 [1] 5); [reflexivity|lia|repeat constructor; lia|lia]. Defined.
