(* ===== verification/ChainIndex.v ===== *)
(** * Looking back in the chain

    Loading tipsets through the cache, and the sparse index with which a node finds the tipset of an
    earlier epoch ([src/blockchain/chain/src/store/index.rs] and [tipset_from_keys], [tipset_by_height] of
    [chain_store.rs]).  The LRU caches are the class [Cache]: what they answer was put there, and they may
    forget anything. *)

From S2P Require Import Prelude Address Types Messages Sorting Blocks.

(** ** Caches *)

(** [lru::LruCache]: a lookup marks the entry as used, and a new entry may drive out another. *)
Class Cache (C K V : Type) := { cache_get : C → K → option V; cache_touch : C → K → C; cache_put : C → K → V → C }.
Class CacheOk (C K V : Type) `{!Cache C K V} : Prop := {
  cache_get_touch (c : C) (k k' : K) : cache_get (cache_touch c k) k' = cache_get c k';
  cache_get_put (c : C) (k k' : K) (v w : V) :
    cache_get (cache_put c k v) k' = Some w → k' = k ∧ w = v ∨ cache_get c k' = Some w }.

Inductive ChainError := DbFailed | HeaderNotFound | BadTipset (e : TipsetError) | HeightAboveStart | NoHeaviest | LookupLoops.

Record LookbackEntry := { lb_tipset : Tipset; parent_height : Z; target_height : Z; target : TipsetKeys }.
Definition SKIP_LENGTH : Z := 20.
Definition round_height (h : Z) : Z := Z.quot h SKIP_LENGTH * SKIP_LENGTH.

Section index.
Context `{!HeaderCodec}.
(** [BlockStore::get] at headers. *)
Context (db_get : Cid → result ChainError (option BlockHeader)).
Context {TC SC : Type} `{!Cache TC TipsetKeys Tipset, !Cache SC TipsetKeys LookbackEntry}.

Record ChainIndex := { ts_cache : TC; skip_cache : SC }.
Definition IM (A : Type) : Type := ChainIndex → ChainIndex * result ChainError A.
#[global] Instance im_ret : MRet IM := λ A a s, (s, Ok a).
#[global] Instance im_bind : MBind IM := λ A B f m s, match m s with (s, Ok a) => f a s | (s, Err e) => (s, Err e) end.
Definition im_throw {A} (e : ChainError) : IM A := λ s, (s, Err e).

(** *** Loading *)

Definition load_header (c : Cid) : result ChainError BlockHeader := o ← db_get c; ok_or o HeaderNotFound.
(** A tipset straight from the store. *)
Definition load_uncached (tsk : TipsetKeys) : result ChainError Tipset :=
  headers ← mapM load_header tsk;
  match tipset_new headers with Ok ts => Ok ts | Err e => Err (BadTipset e) end.
Definition tipset_from_keys (tsk : TipsetKeys) : IM Tipset := λ s,
  let s' := {| ts_cache := cache_touch (ts_cache s) tsk; skip_cache := skip_cache s |} in
  match cache_get (ts_cache s) tsk with
  | Some ts => (s', Ok ts)
  | None =>
      match load_uncached tsk with
      | Ok ts => ({| ts_cache := cache_put (ts_cache s') tsk ts; skip_cache := skip_cache s |}, Ok ts)
      | Err e => (s', Err e)
      end
  end.

(** *** Walking back *)

Fixpoint walk_loop (fuel : nat) (ts : Tipset) (to : Z) : IM Tipset :=
  match fuel with
  | O => im_throw LookupLoops
  | S fuel =>
      pts ← tipset_from_keys (ts_parents ts);
      if ts_epoch pts <? to then mret ts
      else if to =? ts_epoch pts then mret pts
      else walk_loop fuel pts to
  end.
Definition walk_back (fuel : nat) (from : Tipset) (to : Z) : IM Tipset :=
  if ts_epoch from <? to then im_throw HeightAboveStart
  else if to =? ts_epoch from then mret from
  else walk_loop fuel from to.
Definition round_down (fuel : nat) (ts : Tipset) : IM Tipset := walk_back fuel ts (round_height (ts_epoch ts)).

(** *** The index *)

Definition put_skip (tsk : TipsetKeys) (lbe : LookbackEntry) : IM LookbackEntry := λ s,
  ({| ts_cache := ts_cache s; skip_cache := cache_put (skip_cache s) tsk lbe |}, Ok lbe).
Definition fill_cache (fuel : nat) (tsk : TipsetKeys) : IM LookbackEntry :=
  tipset ← tipset_from_keys tsk;
  if ts_epoch tipset =? 0 then mret {| lb_tipset := tipset; parent_height := 0; target_height := 0; target := [] |}
  else
    parent ← tipset_from_keys (ts_parents tipset);
    let r_height := round_height (ts_epoch tipset) - SKIP_LENGTH in
    let parent_epoch := ts_epoch parent in
    skip_target ← (if parent_epoch <? r_height then mret parent else walk_back fuel parent r_height);
    let lbe := {| lb_tipset := tipset; parent_height := parent_epoch; target_height := ts_epoch skip_target; target := ts_key skip_target |} in
    put_skip tsk lbe.

Definition lookback_entry (fuel : nat) (cur : TipsetKeys) : IM LookbackEntry := λ s,
  let s' := {| ts_cache := ts_cache s; skip_cache := cache_touch (skip_cache s) cur |} in
  match cache_get (skip_cache s) cur with
  | Some lbe => (s', Ok lbe)
  | None => fill_cache fuel cur s'
  end.
Fixpoint index_loop (fuel : nat) (cur : TipsetKeys) (to : Z) : IM Tipset :=
  match fuel with
  | O => im_throw LookupLoops
  | S fuel' =>
      lbe ← lookback_entry fuel cur;
      if (ts_epoch (lb_tipset lbe) =? to) || (parent_height lbe <? to) then mret (lb_tipset lbe)
      else if target_height lbe <? to then walk_back fuel (lb_tipset lbe) to
      else index_loop fuel' (target lbe) to
  end.
Definition get_tipset_by_height (fuel : nat) (from : Tipset) (to : Z) : IM Tipset :=
  if ts_epoch from - to <=? SKIP_LENGTH then walk_back fuel from to
  else rounded ← round_down fuel from; index_loop fuel (ts_key rounded) to.
Definition get_tipset_by_height_without_cache (fuel : nat) (from : Tipset) (to : Z) : IM Tipset := walk_back fuel from to.

(** [ChainStore::tipset_by_height]; [heaviest] answers for the empty key. *)
Definition store_tipset_from_keys (heaviest : option Tipset) (tsk : TipsetKeys) : IM Tipset :=
  match tsk with
  | [] => match heaviest with Some ts => mret ts | None => im_throw NoHeaviest end
  | _ => tipset_from_keys tsk
  end.
Definition tipset_by_height (fuel : nat) (heaviest : option Tipset) (height : Z) (ts : Tipset) (prev : bool) : IM Tipset :=
  if ts_epoch ts <? height then im_throw HeightAboveStart
  else if height =? ts_epoch ts then mret ts
  else
    lbts ← get_tipset_by_height fuel ts height;
    lbts ← (if ts_epoch lbts <? height then get_tipset_by_height_without_cache fuel ts height else mret lbts);
    if (ts_epoch lbts =? height) || negb prev then mret lbts
    else store_tipset_from_keys heaviest (ts_parents lbts).

(** ** The chain behind a tipset *)

Notation load := load_uncached.

(** All tipsets from here to genesis can be loaded, by their own keys and as parents, and epochs go down. *)
Inductive lineage : Tipset → Prop :=
| lineage_genesis ts : load (ts_key ts) = Ok ts → ts_epoch ts = 0 → lineage ts
| lineage_step ts p :
    load (ts_key ts) = Ok ts → load (ts_parents ts) = Ok p → 0 ≤ ts_epoch p < ts_epoch ts → lineage p → lineage ts.
Inductive anc : Tipset → Tipset → Prop :=
| anc_refl ts : anc ts ts
| anc_step ts p r : ts_epoch ts ≠ 0 → load (ts_parents ts) = Ok p → anc p r → anc ts r.
(** The tipset at a height, or the first one above it if the round is null. *)
Definition found (ts : Tipset) (to : Z) (r : Tipset) : Prop :=
  anc ts r ∧ to ≤ ts_epoch r ∧ (ts_epoch r = to ∨ ts_epoch r ≠ 0 ∧ ∃ p, load (ts_parents r) = Ok p ∧ ts_epoch p < to).

Lemma lineage_nonneg ts : lineage ts → 0 ≤ ts_epoch ts.
Proof. destruct 1; lia. Qed.
Lemma lineage_key ts : lineage ts → load (ts_key ts) = Ok ts.
Proof. by destruct 1. Qed.
Lemma lineage_parent ts p : lineage ts → ts_epoch ts ≠ 0 → load (ts_parents ts) = Ok p → lineage p ∧ 0 ≤ ts_epoch p < ts_epoch ts.
Proof. destruct 1 as [|ts p' _ Hp He Hl]; [done|]. rewrite Hp. by intros _ [= <-]. Qed.
Lemma lineage_has_parent ts : lineage ts → ts_epoch ts ≠ 0 → ∃ p, load (ts_parents ts) = Ok p ∧ lineage p ∧ 0 ≤ ts_epoch p < ts_epoch ts.
Proof. destruct 1 as [|ts p' _ Hp He Hl]; [done|]. eauto. Qed.
Lemma anc_trans a b c : anc a b → anc b c → anc a c.
Proof. induction 1; eauto using anc. Qed.

Lemma anc_lineage ts r : lineage ts → anc ts r → lineage r ∧ ts_epoch r ≤ ts_epoch ts.
Proof.
  intros Hl Ha. induction Ha as [|ts p r H0 Hp _ IH]; [split; [done|lia]|]. destruct (lineage_parent ts p) as [Hlp ?]; [done..|].
  destruct IH; [done..|]. split; [done|lia].
Qed.
Lemma found_trans a b to r : anc a b → found b to r → found a to r.
Proof. intros Ha (Hb & ? & ?). split; [by eapply anc_trans|done]. Qed.
Lemma found_unique ts to r r' : lineage ts → found ts to r → found ts to r' → r = r'.
Proof.
  intros Hl (Ha & Hr & Hm) (Ha' & Hr' & Hm'). induction Ha as [ts|ts p r H0 Hp Ha IH]; inversion Ha' as [|? p' ? H0' Hp' Ha'']; subst; [done|..].
  - destruct (lineage_parent ts p') as [Hlp He]; [done..|]. destruct (anc_lineage p' r' Hlp Ha'') as [_ Hle]. destruct Hm as [|(_ & p & Hp & Hlt)]; [lia|]. replace p' with p in * by congruence. lia.
  - destruct (lineage_parent r' p) as [Hlp He]; [done..|]. destruct (anc_lineage p r Hlp Ha) as [_ Hle]. destruct Hm' as [|(_ & p' & Hp' & Hlt)]; [lia|]. replace p' with p in * by congruence. lia.
  - replace p' with p in * by congruence. apply IH; [|done..]. by eapply lineage_parent.
Qed.

(** ** What the caches hold *)

Definition entry_of (k : TipsetKeys) (e : LookbackEntry) : Prop :=
  ∃ x p y, load k = Ok x ∧ ts_epoch x ≠ 0 ∧ load (ts_parents x) = Ok p ∧
    (let r := round_height (ts_epoch x) - SKIP_LENGTH in if ts_epoch p <? r then y = p else found p r y) ∧
    e = {| lb_tipset := x; parent_height := ts_epoch p; target_height := ts_epoch y; target := ts_key y |}.
Record index_ok (s : ChainIndex) : Prop := {
  ts_cache_ok k ts : cache_get (ts_cache s) k = Some ts → load k = Ok ts;
  skip_cache_ok k e : cache_get (skip_cache s) k = Some e → entry_of k e }.

Lemma entry_unique k e e' x : load k = Ok x → lineage x → entry_of k e → entry_of k e' → e = e'.
Proof.
  intros Hk Hl (x1 & p1 & y1 & Hx1 & H1 & Hp1 & Hy1 & ->) (x2 & p2 & y2 & Hx2 & _ & Hp2 & Hy2 & ->). replace x1 with x in * by congruence. replace x2 with x in * by congruence.
  replace p2 with p1 in * by congruence. destruct (lineage_parent x p1) as [Hlp _]; [done..|]. cbn in Hy1, Hy2. destruct (ts_epoch p1 <? _); [by subst|].
  by rewrite (found_unique p1 _ y1 y2 Hlp Hy1 Hy2).
Qed.

Context `{!CacheOk TC TipsetKeys Tipset, !CacheOk SC TipsetKeys LookbackEntry}.

(** A computation whose result does not depend on what the caches hold. *)
Definition computes {A} (m : IM A) (r : result ChainError A) : Prop := ∀ s, index_ok s → index_ok (m s).1 ∧ (m s).2 = r.

Lemma computes_ret {A} (a : A) : computes (mret a) (Ok a).
Proof. by intros s. Qed.
Lemma computes_bind {A B} (m : IM A) (f : A → IM B) a r : computes m (Ok a) → computes (f a) r → computes (m ≫= f) r.
Proof. intros Hm Hf s Hs. unfold mbind, im_bind. destruct (Hm s Hs) as [Hs' Hr]. destruct (m s) as [s' r']. cbn in *. subst r'. by apply Hf. Qed.
Lemma computes_load k : computes (tipset_from_keys k) (load k).
Proof.
  intros s [Ht Hk]. unfold tipset_from_keys. destruct (cache_get (ts_cache s) k) as [ts|] eqn:E; cbn.
  - rewrite (Ht _ _ E). split; [|done]. split; cbn; [|done]. intros k' ts'. rewrite cache_get_touch. apply Ht.
  - destruct (load k) as [ts|e] eqn:El; cbn; (split; [|done]); split; cbn; try done.
    + intros k' ts' [[-> ->]|Hg]%cache_get_put; [done|]. rewrite cache_get_touch in Hg. by apply Ht.
    + intros k' ts'. rewrite cache_get_touch. apply Ht.
Qed.

Lemma walk_loop_ok fuel ts to :
  lineage ts → 0 ≤ to < ts_epoch ts → ts_epoch ts ≤ Z.of_nat fuel → ∃ r, computes (walk_loop fuel ts to) (Ok r) ∧ found ts to r.
Proof.
  revert ts. induction fuel as [|fuel IH]; intros ts Hl Hto Hf; [lia|]. destruct (lineage_has_parent ts Hl ltac:(lia)) as (p & Hp & Hlp & He). cbn [walk_loop].
  assert (Hb : ∀ r, computes (if ts_epoch p <? to then mret ts else if to =? ts_epoch p then mret p else walk_loop fuel p to) (Ok r) → computes (walk_loop (S fuel) ts to) (Ok r)).
  { intros r Hr. cbn [walk_loop]. eapply computes_bind; [|exact Hr]. rewrite <-Hp. apply computes_load. }
  cbn [walk_loop] in Hb. destruct (ts_epoch p <? to) eqn:E1; [exists ts; split; [apply Hb, computes_ret|]; split; [constructor|]; split; [lia|right; split; [lia|]; exists p; split; [done|lia]]|].
  assert (Ha : anc ts p) by (econstructor; [lia|done|constructor]).
  destruct (to =? ts_epoch p) eqn:E2; [exists p; split; [apply Hb, computes_ret|]; split; [done|]; split; [lia|left; lia]|].
  destruct (IH p) as (r & Hr & Hfd); [done|lia..|]. exists r. split; [by apply Hb|]. by eapply found_trans.
Qed.
Lemma walk_back_ok fuel ts to :
  lineage ts → 0 ≤ to ≤ ts_epoch ts → ts_epoch ts ≤ Z.of_nat fuel → ∃ r, computes (walk_back fuel ts to) (Ok r) ∧ found ts to r.
Proof.
  intros Hl Hto Hf. unfold walk_back. replace (ts_epoch ts <? to) with false by (symmetry; lia).
  destruct (to =? ts_epoch ts) eqn:E; [|apply walk_loop_ok; [done|lia..]]. exists ts. split; [apply computes_ret|]. split; [constructor|]. split; [lia|left; lia].
Qed.

(** ** The index *)

Lemma round_height_bounds h : 0 ≤ h → h - 19 ≤ round_height h ≤ h.
Proof. intros Hh. unfold round_height, SKIP_LENGTH. rewrite Z.quot_div_nonneg by lia. pose proof (Z.div_mod h 20 ltac:(lia)). pose proof (Z.mod_pos_bound h 20 ltac:(lia)). lia. Qed.
Lemma round_height_ge h n : 0 ≤ n → 20 * n ≤ h → 20 * n ≤ round_height h.
Proof. intros Hn Hh. unfold round_height, SKIP_LENGTH. rewrite Z.quot_div_nonneg by lia. pose proof (Z.div_le_lower_bound h 20 n ltac:(lia) ltac:(lia)). lia. Qed.

(** Where an entry that is computed anew points to. *)
Lemma fill_cache_ok fuel k x :
  lineage x → load k = Ok x → SKIP_LENGTH ≤ ts_epoch x → ts_epoch x ≤ Z.of_nat fuel →
  ∃ e, entry_of k e ∧ computes (fill_cache fuel k) (Ok e).
Proof.
  intros Hl Hk Hx Hf. destruct (lineage_has_parent x Hl ltac:(unfold SKIP_LENGTH in *; lia)) as (p & Hp & Hlp & He). set (r := round_height (ts_epoch x) - SKIP_LENGTH).
  assert (Hr : 0 ≤ r) by (unfold r; pose proof (round_height_ge (ts_epoch x) 1 ltac:(lia)); unfold SKIP_LENGTH in *; lia).
  assert (Hy : ∃ y, computes (if ts_epoch p <? r then mret p else walk_back fuel p r) (Ok y) ∧ (if ts_epoch p <? r then y = p else found p r y)).
  { destruct (ts_epoch p <? r) eqn:E; [exists p; split; [apply computes_ret|done]|]. apply walk_back_ok; [done|lia..]. }
  destruct Hy as (y & Hy & Hfd). set (e := {| lb_tipset := x; parent_height := ts_epoch p; target_height := ts_epoch y; target := ts_key y |}).
  assert (Hent : entry_of k e) by (exists x, p, y; split_and!; [done|lia|done|done|done]). exists e. split; [done|]. unfold fill_cache.
  eapply computes_bind; [rewrite <-Hk; apply computes_load|]. replace (ts_epoch x =? 0) with false by (unfold SKIP_LENGTH in *; symmetry; lia).
  eapply computes_bind; [rewrite <-Hp; apply computes_load|]. cbv zeta. fold r. eapply computes_bind; [exact Hy|].
  intros s [Ht Hs]. cbn. split; [|done]. split; cbn; [done|]. intros k' e' [[-> ->]|Hg]%cache_get_put; [done|by apply Hs].
Qed.
Lemma lookback_ok fuel k x :
  lineage x → load k = Ok x → SKIP_LENGTH ≤ ts_epoch x → ts_epoch x ≤ Z.of_nat fuel →
  ∃ e, entry_of k e ∧ computes (lookback_entry fuel k) (Ok e).
Proof.
  intros Hl Hk Hx Hf. destruct (fill_cache_ok fuel k x) as (e & He & Hc); [done..|]. exists e. split; [done|]. intros s Hs. unfold lookback_entry.
  assert (Hs' : index_ok {| ts_cache := ts_cache s; skip_cache := cache_touch (skip_cache s) k |}) by (destruct Hs as [Ht Hs]; split; cbn; [done|]; intros k' e'; rewrite cache_get_touch; apply Hs).
  destruct (cache_get (skip_cache s) k) as [e'|] eqn:E; [|by apply Hc]. split; [done|]. cbn. f_equal. exact (entry_unique k e' e x Hk Hl (skip_cache_ok s Hs _ _ E) He).
Qed.
(** The entry of genesis is never kept. *)
Lemma lookback_genesis fuel k x :
  load k = Ok x → ts_epoch x = 0 → computes (lookback_entry fuel k) (Ok {| lb_tipset := x; parent_height := 0; target_height := 0; target := [] |}).
Proof.
  intros Hk Hx s Hs. unfold lookback_entry. destruct (cache_get (skip_cache s) k) as [e|] eqn:E.
  { destruct (skip_cache_ok _ Hs _ _ E) as (x' & ? & ? & Hk' & H0 & _). congruence. }
  unfold fill_cache. apply (computes_bind (A:=Tipset) (tipset_from_keys k) _ x); [rewrite <-Hk; apply computes_load|rewrite Hx; apply computes_ret|].
  destruct Hs as [Ht Hs]. split; cbn; [done|]. intros k' e'. rewrite cache_get_touch. apply Hs.
Qed.

(** No gap of null rounds reaches from the third window of the index into the first. *)
Definition first_windows (ts : Tipset) : Prop :=
  ∀ a p, anc ts a → load (ts_parents a) = Ok p → 2 * SKIP_LENGTH ≤ ts_epoch a → SKIP_LENGTH ≤ ts_epoch p.
Definition indexed (ts : Tipset) (to : Z) : Prop := SKIP_LENGTH ≤ to ∨ first_windows ts.

Lemma indexed_anc a b to : anc a b → indexed a to → indexed b to.
Proof. intros Ha [?|Hw]; [by left|right]. intros x p Hx. apply Hw. by eapply anc_trans. Qed.
(** The target of an entry is genesis or outside of the first window. *)
Lemma skip_target x p y to :
  lineage x → load (ts_parents x) = Ok p → indexed x to → SKIP_LENGTH ≤ ts_epoch x → to ≤ ts_epoch y →
  (let r := round_height (ts_epoch x) - SKIP_LENGTH in if ts_epoch p <? r then y = p else found p r y) →
  anc x y ∧ lineage y ∧ ts_epoch y < ts_epoch x ∧ (ts_epoch y = 0 ∨ SKIP_LENGTH ≤ ts_epoch y).
Proof.
  intros Hl Hp Hi Hx Hto Hy. assert (H0 : ts_epoch x ≠ 0) by (unfold SKIP_LENGTH in *; lia). destruct (lineage_parent x p Hl H0 Hp) as [Hlp He]. cbn in Hy.
  assert (Ha : anc p y) by (destruct (ts_epoch p <? _); [subst; constructor|apply Hy]). destruct (anc_lineage p y Hlp Ha) as [Hly Hle].
  split; [by econstructor|]. split; [done|]. split; [lia|]. destruct Hi as [|Hw]; [right; lia|].
  destruct (decide (2 * SKIP_LENGTH ≤ ts_epoch x)) as [H2|H2].
  - right. pose proof (Hw x p (anc_refl x) Hp H2). pose proof (round_height_ge (ts_epoch x) 2 ltac:(lia) H2). destruct (ts_epoch p <? _) eqn:E; [by subst|]. destruct Hy as (_ & ? & _). unfold SKIP_LENGTH in *. lia.
  - left. assert (Hr : round_height (ts_epoch x) = 20).
    { unfold round_height, SKIP_LENGTH in *. rewrite Z.quot_div_nonneg by lia. by replace (ts_epoch x / 20) with 1 by (apply (Z.div_unique _ 20 1 (ts_epoch x - 20)); lia). }
    rewrite Hr in Hy. change (20 - SKIP_LENGTH) with 0 in Hy. replace (ts_epoch p <? 0) with false in Hy by (symmetry; lia). destruct Hy as (_ & _ & [|(Hy0 & q & Hq & Hlt)]); [done|].
    destruct (lineage_parent y q Hly Hy0 Hq). lia.
Qed.

Lemma index_loop_ok fuel k x to :
  lineage x → load k = Ok x → 0 ≤ to ≤ ts_epoch x → indexed x to → (ts_epoch x = 0 ∨ SKIP_LENGTH ≤ ts_epoch x) → ts_epoch x < Z.of_nat fuel →
  ∃ r, computes (index_loop fuel k to) (Ok r) ∧ found x to r.
Proof.
  revert k x. induction fuel as [|fuel IH]; intros k x Hl Hk Hto Hi Hx Hf; [lia|]. cbn [index_loop]. destruct (decide (ts_epoch x = 0)) as [H0|H0].
  { exists x. split; [|split; [constructor|split; [lia|left; lia]]]. eapply computes_bind; [by apply lookback_genesis|]. cbn. replace (ts_epoch x =? to) with true by (symmetry; lia). apply computes_ret. }
  destruct Hx as [|Hx]; [done|]. destruct (lookback_ok (S fuel) k x) as (e & (x' & p & y & Hk' & _ & Hp & Hy & ->) & Hc); [done..|lia|]. replace x' with x in * by congruence.
  destruct ((ts_epoch x =? to) || (ts_epoch p <? to)) eqn:E1.
  { exists x. split; [eapply computes_bind; [exact Hc|]; cbn; rewrite E1; apply computes_ret|]. split; [constructor|]. split; [lia|]. apply orb_true_iff in E1 as [E1|E1]; [left; lia|right]. split; [done|]. exists p. split; [done|lia]. }
  destruct (ts_epoch y <? to) eqn:E2.
  { destruct (walk_back_ok (S fuel) x to) as (r & Hr & Hfd); [done|lia..|]. exists r. split; [|done]. eapply computes_bind; [exact Hc|]. cbn [lb_tipset parent_height target_height]. rewrite E1, E2. exact Hr. }
  destruct (skip_target x p y to) as (Hay & Hly & Hlt & Hy0); [done..|lia|done|]. destruct (IH (ts_key y) y) as (r & Hr & Hfd); [done|by apply lineage_key|lia|by eapply indexed_anc|done|lia|].
  exists r. split; [|by eapply found_trans]. eapply computes_bind; [exact Hc|]. cbn [lb_tipset parent_height target_height target]. rewrite E1, E2. exact Hr.
Qed.
End index.
